(* ===== verification/_CoqProject ===== *)
-Q . S2P
Prelude.v
RouteTypes.v
Backoff.v
AccountConcurrency.v
RouteHealth.v
RouteHealthRegistry.v
RouteHealthClock.v
RouteHealthFacts.v
ProbeQueue.v
RuntimeHints.v
ModelIdentity.v
UpstreamConfig.v
Routing.v
RouteRetry.v
RouteAttempts.v
RoundEnd.v
ModelCatalog.v
ModelAccess.v
Protocol.v
Json.v
SseDecoder.v
ToolArguments.v
ToolAdapter.v
StreamAggregate.v
ChatCanonicalizer.v
ResponseEvents.v
ChatToResponses.v
ChatToResponsesFacts.v
ImageAdapter.v
MessageConversion.v
PayloadConversion.v
Conversations.v
RequestRules.v
ResponseRules.v
ResponsesToChat.v
ResponsesToChatFacts.v
SseFormat.v
StreamCommit.v
StreamPrefetch.v
UpstreamLeases.v
ModelGroups.v
DownstreamAdmission.v
AccountRecovery.v
CapabilityTypes.v
CapabilityResolver.v
CapabilityProfile.v
CapabilityPolicy.v
CapabilityPolicyFacts.v
ContextProfile.v
RequestFeatures.v
RequestFeaturesFacts.v
