(* ===== verification/Prelude.v ===== *)
(** * A verification development for the chat-responses-codex gateway

    The program is a gateway between clients that speak the chat-completions,
    responses or messages protocol and a set of upstream providers. A request names
    a model; the gateway finds the upstreams that serve it, the spelling and the
    keys under which each serves it, asks the health registry for admission to each
    route in turn, waits in the account queue when an account is saturated, and
    settles the outcome of every attempt. This library models the parts of that
    cycle that hold state or decide, as Rocq functions that run, and proves what
    they promise.

    ** Files

    - [Prelude]: results, saturating machine arithmetic, durations and instants
      in nanoseconds, options, lists ([retain], [position], [min_by], [max_by],
      the stable [sort_by]), the class [IterOrder] that stands for the
      unspecified order of a hash map, and the lemmas and hints the others share.
    - [RouteTypes]: identities of keys, routes and route sets, failure classes
      ([src/src/state/types.rs], [src/src/routing.rs],
      [src/src/capabilities/types.rs]).
    - [Backoff]: cooldown curves, their jitter and schedules
      ([src/src/state/route_health.rs]).
    - [AccountConcurrency]: the registry of saturated accounts
      ([src/src/state/account_concurrency.rs]): queue, probe leases, generations.
      It takes the normalisation of schedules from [Backoff].
    - [RouteHealth]: one health entry and its escalation; [RouteHealthRegistry]:
      the registry with every method of the Rust type, the permit that wraps a
      lease, and the events [run_health]; [RouteHealthClock]: which deadlines are on
      the clock; [RouteHealthFacts]: its theorems.
    - [ProbeQueue]: the queue of capability probes
      ([src/src/capabilities/probe_queue.rs]).
    - [RuntimeHints]: learned incompatibilities
      ([src/src/capabilities/runtime_hints.rs]).
    - [ModelIdentity]: equivalence of model names and alias rules
      ([src/src/state/model_identity.rs]), with the trimming of UTF-8 text.
    - [UpstreamConfig]: normalisation, validation and model resolution of one
      upstream ([src/src/state/normalize.rs]), and which health entries belong to
      the configuration ([src/src/state/route_health.rs]).
    - [ModelCatalog]: the names published for all upstreams together
      ([src/src/state/model_catalog.rs]).
    - [ModelAccess]: who may use which of them ([src/src/state/model_access.rs],
      [src/src/state/model_access_store.rs]), over [ModelCatalog].
    - [Routing]: the choice among upstreams ([src/src/routing.rs],
      [choose_upstream] of [src/src/state.rs]).
    - [RouteRetry]: the retry budget of a request and the policy that grants waits on
      it ([src/src/server/gateway/route_retry.rs]).
    - [RouteAttempts]: what a request remembers of the routes it tried: tracker,
      ledger, classification ([src/src/server/gateway/route_attempts.rs],
      [src/src/keys.rs]).
    - [RoundEnd]: the end of a routing round and the rounds of a request
      ([src/src/server/gateway.rs]), over [RouteAttempts], [RouteRetry] and
      [RouteHealthRegistry].
    - [Protocol], [Json]: the errors of the conversions, byte strings and UTF-8, and
      the documents of [serde_json], whose objects are sorted by key
      ([src/src/protocol.rs]).
    - [SseDecoder]: the incremental decoder of event streams;
      [StreamAggregate]: what a whole stream amounts to; [StreamPrefetch]: holding a
      stream back until something usable arrives
      ([src/src/protocol/stream_aggregate.rs], and the loops that drive them in
      [src/src/server/gateway/stream.rs]).
    - [SseFormat]: the frames that the gateway writes
      ([src/src/server/gateway/stream.rs], [src/src/server/gateway/claude.rs]).
    - [StreamCommit]: when a stream is committed, which documents carry output
      ([src/src/server/gateway/stream_commit.rs], [src/src/server/gateway.rs]), and
      how the first output settles the permit of [RouteHealthRegistry].
    - [ToolArguments], [ToolAdapter]: the argument text of tool calls, and the names
      under which tools are sent upstream and their calls come back
      ([src/src/protocol.rs], [src/src/protocol/tool_adapter.rs]).
    - [ChatCanonicalizer]: chat streams with a fixed identity and one terminal for each
      choice; [ResponseEvents], [ChatToResponses]: the translation of a chat stream
      into a Responses stream ([src/src/protocol.rs]); [ChatToResponsesFacts]: a strict
      client of that stream, and the theorems.
    - [ImageAdapter]: images and reasoning of one protocol as parts of another
      ([src/src/protocol/image_adapter.rs], [src/src/protocol/reasoning_adapter.rs]);
      [MessageConversion], [PayloadConversion]: messages, items, tools, requests and
      responses between the chat and the Responses protocol ([src/src/protocol.rs]).
      [Conversations], [RequestRules], [ResponseRules]: their theorems, the first about
      requests that go there and back, the second about single requests, the third about
      responses.
    - [ResponsesToChat]: the translation of a Responses stream into chat chunks
      ([src/src/protocol.rs]), as computations over its state that emit chunks or fail;
      [ResponsesToChatFacts]: what a well-formed Responses stream says (a step relation,
      [says]), a strict client of the chat stream ([chat_replay]), and the theorems.
    - [UpstreamLeases]: the slots and counters of upstream accounts
      ([src/src/state.rs]); [ModelGroups]: patterns of model groups
      ([src/src/state/types.rs]); [DownstreamAdmission]: windows, slots and costs of
      downstream keys ([src/src/state.rs], [src/src/state/cost_scope.rs],
      [src/src/state/usage.rs]).
    - [AccountRecovery]: the session through which a request waits for saturated
      accounts ([src/src/server/gateway/account_recovery.rs]), over
      [AccountConcurrency].
    - [CapabilityTypes]: capabilities, profiles, policies and the presets of dialects
      ([src/src/capabilities/types.rs]); [CapabilityResolver]: what a route can do, from
      all that is known of it ([src/src/capabilities/resolver.rs]); [CapabilityProfile]:
      what probes and requests teach about a route ([src/src/capabilities/profile.rs],
      [src/src/server/gateway/capability_probe.rs], [src/src/state.rs]);
      [CapabilityPolicy]: the compilation of configurations and what they say about a
      route ([src/src/capabilities/policy.rs], [src/src/capabilities/bootstrap.rs]);
      [CapabilityPolicyFacts]: its theorems, with those of the resolver that depend on
      compiled overrides.
    - [ContextProfile]: the context windows of models and the fallback to a larger one
      ([src/src/state/context_profile.rs]).
    - [RequestFeatures]: what a request asks of a route
      ([src/src/server/gateway/capability_routing.rs]); [RequestFeaturesFacts]: its
      theorems.

    Names are those of the source, with a prefix where two components use the same
    one ([hint_insert], [finish_probe_job]); record fields carry a short prefix.

    ** Conventions

    A method that takes [&mut self] is a function from state to state and result;
    the methods that hold a mutex for their whole body are single steps, so that a
    sequence of events is every interleaving of callers. [None] as the outer result
    is a panic; an error value is [Err] of [result]. The clock is an argument:
    theorems about traces allow any times unless they say otherwise. Integers are
    [Z] with the saturation, clamping or wrapping of the source written out.
    An [Instant] ends ([instant_max]), and [now + duration] past its end panics: the
    registry of accounts computes with [instant_add], and an event of the health
    registry panics that leaves a deadline past the end ([on_clock]; every sum there
    becomes a deadline). Theorems about the absence of panics therefore say how long the
    clock has to last ([in_time], [health_in_time], [sound]). Left out are the sums of
    a wait loop with its own fixed intervals and of a session with its configured
    budget. What a rejection reads from the tuning, which another thread may write
    between the reads, is an argument ([TuningReads]). SHA-256, UUIDs and [DefaultHasher]
    are parameters of which nothing is assumed. A [HashMap] is a [gmap]; where a
    result depends on its order the definition takes the order from [IterOrder], and
    the theorems hold for every order. Recursion is structural everywhere, except
    for the trimming of text, whose fuel is the length of the text; each round
    removes at least one byte ([trim_front_done]), and for the loops that take events
    from a decoder, whose fuel is the length of its buffer; each round consumes a
    frame ([decode_stream_refines] shows that it is enough). The reading and printing
    of JSON text are parameters. Fresh identifiers are arguments, one for each place
    that draws one ([Draws]). The search for a free tool name has fuel for the twelve
    lengths that a suffix can have ([generated_name_total]).

    An [async] function that others can run between is a computation over the shared
    registries that takes a list of turns, one for each time that it yields: a turn
    gives the clock and what others did to the registries in between. A wait loop has
    as much fuel as there are turns; each of its rounds takes at least one.

    ** What the theorems show

    - Route health. Every reachable registry is well formed and bounded, and while the
      clock lasts only the early probe panics ([health_registry_invariant],
      [health_capacity_bounds]); admission reports exactly what the entries say
      ([reserve_outcome]); a half-open lease is exclusive in its window and unique
      until it expires ([half_open_exclusive]); a failure blocks for its cooldown,
      lets one request through and is cleared by its success ([failure_lifecycle]);
      the failure that came right after an admission is not cleared by its success
      ([stale_success_keeps_failure]); exempt
      capacity failures never cool ([capacity_failure_never_cools]); steps, tuning,
      summaries and the passthrough mode behave as documented.
    - Backoff. Cooldowns stay within the jitter of the curve and escalate
      ([route_cooldown_bounds], [route_schedule_escalates]).
    - Accounts. The invariant, and which operations return
      ([account_registry_invariant]), one probe at a time
      ([probe_lease_exclusive]), fencing of expired leases
      ([expired_lease_never_settles]), first in, first out
      ([queue_keeps_order], [probe_granted_iff_ready]) and the waits that
      rejections impose ([rejection_bounds_wait]).
    - Probes and hints. The queue keeps its limits and loses no job
      ([probe_queue_invariant], [start_next_spec], [enqueue_loses_nothing]); the
      hint table stays bounded and its snapshots agree with it
      ([hint_insert_spec], [snapshot_agrees]).
    - Models. Identity is a partial equivalence ([identity_is_equivalence]), aliases
      are unambiguous ([alias_rules_unambiguous]), what an upstream advertises is
      what it resolves, case aside ([advertised_iff_resolved]), validated mappings do not
      interfere ([validated_mappings_unambiguous]), keys and normalisation are as
      promised ([keys_for_model_spec], [normalize_for_storage_idempotent]).
    - Catalogue and access. What is published is what the active upstreams advertise
      ([catalog_publishes], [published_name_found]); what may be allowed is a lattice
      ([allowed_lattice]); the decision for a key is its policy
      ([key_access_decided]), and the list that requests are checked against says the
      same ([request_checked_by_policy], [legacy_projection_roundtrip]), unless an
      alias stands for the wildcard ([wildcard_alias_opens_group]).
    - Choice. The best healthy upstream is chosen ([choose_upstream_spec],
      [select_upstream_spec]); the weighted pick is sound and fair
      ([weighted_pick_sound], [weighted_pick_fair]).
    - Requests. The attempts stay consistent ([attempts_invariant]); exactly the
      exhausted route sets are reported ([exhausted_report_spec]); the classification
      of a round and the failure shown to the client agree
      ([terminal_failure_spec], [terminal_observation_agrees]); waits fit the budget
      and every refusal has its reason ([granted_wait_spec], [give_up_spec]); a
      request ends, after a bounded number of rounds of its own
      ([request_terminates]); each further round has its cause ([round_again_spec]),
      what only the client can act on is handed back ([client_failures_end_request]),
      and there is one last-resort probe ([last_resort_probe_once]).
    - Streams. The decoder is the splitting of the whole text, however it arrives, and
      never panics ([decode_stream_refines], [decoder_safe]); so is prefetch, and
      aggregation but for errors behind a complete response
      ([prefetch_ignores_chunks], [aggregation_ignores_chunks]); no choice, call or
      delta is lost ([aggregated_texts_complete]), output that ends the prefetch of a
      plain chat stream reaches the response ([usable_stream_not_empty]), and what is written is read back
      ([sse_roundtrip], [chat_stream_roundtrip]). The tracker records what happened
      ([commit_tracks_stream]), the lease is settled once ([stream_settles_once]), and
      clipped phases end by the deadline ([deadline_bounds_phases]).
    - Tools. Names lead back to the tool and fit what upstreams accept
      ([tool_names_reversible], [tool_names_fit]), calls come back as they were made
      ([calls_roundtrip]), and what is sent as arguments is one value
      ([normalized_arguments_complete]).
    - Translation of streams. A canonical stream has one identity and one justified
      terminal for each choice ([canonical_streams]); a translated stream is accepted by
      a client of the protocol, which then has what the final response says, and, if no
      reasoning is late, by a strict one ([translated_stream_replays]); the client and
      the final response have all that the upstream said ([translated_text_complete]).
    - Conversion. A chat request that is sent on as a Responses request and turned back
      is the request that was made, its conversation in normal form
      ([conversation_roundtrip]); the chat requests made of Responses requests have roles
      that chat knows and no two neighbours that are the assistant's
      ([chat_messages_alternate]); encrypted messages between agents are never sent on
      ([encrypted_messages_refused]); a response that goes there and back keeps its
      content, calls, model and tokens ([response_roundtrip]). The chunks made of a
      well-formed Responses stream are accepted by a strict chat client, which reads what
      the stream says ([responses_stream_read]).
    - Slots and windows. No account and no key has more at once than it may
      ([slots_bounded], [downstream_concurrency_bounded]), a freed slot is freed once
      ([slot_freed_once]) and a heartbeat keeps it ([heartbeat_keeps_slot]); no window
      admits more than its limit ([request_rate_bounded]), its refusal names the time to
      wait ([minute_retry_after_exact]), and a request that is refused at once keeps
      neither its place in the window of requests nor a slot
      ([admission_all_or_nothing]); the first group that matches decides
      ([first_group_wins]).
    - Waiting for accounts. A session stays consistent ([session_invariant]), its waits
      end ([pending_wait_ends]), the probe it relies on is its own
      ([owned_probe_is_live]), and finishing it gives everything up ([finish_releases]).
    - Capabilities. A configuration that compiles is safe to use
      ([compiled_configuration_safe]); in it the strongest policy and the strongest
      override decide, never the order or the names ([strongest_policy_decides],
      [operator_decides]); a resolution takes the word of the strongest source
      ([resolution_precedence]) or names what is missing ([resolution_all_or_nothing]);
      profiles stay well formed, and a partial probe keeps what was known
      ([profile_well_formed], [partial_probe_keeps_evidence]); built-in entries are
      merged once ([builtin_merge_once]). What a request requires is what its body uses
      ([requirements_are_demands]), adapted to chat routes ([chat_adaptation]); the
      fallback for long requests is the smallest window that fits
      ([fallback_smallest_that_fits]).
    - Behaviour that the code does not seem to mean: the early probe of a cleared
      route panics ([early_probe_panics_after_clear]), an exempt capacity failure
      keeps its half-open lease ([capacity_failure_leaks_lease]), a rejection that
      straddles a tuning update panics ([torn_tuning_read_panics]), as does one with a
      wait that no clock can hold ([long_retry_after_panics]), some model names
      panic ([subagent_base_spec]), exact matching strands advertised names
      ([exact_matching_strands_mapping]); lapsed leases block hedges and shut keys
      ([lapsed_leases_block_hedges], [lapsed_leases_shut_key]) while the snapshot hides
      them ([snapshot_hides_stale_leases]), a key without prices erases the costs of its
      scope ([unpriced_key_erases_costs]), and a failed probe can leave tickets that no
      longer wait ([unmarked_tickets_fail]); choices that arrive apart are rejected
      ([interleaved_choices_rejected]), a later tool can take the meaning of an earlier
      one ([merge_keeps_first_meaning]), a forced tool is not renamed
      ([tool_choice_keeps_name]), reasoning that comes late changes an item that was
      closed ([late_reasoning_changes_item]), a streamed call of a custom tool is a
      function call ([streamed_custom_call_is_function]), the end of a call, the text
      after a part and the end of a response that was cut off give a chat client nothing
      ([stream_losses]); a preset overrules a probe ([preset_overrules_probe]), a failed
      probe hides a preset ([failed_probe_hides_preset]) and binds old evidence to a new
      configuration ([failed_probe_rebinds_evidence]).

    ** Not modelled

    Network, database, Redis and file input and output, HTTP handlers, the asynchronous
    readers of streams, administration, the portal, configuration from the environment,
    logging and cryptography: they call what is modelled here, or code that is not part
    of the repository. The readers and writers of JSON text ([serde_json]) are
    parameters; the theorems that need it assume that printed values are read back
    ([parse_print]) and that the fragments of a string are printed one after the other
    ([fragment_app], [print_input]), and their witnesses use concrete ones. Also left
    out are the conversion of the messages protocol ([src/src/server/gateway/claude.rs])
    and of payloads for single upstreams ([compatibility_semantics.rs], [compat.rs]),
    the dialect of a retry, the running of capability probes, the evaluation of routes
    with runtime hints and the continuations stored between requests
    ([capability_routing.rs]), the statistics of usage, and the runtime settings.
*)

From stdpp Require Export base tactics option list gmap sets strings sorting.
From Stdlib Require Export ZArith Lia.

#[export] Set Default Goal Selector "!".

(** ** Results

    Rust's [Result]: the error is a value. *)

Inductive result (T E : Type) : Type :=
| Ok (x : T)
| Err (e : E).
Arguments Ok {T E} x.
Arguments Err {T E} e.

Declare Scope rust_scope.
Delimit Scope rust_scope with rust.
Notation "'let?' x := c1 'in' c2" :=
  (match c1 with Ok x => c2 | Err e => Err e end)
  (at level 10, x pattern, c1 at level 100, c2 at level 200) : rust_scope.
Open Scope rust_scope.

Definition is_ok {T E} (r : result T E) : bool :=
  match r with Ok _ => true | Err _ => false end.

(** [ok_or]: an option as a result. *)
Definition ok_or {T E} (o : option T) (e : E) : result T E :=
  match o with Some x => Ok x | None => Err e end.

(** ** Machine integers

    Unsigned integers are [Z] values in their range; each operation of the
    source that can leave the range is written with its own overflow mode. *)

Definition u16_max : Z := 65535.
Definition u32_max : Z := 4294967295.
Definition u64_max : Z := 18446744073709551615.
Definition usize_max : Z := u64_max.

Definition sat_add (max a b : Z) : Z := Z.min max (a + b).
Definition sat_sub (a b : Z) : Z := Z.max 0 (a - b).
Definition sat_mul (max a b : Z) : Z := Z.min max (a * b).

(** [x.wrapping_add(1).max(1)] on [u64]: the generation counters skip 0. *)
Definition wrapping_succ_nonzero (x : Z) : Z := Z.max 1 ((x + 1) mod (u64_max + 1)).

Definition clamp (lo hi x : Z) : Z := Z.max lo (Z.min hi x).

(** ** Time

    A [Duration] is a number of nanoseconds, an [Instant] a point of an
    integer line of nanoseconds. *)

Abbreviation Duration := Z (only parsing).
Abbreviation Instant := Z (only parsing).

Definition duration_max : Duration := u64_max * 1000000000 + 999999999.
Definition from_secs (s : Z) : Duration := s * 1000000000.
Definition from_millis (ms : Z) : Duration := ms * 1000000.
Definition as_secs (d : Duration) : Z := d / 1000000000.
Definition as_millis (d : Duration) : Z := d / 1000000.
Definition subsec_nanos (d : Duration) : Z := d mod 1000000000.

(** [Duration::saturating_add]. *)
Definition dur_add (a b : Duration) : Duration := sat_add duration_max a b.

(** [a.saturating_duration_since(b)] and [a.duration_since(b)], which both
    give zero when [b] is later than [a]. *)
Definition since (a b : Instant) : Duration := Z.max 0 (a - b).

(** [now + d], and [now.checked_add(d)]: an [Instant] counts its seconds in an [i64], and
    a sum past its end panics, or is [None]. *)
Definition instant_max : Instant := 9223372036854775807 * 1000000000 + 999999999.
Definition instant_add (now : Instant) (d : Duration) : option Instant :=
  if (now + d <=? instant_max)%Z then Some (now + d)%Z else None.

(** [Duration] to [u64] milliseconds, saturating. *)
Definition as_millis_u64 (d : Duration) : Z := Z.min u64_max (as_millis d).

(** ** Options *)

Definition is_some {A} (o : option A) : bool :=
  match o with Some _ => true | None => false end.
Definition is_none {A} (o : option A) : bool := negb (is_some o).
Definition is_some_and {A} (f : A -> bool) (o : option A) : bool :=
  match o with Some x => f x | None => false end.
Definition is_none_or {A} (f : A -> bool) (o : option A) : bool :=
  match o with Some x => f x | None => true end.
Definition map_or {A B} (d : B) (f : A -> B) (o : option A) : B :=
  match o with Some x => f x | None => d end.
Definition opt_filter {A} (f : A -> bool) (o : option A) : option A :=
  match o with Some x => if f x then Some x else None | None => None end.
Definition or_else {A} (o1 o2 : option A) : option A :=
  match o1 with Some x => Some x | None => o2 end.

(** ** Lists *)

Definition is_empty {A} (l : list A) : bool :=
  match l with [] => true | _ :: _ => false end.

(** [Iterator::position]. *)
Fixpoint position {A} (f : A -> bool) (l : list A) : option nat :=
  match l with
  | [] => None
  | x :: l => if f x then Some 0%nat else S <$> position f l
  end.

(** [retain]: keep the elements that satisfy the predicate, in order. *)
Definition retain {A} (f : A -> bool) (l : list A) : list A := filter (λ x, f x) l.

(** [Iterator::min_by]: the first of the smallest elements. *)
Definition min_by {A} (ltb : A -> A -> bool) (l : list A) : option A :=
  match l with
  | [] => None
  | x :: l => Some (fold_left (fun m y => if ltb y m then y else m) l x)
  end.

(** [Iterator::max_by]: the last of the largest elements. *)
Definition max_by {A} (ltb : A -> A -> bool) (l : list A) : option A :=
  match l with
  | [] => None
  | x :: l => Some (fold_left (fun m y => if ltb y m then m else y) l x)
  end.

(** A stable sort: an element goes before the ones it is not greater than. *)
Fixpoint insert_by {A} (leb : A -> A -> bool) (x : A) (l : list A) : list A :=
  match l with
  | [] => [x]
  | y :: l' => if leb x y then x :: l else y :: insert_by leb x l'
  end.

Definition sort_by {A} (leb : A -> A -> bool) (l : list A) : list A :=
  foldr (insert_by leb) [] l.

(** Sums of machine integers, computed in [Z]. *)
Definition sumZ (l : list Z) : Z := foldr Z.add 0%Z l.

(** ** Hash map iteration

    The order in which a [HashMap] yields its entries is unspecified: where a
    result depends on it, the definition takes the order from this class, so
    that its theorems hold for every order. *)

Class IterOrder (K V : Type) `{Countable K} := {
  iter_order : gmap K V -> list (K * V);
  iter_order_perm (m : gmap K V) : iter_order m ≡ₚ map_to_list m
}.

(** One order, for running the definitions. *)
Definition canonical_order (K V : Type) `{Countable K} : IterOrder K V :=
  {| iter_order := map_to_list; iter_order_perm := fun m => Permutation_refl _ |}.

(** ** Automation

    [gateway] collects the lemmas that close the common side conditions;
    [bool_prop] turns the boolean tests of the code into propositions;
    [cases_all] splits on every test of the goal and of the context. *)

Create HintDb gateway.

Ltac bool_prop :=
  repeat match goal with
  | H : andb _ _ = true |- _ => apply andb_true_iff in H as [? ?]
  | H : orb _ _ = false |- _ => apply orb_false_iff in H as [? ?]
  | H : andb _ _ = false |- _ => apply andb_false_iff in H
  | H : orb _ _ = true |- _ => apply orb_true_iff in H
  | H : negb _ = true |- _ => apply negb_true_iff in H
  | H : negb _ = false |- _ => apply negb_false_iff in H
  | H : bool_decide _ = true |- _ => apply bool_decide_eq_true in H
  | H : bool_decide _ = false |- _ => apply bool_decide_eq_false in H
  | H : Is_true _ |- _ => apply Is_true_true in H
  end.

Ltac cases_all := repeat (case_match; simplify_eq/=); bool_prop.

(** Like [case_match], for the goal only. *)
Ltac case_goal :=
  match goal with
  | |- context [ match ?x with _ => _ end ] =>
      lazymatch x with context [ match _ with _ => _ end ] => fail | _ => destruct x eqn:? end
  end.

(** ** Lemmas on machine integers and time *)

Local Open Scope Z_scope.

Lemma sat_add_bound max a b : sat_add max a b <= max.
Proof. unfold sat_add; lia. Qed.

Lemma sat_add_ge max a b : a <= max -> 0 <= b -> a <= sat_add max a b.
Proof. unfold sat_add; lia. Qed.

Lemma sat_add_nonneg max a b : 0 <= max -> 0 <= a -> 0 <= b -> 0 <= sat_add max a b.
Proof. unfold sat_add; lia. Qed.

Lemma sat_add_exact max a b : a + b <= max -> sat_add max a b = a + b.
Proof. unfold sat_add; lia. Qed.

Lemma instant_add_Some now d t : instant_add now d = Some t <-> t = now + d /\ now + d <= instant_max.
Proof. unfold instant_add. destruct (Z.leb_spec (now + d) instant_max); naive_solver lia. Qed.

Lemma instant_add_fits now d : now + d <= instant_max -> instant_add now d = Some (now + d).
Proof. intros. by apply instant_add_Some. Qed.

Lemma sat_sub_nonneg a b : 0 <= sat_sub a b.
Proof. unfold sat_sub; lia. Qed.

Lemma since_nonneg a b : 0 <= since a b.
Proof. unfold since; lia. Qed.

Lemma since_zero a b : since a b = 0 <-> a <= b.
Proof. unfold since; lia. Qed.

Lemma since_later a b : b <= a -> since a b = a - b.
Proof. unfold since; lia. Qed.

Lemma wrapping_succ_nonzero_range x : 1 <= wrapping_succ_nonzero x <= u64_max.
Proof.
  unfold wrapping_succ_nonzero, u64_max.
  pose proof (Z.mod_pos_bound (x + 1) (18446744073709551615 + 1)). lia.
Qed.

Lemma wrapping_succ_nonzero_small x :
  0 <= x < u64_max -> wrapping_succ_nonzero x = x + 1.
Proof. intros. unfold wrapping_succ_nonzero. rewrite Z.mod_small; lia. Qed.

Lemma clamp_range lo hi x : lo <= hi -> lo <= clamp lo hi x <= hi.
Proof. unfold clamp; lia. Qed.

#[export] Hint Resolve sat_add_bound sat_sub_nonneg since_nonneg
  wrapping_succ_nonzero_range : gateway.

(** ** Lemmas on lists *)

Section lists.
  Context {A : Type}.
  Implicit Types (l : list A) (f : A -> bool).

Lemma position_Some f l i :
  position f l = Some i ->
  exists x, l !! i = Some x /\ f x = true /\
            forall j y, (j < i)%nat -> l !! j = Some y -> f y = false.
Proof.
  revert i. induction l as [|x l IH]; intros i Hp; simplify_eq/=.
  destruct (f x) eqn:Hf; simplify_eq/=.
  - exists x. split_and!; [done..|]. lia.
  - destruct (position f l) as [j|] eqn:Hj; simplify_eq/=.
    destruct (IH j eq_refl) as (y & Hy & Hfy & Hlt).
    exists y. split_and!; [done..|]. intros [|k] z Hk Hz; simplify_eq/=; [done|].
    eapply Hlt; [|done]. lia.
Qed.

Lemma position_None f l : position f l = None <-> forall x, x ∈ l -> f x = false.
Proof.
  induction l as [|x l IH]; simpl.
  - split; [|done]. intros _ x Hx. by apply elem_of_nil in Hx.
  - destruct (f x) eqn:Hf.
    + split; [done|]. intros Hall. rewrite Hall in Hf; [done|]. by left.
    + split.
      * intros Hn y Hy. apply elem_of_cons in Hy as [->|Hy]; [done|].
        apply IH; [|done]. by destruct (position f l).
      * intros Hall. replace (position f l) with (@None nat); [done|].
        symmetry. apply IH. intros y Hy. apply Hall. by right.
Qed.

Lemma position_is_Some f l x : x ∈ l -> f x = true -> is_Some (position f l).
Proof.
  intros Hx Hf. destruct (position f l) eqn:Hp; [by eexists|].
  eapply position_None in Hp; [|done]. congruence.
Qed.

Lemma retain_elem f l x : x ∈ retain f l <-> f x = true /\ x ∈ l.
Proof. unfold retain. rewrite list_elem_of_filter. by rewrite Is_true_true. Qed.

Lemma retain_cons f l x :
  retain f (x :: l) = if f x then x :: retain f l else retain f l.
Proof.
  unfold retain. destruct (f x) eqn:Hf.
  - apply filter_cons_True. rewrite Hf. exact I.
  - apply filter_cons_False. rewrite Hf. tauto.
Qed.

Lemma position_head_retain f l :
  (i ← position f l; l !! i) = head (retain f l).
Proof.
  induction l as [|x l IH]; [done|]. rewrite retain_cons. simpl.
  destruct (f x); [done|]. rewrite <- IH. by destruct (position f l).
Qed.

Lemma retain_sublist f l : sublist (retain f l) l.
Proof.
  induction l as [|x l IH]; [done|]. rewrite retain_cons.
  destruct (f x); [by apply sublist_skip | by apply sublist_cons].
Qed.

Lemma retain_all f l : (forall x, x ∈ l -> f x = true) -> retain f l = l.
Proof.
  induction l as [|x l IH]; intros Hall; [done|]. rewrite retain_cons, Hall by left.
  f_equal. apply IH. intros y Hy. apply Hall. by right.
Qed.

Lemma retain_length f l : (length (retain f l) <= length l)%nat.
Proof. apply sublist_length, retain_sublist. Qed.

Lemma retain_app f l1 l2 : retain f (l1 ++ l2) = retain f l1 ++ retain f l2.
Proof. apply filter_app. Qed.

Lemma sublist_map {B} (g : A -> B) l1 l2 :
  sublist l1 l2 -> sublist (g <$> l1) (g <$> l2).
Proof. induction 1; csimpl; by constructor. Qed.

Lemma sublist_NoDup_fmap {B} (g : A -> B) l1 l2 :
  sublist l1 l2 -> NoDup (g <$> l2) -> NoDup (g <$> l1).
Proof. intros Hs Hd. by eapply sublist_NoDup, sublist_map. Qed.

Lemma Forall_of_sublist (P : A -> Prop) l1 l2 : sublist l1 l2 -> Forall P l2 -> Forall P l1.
Proof. induction 1; inversion 1; subst; auto. Qed.

Lemma retain_NoDup_fmap {B} (g : A -> B) f l :
  NoDup (g <$> l) -> NoDup (g <$> retain f l).
Proof. intros. by eapply sublist_NoDup_fmap; [apply retain_sublist|]. Qed.

End lists.

(** Selection by a strict weak order. *)
Section select.
  Context {A : Type} (ltb : A -> A -> bool).

Lemma fold_min_elem l x :
  fold_left (fun m y => if ltb y m then y else m) l x ∈ x :: l.
Proof.
  revert x. induction l as [|y l IH]; intros x; simpl; [by left|].
  specialize (IH (if ltb y x then y else x)).
  apply elem_of_cons in IH as [->|IH]; [|by right; right].
  destruct (ltb y x); [by right; left | by left].
Qed.

Lemma min_by_elem l x : min_by ltb l = Some x -> x ∈ l.
Proof. destruct l as [|y l]; intros; simplify_eq/=. apply fold_min_elem. Qed.

Lemma min_by_None l : min_by ltb l = None <-> l = [].
Proof. by destruct l. Qed.

Lemma min_by_is_Some l x : x ∈ l -> is_Some (min_by ltb l).
Proof. destruct l; [by intros ?%elem_of_nil | by eexists]. Qed.

  Context (Hirr : forall x, ltb x x = false)
          (Hneg : forall x y z, ltb z y = false -> ltb y x = false -> ltb z x = false)
          (Hasym : forall x y, ltb x y = true -> ltb y x = false).

Lemma fold_min_least l x y :
  y ∈ x :: l -> ltb y (fold_left (fun m y => if ltb y m then y else m) l x) = false.
Proof.
  revert x y. induction l as [|z l IH]; intros x y Hy; simpl.
  - apply list_elem_of_singleton in Hy as ->. apply Hirr.
  - assert (Hm : ltb (if ltb z x then z else x)
      (fold_left (fun m y => if ltb y m then y else m) l (if ltb z x then z else x)) = false).
    { apply IH. by left. }
    apply elem_of_cons in Hy as [->|[->|Hy]%elem_of_cons].
    + eapply Hneg; [|exact Hm]. destruct (ltb z x) eqn:E; [by apply Hasym | apply Hirr].
    + eapply Hneg; [|exact Hm]. destruct (ltb z x) eqn:E; [apply Hirr | done].
    + apply IH. by right.
Qed.

Lemma min_by_least l x y : min_by ltb l = Some x -> y ∈ l -> ltb y x = false.
Proof. destruct l as [|z l]; intros; simplify_eq/=. by apply fold_min_least. Qed.

End select.

(** Selection by an integer key: [min_by_key]. *)
Definition key_ltb {A} (key : A -> Z) (x y : A) : bool := key x <? key y.

Lemma min_by_key_least {A} (key : A -> Z) l x y :
  min_by (key_ltb key) l = Some x -> y ∈ l -> key x <= key y.
Proof.
  intros Hm Hy. apply (min_by_least (key_ltb key)) with (y := y) in Hm;
    unfold key_ltb in *; [apply Z.ltb_ge in Hm; lia | intros; lia..|done].
Qed.

(** Selection by a pair of a flag and an integer, [false] first. *)
Definition flag_key_ltb {A} (flag : A -> bool) (key : A -> Z) (x y : A) : bool :=
  if flag x then flag y && (key x <? key y)
  else flag y || (key x <? key y).

Lemma min_by_flag_key_least {A} (flag : A -> bool) (key : A -> Z) l x y :
  min_by (flag_key_ltb flag key) l = Some x -> y ∈ l ->
  (flag x = true -> flag y = true) /\ (flag x = flag y -> key x <= key y).
Proof.
  intros Hm Hy.
  apply (min_by_least (flag_key_ltb flag key)) with (y := y) in Hm; [..|done];
    unfold flag_key_ltb in *.
  - destruct (flag x), (flag y); simpl in *; split; intros; try done; lia.
  - intros z. destruct (flag z); simpl; lia.
  - intros u v w. destruct (flag u), (flag v), (flag w); simpl; intros; try done; lia.
  - intros u v. destruct (flag u), (flag v); simpl; intros; try done; lia.
Qed.

(** The stable sort keeps the elements and sorts them. *)
Section sorting.
  Context {A : Type} (leb : A -> A -> bool).

Lemma insert_by_perm x l : insert_by leb x l ≡ₚ x :: l.
Proof.
  induction l as [|y l IH]; simpl; [done|].
  destruct (leb x y); [done|]. rewrite IH. apply Permutation_swap.
Qed.

Lemma sort_by_perm l : sort_by leb l ≡ₚ l.
Proof. induction l as [|x l IH]; simpl; [done|]. by rewrite insert_by_perm, IH. Qed.

  Context (Htotal : forall x y, leb x y = false -> leb y x = true).

Lemma insert_by_sorted x l :
  Sorted (fun x y => leb x y = true) l ->
  Sorted (fun x y => leb x y = true) (insert_by leb x l).
Proof.
  induction l as [|y l IH]; intros Hs; simpl; [by repeat constructor|].
  destruct (leb x y) eqn:E; [by constructor; [|constructor]|].
  apply Sorted_inv in Hs as [Hs Hd]. constructor; [by apply IH|].
  destruct l as [|z l]; simpl; [constructor; by apply Htotal|].
  apply HdRel_inv in Hd. destruct (leb x z); constructor; auto.
Qed.

Lemma sort_by_sorted l : Sorted (fun x y => leb x y = true) (sort_by leb l).
Proof. induction l; simpl; [constructor|]. by apply insert_by_sorted. Qed.

End sorting.

(** It keeps the first of equals. *)
Section stable.
  Context {A : Type} (leb : A -> A -> bool).
  Context (Htotal : forall x y, leb x y = false -> leb y x = true).
  Context (Htrans : forall x y z, leb x y = true -> leb y z = true -> leb x z = true).

(** The head of a sorted list is below every element. *)
Lemma sorted_below x l : Sorted (fun x y => leb x y = true) (x :: l) -> forall y, y ∈ l -> leb x y = true.
Proof.
  intros Hs%Sorted_StronglySorted; [|intros ???; apply Htrans].
  apply StronglySorted_inv in Hs as [_ Hs]. by apply Forall_forall.
Qed.

Lemma retain_insert_by f x l :
  Sorted (fun x y => leb x y = true) l ->
  retain f (insert_by leb x l) = if f x then insert_by leb x (retain f l) else retain f l.
Proof.
  induction l as [|y l IH]; intros Hs; simpl.
  { rewrite retain_cons. by destruct (f x). }
  destruct (leb x y) eqn:Hxy.
  - rewrite retain_cons. destruct (f x); [|done].
    assert (forall z, z ∈ retain f (y :: l) -> leb x z = true) as Hall.
    { intros z [_ [->|Hz]%elem_of_cons]%retain_elem; [done|].
      apply (Htrans _ y); [done|]. by apply (sorted_below y l). }
    destruct (retain f (y :: l)) as [|z r]; simpl; [done|]. by rewrite Hall by left.
  - rewrite !retain_cons. apply Sorted_inv in Hs as [Hs _]. rewrite IH by done.
    destruct (f y), (f x); simpl; rewrite ?Hxy; done.
Qed.

Lemma retain_sort_by f l : retain f (sort_by leb l) = sort_by leb (retain f l).
Proof.
  induction l as [|x l IH]; simpl; [done|].
  rewrite retain_insert_by by (by apply sort_by_sorted). rewrite retain_cons, IH. by destruct (f x).
Qed.

(** The first element of the sorted list is the first of the least ones. *)
Lemma sort_by_head l x :
  head (sort_by leb l) = Some x ->
  exists i, l !! i = Some x /\ (forall y, y ∈ l -> leb x y = true) /\
    forall j y, (j < i)%nat -> l !! j = Some y -> leb y x = false.
Proof.
  revert x. induction l as [|y l IH]; intros x; simpl; [done|].
  assert (forall y, leb y y = true) as Hrefl.
  { intros w. destruct (leb w w) eqn:Hw; [done|]. by rewrite (Htotal w w Hw) in Hw. }
  destruct (sort_by leb l) as [|z r] eqn:Hs; simpl.
  { assert (l = []) as -> by (apply Permutation_nil_r; by rewrite <- (sort_by_perm leb l), Hs).
    intros [= <-]. exists 0%nat. split_and!; [done| |lia].
    intros w [->|Hw]%elem_of_cons; [apply Hrefl|by apply elem_of_nil in Hw]. }
  destruct (IH z eq_refl) as (i & Hi & Hleast & Hfirst).
  destruct (leb y z) eqn:Hyz; simpl; intros [= <-].
  - exists 0%nat. split_and!; [done| |lia].
    intros w [->|Hw]%elem_of_cons; [apply Hrefl|]. by apply (Htrans _ z); [|apply Hleast].
  - exists (S i). split_and!; [done| |].
    + intros w [->|Hw]%elem_of_cons; [by apply Htotal|by apply Hleast].
    + intros [|j] w Hj; simpl; [by intros [= <-]|]. intros Hw. apply (Hfirst j); [lia|done].
Qed.

End stable.

(** ** Orders

    The keys by which the code sorts and selects: strict weak orders, given as
    their strict comparison, and closed under the ways the code builds them. *)

Class WeakOrder {A} (ltb : A -> A -> bool) : Prop := {
  wo_asym x y : ltb x y = true -> ltb y x = false;
  wo_neg_trans x y z : ltb z y = false -> ltb y x = false -> ltb z x = false
}.

Lemma wo_irrefl `{!@WeakOrder A ltb} x : ltb x x = false.
Proof. destruct (ltb x x) eqn:E; [by rewrite (wo_asym x x E) in E|done]. Qed.

(** A tuple key: by the first component, then by the second. *)
Definition lex_ltb {A} (ltb1 ltb2 : A -> A -> bool) (x y : A) : bool :=
  ltb1 x y || (negb (ltb1 y x) && ltb2 x y).

(** The key of a projection. *)
Definition on_ltb {A B} (f : A -> B) (ltb : B -> B -> bool) (x y : A) : bool := ltb (f x) (f y).

(** [std::cmp::Reverse]. *)
Definition rev_ltb {A} (ltb : A -> A -> bool) (x y : A) : bool := ltb y x.

(** The order that a stable sort by a key compares with. *)
Definition not_above {A} (ltb : A -> A -> bool) (x y : A) : bool := negb (ltb y x).

#[global] Typeclasses Opaque lex_ltb on_ltb rev_ltb not_above.

#[export] Instance Z_ltb_order : WeakOrder Z.ltb.
Proof. split; intros; lia. Qed.

#[export] Instance nat_ltb_order : WeakOrder Nat.ltb.
Proof. split; intros *; rewrite ?Nat.ltb_lt, ?Nat.ltb_ge; lia. Qed.

#[export] Instance on_order {A B} (f : A -> B) ltb : WeakOrder ltb -> WeakOrder (on_ltb f ltb).
Proof. intros H. split; unfold on_ltb; intros *; [apply wo_asym|apply wo_neg_trans]. Qed.

#[export] Instance rev_order {A} (ltb : A -> A -> bool) : WeakOrder ltb -> WeakOrder (rev_ltb ltb).
Proof. intros H. split; unfold rev_ltb; intros *; [apply wo_asym|intros; eapply wo_neg_trans; eassumption]. Qed.

#[export] Instance lex_order {A} (l1 l2 : A -> A -> bool) :
  WeakOrder l1 -> WeakOrder l2 -> WeakOrder (lex_ltb l1 l2).
Proof.
  intros H1 H2. split; unfold lex_ltb; intros *.
  - destruct (l1 x y) eqn:E1; simpl; [by rewrite (wo_asym _ _ E1)|].
    destruct (l1 y x); simpl; [done|]. apply wo_asym.
  - destruct (l1 z y) eqn:Ezy, (l1 y x) eqn:Eyx; simpl; try done.
    rewrite (wo_neg_trans _ _ _ Ezy Eyx). simpl.
    destruct (l1 x z) eqn:Exz; simpl; [done|].
    destruct (l1 y z) eqn:Eyz; simpl.
    { by rewrite (wo_neg_trans _ _ _ Eyx Exz) in Eyz. }
    destruct (l1 x y) eqn:Exy; simpl.
    { by rewrite (wo_neg_trans _ _ _ Exz Ezy) in Exy. }
    apply wo_neg_trans.
Qed.

#[export] Instance bool_order : WeakOrder (fun x y => negb x && y).
Proof. split; [by intros [] []|by intros [] [] []]. Qed.

#[export] Instance string_order : WeakOrder String.ltb.
Proof.
  assert (forall x y, String.ltb x y = false <-> String.compare x y <> Lt) as Hltb.
  { intros x y. unfold String.ltb. by destruct (String.compare x y). }
  split.
  - intros x y. unfold String.ltb. rewrite (String.compare_antisym y x). by destruct (String.compare x y).
  - intros x y z. rewrite !Hltb. revert x z. induction y as [|b y IH]; intros [|a x] [|c z]; simpl; try done.
    unfold Ascii.compare.
    destruct (N.compare_spec (Ascii.N_of_ascii c) (Ascii.N_of_ascii b)) as [Hcb|?|Hcb],
      (N.compare_spec (Ascii.N_of_ascii b) (Ascii.N_of_ascii a)) as [Hba|?|Hba],
      (N.compare_spec (Ascii.N_of_ascii c) (Ascii.N_of_ascii a)) as [Hca|?|Hca];
      try done; try lia. by apply IH.
Qed.

Lemma not_above_total {A} (ltb : A -> A -> bool) `{!WeakOrder ltb} x y :
  not_above ltb x y = false -> not_above ltb y x = true.
Proof. unfold not_above. intros Hx%negb_false_iff. by rewrite (wo_asym _ _ Hx). Qed.

Lemma not_above_trans {A} (ltb : A -> A -> bool) `{!WeakOrder ltb} x y z :
  not_above ltb x y = true -> not_above ltb y z = true -> not_above ltb x z = true.
Proof.
  unfold not_above. rewrite !negb_true_iff. intros. by apply (wo_neg_trans x y z).
Qed.

(** The least of a list, selected or sorted. *)
Lemma min_by_order {A} (ltb : A -> A -> bool) `{!WeakOrder ltb} l x y :
  min_by ltb l = Some x -> y ∈ l -> ltb y x = false.
Proof.
  apply min_by_least; [apply wo_irrefl|intros *; apply wo_neg_trans|intros *; apply wo_asym].
Qed.

Lemma fold_max_elem {A} (ltb : A -> A -> bool) l x :
  fold_left (fun m y => if ltb y m then m else y) l x ∈ x :: l.
Proof.
  revert x. induction l as [|y l IH]; intros x; simpl; [by left|].
  specialize (IH (if ltb y x then x else y)).
  apply elem_of_cons in IH as [->|IH]; [|by right; right].
  destruct (ltb y x); [by left | by right; left].
Qed.

Lemma max_by_elem {A} (ltb : A -> A -> bool) l x : max_by ltb l = Some x -> x ∈ l.
Proof. destruct l as [|y l]; intros; simplify_eq/=. apply fold_max_elem. Qed.

Lemma fold_max_order {A} (ltb : A -> A -> bool) `{!WeakOrder ltb} l : forall x y,
  y ∈ x :: l -> ltb (fold_left (fun m y => if ltb y m then m else y) l x) y = false.
Proof.
  induction l as [|z l IH]; intros x y Hy; simpl.
  - apply list_elem_of_singleton in Hy as ->. apply wo_irrefl.
  - assert (forall w, ltb (if ltb z x then x else z) w = false ->
      ltb (fold_left (fun m y => if ltb y m then m else y) l (if ltb z x then x else z)) w = false) as Hstep.
    { intros w Hw. eapply wo_neg_trans; [apply IH; by left|exact Hw]. }
    apply elem_of_cons in Hy as [->|[->|Hy]%elem_of_cons].
    + apply Hstep. destruct (ltb z x) eqn:E; [apply wo_irrefl|done].
    + apply Hstep. destruct (ltb z x) eqn:E; [by apply wo_asym|apply wo_irrefl].
    + apply IH. by right.
Qed.

Lemma max_by_order {A} (ltb : A -> A -> bool) `{!WeakOrder ltb} l x y :
  max_by ltb l = Some x -> y ∈ l -> ltb x y = false.
Proof. destruct l as [|z l]; intros; simplify_eq/=. by apply fold_max_order. Qed.

Lemma sort_head_order {A} (ltb : A -> A -> bool) `{!WeakOrder ltb} l x y :
  head (sort_by (not_above ltb) l) = Some x -> y ∈ l -> ltb y x = false.
Proof.
  intros Hx Hy. destruct (sort_by_head (not_above ltb) (not_above_total ltb) (not_above_trans ltb) l x Hx)
    as (_ & _ & Hleast & _). apply Hleast in Hy. by apply negb_true_iff.
Qed.

Lemma existsb_elem {A} (f : A -> bool) l : existsb f l = true <-> exists x, x ∈ l /\ f x = true.
Proof. rewrite existsb_exists. by setoid_rewrite <- list_elem_of_In. Qed.

Lemma forallb_elem {A} (f : A -> bool) l : forallb f l = true <-> forall x, x ∈ l -> f x = true.
Proof. rewrite forallb_forall. by setoid_rewrite <- list_elem_of_In. Qed.

Lemma find_retain {A} (f : A -> bool) l : find f l = head (retain f l).
Proof. induction l as [|x l IH]; [done|]. rewrite retain_cons. simpl. by destruct (f x). Qed.

Lemma elem_not_empty {A} (l : list A) x : x ∈ l -> is_empty l = false.
Proof. destruct l; [by intros ?%elem_of_nil|done]. Qed.

(** The place of a kept element in the list, and what was kept before it. *)
Lemma retain_lookup {A} (f : A -> bool) l i x :
  retain f l !! i = Some x ->
  exists i', l !! i' = Some x /\ f x = true /\
    forall j' y, (j' < i')%nat -> l !! j' = Some y -> f y = true ->
    exists j, (j < i)%nat /\ retain f l !! j = Some y.
Proof.
  revert i. induction l as [|z l IH]; intros i; [done|]. rewrite retain_cons.
  destruct (f z) eqn:Hz.
  - destruct i as [|i]; simpl.
    + intros [= <-]. exists 0%nat. split_and!; [done|done|lia].
    + intros (i' & Hi & Hx & Hb)%IH. exists (S i'). split_and!; [done|done|].
      intros [|j'] y Hj; simpl; [intros [= <-] _; exists 0%nat; split; [lia|done]|].
      intros Hy Hf. destruct (Hb j' y) as (j & ? & ?); [lia|done..|]. exists (S j). split; [lia|done].
  - intros (i' & Hi & Hx & Hb)%IH. exists (S i'). split_and!; [done|done|].
    intros [|j'] y Hj; simpl; [intros [= <-]; congruence|]. intros Hy Hf. apply (Hb j'); [lia|done..].
Qed.

(** ** Lemmas on hash maps *)

Section iter_order.
  Context `{Countable K} {V : Type} `{!IterOrder K V}.
  Implicit Types m : gmap K V.

Lemma elem_of_iter_order m k v : (k, v) ∈ iter_order m <-> m !! k = Some v.
Proof. rewrite iter_order_perm. apply elem_of_map_to_list. Qed.

Lemma iter_order_length m : length (iter_order m) = size m.
Proof. rewrite iter_order_perm. apply length_map_to_list. Qed.

End iter_order.

Lemma size_insert_le `{Countable K} {V} (m : gmap K V) k v :
  (size (<[k:=v]> m) <= S (size m))%nat.
Proof. rewrite map_size_insert. case_match; simpl; lia. Qed.

(** ** Sets of keys, by upstream *)

Section parts.
  Context {K : Type} `{Countable K} (upstream_id : K -> string).
  Implicit Types (D : gset K) (k : K) (id : string).

Definition upstream_part id D : gset K := filter (fun k => upstream_id k = id) D.

Lemma upstream_part_other id k D :
  upstream_id k <> id -> upstream_part id ({[k]} ∪ D) = upstream_part id D.
Proof. intros. unfold upstream_part. set_solver. Qed.

Lemma size_add_le k D : (size ({[k]} ∪ D) <= S (size D))%nat.
Proof. rewrite size_union_alt, size_singleton. pose proof (subseteq_size (D ∖ {[k]}) D ltac:(set_solver)). lia. Qed.

Lemma upstream_part_add id k D :
  (size (upstream_part id ({[k]} ∪ D)) <= S (size (upstream_part id D)))%nat.
Proof.
  etransitivity; [|apply (size_add_le k)]. apply subseteq_size.
  unfold upstream_part. set_solver.
Qed.

Lemma size_remove k D : k ∈ D -> S (size (D ∖ {[k]})) = size D.
Proof.
  intros Hk. rewrite size_difference by set_solver. rewrite size_singleton.
  assert (size D <> 0)%nat; [|lia]. intros Hz%size_empty_inv. set_solver.
Qed.

Lemma upstream_part_add_new k D :
  k ∉ D ->
  size (upstream_part (upstream_id k) ({[k]} ∪ D)) = S (size (upstream_part (upstream_id k) D)).
Proof.
  intros Hk.
  assert (upstream_part (upstream_id k) ({[k]} ∪ D) = {[k]} ∪ upstream_part (upstream_id k) D) as ->
    by (unfold upstream_part; set_solver).
  rewrite size_union by (unfold upstream_part; set_solver). by rewrite size_singleton.
Qed.

Lemma upstream_part_remove k D :
  k ∈ D ->
  S (size (upstream_part (upstream_id k) (D ∖ {[k]}))) = size (upstream_part (upstream_id k) D).
Proof.
  intros Hk.
  assert (upstream_part (upstream_id k) (D ∖ {[k]}) = upstream_part (upstream_id k) D ∖ {[k]}) as ->
    by (unfold upstream_part; set_solver).
  apply size_remove. unfold upstream_part; set_solver.
Qed.

Lemma upstream_part_remove_other id k D :
  upstream_id k <> id -> upstream_part id (D ∖ {[k]}) = upstream_part id D.
Proof. intros. unfold upstream_part. set_solver. Qed.

End parts.
