(* ===== verification/RouteTypes.v ===== *)
(** * Routes: identities and failure classes

    The identities under which the gateway keeps health state (one upstream
    key, one virtual route, one route set) and the classes in which it sorts
    failures ([src/src/state/types.rs], [src/src/state/route_health.rs],
    [src/src/routing.rs], [src/src/capabilities/types.rs]), with the
    predicates on classes that decide which health path a failure takes. *)

From S2P Require Import Prelude.

Local Open Scope Z_scope.

(** ** Protocols *)

Inductive UpstreamProtocol :=
| UpChatCompletions
| UpResponses.

#[export] Instance UpstreamProtocol_eq_dec : EqDecision UpstreamProtocol.
Proof. solve_decision. Defined.

Inductive WireProtocol :=
| ChatCompletions
| Responses
| Messages.

#[export] Instance WireProtocol_eq_dec : EqDecision WireProtocol.
Proof. solve_decision. Defined.

#[export] Instance WireProtocol_countable : Countable WireProtocol.
Proof.
  refine (inj_countable'
    (fun p => match p with ChatCompletions => 0%nat | Responses => 1%nat | Messages => 2%nat end)
    (fun n => match n with 0%nat => ChatCompletions | 1%nat => Responses | _ => Messages end) _).
  by intros [].
Defined.

(** [impl From<UpstreamProtocol> for WireProtocol]. *)
Definition WireProtocol_from (protocol : UpstreamProtocol) : WireProtocol :=
  match protocol with
  | UpChatCompletions => ChatCompletions
  | UpResponses => Responses
  end.

Definition wire_protocol_identity (protocol : WireProtocol) : string :=
  match protocol with
  | ChatCompletions => "chat_completions"
  | Responses => "responses"
  | Messages => "messages"
  end.

(** ** Failure classes *)

Inductive RouteFailureClass :=
| CapacityUnavailable
| ConcurrencySaturated
| TransientServer
| Transport
| RateLimited
| KeyQuota
| Credentials
| ModelUnsupported
| FeatureUnsupported
| ProtocolUnsupported
| RequestRejected
| EdgeProxyError.

#[export] Instance RouteFailureClass_eq_dec : EqDecision RouteFailureClass.
Proof. solve_decision. Defined.

Definition RouteFailureClass_ALL : list RouteFailureClass :=
  [ CapacityUnavailable; ConcurrencySaturated; TransientServer; Transport;
    RateLimited; KeyQuota; Credentials; ModelUnsupported; FeatureUnsupported;
    ProtocolUnsupported; RequestRejected; EdgeProxyError ].

Definition is_temporary (class : RouteFailureClass) : bool :=
  match class with
  | CapacityUnavailable | ConcurrencySaturated | TransientServer | Transport
  | RateLimited | KeyQuota | EdgeProxyError => true
  | _ => false
  end.

Definition class_as_str (class : RouteFailureClass) : string :=
  match class with
  | CapacityUnavailable => "capacity_unavailable"
  | ConcurrencySaturated => "concurrency_saturated"
  | TransientServer => "transient_server"
  | Transport => "transport"
  | RateLimited => "rate_limited"
  | KeyQuota => "key_quota"
  | Credentials => "credentials"
  | ModelUnsupported => "model_unsupported"
  | FeatureUnsupported => "feature_unsupported"
  | ProtocolUnsupported => "protocol_unsupported"
  | RequestRejected => "request_rejected"
  | EdgeProxyError => "edge_proxy_error"
  end.

Definition is_shared_host_domain_class (class : RouteFailureClass) : bool :=
  match class with TransientServer | EdgeProxyError => true | _ => false end.

Definition route_failure_has_cooldown (class : RouteFailureClass) : bool :=
  match class with
  | CapacityUnavailable | ConcurrencySaturated | TransientServer | Transport
  | RateLimited | KeyQuota | ModelUnsupported | EdgeProxyError => true
  | _ => false
  end.

Definition key_failure_has_cooldown (class : RouteFailureClass) : bool :=
  match class with Credentials | KeyQuota => true | _ => false end.

Definition is_capacity_class (class : RouteFailureClass) : bool :=
  match class with RateLimited | KeyQuota => true | _ => false end.

(** ** Identities *)

Record KeyHealthKey := {
  kk_upstream_id : string;
  kk_key_fingerprint : string
}.

Record RouteHealthKey := {
  rk_upstream_id : string;
  rk_key_fingerprint : string;
  rk_runtime_model_slug : string;
  rk_protocol : WireProtocol
}.

Record RouteSetAggregateKey := {
  ak_upstream_id : string;
  ak_runtime_model_slug : string;
  ak_protocol : WireProtocol
}.

#[export] Instance KeyHealthKey_eq_dec : EqDecision KeyHealthKey.
Proof. solve_decision. Defined.
#[export] Instance RouteHealthKey_eq_dec : EqDecision RouteHealthKey.
Proof. solve_decision. Defined.
#[export] Instance RouteSetAggregateKey_eq_dec : EqDecision RouteSetAggregateKey.
Proof. solve_decision. Defined.

#[export] Instance KeyHealthKey_countable : Countable KeyHealthKey.
Proof.
  refine (inj_countable' (fun k => (kk_upstream_id k, kk_key_fingerprint k))
    (fun '(u, f) => {| kk_upstream_id := u; kk_key_fingerprint := f |}) _).
  by intros [].
Defined.

#[export] Instance RouteHealthKey_countable : Countable RouteHealthKey.
Proof.
  refine (inj_countable'
    (fun k => (rk_upstream_id k, rk_key_fingerprint k, rk_runtime_model_slug k, rk_protocol k))
    (fun '(u, f, m, p) => {| rk_upstream_id := u; rk_key_fingerprint := f;
                            rk_runtime_model_slug := m; rk_protocol := p |}) _).
  by intros [].
Defined.

#[export] Instance RouteSetAggregateKey_countable : Countable RouteSetAggregateKey.
Proof.
  refine (inj_countable'
    (fun k => (ak_upstream_id k, ak_runtime_model_slug k, ak_protocol k))
    (fun '(u, m, p) => {| ak_upstream_id := u; ak_runtime_model_slug := m; ak_protocol := p |}) _).
  by intros [].
Defined.

(** The key a route belongs to. *)
Definition route_key (route : RouteHealthKey) : KeyHealthKey :=
  {| kk_upstream_id := rk_upstream_id route; kk_key_fingerprint := rk_key_fingerprint route |}.

(** ** Facts about the classes *)

Lemma class_ALL_complete class : class ∈ RouteFailureClass_ALL.
Proof. destruct class; unfold RouteFailureClass_ALL; set_solver. Qed.

Lemma class_as_str_inj c1 c2 : class_as_str c1 = class_as_str c2 -> c1 = c2.
Proof. by destruct c1, c2. Qed.

Lemma capacity_class_cools class :
  is_capacity_class class = true -> route_failure_has_cooldown class = true.
Proof. by destruct class. Qed.
