(* ===== verification/Backoff.v ===== *)
(** * Backoff curves

    How long a route or a key stays out of service after a failure
    ([src/src/state/route_health.rs]): the jittered exponential curve, the
    fixed schedule of concurrency probes and its normalisation.

    The jitter is drawn from a SHA-256 digest of the identity, the class and
    the step. SHA-256 is third-party code and is the parameter [sha256] here,
    a function from the hashed bytes to the digest bytes; no theorem assumes
    anything of it. Byte strings are [string]s, one character per byte. *)

From S2P Require Import Prelude RouteTypes.

Local Open Scope Z_scope.

(** ** Constants *)

Definition CAPACITY_ROUTE_BASE : Duration := from_secs 15.
Definition EDGE_PROXY_ROUTE_BASE : Duration := from_secs 3.
Definition EDGE_PROXY_ROUTE_MAX : Duration := from_secs 15.
Definition DEFAULT_RATE_LIMIT_BASE : Duration := from_secs 30.
Definition ROUTE_COOLDOWN_MAX : Duration := from_secs (5 * 60).
Definition CREDENTIAL_KEY_BASE : Duration := from_secs (15 * 60).
Definition KEY_COOLDOWN_MAX : Duration := from_secs (60 * 60).
Definition MODEL_QUARANTINE_BASE : Duration := from_secs (15 * 60).
Definition MODEL_QUARANTINE_MAX : Duration := from_secs (60 * 60).
Definition FAILURE_STREAK_RESET : Duration := from_secs (10 * 60).
Definition HALF_OPEN_BUSY_RETRY : Duration := from_secs 1.
Definition LEGACY_LOCAL_ADMISSION_SAFETY_MARGIN : Duration := from_secs 60.
Definition ROUTE_HALF_OPEN_FAILURE_STEP_CAP : Z := 5.
Definition MAX_PROBE_DELAY_MS : Z := 60000.

Definition DEFAULT_UPSTREAM_CONCURRENCY_PROBE_DELAYS_MS : list Z :=
  [100; 200; 400; 800; 1000; 2000].

(** ** The concurrency probe schedule *)

(** [values.windows(2).any(|w| w[0] > w[1])]. *)
Fixpoint any_window_decreasing (values : list Z) : bool :=
  match values with
  | x :: ((y :: _) as rest) => (y <? x) || any_window_decreasing rest
  | _ => false
  end.

Definition probe_delays_invalid (values : list Z) : bool :=
  bool_decide (values = [])
  || existsb (fun value => (value =? 0) || (MAX_PROBE_DELAY_MS <? value)) values
  || any_window_decreasing values.

Definition normalize_concurrency_probe_delays (values : list Z) : list Duration :=
  let values :=
    if probe_delays_invalid values then DEFAULT_UPSTREAM_CONCURRENCY_PROBE_DELAYS_MS
    else values in
  map from_millis values.

(** [iter().max()] of a list of durations. *)
Definition max_duration (l : list Duration) : option Duration := max_by Z.ltb l.

Definition legacy_local_admission_cooldown_threshold (delays : list Duration) : Duration :=
  dur_add (default (from_secs 1) (max_duration delays)) LEGACY_LOCAL_ADMISSION_SAFETY_MARGIN.

Definition sequence_delay (delays : list Duration) (step : Z) : Duration :=
  let index := Z.to_nat (sat_sub step 1) in
  match delays !! index with
  | Some d => d
  | None => default (from_millis 1) (last delays)
  end.

Definition duration_millis_saturating (d : Duration) : Z := Z.min (as_millis d) u64_max.

(** The steps [1..=17] of the published schedules. *)
Definition schedule_steps : list Z := map Z.of_nat (seq 1 17).

Definition concurrency_probe_schedule_ms (delays : list Duration) : list Z :=
  map (fun step => duration_millis_saturating (sequence_delay delays step)) schedule_steps.

(** ** Jitter material *)

Definition byte_of_Z (b : Z) : Ascii.ascii := Ascii.ascii_of_N (Z.to_N b).

Definition nul : string := String (byte_of_Z 0) EmptyString.

(** [u32::to_be_bytes]. *)
Definition to_be_bytes (x : Z) : string :=
  String (byte_of_Z (Z.land (Z.shiftr x 24) 255))
    (String (byte_of_Z (Z.land (Z.shiftr x 16) 255))
      (String (byte_of_Z (Z.land (Z.shiftr x 8) 255))
        (String (byte_of_Z (Z.land x 255)) EmptyString))).

Definition route_jitter_material (route : RouteHealthKey) (class : RouteFailureClass)
    (step : Z) : string :=
  "chat2responses:route-health:v1" +:+ nul +:+ rk_upstream_id route +:+ nul
  +:+ rk_key_fingerprint route +:+ nul +:+ rk_runtime_model_slug route +:+ nul
  +:+ wire_protocol_identity (rk_protocol route) +:+ nul
  +:+ class_as_str class +:+ nul +:+ to_be_bytes step.

Definition key_jitter_material (key : KeyHealthKey) (class : RouteFailureClass)
    (step : Z) : string :=
  "chat2responses:key-health:v1" +:+ nul +:+ kk_upstream_id key +:+ nul
  +:+ kk_key_fingerprint key +:+ nul
  +:+ class_as_str class +:+ nul +:+ to_be_bytes step.

(** ** The jittered curve *)

Definition u128_max : Z := 340282366920938463463374607431768211455.

(** [u64::from_be_bytes]. *)
Definition from_be_bytes (bytes : list Z) : Z := fold_left (fun acc b => acc * 256 + b) bytes 0.

Section curves.
  Variable sha256 : string -> list Z.

Definition jitter_percent (material : string) : Z :=
  80 + from_be_bytes (take 8 (sha256 material)) mod 41.

Definition jittered_backoff (base : Duration) (step : Z) (max : Duration)
    (material : string) : Duration :=
  let exponent := Z.min (sat_sub step 1) 16 in
  let multiplier := Z.shiftl 1 exponent in
  let nanos := sat_mul u128_max base multiplier in
  let jittered := Z.min (sat_mul u128_max nanos (jitter_percent material) / 100) max in
  Z.min jittered u64_max.

Definition route_cooldown (class : RouteFailureClass) (step : Z) (route : RouteHealthKey)
    (transient_base transient_max : Duration) : Duration :=
  let '(base, max) :=
    match class with
    | CapacityUnavailable => (CAPACITY_ROUTE_BASE, ROUTE_COOLDOWN_MAX)
    | RateLimited | KeyQuota => (DEFAULT_RATE_LIMIT_BASE, ROUTE_COOLDOWN_MAX)
    | ModelUnsupported => (MODEL_QUARANTINE_BASE, MODEL_QUARANTINE_MAX)
    | EdgeProxyError => (EDGE_PROXY_ROUTE_BASE, EDGE_PROXY_ROUTE_MAX)
    | _ => (transient_base, transient_max)
    end in
  jittered_backoff base step max (route_jitter_material route class step).

Definition route_cooldown_with_concurrency_delays (class : RouteFailureClass) (step : Z)
    (route : RouteHealthKey) (concurrency_probe_delays : list Duration)
    (transient_base transient_max : Duration) : Duration :=
  if bool_decide (class = ConcurrencySaturated)
  then Z.min (sequence_delay concurrency_probe_delays step) ROUTE_COOLDOWN_MAX
  else route_cooldown class step route transient_base transient_max.

Definition key_cooldown (class : RouteFailureClass) (step : Z) (key : KeyHealthKey)
    (max credentials_first_strike : Duration) : Duration :=
  let base :=
    match class with
    | Credentials => if step =? 1 then credentials_first_strike else CREDENTIAL_KEY_BASE
    | _ => DEFAULT_RATE_LIMIT_BASE
    end in
  jittered_backoff base step max (key_jitter_material key class step).

Definition key_cooldown_max (class : RouteFailureClass) : Duration :=
  if bool_decide (class = Credentials) then KEY_COOLDOWN_MAX else ROUTE_COOLDOWN_MAX.

Definition route_cooldown_schedule_ms (route : RouteHealthKey) (class : RouteFailureClass)
    (delays : list Duration) (transient_base transient_max : Duration) : list Z :=
  map (fun step => duration_millis_saturating
         (route_cooldown_with_concurrency_delays class step route delays
            transient_base transient_max)) schedule_steps.

Definition key_cooldown_schedule_ms (key : KeyHealthKey) (class : RouteFailureClass)
    (credentials_first_strike : Duration) : list Z :=
  map (fun step => duration_millis_saturating
         (key_cooldown class step key (key_cooldown_max class) credentials_first_strike))
    schedule_steps.

End curves.

(** ** The jittered curve stays between its bounds *)

Section curve_bounds.
  Context (sha256 : string -> list Z).

Lemma jitter_percent_range material : 80 <= jitter_percent sha256 material <= 120.
Proof.
  unfold jitter_percent.
  pose proof (Z.mod_pos_bound (from_be_bytes (take 8 (sha256 material))) 41). lia.
Qed.

(** The exponent of a step. *)
Definition backoff_exponent (step : Z) : Z := Z.min (sat_sub step 1) 16.

Lemma backoff_multiplier_range step :
  1 <= 2 ^ backoff_exponent step <= 65536.
Proof.
  unfold backoff_exponent. pose proof (sat_sub_nonneg step 1).
  split.
  - apply (Z.pow_le_mono_r 2 0); lia.
  - apply (Z.pow_le_mono_r 2 _ 16); lia.
Qed.

(** No product of the curve saturates for a base that is a [Duration]. *)
Lemma jittered_backoff_value base step max material :
  0 <= base <= duration_max ->
  jittered_backoff sha256 base step max material =
  Z.min (Z.min (base * 2 ^ backoff_exponent step * jitter_percent sha256 material / 100) max)
    u64_max.
Proof.
  intros Hb. pose proof (jitter_percent_range material).
  pose proof (backoff_multiplier_range step).
  unfold jittered_backoff. fold (backoff_exponent step).
  rewrite Z.shiftl_1_l. unfold sat_mul.
  unfold duration_max, u64_max in Hb.
  set (M := 2 ^ backoff_exponent step) in *.
  set (J := jitter_percent sha256 material) in *.
  assert (0 <= base * M <= 18446744073709551615999999999 * 65536).
  { split; [nia|]. apply Z.mul_le_mono_nonneg; lia. }
  assert (0 <= base * M * J <= 18446744073709551615999999999 * 65536 * 120).
  { split; [nia|]. apply Z.mul_le_mono_nonneg; lia. }
  rewrite (Z.min_r u128_max (base * M)) by (unfold u128_max; lia).
  by rewrite (Z.min_r u128_max (base * M * J)) by (unfold u128_max; lia).
Qed.

Lemma jittered_backoff_upper base step max material :
  0 <= base <= duration_max ->
  jittered_backoff sha256 base step max material <= max /\
  jittered_backoff sha256 base step max material <= base * 2 ^ backoff_exponent step * 120 / 100.
Proof.
  intros Hb. rewrite jittered_backoff_value by done.
  pose proof (jitter_percent_range material). pose proof (backoff_multiplier_range step).
  set (M := 2 ^ backoff_exponent step) in *.
  set (J := jitter_percent sha256 material) in *.
  split; [lia|].
  etransitivity; [etransitivity; [apply Z.le_min_l|apply Z.le_min_l]|].
  apply Z.div_le_mono; [lia|]. nia.
Qed.

Lemma jittered_backoff_lower base step max material :
  0 <= base <= duration_max ->
  Z.min (Z.min (base * 2 ^ backoff_exponent step * 80 / 100) max) u64_max
  <= jittered_backoff sha256 base step max material.
Proof.
  intros Hb. rewrite jittered_backoff_value by done.
  pose proof (jitter_percent_range material). pose proof (backoff_multiplier_range step).
  set (M := 2 ^ backoff_exponent step) in *.
  set (J := jitter_percent sha256 material) in *.
  do 2 apply Z.min_le_compat_r.
  apply Z.div_le_mono; [lia|]. nia.
Qed.

(** A later step never waits less, whatever the jitter of the two steps. *)
Lemma jittered_backoff_mono base step step' max m m' :
  0 <= base <= duration_max -> 1 <= step < step' -> step <= 16 ->
  jittered_backoff sha256 base step max m <= jittered_backoff sha256 base step' max m'.
Proof.
  intros Hb Hs Hs16. rewrite !jittered_backoff_value by done.
  pose proof (jitter_percent_range m). pose proof (jitter_percent_range m').
  pose proof (backoff_multiplier_range step). pose proof (backoff_multiplier_range step').
  assert (2 * 2 ^ backoff_exponent step <= 2 ^ backoff_exponent step') as Hdouble.
  { rewrite <- Z.pow_succ_r by (unfold backoff_exponent, sat_sub; lia).
    apply Z.pow_le_mono_r; unfold backoff_exponent, sat_sub; lia. }
  set (M := 2 ^ backoff_exponent step) in *. set (M' := 2 ^ backoff_exponent step') in *.
  do 2 apply Z.min_le_compat_r. apply Z.div_le_mono; [lia|].
  assert (base * (2 * M) <= base * M') by (apply Z.mul_le_mono_nonneg_l; lia).
  assert (0 <= base * M) by nia.
  transitivity (base * M * 120); [apply Z.mul_le_mono_nonneg_l; lia|].
  transitivity (base * M' * 80); [lia|]. apply Z.mul_le_mono_nonneg_l; lia.
Qed.

End curve_bounds.

(** ** The probe schedule is never empty and never decreases *)

(** What [normalize_concurrency_probe_delays] promises of its result. *)
Definition probe_delays_ok (delays : list Duration) : Prop :=
  delays <> [] /\ Sorted Z.le delays /\
  Forall (fun d => from_millis 1 <= d <= from_millis MAX_PROBE_DELAY_MS) delays.

Lemma any_window_decreasing_sorted values :
  any_window_decreasing values = false -> Sorted Z.le values.
Proof.
  induction values as [|x [|y l] IH]; intros Hw.
  - constructor.
  - by constructor.
  - apply orb_false_iff in Hw as [Hxy Hw]. constructor; [by apply IH|].
    constructor. lia.
Qed.

Lemma probe_delays_valid_inv values :
  probe_delays_invalid values = false -> Forall (fun v => 0 <= v) values ->
  values <> [] /\ Sorted Z.le values /\ Forall (fun v => 1 <= v <= MAX_PROBE_DELAY_MS) values.
Proof.
  unfold probe_delays_invalid. intros Hv Hpos. bool_prop.
  split_and!; [done|by apply any_window_decreasing_sorted|].
  apply Forall_forall. intros v Hin.
  rewrite Forall_forall in Hpos. specialize (Hpos v Hin).
  destruct ((v =? 0) || (MAX_PROBE_DELAY_MS <? v)) eqn:E; [|lia].
  assert (existsb (fun v => (v =? 0) || (MAX_PROBE_DELAY_MS <? v)) values = true); [|congruence].
  apply existsb_exists. exists v. by rewrite <- list_elem_of_In.
Qed.

Lemma sorted_from_millis values : Sorted Z.le values -> Sorted Z.le (map from_millis values).
Proof.
  induction 1 as [|x l Hs IH Hd]; simpl; constructor; [done|].
  destruct Hd as [|y l Hxy]; simpl; constructor. unfold from_millis. lia.
Qed.

Lemma normalize_ok values :
  Forall (fun v => 0 <= v) values ->
  probe_delays_ok (normalize_concurrency_probe_delays values).
Proof.
  intros Hpos. unfold normalize_concurrency_probe_delays, probe_delays_ok.
  set (vs := if probe_delays_invalid values then _ else _).
  assert (vs <> [] /\ Sorted Z.le vs /\ Forall (fun v => 1 <= v <= MAX_PROBE_DELAY_MS) vs)
    as (Hne & Hs & Hall).
  { subst vs. destruct (probe_delays_invalid values) eqn:E.
    - split_and!; [done| |]; unfold DEFAULT_UPSTREAM_CONCURRENCY_PROBE_DELAYS_MS.
      + repeat constructor; lia.
      + repeat constructor; unfold MAX_PROBE_DELAY_MS; lia.
    - by apply probe_delays_valid_inv. }
  split_and!.
  - by destruct vs.
  - by apply sorted_from_millis.
  - apply Forall_map. eapply Forall_impl; [exact Hall|].
    intros v Hv. unfold compose, from_millis, MAX_PROBE_DELAY_MS in *. simpl in *. lia.
Qed.

Lemma sequence_delay_elem delays step :
  delays <> [] -> sequence_delay delays step ∈ delays.
Proof.
  intros Hne. unfold sequence_delay. case_match eqn:E.
  - by eapply list_elem_of_lookup_2.
  - destruct (last delays) as [d|] eqn:El; simpl.
    + apply last_Some in El as [l ->]. set_solver.
    + by apply last_None in El.
Qed.

Lemma sequence_delay_range delays step :
  probe_delays_ok delays ->
  from_millis 1 <= sequence_delay delays step <= from_millis MAX_PROBE_DELAY_MS.
Proof.
  intros (Hne & _ & Hall). rewrite Forall_forall in Hall.
  by apply Hall, sequence_delay_elem.
Qed.

Lemma sequence_delay_mono delays step step' :
  probe_delays_ok delays -> step <= step' ->
  sequence_delay delays step <= sequence_delay delays step'.
Proof.
  intros (Hne & Hs & _) Hle. apply Sorted_StronglySorted in Hs; [|intros x y z; lia].
  assert (forall i j d e, (i <= j)%nat -> delays !! i = Some d -> delays !! j = Some e -> d <= e)
    as Hmono.
  { clear Hne. induction Hs as [|x l _ IH Hx]; intros [|i] [|j] d e Hij Hd He;
      simplify_eq/=; [lia| |lia|].
    - rewrite Forall_forall in Hx. by eapply Hx, list_elem_of_lookup_2.
    - eapply (IH i j); [lia|done..]. }
  assert (Hij : (Z.to_nat (sat_sub step 1) <= Z.to_nat (sat_sub step' 1))%nat)
    by (unfold sat_sub; lia).
  unfold sequence_delay. rewrite last_lookup.
  destruct (delays !! Z.to_nat (sat_sub step 1)) as [d|] eqn:E;
    destruct (delays !! Z.to_nat (sat_sub step' 1)) as [d'|] eqn:E'; simpl.
  - by eapply Hmono.
  - assert (is_Some (delays !! pred (length delays))) as [z Hz].
    { apply lookup_lt_is_Some. destruct delays; simpl; [done|lia]. }
    rewrite Hz. simpl. eapply Hmono; [|exact E|exact Hz].
    apply lookup_lt_Some in E. lia.
  - apply lookup_ge_None in E. apply lookup_lt_Some in E'. lia.
  - lia.
Qed.

Lemma sorted_of_steps (f : Z -> Z) n m :
  (forall i, (n <= i < n + m)%nat -> f (Z.of_nat i) <= f (Z.of_nat (S i))) ->
  Sorted Z.le (map (fun step => f step) (map Z.of_nat (seq n (S m)))).
Proof.
  revert n. induction m as [|m IH]; intros n Hf; simpl; [by repeat constructor|].
  constructor; [|constructor; apply Hf; lia].
  apply IH. intros i Hi. apply Hf. lia.
Qed.

Lemma millis_mono a b : a <= b -> duration_millis_saturating a <= duration_millis_saturating b.
Proof.
  intros. unfold duration_millis_saturating, as_millis.
  apply Z.min_le_compat_r, Z.div_le_mono; lia.
Qed.

(** ** Properties *)

Section properties.
  Context (sha256 : string -> list Z).

(** The base and the maximum of the curve of a class. *)
Definition route_curve (class : RouteFailureClass) (base max : Duration) : Duration * Duration :=
  match class with
  | CapacityUnavailable => (CAPACITY_ROUTE_BASE, ROUTE_COOLDOWN_MAX)
  | RateLimited | KeyQuota => (DEFAULT_RATE_LIMIT_BASE, ROUTE_COOLDOWN_MAX)
  | ModelUnsupported => (MODEL_QUARANTINE_BASE, MODEL_QUARANTINE_MAX)
  | EdgeProxyError => (EDGE_PROXY_ROUTE_BASE, EDGE_PROXY_ROUTE_MAX)
  | _ => (base, max)
  end.

Lemma route_cooldown_curve class step route base max :
  route_cooldown sha256 class step route base max =
  jittered_backoff sha256 (route_curve class base max).1 step (route_curve class base max).2
    (route_jitter_material route class step).
Proof. by destruct class. Qed.

Lemma route_curve_base class base max :
  0 <= base <= duration_max -> 0 <= (route_curve class base max).1 <= duration_max.
Proof.
  intros. destruct class; simpl; try done;
    unfold CAPACITY_ROUTE_BASE, DEFAULT_RATE_LIMIT_BASE, MODEL_QUARANTINE_BASE,
      EDGE_PROXY_ROUTE_BASE, from_secs, duration_max, u64_max; lia.
Qed.

(** The cooldown of a route follows the curve of its failure class:
    within 20% of base * 2^(step-1), the exponent capped at 16, the whole capped
    by the class's maximum (and by what 64 bits of nanoseconds hold), whatever
    the digest; no intermediate product overflows. *)
Theorem route_cooldown_bounds class step route base max :
  0 <= base <= duration_max -> 1 <= step ->
  let '(b, m) := route_curve class base max in
  let nominal := b * 2 ^ Z.min (step - 1) 16 in
  Z.min (Z.min (nominal * 80 / 100) m) u64_max
    <= route_cooldown sha256 class step route base max
    <= Z.min (nominal * 120 / 100) m.
Proof.
  intros Hb Hs. destruct (route_curve class base max) as [b m] eqn:Hc. intros nominal.
  rewrite route_cooldown_curve.
  pose proof (route_curve_base class base max Hb) as Hr. rewrite Hc in *. simpl in *.
  assert (backoff_exponent step = Z.min (step - 1) 16) as He
    by (unfold backoff_exponent, sat_sub; lia).
  subst nominal. rewrite <- He. split.
  - by apply jittered_backoff_lower.
  - destruct (jittered_backoff_upper sha256 b step m (route_jitter_material route class step) Hr).
    lia.
Qed.

(** Escalation survives the jitter: the cooldown schedules published for a
    route never decrease from one failure step to the next, for every class. *)
Theorem route_schedule_escalates route class delays base max :
  probe_delays_ok delays -> 0 <= base <= duration_max ->
  Sorted Z.le (route_cooldown_schedule_ms sha256 route class delays base max).
Proof.
  intros Hd Hb. unfold route_cooldown_schedule_ms, schedule_steps.
  apply (sorted_of_steps (fun step => duration_millis_saturating _) 1 16).
  intros i Hi. apply millis_mono. unfold route_cooldown_with_concurrency_delays.
  case_bool_decide.
  - apply Z.min_le_compat_r, sequence_delay_mono; [done|lia].
  - rewrite !route_cooldown_curve. apply jittered_backoff_mono; [|lia..].
    by apply route_curve_base.
Qed.

(** So do the key schedules, as long as the first-strike cooldown of bad
    credentials is at most twenty minutes. *)
Theorem key_schedule_escalates key class first :
  0 <= first <= from_secs 1200 ->
  Sorted Z.le (key_cooldown_schedule_ms sha256 key class first).
Proof.
  intros Hf. unfold key_cooldown_schedule_ms, schedule_steps.
  apply (sorted_of_steps (fun step => duration_millis_saturating _) 1 16).
  intros i Hi. apply millis_mono. unfold key_cooldown.
  assert (forall i, (1 <= i)%nat -> (Z.of_nat (S i) =? 1) = false) as Hneq
    by (intros; apply Z.eqb_neq; lia).
  destruct class; try (apply jittered_backoff_mono;
    [unfold DEFAULT_RATE_LIMIT_BASE, from_secs, duration_max, u64_max; lia | lia..]).
  rewrite (Hneq i) by lia. destruct (Z.of_nat i =? 1) eqn:E1.
  - assert (i = 1%nat) as -> by lia. unfold key_cooldown_max. rewrite bool_decide_true by done.
    edestruct (jittered_backoff_upper sha256 first (Z.of_nat 1) KEY_COOLDOWN_MAX) as [Hmax Hup].
    { unfold duration_max, from_secs, u64_max in *. lia. }
    etransitivity; [apply (Z.min_glb _ _ _ Hmax Hup)|].
    etransitivity; [|apply jittered_backoff_lower].
    + replace (Z.min (Z.min (CREDENTIAL_KEY_BASE * 2 ^ backoff_exponent (Z.of_nat 2) * 80 / 100)
                 (key_cooldown_max Credentials)) u64_max) with (from_secs 1440) by reflexivity.
      etransitivity; [apply Z.le_min_r|]. change (2 ^ backoff_exponent (Z.of_nat 1)) with 1.
      etransitivity; [apply (Z.div_le_mono _ (from_secs 1200 * 1 * 120)); lia|].
      vm_compute. discriminate.
    + unfold CREDENTIAL_KEY_BASE, from_secs, duration_max, u64_max; lia.
  - apply jittered_backoff_mono; [|lia..].
    unfold CREDENTIAL_KEY_BASE, from_secs, duration_max, u64_max; lia.
Qed.

(** The probe schedule installed at run time is non-empty, non-decreasing and
    within 1 ms and one minute whatever the configuration holds, and a
    configuration that already has this shape is installed unchanged. *)
Theorem normalized_delays_valid values :
  Forall (fun v => 0 <= v) values ->
  probe_delays_ok (normalize_concurrency_probe_delays values) /\
  (normalize_concurrency_probe_delays values = map from_millis values \/
   values = [] \/ ~ Sorted Z.le values \/ Exists (fun v => v = 0 \/ MAX_PROBE_DELAY_MS < v) values).
Proof.
  intros Hpos. split; [by apply normalize_ok|].
  unfold normalize_concurrency_probe_delays.
  destruct (probe_delays_invalid values) eqn:E; [right|by left].
  unfold probe_delays_invalid in E. bool_prop. destruct E as [E|E]; [bool_prop; destruct E as [E|E]|].
  - bool_prop. by left.
  - right; right. apply existsb_exists in E as (v & Hv & Ht). apply Exists_exists.
    exists v. rewrite list_elem_of_In. split; [done|]. bool_prop. lia.
  - right; left. intros Hs. clear Hpos. induction Hs as [|x l Hs IH Hd]; [done|].
    destruct Hd as [|y l Hxy]; [done|]. apply orb_true_iff in E as [E|E]; [lia|]. by apply IH.
Qed.

End properties.

(** ** Witnesses *)

Definition no_digest (_ : string) : list Z := [].

Definition some_route : RouteHealthKey :=
  {| rk_upstream_id := "up"; rk_key_fingerprint := "k"; rk_runtime_model_slug := "m";
     rk_protocol := Responses |}.

Lemma route_cooldown_bounds_witness :
  from_secs 24 <= route_cooldown no_digest RateLimited 1 some_route (from_secs 5) (from_secs 300)
    <= from_secs 36.
Proof.
  refine (route_cooldown_bounds no_digest RateLimited 1 some_route (from_secs 5) (from_secs 300) _ _).
  - vm_compute. split; discriminate.
  - lia.
Defined.

Lemma route_schedule_escalates_witness :
  Sorted Z.le (route_cooldown_schedule_ms no_digest some_route TransientServer
    [from_millis 100; from_millis 200] (from_secs 5) (from_secs 300)).
Proof.
  apply route_schedule_escalates; [|vm_compute; split; discriminate].
  split; [discriminate|]. split; [repeat constructor; vm_compute; discriminate|].
  apply (bool_decide_unpack _). vm_compute. exact I.
Defined.

Lemma key_schedule_escalates_witness :
  Sorted Z.le (key_cooldown_schedule_ms no_digest (route_key some_route) Credentials (from_secs 60)).
Proof. apply key_schedule_escalates. vm_compute. split; discriminate. Defined.

Lemma normalized_delays_valid_witness :
  normalize_concurrency_probe_delays [300; 200] =
    map from_millis DEFAULT_UPSTREAM_CONCURRENCY_PROBE_DELAYS_MS /\
  probe_delays_ok (normalize_concurrency_probe_delays [300; 200]).
Proof.
  split; [reflexivity|]. refine (proj1 (normalized_delays_valid [300; 200] _)).
  repeat constructor; discriminate.
Defined.
