(* ===== verification/AccountConcurrency.v ===== *)
(** * Account concurrency recovery

    The registry of [src/src/state/account_concurrency.rs]: per upstream
    account, a FIFO queue of waiting requests, at most one probe lease, a
    generation number that fences stale leases, and the deadlines before
    which no probe is allowed.

    Each method of [AccountConcurrencyRegistry] holds the registry's mutex for
    its whole body and is one function from registry to registry. The clock,
    the fresh UUIDs and the jitter hash ([DefaultHasher], whose algorithm the
    standard library leaves unspecified) are arguments. [None] stands for a
    panic. *)

From S2P Require Import Prelude RouteTypes Backoff.

Local Open Scope Z_scope.

Definition FIFO_POLL_INTERVAL : Duration := from_millis 100.

(** ** Data *)

Record AccountConcurrencyKey := {
  ack_upstream_id : string;
  ack_key_fingerprint : string
}.

#[export] Instance AccountConcurrencyKey_eq_dec : EqDecision AccountConcurrencyKey.
Proof. solve_decision. Defined.

#[export] Instance AccountConcurrencyKey_countable : Countable AccountConcurrencyKey.
Proof.
  refine (inj_countable' (fun k => (ack_upstream_id k, ack_key_fingerprint k))
    (fun '(u, f) => {| ack_upstream_id := u; ack_key_fingerprint := f |}) _).
  by intros [].
Defined.

Record AccountWaitTicket := {
  tk_account : AccountConcurrencyKey;
  tk_request_id : string;
  tk_downstream_id : string;
  tk_downstream_lease_id : string;
  tk_generation : Z;
  tk_registered_at_ms : Z;
  tk_registration_token : string
}.

Record AccountProbeLease := {
  pl_account : AccountConcurrencyKey;
  pl_request_id : string;
  pl_generation : Z;
  pl_owner_token : string;
  pl_expires_at_ms : Z
}.

Inductive AccountProbeOutcome :=
| ConcurrencyRejected (retry_after : option Duration)
| Accepted
| AttemptFailed
| Cancelled.

Inductive ProbeDecision :=
| Granted (lease : AccountProbeLease)
| Wait (retry_after : Duration).

Record AccountConcurrencyTuning := {
  tn_probe_delays : list Duration;
  tn_jitter_max : Duration;
  tn_waiter_budget : Duration;
  tn_waiter_ttl : Duration;
  tn_probe_ttl : Duration;
  tn_renewal_interval : Duration;
  tn_idle_retention : Duration
}.

(** The fields of [AppConfig] that [from_config] reads. *)
Record TuningConfig := {
  cfg_upstream_concurrency_probe_delays_ms : list Z;
  cfg_upstream_concurrency_recovery_max_wait_ms : Z;
  cfg_upstream_response_header_timeout_seconds : Z
}.

Definition AccountConcurrencyTuning_from_config (config : TuningConfig)
    : AccountConcurrencyTuning :=
  let max_wait := cfg_upstream_concurrency_recovery_max_wait_ms config in
  {| tn_probe_delays :=
       normalize_concurrency_probe_delays (cfg_upstream_concurrency_probe_delays_ms config);
     tn_jitter_max := from_millis 100;
     tn_waiter_budget := from_millis max_wait;
     tn_waiter_ttl := from_millis (sat_add u64_max max_wait 60000);
     tn_probe_ttl :=
       from_secs (sat_add u64_max (cfg_upstream_response_header_timeout_seconds config) 60);
     tn_renewal_interval := from_secs 30;
     tn_idle_retention := from_secs 600 |}.

Record AccountConcurrencySnapshot := {
  snap_generation : Z;
  snap_waiters : Z;
  snap_probe_in_flight : bool;
  snap_saturated : bool;
  snap_retry_after : Duration
}.

Definition AccountConcurrencySnapshot_default : AccountConcurrencySnapshot :=
  {| snap_generation := 0; snap_waiters := 0; snap_probe_in_flight := false;
     snap_saturated := false; snap_retry_after := 0 |}.

Inductive AccountLeaseError := Missing | StaleGeneration | NotOwner | Expired.

Record TicketRecord := {
  tr_ticket : AccountWaitTicket;
  tr_logical_deadline : Instant;
  tr_lease_deadline : Instant
}.

Record ProbeRecord := {
  pr_lease : AccountProbeLease;
  pr_expires_at : Instant
}.

Record AccountState := {
  as_generation : Z;
  as_rejection_count : Z;
  as_cooldown_until : option Instant;
  as_explicit_retry_after_until : option Instant;
  as_tickets : list TicketRecord;
  as_probe : option ProbeRecord;
  as_saturated : bool;
  as_last_access : Instant
}.

Definition AccountState_new (now : Instant) : AccountState :=
  {| as_generation := 0; as_rejection_count := 0; as_cooldown_until := None;
     as_explicit_retry_after_until := None; as_tickets := []; as_probe := None;
     as_saturated := false; as_last_access := now |}.

Record AccountConcurrencyRegistry := {
  reg_tuning : AccountConcurrencyTuning;
  reg_origin : Instant;
  reg_accounts : gmap AccountConcurrencyKey AccountState
}.

Definition AccountConcurrencyRegistry_new (tuning : AccountConcurrencyTuning) (origin : Instant)
    : AccountConcurrencyRegistry :=
  {| reg_tuning :=
       if bool_decide (tn_probe_delays tuning = [])
       then {| tuning with tn_probe_delays := [from_millis 100] |}
       else tuning;
     reg_origin := origin;
     reg_accounts := ∅ |}.

Definition put_account (registry : AccountConcurrencyRegistry) (key : AccountConcurrencyKey)
    (state : AccountState) : AccountConcurrencyRegistry :=
  {| registry with reg_accounts := <[key:=state]> (reg_accounts registry) |}.

(** [entry(key).or_insert_with(|| AccountState::new(now))]. *)
Definition account_or_new (registry : AccountConcurrencyRegistry) (key : AccountConcurrencyKey)
    (now : Instant) : AccountState :=
  default (AccountState_new now) (reg_accounts registry !! key).

(** ** Helpers *)

Definition ticket_identity_matches (left right : AccountWaitTicket) : bool :=
  String.eqb (tk_request_id left) (tk_request_id right)
  && String.eqb (tk_downstream_id left) (tk_downstream_id right)
  && String.eqb (tk_downstream_lease_id left) (tk_downstream_lease_id right)
  && (tk_registered_at_ms left =? tk_registered_at_ms right)
  && String.eqb (tk_registration_token left) (tk_registration_token right).

Definition ticket_matches (left right : AccountWaitTicket) : bool :=
  ticket_identity_matches left right && (tk_generation left =? tk_generation right).

Definition validate_probe (state : AccountState) (lease : AccountProbeLease)
    : result unit AccountLeaseError :=
  if negb (as_generation state =? pl_generation lease) then Err StaleGeneration
  else match as_probe state with
  | None => Err Missing
  | Some probe =>
      if negb (String.eqb (pl_owner_token (pr_lease probe)) (pl_owner_token lease))
      then Err NotOwner
      else if negb (String.eqb (pl_request_id (pr_lease probe)) (pl_request_id lease))
      then Err NotOwner
      else Ok tt
  end.

Definition ticket_live (now : Instant) (record : TicketRecord) : bool :=
  (now <? tr_logical_deadline record) && (now <? tr_lease_deadline record).

Definition probe_expired (now : Instant) (probe : option ProbeRecord) : bool :=
  is_some_and (fun probe => pr_expires_at probe <=? now) probe.

Definition deadline_passed (now : Instant) (deadline : option Instant) : bool :=
  is_some_and (fun deadline => deadline <=? now) deadline.

Definition prune_account (state : AccountState) (now : Instant) : AccountState :=
  let state := {| state with as_tickets := retain (ticket_live now) (as_tickets state) |} in
  let state :=
    if probe_expired now (as_probe state)
    then {| state with as_probe := None;
              as_generation := sat_add u64_max (as_generation state) 1;
              as_last_access := now |}
    else state in
  let state :=
    if deadline_passed now (as_explicit_retry_after_until state)
    then {| state with as_explicit_retry_after_until := None |} else state in
  if deadline_passed now (as_cooldown_until state)
  then {| state with as_cooldown_until := None |} else state.

(** The larger of the two remaining waits, zero without deadlines. *)
Definition retry_after (state : AccountState) (now : Instant) : Duration :=
  match as_explicit_retry_after_until state, as_cooldown_until state with
  | Some e, Some c => Z.max (since e now) (since c now)
  | Some e, None => since e now
  | None, Some c => since c now
  | None, None => 0
  end.

Definition default_retry_after (tuning : AccountConcurrencyTuning) : Duration :=
  default (tn_renewal_interval tuning) (head (tn_probe_delays tuning)).

Definition instant_ms (registry : AccountConcurrencyRegistry) (instant : Instant) : Z :=
  as_millis_u64 (since instant (reg_origin registry)).

Section registry.

(** [DefaultHasher] run over the key and the generation. *)
Variable hash_account : AccountConcurrencyKey -> Z -> Z.

Definition jitter (tuning : AccountConcurrencyTuning) (key : AccountConcurrencyKey)
    (generation : Z) : Duration :=
  let max_ms := as_millis_u64 (tn_jitter_max tuning) in
  if max_ms =? 0 then 0
  else from_millis (hash_account key generation mod sat_add u64_max max_ms 1).

(** [apply_rejection] reads the tuning lock three times: for the length of the
    schedule, for the delay at the index computed from it, and for the jitter.
    The tuning lock is not held in between, so each read may see another tuning. *)
Record TuningReads := {
  rd_len : AccountConcurrencyTuning;
  rd_idx : AccountConcurrencyTuning;
  rd_jit : AccountConcurrencyTuning
}.

(** The reads when nothing is written in between. *)
Definition untorn (tuning : AccountConcurrencyTuning) : TuningReads :=
  {| rd_len := tuning; rd_idx := tuning; rd_jit := tuning |}.

(** [None] is a panic: the index lies past the end of the schedule that is read
    second, or a sum lies past the end of the clock. *)
Definition apply_rejection (reads : TuningReads) (state : AccountState)
    (key : AccountConcurrencyKey) (retry_after : option Duration)
    (now : Instant) (advance_generation : bool) : option AccountState :=
  let generation :=
    if advance_generation then sat_add u64_max (as_generation state) 1
    else as_generation state in
  let schedule_index :=
    Z.min (as_rejection_count state)
      (sat_sub (Z.of_nat (length (tn_probe_delays (rd_len reads)))) 1) in
  delay ← tn_probe_delays (rd_idx reads) !! Z.to_nat schedule_index;
  let local_delay := dur_add delay (jitter (rd_jit reads) key generation) in
  local_deadline ← instant_add now local_delay;
  explicit ←
    match retry_after with
    | Some retry_after =>
        explicit_deadline ← instant_add now retry_after;
        Some (Some (map_or explicit_deadline (fun current => Z.max current explicit_deadline)
                      (as_explicit_retry_after_until state)))
    | None => Some (as_explicit_retry_after_until state)
    end;
  Some {| state with
    as_generation := generation;
    as_saturated := true;
    as_rejection_count := sat_add usize_max (as_rejection_count state) 1;
    as_explicit_retry_after_until := explicit;
    as_cooldown_until :=
      Some (map_or local_deadline (fun explicit => Z.max explicit local_deadline) explicit);
    as_last_access := now |}.

(** ** Operations *)

Definition reject (registry : AccountConcurrencyRegistry) (key : AccountConcurrencyKey)
    (retry_after : option Duration) (reads : TuningReads) (now : Instant)
    : option AccountConcurrencyRegistry :=
  let state := prune_account (account_or_new registry key now) now in
  let advance_generation := is_none (as_probe state) in
  state ← apply_rejection reads state key retry_after now advance_generation;
  Some (put_account registry key state).

(** The ticket and the queue after the request's older tickets are dropped. *)
Definition enqueue_ticket (registry : AccountConcurrencyRegistry) (state : AccountState)
    (key : AccountConcurrencyKey) (request_id downstream_id downstream_lease_id token : string)
    (now : Instant) : AccountState * AccountWaitTicket :=
  let tickets :=
    retain (fun record => negb (String.eqb (tk_request_id (tr_ticket record)) request_id))
      (as_tickets state) in
  let ticket :=
    {| tk_account := key;
       tk_request_id := request_id;
       tk_downstream_id := downstream_id;
       tk_downstream_lease_id := downstream_lease_id;
       tk_generation := as_generation state;
       tk_registered_at_ms := instant_ms registry now;
       tk_registration_token := token |} in
  let record :=
    {| tr_ticket := ticket;
       tr_logical_deadline := now + tn_waiter_budget (reg_tuning registry);
       tr_lease_deadline := now + tn_waiter_ttl (reg_tuning registry) |} in
  ({| state with as_tickets := tickets ++ [record]; as_last_access := now |}, ticket).

Definition register_waiter (registry : AccountConcurrencyRegistry) (key : AccountConcurrencyKey)
    (request_id downstream_id downstream_lease_id token : string) (now : Instant)
    : AccountConcurrencyRegistry * AccountWaitTicket :=
  let state := prune_account (account_or_new registry key now) now in
  let '(state, ticket) :=
    enqueue_ticket registry state key request_id downstream_id downstream_lease_id token now in
  (put_account registry key state, ticket).

Definition register_waiter_if_saturated (registry : AccountConcurrencyRegistry)
    (key : AccountConcurrencyKey)
    (request_id downstream_id downstream_lease_id token : string) (now : Instant)
    : AccountConcurrencyRegistry * option AccountWaitTicket :=
  match reg_accounts registry !! key with
  | None => (registry, None)
  | Some state =>
      let state := prune_account state now in
      if negb (as_saturated state) then (put_account registry key state, None)
      else
        let '(state, ticket) :=
          enqueue_ticket registry state key request_id downstream_id downstream_lease_id
            token now in
        (put_account registry key state, Some ticket)
  end.

Definition cancel_waiter (registry : AccountConcurrencyRegistry) (ticket : AccountWaitTicket)
    (now : Instant) : AccountConcurrencyRegistry :=
  match reg_accounts registry !! tk_account ticket with
  | None => registry
  | Some state =>
      put_account registry (tk_account ticket)
        {| state with
           as_tickets :=
             retain (fun record => negb (ticket_matches (tr_ticket record) ticket))
               (as_tickets state);
           as_last_access := now |}
  end.

Definition renew_waiter (registry : AccountConcurrencyRegistry) (ticket : AccountWaitTicket)
    (now : Instant) : AccountConcurrencyRegistry * result unit AccountLeaseError :=
  match reg_accounts registry !! tk_account ticket with
  | None => (registry, Err Missing)
  | Some state =>
      let state := prune_account state now in
      let pruned := put_account registry (tk_account ticket) state in
      match position (fun record => ticket_identity_matches (tr_ticket record) ticket)
              (as_tickets state) with
      | None => (pruned, Err Missing)
      | Some i =>
          match as_tickets state !! i with
          | None => (pruned, Err Missing)
          | Some record =>
              if negb (tk_generation (tr_ticket record) =? tk_generation ticket)
              then (pruned, Err StaleGeneration)
              else if (tr_logical_deadline record <=? now) || (tr_lease_deadline record <=? now)
              then (pruned, Err Expired)
              else
                let record :=
                  {| record with
                     tr_lease_deadline := now + tn_waiter_ttl (reg_tuning registry) |} in
                (put_account registry (tk_account ticket)
                   {| state with as_tickets := <[i:=record]> (as_tickets state);
                                 as_last_access := now |},
                 Ok tt)
          end
      end
  end.

Definition try_probe (registry : AccountConcurrencyRegistry) (ticket : AccountWaitTicket)
    (token : string) (now : Instant) : AccountConcurrencyRegistry * ProbeDecision :=
  let tuning := reg_tuning registry in
  match reg_accounts registry !! tk_account ticket with
  | None => (registry, Wait (default_retry_after tuning))
  | Some state =>
      let state := prune_account state now in
      let pruned := put_account registry (tk_account ticket) state in
      match position (fun record => ticket_identity_matches (tr_ticket record) ticket)
              (as_tickets state) with
      | None => (pruned, Wait (default_retry_after tuning))
      | Some i =>
          if negb (from_option (fun record => tk_generation (tr_ticket record)
                                                =? tk_generation ticket)
                     false (as_tickets state !! i))
          then (pruned, Wait (default_retry_after tuning))
          else if negb (Nat.eqb i 0) then (pruned, Wait FIFO_POLL_INTERVAL)
          else match as_probe state with
          | Some probe => (pruned, Wait (since (pr_expires_at probe) now))
          | None =>
              let retry_after := retry_after state now in
              if negb (retry_after =? 0) then (pruned, Wait retry_after)
              else match as_tickets state with
              | [] => (pruned, Wait (default_retry_after tuning))
              | record :: tickets =>
                  let expires_at := now + tn_probe_ttl tuning in
                  let lease :=
                    {| pl_account := tk_account ticket;
                       pl_request_id := tk_request_id (tr_ticket record);
                       pl_generation := as_generation state;
                       pl_owner_token := token;
                       pl_expires_at_ms := instant_ms registry expires_at |} in
                  (put_account registry (tk_account ticket)
                     {| state with
                        as_tickets := tickets;
                        as_probe := Some {| pr_lease := lease; pr_expires_at := expires_at |};
                        as_last_access := now |},
                   Granted lease)
              end
          end
      end
  end.

Definition renew_probe (registry : AccountConcurrencyRegistry) (lease : AccountProbeLease)
    (now : Instant) : AccountConcurrencyRegistry * result unit AccountLeaseError :=
  match reg_accounts registry !! pl_account lease with
  | None => (registry, Err Missing)
  | Some state =>
      let state := prune_account state now in
      let pruned := put_account registry (pl_account lease) state in
      match validate_probe state lease with
      | Err e => (pruned, Err e)
      | Ok _ =>
          match as_probe state with
          | None => (pruned, Err Missing)
          | Some probe =>
              let expires_at := now + tn_probe_ttl (reg_tuning registry) in
              let renewed :=
                {| pr_lease :=
                     {| (pr_lease probe) with
                        pl_expires_at_ms := instant_ms registry expires_at |};
                   pr_expires_at := expires_at |} in
              (put_account registry (pl_account lease)
                 {| state with as_probe := Some renewed; as_last_access := now |},
               Ok tt)
          end
      end
  end.

(** [None] when [apply_rejection] panics. *)
Definition finish_probe (registry : AccountConcurrencyRegistry) (lease : AccountProbeLease)
    (outcome : AccountProbeOutcome) (reads : TuningReads) (now : Instant)
    : option (AccountConcurrencyRegistry * result unit AccountLeaseError) :=
  match reg_accounts registry !! pl_account lease with
  | None => Some (registry, Err Missing)
  | Some state =>
      let state := prune_account state now in
      match validate_probe state lease with
      | Err e => Some (put_account registry (pl_account lease) state, Err e)
      | Ok _ =>
          let state := {| state with as_probe := None; as_last_access := now |} in
          state ←
            match outcome with
            | ConcurrencyRejected retry_after =>
                apply_rejection reads state (pl_account lease) retry_after now true
            | Accepted =>
                Some {| state with as_cooldown_until := None;
                          as_explicit_retry_after_until := None;
                          as_rejection_count := 0;
                          as_saturated := false |}
            | AttemptFailed | Cancelled => Some state
            end;
          Some (put_account registry (pl_account lease) state, Ok tt)
      end
  end.

Definition snapshot (registry : AccountConcurrencyRegistry) (key : AccountConcurrencyKey)
    (now : Instant) : AccountConcurrencyRegistry * AccountConcurrencySnapshot :=
  match reg_accounts registry !! key with
  | None => (registry, AccountConcurrencySnapshot_default)
  | Some state =>
      let state := prune_account state now in
      (put_account registry key state,
       {| snap_generation := as_generation state;
          snap_waiters := Z.of_nat (length (as_tickets state));
          snap_probe_in_flight := is_some (as_probe state);
          snap_saturated := as_saturated state;
          snap_retry_after := retry_after state now |})
  end.

Definition account_retained (tuning : AccountConcurrencyTuning) (now : Instant)
    (state : AccountState) : bool :=
  (0 <? retry_after state now)
  || negb (is_empty (as_tickets state))
  || is_some (as_probe state)
  || (since now (as_last_access state) <=? tn_idle_retention tuning).

Definition prune_idle (registry : AccountConcurrencyRegistry) (now : Instant)
    : AccountConcurrencyRegistry * Z :=
  let pruned := (fun state => prune_account state now) <$> reg_accounts registry in
  let kept := filter (fun kv => account_retained (reg_tuning registry) now kv.2) pruned in
  ({| registry with reg_accounts := kept |},
   sat_sub (Z.of_nat (size pruned)) (Z.of_nat (size kept))).

Definition entry_count (registry : AccountConcurrencyRegistry) : Z :=
  Z.of_nat (size (reg_accounts registry)).

(** *** Updating the tuning: two critical sections

    The new tuning is written under its own lock; the deadlines of the queued
    tickets are shortened afterwards, under the registry's mutex. *)

Definition updated_tuning (tuning : AccountConcurrencyTuning)
    (concurrency_probe_delays_ms : list Z) (recovery_max_wait_ms : Z)
    : AccountConcurrencyTuning :=
  let waiter_budget := from_millis (Z.max recovery_max_wait_ms 1) in
  {| tuning with
     tn_probe_delays := normalize_concurrency_probe_delays concurrency_probe_delays_ms;
     tn_waiter_budget := waiter_budget;
     tn_waiter_ttl := dur_add waiter_budget (from_secs 60) |}.

Definition write_tuning (registry : AccountConcurrencyRegistry)
    (concurrency_probe_delays_ms : list Z) (recovery_max_wait_ms : Z)
    : AccountConcurrencyRegistry :=
  {| registry with
     reg_tuning :=
       updated_tuning (reg_tuning registry) concurrency_probe_delays_ms recovery_max_wait_ms |}.

Definition shorten_record (tuning : AccountConcurrencyTuning) (now : Instant)
    (record : TicketRecord) : TicketRecord :=
  {| record with
     tr_logical_deadline := Z.min (tr_logical_deadline record) (now + tn_waiter_budget tuning);
     tr_lease_deadline := Z.min (tr_lease_deadline record) (now + tn_waiter_ttl tuning) |}.

Definition shorten_deadlines (registry : AccountConcurrencyRegistry)
    (tuning : AccountConcurrencyTuning) (now : Instant) : AccountConcurrencyRegistry :=
  {| registry with
     reg_accounts :=
       (fun state => {| state with
          as_tickets := map (shorten_record tuning now) (as_tickets state) |})
       <$> reg_accounts registry |}.

Definition update_runtime_tuning (registry : AccountConcurrencyRegistry)
    (concurrency_probe_delays_ms : list Z) (recovery_max_wait_ms : Z) (now : Instant)
    : AccountConcurrencyRegistry :=
  let registry := write_tuning registry concurrency_probe_delays_ms recovery_max_wait_ms in
  shorten_deadlines registry (reg_tuning registry) now.

(** *** Interleavings

    The critical sections as labelled steps. [EvWriteTuning] and
    [EvShortenDeadlines] are the two halves of [update_runtime_tuning]: other
    events may happen in between, and the second half carries the tuning its
    caller computed. A rejection carries what it reads of the tuning, which need
    not be what the registry has before or after it. *)

Inductive event :=
| EvReject (key : AccountConcurrencyKey) (retry_after : option Duration) (reads : TuningReads)
| EvRegister (key : AccountConcurrencyKey) (request downstream lease token : string)
| EvRegisterIfSaturated (key : AccountConcurrencyKey) (request downstream lease token : string)
| EvCancel (ticket : AccountWaitTicket)
| EvRenewWaiter (ticket : AccountWaitTicket)
| EvTryProbe (ticket : AccountWaitTicket) (token : string)
| EvRenewProbe (lease : AccountProbeLease)
| EvFinishProbe (lease : AccountProbeLease) (outcome : AccountProbeOutcome) (reads : TuningReads)
| EvSnapshot (key : AccountConcurrencyKey)
| EvPruneIdle
| EvWriteTuning (delays_ms : list Z) (max_wait_ms : Z)
| EvShortenDeadlines (tuning : AccountConcurrencyTuning).

Definition run_step (registry : AccountConcurrencyRegistry) (ev : event) (now : Instant)
    : option AccountConcurrencyRegistry :=
  match ev with
  | EvReject key retry_after reads => reject registry key retry_after reads now
  | EvRegister key r d l token => Some (register_waiter registry key r d l token now).1
  | EvRegisterIfSaturated key r d l token =>
      Some (register_waiter_if_saturated registry key r d l token now).1
  | EvCancel ticket => Some (cancel_waiter registry ticket now)
  | EvRenewWaiter ticket => Some (renew_waiter registry ticket now).1
  | EvTryProbe ticket token => Some (try_probe registry ticket token now).1
  | EvRenewProbe lease => Some (renew_probe registry lease now).1
  | EvFinishProbe lease outcome reads => fst <$> finish_probe registry lease outcome reads now
  | EvSnapshot key => Some (snapshot registry key now).1
  | EvPruneIdle => Some (prune_idle registry now).1
  | EvWriteTuning delays wait => Some (write_tuning registry delays wait)
  | EvShortenDeadlines tuning => Some (shorten_deadlines registry tuning now)
  end.

(** The configured durations that an event adds to its clock; what a rejection adds is
    part of [apply_rejection]. *)
Definition added (registry : AccountConcurrencyRegistry) (ev : event) (now : Instant)
    : list Duration :=
  let waits tuning := [tn_waiter_budget tuning; tn_waiter_ttl tuning] in
  let tuning := reg_tuning registry in
  match ev with
  | EvRegister _ _ _ _ _ => waits tuning
  | EvRegisterIfSaturated key r d l token =>
      if is_some (register_waiter_if_saturated registry key r d l token now).2
      then waits tuning else []
  | EvRenewWaiter ticket =>
      if is_ok (renew_waiter registry ticket now).2 then [tn_waiter_ttl tuning] else []
  | EvTryProbe ticket token =>
      match (try_probe registry ticket token now).2 with
      | Granted _ => [tn_probe_ttl tuning]
      | Wait _ => []
      end
  | EvRenewProbe lease =>
      if is_ok (renew_probe registry lease now).2 then [tn_probe_ttl tuning] else []
  | EvShortenDeadlines tuning =>
      if existsb (fun kv => negb (is_empty (as_tickets kv.2))) (map_to_list (reg_accounts registry))
      then waits tuning else []
  | _ => []
  end.

(** [None] is a panic. *)
Definition run (registry : AccountConcurrencyRegistry) (ev : event) (now : Instant)
    : option AccountConcurrencyRegistry :=
  if forallb (fun d => is_some (instant_add now d)) (added registry ev now)
  then run_step registry ev now else None.

(** Registries reached from a new one by any interleaving of events. *)
Inductive reachable : AccountConcurrencyRegistry -> Prop :=
| reachable_new tuning origin : reachable (AccountConcurrencyRegistry_new tuning origin)
| reachable_run registry ev now registry' :
    reachable registry -> run registry ev now = Some registry' -> reachable registry'.

(** ** The well-formedness invariant *)

Definition request_ids (state : AccountState) : list string :=
  (fun record => tk_request_id (tr_ticket record)) <$> as_tickets state.

Record account_ok (key : AccountConcurrencyKey) (state : AccountState) : Prop := {
  (** a request waits at most once *)
  ok_request_ids : NoDup (request_ids state);
  (** tickets are filed under their own account *)
  ok_tickets_account : Forall (fun record => tk_account (tr_ticket record) = key) (as_tickets state);
  (** a live probe carries the current generation *)
  ok_probe : forall probe, as_probe state = Some probe ->
    pl_generation (pr_lease probe) = as_generation state /\ pl_account (pr_lease probe) = key;
  (** an explicit Retry-After is covered by the cooldown *)
  ok_explicit : forall e, as_explicit_retry_after_until state = Some e ->
    exists c, as_cooldown_until state = Some c /\ e <= c;
  (** only saturated accounts cool *)
  ok_saturated : forall c, as_cooldown_until state = Some c -> as_saturated state = true;
  ok_generation : 0 <= as_generation state <= u64_max
}.

Definition registry_ok (registry : AccountConcurrencyRegistry) : Prop :=
  tn_probe_delays (reg_tuning registry) <> [] /\
  map_Forall account_ok (reg_accounts registry).

(** *** What pruning does to each field *)

Lemma prune_tickets state now :
  as_tickets (prune_account state now) = retain (ticket_live now) (as_tickets state).
Proof. unfold prune_account. by repeat case_match. Qed.

Lemma prune_probe state now :
  as_probe (prune_account state now) =
  if probe_expired now (as_probe state) then None else as_probe state.
Proof. unfold prune_account; simpl. by repeat case_match. Qed.

Lemma prune_generation state now :
  as_generation (prune_account state now) =
  if probe_expired now (as_probe state) then sat_add u64_max (as_generation state) 1
  else as_generation state.
Proof. unfold prune_account; simpl. by repeat case_match. Qed.

Lemma prune_explicit state now :
  as_explicit_retry_after_until (prune_account state now) =
  if deadline_passed now (as_explicit_retry_after_until state) then None
  else as_explicit_retry_after_until state.
Proof. unfold prune_account; simpl. by repeat (case_match; simpl in * ). Qed.

Lemma prune_cooldown state now :
  as_cooldown_until (prune_account state now) =
  if deadline_passed now (as_cooldown_until state) then None else as_cooldown_until state.
Proof. unfold prune_account; simpl. by repeat (case_match; simpl in * ). Qed.

Lemma prune_saturated state now : as_saturated (prune_account state now) = as_saturated state.
Proof. unfold prune_account. by repeat case_match. Qed.

Lemma prune_rejection_count state now :
  as_rejection_count (prune_account state now) = as_rejection_count state.
Proof. unfold prune_account. by repeat case_match. Qed.

(** *** Each state change keeps an account well formed *)

Lemma new_account_ok key now : account_ok key (AccountState_new now).
Proof.
  split; simpl; try done. constructor.
Qed.

Lemma prune_ok key state now : account_ok key state -> account_ok key (prune_account state now).
Proof.
  intros [Hids Hacc Hprobe Hexp Hsat Hgen]. split.
  - unfold request_ids. rewrite prune_tickets. by apply retain_NoDup_fmap.
  - rewrite prune_tickets. apply Forall_forall. intros t [_ Ht]%retain_elem.
    rewrite Forall_forall in Hacc. auto.
  - intros p. rewrite prune_probe, prune_generation. case_match; [done|]. apply Hprobe.
  - intros e. rewrite prune_explicit, prune_cooldown.
    destruct (as_explicit_retry_after_until state) as [e'|] eqn:He; simpl; [|done].
    destruct (e' <=? now) eqn:Hn; intros; simplify_eq.
    destruct (Hexp e eq_refl) as (c & -> & Hle). simpl.
    exists c. split; [|done]. case_match; [lia|done].
  - intros c. rewrite prune_cooldown, prune_saturated. case_match; [done|]. apply Hsat.
  - rewrite prune_generation. case_match; [|done]. unfold sat_add. lia.
Qed.

Lemma jitter_range tuning key generation :
  0 <= tn_jitter_max tuning ->
  0 <= jitter tuning key generation <= tn_jitter_max tuning.
Proof.
  intros Hj. unfold jitter, as_millis_u64, as_millis, from_millis.
  assert (0 <= tn_jitter_max tuning / 1000000) by (apply Z.div_pos; lia).
  assert (1000000 * (tn_jitter_max tuning / 1000000) <= tn_jitter_max tuning)
    by (apply Z.mul_div_le; lia).
  destruct (Z.min _ _ =? 0) eqn:E; [lia|].
  unfold sat_add, u64_max in *.
  pose proof (Z.mod_pos_bound (hash_account key generation)
    (Z.min 18446744073709551615 (Z.min 18446744073709551615 (tn_jitter_max tuning / 1000000) + 1))).
  lia.
Qed.

(** A rejection whose reads see one schedule, and whose sums lie on the clock. *)
Record rejection_in_time (reads : TuningReads) (retry_after : option Duration) (now : Instant)
    : Prop := {
  rt_schedule : tn_probe_delays (rd_len reads) <> [];
  rt_untorn : tn_probe_delays (rd_idx reads) = tn_probe_delays (rd_len reads);
  rt_jitter : 0 <= tn_jitter_max (rd_jit reads);
  rt_local : Forall (fun d => now + (d + tn_jitter_max (rd_jit reads)) <= instant_max)
               (tn_probe_delays (rd_idx reads));
  rt_explicit : from_option (fun d => now + d <= instant_max) True retry_after
}.

Lemma apply_rejection_Some reads state key ra now adv :
  rejection_in_time reads ra now -> is_Some (apply_rejection reads state key ra now adv).
Proof.
  intros [Hne Huntorn Hj Hlocal Hexp]. unfold apply_rejection.
  destruct (tn_probe_delays (rd_idx reads) !! _) as [d|] eqn:E.
  2:{ rewrite Huntorn in E. apply lookup_ge_None in E. destruct (tn_probe_delays (rd_len reads)); [done|].
      simpl in E. unfold sat_sub in E. lia. }
  simpl. rewrite Forall_forall in Hlocal. specialize (Hlocal d (list_elem_of_lookup_2 _ _ _ E)).
  cbv beta in Hlocal. set (g := if adv then _ else _).
  pose proof (jitter_range (rd_jit reads) key g Hj).
  rewrite instant_add_fits by (unfold dur_add, sat_add; lia). simpl.
  destruct ra as [ra|]; simpl in *; [rewrite instant_add_fits by lia|]; by eexists.
Qed.

(** What the result of a rejection is made of. *)
Lemma apply_rejection_inv reads state key ra now adv state' :
  apply_rejection reads state key ra now adv = Some state' ->
  exists local explicit, state' = {| state with
      as_generation := if adv then sat_add u64_max (as_generation state) 1 else as_generation state;
      as_saturated := true;
      as_rejection_count := sat_add usize_max (as_rejection_count state) 1;
      as_explicit_retry_after_until := explicit;
      as_cooldown_until := Some (map_or local (fun explicit => Z.max explicit local) explicit);
      as_last_access := now |} /\
    (exists delay, tn_probe_delays (rd_idx reads) !! Z.to_nat (Z.min (as_rejection_count state)
        (sat_sub (Z.of_nat (length (tn_probe_delays (rd_len reads)))) 1)) = Some delay /\
      local = now + dur_add delay (jitter (rd_jit reads) key
        (if adv then sat_add u64_max (as_generation state) 1 else as_generation state))) /\
    explicit = match ra with
               | Some ra => Some (map_or (now + ra) (fun current => Z.max current (now + ra))
                                    (as_explicit_retry_after_until state))
               | None => as_explicit_retry_after_until state
               end.
Proof.
  unfold apply_rejection. intros (delay & Hd & (local & Hl & (explicit & He & Hs)%bind_Some)%bind_Some)%bind_Some.
  apply (inj Some) in Hs as <-. apply instant_add_Some in Hl as [-> _].
  eexists _, explicit. split; [done|]. split; [by exists delay|].
  destruct ra as [ra|]; [|congruence]. apply bind_Some in He as (t & [-> _]%instant_add_Some & He). congruence.
Qed.

Lemma apply_rejection_ok reads state key ra now adv state' :
  account_ok key state -> (adv = true -> as_probe state = None) ->
  apply_rejection reads state key ra now adv = Some state' -> account_ok key state'.
Proof.
  intros [Hids Hacc Hprobe Hexp Hsat Hgen] Hadv (local & explicit & -> & _ & _)%apply_rejection_inv.
  split; simpl; try done.
  - intros p Hp. destruct adv; [by rewrite Hadv in Hp|auto].
  - intros e ->. eexists. split; [done|]. simpl. lia.
  - destruct adv; [|done]. unfold sat_add. lia.
Qed.

Lemma enqueue_ok registry state key r d l token now :
  account_ok key state -> account_ok key (enqueue_ticket registry state key r d l token now).1.
Proof.
  intros [Hids Hacc Hprobe Hexp Hsat Hgen]. split; simpl; try done.
  - unfold request_ids; simpl. rewrite fmap_app. apply NoDup_app. split_and!.
    + by apply retain_NoDup_fmap.
    + intros x Hx Hr. apply list_elem_of_singleton in Hr as ->.
      apply list_elem_of_fmap in Hx as (t & Ht & [Hne _]%retain_elem).
      rewrite <- Ht, String.eqb_refl in Hne. done.
    + apply NoDup_singleton.
  - apply Forall_app. split; [|by constructor].
    apply Forall_forall. intros t [_ Ht]%retain_elem. rewrite Forall_forall in Hacc. auto.
Qed.

Lemma request_ids_tickets state :
  request_ids state = tk_request_id <$> (tr_ticket <$> as_tickets state).
Proof. unfold request_ids. by rewrite <- list_fmap_compose. Qed.

(** Changing deadlines only. *)
Lemma same_tickets_ok key state (tickets : list TicketRecord) access :
  account_ok key state -> tr_ticket <$> tickets = tr_ticket <$> as_tickets state ->
  account_ok key {| state with as_tickets := tickets; as_last_access := access |}.
Proof.
  intros [Hids Hacc Hprobe Hexp Hsat Hgen] Heq. split; simpl; try done.
  - rewrite request_ids_tickets in *; simpl. by rewrite Heq.
  - apply (Forall_fmap tr_ticket (fun t => tk_account t = key)). rewrite Heq.
    by apply Forall_fmap.
Qed.

Lemma shrunk_tickets_ok key state tickets access :
  account_ok key state -> sublist tickets (as_tickets state) ->
  account_ok key {| state with as_tickets := tickets; as_last_access := access |}.
Proof.
  intros [Hids Hacc Hprobe Hexp Hsat Hgen] Hsub. split; simpl; try done.
  - by eapply sublist_NoDup_fmap.
  - by eapply Forall_of_sublist.
Qed.

Lemma new_probe_ok key state tickets lease expires access :
  account_ok key state -> sublist tickets (as_tickets state) ->
  pl_generation lease = as_generation state -> pl_account lease = key ->
  account_ok key {| state with as_tickets := tickets;
    as_probe := Some {| pr_lease := lease; pr_expires_at := expires |};
    as_last_access := access |}.
Proof.
  intros [Hids Hacc Hprobe Hexp Hsat Hgen] Hsub Hg Ha. split; simpl; try done.
  - by eapply sublist_NoDup_fmap.
  - by eapply Forall_of_sublist.
  - intros p Hp. by simplify_eq.
Qed.

Lemma no_probe_ok key state access :
  account_ok key state ->
  account_ok key {| state with as_probe := None; as_last_access := access |}.
Proof. by intros []. Qed.

Lemma accepted_ok key state access :
  account_ok key state ->
  account_ok key {| state with as_cooldown_until := None; as_explicit_retry_after_until := None;
    as_rejection_count := 0; as_probe := None; as_saturated := false;
    as_last_access := access |}.
Proof. by intros []. Qed.

Lemma put_ok registry key state :
  registry_ok registry -> account_ok key state -> registry_ok (put_account registry key state).
Proof. intros [Hd Hm] Hs. split; simpl; [done|]. by apply map_Forall_insert_2. Qed.

Lemma lookup_ok registry key state :
  registry_ok registry -> reg_accounts registry !! key = Some state -> account_ok key state.
Proof. intros [_ Hm] Hl. by apply (Hm key state). Qed.

Lemma account_or_new_ok registry key now :
  registry_ok registry -> account_ok key (account_or_new registry key now).
Proof.
  intros Hok. unfold account_or_new.
  destruct (reg_accounts registry !! key) eqn:E; simpl;
    [by eapply lookup_ok | apply new_account_ok].
Qed.

#[local] Hint Resolve put_ok prune_ok enqueue_ok account_or_new_ok lookup_ok
  no_probe_ok : gateway.

Lemma validate_probe_Ok state lease u :
  validate_probe state lease = Ok u <->
  as_generation state = pl_generation lease /\
  exists probe, as_probe state = Some probe /\
    pl_owner_token (pr_lease probe) = pl_owner_token lease /\
    pl_request_id (pr_lease probe) = pl_request_id lease.
Proof.
  unfold validate_probe. destruct u.
  destruct (as_generation state =? pl_generation lease) eqn:Hg; simpl;
    [|split; [done|intros [? _]; lia]].
  destruct (as_probe state) as [p|]; simpl; [|naive_solver].
  destruct (String.eqb_spec (pl_owner_token (pr_lease p)) (pl_owner_token lease)); simpl;
    [|naive_solver].
  destruct (String.eqb_spec (pl_request_id (pr_lease p)) (pl_request_id lease)); simpl;
    [|naive_solver].
  split; [intros _; split; [lia|naive_solver]|done].
Qed.

Lemma normalize_nonempty values : normalize_concurrency_probe_delays values <> [].
Proof.
  unfold normalize_concurrency_probe_delays. destruct (probe_delays_invalid values) eqn:E; [done|].
  unfold probe_delays_invalid in E. bool_prop. by destruct values.
Qed.

Lemma new_registry_ok tuning origin : registry_ok (AccountConcurrencyRegistry_new tuning origin).
Proof.
  split; simpl; [by case_bool_decide|]. apply map_Forall_empty.
Qed.

Lemma reject_ok registry key ra reads now registry' :
  registry_ok registry -> reject registry key ra reads now = Some registry' -> registry_ok registry'.
Proof.
  unfold reject. intros Hok Hr. simplify_option_eq. apply put_ok; [done|].
  eapply apply_rejection_ok; [|intros Hn|done]; [auto with gateway|].
  by destruct (as_probe _).
Qed.

Lemma renew_waiter_ok registry ticket now :
  registry_ok registry -> registry_ok (renew_waiter registry ticket now).1.
Proof.
  intros Hok. unfold renew_waiter. repeat case_match; simpl; eauto with gateway.
  apply put_ok; [done|]. apply same_tickets_ok; [eauto with gateway|].
  rewrite list_fmap_insert. simpl. apply list_insert_id.
  rewrite list_lookup_fmap. by match goal with H : _ !! _ = Some _ |- _ => rewrite H end.
Qed.

Lemma try_probe_ok registry ticket token now :
  registry_ok registry -> registry_ok (try_probe registry ticket token now).1.
Proof.
  intros Hok. unfold try_probe. repeat case_match; simpl; eauto with gateway.
  apply put_ok; [done|]. eapply new_probe_ok; eauto with gateway.
  match goal with H : as_tickets _ = _ |- _ => rewrite H end. by apply sublist_cons.
Qed.

Lemma renew_probe_ok registry lease now :
  registry_ok registry -> registry_ok (renew_probe registry lease now).1.
Proof.
  intros Hok. unfold renew_probe. repeat case_match; simpl; eauto with gateway.
  apply put_ok; [done|].
  match goal with H : reg_accounts _ !! _ = Some ?s |- _ =>
    pose proof (prune_ok _ s now (lookup_ok _ _ _ Hok H)) as Hs end.
  edestruct (ok_probe _ _ Hs) as [Hg Ha]; [done|].
  by apply (new_probe_ok _ _ (as_tickets _)).
Qed.

Lemma finish_probe_ok registry lease outcome reads now registry' res :
  registry_ok registry -> finish_probe registry lease outcome reads now = Some (registry', res) ->
  registry_ok registry'.
Proof.
  intros Hok. unfold finish_probe.
  destruct (reg_accounts registry !! pl_account lease) as [s|] eqn:Hl;
    [|by intros; simplify_eq].
  pose proof (prune_ok _ s now (lookup_ok _ _ _ Hok Hl)) as Hs.
  destruct (validate_probe _ _); [|intros; simplify_eq; by apply put_ok].
  destruct outcome; intros Hf; simplify_option_eq; (apply put_ok; [done|]);
    auto using no_probe_ok.
  - eapply apply_rejection_ok; [| |eassumption]; [by apply no_probe_ok|done].
  - by apply accepted_ok.
Qed.

#[local] Arguments enqueue_ticket : simpl never.
#[local] Arguments register_waiter : simpl never.
#[local] Arguments register_waiter_if_saturated : simpl never.
#[local] Arguments prune_account : simpl never.

Lemma prune_idle_ok registry now : registry_ok registry -> registry_ok (prune_idle registry now).1.
Proof.
  intros [Hd Hm]. unfold prune_idle, shorten_deadlines. split; simpl; [done|]. intros key state Hl.
  apply map_lookup_filter_Some in Hl as [Hl _].
  rewrite lookup_fmap in Hl. destruct (reg_accounts registry !! key) as [s|] eqn:E; simplify_eq/=.
  apply prune_ok. by apply Hm.
Qed.

Lemma shorten_ok registry tuning now :
  registry_ok registry -> registry_ok (shorten_deadlines registry tuning now).
Proof.
  intros [Hd Hm]. unfold prune_idle, shorten_deadlines. split; simpl; [done|]. intros key state Hl.
  rewrite lookup_fmap in Hl. destruct (reg_accounts registry !! key) as [s|] eqn:E; simplify_eq/=.
  pose proof (Hm _ _ E) as Hs. clear E.
  assert (tr_ticket <$> map (shorten_record tuning now) (as_tickets s) = tr_ticket <$> as_tickets s)
    as Heq by (by rewrite <- list_fmap_compose).
  by apply (same_tickets_ok key s _ (as_last_access s)).
Qed.

Lemma register_waiter_registry registry key r d l token now :
  (register_waiter registry key r d l token now).1 =
  put_account registry key
    (enqueue_ticket registry (prune_account (account_or_new registry key now) now)
       key r d l token now).1.
Proof. unfold register_waiter. by destruct (enqueue_ticket _ _ _ _ _ _ _ _). Qed.

Lemma register_if_saturated_registry registry key r d l token now :
  (register_waiter_if_saturated registry key r d l token now).1 =
  match reg_accounts registry !! key with
  | None => registry
  | Some state =>
      put_account registry key
        (if as_saturated state
         then (enqueue_ticket registry (prune_account state now) key r d l token now).1
         else prune_account state now)
  end.
Proof.
  unfold register_waiter_if_saturated.
  destruct (reg_accounts registry !! key) as [a|]; [|done].
  rewrite prune_saturated. destruct (as_saturated _); simpl; [|done].
  by destruct (enqueue_ticket registry (prune_account a now) key r d l token now).
Qed.

(** Every event keeps the registry well formed, whatever it reads. *)
Lemma run_step_ok registry ev now registry' :
  registry_ok registry -> run_step registry ev now = Some registry' -> registry_ok registry'.
Proof.
  intros Hok. destruct ev; unfold run_step; intros Hrun;
    try (apply (inj Some) in Hrun; subst registry').
  - by eapply reject_ok.
  - rewrite register_waiter_registry. auto with gateway.
  - rewrite register_if_saturated_registry. repeat case_match; eauto with gateway.
  - unfold cancel_waiter. case_match; [|done].
    apply put_ok; [done|]. apply shrunk_tickets_ok; [eauto with gateway|]. apply retain_sublist.
  - by apply renew_waiter_ok.
  - by apply try_probe_ok.
  - by apply renew_probe_ok.
  - destruct (finish_probe _ _ _ _ _) as [[]|] eqn:E; simplify_eq/=. by eapply finish_probe_ok.
  - unfold snapshot. case_match; simpl; eauto with gateway.
  - by apply prune_idle_ok.
  - destruct Hok. split; [apply normalize_nonempty|done].
  - by apply shorten_ok.
Qed.

Lemma run_Some registry ev now registry' :
  run registry ev now = Some registry' -> run_step registry ev now = Some registry'.
Proof. unfold run. by destruct (forallb _ _). Qed.

Lemma run_ok registry ev now registry' :
  registry_ok registry -> run registry ev now = Some registry' -> registry_ok registry'.
Proof. intros Hok Hrun%run_Some. by eapply run_step_ok. Qed.

(** The sums that an event makes lie on the clock, and a rejection reads one schedule. *)
Definition in_time (registry : AccountConcurrencyRegistry) (ev : event) (now : Instant) : Prop :=
  Forall (fun d => now + d <= instant_max) (added registry ev now) /\
  match ev with
  | EvReject _ ra reads | EvFinishProbe _ (ConcurrencyRejected ra) reads =>
      rejection_in_time reads ra now
  | _ => True
  end.

Lemma reject_total registry key ra reads now :
  rejection_in_time reads ra now -> is_Some (reject registry key ra reads now).
Proof.
  intros Ht. unfold reject. edestruct apply_rejection_Some as [s Hs]; [done|]. rewrite Hs. by eexists.
Qed.

Lemma finish_probe_total registry lease outcome reads now :
  match outcome with ConcurrencyRejected ra => rejection_in_time reads ra now | _ => True end ->
  is_Some (finish_probe registry lease outcome reads now).
Proof.
  intros Ht. unfold finish_probe. destruct (reg_accounts registry !! _) as [s|]; [|by eexists].
  destruct (validate_probe _ _); [|by eexists].
  destruct outcome as [ra| | |]; [|by eexists..].
  edestruct apply_rejection_Some as [s' Hs']; [done|]. rewrite Hs'. by eexists.
Qed.

Lemma run_total registry ev now : in_time registry ev now -> is_Some (run registry ev now).
Proof.
  intros [Hadded Hev]. unfold run.
  assert (forallb (fun d => is_some (instant_add now d)) (added registry ev now) = true) as ->.
  { apply forallb_forall. intros d Hd%list_elem_of_In. rewrite Forall_forall in Hadded.
    by rewrite instant_add_fits by auto. }
  destruct ev; simpl; try by eexists.
  - by apply reject_total.
  - apply fmap_is_Some. by apply finish_probe_total.
Qed.

Lemma reachable_ok registry : reachable registry -> registry_ok registry.
Proof. induction 1; [apply new_registry_ok | by eapply run_ok]. Qed.

(** A sequence of events, each with its time. *)
Fixpoint run_all (registry : AccountConcurrencyRegistry) (trace : list (event * Instant))
    : option AccountConcurrencyRegistry :=
  match trace with
  | [] => Some registry
  | (ev, now) :: trace => registry' ← run registry ev now; run_all registry' trace
  end.

(** ** Leases exclude each other *)

(** The live probe of [key] belongs to [token]; it lasts until [until]. *)
Definition held (registry : AccountConcurrencyRegistry) (key : AccountConcurrencyKey)
    (token : string) (until : Instant) : Prop :=
  exists state probe, reg_accounts registry !! key = Some state /\
    as_probe state = Some probe /\ pl_owner_token (pr_lease probe) = token /\
    until <= pr_expires_at probe.

(** An event by which the owner itself ends or moves its lease. *)
Definition owner_event (key : AccountConcurrencyKey) (token : string) (ev : event) : bool :=
  match ev with
  | EvRenewProbe lease | EvFinishProbe lease _ _ =>
      bool_decide (pl_account lease = key) && String.eqb (pl_owner_token lease) token
  | _ => false
  end.

Lemma prune_live_probe state now probe :
  as_probe state = Some probe -> now < pr_expires_at probe ->
  as_probe (prune_account state now) = Some probe.
Proof.
  intros Hp Hn. rewrite prune_probe, Hp. simpl. case_match; [lia|done].
Qed.

(** The account states an event writes keep a live probe of another owner. *)
Lemma held_put registry key token until key' state :
  held registry key token until ->
  (key' = key -> exists probe, as_probe state = Some probe /\
     pl_owner_token (pr_lease probe) = token /\ until <= pr_expires_at probe) ->
  held (put_account registry key' state) key token until.
Proof.
  intros (s & p & Hl & Hp & Ht & Hu) Hput. unfold held. simpl.
  destruct (decide (key' = key)) as [->|Hne].
  - destruct Hput as (p' & ? & ? & ?); [done|].
    exists state, p'. by rewrite lookup_insert_eq.
  - exists s, p. by rewrite lookup_insert_ne.
Qed.

Lemma held_pruned registry key token until now state key' :
  held registry key token until -> now < until ->
  reg_accounts registry !! key' = Some state -> key' = key ->
  exists probe, as_probe (prune_account state now) = Some probe /\
    pl_owner_token (pr_lease probe) = token /\ until <= pr_expires_at probe.
Proof.
  intros (s & p & Hl & Hp & Ht & Hu) Hnow Hl' ->. simplify_eq.
  exists p. split_and!; [|done..]. apply prune_live_probe; [done|lia].
Qed.

Lemma held_put_pruned registry key token until now key' state state' :
  held registry key token until -> now < until ->
  reg_accounts registry !! key' = Some state ->
  as_probe state' = as_probe (prune_account state now) ->
  held (put_account registry key' state') key token until.
Proof.
  intros Hh Hnow Hl Hp. apply held_put; [done|]. intros ->. rewrite Hp. by eapply held_pruned.
Qed.

Lemma account_or_new_lookup registry key now state :
  reg_accounts registry !! key = Some state -> account_or_new registry key now = state.
Proof. unfold account_or_new. by intros ->. Qed.

Lemma held_put_or_new registry key token until now key' state' :
  held registry key token until -> now < until ->
  as_probe state' = as_probe (prune_account (account_or_new registry key' now) now) ->
  held (put_account registry key' state') key token until.
Proof.
  intros Hh Hnow Hp. destruct (reg_accounts registry !! key') as [s|] eqn:Hl.
  - rewrite (account_or_new_lookup _ _ _ s) in Hp by done. by eapply held_put_pruned.
  - apply held_put; [done|]. intros ->. destruct Hh as (s & p & Hl' & _). congruence.
Qed.

Lemma apply_rejection_probe reads state key ra now adv state' :
  apply_rejection reads state key ra now adv = Some state' ->
  as_probe state' = as_probe state /\ as_tickets state' = as_tickets state.
Proof. by intros (local & explicit & -> & _)%apply_rejection_inv. Qed.

(** A validated lease belongs to the owner of the live probe. *)
Lemma validated_owner registry key token until now lease state u :
  held registry key token until -> now < until ->
  reg_accounts registry !! pl_account lease = Some state ->
  validate_probe (prune_account state now) lease = Ok u ->
  pl_account lease = key -> pl_owner_token lease = token.
Proof.
  intros Hh Hnow Hl (Hg & p & Hp & Ht & _)%validate_probe_Ok Hk.
  eapply held_pruned in Hh as (p' & Hp' & Ht' & _); [|done..].
  rewrite Hp in Hp'. by simplify_eq.
Qed.

Lemma not_owner_event key token lease (outcome : option AccountProbeOutcome) reads :
  owner_event key token
    (match outcome with Some o => EvFinishProbe lease o reads | None => EvRenewProbe lease end) = false ->
  ~ (pl_account lease = key /\ pl_owner_token lease = token).
Proof.
  destruct outcome; simpl; intros Ho [??]; subst;
    by rewrite String.eqb_refl, bool_decide_eq_true_2 in Ho.
Qed.

(** An event that is not the owner's leaves a live lease in place. *)
Lemma held_run registry key token until ev now registry' :
  held registry key token until -> now < until -> owner_event key token ev = false ->
  run registry ev now = Some registry' -> held registry' key token until.
Proof.
  intros Hh Hnow Hev Hrun%run_Some. revert Hrun. destruct ev; unfold run_step; intros Hrun;
    try (apply (inj Some) in Hrun; subst registry').
  - unfold reject in Hrun. simplify_option_eq. eapply held_put_or_new; [done..|].
    by match goal with H : apply_rejection _ _ _ _ _ _ = _ |- _ =>
      apply apply_rejection_probe in H as [-> _] end.
  - rewrite register_waiter_registry. by eapply held_put_or_new.
  - rewrite register_if_saturated_registry. case_match; [|done].
    eapply held_put_pruned; [done..|]. by case_match.
  - unfold cancel_waiter. case_match; [|done]. apply held_put; [done|]. intros <-.
    destruct Hh as (s & p & Hl & Hp & ?). simplify_eq/=. by exists p.
  - unfold renew_waiter. repeat case_match; simpl; try done; by eapply held_put_pruned.
  - unfold try_probe. repeat case_match; simpl; try done; try by eapply held_put_pruned.
    apply held_put; [done|]. intros Hk.
    eapply held_pruned in Hh as (p & Hp & _); [|done..]. congruence.
  - unfold renew_probe. repeat case_match; simpl; try done; try by eapply held_put_pruned.
    apply held_put; [done|]. intros Hk. destruct (not_owner_event key token lease None (untorn (reg_tuning registry))); [done|].
    split; [done|]. by eapply (validated_owner registry key token until now).
  - unfold finish_probe in Hrun. destruct (reg_accounts registry !! _) as [s|] eqn:Hl;
      [|by simplify_eq/=].
    destruct (validate_probe _ _) as [u|e] eqn:Hv; [|simplify_eq/=; by eapply held_put_pruned].
    apply fmap_Some in Hrun as ([r res] & Hb & ->). apply bind_Some in Hb as (s' & _ & Hb).
    simplify_eq/=. apply held_put; [done|]. intros Hk.
    destruct (not_owner_event key token lease (Some outcome) reads); [done|].
    split; [done|]. by eapply (validated_owner registry key token until now).
  - unfold snapshot. case_match; simpl; [|done]. by eapply held_put_pruned.
  - destruct Hh as (s & p & Hl & Hp & Ht & Hu). exists (prune_account s now), p.
    assert (as_probe (prune_account s now) = Some p) as Hp' by (apply prune_live_probe; [done|lia]).
    split_and!; [|done..]. unfold prune_idle; simpl. apply map_lookup_filter_Some.
    rewrite lookup_fmap, Hl. split; [done|]. simpl. unfold account_retained. rewrite Hp'. simpl.
    by rewrite !orb_true_r.
  - done.
  - destruct Hh as (s & p & Hl & Hp & Ht & Hu). eexists _, p. unfold shorten_deadlines; simpl.
    rewrite lookup_fmap, Hl. by split_and!.
Qed.

Lemma held_try_probe_waits registry key token until ticket token' now :
  held registry key token until -> now < until -> tk_account ticket = key ->
  exists wait, (try_probe registry ticket token' now).2 = Wait wait.
Proof.
  intros Hh Hnow <-. destruct Hh as (s & p & Hl & Hp & Ht & Hu).
  unfold try_probe. rewrite Hl. rewrite (prune_live_probe _ _ p) by (done || lia).
  repeat case_match; simpl; eauto.
Qed.

(** A grant makes its lease the live one, until the probe TTL has passed. *)
Lemma grant_held registry ticket token now lease registry' :
  try_probe registry ticket token now = (registry', Granted lease) ->
  held registry' (tk_account ticket) token (now + tn_probe_ttl (reg_tuning registry)) /\
  pl_owner_token lease = token /\ pl_account lease = tk_account ticket.
Proof.
  unfold try_probe. intros Ht. repeat case_match; simplify_eq/=. split; [|done].
  eexists _, _. simpl. rewrite lookup_insert_eq. by split_and!.
Qed.

(** ** Expired leases stay dead *)

(** No probe of [key] issued to [token] is still live after [t]. *)
Definition gone (registry : AccountConcurrencyRegistry) (key : AccountConcurrencyKey)
    (token : string) (t : Instant) : Prop :=
  forall state probe, reg_accounts registry !! key = Some state ->
    as_probe state = Some probe -> pl_owner_token (pr_lease probe) = token ->
    pr_expires_at probe <= t.

(** The event issues a lease under [token]. *)
Definition issues_token (token : string) (ev : event) : bool :=
  match ev with EvTryProbe _ token' => String.eqb token' token | _ => false end.

Lemma gone_put registry key token t key' state' :
  gone registry key token t ->
  (key' = key -> forall probe, as_probe state' = Some probe ->
     pl_owner_token (pr_lease probe) = token -> pr_expires_at probe <= t) ->
  gone (put_account registry key' state') key token t.
Proof.
  intros Hg Hput s p Hl Hp Ht. simpl in Hl.
  apply lookup_insert_Some in Hl as [[-> ->]|[_ Hl]]; [by apply Hput | by eapply Hg].
Qed.

Lemma pruned_probe_inv state now probe :
  as_probe (prune_account state now) = Some probe ->
  as_probe state = Some probe /\ now < pr_expires_at probe.
Proof.
  rewrite prune_probe. destruct (as_probe state) as [p|]; simpl; [|done].
  case_match; [done|]. intros. simplify_eq. split; [done|lia].
Qed.

Lemma gone_put_pruned registry key token t now key' state state' :
  gone registry key token t -> reg_accounts registry !! key' = Some state ->
  (forall p, as_probe state' = Some p -> as_probe (prune_account state now) = Some p) ->
  gone (put_account registry key' state') key token t.
Proof.
  intros Hg Hl Hsub. apply gone_put; [done|]. intros -> p Hp Ht.
  apply Hsub, pruned_probe_inv in Hp as [Hp _]. by eapply Hg.
Qed.

Lemma gone_put_or_new registry key token t now key' state' :
  gone registry key token t ->
  as_probe state' = as_probe (prune_account (account_or_new registry key' now) now) ->
  gone (put_account registry key' state') key token t.
Proof.
  intros Hg Hp. unfold account_or_new in Hp.
  destruct (reg_accounts registry !! key') as [s|] eqn:Hl; simpl in Hp.
  - eapply gone_put_pruned; [done..|]. intros p. by rewrite Hp.
  - apply gone_put; [done|]. intros _ p Hp'. by rewrite Hp in Hp'.
Qed.

Lemma gone_no_live registry key token t now state probe :
  gone registry key token t -> t <= now -> reg_accounts registry !! key = Some state ->
  as_probe (prune_account state now) = Some probe -> pl_owner_token (pr_lease probe) <> token.
Proof.
  intros Hg Hnow Hl [Hp Hlive]%pruned_probe_inv Ht. specialize (Hg _ _ Hl Hp Ht). lia.
Qed.

Lemma gone_run registry key token t ev now registry' :
  gone registry key token t -> t <= now -> issues_token token ev = false ->
  run registry ev now = Some registry' -> gone registry' key token t.
Proof.
  intros Hg Hnow Hev Hrun%run_Some. revert Hrun. destruct ev; unfold run_step; intros Hrun;
    try (apply (inj Some) in Hrun; subst registry').
  - unfold reject in Hrun. simplify_option_eq. eapply gone_put_or_new; [done|].
    by match goal with H : apply_rejection _ _ _ _ _ _ = _ |- _ =>
      apply apply_rejection_probe in H as [-> _] end.
  - rewrite register_waiter_registry. by eapply gone_put_or_new.
  - rewrite register_if_saturated_registry. case_match; [|done].
    eapply (gone_put_pruned _ _ _ _ now); [done..|]. intros p. by case_match.
  - unfold cancel_waiter. case_match; [|done]. apply gone_put; [done|]. intros <- p Hp.
    by eapply Hg.
  - unfold renew_waiter. repeat case_match; simpl; try done; by eapply gone_put_pruned.
  - simpl in Hev. apply String.eqb_neq in Hev.
    unfold try_probe. repeat case_match; simpl; try done; try by eapply gone_put_pruned.
    apply gone_put; [done|]. intros _ q Hq Hqt. by simplify_eq/=.
  - unfold renew_probe. repeat case_match; simpl; try done; try by eapply gone_put_pruned.
    apply gone_put; [done|]. intros <- q Hq Hqt. simplify_eq/=.
    by edestruct (gone_no_live registry).
  - unfold finish_probe in Hrun. destruct (reg_accounts registry !! _) as [s|] eqn:Hl;
      [|by simplify_eq/=].
    destruct (validate_probe _ _) as [u|e] eqn:Hv; [|simplify_eq/=; by eapply gone_put_pruned].
    apply fmap_Some in Hrun as ([r res] & Hb & ->). apply bind_Some in Hb as (s' & Hs' & Hb).
    simplify_eq/=. apply gone_put; [done|]. intros _ p Hp. exfalso.
    destruct outcome; simplify_eq/=.
    apply apply_rejection_probe in Hs' as [Hs' _]. by rewrite Hs' in Hp.
  - unfold snapshot. case_match; simpl; [|done]. by eapply gone_put_pruned.
  - intros s p Hl Hp. unfold prune_idle in Hl; simpl in Hl.
    apply map_lookup_filter_Some in Hl as [Hl _]. rewrite lookup_fmap in Hl.
    destruct (reg_accounts registry !! key) as [s0|] eqn:E; simplify_eq/=.
    apply pruned_probe_inv in Hp as [Hp _]. by eapply Hg.
  - done.
  - intros s p Hl Hp. unfold shorten_deadlines in Hl; simpl in Hl. rewrite lookup_fmap in Hl.
    destruct (reg_accounts registry !! key) as [s0|] eqn:E; simplify_eq/=. by eapply Hg.
Qed.

Lemma gone_run_all registry key token t trace registry' :
  gone registry key token t ->
  Forall (fun '(ev, now) => t <= now /\ issues_token token ev = false) trace ->
  run_all registry trace = Some registry' -> gone registry' key token t.
Proof.
  revert registry. induction trace as [|[ev now] trace IH]; intros registry Hg Hall Hrun;
    simplify_option_eq; [done|].
  apply Forall_cons in Hall as [[Hnow Hev] Hall]. eapply IH; [|done..]. by eapply gone_run.
Qed.

Lemma held_run_all registry key token until trace registry' :
  held registry key token until ->
  Forall (fun '(ev, now) => now < until /\ owner_event key token ev = false) trace ->
  run_all registry trace = Some registry' -> held registry' key token until.
Proof.
  revert registry. induction trace as [|[ev now] trace IH]; intros registry Hh Hall Hrun;
    simplify_option_eq; [done|].
  apply Forall_cons in Hall as [[Hnow Hev] Hall]. eapply IH; [|done..]. by eapply held_run.
Qed.

Lemma gone_validate registry lease t now state u :
  gone registry (pl_account lease) (pl_owner_token lease) t -> t <= now ->
  reg_accounts registry !! pl_account lease = Some state ->
  validate_probe (prune_account state now) lease <> Ok u.
Proof.
  intros Hg Hnow Hl (_ & p & Hp & Ht & _)%validate_probe_Ok.
  by eapply gone_no_live.
Qed.

(** ** Properties *)

(** C2. In every registry reached by any interleaving of registrations,
    rejections, probes, renewals, cancellations, idle pruning and tuning
    updates, each account is well formed: a request waits at most once, tickets
    are filed under their account, a live probe carries the current generation,
    an explicit Retry-After never outlasts the cooldown and only saturated
    accounts cool. Every operation that returns keeps this, even a rejection whose
    reads of the tuning straddle updates of it; and an operation returns, without a
    panic, whenever its sums lie on the clock and, for a rejection, its reads see
    one schedule ([torn_tuning_read_panics] and [long_retry_after_panics] show that
    both conditions are needed). *)
Theorem account_registry_invariant registry :
  reachable registry ->
  registry_ok registry /\
  (forall ev now registry', run registry ev now = Some registry' -> registry_ok registry') /\
  (forall ev now, in_time registry ev now -> exists registry', run registry ev now = Some registry').
Proof.
  intros Hok%reachable_ok. split_and!; [done|intros ev now registry'; by apply run_ok|].
  intros ev now Ht. apply (run_total registry ev now Ht).
Qed.

(** C36. Single flight: once [try_probe] has granted a lease, and until its TTL
    has passed, no request gets another probe of that account, whatever other
    operations are interleaved, as long as the owner neither finishes nor
    renews it. *)
Theorem probe_lease_exclusive registry ticket token now registry1 lease trace registry2
    ticket' token' now' :
  try_probe registry ticket token now = (registry1, Granted lease) ->
  Forall (fun '(ev, t) => t < now + tn_probe_ttl (reg_tuning registry) /\
                          owner_event (tk_account ticket) token ev = false) trace ->
  run_all registry1 trace = Some registry2 ->
  now' < now + tn_probe_ttl (reg_tuning registry) ->
  tk_account ticket' = tk_account ticket ->
  exists wait, (try_probe registry2 ticket' token' now').2 = Wait wait.
Proof.
  intros (Hh & _ & _)%grant_held Hall Hrun Hnow Hacc.
  eapply held_run_all in Hrun; [|done..]. by eapply held_try_probe_waits.
Qed.

(** Fencing: once the TTL of a lease has passed it can neither be renewed
    nor finished, however the registry evolves afterwards (accounts pruned and
    recreated included), provided its owner token is not issued again. *)
Theorem expired_lease_never_settles registry lease state probe t trace registry' now :
  reg_accounts registry !! pl_account lease = Some state ->
  as_probe state = Some probe -> pr_expires_at probe <= t ->
  Forall (fun '(ev, now) => t <= now /\ issues_token (pl_owner_token lease) ev = false) trace ->
  run_all registry trace = Some registry' -> t <= now ->
  is_ok (renew_probe registry' lease now).2 = false /\
  forall outcome reads,
    from_option (fun r => is_ok r.2) false (finish_probe registry' lease outcome reads now) = false.
Proof.
  intros Hl Hp Hexp Hall Hrun Hnow.
  assert (gone registry (pl_account lease) (pl_owner_token lease) t) as Hg
    by (intros s p Hs Hsp _; by simplify_eq).
  eapply gone_run_all in Hg; [|done..]. split.
  - unfold renew_probe. destruct (reg_accounts registry' !! pl_account lease) as [s|] eqn:E; [|done].
    destruct (validate_probe _ _) eqn:Hv; [|done]. by eapply gone_validate in Hv.
  - intros outcome reads. unfold finish_probe.
    destruct (reg_accounts registry' !! pl_account lease) as [s|] eqn:E; [|done].
    destruct (validate_probe _ _) eqn:Hv; [|done]. by eapply gone_validate in Hv.
Qed.

(** The ticket is at the head of its account's queue and nothing holds it back. *)
Definition probe_ready (registry : AccountConcurrencyRegistry) (ticket : AccountWaitTicket)
    (now : Instant) : Prop :=
  exists state record rest,
    reg_accounts registry !! tk_account ticket = Some state /\
    as_tickets (prune_account state now) = record :: rest /\
    ticket_identity_matches (tr_ticket record) ticket = true /\
    tk_generation (tr_ticket record) = tk_generation ticket /\
    as_probe (prune_account state now) = None /\
    retry_after (prune_account state now) now = 0.

Lemma grant_inv registry ticket token now registry' lease :
  try_probe registry ticket token now = (registry', Granted lease) ->
  probe_ready registry ticket now /\
  exists state record rest,
    reg_accounts registry !! tk_account ticket = Some state /\
    as_tickets (prune_account state now) = record :: rest /\
    exists state', reg_accounts registry' !! tk_account ticket = Some state' /\
      as_tickets state' = rest /\ pl_request_id lease = tk_request_id (tr_ticket record).
Proof.
  unfold try_probe. intros Ht. repeat case_match; simplify_eq/=.
  bool_prop. match goal with H : Nat.eqb _ 0 = true |- _ => apply Nat.eqb_eq in H; subst end.
  match goal with H : (if ?b then _ else _) = Some 0%nat |- _ =>
    destruct b eqn:Hm; [|by destruct (position _ _)] end.
  simpl in *.
  split.
  - eexists _, _, _. split_and!; [done..|lia|done|lia].
  - eexists _, _, _. split_and!; [done..|]. eexists. rewrite lookup_insert_eq. by split_and!.
Qed.

(** FIFO with progress: a probe is granted exactly when the asking ticket
    is the head of the unexpired queue with its generation unchanged, no probe
    is live and every wait has elapsed; the grant removes that head alone. *)
Theorem probe_granted_iff_ready registry ticket token now :
  (exists registry' lease, try_probe registry ticket token now = (registry', Granted lease))
  <-> probe_ready registry ticket now.
Proof.
  split.
  - intros (r & l & H). by eapply grant_inv.
  - intros (s & rec & rest & Hl & Ht & Hm & Hg & Hp & Hr).
    unfold try_probe. rewrite Hl, Ht, Hp, Hr. simpl. rewrite Hm. simpl.
    rewrite Hg, Z.eqb_refl. simpl. by eexists _, _.
Qed.

Definition queue (state : AccountState) : list AccountWaitTicket := tr_ticket <$> as_tickets state.

(** The tickets kept, in their order, then at most one newcomer. *)
Definition queue_step (old new : list AccountWaitTicket) : Prop :=
  exists kept added, new = kept ++ added /\ sublist kept old /\ (length added <= 1)%nat.

Lemma queue_step_sublist old new : sublist new old -> queue_step old new.
Proof. exists new, []. rewrite app_nil_r. simpl. split_and!; [done..|lia]. Qed.

Lemma queue_prune state now : sublist (queue (prune_account state now)) (queue state).
Proof. unfold queue. rewrite prune_tickets. apply sublist_map, retain_sublist. Qed.

Lemma queue_enqueue registry state key r d l token now :
  queue_step (queue state)
    (queue (enqueue_ticket registry (prune_account state now) key r d l token now).1).
Proof.
  unfold enqueue_ticket, queue; simpl. rewrite fmap_app. eexists _, _. split_and!; [done| |simpl; lia].
  etrans; [apply sublist_map, retain_sublist|]. apply queue_prune.
Qed.

Lemma queue_put registry key key' state s' state' :
  reg_accounts registry !! key = Some state ->
  reg_accounts (put_account registry key' s') !! key = Some state' ->
  (key' = key -> queue_step (queue state) (queue s')) -> queue_step (queue state) (queue state').
Proof.
  simpl. intros Hl [[-> ->]|[_ Hl']]%lookup_insert_Some Hq; [by apply Hq|].
  simplify_eq. by apply queue_step_sublist.
Qed.

Lemma queue_put_pruned registry key key' now state0 state s' state' :
  reg_accounts registry !! key = Some state -> reg_accounts registry !! key' = Some state0 ->
  reg_accounts (put_account registry key' s') !! key = Some state' ->
  sublist (queue s') (queue (prune_account state0 now)) ->
  queue_step (queue state) (queue state').
Proof.
  intros Hl Hl0 Hl' Hsub. eapply queue_put; [done..|]. intros ->. simplify_eq.
  apply queue_step_sublist. etrans; [done|]. apply queue_prune.
Qed.

Lemma queue_finish_probe registry lease outcome reads now registry' result key state state' :
  finish_probe registry lease outcome reads now = Some (registry', result) ->
  reg_accounts registry !! key = Some state -> reg_accounts registry' !! key = Some state' ->
  queue_step (queue state) (queue state').
Proof.
  intros Hrun Hl Hl'. unfold finish_probe in Hrun.
  destruct (reg_accounts registry !! pl_account lease) as [s|] eqn:E;
    [|simplify_eq/=; by apply queue_step_sublist].
  destruct (validate_probe _ _) as [u|e] eqn:Hv.
  2:{ apply (inj Some) in Hrun. apply (inj2 pair) in Hrun as [<- _].
      by eapply (queue_put_pruned registry key (pl_account lease) now). }
  apply bind_Some in Hrun as (s' & Hs' & Hb).
  apply (inj Some) in Hb. apply (inj2 pair) in Hb as [<- _].
  eapply (queue_put_pruned registry key (pl_account lease) now); [done..|].
  assert (as_tickets s' = as_tickets (prune_account s now)) as Heq.
  { destruct outcome; simplify_eq/=; try done. by apply apply_rejection_probe in Hs' as [_ ->]. }
  unfold queue at 1. by rewrite Heq.
Qed.

(** No queue jumping: through any event, the tickets of an account that
    stay in its queue keep their order, and a newcomer goes to the back. *)
Theorem queue_keeps_order registry ev now registry' key state state' :
  run registry ev now = Some registry' ->
  reg_accounts registry !! key = Some state -> reg_accounts registry' !! key = Some state' ->
  queue_step (queue state) (queue state').
Proof.
  intros Hrun%run_Some. revert Hrun. destruct ev; unfold run_step; intros Hrun Hl Hl';
    try (apply (inj Some) in Hrun; subst registry').
  - unfold reject in Hrun. apply bind_Some in Hrun as (s & Hs & Hput).
    apply (inj Some) in Hput as <-. eapply queue_put; [done..|]. intros ->.
    rewrite (account_or_new_lookup _ _ _ state) in Hs by done. apply queue_step_sublist.
    apply apply_rejection_probe in Hs as [_ Heq].
    unfold queue at 1. rewrite Heq. apply queue_prune.
  - rewrite register_waiter_registry in Hl'. eapply queue_put; [done..|]. intros ->.
    rewrite (account_or_new_lookup _ _ _ state) by done. apply queue_enqueue.
  - rewrite register_if_saturated_registry in Hl'.
    destruct (reg_accounts registry !! key0) as [s|] eqn:E;
      [|simplify_eq; by apply queue_step_sublist].
    eapply queue_put; [done..|]. intros ->. simplify_eq.
    case_match; [apply queue_enqueue | apply queue_step_sublist, queue_prune].
  - unfold cancel_waiter in Hl'.
    destruct (reg_accounts registry !! tk_account ticket) as [s|] eqn:E;
      [|simplify_eq; by apply queue_step_sublist].
    eapply queue_put; [done..|]. intros <-. simplify_eq. apply queue_step_sublist.
    unfold queue; simpl. apply sublist_map, retain_sublist.
  - unfold renew_waiter in Hl'. repeat case_match; cbn [fst] in Hl';
      try (simplify_eq; by apply queue_step_sublist);
      (eapply (queue_put_pruned registry key (tk_account ticket) now); [done..|]); try done.
    unfold queue; simpl. rewrite list_fmap_insert. simpl. rewrite list_insert_id; [done|].
    rewrite list_lookup_fmap. by match goal with H : _ !! _ = Some _ |- _ => rewrite H end.
  - unfold try_probe in Hl'. repeat case_match; cbn [fst] in Hl';
      try (simplify_eq; by apply queue_step_sublist); 
      (eapply (queue_put_pruned registry key (tk_account ticket) now); [done..|]); try done.
    unfold queue; simpl. match goal with H : as_tickets _ = _ |- _ => rewrite H end.
    by apply sublist_cons.
  - unfold renew_probe in Hl'. repeat case_match; cbn [fst] in Hl';
      try (simplify_eq; by apply queue_step_sublist);
      by eapply (queue_put_pruned registry key (pl_account lease) now).
  - apply fmap_Some in Hrun as ([r result] & Hrun & ->). by eapply queue_finish_probe.
  - unfold snapshot in Hl'. case_match; cbn [fst] in Hl';
      [by eapply (queue_put_pruned registry key key0 now) | simplify_eq; by apply queue_step_sublist].
  - unfold prune_idle in Hl'; simpl in Hl'. apply map_lookup_filter_Some in Hl' as [Hl' _].
    rewrite lookup_fmap, Hl in Hl'. simplify_eq/=. apply queue_step_sublist, queue_prune.
  - simpl in Hl'. simplify_eq. by apply queue_step_sublist.
  - unfold shorten_deadlines in Hl'; simpl in Hl'. rewrite lookup_fmap, Hl in Hl'. simplify_eq/=.
    apply queue_step_sublist. unfold queue; simpl. by rewrite <- list_fmap_compose.
Qed.

(** The delay that a rejection finds in the schedule. *)
Definition scheduled_delay (reads : TuningReads) (state : AccountState) : Duration :=
  default 0 (tn_probe_delays (rd_idx reads) !! Z.to_nat (Z.min (as_rejection_count state)
               (sat_sub (Z.of_nat (length (tn_probe_delays (rd_len reads)))) 1))).

(** The wait a state still owes to an explicit Retry-After. *)
Definition explicit_wait (state : AccountState) (now : Instant) : Duration :=
  map_or 0 (fun e => since e now) (as_explicit_retry_after_until state).

(** What one rejection does to the wait of an account. *)
Lemma apply_rejection_wait reads state key ra now adv state' :
  Forall (fun d => 0 <= d <= from_millis MAX_PROBE_DELAY_MS) (tn_probe_delays (rd_idx reads)) ->
  0 <= tn_jitter_max (rd_jit reads) <= from_millis MAX_PROBE_DELAY_MS ->
  from_option (Z.le 0) True ra ->
  apply_rejection reads state key ra now adv = Some state' ->
  as_saturated state' = true /\
  as_generation state' = (if adv then sat_add u64_max (as_generation state) 1
                          else as_generation state) /\
  Z.max (scheduled_delay reads state) (Z.max (default 0 ra) (explicit_wait state now))
    <= retry_after state' now <=
  Z.max (scheduled_delay reads state + tn_jitter_max (rd_jit reads))
    (Z.max (default 0 ra) (explicit_wait state now)).
Proof.
  intros Hd Hj Hra (local & explicit & -> & (d & E & ->) & ->)%apply_rejection_inv.
  unfold scheduled_delay. rewrite E. cbn [from_option]. do 2 (split; [done|]).
  rewrite Forall_forall in Hd. specialize (Hd d (list_elem_of_lookup_2 _ _ _ E)).
  set (g := if adv then _ else _). pose proof (jitter_range (rd_jit reads) key g ltac:(lia)) as Hjit.
  assert (dur_add d (jitter (rd_jit reads) key g) = d + jitter (rd_jit reads) key g) as ->.
  { apply sat_add_exact. unfold duration_max, from_millis, MAX_PROBE_DELAY_MS, u64_max in *. lia. }
  unfold retry_after, explicit_wait, since; simpl.
  destruct ra as [ra|], (as_explicit_retry_after_until state) as [e|]; simpl in *; lia.
Qed.

(** A rejection saturates the account, advances the generation exactly
    when no probe is live, and makes every later probe wait at least for the
    scheduled delay and for any explicit Retry-After, old or new, and never
    longer than those plus the jitter: no ticket is granted a probe before. *)
Theorem rejection_bounds_wait registry key ra reads now registry' :
  Forall (fun d => 0 <= d <= from_millis MAX_PROBE_DELAY_MS) (tn_probe_delays (rd_idx reads)) ->
  0 <= tn_jitter_max (rd_jit reads) <= from_millis MAX_PROBE_DELAY_MS ->
  from_option (Z.le 0) True ra ->
  reject registry key ra reads now = Some registry' ->
  let old := prune_account (account_or_new registry key now) now in
  let floor := Z.max (scheduled_delay reads old)
                 (Z.max (default 0 ra) (explicit_wait old now)) in
  exists state, reg_accounts registry' !! key = Some state /\
    as_saturated state = true /\
    as_generation state = (if is_none (as_probe old) then sat_add u64_max (as_generation old) 1
                           else as_generation old) /\
    floor <= retry_after state now <= floor + tn_jitter_max (rd_jit reads) /\
    forall ticket token now', tk_account ticket = key -> now <= now' < now + floor ->
      exists wait, (try_probe registry' ticket token now').2 = Wait wait.
Proof.
  intros Hd Hj Hra Hrej old floor. unfold reject in Hrej. fold old in Hrej.
  apply bind_Some in Hrej as (s & Hs & Hput). apply (inj Some) in Hput as <-.
  pose proof (apply_rejection_wait _ _ _ _ _ _ _ Hd Hj Hra Hs) as (Hsat & Hgen & Hlo & Hhi).
  assert (reg_accounts (put_account registry key s) !! key = Some s) as Hl
    by (simpl; apply lookup_insert_eq).
  exists s. do 3 (split; [done|]). split; [subst floor; lia|].
  intros ticket token now' Hacc Hnow.
  destruct (try_probe _ ticket token now') as [r [lease|w]] eqn:Ht; [|by eexists].
  apply grant_inv in Ht as [(s' & rec & rest & Hl' & _ & _ & _ & _ & Hwait) _].
  rewrite Hacc, Hl in Hl'. assert (s' = s) as -> by congruence. exfalso.
  unfold retry_after in Hwait, Hlo. rewrite prune_explicit, prune_cooldown in Hwait.
  subst floor. unfold since, deadline_passed, is_some_and in *.
  destruct (as_explicit_retry_after_until s) as [e|], (as_cooldown_until s) as [c|];
    repeat case_match; simplify_eq; lia.
Qed.

(** Idle pruning drops exactly the pruned accounts without queued ticket,
    live probe or pending wait that were not used within the retention time,
    keeps every other account as pruned, and reports how many it dropped. *)
Theorem prune_idle_drops_idle registry now key :
  let pruned := (fun state => prune_account state now) <$> reg_accounts registry !! key in
  reg_accounts (prune_idle registry now).1 !! key =
    opt_filter (fun state =>
      (0 <? retry_after state now) || negb (is_empty (as_tickets state))
      || is_some (as_probe state)
      || (since now (as_last_access state) <=? tn_idle_retention (reg_tuning registry))) pruned /\
  (prune_idle registry now).2 =
    entry_count registry - entry_count (prune_idle registry now).1.
Proof.
  split.
  - unfold prune_idle; simpl. rewrite map_lookup_filter, lookup_fmap.
    destruct (reg_accounts registry !! key) as [s|]; simpl; [|done].
    change (_ || _) with (account_retained (reg_tuning registry) now (prune_account s now)).
    destruct (account_retained _ _ _) eqn:E.
    + by rewrite option_guard_True.
    + by rewrite option_guard_False by tauto.
  - unfold prune_idle, entry_count; simpl.
    pose proof (map_size_filter (fun kv : AccountConcurrencyKey * AccountState =>
      account_retained (reg_tuning registry) now kv.2)
      ((fun state => prune_account state now) <$> reg_accounts registry)) as Hle.
    rewrite map_size_fmap in *. unfold sat_sub. lia.
Qed.

(** Renewing a wait: the result says exactly whether the ticket is queued
    under the same identity and generation, success extends the lease deadline
    of that ticket alone, and the [Expired] error never occurs, since expired
    tickets are pruned first. *)
Theorem renew_waiter_result registry ticket now :
  (renew_waiter registry ticket now).2 =
  match reg_accounts registry !! tk_account ticket with
  | None => Err Missing
  | Some state =>
      match head (retain (fun record => ticket_identity_matches (tr_ticket record) ticket)
                    (retain (ticket_live now) (as_tickets state))) with
      | None => Err Missing
      | Some record =>
          if tk_generation (tr_ticket record) =? tk_generation ticket then Ok tt
          else Err StaleGeneration
      end
  end.
Proof.
  unfold renew_waiter. destruct (reg_accounts registry !! _) as [s|]; [|done].
  rewrite prune_tickets. set (f := fun record => _). set (l := retain _ (as_tickets s)).
  assert (forall r, r ∈ l -> ticket_live now r = true) as Hlive by (by intros r [? _]%retain_elem).
  rewrite <- (position_head_retain f l).
  destruct (position f l) as [i|] eqn:Hp; simpl; [|done].
  apply position_Some in Hp as (r & Hr & _). rewrite Hr. simpl.
  destruct (tk_generation _ =? _); simpl; [|done].
  specialize (Hlive r (list_elem_of_lookup_2 _ _ _ Hr)).
  unfold ticket_live in Hlive. bool_prop. by case_match eqn:Hx; [lia|].
Qed.

(** The tuning is read more than once within one rejection: if
    [update_runtime_tuning] installs a shorter probe schedule between the read
    of the length and the read of the delay, the index computed from the old
    schedule is out of range and the rejection panics while it holds the
    registry's mutex. Reachable registries allow it. *)
Theorem torn_tuning_read_panics :
  exists registry key,
    reachable registry /\
    let updated := updated_tuning (reg_tuning registry) [100] 30000 in
    reject registry key None {| rd_len := reg_tuning registry; rd_idx := updated; rd_jit := updated |} 0
      = None.
Proof.
  set (tuning := {| tn_probe_delays := [from_millis 100; from_millis 200];
                    tn_jitter_max := from_millis 100; tn_waiter_budget := from_secs 30;
                    tn_waiter_ttl := from_secs 90; tn_probe_ttl := from_secs 60;
                    tn_renewal_interval := from_secs 30; tn_idle_retention := from_secs 600 |}).
  set (key := {| ack_upstream_id := "up"; ack_key_fingerprint := "k" |}).
  set (new := AccountConcurrencyRegistry_new tuning 0).
  assert (rejection_in_time (untorn tuning) None 0) as Ht.
  { split; simpl; [done|done|unfold from_millis; lia| |done].
    repeat constructor; unfold from_millis, instant_max; lia. }
  destruct (reject_total new key None (untorn tuning) 0 Ht) as [r Hr].
  assert (reachable r) as Hreach
    by (eapply (reachable_run new (EvReject key None (untorn tuning)) 0); [apply reachable_new | exact Hr]).
  unfold reject in Hr. apply bind_Some in Hr as (s & Hs & Hput).
  apply (inj Some) in Hput as <-. exists (put_account new key s), key. split; [done|].
  apply apply_rejection_inv in Hs as (local & explicit & -> & _).
  intros updated. unfold reject, account_or_new. cbn [put_account reg_accounts].
  rewrite lookup_insert_eq. cbn [from_option]. unfold apply_rejection. rewrite prune_rejection_count. cbn [as_rejection_count]. rewrite prune_rejection_count. reflexivity.
Qed.

(** So does a rejection that names a Retry-After past the end of the clock, which
    [parse_retry_after] of [upstream_feedback.rs] takes from the header of the upstream
    as it is: with the mutex poisoned, every later call panics too. *)
Theorem long_retry_after_panics registry key ra reads now :
  instant_max < now + ra -> reject registry key (Some ra) reads now = None.
Proof.
  intros Hlong. unfold reject. destruct (apply_rejection _ _ _ _ _ _) as [s|] eqn:Hs; [|done].
  exfalso. unfold apply_rejection in Hs.
  apply bind_Some in Hs as (d & _ & (local & _ & (explicit & He & _)%bind_Some)%bind_Some).
  apply bind_Some in He as (t & [-> Ht]%instant_add_Some & _). lia.
Qed.

End registry.

(** ** Witnesses

    One account, one waiter, the shipped tuning. *)

Module Witness.

Definition no_hash (_ : AccountConcurrencyKey) (_ : Z) : Z := 0.

Definition config : TuningConfig :=
  {| cfg_upstream_concurrency_probe_delays_ms := DEFAULT_UPSTREAM_CONCURRENCY_PROBE_DELAYS_MS;
     cfg_upstream_concurrency_recovery_max_wait_ms := 30000;
     cfg_upstream_response_header_timeout_seconds := 60 |}.

Definition start : AccountConcurrencyRegistry :=
  AccountConcurrencyRegistry_new (AccountConcurrencyTuning_from_config config) 0.

Definition account : AccountConcurrencyKey :=
  {| ack_upstream_id := "up"; ack_key_fingerprint := "k" |}.

Definition waiting : AccountConcurrencyRegistry * AccountWaitTicket :=
  register_waiter start account "request" "tenant" "lease" "ticket-1" 0.

Definition granted : AccountConcurrencyRegistry * ProbeDecision :=
  try_probe waiting.1 waiting.2 "owner-1" 0.

Definition lease : AccountProbeLease :=
  {| pl_account := account; pl_request_id := "request"; pl_generation := 0;
     pl_owner_token := "owner-1"; pl_expires_at_ms := 120000 |}.

Definition holder : AccountState :=
  {| as_generation := 0; as_rejection_count := 0; as_cooldown_until := None;
     as_explicit_retry_after_until := None; as_tickets := [];
     as_probe := Some {| pr_lease := lease; pr_expires_at := from_secs 120 |};
     as_saturated := false; as_last_access := 0 |}.

End Witness.

Import Witness.

Lemma account_registry_invariant_witness :
  registry_ok waiting.1 /\
  (forall ev now registry', run no_hash waiting.1 ev now = Some registry' -> registry_ok registry') /\
  (forall ev now, in_time waiting.1 ev now ->
    exists registry', run no_hash waiting.1 ev now = Some registry').
Proof.
  apply account_registry_invariant.
  eapply (reachable_run _ start (EvRegister account "request" "tenant" "lease" "ticket-1") 0);
    [apply reachable_new | reflexivity].
Defined.

Lemma probe_lease_exclusive_witness :
  exists wait, (try_probe granted.1 waiting.2 "owner-2" (from_secs 30)).2 = Wait wait.
Proof.
  refine (probe_lease_exclusive no_hash waiting.1 waiting.2 "owner-1" 0 granted.1 lease
    [(EvSnapshot account, 1)] granted.1 waiting.2 "owner-2" (from_secs 30) _ _ _ _ _).
  - vm_compute. reflexivity.
  - repeat constructor.
  - vm_compute. reflexivity.
  - vm_compute. reflexivity.
  - reflexivity.
Defined.

Lemma expired_lease_never_settles_witness :
  is_ok (renew_probe granted.1 lease (from_secs 130)).2 = false /\
  forall outcome reads, from_option (fun r => is_ok r.2) false
    (finish_probe no_hash granted.1 lease outcome reads (from_secs 130)) = false.
Proof.
  refine (expired_lease_never_settles no_hash granted.1 lease holder
    {| pr_lease := lease; pr_expires_at := from_secs 120 |} (from_secs 120) [] granted.1
    (from_secs 130) _ _ _ _ _ _).
  - vm_compute. reflexivity.
  - reflexivity.
  - vm_compute. discriminate.
  - constructor.
  - reflexivity.
  - vm_compute. discriminate.
Defined.

Lemma queue_keeps_order_witness :
  exists state state',
    reg_accounts waiting.1 !! account = Some state /\
    reg_accounts granted.1 !! account = Some state' /\
    queue_step (queue state) (queue state').
Proof.
  eexists _, holder. split; [vm_compute; reflexivity|]. split; [vm_compute; reflexivity|].
  refine (queue_keeps_order no_hash waiting.1 (EvTryProbe waiting.2 "owner-1") 0 granted.1 account
    _ _ _ _ _); vm_compute; reflexivity.
Defined.

Lemma rejection_bounds_wait_witness :
  exists registry', reject no_hash start account (Some (from_secs 5)) (untorn (reg_tuning start)) 0 = Some registry' /\
  exists state, reg_accounts registry' !! account = Some state /\
    as_saturated state = true /\ as_generation state = 1 /\
    forall ticket token now', tk_account ticket = account -> 0 <= now' < from_secs 5 ->
      exists wait, (try_probe registry' ticket token now').2 = Wait wait.
Proof.
  eexists. split; [vm_compute; reflexivity|].
  edestruct (rejection_bounds_wait no_hash start account (Some (from_secs 5)) (untorn (reg_tuning start)) 0)
    as (state & Hl & Hsat & Hgen & _ & Hwait).
  - apply (bool_decide_unpack _). vm_compute. exact I.
  - vm_compute. split; discriminate.
  - vm_compute. discriminate.
  - vm_compute. reflexivity.
  - exists state. split; [exact Hl|]. split; [exact Hsat|]. split; [rewrite Hgen; reflexivity|].
    intros ticket token now' Ha Hn. apply (Hwait ticket token now' Ha).
    destruct Hn as [Hlo Hhi]. split; [exact Hlo|]. eapply Z.lt_le_trans; [exact Hhi|].
    vm_compute. discriminate.
Defined.
