(* ===== verification/RouteHealth.v ===== *)
(** * The health of one route or key

    The entry [HealthState] of [src/src/state/route_health.rs] with its
    predicates and updates, the values handed to the callers (leases,
    availabilities, outcomes, snapshots, recoveries) and [failure_step], which
    decides how far one more failure escalates.

    The clock is an argument. Deadlines are points of an unbounded time line:
    the overflow of [Instant + Duration] is not modelled. *)

From S2P Require Import Prelude RouteTypes Backoff.

Local Open Scope Z_scope.

(** ** Data *)

Record HealthState := {
  hs_consecutive_failures : Z;
  hs_last_failure_class : option RouteFailureClass;
  hs_last_failure_status : option Z;
  hs_last_failure_at : option Instant;
  hs_cooldown_until : option Instant;
  hs_half_open_generation : option Z;
  hs_half_open_expires_at : option Instant;
  hs_half_open_exclusive_until : option Instant;
  hs_last_early_probe_at : option Instant;
  hs_state_generation : Z;
  hs_last_access : Instant
}.

Inductive RouteAvailability (T : Type) :=
| Ready (lease : T)
| Cooling (class : RouteFailureClass) (retry_after : Duration) (upstream_status : option Z)
| HalfOpenBusy (class : RouteFailureClass) (retry_after : Duration) (upstream_status : option Z).
Arguments Ready {T}.
Arguments Cooling {T}.
Arguments HalfOpenBusy {T}.

Record RouteRecovery := {
  rr_class : RouteFailureClass;
  rr_retry_after : Duration;
  rr_half_open_remaining : option Duration
}.

Record HealthLease := {
  hl_route : RouteHealthKey;
  hl_key : KeyHealthKey;
  hl_key_generation : option Z;
  hl_route_generation : option Z;
  hl_route_state_generation : option Z;
  hl_half_open : bool
}.

Inductive RouteOutcome :=
| Success
| RouteFailure (class : RouteFailureClass) (upstream_status : option Z)
    (repeat_within_request sole_candidate capacity_sole_route
     shared_host_failure_domain : bool)
| RouteFailureWithRetry (class : RouteFailureClass) (retry_after : Duration)
    (upstream_status : option Z)
    (repeat_within_request sole_candidate capacity_sole_route
     shared_host_failure_domain : bool)
| KeyFailure (class : RouteFailureClass)
| KeyFailureWithRetry (class : RouteFailureClass) (retry_after : Duration)
| UncertainRouteFailure (class : RouteFailureClass)
| OutcomeCancelled.

Record HealthStateSnapshot := {
  ss_consecutive_failures : Z;
  ss_last_failure_class : option RouteFailureClass;
  ss_cooldown_remaining : Duration;
  ss_half_open : bool;
  ss_half_open_remaining : Duration
}.

(** ** [impl HealthState] *)

Definition HealthState_new (now : Instant) : HealthState :=
  {| hs_consecutive_failures := 0; hs_last_failure_class := None;
     hs_last_failure_status := None; hs_last_failure_at := None;
     hs_cooldown_until := None; hs_half_open_generation := None;
     hs_half_open_expires_at := None; hs_half_open_exclusive_until := None;
     hs_last_early_probe_at := None; hs_state_generation := 0; hs_last_access := now |}.

Definition health_is_active (state : HealthState) (now : Instant) : bool :=
  is_some (hs_half_open_generation state)
  && is_some_and (fun expires_at => now <? expires_at) (hs_half_open_expires_at state).

Definition health_is_cooling (state : HealthState) (now : Instant) : bool :=
  is_some_and (fun until => now <? until) (hs_cooldown_until state).

Definition health_retry_after (state : HealthState) (now : Instant) : Duration :=
  map_or 0 (fun until => since until now) (hs_cooldown_until state).

(** [state_generation] survives. *)
Definition health_clear (state : HealthState) (now : Instant) : HealthState :=
  {| state with
     hs_consecutive_failures := 0;
     hs_last_failure_class := None;
     hs_last_failure_status := None;
     hs_last_failure_at := None;
     hs_cooldown_until := None;
     hs_half_open_generation := None;
     hs_half_open_expires_at := None;
     hs_half_open_exclusive_until := None;
     hs_last_early_probe_at := None;
     hs_last_access := now |}.

Definition health_is_clear (state : HealthState) : bool :=
  (hs_consecutive_failures state =? 0)
  && is_none (hs_last_failure_class state)
  && is_none (hs_last_failure_status state)
  && is_none (hs_last_failure_at state)
  && is_none (hs_cooldown_until state)
  && is_none (hs_half_open_generation state)
  && is_none (hs_half_open_expires_at state)
  && is_none (hs_half_open_exclusive_until state)
  && is_none (hs_last_early_probe_at state).

(** The three fields of the half-open lease, dropped together. *)
Definition drop_half_open (state : HealthState) : HealthState :=
  {| state with
     hs_half_open_generation := None;
     hs_half_open_expires_at := None;
     hs_half_open_exclusive_until := None |}.

Definition touch (state : HealthState) (now : Instant) : HealthState :=
  {| state with hs_last_access := now |}.

Definition release_half_open (state : HealthState) (generation : option Z) (now : Instant)
    : HealthState :=
  let state :=
    if is_some generation && bool_decide (hs_half_open_generation state = generation)
    then drop_half_open state else state in
  touch state now.

Definition half_open_remaining (state : HealthState) (now : Instant) : Duration :=
  map_or 0 (fun expires_at => since expires_at now) (hs_half_open_expires_at state).

Definition half_open_exclusive_remaining (state : HealthState) (now : Instant) : Duration :=
  match hs_half_open_exclusive_until state with
  | Some until => since until now
  | None => half_open_remaining state now
  end.

Definition half_open_busy_wait (state : HealthState) (now : Instant) : Duration :=
  Z.max (Z.min (half_open_remaining state now) (half_open_exclusive_remaining state now))
    HALF_OPEN_BUSY_RETRY.

Definition health_snapshot (state : HealthState) (now : Instant) : HealthStateSnapshot :=
  let half_open :=
    is_some (hs_half_open_generation state)
    && is_some_and (fun expires_at => now <? expires_at) (hs_half_open_expires_at state) in
  {| ss_consecutive_failures := hs_consecutive_failures state;
     ss_last_failure_class := hs_last_failure_class state;
     ss_cooldown_remaining := health_retry_after state now;
     ss_half_open := half_open;
     ss_half_open_remaining := if half_open then half_open_busy_wait state now else 0 |}.

Definition health_state_recovery (state : HealthState) (now : Instant) : option RouteRecovery :=
  class ← hs_last_failure_class state;
  _ ← hs_cooldown_until state;
  Some (if health_is_active state now
        then {| rr_class := class; rr_retry_after := HALF_OPEN_BUSY_RETRY;
                rr_half_open_remaining := Some (half_open_busy_wait state now) |}
        else {| rr_class := class; rr_retry_after := health_retry_after state now;
                rr_half_open_remaining := None |}).

(** ** Escalation *)

(** Whether the last failure is too old or of another class. *)
Definition streak_broken (state : HealthState) (class : RouteFailureClass) (now : Instant)
    : bool :=
  is_some_and (fun last => FAILURE_STREAK_RESET <? since now last) (hs_last_failure_at state)
  || negb (bool_decide (hs_last_failure_class state = Some class)).

Definition failure_step (state : HealthState) (class : RouteFailureClass) (now : Instant)
    (repeat_within_request : bool) (max_step : Z) (shared_host_failure_domain : bool) : Z :=
  let max_step := Z.max max_step 1 in
  if bool_decide (class = EdgeProxyError)
     || (shared_host_failure_domain && is_shared_host_domain_class class)
  then 1
  else if streak_broken state class now then 1
  else if repeat_within_request then Z.max (hs_consecutive_failures state) 1
  else
    let escalated := Z.max (sat_add u32_max (hs_consecutive_failures state) 1) 1 in
    if is_some (hs_half_open_generation state) && negb (bool_decide (class = ConcurrencySaturated))
    then Z.min (Z.min escalated ROUTE_HALF_OPEN_FAILURE_STEP_CAP) max_step
    else if is_some (hs_half_open_generation state) then escalated
    else Z.min escalated max_step.

(** ** Well-formed entries *)

(** An entry without a failure class carries no signal that [reserve] would
    report with that class, and the three half-open fields stand or fall
    together. *)
Record health_state_ok (state : HealthState) : Prop := {
  ok_class : hs_last_failure_class state = None ->
             hs_cooldown_until state = None /\ hs_half_open_generation state = None;
  ok_expires : is_some (hs_half_open_expires_at state) = is_some (hs_half_open_generation state);
  ok_exclusive :
    is_some (hs_half_open_exclusive_until state) = is_some (hs_half_open_generation state);
  ok_failures : 0 <= hs_consecutive_failures state <= u32_max;
  ok_generation : 0 <= hs_state_generation state <= u64_max
}.

Lemma HealthState_new_ok now : health_state_ok (HealthState_new now).
Proof. by split; simpl; unfold u32_max, u64_max; try lia. Qed.

Lemma health_clear_ok state now : health_state_ok state -> health_state_ok (health_clear state now).
Proof. intros []. by split; simpl; unfold u32_max; try lia. Qed.

Lemma touch_ok state now : health_state_ok state -> health_state_ok (touch state now).
Proof. by intros []; split. Qed.

Lemma drop_half_open_ok state : health_state_ok state -> health_state_ok (drop_half_open state).
Proof. intros []. split; simpl; try done. intros Hc. naive_solver. Qed.

Lemma release_half_open_ok state generation now :
  health_state_ok state -> health_state_ok (release_half_open state generation now).
Proof.
  intros. unfold release_half_open. apply touch_ok. case_match; [|done]. by apply drop_half_open_ok.
Qed.

#[export] Hint Resolve HealthState_new_ok health_clear_ok touch_ok drop_half_open_ok
  release_half_open_ok : gateway.

(** A state that is cooling or leased has a class. *)
Lemma cooling_class state now :
  health_state_ok state -> health_is_cooling state now = true ->
  is_Some (hs_last_failure_class state).
Proof.
  intros [Hc _ _ _ _] Hcool. destruct (hs_last_failure_class state); [done|].
  destruct (Hc eq_refl) as [Hn _]. unfold health_is_cooling in Hcool. by rewrite Hn in Hcool.
Qed.

Lemma leased_class state g :
  health_state_ok state -> hs_half_open_generation state = Some g ->
  is_Some (hs_last_failure_class state).
Proof.
  intros [Hc _ _ _ _] Hg. destruct (hs_last_failure_class state); [done|].
  destruct (Hc eq_refl) as [_ Hn]. congruence.
Qed.

Lemma active_leased state now :
  health_is_active state now = true -> is_Some (hs_half_open_generation state).
Proof. unfold health_is_active. intros. bool_prop. by destruct (hs_half_open_generation state). Qed.

Lemma failure_step_range state class now repeat max_step shared :
  health_state_ok state -> max_step <= u32_max ->
  1 <= failure_step state class now repeat max_step shared <= u32_max.
Proof.
  intros [_ _ _ Hf _] Hm. unfold failure_step, sat_add, ROUTE_HALF_OPEN_FAILURE_STEP_CAP, u32_max in *.
  repeat case_match; lia.
Qed.
