(* ===== verification/RouteHealthRegistry.v ===== *)
(** * The route health registry

    [RouteHealthRegistry] of [src/src/state/route_health.rs]: the health
    entries of routes, keys and route sets, the admission of requests
    ([reserve]), the early probe of a cooling route, the settlement of leases
    ([finish]) and the observation of failures, the eviction that bounds the
    maps, and the snapshots.

    Every method runs under the registry's mutex and is one function on the
    registry. [Instant::now()] is an argument, [None] stands for the panic of
    an [expect]. The [debug_assert]s and the overflow checks of debug builds
    are those of a release build: absent, and wrapping. Log statements are
    left out. *)

From S2P Require Import Prelude RouteTypes Backoff RouteHealth.

Local Open Scope Z_scope.

Definition ROUTE_HEALTH_GLOBAL_CAPACITY : Z := 16384.
Definition ROUTE_HEALTH_PER_UPSTREAM_CAPACITY : Z := 4096.
Definition DEFAULT_ROUTE_HEALTH_HALF_OPEN_TTL_SECONDS : Z := 300.
Definition DEFAULT_ROUTE_HEALTH_HALF_OPEN_EXCLUSIVE_WINDOW_MS : Z := 3000.
Definition DEFAULT_UPSTREAM_TRANSIENT_ROUTE_COOLDOWN_BASE_SECONDS : Z := 5.
Definition DEFAULT_UPSTREAM_TRANSIENT_ROUTE_COOLDOWN_MAX_SECONDS : Z := 5 * 60.
Definition DEFAULT_UPSTREAM_TRANSIENT_ROUTE_COOLDOWN_MAX_STEP : Z := 2.
Definition DEFAULT_UPSTREAM_CREDENTIALS_FIRST_STRIKE_SECONDS : Z := 60.
Definition DEFAULT_UPSTREAM_CAPACITY_FAILURE_COOLDOWN_ENABLED : bool := false.

(** ** Data *)

Record AggregateState := {
  ag_consecutive_failures : Z;
  ag_last_failure_class : option RouteFailureClass;
  ag_last_failure_at : option Instant;
  ag_cooldown_until : option Instant;
  ag_last_access : Instant
}.

Record RouteHealthRegistry := {
  rh_routes : gmap RouteHealthKey HealthState;
  rh_keys : gmap KeyHealthKey HealthState;
  rh_aggregates : gmap RouteSetAggregateKey AggregateState;
  rh_route_capacity : Z;
  rh_per_upstream_capacity : Z;
  rh_next_generation : Z;
  rh_concurrency_probe_delays : list Duration;
  rh_transient_route_cooldown_base : Duration;
  rh_transient_route_cooldown_max : Duration;
  rh_transient_route_cooldown_max_step : Z;
  rh_half_open_ttl : Duration;
  rh_half_open_exclusive_window : Duration;
  rh_credentials_first_strike : Duration;
  rh_capacity_failure_cooldown_enabled : bool;
  rh_enforcement_enabled : bool;
  rh_cooldown_skipped_total : gmap string Z
}.

Record RouteHealthDetailDto := {
  rd_upstream_id : string;
  rd_key_fingerprint : string;
  rd_runtime_model_slug : string;
  rd_protocol : WireProtocol;
  rd_cooldown_until_unix : option Z;
  rd_cooldown_remaining_ms : Z;
  rd_half_open : bool;
  rd_consecutive_failures : Z;
  rd_last_failure_class : option string;
  rd_last_failure_status : option Z
}.

Record RouteHealthSnapshotDto := {
  rs_healthy_routes : Z;
  rs_cooldown_routes : Z;
  rs_half_open_routes : Z;
  rs_legacy_local_admission_poisoned_routes : Z;
  rs_earliest_retry_after_seconds : option Z;
  rs_failure_classes : gmap string Z
}.

(** The values that [update_runtime_tuning] installs. *)
Record RuntimeTuning := {
  rt_concurrency_probe_delays_ms : list Z;
  rt_transient_route_cooldown_base_seconds : Z;
  rt_transient_route_cooldown_max_seconds : Z;
  rt_transient_route_cooldown_max_step : Z;
  rt_half_open_ttl_seconds : Z;
  rt_half_open_exclusive_window_ms : Z;
  rt_credentials_first_strike_seconds : Z;
  rt_capacity_failure_cooldown_enabled : bool;
  rt_route_health_enforcement_enabled : bool
}.

(** ** Construction and tuning *)

Definition new_with_runtime_tuning_and_enforcement
    (route_capacity per_upstream_capacity : Z) (tuning : RuntimeTuning) : RouteHealthRegistry :=
  let base := Z.max (rt_transient_route_cooldown_base_seconds tuning) 1 in
  let max := Z.max (rt_transient_route_cooldown_max_seconds tuning) base in
  {| rh_routes := ∅;
     rh_keys := ∅;
     rh_aggregates := ∅;
     rh_route_capacity := Z.max route_capacity 1;
     rh_per_upstream_capacity := Z.max per_upstream_capacity 1;
     rh_next_generation := 0;
     rh_concurrency_probe_delays :=
       normalize_concurrency_probe_delays (rt_concurrency_probe_delays_ms tuning);
     rh_transient_route_cooldown_base := from_secs base;
     rh_transient_route_cooldown_max := from_secs max;
     rh_transient_route_cooldown_max_step :=
       clamp 1 8 (rt_transient_route_cooldown_max_step tuning);
     rh_half_open_ttl := from_secs (Z.max (rt_half_open_ttl_seconds tuning) 1);
     rh_half_open_exclusive_window := from_millis (rt_half_open_exclusive_window_ms tuning);
     rh_credentials_first_strike :=
       from_secs (Z.max (rt_credentials_first_strike_seconds tuning) 1);
     rh_capacity_failure_cooldown_enabled := rt_capacity_failure_cooldown_enabled tuning;
     rh_enforcement_enabled := rt_route_health_enforcement_enabled tuning;
     rh_cooldown_skipped_total := ∅ |}.

Definition new_with_concurrency_probe_delays (route_capacity per_upstream_capacity : Z)
    (concurrency_probe_delays_ms : list Z) : RouteHealthRegistry :=
  new_with_runtime_tuning_and_enforcement route_capacity per_upstream_capacity
    {| rt_concurrency_probe_delays_ms := concurrency_probe_delays_ms;
       rt_transient_route_cooldown_base_seconds :=
         DEFAULT_UPSTREAM_TRANSIENT_ROUTE_COOLDOWN_BASE_SECONDS;
       rt_transient_route_cooldown_max_seconds :=
         DEFAULT_UPSTREAM_TRANSIENT_ROUTE_COOLDOWN_MAX_SECONDS;
       rt_transient_route_cooldown_max_step :=
         DEFAULT_UPSTREAM_TRANSIENT_ROUTE_COOLDOWN_MAX_STEP;
       rt_half_open_ttl_seconds := DEFAULT_ROUTE_HEALTH_HALF_OPEN_TTL_SECONDS;
       rt_half_open_exclusive_window_ms := DEFAULT_ROUTE_HEALTH_HALF_OPEN_EXCLUSIVE_WINDOW_MS;
       rt_credentials_first_strike_seconds := DEFAULT_UPSTREAM_CREDENTIALS_FIRST_STRIKE_SECONDS;
       rt_capacity_failure_cooldown_enabled := DEFAULT_UPSTREAM_CAPACITY_FAILURE_COOLDOWN_ENABLED;
       rt_route_health_enforcement_enabled := true |}.

Definition RouteHealthRegistry_new (route_capacity per_upstream_capacity : Z)
    : RouteHealthRegistry :=
  new_with_concurrency_probe_delays route_capacity per_upstream_capacity
    DEFAULT_UPSTREAM_CONCURRENCY_PROBE_DELAYS_MS.

Definition RouteHealthRegistry_default : RouteHealthRegistry :=
  RouteHealthRegistry_new ROUTE_HEALTH_GLOBAL_CAPACITY ROUTE_HEALTH_PER_UPSTREAM_CAPACITY.

(** [if deadline.is_some_and(|until| until > limit) { deadline = Some(limit) }] *)
Definition cap_deadline (limit : Instant) (deadline : option Instant) : option Instant :=
  if is_some_and (fun until => limit <? until) deadline then Some limit else deadline.

Definition shorten_half_open (max_half_open_until max_exclusive_until : Instant)
    (state : HealthState) : HealthState :=
  {| state with
     hs_half_open_expires_at := cap_deadline max_half_open_until (hs_half_open_expires_at state);
     hs_half_open_exclusive_until :=
       cap_deadline max_exclusive_until (hs_half_open_exclusive_until state) |}.

Definition shorten_route (max_cooldown_until max_half_open_until max_exclusive_until : Instant)
    (state : HealthState) : HealthState :=
  let state :=
    if bool_decide (hs_last_failure_class state = Some TransientServer)
    then {| state with
            hs_cooldown_until := cap_deadline max_cooldown_until (hs_cooldown_until state) |}
    else state in
  shorten_half_open max_half_open_until max_exclusive_until state.

(** [None]: one of the three sums lies past the end of the clock, a panic. *)
Definition update_runtime_tuning (registry : RouteHealthRegistry) (tuning : RuntimeTuning)
    (now : Instant) : option RouteHealthRegistry :=
  let base := from_secs (Z.max (rt_transient_route_cooldown_base_seconds tuning) 1) in
  let max :=
    from_secs (Z.max (Z.max (rt_transient_route_cooldown_max_seconds tuning)
                        (rt_transient_route_cooldown_base_seconds tuning)) 1) in
  let half_open_ttl := from_secs (Z.max (rt_half_open_ttl_seconds tuning) 1) in
  let half_open_exclusive_window := from_millis (rt_half_open_exclusive_window_ms tuning) in
  max_cooldown_until ← instant_add now max;
  max_half_open_until ← instant_add now half_open_ttl;
  max_exclusive_until ← instant_add now half_open_exclusive_window;
  Some {| registry with
     rh_concurrency_probe_delays :=
       normalize_concurrency_probe_delays (rt_concurrency_probe_delays_ms tuning);
     rh_transient_route_cooldown_base := base;
     rh_transient_route_cooldown_max := max;
     rh_transient_route_cooldown_max_step :=
       clamp 1 8 (rt_transient_route_cooldown_max_step tuning);
     rh_half_open_ttl := half_open_ttl;
     rh_half_open_exclusive_window := half_open_exclusive_window;
     rh_credentials_first_strike :=
       from_secs (Z.max (rt_credentials_first_strike_seconds tuning) 1);
     rh_capacity_failure_cooldown_enabled := rt_capacity_failure_cooldown_enabled tuning;
     rh_enforcement_enabled := rt_route_health_enforcement_enabled tuning;
     rh_routes :=
       shorten_route max_cooldown_until max_half_open_until max_exclusive_until
         <$> rh_routes registry;
     rh_keys := shorten_half_open max_half_open_until max_exclusive_until <$> rh_keys registry |}.

Definition set_route_health_enforcement_enabled (registry : RouteHealthRegistry) (enabled : bool)
    : RouteHealthRegistry :=
  {| registry with rh_enforcement_enabled := enabled |}.

Definition put_route (registry : RouteHealthRegistry) (route : RouteHealthKey)
    (state : HealthState) : RouteHealthRegistry :=
  {| registry with rh_routes := <[route:=state]> (rh_routes registry) |}.

Definition put_key (registry : RouteHealthRegistry) (key : KeyHealthKey) (state : HealthState)
    : RouteHealthRegistry :=
  {| registry with rh_keys := <[key:=state]> (rh_keys registry) |}.

(** [if let Some(state) = self.routes.get_mut(route) { ... }] *)
Definition update_route (registry : RouteHealthRegistry) (route : RouteHealthKey)
    (f : HealthState -> HealthState) : RouteHealthRegistry :=
  {| registry with rh_routes := alter f route (rh_routes registry) |}.

Definition update_key (registry : RouteHealthRegistry) (key : KeyHealthKey)
    (f : HealthState -> HealthState) : RouteHealthRegistry :=
  {| registry with rh_keys := alter f key (rh_keys registry) |}.

(** ** Admission *)

(** What [reserve] does with the entry of the key, then with the entry of the
    route: the entry afterwards, and the refusal if there is one. *)
Definition reserve_gate (state : HealthState) (now : Instant)
    : option (HealthState * option (RouteAvailability HealthLease)) :=
  let state := touch state now in
  if health_is_cooling state now then
    class ← hs_last_failure_class state;
    Some (state, Some (Cooling class (health_retry_after state now) (hs_last_failure_status state)))
  else if is_some (hs_half_open_generation state) then
    if is_none_or (fun expires_at => expires_at <=? now) (hs_half_open_expires_at state)
    then Some (drop_half_open state, None)
    else if is_some_and (fun until => now <? until) (hs_half_open_exclusive_until state)
    then
      class ← hs_last_failure_class state;
      Some (state, Some (HalfOpenBusy class HALF_OPEN_BUSY_RETRY (hs_last_failure_status state)))
    else Some (state, None)
  else Some (state, None).

(** The same for the entry of the key in the early probe. *)
Definition probe_key_gate (state : HealthState) (now : Instant)
    : option (HealthState * option (RouteAvailability HealthLease)) :=
  let state := touch state now in
  if health_is_cooling state now then
    class ← hs_last_failure_class state;
    Some (state, Some (Cooling class (health_retry_after state now) (hs_last_failure_status state)))
  else if health_is_active state now then
    class ← hs_last_failure_class state;
    Some (state, Some (HalfOpenBusy class HALF_OPEN_BUSY_RETRY (hs_last_failure_status state)))
  else Some (state, None).

Definition gate_key (gate : HealthState -> Instant ->
      option (HealthState * option (RouteAvailability HealthLease)))
    (registry : RouteHealthRegistry) (key : KeyHealthKey) (now : Instant)
    : option (RouteHealthRegistry * option (RouteAvailability HealthLease)) :=
  match rh_keys registry !! key with
  | None => Some (registry, None)
  | Some state => '(state, refusal) ← gate state now; Some (put_key registry key state, refusal)
  end.

Definition gate_route (registry : RouteHealthRegistry) (route : RouteHealthKey) (now : Instant)
    : option (RouteHealthRegistry * option (RouteAvailability HealthLease)) :=
  match rh_routes registry !! route with
  | None => Some (registry, None)
  | Some state =>
      '(state, refusal) ← reserve_gate state now; Some (put_route registry route state, refusal)
  end.

Definition next_generation (registry : RouteHealthRegistry) : RouteHealthRegistry * Z :=
  let generation := wrapping_succ_nonzero (rh_next_generation registry) in
  ({| registry with rh_next_generation := generation |}, generation).

Definition can_reserve_half_open (state : HealthState) (now : Instant) : bool :=
  is_some (hs_last_failure_class state)
  && is_some_and (fun until => until <=? now) (hs_cooldown_until state)
  && (is_none (hs_half_open_generation state)
      || is_none_or (fun expires_at => expires_at <=? now) (hs_half_open_expires_at state)).

Definition grant_half_open (registry : RouteHealthRegistry) (generation : Z) (now : Instant)
    (state : HealthState) : HealthState :=
  {| state with
     hs_half_open_generation := Some generation;
     hs_half_open_expires_at := Some (now + rh_half_open_ttl registry);
     hs_half_open_exclusive_until := Some (now + rh_half_open_exclusive_window registry);
     hs_last_access := now |}.

Definition reserve_expired_half_open_key (registry : RouteHealthRegistry) (key : KeyHealthKey)
    (now : Instant) : RouteHealthRegistry * option Z :=
  if is_some_and (fun state => can_reserve_half_open state now) (rh_keys registry !! key) then
    let '(registry, generation) := next_generation registry in
    (update_key registry key (grant_half_open registry generation now), Some generation)
  else (registry, None).

Definition reserve_expired_half_open_route (registry : RouteHealthRegistry)
    (route : RouteHealthKey) (now : Instant) : RouteHealthRegistry * option Z :=
  if is_some_and (fun state => can_reserve_half_open state now) (rh_routes registry !! route) then
    let '(registry, generation) := next_generation registry in
    (update_route registry route (grant_half_open registry generation now), Some generation)
  else (registry, None).

(** Passthrough mode: both entries are touched, nothing is refused. *)
Definition passthrough (registry : RouteHealthRegistry) (route : RouteHealthKey)
    (key : KeyHealthKey) (now : Instant) : RouteHealthRegistry * RouteAvailability HealthLease :=
  let registry := update_key registry key (fun state => touch state now) in
  let registry := update_route registry route (fun state => touch state now) in
  (registry,
   Ready {| hl_route := route; hl_key := key; hl_key_generation := None;
            hl_route_generation := None;
            hl_route_state_generation := hs_state_generation <$> rh_routes registry !! route;
            hl_half_open := false |}).

Definition reserve (registry : RouteHealthRegistry) (route : RouteHealthKey) (key : KeyHealthKey)
    (now : Instant) : option (RouteHealthRegistry * RouteAvailability HealthLease) :=
  if negb (rh_enforcement_enabled registry) then Some (passthrough registry route key now)
  else
    '(registry, refusal) ← gate_key reserve_gate registry key now;
    match refusal with
    | Some refused => Some (registry, refused)
    | None =>
        '(registry, refusal) ← gate_route registry route now;
        match refusal with
        | Some refused => Some (registry, refused)
        | None =>
            let route_state_generation := hs_state_generation <$> rh_routes registry !! route in
            let '(registry, key_generation) := reserve_expired_half_open_key registry key now in
            let '(registry, route_generation) :=
              reserve_expired_half_open_route registry route now in
            Some (registry,
              Ready {| hl_route := route; hl_key := key; hl_key_generation := key_generation;
                       hl_route_generation := route_generation;
                       hl_route_state_generation := route_state_generation;
                       hl_half_open := is_some key_generation || is_some route_generation |})
        end
    end.

(** The exclusive window of an early probe. *)
Definition probe_exclusive_until (registry : RouteHealthRegistry) (cooldown_until : option Instant)
    (now : Instant) : Instant :=
  Z.min (Z.max (default now cooldown_until) (now + rh_half_open_exclusive_window registry))
    (now + rh_half_open_ttl registry).

Definition grant_early_probe (registry : RouteHealthRegistry) (generation : Z)
    (cooldown_until : option Instant) (now : Instant) (state : HealthState) : HealthState :=
  {| state with
     hs_half_open_generation := Some generation;
     hs_half_open_expires_at := Some (now + rh_half_open_ttl registry);
     hs_half_open_exclusive_until := Some (probe_exclusive_until registry cooldown_until now);
     hs_last_early_probe_at := Some now |}.

Definition reserve_route_health_probe (registry : RouteHealthRegistry) (route : RouteHealthKey)
    (key : KeyHealthKey) (now : Instant)
    : option (RouteHealthRegistry * RouteAvailability HealthLease) :=
  if negb (rh_enforcement_enabled registry) then Some (passthrough registry route key now)
  else
    '(registry, refusal) ← gate_key probe_key_gate registry key now;
    match refusal with
    | Some refused => Some (registry, refused)
    | None =>
        match rh_routes registry !! route with
        | None => Some (registry, Cooling TransientServer 0 None)
        | Some state =>
            let state := touch state now in
            let registry := put_route registry route state in
            class ← hs_last_failure_class state;
            let upstream_status := hs_last_failure_status state in
            if health_is_active state now
            then Some (registry, HalfOpenBusy class HALF_OPEN_BUSY_RETRY upstream_status)
            else if negb (health_is_cooling state now)
            then Some (registry, Cooling class 0 upstream_status)
            else if is_some_and (fun last_probe => since now last_probe <? HALF_OPEN_BUSY_RETRY)
                      (hs_last_early_probe_at state)
            then
              let elapsed := map_or 0 (fun last_probe => since now last_probe)
                               (hs_last_early_probe_at state) in
              Some (registry,
                HalfOpenBusy class (Z.max (HALF_OPEN_BUSY_RETRY - elapsed) (from_millis 1))
                  upstream_status)
            else
              let route_state_generation := Some (hs_state_generation state) in
              let cooldown_until := hs_cooldown_until state in
              let '(registry, key_generation) := reserve_expired_half_open_key registry key now in
              let '(registry, route_generation) := next_generation registry in
              Some (update_route registry route
                      (grant_early_probe registry route_generation cooldown_until now),
                Ready {| hl_route := route; hl_key := key; hl_key_generation := key_generation;
                         hl_route_generation := Some route_generation;
                         hl_route_state_generation := route_state_generation;
                         hl_half_open := true |})
        end
    end.

(** ** Clearing and releasing *)

Definition clear_route (registry : RouteHealthRegistry) (route : RouteHealthKey) (now : Instant)
    : RouteHealthRegistry :=
  update_route registry route (fun state => health_clear state now).

Definition clear_key (registry : RouteHealthRegistry) (key : KeyHealthKey) (now : Instant)
    : RouteHealthRegistry :=
  update_key registry key (fun state => health_clear state now).

Definition clear_route_health := clear_route.

(** Whether a successful lease may clear the entry of its route. *)
Definition success_clears (lease : HealthLease) (state : HealthState) : bool :=
  let owns_half_open :=
    is_some (hl_route_generation lease)
    && bool_decide (hs_half_open_generation state = hl_route_generation lease) in
  let same_observation :=
    is_none (hl_route_generation lease)
    && bool_decide (hl_route_state_generation lease = Some (hs_state_generation state)) in
  owns_half_open || same_observation.

Definition clear_route_for_success (registry : RouteHealthRegistry) (lease : HealthLease)
    (now : Instant) : RouteHealthRegistry :=
  update_route registry (hl_route lease)
    (fun state => if success_clears lease state then health_clear state now else state).

Definition release_route_lease (registry : RouteHealthRegistry) (route : RouteHealthKey)
    (generation : option Z) (now : Instant) : RouteHealthRegistry :=
  update_route registry route (fun state => release_half_open state generation now).

Definition release_key_lease (registry : RouteHealthRegistry) (key : KeyHealthKey)
    (generation : option Z) (now : Instant) : RouteHealthRegistry :=
  update_key registry key (fun state => release_half_open state generation now).

Definition remove_cleared_route_and_key (registry : RouteHealthRegistry) (route : RouteHealthKey)
    (key : KeyHealthKey) : RouteHealthRegistry :=
  let registry :=
    if is_some_and health_is_clear (rh_routes registry !! route)
    then {| registry with rh_routes := delete route (rh_routes registry) |} else registry in
  if is_some_and health_is_clear (rh_keys registry !! key)
  then {| registry with rh_keys := delete key (rh_keys registry) |} else registry.

(** Whether the lease is the live probe of a concurrency-saturated route. *)
Definition holds_concurrency_probe (lease : HealthLease) (state : HealthState) : bool :=
  bool_decide (hs_last_failure_class state = Some ConcurrencySaturated)
  && is_some (hl_route_generation lease)
  && bool_decide (hs_half_open_generation state = hl_route_generation lease).

(** The second lookup and its generation test see the same entry as the first
    one, under the same lock: they always succeed. *)
Definition reapply_concurrency_probe_delay (registry : RouteHealthRegistry) (lease : HealthLease)
    (now : Instant) : RouteHealthRegistry * bool :=
  match opt_filter (holds_concurrency_probe lease) (rh_routes registry !! hl_route lease) with
  | None => (registry, false)
  | Some state =>
      let delay := sequence_delay (rh_concurrency_probe_delays registry)
                     (hs_consecutive_failures state) in
      (put_route registry (hl_route lease)
         {| (drop_half_open state) with
            hs_cooldown_until := Some (now + delay); hs_last_access := now |}, true)
  end.

(** ** Capacity *)

Definition count_upstream {K V} `{Countable K} (upstream_id : K -> string) (id : string)
    (m : gmap K V) : Z :=
  Z.of_nat (size (filter (fun kv : K * V => upstream_id kv.1 = id) m)).

(** [(is_cooling, last_access)], compared lexicographically. *)
Definition access_ltb {K} (x y : K * HealthState) : bool :=
  key_ltb (fun kv => hs_last_access kv.2) x y.

Definition cooling_access_ltb {K} (now : Instant) (x y : K * HealthState) : bool :=
  flag_key_ltb (fun kv => health_is_cooling kv.2 now) (fun kv => hs_last_access kv.2) x y.

Section registry.
  Variable sha256 : string -> list Z.
  Context `{!IterOrder RouteHealthKey HealthState}
          `{!IterOrder KeyHealthKey HealthState}
          `{!IterOrder RouteSetAggregateKey AggregateState}.

Definition ensure_key_capacity (registry : RouteHealthRegistry) (key : KeyHealthKey)
    (now : Instant) : RouteHealthRegistry * bool :=
  let keys := rh_keys registry in
  if is_some (keys !! key) then (registry, true)
  else
    let upstream_count := count_upstream kk_upstream_id (kk_upstream_id key) keys in
    let global_full := rh_route_capacity registry <=? Z.of_nat (size keys) in
    let upstream_full := rh_per_upstream_capacity registry <=? upstream_count in
    if negb global_full && negb upstream_full then (registry, true)
    else
      match min_by (cooling_access_ltb now)
              (retain (fun '(_, state) => negb (health_is_active state now))
                (retain (fun '(existing, _) =>
                           negb upstream_full
                           || String.eqb (kk_upstream_id existing) (kk_upstream_id key))
                  (iter_order keys))) with
      | Some (candidate, _) => ({| registry with rh_keys := delete candidate keys |}, true)
      | None => (registry, false)
      end.

Definition ensure_route_capacity (registry : RouteHealthRegistry) (route : RouteHealthKey)
    (now : Instant) : RouteHealthRegistry * bool :=
  let routes := rh_routes registry in
  if is_some (routes !! route) then (registry, true)
  else
    let upstream_count := count_upstream rk_upstream_id (rk_upstream_id route) routes in
    let global_full := rh_route_capacity registry <=? Z.of_nat (size routes) in
    let upstream_full := rh_per_upstream_capacity registry <=? upstream_count in
    if global_full || upstream_full then
      let same_upstream :=
        retain (fun '(existing, _) =>
                  negb upstream_full
                  || String.eqb (rk_upstream_id existing) (rk_upstream_id route))
          (iter_order routes) in
      let inactive := retain (fun '(_, state) => negb (health_is_active state now)) same_upstream in
      let candidate :=
        or_else
          (min_by access_ltb
             (retain (fun '(_, state) => negb (health_is_cooling state now)) inactive))
          (min_by access_ltb inactive) in
      match candidate with
      | None => (registry, false)
      | Some (candidate, _) => ({| registry with rh_routes := delete candidate routes |}, true)
      end
    else (registry, true).

(** ** Observing failures *)

(** [*entry(upstream_id).or_insert(0) += 1]. *)
Definition count_skipped (registry : RouteHealthRegistry) (upstream_id : string)
    : RouteHealthRegistry :=
  let total := default 0 (rh_cooldown_skipped_total registry !! upstream_id) in
  {| registry with
     rh_cooldown_skipped_total :=
       <[upstream_id := (total + 1) mod (u64_max + 1)]> (rh_cooldown_skipped_total registry) |}.

Definition observe_capacity_route_failure_at (registry : RouteHealthRegistry)
    (route : RouteHealthKey) (class : RouteFailureClass) (upstream_status : option Z)
    (now : Instant) : RouteHealthRegistry :=
  let '(registry, room) := ensure_route_capacity registry route now in
  if negb room then registry
  else
    let registry := count_skipped registry (rk_upstream_id route) in
    let state := default (HealthState_new now) (rh_routes registry !! route) in
    put_route registry route
      {| state with
         hs_last_failure_class := Some class;
         hs_last_failure_status := upstream_status;
         hs_last_failure_at := Some now;
         hs_last_access := now |}.

(** The cooldown that an explicit Retry-After and the local curve give. *)
Definition effective_cooldown (class : RouteFailureClass) (retry_after : option Duration)
    (local : Duration) : Duration :=
  match class, retry_after with
  | ConcurrencySaturated, Some explicit => explicit
  | _, Some explicit => Z.max explicit local
  | _, None => local
  end.

(** The entry of a route after a failure that cools it. The sum becomes a deadline of the
    entry: [run_health] panics when it lies past the end of the clock ([on_clock]). *)
Definition fail_route (registry : RouteHealthRegistry) (route : RouteHealthKey)
    (class : RouteFailureClass) (retry_after : option Duration) (upstream_status : option Z)
    (now : Instant) (effective_repeat shared_host_failure_domain : bool) (state : HealthState)
    : HealthState :=
  let shared_host := shared_host_failure_domain && is_shared_host_domain_class class in
  let step := failure_step state class now effective_repeat
                (rh_transient_route_cooldown_max_step registry) shared_host in
  let local :=
    route_cooldown_with_concurrency_delays sha256
      (if shared_host then EdgeProxyError else class) step route
      (rh_concurrency_probe_delays registry)
      (rh_transient_route_cooldown_base registry) (rh_transient_route_cooldown_max registry) in
  {| state with
     hs_state_generation := wrapping_succ_nonzero (hs_state_generation state);
     hs_consecutive_failures := step;
     hs_last_failure_class := Some class;
     hs_last_failure_status := upstream_status;
     hs_last_failure_at := Some now;
     hs_half_open_generation := None;
     hs_half_open_expires_at := None;
     hs_half_open_exclusive_until := None;
     hs_last_access := now;
     hs_cooldown_until := Some (now + effective_cooldown class retry_after local) |}.

Definition observe_route_failure_at (registry : RouteHealthRegistry) (route : RouteHealthKey)
    (class : RouteFailureClass) (retry_after : option Duration) (upstream_status : option Z)
    (now : Instant)
    (repeat_within_request sole_candidate capacity_sole_route shared_host_failure_domain : bool)
    : RouteHealthRegistry :=
  if negb (route_failure_has_cooldown class) then clear_route registry route now
  else if is_capacity_class class
          && (negb (rh_capacity_failure_cooldown_enabled registry) || capacity_sole_route)
  then observe_capacity_route_failure_at registry route class upstream_status now
  else
    let '(registry, room) := ensure_route_capacity registry route now in
    if negb room then registry
    else
      let state := default (HealthState_new now) (rh_routes registry !! route) in
      put_route registry route
        (fail_route registry route class retry_after upstream_status now
           (repeat_within_request || sole_candidate) shared_host_failure_domain state).

Definition observe_route_failure (registry : RouteHealthRegistry) (route : RouteHealthKey)
    (class : RouteFailureClass) (retry_after : option Duration)
    (shared_host_failure_domain : bool) (now : Instant) : RouteHealthRegistry :=
  observe_route_failure_at registry route class retry_after None now false false false
    shared_host_failure_domain.

Definition observe_capacity_key_failure_at (registry : RouteHealthRegistry) (key : KeyHealthKey)
    (class : RouteFailureClass) (now : Instant) : RouteHealthRegistry :=
  let '(registry, room) := ensure_key_capacity registry key now in
  if negb room then registry
  else
    let registry := count_skipped registry (kk_upstream_id key) in
    let state := default (HealthState_new now) (rh_keys registry !! key) in
    put_key registry key
      {| state with
         hs_last_failure_class := Some class;
         hs_last_failure_at := Some now;
         hs_last_access := now |}.

(** The entry of a key after a failure that cools it; the last status stays. Its sum
    is checked like that of a route. *)
Definition fail_key (registry : RouteHealthRegistry) (key : KeyHealthKey)
    (class : RouteFailureClass) (retry_after : option Duration) (now : Instant)
    (state : HealthState) : HealthState :=
  let step := failure_step state class now false
                (rh_transient_route_cooldown_max_step registry) false in
  let max := if bool_decide (class = Credentials) then KEY_COOLDOWN_MAX else ROUTE_COOLDOWN_MAX in
  let local := key_cooldown sha256 class step key max (rh_credentials_first_strike registry) in
  {| state with
     hs_consecutive_failures := step;
     hs_last_failure_class := Some class;
     hs_last_failure_at := Some now;
     hs_half_open_generation := None;
     hs_half_open_expires_at := None;
     hs_half_open_exclusive_until := None;
     hs_last_access := now;
     hs_cooldown_until :=
       Some (now + map_or local (fun explicit => Z.max explicit local) retry_after) |}.

Definition observe_key_failure_at (registry : RouteHealthRegistry) (key : KeyHealthKey)
    (class : RouteFailureClass) (retry_after : option Duration) (now : Instant)
    : RouteHealthRegistry :=
  if negb (key_failure_has_cooldown class) then clear_key registry key now
  else if is_capacity_class class && negb (rh_capacity_failure_cooldown_enabled registry)
  then observe_capacity_key_failure_at registry key class now
  else
    let '(registry, room) := ensure_key_capacity registry key now in
    if negb room then registry
    else
      let state := default (HealthState_new now) (rh_keys registry !! key) in
      put_key registry key (fail_key registry key class retry_after now state).

Definition observe_key_failure := observe_key_failure_at.

Definition AggregateState_new (now : Instant) : AggregateState :=
  {| ag_consecutive_failures := 0; ag_last_failure_class := None; ag_last_failure_at := None;
     ag_cooldown_until := None; ag_last_access := now |}.

Definition fail_aggregate (class : RouteFailureClass) (retry_after : option Duration)
    (now : Instant) (state : AggregateState) : AggregateState :=
  let step :=
    if is_some_and (fun last => since now last <=? FAILURE_STREAK_RESET) (ag_last_failure_at state)
       && bool_decide (ag_last_failure_class state = Some class)
    then Z.max (sat_add u32_max (ag_consecutive_failures state) 1) 1
    else 1 in
  {| ag_consecutive_failures := step;
     ag_last_failure_class := Some class;
     ag_last_failure_at := Some now;
     ag_cooldown_until := (fun duration => now + duration) <$> retry_after;
     ag_last_access := now |}.

Definition observe_route_set_failure (registry : RouteHealthRegistry)
    (aggregate : RouteSetAggregateKey) (class : RouteFailureClass)
    (retry_after : option Duration) (now : Instant) : RouteHealthRegistry :=
  let aggregates := rh_aggregates registry in
  let room :=
    if (rh_route_capacity registry <=? Z.of_nat (size aggregates))
       && is_none (aggregates !! aggregate)
    then
      match min_by (key_ltb (fun kv => ag_last_access kv.2)) (iter_order aggregates) with
      | Some (candidate, _) => Some (delete candidate aggregates)
      | None => None
      end
    else Some aggregates in
  match room with
  | None => registry
  | Some aggregates =>
      let state := default (AggregateState_new now) (aggregates !! aggregate) in
      {| registry with
         rh_aggregates := <[aggregate := fail_aggregate class retry_after now state]> aggregates |}
  end.

(** ** Settling a lease *)

Definition finish (registry : RouteHealthRegistry) (lease : HealthLease) (outcome : RouteOutcome)
    (now : Instant) : RouteHealthRegistry :=
  match outcome with
  | Success =>
      let registry := clear_route_for_success registry lease now in
      if is_some (hl_key_generation lease) then clear_key registry (hl_key lease) now
      else release_key_lease registry (hl_key lease) (hl_key_generation lease) now
  | RouteFailure class upstream_status repeat_within_request sole_candidate
      capacity_sole_route shared_host_failure_domain =>
      let registry := release_key_lease registry (hl_key lease) (hl_key_generation lease) now in
      observe_route_failure_at registry (hl_route lease) class None upstream_status now
        repeat_within_request sole_candidate capacity_sole_route shared_host_failure_domain
  | RouteFailureWithRetry class retry_after upstream_status repeat_within_request
      sole_candidate capacity_sole_route shared_host_failure_domain =>
      let registry := release_key_lease registry (hl_key lease) (hl_key_generation lease) now in
      observe_route_failure_at registry (hl_route lease) class (Some retry_after) upstream_status
        now repeat_within_request sole_candidate capacity_sole_route shared_host_failure_domain
  | KeyFailure class =>
      let registry :=
        release_route_lease registry (hl_route lease) (hl_route_generation lease) now in
      observe_key_failure_at registry (hl_key lease) class None now
  | KeyFailureWithRetry class retry_after =>
      let registry :=
        release_route_lease registry (hl_route lease) (hl_route_generation lease) now in
      observe_key_failure_at registry (hl_key lease) class (Some retry_after) now
  | UncertainRouteFailure class =>
      let registry := release_key_lease registry (hl_key lease) (hl_key_generation lease) now in
      let '(registry, reapplied) := reapply_concurrency_probe_delay registry lease now in
      if reapplied then registry
      else observe_route_failure_at registry (hl_route lease) class None None now
             false false false false
  | OutcomeCancelled =>
      let '(registry, reapplied) := reapply_concurrency_probe_delay registry lease now in
      let registry :=
        if reapplied then registry
        else release_route_lease registry (hl_route lease) (hl_route_generation lease) now in
      release_key_lease registry (hl_key lease) (hl_key_generation lease) now
  end.

(** ** Permits

    The lease of a request, until it is settled; [None] is a permit already
    consumed. The Redis back end is another component. *)

Inductive RouteHealthPermit :=
| Local (lease : HealthLease)
| Settled (route : RouteHealthKey) (key : KeyHealthKey).

Definition permit_is_half_open (permit : option RouteHealthPermit) : bool :=
  match permit with
  | Some (Local lease) => hl_half_open lease
  | _ => false
  end.

Definition permit_route (permit : option RouteHealthPermit) : option RouteHealthKey :=
  match permit with
  | Some (Local lease) => Some (hl_route lease)
  | Some (Settled route _) => Some route
  | None => None
  end.

Definition permit_finish (registry : RouteHealthRegistry) (permit : option RouteHealthPermit)
    (outcome : RouteOutcome) (now : Instant) : RouteHealthRegistry :=
  match permit with
  | None => registry
  | Some (Local lease) => finish registry lease outcome now
  | Some (Settled route key) =>
      match outcome with
      | Success | OutcomeCancelled => registry
      | RouteFailure class _ _ _ _ shared_host_failure_domain =>
          observe_route_failure registry route class None shared_host_failure_domain now
      | RouteFailureWithRetry class retry_after _ _ _ _ shared_host_failure_domain =>
          observe_route_failure registry route class (Some retry_after)
            shared_host_failure_domain now
      | KeyFailure class => observe_key_failure registry key class None now
      | KeyFailureWithRetry class retry_after =>
          observe_key_failure registry key class (Some retry_after) now
      | UncertainRouteFailure class => observe_route_failure registry route class None false now
      end
  end.

Definition settle_healthy (registry : RouteHealthRegistry) (permit : option RouteHealthPermit)
    (now : Instant) : RouteHealthRegistry * option RouteHealthPermit :=
  match permit with
  | None => (registry, None)
  | Some (Local lease) =>
      let registry := finish registry lease Success now in
      let registry :=
        remove_cleared_route_and_key registry (hl_route lease) (hl_key lease) in
      (registry, Some (Settled (hl_route lease) (hl_key lease)))
  | Some (Settled route key) => (registry, Some (Settled route key))
  end.

(** [Drop]: the spawned task, when it runs. *)
Definition permit_drop (registry : RouteHealthRegistry) (permit : option RouteHealthPermit)
    (now : Instant) : RouteHealthRegistry :=
  match permit with
  | Some (Local lease) => finish registry lease OutcomeCancelled now
  | Some (Settled _ _) | None => registry
  end.

(** ** Retention *)

Definition retain_routes (registry : RouteHealthRegistry)
    (route_is_current : RouteHealthKey -> bool) (key_is_current : KeyHealthKey -> bool)
    (aggregate_is_current : RouteSetAggregateKey -> bool) (now : Instant) : RouteHealthRegistry :=
  {| registry with
     rh_routes := filter (fun kv : RouteHealthKey * HealthState =>
       route_is_current kv.1 || health_is_active kv.2 now) (rh_routes registry);
     rh_keys := filter (fun kv : KeyHealthKey * HealthState =>
       key_is_current kv.1 || health_is_active kv.2 now) (rh_keys registry);
     rh_aggregates := filter (fun kv : RouteSetAggregateKey * AggregateState =>
       aggregate_is_current kv.1) (rh_aggregates registry) |}.

End registry.

(** ** Snapshots *)

Definition route_health_snapshot (registry : RouteHealthRegistry) (route : RouteHealthKey)
    (now : Instant) : option HealthStateSnapshot :=
  (fun state => health_snapshot state now) <$> rh_routes registry !! route.

Definition key_health_snapshot (registry : RouteHealthRegistry) (key : KeyHealthKey)
    (now : Instant) : option HealthStateSnapshot :=
  (fun state => health_snapshot state now) <$> rh_keys registry !! key.

Definition route_set_health_snapshot (registry : RouteHealthRegistry)
    (aggregate : RouteSetAggregateKey) (now : Instant) : option HealthStateSnapshot :=
  (fun state =>
     {| ss_consecutive_failures := ag_consecutive_failures state;
        ss_last_failure_class := ag_last_failure_class state;
        ss_cooldown_remaining := map_or 0 (fun until => since until now) (ag_cooldown_until state);
        ss_half_open := false;
        ss_half_open_remaining := 0 |}) <$> rh_aggregates registry !! aggregate.

(** One row per route; [unix] is the wall clock in seconds. *)
Definition route_health_detail (unix : Z) (now : Instant) (route : RouteHealthKey)
    (state : HealthState) : RouteHealthDetailDto :=
  let cooldown_remaining := health_retry_after state now in
  {| rd_upstream_id := rk_upstream_id route;
     rd_key_fingerprint := rk_key_fingerprint route;
     rd_runtime_model_slug := rk_runtime_model_slug route;
     rd_protocol := rk_protocol route;
     rd_cooldown_until_unix :=
       if cooldown_remaining =? 0 then None
       else Some (sat_add u64_max unix (Z.max (as_secs cooldown_remaining) 1));
     rd_cooldown_remaining_ms := Z.min (as_millis cooldown_remaining) u64_max;
     rd_half_open :=
       is_some (hs_half_open_generation state)
       && is_some_and (fun expires_at => now <? expires_at) (hs_half_open_expires_at state);
     rd_consecutive_failures := hs_consecutive_failures state;
     rd_last_failure_class := class_as_str <$> hs_last_failure_class state;
     rd_last_failure_status := hs_last_failure_status state |}.

Definition route_health_detail_snapshots `{!IterOrder RouteHealthKey HealthState}
    (registry : RouteHealthRegistry) (unix : Z) (now : Instant) : list RouteHealthDetailDto :=
  map (fun '(route, state) => route_health_detail unix now route state)
    (iter_order (rh_routes registry)).

Definition route_count (registry : RouteHealthRegistry) : Z := Z.of_nat (size (rh_routes registry)).
Definition key_count (registry : RouteHealthRegistry) : Z := Z.of_nat (size (rh_keys registry)).
Definition aggregate_count (registry : RouteHealthRegistry) : Z :=
  Z.of_nat (size (rh_aggregates registry)).
Definition cooldown_skipped_total (registry : RouteHealthRegistry) (upstream_id : string) : Z :=
  default 0 (rh_cooldown_skipped_total registry !! upstream_id).

(** ** Recovery *)

(** [(retry_after, class.as_str())], compared lexicographically. *)
Definition recovery_ltb (x y : RouteRecovery) : bool :=
  (rr_retry_after x <? rr_retry_after y)
  || ((rr_retry_after x =? rr_retry_after y)
      && String.ltb (class_as_str (rr_class x)) (class_as_str (rr_class y))).

Definition temporary_recovery_for_route (registry : RouteHealthRegistry) (route : RouteHealthKey)
    (now : Instant) : option RouteRecovery :=
  let recoveries :=
    omap (fun state => state ≫= fun state => health_state_recovery state now)
      [rh_keys registry !! route_key route; rh_routes registry !! route] in
  if is_empty recoveries
     || existsb (fun recovery => negb (is_temporary (rr_class recovery))) recoveries
  then None
  else max_by recovery_ltb recoveries.

Definition earliest_temporary_recovery (registry : RouteHealthRegistry)
    (routes : list RouteHealthKey) (now : Instant) : option RouteRecovery :=
  min_by recovery_ltb
    (omap (fun route => temporary_recovery_for_route registry route now) routes).

(** ** The summary of an upstream *)

Definition duration_seconds_ceil (duration : Duration) : Z :=
  sat_add u64_max (as_secs duration) (if 0 <? subsec_nanos duration then 1 else 0).

Definition increment_failure_class (snapshot : RouteHealthSnapshotDto)
    (class : option RouteFailureClass) : RouteHealthSnapshotDto :=
  match class with
  | None => snapshot
  | Some class =>
      let count := default 0 (rs_failure_classes snapshot !! class_as_str class) in
      {| snapshot with
         rs_failure_classes :=
           <[class_as_str class := count + 1]> (rs_failure_classes snapshot) |}
  end.

Definition empty_summary : RouteHealthSnapshotDto :=
  {| rs_healthy_routes := 0; rs_cooldown_routes := 0; rs_half_open_routes := 0;
     rs_legacy_local_admission_poisoned_routes := 0;
     rs_earliest_retry_after_seconds := None;
     rs_failure_classes :=
       list_to_map (map (fun class => (class_as_str class, 0)) RouteFailureClass_ALL) |}.

Definition summarize_route
    (route_snapshot : RouteHealthKey -> option HealthStateSnapshot)
    (key_snapshot : KeyHealthKey -> option HealthStateSnapshot)
    (snapshot : RouteHealthSnapshotDto) (route : RouteHealthKey) : RouteHealthSnapshotDto :=
  let key_state := key_snapshot (route_key route) in
  let route_state := route_snapshot route in
  match or_else (opt_filter ss_half_open key_state) (opt_filter ss_half_open route_state) with
  | Some state =>
      increment_failure_class
        {| snapshot with rs_half_open_routes := rs_half_open_routes snapshot + 1 |}
        (ss_last_failure_class state)
  | None =>
      let cooling := fun state => 0 <? ss_cooldown_remaining state in
      match or_else (opt_filter cooling key_state) (opt_filter cooling route_state) with
      | Some state =>
          let snapshot :=
            increment_failure_class
              {| snapshot with rs_cooldown_routes := rs_cooldown_routes snapshot + 1 |}
              (ss_last_failure_class state) in
          let retry_after := duration_seconds_ceil (ss_cooldown_remaining state) in
          {| snapshot with
             rs_earliest_retry_after_seconds :=
               Some (map_or retry_after (fun current => Z.min current retry_after)
                       (rs_earliest_retry_after_seconds snapshot)) |}
      | None => {| snapshot with rs_healthy_routes := rs_healthy_routes snapshot + 1 |}
      end
  end.

(** [routes]: the set, in the order in which it is iterated. *)
Definition summarize_route_health_routes (routes : list RouteHealthKey)
    (route_snapshot : RouteHealthKey -> option HealthStateSnapshot)
    (key_snapshot : KeyHealthKey -> option HealthStateSnapshot) : RouteHealthSnapshotDto :=
  fold_left (summarize_route route_snapshot key_snapshot) routes empty_summary.

(** Routes cooled long by local admission, in the old way. *)
Definition legacy_poisoned (registry : RouteHealthRegistry) (now : Instant) (state : HealthState)
    : bool :=
  bool_decide (hs_last_failure_class state = Some ConcurrencySaturated)
  && is_none (hs_last_failure_status state)
  && (legacy_local_admission_cooldown_threshold (rh_concurrency_probe_delays registry)
        <? health_retry_after state now).

(** [routes]: the routes that the upstream's configuration enumerates. *)
Definition upstream_snapshot (registry : RouteHealthRegistry) (routes : list RouteHealthKey)
    (now : Instant) : RouteHealthSnapshotDto :=
  let poisoned :=
    Z.of_nat (length (retain (legacy_poisoned registry now)
                        (omap (fun route => rh_routes registry !! route) routes))) in
  let snapshot :=
    summarize_route_health_routes routes
      (fun route => route_health_snapshot registry route now)
      (fun key => key_health_snapshot registry key now) in
  {| snapshot with rs_legacy_local_admission_poisoned_routes := poisoned |}.

(** ** Runs *)

Inductive health_event :=
| EvReserve (route : RouteHealthKey) (key : KeyHealthKey)
| EvProbe (route : RouteHealthKey) (key : KeyHealthKey)
| EvFinish (permit : option RouteHealthPermit) (outcome : RouteOutcome)
| EvSettle (permit : option RouteHealthPermit)
| EvDrop (permit : option RouteHealthPermit)
| EvObserveRoute (route : RouteHealthKey) (class : RouteFailureClass)
    (retry_after : option Duration) (shared_host_failure_domain : bool)
| EvObserveKey (key : KeyHealthKey) (class : RouteFailureClass) (retry_after : option Duration)
| EvObserveRouteSet (aggregate : RouteSetAggregateKey) (class : RouteFailureClass)
    (retry_after : option Duration)
| EvClearRoute (route : RouteHealthKey)
| EvRetain (route_is_current : RouteHealthKey -> bool) (key_is_current : KeyHealthKey -> bool)
    (aggregate_is_current : RouteSetAggregateKey -> bool)
| EvTune (tuning : RuntimeTuning)
| EvSetEnforcement (enabled : bool).

(** The deadlines of an entry. *)
Definition deadlines (state : HealthState) : list Instant :=
  omap id [hs_cooldown_until state; hs_half_open_expires_at state;
           hs_half_open_exclusive_until state].

Definition state_on_clock (state : HealthState) : bool :=
  forallb (fun deadline => deadline <=? instant_max) (deadlines state).

(** Every deadline of the registry is an [Instant]. *)
Definition on_clock (registry : RouteHealthRegistry) : bool :=
  forallb (fun kv => state_on_clock kv.2) (map_to_list (rh_routes registry))
  && forallb (fun kv => state_on_clock kv.2) (map_to_list (rh_keys registry))
  && forallb (fun kv => is_none_or (fun deadline => deadline <=? instant_max) (ag_cooldown_until kv.2))
       (map_to_list (rh_aggregates registry)).

Section runs.
  Variable sha256 : string -> list Z.
  Context `{!IterOrder RouteHealthKey HealthState}
          `{!IterOrder KeyHealthKey HealthState}
          `{!IterOrder RouteSetAggregateKey AggregateState}.

(** An event, but for the sums that become deadlines of entries. *)
Definition run_health_step (registry : RouteHealthRegistry) (ev : health_event) (now : Instant)
    : option RouteHealthRegistry :=
  match ev with
  | EvReserve route key => fst <$> reserve registry route key now
  | EvProbe route key => fst <$> reserve_route_health_probe registry route key now
  | EvFinish permit outcome => Some (permit_finish sha256 registry permit outcome now)
  | EvSettle permit => Some (settle_healthy sha256 registry permit now).1
  | EvDrop permit => Some (permit_drop sha256 registry permit now)
  | EvObserveRoute route class ra shared =>
      Some (observe_route_failure sha256 registry route class ra shared now)
  | EvObserveKey key class ra => Some (observe_key_failure sha256 registry key class ra now)
  | EvObserveRouteSet aggregate class ra =>
      Some (observe_route_set_failure registry aggregate class ra now)
  | EvClearRoute route => Some (clear_route_health registry route now)
  | EvRetain f g h => Some (retain_routes registry f g h now)
  | EvTune tuning => update_runtime_tuning registry tuning now
  | EvSetEnforcement enabled => Some (set_route_health_enforcement_enabled registry enabled)
  end.

(** A sum of [now] and a duration that lies past the end of the clock panics. What an event
    adds is stored as a deadline, so the sums lie on the clock if the deadlines do. *)
Definition run_health (registry : RouteHealthRegistry) (ev : health_event) (now : Instant)
    : option RouteHealthRegistry :=
  registry ← run_health_step registry ev now;
  if on_clock registry then Some registry else None.

(** Tuning values are unsigned integers of the source's widths. *)
Definition tuning_in_range (tuning : RuntimeTuning) : Prop :=
  Forall (fun v => 0 <= v) (rt_concurrency_probe_delays_ms tuning) /\
  rt_transient_route_cooldown_base_seconds tuning <= u64_max /\
  rt_transient_route_cooldown_max_seconds tuning <= u64_max /\
  rt_credentials_first_strike_seconds tuning <= u64_max /\
  0 <= rt_half_open_exclusive_window_ms tuning.

Definition event_in_range (ev : health_event) : Prop :=
  match ev with
  | EvTune tuning => tuning_in_range tuning
  | _ => True
  end.

Inductive health_reachable : RouteHealthRegistry -> Prop :=
| health_new capacity per_upstream tuning :
    tuning_in_range tuning ->
    health_reachable (new_with_runtime_tuning_and_enforcement capacity per_upstream tuning)
| health_step registry ev now registry' :
    health_reachable registry -> event_in_range ev -> run_health registry ev now = Some registry' ->
    health_reachable registry'.

End runs.
