(* ===== verification/RouteHealthClock.v ===== *)
(** * The route health registry and the end of the clock

    The deadlines of [RouteHealthRegistry.v] are sums of an [Instant] and a duration,
    which panic past the end of the clock. The local curves never come near it, so only
    the configured lifetimes and the Retry-After of an upstream can: what each event adds
    is bounded ([health_in_time]), and every operation keeps the deadlines on the clock. *)

From S2P Require Import Prelude RouteTypes Backoff RouteHealth RouteHealthRegistry.

Local Open Scope Z_scope.

Definition timely (state : HealthState) : Prop :=
  from_option (fun d => d <= instant_max) True (hs_cooldown_until state) /\
  from_option (fun d => d <= instant_max) True (hs_half_open_expires_at state) /\
  from_option (fun d => d <= instant_max) True (hs_half_open_exclusive_until state).

Lemma state_on_clock_spec state : state_on_clock state = true <-> timely state.
Proof.
  unfold state_on_clock, deadlines, timely.
  destruct (hs_cooldown_until state), (hs_half_open_expires_at state),
    (hs_half_open_exclusive_until state); simpl; rewrite ?andb_true_iff, ?Z.leb_le; tauto.
Qed.

(** The deadlines lie on the clock, and so do the lease and the window of a probe. *)
Record fits (now : Instant) (registry : RouteHealthRegistry) : Prop := {
  ft_routes : map_Forall (fun _ state => timely state) (rh_routes registry);
  ft_keys : map_Forall (fun _ state => timely state) (rh_keys registry);
  ft_aggregates : map_Forall (fun _ state =>
    from_option (fun d => d <= instant_max) True (ag_cooldown_until state)) (rh_aggregates registry);
  ft_ttl : now + rh_half_open_ttl registry <= instant_max;
  ft_window : now + rh_half_open_exclusive_window registry <= instant_max
}.

Lemma forallb_map {K V} `{Countable K} (f : V -> bool) (m : gmap K V) :
  forallb (fun kv => f kv.2) (map_to_list m) = true <-> map_Forall (fun _ v => f v = true) m.
Proof.
  rewrite forallb_forall. split.
  - intros Hf k v Hl. apply (Hf (k, v)), list_elem_of_In, elem_of_map_to_list, Hl.
  - intros Hf [k v] Hin%list_elem_of_In%elem_of_map_to_list. by apply (Hf k v).
Qed.

Lemma on_clock_spec registry :
  on_clock registry = true <->
  map_Forall (fun _ state => timely state) (rh_routes registry) /\
  map_Forall (fun _ state => timely state) (rh_keys registry) /\
  map_Forall (fun _ state =>
    from_option (fun d => d <= instant_max) True (ag_cooldown_until state)) (rh_aggregates registry).
Proof.
  unfold on_clock. rewrite !andb_true_iff, !forallb_map.
  rewrite (forallb_map (fun state => is_none_or (fun deadline => deadline <=? instant_max) (ag_cooldown_until state))).
  assert (forall a, is_none_or (fun deadline => deadline <=? instant_max) (ag_cooldown_until a) = true <->
    from_option (fun d => d <= instant_max) True (ag_cooldown_until a)) as Ha.
  { intros a. destruct (ag_cooldown_until a); simpl; [apply Z.leb_le|done]. }
  unfold map_Forall. setoid_rewrite state_on_clock_spec. setoid_rewrite Ha. tauto.
Qed.

Lemma fits_on_clock now registry : fits now registry -> on_clock registry = true.
Proof. intros []. by apply on_clock_spec. Qed.

(** ** Entries *)

Lemma new_timely now : timely (HealthState_new now).
Proof. done. Qed.

Lemma touch_timely state now : timely state -> timely (touch state now).
Proof. done. Qed.

Lemma drop_timely state : timely state -> timely (drop_half_open state).
Proof. by intros []. Qed.

Lemma clear_timely state now : timely (health_clear state now).
Proof. done. Qed.

Lemma release_timely state generation now : timely state -> timely (release_half_open state generation now).
Proof. intros. unfold release_half_open. apply touch_timely. case_match; [by apply drop_timely|done]. Qed.

#[local] Hint Resolve new_timely touch_timely drop_timely clear_timely release_timely : core.

(** ** Changing one entry *)

Lemma put_route_fits now registry route state :
  fits now registry -> timely state -> fits now (put_route registry route state).
Proof. intros [] Hs. split; simpl; try done. by apply map_Forall_insert_2. Qed.

Lemma put_key_fits now registry key state :
  fits now registry -> timely state -> fits now (put_key registry key state).
Proof. intros [] Hs. split; simpl; try done. by apply map_Forall_insert_2. Qed.

Lemma alter_Forall {K V} `{Countable K} (P : V -> Prop) (f : V -> V) k (m : gmap K V) :
  map_Forall (fun _ v => P v) m -> (forall v, P v -> P (f v)) -> map_Forall (fun _ v => P v) (alter f k m).
Proof.
  intros Hm Hf k' v Hl. destruct (decide (k = k')) as [<-|Hne].
  - rewrite lookup_alter_eq in Hl. apply fmap_Some in Hl as (v0 & Hl & ->). by apply Hf, (Hm k).
  - rewrite lookup_alter_ne in Hl by done. by apply (Hm k').
Qed.

Lemma update_route_fits now registry route f :
  fits now registry -> (forall state, timely state -> timely (f state)) -> fits now (update_route registry route f).
Proof. intros [] Hf. split; simpl; try done. by apply alter_Forall. Qed.

Lemma update_key_fits now registry key f :
  fits now registry -> (forall state, timely state -> timely (f state)) -> fits now (update_key registry key f).
Proof. intros [] Hf. split; simpl; try done. by apply alter_Forall. Qed.

Lemma delete_Forall {K V} `{Countable K} (P : V -> Prop) k (m : gmap K V) :
  map_Forall (fun _ v => P v) m -> map_Forall (fun _ v => P v) (delete k m).
Proof. intros Hm k' v [_ Hl]%lookup_delete_Some. by apply (Hm k'). Qed.

Lemma lookup_fits {K} `{Countable K} (m : gmap K HealthState) k now :
  map_Forall (fun _ state => timely state) m -> timely (default (HealthState_new now) (m !! k)).
Proof. intros Hm. destruct (m !! k) as [s|] eqn:Hl; simpl; [by apply (Hm k)|done]. Qed.

(** ** Admission *)

Lemma gate_fits gate now registry key registry' refusal :
  (forall state state' r, timely state -> gate state now = Some (state', r) -> timely state') ->
  fits now registry -> gate_key gate registry key now = Some (registry', refusal) -> fits now registry'.
Proof.
  intros Hgate Hf. unfold gate_key. destruct (rh_keys registry !! key) as [s|] eqn:Hl; [|by intros; simplify_eq].
  intros ([s' r] & Hg & Hr)%bind_Some. simplify_eq. apply put_key_fits; [done|].
  eapply Hgate; [|done]. by apply (ft_keys _ _ Hf key).
Qed.

Lemma reserve_gate_timely state now state' refusal :
  timely state -> reserve_gate state now = Some (state', refusal) -> timely state'.
Proof.
  intros Hs. unfold reserve_gate. repeat case_match; intros Hg; simplify_option_eq; try done; by destruct Hs as (? & ? & ?).
Qed.

Lemma probe_gate_timely state now state' refusal :
  timely state -> probe_key_gate state now = Some (state', refusal) -> timely state'.
Proof. intros Hs. unfold probe_key_gate. repeat case_match; intros Hg; by simplify_option_eq. Qed.

Lemma gate_route_fits now registry route registry' refusal :
  fits now registry -> gate_route registry route now = Some (registry', refusal) -> fits now registry'.
Proof.
  intros Hf. unfold gate_route. destruct (rh_routes registry !! route) as [s|] eqn:Hl; [|by intros; simplify_eq].
  intros ([s' r] & Hg & Hr)%bind_Some. simplify_eq. apply put_route_fits; [done|].
  eapply reserve_gate_timely; [|done]. by apply (ft_routes _ _ Hf route).
Qed.

Lemma grant_timely registry generation now state :
  fits now registry -> timely state -> timely (grant_half_open registry generation now state).
Proof. intros [] (? & _ & _). by split_and!. Qed.

Lemma next_generation_fits now registry : fits now registry -> fits now (next_generation registry).1.
Proof. by intros []. Qed.

Lemma reserve_expired_key_fits now registry key :
  fits now registry -> fits now (reserve_expired_half_open_key registry key now).1.
Proof.
  intros Hf. unfold reserve_expired_half_open_key. case_match; [|done]. simpl.
  pose proof (next_generation_fits now registry Hf). apply update_key_fits; [done|]. intros. by apply grant_timely.
Qed.

Lemma reserve_expired_route_fits now registry route :
  fits now registry -> fits now (reserve_expired_half_open_route registry route now).1.
Proof.
  intros Hf. unfold reserve_expired_half_open_route. case_match; [|done]. simpl.
  pose proof (next_generation_fits now registry Hf). apply update_route_fits; [done|]. intros. by apply grant_timely.
Qed.

Lemma passthrough_fits now registry route key : fits now registry -> fits now (passthrough registry route key now).1.
Proof. intros Hf. simpl. apply update_route_fits; [apply update_key_fits; [done|]|]; auto. Qed.

Lemma reserve_fits now registry route key registry' availability :
  fits now registry -> reserve registry route key now = Some (registry', availability) -> fits now registry'.
Proof.
  intros Hf. unfold reserve. destruct (negb _).
  { intros Hr. apply (inj Some) in Hr. pose proof (passthrough_fits now registry route key Hf) as H. by rewrite Hr in H. }
  intros ([r1 f1] & Hg1 & Hr)%bind_Some.
  pose proof (gate_fits _ _ _ _ _ _ ltac:(intros; by eapply reserve_gate_timely) Hf Hg1) as Hf1.
  destruct f1; [by simplify_eq|]. apply bind_Some in Hr as ([r2 f2] & Hg2 & Hr).
  pose proof (gate_route_fits _ _ _ _ _ Hf1 Hg2) as Hf2. destruct f2; [by simplify_eq|].
  pose proof (reserve_expired_key_fits now r2 key Hf2) as Hf3.
  destruct (reserve_expired_half_open_key r2 key now) as [r3 g3].
  pose proof (reserve_expired_route_fits now r3 route Hf3) as Hf4.
  destruct (reserve_expired_half_open_route r3 route now) as [r4 g4]. by simplify_eq.
Qed.

Lemma early_probe_timely registry generation cooldown now state :
  fits now registry -> timely state -> timely (grant_early_probe registry generation cooldown now state).
Proof.
  intros [] (? & _ & _). split_and!; simpl; try done. unfold probe_exclusive_until. lia.
Qed.

Lemma probe_fits now registry route key registry' availability :
  fits now registry -> reserve_route_health_probe registry route key now = Some (registry', availability) ->
  fits now registry'.
Proof.
  intros Hf. unfold reserve_route_health_probe. destruct (negb _).
  { intros Hr. apply (inj Some) in Hr. pose proof (passthrough_fits now registry route key Hf) as H. by rewrite Hr in H. }
  intros ([r1 f1] & Hg1 & Hr)%bind_Some.
  pose proof (gate_fits _ _ _ _ _ _ ltac:(intros; by eapply probe_gate_timely) Hf Hg1) as Hf1.
  destruct f1; [by simplify_eq|]. destruct (rh_routes r1 !! route) as [s|] eqn:Hl; [|by simplify_eq].
  assert (fits now (put_route r1 route (touch s now))) as Hf2.
  { apply put_route_fits; [done|]. apply touch_timely. by apply (ft_routes _ _ Hf1 route). }
  apply bind_Some in Hr as (class & _ & Hr).
  destruct (health_is_active _ _); [by simplify_eq|]. destruct (negb _); [by simplify_eq|].
  destruct (is_some_and _ _); [by simplify_eq|].
  pose proof (reserve_expired_key_fits now _ key Hf2) as Hf3.
  destruct (reserve_expired_half_open_key (put_route r1 route (touch s now)) key now) as [r3 g3].
  pose proof (next_generation_fits now r3 Hf3) as Hf4. destruct (next_generation r3) as [r4 g4].
  simplify_eq. simpl in *. apply update_route_fits; [done|]. intros. by apply early_probe_timely.
Qed.

(** ** Failures *)

Section failures.
Variable sha256 : string -> list Z.
Context `{!IterOrder RouteHealthKey HealthState}
        `{!IterOrder KeyHealthKey HealthState}
        `{!IterOrder RouteSetAggregateKey AggregateState}.

(** The curves end after [u64_max] nanoseconds at the latest. *)
Lemma jittered_backoff_short base step max material : jittered_backoff sha256 base step max material <= u64_max.
Proof. unfold jittered_backoff. lia. Qed.

Lemma route_cooldown_short class step route delays base max :
  route_cooldown_with_concurrency_delays sha256 class step route delays base max <= u64_max.
Proof.
  unfold route_cooldown_with_concurrency_delays. case_bool_decide.
  - etransitivity; [apply Z.le_min_r|]. unfold ROUTE_COOLDOWN_MAX, from_secs, u64_max. lia.
  - unfold route_cooldown. destruct (match class with CapacityUnavailable => _ | _ => _ end).
    apply jittered_backoff_short.
Qed.

Context (now : Instant) (retry_after : option Duration).
Hypothesis curves_fit : now + u64_max <= instant_max.
Hypothesis retry_fits : from_option (fun d => now + d <= instant_max) True retry_after.

Lemma fail_route_timely registry route class status rep shared state :
  timely (fail_route sha256 registry route class retry_after status now rep shared state).
Proof.
  unfold fail_route. split_and!; try done. cbn [hs_cooldown_until from_option].
  lazymatch goal with |- context [effective_cooldown _ _ ?l] => assert (l <= u64_max) as Hl by apply route_cooldown_short end.
  unfold effective_cooldown. destruct retry_after as [d|]; cbn [from_option] in retry_fits; destruct class; lia.
Qed.

Lemma fail_key_timely registry key class state :
  timely (fail_key sha256 registry key class retry_after now state).
Proof.
  unfold fail_key. split_and!; try done. cbn [hs_cooldown_until from_option].
  lazymatch goal with |- context [map_or ?l _ _] =>
    assert (l <= u64_max) as Hl by (unfold key_cooldown; apply jittered_backoff_short) end.
  destruct retry_after as [d|]; cbn [from_option map_or] in *; lia.
Qed.

Lemma ensure_route_fits registry route : fits now registry -> fits now (ensure_route_capacity registry route now).1.
Proof.
  intros Hf. unfold ensure_route_capacity. repeat (case_match; simpl; try done).
  destruct Hf. split; simpl; try done. by apply delete_Forall.
Qed.

Lemma ensure_key_fits registry key : fits now registry -> fits now (ensure_key_capacity registry key now).1.
Proof.
  intros Hf. unfold ensure_key_capacity. repeat (case_match; simpl; try done).
  destruct Hf. split; simpl; try done. by apply delete_Forall.
Qed.

Lemma observe_route_fits registry route class status rep sole cap shared :
  fits now registry ->
  fits now (observe_route_failure_at sha256 registry route class retry_after status now rep sole cap shared).
Proof.
  intros Hf. unfold observe_route_failure_at. case_match; [by apply update_route_fits|].
  pose proof (ensure_route_fits registry route Hf) as Hr.
  case_match; [unfold observe_capacity_route_failure_at|];
    destruct (ensure_route_capacity registry route now) as [r []]; simpl in *; try done.
  - apply (put_route_fits now (count_skipped r _)); [by destruct Hr|].
    pose proof (lookup_fits (rh_routes r) route now (ft_routes _ _ Hr)) as (? & ? & ?). by split_and!.
  - apply put_route_fits; [done|]. apply fail_route_timely.
Qed.

Lemma observe_key_fits registry key class :
  fits now registry -> fits now (observe_key_failure_at sha256 registry key class retry_after now).
Proof.
  intros Hf. unfold observe_key_failure_at. case_match; [by apply update_key_fits|].
  pose proof (ensure_key_fits registry key Hf) as Hr.
  case_match; [unfold observe_capacity_key_failure_at|];
    destruct (ensure_key_capacity registry key now) as [r []]; simpl in *; try done.
  - apply (put_key_fits now (count_skipped r _)); [by destruct Hr|].
    pose proof (lookup_fits (rh_keys r) key now (ft_keys _ _ Hr)) as (? & ? & ?). by split_and!.
  - apply put_key_fits; [done|]. apply fail_key_timely.
Qed.

Lemma observe_set_fits registry aggregate class :
  fits now registry -> fits now (observe_route_set_failure registry aggregate class retry_after now).
Proof.
  intros Hf. unfold observe_route_set_failure.
  assert (forall aggregates, map_Forall (fun _ state =>
      from_option (fun d => d <= instant_max) True (ag_cooldown_until state)) aggregates ->
    fits now {| registry with rh_aggregates := <[aggregate := fail_aggregate class retry_after now
      (default (AggregateState_new now) (aggregates !! aggregate))]> aggregates |}) as Hput.
  { intros aggregates Ha. destruct Hf. split; simpl; try done. apply map_Forall_insert_2; [|done].
    simpl. by destruct retry_after. }
  repeat case_match; simplify_eq; try done; apply Hput; try apply delete_Forall; apply Hf.
Qed.

End failures.

(** ** Every event *)

Section events.
Variable sha256 : string -> list Z.
Context `{!IterOrder RouteHealthKey HealthState}
        `{!IterOrder KeyHealthKey HealthState}
        `{!IterOrder RouteSetAggregateKey AggregateState}.

Definition outcome_retry_after (outcome : RouteOutcome) : option Duration :=
  match outcome with
  | RouteFailureWithRetry _ retry_after _ _ _ _ _ | KeyFailureWithRetry _ retry_after => Some retry_after
  | _ => None
  end.

(** The Retry-After that an event carries. *)
Definition event_retry_after (ev : health_event) : option Duration :=
  match ev with
  | EvFinish _ outcome => outcome_retry_after outcome
  | EvObserveRoute _ _ retry_after _ | EvObserveKey _ _ retry_after | EvObserveRouteSet _ _ retry_after => retry_after
  | _ => None
  end.

(** The lifetimes that are in force and those that an event installs, the curves and the
    Retry-After of the event end on the clock. *)
Definition health_in_time (registry : RouteHealthRegistry) (ev : health_event) (now : Instant) : Prop :=
  now + u64_max <= instant_max /\
  now + rh_half_open_ttl registry <= instant_max /\
  now + rh_half_open_exclusive_window registry <= instant_max /\
  from_option (fun d => now + d <= instant_max) True (event_retry_after ev) /\
  match ev with
  | EvTune tuning =>
      now + from_secs (Z.max (Z.max (rt_transient_route_cooldown_max_seconds tuning)
                                (rt_transient_route_cooldown_base_seconds tuning)) 1) <= instant_max /\
      now + from_secs (Z.max (rt_half_open_ttl_seconds tuning) 1) <= instant_max /\
      now + from_millis (rt_half_open_exclusive_window_ms tuning) <= instant_max
  | _ => True
  end.

Lemma reapply_fits registry lease now :
  now + u64_max <= instant_max -> probe_delays_ok (rh_concurrency_probe_delays registry) -> fits now registry ->
  fits now (reapply_concurrency_probe_delay registry lease now).1.
Proof.
  intros Hu Hd Hf. unfold reapply_concurrency_probe_delay. case_match; [|done]. simpl.
  apply put_route_fits; [done|]. split_and!; simpl; try done.
  pose proof (sequence_delay_range _ (hs_consecutive_failures h) Hd).
  unfold from_millis, MAX_PROBE_DELAY_MS, u64_max in *. lia.
Qed.

Lemma finish_fits registry lease outcome now :
  now + u64_max <= instant_max -> probe_delays_ok (rh_concurrency_probe_delays registry) ->
  from_option (fun d => now + d <= instant_max) True (outcome_retry_after outcome) -> fits now registry ->
  fits now (finish sha256 registry lease outcome now).
Proof.
  intros Hu Hd Hra Hf.
  assert (forall k g, fits now (release_key_lease registry k g now)) as Hkey
    by (intros; apply update_key_fits; auto).
  assert (forall r g, fits now (release_route_lease registry r g now)) as Hroute
    by (intros; apply update_route_fits; auto).
  destruct outcome; cbn [finish outcome_retry_after] in *;
    try (by apply observe_route_fits); try (by apply observe_key_fits).
  - assert (fits now (clear_route_for_success registry lease now)) as Hc
      by (apply update_route_fits; [done|]; intros; case_match; auto).
    case_match; apply update_key_fits; auto.
  - pose proof (reapply_fits (release_key_lease registry (hl_key lease) (hl_key_generation lease) now) lease now Hu Hd (Hkey (hl_key lease) (hl_key_generation lease))) as Hre.
    destruct (reapply_concurrency_probe_delay _ _ _) as [r []]; simpl in *; [done|]. by apply observe_route_fits.
  - pose proof (reapply_fits _ lease now Hu Hd Hf) as Hre.
    destruct (reapply_concurrency_probe_delay _ _ _) as [r []]; simpl in *; apply update_key_fits; auto.
    apply update_route_fits; auto.
Qed.

Lemma remove_cleared_fits registry route key now :
  fits now registry -> fits now (remove_cleared_route_and_key registry route key).
Proof.
  intros [Hr Hk]. unfold remove_cleared_route_and_key. do 2 case_match; (split; simpl; try done); by apply delete_Forall.
Qed.

Lemma cap_fits limit deadline :
  limit <= instant_max -> from_option (fun d => d <= instant_max) True deadline ->
  from_option (fun d => d <= instant_max) True (cap_deadline limit deadline).
Proof. intros. unfold cap_deadline. by case_match. Qed.

Lemma tune_on_clock registry tuning now registry' :
  on_clock registry = true -> update_runtime_tuning registry tuning now = Some registry' -> on_clock registry' = true.
Proof.
  intros (Hr & Hk & Ha)%on_clock_spec Ht. unfold update_runtime_tuning in Ht.
  apply bind_Some in Ht as (c & [-> Hc]%instant_add_Some & Ht). apply bind_Some in Ht as (h & [-> Hh]%instant_add_Some & Ht).
  apply bind_Some in Ht as (x & [-> Hx]%instant_add_Some & Ht). simplify_eq. apply on_clock_spec. simpl.
  assert (forall state, timely state -> timely (shorten_half_open
    (now + from_secs (rt_half_open_ttl_seconds tuning `max` 1)) (now + from_millis (rt_half_open_exclusive_window_ms tuning)) state)) as Hs.
  { intros state (? & ? & ?). unfold shorten_half_open. split_and!; simpl; [done|by apply cap_fits..]. }
  split_and!; [| |done]; intros k s Hl; rewrite lookup_fmap in Hl; apply fmap_Some in Hl as (state & Hl & ->);
    [|apply Hs, (Hk _ _ Hl)].
  apply Hs. specialize (Hr _ _ Hl) as (? & ? & ?). case_bool_decide; [|by split_and!].
  split_and!; simpl; [by apply cap_fits|done..].
Qed.

(** What an event that is in time adds lies on the clock. *)
Lemma step_on_clock registry ev now registry' :
  probe_delays_ok (rh_concurrency_probe_delays registry) -> on_clock registry = true ->
  health_in_time registry ev now -> run_health_step sha256 registry ev now = Some registry' ->
  on_clock registry' = true.
Proof.
  intros Hd Hc (Hu & Ht & Hw & Hra & _) Hrun.
  assert (fits now registry) as Hf by (apply on_clock_spec in Hc as (? & ? & ?); by split).
  destruct ev; cbn [run_health_step event_retry_after] in *.
  all: try (apply (inj Some) in Hrun; subst registry').
  all: lazymatch goal with H : update_runtime_tuning _ _ _ = _ |- _ => idtac | _ => apply (fits_on_clock now) end.
  - apply fmap_Some in Hrun as ([r a] & Hr & ->). by eapply reserve_fits.
  - apply fmap_Some in Hrun as ([r a] & Hr & ->). by eapply probe_fits.
  - destruct permit as [[lease|route key]|]; simpl; [by apply finish_fits| |done].
    destruct outcome; try done; first [by apply observe_route_fits | by apply observe_key_fits].
  - destruct permit as [[lease|route key]|]; simpl; [|done..]. by apply remove_cleared_fits, (finish_fits _ _ Success).
  - destruct permit as [[lease|route key]|]; simpl; [|done..]. by apply (finish_fits _ _ OutcomeCancelled).
  - by apply observe_route_fits.
  - by apply observe_key_fits.
  - by apply observe_set_fits.
  - apply update_route_fits; auto.
  - destruct Hf. split; simpl; try done; intros k v [Hl _]%map_lookup_filter_Some; eauto.
  - by eapply tune_on_clock.
  - by destruct Hf.
Qed.

End events.
