(* ===== verification/RouteHealthFacts.v ===== *)
(** * The route health registry: invariant, admission, settlement

    The theorems about [RouteHealthRegistry.v]: every reachable registry is
    well formed and within its capacities, admission reports what the entries
    say, leases are granted one at a time and fenced by their generation, and
    a failure, a success or a change of tuning has exactly its own effect. *)

From S2P Require Import Prelude RouteTypes Backoff RouteHealth RouteHealthRegistry RouteHealthClock.

Local Open Scope Z_scope.

(** ** Bounded key sets *)

Section capacity.
  Context {K : Type} `{Countable K} (upstream_id : K -> string).
  Implicit Types (D : gset K) (k : K) (id : string).

Definition within_capacity (total per_upstream : Z) D : Prop :=
  Z.of_nat (size D) <= total /\
  forall id, Z.of_nat (size (upstream_part upstream_id id D)) <= per_upstream.

Lemma count_upstream_dom {V} id (m : gmap K V) :
  count_upstream upstream_id id m = Z.of_nat (size (upstream_part upstream_id id (dom m))).
Proof.
  unfold count_upstream, upstream_part. rewrite <- size_dom. do 2 f_equal.
  apply leibniz_equiv. intros k. rewrite elem_of_dom, elem_of_filter, elem_of_dom.
  unfold is_Some. setoid_rewrite map_lookup_filter_Some. naive_solver.
Qed.

Lemma within_capacity_subset total per D D' :
  D' ⊆ D -> within_capacity total per D -> within_capacity total per D'.
Proof.
  intros Hsub [Ht Hp]. split.
  - etransitivity; [|exact Ht]. apply inj_le, subseteq_size, Hsub.
  - intros id. etransitivity; [|apply (Hp id)]. apply inj_le, subseteq_size.
    unfold upstream_part. set_solver.
Qed.

(** Room for a newcomer: either nothing is full, or one element that frees a
    place in every full count is evicted. *)
Lemma within_capacity_room total per k D :
  within_capacity total per D ->
  Z.of_nat (size D) < total -> Z.of_nat (size (upstream_part upstream_id (upstream_id k) D)) < per ->
  within_capacity total per ({[k]} ∪ D).
Proof.
  intros [Ht Hp] Hlt Hlp. split.
  - pose proof (size_add_le k D). lia.
  - intros id. destruct (decide (upstream_id k = id)) as [<-|Hne].
    + pose proof (upstream_part_add upstream_id (upstream_id k) k D). lia.
    + by rewrite upstream_part_other.
Qed.

Lemma within_capacity_evict total per k c D :
  within_capacity total per D -> c ∈ D ->
  (per <= Z.of_nat (size (upstream_part upstream_id (upstream_id k) D)) -> upstream_id c = upstream_id k) ->
  within_capacity total per ({[k]} ∪ D ∖ {[c]}).
Proof.
  intros [Ht Hp] Hc Hsame. split.
  - pose proof (size_add_le k (D ∖ {[c]})). pose proof (size_remove c D Hc). lia.
  - intros id. destruct (decide (upstream_id k = id)) as [<-|Hne].
    + pose proof (upstream_part_add upstream_id (upstream_id k) k (D ∖ {[c]})) as Hadd.
      specialize (Hp (upstream_id k)).
      destruct (Z.le_gt_cases per (Z.of_nat (size (upstream_part upstream_id (upstream_id k) D)))) as [Hfull|Hfree].
      * specialize (Hsame Hfull).
        assert (upstream_part upstream_id (upstream_id k) (D ∖ {[c]}) = upstream_part upstream_id (upstream_id k) D ∖ {[c]})
          as Heq by (unfold upstream_part; set_solver).
        pose proof (size_remove c (upstream_part upstream_id (upstream_id k) D)
                      ltac:(unfold upstream_part; set_solver)).
        rewrite Heq in Hadd. lia.
      * assert (size (upstream_part upstream_id (upstream_id k) (D ∖ {[c]})) <=
                size (upstream_part upstream_id (upstream_id k) D))%nat
          by (apply subseteq_size; unfold upstream_part; set_solver).
        lia.
    + rewrite upstream_part_other by done. etransitivity; [|apply (Hp id)].
      apply inj_le, subseteq_size. unfold upstream_part. set_solver.
Qed.

End capacity.

Lemma dom_put {K V} `{Countable K} (m : gmap K V) k v : dom (<[k:=v]> m) = {[k]} ∪ dom m.
Proof. apply leibniz_equiv, dom_insert. Qed.

(** ** The invariant *)

Record registry_health_ok (registry : RouteHealthRegistry) : Prop := {
  ok_delays : probe_delays_ok (rh_concurrency_probe_delays registry);
  ok_base : 0 <= rh_transient_route_cooldown_base registry <= duration_max;
  ok_max : 0 <= rh_transient_route_cooldown_max registry;
  ok_max_step : 1 <= rh_transient_route_cooldown_max_step registry <= 8;
  ok_ttl : from_secs 1 <= rh_half_open_ttl registry;
  ok_window : 0 <= rh_half_open_exclusive_window registry;
  ok_first_strike : 0 <= rh_credentials_first_strike registry <= duration_max;
  ok_capacity : 1 <= rh_route_capacity registry;
  ok_routes : map_Forall (fun _ state => health_state_ok state) (rh_routes registry);
  ok_keys : map_Forall (fun _ state => health_state_ok state) (rh_keys registry);
  ok_routes_capacity :
    within_capacity rk_upstream_id (rh_route_capacity registry)
      (rh_per_upstream_capacity registry) (dom (rh_routes registry));
  ok_keys_capacity :
    within_capacity kk_upstream_id (rh_route_capacity registry)
      (rh_per_upstream_capacity registry) (dom (rh_keys registry));
  ok_aggregates_capacity :
    Z.of_nat (size (rh_aggregates registry)) <= rh_route_capacity registry
}.

Lemma within_capacity_empty `{Countable K} (f : K -> string) total per :
  0 <= total -> 0 <= per -> within_capacity f total per ∅.
Proof.
  intros. split.
  - rewrite size_empty. lia.
  - intros id. replace (upstream_part f id ∅) with (∅ : gset K) by (unfold upstream_part; set_solver).
    rewrite size_empty. lia.
Qed.

Lemma new_ok capacity per_upstream tuning :
  tuning_in_range tuning ->
  registry_health_ok (new_with_runtime_tuning_and_enforcement capacity per_upstream tuning).
Proof.
  intros (Hd & Hb & Hm & Hc & Hw).
  split; simpl;
    try (unfold clamp, from_secs, from_millis, duration_max, u64_max in *; lia).
  - by apply normalize_ok.
  - apply map_Forall_empty.
  - apply map_Forall_empty.
  - rewrite dom_empty_L. apply within_capacity_empty; lia.
  - rewrite dom_empty_L. apply within_capacity_empty; lia.
  - rewrite map_size_empty. lia.
Qed.

(** Updates of entries in place. *)
Lemma map_Forall_alter `{Countable K} {V} (P : V -> Prop) (f : V -> V) k (m : gmap K V) :
  (forall v, P v -> P (f v)) -> map_Forall (fun _ v => P v) m ->
  map_Forall (fun _ v => P v) (alter f k m).
Proof.
  intros Hf Hm i v Hi. apply lookup_alter_Some in Hi as [(-> & w & Hw & ->)|[_ Hi]].
  - by eapply Hf, Hm.
  - by eapply Hm.
Qed.

Lemma map_Forall_fmap_1 `{Countable K} {V} (P : V -> Prop) (f : V -> V) (m : gmap K V) :
  (forall v, P v -> P (f v)) -> map_Forall (fun _ v => P v) m ->
  map_Forall (fun _ v => P v) (f <$> m).
Proof.
  intros Hf Hm i v Hi. rewrite lookup_fmap in Hi. apply fmap_Some in Hi as (w & Hw & ->).
  by eapply Hf, Hm.
Qed.

Lemma map_Forall_delete_1 `{Countable K} {V} (P : V -> Prop) k (m : gmap K V) :
  map_Forall (fun _ v => P v) m -> map_Forall (fun _ v => P v) (delete k m).
Proof. intros Hm i v [_ Hi]%lookup_delete_Some. by eapply Hm. Qed.

Lemma map_Forall_filter_1 `{Countable K} {V} (P : V -> Prop) (Q : K * V -> Prop)
    `{!forall x, Decision (Q x)} (m : gmap K V) :
  map_Forall (fun _ v => P v) m -> map_Forall (fun _ v => P v) (filter Q m).
Proof. intros Hm i v [Hi _]%map_lookup_filter_Some. by eapply Hm. Qed.

Lemma update_route_ok registry route f :
  (forall state, health_state_ok state -> health_state_ok (f state)) ->
  registry_health_ok registry -> registry_health_ok (update_route registry route f).
Proof. intros Hf []. split; simpl; try done; [by apply map_Forall_alter | by rewrite dom_alter_L]. Qed.

Lemma update_key_ok registry key f :
  (forall state, health_state_ok state -> health_state_ok (f state)) ->
  registry_health_ok registry -> registry_health_ok (update_key registry key f).
Proof. intros Hf []. split; simpl; try done; [by apply map_Forall_alter | by rewrite dom_alter_L]. Qed.

Lemma put_route_ok registry route state :
  health_state_ok state -> registry_health_ok registry ->
  within_capacity rk_upstream_id (rh_route_capacity registry) (rh_per_upstream_capacity registry)
    ({[route]} ∪ dom (rh_routes registry)) ->
  registry_health_ok (put_route registry route state).
Proof.
  intros Hs [] Hw. split; simpl; try done; [by apply map_Forall_insert_2 | by rewrite dom_put].
Qed.

Lemma put_key_ok registry key state :
  health_state_ok state -> registry_health_ok registry ->
  within_capacity kk_upstream_id (rh_route_capacity registry) (rh_per_upstream_capacity registry)
    ({[key]} ∪ dom (rh_keys registry)) ->
  registry_health_ok (put_key registry key state).
Proof.
  intros Hs [] Hw. split; simpl; try done; [by apply map_Forall_insert_2 | by rewrite dom_put].
Qed.

Lemma add_present `{Countable K} {V} (m : gmap K V) k v : m !! k = Some v -> {[k]} ∪ dom m = dom m.
Proof.
  intros Hk. assert (k ∈ dom m) by (apply elem_of_dom; by eexists). set_solver.
Qed.

Lemma put_route_present_ok registry route old state :
  rh_routes registry !! route = Some old ->
  health_state_ok state -> registry_health_ok registry ->
  registry_health_ok (put_route registry route state).
Proof.
  intros Hl Hs Hok. apply put_route_ok; [done..|]. erewrite add_present by done. by destruct Hok.
Qed.

Lemma put_key_present_ok registry key old state :
  rh_keys registry !! key = Some old ->
  health_state_ok state -> registry_health_ok registry ->
  registry_health_ok (put_key registry key state).
Proof.
  intros Hl Hs Hok. apply put_key_ok; [done..|]. erewrite add_present by done. by destruct Hok.
Qed.

#[export] Hint Resolve update_route_ok update_key_ok : gateway.

(** ** Admission keeps the invariant and does not panic *)

Lemma reserve_gate_ok state now :
  health_state_ok state ->
  exists state' refusal, reserve_gate state now = Some (state', refusal) /\ health_state_ok state'.
Proof.
  intros Hok. pose proof (touch_ok state now Hok) as Ht. unfold reserve_gate.
  destruct (health_is_cooling (touch state now) now) eqn:Hcool.
  { destruct (cooling_class _ _ Ht Hcool) as [c ->]. by eexists _, _. }
  destruct (hs_half_open_generation (touch state now)) as [g|] eqn:Hg; simpl;
    [|by eexists _, _].
  destruct (leased_class _ _ Ht Hg) as [c Hc].
  repeat case_match; simplify_eq/=; rewrite ?Hc;
    eexists _, _; (split; [done|]); auto with gateway.
Qed.

Lemma probe_key_gate_ok state now :
  health_state_ok state ->
  exists state' refusal, probe_key_gate state now = Some (state', refusal) /\ health_state_ok state'.
Proof.
  intros Hok. pose proof (touch_ok state now Hok) as Ht. unfold probe_key_gate.
  destruct (health_is_cooling (touch state now) now) eqn:Hcool.
  { destruct (cooling_class _ _ Ht Hcool) as [c ->]. by eexists _, _. }
  destruct (health_is_active (touch state now) now) eqn:Ha; [|by eexists _, _].
  destruct (active_leased _ _ Ha) as [g Hg]. destruct (leased_class _ _ Ht Hg) as [c ->].
  by eexists _, _.
Qed.

Lemma gate_key_ok gate registry key now :
  (forall state, health_state_ok state ->
     exists state' refusal, gate state now = Some (state', refusal) /\ health_state_ok state') ->
  registry_health_ok registry ->
  exists registry' refusal, gate_key gate registry key now = Some (registry', refusal) /\
    registry_health_ok registry' /\ rh_routes registry' = rh_routes registry /\
    rh_enforcement_enabled registry' = rh_enforcement_enabled registry.
Proof.
  intros Hgate Hok. unfold gate_key. destruct (rh_keys registry !! key) as [s|] eqn:Hl;
    [|by eexists _, _].
  destruct (Hgate s) as (s' & refusal & Hg & Hs'); [by eapply (ok_keys _ Hok)|].
  rewrite Hg. eexists _, _. split; [done|]. split; [|done]. by eapply put_key_present_ok.
Qed.

Lemma gate_route_ok registry route now :
  registry_health_ok registry ->
  exists registry' refusal, gate_route registry route now = Some (registry', refusal) /\
    registry_health_ok registry'.
Proof.
  intros Hok. unfold gate_route. destruct (rh_routes registry !! route) as [s|] eqn:Hl;
    [|by eexists _, _].
  destruct (reserve_gate_ok s now) as (s' & refusal & Hg & Hs'); [by eapply (ok_routes _ Hok)|].
  rewrite Hg. eexists _, _. split; [done|]. by eapply put_route_present_ok.
Qed.

Lemma next_generation_ok registry :
  registry_health_ok registry -> registry_health_ok (next_generation registry).1.
Proof. by intros []. Qed.

(** A grant on an entry that has a class keeps it well formed. *)
Lemma grant_ok registry g now state :
  is_Some (hs_last_failure_class state) ->
  health_state_ok state -> health_state_ok (grant_half_open registry g now state).
Proof. intros [c Hc] []. split; simpl; try done. congruence. Qed.

Lemma early_probe_ok registry g until now state :
  is_Some (hs_last_failure_class state) ->
  health_state_ok state -> health_state_ok (grant_early_probe registry g until now state).
Proof. intros [c Hc] []. split; simpl; try done. congruence. Qed.

Lemma alter_present `{Countable K} {V} (f : V -> V) (m : gmap K V) k v :
  m !! k = Some v -> alter f k m = <[k:=f v]> m.
Proof.
  intros Hk. apply map_eq. intros j. destruct (decide (k = j)) as [<-|Hne].
  - by rewrite lookup_alter_eq, lookup_insert_eq, Hk.
  - by rewrite lookup_alter_ne, lookup_insert_ne.
Qed.

Lemma update_route_at_ok registry route state f :
  rh_routes registry !! route = Some state ->
  (health_state_ok state -> health_state_ok (f state)) ->
  registry_health_ok registry -> registry_health_ok (update_route registry route f).
Proof.
  intros Hl Hf Hok. replace (update_route registry route f) with (put_route registry route (f state)).
  - eapply put_route_present_ok; [done| |done]. by eapply Hf, (ok_routes _ Hok).
  - unfold update_route, put_route. by erewrite alter_present by done.
Qed.

Lemma update_key_at_ok registry key state f :
  rh_keys registry !! key = Some state ->
  (health_state_ok state -> health_state_ok (f state)) ->
  registry_health_ok registry -> registry_health_ok (update_key registry key f).
Proof.
  intros Hl Hf Hok. replace (update_key registry key f) with (put_key registry key (f state)).
  - eapply put_key_present_ok; [done| |done]. by eapply Hf, (ok_keys _ Hok).
  - unfold update_key, put_key. by erewrite alter_present by done.
Qed.

Lemma can_reserve_class state now :
  can_reserve_half_open state now = true -> is_Some (hs_last_failure_class state).
Proof.
  unfold can_reserve_half_open. intros. bool_prop. by destruct (hs_last_failure_class state).
Qed.

Lemma reserve_expired_key_ok registry key now :
  registry_health_ok registry -> registry_health_ok (reserve_expired_half_open_key registry key now).1.
Proof.
  intros Hok. unfold reserve_expired_half_open_key.
  destruct (rh_keys registry !! key) as [s|] eqn:Hl; simpl; [|done].
  destruct (can_reserve_half_open s now) eqn:Hc; simpl; [|done].
  eapply update_key_at_ok; [exact Hl| |by apply (next_generation_ok registry)].
  by apply grant_ok, (can_reserve_class _ now).
Qed.

Lemma reserve_expired_route_ok registry route now :
  registry_health_ok registry ->
  registry_health_ok (reserve_expired_half_open_route registry route now).1.
Proof.
  intros Hok. unfold reserve_expired_half_open_route.
  destruct (rh_routes registry !! route) as [s|] eqn:Hl; simpl; [|done].
  destruct (can_reserve_half_open s now) eqn:Hc; simpl; [|done].
  eapply update_route_at_ok; [exact Hl| |by apply (next_generation_ok registry)].
  by apply grant_ok, (can_reserve_class _ now).
Qed.

Lemma passthrough_ok registry route key now :
  registry_health_ok registry -> registry_health_ok (passthrough registry route key now).1.
Proof. intros. unfold passthrough; simpl. auto with gateway. Qed.

Lemma reserve_ok registry route key now :
  registry_health_ok registry ->
  exists registry' availability, reserve registry route key now = Some (registry', availability) /\
    registry_health_ok registry'.
Proof.
  intros Hok. unfold reserve. destruct (rh_enforcement_enabled registry); simpl.
  2: { eexists _, _. split; [done|]. by apply (passthrough_ok registry route key now). }
  destruct (gate_key_ok reserve_gate registry key now) as (r1 & f1 & -> & Hok1 & _ & _);
    [intros; by apply reserve_gate_ok|done|]. simpl.
  destruct f1; [by eexists _, _|].
  destruct (gate_route_ok r1 route now Hok1) as (r2 & f2 & -> & Hok2). simpl.
  destruct f2; [by eexists _, _|].
  pose proof (reserve_expired_key_ok r2 key now Hok2) as Hok3.
  destruct (reserve_expired_half_open_key r2 key now) as [r3 g3].
  pose proof (reserve_expired_route_ok r3 route now Hok3) as Hok4.
  destruct (reserve_expired_half_open_route r3 route now) as [r4 g4].
  by eexists _, _.
Qed.

Lemma reserve_expired_key_routes registry key now :
  rh_routes (reserve_expired_half_open_key registry key now).1 = rh_routes registry.
Proof. unfold reserve_expired_half_open_key. by destruct (is_some_and _ _). Qed.

(** The early probe panics only on an entry without a class. *)
Lemma probe_ok registry route key now registry' availability :
  registry_health_ok registry ->
  reserve_route_health_probe registry route key now = Some (registry', availability) ->
  registry_health_ok registry'.
Proof.
  intros Hok. unfold reserve_route_health_probe. destruct (rh_enforcement_enabled registry); simpl.
  2: { intros Hp. apply (inj Some) in Hp. pose proof (passthrough_ok registry route key now Hok) as H.
       by rewrite Hp in H. }
  destruct (gate_key_ok probe_key_gate registry key now) as (r1 & f1 & -> & Hok1 & _ & _);
    [intros; by apply probe_key_gate_ok|done|]. simpl.
  destruct f1; [by intros; simplify_eq|].
  destruct (rh_routes r1 !! route) as [s|] eqn:Hl; [|by intros; simplify_eq].
  intros Hp. apply bind_Some in Hp as (c & Hc & Hp).
  assert (health_state_ok (touch s now)) as Hs by (apply touch_ok; by eapply (ok_routes _ Hok1)).
  assert (registry_health_ok (put_route r1 route (touch s now))) as Hok2
    by (by eapply put_route_present_ok).
  destruct (health_is_active _ _); [by simplify_eq|].
  destruct (negb _); [by simplify_eq|]. destruct (is_some_and _ _); [by simplify_eq|].
  pose proof (reserve_expired_key_ok _ key now Hok2) as Hok3.
  pose proof (reserve_expired_key_routes (put_route r1 route (touch s now)) key now) as Hr3.
  destruct (reserve_expired_half_open_key _ key now) as [r3 g3].
  simpl in *. simplify_eq.
  eapply (update_route_at_ok _ _ (touch s now)); simpl.
  - rewrite Hr3. apply lookup_insert_eq.
  - apply early_probe_ok. by eexists.
  - by apply (next_generation_ok r3).
Qed.

(** ** Failures keep the invariant *)

Lemma within_capacity_frame {K} `{Countable K} (f : K -> string) (total per : Z) (D D' : gset K) :
  D = D' -> within_capacity f total per D -> within_capacity f total per D'.
Proof. by intros ->. Qed.

(** Deleting entries. *)
Lemma delete_route_ok registry route :
  registry_health_ok registry ->
  registry_health_ok {| registry with rh_routes := delete route (rh_routes registry) |}.
Proof.
  intros []. split; simpl; try done; [by apply map_Forall_delete_1|].
  eapply within_capacity_subset; [|done]. rewrite dom_delete_L. set_solver.
Qed.

Lemma delete_key_ok registry key :
  registry_health_ok registry ->
  registry_health_ok {| registry with rh_keys := delete key (rh_keys registry) |}.
Proof.
  intros []. split; simpl; try done; [by apply map_Forall_delete_1|].
  eapply within_capacity_subset; [|done]. rewrite dom_delete_L. set_solver.
Qed.

(** What the capacity checks return. *)
Definition evicts_routes (registry registry' : RouteHealthRegistry) : Prop :=
  registry' = registry \/
  exists c, registry' = {| registry with rh_routes := delete c (rh_routes registry) |}.

Definition evicts_keys (registry registry' : RouteHealthRegistry) : Prop :=
  registry' = registry \/
  exists c, registry' = {| registry with rh_keys := delete c (rh_keys registry) |}.

Section failures.
  Context (sha256 : string -> list Z)
          `{!IterOrder RouteHealthKey HealthState} `{!IterOrder KeyHealthKey HealthState}
          `{!IterOrder RouteSetAggregateKey AggregateState}.

Lemma ensure_route_spec registry route now registry' room :
  registry_health_ok registry ->
  ensure_route_capacity registry route now = (registry', room) ->
  registry_health_ok registry' /\ evicts_routes registry registry' /\
  rh_routes registry' !! route = rh_routes registry !! route /\
  (room = true ->
   within_capacity rk_upstream_id (rh_route_capacity registry) (rh_per_upstream_capacity registry)
     ({[route]} ∪ dom (rh_routes registry'))).
Proof.
  intros Hok. pose proof (ok_routes_capacity _ Hok) as Hcap. unfold ensure_route_capacity.
  destruct (rh_routes registry !! route) as [s|] eqn:Hl; simpl.
  { intros. simplify_eq. split_and!; [done|by left|done|]. intros _.
    by erewrite add_present by done. }
  rewrite count_upstream_dom, <- size_dom. set (D := dom (rh_routes registry)) in *.
  destruct (_ <=? Z.of_nat (size D)) eqn:Eg, (_ <=? Z.of_nat (size (upstream_part _ _ D))) eqn:Eu;
    simpl; intros Hens.
  4: { simplify_eq. split_and!; [done|by left|done|]. intros _.
       subst D. apply within_capacity_room; [done|lia..]. }
  all: match type of Hens with (match ?x with _ => _ end) = _ => destruct x as [[c sc]|] eqn:Hc end;
    simplify_eq; [|by split_and!; [done|by left|done|]].
  all: assert (exists sc', rh_routes registry !! c = Some sc' /\
         (rh_per_upstream_capacity registry <= Z.of_nat (size (upstream_part rk_upstream_id (rk_upstream_id route) D)) ->
          rk_upstream_id c = rk_upstream_id route)) as (sc' & Hin & Hsame).
  1,3,5: unfold or_else in Hc; case_match; simplify_eq;
    match goal with H : min_by _ _ = Some _ |- _ => apply min_by_elem in H end;
    repeat match goal with H : _ ∈ retain _ _ |- _ => apply retain_elem in H as [? ?] end;
    match goal with H : _ ∈ iter_order _ |- _ => apply elem_of_iter_order in H end;
    (eexists; split; [done|]; intros; simpl in *; try lia; by apply String.eqb_eq).
  all: assert (c ∈ D) by (apply elem_of_dom; by eexists);
    split; [by apply delete_route_ok|split; [by right; eexists|split; [|intros _]]];
    [simpl; rewrite lookup_delete_ne; [done|congruence]
    |simpl; rewrite dom_delete_L; by apply within_capacity_evict].
Qed.

Lemma ensure_key_spec registry key now registry' room :
  registry_health_ok registry ->
  ensure_key_capacity registry key now = (registry', room) ->
  registry_health_ok registry' /\ evicts_keys registry registry' /\
  rh_keys registry' !! key = rh_keys registry !! key /\
  (room = true ->
   within_capacity kk_upstream_id (rh_route_capacity registry) (rh_per_upstream_capacity registry)
     ({[key]} ∪ dom (rh_keys registry'))).
Proof.
  intros Hok. pose proof (ok_keys_capacity _ Hok) as Hcap. unfold ensure_key_capacity.
  destruct (rh_keys registry !! key) as [s|] eqn:Hl; simpl.
  { intros. simplify_eq. split_and!; [done|by left|done|]. intros _.
    by erewrite add_present by done. }
  rewrite count_upstream_dom, <- size_dom. set (D := dom (rh_keys registry)) in *.
  destruct (_ <=? Z.of_nat (size D)) eqn:Eg, (_ <=? Z.of_nat (size (upstream_part _ _ D))) eqn:Eu;
    simpl; intros Hens.
  4: { simplify_eq. split_and!; [done|by left|done|]. intros _.
       subst D. apply within_capacity_room; [done|lia..]. }
  all: match type of Hens with (match ?x with _ => _ end) = _ => destruct x as [[c sc]|] eqn:Hc end;
    simplify_eq; [|by split_and!; [done|by left|done|]].
  all: assert (exists sc', rh_keys registry !! c = Some sc' /\
         (rh_per_upstream_capacity registry <= Z.of_nat (size (upstream_part kk_upstream_id (kk_upstream_id key) D)) ->
          kk_upstream_id c = kk_upstream_id key)) as (sc' & Hin & Hsame).
  1,3,5: apply min_by_elem in Hc;
    repeat match goal with H : _ ∈ retain _ _ |- _ => apply retain_elem in H as [? ?] end;
    match goal with H : _ ∈ iter_order _ |- _ => apply elem_of_iter_order in H end;
    (eexists; split; [done|]; intros; simpl in *; try lia; by apply String.eqb_eq).
  all: assert (c ∈ D) by (apply elem_of_dom; by eexists);
    split; [by apply delete_key_ok|split; [by right; eexists|split; [|intros _]]];
    [simpl; rewrite lookup_delete_ne; [done|congruence]
    |simpl; rewrite dom_delete_L; by apply within_capacity_evict].
Qed.

Lemma fail_route_ok registry route class ra status now rep shared state :
  registry_health_ok registry -> health_state_ok state ->
  health_state_ok (fail_route sha256 registry route class ra status now rep shared state).
Proof.
  intros Hok Hs. pose proof (ok_max_step _ Hok).
  pose proof (failure_step_range state class now rep (rh_transient_route_cooldown_max_step registry)
    (shared && is_shared_host_domain_class class) Hs ltac:(unfold u32_max; lia)).
  pose proof (wrapping_succ_nonzero_range (hs_state_generation state)).
  split; simpl; try done; lia.
Qed.

Lemma fail_key_ok registry key class ra now state :
  registry_health_ok registry -> health_state_ok state ->
  health_state_ok (fail_key sha256 registry key class ra now state).
Proof.
  intros Hok Hs. pose proof (ok_max_step _ Hok).
  pose proof (failure_step_range state class now false
    (rh_transient_route_cooldown_max_step registry) false Hs ltac:(unfold u32_max; lia)).
  split; simpl; try done; [lia|by destruct Hs].
Qed.

Lemma count_skipped_ok registry id :
  registry_health_ok registry -> registry_health_ok (count_skipped registry id).
Proof. by intros []. Qed.

Lemma entry_ok `{Countable K} (m : gmap K HealthState) k now :
  map_Forall (fun _ state => health_state_ok state) m ->
  health_state_ok (default (HealthState_new now) (m !! k)).
Proof.
  intros Hm. destruct (m !! k) eqn:Hl; simpl; [by eapply Hm|]. apply HealthState_new_ok.
Qed.

(** The shape of every observation of a route failure: room is made, then one
    entry is rewritten. *)
Lemma put_after_room_ok registry route now r1 room f :
  registry_health_ok registry ->
  ensure_route_capacity registry route now = (r1, room) ->
  (forall state, health_state_ok state -> health_state_ok (f state)) ->
  registry_health_ok
    (if negb room then r1
     else put_route r1 route (f (default (HealthState_new now) (rh_routes r1 !! route)))).
Proof.
  intros Hok Hens Hf. destruct (ensure_route_spec _ _ _ _ _ Hok Hens) as (Hok1 & Hev & _ & Hroom).
  destruct room; simpl; [|done]. apply put_route_ok; [by apply Hf, entry_ok, ok_routes|done|].
  destruct Hev as [->|[c ->]]; by apply Hroom.
Qed.

Lemma put_key_after_room_ok registry key now r1 room f :
  registry_health_ok registry ->
  ensure_key_capacity registry key now = (r1, room) ->
  (forall state, health_state_ok state -> health_state_ok (f state)) ->
  registry_health_ok
    (if negb room then r1
     else put_key r1 key (f (default (HealthState_new now) (rh_keys r1 !! key)))).
Proof.
  intros Hok Hens Hf. destruct (ensure_key_spec _ _ _ _ _ Hok Hens) as (Hok1 & Hev & _ & Hroom).
  destruct room; simpl; [|done]. apply put_key_ok; [by apply Hf, entry_ok, ok_keys|done|].
  destruct Hev as [->|[c ->]]; by apply Hroom.
Qed.

Lemma observe_route_ok registry route class ra status now rep sole cap shared :
  registry_health_ok registry ->
  registry_health_ok
    (observe_route_failure_at sha256 registry route class ra status now rep sole cap shared).
Proof.
  intros Hok. unfold observe_route_failure_at.
  case_match; [by apply update_route_ok; [auto with gateway|]|].
  case_match.
  - unfold observe_capacity_route_failure_at.
    destruct (ensure_route_capacity registry route now) as [r1 room] eqn:Hens.
    pose proof (put_after_room_ok _ _ _ _ _ (fun state =>
      {| state with hs_last_failure_class := Some class; hs_last_failure_status := status;
                    hs_last_failure_at := Some now; hs_last_access := now |}) Hok Hens) as Hput.
    destruct room; simpl in *; [|by apply Hput; intros s []].
    apply (count_skipped_ok (put_route r1 route _)). apply Hput. intros s []. by split.
  - destruct (ensure_route_capacity registry route now) as [r1 room] eqn:Hens.
    destruct (ensure_route_spec _ _ _ _ _ Hok Hens) as (Hok1 & _).
    eapply (put_after_room_ok registry); [done..|]. intros. by apply fail_route_ok.
Qed.

Lemma observe_key_ok registry key class ra now :
  registry_health_ok registry ->
  registry_health_ok (observe_key_failure_at sha256 registry key class ra now).
Proof.
  intros Hok. unfold observe_key_failure_at.
  case_match; [by apply update_key_ok; [auto with gateway|]|].
  case_match.
  - unfold observe_capacity_key_failure_at.
    destruct (ensure_key_capacity registry key now) as [r1 room] eqn:Hens.
    pose proof (put_key_after_room_ok _ _ _ _ _ (fun state =>
      {| state with hs_last_failure_class := Some class;
                    hs_last_failure_at := Some now; hs_last_access := now |}) Hok Hens) as Hput.
    destruct room; simpl in *; [|by apply Hput; intros s []].
    apply (count_skipped_ok (put_key r1 key _)). apply Hput. intros s []. by split.
  - destruct (ensure_key_capacity registry key now) as [r1 room] eqn:Hens.
    destruct (ensure_key_spec _ _ _ _ _ Hok Hens) as (Hok1 & _).
    eapply (put_key_after_room_ok registry); [done..|]. intros. by apply fail_key_ok.
Qed.

Lemma reapply_ok registry lease now :
  registry_health_ok registry ->
  registry_health_ok (reapply_concurrency_probe_delay registry lease now).1.
Proof.
  intros Hok. unfold reapply_concurrency_probe_delay.
  destruct (rh_routes registry !! hl_route lease) as [s|] eqn:Hl; simpl; [|done].
  destruct (holds_concurrency_probe lease s) eqn:Hh; simpl; [|done].
  eapply put_route_present_ok; [done| |done].
  unfold holds_concurrency_probe in Hh. bool_prop.
  pose proof (ok_routes _ Hok _ _ Hl) as []. split; simpl; try done. congruence.
Qed.

Lemma finish_ok registry lease outcome now :
  registry_health_ok registry -> registry_health_ok (finish sha256 registry lease outcome now).
Proof.
  intros Hok.
  assert (forall r k g, registry_health_ok r -> registry_health_ok (release_key_lease r k g now))
    as Hrk by (intros; apply update_key_ok; auto with gateway).
  assert (forall r k g, registry_health_ok r -> registry_health_ok (release_route_lease r k g now))
    as Hrr by (intros; apply update_route_ok; auto with gateway).
  destruct outcome; simpl;
    try (by apply observe_route_ok, Hrk); try (by apply observe_key_ok, Hrr).
  - assert (registry_health_ok (clear_route_for_success registry lease now)).
    { apply update_route_ok; [|done]. intros s Hs. case_match; auto with gateway. }
    case_match; [|by apply Hrk]. apply update_key_ok; auto with gateway.
  - pose proof (reapply_ok _ lease now (Hrk registry (hl_key lease) (hl_key_generation lease) Hok)).
    destruct (reapply_concurrency_probe_delay _ _ _) as [r []]; [done|]. by apply observe_route_ok.
  - pose proof (reapply_ok _ lease now Hok).
    destruct (reapply_concurrency_probe_delay _ _ _) as [r []]; auto.
Qed.

Lemma observe_route_set_ok registry aggregate class ra now :
  registry_health_ok registry ->
  registry_health_ok (observe_route_set_failure registry aggregate class ra now).
Proof.
  intros Hok. unfold observe_route_set_failure.
  assert (forall m : gmap RouteSetAggregateKey AggregateState,
    Z.of_nat (size m) <= rh_route_capacity registry ->
    registry_health_ok {| registry with rh_aggregates := m |}) as Hput by (by destruct Hok).
  pose proof (ok_aggregates_capacity _ Hok).
  destruct ((_ <=? _) && _) eqn:Hfull.
  - destruct (min_by _ _) as [[c s]|] eqn:Hc; simpl; [|done].
    apply min_by_elem, elem_of_iter_order in Hc. apply Hput.
    pose proof (size_insert_le (delete c (rh_aggregates registry)) aggregate
      (fail_aggregate class ra now
         (default (AggregateState_new now) (delete c (rh_aggregates registry) !! aggregate)))).
    rewrite map_size_delete_Some in * by (by eexists).
    assert (size (rh_aggregates registry) <> 0)%nat; [|lia].
    intros Hz%map_size_empty_inv. by rewrite Hz in Hc.
  - simpl. apply Hput. apply andb_false_iff in Hfull as [Hlt|Hin].
    + pose proof (size_insert_le (rh_aggregates registry) aggregate (fail_aggregate class ra now
        (default (AggregateState_new now) (rh_aggregates registry !! aggregate)))). lia.
    + rewrite map_size_insert. by destruct (rh_aggregates registry !! aggregate).
Qed.

Lemma remove_cleared_ok registry route key :
  registry_health_ok registry ->
  registry_health_ok (remove_cleared_route_and_key registry route key).
Proof.
  intros. unfold remove_cleared_route_and_key.
  do 2 case_match; auto using delete_route_ok, delete_key_ok.
Qed.

Lemma retain_ok registry f g h now :
  registry_health_ok registry -> registry_health_ok (retain_routes registry f g h now).
Proof.
  intros []. split; simpl; try done; try by apply map_Forall_filter_1.
  - eapply within_capacity_subset; [|done]. apply dom_filter_subseteq.
  - eapply within_capacity_subset; [|done]. apply dom_filter_subseteq.
  - etransitivity; [|done]. apply inj_le. apply map_size_filter.
Qed.

Lemma shorten_half_open_ok a b state :
  health_state_ok state -> health_state_ok (shorten_half_open a b state).
Proof.
  intros []. unfold shorten_half_open, cap_deadline, is_some_and.
  split; simpl; repeat case_match; done.
Qed.

Lemma shorten_route_ok a b c state :
  health_state_ok state -> health_state_ok (shorten_route a b c state).
Proof.
  intros Hs. unfold shorten_route. apply shorten_half_open_ok. case_bool_decide as Hc; [|done].
  destruct Hs. split; simpl; try done. congruence.
Qed.

Lemma update_tuning_ok registry tuning now registry' :
  tuning_in_range tuning -> registry_health_ok registry ->
  update_runtime_tuning registry tuning now = Some registry' -> registry_health_ok registry'.
Proof.
  intros (Hd & Hb & Hm & Hc & Hw) [] Ht. unfold update_runtime_tuning in Ht.
  repeat (apply bind_Some in Ht as (? & _ & Ht)). apply (inj Some) in Ht as <-.
  split; simpl; try (by rewrite dom_fmap_L); try done;
    try (unfold clamp, from_secs, from_millis, duration_max, u64_max in *; lia).
  - by apply normalize_ok.
  - apply map_Forall_fmap_1; [|done]. intros. by apply shorten_route_ok.
  - apply map_Forall_fmap_1; [|done]. intros. by apply shorten_half_open_ok.
Qed.

Lemma run_health_Some registry ev now registry' :
  run_health sha256 registry ev now = Some registry' ->
  run_health_step sha256 registry ev now = Some registry' /\ on_clock registry' = true.
Proof.
  unfold run_health. intros (r & Hr & Hc)%bind_Some. destruct (on_clock r) eqn:?; [|done]. by simplify_eq.
Qed.

Lemma run_step_health_ok registry ev now registry' :
  event_in_range ev -> registry_health_ok registry ->
  run_health_step sha256 registry ev now = Some registry' -> registry_health_ok registry'.
Proof.
  intros Hr Hok. destruct ev; simpl; intros Hrun; try (apply (inj Some) in Hrun; subst registry').
  - destruct (reserve_ok registry route key now Hok) as (r & a & Heq & Hr').
    rewrite Heq in Hrun. by simplify_eq/=.
  - apply fmap_Some in Hrun as ([r a] & Hp & ->). by eapply probe_ok.
  - destruct permit as [[lease|route key]|]; simpl; [by apply finish_ok| |done].
    destruct outcome; try done; first [by apply observe_route_ok | by apply observe_key_ok].
  - destruct permit as [[lease|route key]|]; simpl; [|done..].
    by apply remove_cleared_ok, (finish_ok registry lease Success).
  - destruct permit as [[lease|route key]|]; simpl; [|done..].
    by apply (finish_ok registry lease OutcomeCancelled).
  - by apply observe_route_ok.
  - by apply observe_key_ok.
  - by apply observe_route_set_ok.
  - apply update_route_ok; auto with gateway.
  - by apply retain_ok.
  - by eapply update_tuning_ok.
  - by destruct Hok.
Qed.

Lemma run_health_ok registry ev now registry' :
  event_in_range ev -> registry_health_ok registry ->
  run_health sha256 registry ev now = Some registry' -> registry_health_ok registry'.
Proof. intros Hr Hok [Hrun _]%run_health_Some. by eapply run_step_health_ok. Qed.

Lemma health_reachable_ok registry : health_reachable sha256 registry -> registry_health_ok registry.
Proof. induction 1; [by apply new_ok | by eapply run_health_ok]. Qed.

Lemma health_reachable_on_clock registry : health_reachable sha256 registry -> on_clock registry = true.
Proof. induction 1; [done|]. by apply run_health_Some in H1 as [_ ?]. Qed.

(** Apart from the clock, only the early probe panics. *)
Lemma run_step_total registry ev now :
  registry_health_ok registry -> (forall route key, ev <> EvProbe route key) -> health_in_time registry ev now ->
  exists registry', run_health_step sha256 registry ev now = Some registry'.
Proof.
  intros Hok Hnot (_ & _ & _ & _ & Htune).
  destruct ev as [route key| |permit outcome|permit|permit| | | | | |tuning|]; try (by eexists).
  - destruct (reserve_ok registry route key now Hok) as (r & a & Heq & Hr). exists r. simpl. by rewrite Heq.
  - naive_solver.
  - destruct Htune as (? & ? & ?). simpl. unfold update_runtime_tuning. rewrite !instant_add_fits by done. by eexists.
Qed.

(** ** What an event does to the entry of a route *)

(** Making room leaves an entry alone or evicts it; it never evicts the entry
    asked for nor one with a live half-open lease. *)
Lemma ensure_route_lookup registry route now route' :
  let registry' := (ensure_route_capacity registry route now).1 in
  rh_routes registry' !! route' = rh_routes registry !! route' \/
  (rh_routes registry' !! route' = None /\ route' <> route /\
   exists s, rh_routes registry !! route' = Some s /\ health_is_active s now = false).
Proof.
  unfold ensure_route_capacity.
  destruct (rh_routes registry !! route) as [s|] eqn:Hl; simpl; [by left|].
  case_match; simpl; [|by left].
  destruct (or_else _ _) as [[c sc]|] eqn:Hc; simpl; [|by left].
  assert (rh_routes registry !! c = Some sc /\ health_is_active sc now = false) as [Hin Hact].
  { unfold or_else in Hc; case_match; simplify_eq;
      match goal with H : min_by _ _ = Some _ |- _ => apply min_by_elem in H end;
      repeat match goal with H : _ ∈ retain _ _ |- _ => apply retain_elem in H as [? ?] end;
      match goal with H : _ ∈ iter_order _ |- _ => apply elem_of_iter_order in H end;
      by bool_prop. }
  destruct (decide (c = route')) as [<-|Hne].
  - right. rewrite lookup_delete_eq. split_and!; [done|congruence|by eexists].
  - left. by rewrite lookup_delete_ne.
Qed.

Lemma ensure_route_self registry route now :
  rh_routes (ensure_route_capacity registry route now).1 !! route = rh_routes registry !! route.
Proof. by destruct (ensure_route_lookup registry route now route) as [?|(_ & ? & _)]. Qed.

Lemma ensure_route_frame registry route now :
  let registry' := (ensure_route_capacity registry route now).1 in
  rh_enforcement_enabled registry' = rh_enforcement_enabled registry /\
  rh_keys registry' = rh_keys registry /\
  rh_half_open_ttl registry' = rh_half_open_ttl registry /\
  rh_half_open_exclusive_window registry' = rh_half_open_exclusive_window registry.
Proof.
  unfold ensure_route_capacity.
  destruct (is_some _); [done|]. case_match; [|done].
  by destruct (or_else _ _) as [[c sc]|].
Qed.

(** The observation of a failure of another route. *)
Lemma observe_other_lookup registry route route' class ra status now rep sole cap shared :
  route' <> route ->
  let registry' :=
    observe_route_failure_at sha256 registry route class ra status now rep sole cap shared in
  rh_routes registry' !! route' = rh_routes registry !! route' \/
  (exists s, rh_routes registry !! route' = Some s /\ health_is_active s now = false).
Proof.
  intros Hne. unfold observe_route_failure_at. case_match; simpl.
  { left. by rewrite lookup_alter_ne. }
  pose proof (ensure_route_lookup registry route now route') as Hens.
  case_match; [unfold observe_capacity_route_failure_at|];
    destruct (ensure_route_capacity registry route now) as [r1 []]; simpl in *;
    rewrite ?lookup_insert_ne by done; destruct Hens as [?|(_ & _ & ?)]; auto.
Qed.

Lemma observe_key_routes registry key class ra now :
  rh_routes (observe_key_failure_at sha256 registry key class ra now) = rh_routes registry.
Proof.
  unfold observe_key_failure_at. case_match; [done|].
  assert (rh_routes (ensure_key_capacity registry key now).1 = rh_routes registry) as Hens.
  { unfold ensure_key_capacity. destruct (is_some _); [done|]. case_match; [done|].
    by destruct (min_by _ _) as [[c sc]|]. }
  case_match; [unfold observe_capacity_key_failure_at|];
    by destruct (ensure_key_capacity registry key now) as [r1 []].
Qed.

(** The half-open lease of an entry. *)
Definition route_leased (registry : RouteHealthRegistry) (route : RouteHealthKey)
    (generation : Z) (expires exclusive : Instant) : Prop :=
  exists state, rh_routes registry !! route = Some state /\
    hs_half_open_generation state = Some generation /\
    hs_half_open_expires_at state = Some expires /\
    hs_half_open_exclusive_until state = Some exclusive.

(** The lease of a permit, if it is live, is for another route. *)
Definition permit_elsewhere (route : RouteHealthKey) (permit : option RouteHealthPermit) : Prop :=
  permit_route permit <> Some route.

(** The events of everybody but the holder: admissions and early probes of any
    route, settlements and observations of other routes, observations of keys,
    retention. *)
Definition bystander_event (route : RouteHealthKey) (ev : health_event) : Prop :=
  match ev with
  | EvReserve _ _ | EvProbe _ _ | EvObserveKey _ _ _ | EvObserveRouteSet _ _ _ | EvRetain _ _ _ =>
      True
  | EvFinish permit _ | EvSettle permit | EvDrop permit => permit_elsewhere route permit
  | EvObserveRoute route' _ _ _ | EvClearRoute route' => route' <> route
  | EvTune _ | EvSetEnforcement _ => False
  end.

Lemma route_leased_same registry registry' route g e x :
  rh_routes registry' !! route = rh_routes registry !! route ->
  route_leased registry route g e x -> route_leased registry' route g e x.
Proof. intros Heq (s & Hl & Hs). exists s. by rewrite Heq. Qed.

Lemma route_leased_active registry route g e x state now :
  route_leased registry route g e x -> rh_routes registry !! route = Some state -> now < e ->
  health_is_active state now = true.
Proof.
  intros (s & Hl & Hg & He & _) Hl' Hlt. simplify_eq.
  unfold health_is_active. rewrite Hg, He. simpl. lia.
Qed.

Lemma observe_other_leased registry route route' class ra status now rep sole cap shared g e x :
  route' <> route -> now < e -> route_leased registry route' g e x ->
  route_leased
    (observe_route_failure_at sha256 registry route class ra status now rep sole cap shared)
    route' g e x.
Proof.
  intros Hne Hlt Hl.
  destruct (observe_other_lookup registry route route' class ra status now rep sole cap shared Hne)
    as [Heq|(s & Hs & Hact)]; [by eapply route_leased_same|].
  rewrite (route_leased_active _ _ _ _ _ _ _ Hl Hs Hlt) in Hact. done.
Qed.

Lemma gate_leased state now s' refusal g e x :
  hs_half_open_generation state = Some g -> hs_half_open_expires_at state = Some e ->
  hs_half_open_exclusive_until state = Some x -> now < e ->
  reserve_gate state now = Some (s', refusal) ->
  s' = touch state now /\ (now < x -> refusal <> None).
Proof.
  intros Hg He Hx Hlt. unfold reserve_gate. simpl. rewrite Hg, He, Hx. simpl.
  destruct (health_is_cooling (touch state now) now).
  { intros Hb. apply bind_Some in Hb as (c & _ & Hb). by simplify_eq. }
  destruct (e <=? now) eqn:E; [lia|]. destruct (now <? x) eqn:Ex.
  - intros Hb. apply bind_Some in Hb as (c & _ & Hb). by simplify_eq.
  - intros. simplify_eq. split; [done|lia].
Qed.

Lemma touch_leased registry route g e x now state :
  rh_routes registry !! route = Some state ->
  route_leased registry route g e x ->
  route_leased (put_route registry route (touch state now)) route g e x.
Proof.
  intros Hs (s & Hl & Hg). exists (touch s now). simpl. rewrite lookup_insert_eq. by simplify_eq.
Qed.

Lemma gate_key_frame gate registry key now r refusal :
  gate_key gate registry key now = Some (r, refusal) ->
  rh_routes r = rh_routes registry /\ rh_enforcement_enabled r = rh_enforcement_enabled registry /\
  rh_half_open_ttl r = rh_half_open_ttl registry.
Proof.
  unfold gate_key. case_match; [|by intros; simplify_eq].
  intros Hb. apply bind_Some in Hb as ([s f] & _ & Hb). by simplify_eq.
Qed.

Lemma reserve_expired_key_frame registry key now :
  let r := (reserve_expired_half_open_key registry key now).1 in
  rh_routes r = rh_routes registry /\ rh_enforcement_enabled r = rh_enforcement_enabled registry.
Proof. unfold reserve_expired_half_open_key. by destruct (is_some_and _ _). Qed.

Lemma update_other_leased registry route route' f g e x :
  route' <> route -> route_leased registry route g e x ->
  route_leased (update_route registry route' f) route g e x.
Proof. intros. eapply route_leased_same; [|done]. simpl. by rewrite lookup_alter_ne. Qed.

Lemma touch_routes_leased registry route route' g e x now :
  route_leased registry route g e x ->
  route_leased (update_route registry route' (fun state => touch state now)) route g e x.
Proof.
  intros (s & Hl & Hg). destruct (decide (route' = route)) as [->|Hne].
  - exists (touch s now). simpl. by rewrite lookup_alter_eq, Hl.
  - apply update_other_leased; [done|]. by exists s.
Qed.

Lemma cannot_reserve_leased state now g e :
  hs_half_open_generation state = Some g -> hs_half_open_expires_at state = Some e -> now < e ->
  can_reserve_half_open state now = false.
Proof.
  intros Hg He Hlt. unfold can_reserve_half_open. rewrite Hg, He. simpl.
  replace (e <=? now) with false by lia. by rewrite andb_false_r.
Qed.

Lemma gate_route_leased registry route route' now r refusal g e x :
  now < e -> route_leased registry route g e x ->
  gate_route registry route' now = Some (r, refusal) ->
  route_leased r route g e x /\ rh_enforcement_enabled r = rh_enforcement_enabled registry /\
  (route' = route -> now < x -> refusal <> None).
Proof.
  intros Hlt Hl. unfold gate_route. destruct (rh_routes registry !! route') as [s|] eqn:Hs.
  - intros Hb. apply bind_Some in Hb as ([s' f] & Hgate & Hb). simplify_eq.
    destruct (decide (route' = route)) as [->|Hne].
    + pose proof Hl as (s0 & Hs0 & Hg & He & Hx). simplify_eq.
      destruct (gate_leased _ _ _ _ _ _ _ Hg He Hx Hlt Hgate) as [-> Href].
      split_and!; [by apply touch_leased|done|done].
    + split_and!; [|done|done]. eapply route_leased_same; [|done]. simpl.
      by rewrite lookup_insert_ne.
  - intros. simplify_eq. split_and!; [done|done|]. intros ->. destruct Hl as (s & Hs' & _). congruence.
Qed.

(** A refusal is never a lease. *)
Lemma reserve_gate_refusal state now s refused lease :
  reserve_gate state now = Some (s, Some refused) -> refused <> Ready lease.
Proof.
  unfold reserve_gate. repeat case_match; intros Hg; try done;
    apply bind_Some in Hg as (c & _ & Hg); by simplify_eq.
Qed.

Lemma probe_key_gate_refusal state now s refused lease :
  probe_key_gate state now = Some (s, Some refused) -> refused <> Ready lease.
Proof.
  unfold probe_key_gate. repeat case_match; intros Hg; try done;
    apply bind_Some in Hg as (c & _ & Hg); by simplify_eq.
Qed.

Lemma gate_key_refusal gate registry key now r refused lease :
  (forall state s, gate state now = Some (s, Some refused) -> refused <> Ready lease) ->
  gate_key gate registry key now = Some (r, Some refused) -> refused <> Ready lease.
Proof.
  intros Hgate. unfold gate_key. destruct (rh_keys registry !! key) as [s|]; [|done].
  intros Hb. apply bind_Some in Hb as ([s' f] & Hg & Hb). simplify_eq. by eapply Hgate.
Qed.

Lemma gate_route_refusal registry route now r refused lease :
  gate_route registry route now = Some (r, Some refused) -> refused <> Ready lease.
Proof.
  unfold gate_route. destruct (rh_routes registry !! route) as [s|]; [|done].
  intros Hb. apply bind_Some in Hb as ([s' f] & Hg & Hb). simplify_eq.
  by eapply reserve_gate_refusal.
Qed.

Lemma reserve_leased registry route route' key now r a g e x :
  rh_enforcement_enabled registry = true ->
  now < e -> route_leased registry route g e x -> reserve registry route' key now = Some (r, a) ->
  route_leased r route g e x /\ rh_enforcement_enabled r = true /\
  (route' = route -> forall lease, a = Ready lease -> x <= now /\ hl_route_generation lease = None).
Proof.
  intros Hen Hlt Hl. unfold reserve. rewrite Hen. simpl. intros Hb.
  apply bind_Some in Hb as ([r1 f1] & Hk & Hb).
  destruct (gate_key_frame _ _ _ _ _ _ Hk) as (Hr1 & He1 & _).
  assert (route_leased r1 route g e x) as Hl1
    by (eapply route_leased_same; [|done]; by rewrite Hr1).
  destruct f1 as [refused|].
  { simplify_eq. split_and!; [done|congruence|]. intros _ lease ->. exfalso.
    eapply gate_key_refusal; [intros; by eapply reserve_gate_refusal|done|done]. }
  apply bind_Some in Hb as ([r2 f2] & Hrt & Hb).
  destruct (gate_route_leased _ _ _ _ _ _ _ _ _ Hlt Hl1 Hrt) as (Hl2 & He2 & Hx2).
  destruct f2 as [refused|].
  { simplify_eq. split_and!; [done|congruence|]. intros _ lease ->. exfalso.
    by eapply gate_route_refusal. }
  pose proof (reserve_expired_key_frame r2 key now) as [Hr3 He3].
  destruct (reserve_expired_half_open_key r2 key now) as [r3 g3]. simpl in *.
  assert (route_leased r3 route g e x) as Hl3
    by (eapply route_leased_same; [|done]; by rewrite Hr3).
  unfold reserve_expired_half_open_route in Hb.
  destruct (decide (route' = route)) as [->|Hne].
  - pose proof Hl3 as (s & Hs & Hg & He & _). rewrite Hs in Hb. simpl in Hb.
    rewrite (cannot_reserve_leased _ _ _ _ Hg He Hlt) in Hb. simplify_eq.
    split_and!; [done|congruence|]. intros _ lease Hlease. simplify_eq. split; [|done].
    destruct (Z.lt_ge_cases now x) as [Hltx|]; [|done]. by destruct (Hx2 eq_refl Hltx).
  - destruct (is_some_and _ _); simpl in Hb; simplify_eq.
    + split_and!; [by apply update_other_leased|simpl; congruence|done].
    + split_and!; [done|congruence|done].
Qed.

Lemma probe_leased registry route route' key now r a g e x :
  rh_enforcement_enabled registry = true ->
  now < e -> route_leased registry route g e x ->
  reserve_route_health_probe registry route' key now = Some (r, a) ->
  route_leased r route g e x /\ rh_enforcement_enabled r = true /\
  (route' = route -> forall lease, a <> Ready lease).
Proof.
  intros Hen Hlt Hl. unfold reserve_route_health_probe. rewrite Hen. simpl. intros Hb.
  apply bind_Some in Hb as ([r1 f1] & Hk & Hb).
  destruct (gate_key_frame _ _ _ _ _ _ Hk) as (Hr1 & He1 & _).
  assert (route_leased r1 route g e x) as Hl1
    by (eapply route_leased_same; [|done]; by rewrite Hr1).
  destruct f1 as [refused|].
  { simplify_eq. split_and!; [done|congruence|]. intros _ lease ->. exfalso.
    eapply gate_key_refusal; [intros; by eapply probe_key_gate_refusal|done|done]. }
  destruct (rh_routes r1 !! route') as [s|] eqn:Hs;
    [|by simplify_eq; split_and!; [|congruence|]].
  apply bind_Some in Hb as (c & Hc & Hb).
  destruct (decide (route' = route)) as [->|Hne].
  - pose proof (route_leased_active _ _ _ _ _ _ _ Hl1 Hs Hlt) as Ha.
    change (health_is_active (touch s now) now) with (health_is_active s now) in Hb.
    rewrite Ha in Hb. simplify_eq. split_and!; [by apply touch_leased|simpl; congruence|done].
  - assert (route_leased (put_route r1 route' (touch s now)) route g e x) as Hl2
      by (eapply route_leased_same; [|done]; simpl; by rewrite lookup_insert_ne).
    repeat (case_match; [by simplify_eq; split_and!; [|simpl; congruence|]|]).
    pose proof (reserve_expired_key_frame (put_route r1 route' (touch s now)) key now) as [Hr3 He3].
    destruct (reserve_expired_half_open_key _ key now) as [r3 g3]. simpl in *. simplify_eq.
    split_and!; [|simpl; congruence|done]. apply update_other_leased; [done|].
    eapply route_leased_same; [|exact Hl2]. simpl. by rewrite Hr3.
Qed.

Lemma release_key_routes registry key generation now :
  rh_routes (release_key_lease registry key generation now) = rh_routes registry.
Proof. done. Qed.

Lemma reapply_other_routes registry lease now route :
  hl_route lease <> route ->
  rh_routes (reapply_concurrency_probe_delay registry lease now).1 !! route =
  rh_routes registry !! route.
Proof.
  intros Hne. unfold reapply_concurrency_probe_delay. case_match; simpl; [|done].
  by rewrite lookup_insert_ne.
Qed.

Lemma finish_elsewhere registry lease outcome now route g e x :
  hl_route lease <> route -> now < e -> route_leased registry route g e x ->
  route_leased (finish sha256 registry lease outcome now) route g e x.
Proof.
  intros Hne Hlt Hl.
  assert (forall k i, route_leased (release_key_lease registry k i now) route g e x) as Hrk
    by (intros; by eapply route_leased_same).
  assert (forall i, route_leased (release_route_lease registry (hl_route lease) i now) route g e x)
    as Hrr by (intros; by apply update_other_leased).
  destruct outcome; simpl;
    try (by apply observe_other_leased);
    try (by eapply route_leased_same; [by rewrite observe_key_routes|]).
  - assert (route_leased (clear_route_for_success registry lease now) route g e x)
      by (by apply update_other_leased).
    case_match; by eapply route_leased_same.
  - pose proof (reapply_other_routes
      (release_key_lease registry (hl_key lease) (hl_key_generation lease) now) lease now route Hne)
      as Hre.
    destruct (reapply_concurrency_probe_delay _ _ _) as [r []]; simpl in Hre.
    + by eapply route_leased_same.
    + apply observe_other_leased; [done..|]. by eapply route_leased_same.
  - pose proof (reapply_other_routes registry lease now route Hne) as Hre.
    destruct (reapply_concurrency_probe_delay _ _ _) as [r []]; simpl in Hre.
    + by eapply route_leased_same.
    + eapply (route_leased_same r); [|by eapply route_leased_same].
      simpl. by rewrite lookup_alter_ne.
Qed.

Lemma remove_cleared_other registry route key route' :
  route <> route' ->
  rh_routes (remove_cleared_route_and_key registry route key) !! route' =
  rh_routes registry !! route'.
Proof.
  intros Hne. unfold remove_cleared_route_and_key. repeat case_match; simpl; try done;
    by rewrite lookup_delete_ne.
Qed.

Lemma observe_route_set_routes registry aggregate class ra now :
  rh_routes (observe_route_set_failure registry aggregate class ra now) = rh_routes registry.
Proof. unfold observe_route_set_failure. by repeat case_match. Qed.

(** No bystander changes a live lease. *)
Lemma bystander_leased registry ev now registry' route g e x :
  bystander_event route ev -> rh_enforcement_enabled registry = true ->
  now < e -> route_leased registry route g e x ->
  run_health sha256 registry ev now = Some registry' -> route_leased registry' route g e x.
Proof.
  intros Hev Hen Hlt Hl [Hrun _]%run_health_Some. revert Hrun. destruct ev; simpl in *; intros Hrun;
    try (apply (inj Some) in Hrun; subst registry'); try done.
  - apply fmap_Some in Hrun as ([r a] & Hr & ->). by eapply reserve_leased.
  - apply fmap_Some in Hrun as ([r a] & Hr & ->). by eapply probe_leased.
  - destruct permit as [[lease|r k]|]; simpl in *; [apply finish_elsewhere; naive_solver| |done].
    destruct outcome; try done;
      try (apply observe_other_leased; unfold permit_elsewhere in *; simpl in *; naive_solver);
      by eapply route_leased_same; [by rewrite observe_key_routes|].
  - destruct permit as [[lease|r k]|]; simpl in *; [|done..].
    assert (hl_route lease <> route) by (intros <-; by apply Hev).
    eapply route_leased_same; [by rewrite remove_cleared_other|].
    by apply (finish_elsewhere registry lease Success).
  - destruct permit as [[lease|r k]|]; simpl in *; [|done..].
    apply (finish_elsewhere registry lease OutcomeCancelled); [|done..]. intros <-. by apply Hev.
  - by apply observe_other_leased.
  - by eapply route_leased_same; [by rewrite observe_key_routes|].
  - by eapply route_leased_same; [by rewrite observe_route_set_routes|].
  - by apply update_other_leased.
  - pose proof Hl as (s & Hs & Hrest). exists s. split; [|done].
    simpl. apply map_lookup_filter_Some. split; [done|]. simpl.
    rewrite (route_leased_active _ _ _ _ _ _ _ Hl Hs Hlt). by rewrite orb_true_r.
Qed.

Lemma observe_route_enforcement registry route class ra status now rep sole cap shared :
  rh_enforcement_enabled
    (observe_route_failure_at sha256 registry route class ra status now rep sole cap shared)
  = rh_enforcement_enabled registry.
Proof.
  unfold observe_route_failure_at. case_match; [done|].
  pose proof (ensure_route_frame registry route now) as (He & _).
  case_match; [unfold observe_capacity_route_failure_at|];
    by destruct (ensure_route_capacity registry route now) as [r1 []].
Qed.

Lemma observe_key_enforcement registry key class ra now :
  rh_enforcement_enabled (observe_key_failure_at sha256 registry key class ra now)
  = rh_enforcement_enabled registry.
Proof.
  unfold observe_key_failure_at. case_match; [done|].
  assert (rh_enforcement_enabled (ensure_key_capacity registry key now).1
          = rh_enforcement_enabled registry) as Hens.
  { unfold ensure_key_capacity. destruct (is_some _); [done|]. case_match; [done|].
    by destruct (min_by _ _) as [[c sc]|]. }
  case_match; [unfold observe_capacity_key_failure_at|];
    by destruct (ensure_key_capacity registry key now) as [r1 []].
Qed.

Lemma finish_enforcement registry lease outcome now :
  rh_enforcement_enabled (finish sha256 registry lease outcome now) = rh_enforcement_enabled registry.
Proof.
  assert (forall r, rh_enforcement_enabled (reapply_concurrency_probe_delay r lease now).1
                    = rh_enforcement_enabled r) as Hre.
  { intros r. unfold reapply_concurrency_probe_delay. by case_match. }
  destruct outcome; simpl; try (by rewrite observe_route_enforcement);
    try (by rewrite observe_key_enforcement).
  - by case_match.
  - specialize (Hre (release_key_lease registry (hl_key lease) (hl_key_generation lease) now)).
    destruct (reapply_concurrency_probe_delay _ _ _) as [r []]; [done|].
    by rewrite observe_route_enforcement.
  - specialize (Hre registry). by destruct (reapply_concurrency_probe_delay _ _ _) as [r []].
Qed.

Lemma bystander_enforcement registry ev now registry' route g e x :
  bystander_event route ev -> rh_enforcement_enabled registry = true ->
  now < e -> route_leased registry route g e x ->
  run_health sha256 registry ev now = Some registry' -> rh_enforcement_enabled registry' = true.
Proof.
  intros Hev Hen Hlt Hl [Hrun _]%run_health_Some. revert Hrun. destruct ev; simpl in *; intros Hrun;
    try (apply (inj Some) in Hrun; subst registry'); try done.
  - apply fmap_Some in Hrun as ([r a] & Hr & ->). by eapply reserve_leased.
  - apply fmap_Some in Hrun as ([r a] & Hr & ->). by eapply probe_leased.
  - destruct permit as [[lease|r k]|]; simpl; [by rewrite finish_enforcement| |done].
    destruct outcome; try done; unfold observe_route_failure, observe_key_failure;
      by rewrite ?observe_route_enforcement, ?observe_key_enforcement.
  - destruct permit as [[lease|r k]|]; simpl; [|done..].
    unfold remove_cleared_route_and_key.
    pose proof (finish_enforcement registry lease Success now) as Hf. simpl in Hf.
    repeat case_match; simpl; congruence.
  - destruct permit as [[lease|r k]|]; simpl; [|done..].
    pose proof (finish_enforcement registry lease OutcomeCancelled now) as Hf. simpl in Hf.
    congruence.
  - unfold observe_route_failure. by rewrite observe_route_enforcement.
  - unfold observe_key_failure. by rewrite observe_key_enforcement.
  - unfold observe_route_set_failure. by repeat case_match.
Qed.

Fixpoint run_health_all (registry : RouteHealthRegistry) (trace : list (health_event * Instant))
    : option RouteHealthRegistry :=
  match trace with
  | [] => Some registry
  | (ev, now) :: trace =>
      registry ← run_health sha256 registry ev now; run_health_all registry trace
  end.

Lemma bystanders_leased trace registry registry' route g e x :
  Forall (fun '(ev, now) => bystander_event route ev /\ now < e) trace ->
  rh_enforcement_enabled registry = true -> route_leased registry route g e x ->
  run_health_all registry trace = Some registry' ->
  route_leased registry' route g e x /\ rh_enforcement_enabled registry' = true.
Proof.
  revert registry. induction trace as [|[ev now] trace IH]; intros r Htr Hen Hl Hrun; simpl in Hrun.
  - by simplify_eq.
  - apply Forall_cons in Htr as [[Hev Hlt] Htr]. apply bind_Some in Hrun as (r1 & Hr1 & Hrun).
    eapply IH; [done| | |done]; [by eapply bystander_enforcement | by eapply bystander_leased].
Qed.


Lemma gate_key_tuning gate registry key now r refusal :
  gate_key gate registry key now = Some (r, refusal) ->
  rh_half_open_ttl r = rh_half_open_ttl registry /\
  rh_half_open_exclusive_window r = rh_half_open_exclusive_window registry.
Proof.
  unfold gate_key. case_match; [|by intros; simplify_eq].
  intros Hb. apply bind_Some in Hb as ([s f] & _ & Hb). by simplify_eq.
Qed.

Lemma gate_route_tuning registry route now r refusal :
  gate_route registry route now = Some (r, refusal) ->
  rh_half_open_ttl r = rh_half_open_ttl registry /\
  rh_half_open_exclusive_window r = rh_half_open_exclusive_window registry /\
  rh_enforcement_enabled r = rh_enforcement_enabled registry.
Proof.
  unfold gate_route. case_match; [|by intros; simplify_eq].
  intros Hb. apply bind_Some in Hb as ([s f] & _ & Hb). by simplify_eq.
Qed.

Lemma reserve_expired_key_tuning registry key now :
  let r := (reserve_expired_half_open_key registry key now).1 in
  rh_half_open_ttl r = rh_half_open_ttl registry /\
  rh_half_open_exclusive_window r = rh_half_open_exclusive_window registry.
Proof. unfold reserve_expired_half_open_key. by destruct (is_some_and _ _). Qed.

(** A lease with a route generation is installed with it. *)
Lemma grant_leased registry route key now r lease g :
  reserve registry route key now = Some (r, Ready lease) -> hl_route_generation lease = Some g ->
  rh_enforcement_enabled registry = true /\ rh_enforcement_enabled r = true /\
  route_leased r route g (now + rh_half_open_ttl registry)
    (now + rh_half_open_exclusive_window registry).
Proof.
  unfold reserve. destruct (rh_enforcement_enabled registry) eqn:Hen; simpl.
  2: { intros Hp ?. unfold passthrough in Hp. by simplify_eq. }
  intros Hb Hg. apply bind_Some in Hb as ([r1 f1] & Hk & Hb).
  destruct (gate_key_frame _ _ _ _ _ _ Hk) as (_ & He1 & _).
  destruct (gate_key_tuning _ _ _ _ _ _ Hk) as [Ht1 Hw1].
  destruct f1 as [refused|].
  { simplify_eq. exfalso. eapply gate_key_refusal; [intros; by eapply reserve_gate_refusal|done|done]. }
  apply bind_Some in Hb as ([r2 f2] & Hrt & Hb).
  destruct (gate_route_tuning _ _ _ _ _ Hrt) as (Ht2 & Hw2 & He2).
  destruct f2 as [refused|]; [simplify_eq; exfalso; by eapply gate_route_refusal|].
  destruct (reserve_expired_key_frame r2 key now) as [Hr3 He3].
  destruct (reserve_expired_key_tuning r2 key now) as [Ht3 Hw3].
  destruct (reserve_expired_half_open_key r2 key now) as [r3 g3]. simpl in *.
  unfold reserve_expired_half_open_route in Hb.
  destruct (rh_routes r3 !! route) as [s|] eqn:Hs; simpl in Hb; [|by simplify_eq].
  destruct (can_reserve_half_open s now); simplify_eq/=. split_and!; [done|congruence|].
  exists (grant_half_open (next_generation r3).1 (wrapping_succ_nonzero (rh_next_generation r3)) now s).
  simpl. rewrite lookup_alter_eq, Hs. split_and!; [done|done|congruence..].
Qed.

(** C1. Half-open recovery is single flight. Once [reserve] has granted the
    half-open lease of a route, then whatever the other requests do meanwhile
    (admissions and early probes of any route, settlements and failures of other
    routes, failures of keys, evictions, retention), nobody is admitted to the
    route within the exclusive window, and until the lease expires nobody gets
    another lease of the route. *)
Theorem half_open_exclusive registry route key now registry1 lease generation trace registry2
    key' now' registry3 availability :
  reserve registry route key now = Some (registry1, Ready lease) ->
  hl_route_generation lease = Some generation ->
  Forall (fun '(ev, t) => bystander_event route ev /\ t < now + rh_half_open_ttl registry) trace ->
  run_health_all registry1 trace = Some registry2 ->
  now' < now + rh_half_open_ttl registry ->
  reserve registry2 route key' now' = Some (registry3, availability) ->
  (now' < now + rh_half_open_exclusive_window registry ->
   forall lease', availability <> Ready lease') /\
  (forall lease', availability = Ready lease' -> hl_route_generation lease' = None).
Proof.
  intros Hres Hg Htr Hrun Hnow Hres'.
  destruct (grant_leased _ _ _ _ _ _ _ Hres Hg) as (_ & He1 & Hl1).
  destruct (bystanders_leased _ _ _ _ _ _ _ Htr He1 Hl1 Hrun) as [Hl2 He2].
  destruct (reserve_leased _ _ _ _ _ _ _ _ _ _ He2 Hnow Hl2 Hres') as (_ & _ & Hready).
  split.
  - intros Hw lease' ->. destruct (Hready eq_refl lease' eq_refl). lia.
  - intros lease' ->. by apply (Hready eq_refl lease').
Qed.

(** What a lease knows of the route when it is granted. *)
Lemma ready_lease_state registry route key now r lease :
  reserve registry route key now = Some (r, Ready lease) ->
  hl_route lease = route /\ hl_key lease = key /\
  hl_route_state_generation lease = hs_state_generation <$> rh_routes r !! route.
Proof.
  unfold reserve. destruct (rh_enforcement_enabled registry); simpl.
  2: { unfold passthrough. intros. by simplify_eq. }
  intros Hb. apply bind_Some in Hb as ([r1 f1] & Hk & Hb).
  destruct f1 as [refused|].
  { simplify_eq. exfalso. eapply gate_key_refusal; [intros; by eapply reserve_gate_refusal|done|done]. }
  apply bind_Some in Hb as ([r2 f2] & Hrt & Hb).
  destruct f2 as [refused|]; [simplify_eq; exfalso; by eapply gate_route_refusal|].
  destruct (reserve_expired_key_frame r2 key now) as [Hr3 _].
  destruct (reserve_expired_half_open_key r2 key now) as [r3 g3]. simpl in *.
  unfold reserve_expired_half_open_route in Hb.
  destruct (is_some_and _ _); simplify_eq/=; rewrite <- Hr3; split_and!; try done.
  rewrite lookup_alter_eq. by destruct (rh_routes r3 !! route).
Qed.

Lemma wrapping_succ_neq x : 0 <= x <= u64_max -> wrapping_succ_nonzero x <> x.
Proof.
  intros Hx. destruct (decide (x = u64_max)) as [->|]; [done|].
  rewrite wrapping_succ_nonzero_small; lia.
Qed.

(** The health-class path of an observed failure. *)
Definition cools_route (registry : RouteHealthRegistry) (class : RouteFailureClass)
    (capacity_sole_route : bool) : Prop :=
  route_failure_has_cooldown class = true /\
  (is_capacity_class class = true ->
   rh_capacity_failure_cooldown_enabled registry = true /\ capacity_sole_route = false).

Lemma observe_cooling registry route class ra status now rep sole cap shared :
  cools_route registry class cap ->
  observe_route_failure_at sha256 registry route class ra status now rep sole cap shared =
  let '(r, room) := ensure_route_capacity registry route now in
  if negb room then r
  else put_route r route
    (fail_route sha256 r route class ra status now (rep || sole) shared
       (default (HealthState_new now) (rh_routes r !! route))).
Proof.
  intros [Hc Hcap]. unfold observe_route_failure_at. rewrite Hc. simpl.
  destruct (is_capacity_class class) eqn:Hk; simpl; [|done].
  destruct (Hcap eq_refl) as [-> ->]. done.
Qed.

(** A success does not clear the failure that came right after its admission. If the next
    thing that happens after a request was admitted is that a failure cools its route, the
    success of that request leaves the entry of the route as the failure made it, cooldown
    included, whether the request held the half-open lease or none. Failures that are only
    observed, and entries that were removed and made anew in between, are not covered. *)
Theorem stale_success_keeps_failure registry route key t0 registry1 lease class ra status t1
    rep sole cap shared t2 :
  registry_health_ok registry ->
  reserve registry route key t0 = Some (registry1, Ready lease) ->
  cools_route registry1 class cap ->
  let registry2 :=
    observe_route_failure_at sha256 registry1 route class ra status t1 rep sole cap shared in
  rh_routes (finish sha256 registry2 lease Success t2) !! route = rh_routes registry2 !! route.
Proof.
  intros Hok Hres Hcools registry2.
  destruct (ready_lease_state _ _ _ _ _ _ Hres) as (Hroute & _ & Hgen).
  assert (registry_health_ok registry1) as Hok1.
  { destruct (reserve_ok registry route key t0 Hok) as (r & a & Heq & Hr). by simplify_eq. }
  assert (rh_routes (finish sha256 registry2 lease Success t2) !! route =
          rh_routes (clear_route_for_success registry2 lease t2) !! route) as -> by
    (simpl; by case_match).
  simpl. rewrite Hroute, lookup_alter_eq.
  destruct (rh_routes registry2 !! route) as [s|] eqn:Hs; simpl; [|done].
  cut (success_clears lease s = false); [by intros ->|]. subst registry2.
  rewrite observe_cooling in Hs by done.
  pose proof (ensure_route_self registry1 route t1) as Hself.
  destruct (ensure_route_capacity registry1 route t1) as [r room] eqn:Hens. simpl in Hself.
  destruct room; simpl in Hs.
  - rewrite lookup_insert_eq in Hs. simplify_eq. unfold success_clears. simpl.
    destruct (hl_route_generation lease) as [g|]; simpl; [done|].
    rewrite Hgen. apply bool_decide_eq_false. rewrite Hself.
    destruct (rh_routes registry1 !! hl_route lease) as [s0|] eqn:Hs0; simpl; [|done].
    intros Heq. apply (inj Some) in Heq. symmetry in Heq. pose proof (ok_generation _ (ok_routes _ Hok1 _ _ Hs0)) as Hg.
    by apply (wrapping_succ_neq _ Hg) in Heq.
  - 
    unfold ensure_route_capacity in Hens. rewrite Hself in Hs. rewrite Hs in Hens. simpl in Hens.
    simplify_eq.
Qed.

(** C8. Every reachable registry is well formed: the class of the failure that made an
    entry cool or leased is kept as long as the entry is, the half-open fields stand or
    fall together, the maps are within their capacities, and every deadline lies on the
    clock. Every operation that returns keeps this; and every operation but the early
    probe returns, without a panic, whenever the lifetimes in force, those that it
    installs and the Retry-After that it carries end on the clock (the local curves only
    need the clock to go on for the 585 years that they can count). *)
Theorem health_registry_invariant registry ev now :
  health_reachable sha256 registry -> event_in_range ev ->
  registry_health_ok registry /\ on_clock registry = true /\
  (forall registry', run_health sha256 registry ev now = Some registry' ->
    registry_health_ok registry' /\ on_clock registry' = true) /\
  ((forall route key, ev <> EvProbe route key) -> health_in_time registry ev now ->
   exists registry', run_health sha256 registry ev now = Some registry').
Proof.
  intros Hreach Hev. pose proof (health_reachable_ok _ Hreach) as Hok.
  pose proof (health_reachable_on_clock _ Hreach) as Hc. split_and!; [done..| |].
  - intros r Hr. split; [by eapply run_health_ok|]. by apply run_health_Some in Hr as [_ ?].
  - intros Hnot Htime. destruct (run_step_total registry ev now Hok Hnot Htime) as [r Hr].
    exists r. unfold run_health. rewrite Hr. simpl. by rewrite (step_on_clock sha256 registry ev now r (ok_delays _ Hok) Hc Htime Hr).
Qed.

(** The maps stay bounded: never more routes or keys than the capacity in
    all, nor more than the per-upstream capacity for any upstream, nor more route
    sets than the capacity. *)
Theorem health_capacity_bounds registry id :
  health_reachable sha256 registry ->
  route_count registry <= rh_route_capacity registry /\
  key_count registry <= rh_route_capacity registry /\
  aggregate_count registry <= rh_route_capacity registry /\
  count_upstream rk_upstream_id id (rh_routes registry) <= rh_per_upstream_capacity registry /\
  count_upstream kk_upstream_id id (rh_keys registry) <= rh_per_upstream_capacity registry.
Proof.
  intros Hok%health_reachable_ok. destruct (ok_routes_capacity _ Hok) as [Hr Hru].
  destruct (ok_keys_capacity _ Hok) as [Hk Hku].
  pose proof (ok_aggregates_capacity _ Hok).
  rewrite !count_upstream_dom. unfold route_count, key_count, aggregate_count.
  rewrite <- !size_dom. split_and!; auto. by rewrite size_dom.
Qed.

(** The early probe panics on a route whose entry has been cleared: after
    any operation that clears an entry but keeps it, such as the success of a
    concurrent request, the [expect] on its failure class fails. *)
Theorem early_probe_panics_after_clear registry route key state now now' :
  rh_enforcement_enabled registry = true ->
  rh_routes registry !! route = Some state ->
  rh_keys registry !! key = None ->
  reserve_route_health_probe (clear_route_health registry route now) route key now' = None.
Proof.
  intros Hen Hs Hk. unfold reserve_route_health_probe. simpl. rewrite Hen. simpl.
  unfold gate_key. simpl. rewrite Hk. simpl. rewrite lookup_alter_eq, Hs. simpl. done.
Qed.

(** The class, if any, under which [reserve] refuses an entry. *)
Definition refusal (state : HealthState) (now : Instant)
    : option (RouteAvailability HealthLease) :=
  class ← hs_last_failure_class state;
  if health_is_cooling state now
  then Some (Cooling class (health_retry_after state now) (hs_last_failure_status state))
  else if health_is_active state now
          && is_some_and (fun until => now <? until) (hs_half_open_exclusive_until state)
  then Some (HalfOpenBusy class HALF_OPEN_BUSY_RETRY (hs_last_failure_status state))
  else None.

Lemma reserve_gate_refusal_spec state now :
  health_state_ok state ->
  exists state', reserve_gate state now = Some (state', refusal state now) /\
    can_reserve_half_open state' now =
      can_reserve_half_open state now /\ hs_state_generation state' = hs_state_generation state.
Proof.
  intros Hok. unfold reserve_gate, refusal.
  change (health_is_cooling (touch state now) now) with (health_is_cooling state now).
  change (health_retry_after (touch state now) now) with (health_retry_after state now).
  simpl. destruct (health_is_cooling state now) eqn:Hcool.
  { destruct (cooling_class _ _ Hok Hcool) as [c ->]. by eexists. }
  destruct (hs_half_open_generation state) as [g|] eqn:Hg; simpl.
  - destruct (leased_class _ _ Hok Hg) as [c Hc]. rewrite Hc. simpl.
    unfold health_is_active. rewrite Hg. simpl.
    destruct (hs_half_open_expires_at state) as [e|] eqn:He; simpl.
    + destruct (e <=? now) eqn:E.
      * replace (now <? e) with false by lia. simpl. eexists. split; [done|].
        unfold can_reserve_half_open. simpl. rewrite Hg, He. split; [|done].
        simpl. by rewrite E.
      * replace (now <? e) with true by lia. simpl.
        destruct (is_some_and _ _); by eexists.
    + pose proof (ok_expires _ Hok) as Hx. by rewrite Hg, He in Hx.
  - replace (health_is_active state now) with false
      by (unfold health_is_active; by rewrite Hg).
    simpl. eexists. split; [f_equal; f_equal; by destruct (hs_last_failure_class state)|done].
Qed.

(** The half-open grant that an entry, if there is one, is due for. *)
Definition due (entry : option HealthState) (now : Instant) : bool :=
  is_some_and (fun state => can_reserve_half_open state now) entry.

(** The answer of an admission, and the generations it takes. *)
Definition admission (registry : RouteHealthRegistry) (route : RouteHealthKey)
    (key : KeyHealthKey) (now : Instant) : RouteAvailability HealthLease :=
  let key_entry := rh_keys registry !! key in
  let route_entry := rh_routes registry !! route in
  let key_generation :=
    if due key_entry now then Some (wrapping_succ_nonzero (rh_next_generation registry))
    else None in
  let route_generation :=
    if due route_entry now
    then Some (wrapping_succ_nonzero (default (rh_next_generation registry) key_generation))
    else None in
  default
    (Ready {| hl_route := route; hl_key := key;
              hl_key_generation := key_generation;
              hl_route_generation := route_generation;
              hl_route_state_generation := hs_state_generation <$> route_entry;
              hl_half_open := due key_entry now || due route_entry now |})
    (or_else (key_entry ≫= fun state => refusal state now)
             (route_entry ≫= fun state => refusal state now)).

Lemma gate_key_spec registry key now :
  registry_health_ok registry ->
  exists r1, gate_key reserve_gate registry key now =
      Some (r1, rh_keys registry !! key ≫= fun state => refusal state now) /\
    rh_routes r1 = rh_routes registry /\ rh_next_generation r1 = rh_next_generation registry /\
    due (rh_keys r1 !! key) now = due (rh_keys registry !! key) now.
Proof.
  intros Hok. unfold gate_key.
  destruct (rh_keys registry !! key) as [s|] eqn:Hs; [|exists registry; by rewrite Hs].
  destruct (reserve_gate_refusal_spec s now) as (s' & -> & Hd & _); [by eapply (ok_keys _ Hok)|].
  eexists. split; [done|]. simpl. by rewrite lookup_insert_eq.
Qed.

Lemma gate_route_spec registry route now :
  (forall s, rh_routes registry !! route = Some s -> health_state_ok s) ->
  exists r2, gate_route registry route now =
      Some (r2, rh_routes registry !! route ≫= fun state => refusal state now) /\
    rh_keys r2 = rh_keys registry /\ rh_next_generation r2 = rh_next_generation registry /\
    due (rh_routes r2 !! route) now = due (rh_routes registry !! route) now /\
    hs_state_generation <$> rh_routes r2 !! route =
      hs_state_generation <$> rh_routes registry !! route.
Proof.
  intros Hok. unfold gate_route.
  destruct (rh_routes registry !! route) as [s|] eqn:Hs; [|exists registry; by rewrite Hs].
  destruct (reserve_gate_refusal_spec s now) as (s' & -> & Hd & Hg); [by apply Hok|].
  eexists. split; [done|]. simpl. rewrite lookup_insert_eq. simpl. by rewrite Hg.
Qed.

Lemma reserve_admission registry route key now :
  registry_health_ok registry -> rh_enforcement_enabled registry = true ->
  exists registry', reserve registry route key now = Some (registry', admission registry route key now).
Proof.
  intros Hok Hen. unfold reserve, admission. rewrite Hen. simpl.
  destruct (gate_key_spec registry key now Hok) as (r1 & -> & Hr1 & Hn1 & Hd1).
  simpl. destruct (rh_keys registry !! key ≫= _) as [refused|]; [by eexists|].
  destruct (gate_route_spec r1 route now) as (r2 & -> & Hk2 & Hn2 & Hd2 & Hg2).
  { rewrite Hr1. intros s Hs. by eapply (ok_routes _ Hok). }
  rewrite Hr1 in *. rewrite Hn1 in Hn2.
  simpl. destruct (rh_routes registry !! route ≫= _) as [refused|]; [by eexists|].
  rewrite Hg2. unfold reserve_expired_half_open_key. fold (due (rh_keys r2 !! key) now).
  rewrite Hk2, Hd1.
  destruct (due (rh_keys registry !! key) now); simpl;
    unfold reserve_expired_half_open_route; simpl; fold (due (rh_routes r2 !! route) now);
    rewrite Hd2; destruct (due (rh_routes registry !! route) now); simpl; rewrite ?Hn2;
    by eexists.
Qed.

(** Admission, case by case. With enforcement on, [reserve] reports the key
    if the key is cooling or inside the exclusive window of a probe, else the
    route likewise, with the class and the remaining time of that entry; else it
    admits the request, with a half-open lease exactly when an elapsed cooldown
    is waiting for its probe, each grant with a fresh generation. *)
Theorem reserve_outcome registry route key now :
  registry_health_ok registry -> rh_enforcement_enabled registry = true ->
  exists registry' availability,
    reserve registry route key now = Some (registry', availability) /\
    let key_entry := rh_keys registry !! key in
    let route_entry := rh_routes registry !! route in
    let key_generation :=
      if due key_entry now then Some (wrapping_succ_nonzero (rh_next_generation registry))
      else None in
    let route_generation :=
      if due route_entry now
      then Some (wrapping_succ_nonzero (default (rh_next_generation registry) key_generation))
      else None in
    availability =
      default
        (Ready {| hl_route := route; hl_key := key;
                  hl_key_generation := key_generation;
                  hl_route_generation := route_generation;
                  hl_route_state_generation := hs_state_generation <$> route_entry;
                  hl_half_open := due key_entry now || due route_entry now |})
        (or_else (key_entry ≫= fun state => refusal state now)
                 (route_entry ≫= fun state => refusal state now)).
Proof.
  intros Hok Hen. destruct (reserve_admission registry route key now Hok Hen) as [r Hr].
  by exists r, (admission registry route key now).
Qed.

(** The path of a capacity failure that must not cool. *)
Definition capacity_exempt (registry : RouteHealthRegistry) (class : RouteFailureClass)
    (capacity_sole_route : bool) : Prop :=
  is_capacity_class class = true /\
  (rh_capacity_failure_cooldown_enabled registry = false \/ capacity_sole_route = true).

Lemma observe_exempt registry route class ra status now rep sole cap shared :
  capacity_exempt registry class cap ->
  observe_route_failure_at sha256 registry route class ra status now rep sole cap shared =
  observe_capacity_route_failure_at registry route class status now.
Proof.
  intros [Hc Hex]. unfold observe_route_failure_at. rewrite capacity_class_cools, Hc by done. simpl.
  by destruct Hex as [-> | ->]; rewrite ?orb_true_r.
Qed.

(** Being full is not being broken. With the cooldown of capacity failures
    switched off, or on the only route there is, a rate limit or an exhausted
    quota, with or without Retry-After, never changes when any route is cooling,
    leased or how far its failures have escalated: an entry keeps these fields
    or, to make room, is evicted while it holds no live lease. *)
Theorem capacity_failure_never_cools registry route class ra status now rep sole cap shared route' :
  capacity_exempt registry class cap ->
  let registry' :=
    observe_route_failure_at sha256 registry route class ra status now rep sole cap shared in
  let signal := fun state =>
    (hs_cooldown_until state, hs_consecutive_failures state, hs_half_open_generation state,
     hs_half_open_expires_at state, hs_half_open_exclusive_until state,
     hs_state_generation state) in
  match rh_routes registry' !! route' with
  | Some state' => signal state' = signal (default (HealthState_new now) (rh_routes registry !! route'))
  | None => from_option (fun state => health_is_active state now = false) True
              (rh_routes registry !! route')
  end.
Proof.
  intros Hex registry' signal. subst registry'. rewrite observe_exempt by done.
  unfold observe_capacity_route_failure_at.
  pose proof (ensure_route_lookup registry route now route') as Hl.
  pose proof (ensure_route_self registry route now) as Hself.
  assert (forall o, o = rh_routes registry !! route' \/
     (o = None /\ route' <> route /\
      exists s, rh_routes registry !! route' = Some s /\ health_is_active s now = false) ->
     match o with
     | Some state' => signal state' = signal (default (HealthState_new now) (rh_routes registry !! route'))
     | None => from_option (fun state => health_is_active state now = false) True
                 (rh_routes registry !! route')
     end) as Hcase.
  { intros o [->|(-> & _ & s & -> & Hs)]; [|done]. by destruct (rh_routes registry !! route'). }
  destruct (ensure_route_capacity registry route now) as [r []]; simpl in *; [|by apply Hcase].
  destruct (decide (route' = route)) as [->|Hne].
  - rewrite lookup_insert_eq, Hself. by destruct (rh_routes registry !! route).
  - rewrite lookup_insert_ne by done. by apply Hcase.
Qed.

(** The half-open lease outlives its holder. If the holder of a half-open
    lease settles it with an exempt capacity failure, the lease is not released:
    until the exclusive window has passed the route still answers every request
    that its key lets through with [HalfOpenBusy]. *)
Theorem capacity_failure_leaks_lease registry route key t0 registry1 lease generation class status
    rep sole cap shared t1 key' t2 :
  registry_health_ok registry ->
  reserve registry route key t0 = Some (registry1, Ready lease) ->
  hl_route_generation lease = Some generation ->
  capacity_exempt registry1 class cap ->
  let registry2 :=
    finish sha256 registry1 lease (RouteFailure class status rep sole cap shared) t1 in
  t2 < t0 + Z.min (rh_half_open_ttl registry) (rh_half_open_exclusive_window registry) ->
  rh_keys registry2 !! key' = None ->
  exists registry3 class' wait status',
    reserve registry2 route key' t2 = Some (registry3, HalfOpenBusy class' wait status') \/
    reserve registry2 route key' t2 = Some (registry3, Cooling class' wait status').
Proof.
  intros Hok Hres Hg Hex registry2 Ht2 Hkey.
  destruct (grant_leased _ _ _ _ _ _ _ Hres Hg) as (_ & He1 & Hl1).
  destruct (ready_lease_state _ _ _ _ _ _ Hres) as (Hroute & _ & _).
  assert (registry_health_ok registry1) as Hok1.
  { destruct (reserve_ok registry route key t0 Hok) as (r & a & Heq & Hr). by simplify_eq. }
  assert (registry_health_ok registry2) as Hok2 by (by apply finish_ok).
  assert (rh_enforcement_enabled registry2 = true) as He2
    by (subst registry2; by rewrite finish_enforcement).
  assert (route_leased registry2 route generation (t0 + rh_half_open_ttl registry)
            (t0 + rh_half_open_exclusive_window registry)) as Hl2.
  { subst registry2. simpl. rewrite Hroute.
    destruct Hl1 as (s & Hs & Hgen & Hexp & Hexc).
    rewrite observe_exempt by done. unfold observe_capacity_route_failure_at.
    pose proof (ensure_route_self (release_key_lease registry1 (hl_key lease)
      (hl_key_generation lease) t1) route t1) as Hself.
    destruct (ensure_route_capacity _ route t1) as [r []]; simpl in *.
    - rewrite Hs in *. eexists. simpl. rewrite lookup_insert_eq. split; [done|]. by rewrite Hself.
    - exists s. by rewrite Hself. }
  destruct (reserve_ok registry2 route key' t2 Hok2) as (r3 & a & Hr3 & _).
  assert (t2 < t0 + rh_half_open_ttl registry) as Hlt by lia.
  destruct (reserve_leased _ _ _ _ _ _ _ _ _ _ He2 Hlt Hl2 Hr3) as (_ & _ & Hready).
  destruct a as [lease'|c w st|c w st].
  - destruct (Hready eq_refl lease' eq_refl). lia.
  - exists r3, c, w, st. by right.
  - exists r3, c, w, st. by left.
Qed.

Lemma route_cooldown_nonneg class step route delays base max :
  probe_delays_ok delays -> 0 <= base <= duration_max -> 0 <= max ->
  0 <= route_cooldown_with_concurrency_delays sha256 class step route delays base max.
Proof.
  intros Hd Hb Hm. unfold route_cooldown_with_concurrency_delays. case_bool_decide.
  - pose proof (sequence_delay_range delays step Hd).
    unfold from_millis, ROUTE_COOLDOWN_MAX, from_secs in *. lia.
  - rewrite route_cooldown_curve.
    etransitivity; [|apply jittered_backoff_lower; by apply route_curve_base].
    pose proof (route_curve_base class base max Hb) as Hr.
    pose proof (backoff_multiplier_range step).
    assert (0 <= (route_curve class base max).2).
    { destruct class; simpl; try done;
        unfold ROUTE_COOLDOWN_MAX, MODEL_QUARANTINE_MAX, EDGE_PROXY_ROUTE_MAX, from_secs; lia. }
    assert (0 <= (route_curve class base max).1 * 2 ^ backoff_exponent step * 80 / 100)
      by (apply Z.div_pos; nia).
    unfold u64_max. lia.
Qed.


Lemma effective_cooldown_spec class ra local :
  0 <= local -> from_option (Z.le 0) True ra ->
  0 <= effective_cooldown class ra local /\
  from_option (fun explicit => explicit <= effective_cooldown class ra local) True ra /\
  (ra = None -> effective_cooldown class ra local = local).
Proof. intros. destruct ra, class; simpl in *; split_and!; try done; lia. Qed.

Lemma reserve_keys_absent registry route key now r a :
  rh_keys registry !! key = None -> reserve registry route key now = Some (r, a) ->
  rh_keys r = rh_keys registry.
Proof.
  intros Hk. unfold reserve. destruct (rh_enforcement_enabled registry); simpl.
  2: { unfold passthrough. intros. simplify_eq. simpl. apply map_eq. intros k.
       destruct (decide (k = key)) as [->|]; [by rewrite lookup_alter_eq, Hk|by rewrite lookup_alter_ne]. }
  unfold gate_key. rewrite Hk. simpl. intros Hb. apply bind_Some in Hb as ([r2 f2] & Hrt & Hb).
  assert (rh_keys r2 = rh_keys registry) as Hk2.
  { unfold gate_route in Hrt. destruct (rh_routes registry !! route); [|by simplify_eq].
    apply bind_Some in Hrt as ([s f] & _ & Hrt). by simplify_eq. }
  destruct f2; [by simplify_eq|].
  unfold reserve_expired_half_open_key in Hb. rewrite Hk2, Hk in Hb. simpl in Hb.
  unfold reserve_expired_half_open_route in Hb. by destruct (is_some_and _ _); simplify_eq/=.
Qed.

(** An admission where neither entry refuses. *)
Lemma reserve_admits registry route key now entry :
  registry_health_ok registry -> rh_enforcement_enabled registry = true ->
  rh_keys registry !! key = None -> rh_routes registry !! route = entry ->
  entry ≫= (fun state => refusal state now) = None ->
  exists registry' lease, reserve registry route key now = Some (registry', Ready lease) /\
    hl_half_open lease = due entry now /\ hl_key_generation lease = None /\
    hl_key lease = key /\ hl_route lease = route /\
    is_some (hl_route_generation lease) = due entry now.
Proof.
  intros Hok Hen Hk Hr Href.
  destruct (reserve_admission registry route key now Hok Hen) as [r Hres].
  unfold admission in Hres. rewrite Hk, Hr in Hres. simpl in Hres. rewrite Href in Hres.
  eexists _, _. split; [exact Hres|]. simpl. split_and!; try done. by destruct (due entry now).
Qed.

(** An entry that was just recorded: it cools until then, and no probe is in
    flight. *)
Record recorded (class : RouteFailureClass) (status : option Z) (until : Instant)
    (state : HealthState) : Prop := {
  rec_class : hs_last_failure_class state = Some class;
  rec_status : hs_last_failure_status state = status;
  rec_until : hs_cooldown_until state = Some until;
  rec_idle : hs_half_open_generation state = None
}.

Lemma recorded_failure registry route (key : KeyHealthKey) class ra status now rep sole cap shared :
  registry_health_ok registry -> cools_route registry class cap -> from_option (Z.le 0) True ra ->
  rh_keys registry !! key = None -> (ensure_route_capacity registry route now).2 = true ->
  let registry1 :=
    observe_route_failure_at sha256 registry route class ra status now rep sole cap shared in
  exists cooldown step s1,
    rh_routes registry1 !! route = Some s1 /\ rh_keys registry1 !! key = None /\
    recorded class status (now + cooldown) s1 /\
    1 <= step /\ 0 <= cooldown /\ from_option (fun explicit => explicit <= cooldown) True ra /\
    (ra = None ->
     cooldown = route_cooldown_with_concurrency_delays sha256
       (if shared && is_shared_host_domain_class class then EdgeProxyError else class) step route
       (rh_concurrency_probe_delays registry) (rh_transient_route_cooldown_base registry)
       (rh_transient_route_cooldown_max registry)).
Proof.
  intros Hok Hcools Hra Hk Hroom registry1.
  pose proof (observe_cooling registry route class ra status now rep sole cap shared Hcools) as Heq.
  fold registry1 in Heq.
  destruct (ensure_route_capacity registry route now) as [r room] eqn:Hens.
  destruct (ensure_route_spec _ _ _ _ _ Hok Hens) as (Hokr & Hev & _ & _).
  simpl in Hroom. subst room. simpl in Heq.
  set (s0 := default (HealthState_new now) (rh_routes r !! route)) in *.
  set (step := failure_step s0 class now (rep || sole)
         (rh_transient_route_cooldown_max_step r) (shared && is_shared_host_domain_class class)).
  set (local := route_cooldown_with_concurrency_delays sha256
       (if shared && is_shared_host_domain_class class then EdgeProxyError else class) step route
       (rh_concurrency_probe_delays r) (rh_transient_route_cooldown_base r)
       (rh_transient_route_cooldown_max r)).
  assert (0 <= local) as Hlocal by (destruct Hokr; by apply route_cooldown_nonneg).
  destruct (effective_cooldown_spec class ra local Hlocal Hra) as (Hnn & Hexp & Hnone).
  assert (health_state_ok s0) as Hs0 by (by apply entry_ok, ok_routes).
  exists (effective_cooldown class ra local), step,
    (fail_route sha256 r route class ra status now (rep || sole) shared s0).
  split_and!; [| | |destruct Hokr; eapply failure_step_range; [done|unfold u32_max; lia]|done|done|].
  - rewrite Heq. apply lookup_insert_eq.
  - rewrite Heq. simpl. by destruct Hev as [->|[c ->]].
  - done.
  - intros Hn. rewrite (Hnone Hn). subst local. by destruct Hev as [->|[c ->]].
Qed.

Lemma recorded_refuses registry route key class status s1 cooldown now t :
  registry_health_ok registry -> rh_enforcement_enabled registry = true ->
  rh_keys registry !! key = None -> rh_routes registry !! route = Some s1 ->
  recorded class status (now + cooldown) s1 -> now <= t < now + cooldown ->
  exists registry2, reserve registry route key t =
    Some (registry2, Cooling class (now + cooldown - t) status).
Proof.
  intros Hok He Hk Hl [Hc Hs Hu _] Ht.
  destruct (reserve_admission registry route key t Hok He) as [r2 Hres]. exists r2. rewrite Hres.
  unfold admission. rewrite Hk, Hl. simpl. unfold refusal.
  rewrite Hc, Hs. simpl. unfold health_is_cooling, health_retry_after. rewrite Hu. simpl.
  rewrite since_later by lia. by replace (t <? now + cooldown) with true by lia.
Qed.

Lemma recorded_recovers registry route key class status s1 cooldown now t :
  registry_health_ok registry -> rh_enforcement_enabled registry = true ->
  rh_keys registry !! key = None -> rh_routes registry !! route = Some s1 ->
  recorded class status (now + cooldown) s1 -> now + cooldown <= t ->
  exists registry2 lease, reserve registry route key t = Some (registry2, Ready lease) /\
    hl_half_open lease = true /\ is_some (hl_route_generation lease) = true /\
    forall t' t'', exists registry3 lease',
      reserve (finish sha256 registry2 lease Success t') route key t'' =
        Some (registry3, Ready lease') /\ hl_half_open lease' = false.
Proof.
  intros Hok He Hk Hl [Hc Hs Hu Hg0] Ht.
  destruct (reserve_admits registry route key t (Some s1) Hok He Hk Hl)
    as (r2 & lease & Hres & Hho & Hkg & Hlk & Hlr & Hrg).
  { simpl. unfold refusal, health_is_cooling, health_is_active. rewrite Hc, Hu, Hg0. simpl.
    by replace (t <? now + cooldown) with false by lia. }
  assert (due (Some s1) t = true) as Hdue.
  { simpl. unfold can_reserve_half_open. rewrite Hc, Hu, Hg0. simpl.
    by replace (now + cooldown <=? t) with true by lia. }
  rewrite Hdue in *. exists r2, lease. split_and!; [done..|]. intros t' t''.
  destruct (hl_route_generation lease) as [g|] eqn:Hg; [|done].
  destruct (grant_leased _ _ _ _ _ _ _ Hres Hg) as (_ & He2 & (s2 & Hs2 & Hgen & _)).
  assert (registry_health_ok r2) as Hok2.
  { destruct (reserve_ok registry route key t Hok) as (? & ? & Heq2 & ?). by simplify_eq. }
  pose proof (reserve_keys_absent _ _ _ _ _ _ Hk Hres) as Hk2.
  destruct (reserve_admits (finish sha256 r2 lease Success t') route key t''
    (Some (health_clear s2 t'))) as (r3 & lease' & Hres' & Hho' & _).
  - by apply finish_ok.
  - by rewrite finish_enforcement.
  - simpl. rewrite Hkg. simpl. rewrite Hlk, lookup_alter_eq, Hk2, Hk. done.
  - simpl. rewrite Hkg. simpl. rewrite Hlr, lookup_alter_eq, Hs2. simpl.
    unfold success_clears. rewrite Hg, Hgen. simpl. by rewrite bool_decide_true.
  - done.
  - by exists r3, lease'.
Qed.

(** C6. The life of a failure. A failure of a cooling class is recorded if
    there is room; from then on and until the cooldown ends, [reserve] answers
    [Cooling] with the class of the failure, the exact remaining time and the
    upstream's status; from the end of the cooldown on, the first request is
    admitted with a half-open lease, and its success leaves a route that admits
    everybody without a lease. The cooldown is at least the explicit Retry-After
    if there is one, and if there is none it is the local curve of the class,
    that of edge proxies for a shared failing host. *)
Theorem failure_lifecycle registry route key class ra status now rep sole cap shared :
  registry_health_ok registry -> rh_enforcement_enabled registry = true ->
  cools_route registry class cap -> from_option (Z.le 0) True ra ->
  rh_keys registry !! key = None ->
  (ensure_route_capacity registry route now).2 = true ->
  let registry1 :=
    observe_route_failure_at sha256 registry route class ra status now rep sole cap shared in
  exists cooldown step,
    1 <= step /\ 0 <= cooldown /\ from_option (fun explicit => explicit <= cooldown) True ra /\
    (ra = None ->
     cooldown = route_cooldown_with_concurrency_delays sha256
       (if shared && is_shared_host_domain_class class then EdgeProxyError else class) step route
       (rh_concurrency_probe_delays registry) (rh_transient_route_cooldown_base registry)
       (rh_transient_route_cooldown_max registry)) /\
    (forall t, now <= t < now + cooldown ->
       exists registry2, reserve registry1 route key t =
         Some (registry2, Cooling class (now + cooldown - t) status)) /\
    (forall t, now + cooldown <= t ->
       exists registry2 lease, reserve registry1 route key t = Some (registry2, Ready lease) /\
         hl_half_open lease = true /\ is_some (hl_route_generation lease) = true /\
         forall t' t'', exists registry3 lease',
           reserve (finish sha256 registry2 lease Success t') route key t'' =
             Some (registry3, Ready lease') /\ hl_half_open lease' = false).
Proof.
  intros Hok Hen Hcools Hra Hk Hroom registry1.
  assert (registry_health_ok registry1) as Hok1 by (by apply observe_route_ok).
  assert (rh_enforcement_enabled registry1 = true) as He1
    by (subst registry1; by rewrite observe_route_enforcement).
  destruct (recorded_failure registry route key class ra status now rep sole cap shared Hok Hcools Hra
              Hk Hroom) as (cooldown & step & s1 & Hl1 & Hk1 & Hrec & Hst & Hnn & Hexp & Hnone).
  fold registry1 in Hl1, Hk1. exists cooldown, step.
  split_and!; [done..| |].
  - intros t Ht. by apply (recorded_refuses registry1 route key class status s1).
  - intros t Ht. by apply (recorded_recovers registry1 route key class status s1 cooldown now).
Qed.

(** Passthrough. With enforcement off nothing is refused: [reserve] and the
    early probe admit every request, never with a lease that others would have to
    wait for, and never panic, whatever the state of the registry. *)
Theorem passthrough_admits registry route key now :
  rh_enforcement_enabled registry = false ->
  exists registry' lease,
    reserve registry route key now = Some (registry', Ready lease) /\
    reserve_route_health_probe registry route key now = Some (registry', Ready lease) /\
    hl_half_open lease = false /\ hl_key_generation lease = None /\
    hl_route_generation lease = None /\
    (forall route', hs_cooldown_until <$> rh_routes registry' !! route' =
                    hs_cooldown_until <$> rh_routes registry !! route').
Proof.
  intros Hen. unfold reserve, reserve_route_health_probe. rewrite Hen. simpl.
  eexists _, _. do 2 (split; [done|]). split_and!; try done. intros route'. simpl.
  destruct (decide (route' = route)) as [->|Hne].
  - rewrite lookup_alter_eq. by destruct (rh_routes registry !! route).
  - by rewrite lookup_alter_ne.
Qed.

End failures.

(** ** Escalation *)

(** How far one more failure escalates. The step is at least one; a broken
    streak, an edge proxy page or a shared failing host start again at one; a
    repeat within the request or on the sole candidate keeps the step; otherwise
    it grows by at most one, and except for the probes of a concurrency-saturated
    route it stays within the configured maximum, within five for a failed
    probe. *)
Theorem failure_step_bounds state class now repeat max_step shared :
  health_state_ok state -> 1 <= max_step <= 8 ->
  let step := failure_step state class now repeat max_step shared in
  1 <= step <= Z.max 1 (hs_consecutive_failures state + 1) /\
  (class = EdgeProxyError \/ shared && is_shared_host_domain_class class = true \/
   streak_broken state class now = true -> step = 1) /\
  (repeat = true -> step <= Z.max 1 (hs_consecutive_failures state)) /\
  (repeat = false -> class <> ConcurrencySaturated \/ hs_half_open_generation state = None ->
   step <= max_step) /\
  (repeat = false -> class <> ConcurrencySaturated ->
   is_some (hs_half_open_generation state) = true -> step <= ROUTE_HALF_OPEN_FAILURE_STEP_CAP).
Proof.
  intros [_ _ _ Hf _] Hm step. subst step. unfold failure_step, sat_add, u32_max,
    ROUTE_HALF_OPEN_FAILURE_STEP_CAP in *.
  split; [repeat case_match; lia|].
  split.
  { intros [->|[->|Hbroken]]; [done|by rewrite orb_true_r|].
    rewrite Hbroken. by destruct (_ || _). }
  split; [intros ->; repeat case_match; lia|].
  split.
  - intros ->. intros Hor. destruct (bool_decide (class = EdgeProxyError) || _); [lia|].
    destruct (streak_broken state class now); [lia|].
    destruct (hs_half_open_generation state) as [g|]; simpl; [|lia].
    destruct Hor as [Hne|]; [|done]. rewrite bool_decide_false by done. simpl. lia.
  - intros -> Hne Hg. destruct (bool_decide (class = EdgeProxyError) || _); [lia|].
    destruct (streak_broken state class now); [lia|]. rewrite Hg.
    rewrite bool_decide_false by done. simpl. lia.
Qed.

(** A change of tuning only ever shortens: every cooldown, lease and window
    of every entry ends no later than before, none appears or disappears, a
    transient cooldown ends within the new maximum and a lease within the new
    lifetime. *)
Theorem tuning_only_shortens registry tuning now registry' route state :
  rh_routes registry !! route = Some state ->
  update_runtime_tuning registry tuning now = Some registry' ->
  let earlier := fun before after : option Instant =>
    match before, after with
    | Some b, Some a => a <= b
    | None, None => True
    | _, _ => False
    end in
  exists state', rh_routes registry' !! route = Some state' /\
    earlier (hs_cooldown_until state) (hs_cooldown_until state') /\
    earlier (hs_half_open_expires_at state) (hs_half_open_expires_at state') /\
    earlier (hs_half_open_exclusive_until state) (hs_half_open_exclusive_until state') /\
    hs_half_open_generation state' = hs_half_open_generation state /\
    hs_last_failure_class state' = hs_last_failure_class state /\
    (hs_last_failure_class state = Some TransientServer ->
     health_retry_after state' now <= rh_transient_route_cooldown_max registry') /\
    half_open_remaining state' now <= rh_half_open_ttl registry'.
Proof.
  intros Hs Htune earlier.
  assert (forall limit d, earlier d (cap_deadline limit d)) as Hcap.
  { intros limit [d|]; unfold earlier, cap_deadline; simpl; [destruct (limit <? d) eqn:?; lia|done]. }
  assert (forall span d, 0 <= span ->
    map_or 0 (fun u => since u now) (cap_deadline (now + span) d) <= span) as Hspan.
  { intros span [d|] Hsp; unfold cap_deadline, map_or, is_some_and, since; [|done].
    destruct (now + span <? d) eqn:?; lia. }
  assert (forall s, 0 <= from_secs (Z.max s 1)) as Hsecs by (unfold from_secs; lia).
  unfold update_runtime_tuning in Htune. apply bind_Some in Htune as (c & [-> _]%instant_add_Some & Htune).
  apply bind_Some in Htune as (h & [-> _]%instant_add_Some & Htune).
  apply bind_Some in Htune as (x & [-> _]%instant_add_Some & Htune). apply (inj Some) in Htune as <-.
  unfold shorten_route, shorten_half_open. simpl. eexists. rewrite lookup_fmap, Hs. split; [done|].
  case_bool_decide as Hc; simpl; split_and!; try done; try apply Hcap; try (by apply Hspan).
  - intros _. by apply Hspan.
  - unfold earlier. destruct (hs_cooldown_until state); [lia|done].
Qed.

(** ** The summary counts *)

(** Where a route stands, as an operator sees it. *)
Inductive standing :=
| Probing (class : option RouteFailureClass)
| CoolingFor (class : option RouteFailureClass) (remaining : Duration)
| Healthy.

Definition route_standing (route_snapshot : RouteHealthKey -> option HealthStateSnapshot)
    (key_snapshot : KeyHealthKey -> option HealthStateSnapshot) (route : RouteHealthKey)
    : standing :=
  let entries := omap id [key_snapshot (route_key route); route_snapshot route] in
  match retain ss_half_open entries, retain (fun e => 0 <? ss_cooldown_remaining e) entries with
  | state :: _, _ => Probing (ss_last_failure_class state)
  | [], state :: _ => CoolingFor (ss_last_failure_class state) (ss_cooldown_remaining state)
  | [], [] => Healthy
  end.

Definition standing_class (s : standing) : option RouteFailureClass :=
  match s with Probing class | CoolingFor class _ => class | Healthy => None end.
Definition is_probing (s : standing) : bool := match s with Probing _ => true | _ => false end.
Definition is_cooling_for (s : standing) : bool :=
  match s with CoolingFor _ _ => true | _ => false end.
Definition is_healthy (s : standing) : bool := match s with Healthy => true | _ => false end.
Definition standing_wait (s : standing) : option Z :=
  match s with CoolingFor _ d => Some (duration_seconds_ceil d) | _ => None end.

Definition count_if {A} (f : A -> bool) (l : list A) : Z := Z.of_nat (length (retain f l)).

Lemma count_if_snoc {A} (f : A -> bool) l x :
  count_if f (l ++ [x]) = count_if f l + (if f x then 1 else 0).
Proof.
  unfold count_if. rewrite retain_app, length_app, retain_cons. by destruct (f x); simpl; lia.
Qed.

(** Adding one route, by its standing. *)
Definition add_standing (snapshot : RouteHealthSnapshotDto) (s : standing)
    : RouteHealthSnapshotDto :=
  let counted := increment_failure_class snapshot (standing_class s) in
  match s with
  | Probing _ => {| counted with rs_half_open_routes := rs_half_open_routes snapshot + 1 |}
  | CoolingFor _ d =>
      {| counted with
         rs_cooldown_routes := rs_cooldown_routes snapshot + 1;
         rs_earliest_retry_after_seconds :=
           Some (map_or (duration_seconds_ceil d)
                   (fun current => Z.min current (duration_seconds_ceil d))
                   (rs_earliest_retry_after_seconds snapshot)) |}
  | Healthy => {| counted with rs_healthy_routes := rs_healthy_routes snapshot + 1 |}
  end.

Lemma summarize_route_standing rs ks snapshot route :
  summarize_route rs ks snapshot route = add_standing snapshot (route_standing rs ks route).
Proof.
  unfold summarize_route, route_standing, opt_filter, or_else.
  destruct (ks (route_key route)) as [k|], (rs route) as [r|]; simpl; rewrite ?retain_cons; simpl;
    try destruct (ss_half_open k); try destruct (ss_half_open r);
    try destruct (0 <? ss_cooldown_remaining k); try destruct (0 <? ss_cooldown_remaining r);
    simpl; unfold add_standing, increment_failure_class; simpl; try done;
    repeat case_match; done.
Qed.

Lemma increment_lookup snapshot class class' n :
  rs_failure_classes snapshot !! class_as_str class' = Some n ->
  rs_failure_classes (increment_failure_class snapshot class) !! class_as_str class' =
  Some (n + if bool_decide (class = Some class') then 1 else 0).
Proof.
  intros Hn. unfold increment_failure_class. destruct class as [c|]; simpl.
  - destruct (decide (c = class')) as [->|Hne].
    + rewrite lookup_insert_eq, Hn, bool_decide_true by done. done.
    + rewrite lookup_insert_ne by (intros ?%class_as_str_inj; congruence).
      rewrite bool_decide_false by congruence. rewrite Hn. f_equal. lia.
  - rewrite Hn. f_equal. lia.
Qed.

Lemma add_standing_classes snapshot s class n :
  rs_failure_classes snapshot !! class_as_str class = Some n ->
  rs_failure_classes (add_standing snapshot s) !! class_as_str class =
  Some (n + if bool_decide (standing_class s = Some class) then 1 else 0).
Proof.
  intros Hn. pose proof (increment_lookup snapshot (standing_class s) class n Hn).
  unfold add_standing. by destruct s.
Qed.

(** The summary of an upstream counts its routes: each route is counted once,
    as probing, cooling or healthy, by its key first; every failure class that
    the operator sees is counted as often as a probing or cooling route has it;
    the earliest retry is the least of the remaining times, rounded up. The order
    in which the set is iterated does not matter. *)
Theorem summary_counts rs ks routes :
  let summary := summarize_route_health_routes routes rs ks in
  let standings := route_standing rs ks <$> routes in
  rs_half_open_routes summary = count_if is_probing standings /\
  rs_cooldown_routes summary = count_if is_cooling_for standings /\
  rs_healthy_routes summary = count_if is_healthy standings /\
  (forall class, rs_failure_classes summary !! class_as_str class =
     Some (count_if (fun s => bool_decide (standing_class s = Some class)) standings)) /\
  (let waits := omap standing_wait standings in
   match rs_earliest_retry_after_seconds summary with
   | None => waits = []
   | Some wait => wait ∈ waits /\ Forall (fun w => wait <= w) waits
   end).
Proof.
  induction routes as [|route routes IH] using rev_ind; simpl.
  { split_and!; try done. intros class. by destruct class. }
  unfold summarize_route_health_routes in *. rewrite fold_left_app. simpl.
  rewrite summarize_route_standing. set (acc := fold_left _ routes _) in *.
  rewrite fmap_app. simpl. set (st := route_standing rs ks route).
  destruct IH as (Hp & Hc & Hh & Hcl & Hw).
  rewrite !count_if_snoc, omap_app. split_and!.
  - by destruct st as [[]|[]|]; simpl; lia.
  - by destruct st as [[]|[]|]; simpl; lia.
  - by destruct st as [[]|[]|]; simpl; lia.
  - intros class. rewrite count_if_snoc. by apply add_standing_classes.
  - assert (forall c, rs_earliest_retry_after_seconds (increment_failure_class acc c) =
                      rs_earliest_retry_after_seconds acc) as Hinc by (by intros []).
    destruct st as [c|c d|]; simpl; rewrite ?Hinc, ?app_nil_r; [done| |done].
    destruct (rs_earliest_retry_after_seconds acc) as [w|]; simpl.
    + destruct Hw as [Hin Hall]. split.
      * apply elem_of_app. destruct (Z.min_spec w (duration_seconds_ceil d)) as [[_ ->]|[_ ->]];
          [by left|right; by left].
      * apply Forall_app. split; [|by constructor; [lia|]].
        eapply Forall_impl; [exact Hall|]. simpl. lia.
    + rewrite Hw. simpl. split; [by left|]. by constructor.
Qed.

(** ** Witnesses

    The default registry, a route that fails and recovers; the digest is
    constantly empty, so the jitter is the smallest. *)

Module HealthWitness.

#[export] Instance route_order : IterOrder RouteHealthKey HealthState := canonical_order _ _.
#[export] Instance key_order : IterOrder KeyHealthKey HealthState := canonical_order _ _.
#[export] Instance set_order : IterOrder RouteSetAggregateKey AggregateState := canonical_order _ _.

Definition fresh : RouteHealthRegistry := RouteHealthRegistry_default.

Definition route_key_of : KeyHealthKey := route_key some_route.

(** A transient failure at time 0: the route cools for four seconds. *)
Definition failed : RouteHealthRegistry :=
  observe_route_failure no_digest fresh some_route TransientServer None false 0.

(** The half-open lease granted ten seconds later. *)
Definition half_opened : RouteHealthRegistry * HealthLease :=
  match reserve failed some_route route_key_of (from_secs 10) with
  | Some (registry, Ready lease) => (registry, lease)
  | _ => (failed, {| hl_route := some_route; hl_key := route_key_of; hl_key_generation := None;
                     hl_route_generation := None; hl_route_state_generation := None;
                     hl_half_open := false |})
  end.

Definition shipped_tuning : RuntimeTuning :=
  {| rt_concurrency_probe_delays_ms := DEFAULT_UPSTREAM_CONCURRENCY_PROBE_DELAYS_MS;
     rt_transient_route_cooldown_base_seconds := 5;
     rt_transient_route_cooldown_max_seconds := 300;
     rt_transient_route_cooldown_max_step := 2;
     rt_half_open_ttl_seconds := 300;
     rt_half_open_exclusive_window_ms := 3000;
     rt_credentials_first_strike_seconds := 60;
     rt_capacity_failure_cooldown_enabled := false;
     rt_route_health_enforcement_enabled := true |}.

End HealthWitness.

Import HealthWitness.

Lemma shipped_in_range : tuning_in_range shipped_tuning.
Proof.
  split; [apply (bool_decide_unpack _); vm_compute; exact I|].
  split_and!; vm_compute; discriminate.
Qed.

Lemma fresh_ok : registry_health_ok fresh.
Proof. apply (new_ok _ _ shipped_tuning), shipped_in_range. Qed.

Lemma failed_ok : registry_health_ok failed.
Proof. apply observe_route_ok, fresh_ok. Qed.

Lemma failed_reachable : health_reachable no_digest failed.
Proof.
  eapply (health_step no_digest fresh (EvObserveRoute some_route TransientServer None false) 0);
    [|exact I|vm_compute; reflexivity].
  apply (health_new no_digest ROUTE_HEALTH_GLOBAL_CAPACITY ROUTE_HEALTH_PER_UPSTREAM_CAPACITY
           shipped_tuning), shipped_in_range.
Qed.

Lemma half_open_exclusive_witness :
  exists registry availability,
    reserve half_opened.1 some_route route_key_of (from_secs 12) = Some (registry, availability) /\
    (forall lease, availability <> Ready lease).
Proof.
  eexists _, _. split; [vm_compute; reflexivity|].
  refine (proj1 (half_open_exclusive no_digest failed some_route route_key_of (from_secs 10)
    half_opened.1 half_opened.2 1 [(EvReserve some_route route_key_of, from_secs 11)]
    _ route_key_of (from_secs 12) _ _ _ _ _ _ _ _) _).
  - vm_compute. reflexivity.
  - vm_compute. reflexivity.
  - constructor; [split; [exact I|vm_compute; reflexivity]|constructor].
  - vm_compute. reflexivity.
  - vm_compute. reflexivity.
  - vm_compute. reflexivity.
  - vm_compute. reflexivity.
Defined.

Lemma stale_success_keeps_failure_witness :
  let registry2 := observe_route_failure_at no_digest half_opened.1 some_route Transport None
                     (Some 502) (from_secs 11) false false false false in
  rh_routes (finish no_digest registry2 half_opened.2 Success (from_secs 12)) !! some_route =
  rh_routes registry2 !! some_route.
Proof.
  refine (stale_success_keeps_failure no_digest failed some_route route_key_of (from_secs 10)
    half_opened.1 half_opened.2 Transport None (Some 502) (from_secs 11) false false false false
    (from_secs 12) failed_ok _ _).
  - vm_compute. reflexivity.
  - split; [reflexivity|]. discriminate.
Defined.

Lemma health_registry_invariant_witness :
  exists registry', run_health no_digest failed (EvReserve some_route route_key_of) (from_secs 10)
    = Some registry' /\ registry_health_ok registry'.
Proof.
  destruct (health_registry_invariant no_digest failed (EvReserve some_route route_key_of)
    (from_secs 10) failed_reachable I) as (_ & _ & Hkeep & Htotal).
  destruct Htotal as [registry' Hrun].
  - discriminate.
  - split; [vm_compute; discriminate|]. split; [vm_compute; discriminate|]. split; [vm_compute; discriminate|].
    split; exact I.
  - exists registry'. split; [exact Hrun|]. exact (proj1 (Hkeep registry' Hrun)).
Defined.

Lemma health_capacity_bounds_witness :
  route_count failed = 1 /\ route_count failed <= rh_route_capacity failed.
Proof.
  split; [vm_compute; reflexivity|].
  exact (proj1 (health_capacity_bounds no_digest failed "up" failed_reachable)).
Defined.

Lemma early_probe_panics_after_clear_witness :
  reserve_route_health_probe (clear_route_health failed some_route 1) some_route route_key_of 2
  = None.
Proof.
  eapply early_probe_panics_after_clear; vm_compute; reflexivity.
Defined.

Lemma reserve_outcome_witness :
  exists registry', reserve failed some_route route_key_of (from_secs 1) =
    Some (registry', Cooling TransientServer (from_secs 3) None).
Proof.
  destruct (reserve_outcome failed some_route route_key_of (from_secs 1) failed_ok eq_refl)
    as (registry' & availability & Hres & Hav).
  exists registry'. rewrite Hres. f_equal. f_equal. rewrite Hav. vm_compute. reflexivity.
Defined.

Lemma capacity_failure_never_cools_witness :
  let registry' := observe_route_failure_at no_digest fresh some_route RateLimited
    (Some (from_secs 9)) (Some 429) 0 false false false false in
  exists state', rh_routes registry' !! some_route = Some state' /\
    (hs_cooldown_until state', hs_consecutive_failures state', hs_half_open_generation state',
     hs_half_open_expires_at state', hs_half_open_exclusive_until state',
     hs_state_generation state') = (None, 0, None, None, None, 0).
Proof.
  eexists. split; [vm_compute; reflexivity|].
  exact (capacity_failure_never_cools no_digest fresh some_route RateLimited
    (Some (from_secs 9)) (Some 429) 0 false false false false some_route
    (conj eq_refl (or_introl eq_refl))).
Defined.

Lemma capacity_failure_leaks_lease_witness :
  let registry2 := finish no_digest half_opened.1 half_opened.2
    (RouteFailure RateLimited (Some 429) false false false false) (from_secs 11) in
  exists registry3 class wait status,
    reserve registry2 some_route route_key_of (from_secs 12) =
      Some (registry3, HalfOpenBusy class wait status) \/
    reserve registry2 some_route route_key_of (from_secs 12) =
      Some (registry3, Cooling class wait status).
Proof.
  refine (capacity_failure_leaks_lease no_digest failed some_route route_key_of (from_secs 10)
    half_opened.1 half_opened.2 1 RateLimited (Some 429) false false false false (from_secs 11)
    route_key_of (from_secs 12) failed_ok _ _ _ _ _); try (vm_compute; reflexivity).
  split; [reflexivity|left; reflexivity].
Defined.

Lemma failure_lifecycle_witness :
  exists cooldown, 0 <= cooldown /\ forall t, cooldown <= t ->
    exists registry lease, reserve failed some_route route_key_of t = Some (registry, Ready lease) /\
      hl_half_open lease = true.
Proof.
  destruct (failure_lifecycle no_digest fresh some_route route_key_of TransientServer None None 0
    false false false false fresh_ok) as (cooldown & step & _ & Hnn & _ & _ & _ & Hready).
  - reflexivity.
  - split; [reflexivity|discriminate].
  - exact I.
  - reflexivity.
  - vm_compute. reflexivity.
  - exists cooldown. split; [exact Hnn|]. intros t Ht.
    destruct (Hready t Ht) as (registry & lease & Hres & Hhalf & _).
    exists registry, lease. split; [exact Hres|exact Hhalf].
Defined.

Lemma passthrough_admits_witness :
  exists registry lease,
    reserve (set_route_health_enforcement_enabled failed false) some_route route_key_of 1 =
      Some (registry, Ready lease) /\ hl_half_open lease = false.
Proof.
  destruct (passthrough_admits (set_route_health_enforcement_enabled failed false) some_route
    route_key_of 1 eq_refl) as (registry & lease & Hres & _ & Hhalf & _).
  exists registry, lease. split; [exact Hres|exact Hhalf].
Defined.

Lemma failure_step_bounds_witness :
  failure_step (HealthState_new 0) TransientServer 0 false 2 false <= 2.
Proof.
  refine (proj1 (proj2 (proj2 (proj2 (failure_step_bounds (HealthState_new 0) TransientServer 0
    false 2 false (HealthState_new_ok 0) _)))) eq_refl _).
  - split; discriminate.
  - left. discriminate.
Defined.

Lemma tuning_only_shortens_witness :
  exists registry' state', update_runtime_tuning failed shipped_tuning (from_secs 1) = Some registry' /\
    rh_routes registry' !! some_route = Some state' /\
    health_retry_after state' (from_secs 1) <= rh_transient_route_cooldown_max registry'.
Proof.
  destruct (update_runtime_tuning failed shipped_tuning (from_secs 1)) as [registry'|] eqn:Ht;
    [|vm_compute in Ht; discriminate].
  edestruct (tuning_only_shortens failed shipped_tuning (from_secs 1) registry' some_route)
    as (state' & Hs & _ & _ & _ & _ & _ & Hmax & _); [vm_compute; reflexivity|exact Ht|].
  exists registry', state'. split; [reflexivity|]. split; [exact Hs|]. apply Hmax. vm_compute. reflexivity.
Defined.
