(* ===== verification/ProbeQueue.v ===== *)
(** * The capability probe queue

    [ProbeQueueState] of [src/src/capabilities/probe_queue.rs]: the jobs waiting
    for a probe, the probes in flight, and the limits on both. A key has at most
    one waiting job and at most one probe in flight.

    A [BTreeSet] is a [gset] and a [BTreeMap] a [gmap]; the code never uses
    their order. The compiled configuration that a job shares through an [Arc]
    is represented by the digest, the only part of it that the queue reads. *)

From S2P Require Import Prelude RouteTypes.

Local Open Scope Z_scope.

(** ** Data *)

(** [capabilities/types.rs]. *)
Record DialectProfileKey := {
  dk_upstream_id : string;
  dk_key_fingerprint : string;
  dk_runtime_model_slug : string;
  dk_protocol : WireProtocol
}.

#[export] Instance DialectProfileKey_eq_dec : EqDecision DialectProfileKey.
Proof. solve_decision. Defined.

#[export] Instance DialectProfileKey_countable : Countable DialectProfileKey.
Proof.
  refine (inj_countable'
    (fun k => (dk_upstream_id k, dk_key_fingerprint k, dk_runtime_model_slug k, dk_protocol k))
    (fun '(u, f, m, p) => {| dk_upstream_id := u; dk_key_fingerprint := f;
                            dk_runtime_model_slug := m; dk_protocol := p |}) _).
  by intros [].
Defined.

Inductive ProbeReason :=
| ConfigurationChanged
| ModelDiscovered
| ScheduledRefresh
| DialectError
| Manual.

Definition is_automatic (reason : ProbeReason) : bool :=
  match reason with Manual => false | _ => true end.

Inductive ProbeMode := Full | Reasoning.

#[export] Instance ProbeMode_eq_dec : EqDecision ProbeMode.
Proof. solve_decision. Defined.

Record ProbeConfigurationBinding := {
  pb_configuration_fingerprint : string;
  pb_configuration_digest : string;
  pb_configuration_schema_version : Z;
  pb_configuration_revision : Z;
  pb_probe_schema_version : Z
}.

#[export] Instance ProbeConfigurationBinding_eq_dec : EqDecision ProbeConfigurationBinding.
Proof. solve_decision. Defined.

Record ProbeJob := {
  pj_key : DialectProfileKey;
  pj_exposed_model_slugs : gset string;
  pj_reason : ProbeReason;
  pj_mode : ProbeMode;
  pj_configuration : ProbeConfigurationBinding;
  pj_plan_configuration_digest : string
}.

Inductive ProbeQueueEnqueueOutcome :=
| Enqueued
| Unchanged
| Replaced (discarded : ProbeJob).

Record ProbeJobBatch := {
  jb_jobs : list ProbeJob;
  jb_mode : ProbeMode
}.

Record ProbeQueueBatchEnqueueOutcome := {
  bo_remaining : ProbeJobBatch;
  bo_replaced : list ProbeJob
}.

Definition ProbeJobBatch_new (jobs : list ProbeJob) : ProbeJobBatch :=
  {| jb_jobs := jobs; jb_mode := default Full (pj_mode <$> head jobs) |}.

Definition ProbeJobBatch_single (job : ProbeJob) : ProbeJobBatch :=
  {| jb_jobs := [job]; jb_mode := pj_mode job |}.

Definition with_mode (batch : ProbeJobBatch) (mode : ProbeMode) : ProbeJobBatch :=
  {| jb_jobs := map (fun job => {| job with pj_mode := mode |}) (jb_jobs batch);
     jb_mode := mode |}.

Definition batch_is_empty (batch : ProbeJobBatch) : bool := is_empty (jb_jobs batch).

Record ProbeQueueState := {
  pq_pending : list ProbeJob;
  pq_known : gset DialectProfileKey;
  pq_active : gset DialectProfileKey;
  pq_active_jobs : gmap DialectProfileKey ProbeJob;
  pq_active_by_upstream : gmap string Z;
  pq_max_global : Z;
  pq_max_per_upstream : Z;
  pq_max_jobs : Z
}.

(** ** Operations *)

Definition ProbeQueueState_new (max_global max_per_upstream max_jobs : Z) : ProbeQueueState :=
  {| pq_pending := []; pq_known := ∅; pq_active := ∅; pq_active_jobs := ∅;
     pq_active_by_upstream := ∅;
     pq_max_global := Z.max max_global 1;
     pq_max_per_upstream := Z.max max_per_upstream 1;
     pq_max_jobs := Z.max max_jobs 1 |}.

Definition same_job_configuration (left right : ProbeJob) : bool :=
  bool_decide (pj_configuration left = pj_configuration right)
  && String.eqb (pj_plan_configuration_digest left) (pj_plan_configuration_digest right).

Definition has_key (key : DialectProfileKey) (job : ProbeJob) : bool :=
  bool_decide (pj_key job = key).

Definition extend_slugs (job : ProbeJob) (slugs : gset string) : ProbeJob :=
  {| job with pj_exposed_model_slugs := pj_exposed_model_slugs job ∪ slugs |}.

Definition pending_len (queue : ProbeQueueState) : Z := Z.of_nat (length (pq_pending queue)).

Definition active_len (queue : ProbeQueueState) : Z := Z.of_nat (size (pq_active queue)).

Definition is_full (queue : ProbeQueueState) : bool :=
  pq_max_jobs queue <=? active_len queue + pending_len queue.

Definition push_pending (queue : ProbeQueueState) (job : ProbeJob) : ProbeQueueState :=
  {| queue with pq_pending := pq_pending queue ++ [job] |}.

(** [Err]: the job handed back. *)
Definition enqueue_with_outcome (queue : ProbeQueueState) (job : ProbeJob)
    : ProbeQueueState * result ProbeQueueEnqueueOutcome ProbeJob :=
  if bool_decide (pj_key job ∈ pq_known queue) then
    match i ← position (has_key (pj_key job)) (pq_pending queue);
          pending ← pq_pending queue !! i; Some (i, pending) with
    | Some (i, pending) =>
        if same_job_configuration pending job then
          ({| queue with
              pq_pending :=
                <[i := extend_slugs pending (pj_exposed_model_slugs job)]> (pq_pending queue) |},
           Ok Unchanged)
        else ({| queue with pq_pending := <[i := job]> (pq_pending queue) |}, Ok (Replaced pending))
    | None =>
        if bool_decide (pj_key job ∈ pq_active queue) then
          if is_some_and
               (fun active =>
                  same_job_configuration active job
                  && bool_decide (pj_exposed_model_slugs job ⊆ pj_exposed_model_slugs active))
               (pq_active_jobs queue !! pj_key job)
          then (queue, Ok Unchanged)
          else if is_full queue then (queue, Err job)
          else (push_pending queue job, Ok Enqueued)
        else (queue, Ok Unchanged)
    end
  else if is_full queue then (queue, Err job)
  else
    (push_pending {| queue with pq_known := {[pj_key job]} ∪ pq_known queue |} job, Ok Enqueued).

Definition enqueue (queue : ProbeQueueState) (job : ProbeJob) : ProbeQueueState * bool :=
  let '(queue, outcome) := enqueue_with_outcome queue job in
  (queue, match outcome with Ok Enqueued => true | _ => false end).

Fixpoint enqueue_jobs (queue : ProbeQueueState) (jobs replaced : list ProbeJob)
    : ProbeQueueState * ProbeQueueBatchEnqueueOutcome :=
  match jobs with
  | [] => (queue, {| bo_remaining := ProbeJobBatch_new []; bo_replaced := replaced |})
  | job :: jobs =>
      let '(queue, outcome) := enqueue_with_outcome queue job in
      match outcome with
      | Ok (Replaced discarded) => enqueue_jobs queue jobs (replaced ++ [discarded])
      | Ok Enqueued | Ok Unchanged => enqueue_jobs queue jobs replaced
      | Err job =>
          (queue, {| bo_remaining := ProbeJobBatch_new (job :: jobs); bo_replaced := replaced |})
      end
  end.

Definition enqueue_batch_with_outcome (queue : ProbeQueueState) (batch : ProbeJobBatch)
    : ProbeQueueState * ProbeQueueBatchEnqueueOutcome :=
  enqueue_jobs queue (jb_jobs batch) [].

Definition enqueue_batch (queue : ProbeQueueState) (batch : ProbeJobBatch)
    : ProbeQueueState * ProbeJobBatch :=
  let '(queue, outcome) := enqueue_batch_with_outcome queue batch in
  (queue, bo_remaining outcome).

Definition has_reasoning_job (queue : ProbeQueueState) : bool :=
  existsb (fun job => bool_decide (pj_mode job = Reasoning)) (pq_pending queue)
  || existsb (fun kv => bool_decide (pj_mode kv.2 = Reasoning))
       (map_to_list (pq_active_jobs queue)).

Definition set_limits (queue : ProbeQueueState) (max_global max_per_upstream : Z)
    : ProbeQueueState :=
  {| queue with
     pq_max_global := Z.max max_global 1;
     pq_max_per_upstream := Z.max max_per_upstream 1 |}.

Definition clear_pending (queue : ProbeQueueState) : ProbeQueueState * list ProbeJob :=
  ({| queue with pq_pending := []; pq_known := pq_active queue |}, pq_pending queue).

Definition upstream_active (queue : ProbeQueueState) (upstream_id : string) : Z :=
  default 0 (pq_active_by_upstream queue !! upstream_id).

(** Whether a waiting job may start. *)
Definition startable (queue : ProbeQueueState) (job : ProbeJob) : bool :=
  negb (bool_decide (pj_key job ∈ pq_active queue))
  && (upstream_active queue (dk_upstream_id (pj_key job)) <? pq_max_per_upstream queue).

Definition start_next (queue : ProbeQueueState) : ProbeQueueState * option ProbeJob :=
  if pq_max_global queue <=? active_len queue then (queue, None)
  else
    match i ← position (startable queue) (pq_pending queue);
          job ← pq_pending queue !! i; Some (i, job) with
    | None => (queue, None)
    | Some (i, job) =>
        let upstream_id := dk_upstream_id (pj_key job) in
        ({| queue with
            pq_pending := delete i (pq_pending queue);
            pq_active := {[pj_key job]} ∪ pq_active queue;
            pq_active_jobs := <[pj_key job := job]> (pq_active_jobs queue);
            pq_active_by_upstream :=
              <[upstream_id := upstream_active queue upstream_id + 1]>
                (pq_active_by_upstream queue) |},
         Some job)
    end.

(** [count = count.saturating_sub(1)], dropping the entry at zero. *)
Definition release_upstream (counts : gmap string Z) (upstream_id : string) : gmap string Z :=
  match counts !! upstream_id with
  | None => counts
  | Some count =>
      let count := sat_sub count 1 in
      if count =? 0 then delete upstream_id counts else <[upstream_id := count]> counts
  end.

Definition finish_probe_job (queue : ProbeQueueState) (key : DialectProfileKey)
    : ProbeQueueState :=
  let queue :=
    if bool_decide (key ∈ pq_active queue) then
      {| queue with
         pq_active := pq_active queue ∖ {[key]};
         pq_active_jobs := delete key (pq_active_jobs queue);
         pq_active_by_upstream :=
           release_upstream (pq_active_by_upstream queue) (dk_upstream_id key) |}
    else queue in
  if negb (existsb (has_key key) (pq_pending queue))
  then {| queue with pq_known := pq_known queue ∖ {[key]} |} else queue.

(** ** Runs *)

Inductive queue_event :=
| QEnqueue (job : ProbeJob)
| QBatch (batch : ProbeJobBatch)
| QStart
| QFinish (key : DialectProfileKey)
| QLimits (max_global max_per_upstream : Z)
| QClear.

Definition run_queue (queue : ProbeQueueState) (ev : queue_event) : ProbeQueueState :=
  match ev with
  | QEnqueue job => (enqueue_with_outcome queue job).1
  | QBatch batch => (enqueue_batch_with_outcome queue batch).1
  | QStart => (start_next queue).1
  | QFinish key => finish_probe_job queue key
  | QLimits g u => set_limits queue g u
  | QClear => (clear_pending queue).1
  end.

Definition queue_reachable (queue : ProbeQueueState) : Prop :=
  exists g u j events, queue = fold_left run_queue events (ProbeQueueState_new g u j).

(** ** The invariant *)

Definition pending_keys (queue : ProbeQueueState) : list DialectProfileKey :=
  pj_key <$> pq_pending queue.

(** A key is known exactly while it waits or is in flight, waits at most once,
    and the counts by upstream are exact, without zero entries. *)
Record queue_ok (queue : ProbeQueueState) : Prop := {
  q_known : forall key, key ∈ pq_known queue <-> key ∈ pq_active queue \/ key ∈ pending_keys queue;
  q_nodup : NoDup (pending_keys queue);
  q_jobs : dom (pq_active_jobs queue) = pq_active queue;
  q_job_keys : map_Forall (fun key job => pj_key job = key) (pq_active_jobs queue);
  q_counts : forall id, pq_active_by_upstream queue !! id =
    let n := size (upstream_part dk_upstream_id id (pq_active queue)) in
    if bool_decide (n = 0%nat) then None else Some (Z.of_nat n);
  q_capacity : active_len queue + pending_len queue <= pq_max_jobs queue;
  q_limits : 1 <= pq_max_global queue /\ 1 <= pq_max_per_upstream queue
}.

Lemma upstream_active_count queue id :
  queue_ok queue ->
  upstream_active queue id = Z.of_nat (size (upstream_part dk_upstream_id id (pq_active queue))).
Proof.
  intros Hok. unfold upstream_active. rewrite (q_counts _ Hok). simpl.
  case_bool_decide as Hz; simpl; [by rewrite Hz|done].
Qed.

Lemma queue_new_ok g u j : queue_ok (ProbeQueueState_new g u j).
Proof.
  split; unfold pending_keys, active_len, pending_len; simpl; try lia.
  - set_solver.
  - constructor.
  - apply dom_empty_L.
  - apply map_Forall_empty.
  - intros id. rewrite lookup_empty.
    replace (upstream_part dk_upstream_id id ∅) with (∅ : gset DialectProfileKey)
      by (unfold upstream_part; set_solver).
    done.
  - change (Z.of_nat (size (∅ : gset DialectProfileKey)) + 0 <= Z.max j 1).
    rewrite size_empty. lia.
Qed.

Lemma find_pending queue key :
  match i ← position (has_key key) (pq_pending queue);
        pending ← pq_pending queue !! i; Some (i, pending) with
  | Some (i, pending) => pq_pending queue !! i = Some pending /\ pj_key pending = key
  | None => key ∉ pending_keys queue
  end.
Proof.
  destruct (position (has_key key) (pq_pending queue)) as [i|] eqn:Hp; simpl.
  - apply position_Some in Hp as (job & Hl & Hk & _). rewrite Hl. simpl.
    unfold has_key in Hk. by bool_prop.
  - unfold pending_keys. intros (job & -> & Hin)%list_elem_of_fmap.
    pose proof (proj1 (position_None _ _) Hp job Hin) as Hf. unfold has_key in Hf.
    by bool_prop.
Qed.

(** Rewriting a waiting job in place, under the same key. *)
Lemma insert_pending_keys (jobs : list ProbeJob) i job job' :
  jobs !! i = Some job -> pj_key job' = pj_key job ->
  pj_key <$> (<[i:=job']> jobs) = pj_key <$> jobs.
Proof.
  intros Hl Hk. rewrite list_fmap_insert, Hk. apply list_insert_id. by rewrite list_lookup_fmap, Hl.
Qed.

Lemma replace_pending_ok queue i job job' :
  queue_ok queue -> pq_pending queue !! i = Some job -> pj_key job' = pj_key job ->
  queue_ok {| queue with pq_pending := <[i:=job']> (pq_pending queue) |}.
Proof.
  intros [] Hl Hk.
  assert (pending_keys {| queue with pq_pending := <[i:=job']> (pq_pending queue) |}
          = pending_keys queue) as Hkeys by (by eapply insert_pending_keys).
  split; rewrite ?Hkeys; try done.
  unfold pending_len, active_len in *; simpl. by rewrite length_insert.
Qed.

Lemma push_keys queue job : pending_keys (push_pending queue job) = pending_keys queue ++ [pj_key job].
Proof. unfold pending_keys; simpl. by rewrite fmap_app. Qed.

Lemma push_ok queue job :
  queue_ok queue -> pj_key job ∉ pending_keys queue -> pj_key job ∈ pq_active queue ->
  is_full queue = false -> queue_ok (push_pending queue job).
Proof.
  intros [] Hnot Hact Hfull. unfold is_full in Hfull. split; rewrite ?push_keys; try done.
  - intros key. simpl. rewrite q_known0, elem_of_app, list_elem_of_singleton. naive_solver.
  - apply NoDup_app. split_and!; [done|set_solver|apply NoDup_singleton].
  - unfold pending_len, active_len in *; simpl. rewrite length_app. simpl. lia.
Qed.

Lemma push_new_ok queue job :
  queue_ok queue -> pj_key job ∉ pq_known queue -> is_full queue = false ->
  queue_ok (push_pending {| queue with pq_known := {[pj_key job]} ∪ pq_known queue |} job).
Proof.
  intros [] Hnot Hfull. unfold is_full in Hfull. split; rewrite ?push_keys; try done.
  - intros key. simpl. unfold pending_keys at 1. simpl.
    rewrite elem_of_union, elem_of_singleton, q_known0, elem_of_app, list_elem_of_singleton.
    fold (pending_keys queue). tauto.
  - unfold pending_keys; simpl. fold (pending_keys queue). apply NoDup_app.
    split_and!; [done| |apply NoDup_singleton].
    intros key Hk ->%list_elem_of_singleton. apply Hnot, q_known0. by right.
  - unfold pending_len, active_len in *; simpl. rewrite length_app. simpl. lia.
Qed.

Lemma enqueue_with_outcome_ok queue job : queue_ok queue -> queue_ok (enqueue_with_outcome queue job).1.
Proof.
  intros Hok. unfold enqueue_with_outcome. case_bool_decide as Hknown.
  - pose proof (find_pending queue (pj_key job)) as Hfind.
    destruct (_ ≫= _) as [[i pending]|].
    + destruct Hfind as [Hl Hk]. case_match; simpl; by eapply replace_pending_ok.
    + case_bool_decide as Hact; [|done]. case_match; [done|].
      destruct (is_full queue) eqn:Hfull; [done|]. by apply push_ok.
  - destruct (is_full queue) eqn:Hfull; [done|]. by apply push_new_ok.
Qed.

Lemma enqueue_jobs_ok queue jobs replaced :
  queue_ok queue -> queue_ok (enqueue_jobs queue jobs replaced).1.
Proof.
  revert queue replaced. induction jobs as [|job jobs IH]; intros queue replaced Hok; simpl; [done|].
  pose proof (enqueue_with_outcome_ok queue job Hok) as Hok'.
  destruct (enqueue_with_outcome queue job) as [q [[| |d]|j]]; simpl in *; auto.
Qed.

Lemma start_find queue :
  match i ← position (startable queue) (pq_pending queue);
        job ← pq_pending queue !! i; Some (i, job) with
  | Some (i, job) => pq_pending queue !! i = Some job /\ startable queue job = true /\
      Forall (fun job => startable queue job = false) (take i (pq_pending queue))
  | None => Forall (fun job => startable queue job = false) (pq_pending queue)
  end.
Proof.
  destruct (position (startable queue) (pq_pending queue)) as [i|] eqn:Hp; simpl.
  - apply position_Some in Hp as (job & Hl & Hs & Hbefore). rewrite Hl. simpl. split_and!; [done..|].
    apply Forall_lookup. intros j job' Hj. apply lookup_take_Some in Hj as [Hj Hlt]. by eapply Hbefore.
  - apply Forall_forall. by apply position_None.
Qed.

Lemma start_ok queue : queue_ok queue -> queue_ok (start_next queue).1.
Proof.
  intros Hok. unfold start_next. case_match; [done|].
  pose proof (start_find queue) as Hfind. destruct (_ ≫= _) as [[i job]|]; [|done].
  destruct Hfind as (Hl & Hs & _). unfold startable in Hs. bool_prop.
  rewrite (upstream_active_count _ _ Hok).
  pose proof (list_elem_of_lookup_2 _ _ _ Hl) as Hin.
  pose proof (delete_Permutation _ _ _ Hl) as Hperm.
  assert (pending_keys queue ≡ₚ pj_key job :: (pj_key <$> delete i (pq_pending queue))) as Hkeys
    by (unfold pending_keys; by rewrite Hperm at 1).
  destruct Hok. split; try done; unfold pending_keys; simpl.
  - intros key. rewrite q_known0, elem_of_union, elem_of_singleton, Hkeys, elem_of_cons. tauto.
  - rewrite Hkeys in q_nodup0. by apply NoDup_cons in q_nodup0 as [_ ?].
  - rewrite dom_insert_L. set_solver.
  - by apply map_Forall_insert_2.
  - intros id. destruct (decide (dk_upstream_id (pj_key job) = id)) as [<-|Hne].
    + rewrite lookup_insert_eq, upstream_part_add_new by done. simpl. f_equal. lia.
    + rewrite lookup_insert_ne, upstream_part_other by done. apply q_counts0.
  - unfold active_len, pending_len in *; simpl. rewrite size_union by set_solver.
    rewrite size_singleton, length_delete by (by eexists).
    apply lookup_lt_Some in Hl. lia.
Qed.

Lemma release_count queue key id :
  queue_ok queue -> key ∈ pq_active queue ->
  release_upstream (pq_active_by_upstream queue) (dk_upstream_id key) !! id =
    let n := size (upstream_part dk_upstream_id id (pq_active queue ∖ {[key]})) in
    if bool_decide (n = 0%nat) then None else Some (Z.of_nat n).
Proof.
  intros Hok Hact. pose proof (upstream_part_remove dk_upstream_id key (pq_active queue) Hact) as Hs.
  unfold release_upstream. rewrite (q_counts _ Hok). simpl.
  rewrite bool_decide_false by lia. unfold sat_sub.
  destruct (decide (dk_upstream_id key = id)) as [<-|Hne].
  - destruct (Z.max 0 _ =? 0) eqn:Hz.
    + rewrite lookup_delete_eq, bool_decide_true by lia. done.
    + rewrite lookup_insert_eq, bool_decide_false by lia. f_equal. lia.
  - rewrite upstream_part_remove_other by done.
    case_match; rewrite ?lookup_delete_ne, ?lookup_insert_ne by done; apply (q_counts _ Hok).
Qed.

Lemma no_pending_key queue key :
  existsb (has_key key) (pq_pending queue) = false -> key ∉ pending_keys queue.
Proof.
  intros Hno (job & -> & Hin)%list_elem_of_fmap.
  assert (existsb (has_key (pj_key job)) (pq_pending queue) = true); [|congruence].
  apply existsb_exists. exists job. split; [by apply list_elem_of_In|].
  unfold has_key. by rewrite bool_decide_true.
Qed.

Lemma pending_key queue key :
  existsb (has_key key) (pq_pending queue) = true -> key ∈ pending_keys queue.
Proof.
  intros (job & Hin & Hk)%existsb_exists. unfold has_key in Hk. bool_prop. subst.
  by apply list_elem_of_fmap_2, list_elem_of_In.
Qed.

Lemma finish_job_ok queue key : queue_ok queue -> queue_ok (finish_probe_job queue key).
Proof.
  intros Hok. unfold finish_probe_job.
  case_bool_decide as Hact; simpl;
    (destruct (existsb (has_key key) (pq_pending queue)) eqn:Hpend;
      [apply pending_key in Hpend | apply no_pending_key in Hpend]); simpl; try done.
  - pose proof (release_count queue key) as Hrel. destruct Hok.
    split; try done; unfold pending_keys in *; simpl in *.
    + intros k. rewrite q_known0. destruct (decide (k = key)); set_solver.
    + rewrite dom_delete_L. by f_equal.
    + intros k j [_ Hk]%lookup_delete_Some. by apply q_job_keys0.
    + intros. by apply Hrel.
    + unfold active_len, pending_len in *; simpl.
      pose proof (size_remove key (pq_active queue) Hact). lia.
  - pose proof (release_count queue key) as Hrel. destruct Hok.
    split; try done; unfold pending_keys in *; simpl in *.
    + intros k. rewrite elem_of_difference, q_known0. set_solver.
    + rewrite dom_delete_L. by f_equal.
    + intros k j [_ Hk]%lookup_delete_Some. by apply q_job_keys0.
    + intros. by apply Hrel.
    + unfold active_len, pending_len in *; simpl.
      pose proof (size_remove key (pq_active queue) Hact). lia.
  - destruct Hok. split; try done; unfold pending_keys in *; simpl in *.
    intros k. rewrite elem_of_difference, q_known0. set_solver.
Qed.

Lemma run_queue_ok queue ev : queue_ok queue -> queue_ok (run_queue queue ev).
Proof.
  intros Hok. destruct ev; simpl.
  - by apply enqueue_with_outcome_ok.
  - by apply enqueue_jobs_ok.
  - by apply start_ok.
  - by apply finish_job_ok.
  - destruct Hok. split; try done. simpl. lia.
  - destruct Hok. split; try done; unfold pending_keys; simpl.
    + set_solver.
    + constructor.
    + unfold active_len, pending_len in *; simpl. lia.
Qed.

Lemma queue_reachable_ok queue : queue_reachable queue -> queue_ok queue.
Proof.
  intros (g & u & j & events & ->).
  assert (forall q, queue_ok q -> queue_ok (fold_left run_queue events q)) as Hrun.
  { induction events as [|ev events IH]; intros q Hq; simpl; [done|]. by apply IH, run_queue_ok. }
  apply Hrun, queue_new_ok.
Qed.

(** ** Properties *)

(** In every reachable queue: waiting and running jobs together stay within
    the bound; a key waits at most once and runs at most once; the keys known
    are exactly the waiting and the running ones; the count of each upstream is
    the number of its running probes. *)
Theorem probe_queue_invariant queue :
  queue_reachable queue ->
  active_len queue + pending_len queue <= pq_max_jobs queue /\
  NoDup (pj_key <$> pq_pending queue) /\
  dom (pq_active_jobs queue) = pq_active queue /\
  (forall key, key ∈ pq_known queue <->
     key ∈ pq_active queue \/ key ∈ pj_key <$> pq_pending queue) /\
  (forall id, upstream_active queue id =
     Z.of_nat (size (upstream_part dk_upstream_id id (pq_active queue)))).
Proof.
  intros Hok%queue_reachable_ok. split_and!; try apply Hok. intros. by apply upstream_active_count.
Qed.

(** Starting probes is FIFO under the limits. [start_next] starts nothing
    when the global limit is reached or every waiting job is blocked (its key is
    running, or its upstream is at its limit), and then changes nothing; else it
    takes the first job that is not blocked, keeps the others in order, and
    leaves both limits respected. *)
Theorem start_next_spec queue :
  queue_reachable queue ->
  match start_next queue with
  | (queue', None) => queue' = queue /\
      (pq_max_global queue <= active_len queue \/
       Forall (fun job => startable queue job = false) (pq_pending queue))
  | (queue', Some job) => exists before after,
      pq_pending queue = before ++ job :: after /\ pq_pending queue' = before ++ after /\
      Forall (fun job => startable queue job = false) before /\
      startable queue job = true /\
      pq_active queue' = {[pj_key job]} ∪ pq_active queue /\
      pq_active_jobs queue' !! pj_key job = Some job /\
      active_len queue' = active_len queue + 1 /\
      active_len queue' <= pq_max_global queue' /\
      upstream_active queue' (dk_upstream_id (pj_key job)) <= pq_max_per_upstream queue'
  end.
Proof.
  intros Hok%queue_reachable_ok. unfold start_next.
  destruct (pq_max_global queue <=? active_len queue) eqn:Hg; [split; [done|left; lia]|].
  pose proof (start_find queue) as Hfind. destruct (_ ≫= _) as [[i job]|]; [|by split; [|right]].
  destruct Hfind as (Hl & Hs & Hbefore). exists (take i (pq_pending queue)), (drop (S i) (pq_pending queue)).
  simpl. rewrite lookup_insert_eq. pose proof Hs as Hs'. unfold startable in Hs'. bool_prop.
  assert (active_len {| queue with pq_active := {[pj_key job]} ∪ pq_active queue |} =
          active_len queue + 1) as Hlen.
  { unfold active_len; simpl. rewrite size_union by set_solver. rewrite size_singleton. lia. }
  unfold active_len in Hlen |- *; simpl in *. unfold active_len in Hg.
  split_and!; try done.
  - by rewrite take_drop_middle.
  - by rewrite delete_take_drop.
  - lia.
  - unfold upstream_active at 1; simpl. rewrite lookup_insert_eq. simpl. lia.
Qed.

(** A job whose work is waiting or under way. *)
Definition covered (queue : ProbeQueueState) (job : ProbeJob) : Prop :=
  exists job', (job' ∈ pq_pending queue \/ pq_active_jobs queue !! pj_key job = Some job') /\
    pj_key job' = pj_key job /\ same_job_configuration job' job = true /\
    pj_exposed_model_slugs job ⊆ pj_exposed_model_slugs job'.

Lemma same_configuration_refl job : same_job_configuration job job = true.
Proof.
  unfold same_job_configuration. by rewrite bool_decide_true, String.eqb_refl.
Qed.

Lemma same_configuration_sym job job' :
  same_job_configuration job job' = same_job_configuration job' job.
Proof.
  unfold same_job_configuration. rewrite String.eqb_sym. f_equal.
  by apply bool_decide_ext.
Qed.

(** No probe request is lost. [enqueue] hands the job back only when the queue
    is full, changing nothing; otherwise the job's work (its key, configuration
    and models) is covered by a waiting or a running job afterwards, and a
    waiting job is displaced, and reported, only by one of the same key and
    another configuration. *)
Theorem enqueue_loses_nothing queue job :
  queue_reachable queue ->
  match enqueue_with_outcome queue job with
  | (queue', Err job') => job' = job /\ queue' = queue /\ is_full queue = true
  | (queue', Ok outcome) =>
      covered queue' job /\
      match outcome with
      | Unchanged => pending_len queue' = pending_len queue
      | Enqueued => pq_pending queue' = pq_pending queue ++ [job]
      | Replaced old => exists i, pq_pending queue !! i = Some old /\ pj_key old = pj_key job /\
          same_job_configuration old job = false /\ pq_pending queue' = <[i:=job]> (pq_pending queue)
      end
  end.
Proof.
  intros Hok%queue_reachable_ok. unfold enqueue_with_outcome. case_bool_decide as Hknown.
  - pose proof (find_pending queue (pj_key job)) as Hfind. destruct (_ ≫= _) as [[i pending]|].
    + destruct Hfind as [Hl Hk]. pose proof (lookup_lt_Some _ _ _ Hl).
      destruct (same_job_configuration pending job) eqn:Hs.
      * split; [|unfold pending_len; simpl; by rewrite length_insert].
        exists (extend_slugs pending (pj_exposed_model_slugs job)). split_and!; [|done|done|set_solver].
        left. simpl. eapply list_elem_of_lookup_2, list_lookup_insert_eq. lia.
      * split; [|by exists i]. exists job. split_and!; [|done|apply same_configuration_refl|done].
        left. simpl. eapply list_elem_of_lookup_2, list_lookup_insert_eq. lia.
    + rewrite bool_decide_true by (apply (q_known _ Hok) in Hknown; tauto).
      destruct (is_some_and _ _) eqn:Hcov.
      * split; [|done]. destruct (pq_active_jobs queue !! pj_key job) as [active|] eqn:Ha; [|done].
        simpl in Hcov. bool_prop. exists active. split_and!; [by right|by eapply (q_job_keys _ Hok)|done|done].
      * destruct (is_full queue) eqn:Hf; [done|]. split; [|done].
        exists job. split_and!; [|done|apply same_configuration_refl|done].
        left. simpl. apply elem_of_app. right. by left.
  - destruct (is_full queue) eqn:Hf; [done|]. split; [|done].
    exists job. split_and!; [|done|apply same_configuration_refl|done].
    left. simpl. apply elem_of_app. right. by left.
Qed.

(** ** Witnesses *)

Definition some_profile : DialectProfileKey :=
  {| dk_upstream_id := "up"; dk_key_fingerprint := "k"; dk_runtime_model_slug := "m";
     dk_protocol := Responses |}.

Definition some_job : ProbeJob :=
  {| pj_key := some_profile; pj_exposed_model_slugs := {["m"]}; pj_reason := Manual;
     pj_mode := Full;
     pj_configuration := {| pb_configuration_fingerprint := "f"; pb_configuration_digest := "d";
                            pb_configuration_schema_version := 1; pb_configuration_revision := 1;
                            pb_probe_schema_version := 1 |};
     pj_plan_configuration_digest := "d" |}.

Definition one_waiting : ProbeQueueState := run_queue (ProbeQueueState_new 2 1 4) (QEnqueue some_job).

Lemma one_waiting_reachable : queue_reachable one_waiting.
Proof. by exists 2, 1, 4, [QEnqueue some_job]. Qed.

Lemma probe_queue_invariant_witness :
  active_len one_waiting + pending_len one_waiting <= pq_max_jobs one_waiting.
Proof. exact (proj1 (probe_queue_invariant one_waiting one_waiting_reachable)). Defined.

Lemma start_next_spec_witness :
  (start_next one_waiting).2 = Some some_job /\
  exists before after, pq_pending one_waiting = before ++ some_job :: after.
Proof.
  split; [vm_compute; reflexivity|].
  pose proof (start_next_spec one_waiting one_waiting_reachable) as H.
  change (start_next one_waiting) with ((start_next one_waiting).1, Some some_job) in H.
  destruct H as (before & after & Hp & _). exists before, after. exact Hp.
Defined.

Lemma enqueue_loses_nothing_witness :
  covered (enqueue_with_outcome one_waiting some_job).1 some_job.
Proof.
  pose proof (enqueue_loses_nothing one_waiting some_job one_waiting_reachable) as H.
  change (enqueue_with_outcome one_waiting some_job)
    with ((enqueue_with_outcome one_waiting some_job).1,
          Ok (E:=ProbeJob) Unchanged) in H.
  exact (proj1 H).
Defined.
