(* ===== verification/RuntimeHints.v ===== *)
(** * Runtime capability hints

    [RuntimeCapabilityHints] of [src/src/capabilities/runtime_hints.rs]: what
    recent rejections taught about a route, per feature value or for the whole
    protocol, each fact bound to a configuration fingerprint and to an expiry,
    in a map of bounded size. *)

From S2P Require Import Prelude RouteTypes ProbeQueue.

Local Open Scope Z_scope.

Definition RUNTIME_CAPABILITY_HINT_CAPACITY : Z := 16384.
Definition RUNTIME_CAPABILITY_HINT_TTL : Duration := from_secs (15 * 60).

(** ** Data *)

(** [capabilities/types.rs]. *)
Inductive Capability :=
| TextInput
| NonStreamingResponse
| ImageHttps
| ImageDataUrl
| ImageDetail
| NativeFileId
| FunctionTools
| NamespaceTools
| CustomTools
| HostedTools
| ParallelToolCalls
| ForcedToolChoice
| ToolContinuation
| ReasoningOutput
| ReasoningReplay
| TextStream
| ReasoningStream
| IndexedToolArgumentStream
| UsageStream
| StructuredOutput.

#[export] Instance Capability_eq_dec : EqDecision Capability.
Proof. solve_decision. Defined.

Definition Capability_ALL : list Capability :=
  [ TextInput; NonStreamingResponse; ImageHttps; ImageDataUrl; ImageDetail; NativeFileId;
    FunctionTools; NamespaceTools; CustomTools; HostedTools; ParallelToolCalls;
    ForcedToolChoice; ToolContinuation; ReasoningOutput; ReasoningReplay; TextStream;
    ReasoningStream; IndexedToolArgumentStream; UsageStream; StructuredOutput ].

(** The position of a capability in the list. *)
Definition capability_index (capability : Capability) : nat :=
  default 0%nat (position (fun c => bool_decide (c = capability)) Capability_ALL).

#[export] Instance Capability_countable : Countable Capability.
Proof.
  refine (inj_countable capability_index (fun n => Capability_ALL !! n) _).
  by intros [].
Defined.

Inductive CapabilityHintDiscriminator :=
| Feature (capability : Capability) (value : option string)
| Protocol.

#[export] Instance CapabilityHintDiscriminator_eq_dec : EqDecision CapabilityHintDiscriminator.
Proof. solve_decision. Defined.

#[export] Instance CapabilityHintDiscriminator_countable : Countable CapabilityHintDiscriminator.
Proof.
  refine (inj_countable'
    (fun d => match d with Feature c v => Some (c, v) | Protocol => None end)
    (fun o => match o with Some (c, v) => Feature c v | None => Protocol end) _).
  by intros [].
Defined.

Record CapabilityHintKey := {
  hk_profile : DialectProfileKey;
  hk_discriminator : CapabilityHintDiscriminator
}.

#[export] Instance CapabilityHintKey_eq_dec : EqDecision CapabilityHintKey.
Proof. solve_decision. Defined.

#[export] Instance CapabilityHintKey_countable : Countable CapabilityHintKey.
Proof.
  refine (inj_countable' (fun k => (hk_profile k, hk_discriminator k))
    (fun '(p, d) => {| hk_profile := p; hk_discriminator := d |}) _).
  by intros [].
Defined.

Definition feature_hint (profile : DialectProfileKey) (capability : Capability)
    (value : option string) : CapabilityHintKey :=
  {| hk_profile := profile; hk_discriminator := Feature capability value |}.

Definition protocol_hint (profile : DialectProfileKey) : CapabilityHintKey :=
  {| hk_profile := profile; hk_discriminator := Protocol |}.

Record RuntimeCapabilityHintEntry := {
  he_configuration_fingerprint : string;
  he_expires_at : Instant
}.

(** [RuntimeCapabilityHintSnapshot]: the fingerprint of each hint. *)
Definition RuntimeCapabilityHintSnapshot : Type := gmap CapabilityHintKey string.

Record RuntimeCapabilityHints := {
  rch_entries : gmap CapabilityHintKey RuntimeCapabilityHintEntry;
  rch_capacity : Z;
  rch_ttl : Duration
}.

(** ** Operations *)

Definition RuntimeCapabilityHints_new (capacity : Z) (ttl : Duration) : RuntimeCapabilityHints :=
  {| rch_entries := ∅; rch_capacity := Z.max capacity 1; rch_ttl := Z.max ttl (from_secs 1) |}.

Definition RuntimeCapabilityHints_default : RuntimeCapabilityHints :=
  RuntimeCapabilityHints_new RUNTIME_CAPABILITY_HINT_CAPACITY RUNTIME_CAPABILITY_HINT_TTL.

Definition with_entries (hints : RuntimeCapabilityHints)
    (entries : gmap CapabilityHintKey RuntimeCapabilityHintEntry) : RuntimeCapabilityHints :=
  {| hints with rch_entries := entries |}.

(** [self.entries.retain(...)]. *)
Definition retain_entries (f : CapabilityHintKey -> RuntimeCapabilityHintEntry -> bool)
    (hints : RuntimeCapabilityHints) : RuntimeCapabilityHints :=
  with_entries hints
    (filter (fun kv : CapabilityHintKey * RuntimeCapabilityHintEntry => f kv.1 kv.2)
       (rch_entries hints)).

Definition prune_expired (hints : RuntimeCapabilityHints) (now : Instant)
    : RuntimeCapabilityHints :=
  retain_entries (fun _ entry => now <? he_expires_at entry) hints.

Definition hint_insert `{!IterOrder CapabilityHintKey RuntimeCapabilityHintEntry}
    (hints : RuntimeCapabilityHints) (key : CapabilityHintKey)
    (configuration_fingerprint : string) (now : Instant) : RuntimeCapabilityHints * bool :=
  let hints := prune_expired hints now in
  let entries := rch_entries hints in
  let entry := {| he_configuration_fingerprint := configuration_fingerprint;
                  he_expires_at := now + rch_ttl hints |} in
  match entries !! key with
  | Some old =>
      (with_entries hints (<[key:=entry]> entries),
       negb (String.eqb (he_configuration_fingerprint old) configuration_fingerprint))
  | None =>
      let entries :=
        if rch_capacity hints <=? Z.of_nat (size entries) then
          match min_by (key_ltb (fun kv => he_expires_at kv.2)) (iter_order entries) with
          | Some (oldest, _) => delete oldest entries
          | None => entries
          end
        else entries in
      (with_entries hints (<[key:=entry]> entries), true)
  end.

Definition hint_is_active (hints : RuntimeCapabilityHints) (key : CapabilityHintKey)
    (configuration_fingerprint : string) (now : Instant) : RuntimeCapabilityHints * bool :=
  let hints := prune_expired hints now in
  let same := fun entry =>
    String.eqb (he_configuration_fingerprint entry) configuration_fingerprint in
  let matches := is_some_and same (rch_entries hints !! key) in
  if negb matches && is_some_and (fun entry => negb (same entry)) (rch_entries hints !! key)
  then (with_entries hints (delete key (rch_entries hints)), matches)
  else (hints, matches).

Definition hint_remove (hints : RuntimeCapabilityHints) (key : CapabilityHintKey)
    : RuntimeCapabilityHints * bool :=
  (with_entries hints (delete key (rch_entries hints)), is_some (rch_entries hints !! key)).

(** Whether an entry is about this profile under this configuration. *)
Definition about_profile (profile : DialectProfileKey) (configuration_fingerprint : string)
    (key : CapabilityHintKey) (fingerprint : string) : bool :=
  bool_decide (hk_profile key = profile) && String.eqb fingerprint configuration_fingerprint.

Definition clear_profile (hints : RuntimeCapabilityHints) (profile : DialectProfileKey)
    (configuration_fingerprint : string) : RuntimeCapabilityHints :=
  retain_entries (fun key entry =>
    negb (bool_decide (hk_profile key = profile))
    || negb (String.eqb (he_configuration_fingerprint entry) configuration_fingerprint)) hints.

Definition clear_features_for_success (hints : RuntimeCapabilityHints)
    (profile : DialectProfileKey) (configuration_fingerprint : string)
    (capabilities : gset Capability) (requested_value : option string) : RuntimeCapabilityHints :=
  retain_entries (fun key entry =>
    if negb (about_profile profile configuration_fingerprint key
               (he_configuration_fingerprint entry)) then true
    else
      match hk_discriminator key with
      | Feature capability value =>
          if bool_decide (capability ∈ capabilities)
          then negb (bool_decide (value = requested_value)) else true
      | Protocol => true
      end) hints.

Definition clear_after_conclusive_probe (hints : RuntimeCapabilityHints)
    (profile : DialectProfileKey) (configuration_fingerprint : string)
    (capabilities : gset Capability) : RuntimeCapabilityHints :=
  retain_entries (fun key entry =>
    if negb (about_profile profile configuration_fingerprint key
               (he_configuration_fingerprint entry)) then true
    else
      match hk_discriminator key with
      | Protocol => false
      | Feature capability _ => negb (bool_decide (capability ∈ capabilities))
      end) hints.

Definition retain_current (hints : RuntimeCapabilityHints)
    (is_current : CapabilityHintKey -> string -> bool) (now : Instant) : RuntimeCapabilityHints :=
  retain_entries (fun key entry => is_current key (he_configuration_fingerprint entry))
    (prune_expired hints now).

Definition hint_snapshot (hints : RuntimeCapabilityHints) (now : Instant)
    : RuntimeCapabilityHints * RuntimeCapabilityHintSnapshot :=
  let hints := prune_expired hints now in
  (hints, he_configuration_fingerprint <$> rch_entries hints).

Definition hint_len (hints : RuntimeCapabilityHints) : Z := Z.of_nat (size (rch_entries hints)).

(** ** Reading a snapshot *)

Definition blocks_protocol (snapshot : RuntimeCapabilityHintSnapshot)
    (profile : DialectProfileKey) (configuration_fingerprint : string) : bool :=
  existsb (fun '(key, fingerprint) =>
    about_profile profile configuration_fingerprint key fingerprint
    && bool_decide (hk_discriminator key = Protocol)) (map_to_list snapshot).

Definition blocked_features (snapshot : RuntimeCapabilityHintSnapshot)
    (profile : DialectProfileKey) (configuration_fingerprint : string)
    (requested_value : option string) : list (Capability * option string) :=
  omap (fun '(key, fingerprint) =>
    if negb (about_profile profile configuration_fingerprint key fingerprint) then None
    else
      match hk_discriminator key with
      | Feature capability value =>
          if is_none_or (fun value => bool_decide (Some value = requested_value)) value
          then Some (capability, value) else None
      | Protocol => None
      end) (map_to_list snapshot).

(** ** Facts *)

Lemma retain_entries_lookup f hints key :
  rch_entries (retain_entries f hints) !! key = opt_filter (f key) (rch_entries hints !! key).
Proof.
  unfold retain_entries; simpl. rewrite map_lookup_filter.
  destruct (rch_entries hints !! key) as [e|]; simpl; [|done].
  destruct (f key e) eqn:Hf.
  - rewrite option_guard_True; done.
  - rewrite option_guard_False; [done|]. simpl. tauto.
Qed.

Lemma prune_lookup hints now key :
  rch_entries (prune_expired hints now) !! key =
  opt_filter (fun entry => now <? he_expires_at entry) (rch_entries hints !! key).
Proof. apply retain_entries_lookup. Qed.

Lemma retain_size f hints : hint_len (retain_entries f hints) <= hint_len hints.
Proof. unfold hint_len; simpl. apply inj_le, map_size_filter. Qed.

Lemma hint_active_result hints key fingerprint now :
  (hint_is_active hints key fingerprint now).2 =
  is_some_and (fun entry => (now <? he_expires_at entry)
                            && String.eqb (he_configuration_fingerprint entry) fingerprint)
    (rch_entries hints !! key).
Proof.
  unfold hint_is_active. rewrite prune_lookup.
  destruct (rch_entries hints !! key) as [e|]; simpl; [|done].
  destruct (now <? he_expires_at e); simpl; [|done].
  by destruct (String.eqb _ _).
Qed.

Lemma snapshot_lookup hints now key :
  (hint_snapshot hints now).2 !! key =
  he_configuration_fingerprint <$>
    opt_filter (fun entry => now <? he_expires_at entry) (rch_entries hints !! key).
Proof.
  rewrite <- prune_lookup.
  exact (lookup_fmap he_configuration_fingerprint (rch_entries (prune_expired hints now)) key).
Qed.

Lemma active_snapshot hints key fingerprint now :
  (hint_is_active hints key fingerprint now).2 = true <->
  (hint_snapshot hints now).2 !! key = Some fingerprint.
Proof.
  rewrite hint_active_result, snapshot_lookup.
  destruct (rch_entries hints !! key) as [e|]; simpl; [|done].
  destruct (now <? he_expires_at e); simpl; [|done].
  rewrite String.eqb_eq. split; [by intros ->|by intros [=]].
Qed.

Lemma about_profile_spec profile f key fingerprint :
  about_profile profile f key fingerprint = true <-> hk_profile key = profile /\ fingerprint = f.
Proof. unfold about_profile. by rewrite andb_true_iff, bool_decide_eq_true, String.eqb_eq. Qed.

(** ** Properties *)

(** A snapshot answers as the live hints would at the time it was taken: it
    blocks the protocol of a profile exactly when the protocol hint is active,
    and it blocks a feature, with the value of the hint, exactly when a hint for
    that feature is active and is about every value or the requested one. *)
Theorem snapshot_agrees hints now profile fingerprint requested :
  let snapshot := (hint_snapshot hints now).2 in
  blocks_protocol snapshot profile fingerprint =
    (hint_is_active hints (protocol_hint profile) fingerprint now).2 /\
  (forall capability value,
     (capability, value) ∈ blocked_features snapshot profile fingerprint requested <->
     (hint_is_active hints (feature_hint profile capability value) fingerprint now).2 = true /\
     (value = None \/ value = requested)).
Proof.
  intros snapshot. split.
  - apply eq_true_iff_eq. rewrite active_snapshot. fold snapshot.
    unfold blocks_protocol. rewrite existsb_exists. setoid_rewrite <- list_elem_of_In. split.
    + intros ([[p d] f] & Hin & Ht). apply elem_of_map_to_list in Hin. bool_prop.
      match goal with H : about_profile _ _ _ _ = true |- _ =>
        apply about_profile_spec in H as [Hp Hf] end.
      simpl in *. by subst.
    + intros Hl. exists (protocol_hint profile, fingerprint). split; [by apply elem_of_map_to_list|].
      apply andb_true_iff. split; [by apply about_profile_spec|by apply bool_decide_eq_true].
  - intros capability value. rewrite active_snapshot. fold snapshot.
    unfold blocked_features. rewrite list_elem_of_omap. split.
    + intros ([[p d] f] & Hin & Ht). apply elem_of_map_to_list in Hin.
      destruct (about_profile _ _ _ _) eqn:Ha; [|done]. apply about_profile_spec in Ha as [Hp Hf].
      simpl in *. destruct d as [c v|]; [|done].
      destruct (is_none_or _ v) eqn:Hv; simplify_eq. split; [done|].
      destruct value; simpl in Hv; [right; by bool_prop|by left].
    + intros [Hl Hv]. exists (feature_hint profile capability value, fingerprint).
      split; [by apply elem_of_map_to_list|].
      replace (about_profile _ _ _ _) with true by (symmetry; by apply about_profile_spec).
      simpl. destruct Hv as [->| ->]; [done|]. destruct requested; simpl; [|done].
      by rewrite bool_decide_true.
Qed.

Section insertion.
  Context `{!IterOrder CapabilityHintKey RuntimeCapabilityHintEntry}.

(** Inserting a hint. The hint is active, for its own fingerprint only, until
    its time to live has passed; the table never exceeds its capacity; and every
    other hint that has not expired is still there, unless the table was full of
    live hints, when the one that gives way is one of those that expire first. *)
Theorem hint_insert_spec hints key fingerprint now :
  1 <= rch_capacity hints -> hint_len hints <= rch_capacity hints -> 0 < rch_ttl hints ->
  let hints' := (hint_insert hints key fingerprint now).1 in
  (forall fingerprint' t, now <= t ->
     (hint_is_active hints' key fingerprint' t).2 =
     (t <? now + rch_ttl hints) && String.eqb fingerprint fingerprint') /\
  hint_len hints' <= rch_capacity hints /\
  (forall key' entry', key' <> key -> rch_entries hints !! key' = Some entry' ->
     now < he_expires_at entry' ->
     rch_entries hints' !! key' = Some entry' \/
     (rch_entries hints' !! key' = None /\
      rch_capacity hints = Z.of_nat (size (rch_entries (prune_expired hints now))) /\
      forall key'' entry'', rch_entries hints !! key'' = Some entry'' ->
        now < he_expires_at entry'' -> he_expires_at entry' <= he_expires_at entry'')).
Proof.
  intros Hcap Hlen Httl hints'.
  pose proof (retain_size (fun _ entry => now <? he_expires_at entry) hints) as Hsize.
  fold (prune_expired hints now) in Hsize. unfold hint_len in *.
  subst hints'. unfold hint_insert.
  destruct (rch_entries (prune_expired hints now) !! key) as [old|] eqn:Hold.
  { cbn [fst]. split_and!.
    - intros f t Ht. rewrite hint_active_result. simpl. by rewrite lookup_insert_eq.
    - simpl. simpl in Hold. rewrite map_size_insert_Some by (by eexists). simpl in Hsize. lia.
    - intros k e Hne Hl He. left. simpl. rewrite lookup_insert_ne by done.
      pose proof (prune_lookup hints now k) as Hp. simpl in Hp. rewrite Hp, Hl. simpl.
      by replace (now <? he_expires_at e) with true by lia. }
  cbn [fst]. set (live := rch_entries (prune_expired hints now)) in *.
  change (rch_capacity (prune_expired hints now)) with (rch_capacity hints).
  set (kept := match rch_capacity hints <=? Z.of_nat (size live) with true => _ | false => live end).
  assert (Hkept : Z.of_nat (size kept) + 1 <= rch_capacity hints /\ kept !! key = None).
  { subst kept. destruct (rch_capacity hints <=? Z.of_nat (size live)) eqn:Hfull; [|split; [simpl in *; lia|done]].
    destruct (min_by _ (iter_order live)) as [[oldest e]|] eqn:Hmin.
    - apply min_by_elem, elem_of_iter_order in Hmin.
      rewrite lookup_delete_None. split; [|by right].
      rewrite map_size_delete_Some by (by eexists). simpl in Hfull.
      assert (size live <> 0)%nat by (intros Hz%map_size_empty_inv; by rewrite Hz in Hmin). lia.
    - apply min_by_None in Hmin. pose proof (iter_order_length live) as Hl. rewrite Hmin in Hl.
      simpl in Hl, Hfull. lia. }
  destruct Hkept as [Hk Hnone]. split_and!.
  - intros f t Ht. rewrite hint_active_result. simpl. by rewrite lookup_insert_eq.
  - simpl. rewrite map_size_insert_None by done. lia.
  - intros k e Hne Hl He. simpl. rewrite lookup_insert_ne by done.
    assert (live !! k = Some e) as Hlive.
    { subst live. rewrite prune_lookup, Hl. simpl. by replace (now <? he_expires_at e) with true by lia. }
    subst kept. destruct (rch_capacity hints <=? Z.of_nat (size live)) eqn:Hfull; [|by left].
    destruct (min_by _ (iter_order live)) as [[oldest eo]|] eqn:Hmin; [|by left].
    destruct (decide (oldest = k)) as [->|Hko]; [right|left; by rewrite lookup_delete_ne].
    pose proof (min_by_elem _ _ _ Hmin) as Hin. apply elem_of_iter_order in Hin. simplify_eq.
    split_and!; [apply lookup_delete_eq|simpl in *; lia|].
    intros k2 e2 Hl2 He2. apply (min_by_key_least _ _ _ (k2, e2) Hmin).
    apply elem_of_iter_order. subst live. rewrite prune_lookup, Hl2. simpl.
    by replace (now <? he_expires_at e2) with true by lia.
Qed.

End insertion.

(** ** Witness *)

#[export] Instance hint_order : IterOrder CapabilityHintKey RuntimeCapabilityHintEntry :=
  canonical_order _ _.

Lemma hint_insert_spec_witness :
  (hint_is_active (hint_insert RuntimeCapabilityHints_default (protocol_hint some_profile) "f" 0).1
     (protocol_hint some_profile) "f" (from_secs 60)).2 = true.
Proof.
  refine (proj1 (hint_insert_spec RuntimeCapabilityHints_default (protocol_hint some_profile)
    "f" 0 _ _ _) "f" (from_secs 60) _); vm_compute; first [reflexivity | discriminate].
Defined.
