(* ===== verification/ModelIdentity.v ===== *)
(** * Model identity

    Which spellings name the same model: [src/src/state/model_identity.rs] and
    [codex_subagent_base_model] of [src/src/state.rs].

    A Rust [String] is the [string] of its UTF-8 bytes. [str::trim] is written
    on bytes: a valid UTF-8 text starts (ends) with a white-space character
    exactly when its bytes start (end) with the encoding of one, and the list
    [white_space] holds the encodings of all characters with the Unicode
    property White_Space. *)

From S2P Require Import Prelude.

Local Open Scope Z_scope.

(** ** Text *)

Definition bytes (s : string) : list Ascii.ascii := String.list_ascii_of_string s.
Definition text (l : list Ascii.ascii) : string := String.string_of_list_ascii l.

Definition code (l : list Z) : list Ascii.ascii := map (fun b => Ascii.ascii_of_N (Z.to_N b)) l.

(** Hexadecimal digits: [{byte:02x}] of every byte. *)
Definition hex_digit (n : Z) : Ascii.ascii :=
  default Ascii.zero (String.get (Z.to_nat n) "0123456789abcdef").

Definition hex (bytes : list Z) : string :=
  foldr (fun byte acc => String (hex_digit (byte / 16)) (String (hex_digit (byte mod 16)) acc))
    EmptyString bytes.

(** The UTF-8 encodings of the characters with property White_Space: U+0009 to
    U+000D, U+0020, U+0085, U+00A0, U+1680, U+2000 to U+200A, U+2028, U+2029,
    U+202F, U+205F, U+3000. *)
Definition white_space : list (list Ascii.ascii) := map code
  [ [9]; [10]; [11]; [12]; [13]; [32]; [194; 133]; [194; 160]; [225; 154; 128];
    [226; 128; 128]; [226; 128; 129]; [226; 128; 130]; [226; 128; 131]; [226; 128; 132];
    [226; 128; 133]; [226; 128; 134]; [226; 128; 135]; [226; 128; 136]; [226; 128; 137];
    [226; 128; 138]; [226; 128; 168]; [226; 128; 169]; [226; 128; 175]; [226; 129; 159];
    [227; 128; 128] ].

Fixpoint strip_prefix (p l : list Ascii.ascii) : option (list Ascii.ascii) :=
  match p, l with
  | [], _ => Some l
  | x :: p, y :: l => if bool_decide (x = y) then strip_prefix p l else None
  | _ :: _, [] => None
  end.

Fixpoint strip_any (ps : list (list Ascii.ascii)) (l : list Ascii.ascii)
    : option (list Ascii.ascii) :=
  match ps with
  | [] => None
  | p :: ps => match strip_prefix p l with Some rest => Some rest | None => strip_any ps l end
  end.

(** Strip from the front as long as something matches; every match takes a
    byte, so the length of the text is enough fuel. *)
Fixpoint trim_front (ps : list (list Ascii.ascii)) (fuel : nat) (l : list Ascii.ascii)
    : list Ascii.ascii :=
  match fuel with
  | O => l
  | S fuel => match strip_any ps l with Some rest => trim_front ps fuel rest | None => l end
  end.

Definition trim_front_bytes (l : list Ascii.ascii) : list Ascii.ascii :=
  trim_front white_space (length l) l.

Definition trim_back_bytes (l : list Ascii.ascii) : list Ascii.ascii :=
  reverse (trim_front (map reverse white_space) (length l) (reverse l)).

Definition trim_bytes (l : list Ascii.ascii) : list Ascii.ascii :=
  trim_back_bytes (trim_front_bytes l).

(** [str::trim]. *)
Definition trim (s : string) : string := text (trim_bytes (bytes s)).

(** [str::trim_end]. *)
Definition trim_end (s : string) : string := text (trim_back_bytes (bytes s)).

Definition lower_byte (c : Ascii.ascii) : Ascii.ascii :=
  let n := Ascii.N_of_ascii c in
  if (65 <=? n)%N && (n <=? 90)%N then Ascii.ascii_of_N (n + 32) else c.

(** [str::to_ascii_lowercase]. *)
Definition to_ascii_lowercase (s : string) : string := text (map lower_byte (bytes s)).

Definition str_is_empty (s : string) : bool := String.eqb s "".

Definition str_len (s : string) : Z := Z.of_nat (length (bytes s)).

(** [str::is_char_boundary]. *)
Definition is_char_boundary (s : string) (i : nat) : bool :=
  Nat.eqb i 0 || Nat.eqb i (length (bytes s))
  || is_some_and (fun c => negb ((128 <=? Ascii.N_of_ascii c)%N && (Ascii.N_of_ascii c <=? 191)%N))
       (bytes s !! i).

(** [str::split_at], which panics inside a character or past the end. *)
Definition split_at (s : string) (i : nat) : option (string * string) :=
  if Nat.leb i (length (bytes s)) && is_char_boundary s i
  then Some (text (take i (bytes s)), text (drop i (bytes s))) else None.

(** ** Canonical identity *)

Definition canonical_model_id (model : string) : string := to_ascii_lowercase (trim model).

Definition model_identity_key_with (model : string) (case_insensitive : bool) : string :=
  if case_insensitive then canonical_model_id model else trim model.

Definition models_equivalent (a b : string) : bool :=
  let a := trim a in
  let b := trim b in
  negb (str_is_empty a) && negb (str_is_empty b)
  && String.eqb (canonical_model_id a) (canonical_model_id b).

Definition models_equivalent_with (a b : string) (case_insensitive : bool) : bool :=
  let a := model_identity_key_with a case_insensitive in
  let b := model_identity_key_with b case_insensitive in
  negb (str_is_empty a) && String.eqb a b.

(** The outer [option] is the panic of [split_at]. *)
Definition canonical_subagent_base_model_id (model subagent_suffix : string)
    : option (option string) :=
  let model := trim model in
  if str_is_empty model then Some None
  else if str_len model <? str_len subagent_suffix then Some None
  else
    '(base, suffix) ← split_at model (length (bytes model) - length (bytes subagent_suffix));
    Some (if str_is_empty base || negb (String.eqb suffix subagent_suffix) then None
          else Some (canonical_model_id base)).

Definition CODEX_SUBAGENT_MODEL_VARIANT_SUFFIX : string := "-fast-preview".

Definition codex_subagent_base_model (model : string) : option (option string) :=
  let model := trim model in
  if str_len model <? str_len CODEX_SUBAGENT_MODEL_VARIANT_SUFFIX then Some None
  else
    '(base, suffix) ← split_at model
      (length (bytes model) - length (bytes CODEX_SUBAGENT_MODEL_VARIANT_SUFFIX));
    Some (if negb (str_is_empty base) && String.eqb suffix CODEX_SUBAGENT_MODEL_VARIANT_SUFFIX
          then Some base else None).

Definition find_equivalent_stored (stored : list string) (model : string)
    (case_insensitive : bool) : option string :=
  if case_insensitive then
    let canonical := canonical_model_id model in
    if str_is_empty canonical then None
    else find (fun candidate => negb (str_is_empty (trim candidate))
                                && String.eqb (canonical_model_id candidate) canonical) stored
  else
    let model := trim model in
    if str_is_empty model then None
    else find (fun candidate => String.eqb (trim candidate) model) stored.

(** ** Alias rules *)

Record ModelAliasRule := {
  ar_canonical : string;
  ar_aliases : list string
}.

(** The error messages of the registry, by the values they are formatted from. *)
Inductive AliasRuleError :=
| EmptyCanonical
| EmptyAlias (index : Z)
| CanonicalEmptyAfterTrim (canonical : string)
| CanonicalIsAlias (canonical : string)
| AliasEmptyAfterTrim (alias : string)
| AliasIsCanonical (alias : string)
| AliasInTwoRules (alias existing canonical : string).

Definition validate_self (rule : ModelAliasRule) : result unit AliasRuleError :=
  if str_is_empty (trim (ar_canonical rule)) then Err EmptyCanonical
  else
    match position (fun alias => str_is_empty (trim alias)) (ar_aliases rule) with
    | Some i => Err (EmptyAlias (Z.of_nat i))
    | None => Ok tt
    end.

Record ModelAliasRegistry := {
  mr_rules : list ModelAliasRule;
  mr_alias_to_canonical : gmap string string
}.

(** The maps threaded through the loops: the aliases, and the canonical keys
    seen so far. *)
Fixpoint register_aliases (canonical : string) (aliases : list string)
    (alias_to_canonical : gmap string string) (seen_canonicals : gset string)
    : result (gmap string string) AliasRuleError :=
  match aliases with
  | [] => Ok alias_to_canonical
  | alias :: aliases =>
      let alias_key := canonical_model_id alias in
      if str_is_empty alias_key then Err (AliasEmptyAfterTrim alias)
      else if bool_decide (alias_key ∈ seen_canonicals) then Err (AliasIsCanonical alias)
      else
        match alias_to_canonical !! alias_key with
        | Some existing_canonical =>
            if negb (String.eqb (canonical_model_id existing_canonical)
                       (canonical_model_id canonical))
            then Err (AliasInTwoRules alias existing_canonical canonical)
            else register_aliases canonical aliases alias_to_canonical seen_canonicals
        | None =>
            register_aliases canonical aliases (<[alias_key:=canonical]> alias_to_canonical)
              seen_canonicals
        end
  end.

Fixpoint register_rules (rules : list ModelAliasRule) (alias_to_canonical : gmap string string)
    (seen_canonicals : gset string) : result (gmap string string) AliasRuleError :=
  match rules with
  | [] => Ok alias_to_canonical
  | rule :: rules =>
      let? _ := validate_self rule in
      let canonical_key := canonical_model_id (ar_canonical rule) in
      if str_is_empty canonical_key then Err (CanonicalEmptyAfterTrim (ar_canonical rule))
      else if is_some (alias_to_canonical !! canonical_key)
      then Err (CanonicalIsAlias (ar_canonical rule))
      else
        let seen_canonicals := {[canonical_key]} ∪ seen_canonicals in
        let? alias_to_canonical :=
          register_aliases (ar_canonical rule) (ar_aliases rule) alias_to_canonical
            seen_canonicals in
        register_rules rules alias_to_canonical seen_canonicals
  end.

Definition from_rules (rules : list ModelAliasRule) : result ModelAliasRegistry AliasRuleError :=
  let? alias_to_canonical := register_rules rules ∅ ∅ in
  Ok {| mr_rules := rules; mr_alias_to_canonical := alias_to_canonical |}.

Definition resolve_alias (registry : ModelAliasRegistry) (model : string) : option string :=
  let key := canonical_model_id model in
  if str_is_empty key then None else mr_alias_to_canonical registry !! key.

Definition matches_canonical (registry : ModelAliasRegistry) (model canonical : string) : bool :=
  let model_key := canonical_model_id model in
  let canonical_key := canonical_model_id canonical in
  if str_is_empty model_key || str_is_empty canonical_key then false
  else if String.eqb model_key canonical_key then true
  else is_some_and (fun resolved => String.eqb (canonical_model_id resolved) canonical_key)
         (mr_alias_to_canonical registry !! model_key).

Definition all_spellings_for_canonical `{!IterOrder string string}
    (registry : ModelAliasRegistry) (canonical : string) : list string :=
  let canonical_key := canonical_model_id canonical in
  if str_is_empty canonical_key then []
  else
    canonical_key ::
    omap (fun '(alias_key, resolved_canonical) =>
            if String.eqb (canonical_model_id resolved_canonical) canonical_key
            then Some alias_key else None)
      (iter_order (mr_alias_to_canonical registry)).

(** Some runs. *)
Example trim_runs : trim "  GLM-4.5	 " = "GLM-4.5".
Proof. reflexivity. Qed.

Example canonical_runs : canonical_model_id "  GLM-4.5  " = "glm-4.5".
Proof. reflexivity. Qed.

Example subagent_runs : codex_subagent_base_model "gpt-5-fast-preview" = Some (Some "gpt-5").
Proof. reflexivity. Qed.

(** ** Trimming *)

Lemma bytes_text l : bytes (text l) = l.
Proof. apply String.list_ascii_of_string_of_list_ascii. Qed.

Lemma text_bytes s : text (bytes s) = s.
Proof. apply String.string_of_list_ascii_of_string. Qed.

Lemma bytes_inj s s' : bytes s = bytes s' -> s = s'.
Proof. intros H. by rewrite <- (text_bytes s), H, text_bytes. Qed.

Lemma strip_prefix_Some p l rest : strip_prefix p l = Some rest <-> l = p ++ rest.
Proof.
  revert l. induction p as [|x p IH]; intros l; simpl; [naive_solver|].
  destruct l as [|y l]; [naive_solver|]. case_bool_decide; [rewrite IH|]; naive_solver.
Qed.

Lemma strip_any_Some ps l rest :
  strip_any ps l = Some rest -> exists p, p ∈ ps /\ l = p ++ rest.
Proof.
  induction ps as [|p ps IH]; simpl; [done|].
  destruct (strip_prefix p l) eqn:Hp; intros H; simplify_eq.
  - apply strip_prefix_Some in Hp. exists p. split; [by left|done].
  - destruct (IH H) as (q & Hq & Hl). exists q. split; [by right|done].
Qed.

Lemma strip_any_None ps l :
  strip_any ps l = None <-> forall p rest, p ∈ ps -> l <> p ++ rest.
Proof.
  split.
  - intros Hn p rest Hp ->. induction Hp as [p ps|p q ps Hp IH]; simpl in Hn.
    + rewrite (proj2 (strip_prefix_Some p (p ++ rest) rest) eq_refl) in Hn. done.
    + destruct (strip_prefix q (p ++ rest)); [done|by apply IH].
  - intros Hall. destruct (strip_any ps l) as [rest|] eqn:Hs; [|done].
    apply strip_any_Some in Hs as (p & Hp & Hl). by destruct (Hall p rest Hp).
Qed.

Lemma trim_front_suffix ps n l : exists w, l = w ++ trim_front ps n l.
Proof.
  revert l. induction n as [|n IH]; intros l; simpl; [by exists []|].
  destruct (strip_any ps l) as [rest|] eqn:Hs; [|by exists []].
  apply strip_any_Some in Hs as (p & _ & ->). destruct (IH rest) as [w Hw].
  exists (p ++ w). by rewrite <- app_assoc, <- Hw.
Qed.

Lemma trim_front_done ps n l :
  Forall (fun p => p <> []) ps -> (length l <= n)%nat -> strip_any ps (trim_front ps n l) = None.
Proof.
  intros Hne. revert l. induction n as [|n IH]; intros l Hlen; simpl.
  - destruct l; [|simpl in Hlen; lia]. apply strip_any_None. intros p rest Hp Heq.
    rewrite Forall_forall in Hne. specialize (Hne p Hp). by destruct p.
  - destruct (strip_any ps l) as [rest|] eqn:Hs; [|done].
    apply IH. apply strip_any_Some in Hs as (p & Hp & ->). rewrite Forall_forall in Hne.
    specialize (Hne p Hp). destruct p; [done|]. rewrite length_app in Hlen. simpl in Hlen. lia.
Qed.

Lemma trim_front_fixed ps n l : strip_any ps l = None -> trim_front ps n l = l.
Proof. destruct n; simpl; [done|]. by intros ->. Qed.

Lemma white_space_nonempty : Forall (fun p => p <> []) white_space.
Proof. repeat constructor; discriminate. Qed.

Lemma white_space_reversed : Forall (fun p => p <> []) (map reverse white_space).
Proof. repeat constructor; discriminate. Qed.

(** No white space in front, none behind. *)
Definition trimmed (l : list Ascii.ascii) : Prop :=
  strip_any white_space l = None /\ strip_any (map reverse white_space) (reverse l) = None.

Lemma trim_bytes_trimmed l : trimmed (trim_bytes l).
Proof.
  unfold trim_bytes, trim_back_bytes. set (l1 := trim_front_bytes l).
  assert (strip_any white_space l1 = None) as Hfront
    by (apply trim_front_done; [apply white_space_nonempty|done]).
  set (l2 := trim_front (map reverse white_space) (length l1) (reverse l1)).
  split.
  - apply strip_any_None. intros p rest Hp Heq.
    destruct (trim_front_suffix (map reverse white_space) (length l1) (reverse l1)) as [w Hw].
    fold l2 in Hw. apply (f_equal reverse) in Hw. rewrite reverse_involutive, reverse_app, Heq in Hw.
    rewrite <- app_assoc in Hw. eapply strip_any_None in Hfront; [|exact Hp]. by apply Hfront.
  - rewrite reverse_involutive. apply trim_front_done; [apply white_space_reversed|].
    by rewrite length_reverse.
Qed.

Lemma trim_bytes_fixed l : trimmed l -> trim_bytes l = l.
Proof.
  intros [Hf Hb]. unfold trim_bytes, trim_front_bytes, trim_back_bytes.
  rewrite (trim_front_fixed white_space _ l Hf), (trim_front_fixed _ _ (reverse l) Hb).
  apply reverse_involutive.
Qed.

Lemma trim_idempotent s : trim (trim s) = trim s.
Proof. unfold trim. rewrite bytes_text. f_equal. apply trim_bytes_fixed, trim_bytes_trimmed. Qed.

Lemma trim_empty : trim "" = "".
Proof. reflexivity. Qed.

(** Lower case neither makes nor breaks white space. *)
Definition all_bytes : list Ascii.ascii := map Ascii.ascii_of_nat (seq 0 256).

Lemma all_bytes_complete c : c ∈ all_bytes.
Proof.
  apply list_elem_of_fmap. exists (Ascii.nat_of_ascii c). split; [by rewrite Ascii.ascii_nat_embedding|].
  apply elem_of_seq. pose proof (Ascii.nat_ascii_bounded c). lia.
Qed.

Lemma lower_byte_white c p x :
  p ∈ white_space -> x ∈ p -> lower_byte c = x <-> c = x.
Proof.
  intros Hp Hx.
  assert (forallb (fun c => forallb (fun x =>
    Bool.eqb (bool_decide (lower_byte c = x)) (bool_decide (c = x))) (concat white_space)) all_bytes
    = true) as Hall by (vm_compute; reflexivity).
  rewrite forallb_forall in Hall. specialize (Hall c (proj1 (list_elem_of_In _ _) (all_bytes_complete c))).
  rewrite forallb_forall in Hall.
  assert (In x (concat white_space)) as Hin.
  { apply in_concat. exists p. by rewrite <- !list_elem_of_In. }
  specialize (Hall x Hin). apply Bool.eqb_prop in Hall.
  rewrite <- (bool_decide_eq_true (lower_byte c = x)), <- (bool_decide_eq_true (c = x)).
  by rewrite Hall.
Qed.

Lemma strip_prefix_lower p l :
  (forall c x, x ∈ p -> lower_byte c = x <-> c = x) ->
  strip_prefix p (map lower_byte l) = map lower_byte <$> strip_prefix p l.
Proof.
  revert l. induction p as [|x p IH]; intros l Hp; [done|]. destruct l as [|y l]; [done|]. simpl.
  rewrite (bool_decide_ext (x = lower_byte y) (x = y)).
  - case_bool_decide; [|done]. apply IH. intros c z Hz. apply Hp. by right.
  - pose proof (Hp y x ltac:(by left)). naive_solver.
Qed.

Lemma strip_any_lower ps l :
  (forall p c x, p ∈ ps -> x ∈ p -> lower_byte c = x <-> c = x) ->
  strip_any ps l = None -> strip_any ps (map lower_byte l) = None.
Proof.
  induction ps as [|p ps IH]; intros Hps; simpl; [done|].
  rewrite strip_prefix_lower by (intros; apply (Hps p); [by left|done]).
  destruct (strip_prefix p l); simpl; [done|]. apply IH. intros q c x Hq. apply Hps. by right.
Qed.

Lemma trimmed_lower l : trimmed l -> trimmed (map lower_byte l).
Proof.
  intros [Hf Hb]. split.
  - apply strip_any_lower; [|done]. intros p c x. apply lower_byte_white.
  - rewrite <- fmap_reverse. apply strip_any_lower; [|done].
    intros p c x Hp Hx. apply list_elem_of_fmap in Hp as (q & -> & Hq).
    rewrite elem_of_reverse in Hx. exact (lower_byte_white c q x Hq Hx).
Qed.

Lemma lower_byte_idempotent c : lower_byte (lower_byte c) = lower_byte c.
Proof.
  assert (forallb (fun c => bool_decide (lower_byte (lower_byte c) = lower_byte c)) all_bytes = true)
    as Hall by (vm_compute; reflexivity).
  rewrite forallb_forall in Hall.
  specialize (Hall c (proj1 (list_elem_of_In _ _) (all_bytes_complete c))). by bool_prop.
Qed.

Lemma trim_canonical s : trim (canonical_model_id s) = canonical_model_id s.
Proof.
  unfold canonical_model_id, to_ascii_lowercase, trim. rewrite !bytes_text. f_equal.
  apply trim_bytes_fixed, trimmed_lower, trim_bytes_trimmed.
Qed.

Lemma canonical_trim s : canonical_model_id (trim s) = canonical_model_id s.
Proof. unfold canonical_model_id. by rewrite trim_idempotent. Qed.

Lemma canonical_idempotent s : canonical_model_id (canonical_model_id s) = canonical_model_id s.
Proof.
  unfold canonical_model_id at 1. rewrite trim_canonical.
  unfold canonical_model_id, to_ascii_lowercase. rewrite !bytes_text. f_equal.
  rewrite map_map. apply map_ext. apply lower_byte_idempotent.
Qed.

Lemma str_is_empty_true s : str_is_empty s = true <-> s = "".
Proof. apply String.eqb_eq. Qed.

Lemma canonical_empty s : canonical_model_id s = "" <-> trim s = "".
Proof.
  unfold canonical_model_id, to_ascii_lowercase. split; [|by intros ->].
  intros H. apply (f_equal bytes) in H. rewrite bytes_text in H. apply bytes_inj.
  by destruct (bytes (trim s)).
Qed.

Lemma canonical_is_empty s : str_is_empty (canonical_model_id s) = str_is_empty (trim s).
Proof. apply eq_true_iff_eq. rewrite !str_is_empty_true. apply canonical_empty. Qed.

(** ** Properties of identity *)

Lemma equivalent_with_true a b :
  models_equivalent_with a b true = true <->
  canonical_model_id a = canonical_model_id b /\ trim a <> "".
Proof.
  unfold models_equivalent_with, model_identity_key_with.
  rewrite andb_true_iff, negb_true_iff, String.eqb_eq, canonical_is_empty.
  rewrite <- (Bool.not_true_iff_false (str_is_empty (trim a))), str_is_empty_true. tauto.
Qed.

Lemma equivalent_with_false a b :
  models_equivalent_with a b false = true <-> trim a = trim b /\ trim a <> "".
Proof.
  unfold models_equivalent_with, model_identity_key_with.
  rewrite andb_true_iff, negb_true_iff, String.eqb_eq.
  rewrite <- (Bool.not_true_iff_false (str_is_empty (trim a))), str_is_empty_true. tauto.
Qed.

Lemma models_equivalent_eq a b : models_equivalent a b = models_equivalent_with a b true.
Proof.
  apply eq_true_iff_eq. rewrite equivalent_with_true. unfold models_equivalent.
  rewrite !andb_true_iff, !negb_true_iff, String.eqb_eq, !canonical_trim.
  rewrite <- (Bool.not_true_iff_false (str_is_empty (trim a))).
  rewrite <- (Bool.not_true_iff_false (str_is_empty (trim b))), !str_is_empty_true.
  split; [tauto|]. intros [Heq Ha]. split_and!; [done| |done].
  intros Hb. apply Ha, canonical_empty. rewrite Heq. by apply canonical_empty.
Qed.

(** Model identity is a partial equivalence under either setting of the
    switch, defined on every name that is not blank; it ignores surrounding white
    space, and with folding it is the plain comparison and relates every name to
    its canonical form, which is a fixed point. *)
Theorem identity_is_equivalence ci :
  (forall a b, models_equivalent_with a b ci = models_equivalent_with b a ci) /\
  (forall a b c, models_equivalent_with a b ci = true -> models_equivalent_with b c ci = true ->
     models_equivalent_with a c ci = true) /\
  (forall a, models_equivalent_with a a ci = true <-> trim a <> "") /\
  (forall a b, models_equivalent_with (trim a) b ci = models_equivalent_with a b ci) /\
  (forall a b, models_equivalent_with a b true = models_equivalent a b) /\
  (forall a, trim a <> "" -> models_equivalent_with a (canonical_model_id a) true = true) /\
  (forall a, canonical_model_id (canonical_model_id a) = canonical_model_id a).
Proof.
  assert (forall a b, canonical_model_id a = canonical_model_id b -> trim a <> "" -> trim b <> "")
    as Hne by (intros a b Heq Ha Hb; apply Ha, canonical_empty; rewrite Heq; by apply canonical_empty).
  assert (forall a b, models_equivalent_with a b ci = true -> models_equivalent_with b a ci = true)
    as Hsym.
  { intros a b. destruct ci; first [rewrite !equivalent_with_true | rewrite !equivalent_with_false].
    - intros [Heq Ha]. split; [done|by eapply Hne].
    - intros [Heq Ha]. split; congruence. }
  split_and!.
  - intros a b. apply eq_true_iff_eq. split; apply Hsym.
  - intros a b c. destruct ci; first [rewrite !equivalent_with_true | rewrite !equivalent_with_false];
      intros [? ?] [? ?]; split; congruence.
  - intros a. destruct ci; first [rewrite !equivalent_with_true | rewrite !equivalent_with_false]; tauto.
  - intros a b. apply eq_true_iff_eq.
    destruct ci; first [rewrite !equivalent_with_true | rewrite !equivalent_with_false];
      rewrite ?canonical_trim, ?trim_idempotent; tauto.
  - intros a b. by rewrite models_equivalent_eq.
  - intros a Ha. apply equivalent_with_true. by rewrite canonical_idempotent.
  - apply canonical_idempotent.
Qed.

(** A text of 14 bytes: one character of three bytes and eleven letters. *)
Definition straddling : string := text (code [230; 150; 135; 97; 98; 99; 100; 101; 102; 103; 104; 105; 106; 107]).

Lemma str_is_empty_false s : str_is_empty s = false <-> s <> "".
Proof. rewrite <- Bool.not_true_iff_false. by rewrite str_is_empty_true. Qed.

Lemma bytes_app s s' : bytes (s +:+ s') = bytes s ++ bytes s'.
Proof.
  induction s as [|c s IH]; [done|].
  change (c :: bytes (s +:+ s') = c :: (bytes s ++ bytes s')). by rewrite IH.
Qed.

(** The base of a subagent variant. [codex_subagent_base_model] finds the base
    exactly when the trimmed name is a non-empty base followed by the suffix; and
    it panics exactly when the name is long enough and the place where the suffix
    would start is inside a character, as in a name of one Chinese character and
    eleven letters. *)
Theorem subagent_base_spec model :
  (codex_subagent_base_model model = None <->
   (length (bytes CODEX_SUBAGENT_MODEL_VARIANT_SUFFIX) <= length (bytes (trim model)))%nat /\
   is_char_boundary (trim model)
     (length (bytes (trim model)) - length (bytes CODEX_SUBAGENT_MODEL_VARIANT_SUFFIX)) = false) /\
  (forall base, codex_subagent_base_model model = Some (Some base) <->
     base <> "" /\ trim model = base +:+ CODEX_SUBAGENT_MODEL_VARIANT_SUFFIX) /\
  codex_subagent_base_model straddling = None.
Proof.
  unfold codex_subagent_base_model, str_len, split_at.
  set (m := trim model). set (suffix := CODEX_SUBAGENT_MODEL_VARIANT_SUFFIX).
  set (n := (length (bytes m) - length (bytes suffix))%nat).
  assert (length (bytes suffix) = 13%nat) as Hlen by reflexivity.
  split_and!; [| |vm_compute; reflexivity].
  - destruct (_ <? _) eqn:Hlt; [split; [done|lia]|].
    destruct (Nat.leb_spec n (length (bytes m))); [|subst n; lia]. simpl.
    destruct (is_char_boundary m n); simpl; [split; [done|naive_solver]|split; [split; [lia|done]|done]].
  - intros base. destruct (_ <? _) eqn:Hlt.
    { split; [done|]. intros [_ Heq]. fold m in Heq. apply (f_equal (fun s => length (bytes s))) in Heq.
      rewrite bytes_app, length_app in Heq. fold suffix in Heq. lia. }
    destruct (Nat.leb_spec n (length (bytes m))); [|subst n; lia]. simpl.
    assert (forall b, m = b +:+ suffix -> bytes m = bytes b ++ bytes suffix /\ n = length (bytes b)) as Happ.
    { intros b ->. rewrite bytes_app. split; [done|]. subst n. rewrite bytes_app, length_app. lia. }
    destruct (is_char_boundary m n) eqn:Hb; simpl.
    + split.
      * intros H'. destruct (negb _ && _) eqn:Ht; simplify_eq. bool_prop.
        rewrite str_is_empty_false in *. split; [done|].
        apply bytes_inj. rewrite bytes_app, bytes_text.
        match goal with Hs : String.eqb _ _ = true |- _ => apply String.eqb_eq in Hs; rewrite <- Hs end.
        by rewrite bytes_text, take_drop.
      * intros [Hne Heq]. destruct (Happ base Heq) as [Hm Hn].
        rewrite Hm, Hn, take_app_length, drop_app_length, !text_bytes.
        rewrite (proj2 (str_is_empty_false base) Hne), String.eqb_refl. done.
    + split; [done|]. intros [Hne Heq]. exfalso. destruct (Happ base Heq) as [Hm Hn].
      unfold is_char_boundary in Hb. rewrite Hm, Hn in Hb.
      rewrite lookup_app_r, Nat.sub_diag in Hb by lia. simpl in Hb.
      rewrite orb_true_r in Hb. done.
Qed.

(** ** The alias registry *)

(** What the maps hold after the rules [done]. *)
Record aliases_ok (processed : list ModelAliasRule) (m : gmap string string) (seen : gset string)
    : Prop := {
  al_sound : forall key c, m !! key = Some c -> key <> "" /\
    exists rule alias, rule ∈ processed /\ c = ar_canonical rule /\ alias ∈ ar_aliases rule /\
                       canonical_model_id alias = key;
  al_complete : forall rule alias, rule ∈ processed -> alias ∈ ar_aliases rule ->
    canonical_model_id alias <> "" /\
    exists c, m !! canonical_model_id alias = Some c /\
              canonical_model_id c = canonical_model_id (ar_canonical rule);
  al_seen : forall rule, rule ∈ processed -> canonical_model_id (ar_canonical rule) ∈ seen /\
    canonical_model_id (ar_canonical rule) <> "";
  al_disjoint : forall key, key ∈ seen -> m !! key = None
}.

Lemma elem_of_snoc {A} (l : list A) x y : y ∈ l ++ [x] <-> y ∈ l \/ y = x.
Proof. by rewrite elem_of_app, list_elem_of_singleton. Qed.

(** Extending the aliases of the rule in progress. *)
Definition partial_rule (rule : ModelAliasRule) (past : list string) : ModelAliasRule :=
  {| ar_canonical := ar_canonical rule; ar_aliases := past |}.

Lemma aliases_ok_extend processed rule past alias m m' seen :
  aliases_ok (processed ++ [partial_rule rule past]) m seen ->
  canonical_model_id alias <> "" ->
  (forall key c, m !! key = Some c -> m' !! key = Some c) ->
  (forall key c, m' !! key = Some c ->
     m !! key = Some c \/ (key = canonical_model_id alias /\ c = ar_canonical rule)) ->
  (exists c, m' !! canonical_model_id alias = Some c /\
     canonical_model_id c = canonical_model_id (ar_canonical rule)) ->
  (forall key, key ∈ seen -> m' !! key = None) ->
  aliases_ok (processed ++ [partial_rule rule (past ++ [alias])]) m' seen.
Proof.
  intros [Hs Hc Hseen Hd] Hne Hkeep Hnew Hthis Hdis. split; [| | |done].
  - intros k c [Hk|[-> ->]]%Hnew.
    + destruct (Hs k c Hk) as (Hnek & r & a & [Hr| ->]%elem_of_snoc & -> & Ha & Hka).
      * split; [done|]. exists r, a. rewrite elem_of_snoc. auto.
      * split; [done|]. exists (partial_rule rule (past ++ [alias])), a. rewrite elem_of_snoc.
        split_and!; [by right|done|simpl; apply elem_of_app; by left|done].
    + split; [done|]. exists (partial_rule rule (past ++ [alias])), alias.
      rewrite elem_of_snoc. split_and!; [by right|done|simpl; apply elem_of_snoc; by right|done].
  - intros r a [Hr| ->]%elem_of_snoc Ha.
    + destruct (Hc r a) as (Hna & c & Hl & Heq); [apply elem_of_snoc; by left|done|].
      split; [done|]. exists c. auto.
    + simpl in Ha. apply elem_of_snoc in Ha as [Ha| ->]; [|done].
      destruct (Hc (partial_rule rule past) a) as (Hna & c & Hl & Heq);
        [apply elem_of_snoc; by right|done|]. split; [done|]. exists c. auto.
  - intros r [Hr| ->]%elem_of_snoc.
    + apply Hseen, elem_of_snoc. by left.
    + apply (Hseen (partial_rule rule past)), elem_of_snoc. by right.
Qed.

Lemma register_aliases_ok processed rule past aliases m m' seen :
  aliases_ok (processed ++ [partial_rule rule past]) m seen ->
  register_aliases (ar_canonical rule) aliases m seen = Ok m' ->
  aliases_ok (processed ++ [partial_rule rule (past ++ aliases)]) m' seen.
Proof.
  revert past m. induction aliases as [|alias aliases IH]; intros past m Hok; simpl.
  { intros. simplify_eq. by rewrite app_nil_r. }
  destruct (str_is_empty (canonical_model_id alias)) eqn:He; [done|].
  case_bool_decide as Hseen; [done|]. apply str_is_empty_false in He.
  set (key := canonical_model_id alias) in *.
  replace (past ++ alias :: aliases) with ((past ++ [alias]) ++ aliases) by (by rewrite <- app_assoc).
  pose proof (al_disjoint _ _ _ Hok) as Hd.
  destruct (m !! key) as [existing|] eqn:Hm.
  - destruct (String.eqb_spec (canonical_model_id existing) (canonical_model_id (ar_canonical rule)));
      simpl; [|done].
    apply IH. eapply aliases_ok_extend; [exact Hok|done|done|by left| |done]. by exists existing.
  - apply IH. eapply aliases_ok_extend; [exact Hok|done| | | |].
    + intros k c Hk. rewrite lookup_insert_ne; [done|congruence].
    + intros k c [[<- <-]|[_ Hk]]%lookup_insert_Some; [by right|by left].
    + exists (ar_canonical rule). by rewrite lookup_insert_eq.
    + intros k Hk. rewrite lookup_insert_ne; [by apply Hd|]. intros <-. done.
Qed.

Lemma register_rules_ok processed rules m m' seen :
  aliases_ok processed m seen -> register_rules rules m seen = Ok m' ->
  exists seen', aliases_ok (processed ++ rules) m' seen'.
Proof.
  revert processed m seen. induction rules as [|rule rules IH]; intros processed m seen Hok; simpl.
  { intros. simplify_eq. exists seen. by rewrite app_nil_r. }
  destruct (validate_self rule); [|done].
  destruct (str_is_empty (canonical_model_id (ar_canonical rule))) eqn:He; [done|].
  destruct (m !! canonical_model_id (ar_canonical rule)) eqn:Hm; simpl; [done|].
  apply str_is_empty_false in He.
  destruct (register_aliases _ _ _ _) as [m1|] eqn:Hr; [|done]. intros Hrules.
  replace (processed ++ rule :: rules) with ((processed ++ [rule]) ++ rules) by (by rewrite <- app_assoc).
  eapply IH; [|exact Hrules].
  replace rule with (partial_rule rule ([] ++ ar_aliases rule)) at 1 by (by destruct rule).
  eapply register_aliases_ok; [|exact Hr]. destruct Hok as [Hs Hc Hseen Hd]. split.
  - intros k c Hk. destruct (Hs k c Hk) as (Hne & r & a & Hin & Hrest). split; [done|].
    exists r, a. rewrite elem_of_snoc. auto.
  - intros r a [Hin| ->]%elem_of_snoc Ha; [by apply Hc|]. simpl in Ha. by apply elem_of_nil in Ha.
  - intros r [Hin| ->]%elem_of_snoc.
    + destruct (Hseen r Hin). split; [|done]. apply elem_of_union. by right.
    + split; [|done]. apply elem_of_union. left. by apply elem_of_singleton.
  - intros k [->%elem_of_singleton|Hk]%elem_of_union; [done|by apply Hd].
Qed.

Lemma from_rules_ok rules registry :
  from_rules rules = Ok registry ->
  exists seen, aliases_ok rules (mr_alias_to_canonical registry) seen.
Proof.
  unfold from_rules. destruct (register_rules rules ∅ ∅) as [m|] eqn:Hr; [|done].
  intros. simplify_eq/=. apply (register_rules_ok [] rules ∅ m ∅); [|done].
  split; intros *; [by rewrite lookup_empty|by intros ?%elem_of_nil|by intros ?%elem_of_nil|set_solver].
Qed.

(** An accepted set of alias rules is unambiguous. Every alias of every rule
    resolves, to a spelling of that rule's canonical name; whatever resolves does
    so by the alias of some rule, to that rule's canonical name as written, and
    that name does not resolve further; [matches_canonical] agrees; and the
    spellings listed for a canonical name are exactly the keys that match it. *)
Theorem alias_rules_unambiguous `{!IterOrder string string} rules registry :
  from_rules rules = Ok registry ->
  (forall rule alias, rule ∈ rules -> alias ∈ ar_aliases rule ->
     exists c, resolve_alias registry alias = Some c /\
               models_equivalent_with c (ar_canonical rule) true = true) /\
  (forall model c, resolve_alias registry model = Some c ->
     resolve_alias registry c = None /\ matches_canonical registry model c = true /\
     exists rule alias, rule ∈ rules /\ c = ar_canonical rule /\ alias ∈ ar_aliases rule /\
       models_equivalent_with alias model true = true) /\
  (forall model canonical, canonical_model_id model ∈ all_spellings_for_canonical registry canonical <->
     matches_canonical registry model canonical = true).
Proof.
  intros [seen Hok]%from_rules_ok. destruct Hok as [Hs Hc Hseen Hd].
  assert (forall r, r ∈ rules -> resolve_alias registry (ar_canonical r) = None) as Hcanon.
  { intros r Hr. unfold resolve_alias. case_match; [done|]. by apply Hd, Hseen. }
  split_and!.
  - intros rule alias Hr Ha. destruct (Hc rule alias Hr Ha) as (Hne & c & Hl & Heq). exists c.
    unfold resolve_alias. rewrite (proj2 (str_is_empty_false _) Hne). split; [done|].
    apply equivalent_with_true. split; [done|]. rewrite <- canonical_empty, Heq. by apply Hseen.
  - intros model c Hres. unfold resolve_alias in Hres.
    destruct (str_is_empty (canonical_model_id model)) eqn:He; [done|].
    destruct (Hs _ _ Hres) as (Hne & r & a & Hr & -> & Ha & Hka).
    split_and!; [by apply Hcanon| |].
    + unfold matches_canonical. rewrite He. destruct (Hseen r Hr) as [_ Hcne].
      rewrite (proj2 (str_is_empty_false _) Hcne). simpl. rewrite Hres. simpl.
      rewrite String.eqb_refl. by case_match.
    + exists r, a. split_and!; [done..|]. apply equivalent_with_true. split; [done|].
      by rewrite <- canonical_empty, Hka.
  - intros model canonical. unfold all_spellings_for_canonical, matches_canonical.
    destruct (str_is_empty (canonical_model_id canonical)) eqn:Hce.
    { rewrite orb_true_r. split; [by intros ?%elem_of_nil|done]. }
    apply str_is_empty_false in Hce. rewrite elem_of_cons, list_elem_of_omap.
    assert ((exists x, x ∈ iter_order (mr_alias_to_canonical registry) /\
      (let '(alias_key, resolved) := x in
       if String.eqb (canonical_model_id resolved) (canonical_model_id canonical)
       then Some alias_key else None) = Some (canonical_model_id model)) <->
      is_some_and (fun resolved => String.eqb (canonical_model_id resolved) (canonical_model_id canonical))
        (mr_alias_to_canonical registry !! canonical_model_id model) = true) as ->.
    { split.
      - intros ([k c] & Hin & Hk). apply elem_of_iter_order in Hin.
        destruct (String.eqb _ _) eqn:Heq; simplify_eq. by rewrite Hin.
      - destruct (mr_alias_to_canonical registry !! _) as [c|] eqn:Hl; simpl; [|done]. intros Heq.
        exists (canonical_model_id model, c). rewrite elem_of_iter_order. by rewrite Heq. }
    rewrite orb_false_r. destruct (str_is_empty (canonical_model_id model)) eqn:Hme.
    + apply str_is_empty_true in Hme. rewrite Hme. split; [|done]. intros [Heq|Ht]; [congruence|].
      destruct (mr_alias_to_canonical registry !! "") as [c|] eqn:Hl; [|done].
      by destruct (Hs _ _ Hl).
    + destruct (String.eqb_spec (canonical_model_id model) (canonical_model_id canonical)); tauto.
Qed.

(** ** Witness *)

#[export] Instance spelling_order : IterOrder string string := canonical_order _ _.

Definition glm_rule : ModelAliasRule :=
  {| ar_canonical := "GLM-4.5"; ar_aliases := ["glm45"; "Glm-4-5"] |}.

Lemma alias_rules_unambiguous_witness :
  exists registry, from_rules [glm_rule] = Ok registry /\
    exists c, resolve_alias registry "glm45" = Some c /\
              models_equivalent_with c "GLM-4.5" true = true.
Proof.
  eexists. split; [vm_compute; reflexivity|].
  eapply (proj1 (alias_rules_unambiguous [glm_rule] _ _) glm_rule "glm45"); [left|left].
  Unshelve. vm_compute. reflexivity.
Defined.
