(* ===== verification/UpstreamConfig.v ===== *)
(** * Upstream configuration

    [impl UpstreamConfig] of [src/src/state/normalize.rs]: normalisation for
    storage, validation, and the resolution of a requested model to the
    spelling an upstream serves, with its keys; and the predicates of
    [src/src/state/route_health.rs] that tell which health entries still belong
    to the configuration.

    [HashSet] and [HashMap] are [gset] and [gmap]; a [BTreeMap] is a [gmap]
    iterated in the byte order of its keys. The outer [option] of the
    resolution functions is the panic of [codex_subagent_base_model]. Log
    statements are left out, and an error message is represented by the values
    it is formatted from. *)

From S2P Require Import Prelude RouteTypes ModelIdentity.

Local Open Scope Z_scope.

(** ** Data *)

Record UpstreamModelMapping := {
  mm_upstream_model : string;
  mm_downstream_model : string
}.

Record ApiKeyModelConfig := {
  km_api_key : string;
  km_supported_models : list string
}.

Record ModelContextConfig := {
  mc_slug : string;
  mc_context_limit : Z;
  mc_output_reserve : Z;
  mc_max_output_tokens : Z;
  mc_context_group : string
}.

Record DefaultModelContextConfig := {
  dc_context_limit : Z;
  dc_output_reserve : Z;
  dc_max_output_tokens : Z;
  dc_context_group : string
}.

(** What to do with optional fields that an upstream may not know. *)
Inductive NonstandardFieldPolicy := StripAuto | StripAlways | StripForward.

#[export] Instance NonstandardFieldPolicy_eq_dec : EqDecision NonstandardFieldPolicy.
Proof. solve_decision. Defined.

(** The fields that the functions of the library read or write. *)
Record UpstreamConfig := {
  uc_id : string;
  uc_name : string;
  uc_remark : string;
  uc_continuation_provider_group : option string;
  uc_api_key : string;
  uc_api_keys : list string;
  uc_api_key_models : list ApiKeyModelConfig;
  uc_protocol : UpstreamProtocol;
  uc_protocols : list UpstreamProtocol;
  uc_supported_models : list string;
  uc_model_mappings : list UpstreamModelMapping;
  uc_model_contexts : list ModelContextConfig;
  uc_default_model_context : option DefaultModelContextConfig;
  uc_request_quota_window_hours : Z;
  uc_priority : Z;
  uc_weight : Z;
  uc_max_concurrency : Z;
  uc_active : bool;
  uc_failure_count : Z;
  uc_base_url : string;
  uc_dialect_preset : option string;
  uc_model_dialect_presets : gmap string string;
  uc_strip_nonstandard_chat_fields : NonstandardFieldPolicy
}.

Record DownstreamModelEntry := {
  de_model : string;
  de_from_mapping : bool
}.

Inductive ConfigurationError :=
| MaxConcurrencyZero
| BadProviderGroup
| EmptyUpstreamModel (index : Z)
| EmptyDownstreamModel (index : Z) (upstream : string)
| UpstreamMappedTwice (upstream : string) (other_index : Z)
| DownstreamMappedTwice (downstream : string) (other_index : Z)
| DownstreamCollides (downstream : string) (index : Z) (collision : string)
| DownstreamIsAlias (downstream canonical : string).

(** The entries of a [BTreeMap] in order. *)
Definition btree_entries {V} (m : gmap string V) : list (string * V) :=
  sort_by (fun x y => String.leb x.1 y.1) (map_to_list m).

(** ** Lists of strings *)

Definition parse_upstream_protocol (value : string) : UpstreamProtocol :=
  if String.eqb value "Responses" || String.eqb value "responses"
  then UpResponses else UpChatCompletions.

Definition dedup_protocols (values : list UpstreamProtocol) : list UpstreamProtocol :=
  fold_left (fun normalized protocol =>
    if bool_decide (protocol ∈ normalized) then normalized else normalized ++ [protocol])
    values [].

(** Trim, drop the blank ones and the ones already seen. *)
Fixpoint normalize_seen (seen : gset string) (values : list string) : list string :=
  match values with
  | [] => []
  | value :: values =>
      let value := trim value in
      if str_is_empty value || bool_decide (value ∈ seen) then normalize_seen seen values
      else value :: normalize_seen ({[value]} ∪ seen) values
  end.

Definition normalized_string_list (values : list string) : list string := normalize_seen ∅ values.

Definition normalized_current_keys (api_key : string) (api_keys : list string) : list string :=
  normalized_string_list (api_key :: api_keys).

(** One round of the loop: the entries so far and where each key is. *)
Definition merge_key_models (current_keys : list string)
    (acc : list ApiKeyModelConfig * gmap string nat) (value : ApiKeyModelConfig)
    : list ApiKeyModelConfig * gmap string nat :=
  let '(normalized, positions) := acc in
  let api_key := trim (km_api_key value) in
  if str_is_empty api_key || negb (bool_decide (api_key ∈ current_keys)) then acc
  else
    let supported_models := normalized_string_list (km_supported_models value) in
    match positions !! api_key with
    | Some index =>
        (alter (fun entry =>
           {| entry with
              km_supported_models :=
                normalized_string_list (km_supported_models entry ++ supported_models) |})
           index normalized,
         positions)
    | None =>
        (normalized ++ [{| km_api_key := api_key; km_supported_models := supported_models |}],
         <[api_key := length normalized]> positions)
    end.

Definition normalized_api_key_models (values : list ApiKeyModelConfig)
    (current_keys : list string) : list ApiKeyModelConfig :=
  let '(normalized, positions) :=
    fold_left (merge_key_models current_keys) values ([], ∅) in
  normalized ++
  map (fun api_key => {| km_api_key := api_key; km_supported_models := [] |})
    (retain (fun api_key => is_none (positions !! api_key)) current_keys).

Definition derive_supported_models (key_models : list ApiKeyModelConfig) : list string :=
  normalized_string_list (concat (map km_supported_models key_models)).

(** ** Contexts *)

Definition default_model_context_output_reserve : Z := 2048.

(** [context_limit] and [output_reserve], clamped. *)
Definition clamp_reserve (context_limit output_reserve : Z) : Z :=
  let output_reserve :=
    if output_reserve =? 0 then default_model_context_output_reserve else output_reserve in
  Z.min output_reserve (Z.max (sat_sub context_limit 1) 1).

Fixpoint normalize_contexts (seen : gset string) (values : list ModelContextConfig)
    : list ModelContextConfig :=
  match values with
  | [] => []
  | config :: values =>
      let slug := trim (mc_slug config) in
      if str_is_empty slug || bool_decide (slug ∈ seen) then normalize_contexts seen values
      else
        let context_limit := Z.max (mc_context_limit config) 2 in
        {| mc_slug := slug;
           mc_context_limit := context_limit;
           mc_output_reserve := clamp_reserve context_limit (mc_output_reserve config);
           mc_max_output_tokens := mc_max_output_tokens config;
           mc_context_group := trim (mc_context_group config) |}
        :: normalize_contexts ({[slug]} ∪ seen) values
  end.

Definition normalized_model_contexts (values : list ModelContextConfig)
    : list ModelContextConfig := normalize_contexts ∅ values.

Definition normalized_default_model_context (value : option DefaultModelContextConfig)
    : option DefaultModelContextConfig :=
  context ← value;
  if dc_context_limit context =? 0 then None
  else
    let context_limit := Z.max (dc_context_limit context) 2 in
    Some {| dc_context_limit := context_limit;
            dc_output_reserve := clamp_reserve context_limit (dc_output_reserve context);
            dc_max_output_tokens := dc_max_output_tokens context;
            dc_context_group := trim (dc_context_group context) |}.

(** ** Reading a configuration *)

Definition supported_protocols (self : UpstreamConfig) : list UpstreamProtocol :=
  dedup_protocols
    (if is_empty (uc_protocols self) then [uc_protocol self] else uc_protocols self).

Definition supports_protocol (self : UpstreamConfig) (protocol : UpstreamProtocol) : bool :=
  bool_decide (protocol ∈ supported_protocols self).

(** The same loop as [normalized_string_list], on borrowed strings. *)
Definition route_models (self : UpstreamConfig) : list string :=
  normalized_string_list (uc_supported_models self).

Definition available_keys (self : UpstreamConfig) : list string :=
  normalized_current_keys (uc_api_key self) (uc_api_keys self).

(** The first live mapping of the requested name: the stored spelling it leads
    to. A mapping that does not match, is blank or is stale is passed over. *)
Fixpoint resolve_mappings (route_models : list string) (mappings : list UpstreamModelMapping)
    (model : string) (case_insensitive : bool) : option string :=
  match mappings with
  | [] => None
  | mapping :: mappings =>
      let downstream := trim (mm_downstream_model mapping) in
      let upstream := trim (mm_upstream_model mapping) in
      let matches :=
        if case_insensitive then models_equivalent_with downstream model true
        else String.eqb downstream model in
      if negb matches || str_is_empty upstream
      then resolve_mappings route_models mappings model case_insensitive
      else
        match find_equivalent_stored route_models upstream case_insensitive with
        | Some stored => Some stored
        | None => resolve_mappings route_models mappings model case_insensitive
        end
  end.

(** The canonical names that a mapping claims as its upstream side. *)
Definition occupied (self : UpstreamConfig) : gset string :=
  list_to_set (map (fun mapping => canonical_model_id (trim (mm_upstream_model mapping)))
                 (uc_model_mappings self)).

Definition unoccupied (self : UpstreamConfig) (candidate : string) : bool :=
  negb (bool_decide (canonical_model_id candidate ∈ occupied self)).

Definition canonical_route_model (self : UpstreamConfig) (model : string)
    (case_insensitive : bool) : option (option string) :=
  let model := trim model in
  if str_is_empty model then Some None
  else
    let models := route_models self in
    match resolve_mappings models (uc_model_mappings self) model case_insensitive with
    | Some stored => Some (Some stored)
    | None =>
        if is_empty models then
          base ← codex_subagent_base_model model;
          Some (if is_none base then Some model else None)
        else
          let matches := fun candidate =>
            if case_insensitive then models_equivalent_with candidate model true
            else String.eqb (trim candidate) model in
          match find matches (retain (unoccupied self) models) with
          | Some candidate => Some (Some candidate)
          | None =>
              base ← codex_subagent_base_model model;
              Some (match base with
                    | None => None
                    | Some base_model =>
                        find (fun candidate =>
                                if case_insensitive
                                then models_equivalent_with candidate base_model true
                                else String.eqb candidate base_model)
                          (retain (unoccupied self) models)
                    end)
          end
    end.

Definition resolved_model_name_with := canonical_route_model.

Definition resolved_model_name (self : UpstreamConfig) (model : string)
    : option (option string) := resolved_model_name_with self model true.

Definition supports_model_with (self : UpstreamConfig) (model : string) (case_insensitive : bool)
    : option bool := is_some <$> canonical_route_model self model case_insensitive.

Definition supports_model (self : UpstreamConfig) (model : string) : option bool :=
  supports_model_with self model true.

Definition supports_stored_model (self : UpstreamConfig) (model : string) : bool :=
  let model := trim model in
  negb (str_is_empty model)
  && existsb (fun stored => models_equivalent_with stored model true) (route_models self).

(** [any] over the models of one key, in order: the base of a subagent variant
    is only computed for a model that does not match by itself. *)
Fixpoint any_model_matches (candidates : list string) (model : string) : option bool :=
  match candidates with
  | [] => Some false
  | candidate :: candidates =>
      if models_equivalent_with candidate model true then Some true
      else
        base ← codex_subagent_base_model model;
        if is_some_and (fun base => models_equivalent_with candidate base true) base
        then Some true
        else any_model_matches candidates model
  end.

Fixpoint collect_keys (current_keys : list string) (seen : gset string)
    (mappings : list ApiKeyModelConfig) (model : string) (case_insensitive : bool)
    : option (list string) :=
  match mappings with
  | [] => Some []
  | mapping :: mappings =>
      matches ←
        (if case_insensitive then any_model_matches (km_supported_models mapping) model
         else Some (existsb (fun candidate => String.eqb (trim candidate) model)
                      (km_supported_models mapping)));
      let key := trim (km_api_key mapping) in
      if negb matches || str_is_empty key || negb (bool_decide (key ∈ current_keys))
         || bool_decide (key ∈ seen)
      then collect_keys current_keys seen mappings model case_insensitive
      else
        keys ← collect_keys current_keys ({[key]} ∪ seen) mappings model case_insensitive;
        Some (key :: keys)
  end.

Definition keys_for_model_with (self : UpstreamConfig) (model : string) (case_insensitive : bool)
    : option (list string) :=
  let model := trim model in
  if is_empty (uc_api_key_models self) then Some (available_keys self)
  else if str_is_empty model then Some []
  else collect_keys (available_keys self) ∅ (uc_api_key_models self) model case_insensitive.

Definition keys_for_model (self : UpstreamConfig) (model : string) : option (list string) :=
  keys_for_model_with self model true.

(** The live mappings, then the route models that no mapping claims. *)
Definition live_mapping (models : list string) (mapping : UpstreamModelMapping)
    : option DownstreamModelEntry :=
  let upstream := trim (mm_upstream_model mapping) in
  let downstream := trim (mm_downstream_model mapping) in
  if str_is_empty upstream || str_is_empty downstream then None
  else if is_none (find_equivalent_stored models upstream true) then None
  else Some {| de_model := downstream; de_from_mapping := true |}.

Definition effective_downstream_models_detailed (self : UpstreamConfig)
    : list DownstreamModelEntry :=
  let models := route_models self in
  omap (live_mapping models) (uc_model_mappings self)
  ++ map (fun candidate => {| de_model := candidate; de_from_mapping := false |})
       (retain (unoccupied self) models).

Definition effective_downstream_models (self : UpstreamConfig) : list string :=
  map de_model (effective_downstream_models_detailed self).

(** ** Dialect presets *)

(** The byte of [*]. *)
Definition star : Ascii.ascii := Ascii.ascii_of_N 42.

(** [str::trim_end_matches('*')]. *)
Fixpoint drop_stars (l : list Ascii.ascii) : list Ascii.ascii :=
  match l with
  | c :: rest => if bool_decide (c = star) then drop_stars rest else l
  | [] => []
  end.

Definition trim_end_stars (s : string) : string := text (reverse (drop_stars (reverse (bytes s)))).

Definition ends_with_star (s : string) : bool := bool_decide (last (bytes s) = Some star).

Definition starts_with (s prefix : string) : bool :=
  is_some (strip_prefix (bytes prefix) (bytes s)).

Definition dialect_preset_for_model (self : UpstreamConfig) (runtime_model_slug : string)
    : option string :=
  let canonical := canonical_model_id runtime_model_slug in
  let presets := btree_entries (uc_model_dialect_presets self) in
  match find (fun '(pattern, _) => String.eqb (canonical_model_id (trim pattern)) canonical)
          presets with
  | Some (_, preset) => Some preset
  | None =>
      let wildcards :=
        omap (fun '(pattern, preset) =>
          let prefix := canonical_model_id (trim_end_stars pattern) in
          if negb (str_is_empty prefix) && starts_with canonical prefix
          then Some (str_len prefix, preset) else None)
          (retain (fun '(pattern, _) => ends_with_star (trim_end pattern)) presets) in
      match max_by (key_ltb fst) wildcards with
      | Some (_, preset) => Some preset
      | None => uc_dialect_preset self
      end
  end.

Definition request_quota_window_seconds (self : UpstreamConfig) : Z :=
  sat_mul u64_max (Z.max (uc_request_quota_window_hours self) 1) (60 * 60).

(** ** Storage *)

Definition normalize_presets (presets : gmap string string) : gmap string string :=
  fold_left (fun m '(pattern, preset) =>
    let pattern := trim pattern in
    let preset := trim preset in
    if str_is_empty pattern || str_is_empty preset then m else <[pattern:=preset]> m)
    (btree_entries presets) ∅.

Definition normalize_for_storage (self : UpstreamConfig) : UpstreamConfig :=
  let authoritative_key_models := negb (is_empty (uc_api_key_models self)) in
  let protocols := dedup_protocols (uc_protocols self) in
  let protocols := if is_empty protocols then [uc_protocol self] else protocols in
  let api_key := trim (uc_api_key self) in
  let api_keys := normalized_string_list (uc_api_keys self) in
  let current_keys := normalized_current_keys api_key api_keys in
  let api_key_models :=
    if authoritative_key_models
    then normalized_api_key_models (uc_api_key_models self) current_keys else [] in
  {| uc_id := uc_id self;
     uc_name := uc_name self;
     uc_remark := trim (uc_remark self);
     uc_continuation_provider_group :=
       opt_filter (fun value => negb (str_is_empty value))
         (trim <$> uc_continuation_provider_group self);
     uc_api_key := api_key;
     uc_api_keys := api_keys;
     uc_api_key_models := api_key_models;
     uc_protocol := default UpChatCompletions (head protocols);
     uc_protocols := protocols;
     uc_supported_models :=
       if authoritative_key_models then derive_supported_models api_key_models
       else normalized_string_list (uc_supported_models self);
     uc_model_mappings :=
       map (fun mapping =>
         {| mm_upstream_model := trim (mm_upstream_model mapping);
            mm_downstream_model := trim (mm_downstream_model mapping) |})
         (uc_model_mappings self);
     uc_model_contexts := normalized_model_contexts (uc_model_contexts self);
     uc_default_model_context :=
       normalized_default_model_context (uc_default_model_context self);
     uc_request_quota_window_hours := uc_request_quota_window_hours self;
     uc_priority := uc_priority self;
     uc_weight := uc_weight self;
     uc_max_concurrency := uc_max_concurrency self;
     uc_active := uc_active self;
     uc_failure_count := 0;
     uc_base_url := uc_base_url self;
     uc_dialect_preset := uc_dialect_preset self;
     uc_model_dialect_presets := normalize_presets (uc_model_dialect_presets self);
     uc_strip_nonstandard_chat_fields := uc_strip_nonstandard_chat_fields self |}.

(** ** Validation *)

(** [char::is_control]: U+0000 to U+001F and U+007F to U+009F. *)
Fixpoint has_control (l : list Ascii.ascii) : bool :=
  match l with
  | [] => false
  | c :: rest =>
      let n := Ascii.N_of_ascii c in
      (n <? 32)%N || (n =? 127)%N
      || ((n =? 194)%N
          && is_some_and (fun d => (128 <=? Ascii.N_of_ascii d)%N && (Ascii.N_of_ascii d <=? 159)%N)
               (head rest))
      || has_control rest
  end.

(** The inner loop: [upstream] and [downstream] at [index] against every other
    mapping. *)
Fixpoint clashes (index other_index : nat) (upstream downstream : string)
    (others : list (string * string)) : result unit ConfigurationError :=
  match others with
  | [] => Ok tt
  | (other_upstream, other_downstream) :: others =>
      if Nat.eqb index other_index
      then clashes index (S other_index) upstream downstream others
      else if models_equivalent upstream other_upstream
      then Err (UpstreamMappedTwice upstream (Z.of_nat other_index))
      else if models_equivalent downstream other_downstream
      then Err (DownstreamMappedTwice downstream (Z.of_nat other_index))
      else clashes index (S other_index) upstream downstream others
  end.

Fixpoint validate_pairs (all : list (string * string)) (index : nat)
    (mappings : list (string * string)) : result unit ConfigurationError :=
  match mappings with
  | [] => Ok tt
  | (upstream, downstream) :: mappings =>
      if str_is_empty upstream then Err (EmptyUpstreamModel (Z.of_nat index))
      else if str_is_empty downstream
      then Err (EmptyDownstreamModel (Z.of_nat index) upstream)
      else
        let? _ := clashes index 0 upstream downstream all in
        validate_pairs all (S index) mappings
  end.

Fixpoint validate_collisions (models : list string) (occupied_models : gset string) (index : nat)
    (mappings : list (string * string)) : result unit ConfigurationError :=
  match mappings with
  | [] => Ok tt
  | (_, downstream) :: mappings =>
      let downstream_key := canonical_model_id downstream in
      match find (fun route_model =>
                    negb (bool_decide (canonical_model_id route_model ∈ occupied_models))
                    && String.eqb (canonical_model_id route_model) downstream_key) models with
      | Some collision => Err (DownstreamCollides downstream (Z.of_nat index) collision)
      | None => validate_collisions models occupied_models (S index) mappings
      end
  end.

Definition trimmed_mappings (self : UpstreamConfig) : list (string * string) :=
  omap (fun mapping =>
    let upstream := trim (mm_upstream_model mapping) in
    let downstream := trim (mm_downstream_model mapping) in
    if negb (str_is_empty upstream) || negb (str_is_empty downstream)
    then Some (upstream, downstream) else None) (uc_model_mappings self).

Definition validate_model_mappings (self : UpstreamConfig) : result unit ConfigurationError :=
  let mappings := trimmed_mappings self in
  let? _ := validate_pairs mappings 0 mappings in
  validate_collisions (route_models self)
    (list_to_set (map (fun '(upstream, _) => canonical_model_id upstream) mappings)) 0 mappings.

Definition validate_configuration (self : UpstreamConfig) : result unit ConfigurationError :=
  if uc_max_concurrency self =? 0 then Err MaxConcurrencyZero
  else if is_some_and (fun value => (128 <? str_len value) || has_control (bytes value))
            (uc_continuation_provider_group self)
  then Err BadProviderGroup
  else validate_model_mappings self.

Fixpoint validate_against_aliases (registry : ModelAliasRegistry)
    (mappings : list UpstreamModelMapping) : result unit ConfigurationError :=
  match mappings with
  | [] => Ok tt
  | mapping :: mappings =>
      let downstream := trim (mm_downstream_model mapping) in
      if str_is_empty downstream then validate_against_aliases registry mappings
      else
        match resolve_alias registry downstream with
        | Some canonical => Err (DownstreamIsAlias downstream canonical)
        | None => validate_against_aliases registry mappings
        end
  end.

Definition validate_model_mappings_against_aliases (self : UpstreamConfig)
    (registry : ModelAliasRegistry) : result unit ConfigurationError :=
  validate_against_aliases registry (uc_model_mappings self).

(** ** Which health entries are configured *)

Section currency.
  (** [keys::upstream_key_fingerprint], a SHA-256 of the upstream and the
      trimmed key. *)
  Variable upstream_key_fingerprint : string -> string -> string.

Definition fingerprints (upstream : UpstreamConfig) : list string :=
  map (upstream_key_fingerprint (uc_id upstream)) (available_keys upstream).

(** [existing_routes]: the set, in the order in which it is iterated; the result
    is a set. *)
Definition enumerable_route_health_routes (upstream : UpstreamConfig)
    (existing_routes : list RouteHealthKey) : gset RouteHealthKey :=
  if negb (uc_active upstream) then ∅
  else
    let protocols := map WireProtocol_from (supported_protocols upstream) in
    let current_fingerprints := fingerprints upstream in
    if is_empty (uc_api_key_models upstream) then
      list_to_set (retain (fun route =>
        String.eqb (rk_upstream_id route) (uc_id upstream)
        && bool_decide (rk_key_fingerprint route ∈ current_fingerprints)
        && bool_decide (rk_protocol route ∈ protocols)) existing_routes)
    else
      list_to_set (concat (map (fun mapping =>
        let key_fingerprint := upstream_key_fingerprint (uc_id upstream) (km_api_key mapping) in
        if negb (bool_decide (key_fingerprint ∈ current_fingerprints)) then []
        else
          concat (map (fun model =>
            let model := trim model in
            if str_is_empty model then []
            else
              map (fun protocol =>
                {| rk_upstream_id := uc_id upstream; rk_key_fingerprint := key_fingerprint;
                   rk_runtime_model_slug := model; rk_protocol := protocol |}) protocols)
            (km_supported_models mapping)))
        (uc_api_key_models upstream))).

Definition route_health_route_is_current (upstreams : list UpstreamConfig)
    (route : RouteHealthKey) : option bool :=
  match find (fun candidate => String.eqb (uc_id candidate) (rk_upstream_id route)
                               && uc_active candidate) upstreams with
  | None => Some false
  | Some upstream =>
      if negb (existsb (fun protocol => bool_decide (WireProtocol_from protocol = rk_protocol route))
                 (supported_protocols upstream))
      then Some false
      else if negb (existsb (String.eqb (rk_key_fingerprint route)) (fingerprints upstream))
      then Some false
      else if is_empty (route_models upstream) then Some true
      else
        keys ← keys_for_model upstream (rk_runtime_model_slug route);
        Some (existsb (fun api_key =>
                String.eqb (upstream_key_fingerprint (uc_id upstream) api_key)
                  (rk_key_fingerprint route)) keys)
  end.

Definition route_health_key_is_current (upstreams : list UpstreamConfig) (key : KeyHealthKey)
    : bool :=
  existsb (fun upstream =>
    String.eqb (uc_id upstream) (kk_upstream_id key)
    && uc_active upstream
    && existsb (String.eqb (kk_key_fingerprint key)) (fingerprints upstream)) upstreams.

Definition route_health_aggregate_is_current (upstreams : list UpstreamConfig)
    (aggregate : RouteSetAggregateKey) : bool :=
  existsb (fun upstream =>
    String.eqb (uc_id upstream) (ak_upstream_id aggregate)
    && uc_active upstream
    && existsb (fun protocol => bool_decide (WireProtocol_from protocol = ak_protocol aggregate))
         (supported_protocols upstream)
    && (is_empty (route_models upstream)
        || existsb (String.eqb (ak_runtime_model_slug aggregate)) (route_models upstream)))
    upstreams.

End currency.

(** ** Normalised lists of strings *)

(** What [normalized_string_list] produces and leaves alone. *)
Definition clean (values : list string) : Prop :=
  NoDup values /\ Forall (fun v => trim v = v /\ v <> "") values.

Lemma normalize_seen_elem seen values v :
  v ∈ normalize_seen seen values <-> v ∉ seen /\ v <> "" /\ exists x, x ∈ values /\ trim x = v.
Proof.
  revert seen. induction values as [|x values IH]; intros seen; simpl.
  { split; [by intros ?%elem_of_nil|]. intros (_ & _ & y & Hy & _). by apply elem_of_nil in Hy. }
  destruct (str_is_empty (trim x)) eqn:He; simpl.
  { apply str_is_empty_true in He. rewrite IH. setoid_rewrite elem_of_cons. naive_solver. }
  apply str_is_empty_false in He. case_bool_decide as Hs.
  - rewrite IH. setoid_rewrite elem_of_cons. naive_solver.
  - rewrite elem_of_cons, IH, not_elem_of_union, not_elem_of_singleton.
    setoid_rewrite elem_of_cons. split.
    + intros [->|((Hne & Hns) & Hv & y & Hy & Ht)]; naive_solver.
    + intros (Hns & Hv & y & [->|Hy] & Ht); [by left|].
      destruct (decide (v = trim x)); [by left|right]. naive_solver.
Qed.

Lemma normalize_seen_nodup seen values : NoDup (normalize_seen seen values).
Proof.
  revert seen. induction values as [|x values IH]; intros seen; simpl; [constructor|].
  case_match; [done|]. constructor; [|done].
  rewrite normalize_seen_elem. set_solver.
Qed.

Lemma normalize_clean values : clean (normalized_string_list values).
Proof.
  split; [apply normalize_seen_nodup|]. apply Forall_forall.
  intros v (_ & Hne & x & _ & <-)%normalize_seen_elem. split; [apply trim_idempotent|done].
Qed.

Lemma normalize_seen_fixed seen values :
  clean values -> (forall v, v ∈ values -> v ∉ seen) -> normalize_seen seen values = values.
Proof.
  revert seen. induction values as [|x values IH]; intros seen [Hd Hc] Hs; simpl; [done|].
  apply NoDup_cons in Hd as [Hx Hd]. apply Forall_cons in Hc as [[Ht Hne] Hc].
  rewrite Ht, (proj2 (str_is_empty_false x) Hne). simpl.
  rewrite bool_decide_false by (apply Hs; by left).
  f_equal. apply IH; [by split|]. intros v Hv.
  assert (v ∉ seen) by (apply Hs; by right). assert (v <> x) by congruence.
  rewrite not_elem_of_union, not_elem_of_singleton. done.
Qed.

Lemma normalize_fixed values : clean values -> normalized_string_list values = values.
Proof. intros. apply normalize_seen_fixed; [done|]. intros. by apply not_elem_of_empty. Qed.

Lemma normalize_elem values v :
  v ∈ normalized_string_list values <-> v <> "" /\ exists x, x ∈ values /\ trim x = v.
Proof.
  unfold normalized_string_list. rewrite normalize_seen_elem.
  split; [by intros (_ & ?)|]. intros. split; [apply not_elem_of_empty|done].
Qed.

Lemma current_keys_normalized api_key api_keys :
  normalized_current_keys (trim api_key) (normalized_string_list api_keys) =
  normalized_current_keys api_key api_keys.
Proof.
  unfold normalized_current_keys, normalized_string_list. simpl. rewrite trim_idempotent.
  assert (forall seen seen' values, seen ⊆ seen' ->
    normalize_seen seen' (normalize_seen seen values) = normalize_seen seen' values) as Hseen.
  { intros seen seen' values. revert seen seen'.
    induction values as [|x values IH]; intros seen seen' Hsub; simpl; [done|].
    destruct (str_is_empty (trim x)) eqn:He; simpl; [by apply IH|].
    destruct (decide (trim x ∈ seen)) as [Hin|Hin].
    - rewrite (bool_decide_true (trim x ∈ seen)), (bool_decide_true (trim x ∈ seen')) by set_solver.
      by apply IH.
    - rewrite (bool_decide_false (trim x ∈ seen)) by done. simpl. rewrite trim_idempotent, He. simpl.
      case_bool_decide; [apply IH; set_solver|]. f_equal. apply IH. set_solver. }
  case_match; [by apply Hseen|]. f_equal. apply Hseen. set_solver.
Qed.

(** ** Models of keys *)

(** The shape of a normalised table: one entry for each current key, with clean
    models. *)
Record key_models_ok (current_keys : list string) (table : list ApiKeyModelConfig) : Prop := {
  kt_nodup : NoDup (km_api_key <$> table);
  kt_entries : Forall (fun e => trim (km_api_key e) = km_api_key e /\ km_api_key e <> "" /\
                         km_api_key e ∈ current_keys /\ clean (km_supported_models e)) table
}.

Definition positions_ok (table : list ApiKeyModelConfig) (positions : gmap string nat) : Prop :=
  forall key i, positions !! key = Some i <-> km_api_key <$> table !! i = Some key.

Lemma merge_ok current_keys acc value :
  key_models_ok current_keys acc.1 -> positions_ok acc.1 acc.2 ->
  key_models_ok current_keys (merge_key_models current_keys acc value).1 /\
  positions_ok (merge_key_models current_keys acc value).1
               (merge_key_models current_keys acc value).2.
Proof.
  destruct acc as [table positions]. simpl. intros Hok Hpos.
  destruct (str_is_empty (trim (km_api_key value))) eqn:He; simpl; [done|].
  apply str_is_empty_false in He. case_bool_decide as Hcur; simpl; [|done].
  destruct (positions !! trim (km_api_key value)) as [i|] eqn:Hi; simpl.
  - set (f := fun entry => {| entry with km_supported_models := _ |}).
    assert (km_api_key <$> alter f i table = km_api_key <$> table) as Hkeys.
    { apply list_eq. intros j. rewrite !list_lookup_fmap, list_lookup_alter.
      case_decide as Hij; [|done]. subst j. by destruct (table !! i). }
    split.
    + destruct Hok as [Hd He']. split; [by rewrite Hkeys|].
      apply Forall_alter; [done|]. intros e Hl _. rewrite Forall_forall in He'.
      destruct (He' e (list_elem_of_lookup_2 _ _ _ Hl)) as (? & ? & ? & ?).
      split_and!; try done; apply normalize_clean.
    + intros key j. rewrite (Hpos key j), <- !list_lookup_fmap. by rewrite Hkeys.
  - assert (trim (km_api_key value) ∉ km_api_key <$> table) as Hnew.
    { intros (j & Hj)%list_elem_of_lookup_1. rewrite list_lookup_fmap in Hj.
      apply Hpos in Hj. congruence. }
    destruct Hok as [Hd He']. split; [split|].
    + rewrite fmap_app. apply NoDup_app. split_and!; [done| |apply NoDup_singleton].
      intros k Hk ->%list_elem_of_singleton. done.
    + apply Forall_app. split; [done|]. constructor; [|done]. simpl.
      split_and!; [apply trim_idempotent|done|done|apply normalize_clean].
    + intros key j. rewrite lookup_insert_Some. destruct (decide (j = length table)) as [->|Hj].
      * rewrite lookup_app_r, Nat.sub_diag by lia. simpl. split.
        { intros [[-> _]|[_ Hl]]; [done|]. apply Hpos in Hl.
          rewrite lookup_ge_None_2 in Hl by lia. done. }
        intros [= ->]. by left.
      * rewrite (Hpos key j). destruct (decide (j < length table)%nat).
        { rewrite lookup_app_l by lia. split; [|intros Hl; right; split; [|done]].
          - intros [[_ Hl]|[_ Hl]]; [lia|done].
          - intros Heq. apply Hnew. rewrite Heq. apply (list_elem_of_lookup_2 _ j). by rewrite list_lookup_fmap. }
        rewrite !lookup_ge_None_2 by (rewrite ?length_app; simpl; lia). naive_solver.
Qed.

Lemma fold_merge_ok current_keys values acc :
  key_models_ok current_keys acc.1 -> positions_ok acc.1 acc.2 ->
  let result := fold_left (merge_key_models current_keys) values acc in
  key_models_ok current_keys result.1 /\ positions_ok result.1 result.2.
Proof.
  revert acc. induction values as [|v values IH]; intros acc Hok Hpos; simpl; [done|].
  destruct (merge_ok current_keys acc v Hok Hpos). by apply IH.
Qed.

(** The normalised table is complete as well. *)
Lemma api_key_models_ok values current_keys :
  clean current_keys ->
  let table := normalized_api_key_models values current_keys in
  key_models_ok current_keys table /\ forall key, key ∈ current_keys -> key ∈ km_api_key <$> table.
Proof.
  intros [Hd Hc] table. subst table. unfold normalized_api_key_models.
  assert (key_models_ok current_keys [] /\ positions_ok [] ∅) as [H0 H1].
  { split; [split; constructor|]. intros key i. rewrite lookup_empty. by destruct i. }
  pose proof (fold_merge_ok current_keys values ([], ∅) H0 H1) as [Hok Hpos].
  destruct (fold_left _ _ _) as [table positions]. simpl in *.
  set (missing := retain _ current_keys).
  assert (forall k, k ∈ missing <-> k ∈ current_keys /\ k ∉ km_api_key <$> table) as Hmiss.
  { intros k. subst missing. rewrite retain_elem.
    destruct (positions !! k) as [i|] eqn:Hk; simpl.
    - apply Hpos in Hk. rewrite <- list_lookup_fmap in Hk. apply list_elem_of_lookup_2 in Hk. naive_solver.
    - split; [|naive_solver]. intros [_ Hin]. split; [done|].
      intros (i & Hi)%list_elem_of_lookup_1. rewrite list_lookup_fmap in Hi. apply Hpos in Hi. congruence. }
  assert (km_api_key <$> (table ++ map (fun api_key => {| km_api_key := api_key; km_supported_models := [] |}) missing)
          = (km_api_key <$> table) ++ missing) as Hkeys.
  { rewrite fmap_app. f_equal. rewrite <- (list_fmap_id missing) at 2.
    change (map ?f missing) with (f <$> missing). by rewrite <- list_fmap_compose. }
  destruct Hok as [Htd Hte]. split; [split|].
  - rewrite Hkeys. apply NoDup_app. split_and!; [done|naive_solver|].
    eapply sublist_NoDup; [|apply retain_sublist]; done.
  - apply Forall_app. split; [done|]. apply Forall_forall.
    intros e (k & -> & [Hk _]%Hmiss)%list_elem_of_fmap. simpl. rewrite Forall_forall in Hc.
    destruct (Hc k Hk). split_and!; [done..|]. split; constructor.
  - intros k Hk. rewrite Hkeys, elem_of_app. destruct (decide (k ∈ km_api_key <$> table)); [by left|].
    right. by apply Hmiss.
Qed.

Lemma fold_merge_fixed current_keys todo processed positions :
  key_models_ok current_keys (processed ++ todo) -> positions_ok processed positions ->
  (fold_left (merge_key_models current_keys) todo (processed, positions)).1 = processed ++ todo.
Proof.
  revert processed positions. induction todo as [|e todo IH]; intros processed positions Hok Hpos; simpl.
  { by rewrite app_nil_r. }
  pose proof Hok as [Hd He]. apply Forall_app in He as [Hep (Hk & Het)%Forall_cons].
  destruct Hk as (Ht & Hne & Hcur & Hcl).
  rewrite fmap_app in Hd. apply NoDup_app in Hd as (_ & Hdis & _).
  assert (positions !! km_api_key e = None) as Hnone.
  { destruct (positions !! km_api_key e) as [i|] eqn:Hi; [|done]. apply Hpos in Hi.
    rewrite <- list_lookup_fmap in Hi. apply list_elem_of_lookup_2 in Hi.
    destruct (Hdis _ Hi). by left. }
  rewrite Ht, (proj2 (str_is_empty_false _) Hne), bool_decide_true by done. simpl. rewrite Hnone.
  rewrite normalize_fixed by done.
  replace {| km_api_key := km_api_key e; km_supported_models := km_supported_models e |} with e
    by (by destruct e).
  replace (processed ++ e :: todo) with ((processed ++ [e]) ++ todo) in * by (by rewrite <- app_assoc).
  apply IH; [done|].
  assert (key_models_ok current_keys processed) as Hokp.
  { destruct Hok as [Hd' He']. rewrite <- app_assoc in Hd', He'. split.
    - rewrite fmap_app in Hd'. by apply NoDup_app in Hd' as [? _].
    - by apply Forall_app in He' as [? _]. }
  pose proof (merge_ok current_keys (processed, positions) e Hokp Hpos) as [_ Hp]. simpl in Hp.
  rewrite Ht, (proj2 (str_is_empty_false _) Hne), bool_decide_true in Hp by done. simpl in Hp.
  rewrite Hnone in Hp. simpl in Hp. rewrite normalize_fixed in Hp by done. by destruct e.
Qed.

Lemma api_key_models_fixed table current_keys :
  key_models_ok current_keys table -> (forall key, key ∈ current_keys -> key ∈ km_api_key <$> table) ->
  normalized_api_key_models table current_keys = table.
Proof.
  intros Hok Hall. unfold normalized_api_key_models.
  assert (key_models_ok current_keys [] /\ positions_ok [] ∅) as [H0 H1].
  { split; [split; constructor|]. intros key i. rewrite lookup_empty. by destruct i. }
  pose proof (fold_merge_fixed current_keys table [] ∅ Hok H1) as Hfix.
  pose proof (fold_merge_ok current_keys table ([], ∅) H0 H1) as [_ Hpos].
  destruct (fold_left _ _ _) as [table' positions]. simpl in *. subst table'.
  replace (retain _ current_keys) with (@nil string); [by rewrite app_nil_r|].
  symmetry. apply elem_of_nil_inv. intros k [Hn Hk]%retain_elem.
  destruct (list_elem_of_lookup_1 _ _ (Hall k Hk)) as [i Hi]. rewrite list_lookup_fmap in Hi.
  apply Hpos in Hi. by rewrite Hi in Hn.
Qed.

(** ** Normalisation is idempotent *)

Lemma dedup_fixed values acc :
  NoDup (acc ++ values) ->
  fold_left (fun normalized (protocol : UpstreamProtocol) =>
    if bool_decide (protocol ∈ normalized) then normalized else normalized ++ [protocol])
    values acc = acc ++ values.
Proof.
  revert acc. induction values as [|p values IH]; intros acc Hd; simpl; [by rewrite app_nil_r|].
  rewrite bool_decide_false.
  - rewrite IH; rewrite <- app_assoc; done.
  - apply NoDup_app in Hd as (_ & Hdis & _). intros Hin. apply (Hdis _ Hin). by left.
Qed.

Lemma dedup_nodup values acc :
  NoDup acc ->
  NoDup (fold_left (fun normalized (protocol : UpstreamProtocol) =>
    if bool_decide (protocol ∈ normalized) then normalized else normalized ++ [protocol])
    values acc).
Proof.
  revert acc. induction values as [|p values IH]; intros acc Hd; simpl; [done|].
  apply IH. case_bool_decide as Hin; [done|]. apply NoDup_app.
  split_and!; [done| |apply NoDup_singleton]. by intros x Hx ->%list_elem_of_singleton.
Qed.

Lemma dedup_protocols_idempotent values :
  dedup_protocols (dedup_protocols values) = dedup_protocols values.
Proof. apply dedup_fixed, dedup_nodup, NoDup_nil_2. Qed.

Lemma clamp_reserve_idempotent limit reserve :
  clamp_reserve limit (clamp_reserve limit reserve) = clamp_reserve limit reserve.
Proof.
  unfold clamp_reserve, default_model_context_output_reserve.
  set (bound := Z.max (sat_sub limit 1) 1). assert (1 <= bound) by lia.
  repeat match goal with |- context [?x =? 0] => destruct (Z.eqb_spec x 0) end; lia.
Qed.

Lemma normalize_contexts_fixed seen seen' values :
  seen' ⊆ seen ->
  normalize_contexts seen' (normalize_contexts seen values) = normalize_contexts seen values.
Proof.
  revert seen seen'. induction values as [|c values IH]; intros seen seen' Hsub; simpl; [done|].
  destruct (str_is_empty (trim (mc_slug c))) eqn:He; simpl; [by apply IH|].
  case_bool_decide as Hin; simpl; [by apply IH|].
  rewrite trim_idempotent, He, bool_decide_false by (by intros ?%Hsub). simpl.
  rewrite !trim_idempotent. f_equal.
  - replace (Z.max (Z.max (mc_context_limit c) 2) 2) with (Z.max (mc_context_limit c) 2) by lia.
    by rewrite clamp_reserve_idempotent.
  - apply IH. by apply union_mono_l.
Qed.

Lemma default_context_idempotent context :
  normalized_default_model_context (normalized_default_model_context context) =
  normalized_default_model_context context.
Proof.
  destruct context as [c|]; simpl; [|done].
  destruct (Z.eqb_spec (dc_context_limit c) 0); simpl; [done|].
  destruct (Z.eqb_spec (Z.max (dc_context_limit c) 2) 0); [lia|].
  replace (Z.max (Z.max (dc_context_limit c) 2) 2) with (Z.max (dc_context_limit c) 2) by lia.
  by rewrite clamp_reserve_idempotent, trim_idempotent.
Qed.

Definition clean_preset (entry : string * string) : Prop :=
  trim entry.1 = entry.1 /\ entry.1 <> "" /\ trim entry.2 = entry.2 /\ entry.2 <> "".

Lemma btree_entries_perm {V} (m : gmap string V) : btree_entries m ≡ₚ map_to_list m.
Proof. apply sort_by_perm. Qed.

Lemma btree_entries_NoDup {V} (m : gmap string V) : NoDup (btree_entries m).*1.
Proof. rewrite btree_entries_perm. apply NoDup_fst_map_to_list. Qed.

Lemma btree_entries_map {V} (m : gmap string V) : list_to_map (btree_entries m) = m.
Proof.
  rewrite (list_to_map_proper (btree_entries m) (map_to_list m)); [apply list_to_map_to_list|apply btree_entries_NoDup|].
  apply btree_entries_perm.
Qed.

Lemma btree_entries_elem {V} (m : gmap string V) k v : (k, v) ∈ btree_entries m <-> m !! k = Some v.
Proof. by rewrite btree_entries_perm, elem_of_map_to_list. Qed.

Lemma presets_clean presets k v :
  normalize_presets presets !! k = Some v -> clean_preset (k, v).
Proof.
  unfold normalize_presets. generalize (btree_entries presets). intros entries.
  assert (forall k v, (∅ : gmap string string) !! k = Some v -> clean_preset (k, v)) as H0
    by (intros ??; by rewrite lookup_empty).
  revert k v. revert H0. generalize (∅ : gmap string string).
  induction entries as [|[p q] entries IH]; intros m H0 k v; simpl; [apply H0|].
  apply IH. intros k' v'. destruct (str_is_empty (trim p)) eqn:Hp; simpl; [apply H0|].
  destruct (str_is_empty (trim q)) eqn:Hq; [apply H0|].
  apply str_is_empty_false in Hp, Hq.
  intros [[<- <-]|[_ ?]]%lookup_insert_Some; [|by apply H0].
  split_and!; simpl; auto using trim_idempotent.
Qed.

Lemma fold_presets_lookup entries (m : gmap string string) k :
  NoDup entries.*1 -> Forall clean_preset entries ->
  fold_left (fun m '(pattern, preset) =>
    let pattern := trim pattern in
    let preset := trim preset in
    if str_is_empty pattern || str_is_empty preset then m else <[pattern:=preset]> m)
    entries m !! k =
  match (list_to_map entries : gmap string string) !! k with Some v => Some v | None => m !! k end.
Proof.
  revert m. induction entries as [|[p q] entries IH]; intros m Hd Hc; simpl; [done|].
  apply NoDup_cons in Hd as [Hp Hd]. apply Forall_cons in Hc as [(Ht & Hn & Htq & Hnq) Hc].
  simpl in *. rewrite Ht, Htq, (proj2 (str_is_empty_false _) Hn), (proj2 (str_is_empty_false _) Hnq).
  simpl. rewrite IH by done. destruct (decide (p = k)) as [->|Hne].
  - rewrite !lookup_insert_eq. by rewrite (not_elem_of_list_to_map_1 entries k Hp).
  - by rewrite !lookup_insert_ne.
Qed.

Lemma presets_idempotent presets :
  normalize_presets (normalize_presets presets) = normalize_presets presets.
Proof.
  set (m := normalize_presets presets). apply map_eq. intros k. unfold normalize_presets at 1.
  rewrite fold_presets_lookup.
  - rewrite lookup_empty.
    rewrite (list_to_map_proper (btree_entries m) (map_to_list m)), list_to_map_to_list.
    + by destruct (m !! k).
    + rewrite btree_entries_perm. apply NoDup_fst_map_to_list.
    + apply btree_entries_perm.
  - rewrite btree_entries_perm. apply NoDup_fst_map_to_list.
  - apply Forall_forall. intros [p q]. rewrite btree_entries_perm, elem_of_map_to_list.
    apply presets_clean.
Qed.

Lemma available_keys_clean self : clean (available_keys self).
Proof. apply normalize_clean. Qed.

Lemma normalize_keys self : available_keys (normalize_for_storage self) = available_keys self.
Proof. apply current_keys_normalized. Qed.

Lemma normalize_protocols_eq self :
  uc_protocols (normalize_for_storage self) =
  if is_empty (dedup_protocols (uc_protocols self)) then [uc_protocol self]
  else dedup_protocols (uc_protocols self).
Proof. done. Qed.

Lemma normalize_protocols self :
  uc_protocols (normalize_for_storage self) <> [] /\
  dedup_protocols (uc_protocols (normalize_for_storage self)) =
  uc_protocols (normalize_for_storage self) /\
  uc_protocol (normalize_for_storage self) =
  default UpChatCompletions (head (uc_protocols (normalize_for_storage self))).
Proof.
  unfold normalize_for_storage. simpl.
  destruct (is_empty (dedup_protocols (uc_protocols self))) eqn:He; simpl; [done|].
  split_and!; [by intros Hn; rewrite Hn in He|apply dedup_protocols_idempotent|done].
Qed.

Lemma normalize_supported_protocols self :
  supported_protocols (normalize_for_storage self) = supported_protocols self.
Proof.
  unfold supported_protocols at 1.
  destruct (normalize_protocols self) as (Hne & Hd & _).
  destruct (is_empty _) eqn:He; [by destruct (uc_protocols (normalize_for_storage self))|].
  rewrite Hd. unfold supported_protocols, normalize_for_storage. simpl.
  destruct (uc_protocols self) as [|p ps] eqn:Hp; simpl; [done|].
  destruct (is_empty (dedup_protocols (p :: ps))) eqn:Hq; [|done].
  unfold dedup_protocols in Hq. simpl in Hq. exfalso.
  assert (forall (l acc : list UpstreamProtocol), acc <> [] ->
    fold_left (fun normalized protocol =>
      if bool_decide (protocol ∈ normalized) then normalized else normalized ++ [protocol])
      l acc <> []) as Hgrow.
  { induction l as [|x l IH]; intros acc Hacc; simpl; [done|]. apply IH.
    case_bool_decide; [done|]. by destruct acc. }
  specialize (Hgrow ps [p] ltac:(done)). by destruct (fold_left _ ps [p]).
Qed.

Lemma normalize_table_eq self :
  uc_api_key_models (normalize_for_storage self) =
  if is_empty (uc_api_key_models self) then []
  else normalized_api_key_models (uc_api_key_models self) (available_keys self).
Proof.
  unfold normalize_for_storage. simpl. rewrite current_keys_normalized.
  by destruct (uc_api_key_models self).
Qed.

(** The table and the models of a normalised configuration are normal. *)
Lemma normalize_table self :
  let stored := normalize_for_storage self in
  (uc_api_key_models self <> [] ->
   key_models_ok (available_keys self) (uc_api_key_models stored) /\
   (forall key, key ∈ available_keys self -> key ∈ km_api_key <$> uc_api_key_models stored) /\
   uc_supported_models stored = derive_supported_models (uc_api_key_models stored)) /\
  (uc_api_key_models self = [] ->
   uc_api_key_models stored = [] /\
   uc_supported_models stored = normalized_string_list (uc_supported_models self)).
Proof.
  unfold normalize_for_storage. simpl.
  destruct (uc_api_key_models self) as [|e table]; simpl; [done|]. split; [intros _|done].
  rewrite current_keys_normalized.
  destruct (api_key_models_ok (e :: table) (available_keys self) (available_keys_clean self)).
  done.
Qed.

Lemma normalize_models_again self :
  let stored := normalize_for_storage self in
  uc_api_key_models (normalize_for_storage stored) = uc_api_key_models stored /\
  uc_supported_models (normalize_for_storage stored) = uc_supported_models stored.
Proof.
  intros stored. destruct (normalize_table self) as [Ha Hn].
  destruct (normalize_table stored) as [_ Hn2]. fold stored in Ha, Hn.
  assert (normalized_string_list (uc_supported_models stored) = uc_supported_models stored) as Hs.
  { destruct (uc_api_key_models self) as [|e t].
    - destruct (Hn eq_refl) as [_ ->]. apply normalize_fixed, normalize_clean.
    - destruct (Ha ltac:(done)) as (_ & _ & ->). apply normalize_fixed, normalize_clean. }
  destruct (uc_api_key_models stored) as [|e t] eqn:Ht.
  { destruct (Hn2 eq_refl) as [-> ->]. by rewrite Hs. }
  destruct (uc_api_key_models self) as [|e' t'] eqn:Ht'; [by destruct (Hn eq_refl)|].
  destruct (Ha ltac:(done)) as (Hok & Hall & Hsup).
  assert (uc_api_key_models (normalize_for_storage stored) = uc_api_key_models stored) as Hfix.
  { rewrite normalize_table_eq, Ht. simpl. unfold stored. rewrite normalize_keys.
    by apply api_key_models_fixed. }
  split; [by rewrite Hfix, Ht|].
  destruct (normalize_table stored) as [Ha2 _]. rewrite Ht in Ha2.
  destruct (Ha2 ltac:(done)) as (_ & _ & ->). by rewrite Hfix, Ht, Hsup.
Qed.

Lemma upstream_config_ext c c' :
  uc_id c = uc_id c' -> uc_name c = uc_name c' -> uc_priority c = uc_priority c' ->
  uc_weight c = uc_weight c' -> uc_remark c = uc_remark c' ->
  uc_continuation_provider_group c = uc_continuation_provider_group c' ->
  uc_api_key c = uc_api_key c' -> uc_api_keys c = uc_api_keys c' ->
  uc_api_key_models c = uc_api_key_models c' -> uc_protocol c = uc_protocol c' ->
  uc_protocols c = uc_protocols c' -> uc_supported_models c = uc_supported_models c' ->
  uc_model_mappings c = uc_model_mappings c' -> uc_model_contexts c = uc_model_contexts c' ->
  uc_default_model_context c = uc_default_model_context c' ->
  uc_request_quota_window_hours c = uc_request_quota_window_hours c' ->
  uc_max_concurrency c = uc_max_concurrency c' -> uc_active c = uc_active c' ->
  uc_failure_count c = uc_failure_count c' -> uc_dialect_preset c = uc_dialect_preset c' ->
  uc_model_dialect_presets c = uc_model_dialect_presets c' -> uc_base_url c = uc_base_url c' ->
  uc_strip_nonstandard_chat_fields c = uc_strip_nonstandard_chat_fields c' -> c = c'.
Proof. destruct c, c'. simpl. intros. by subst. Qed.

Lemma normalize_twice self :
  normalize_for_storage (normalize_for_storage self) = normalize_for_storage self.
Proof.
  destruct (normalize_models_again self) as [Hk Hm].
  destruct (normalize_protocols self) as (Hne & Hd & Hp).
  assert (uc_protocols (normalize_for_storage (normalize_for_storage self)) =
          uc_protocols (normalize_for_storage self)) as Hps.
  { rewrite (normalize_protocols_eq (normalize_for_storage self)), Hd.
    by destruct (uc_protocols (normalize_for_storage self)). }
  apply upstream_config_ext; try done.
  - apply trim_idempotent.
  - simpl. destruct (uc_continuation_provider_group self) as [g|]; simpl; [|done].
    destruct (str_is_empty (trim g)) eqn:He; simpl; [done|]. by rewrite trim_idempotent, He.
  - apply trim_idempotent.
  - apply normalize_fixed, normalize_clean.
  - destruct (normalize_protocols (normalize_for_storage self)) as (_ & _ & ->). by rewrite Hps, <- Hp.
  - simpl. rewrite map_map. apply map_ext. intros mapping. simpl. by rewrite !trim_idempotent.
  - by apply normalize_contexts_fixed.
  - apply default_context_idempotent.
  - apply presets_idempotent.
Qed.

(** Normalising a configuration for storage is idempotent: every list,
    table and preset it writes is one that it leaves as it is. It does not change
    which keys are available nor which protocols are supported, a non-empty key
    table ends with exactly one entry for each available key, and the stored
    protocol is the first of the stored protocols. *)
Theorem normalize_for_storage_idempotent self :
  let stored := normalize_for_storage self in
  normalize_for_storage stored = stored /\
  available_keys stored = available_keys self /\
  supported_protocols stored = supported_protocols self /\
  head (uc_protocols stored) = Some (uc_protocol stored) /\
  km_api_key <$> uc_api_key_models stored ≡ₚ
    (if is_empty (uc_api_key_models self) then [] else available_keys self).
Proof.
  intros stored. destruct (normalize_protocols self) as (Hne & _ & Hp).
  fold stored in Hne, Hp. split_and!.
  - apply normalize_twice.
  - apply normalize_keys.
  - apply normalize_supported_protocols.
  - rewrite Hp. by destruct (uc_protocols stored).
  - destruct (normalize_table self) as [Ha Hn]. fold stored in Ha, Hn.
    clearbody stored. destruct (uc_api_key_models self) as [|e0 t]; simpl; [by destruct (Hn eq_refl) as [-> _]|].
    destruct Ha as ([Hnd He] & Hall & _); [done|].
    apply NoDup_Permutation; [done|apply available_keys_clean|]. intros k. split; [|apply Hall].
    intros (e & -> & Hin)%list_elem_of_fmap. rewrite Forall_forall in He. by apply He.
Qed.

(** ** Resolution *)

#[local] Arguments String.eqb : simpl never.
#[local] Opaque trim models_equivalent_with codex_subagent_base_model.

Lemma find_elem {A} (f : A -> bool) l x : find f l = Some x -> x ∈ l /\ f x = true.
Proof. intros [Hin Hf]%find_some. split; [by apply list_elem_of_In|done]. Qed.

Lemma find_present {A} (f : A -> bool) l x : x ∈ l -> f x = true -> is_Some (find f l).
Proof.
  intros Hin Hf. destruct (find f l) as [y|] eqn:Hfind; [by exists y|].
  apply find_none with (x := x) in Hfind; [congruence|by apply list_elem_of_In].
Qed.

Lemma find_stored_Some stored model ci s :
  find_equivalent_stored stored model ci = Some s ->
  s ∈ stored /\ models_equivalent_with s model ci = true.
Proof.
  unfold find_equivalent_stored. destruct ci; (destruct (str_is_empty _) eqn:He; [done|]).
  - intros [Hin Hf]%find_elem. split; [done|]. apply andb_true_iff in Hf as [Hne Heq].
    apply equivalent_with_true. split; [by apply String.eqb_eq|].
    by apply str_is_empty_false, negb_true_iff.
  - intros [Hin Heq%String.eqb_eq]%find_elem. split; [done|]. apply equivalent_with_false.
    split; [done|]. rewrite Heq. by apply str_is_empty_false.
Qed.

#[local] Opaque find_equivalent_stored.

Lemma resolve_mappings_sound models mappings model s :
  resolve_mappings models mappings model true = Some s ->
  s ∈ models /\ exists d, d ∈ omap (live_mapping models) mappings /\
    models_equivalent_with (de_model d) model true = true.
Proof.
  induction mappings as [|mapping mappings IH]; simpl; [done|].
  destruct (negb _ || _) eqn:Hskip.
  { intros (? & d & Hd & ?)%IH. split; [done|]. exists d. split; [|done].
    case_match; [by right|done]. }
  apply orb_false_iff in Hskip as [Hm%negb_false_iff Hu].
  destruct (find_equivalent_stored _ _ true) as [stored|] eqn:Hf.
  - intros [= ->]. apply find_stored_Some in Hf as Hin. split; [by destruct Hin|].
    apply equivalent_with_true in Hm as Hm'. destruct Hm' as [_ Hd%str_is_empty_false].
    rewrite trim_idempotent in Hd. unfold live_mapping. rewrite Hu, Hd, Hf. simpl.
    eexists. split; [by left|done].
  - intros (? & d & Hd & ?)%IH. split; [done|]. exists d. split; [|done].
    case_match; [by right|done].
Qed.

Lemma resolve_mappings_live models mappings model d :
  d ∈ omap (live_mapping models) mappings -> models_equivalent_with (de_model d) model true = true ->
  is_Some (resolve_mappings models mappings model true).
Proof.
  intros (mapping & Hin & Hlive)%list_elem_of_omap Heq.
  induction mappings as [|mapping' mappings IH]; [by apply elem_of_nil in Hin|]. simpl.
  apply elem_of_cons in Hin as [<-|Hin].
  - unfold live_mapping in Hlive.
    destruct (str_is_empty (trim (mm_upstream_model mapping))) eqn:Hu; [done|].
    destruct (str_is_empty (trim (mm_downstream_model mapping))) eqn:Hd; [done|]. simpl in Hlive.
    destruct (find_equivalent_stored _ _ true) eqn:Hf; [|done].
    apply (inj Some) in Hlive as <-. simpl in Heq.
    by rewrite Heq.
  - destruct (negb _ || _); [by apply IH|]. case_match; [done|by apply IH].
Qed.

(** What a request can ask for: an advertised name, or the subagent variant of
    one. *)
Definition names (self : UpstreamConfig) (model : string) : Prop :=
  exists d, d ∈ effective_downstream_models self /\
    (models_equivalent_with d model true = true \/
     exists base, codex_subagent_base_model model = Some (Some base) /\
       models_equivalent_with d base true = true).

Lemma detailed_elem self d :
  d ∈ effective_downstream_models self <->
  (exists e, e ∈ omap (live_mapping (route_models self)) (uc_model_mappings self) /\ de_model e = d) \/
  d ∈ retain (unoccupied self) (route_models self).
Proof.
  unfold effective_downstream_models, effective_downstream_models_detailed.
  change (map ?f ?l) with (f <$> l). rewrite fmap_app, elem_of_app, !list_elem_of_fmap.
  set (m := retain _ _). set (l := omap _ _). clearbody m l. split.
  - intros [(e & -> & He)|(e & -> & (c & -> & Hc)%list_elem_of_fmap)]; [left; by exists e|by right].
  - intros [(e & He & <-)|Hd]; [left; by exists e|right].
    exists {| de_model := d; de_from_mapping := false |}. split; [done|].
    apply list_elem_of_fmap. by exists d.
Qed.

Lemma resolution_sound self model s :
  is_empty (route_models self) = false ->
  canonical_route_model self model true = Some (Some s) ->
  s ∈ route_models self /\ names self (trim model).
Proof.
  intros Hne. unfold canonical_route_model. cbv zeta.
  destruct (str_is_empty (trim model)); [done|].
  destruct (resolve_mappings _ _ _ _) as [stored|] eqn:Hr.
  { intros [= ->]. apply resolve_mappings_sound in Hr as (Hs & d & Hd & Heq). split; [done|].
    exists (de_model d). split; [|by left]. apply detailed_elem. left. by exists d. }
  rewrite Hne. destruct (find _ _) as [candidate|] eqn:Hf.
  { intros [= ->]. apply find_elem in Hf as [Hin Heq]. split; [by apply retain_elem in Hin as [_ ?]|].
    exists s. split; [apply detailed_elem; by right|by left]. }
  intros ([base|] & Hb & Hs)%bind_Some; [|done]. apply (inj Some) in Hs.
  apply find_elem in Hs as [Hin Heq]. split; [by apply retain_elem in Hin as [_ ?]|].
  exists s. split; [apply detailed_elem; by right|]. right. by exists base.
Qed.

Lemma advertised_resolves self d model :
  d ∈ effective_downstream_models self -> models_equivalent_with d model true = true ->
  exists s, canonical_route_model self model true = Some (Some s).
Proof.
  intros Hd Heq. unfold canonical_route_model.
  assert (models_equivalent_with d (trim model) true = true) as Heq'.
  { apply equivalent_with_true in Heq. apply equivalent_with_true. by rewrite canonical_trim. }
  assert (trim model <> "") as Hne.
  { apply equivalent_with_true in Heq as [Heq Hn]. intros Ht. apply Hn, canonical_empty.
    rewrite Heq. by apply canonical_empty. }
  rewrite (proj2 (str_is_empty_false _) Hne).
  destruct (resolve_mappings _ _ _ _) as [stored|] eqn:Hr; [by exists stored|].
  apply detailed_elem in Hd as [(e & He & <-)|Hd].
  { destruct (resolve_mappings_live _ _ _ _ He Heq'). congruence. }
  destruct (find_present (fun candidate => models_equivalent_with candidate (trim model) true)
              _ _ Hd Heq') as [s Hs].
  rewrite Hs. destruct (is_empty (route_models self)) eqn:He; [|by exists s].
  apply retain_elem in Hd as [_ Hd]. destruct (route_models self); [by apply elem_of_nil in Hd|done].
Qed.

(** C9. With names compared regardless of case, which is the default, the names an
    upstream that lists models advertises are the names it serves. Every request
    equivalent to an advertised name resolves to a model the upstream stores; a request
    resolves only to one of those, and only when it is equivalent to an advertised name or
    is the subagent variant of one. (With exact comparison a mapped name can be advertised
    and not served: [exact_matching_strands_mapping].) *)
Theorem advertised_iff_resolved self model :
  is_empty (route_models self) = false ->
  (forall s, resolved_model_name self model = Some (Some s) ->
     s ∈ route_models self /\ names self (trim model)) /\
  (forall d, d ∈ effective_downstream_models self -> models_equivalent_with d model true = true ->
     exists s, resolved_model_name self model = Some (Some s) /\ s ∈ route_models self) /\
  (resolved_model_name self model = None -> codex_subagent_base_model (trim model) = None).
Proof.
  intros Hne. unfold resolved_model_name, resolved_model_name_with. split_and!.
  - intros s. by apply resolution_sound.
  - intros d Hd Heq. destruct (advertised_resolves self d model Hd Heq) as [s Hs].
    exists s. split; [done|]. by destruct (resolution_sound self model s Hne Hs).
  - unfold canonical_route_model. cbv zeta. rewrite Hne. repeat (case_match; try done).
    by destruct (codex_subagent_base_model (trim model)).
Qed.

(** ** Keys of a model *)

(** A key's entry lists a model equivalent to the requested one, or, with
    folding, to the model of which it is the subagent variant. *)
Definition serves (mapping : ApiKeyModelConfig) (model : string) (ci : bool) : Prop :=
  exists candidate, candidate ∈ km_supported_models mapping /\
    (models_equivalent_with candidate model ci = true \/
     ci = true /\ exists base, codex_subagent_base_model model = Some (Some base) /\
       models_equivalent_with candidate base true = true).

Lemma exists_cons {A} (P : A -> Prop) x l :
  (exists y, y ∈ x :: l /\ P y) <-> P x \/ exists y, y ∈ l /\ P y.
Proof. setoid_rewrite elem_of_cons. naive_solver. Qed.

Lemma any_model_matches_spec candidates model :
  match any_model_matches candidates model with
  | None => codex_subagent_base_model model = None
  | Some b => b = true <-> exists candidate, candidate ∈ candidates /\
      (models_equivalent_with candidate model true = true \/
       exists base, codex_subagent_base_model model = Some (Some base) /\
         models_equivalent_with candidate base true = true)
  end.
Proof.
  induction candidates as [|c candidates IH]; simpl.
  { split; [done|]. intros (? & Hc & _). by apply elem_of_nil in Hc. }
  destruct (models_equivalent_with c model true) eqn:Hm; [by rewrite exists_cons; split; auto|].
  destruct (codex_subagent_base_model model) as [base|] eqn:Hb; simpl; [|done].
  destruct base as [base|]; simpl.
  - destruct (models_equivalent_with c base true) eqn:Hcb; [split; [|done]; intros _; apply exists_cons; left; right; by exists base|].
    destruct (any_model_matches candidates model); [|done]. rewrite IH, exists_cons, Hm.
    split; [by right|]. intros [[?|(b2 & [= <-] & ?)]|?]; [congruence..|done].
  - destruct (any_model_matches candidates model); [|done]. rewrite IH, exists_cons, Hm.
    split; [by right|]. intros [[?|(b2 & ? & ?)]|?]; [congruence..|done].
Qed.

(** The test of one entry, as [collect_keys] makes it. *)
Lemma serves_spec mapping model (ci : bool) matches :
  trim model = model -> model <> "" ->
  (if ci then any_model_matches (km_supported_models mapping) model
   else Some (existsb (fun candidate => String.eqb (trim candidate) model)
                (km_supported_models mapping))) = Some matches ->
  matches = true <-> serves mapping model ci.
Proof.
  intros Ht Hne. unfold serves. destruct ci.
  - intros Hm. pose proof (any_model_matches_spec (km_supported_models mapping) model) as Hspec.
    rewrite Hm in Hspec. rewrite Hspec. split.
    + intros (c & ? & [?|?]); exists c; auto.
    + intros (c & ? & [?|[_ ?]]); exists c; auto.
  - intros [= <-]. rewrite existsb_exists. split.
    + intros (c & Hc%list_elem_of_In & Heq%String.eqb_eq). exists c. split; [done|left].
      apply equivalent_with_false. split; congruence.
    + intros (c & Hc%list_elem_of_In & [Heq|[? _]]); [|done]. exists c. split; [done|].
      apply equivalent_with_false in Heq as [Heq _]. apply String.eqb_eq. congruence.
Qed.

Lemma collect_keys_spec current_keys seen mappings model ci keys :
  trim model = model -> model <> "" -> clean current_keys ->
  collect_keys current_keys seen mappings model ci = Some keys ->
  NoDup keys /\
  forall k, k ∈ keys <-> k ∉ seen /\ k ∈ current_keys /\
    exists mapping, mapping ∈ mappings /\ trim (km_api_key mapping) = k /\ serves mapping model ci.
Proof.
  intros Ht Hne [_ Hclean]. revert seen keys.
  induction mappings as [|mapping mappings IH]; intros seen keys; simpl.
  { intros [= <-]. split; [constructor|]. intros k. split; [by intros ?%elem_of_nil|].
    intros (_ & _ & ? & Hm & _). by apply elem_of_nil in Hm. }
  intros (matches & Hm & Hk)%bind_Some. apply serves_spec in Hm; [|done..].
  setoid_rewrite elem_of_cons. set (key := trim (km_api_key mapping)) in *.
  destruct (negb matches || _ || _ || _) eqn:Hskip.
  - destruct (IH _ _ Hk) as [Hd Hspec]. split; [done|]. intros k. rewrite Hspec.
    split; [naive_solver|]. intros (Hs & Hc & m & [->|Hin] & Hkey & Hserve); [|naive_solver].
    exfalso. rewrite Forall_forall in Hclean. destruct (Hclean _ Hc) as [_ Hke].
    fold key in Hkey. subst k. apply Hm in Hserve. subst matches. simpl in Hskip.
    rewrite (proj2 (str_is_empty_false key) Hke), bool_decide_true, bool_decide_false in Hskip by done.
    done.
  - apply bind_Some in Hk as (rest & Hrest & [= <-]). destruct (IH _ _ Hrest) as [Hd Hspec].
    apply orb_false_iff in Hskip as [Hskip Hseen%bool_decide_eq_false].
    apply orb_false_iff in Hskip as [Hskip Hcur%negb_false_iff%bool_decide_eq_true].
    apply orb_false_iff in Hskip as [Hmt%negb_false_iff _]. apply Hm in Hmt. split.
    + constructor; [|done]. rewrite Hspec, not_elem_of_union, not_elem_of_singleton. naive_solver.
    + intros k. rewrite elem_of_cons, Hspec, not_elem_of_union, not_elem_of_singleton.
      destruct (decide (k = key)) as [->|Hkne]; [naive_solver|]. split; [naive_solver|].
      intros (Hs & Hc & m & [->|Hin] & Hkey & Hserve); [by subst key|]. naive_solver.
Qed.

Lemma collect_keys_panics current_keys seen mappings model ci :
  collect_keys current_keys seen mappings model ci = None ->
  ci = true /\ codex_subagent_base_model model = None.
Proof.
  revert seen. induction mappings as [|mapping mappings IH]; intros seen; simpl; [done|].
  destruct ci; simpl.
  - pose proof (any_model_matches_spec (km_supported_models mapping) model) as Hspec.
    destruct (any_model_matches _ _); simpl; [|done].
    case_match; [apply IH|]. intros Hn. apply (IH ({[trim (km_api_key mapping)]} ∪ seen)).
    by destruct (collect_keys _ _ mappings model true).
  - case_match; [apply IH|]. intros Hn. apply (IH ({[trim (km_api_key mapping)]} ∪ seen)).
    by destruct (collect_keys _ _ mappings model false).
Qed.

(** The keys offered for a model are distinct available keys. Without a key
    table they are all of them; with one, they are exactly the available keys
    that have an entry that serves the model. Computing them only fails where
    the base of a subagent variant does. *)
Theorem keys_for_model_spec self model ci keys :
  keys_for_model_with self model ci = Some keys ->
  NoDup keys /\
  (forall key, key ∈ keys <-> key ∈ available_keys self /\
     (uc_api_key_models self = [] \/
      trim model <> "" /\
      exists mapping, mapping ∈ uc_api_key_models self /\ trim (km_api_key mapping) = key /\
        serves mapping (trim model) ci)) /\
  (forall model' ci', keys_for_model_with self model' ci' = None ->
     ci' = true /\ codex_subagent_base_model (trim model') = None).
Proof.
  unfold keys_for_model_with. cbv zeta. intros Hk.
  assert (clean (available_keys self)) as Hclean by apply normalize_clean.
  split_and!.
  - destruct (is_empty (uc_api_key_models self)); [injection Hk as <-; apply Hclean|].
    destruct (str_is_empty (trim model)) eqn:He; [injection Hk as <-; constructor|].
    apply str_is_empty_false in He.
    apply collect_keys_spec in Hk as [? _]; [done|apply trim_idempotent|done..].
  - intros key.
    assert (uc_api_key_models self = [] <-> is_empty (uc_api_key_models self) = true) as Ht
      by (by destruct (uc_api_key_models self)).
    destruct (is_empty (uc_api_key_models self)) eqn:Htable.
    { injection Hk as <-. tauto. }
    destruct (str_is_empty (trim model)) eqn:He.
    { injection Hk as <-. apply str_is_empty_true in He. split; [by intros ?%elem_of_nil|].
      intros [_ [Hn%Ht|[? _]]]; done. }
    apply str_is_empty_false in He.
    apply collect_keys_spec in Hk as [_ Hspec]; [|apply trim_idempotent|done..].
    rewrite Hspec. pose proof (not_elem_of_empty (C := gset string) key).
    assert (uc_api_key_models self <> []) by (by intros ?%Ht). tauto.
  - clear Hk. intros model' ci' Hn. destruct (is_empty _); [done|]. destruct (str_is_empty _); [done|].
    by apply collect_keys_panics in Hn.
Qed.

(** ** Validated mappings *)

Definition inequivalent (x y : string * string) : Prop :=
  models_equivalent_with x.1 y.1 true = false /\ models_equivalent_with x.2 y.2 true = false.

Lemma clashes_ok index k u d others :
  clashes index k u d others = Ok tt ->
  forall j pair, others !! j = Some pair -> index <> (k + j)%nat -> inequivalent (u, d) pair.
Proof.
  revert k. induction others as [|[u' d'] others IH]; intros k; [done|]. simpl.
  rewrite !models_equivalent_eq. intros Hc [|j] pair; simpl.
  - intros [= <-] Hne. destruct (Nat.eqb_spec index k); [lia|]. unfold inequivalent. simpl.
    destruct (models_equivalent_with u u' true); [done|].
    by destruct (models_equivalent_with d d' true).
  - intros Hj Hne. apply (IH (S k)) with j; [|done|lia].
    destruct (Nat.eqb index k); [done|].
    destruct (models_equivalent_with u u' true); [done|].
    by destruct (models_equivalent_with d d' true).
Qed.

Lemma validate_pairs_ok all index mappings :
  validate_pairs all index mappings = Ok tt ->
  forall i pair, mappings !! i = Some pair ->
    pair.1 <> "" /\ pair.2 <> "" /\
    forall j other, all !! j = Some other -> (index + i)%nat <> j -> inequivalent pair other.
Proof.
  revert index. induction mappings as [|[u d] mappings IH]; intros index; [done|]. simpl.
  destruct (str_is_empty u) eqn:Hu; [done|]. destruct (str_is_empty d) eqn:Hd; [done|].
  destruct (clashes _ _ _ _ _) as [[]|] eqn:Hc; [|done]. simpl. intros Hv [|i] pair; simpl.
  - intros [= <-]. split_and!; [by apply str_is_empty_false..|]. intros j other Hj Hne.
    apply (clashes_ok index 0 u d all Hc j); [done|lia].
  - intros Hi. destruct (IH _ Hv i pair Hi) as (? & ? & Hall). split_and!; [done..|].
    intros j other Hj Hne. apply (Hall j); [done|lia].
Qed.

Lemma validate_collisions_ok models occupied_models index mappings :
  validate_collisions models occupied_models index mappings = Ok tt ->
  forall pair model, pair ∈ mappings -> model ∈ models ->
    canonical_model_id model ∉ occupied_models ->
    canonical_model_id model <> canonical_model_id pair.2.
Proof.
  revert index. induction mappings as [|[u d] mappings IH]; intros index.
  { intros _ pair model Hin. by apply elem_of_nil in Hin. }
  simpl. destruct (find _ models) as [collision|] eqn:Hf; [done|].
  intros Hv pair model [->|Hin]%elem_of_cons Hm Ho; [|by eapply IH].
  intros Heq. apply list_elem_of_In in Hm. apply (find_none _ _ Hf) in Hm.
  rewrite bool_decide_false in Hm by done. simpl in Hm, Heq. rewrite Heq, String.eqb_refl in Hm. done.
Qed.

Lemma resolve_mappings_skip models before rest model :
  (forall mapping, mapping ∈ before ->
     models_equivalent_with (trim (mm_downstream_model mapping)) model true = false) ->
  resolve_mappings models (before ++ rest) model true = resolve_mappings models rest model true.
Proof.
  induction before as [|mapping before IH]; intros Hb; [done|]. simpl.
  rewrite (Hb mapping) by left. simpl. apply IH. intros m Hm. apply Hb. by right.
Qed.

(** The mapping as a pair of trimmed names, unless both are blank. *)
Definition trimmed_mapping (mapping : UpstreamModelMapping) : option (string * string) :=
  let upstream := trim (mm_upstream_model mapping) in
  let downstream := trim (mm_downstream_model mapping) in
  if negb (str_is_empty upstream) || negb (str_is_empty downstream)
  then Some (upstream, downstream) else None.

Lemma trimmed_mappings_eq self :
  trimmed_mappings self = omap trimmed_mapping (uc_model_mappings self).
Proof. done. Qed.

Lemma trimmed_mapping_some mapping :
  trim (mm_upstream_model mapping) <> "" \/ trim (mm_downstream_model mapping) <> "" ->
  trimmed_mapping mapping =
  Some (trim (mm_upstream_model mapping), trim (mm_downstream_model mapping)).
Proof.
  unfold trimmed_mapping. cbv zeta. intros Hne.
  destruct (str_is_empty (trim (mm_upstream_model mapping))) eqn:Hu; [|done].
  destruct (str_is_empty (trim (mm_downstream_model mapping))) eqn:Hd; [|done].
  apply str_is_empty_true in Hu, Hd. by destruct Hne.
Qed.

(** In a valid list, no mapping before [mapping] answers to its downstream name. *)
Lemma validated_before self before mapping rest :
  validate_model_mappings self = Ok tt ->
  uc_model_mappings self = before ++ mapping :: rest ->
  trim (mm_upstream_model mapping) <> "" ->
  trim (mm_downstream_model mapping) <> "" /\
  forall other, other ∈ before ->
    models_equivalent_with (trim (mm_downstream_model other))
      (trim (mm_downstream_model mapping)) true = false.
Proof.
  intros Hv Hsplit Hu. unfold validate_model_mappings in Hv. rewrite trimmed_mappings_eq, Hsplit in Hv.
  rewrite omap_app in Hv. simpl in Hv. rewrite (trimmed_mapping_some mapping) in Hv by auto.
  set (l1 := omap trimmed_mapping before) in Hv. set (all := l1 ++ _) in Hv.
  destruct (validate_pairs all 0 all) as [[]|] eqn:Hp; [|done].
  pose proof (validate_pairs_ok _ _ _ Hp) as Hpairs.
  assert (all !! length l1 = Some (trim (mm_upstream_model mapping), trim (mm_downstream_model mapping)))
    as Hat by (by apply list_lookup_middle).
  split; [by destruct (Hpairs _ _ Hat) as (_ & ? & _)|]. intros other Hother.
  destruct (models_equivalent_with _ _ true) eqn:Heq; [|done]. exfalso.
  apply equivalent_with_true in Heq as Hne. destruct Hne as [_ Hne]. rewrite trim_idempotent in Hne.
  assert ((trim (mm_upstream_model other), trim (mm_downstream_model other)) ∈ l1) as Hin.
  { apply list_elem_of_omap. exists other. split; [done|]. apply trimmed_mapping_some. auto. }
  apply list_elem_of_lookup_1 in Hin as [j Hj]. pose proof (lookup_lt_Some _ _ _ Hj).
  destruct (Hpairs j _ (lookup_app_l_Some _ _ _ _ Hj)) as (_ & _ & Hall).
  destruct (Hall _ _ Hat) as [_ Hd]; [lia|]. simpl in Hd. congruence.
Qed.

Lemma validated_blank self mapping :
  validate_model_mappings self = Ok tt -> mapping ∈ uc_model_mappings self ->
  trim (mm_upstream_model mapping) = "" <-> trim (mm_downstream_model mapping) = "".
Proof.
  intros Hv Hin. unfold validate_model_mappings in Hv.
  destruct (validate_pairs _ _ _) as [[]|] eqn:Hp; [|done].
  destruct (trimmed_mapping mapping) as [pair|] eqn:Ht.
  - assert (pair ∈ trimmed_mappings self) as Hpin by (apply list_elem_of_omap; eauto).
    apply list_elem_of_lookup_1 in Hpin as [i Hi].
    destruct (validate_pairs_ok _ _ _ Hp i pair Hi) as (Hu & Hd & _).
    unfold trimmed_mapping in Ht. cbv zeta in Ht. case_match; [|done].
    injection Ht as <-. simpl in Hu, Hd. tauto.
  - destruct (decide (trim (mm_upstream_model mapping) = "")) as [Hu|Hu];
      [|by rewrite trimmed_mapping_some in Ht by auto].
    destruct (decide (trim (mm_downstream_model mapping) = "")) as [Hd|Hd];
      [tauto|by rewrite trimmed_mapping_some in Ht by auto].
Qed.

Lemma validated_disjoint self mapping model :
  validate_model_mappings self = Ok tt -> mapping ∈ uc_model_mappings self ->
  model ∈ retain (unoccupied self) (route_models self) ->
  models_equivalent_with model (trim (mm_downstream_model mapping)) true = false.
Proof.
  intros Hv Hin [Hun Hm]%retain_elem.
  destruct (models_equivalent_with _ _ true) eqn:Heq; [|done]. exfalso.
  apply equivalent_with_true in Heq as [Heq Hne].
  unfold validate_model_mappings in Hv.
  destruct (validate_pairs _ _ _) as [[]|] eqn:Hp; [|done]. simpl in Hv.
  destruct (decide (trim (mm_downstream_model mapping) = "")) as [Hd|Hd].
  { apply Hne, canonical_empty. rewrite Heq, canonical_trim. by apply canonical_empty. }
  apply (validate_collisions_ok _ _ _ _ Hv
         (trim (mm_upstream_model mapping), trim (mm_downstream_model mapping)) model); [|done| |done].
  - apply list_elem_of_omap. exists mapping. split; [done|]. apply trimmed_mapping_some. auto.
  - unfold unoccupied in Hun. apply negb_true_iff, bool_decide_eq_false in Hun.
    intros Hocc. apply Hun. unfold occupied.
    apply elem_of_list_to_set in Hocc. apply elem_of_list_to_set.
    apply list_elem_of_fmap in Hocc as ([u d] & Heq' & (m & Hmin & Ht)%list_elem_of_omap).
    apply list_elem_of_fmap. exists m. split; [|done].
    cbv zeta in Ht. case_match; [|done]. injection Ht as <- <-. done.
Qed.

(** Validation makes the mappings unambiguous. In a configuration that
    passes, a request for the downstream name of a mapping reaches the model that
    this mapping's own upstream name stands for, whatever the other mappings are,
    as soon as that model is stored; a mapping is complete unless it is blank; and
    no model that is advertised under its own name shares its canonical name with
    the downstream name of a mapping. *)
Theorem validated_mappings_unambiguous self :
  validate_model_mappings self = Ok tt ->
  (forall mapping stored, mapping ∈ uc_model_mappings self ->
     find_equivalent_stored (route_models self) (trim (mm_upstream_model mapping)) true = Some stored ->
     resolved_model_name self (mm_downstream_model mapping) = Some (Some stored)) /\
  (forall mapping, mapping ∈ uc_model_mappings self ->
     trim (mm_upstream_model mapping) = "" <-> trim (mm_downstream_model mapping) = "") /\
  (forall mapping model, mapping ∈ uc_model_mappings self ->
     model ∈ retain (unoccupied self) (route_models self) ->
     models_equivalent_with model (trim (mm_downstream_model mapping)) true = false).
Proof.
  intros Hv. split_and!.
  - intros mapping stored Hin Hf.
    assert (trim (mm_upstream_model mapping) <> "") as Hu.
    { intros He. rewrite He in Hf. revert Hf. by vm_compute. }
    apply list_elem_of_split in Hin as (before & rest & Hsplit).
    destruct (validated_before self before mapping rest Hv Hsplit Hu) as [Hd Hbefore].
    unfold resolved_model_name, resolved_model_name_with, canonical_route_model. cbv zeta.
    rewrite (proj2 (str_is_empty_false _) Hd), Hsplit, resolve_mappings_skip by done. simpl.
    replace (models_equivalent_with _ _ true) with true.
    + by rewrite (proj2 (str_is_empty_false _) Hu), Hf.
    + symmetry. apply equivalent_with_true. by rewrite trim_idempotent.
  - intros mapping Hin. by apply (validated_blank self).
  - intros mapping model Hin. by apply (validated_disjoint self).
Qed.

(** ** Witnesses *)

(** An upstream with two keys, a key table, a mapping with blanks around its
    names and a model that no mapping claims. *)
Definition sample_upstream : UpstreamConfig :=
  {| uc_id := "u1"; uc_name := "first"; uc_remark := " primary "; uc_continuation_provider_group := Some " group ";
     uc_api_key := " k1 "; uc_api_keys := ["k2"; "k1"];
     uc_api_key_models :=
       [{| km_api_key := "k2"; km_supported_models := ["glm-5.2"; "GPT-5"] |};
        {| km_api_key := "k1"; km_supported_models := ["gpt-5"] |}];
     uc_protocol := UpChatCompletions; uc_protocols := [UpResponses; UpChatCompletions; UpResponses];
     uc_supported_models := ["glm-5.2"; "gpt-5"];
     uc_model_mappings := [{| mm_upstream_model := " GLM-5.2 "; mm_downstream_model := " house " |}];
     uc_model_contexts :=
       [{| mc_slug := " gpt-5 "; mc_context_limit := 1; mc_output_reserve := 0;
           mc_max_output_tokens := 0; mc_context_group := "" |}];
     uc_default_model_context := None; uc_request_quota_window_hours := 0;
     uc_priority := 10; uc_weight := 1;
     uc_max_concurrency := 4; uc_active := true; uc_failure_count := 3;
     uc_base_url := "https://relay.example/v1"; uc_dialect_preset := None;
     uc_model_dialect_presets := {["gpt-*" := "openai"]}; uc_strip_nonstandard_chat_fields := StripAuto |}.

Example sample_resolution :
  resolved_model_name sample_upstream "HOUSE" = Some (Some "glm-5.2") /\
  resolved_model_name sample_upstream "GPT-5-fast-preview" = Some (Some "gpt-5") /\
  resolved_model_name sample_upstream "glm-5.2" = Some None /\
  keys_for_model sample_upstream "gpt-5" = Some ["k2"; "k1"] /\
  keys_for_model sample_upstream "glm-5.2" = Some ["k2"] /\
  dialect_preset_for_model sample_upstream "GPT-5-mini" = Some "openai" /\
  effective_downstream_models sample_upstream = ["house"; "gpt-5"] /\
  validate_configuration sample_upstream = Ok tt.
Proof. vm_compute. split_and!; reflexivity. Qed.

(** With exact matching of requests, an advertised name may lead nowhere: which
    mappings are live, and which stored models they claim, is decided by folded
    comparison whatever the setting. *)
Example exact_matching_strands_mapping :
  "house" ∈ effective_downstream_models sample_upstream /\
  resolved_model_name_with sample_upstream "house" false = Some None /\
  resolved_model_name_with sample_upstream "glm-5.2" false = Some None.
Proof.
  split_and!; [|vm_compute; reflexivity..].
  apply (bool_decide_unpack _). vm_compute. exact I.
Qed.

Lemma advertised_iff_resolved_witness :
  (exists s, resolved_model_name sample_upstream " House" = Some (Some s) /\
     s ∈ route_models sample_upstream) /\
  names sample_upstream (trim "GPT-5-fast-preview").
Proof.
  split.
  - refine (proj1 (proj2 (advertised_iff_resolved sample_upstream " House" _)) "house" _ _).
    + vm_compute. reflexivity.
    + apply (bool_decide_unpack _). vm_compute. exact I.
    + vm_compute. reflexivity.
  - refine (proj2 (proj1 (advertised_iff_resolved sample_upstream "GPT-5-fast-preview" _) "gpt-5" _)).
    + vm_compute. reflexivity.
    + vm_compute. reflexivity.
Defined.

Lemma keys_for_model_spec_witness :
  NoDup ["k2"; "k1"] /\ ("k1" ∈ ["k2"; "k1"] <-> "k1" ∈ available_keys sample_upstream /\
     (uc_api_key_models sample_upstream = [] \/
      trim "gpt-5" <> "" /\
      exists mapping, mapping ∈ uc_api_key_models sample_upstream /\ trim (km_api_key mapping) = "k1" /\
        serves mapping (trim "gpt-5") true)).
Proof.
  split.
  - refine (proj1 (keys_for_model_spec sample_upstream "gpt-5" true _ _)). vm_compute. reflexivity.
  - refine (proj1 (proj2 (keys_for_model_spec sample_upstream "gpt-5" true _ _)) "k1").
    vm_compute. reflexivity.
Defined.

Lemma validated_mappings_unambiguous_witness :
  resolved_model_name sample_upstream " house " = Some (Some "glm-5.2").
Proof.
  refine (proj1 (validated_mappings_unambiguous sample_upstream _)
            {| mm_upstream_model := " GLM-5.2 "; mm_downstream_model := " house " |} "glm-5.2" _ _).
  - vm_compute. reflexivity.
  - left.
  - vm_compute. reflexivity.
Defined.
