(* ===== verification/Routing.v ===== *)
(** * Choice of an upstream

    [src/src/routing.rs] and [AppState::choose_upstream] and
    [upstream_candidates] of [src/src/state.rs]: the candidates that the
    configured upstreams make, the choice of a healthy one for a request, and the
    weighted pick within the highest priority tier.

    Priorities, weights and failure counts are [u32]; the [u64] total of the
    weights of a tier cannot overflow for fewer than 2^32 candidates, and is a [Z]
    here. The cursor of a pick is a [u64]. *)

From S2P Require Import Prelude RouteTypes ModelIdentity UpstreamConfig.

Local Open Scope Z_scope.

(** ** Data *)

Record RouteRequest := {
  rr_model : string;
  rr_protocol : UpstreamProtocol;
  rr_stream : bool
}.

Record UpstreamCandidate := {
  ca_id : string;
  ca_name : string;
  ca_protocol : UpstreamProtocol;
  ca_models : list string;
  ca_priority : Z;
  ca_weight : Z;
  ca_failure_count : Z
}.

Inductive RouteError :=
| ModelUnavailable (model : string)
| NoHealthyUpstream (model : string).

Definition UpstreamCandidate_new (id name : string) (protocol : UpstreamProtocol)
    : UpstreamCandidate :=
  {| ca_id := id; ca_name := name; ca_protocol := protocol; ca_models := [];
     ca_priority := 0; ca_weight := 1; ca_failure_count := 0 |}.

Definition with_models (models : list string) (self : UpstreamCandidate) : UpstreamCandidate :=
  {| self with ca_models := models |}.

Definition with_priority (priority : Z) (self : UpstreamCandidate) : UpstreamCandidate :=
  {| self with ca_priority := priority |}.

Definition with_weight (weight : Z) (self : UpstreamCandidate) : UpstreamCandidate :=
  {| self with ca_weight := weight |}.

Definition with_failure_count (failure_count : Z) (self : UpstreamCandidate) : UpstreamCandidate :=
  {| self with ca_failure_count := failure_count |}.

(** ** The weighted pick *)

(** [iter().enumerate()]. *)
Definition enumerate {A} (l : list A) : list (nat * A) := imap pair l.

(** The loop over the cumulative weights. *)
Fixpoint pick_bucket (positive : list (nat * Z)) (bucket : Z) : option nat :=
  match positive with
  | [] => None
  | (index, weight) :: positive =>
      if bucket <? weight then Some index else pick_bucket positive (bucket - weight)
  end.

Definition select_weighted_candidate_index (candidates : list UpstreamCandidate) (cursor : Z)
    : option nat :=
  highest_priority ← max_by Z.ltb (map ca_priority candidates);
  let tier :=
    retain (fun '(_, candidate) => ca_priority candidate =? highest_priority)
      (enumerate candidates) in
  let positive :=
    map (fun '(index, candidate) => (index, ca_weight candidate))
      (retain (fun '(_, candidate) => 0 <? ca_weight candidate) tier) in
  if is_empty positive then fst <$> head tier
  else
    let total := sumZ (map snd positive) in
    match pick_bucket positive (cursor mod total) with
    | Some index => Some index
    | None => fst <$> head positive
    end.

(** ** The choice of a healthy candidate *)

Definition supports_request (request : RouteRequest) (case_insensitive : bool)
    (candidate : UpstreamCandidate) : bool :=
  bool_decide (ca_protocol candidate = rr_protocol request)
  && existsb (fun model => models_equivalent_with model (rr_model request) case_insensitive)
       (ca_models candidate).

(** The comparison of the sort: a higher priority, then fewer failures. *)
Definition preferred_leb (a b : UpstreamCandidate) : bool :=
  (ca_priority b <? ca_priority a)
  || ((ca_priority b =? ca_priority a) && (ca_failure_count a <=? ca_failure_count b)).

Definition healthy (candidate : UpstreamCandidate) : bool := ca_failure_count candidate <? 3.

Definition select_upstream_with_model_matching (request : RouteRequest)
    (candidates : list UpstreamCandidate) (case_insensitive : bool)
    : result UpstreamCandidate RouteError :=
  let supported := retain (supports_request request case_insensitive) candidates in
  if is_empty supported then Err (ModelUnavailable (rr_model request))
  else
    let preferred := sort_by preferred_leb supported in
    match find healthy preferred with
    | Some candidate => Ok candidate
    | None => Err (NoHealthyUpstream (rr_model request))
    end.

Definition select_upstream (request : RouteRequest) (candidates : list UpstreamCandidate)
    : result UpstreamCandidate RouteError :=
  select_upstream_with_model_matching request candidates true.

(** ** Candidates of a configuration *)

Definition candidates_of (upstream : UpstreamConfig) : list UpstreamCandidate :=
  map (fun protocol =>
    with_failure_count (uc_failure_count upstream)
      (with_weight (uc_weight upstream)
        (with_priority (uc_priority upstream)
          (with_models (route_models upstream)
            (UpstreamCandidate_new (uc_id upstream) (uc_name upstream) protocol)))))
    (supported_protocols upstream).

Definition upstream_candidates (upstreams : list UpstreamConfig) : list UpstreamCandidate :=
  concat (map candidates_of (retain uc_active upstreams)).

(** The lock is released between the choice and the look-up: [later] is the
    configuration by then. *)
Definition choose_upstream (upstreams later : list UpstreamConfig) (model : string)
    (protocol : UpstreamProtocol) (case_insensitive : bool) : result UpstreamConfig RouteError :=
  let? selected :=
    select_upstream_with_model_matching
      {| rr_model := model; rr_protocol := protocol; rr_stream := false |}
      (upstream_candidates upstreams) case_insensitive in
  ok_or (find (fun upstream => String.eqb (uc_id upstream) (ca_id selected)) later)
    (NoHealthyUpstream model).

(** ** The choice *)

Lemma preferred_leb_spec a b :
  preferred_leb a b = true <->
  ca_priority b < ca_priority a \/
  ca_priority a = ca_priority b /\ ca_failure_count a <= ca_failure_count b.
Proof. unfold preferred_leb. rewrite orb_true_iff, andb_true_iff. lia. Qed.

Lemma preferred_total a b : preferred_leb a b = false -> preferred_leb b a = true.
Proof.
  intros Hf. apply preferred_leb_spec. rewrite <- Bool.not_true_iff_false, preferred_leb_spec in Hf. lia.
Qed.

Lemma preferred_trans a b c :
  preferred_leb a b = true -> preferred_leb b c = true -> preferred_leb a c = true.
Proof. rewrite !preferred_leb_spec. lia. Qed.

(** A candidate that could serve the request. *)
Definition eligible (request : RouteRequest) (ci : bool) (candidate : UpstreamCandidate) : bool :=
  supports_request request ci candidate && healthy candidate.

Lemma retain_retain {A} (f g : A -> bool) l :
  retain f (retain g l) = retain (fun x => g x && f x) l.
Proof.
  induction l as [|x l IH]; [done|]. rewrite !retain_cons.
  destruct (g x); simpl; [|done]. rewrite retain_cons, IH. done.
Qed.

Lemma select_eq request candidates ci :
  select_upstream_with_model_matching request candidates ci =
  match head (sort_by preferred_leb (retain (eligible request ci) candidates)) with
  | Some candidate => Ok candidate
  | None =>
      Err (if is_empty (retain (supports_request request ci) candidates)
           then ModelUnavailable (rr_model request) else NoHealthyUpstream (rr_model request))
  end.
Proof.
  unfold select_upstream_with_model_matching. cbv zeta.
  rewrite find_retain, retain_sort_by, retain_retain by eauto using preferred_total, preferred_trans.
  change (fun x => supports_request request ci x && healthy x) with (eligible request ci).
  destruct (is_empty (retain (supports_request request ci) candidates)) eqn:He; [|by case_match].
  assert (retain (eligible request ci) candidates = []) as ->; [|done].
  apply elem_of_nil_inv. intros c [[Hs _]%andb_true_iff Hc]%retain_elem.
  rewrite (elem_not_empty _ c) in He; [done|]. by apply retain_elem.
Qed.

Lemma select_ok request candidates ci candidate :
  select_upstream_with_model_matching request candidates ci = Ok candidate ->
  exists i, candidates !! i = Some candidate /\ eligible request ci candidate = true /\
    (forall other, other ∈ candidates -> eligible request ci other = true ->
       preferred_leb candidate other = true) /\
    forall j other, (j < i)%nat -> candidates !! j = Some other ->
      eligible request ci other = true -> preferred_leb other candidate = false.
Proof.
  rewrite select_eq. destruct (head _) as [c|] eqn:Hh; [|done]. intros [= ->].
  apply sort_by_head in Hh as (i & Hi & Hleast & Hfirst);
    [|apply preferred_total|apply preferred_trans].
  apply retain_lookup in Hi as (i' & Hi' & He & Hb). exists i'. split_and!; [done|done| |].
  - intros other Hin Ho. apply Hleast. by apply retain_elem.
  - intros j other Hj Ho Hel. destruct (Hb j other Hj Ho Hel) as (k & Hk & Hl). by apply (Hfirst k).
Qed.

Lemma select_err request candidates ci error :
  select_upstream_with_model_matching request candidates ci = Err error ->
  (forall candidate, candidate ∈ candidates -> eligible request ci candidate = false) /\
  (error = ModelUnavailable (rr_model request) /\
   (forall candidate, candidate ∈ candidates -> supports_request request ci candidate = false) \/
   error = NoHealthyUpstream (rr_model request) /\
   exists candidate, candidate ∈ candidates /\ supports_request request ci candidate = true).
Proof.
  rewrite select_eq. destruct (head _) as [c|] eqn:Hh; [done|]. intros [= <-]. split.
  - intros c Hc. destruct (eligible request ci c) eqn:He; [|done].
    assert (c ∈ sort_by preferred_leb (retain (eligible request ci) candidates)) as Hin
      by (rewrite sort_by_perm; by apply retain_elem).
    destruct (sort_by _ _); [by apply elem_of_nil in Hin|done].
  - destruct (is_empty _) eqn:He; [left|right]; (split; [done|]).
    + intros c Hc. destruct (supports_request request ci c) eqn:Hs; [|done].
      rewrite (elem_not_empty _ c) in He; [done|]. by apply retain_elem.
    + destruct (retain (supports_request request ci) candidates) as [|c r] eqn:Hr; [done|]. exists c.
      assert (c ∈ retain (supports_request request ci) candidates) as Hin by (rewrite Hr; by left).
      by apply retain_elem in Hin as [? ?].
Qed.

(** The choice of a candidate. The one chosen supports the request and has
    failed fewer than three times; among all such it has the highest priority and,
    at that priority, the fewest failures, and it is the first of its equals in the
    order given. Without one, the error tells whether any candidate supports the
    request. *)
Theorem select_upstream_spec request candidates ci :
  match select_upstream_with_model_matching request candidates ci with
  | Ok candidate =>
      exists i, candidates !! i = Some candidate /\ eligible request ci candidate = true /\
        (forall other, other ∈ candidates -> eligible request ci other = true ->
           ca_priority other < ca_priority candidate \/
           ca_priority candidate = ca_priority other /\
           ca_failure_count candidate <= ca_failure_count other) /\
        (forall j other, (j < i)%nat -> candidates !! j = Some other ->
           eligible request ci other = true -> preferred_leb other candidate = false)
  | Err error =>
      (forall candidate, candidate ∈ candidates -> eligible request ci candidate = false) /\
      (error = ModelUnavailable (rr_model request) <->
       forall candidate, candidate ∈ candidates -> supports_request request ci candidate = false)
  end.
Proof.
  destruct (select_upstream_with_model_matching request candidates ci) as [c|error] eqn:Hs.
  - apply select_ok in Hs as (i & Hi & He & Hall & Hfirst). exists i. split_and!; try done.
    intros other Hin Ho. apply preferred_leb_spec. auto.
  - apply select_err in Hs as [Hall [[-> Hno]|[-> (c & Hc & Hs)]]]; (split; [done|]); [done|].
    split; [done|]. intros Hno. specialize (Hno c Hc). congruence.
Qed.

(** ** The chosen upstream *)

Lemma candidate_elem upstreams candidate :
  candidate ∈ upstream_candidates upstreams <->
  exists upstream protocol, upstream ∈ upstreams /\ uc_active upstream = true /\
    protocol ∈ supported_protocols upstream /\
    candidate =
      {| ca_id := uc_id upstream; ca_name := uc_name upstream; ca_protocol := protocol;
         ca_models := route_models upstream; ca_priority := uc_priority upstream;
         ca_weight := uc_weight upstream; ca_failure_count := uc_failure_count upstream |}.
Proof.
  unfold upstream_candidates. rewrite list_elem_of_In, in_concat.
  setoid_rewrite <- list_elem_of_In. split.
  - intros (l & (u & -> & [Ha Hu]%retain_elem)%list_elem_of_fmap & Hc).
    apply list_elem_of_fmap in Hc as (p & -> & Hp). by exists u, p.
  - intros (u & p & Hu & Ha & Hp & ->). exists (candidates_of u). split.
    + apply list_elem_of_fmap. exists u. split; [done|]. by apply retain_elem.
    + apply list_elem_of_fmap. by exists p.
Qed.

(** An active upstream that speaks the protocol and stores the model. *)
Definition serves_request (model : string) (protocol : UpstreamProtocol) (ci : bool)
    (upstream : UpstreamConfig) : Prop :=
  uc_active upstream = true /\ protocol ∈ supported_protocols upstream /\
  exists stored, stored ∈ route_models upstream /\ models_equivalent_with stored model ci = true.

Lemma find_by_id upstreams upstream :
  NoDup (uc_id <$> upstreams) -> upstream ∈ upstreams ->
  find (fun other => String.eqb (uc_id other) (uc_id upstream)) upstreams = Some upstream.
Proof.
  induction upstreams as [|u upstreams IH]; intros Hd Hin; [by apply elem_of_nil in Hin|].
  apply NoDup_cons in Hd as [Hn Hd]. simpl. apply elem_of_cons in Hin as [->|Hin].
  - by rewrite String.eqb_refl.
  - destruct (String.eqb_spec (uc_id u) (uc_id upstream)) as [Heq|]; [|by apply IH].
    exfalso. apply Hn. rewrite Heq. apply list_elem_of_fmap. by exists upstream.
Qed.

(** The chosen upstream, when the configuration does not change in between and
    identifiers are distinct: it is an active one that speaks the protocol, stores
    the model and has failed fewer than three times, and no other such upstream has
    a higher priority, nor the same with fewer failures; and one is chosen whenever
    there is one. *)
Theorem choose_upstream_spec upstreams model protocol ci :
  NoDup (uc_id <$> upstreams) ->
  let usable upstream := upstream ∈ upstreams /\ serves_request model protocol ci upstream /\
                         uc_failure_count upstream < 3 in
  match choose_upstream upstreams upstreams model protocol ci with
  | Ok upstream =>
      usable upstream /\
      forall other, usable other ->
        uc_priority other < uc_priority upstream \/
        uc_priority upstream = uc_priority other /\
        uc_failure_count upstream <= uc_failure_count other
  | Err _ => forall upstream, ~ usable upstream
  end.
Proof.
  intros Hd usable. unfold choose_upstream.
  set (request := {| rr_model := model; rr_protocol := protocol; rr_stream := false |}).
  assert (forall u, usable u -> exists c, c ∈ upstream_candidates upstreams /\
    eligible request ci c = true /\ ca_priority c = uc_priority u /\
    ca_failure_count c = uc_failure_count u) as Hcand.
  { intros u (Hu & (Ha & Hp & Hm) & Hf). eexists. split_and!.
    - apply candidate_elem. by exists u, protocol.
    - unfold eligible, supports_request, healthy. simpl. rewrite bool_decide_true by done. simpl.
      apply andb_true_iff. split; [by apply existsb_elem|lia].
    - done.
    - done. }
  destruct (select_upstream_with_model_matching _ _ _) as [c|error] eqn:Hs; simpl.
  - apply select_ok in Hs as (i & Hi%list_elem_of_lookup_2 & He & Hall & _).
    apply candidate_elem in Hi as (u & p & Hu & Ha & Hp & ->). simpl.
    rewrite find_by_id by done. simpl. apply andb_true_iff in He as [Hs Hh].
    apply andb_true_iff in Hs as [Hpr%bool_decide_eq_true Hm%existsb_elem].
    unfold healthy in Hh. simpl in Hpr, Hm, Hh. subst p. split.
    + split; [done|]. split; [by split_and!|lia].
    + intros v (c & Hc & Hel & Hpv & Hfv)%Hcand. rewrite <- Hpv, <- Hfv.
      exact (proj1 (preferred_leb_spec _ c) (Hall c Hc Hel)).
  - apply select_err in Hs as [Hno _]. intros u (c & Hc & Hel & _)%Hcand.
    specialize (Hno c Hc). congruence.
Qed.

(** ** The weighted pick *)

Lemma max_by_Z l h : max_by Z.ltb l = Some h -> h ∈ l /\ forall x, x ∈ l -> x <= h.
Proof.
  destruct l as [|x l]; simpl; [done|]. intros [= <-]. revert x.
  induction l as [|y l IH]; intros x; simpl.
  { split; [by left|]. by intros z ->%list_elem_of_singleton. }
  set (m := if y <? x then x else y). destruct (IH m) as [Hin Hmax].
  assert (x <= m /\ y <= m /\ (m = x \/ m = y)) as (? & ? & Hm).
  { subst m. destruct (Z.ltb_spec y x); auto with lia. }
  split.
  - apply elem_of_cons in Hin as [Hin|Hin]; [|by right; right].
    rewrite Hin. destruct Hm as [Hm|Hm]; rewrite Hm; [by left|by right; left].
  - intros z [->|[->|Hz]%elem_of_cons]%elem_of_cons.
    + specialize (Hmax m ltac:(by left)). lia.
    + specialize (Hmax m ltac:(by left)). lia.
    + apply Hmax. by right.
Qed.

Lemma enumerate_lookup {A} (l : list A) i x : (i, x) ∈ enumerate l <-> l !! i = Some x.
Proof.
  unfold enumerate. rewrite elem_of_lookup_imap. split.
  - by intros (j & y & [= -> ->] & Hl).
  - intros Hl. by exists i, x.
Qed.

Lemma enumerate_fst {A} (l : list A) : (enumerate l).*1 = seq 0 (length l).
Proof. unfold enumerate. rewrite fmap_imap. etrans; [apply (imap_seq_0 l id)|apply list_fmap_id]. Qed.

(** The members of the highest tier that have a weight, with their weights. *)
Definition weighted_tier (candidates : list UpstreamCandidate) (highest : Z) : list (nat * Z) :=
  map (fun '(index, candidate) => (index, ca_weight candidate))
    (retain (fun '(_, candidate) => 0 <? ca_weight candidate)
      (retain (fun '(_, candidate) => ca_priority candidate =? highest) (enumerate candidates))).

Lemma weighted_tier_elem candidates h i w :
  (i, w) ∈ weighted_tier candidates h <->
  exists c, candidates !! i = Some c /\ ca_priority c = h /\ w = ca_weight c /\ 0 < w.
Proof.
  unfold weighted_tier. rewrite list_elem_of_fmap. split.
  - intros ([j c] & [= -> ->] & [Hw [Hp Hin]%retain_elem]%retain_elem).
    apply enumerate_lookup in Hin. exists c. split_and!; [done|lia|done|lia].
  - intros (c & Hl & Hp & -> & Hw). exists (i, c). split; [done|].
    rewrite !retain_elem, enumerate_lookup. split_and!; [lia|lia|done].
Qed.

Lemma weighted_tier_nodup candidates h : NoDup (weighted_tier candidates h).*1.
Proof.
  unfold weighted_tier.
  assert (forall l : list (nat * UpstreamCandidate),
    (map (fun '(index, candidate) => (index, ca_weight candidate)) l).*1 = l.*1) as ->.
  { induction l as [|[] l IH]; [done|]. simpl. f_equal. apply IH. }
  do 2 apply retain_NoDup_fmap. rewrite enumerate_fst. apply NoDup_seq.
Qed.

(** *** A full cycle of buckets *)

Lemma pick_bucket_range positive bucket :
  Forall (fun entry => 0 < entry.2) positive -> 0 <= bucket < sumZ positive.*2 ->
  exists i w, pick_bucket positive bucket = Some i /\ (i, w) ∈ positive.
Proof.
  revert bucket. induction positive as [|[i w] positive IH]; intros bucket Hpos Hb; csimpl in *; [lia|].
  apply Forall_cons in Hpos as [Hw Hpos]. destruct (Z.ltb_spec bucket w).
  - exists i, w. split; [done|by left].
  - destruct (IH (bucket - w)) as (j & v & Hpick & Hin); [done|lia|]. exists j, v. split; [done|by right].
Qed.

Lemma pick_bucket_elem positive bucket i :
  pick_bucket positive bucket = Some i -> exists w, (i, w) ∈ positive.
Proof.
  revert bucket. induction positive as [|[j v] positive IH]; intros bucket; simpl; [done|].
  destruct (_ <? _); [intros [= ->]; exists v; by left|]. intros [w Hw]%IH. exists w. by right.
Qed.

(** How many of the cursors pick the index. *)
Definition picks (pick : Z -> option nat) (cursors : list Z) (index : nat) : Z :=
  Z.of_nat (length (filter (fun cursor => pick cursor = Some index) cursors)).

Lemma picks_app pick l1 l2 i : picks pick (l1 ++ l2) i = picks pick l1 i + picks pick l2 i.
Proof. unfold picks. rewrite filter_app, length_app. lia. Qed.

Lemma picks_ext pick pick' l i :
  (forall cursor, cursor ∈ l -> pick cursor = pick' cursor) -> picks pick l i = picks pick' l i.
Proof.
  intros Heq. unfold picks. do 2 f_equal. induction l as [|x l IH]; [done|].
  rewrite !filter_cons, IH by (intros; apply Heq; by right). by rewrite Heq by left.
Qed.

Lemma picks_fmap pick f l i : picks pick (f <$> l) i = picks (pick ∘ f) l i.
Proof.
  unfold picks. f_equal. induction l as [|x l IH]; [done|]. rewrite fmap_cons, !filter_cons.
  simpl. by case_decide; simpl; rewrite IH.
Qed.

Lemma picks_perm pick l l' i : l ≡ₚ l' -> picks pick l i = picks pick l' i.
Proof. intros Hp. unfold picks. by rewrite Hp. Qed.

Lemma picks_const index l i :
  picks (fun _ => Some index) l i = if decide (index = i) then Z.of_nat (length l) else 0.
Proof.
  unfold picks. induction l as [|x l IH]; [by case_decide|]. rewrite filter_cons.
  destruct (decide (index = i)) as [->|Hne].
  - rewrite decide_True by done. simpl. lia.
  - rewrite decide_False by congruence. done.
Qed.

Lemma sum_nonneg (l : list (nat * Z)) :
  Forall (fun entry => 0 < entry.2) l -> 0 <= sumZ l.*2.
Proof. induction 1 as [|[? ?]]; csimpl in *; lia. Qed.

Lemma sum_positive (l : list (nat * Z)) :
  Forall (fun entry => 0 < entry.2) l -> l <> [] -> 0 < sumZ l.*2.
Proof.
  intros [|[i w] l' Hw Hl] Hne; [done|]. csimpl in *. apply sum_nonneg in Hl. lia.
Qed.

Lemma picks_cycle positive i :
  NoDup positive.*1 -> Forall (fun entry => 0 < entry.2) positive ->
  (forall w, (i, w) ∈ positive -> picks (pick_bucket positive) (seqZ 0 (sumZ positive.*2)) i = w) /\
  (i ∉ positive.*1 -> picks (pick_bucket positive) (seqZ 0 (sumZ positive.*2)) i = 0).
Proof.
  induction positive as [|[j v] positive IH]; intros Hd Hpos; csimpl.
  { split; [by intros w ?%elem_of_nil|done]. }
  apply NoDup_cons in Hd as [Hj Hd]. apply Forall_cons in Hpos as [Hv Hpos]. csimpl in *.
  destruct (IH Hd Hpos) as [IHin IHout].
  pose proof (sum_nonneg positive Hpos) as Hsum.
  rewrite seqZ_app, picks_app, Z.add_0_l by lia.
  rewrite (picks_ext _ (fun _ => Some j) (seqZ 0 v)), picks_const, length_seqZ.
  2:{ intros c Hc%elem_of_seqZ. destruct (Z.ltb_spec c v); [done|lia]. }
  replace (seqZ v (sumZ positive.*2)) with (Z.add v <$> seqZ 0 (sumZ positive.*2))
    by (rewrite fmap_add_seqZ; f_equal; lia).
  rewrite picks_fmap, (picks_ext _ (pick_bucket positive)).
  2:{ intros c Hc%elem_of_seqZ. simpl. destruct (Z.ltb_spec (v + c) v); [lia|]. f_equal. lia. }
  split.
  - intros w [[= -> ->]|Hw]%elem_of_cons.
    + rewrite decide_True, IHout by done. lia.
    + rewrite decide_False; [rewrite (IHin w Hw); lia|]. intros ->. apply Hj.
      apply list_elem_of_fmap. by exists (i, w).
  - intros [Hne Hi]%not_elem_of_cons. rewrite decide_False by congruence. rewrite IHout by done. lia.
Qed.

(** Taken modulo [n], any [n] successive cursors are the buckets. *)
Lemma cycle_perm start n :
  0 < n -> (fun cursor => cursor mod n) <$> seqZ start n ≡ₚ seqZ 0 n.
Proof.
  intros Hn. apply NoDup_Permutation; [|apply NoDup_seqZ|].
  - apply NoDup_fmap_2_strong; [|apply NoDup_seqZ].
    intros x y Hx%elem_of_seqZ Hy%elem_of_seqZ Heq.
    pose proof (Z.div_mod x n). pose proof (Z.div_mod y n).
    assert (x / n = y / n) by nia. nia.
  - intros b. rewrite list_elem_of_fmap, elem_of_seqZ. split.
    + intros (c & -> & _). pose proof (Z.mod_pos_bound c n). lia.
    + intros Hb. exists (start + (b - start) mod n). split.
      * rewrite Zplus_mod_idemp_r. replace (start + (b - start)) with b by lia.
        rewrite Z.mod_small; lia.
      * apply elem_of_seqZ. pose proof (Z.mod_pos_bound (b - start) n). lia.
Qed.

Lemma select_weighted_eq candidates cursor h :
  max_by Z.ltb (map ca_priority candidates) = Some h ->
  weighted_tier candidates h <> [] ->
  let tier := weighted_tier candidates h in
  select_weighted_candidate_index candidates cursor = pick_bucket tier (cursor mod sumZ tier.*2) /\
  is_Some (pick_bucket tier (cursor mod sumZ tier.*2)).
Proof.
  intros Hh Hne tier. unfold select_weighted_candidate_index. rewrite Hh. simpl.
  fold (weighted_tier candidates h). fold tier. change (map snd tier) with tier.*2.
  assert (Forall (fun entry => 0 < entry.2) tier) as Hpos.
  { apply Forall_forall. intros [i w] (c & _ & _ & _ & Hw)%weighted_tier_elem. done. }
  assert (0 < sumZ tier.*2) by (by apply sum_positive).
  destruct (pick_bucket_range tier (cursor mod sumZ tier.*2)) as (i & w & Hpick & Hin);
    [done|by apply Z.mod_pos_bound|].
  rewrite Hpick, (elem_not_empty tier (i, w)) by done.
  split; [done|by exists i].
Qed.

(** A member of the highest tier. *)
Definition is_top (candidates : list UpstreamCandidate) (candidate : UpstreamCandidate) : bool :=
  forallb (fun other => ca_priority other <=? ca_priority candidate) candidates.

Lemma is_top_spec candidates h c :
  max_by Z.ltb (map ca_priority candidates) = Some h -> c ∈ candidates ->
  is_top candidates c = (ca_priority c =? h).
Proof.
  intros [Hin Hmax]%max_by_Z Hc. apply eq_true_iff_eq. unfold is_top.
  rewrite forallb_forall, Z.eqb_eq. split.
  - intros Hall. apply list_elem_of_fmap in Hin as (d & -> & Hd).
    specialize (Hall d ltac:(by apply list_elem_of_In)). apply Z.leb_le in Hall.
    specialize (Hmax (ca_priority c)). apply Z.le_antisymm; [|done].
    apply Hmax, list_elem_of_fmap. by exists c.
  - intros <- d Hd%list_elem_of_In. apply Z.leb_le, Hmax, list_elem_of_fmap. by exists d.
Qed.

Lemma max_by_some candidates c :
  c ∈ candidates -> exists h, max_by Z.ltb (map ca_priority candidates) = Some h.
Proof. intros Hc. destruct candidates; [by apply elem_of_nil in Hc|]. simpl. eauto. Qed.

(** The total weight of the highest tier. *)
Definition cycle_length (candidates : list UpstreamCandidate) : Z :=
  sumZ (map ca_weight (retain (is_top candidates) candidates)).

Lemma weighted_tier_sum candidates h (l : list UpstreamCandidate) k :
  Forall (fun c => 0 <= ca_weight c) l ->
  (forall c, c ∈ l -> is_top candidates c = (ca_priority c =? h)) ->
  sumZ (map (fun '(index, candidate) => (index, ca_weight candidate))
    (retain (fun '(_, candidate) => 0 <? ca_weight candidate)
      (retain (fun '(_, candidate) => ca_priority candidate =? h)
        (imap (fun i c => ((k + i)%nat, c)) l)))).*2 =
  sumZ (map ca_weight (retain (is_top candidates) l)).
Proof.
  revert k. induction l as [|c l IH]; intros k Hw Htop; [done|].
  apply Forall_cons in Hw as [Hc Hw]. rewrite imap_cons, !retain_cons, Htop by left.
  assert (forall d, d ∈ l -> is_top candidates d = (ca_priority d =? h)) as Htop'
    by (intros; apply Htop; by right).
  specialize (IH (S k) Hw Htop').
  rewrite (imap_ext _ (fun i x => ((S k + i)%nat, x))) by (intros; simpl; f_equal; lia).
  destruct (ca_priority c =? h); [|done]. rewrite retain_cons.
  destruct (Z.ltb_spec 0 (ca_weight c)); csimpl; rewrite <- IH; [done|].
  replace (ca_weight c) with 0 by lia. done.
Qed.

Lemma cycle_length_eq candidates h :
  Forall (fun c => 0 <= ca_weight c) candidates ->
  max_by Z.ltb (map ca_priority candidates) = Some h ->
  sumZ (weighted_tier candidates h).*2 = cycle_length candidates.
Proof.
  intros Hw Hh. apply (weighted_tier_sum candidates h candidates 0); [done|].
  intros c Hc. by apply is_top_spec.
Qed.

(** With no weight in the tier: its first member. *)
Lemma first_of_tier candidates h i :
  max_by Z.ltb (map ca_priority candidates) = Some h ->
  fst <$> head (retain (fun '(_, candidate) => ca_priority candidate =? h) (enumerate candidates)) = Some i ->
  exists c, candidates !! i = Some c /\ is_top candidates c = true /\
    forall j d, (j < i)%nat -> candidates !! j = Some d -> is_top candidates d = false.
Proof.
  intros Hh Hhead. destruct (retain _ _) as [|[i0 c] r] eqn:Hr; [done|].
  apply (inj Some) in Hhead as <-. simpl.
  pose proof (retain_lookup (fun '(_, x) => ca_priority x =? h) (enumerate candidates) 0 (i0, c)) as Hat.
  rewrite Hr in Hat. destruct (Hat eq_refl) as (i & Hi & Htop & Hfirst).
  unfold enumerate in Hi, Hfirst. rewrite list_lookup_imap in Hi.
  apply fmap_Some in Hi as (c' & Hi & [= -> ->]). exists c'.
  apply list_elem_of_lookup_2 in Hi as Hc. split_and!; [done|by rewrite (is_top_spec _ h)|].
  intros j d Hj Hd. rewrite (is_top_spec _ h) by (done || by apply (list_elem_of_lookup_2 _ j)).
  destruct (ca_priority d =? h) eqn:Hp; [|done].
  destruct (Hfirst j (j, d) Hj) as (k & Hk & _); [by rewrite list_lookup_imap, Hd|done|lia].
Qed.

Lemma unweighted_eq candidates cursor h :
  max_by Z.ltb (map ca_priority candidates) = Some h -> weighted_tier candidates h = [] ->
  select_weighted_candidate_index candidates cursor =
  fst <$> head (retain (fun '(_, candidate) => ca_priority candidate =? h) (enumerate candidates)).
Proof.
  intros Hh Htier. unfold select_weighted_candidate_index. rewrite Hh. simpl.
  fold (weighted_tier candidates h). by rewrite Htier.
Qed.

Lemma tier_head candidates h :
  max_by Z.ltb (map ca_priority candidates) = Some h ->
  is_Some (fst <$> head (retain (fun '(_, candidate) => ca_priority candidate =? h) (enumerate candidates))).
Proof.
  intros [(c & -> & Hc)%list_elem_of_fmap _]%max_by_Z.
  apply list_elem_of_lookup_1 in Hc as [i Hi%enumerate_lookup].
  destruct (retain _ _) as [|e r] eqn:Hr; [|by eexists]. exfalso.
  apply (not_elem_of_nil (i, c)). rewrite <- Hr. apply retain_elem. split; [lia|done].
Qed.

(** The weighted pick is sound: it picks nothing only from no candidates; what
    it picks is in the highest priority tier, and has a weight unless none of the
    tier has, in which case it is the first of the tier. *)
Theorem weighted_pick_sound candidates cursor :
  match select_weighted_candidate_index candidates cursor with
  | None => candidates = []
  | Some i => exists c, candidates !! i = Some c /\ is_top candidates c = true /\
      (0 < ca_weight c \/
       (forall d, d ∈ candidates -> is_top candidates d = true -> ca_weight d <= 0) /\
       forall j d, (j < i)%nat -> candidates !! j = Some d -> is_top candidates d = false)
  end.
Proof.
  destruct (max_by Z.ltb (map ca_priority candidates)) as [h|] eqn:Hh.
  2:{ unfold select_weighted_candidate_index. rewrite Hh. by destruct candidates. }
  destruct (decide (weighted_tier candidates h = [])) as [Htier|Htier].
  - rewrite (unweighted_eq _ _ h) by done. destruct (tier_head candidates h Hh) as [i Hi].
    rewrite Hi. destruct (first_of_tier candidates h i Hh Hi) as (c & Hc & Htop & Hfirst).
    exists c. split_and!; [done|done|]. right. split; [|done]. intros d Hd Ht.
    rewrite (is_top_spec _ h) in Ht by done. apply list_elem_of_lookup_1 in Hd as [j Hj].
    destruct (Z.leb_spec (ca_weight d) 0) as [|Hw]; [done|]. exfalso.
    apply (not_elem_of_nil (j, ca_weight d)). rewrite <- Htier. apply weighted_tier_elem.
    exists d. split_and!; [done|lia|done|done].
  - destruct (select_weighted_eq candidates cursor h Hh Htier) as [-> [i Hi]]. rewrite Hi.
    apply pick_bucket_elem in Hi as (w & (c & Hc & Hp & -> & Hw)%weighted_tier_elem).
    exists c. split_and!; [done| |by left].
    rewrite (is_top_spec _ h) by (done || by apply (list_elem_of_lookup_2 _ i)). lia.
Qed.

(** The weighted pick is fair. Over as many successive cursors as the weights
    of the highest tier add up to, wherever they start, each candidate of the tier
    is picked exactly as often as its weight says, and no other candidate is picked
    at all. *)
Theorem weighted_pick_fair candidates start i c :
  Forall (fun c => 0 <= ca_weight c) candidates -> 0 < cycle_length candidates ->
  candidates !! i = Some c ->
  picks (select_weighted_candidate_index candidates) (seqZ start (cycle_length candidates)) i =
  if is_top candidates c then ca_weight c else 0.
Proof.
  intros Hw Hlen Hi. apply list_elem_of_lookup_2 in Hi as Hc.
  destruct (max_by_some candidates c Hc) as [h Hh].
  rewrite <- (cycle_length_eq candidates h) in * by done. set (tier := weighted_tier candidates h) in *.
  assert (tier <> []) as Hne by (by intros Hn; rewrite Hn in Hlen).
  rewrite (picks_ext _ (pick_bucket tier ∘ (fun cursor => cursor mod sumZ tier.*2)))
    by (intros; by apply (select_weighted_eq candidates _ h)).
  rewrite <- picks_fmap, (picks_perm _ _ _ _ (cycle_perm start _ Hlen)).
  destruct (picks_cycle tier i) as [Hin Hout]; [apply weighted_tier_nodup| |].
  { apply Forall_forall. intros [j w] (d & _ & _ & _ & Hw')%weighted_tier_elem. done. }
  rewrite (is_top_spec candidates h) by done.
  destruct (Z.eqb_spec (ca_priority c) h) as [Hp|Hp], (Z.ltb_spec 0 (ca_weight c)) as [Hpos|Hpos].
  1:{ apply Hin, weighted_tier_elem. by exists c. }
  all: rewrite Hout; [try done|].
  1:{ rewrite Forall_forall in Hw. specialize (Hw c Hc). simpl in Hw. lia. }
  all: intros ([j w] & -> & (d & Hd & Hp' & Hw' & Hpos')%weighted_tier_elem)%list_elem_of_fmap;
    simpl in Hi; replace d with c in * by congruence; lia.
Qed.

(** ** Witnesses *)

Definition candidate_with (id : string) (priority weight failure_count : Z) : UpstreamCandidate :=
  with_failure_count failure_count (with_weight weight (with_priority priority
    (with_models ["gpt-5"] (UpstreamCandidate_new id id UpResponses)))).

(** Two tiers; in the higher one, weights 3 and 1. *)
Definition some_candidates : list UpstreamCandidate :=
  [candidate_with "a" 5 3 0; candidate_with "low" 1 9 0; candidate_with "b" 5 1 2].

Example picks_of_a_cycle :
  map (select_weighted_candidate_index some_candidates) (seqZ 0 6) =
    [Some 0; Some 0; Some 0; Some 2; Some 0; Some 0]%nat /\
  select_upstream {| rr_model := "GPT-5 "; rr_protocol := UpResponses; rr_stream := true |}
    (reverse some_candidates) = Ok (candidate_with "a" 5 3 0).
Proof. vm_compute. split; reflexivity. Qed.

Lemma weighted_pick_fair_witness :
  picks (select_weighted_candidate_index some_candidates)
    (seqZ 18446744073709551000 (cycle_length some_candidates)) 0 = 3 /\
  picks (select_weighted_candidate_index some_candidates)
    (seqZ 2 (cycle_length some_candidates)) 1 = 0.
Proof.
  split.
  - apply (weighted_pick_fair some_candidates _ 0 (candidate_with "a" 5 3 0)).
    + apply (bool_decide_unpack _). vm_compute. exact I.
    + vm_compute. reflexivity.
    + reflexivity.
  - apply (weighted_pick_fair some_candidates _ 1 (candidate_with "low" 1 9 0)).
    + apply (bool_decide_unpack _). vm_compute. exact I.
    + vm_compute. reflexivity.
    + reflexivity.
Defined.

(** The sample, as it is stored. *)
Definition ready_upstream : UpstreamConfig := normalize_for_storage sample_upstream.

Example ready_is_chosen :
  choose_upstream [ready_upstream] [ready_upstream] "GPT-5" UpResponses true = Ok ready_upstream.
Proof. vm_compute. reflexivity. Qed.

Lemma choose_upstream_spec_witness :
  match choose_upstream [ready_upstream] [ready_upstream] "GPT-5" UpResponses true with
  | Ok upstream =>
      (upstream ∈ [ready_upstream] /\ serves_request "GPT-5" UpResponses true upstream /\
       uc_failure_count upstream < 3) /\
      forall other, (other ∈ [ready_upstream] /\ serves_request "GPT-5" UpResponses true other /\
                     uc_failure_count other < 3) ->
        uc_priority other < uc_priority upstream \/
        uc_priority upstream = uc_priority other /\
        uc_failure_count upstream <= uc_failure_count other
  | Err _ => forall upstream, ~ (upstream ∈ [ready_upstream] /\
      serves_request "GPT-5" UpResponses true upstream /\ uc_failure_count upstream < 3)
  end.
Proof. apply (choose_upstream_spec [ready_upstream]). apply NoDup_singleton. Defined.
