(* ===== verification/RouteRetry.v ===== *)
(** * The retry budget of a request

    [src/src/server/gateway/route_retry.rs]: after a round over the routes has
    failed for temporary reasons, whether the gateway waits and tries again, how
    long, and on which of its budgets; and why it gives up. [TerminalFailure] and
    [GiveUpReason] are those of [route_attempts.rs].

    SHA-256, from which the jitter is drawn, is a parameter as in [Backoff]; its
    digest is a list of byte values. Constructors used only by the tests of the
    source are left out. *)

From S2P Require Import Prelude RouteTypes Backoff RouteHealth.

Local Open Scope Z_scope.

(** ** Data *)

Definition MAX_RETRY_JITTER_MS : Z := 100.

Inductive TerminalFailure :=
| Temporary (retry_after : Duration)
| TFCredentials
| TFModelUnsupported
| TFCapabilityUnsupported
| TFProtocolUnsupported
| MixedRoutesExhausted.

Inductive GiveUpReason :=
| RoundCap
| WaitBudget
| NoRecovery
| AlignmentExhausted
| HalfOpenBusyCap
| LocalGateExhausted.

#[export] Instance GiveUpReason_eq_dec : EqDecision GiveUpReason.
Proof. solve_decision. Defined.

Record RouteRetryBudget := {
  bu_current_round : Z;
  bu_waited : Duration;
  bu_alignment_used : bool;
  bu_busy_rounds : Z
}.

Definition RouteRetryBudget_default : RouteRetryBudget :=
  {| bu_current_round := 1; bu_waited := 0; bu_alignment_used := false; bu_busy_rounds := 0 |}.

Record RouteRetryWait := {
  wa_next_round : Z;
  wa_required_delay : Duration;
  wa_jitter : Duration;
  wa_sleep_for : Duration;
  wa_remaining_after : Duration;
  wa_alignment : bool;
  wa_alignment_truncated : bool;
  wa_busy : bool
}.

Record RouteRetryPolicy := {
  po_enabled : bool;
  po_max_wait : Duration;
  po_max_rounds : Z;
  po_concurrency_max_wait : Duration;
  po_concurrency_max_rounds : Z;
  po_budget_alignment_enabled : bool;
  po_busy_max_rounds : Z;
  po_alignment_truncated_enabled : bool;
  po_rate_limit_internal_retry_enabled : bool
}.

(** ** The budget *)

Definition record_wait_time (budget : RouteRetryBudget) (waited : Duration) : RouteRetryBudget :=
  {| budget with bu_waited := dur_add (bu_waited budget) waited |}.

Definition record_external_wait (budget : RouteRetryBudget) (sleep_for : Duration)
    : RouteRetryBudget :=
  {| budget with
     bu_current_round := sat_add u32_max (bu_current_round budget) 1;
     bu_waited := dur_add (bu_waited budget) sleep_for |}.

Definition record_wait (budget : RouteRetryBudget) (wait : RouteRetryWait) : RouteRetryBudget :=
  {| bu_current_round := if wa_busy wait then bu_current_round budget else wa_next_round wait;
     bu_waited := dur_add (bu_waited budget) (wa_sleep_for wait);
     bu_alignment_used := bu_alignment_used budget || wa_alignment wait;
     bu_busy_rounds :=
       if wa_busy wait then sat_add u32_max (bu_busy_rounds budget) 1 else bu_busy_rounds budget |}.

(** ** The policy *)

Definition new_with_full_tuning (enabled : bool) (max_wait : Duration) (max_rounds : Z)
    (concurrency_max_wait : Duration) (concurrency_max_rounds : Z)
    (budget_alignment_enabled : bool) (busy_max_rounds : Z) (alignment_truncated_enabled : bool)
    : RouteRetryPolicy :=
  {| po_enabled := enabled;
     po_max_wait := max_wait;
     po_max_rounds := Z.max max_rounds 1;
     po_concurrency_max_wait := concurrency_max_wait;
     po_concurrency_max_rounds := Z.max concurrency_max_rounds 1;
     po_budget_alignment_enabled := budget_alignment_enabled;
     po_busy_max_rounds := Z.max busy_max_rounds 1;
     po_alignment_truncated_enabled := alignment_truncated_enabled;
     po_rate_limit_internal_retry_enabled := false |}.

Definition with_rate_limit_internal_retry (policy : RouteRetryPolicy) (enabled : bool)
    : RouteRetryPolicy :=
  {| policy with po_rate_limit_internal_retry_enabled := enabled |}.

(** The settings that [from_sources] reads. *)
Record RetrySettings := {
  se_upstream_route_exhaustion_retry_enabled : bool;
  se_upstream_route_exhaustion_retry_max_wait_ms : Z;
  se_upstream_route_exhaustion_retry_max_rounds : Z;
  se_upstream_concurrency_recovery_max_wait_ms : Z;
  se_upstream_concurrency_recovery_max_rounds : Z;
  se_upstream_route_exhaustion_budget_alignment_enabled : bool;
  se_upstream_route_half_open_busy_max_rounds : Z;
  se_upstream_route_exhaustion_alignment_truncated_enabled : bool;
  se_upstream_rate_limit_internal_retry_enabled : bool
}.

Definition from_sources (settings : RetrySettings) : RouteRetryPolicy :=
  with_rate_limit_internal_retry
    (new_with_full_tuning
       (se_upstream_route_exhaustion_retry_enabled settings)
       (from_millis (se_upstream_route_exhaustion_retry_max_wait_ms settings))
       (se_upstream_route_exhaustion_retry_max_rounds settings)
       (from_millis (se_upstream_concurrency_recovery_max_wait_ms settings))
       (se_upstream_concurrency_recovery_max_rounds settings)
       (se_upstream_route_exhaustion_budget_alignment_enabled settings)
       (se_upstream_route_half_open_busy_max_rounds settings)
       (se_upstream_route_exhaustion_alignment_truncated_enabled settings))
    (se_upstream_rate_limit_internal_retry_enabled settings).

Definition remaining_wait_budget (policy : RouteRetryPolicy) (waited : Duration) : Duration :=
  sat_sub (po_max_wait policy) waited.

(** [Duration::checked_add]. *)
Definition dur_checked_add (a b : Duration) : option Duration :=
  if a + b <=? duration_max then Some (a + b) else None.

Section policy.
  Variable sha256 : string -> list Z.

(** The digest of the request and the round (four bytes, least significant
    first), read as a [u64] from its first eight bytes, least significant first. *)
Definition deterministic_jitter (request_id : string) (next_round : Z) : Duration :=
  let material := request_id +:+ String.rev (to_be_bytes next_round) in
  from_millis (from_be_bytes (reverse (take 8 (sha256 material))) mod (MAX_RETRY_JITTER_MS + 1)).

(** The wait for all of what is left of a budget. *)
Definition truncated_wait (next_round : Z) (remaining : Duration) (alignment : bool)
    : RouteRetryWait :=
  {| wa_next_round := next_round; wa_required_delay := remaining; wa_jitter := 0;
     wa_sleep_for := remaining; wa_remaining_after := 0;
     wa_alignment := alignment; wa_alignment_truncated := true; wa_busy := false |}.

(** Every candidate is being probed: the dedicated busy budget. *)
Definition decide_busy (policy : RouteRetryPolicy) (budget : RouteRetryBudget) (request_id : string)
    : option RouteRetryWait * option GiveUpReason :=
  let busy_round := sat_add u32_max (bu_busy_rounds budget) 1 in
  if po_busy_max_rounds policy <? busy_round then (None, Some HalfOpenBusyCap)
  else
    let next_round := bu_current_round budget in
    let jitter := deterministic_jitter request_id next_round in
    match dur_checked_add HALF_OPEN_BUSY_RETRY jitter with
    | None => (None, Some WaitBudget)
    | Some sleep_for =>
        let remaining := sat_sub (po_max_wait policy) (bu_waited budget) in
        if remaining <? sleep_for then (None, Some WaitBudget)
        else
          (Some {| wa_next_round := next_round; wa_required_delay := HALF_OPEN_BUSY_RETRY;
                   wa_jitter := jitter; wa_sleep_for := sleep_for;
                   wa_remaining_after := remaining - sleep_for;
                   wa_alignment := false; wa_alignment_truncated := false; wa_busy := true |},
           None)
    end.

(** A wait of the given delay on a budget of [max_wait], truncated to what is
    left when the policy allows and at least the poll interval is left. *)
Definition decide_wait (policy : RouteRetryPolicy) (budget : RouteRetryBudget) (max_wait : Duration)
    (required_delay : Duration) (alignment : bool) (request_id : string)
    : option RouteRetryWait * option GiveUpReason :=
  let next_round := sat_add u32_max (bu_current_round budget) 1 in
  let jitter := deterministic_jitter request_id next_round in
  match dur_checked_add required_delay jitter with
  | None => (None, Some WaitBudget)
  | Some sleep_for =>
      let remaining := sat_sub max_wait (bu_waited budget) in
      if sleep_for <=? remaining then
        (Some {| wa_next_round := next_round; wa_required_delay := required_delay;
                 wa_jitter := jitter; wa_sleep_for := sleep_for;
                 wa_remaining_after := remaining - sleep_for;
                 wa_alignment := alignment; wa_alignment_truncated := false; wa_busy := false |},
         None)
      else if po_alignment_truncated_enabled policy && (HALF_OPEN_BUSY_RETRY <=? remaining)
      then (Some (truncated_wait next_round remaining alignment), None)
      else (None, Some WaitBudget)
  end.

(** A recovery that the one aligned wait may wait for. *)
Definition alignable (recovery : RouteRecovery) : bool :=
  match rr_class recovery with TransientServer | EdgeProxyError => true | _ => false end.

(** Past the round cap. *)
Definition decide_capped (policy : RouteRetryPolicy) (budget : RouteRetryBudget)
    (health_recovery : option RouteRecovery) (client_retryable_rate_limit : bool)
    (request_id : string) : option RouteRetryWait * option GiveUpReason :=
  match health_recovery with
  | Some recovery =>
      if po_budget_alignment_enabled policy && negb (bu_alignment_used budget)
         && negb client_retryable_rate_limit && alignable recovery
      then
        decide_wait policy budget (po_max_wait policy) (rr_retry_after recovery) true request_id
      else if bu_alignment_used budget then (None, Some AlignmentExhausted)
      else (None, Some RoundCap)
  | None =>
      if bu_alignment_used budget then (None, Some AlignmentExhausted)
      else if negb (po_budget_alignment_enabled policy) then (None, Some RoundCap)
      else (None, Some NoRecovery)
  end.

Definition is_concurrency_recovery (health_recovery : option RouteRecovery) : bool :=
  is_some_and (fun recovery => bool_decide (rr_class recovery = ConcurrencySaturated))
    health_recovery.

Definition decide_with_reason (policy : RouteRetryPolicy) (budget : RouteRetryBudget)
    (terminal : TerminalFailure) (health_recovery : option RouteRecovery)
    (client_retryable_rate_limit busy_only : bool) (request_id : string)
    : option RouteRetryWait * option GiveUpReason :=
  if negb (po_enabled policy) then (None, None)
  else match terminal with
  | Temporary retry_after =>
      if client_retryable_rate_limit && negb (po_rate_limit_internal_retry_enabled policy)
      then (None, None)
      else if busy_only then decide_busy policy budget request_id
      else
        let '(max_wait, max_rounds) :=
          if is_concurrency_recovery health_recovery
          then (po_concurrency_max_wait policy, po_concurrency_max_rounds policy)
          else (po_max_wait policy, po_max_rounds policy) in
        if max_rounds <=? bu_current_round budget then
          decide_capped policy budget health_recovery client_retryable_rate_limit request_id
        else
          decide_wait policy budget max_wait
            (default retry_after (rr_retry_after <$> health_recovery)) false request_id
  | _ => (None, None)
  end.

Definition decide (policy : RouteRetryPolicy) (budget : RouteRetryBudget)
    (terminal : TerminalFailure) (health_recovery : option RouteRecovery)
    (client_retryable_rate_limit : bool) (request_id : string) : option RouteRetryWait :=
  (decide_with_reason policy budget terminal health_recovery client_retryable_rate_limit false
     request_id).1.

End policy.

(** ** The rounds of a request

    What happens to the budget between two rounds: a decision after an exhausted
    round, whose wait is recorded; a retry on the same route, which records only
    time; and the replay after a common-mode failure, of at most half a second and
    never more than what is left ([src/src/server/gateway.rs]). *)

Inductive round_event :=
| Exhausted (terminal : TerminalFailure) (health_recovery : option RouteRecovery)
    (client_retryable_rate_limit busy_only : bool)
| SameRouteRetry (retry_delay : Duration)
| CommonModeReplay.

Section rounds.
  Variable sha256 : string -> list Z.
  Variable request_id : string.

(** [None]: the request gives up. *)
Definition run_round (policy : RouteRetryPolicy) (budget : RouteRetryBudget) (ev : round_event)
    : option RouteRetryBudget :=
  match ev with
  | Exhausted terminal health_recovery client_retryable_rate_limit busy_only =>
      record_wait budget <$>
        (decide_with_reason sha256 policy budget terminal health_recovery
           client_retryable_rate_limit busy_only request_id).1
  | SameRouteRetry retry_delay => Some (record_wait_time budget retry_delay)
  | CommonModeReplay =>
      let remaining := remaining_wait_budget policy (bu_waited budget) in
      Some (record_external_wait budget (Z.min (from_millis 500) remaining))
  end.

Fixpoint run_rounds (policy : RouteRetryPolicy) (budget : RouteRetryBudget)
    (trace : list round_event) : option RouteRetryBudget :=
  match trace with
  | [] => Some budget
  | ev :: trace => budget ← run_round policy budget ev; run_rounds policy budget trace
  end.

(** ** Bounds *)

Record policy_ok (policy : RouteRetryPolicy) : Prop := {
  ok_po_wait : 0 <= po_max_wait policy <= duration_max;
  ok_po_rounds : 1 <= po_max_rounds policy <= u32_max;
  ok_po_concurrency_wait : 0 <= po_concurrency_max_wait policy <= duration_max;
  ok_po_concurrency_rounds : 1 <= po_concurrency_max_rounds policy <= u32_max;
  ok_po_busy_rounds : 1 <= po_busy_max_rounds policy < u32_max
}.

Record budget_ok (budget : RouteRetryBudget) : Prop := {
  ok_bu_round : 1 <= bu_current_round budget <= u32_max;
  ok_bu_waited : 0 <= bu_waited budget;
  ok_bu_busy : 0 <= bu_busy_rounds budget <= u32_max
}.

Lemma budget_default_ok : budget_ok RouteRetryBudget_default.
Proof. split; vm_compute; intuition congruence. Qed.

Lemma retry_jitter_range material_round :
  0 <= deterministic_jitter sha256 request_id material_round <= from_millis MAX_RETRY_JITTER_MS.
Proof.
  unfold deterministic_jitter, MAX_RETRY_JITTER_MS, from_millis. cbv zeta.
  pose proof (Z.mod_pos_bound (from_be_bytes (reverse (take 8 (sha256
    (request_id +:+ String.rev (to_be_bytes material_round)))))) (100 + 1) ltac:(lia)). lia.
Qed.

(** The delay that a decision has to wait for. *)
Definition required (terminal : TerminalFailure) (health_recovery : option RouteRecovery)
    (busy_only : bool) : Duration :=
  if busy_only then HALF_OPEN_BUSY_RETRY
  else default (match terminal with Temporary retry_after => retry_after | _ => 0 end)
         (rr_retry_after <$> health_recovery).

(** The time budget on which it draws. *)
Definition time_budget (policy : RouteRetryPolicy) (budget : RouteRetryBudget)
    (health_recovery : option RouteRecovery) (busy_only : bool) : Duration :=
  if negb busy_only && is_concurrency_recovery health_recovery
     && (bu_current_round budget <? po_concurrency_max_rounds policy)
  then po_concurrency_max_wait policy else po_max_wait policy.

(** A wait that the budget grants for a delay of [delay]. *)
Record wait_ok (budget : RouteRetryBudget) (limit delay : Duration) (busy : bool)
    (wait : RouteRetryWait) : Prop := {
  ok_wa_busy : wa_busy wait = busy;
  ok_wa_round : wa_next_round wait =
    if busy then bu_current_round budget else sat_add u32_max (bu_current_round budget) 1;
  ok_wa_sleep : wa_sleep_for wait = wa_required_delay wait + wa_jitter wait;
  ok_wa_jitter : 0 <= wa_jitter wait <= from_millis MAX_RETRY_JITTER_MS;
  ok_wa_fits : wa_sleep_for wait + wa_remaining_after wait = sat_sub limit (bu_waited budget);
  ok_wa_remaining : 0 <= wa_remaining_after wait;
  ok_wa_delay :
    if wa_alignment_truncated wait
    then wa_remaining_after wait = 0 /\ HALF_OPEN_BUSY_RETRY <= wa_sleep_for wait /\
         wa_sleep_for wait < delay + deterministic_jitter sha256 request_id (wa_next_round wait)
    else wa_required_delay wait = delay
}.

Lemma decide_wait_ok policy budget limit delay alignment wait reason :
  decide_wait sha256 policy budget limit delay alignment request_id = (Some wait, reason) ->
  reason = None /\ wait_ok budget limit delay false wait /\ wa_alignment wait = alignment.
Proof.
  unfold decide_wait, dur_checked_add. cbv zeta.
  set (round := sat_add u32_max (bu_current_round budget) 1).
  pose proof (retry_jitter_range round).
  destruct (delay + _ <=? duration_max); [|done].
  set (remaining := sat_sub limit (bu_waited budget)).
  destruct (Z.leb_spec (delay + deterministic_jitter sha256 request_id round) remaining) as [Hfit|Hfit].
  - intros [= <- <-]. split_and!; [done| |done]. split; simpl; try done; lia.
  - destruct (po_alignment_truncated_enabled policy); [|done].
    destruct (Z.leb_spec HALF_OPEN_BUSY_RETRY remaining) as [Hleft|]; [|done]. simpl.
    intros [= <- <-]. split_and!; [done| |done]. unfold from_millis, MAX_RETRY_JITTER_MS in *.
    split; unfold truncated_wait; simpl; try done; fold round; split_and?; lia.
Qed.

Lemma decide_busy_ok policy budget wait reason :
  decide_busy sha256 policy budget request_id = (Some wait, reason) ->
  reason = None /\ wait_ok budget (po_max_wait policy) HALF_OPEN_BUSY_RETRY true wait /\
  wa_alignment wait = false /\ sat_add u32_max (bu_busy_rounds budget) 1 <= po_busy_max_rounds policy.
Proof.
  unfold decide_busy, dur_checked_add. cbv zeta.
  destruct (Z.ltb_spec (po_busy_max_rounds policy) (sat_add u32_max (bu_busy_rounds budget) 1)); [done|].
  pose proof (retry_jitter_range (bu_current_round budget)).
  destruct (_ <=? duration_max); [|done].
  destruct (Z.ltb_spec (sat_sub (po_max_wait policy) (bu_waited budget))
              (HALF_OPEN_BUSY_RETRY + deterministic_jitter sha256 request_id (bu_current_round budget)));
    [done|].
  intros [= <- <-]. split_and!; [done| |done|done]. split; simpl; try done; lia.
Qed.

(** What a granted wait is drawn from. *)
Lemma decide_granted policy budget terminal recovery crl busy wait reason :
  decide_with_reason sha256 policy budget terminal recovery crl busy request_id = (Some wait, reason) ->
  reason = None /\
  wait_ok budget (time_budget policy budget recovery busy) (required terminal recovery busy) busy wait /\
  if busy
  then wa_alignment wait = false /\
       sat_add u32_max (bu_busy_rounds budget) 1 <= po_busy_max_rounds policy
  else if wa_alignment wait then bu_alignment_used budget = false
  else bu_current_round budget < Z.max (po_max_rounds policy) (po_concurrency_max_rounds policy).
Proof.
  unfold decide_with_reason, required, time_budget.
  destruct (negb (po_enabled policy)); [done|]. destruct terminal as [retry_after| | | | |]; try done.
  destruct (crl && _); [done|]. destruct busy; simpl.
  { intros (? & ? & ? & ?)%decide_busy_ok. done. }
  set (rounds := if is_concurrency_recovery recovery then _ else _).
  assert (exists limit cap, rounds = (limit, cap) /\
    cap <= Z.max (po_max_rounds policy) (po_concurrency_max_rounds policy) /\
    (cap = if is_concurrency_recovery recovery then po_concurrency_max_rounds policy else po_max_rounds policy) /\
    limit = if is_concurrency_recovery recovery then po_concurrency_max_wait policy else po_max_wait policy)
    as (limit & cap & -> & Hcap & Hcase & Hlimit).
  { subst rounds. destruct (is_concurrency_recovery recovery); eexists _, _; split_and!; try done; lia. }
  destruct (Z.leb_spec cap (bu_current_round budget)) as [Hover|Hunder].
  - unfold decide_capped. destruct recovery as [recovery|]; [|by repeat case_match].
    destruct (po_budget_alignment_enabled policy && _ && _ && alignable recovery) eqn:Hal;
      [|by repeat case_match].
    intros (? & Hw & Ha)%decide_wait_ok. rewrite Ha. split; [done|].
    apply andb_true_iff in Hal as [Hal Hclass]. apply andb_true_iff in Hal as [Hal _].
    apply andb_true_iff in Hal as [_ Hused%negb_true_iff]. split; [|done]. simpl.
    unfold alignable in Hclass. replace (bool_decide (rr_class recovery = ConcurrencySaturated)) with false
      by (symmetry; apply bool_decide_false; by destruct (rr_class recovery)). done.
  - intros (? & Hw & Ha)%decide_wait_ok. rewrite Ha. split; [done|]. split; [|lia].
    destruct (is_concurrency_recovery recovery); simpl; subst; [|done].
    by replace (_ <? _) with true by lia.
Qed.

Lemma run_granted policy budget terminal recovery crl busy budget' :
  run_round policy budget (Exhausted terminal recovery crl busy) = Some budget' ->
  exists wait,
    decide_with_reason sha256 policy budget terminal recovery crl busy request_id = (Some wait, None) /\
    budget' = record_wait budget wait.
Proof.
  simpl. destruct (decide_with_reason _ _ _ _ _ _ _ _) as [[wait|] reason] eqn:Hd; [|done].
  apply decide_granted in Hd as Hg. destruct Hg as [-> _]. simpl. intros [= <-]. by exists wait.
Qed.

(** The waits that a budget can still grant. *)
Definition credit (policy : RouteRetryPolicy) (budget : RouteRetryBudget) : Z :=
  Z.max 0 (Z.max (po_max_rounds policy) (po_concurrency_max_rounds policy) - bu_current_round budget)
  + (if bu_alignment_used budget then 0 else 1)
  + Z.max 0 (po_busy_max_rounds policy - bu_busy_rounds budget).

Definition is_exhausted (ev : round_event) : bool :=
  match ev with Exhausted _ _ _ _ => true | _ => false end.

Lemma wait_sleep_nonneg budget limit delay busy wait :
  wait_ok budget limit delay busy wait -> 0 <= delay -> 0 <= wa_sleep_for wait.
Proof.
  intros Hw Hd. destruct Hw as [_ _ Hs Hj _ _ Hdelay].
  destruct (wa_alignment_truncated wait); [unfold HALF_OPEN_BUSY_RETRY, from_secs in *|]; lia.
Qed.

Definition event_ok (ev : round_event) : Prop :=
  match ev with
  | Exhausted terminal recovery _ busy => 0 <= required terminal recovery busy
  | SameRouteRetry retry_delay => 0 <= retry_delay
  | CommonModeReplay => True
  end.

(** The counters of a budget are [u32]. *)
Definition counters_ok (budget : RouteRetryBudget) : Prop :=
  1 <= bu_current_round budget <= u32_max /\ 0 <= bu_busy_rounds budget <= u32_max.

(** A granted wait takes credit, whatever it waits for. *)
Lemma granted_credit policy budget terminal recovery crl busy wait reason :
  policy_ok policy -> counters_ok budget ->
  decide_with_reason sha256 policy budget terminal recovery crl busy request_id = (Some wait, reason) ->
  counters_ok (record_wait budget wait) /\
  credit policy (record_wait budget wait) + 1 <= credit policy budget.
Proof.
  intros [_ [_ Hr] _ [_ Hc] [_ Hb]] [Hround Hbusy] (_ & Hw & Hcase)%decide_granted.
  destruct Hw as [Hwb Hwr _ _ _ _ _]. unfold counters_ok, credit, record_wait. simpl. rewrite Hwb, Hwr.
  unfold u32_max, sat_add in *. destruct busy.
  - destruct Hcase as [-> Hcase]. rewrite orb_false_r. lia.
  - destruct (wa_alignment wait); [rewrite Hcase; simpl|rewrite orb_false_r]; lia.
Qed.

Lemma external_credit policy budget sleep_for :
  counters_ok budget ->
  counters_ok (record_external_wait budget sleep_for) /\
  credit policy (record_external_wait budget sleep_for) <= credit policy budget.
Proof.
  intros [Hround Hbusy]. unfold counters_ok, credit, record_external_wait. simpl.
  unfold u32_max, sat_add in *. lia.
Qed.

Lemma waited_nonneg budget d : 0 <= bu_waited budget -> 0 <= d -> 0 <= dur_add (bu_waited budget) d.
Proof. unfold dur_add, sat_add, duration_max, u64_max. lia. Qed.

Lemma run_round_ok policy budget ev budget' :
  policy_ok policy -> budget_ok budget -> event_ok ev ->
  run_round policy budget ev = Some budget' ->
  budget_ok budget' /\
  credit policy budget' + (if is_exhausted ev then 1 else 0) <= credit policy budget.
Proof.
  intros Hpo Hbu Hev Hrun. destruct Hbu as [Hround Hwaited Hbusy].
  destruct ev as [terminal recovery crl busy|delay|].
  - apply run_granted in Hrun as (wait & Hd & ->).
    destruct (granted_credit _ _ _ _ _ _ _ _ Hpo (conj Hround Hbusy) Hd) as [[? ?] ?]. split; [|done].
    apply decide_granted in Hd as (_ & Hw & _). pose proof (wait_sleep_nonneg _ _ _ _ _ Hw Hev).
    split; [done|by apply waited_nonneg|done].
  - injection Hrun as <-. simpl in Hev. unfold credit, record_wait_time. simpl. split; [|lia].
    split; simpl; [done|by apply waited_nonneg|done].
  - injection Hrun as <-. cbv zeta. set (sleep := Z.min _ _).
    destruct (external_credit policy budget sleep (conj Hround Hbusy)) as [[? ?] ?]. split; [|simpl; lia].
    split; [done| |done]. apply waited_nonneg; [done|]. subst sleep.
    unfold remaining_wait_budget, sat_sub, from_millis. lia.
Qed.

Lemma run_rounds_ok policy trace : forall budget budget',
  policy_ok policy -> budget_ok budget -> Forall event_ok trace ->
  run_rounds policy budget trace = Some budget' ->
  budget_ok budget' /\
  credit policy budget' + Z.of_nat (length (retain is_exhausted trace)) <= credit policy budget.
Proof.
  induction trace as [|ev trace IH]; intros budget budget' Hpo Hbu Hev Hrun; simpl in Hrun.
  { injection Hrun as <-. split; [done|]. simpl. lia. }
  apply Forall_cons in Hev as [Hev Htrace]. apply bind_Some in Hrun as (b & Hb & Hrun).
  destruct (run_round_ok _ _ _ _ Hpo Hbu Hev Hb) as [Hok Hcredit].
  destruct (IH b budget' Hpo Hok Htrace Hrun) as [Hok' Hcredit']. split; [done|].
  rewrite retain_cons. destruct (is_exhausted ev); simpl; lia.
Qed.

(** A request stops retrying. However its rounds fail, whatever recoveries are
    reported and whatever other waits come in between, the gateway grants no more
    waits than the larger of the two round caps and the busy cap add up to, and it
    refuses after that. *)
Theorem retry_rounds_bounded policy trace budget :
  policy_ok policy -> Forall event_ok trace ->
  run_rounds policy RouteRetryBudget_default trace = Some budget ->
  Z.of_nat (length (retain is_exhausted trace)) <=
    Z.max (po_max_rounds policy) (po_concurrency_max_rounds policy) + po_busy_max_rounds policy /\
  budget_ok budget.
Proof.
  intros Hpo Hev Hrun.
  destruct (run_rounds_ok policy trace _ _ Hpo budget_default_ok Hev Hrun) as [Hok Hcredit].
  split; [|done]. destruct Hpo as [_ ? _ ? ?]. unfold credit in Hcredit. simpl in Hcredit.
  destruct (bu_alignment_used budget); lia.
Qed.

(** A granted wait. It comes with no reason to give up; it is the required
    delay (the reported recovery's, else the ledger's, or the poll interval when the
    whole pool is busy) and a jitter of at most a tenth of a second, or all of what
    is left of the time budget, at least a second of it, when that is not enough; it
    never exceeds what is left, and what it leaves is reported; and it is recorded
    on the busy counter or as the next round, as the debug assertions say. *)
Theorem granted_wait_spec policy budget terminal recovery crl busy wait reason :
  decide_with_reason sha256 policy budget terminal recovery crl busy request_id = (Some wait, reason) ->
  let left := sat_sub (time_budget policy budget recovery busy) (bu_waited budget) in
  let delay := required terminal recovery busy in
  let jitter := deterministic_jitter sha256 request_id (wa_next_round wait) in
  reason = None /\ wa_busy wait = busy /\
  wa_next_round wait = (if busy then bu_current_round budget
                        else sat_add u32_max (bu_current_round budget) 1) /\
  0 <= wa_jitter wait <= from_millis MAX_RETRY_JITTER_MS /\
  wa_sleep_for wait + wa_remaining_after wait = left /\ wa_sleep_for wait <= left /\
  (if wa_alignment_truncated wait
   then wa_sleep_for wait = left /\ HALF_OPEN_BUSY_RETRY <= left /\ left < delay + jitter
   else wa_sleep_for wait = delay + wa_jitter wait) /\
  (wa_alignment wait = true -> bu_alignment_used budget = false) /\
  (busy = true -> bu_busy_rounds budget < u32_max -> bu_busy_rounds budget < po_busy_max_rounds policy).
Proof.
  intros Hd left delay jitter. apply decide_granted in Hd as (-> & Hw & Hcase).
  destruct Hw as [Hb Hn Hs Hj Hfits Hrem Hdelay]. subst left delay jitter.
  split_and!; try done; try lia.
  - destruct (wa_alignment_truncated wait); [|lia]. destruct Hdelay as (H0 & Hmin & Hlt). lia.
  - intros Ha. rewrite Ha in Hcase. destruct busy; [by destruct Hcase|done].
  - intros -> Hlt. destruct Hcase as [_ Hcase]. unfold sat_add, u32_max in *. lia.
Qed.

(** The round cap that applies. *)
Definition round_cap (policy : RouteRetryPolicy) (health_recovery : option RouteRecovery) : Z :=
  if is_concurrency_recovery health_recovery then po_concurrency_max_rounds policy
  else po_max_rounds policy.

Lemma decide_wait_refused policy budget limit delay alignment reason :
  decide_wait sha256 policy budget limit delay alignment request_id = (None, reason) ->
  reason = Some WaitBudget /\
  let jitter := deterministic_jitter sha256 request_id (sat_add u32_max (bu_current_round budget) 1) in
  duration_max < delay + jitter \/ sat_sub limit (bu_waited budget) < delay + jitter.
Proof.
  unfold decide_wait, dur_checked_add. cbv zeta.
  destruct (Z.leb_spec (delay + deterministic_jitter sha256 request_id
    (sat_add u32_max (bu_current_round budget) 1)) duration_max); [|intros [= <-]; auto].
  destruct (Z.leb_spec (delay + deterministic_jitter sha256 request_id
    (sat_add u32_max (bu_current_round budget) 1)) (sat_sub limit (bu_waited budget))); [done|].
  destruct (_ && _); [done|]. intros [= <-]. auto.
Qed.

(** Why a request gives up. Without a reason only when retries are off, the
    failure is not temporary, or a rate limit that the client can retry is handed
    back to it; past the half-open cap when the pool is busy; for want of budget only
    when the delay and its jitter do not fit what is left; and otherwise past the
    round cap, by the first that applies: the aligned wait is used up, there is no
    recovery to wait for, or the recovery may not be waited for. The local gate is
    never given as the reason. *)
Theorem give_up_spec policy budget terminal recovery crl busy reason :
  decide_with_reason sha256 policy budget terminal recovery crl busy request_id = (None, reason) ->
  let capped := busy = false /\ round_cap policy recovery <= bu_current_round budget in
  match reason with
  | None => po_enabled policy = false \/ (forall retry_after, terminal <> Temporary retry_after) \/
      crl = true /\ po_rate_limit_internal_retry_enabled policy = false
  | Some HalfOpenBusyCap =>
      busy = true /\ po_busy_max_rounds policy < sat_add u32_max (bu_busy_rounds budget) 1
  | Some WaitBudget => exists next_round,
      let need := required terminal recovery busy + deterministic_jitter sha256 request_id next_round in
      duration_max < need \/ sat_sub (time_budget policy budget recovery busy) (bu_waited budget) < need
  | Some AlignmentExhausted => capped /\ bu_alignment_used budget = true
  | Some NoRecovery => capped /\ bu_alignment_used budget = false /\ recovery = None /\
      po_budget_alignment_enabled policy = true
  | Some RoundCap => capped /\ bu_alignment_used budget = false /\
      (po_budget_alignment_enabled policy = false \/
       exists r, recovery = Some r /\ (crl = true \/ alignable r = false))
  | Some LocalGateExhausted => False
  end.
Proof.
  unfold decide_with_reason, required, time_budget, round_cap.
  destruct (po_enabled policy); [|intros [= <-]; auto]. cbn [negb].
  destruct terminal as [retry_after| | | | |];
    try (intros [= <-]; right; left; discriminate).
  destruct (crl && _) eqn:Hgate; [intros [= <-]|].
  { right; right. destruct crl, (po_rate_limit_internal_retry_enabled policy); done. }
  clear Hgate. destruct busy; cbn [negb andb].
  { unfold decide_busy, dur_checked_add. cbv zeta.
    destruct (Z.ltb_spec (po_busy_max_rounds policy) (sat_add u32_max (bu_busy_rounds budget) 1));
      [intros [= <-]; auto|].
    set (need := HALF_OPEN_BUSY_RETRY + _). destruct (Z.leb_spec need duration_max);
      [|intros [= <-]; exists (bu_current_round budget); auto].
    destruct (Z.ltb_spec (sat_sub (po_max_wait policy) (bu_waited budget)) need); [|done].
    intros [= <-]; exists (bu_current_round budget); auto. }
  destruct (is_concurrency_recovery recovery) eqn:Hcr.
  - destruct (Z.leb_spec (po_concurrency_max_rounds policy) (bu_current_round budget)) as [Hover|Hunder].
    + unfold decide_capped. destruct recovery as [r|]; [|done].
      destruct (alignable r) eqn:Hal.
      { unfold alignable in Hal. apply bool_decide_eq_true_1 in Hcr. by rewrite Hcr in Hal. }
      rewrite andb_false_r. destruct (bu_alignment_used budget); intros [= <-]; [done|].
      split_and!; auto. right. exists r. auto.
    + rewrite (proj2 (Z.ltb_lt _ _)) by done. intros [-> H]%decide_wait_refused. eauto.
  - destruct (Z.leb_spec (po_max_rounds policy) (bu_current_round budget)) as [Hover|Hunder].
    2:{ intros [-> H]%decide_wait_refused. eauto. }
    unfold decide_capped. destruct recovery as [r|].
    + destruct (po_budget_alignment_enabled policy) eqn:He, (bu_alignment_used budget) eqn:Hu,
        crl, (alignable r) eqn:Hal; cbn [negb andb]; try (intros [= <-]; eauto 10; fail).
      intros [-> H]%decide_wait_refused. eauto.
    + destruct (bu_alignment_used budget) eqn:Hu, (po_budget_alignment_enabled policy) eqn:He;
        intros [= <-]; auto 10.
Qed.

End rounds.

(** ** Witnesses *)

Definition sample_policy : RouteRetryPolicy :=
  new_with_full_tuning true (from_secs 30) 3 (from_secs 60) 5 true 4 true.

Definition sample_recovery : RouteRecovery :=
  {| rr_class := TransientServer; rr_retry_after := from_secs 2;
     rr_half_open_remaining := None |}.

(** Three rounds: two ordinary waits, the aligned wait, and the busy wait. *)
Definition sample_rounds : list round_event :=
  [Exhausted (Temporary (from_secs 1)) None false false; SameRouteRetry (from_millis 200);
   Exhausted (Temporary (from_secs 1)) (Some sample_recovery) false false;
   Exhausted (Temporary (from_secs 1)) (Some sample_recovery) false false;
   Exhausted (Temporary (from_secs 1)) None false true; CommonModeReplay].

Lemma sample_policy_ok : policy_ok sample_policy.
Proof. split; vm_compute; intuition congruence. Qed.

Lemma sample_rounds_ok : Forall event_ok sample_rounds.
Proof. repeat constructor; vm_compute; discriminate. Qed.

Lemma retry_rounds_bounded_witness :
  exists budget,
    run_rounds no_digest "req" sample_policy RouteRetryBudget_default sample_rounds = Some budget /\
    bu_alignment_used budget = true /\ bu_busy_rounds budget = 1 /\ budget_ok budget.
Proof.
  eexists. split; [vm_compute; reflexivity|]. split_and!; [reflexivity..|].
  apply (retry_rounds_bounded no_digest "req" sample_policy sample_rounds);
    [apply sample_policy_ok|apply sample_rounds_ok|vm_compute; reflexivity].
Defined.

(** An aligned wait cut down to what is left. *)
Lemma granted_wait_spec_witness :
  let budget := {| bu_current_round := 3; bu_waited := from_secs 29; bu_alignment_used := false;
                   bu_busy_rounds := 0 |} in
  exists wait,
    decide_with_reason no_digest sample_policy budget (Temporary (from_secs 1)) (Some sample_recovery)
      false false "req" = (Some wait, None) /\
    wa_alignment_truncated wait = true /\ wa_sleep_for wait + wa_remaining_after wait = from_secs 1.
Proof.
  eexists. split; [vm_compute; reflexivity|]. split; [reflexivity|].
  apply (granted_wait_spec no_digest "req" sample_policy
    {| bu_current_round := 3; bu_waited := from_secs 29; bu_alignment_used := false; bu_busy_rounds := 0 |}
    (Temporary (from_secs 1)) (Some sample_recovery) false false _ None).
  vm_compute. reflexivity.
Defined.

Lemma give_up_spec_witness :
  let budget := {| bu_current_round := 4; bu_waited := from_secs 9; bu_alignment_used := true;
                   bu_busy_rounds := 0 |} in
  decide_with_reason no_digest sample_policy budget (Temporary (from_secs 1)) None false false "req"
    = (None, Some AlignmentExhausted) /\
  round_cap sample_policy None <= 4.
Proof.
  intros budget. split; [reflexivity|].
  apply (give_up_spec no_digest "req" sample_policy budget (Temporary (from_secs 1)) None false false
    (Some AlignmentExhausted)). reflexivity.
Defined.
