(* ===== verification/RouteAttempts.v ===== *)
(** * The attempts of a request

    [src/src/server/gateway/route_attempts.rs]: what one downstream request
    remembers about the routes it tried. The tracker knows which routes of which
    route set were eligible, attempted and failed, and reports a set once all of it
    has failed; the ledger keeps the last failure of every route and the routes that
    were skipped while cooling, and classifies the end of the round; the attempts
    share across the rounds of the request the counters, the routes that failed
    transiently, the one last-resort probe and the reason for giving up.

    SHA-256, from which a route gets its anonymous name ([src/src/keys.rs]), is a
    parameter of which nothing is assumed. A [HashMap] that is traversed is
    traversed in an order of [IterOrder]. [None] is a panic where the source
    asserts. Each method locks each mutex once and is a single step. *)

From S2P Require Import Prelude RouteTypes Backoff RouteHealth ModelIdentity RouteRetry.

Local Open Scope Z_scope.

(** ** Data *)

Record AttemptFailure := {
  af_route_id : string;
  af_upstream_status : option Z;
  af_upstream_error_code : option string;
  af_upstream_name : option string;
  af_upstream_host : option string;
  af_upstream_error_body_excerpt : option string;
  af_class : RouteFailureClass;
  af_retry_after : option Duration;
  af_half_open_busy : bool
}.

Definition give_up_as_str (reason : GiveUpReason) : string :=
  match reason with
  | RoundCap => "round_cap"
  | WaitBudget => "wait_budget"
  | NoRecovery => "no_recovery"
  | AlignmentExhausted => "alignment_exhausted"
  | HalfOpenBusyCap => "half_open_busy_cap"
  | LocalGateExhausted => "local_gate_exhausted"
  end.

Record RouteSetObservation := {
  ob_key : RouteSetAggregateKey;
  ob_class : RouteFailureClass;
  ob_retry_after : option Duration
}.

Record RouteSetAttemptState := {
  st_eligible_routes : gset RouteHealthKey;
  st_attempted_routes : gset RouteHealthKey;
  st_failures : gmap RouteHealthKey (RouteFailureClass * option Duration)
}.

Definition RouteSetAttemptState_default : RouteSetAttemptState :=
  {| st_eligible_routes := ∅; st_attempted_routes := ∅; st_failures := ∅ |}.

Record RequestRouteTracker := {
  tr_attempted_routes : gset RouteHealthKey;
  tr_route_sets : gmap RouteSetAggregateKey RouteSetAttemptState;
  tr_route_to_set : gmap RouteHealthKey RouteSetAggregateKey;
  tr_observed_sets : gset RouteSetAggregateKey
}.

Definition RequestRouteTracker_default : RequestRouteTracker :=
  {| tr_attempted_routes := ∅; tr_route_sets := ∅; tr_route_to_set := ∅; tr_observed_sets := ∅ |}.

Record AttemptLedger := {
  lg_failures : list AttemptFailure;
  lg_cooled_candidates : list AttemptFailure;
  lg_local_gate_rejected_count : Z
}.

Definition AttemptLedger_default : AttemptLedger :=
  {| lg_failures := []; lg_cooled_candidates := []; lg_local_gate_rejected_count := 0 |}.

(** The fields behind an [Arc] are shared by the clones of a value and by the
    rounds; [tracker], [ledger] and [routing_round] belong to the round. *)
Record RequestRouteAttempts := {
  ra_tracker : RequestRouteTracker;
  ra_ledger : AttemptLedger;
  ra_physical_attempts : Z;
  ra_transient_failed_routes : gset string;
  ra_last_resort_probe : option RouteHealthKey;
  ra_last_resort_probe_armed : bool;
  ra_last_resort_probe_granted : bool;
  ra_give_up_reason : option GiveUpReason;
  ra_retry_waited_ms : Z;
  ra_routing_round : Z
}.

Definition RequestRouteAttempts_default : RequestRouteAttempts :=
  {| ra_tracker := RequestRouteTracker_default; ra_ledger := AttemptLedger_default;
     ra_physical_attempts := 0; ra_transient_failed_routes := ∅; ra_last_resort_probe := None;
     ra_last_resort_probe_armed := false; ra_last_resort_probe_granted := false;
     ra_give_up_reason := None; ra_retry_waited_ms := 0; ra_routing_round := 1 |}.

(** [fetch_add] and, in release builds, [+=] wrap around. *)
Definition wrapping_add_u64 (a b : Z) : Z := (a + b) mod (u64_max + 1).

(** [Duration::MAX], the key of an unknown recovery. *)
Definition retry_or_max (failure : AttemptFailure) : Duration :=
  default duration_max (af_retry_after failure).

Definition same_route (route_id : string) (failure : AttemptFailure) : bool :=
  String.eqb (af_route_id failure) route_id.

(** [TransientServer], [EdgeProxyError] and [CapacityUnavailable]. *)
Definition is_transient_family (class : RouteFailureClass) : bool :=
  match class with TransientServer | EdgeProxyError | CapacityUnavailable => true | _ => false end.

(** ** The tracker *)

Section tracker.
  Context `{!IterOrder RouteSetAggregateKey RouteSetAttemptState}.
  Context `{!IterOrder RouteHealthKey (RouteFailureClass * option Duration)}.
  Context `{!IterOrder RouteHealthKey RouteSetAggregateKey}.

Definition tracker_register_eligible (tracker : RequestRouteTracker)
    (aggregate : RouteSetAggregateKey) (route : RouteHealthKey) : RequestRouteTracker :=
  let state := default RouteSetAttemptState_default (tr_route_sets tracker !! aggregate) in
  {| tracker with
     tr_route_to_set := <[route := aggregate]> (tr_route_to_set tracker);
     tr_route_sets :=
       <[aggregate := {| state with st_eligible_routes := {[route]} ∪ st_eligible_routes state |}]>
         (tr_route_sets tracker) |}.

Definition tracker_should_attempt (tracker : RequestRouteTracker) (route : RouteHealthKey) : bool :=
  negb (bool_decide (route ∈ tr_attempted_routes tracker)).

Definition tracker_eligible_routes (tracker : RequestRouteTracker) : list RouteHealthKey :=
  (iter_order (tr_route_to_set tracker)).*1.

Definition tracker_record_physical_attempt (tracker : RequestRouteTracker) (route : RouteHealthKey)
    : RequestRouteTracker :=
  let tracker := {| tracker with
    tr_attempted_routes := {[route]} ∪ tr_attempted_routes tracker |} in
  match tr_route_to_set tracker !! route with
  | Some aggregate =>
      match tr_route_sets tracker !! aggregate with
      | Some state =>
          {| tracker with tr_route_sets :=
               <[aggregate := {| state with
                   st_attempted_routes := {[route]} ∪ st_attempted_routes state |}]>
                 (tr_route_sets tracker) |}
      | None => tracker
      end
  | None => tracker
  end.

Definition tracker_record_failure (tracker : RequestRouteTracker) (route : RouteHealthKey)
    (class : RouteFailureClass) (retry_after : option Duration) : RequestRouteTracker * bool :=
  match tr_route_to_set tracker !! route with
  | None => (tracker, false)
  | Some aggregate =>
      match tr_route_sets tracker !! aggregate with
      | None => (tracker, false)
      | Some state =>
          if bool_decide (route ∈ st_attempted_routes state) then
            ({| tracker with tr_route_sets :=
                  <[aggregate := {| state with
                      st_failures := <[route := (class, retry_after)]> (st_failures state) |}]>
                    (tr_route_sets tracker) |}, true)
          else (tracker, false)
      end
  end.

(** The sort key of [representative_failure]. *)
Definition representative_ltb : RouteFailureClass * option Duration ->
    RouteFailureClass * option Duration -> bool :=
  lex_ltb (on_ltb (fun v => if is_temporary v.1 then 0 else 1) Z.ltb)
    (lex_ltb (on_ltb (fun v => default 0 v.2) Z.ltb)
       (on_ltb (fun v => class_as_str v.1) String.ltb)).

Definition representative_failure
    (failures : gmap RouteHealthKey (RouteFailureClass * option Duration))
    : option (RouteFailureClass * option Duration) :=
  head (sort_by (not_above representative_ltb) (iter_order failures).*2).

(** Every eligible route of the set has failed, and the set was not reported. *)
Definition newly_exhausted (tracker : RequestRouteTracker)
    (entry : RouteSetAggregateKey * RouteSetAttemptState) : bool :=
  let '(key, state) := entry in
  negb (bool_decide (key ∈ tr_observed_sets tracker))
  && negb (bool_decide (st_eligible_routes state = ∅))
  && negb (bool_decide (st_attempted_routes state = ∅))
  && bool_decide (set_Forall (fun route => is_Some (st_failures state !! route))
                    (st_eligible_routes state)).

Definition observation_of (entry : RouteSetAggregateKey * RouteSetAttemptState)
    : option RouteSetObservation :=
  failure ← representative_failure (st_failures entry.2);
  Some {| ob_key := entry.1; ob_class := failure.1; ob_retry_after := failure.2 |}.

Definition tracker_take_newly_exhausted (tracker : RequestRouteTracker)
    : option (RequestRouteTracker * list RouteSetObservation) :=
  observations ←
    mapM observation_of (retain (newly_exhausted tracker) (iter_order (tr_route_sets tracker)));
  Some ({| tracker with
           tr_observed_sets := list_to_set (ob_key <$> observations) ∪ tr_observed_sets tracker |},
        observations).

End tracker.

(** ** The ledger *)

Definition ledger_entries (ledger : AttemptLedger) : list AttemptFailure :=
  lg_failures ledger ++ lg_cooled_candidates ledger.

(** Overwrite the first entry of the same route. *)
Definition replace_route (failure : AttemptFailure) (l : list AttemptFailure)
    : option (list AttemptFailure) :=
  i ← position (same_route (af_route_id failure)) l; Some (<[i := failure]> l).

Definition ledger_record (ledger : AttemptLedger) (failure : AttemptFailure) : AttemptLedger :=
  {| ledger with
     lg_cooled_candidates :=
       retain (fun candidate => negb (same_route (af_route_id failure) candidate))
         (lg_cooled_candidates ledger);
     lg_failures :=
       default (lg_failures ledger ++ [failure]) (replace_route failure (lg_failures ledger)) |}.

Definition ledger_record_cooled (ledger : AttemptLedger) (failure : AttemptFailure) : AttemptLedger :=
  if existsb (same_route (af_route_id failure)) (lg_failures ledger) then ledger
  else
    match find (same_route (af_route_id failure)) (lg_cooled_candidates ledger) with
    | Some existing =>
        if retry_or_max failure <? retry_or_max existing then
          {| ledger with lg_cooled_candidates :=
               default (lg_cooled_candidates ledger)
                 (replace_route failure (lg_cooled_candidates ledger)) |}
        else ledger
    | None => {| ledger with lg_cooled_candidates := lg_cooled_candidates ledger ++ [failure] |}
    end.

Definition ledger_record_cooled_local_gate (ledger : AttemptLedger) (failure : AttemptFailure)
    : AttemptLedger :=
  let ledger := ledger_record_cooled ledger failure in
  {| ledger with
     lg_local_gate_rejected_count := wrapping_add_u64 (lg_local_gate_rejected_count ledger) 1 |}.

Definition ledger_is_empty (ledger : AttemptLedger) : bool :=
  is_empty (lg_failures ledger) && is_empty (lg_cooled_candidates ledger).

Definition attempt_count (ledger : AttemptLedger) : nat := length (lg_failures ledger).
Definition cooled_candidate_count (ledger : AttemptLedger) : nat :=
  length (lg_cooled_candidates ledger).

Definition distinct_route_count (ledger : AttemptLedger) : nat :=
  size (list_to_set (af_route_id <$> ledger_entries ledger) : gset string).

Definition distinct_upstream_host_count (ledger : AttemptLedger) : nat :=
  size (list_to_set (omap af_upstream_host (ledger_entries ledger)) : gset string).

Definition of_class (class : RouteFailureClass) (failure : AttemptFailure) : bool :=
  bool_decide (af_class failure = class).

Definition class_count (ledger : AttemptLedger) (class : RouteFailureClass) : nat :=
  length (retain (of_class class) (ledger_entries ledger)).

Definition half_open_busy_count (ledger : AttemptLedger) : nat :=
  length (retain af_half_open_busy (ledger_entries ledger)).

Definition is_all_half_open_busy (ledger : AttemptLedger) : bool :=
  negb (ledger_is_empty ledger) && forallb af_half_open_busy (ledger_entries ledger).

Definition is_all_cooled_transient_family (ledger : AttemptLedger) : bool :=
  negb (is_empty (lg_cooled_candidates ledger))
  && forallb (fun failure => is_transient_family (af_class failure)) (lg_cooled_candidates ledger).

Definition is_all_transient_family_failures (ledger : AttemptLedger) : bool :=
  negb (is_empty (lg_failures ledger))
  && forallb (fun failure => is_transient_family (af_class failure)) (lg_failures ledger).

Definition has_rate_limit_semantics (failure : AttemptFailure) : bool :=
  match af_class failure with
  | RateLimited | KeyQuota | ConcurrencySaturated => true
  | CapacityUnavailable => bool_decide (af_upstream_status failure = Some 429)
  | _ => false
  end.

Definition is_pure_rate_limit_exhaustion (ledger : AttemptLedger) : bool :=
  negb (ledger_is_empty ledger) && forallb has_rate_limit_semantics (ledger_entries ledger).

Definition is_pure_client_rate_limit (ledger : AttemptLedger) : bool :=
  negb (ledger_is_empty ledger)
  && forallb (fun failure => is_capacity_class (af_class failure)) (ledger_entries ledger).

Definition is_pure_concurrency_exhaustion (ledger : AttemptLedger) : bool :=
  negb (ledger_is_empty ledger) && forallb (of_class ConcurrencySaturated) (ledger_entries ledger).

(** *** The terminal failure *)

Definition terminal_failure (ledger : AttemptLedger) : option TerminalFailure :=
  let candidates := ledger_entries ledger in
  if is_empty candidates then None
  else Some
    (if existsb (fun failure => is_temporary (af_class failure)) candidates then
       Temporary (default (from_secs 1)
         (min_by Z.ltb (omap af_retry_after
            (retain (fun failure => is_temporary (af_class failure)) candidates))))
     else if forallb (of_class Credentials) candidates then TFCredentials
     else if forallb (of_class ModelUnsupported) candidates then TFModelUnsupported
     else if forallb (of_class FeatureUnsupported) candidates then TFCapabilityUnsupported
     else if forallb (of_class ProtocolUnsupported) candidates then TFProtocolUnsupported
     else MixedRoutesExhausted).

Definition terminal_observation (ledger : AttemptLedger) : option AttemptFailure :=
  or_else (last (lg_failures ledger)) (min_by (key_ltb retry_or_max) (lg_cooled_candidates ledger)).

(** [(retry_after, route_id)]. *)
Definition retry_route_ltb : AttemptFailure -> AttemptFailure -> bool :=
  lex_ltb (on_ltb retry_or_max Z.ltb) (on_ltb af_route_id String.ltb).

Definition observation_for_class (ledger : AttemptLedger) (class : RouteFailureClass)
    : option AttemptFailure :=
  min_by retry_route_ltb (retain (of_class class) (ledger_entries ledger)).

(** The advertised delay first. *)
Definition advertised_ltb (retry_after : Duration) : AttemptFailure -> AttemptFailure -> bool :=
  lex_ltb (on_ltb (fun failure =>
             if bool_decide (af_retry_after failure = Some retry_after) then 0 else 1) Z.ltb)
    retry_route_ltb.

Definition terminal_observation_for (ledger : AttemptLedger) (terminal : TerminalFailure)
    : option AttemptFailure :=
  match terminal with
  | Temporary retry_after =>
      min_by (advertised_ltb retry_after)
        (retain (fun failure => is_temporary (af_class failure)) (ledger_entries ledger))
  | TFCredentials => observation_for_class ledger Credentials
  | TFModelUnsupported => observation_for_class ledger ModelUnsupported
  | TFCapabilityUnsupported => observation_for_class ledger FeatureUnsupported
  | TFProtocolUnsupported => observation_for_class ledger ProtocolUnsupported
  | MixedRoutesExhausted => terminal_observation ledger
  end.

(** *** Summaries *)

(** How often each value occurs: [*counts.entry(value).or_default() += 1]. *)
Definition count_values {K} `{Countable K} (values : list K) : gmap K nat :=
  fold_left (fun counts value => <[value := S (default 0%nat (counts !! value))]> counts) values ∅.

(** [max_by_key] of the count, then of the least value. *)
Definition most_common {K} `{Countable K} `{!IterOrder K nat} (ltb : K -> K -> bool)
    (values : list K) : option K :=
  fst <$> max_by (lex_ltb (on_ltb snd Nat.ltb) (on_ltb fst (rev_ltb ltb)))
            (iter_order (count_values values)).

Record FailureClassSummary := {
  fs_class : RouteFailureClass;
  fs_routes : nat;
  fs_upstream_status : option Z;
  fs_upstream_error_code : option string;
  fs_upstream_name : option string;
  fs_upstream_error_body_excerpt : option string
}.

Section summaries.
  Context `{!IterOrder Z nat} `{!IterOrder string nat}.

Definition summarize_class (ledger : AttemptLedger) (class : RouteFailureClass)
    : FailureClassSummary :=
  let failures := retain (of_class class) (ledger_entries ledger) in
  {| fs_class := class;
     fs_routes := class_count ledger class;
     fs_upstream_status := most_common Z.ltb (omap af_upstream_status failures);
     fs_upstream_error_code := most_common String.ltb (omap af_upstream_error_code failures);
     fs_upstream_name := most_common String.ltb (omap af_upstream_name failures);
     fs_upstream_error_body_excerpt :=
       most_common String.ltb (omap af_upstream_error_body_excerpt failures) |}.

(** The largest class first, then by name. *)
Definition summary_ltb : FailureClassSummary -> FailureClassSummary -> bool :=
  lex_ltb (on_ltb fs_routes (rev_ltb Nat.ltb)) (on_ltb (fun s => class_as_str (fs_class s)) String.ltb).

Definition class_summaries (ledger : AttemptLedger) : list FailureClassSummary :=
  sort_by (not_above summary_ltb)
    (summarize_class ledger <$>
       retain (fun class => negb (class_count ledger class =? 0)%nat) RouteFailureClass_ALL).

Definition upstream_error_code_counts (ledger : AttemptLedger) : gmap string nat :=
  count_values (omap af_upstream_error_code (ledger_entries ledger)).

Definition upstream_error_body_excerpt (ledger : AttemptLedger) : option string :=
  most_common String.ltb (omap af_upstream_error_body_excerpt (ledger_entries ledger)).

End summaries.

(** ** Anonymous route names *)

Section attempts.
  Variable sha256 : string -> list Z.
  Context `{!IterOrder RouteSetAggregateKey RouteSetAttemptState}.
  Context `{!IterOrder RouteHealthKey (RouteFailureClass * option Duration)}.
  Context `{!IterOrder RouteHealthKey RouteSetAggregateKey}.

Definition sha256_hex (material : string) : string := hex (sha256 material).

Definition anonymous_route_id (route : RouteHealthKey) : string :=
  "route_" +:+ String.substring 0 16
    (sha256_hex ("chat2responses:route-id:v1" +:+ nul +:+ rk_upstream_id route +:+ nul
       +:+ rk_key_fingerprint route +:+ nul +:+ rk_runtime_model_slug route +:+ nul
       +:+ wire_protocol_identity (rk_protocol route))).

(** ** The attempts *)

Definition register_eligible (attempts : RequestRouteAttempts) (aggregate : RouteSetAggregateKey)
    (route : RouteHealthKey) : RequestRouteAttempts :=
  {| attempts with ra_tracker := tracker_register_eligible (ra_tracker attempts) aggregate route |}.

Definition should_attempt (attempts : RequestRouteAttempts) (route : RouteHealthKey) : bool :=
  tracker_should_attempt (ra_tracker attempts) route.

Definition eligible_routes (attempts : RequestRouteAttempts) : list RouteHealthKey :=
  tracker_eligible_routes (ra_tracker attempts).

Definition record_physical_send (attempts : RequestRouteAttempts) : RequestRouteAttempts :=
  {| attempts with ra_physical_attempts := wrapping_add_u64 (ra_physical_attempts attempts) 1 |}.

Definition record_physical_attempt (attempts : RequestRouteAttempts) (route : RouteHealthKey)
    : RequestRouteAttempts :=
  let attempts := record_physical_send attempts in
  {| attempts with ra_tracker := tracker_record_physical_attempt (ra_tracker attempts) route |}.

Definition next_round (attempts : RequestRouteAttempts) : RequestRouteAttempts :=
  {| attempts with
     ra_tracker := RequestRouteTracker_default;
     ra_ledger := AttemptLedger_default;
     ra_routing_round := sat_add u32_max (ra_routing_round attempts) 1 |}.

Definition record_failure_with_status (attempts : RequestRouteAttempts) (route : RouteHealthKey)
    (class : RouteFailureClass) (retry_after : option Duration) (upstream_status : option Z)
    (upstream_error_code upstream_error_body_excerpt upstream_name upstream_host : option string)
    : RequestRouteAttempts :=
  let '(tracker, recorded) := tracker_record_failure (ra_tracker attempts) route class retry_after in
  if negb recorded then attempts
  else
    let route_id := anonymous_route_id route in
    {| attempts with
       ra_tracker := tracker;
       ra_transient_failed_routes :=
         if is_transient_family class then {[route_id]} ∪ ra_transient_failed_routes attempts
         else ra_transient_failed_routes attempts;
       ra_ledger := ledger_record (ra_ledger attempts)
         {| af_route_id := route_id;
            af_upstream_status := upstream_status;
            af_upstream_error_code := upstream_error_code;
            af_upstream_error_body_excerpt := upstream_error_body_excerpt;
            af_upstream_name := upstream_name;
            af_upstream_host := upstream_host;
            af_class := class;
            af_retry_after := retry_after;
            af_half_open_busy := false |} |}.

Definition record_cooled (attempts : RequestRouteAttempts) (failure : AttemptFailure)
    : RequestRouteAttempts :=
  {| attempts with ra_ledger := ledger_record_cooled (ra_ledger attempts) failure |}.

Definition record_cooled_local_gate (attempts : RequestRouteAttempts) (failure : AttemptFailure)
    : RequestRouteAttempts :=
  {| attempts with ra_ledger := ledger_record_cooled_local_gate (ra_ledger attempts) failure |}.

Definition has_transient_failure_for (attempts : RequestRouteAttempts) (route : RouteHealthKey)
    : bool :=
  bool_decide (anonymous_route_id route ∈ ra_transient_failed_routes attempts).

Definition arm_last_resort_probe (attempts : RequestRouteAttempts) (route : RouteHealthKey)
    : RequestRouteAttempts :=
  {| attempts with ra_last_resort_probe_armed := true; ra_last_resort_probe := Some route |}.

Definition take_last_resort_probe_for (attempts : RequestRouteAttempts) (route : RouteHealthKey)
    : RequestRouteAttempts * bool :=
  if bool_decide (ra_last_resort_probe attempts = Some route)
  then ({| attempts with ra_last_resort_probe := None |}, true)
  else (attempts, false).

Definition clear_last_resort_probe (attempts : RequestRouteAttempts) : RequestRouteAttempts :=
  {| attempts with ra_last_resort_probe := None |}.

Definition mark_last_resort_probe_granted (attempts : RequestRouteAttempts) : RequestRouteAttempts :=
  {| attempts with ra_last_resort_probe_granted := true |}.

Definition set_give_up_reason (attempts : RequestRouteAttempts) (reason : GiveUpReason)
    : RequestRouteAttempts :=
  {| attempts with ra_give_up_reason := or_else (ra_give_up_reason attempts) (Some reason) |}.

Definition record_retry_waited (attempts : RequestRouteAttempts) (waited : Duration)
    : RequestRouteAttempts :=
  {| attempts with
     ra_retry_waited_ms := wrapping_add_u64 (ra_retry_waited_ms attempts) (as_millis_u64 waited) |}.

Definition earliest_cooled_route (attempts : RequestRouteAttempts) : option RouteHealthKey :=
  selected ← min_by (key_ltb retry_or_max) (ledger_entries (ra_ledger attempts));
  find (fun route => String.eqb (anonymous_route_id route) (af_route_id selected))
    (eligible_routes attempts).

Definition take_newly_exhausted (attempts : RequestRouteAttempts)
    : option (RequestRouteAttempts * list RouteSetObservation) :=
  '(tracker, observations) ← tracker_take_newly_exhausted (ra_tracker attempts);
  Some ({| attempts with ra_tracker := tracker |}, observations).

Definition available_candidate_count (attempts : RequestRouteAttempts) : nat :=
  let removed := af_route_id <$> ledger_entries (ra_ledger attempts) in
  length (retain (fun route => negb (bool_decide (anonymous_route_id route ∈ removed)))
            (eligible_routes attempts)).

End attempts.

(** The orders of the code. *)
#[export] Instance representative_order : WeakOrder representative_ltb.
Proof. unfold representative_ltb. apply _. Qed.

#[export] Instance retry_route_order : WeakOrder retry_route_ltb.
Proof. unfold retry_route_ltb. apply _. Qed.

#[export] Instance advertised_order retry_after : WeakOrder (advertised_ltb retry_after).
Proof. unfold advertised_ltb. apply _. Qed.

#[export] Instance summary_order : WeakOrder summary_ltb.
Proof. unfold summary_ltb. apply _. Qed.

(** ** Facts: the ledger *)

(** No two entries of the same route. *)
Definition ledger_ok (ledger : AttemptLedger) : Prop :=
  NoDup (af_route_id <$> ledger_entries ledger).

Lemma same_route_spec id failure : same_route id failure = true <-> af_route_id failure = id.
Proof. unfold same_route. apply String.eqb_eq. Qed.

Lemma replace_route_ids failure l l' :
  replace_route failure l = Some l' -> af_route_id <$> l' = af_route_id <$> l.
Proof.
  unfold replace_route. intros (i & Hi & [= <-])%bind_Some.
  apply position_Some in Hi as (x & Hx & Hsame & _). apply same_route_spec in Hsame.
  rewrite list_fmap_insert. apply list_insert_id. by rewrite list_lookup_fmap, Hx, <- Hsame.
Qed.

Lemma replace_route_None failure l :
  replace_route failure l = None -> af_route_id failure ∉ af_route_id <$> l.
Proof.
  unfold replace_route. destruct (position _ l) as [i|] eqn:Hp; [done|]. intros _.
  rewrite position_None in Hp. intros (x & Hid & Hx)%list_elem_of_fmap.
  specialize (Hp x Hx). apply not_true_iff_false in Hp. by rewrite same_route_spec in Hp.
Qed.

Lemma replace_route_elem failure l l' x :
  replace_route failure l = Some l' -> x ∈ l' -> x = failure \/ x ∈ l.
Proof.
  unfold replace_route. intros (i & _ & [= <-])%bind_Some (j & Hj)%list_elem_of_lookup.
  apply list_lookup_insert_Some in Hj as [(_ & -> & _)|[_ Hj]]; [by left|right].
  by eapply list_elem_of_lookup_2.
Qed.

Lemma replace_route_new failure l l' : replace_route failure l = Some l' -> failure ∈ l'.
Proof.
  unfold replace_route. intros (i & Hi & [= <-])%bind_Some.
  apply position_Some in Hi as (x & Hx & _ & _). apply list_elem_of_lookup_2 with i.
  apply list_lookup_insert_eq. by eapply lookup_lt_Some.
Qed.

Lemma retain_other_ids id l :
  id ∉ af_route_id <$> retain (fun c => negb (same_route id c)) l.
Proof.
  intros (x & Hid & [Hx _]%retain_elem)%list_elem_of_fmap.
  apply negb_true_iff, not_true_iff_false in Hx. by rewrite same_route_spec in Hx.
Qed.

Lemma ledger_record_ok ledger failure : ledger_ok ledger -> ledger_ok (ledger_record ledger failure).
Proof.
  unfold ledger_ok, ledger_entries, ledger_record. simpl. rewrite !fmap_app. intros (Hf & Hdis & Hc)%NoDup_app.
  pose proof (retain_other_ids (af_route_id failure) (lg_cooled_candidates ledger)) as Hnew.
  set (kept := retain _ _) in *.
  assert (sublist (af_route_id <$> kept) (af_route_id <$> lg_cooled_candidates ledger)) as Hsub
    by apply sublist_map, retain_sublist.
  assert (NoDup (af_route_id <$> kept)) as Hk by (by eapply sublist_NoDup).
  assert (forall x, x ∈ af_route_id <$> lg_failures ledger -> x ∉ af_route_id <$> kept) as Hdis'.
  { intros x Hx Hx'. apply (Hdis x Hx). by eapply elem_of_submseteq; [exact Hx'|apply sublist_submseteq]. }
  destruct (replace_route failure (lg_failures ledger)) as [l'|] eqn:Hr; simpl.
  - rewrite (replace_route_ids _ _ _ Hr). by apply NoDup_app.
  - apply replace_route_None in Hr. rewrite fmap_app. simpl. apply NoDup_app. split_and!; [|intros x Hx|done].
    + apply NoDup_app. split_and!; [done| |apply NoDup_singleton].
      intros x Hx ->%list_elem_of_singleton. done.
    + apply elem_of_app in Hx as [Hx| ->%list_elem_of_singleton]; [by apply Hdis'|done].
Qed.

Lemma existsb_same_route id l : existsb (same_route id) l = true <-> id ∈ af_route_id <$> l.
Proof.
  rewrite existsb_elem, list_elem_of_fmap. setoid_rewrite same_route_spec. naive_solver.
Qed.

Lemma find_same_route id l :
  find (same_route id) l = None -> id ∉ af_route_id <$> l.
Proof.
  intros Hf (x & Hid & Hx)%list_elem_of_fmap. apply list_elem_of_In in Hx.
  pose proof (find_none _ _ Hf x Hx) as Hn. apply not_true_iff_false in Hn. by rewrite same_route_spec in Hn.
Qed.

Lemma ledger_record_cooled_ok ledger failure :
  ledger_ok ledger -> ledger_ok (ledger_record_cooled ledger failure).
Proof.
  unfold ledger_ok, ledger_entries, ledger_record_cooled. rewrite !fmap_app. intros Hok.
  destruct (existsb _ _) eqn:Hex; [done|].
  apply not_true_iff_false in Hex. rewrite existsb_same_route in Hex.
  destruct (find _ _) as [existing|] eqn:Hfind; simpl.
  - destruct (_ <? _); simpl; [|done].
    destruct (replace_route _ _) as [l'|] eqn:Hr; [|done]. simpl. by rewrite (replace_route_ids _ _ _ Hr).
  - rewrite fmap_app. simpl. apply find_same_route in Hfind. rewrite app_assoc. apply NoDup_app.
    split_and!; [done| |apply NoDup_singleton].
    intros x Hx ->%list_elem_of_singleton. apply elem_of_app in Hx as [?|?]; done.
Qed.

Lemma ledger_record_cooled_failures ledger failure :
  lg_failures (ledger_record_cooled ledger failure) = lg_failures ledger.
Proof. unfold ledger_record_cooled. repeat case_match; done. Qed.

(** The attempt, and every other route that was there, is recorded. *)
Lemma ledger_record_failures ledger failure x :
  x ∈ lg_failures (ledger_record ledger failure) -> x = failure \/ x ∈ lg_failures ledger.
Proof.
  unfold ledger_record. simpl. destruct (replace_route _ _) as [l'|] eqn:Hr; simpl.
  - intros Hx. by eapply replace_route_elem.
  - intros [Hx| ->%list_elem_of_singleton]%elem_of_app; auto.
Qed.

Lemma ledger_record_failure_ids ledger failure id :
  id ∈ af_route_id <$> lg_failures (ledger_record ledger failure) <->
  id = af_route_id failure \/ id ∈ af_route_id <$> lg_failures ledger.
Proof.
  unfold ledger_record. simpl. destruct (replace_route _ _) as [l'|] eqn:Hr; simpl.
  - rewrite (replace_route_ids _ _ _ Hr). split; [by right|]. intros [->|?]; [|done].
    apply replace_route_new in Hr as Hn. rewrite <- (replace_route_ids _ _ _ Hr).
    by apply list_elem_of_fmap_2.
  - rewrite fmap_app, elem_of_app. simpl. rewrite list_elem_of_singleton. tauto.
Qed.

(** The ledger counts routes: each once, under its last outcome. *)
Lemma ledger_ok_distinct ledger : ledger_ok ledger ->
  distinct_route_count ledger = (attempt_count ledger + cooled_candidate_count ledger)%nat.
Proof.
  unfold ledger_ok, distinct_route_count, attempt_count, cooled_candidate_count. intros Hok.
  rewrite size_list_to_set by done. unfold ledger_entries. by rewrite length_fmap, length_app.
Qed.

(** ** Facts: the terminal failure *)

Definition temporary_failure (failure : AttemptFailure) : bool := is_temporary (af_class failure).

Lemma ledger_is_empty_spec ledger : ledger_is_empty ledger = is_empty (ledger_entries ledger).
Proof. unfold ledger_is_empty, ledger_entries. by destruct (lg_failures ledger). Qed.

Lemma uniform_spec class l : forallb (of_class class) l = true <-> forall f, f ∈ l -> af_class f = class.
Proof. rewrite forallb_elem. unfold of_class. by setoid_rewrite bool_decide_eq_true. Qed.

(** A class by which a ledger without temporary failures is classified. *)
Definition uniform (ledger : AttemptLedger) (class : RouteFailureClass) : Prop :=
  forall f, f ∈ ledger_entries ledger -> af_class f = class.

Definition terminal_spec (ledger : AttemptLedger) (terminal : TerminalFailure) : Prop :=
  let temporary f := f ∈ ledger_entries ledger /\ temporary_failure f = true in
  match terminal with
  | Temporary retry_after =>
      (exists f, temporary f) /\
      ((exists f, temporary f /\ af_retry_after f = Some retry_after) /\
       (forall f d, temporary f -> af_retry_after f = Some d -> retry_after <= d) \/
       retry_after = from_secs 1 /\ forall f, temporary f -> af_retry_after f = None)
  | TFCredentials => uniform ledger Credentials
  | TFModelUnsupported => uniform ledger ModelUnsupported
  | TFCapabilityUnsupported => uniform ledger FeatureUnsupported
  | TFProtocolUnsupported => uniform ledger ProtocolUnsupported
  | MixedRoutesExhausted =>
      (forall f, ~ temporary f) /\
      forall class, class ∈ [Credentials; ModelUnsupported; FeatureUnsupported; ProtocolUnsupported] ->
        ~ uniform ledger class
  end.

Lemma known_retries_elem l d :
  d ∈ omap af_retry_after (retain temporary_failure l) <->
  exists f, (f ∈ l /\ temporary_failure f = true) /\ af_retry_after f = Some d.
Proof. rewrite list_elem_of_omap. setoid_rewrite retain_elem. naive_solver. Qed.

Lemma terminal_None ledger : terminal_failure ledger = None <-> ledger_is_empty ledger = true.
Proof.
  unfold terminal_failure. rewrite ledger_is_empty_spec. cbv zeta. by destruct (is_empty _).
Qed.

Lemma terminal_Some ledger terminal :
  terminal_failure ledger = Some terminal ->
  ledger_is_empty ledger = false /\ terminal_spec ledger terminal.
Proof.
  unfold terminal_failure. rewrite ledger_is_empty_spec. cbv zeta.
  destruct (is_empty (ledger_entries ledger)) eqn:He; [done|]. intros [= <-]. split; [done|].
  change (fun failure => is_temporary (af_class failure)) with temporary_failure.
  destruct (existsb temporary_failure _) eqn:Hex.
  - apply existsb_elem in Hex. simpl. split; [done|].
    destruct (min_by Z.ltb _) as [d|] eqn:Hmin; simpl.
    + left. split; [by apply known_retries_elem; eapply min_by_elem|].
      intros f d' Hf Hd. assert (Hlt : (d' <? d) = false); [|lia].
      eapply (min_by_order Z.ltb); [done|]. apply known_retries_elem. eauto.
    + right. split; [done|]. intros f Hf. apply min_by_None in Hmin.
      destruct (af_retry_after f) as [d|] eqn:Hd; [|done].
      assert (d ∈ omap af_retry_after (retain temporary_failure (ledger_entries ledger))) as Hin
        by (apply known_retries_elem; eauto).
      by rewrite Hmin in Hin; apply elem_of_nil in Hin.
  - apply not_true_iff_false in Hex. rewrite existsb_elem in Hex.
    repeat (match goal with |- context [if forallb (of_class ?c) _ then _ else _] =>
      let H := fresh "Hu" in destruct (forallb (of_class c) _) eqn:H;
      [by rewrite uniform_spec in H|apply not_true_iff_false in H; rewrite uniform_spec in H] end).
    unfold terminal_spec. cbv zeta. split; [naive_solver|]. intros class Hclass.
    repeat (apply elem_of_cons in Hclass as [->|Hclass]; [done|]). by apply elem_of_nil in Hclass.
Qed.

(** How a round that ended without an answer is classified: it has no
    classification (the source asserts) exactly when nothing was recorded; it is
    temporary as soon as one route failed temporarily, with the shortest delay that
    any of those reports, or one second when none does; it takes a permanent class
    only when every route failed with it; and it is mixed otherwise. *)
Theorem terminal_failure_spec ledger :
  match terminal_failure ledger with
  | None => ledger_is_empty ledger = true
  | Some terminal => ledger_is_empty ledger = false /\ terminal_spec ledger terminal
  end.
Proof.
  destruct (terminal_failure ledger) eqn:Ht; [by apply terminal_Some|by apply terminal_None].
Qed.

Lemma entries_inhabited ledger : ledger_is_empty ledger = false -> exists f, f ∈ ledger_entries ledger.
Proof.
  rewrite ledger_is_empty_spec. destruct (ledger_entries ledger) as [|f l]; [done|]. exists f. by left.
Qed.

Lemma observation_for_uniform ledger class :
  ledger_is_empty ledger = false -> uniform ledger class ->
  exists f, observation_for_class ledger class = Some f /\ f ∈ ledger_entries ledger /\ af_class f = class.
Proof.
  intros (f & Hf)%entries_inhabited Hu. unfold observation_for_class.
  destruct (min_by_is_Some retry_route_ltb (retain (of_class class) (ledger_entries ledger)) f) as [g Hg].
  { apply retain_elem. split; [|done]. by apply bool_decide_eq_true, Hu. }
  exists g. split; [done|]. apply min_by_elem, retain_elem in Hg as [Hc Hg].
  split; [done|]. by apply bool_decide_eq_true in Hc.
Qed.

Lemma terminal_observation_elem ledger f : terminal_observation ledger = Some f -> f ∈ ledger_entries ledger.
Proof.
  unfold terminal_observation, ledger_entries. rewrite elem_of_app.
  destruct (last (lg_failures ledger)) eqn:Hl; simpl.
  - intros [= ->]. left. by apply last_Some_elem_of.
  - intros Hm. right. by eapply min_by_elem.
Qed.

Lemma terminal_observation_some ledger :
  ledger_is_empty ledger = false -> exists f, terminal_observation ledger = Some f.
Proof.
  unfold terminal_observation, ledger_is_empty. destruct (last (lg_failures ledger)) eqn:Hl; simpl; [eauto|].
  apply last_None in Hl. rewrite Hl. simpl. destruct (lg_cooled_candidates ledger); [done|]. simpl. eauto.
Qed.

(** The failure that is shown to the client exists and is one of the request's,
    of the class that the classification names; for a temporary one its delay is the
    advertised one, unless no temporary failure reports a delay. *)
Theorem terminal_observation_agrees ledger terminal :
  terminal_failure ledger = Some terminal ->
  exists f, terminal_observation_for ledger terminal = Some f /\ f ∈ ledger_entries ledger /\
  match terminal with
  | Temporary retry_after => temporary_failure f = true /\
      (af_retry_after f = Some retry_after \/ af_retry_after f = None /\ retry_after = from_secs 1)
  | TFCredentials => af_class f = Credentials
  | TFModelUnsupported => af_class f = ModelUnsupported
  | TFCapabilityUnsupported => af_class f = FeatureUnsupported
  | TFProtocolUnsupported => af_class f = ProtocolUnsupported
  | MixedRoutesExhausted => temporary_failure f = false
  end.
Proof.
  intros (Hne & Hspec)%terminal_Some. destruct terminal as [d| | | | |]; simpl in *;
    try (by apply observation_for_uniform).
  2:{ destruct (terminal_observation_some ledger Hne) as [f Hf]. exists f. split; [done|].
      apply terminal_observation_elem in Hf. split; [done|]. apply not_true_is_false. naive_solver. }
  destruct Hspec as [(g0 & Hg0 & Ht0) Hspec].
  change (fun failure => is_temporary (af_class failure)) with temporary_failure.
  destruct (min_by_is_Some (advertised_ltb d) (retain temporary_failure (ledger_entries ledger)) g0)
    as [f Hf]; [by apply retain_elem|].
  exists f. split; [done|]. pose proof (min_by_elem _ _ _ Hf) as [Ht Hin]%retain_elem.
  split_and!; try done. destruct Hspec as [[(g & [Hg Htg] & Hd) _]|[-> Hnone]]; [left|right; naive_solver].
  assert (advertised_ltb d g f = false) as Hlt
    by (by apply (min_by_order _ _ _ _ Hf), retain_elem).
  destruct (base.decide (af_retry_after f = Some d)); [done|exfalso].
  unfold advertised_ltb, lex_ltb, on_ltb in Hlt. rewrite bool_decide_true in Hlt by done.
  by rewrite bool_decide_false in Hlt by done.
Qed.

(** ** Facts: the summaries *)

Section common.
  Context {K} `{Countable K} `{!IterOrder K nat}.
  Implicit Types (values : list K) (v w : K).

(** How often a value occurs. *)
Definition occurrences v values : nat := length (filter (fun w => w = v) values).

Lemma count_values_from values : forall (counts : gmap K nat) v,
  default 0%nat (fold_left (fun counts value => <[value := S (default 0%nat (counts !! value))]> counts)
    values counts !! v) = (default 0%nat (counts !! v) + occurrences v values)%nat.
Proof.
  induction values as [|w values IH]; intros counts v; simpl; [unfold occurrences; simpl; lia|].
  rewrite IH. unfold occurrences. rewrite filter_cons.
  destruct (base.decide (w = v)) as [->|Hne].
  - rewrite lookup_insert_eq. simpl. lia.
  - rewrite lookup_insert_ne by done. lia.
Qed.

Lemma count_values_total values v :
  default 0%nat (count_values values !! v) = occurrences v values.
Proof. unfold count_values. rewrite count_values_from, lookup_empty. done. Qed.

Lemma count_values_positive_from values : forall (counts : gmap K nat) v,
  (forall w, counts !! w <> Some 0%nat) ->
  fold_left (fun counts value => <[value := S (default 0%nat (counts !! value))]> counts)
    values counts !! v <> Some 0%nat.
Proof.
  induction values as [|w values IH]; intros counts v Hpos; simpl; [done|]. apply IH.
  intros u. rewrite lookup_insert. by case_decide.
Qed.

Lemma count_values_spec values v n :
  count_values values !! v = Some n <-> n = occurrences v values /\ v ∈ values.
Proof.
  pose proof (count_values_total values v) as Htotal.
  assert (count_values values !! v <> Some 0%nat) as Hpos
    by (apply count_values_positive_from; intros u; by rewrite lookup_empty).
  assert (v ∈ values <-> occurrences v values <> 0%nat) as Hin.
  { unfold occurrences. rewrite length_zero_iff_nil. split.
    - intros Hv Hnil. assert (v ∈ filter (fun w => w = v) values) as Hf by (by apply list_elem_of_filter).
      by rewrite Hnil in Hf; apply elem_of_nil in Hf.
    - intros Hne. destruct (filter _ _) as [|w l] eqn:Hf; [done|].
      assert (w ∈ filter (fun w => w = v) values) as Hw by (rewrite Hf; by left).
      by apply list_elem_of_filter in Hw as [-> ?]. }
  rewrite Hin. destruct (count_values values !! v) as [m|] eqn:Hm; simpl in *; subst.
  - split; [intros [= <-]; split; [done|congruence]|]. by intros [-> _].
  - split; [done|]. intros [_ ?]. congruence.
Qed.

(** The pick of [max_by_key]: the most frequent value, the least of them. *)
Lemma most_common_spec ltb `{!WeakOrder ltb} values v :
  most_common ltb values = Some v ->
  v ∈ values /\ forall w, w ∈ values ->
    (occurrences w values <= occurrences v values)%nat /\
    (occurrences w values = occurrences v values -> ltb w v = false).
Proof.
  unfold most_common. intros ([v' n] & Hmax & [= ->])%fmap_Some. simpl in *.
  pose proof (max_by_elem _ _ _ Hmax) as [Hn Hv]%elem_of_iter_order%count_values_spec.
  split; [done|]. intros w Hw.
  assert ((w, occurrences w values) ∈ iter_order (count_values values)) as Hin
    by (by apply elem_of_iter_order, count_values_spec).
  pose proof (max_by_order _ _ _ _ Hmax Hin) as Hle.
  unfold lex_ltb, on_ltb, rev_ltb in Hle. simpl in Hle. subst n.
  destruct (Nat.ltb_spec (occurrences v' values) (occurrences w values)); [done|].
  split; [done|]. intros Heq. rewrite Heq, Nat.ltb_irrefl in Hle. done.
Qed.

Lemma most_common_None ltb values : most_common ltb values = None <-> values = [].
Proof.
  unfold most_common. rewrite fmap_None. split.
  - destruct (iter_order (count_values values)) as [|[w n] l] eqn:Hi; [|done]. intros _.
    destruct values as [|v values]; [done|exfalso].
    assert ((v, occurrences v (v :: values)) ∈ iter_order (count_values (v :: values))) as Hin
      by (apply elem_of_iter_order, count_values_spec; split; [done|by left]).
    by rewrite Hi in Hin; apply elem_of_nil in Hin.
  - intros ->. destruct (iter_order _) as [|[w n] l] eqn:Hi; [done|].
    assert ((w, n) ∈ iter_order (count_values (@nil K))) as Hin by (rewrite Hi; by left).
    by apply elem_of_iter_order in Hin.
Qed.

End common.

Lemma class_counts_total (l : list AttemptFailure) :
  sum_list ((fun class => length (retain (of_class class) l)) <$> RouteFailureClass_ALL) = length l.
Proof.
  induction l as [|x l IH]; [done|]. simpl in *. rewrite !retain_cons. rewrite <- IH. clear IH.
  unfold of_class. destruct (af_class x); simpl; lia.
Qed.

Lemma sum_list_retain {A} (f : A -> nat) l :
  sum_list (f <$> retain (fun x => negb (f x =? 0)%nat) l) = sum_list (f <$> l).
Proof.
  induction l as [|x l IH]; [done|]. rewrite retain_cons. destruct (Nat.eqb_spec (f x) 0) as [Hx|Hx]; cbn [negb]; csimpl.
  - by rewrite IH, Hx.
  - by rewrite IH.
Qed.

Lemma sum_list_perm (l1 l2 : list nat) : l1 ≡ₚ l2 -> sum_list l1 = sum_list l2.
Proof. induction 1; simpl; lia. Qed.

Section summary_facts.
  Context `{!IterOrder Z nat} `{!IterOrder string nat}.

(** The most common of some reported values. *)
Definition picks {K} `{EqDecision K} (ltb : K -> K -> bool) (values : list K) (pick : option K) : Prop :=
  match pick with
  | None => values = []
  | Some v => v ∈ values /\ forall w, w ∈ values ->
      (occurrences w values <= occurrences v values)%nat /\
      (occurrences w values = occurrences v values -> ltb w v = false)
  end.

Lemma most_common_picks `{Countable K} `{!IterOrder K nat} (ltb : K -> K -> bool) `{!WeakOrder ltb} values :
  picks ltb values (most_common ltb values).
Proof.
  unfold picks. destruct (most_common ltb values) eqn:Hm; [by apply most_common_spec|by apply most_common_None in Hm].
Qed.

(** The breakdown by class of a terminal error. The classes of the ledger are
    each listed once, with the routes that ended in it, and the counts add up to all
    of the routes; the largest comes first, classes of the same size in the order of
    their names; and the status, the code, the name and the excerpt shown for a class
    are its most frequent ones, the least of them on a tie, in whatever order the
    hash maps yield them. *)
Theorem class_summaries_spec ledger :
  sum_list (fs_routes <$> class_summaries ledger) = length (ledger_entries ledger) /\
  Sorted (fun x y => not_above summary_ltb x y = true) (class_summaries ledger) /\
  (fs_class <$> class_summaries ledger) ≡ₚ
    retain (fun class => negb (class_count ledger class =? 0)%nat) RouteFailureClass_ALL /\
  forall summary, summary ∈ class_summaries ledger ->
    let failures := retain (of_class (fs_class summary)) (ledger_entries ledger) in
    fs_routes summary = length failures /\ (0 < fs_routes summary)%nat /\
    picks Z.ltb (omap af_upstream_status failures) (fs_upstream_status summary) /\
    picks String.ltb (omap af_upstream_error_code failures) (fs_upstream_error_code summary) /\
    picks String.ltb (omap af_upstream_name failures) (fs_upstream_name summary) /\
    picks String.ltb (omap af_upstream_error_body_excerpt failures)
      (fs_upstream_error_body_excerpt summary).
Proof.
  unfold class_summaries. set (classes := retain _ _).
  set (unsorted := summarize_class ledger <$> classes).
  pose proof (sort_by_perm (not_above summary_ltb) unsorted) as Hperm.
  assert (fs_routes <$> unsorted = class_count ledger <$> classes) as Hroutes
    by (unfold unsorted; by rewrite <- list_fmap_compose).
  assert (fs_class <$> unsorted = classes) as Hclasses
    by (unfold unsorted; rewrite <- list_fmap_compose; apply list_fmap_id).
  split_and!.
  - rewrite (sum_list_perm _ (fs_routes <$> unsorted)) by (by rewrite Hperm).
    rewrite Hroutes. unfold classes. rewrite sum_list_retain. apply class_counts_total.
  - apply sort_by_sorted, not_above_total, _.
  - by rewrite Hperm, Hclasses.
  - intros summary Hs. rewrite Hperm in Hs. apply list_elem_of_fmap in Hs as (class & -> & Hclass).
    apply retain_elem in Hclass as [Hpos _]. cbv zeta. unfold summarize_class. cbn [fs_class fs_routes
      fs_upstream_status fs_upstream_error_code fs_upstream_name fs_upstream_error_body_excerpt].
    split_and!; [done| |apply most_common_picks, _..].
    apply negb_true_iff, Nat.eqb_neq in Hpos. lia.
Qed.

End summary_facts.

(** ** The life of a request

    Every method that changes the attempts, as an event. *)

Inductive attempt_event :=
| EvRegister (aggregate : RouteSetAggregateKey) (route : RouteHealthKey)
| EvPhysicalAttempt (route : RouteHealthKey)
| EvPhysicalSend
| EvFailure (route : RouteHealthKey) (class : RouteFailureClass) (retry_after : option Duration)
    (upstream_status : option Z) (code excerpt name host : option string)
| EvCooled (local_gate : bool) (failure : AttemptFailure)
| EvTakeExhausted
| EvArm (route : RouteHealthKey)
| EvTakeProbe (route : RouteHealthKey)
| EvClearProbe
| EvGranted
| EvGiveUp (reason : GiveUpReason)
| EvWaited (waited : Duration)
| EvNextRound.

Section life.
  Variable sha256 : string -> list Z.
  Context `{!IterOrder RouteSetAggregateKey RouteSetAttemptState}.
  Context `{!IterOrder RouteHealthKey (RouteFailureClass * option Duration)}.

(** The new state, with the route sets that are reported as exhausted. *)
Definition attempt_step (attempts : RequestRouteAttempts) (ev : attempt_event)
    : option (RequestRouteAttempts * list RouteSetObservation) :=
  match ev with
  | EvRegister aggregate route => Some (register_eligible attempts aggregate route, [])
  | EvPhysicalAttempt route => Some (record_physical_attempt attempts route, [])
  | EvPhysicalSend => Some (record_physical_send attempts, [])
  | EvFailure route class retry_after status code excerpt name host =>
      Some (record_failure_with_status sha256 attempts route class retry_after status code excerpt
              name host, [])
  | EvCooled local_gate failure =>
      Some ((if local_gate then record_cooled_local_gate else record_cooled) attempts failure, [])
  | EvTakeExhausted => take_newly_exhausted attempts
  | EvArm route => Some (arm_last_resort_probe attempts route, [])
  | EvTakeProbe route => Some ((take_last_resort_probe_for attempts route).1, [])
  | EvClearProbe => Some (clear_last_resort_probe attempts, [])
  | EvGranted => Some (mark_last_resort_probe_granted attempts, [])
  | EvGiveUp reason => Some (set_give_up_reason attempts reason, [])
  | EvWaited waited => Some (record_retry_waited attempts waited, [])
  | EvNextRound => Some (next_round attempts, [])
  end.

Fixpoint run_attempts (attempts : RequestRouteAttempts) (trace : list attempt_event)
    : option (RequestRouteAttempts * list RouteSetObservation) :=
  match trace with
  | [] => Some (attempts, [])
  | ev :: trace =>
      '(attempts, observed) ← attempt_step attempts ev;
      '(attempts, later) ← run_attempts attempts trace;
      Some (attempts, observed ++ later)
  end.

(** ** Well-formed attempts *)

(** A route set: what failed was attempted, and what was attempted is eligible. *)
Record set_ok (state : RouteSetAttemptState) : Prop := {
  ok_st_failures : dom (st_failures state) ⊆ st_attempted_routes state;
  ok_st_attempted : st_attempted_routes state ⊆ st_eligible_routes state
}.

Record tracker_ok (tracker : RequestRouteTracker) : Prop := {
  ok_tr_sets aggregate state : tr_route_sets tracker !! aggregate = Some state -> set_ok state;
  ok_tr_route route aggregate : tr_route_to_set tracker !! route = Some aggregate ->
    exists state, tr_route_sets tracker !! aggregate = Some state /\ route ∈ st_eligible_routes state;
  ok_tr_attempted aggregate state : tr_route_sets tracker !! aggregate = Some state ->
    st_attempted_routes state ⊆ tr_attempted_routes tracker
}.

(** The tracker and the ledger agree, and the request remembers transient failures. *)
Record attempts_ok (attempts : RequestRouteAttempts) : Prop := {
  ok_ra_tracker : tracker_ok (ra_tracker attempts);
  ok_ra_ledger : ledger_ok (ra_ledger attempts);
  ok_ra_recorded aggregate state route :
    tr_route_sets (ra_tracker attempts) !! aggregate = Some state ->
    is_Some (st_failures state !! route) ->
    anonymous_route_id sha256 route ∈ af_route_id <$> lg_failures (ra_ledger attempts);
  ok_ra_transient failure : failure ∈ lg_failures (ra_ledger attempts) ->
    is_transient_family (af_class failure) = true ->
    af_route_id failure ∈ ra_transient_failed_routes attempts
}.

Lemma tracker_default_ok : tracker_ok RequestRouteTracker_default.
Proof. split; unfold RequestRouteTracker_default; simpl; intros *; by rewrite lookup_empty. Qed.

Lemma attempts_default_ok : attempts_ok RequestRouteAttempts_default.
Proof.
  split; [apply tracker_default_ok|apply NoDup_nil_2| |]; simpl.
  - intros *. by rewrite lookup_empty.
  - by intros ? ?%elem_of_nil.
Qed.

(** Changing one route set. *)
Lemma tracker_put_set tracker aggregate state :
  tracker_ok tracker -> set_ok state ->
  (forall old, tr_route_sets tracker !! aggregate = Some old ->
     st_eligible_routes old ⊆ st_eligible_routes state) ->
  st_attempted_routes state ⊆ tr_attempted_routes tracker ->
  tracker_ok {| tracker with tr_route_sets := <[aggregate := state]> (tr_route_sets tracker) |}.
Proof.
  intros [Hsets Hroute Hatt] Hok Hgrow Hsub. split; simpl.
  - intros agg st. rewrite lookup_insert_Some. intros [[_ <-]|[_ ?]]; [done|by eapply Hsets].
  - intros route agg (st & Hst & Hin)%Hroute. destruct (base.decide (aggregate = agg)) as [<-|Hne].
    + exists state. rewrite lookup_insert_eq. split; [done|]. by apply (Hgrow st).
    + exists st. by rewrite lookup_insert_ne.
  - intros agg st. rewrite lookup_insert_Some. intros [[_ <-]|[_ ?]]; [done|by eapply Hatt].
Qed.

Lemma set_default_ok : set_ok RouteSetAttemptState_default.
Proof. split; unfold RouteSetAttemptState_default; simpl; set_solver. Qed.

Lemma register_tracker_ok tracker aggregate route :
  tracker_ok tracker -> tracker_ok (tracker_register_eligible tracker aggregate route).
Proof.
  intros Hok. unfold tracker_register_eligible.
  set (state := default _ _).
  assert (set_ok state /\ st_attempted_routes state ⊆ tr_attempted_routes tracker) as [[Hf Ha] Hatt].
  { subst state. destruct (tr_route_sets tracker !! aggregate) as [st|] eqn:Hst; simpl.
    - split; [by eapply ok_tr_sets|by eapply ok_tr_attempted].
    - split; [apply set_default_ok|]. simpl. set_solver. }
  assert (tracker_ok {| tracker with tr_route_sets :=
    <[aggregate := {| state with st_eligible_routes := {[route]} ∪ st_eligible_routes state |}]>
      (tr_route_sets tracker) |}) as [H1 H2 H3].
  { apply tracker_put_set; try done; simpl.
    - split; simpl; [done|set_solver].
    - intros old Hold. subst state. rewrite Hold. simpl. set_solver. }
  split; simpl in *; [done| |done].
  intros r agg. rewrite lookup_insert_Some. intros [[<- <-]|[_ Hr]]; [|by apply H2].
  eexists. rewrite lookup_insert_eq. split; [done|]. simpl. set_solver.
Qed.

Lemma physical_tracker_ok tracker route :
  tracker_ok tracker -> tracker_ok (tracker_record_physical_attempt tracker route).
Proof.
  intros Hok. unfold tracker_record_physical_attempt.
  set (tracker' := {| tracker with tr_attempted_routes := _ |}).
  assert (tracker_ok tracker' /\ route ∈ tr_attempted_routes tracker') as [Hok' Hin].
  { split; [|simpl; set_solver].
    destruct Hok as [H1 H2 H3]. split; simpl; [done..|]. intros agg st Hst%H3. set_solver. }
  cbv zeta. clearbody tracker'. destruct (tr_route_to_set tracker' !! route) as [aggregate|] eqn:Hr; [|done].
  destruct (ok_tr_route _ Hok' _ _ Hr) as (state & Hst & Hel). rewrite Hst.
  destruct (ok_tr_sets _ Hok' _ _ Hst) as [Hf Ha]. pose proof (ok_tr_attempted _ Hok' _ _ Hst) as Hatt.
  apply tracker_put_set; try done; simpl.
  - split; simpl; set_solver.
  - intros old Hold. rewrite Hst in Hold. by injection Hold as <-.
  - simpl in *. set_solver.
Qed.

(** A failure counts exactly for a registered route that was attempted in its set. *)
Lemma tracker_failure_ok tracker route class retry_after tracker' recorded :
  tracker_ok tracker ->
  tracker_record_failure tracker route class retry_after = (tracker', recorded) ->
  tracker_ok tracker' /\
  (recorded = false -> tracker' = tracker) /\
  forall aggregate state r, tr_route_sets tracker' !! aggregate = Some state ->
    is_Some (st_failures state !! r) ->
    recorded = true /\ r = route \/
    exists old, tr_route_sets tracker !! aggregate = Some old /\ is_Some (st_failures old !! r).
Proof.
  intros Hok. unfold tracker_record_failure.
  destruct (tr_route_to_set tracker !! route) as [aggregate|]; [|intros [= <- <-]; eauto 10].
  destruct (tr_route_sets tracker !! aggregate) as [state|] eqn:Hst; [|intros [= <- <-]; eauto 10].
  case_bool_decide as Hatt; intros [= <- <-]; [|eauto 10].
  destruct (ok_tr_sets _ Hok _ _ Hst) as [Hf Ha]. split_and!; [|done|].
  - apply tracker_put_set; try done; simpl.
    + split; simpl; [|done]. rewrite dom_insert_L. set_solver.
    + intros old Hold. rewrite Hst in Hold. by injection Hold as <-.
    + by apply (ok_tr_attempted _ Hok _ _ Hst).
  - simpl. intros agg st r Hl Hr. apply lookup_insert_Some in Hl as [[<- <-]|[_ Hl]]; [|eauto].
    simpl in Hr. destruct (base.decide (r = route)) as [->|Hne]; [by left|right].
    rewrite lookup_insert_ne in Hr by done. eauto.
Qed.

(** ** Exhausted route sets *)

Lemma newly_exhausted_spec tracker key state :
  newly_exhausted tracker (key, state) = true <->
  key ∉ tr_observed_sets tracker /\ st_eligible_routes state <> ∅ /\ st_attempted_routes state <> ∅ /\
  forall route, route ∈ st_eligible_routes state -> is_Some (st_failures state !! route).
Proof.
  unfold newly_exhausted.
  rewrite !andb_true_iff, !negb_true_iff, !bool_decide_eq_false, bool_decide_eq_true. unfold set_Forall.
  tauto.
Qed.

(** The representative failure of a set that failed. *)
Lemma representative_spec failures route :
  is_Some (failures !! route) ->
  exists r v, representative_failure failures = Some v /\ failures !! r = Some v /\
    forall r' v', failures !! r' = Some v' -> representative_ltb v' v = false.
Proof.
  intros [v0 Hv0]. unfold representative_failure.
  assert (forall r v, failures !! r = Some v -> v ∈ (iter_order failures).*2) as Hin.
  { intros r v Hr. apply list_elem_of_fmap. exists (r, v). split; [done|]. by apply elem_of_iter_order. }
  destruct (head _) as [v|] eqn:Hh.
  - pose proof Hh as Hh'. apply head_Some_elem_of in Hh'. rewrite sort_by_perm in Hh'.
    apply list_elem_of_fmap in Hh' as ([r w] & -> & Hw). apply elem_of_iter_order in Hw.
    exists r, w. split_and!; [done..|]. intros r' v' Hr'. eapply sort_head_order; [apply _|done|by eapply Hin].
  - exfalso. apply head_None in Hh. pose proof (Hin route v0 Hv0) as Hv.
    pose proof (sort_by_perm (not_above representative_ltb) (iter_order failures).*2) as Hp.
    rewrite Hh in Hp. rewrite <- Hp in Hv. by apply elem_of_nil in Hv.
Qed.

(** What is reported for one set. *)
Definition observes (tracker : RequestRouteTracker) (observation : RouteSetObservation) : Prop :=
  exists state,
    tr_route_sets tracker !! ob_key observation = Some state /\
    newly_exhausted tracker (ob_key observation, state) = true /\
    (exists route, st_failures state !! route = Some (ob_class observation, ob_retry_after observation)) /\
    forall route v, st_failures state !! route = Some v ->
      representative_ltb v (ob_class observation, ob_retry_after observation) = false.

Lemma observation_of_exhausted tracker key state :
  newly_exhausted tracker (key, state) = true ->
  tr_route_sets tracker !! key = Some state ->
  exists observation, observation_of (key, state) = Some observation /\
    ob_key observation = key /\ observes tracker observation.
Proof.
  intros Hn Hst. pose proof Hn as (_ & (route & Hr)%set_choose_L & _ & Hall)%newly_exhausted_spec.
  destruct (representative_spec (st_failures state) route) as (r & [c d] & Hrep & Hv & Hleast); [by apply Hall|].
  exists {| ob_key := key; ob_class := c; ob_retry_after := d |}. unfold observation_of. simpl. rewrite Hrep.
  split_and!; [done..|]. exists state. simpl. split_and!; [done..|by exists r|done].
Qed.

(** Reporting never fails; it reports what newly failed, and remembers it. *)
Lemma take_exhausted_spec tracker :
  exists observations,
    tracker_take_newly_exhausted tracker =
      Some ({| tracker with tr_observed_sets :=
                 list_to_set (ob_key <$> observations) ∪ tr_observed_sets tracker |}, observations) /\
    NoDup (ob_key <$> observations) /\
    (forall observation, observation ∈ observations -> observes tracker observation) /\
    forall key state, tr_route_sets tracker !! key = Some state ->
      newly_exhausted tracker (key, state) = true -> key ∈ ob_key <$> observations.
Proof.
  unfold tracker_take_newly_exhausted.
  set (candidates := retain (newly_exhausted tracker) (iter_order (tr_route_sets tracker))).
  assert (forall entry, entry ∈ candidates -> exists o, observation_of entry = Some o /\
    ob_key o = entry.1 /\ observes tracker o) as Hobs.
  { intros [key state] [Hn Hin]%retain_elem. apply elem_of_iter_order in Hin.
    destruct (observation_of_exhausted tracker key state Hn Hin) as (o & ? & ? & ?). by exists o. }
  assert (NoDup candidates.*1) as Hnd.
  { unfold candidates. apply retain_NoDup_fmap. rewrite iter_order_perm. apply NoDup_fst_map_to_list. }
  assert (forall key state, tr_route_sets tracker !! key = Some state ->
    newly_exhausted tracker (key, state) = true -> (key, state) ∈ candidates) as Hall.
  { intros key state Hst Hn. apply retain_elem. by rewrite elem_of_iter_order. }
  clearbody candidates.
  assert (exists os, mapM observation_of candidates = Some os /\ ob_key <$> os = candidates.*1 /\
    forall o, o ∈ os -> observes tracker o) as (os & Hm & Hk & Ho).
  { clear Hnd Hall. induction candidates as [|entry l IH]; simpl.
    - exists []. split_and!; [done..|]. by intros o ?%elem_of_nil.
    - destruct (Hobs entry) as (o & He & Hk & Ho); [by left|]. rewrite He. simpl.
      destruct IH as (os & -> & Hks & Hos); [intros; apply Hobs; by right|].
      exists (o :: os). csimpl. rewrite Hk, Hks. split_and!; [done..|].
      intros o' [->|?]%elem_of_cons; auto. }
  exists os. rewrite Hm. split_and!; [done|by rewrite Hk|done|].
  intros key state Hst Hn. rewrite Hk. apply list_elem_of_fmap. exists (key, state). auto.
Qed.

Lemma take_attempts_spec attempts :
  exists observations,
    take_newly_exhausted attempts =
      Some ({| attempts with ra_tracker := {| (ra_tracker attempts) with tr_observed_sets :=
                 list_to_set (ob_key <$> observations) ∪ tr_observed_sets (ra_tracker attempts) |} |},
            observations) /\
    NoDup (ob_key <$> observations) /\
    (forall observation, observation ∈ observations -> observes (ra_tracker attempts) observation) /\
    forall key state, tr_route_sets (ra_tracker attempts) !! key = Some state ->
      newly_exhausted (ra_tracker attempts) (key, state) = true -> key ∈ ob_key <$> observations.
Proof.
  unfold take_newly_exhausted. destruct (take_exhausted_spec (ra_tracker attempts)) as (os & -> & ?).
  exists os. done.
Qed.

(** ** The invariant *)

Lemma next_round_ok attempts : attempts_ok (next_round attempts).
Proof.
  split; simpl; [apply tracker_default_ok|apply NoDup_nil_2| |].
  - intros *. by rewrite lookup_empty.
  - by intros ? ?%elem_of_nil.
Qed.

Lemma failure_step_ok attempts route class retry_after status code excerpt name host :
  attempts_ok attempts ->
  attempts_ok (record_failure_with_status sha256 attempts route class retry_after status code excerpt
                 name host).
Proof.
  intros [Htr Hlg Hrec Htrans]. unfold record_failure_with_status.
  destruct (tracker_record_failure _ _ _ _) as [tracker recorded] eqn:Hf.
  destruct (tracker_failure_ok _ _ _ _ _ _ Htr Hf) as (Hok & _ & Hfail).
  destruct recorded; simpl; [|by split]. split; simpl; [done|by apply ledger_record_ok| |].
  - intros agg st r Hst Hr. apply ledger_record_failure_ids. simpl.
    destruct (Hfail _ _ _ Hst Hr) as [[_ ->]|(old & Ho & Hr')]; [by left|right]. by eapply Hrec.
  - intros failure [->|Hin]%ledger_record_failures Hc; simpl in *.
    + rewrite Hc. set_solver.
    + specialize (Htrans failure Hin Hc). destruct (is_transient_family class); set_solver.
Qed.

Lemma cooled_step_ok attempts failure :
  attempts_ok attempts -> attempts_ok (record_cooled attempts failure).
Proof.
  intros [Htr Hlg Hrec Htrans]. unfold record_cooled. split; simpl; [done|by apply ledger_record_cooled_ok| |];
    rewrite ledger_record_cooled_failures; done.
Qed.

Lemma attempt_step_ok attempts ev :
  attempts_ok attempts ->
  exists attempts' observed, attempt_step attempts ev = Some (attempts', observed) /\ attempts_ok attempts'.
Proof.
  intros Hok. pose proof Hok as [Htr Hlg Hrec Htrans].
  destruct ev as [agg route|route| |route class d s c e n h|gate failure| |route|route| | |reason|waited|];
    simpl; try (eexists _, _; split; [done|]); try (by split).
  - split; simpl; [by apply register_tracker_ok|done| |done].
    intros agg' st r Hst Hr. unfold tracker_register_eligible in Hst. simpl in Hst.
    apply lookup_insert_Some in Hst as [[<- <-]|[_ Hst]]; [|by eapply Hrec].
    simpl in Hr. destruct (tr_route_sets (ra_tracker attempts) !! agg) as [old|] eqn:Ho; simpl in Hr.
    + by eapply Hrec.
    + rewrite lookup_empty in Hr. by destruct Hr.
  - split; simpl; [by apply physical_tracker_ok|done| |done].
    intros agg' st r. unfold tracker_record_physical_attempt. simpl.
    destruct (tr_route_to_set _ !! route) as [agg|]; simpl; [|by apply Hrec].
    destruct (tr_route_sets _ !! agg) as [old|] eqn:Ho; simpl; [|by apply Hrec].
    intros [[<- <-]|[_ Hst]]%lookup_insert_Some Hr; [by apply (Hrec _ _ _ Ho)|by apply (Hrec _ _ _ Hst)].
  - by apply failure_step_ok.
  - destruct gate; [|by apply cooled_step_ok]. apply (cooled_step_ok _ failure) in Hok as [H1 H2 H3 H4].
    split; done.
  - destruct (take_attempts_spec attempts) as (os & -> & _). eexists _, _. split; [done|].
    split; simpl; [|done..]. destruct Htr as [H1 H2 H3]. by split.
  - unfold take_last_resort_probe_for. case_bool_decide; by split.
  - apply next_round_ok.
Qed.

Lemma run_attempts_ok trace : forall attempts,
  attempts_ok attempts ->
  exists attempts' observed, run_attempts attempts trace = Some (attempts', observed) /\ attempts_ok attempts'.
Proof.
  induction trace as [|ev trace IH]; intros attempts Hok; simpl; [eauto|].
  destruct (attempt_step_ok attempts ev Hok) as (a & o & -> & Ha). simpl.
  destruct (IH a Ha) as (a' & o' & -> & Ha'). simpl. eauto.
Qed.

(** C38. Whatever happens to a request, in any order: no operation panics; the
    tracker stays consistent (what failed was attempted, what was attempted is
    eligible in its set); the ledger has one entry per route, the last one, so that
    its two counts add up to the distinct routes; every failure the tracker counts
    is in the ledger; and every transient failure of the round is remembered. *)
Theorem attempts_invariant trace :
  exists attempts observed,
    run_attempts RequestRouteAttempts_default trace = Some (attempts, observed) /\
    attempts_ok attempts /\
    distinct_route_count (ra_ledger attempts) =
      (attempt_count (ra_ledger attempts) + cooled_candidate_count (ra_ledger attempts))%nat.
Proof.
  destruct (run_attempts_ok trace _ attempts_default_ok) as (a & o & Hrun & Hok).
  exists a, o. split_and!; [done..|]. by apply ledger_ok_distinct, ok_ra_ledger.
Qed.

Lemma tracker_failure_observed tracker route class retry_after :
  tr_observed_sets (tracker_record_failure tracker route class retry_after).1 = tr_observed_sets tracker.
Proof. unfold tracker_record_failure. by repeat case_match. Qed.

(** Within a round the reported sets only grow, by what is reported. *)
Lemma attempt_step_observed attempts ev attempts' observed :
  ev <> EvNextRound -> attempt_step attempts ev = Some (attempts', observed) ->
  NoDup (ob_key <$> observed) /\
  (forall key, key ∈ ob_key <$> observed -> key ∉ tr_observed_sets (ra_tracker attempts)) /\
  forall key, key ∈ tr_observed_sets (ra_tracker attempts') <->
    key ∈ ob_key <$> observed \/ key ∈ tr_observed_sets (ra_tracker attempts).
Proof.
  intros Hev Hstep.
  assert (tr_observed_sets (ra_tracker attempts') = tr_observed_sets (ra_tracker attempts) ->
    observed = [] ->
    NoDup (ob_key <$> observed) /\
    (forall key, key ∈ ob_key <$> observed -> key ∉ tr_observed_sets (ra_tracker attempts)) /\
    forall key, key ∈ tr_observed_sets (ra_tracker attempts') <->
      key ∈ ob_key <$> observed \/ key ∈ tr_observed_sets (ra_tracker attempts)) as Hsame.
  { intros Ha ->. simpl. rewrite Ha. split_and!; [apply NoDup_nil_2|by intros ? ?%elem_of_nil|].
    intros key. rewrite elem_of_nil. tauto. }
  destruct ev as [agg route|route| |route class d s c e n h|gate failure| |route|route| | |reason|waited|];
    simpl in Hstep; try (injection Hstep as <- <-; by apply Hsame).
  - injection Hstep as <- <-. apply Hsame; [|done]. simpl. unfold tracker_record_physical_attempt.
    simpl. by repeat case_match.
  - injection Hstep as <- <-. apply Hsame; [|done]. unfold record_failure_with_status.
    pose proof (tracker_failure_observed (ra_tracker attempts) route class d) as Ht.
    destruct (tracker_record_failure _ _ _ _) as [tracker []]; done.
  - injection Hstep as <- <-. apply Hsame; [|done]. by destruct gate.
  - destruct (take_attempts_spec attempts) as (os & Htake & Hnd & Hobs & _).
    rewrite Htake in Hstep. injection Hstep as <- <-. split_and!; [done| |].
    + intros key (o & -> & Ho)%list_elem_of_fmap. apply Hobs in Ho as (st & _ & Hn & _).
      by apply newly_exhausted_spec in Hn as [? _].
    + intros key. simpl. rewrite elem_of_union, elem_of_list_to_set. done.
  - injection Hstep as <- <-. apply Hsame; [|done]. unfold take_last_resort_probe_for. by case_bool_decide.
Qed.

(** Within a round each route set is reported to the health registry at most
    once, however the events interleave, and never if it was reported before. *)
Theorem exhausted_set_reported_once trace : forall attempts attempts' observed,
  EvNextRound ∉ trace ->
  run_attempts attempts trace = Some (attempts', observed) ->
  NoDup (ob_key <$> observed) /\
  (forall key, key ∈ ob_key <$> observed -> key ∉ tr_observed_sets (ra_tracker attempts)) /\
  forall key, key ∈ ob_key <$> observed -> key ∈ tr_observed_sets (ra_tracker attempts').
Proof.
  assert (forall attempts attempts' observed,
    EvNextRound ∉ trace -> run_attempts attempts trace = Some (attempts', observed) ->
    NoDup (ob_key <$> observed) /\
    (forall key, key ∈ ob_key <$> observed -> key ∉ tr_observed_sets (ra_tracker attempts)) /\
    forall key, key ∈ tr_observed_sets (ra_tracker attempts') <->
      key ∈ ob_key <$> observed \/ key ∈ tr_observed_sets (ra_tracker attempts)) as H;
    [|intros a a' o H1 H2; destruct (H a a' o H1 H2) as (? & ? & H3);
      split_and!; [done..|]; intros key Hkey; apply H3; by left].
  induction trace as [|ev trace IH]; intros attempts attempts' observed Hnext Hrun; simpl in Hrun.
  { injection Hrun as <- <-. simpl. split_and!; [apply NoDup_nil_2|by intros ? ?%elem_of_nil|].
    intros key. rewrite elem_of_nil. tauto. }
  apply not_elem_of_cons in Hnext as [Hev Hnext].
  apply bind_Some in Hrun as ([a o] & Hstep & Hrun). apply bind_Some in Hrun as ([a' o'] & Hrun & [= <- <-]).
  destruct (attempt_step_observed _ _ _ _ (not_eq_sym Hev) Hstep) as (Hnd & Hnew & Hgrow).
  destruct (IH _ _ _ Hnext Hrun) as (Hnd' & Hnew' & Hgrow'). rewrite fmap_app. split_and!.
  - apply NoDup_app. split_and!; [done| |done]. intros key Hk Hk'. apply (Hnew' key Hk'), Hgrow. by left.
  - intros key [Hk|Hk]%elem_of_app; [by apply Hnew|]. intros Hin. apply (Hnew' key Hk), Hgrow. by right.
  - intros key. rewrite Hgrow', Hgrow, elem_of_app. tauto.
Qed.

(** What is reported. A set is reported exactly when it was not reported before in
    the round and every route that was eligible in it was physically attempted and
    failed; the report carries the outcome of one of its routes, a temporary class
    as soon as any route failed temporarily, and the least delay among the failures
    of that kind. A cooling route that was skipped therefore keeps its set from being
    reported. *)
Theorem exhausted_report_spec attempts attempts' observations :
  attempts_ok attempts ->
  take_newly_exhausted attempts = Some (attempts', observations) ->
  (forall key, key ∈ ob_key <$> observations <->
     exists state, tr_route_sets (ra_tracker attempts) !! key = Some state /\
       key ∉ tr_observed_sets (ra_tracker attempts) /\ st_eligible_routes state <> ∅ /\
       forall route, route ∈ st_eligible_routes state ->
         should_attempt attempts route = false /\ is_Some (st_failures state !! route)) /\
  forall observation, observation ∈ observations ->
    exists state route,
      tr_route_sets (ra_tracker attempts) !! ob_key observation = Some state /\
      st_failures state !! route = Some (ob_class observation, ob_retry_after observation) /\
      forall r c d, st_failures state !! r = Some (c, d) ->
        (is_temporary c = true -> is_temporary (ob_class observation) = true) /\
        (is_temporary c = is_temporary (ob_class observation) ->
         default 0 (ob_retry_after observation) <= default 0 d).
Proof.
  intros [Htr _ _ _] Htake. destruct (take_attempts_spec attempts) as (os & Htake' & _ & Hobs & Hall).
  rewrite Htake' in Htake. injection Htake as _ <-. split.
  - intros key. split.
    + intros (o & -> & Ho)%list_elem_of_fmap. apply Hobs in Ho as (st & Hst & Hn & _).
      apply newly_exhausted_spec in Hn as (Hnew & Hne & _ & Hfail). exists st. split_and!; [done..|].
      intros route Hroute. split; [|by apply Hfail]. unfold should_attempt, tracker_should_attempt.
      rewrite bool_decide_true; [done|]. destruct (ok_tr_sets _ Htr _ _ Hst) as [Hf _].
      apply (ok_tr_attempted _ Htr _ _ Hst), Hf, elem_of_dom, Hfail, Hroute.
    + intros (st & Hst & Hnew & Hne & Hfail). apply (Hall key st Hst), newly_exhausted_spec.
      split_and!; [done..| |intros route Hr; by apply Hfail]. apply set_choose_L in Hne as [route Hr].
      destruct (ok_tr_sets _ Htr _ _ Hst) as [Hf _]. intros Hempty.
      assert (route ∈ st_attempted_routes st) as Hin by (by apply Hf, elem_of_dom, Hfail).
      rewrite Hempty in Hin. by apply elem_of_empty in Hin.
  - intros o (st & Hst & _ & (route & Hr) & Hleast)%Hobs. exists st, route. split_and!; [done..|].
    intros r c d Hc. specialize (Hleast _ _ Hc). unfold representative_ltb, lex_ltb, on_ltb in Hleast.
    simpl in Hleast. destruct (is_temporary c), (is_temporary (ob_class o)); simpl in Hleast;
      split; try done; intros _; lia.
Qed.

Lemma attempt_step_memory attempts ev attempts' observed :
  attempt_step attempts ev = Some (attempts', observed) ->
  ra_transient_failed_routes attempts ⊆ ra_transient_failed_routes attempts' /\
  (forall reason, ra_give_up_reason attempts = Some reason ->
     ra_give_up_reason attempts' = Some reason) /\
  (ra_last_resort_probe_armed attempts = true -> ra_last_resort_probe_armed attempts' = true) /\
  (ra_last_resort_probe_granted attempts = true -> ra_last_resort_probe_granted attempts' = true).
Proof.
 destruct ev as [agg route|route| |route class d s c e n h|gate failure| |route|route| | |reason|waited|];
    simpl; try (intros [= <- <-]; done).
  - intros [= <- <-]. unfold record_failure_with_status.
    destruct (tracker_record_failure _ _ _ _) as [tracker []]; simpl; [|done].
    split; [destruct (is_transient_family class); set_solver|done].
  - intros [= <- <-]. by destruct gate.
  - destruct (take_attempts_spec attempts) as (os & -> & _). by intros [= <- <-].
  - intros [= <- <-]. unfold take_last_resort_probe_for. by case_bool_decide.
  - intros [= <- <-]. simpl. split_and!; try done. by intros r ->.
Qed.

(** What a request remembers across its rounds: a route that failed transiently
    stays known as such, whatever follows, so that its cooldown is not escalated again
    by the same request; the first reason to give up is never replaced; and the
    last-resort probe, once armed or granted, stays so. *)
Theorem request_memory_survives trace : forall attempts attempts' observed,
  run_attempts attempts trace = Some (attempts', observed) ->
  (forall route, has_transient_failure_for sha256 attempts route = true ->
     has_transient_failure_for sha256 attempts' route = true) /\
  (forall reason, ra_give_up_reason attempts = Some reason ->
     ra_give_up_reason attempts' = Some reason) /\
  (ra_last_resort_probe_armed attempts = true -> ra_last_resort_probe_armed attempts' = true) /\
  (ra_last_resort_probe_granted attempts = true -> ra_last_resort_probe_granted attempts' = true).
Proof.
  unfold has_transient_failure_for. setoid_rewrite bool_decide_eq_true.
  induction trace as [|ev trace IH]; intros attempts attempts' observed Hrun; simpl in Hrun.
  { by injection Hrun as <- <-. }
  apply bind_Some in Hrun as ([a o] & Hs & Hrun). apply bind_Some in Hrun as ([a' o'] & Hrun & [= <- <-]).
  destruct (attempt_step_memory _ _ _ _ Hs) as (H1 & H2 & H3 & H4). destruct (IH _ _ _ Hrun) as (I1 & I2 & I3 & I4).
  split_and!; auto.
Qed.

(** A failure counts exactly when its route is registered and was physically
    attempted in its set since: then it is the ledger's only entry for that route,
    replacing any earlier failure and any cooldown recorded for it, and a transient
    failure is remembered for the route; otherwise nothing changes. *)
Theorem failure_counts_once_attempted attempts route class retry_after status code excerpt name host :
  attempts_ok attempts ->
  let attempts' := record_failure_with_status sha256 attempts route class retry_after status code
                     excerpt name host in
  let attempted := exists aggregate state,
    tr_route_to_set (ra_tracker attempts) !! route = Some aggregate /\
    tr_route_sets (ra_tracker attempts) !! aggregate = Some state /\
    route ∈ st_attempted_routes state in
  (~ attempted -> attempts' = attempts) /\
  (attempted ->
     (exists failure, failure ∈ lg_failures (ra_ledger attempts') /\ af_class failure = class /\
        af_retry_after failure = retry_after /\
        forall f, f ∈ ledger_entries (ra_ledger attempts') ->
          af_route_id f = anonymous_route_id sha256 route -> f = failure) /\
     (is_transient_family class = true -> has_transient_failure_for sha256 attempts' route = true)).
Proof.
  intros Hok. cbv zeta.
  pose proof (failure_step_ok attempts route class retry_after status code excerpt name host Hok) as Hok'.
  apply ok_ra_ledger in Hok'. revert Hok'. unfold record_failure_with_status, tracker_record_failure. split.
  - intros Hno. destruct (tr_route_to_set _ !! route) as [agg|] eqn:Hr; [|done].
    destruct (tr_route_sets _ !! agg) as [st|] eqn:Hst; [|done].
    rewrite bool_decide_false; [done|]. intros Hin. apply Hno. eauto.
  - intros (agg & st & Hr & Hst & Hin). rewrite Hr, Hst, bool_decide_true in * by done. simpl in *.
    set (failure := {| af_route_id := _ |}) in *. split.
    + exists failure. assert (failure ∈ lg_failures (ledger_record (ra_ledger attempts) failure)) as Hnew.
      { unfold ledger_record. simpl. destruct (replace_route _ _) as [l'|] eqn:Hrep; simpl.
        - by eapply replace_route_new.
        - apply elem_of_app. right. by apply list_elem_of_singleton. }
      split_and!; [done..|]. intros f Hf Hid.
      assert (failure ∈ ledger_entries (ledger_record (ra_ledger attempts) failure)) as Hnew'
        by (apply elem_of_app; by left).
      apply list_elem_of_lookup in Hf as [i Hi], Hnew' as [j Hj].
      assert (i = j) as ->; [|by rewrite Hi in Hj; injection Hj].
      eapply NoDup_lookup; [exact Hok'| |]; rewrite list_lookup_fmap; [by rewrite Hi; simpl; rewrite Hid|by rewrite Hj].
    + intros ->. unfold has_transient_failure_for. simpl. apply bool_decide_eq_true. set_solver.
Qed.

End life.

(** ** Witnesses *)

Definition sets_order : IterOrder RouteSetAggregateKey RouteSetAttemptState := canonical_order _ _.
Definition failures_order : IterOrder RouteHealthKey (RouteFailureClass * option Duration) :=
  canonical_order _ _.
Definition routes_order : IterOrder RouteHealthKey RouteSetAggregateKey := canonical_order _ _.
#[local] Existing Instances sets_order failures_order routes_order.

(** A digest that tells the sample routes apart: the bytes of the material. *)
Definition plain_digest (material : string) : list Z :=
  reverse (map (fun c => Z.of_nat (Ascii.nat_of_ascii c)) (String.list_ascii_of_string material)).

Definition sample_route : RouteHealthKey :=
  {| rk_upstream_id := "a"; rk_key_fingerprint := "k"; rk_runtime_model_slug := "m"; rk_protocol := Responses |}.
Definition sample_set : RouteSetAggregateKey :=
  {| ak_upstream_id := "a"; ak_runtime_model_slug := "m"; ak_protocol := Responses |}.


(** The route is tried and fails, and its set is reported. *)
Definition sample_trace : list attempt_event :=
  [EvRegister sample_set sample_route; EvPhysicalAttempt sample_route;
   EvFailure sample_route TransientServer (Some (from_secs 2)) (Some 503) None None None None;
   EvTakeExhausted; EvGiveUp RoundCap].

Definition sample_attempts (steps : nat) : RequestRouteAttempts :=
  default RequestRouteAttempts_default
    (fst <$> run_attempts plain_digest RequestRouteAttempts_default (take steps sample_trace)).

Lemma sample_attempts_ok steps : attempts_ok plain_digest (sample_attempts steps).
Proof.
  unfold sample_attempts.
  destruct (run_attempts_ok plain_digest (take steps sample_trace) _ (attempts_default_ok plain_digest))
    as (a & o & Hrun & Ha). by rewrite Hrun.
Qed.

Lemma terminal_observation_agrees_witness :
  let ledger := ra_ledger (sample_attempts 3) in
  terminal_failure ledger = Some (Temporary (from_secs 2)) /\
  exists f, terminal_observation_for ledger (Temporary (from_secs 2)) = Some f /\ f ∈ ledger_entries ledger.
Proof.
  intros ledger. assert (terminal_failure ledger = Some (Temporary (from_secs 2))) as Ht by (vm_compute; reflexivity).
  split; [exact Ht|]. destruct (terminal_observation_agrees ledger _ Ht) as (f & Hf & Hin & _).
  exists f. split; assumption.
Defined.

Lemma exhausted_set_reported_once_witness :
  exists attempts observed,
    run_attempts plain_digest RequestRouteAttempts_default sample_trace = Some (attempts, observed) /\
    ob_key <$> observed = [sample_set] /\ NoDup (ob_key <$> observed).
Proof.
  destruct (run_attempts_ok plain_digest sample_trace _ (attempts_default_ok plain_digest))
    as (a & o & Hrun & _). exists a, o. split; [exact Hrun|]. split.
  - assert ((fun r : RequestRouteAttempts * list RouteSetObservation => ob_key <$> r.2) <$>
      run_attempts plain_digest RequestRouteAttempts_default sample_trace = Some [sample_set]) as Hshape
      by (vm_compute; reflexivity).
    rewrite Hrun in Hshape. injection Hshape as H. exact H.
  - apply (fun Hno => exhausted_set_reported_once plain_digest sample_trace _ _ _ Hno Hrun).
    intros Hin. repeat (apply elem_of_cons in Hin as [Hin|Hin]; [discriminate|]).
    apply elem_of_nil in Hin. exact Hin.
Defined.

Lemma exhausted_report_spec_witness :
  exists attempts' observations,
    take_newly_exhausted (sample_attempts 3) = Some (attempts', observations) /\
    sample_set ∈ ob_key <$> observations.
Proof.
  destruct (take_attempts_spec (sample_attempts 3)) as (os & Htake & _).
  eexists _, os. split; [exact Htake|].
  apply (exhausted_report_spec plain_digest _ _ _ (sample_attempts_ok 3) Htake).
  exists {| st_eligible_routes := {[sample_route]}; st_attempted_routes := {[sample_route]};
            st_failures := {[sample_route := (TransientServer, Some (from_secs 2))]} |}.
  split; [vm_compute; reflexivity|]. split; [apply (bool_decide_unpack _); vm_compute; exact I|].
  split; [apply (bool_decide_unpack _); vm_compute; exact I|].
  simpl. intros route Hr. apply elem_of_singleton in Hr as ->. split; [vm_compute; reflexivity|].
  rewrite lookup_singleton_eq. eexists. reflexivity.
Defined.

Lemma request_memory_survives_witness :
  exists attempts observed,
    run_attempts plain_digest (sample_attempts 5) [EvNextRound; EvGiveUp WaitBudget] = Some (attempts, observed) /\
    has_transient_failure_for plain_digest attempts sample_route = true /\
    ra_give_up_reason attempts = Some RoundCap.
Proof.
  destruct (run_attempts_ok plain_digest [EvNextRound; EvGiveUp WaitBudget] _ (sample_attempts_ok 5))
    as (a & o & Hrun & _). exists a, o. split; [exact Hrun|].
  destruct (request_memory_survives plain_digest _ _ _ _ Hrun) as (Htrans & Hreason & _).
  split; [apply Htrans; vm_compute; reflexivity|apply Hreason; vm_compute; reflexivity].
Defined.

Lemma failure_counts_once_attempted_witness :
  exists failure,
    failure ∈ lg_failures (ra_ledger (record_failure_with_status plain_digest (sample_attempts 2) sample_route
      RateLimited (Some (from_secs 2)) None None None None None)) /\
    af_class failure = RateLimited.
Proof.
  destruct (failure_counts_once_attempted plain_digest (sample_attempts 2) sample_route RateLimited
    (Some (from_secs 2)) None None None None None (sample_attempts_ok 2)) as [_ Hcounts].
  destruct Hcounts as [(f & Hf & Hc & _) _].
  - exists sample_set, {| st_eligible_routes := {[sample_route]}; st_attempted_routes := {[sample_route]};
                          st_failures := ∅ |}.
    split; [vm_compute; reflexivity|]. split; [vm_compute; reflexivity|].
    apply (bool_decide_unpack _). vm_compute. exact I.
  - exists f. split; assumption.
Defined.
