(* ===== verification/RoundEnd.v ===== *)
(** * The end of a routing round

    What the gateway does when a round over the routes produced no answer
    ([src/src/server/gateway.rs], the end of the loop ['routing_rounds]): classify the
    round, ask the health registry when a route recovers, arm the last-resort probe,
    wait in the queue of a saturated account, fail fast, wait for an account to be
    probed, wait on the retry budget, escape from a continuation pin, or stop. It
    composes [RouteAttempts], [RouteRetry] and [RouteHealthRegistry].

    The answers of the waits themselves (the slot queue and the account recovery) and
    the facts about the round that the rest of the handler determined are inputs. A
    lost coordination backend fails the request; the health registry is the one in
    process. *)

From S2P Require Import Prelude RouteTypes Backoff RouteHealth RouteHealthRegistry RouteRetry RouteAttempts.

Local Open Scope Z_scope.

(** ** Data *)

(** The settings that the end of a round reads. *)
Record RoundSettings := {
  rs_retry : RetrySettings;
  rs_last_resort_probe_enabled : bool;
  rs_account_queue_enabled : bool;
  rs_local_gate_distinct_error_code_enabled : bool;
  rs_local_gate_fast_fail_enabled : bool;
  rs_pin_escape_enabled : bool
}.

Definition rs_policy (settings : RoundSettings) : RouteRetryPolicy := from_sources (rs_retry settings).

Definition rs_retry_enabled (settings : RoundSettings) : bool :=
  se_upstream_route_exhaustion_retry_enabled (rs_retry settings).

(** The wait for a slot of the account: skipped by the adaptive budget, a slot became
    free, gave up, or the backend was lost. *)
Inductive SlotAnswer :=
| SlotSkipped
| SlotFreed
| SlotGaveUp
| SlotLost.

(** [wait_for_pending_account]: [Ok true], [Ok false], an error of the coordination
    backend, another error. *)
Inductive PendingAnswer :=
| PendingReady
| PendingNothing
| PendingLost
| PendingFailed.

Record RoundFacts := {
  rf_payload_rejected : bool;
  rf_stream_only_final_attempt : bool;
  rf_health : RouteHealthRegistry;
  rf_now : Instant;
  rf_local_account : bool;          (** [last_local_concurrency_account.is_some()] *)
  rf_account_upstream : bool;       (** its upstream is in the routing snapshot *)
  rf_slot : SlotAnswer;
  rf_has_pending_recovery : bool;
  rf_pending : PendingAnswer;
  rf_pin_active : bool              (** the continuation is pinned and may be replayed elsewhere *)
}.

Record RequestState := {
  rq_attempts : RequestRouteAttempts;
  rq_budget : RouteRetryBudget;
  rq_pin_escaped : bool;
  rq_transient_pool_replay_done : bool;
  rq_local_gate_fast_failed : bool
}.

Definition RequestState_default : RequestState :=
  {| rq_attempts := RequestRouteAttempts_default; rq_budget := RouteRetryBudget_default;
     rq_pin_escaped := false; rq_transient_pool_replay_done := false;
     rq_local_gate_fast_failed := false |}.

(** Why another round is run. *)
Inductive NextRound :=
| ProbeArmed (route : RouteHealthKey)
| SlotFree
| AccountReady
| Waited (wait : RouteRetryWait)
| PoolReplayed (replay_delay : Duration)
| PinEscaped.

Inductive RoundResult :=
| Again (why : NextRound) (state : RequestState)
| Stop (state : RequestState)
| Fatal.

Section round.
  Variable sha256 : string -> list Z.
  Variable request_id : string.
  Context `{!IterOrder RouteHealthKey RouteSetAggregateKey}.

(** [round_terminal]; the outer [None] is the panic of [terminal_failure]. *)
Definition round_terminal (ledger : AttemptLedger) (facts : RoundFacts)
    : option (option TerminalFailure) :=
  if negb (rf_payload_rejected facts) && negb (rf_stream_only_final_attempt facts)
     && negb (ledger_is_empty ledger)
  then Some <$> terminal_failure ledger
  else Some None.

Definition round_recovery (attempts : RequestRouteAttempts) (terminal : option TerminalFailure)
    (facts : RoundFacts) : option RouteRecovery :=
  match terminal with
  | Some (Temporary _) =>
      earliest_temporary_recovery (rf_health facts) (eligible_routes attempts) (rf_now facts)
  | _ => None
  end.

Definition may_arm (settings : RoundSettings) (attempts : RequestRouteAttempts)
    (terminal : option TerminalFailure) (facts : RoundFacts) : bool :=
  let ledger := ra_ledger attempts in
  rs_retry_enabled settings && rs_last_resort_probe_enabled settings
  && negb (rf_stream_only_final_attempt facts) && is_some terminal
  && ((attempt_count ledger =? 0)%nat && is_all_cooled_transient_family ledger
      || (0 <? attempt_count ledger)%nat && is_all_transient_family_failures ledger
         && (available_candidate_count sha256 attempts =? 0)%nat)
  && negb (ra_last_resort_probe_armed attempts).

(** The fast failure of the local gate. *)
Definition local_gate_stop (settings : RoundSettings) (state : RequestState) : RoundResult :=
  Stop (if rs_local_gate_distinct_error_code_enabled settings
        then {| state with
                rq_attempts := set_give_up_reason (rq_attempts state) LocalGateExhausted;
                rq_local_gate_fast_failed := true |}
        else state).

Definition continue_round (why : NextRound) (state : RequestState) : RoundResult :=
  Again why {| state with rq_attempts := next_round (rq_attempts state) |}.

(** The decision of the retry policy, then the escape from the pin, then the end. *)
Definition retry_or_stop (settings : RoundSettings) (state : RequestState)
    (terminal : option TerminalFailure) (recovery : option RouteRecovery) (facts : RoundFacts)
    : RoundResult :=
  let ledger := ra_ledger (rq_attempts state) in
  let '(wait, reason) :=
    match terminal with
    | Some failure =>
        decide_with_reason sha256 (rs_policy settings) (rq_budget state) failure recovery
          (is_pure_client_rate_limit ledger)
          ((attempt_count ledger =? 0)%nat && is_all_half_open_busy ledger) request_id
    | None => (None, None)
    end in
  let state := match reason with
    | Some reason => {| state with rq_attempts := set_give_up_reason (rq_attempts state) reason |}
    | None => state
    end in
  match wait with
  | Some wait =>
      continue_round (Waited wait)
        {| state with
           rq_budget := record_wait (rq_budget state) wait;
           rq_attempts := record_retry_waited (rq_attempts state) (wa_sleep_for wait) |}
  | None =>
      if rs_pin_escape_enabled settings && rf_pin_active facts && negb (rq_pin_escaped state)
         && negb (rf_payload_rejected facts) && negb (is_pure_client_rate_limit ledger)
         && match terminal with Some (Temporary _) | Some MixedRoutesExhausted => true | _ => false end
      then continue_round PinEscaped {| state with rq_pin_escaped := true |}
      else Stop state
  end.

(** From the fast failure on, once the slot queue was passed over. *)
Definition after_queue (settings : RoundSettings) (state : RequestState)
    (terminal : option TerminalFailure) (recovery : option RouteRecovery) (facts : RoundFacts)
    : RoundResult :=
  let ledger := ra_ledger (rq_attempts state) in
  if is_some terminal && is_pure_concurrency_exhaustion ledger
     && (ra_physical_attempts (rq_attempts state) =? 0) && rf_local_account facts
     && rs_local_gate_fast_fail_enabled settings && negb (rf_has_pending_recovery facts)
  then local_gate_stop settings state
  else if is_some terminal && is_pure_concurrency_exhaustion ledger && rf_has_pending_recovery facts
  then match rf_pending facts with
       | PendingReady => continue_round AccountReady state
       | PendingNothing => retry_or_stop settings state terminal recovery facts
       | PendingLost => Fatal
       | PendingFailed => Stop state
       end
  else retry_or_stop settings state terminal recovery facts.

(** The queue for a slot of the saturated account. *)
Definition queue_or_pass (settings : RoundSettings) (state : RequestState)
    (terminal : option TerminalFailure) (recovery : option RouteRecovery) (facts : RoundFacts)
    : RoundResult :=
  if is_some terminal && is_pure_concurrency_exhaustion (ra_ledger (rq_attempts state))
     && rs_retry_enabled settings && rs_account_queue_enabled settings
     && negb (rf_payload_rejected facts) && negb (rf_stream_only_final_attempt facts)
     && rf_local_account facts && rf_account_upstream facts
  then match rf_slot facts with
       | SlotFreed => continue_round SlotFree state
       | SlotLost => Fatal
       | SlotSkipped | SlotGaveUp => local_gate_stop settings state
       end
  else after_queue settings state terminal recovery facts.

Definition round_end (settings : RoundSettings) (state : RequestState) (facts : RoundFacts)
    : option RoundResult :=
  terminal ← round_terminal (ra_ledger (rq_attempts state)) facts;
  let recovery := round_recovery (rq_attempts state) terminal facts in
  let state := {| state with rq_attempts := clear_last_resort_probe (rq_attempts state) |} in
  Some
    (if may_arm settings (rq_attempts state) terminal facts then
       match earliest_cooled_route sha256 (rq_attempts state) with
       | Some route =>
           continue_round (ProbeArmed route)
             {| state with rq_attempts := arm_last_resort_probe (rq_attempts state) route |}
       | None => queue_or_pass settings state terminal recovery facts
       end
     else queue_or_pass settings state terminal recovery facts).

(** ** A round that a common-mode failure cut short

    The breaker tripped: a transient one replays the pool once after a short wait on
    the budget, any other ends the request. *)
Definition common_mode_tripped (settings : RoundSettings) (state : RequestState)
    (is_transient : bool) : RoundResult :=
  if is_transient && negb (rq_transient_pool_replay_done state) then
    let remaining := remaining_wait_budget (rs_policy settings) (bu_waited (rq_budget state)) in
    let replay_delay := Z.min (from_millis 500) remaining in
    continue_round (PoolReplayed replay_delay)
      {| state with
         rq_transient_pool_replay_done := true;
         rq_budget := record_external_wait (rq_budget state) replay_delay;
         rq_attempts := record_retry_waited (rq_attempts state) replay_delay |}
  else Stop state.

End round.

(** ** The rounds of a request

    What happens inside a round, as far as the end of it is concerned: the attempts
    change, and a route is retried in place after a delay. *)

Inductive body_event :=
| BodyAttempt (ev : attempt_event)
| BodySameRouteRetry (retry_delay : Duration).

Inductive round_ending :=
| Ended (facts : RoundFacts)
| CommonModeTripped (is_transient : bool).

Section rounds.
  Variable sha256 : string -> list Z.
  Variable request_id : string.
  Context `{!IterOrder RouteSetAggregateKey RouteSetAttemptState}.
  Context `{!IterOrder RouteHealthKey (RouteFailureClass * option Duration)}.
  Context `{!IterOrder RouteHealthKey RouteSetAggregateKey}.
  Variable settings : RoundSettings.

Definition body_step (state : RequestState) (ev : body_event) : option RequestState :=
  match ev with
  | BodyAttempt ev =>
      '(attempts, _) ← attempt_step sha256 (rq_attempts state) ev;
      Some {| state with rq_attempts := attempts |}
  | BodySameRouteRetry retry_delay =>
      Some {| state with
              rq_budget := record_wait_time (rq_budget state) retry_delay;
              rq_attempts := record_retry_waited (rq_attempts state) retry_delay |}
  end.

Fixpoint run_body (state : RequestState) (body : list body_event) : option RequestState :=
  match body with
  | [] => Some state
  | ev :: body => state ← body_step state ev; run_body state body
  end.

Definition finish_round (state : RequestState) (ending : round_ending) : option RoundResult :=
  match ending with
  | Ended facts => round_end sha256 request_id settings state facts
  | CommonModeTripped is_transient => Some (common_mode_tripped settings state is_transient)
  end.

(** How the request stands after some rounds, and why each further round was run. *)
Inductive request_standing :=
| Routing (state : RequestState)
| Stopped (state : RequestState)
| Failed.

Fixpoint run_request (state : RequestState) (rounds : list (list body_event * round_ending))
    : option (list NextRound * request_standing) :=
  match rounds with
  | [] => Some ([], Routing state)
  | (body, ending) :: rounds =>
      state ← run_body state body;
      result ← finish_round state ending;
      match result with
      | Again why state =>
          '(whys, standing) ← run_request state rounds;
          Some (why :: whys, standing)
      | Stop state => Some ([], Stopped state)
      | Fatal => Some ([], Failed)
      end
  end.

End rounds.

(** ** Facts: the end of a round *)

(** The settings are in range: what the runtime settings accept. *)
Record settings_ok (settings : RetrySettings) : Prop := {
  ok_se_wait : 0 <= se_upstream_route_exhaustion_retry_max_wait_ms settings <= u64_max;
  ok_se_rounds : 0 <= se_upstream_route_exhaustion_retry_max_rounds settings <= u32_max;
  ok_se_concurrency_wait : 0 <= se_upstream_concurrency_recovery_max_wait_ms settings <= u64_max;
  ok_se_concurrency_rounds : 0 <= se_upstream_concurrency_recovery_max_rounds settings <= u32_max;
  ok_se_busy : 0 <= se_upstream_route_half_open_busy_max_rounds settings <= 100
}.

Lemma from_sources_ok settings : settings_ok settings -> policy_ok (from_sources settings).
Proof.
  intros [H1 H2 H3 H4 H5]. split; simpl; unfold from_millis, duration_max, u64_max, u32_max in *; lia.
Qed.

Section facts.
  Variable sha256 : string -> list Z.
  Variable request_id : string.
  Context `{!IterOrder RouteSetAggregateKey RouteSetAttemptState}.
  Context `{!IterOrder RouteHealthKey (RouteFailureClass * option Duration)}.
  Context `{!IterOrder RouteHealthKey RouteSetAggregateKey}.
  Variable settings : RoundSettings.

Definition policy : RouteRetryPolicy := rs_policy settings.

(** The waits that the request is still entitled to. *)
Definition allowance (state : RequestState) : Z :=
  credit policy (rq_budget state)
  + (if ra_last_resort_probe_armed (rq_attempts state) then 0 else 1)
  + (if rq_pin_escaped state then 0 else 1)
  + (if rq_transient_pool_replay_done state then 0 else 1).

(** A further round that nothing outside the request paid for. *)
Definition costs (why : NextRound) : bool :=
  match why with SlotFree | AccountReady => false | _ => true end.

Lemma round_terminal_spec ledger facts :
  exists terminal, round_terminal ledger facts = Some terminal /\
    (is_some terminal = true ->
       rf_payload_rejected facts = false /\ rf_stream_only_final_attempt facts = false /\
       ledger_is_empty ledger = false /\ terminal_failure ledger = terminal).
Proof.
  unfold round_terminal.
  destruct (rf_payload_rejected facts), (rf_stream_only_final_attempt facts),
    (ledger_is_empty ledger) eqn:He; simpl; try (eexists; split; [done|done]).
  destruct (terminal_failure ledger) as [t|] eqn:Ht; simpl; [by exists (Some t)|].
  apply terminal_None in Ht. congruence.
Qed.

(** What a result keeps, and what a further round takes from the allowance. *)
Definition keeps (state : RequestState) (result : RoundResult) : Prop :=
  match result with
  | Again why state' =>
      counters_ok (rq_budget state') /\ allowance state' + (if costs why then 1 else 0) <= allowance state
  | _ => True
  end.

Lemma continue_keeps why state state' :
  counters_ok (rq_budget state') -> allowance state' + (if costs why then 1 else 0) <= allowance state ->
  keeps state (continue_round why state').
Proof. done. Qed.

Hypothesis Hpolicy : policy_ok policy.

Lemma retry_or_stop_keeps state terminal recovery facts :
  counters_ok (rq_budget state) ->
  keeps state (retry_or_stop sha256 request_id settings state terminal recovery facts).
Proof.
  intros Hc. unfold retry_or_stop.
  set (decision := match terminal with Some _ => _ | None => _ end).
  assert (forall wait reason, decision = (Some wait, reason) ->
    counters_ok (record_wait (rq_budget state) wait) /\
    credit policy (record_wait (rq_budget state) wait) + 1 <= credit policy (rq_budget state)) as Hgrant.
  { intros wait reason Hd. subst decision. destruct terminal; [|done]. by eapply granted_credit. }
  destruct decision as [[wait|] reason].
  - destruct (Hgrant wait reason eq_refl) as [? ?].
    destruct reason; (apply continue_keeps; [done|unfold allowance; simpl; lia]).
  - destruct (_ && _) eqn:Hescape; [|by destruct reason]. apply continue_keeps; [by destruct reason|].
    repeat (apply andb_true_iff in Hescape as [Hescape ?]).
    unfold allowance. destruct reason; simpl in *; destruct (rq_pin_escaped state); done || lia.
Qed.

Lemma local_gate_keeps state state' : keeps state (local_gate_stop settings state').
Proof. unfold local_gate_stop. done. Qed.

Lemma after_queue_keeps state terminal recovery facts :
  counters_ok (rq_budget state) ->
  keeps state (after_queue sha256 request_id settings state terminal recovery facts).
Proof.
  intros Hc. unfold after_queue. destruct (_ && _); [apply local_gate_keeps|].
  destruct (_ && _ && _); [|by apply retry_or_stop_keeps].
  destruct (rf_pending facts); [|by apply retry_or_stop_keeps|done..].
  apply continue_keeps; [done|]. unfold allowance. simpl. lia.
Qed.

Lemma queue_or_pass_keeps state terminal recovery facts :
  counters_ok (rq_budget state) ->
  keeps state (queue_or_pass sha256 request_id settings state terminal recovery facts).
Proof.
  intros Hc. unfold queue_or_pass. destruct (_ && _); [|by apply after_queue_keeps].
  destruct (rf_slot facts); [apply local_gate_keeps| |apply local_gate_keeps|done].
  apply continue_keeps; [done|]. unfold allowance. simpl. lia.
Qed.

(** The end of a round never panics. *)
Lemma round_end_keeps state facts :
  counters_ok (rq_budget state) ->
  exists result, round_end sha256 request_id settings state facts = Some result /\ keeps state result.
Proof.
  intros Hc. unfold round_end.
  destruct (round_terminal_spec (ra_ledger (rq_attempts state)) facts) as (terminal & -> & _). simpl.
  eexists. split; [done|].
  pose (cleared := {| state with rq_attempts := clear_last_resort_probe (rq_attempts state) |}).
  destruct (may_arm _ _ _ _ _) eqn:Harm; [|by apply (queue_or_pass_keeps cleared)].
  destruct (earliest_cooled_route _ _); [|by apply (queue_or_pass_keeps cleared)].
  apply continue_keeps; [done|]. unfold may_arm in Harm. apply andb_true_iff in Harm as [_ Harm%negb_true_iff].
  simpl in Harm. unfold allowance. simpl. rewrite Harm. lia.
Qed.

Lemma finish_round_keeps state ending :
  counters_ok (rq_budget state) ->
  exists result, finish_round sha256 request_id settings state ending = Some result /\ keeps state result.
Proof.
  intros Hc. destruct ending as [facts|transient]; simpl; [by apply round_end_keeps|].
  eexists. split; [done|]. unfold common_mode_tripped. destruct (_ && _) eqn:Ht; [|done].
  apply andb_true_iff in Ht as [_ Hdone%negb_true_iff].
  cbv zeta. set (delay := Z.min _ _).
  destruct (external_credit policy (rq_budget state) delay Hc) as [? Hcredit].
  apply continue_keeps; [done|]. unfold allowance. cbn. rewrite Hdone.
  lia.
Qed.

(** Inside a round nothing gives allowance back, and nothing panics. *)
Lemma body_step_keeps state ev :
  attempts_ok sha256 (rq_attempts state) -> counters_ok (rq_budget state) ->
  exists state', body_step sha256 state ev = Some state' /\
    attempts_ok sha256 (rq_attempts state') /\ counters_ok (rq_budget state') /\
    allowance state' <= allowance state.
Proof.
  intros Hok Hc. destruct ev as [ev|delay]; simpl.
  - destruct (attempt_step_ok sha256 (rq_attempts state) ev Hok) as (a & o & Hstep & Ha). rewrite Hstep. simpl.
    eexists. split_and!; [done..|]. unfold allowance. simpl.
    destruct (attempt_step_memory _ _ _ _ _ Hstep) as (_ & _ & Harmed & _).
    destruct (ra_last_resort_probe_armed (rq_attempts state)); [rewrite Harmed by done; lia|].
    destruct (ra_last_resort_probe_armed a); lia.
  - eexists. split; [done|]. split_and!; [|done|done]. destruct Hok as [H1 H2 H3 H4]. by split.
Qed.

Lemma run_body_keeps body : forall state,
  attempts_ok sha256 (rq_attempts state) -> counters_ok (rq_budget state) ->
  exists state', run_body sha256 state body = Some state' /\
    attempts_ok sha256 (rq_attempts state') /\ counters_ok (rq_budget state') /\
    allowance state' <= allowance state.
Proof.
  induction body as [|ev body IH]; intros state Hok Hc; simpl; [by eexists|].
  destruct (body_step_keeps state ev Hok Hc) as (s & -> & Hs & Hcs & Hle). simpl.
  destruct (IH s Hs Hcs) as (s' & -> & ? & ? & ?). eexists. split_and!; [done..|lia].
Qed.

Lemma round_ends_fresh state ending why state' :
  finish_round sha256 request_id settings state ending = Some (Again why state') ->
  exists attempts, rq_attempts state' = next_round attempts.
Proof.
  assert (forall w s, continue_round w s = Again why state' -> exists attempts, rq_attempts state' = next_round attempts)
    as Hnext by (intros w s [= _ <-]; by eexists).
  destruct ending as [facts|transient]; simpl.
  - intros (terminal & _ & [= H])%bind_Some. revert H. unfold queue_or_pass, after_queue, retry_or_stop, local_gate_stop.
    repeat (case_match; try done; try apply Hnext).
  - intros [= H]. revert H. unfold common_mode_tripped. case_match; [apply Hnext|done].
Qed.

Lemma run_request_keeps rounds : forall state,
  attempts_ok sha256 (rq_attempts state) -> counters_ok (rq_budget state) ->
  exists whys standing, run_request sha256 request_id settings state rounds = Some (whys, standing) /\
    Z.of_nat (length (retain costs whys)) <= allowance state /\
    (forall state', standing = Routing state' -> length whys = length rounds).
Proof.
  induction rounds as [|[body ending] rounds IH]; intros state Hok Hc; simpl.
  { eexists _, _. split_and!; [done| |done]. simpl. unfold allowance, credit.
    destruct (ra_last_resort_probe_armed _), (rq_pin_escaped _), (rq_transient_pool_replay_done _),
      (bu_alignment_used _); lia. }
  destruct (run_body_keeps body state Hok Hc) as (s & -> & Hs & Hcs & Hle). simpl.
  destruct (finish_round_keeps s ending Hcs) as (result & Hend & Hkeeps). rewrite Hend. simpl.
  assert (0 <= allowance s) as Hpos.
  { unfold allowance, credit. destruct (ra_last_resort_probe_armed _), (rq_pin_escaped _),
      (rq_transient_pool_replay_done _), (bu_alignment_used _); lia. }
  destruct result as [why s'|s'|]; [|eexists _, _; split_and!; [done|simpl; lia|done]..].
  destruct Hkeeps as [Hcs' Hcost]. destruct (round_ends_fresh _ _ _ _ Hend) as [attempts Hfresh].
  destruct (IH s') as (whys & standing & -> & Hlen & Hall);
    [rewrite Hfresh; apply next_round_ok|done|].
  simpl. eexists _, _. split_and!; [done| |].
  - rewrite retain_cons. destruct (costs why); simpl; lia.
  - intros state' ->. simpl. by rewrite (Hall state' eq_refl).
Qed.

(** C7. A request ends. Whatever its rounds try and however they fail, the gateway
    never panics between rounds, and the rounds it adds by itself (waits on the retry
    budget, the last-resort probe, the replay of the pool, the escape from a
    continuation pin) are at most three more than the caps of the retry policy add up
    to. So it stops or fails after that many rounds, unless each further round was
    paid for by a slot that became free or an account that recovered. *)
Theorem request_terminates rounds :
  let bound := Z.max (po_max_rounds policy) (po_concurrency_max_rounds policy)
               + po_busy_max_rounds policy + 3 in
  exists whys standing,
    run_request sha256 request_id settings RequestState_default rounds = Some (whys, standing) /\
    Z.of_nat (length (retain costs whys)) <= bound /\
    (forall state, standing = Routing state ->
       Z.of_nat (length rounds) <= bound + Z.of_nat (length (retain (fun why => negb (costs why)) whys))).
Proof.
  intros bound.
  destruct (run_request_keeps rounds RequestState_default (attempts_default_ok sha256))
    as (whys & standing & Hrun & Hlen & Hall); [split; vm_compute; intuition congruence|].
  exists whys, standing. split; [done|].
  assert (allowance RequestState_default <= bound) as Hbound.
  { unfold allowance, credit, bound. simpl. destruct Hpolicy as [_ ? _ ? ?]. lia. }
  split; [lia|]. intros state Hs. rewrite <- (Hall state Hs).
  assert (length whys = length (retain costs whys) + length (retain (fun w => negb (costs w)) whys))%nat; [|lia].
  clear. induction whys as [|w whys IH]; [done|]. rewrite !retain_cons. destruct (costs w); simpl; lia.
Qed.

(** ** What runs another round *)

Lemma earliest_cooled_spec attempts route :
  earliest_cooled_route sha256 attempts = Some route ->
  route ∈ eligible_routes attempts /\
  exists failure, failure ∈ ledger_entries (ra_ledger attempts) /\
    af_route_id failure = anonymous_route_id sha256 route /\
    forall f, f ∈ ledger_entries (ra_ledger attempts) -> retry_or_max failure <= retry_or_max f.
Proof.
  unfold earliest_cooled_route. intros (f & Hf & Hfind)%bind_Some.
  apply find_some in Hfind as [Hin Hid%String.eqb_eq]. split; [by apply list_elem_of_In|].
  exists f. split_and!; [by eapply min_by_elem|done|]. intros g Hg. by eapply min_by_key_least.
Qed.

(** What a further round was decided on. *)
Definition again_ok (state : RequestState) (facts : RoundFacts) (why : NextRound)
    (state' : RequestState) : Prop :=
  let attempts := rq_attempts state in
  let ledger := ra_ledger attempts in
  match why with
  | ProbeArmed route =>
      rs_retry_enabled settings = true /\ rs_last_resort_probe_enabled settings = true /\
      ra_last_resort_probe_armed attempts = false /\
      ra_last_resort_probe (rq_attempts state') = Some route /\
      (is_all_cooled_transient_family ledger = true /\ lg_failures ledger = [] \/
       is_all_transient_family_failures ledger = true /\ available_candidate_count sha256 attempts = 0%nat) /\
      earliest_cooled_route sha256 attempts = Some route
  | SlotFree => rs_retry_enabled settings = true /\ rs_account_queue_enabled settings = true /\
      is_pure_concurrency_exhaustion ledger = true
  | AccountReady => rf_has_pending_recovery facts = true /\ is_pure_concurrency_exhaustion ledger = true
  | Waited wait => exists retry_after,
      terminal_failure ledger = Some (Temporary retry_after) /\
      decide_with_reason sha256 policy (rq_budget state) (Temporary retry_after)
        (earliest_temporary_recovery (rf_health facts) (eligible_routes attempts) (rf_now facts))
        (is_pure_client_rate_limit ledger)
        ((attempt_count ledger =? 0)%nat && is_all_half_open_busy ledger) request_id
        = (Some wait, None) /\
      rq_budget state' = record_wait (rq_budget state) wait
  | PinEscaped => rs_pin_escape_enabled settings = true /\ rf_pin_active facts = true /\
      rq_pin_escaped state = false /\ rq_pin_escaped state' = true /\
      is_pure_client_rate_limit ledger = false
  | PoolReplayed _ => False
  end.

Lemma decide_some_temporary budget terminal recovery crl busy wait reason :
  decide_with_reason sha256 policy budget terminal recovery crl busy request_id = (Some wait, reason) ->
  reason = None /\ exists retry_after, terminal = Temporary retry_after.
Proof.
  intros Hd. split; [by eapply decide_granted|]. revert Hd. unfold decide_with_reason.
  destruct (negb _); [done|]. destruct terminal; try done. by eexists.
Qed.

Lemma retry_again_ok state terminal recovery facts why state' :
  terminal_failure (ra_ledger (rq_attempts state)) = terminal ->
  recovery = round_recovery (rq_attempts state) terminal facts ->
  retry_or_stop sha256 request_id settings state terminal recovery facts = Again why state' ->
  again_ok state facts why state' /\ is_some terminal = true.
Proof.
  intros Ht -> Hr. unfold retry_or_stop in Hr.
  destruct terminal as [t|]; [|destruct (_ && _) eqn:He in Hr; [by rewrite andb_false_r in He|done]].
  destruct (decide_with_reason _ _ _ _ _ _ _ _) as [[wait|] reason] eqn:Hd.
  - destruct (decide_some_temporary _ _ _ _ _ _ _ Hd) as [-> [d ->]]. injection Hr as <- <-.
    split; [|done]. exists d. split_and!; [by rewrite Ht|exact Hd|done].
  - destruct (_ && _) eqn:He in Hr; [|by destruct reason]. injection Hr as <- <-. split; [|done].
    repeat (apply andb_true_iff in He as [He ?]). bool_prop.
    assert (rq_pin_escaped (match reason with Some r => {| state with rq_attempts := set_give_up_reason (rq_attempts state) r |} | None => state end) = rq_pin_escaped state) as Hp by (by destruct reason).
    simpl. rewrite Hp in *. split_and!; try done; by apply negb_true_iff.
Qed.

Lemma after_queue_again_ok state terminal recovery facts why state' :
  terminal_failure (ra_ledger (rq_attempts state)) = terminal ->
  recovery = round_recovery (rq_attempts state) terminal facts ->
  after_queue sha256 request_id settings state terminal recovery facts = Again why state' ->
  again_ok state facts why state' /\ is_some terminal = true.
Proof.
  intros Ht Hr H. unfold after_queue in H. destruct (_ && _) in H; [done|].
  destruct (_ && rf_has_pending_recovery facts) eqn:He in H; [|by apply retry_again_ok in H].
  destruct (rf_pending facts); [|by apply retry_again_ok in H|done..].
  injection H as <- <-. apply andb_true_iff in He as [He ?]. apply andb_true_iff in He as [? ?]. done.
Qed.

Lemma queue_or_pass_again_ok state terminal recovery facts why state' :
  terminal_failure (ra_ledger (rq_attempts state)) = terminal ->
  recovery = round_recovery (rq_attempts state) terminal facts ->
  queue_or_pass sha256 request_id settings state terminal recovery facts = Again why state' ->
  again_ok state facts why state' /\ is_some terminal = true.
Proof.
  intros Ht Hr H. unfold queue_or_pass in H. destruct (_ && rf_account_upstream facts) eqn:He in H;
    [|by apply after_queue_again_ok in H].
  destruct (rf_slot facts); try done. injection H as <- <-.
  repeat (apply andb_true_iff in He as [He ?]). done.
Qed.

(** Why the end of a round runs another one. Always only after a round that
    recorded something, whose payload was not rejected, and into a fresh tracker and
    ledger. The last-resort probe goes, once per request and only while retries and
    the probe are switched on, to the route that recovers first, when the whole round
    was lost to the transient family; the slot queue and the account recovery are
    waited for only when every route was saturated; a wait is what the retry policy
    granted for the round's classification and the earliest recovery that the health
    registry reports; and the pin is escaped once, never for a pure rate limit. *)
Theorem round_again_spec state facts why state' :
  round_end sha256 request_id settings state facts = Some (Again why state') ->
  again_ok state facts why state' /\
  rf_payload_rejected facts = false /\ rf_stream_only_final_attempt facts = false /\
  ledger_is_empty (ra_ledger (rq_attempts state)) = false /\
  exists attempts, rq_attempts state' = next_round attempts.
Proof.
  intros Hend. pose proof (round_ends_fresh _ (Ended facts) _ _ Hend) as Hfresh. revert Hend. unfold round_end.
  destruct (round_terminal_spec (ra_ledger (rq_attempts state)) facts) as (terminal & -> & Hsome). simpl.
  intros [= H]. pose (cleared := {| state with rq_attempts := clear_last_resort_probe (rq_attempts state) |}).
  assert (again_ok cleared facts why state' /\ is_some terminal = true) as [Hag Hterm];
    [|destruct (Hsome Hterm) as (? & ? & ? & ?); by split_and!].
  assert (queue_or_pass sha256 request_id settings cleared terminal
    (round_recovery (rq_attempts state) terminal facts) facts = Again why state' ->
    again_ok cleared facts why state' /\ is_some terminal = true) as Hqueue.
  { intros Hq. destruct terminal as [t|]; [eapply queue_or_pass_again_ok; try done; by apply Hsome|].
    revert Hq. unfold queue_or_pass, after_queue, retry_or_stop. simpl. by rewrite andb_false_r. }
  destruct (may_arm _ _ _ _ _) eqn:Harm in H; [|by apply Hqueue].
  destruct (earliest_cooled_route _ _) as [route|] eqn:Hroute in H; [|by apply Hqueue].
  injection H as <- <-. unfold may_arm in Harm.
  apply andb_true_iff in Harm as [Harm Harmed%negb_true_iff].
  apply andb_true_iff in Harm as [Harm Hlost].
  repeat (apply andb_true_iff in Harm as [Harm ?]). split; [|done]. split_and!; try done.
  apply orb_true_iff in Hlost as [Hlost|Hlost]; [left|right]; apply andb_true_iff in Hlost as [Hl ?].
  - apply Nat.eqb_eq, length_zero_iff_nil in Hl. done.
  - apply andb_true_iff in Hl as [_ ?]. split; [done|]. by apply Nat.eqb_eq.
Qed.

(** The failures that only the client can act on. *)
Definition for_the_client (ledger : AttemptLedger) : Prop :=
  is_pure_client_rate_limit ledger = true /\ se_upstream_rate_limit_internal_retry_enabled (rs_retry settings) = false \/
  exists class, class ∈ [Credentials; ModelUnsupported; FeatureUnsupported; ProtocolUnsupported] /\
    uniform ledger class.

Lemma permanent_class class :
  class ∈ [Credentials; ModelUnsupported; FeatureUnsupported; ProtocolUnsupported] ->
  is_temporary class = false /\ is_transient_family class = false /\
  bool_decide (class = ConcurrencySaturated) = false.
Proof. intros Hc. repeat (apply elem_of_cons in Hc as [->|Hc]; [done|]). by apply elem_of_nil in Hc. Qed.

Lemma for_the_client_not_lost ledger :
  for_the_client ledger -> ledger_is_empty ledger = false ->
  is_pure_concurrency_exhaustion ledger = false /\
  (lg_failures ledger = [] -> is_all_cooled_transient_family ledger = false) /\
  is_all_transient_family_failures ledger = false.
Proof.
  intros Hclient Hne.
  assert (forall f, f ∈ ledger_entries ledger -> is_transient_family (af_class f) = false /\
    of_class ConcurrencySaturated f = false) as Hall.
  { intros f Hf. unfold of_class. destruct Hclient as [[Hrl _]|(class & Hclass & Hu)].
    - unfold is_pure_client_rate_limit in Hrl. apply andb_true_iff in Hrl as [_ Hrl].
      rewrite forallb_elem in Hrl. specialize (Hrl f Hf). by destruct (af_class f).
    - rewrite (Hu f Hf). by apply permanent_class. }
  assert (forall l (p : AttemptFailure -> bool), l <> [] ->
    (forall f, f ∈ l -> p f = false) -> forallb p l = false) as Hsome.
  { intros l p Hl Hp. destruct l as [|f l]; [done|]. simpl. by rewrite Hp by left. }
  split_and!.
  - unfold is_pure_concurrency_exhaustion. rewrite Hne. simpl. apply Hsome; [|intros f Hf; by apply Hall].
    rewrite ledger_is_empty_spec in Hne. by destruct (ledger_entries ledger).
  - intros Hf. unfold is_all_cooled_transient_family, ledger_is_empty, ledger_entries in *. rewrite Hf in *. simpl in *.
    rewrite Hne. apply Hsome; [by destruct (lg_cooled_candidates ledger)|intros f Hin; by apply Hall].
  - unfold is_all_transient_family_failures. destruct (is_empty (lg_failures ledger)) eqn:He; [done|]. simpl.
    apply Hsome; [by destruct (lg_failures ledger)|]. intros f Hf. apply Hall, elem_of_app. by left.
Qed.

(** What only the client can act on is handed back at once: when every route was
    rejected by a rate limit or a quota (and the retry of those inside the gateway is
    off), or every route failed with the same permanent class, the request stops with
    its budget untouched, no probe, no wait and no escape, and no reason to give up is
    recorded. *)
Theorem client_failures_end_request state facts :
  for_the_client (ra_ledger (rq_attempts state)) ->
  round_end sha256 request_id settings state facts =
    Some (Stop {| state with rq_attempts := clear_last_resort_probe (rq_attempts state) |}).
Proof.
  intros Hclient. unfold round_end.
  destruct (round_terminal_spec (ra_ledger (rq_attempts state)) facts) as (terminal & -> & Hsome). simpl. f_equal.
  destruct terminal as [t|]; simpl in Hsome.
  2:{ unfold may_arm, queue_or_pass, after_queue, retry_or_stop. simpl. by rewrite !andb_false_r. }
  destruct (Hsome eq_refl) as (_ & _ & Hne & Ht).
  destruct (for_the_client_not_lost _ Hclient Hne) as (Hcs & Hcool & Htf).
  assert (may_arm sha256 settings (clear_last_resort_probe (rq_attempts state)) (Some t) facts = false) as ->.
  { unfold may_arm. simpl. rewrite Htf, andb_false_r. simpl. unfold attempt_count.
    destruct (lg_failures (ra_ledger (rq_attempts state))) eqn:Hf; simpl; [rewrite Hcool by done|]; by rewrite andb_false_r. }
  unfold queue_or_pass, after_queue. simpl. rewrite Hcs. simpl. unfold retry_or_stop. simpl.
  destruct Hclient as [[Hrl Hoff]|(class & Hclass & Hu)].
  - assert (po_rate_limit_internal_retry_enabled (rs_policy settings) = false) as Hpo by exact Hoff.
    rewrite Hrl. unfold decide_with_reason. rewrite Hpo. destruct (negb (po_enabled _)), t; simpl;
      by rewrite ?andb_false_r.
  - assert (t <> MixedRoutesExhausted /\ forall d, t <> Temporary d) as [Hmixed Htemp].
    { apply terminal_Some in Ht as [_ Ht]. split; intros.
      - intros ->. destruct Ht as [_ Ht]. by apply (Ht class).
      - intros ->. destruct Ht as [(f & Hf & Hft) _]. unfold temporary_failure in Hft. rewrite (Hu f Hf) in Hft.
        apply permanent_class in Hclass as [? _]. congruence. }
    unfold decide_with_reason. destruct (negb (po_enabled _)), t; simpl; rewrite ?andb_false_r; naive_solver.
Qed.

(** ** The last-resort probe of a request *)

(** The body of a round arms no probe: only its end does. *)
Definition arms_nothing (ev : body_event) : Prop :=
  match ev with BodyAttempt (EvArm _) => False | _ => True end.

(** A candidate is reserved as the last-resort probe. *)
Definition takes_probe (state : RequestState) (ev : body_event) : bool :=
  match ev with
  | BodyAttempt (EvTakeProbe route) => (take_last_resort_probe_for (rq_attempts state) route).2
  | _ => false
  end.

Fixpoint body_probes (state : RequestState) (body : list body_event) : nat :=
  match body with
  | [] => 0
  | ev :: body =>
      (if takes_probe state ev then 1 else 0)
      + match body_step sha256 state ev with Some state => body_probes state body | None => 0 end
  end.

Fixpoint request_probes (state : RequestState) (rounds : list (list body_event * round_ending)) : nat :=
  match rounds with
  | [] => 0
  | (body, ending) :: rounds =>
      body_probes state body
      + match run_body sha256 state body ≫= fun state => finish_round sha256 request_id settings state ending with
        | Some (Again _ state) => request_probes state rounds
        | _ => 0
        end
  end.

(** The probes that can still be taken. *)
Definition probes_left (attempts : RequestRouteAttempts) : nat :=
  (if ra_last_resort_probe attempts then 1 else 0)
  + (if ra_last_resort_probe_armed attempts then 0 else 1).

Lemma body_step_probes state ev state' :
  arms_nothing ev -> body_step sha256 state ev = Some state' ->
  ((if takes_probe state ev then 1 else 0) + probes_left (rq_attempts state') <= probes_left (rq_attempts state))%nat.
Proof.
  intros Harm Hs. destruct ev as [ev|delay]; [|by injection Hs as <-]. simpl in Hs.
  apply bind_Some in Hs as ([a o] & Hstep & [= <-]). simpl.
  destruct ev as [agg route|route| |route class d s c e n h|gate failure| |route|route| | |reason|waited|];
    simpl in *; try (by injection Hstep as <- <-); try done.
  - injection Hstep as <- <-. unfold record_failure_with_status, probes_left.
    destruct (tracker_record_failure _ _ _ _) as [tracker []]; simpl; lia.
  - injection Hstep as <- <-. by destruct gate.
  - destruct (take_attempts_spec (rq_attempts state)) as (os & Ht & _). rewrite Ht in Hstep.
    by injection Hstep as <- <-.
  - injection Hstep as <- <-. unfold take_last_resort_probe_for, probes_left.
    case_bool_decide as Hp; simpl; [rewrite Hp|]; lia.
  - injection Hstep as <- <-. unfold probes_left. simpl. destruct (ra_last_resort_probe _); lia.
Qed.

Lemma run_body_probes body : forall state state',
  Forall arms_nothing body -> run_body sha256 state body = Some state' ->
  (body_probes state body + probes_left (rq_attempts state') <= probes_left (rq_attempts state))%nat.
Proof.
  induction body as [|ev body IH]; intros state state' Hall Hrun; simpl in *; [by injection Hrun as <-|].
  apply Forall_cons in Hall as [Hev Hall]. apply bind_Some in Hrun as (s & Hs & Hrun). rewrite Hs.
  pose proof (body_step_probes state ev s Hev Hs). specialize (IH s state' Hall Hrun). lia.
Qed.

Lemma continue_probes why state why' state' attempts :
  continue_round why state = Again why' state' ->
  (probes_left (rq_attempts state) <= probes_left attempts)%nat ->
  (probes_left (rq_attempts state') <= probes_left attempts)%nat.
Proof. by intros [= _ <-]. Qed.

Lemma cleared_probes attempts :
  (probes_left (clear_last_resort_probe attempts) <= probes_left attempts)%nat.
Proof. unfold probes_left. simpl. destruct (ra_last_resort_probe attempts); lia. Qed.

Lemma finish_round_probes state ending why state' :
  finish_round sha256 request_id settings state ending = Some (Again why state') ->
  (probes_left (rq_attempts state') <= probes_left (rq_attempts state))%nat.
Proof.
  pose proof (cleared_probes (rq_attempts state)) as Hclear.
  destruct ending as [facts|transient]; simpl.
  - intros (terminal & _ & [= Hend])%bind_Some. revert Hend.
    destruct (may_arm _ _ _ _ _) eqn:Harm;
      [destruct (earliest_cooled_route _ _) as [route|];
         [intros Hend; eapply (continue_probes _ _ _ _ _ Hend)|]|];
      [|unfold queue_or_pass, after_queue, retry_or_stop, local_gate_stop; repeat (case_match; try done);
         intros Hend; eapply (continue_probes _ _ _ _ _ Hend), Hclear..].
    unfold may_arm in Harm. apply andb_true_iff in Harm as [_ Harm%negb_true_iff].
    unfold probes_left. simpl in *. rewrite Harm. lia.
  - unfold common_mode_tripped. case_match; [|done]. by intros [= _ <-].
Qed.

(** C37. A request makes at most one last-resort probe, over all of its rounds,
    whatever happens in them: a route is handed out for the probe only if the end of
    an earlier round armed it, and no later round arms another. *)
Theorem last_resort_probe_once rounds :
  Forall (fun round => Forall arms_nothing round.1) rounds ->
  (request_probes RequestState_default rounds <= 1)%nat.
Proof.
  assert (forall state, Forall (fun round => Forall arms_nothing round.1) rounds ->
    (request_probes state rounds <= probes_left (rq_attempts state))%nat) as H; [|intros Hall; exact (H RequestState_default Hall)].
  induction rounds as [|[body ending] rounds IH]; intros state Hall; simpl; [lia|].
  apply Forall_cons in Hall as [Hbody Hall]. simpl in Hbody.
  destruct (run_body sha256 state body) as [s|] eqn:Hrun; simpl.
  - pose proof (run_body_probes body state s Hbody Hrun).
    destruct (finish_round sha256 request_id settings s ending) as [[why s'|s'|]|] eqn:Hend; try lia.
    pose proof (finish_round_probes _ _ _ _ Hend). specialize (IH s' Hall). lia.
  - clear IH. revert state Hrun. induction body as [|ev body IHb]; intros state Hrun; [done|]. simpl in *.
    apply Forall_cons in Hbody as [Hev Hbody]. destruct (body_step sha256 state ev) as [s|] eqn:Hs; simpl in Hrun.
    + pose proof (body_step_probes state ev s Hev Hs). specialize (IHb Hbody s Hrun). lia.
    + destruct ev as [ev|]; [|done]. simpl. destruct ev; simpl in *; try lia. done.
Qed.

End facts.

(** ** Witnesses *)

#[local] Existing Instances sets_order failures_order routes_order.

Definition sample_settings : RoundSettings :=
  {| rs_retry :=
       {| se_upstream_route_exhaustion_retry_enabled := true;
          se_upstream_route_exhaustion_retry_max_wait_ms := 30000;
          se_upstream_route_exhaustion_retry_max_rounds := 3;
          se_upstream_concurrency_recovery_max_wait_ms := 30000;
          se_upstream_concurrency_recovery_max_rounds := 5;
          se_upstream_route_exhaustion_budget_alignment_enabled := true;
          se_upstream_route_half_open_busy_max_rounds := 4;
          se_upstream_route_exhaustion_alignment_truncated_enabled := true;
          se_upstream_rate_limit_internal_retry_enabled := false |};
     rs_last_resort_probe_enabled := true;
     rs_account_queue_enabled := true;
     rs_local_gate_distinct_error_code_enabled := true;
     rs_local_gate_fast_fail_enabled := true;
     rs_pin_escape_enabled := true |}.

Definition sample_facts : RoundFacts :=
  {| rf_payload_rejected := false; rf_stream_only_final_attempt := false;
     rf_health := RouteHealthRegistry_default; rf_now := 0;
     rf_local_account := false; rf_account_upstream := false; rf_slot := SlotGaveUp;
     rf_has_pending_recovery := false; rf_pending := PendingNothing; rf_pin_active := false |}.

(** A round whose only route fails with the class. *)
Definition failing_round (class : RouteFailureClass) : list body_event :=
  [BodyAttempt (EvRegister sample_set sample_route); BodyAttempt (EvTakeProbe sample_route);
   BodyAttempt (EvPhysicalAttempt sample_route);
   BodyAttempt (EvFailure sample_route class (Some (from_secs 2)) (Some 503) None None None None);
   BodyAttempt EvTakeExhausted].

Lemma sample_settings_ok : settings_ok (rs_retry sample_settings).
Proof. split; vm_compute; intuition congruence. Qed.

Definition sample_request : list (list body_event * round_ending) :=
  replicate 5 (failing_round TransientServer, Ended sample_facts).

Definition is_stopped (standing : request_standing) : bool :=
  match standing with Stopped _ => true | _ => false end.

(** A probe and two waits, then the request stops. *)
Lemma request_terminates_witness :
  exists whys standing,
    run_request plain_digest "req" sample_settings RequestState_default sample_request
      = Some (whys, standing) /\
    is_stopped standing = true /\ length whys = 3%nat /\
    Z.of_nat (length (retain costs whys)) <= 12.
Proof.
  destruct (request_terminates plain_digest "req" sample_settings
    (from_sources_ok _ sample_settings_ok) sample_request) as (whys & standing & Hrun & Hlen & _).
  exists whys, standing. split; [exact Hrun|].
  assert (fmap (fun r => (is_stopped r.2, length r.1)) (run_request plain_digest "req" sample_settings
    RequestState_default sample_request) = Some (true, 3%nat)) as Hshape by (vm_compute; reflexivity).
  rewrite Hrun in Hshape. injection Hshape as H1 H2. split; [exact H1|]. split; [exact H2|].
  exact Hlen.
Defined.

Definition failed_state (class : RouteFailureClass) : RequestState :=
  default RequestState_default (run_body plain_digest RequestState_default (failing_round class)).

Definition why_again (result : RoundResult) : option NextRound :=
  match result with Again why _ => Some why | _ => None end.

(** The only route of the round failed transiently, so it is probed next. *)
Lemma round_again_spec_witness :
  exists state',
    round_end plain_digest "req" sample_settings (failed_state TransientServer) sample_facts
      = Some (Again (ProbeArmed sample_route) state') /\
    ledger_is_empty (ra_ledger (rq_attempts (failed_state TransientServer))) = false.
Proof.
  assert (why_again <$> round_end plain_digest "req" sample_settings (failed_state TransientServer) sample_facts
    = Some (Some (ProbeArmed sample_route))) as Hshape by (vm_compute; reflexivity).
  destruct (round_end plain_digest "req" sample_settings (failed_state TransientServer) sample_facts)
    as [[why state'|?|]|] eqn:Hend; try discriminate Hshape.
  injection Hshape as ->. exists state'. split; [reflexivity|].
  apply (round_again_spec plain_digest "req" sample_settings _ _ _ _ Hend).
Defined.

Lemma client_failures_end_request_witness :
  round_end plain_digest "req" sample_settings (failed_state RateLimited) sample_facts
    = Some (Stop {| (failed_state RateLimited) with
                    rq_attempts := clear_last_resort_probe (rq_attempts (failed_state RateLimited)) |}).
Proof.
  apply (client_failures_end_request plain_digest "req" sample_settings). left.
  split; [vm_compute; reflexivity|reflexivity].
Defined.

Lemma last_resort_probe_once_witness :
  request_probes plain_digest "req" sample_settings RequestState_default sample_request = 1%nat /\
  (request_probes plain_digest "req" sample_settings RequestState_default sample_request <= 1)%nat.
Proof.
  split; [vm_compute; reflexivity|].
  apply (last_resort_probe_once plain_digest "req" sample_settings). repeat constructor.
Defined.
