(* ===== verification/ModelCatalog.v ===== *)
(** * The catalogue of published models

    [src/src/state/model_catalog.rs]: the models that the active upstreams advertise,
    grouped under one public name each, with the routes that serve them; how a name
    in a request or in a group is identified with a published model; and the legacy
    lists of allowed names.

    The upstream part is [UpstreamConfig], identity and aliases are [ModelIdentity].
    A [ModelId] is its string. [None] is the panic of [split_at] on some names that
    end in the middle of a character (see [ModelIdentity.subagent_base_spec]); the
    contexts of a model ([route_context], [effective_context_for_model]) are left out,
    since they only look up token limits. *)

From S2P Require Import Prelude RouteTypes ModelIdentity UpstreamConfig.

Local Open Scope Z_scope.

(** ** Data *)

Notation ModelId := string (only parsing).

Record PublishedRoute := {
  pu_upstream_id : string;
  pu_wire_model : string;
  pu_exposed_model : string
}.

Record PublishedModel := {
  pm_id : ModelId;
  pm_name : string;
  pm_routes : list PublishedRoute
}.

Record ModelCatalog := {
  ca_models : list PublishedModel;
  ca_aliases : ModelAliasRegistry;
  ca_explicit_labels : gset string;
  ca_case_insensitive : bool
}.

(** ** Identification *)

Definition resolve_group_model_id (catalog : ModelCatalog) (name : string) : ModelId :=
  let name := trim name in
  let key := canonical_model_id name in
  if bool_decide (key ∈ ca_explicit_labels catalog) then key
  else canonical_model_id (default name (resolve_alias (ca_aliases catalog) name)).

Definition resolve_public_model_id (catalog : ModelCatalog) (name : string) : option ModelId :=
  base ← codex_subagent_base_model name;
  Some (resolve_group_model_id catalog (trim (default name base))).

Definition normalize_request_name (catalog : ModelCatalog) (name : string) : string :=
  if bool_decide (canonical_model_id name ∈ ca_explicit_labels catalog) then name
  else default name (resolve_alias (ca_aliases catalog) name).

(** ** Construction *)

(** An advertised entry with its upstream. *)
Definition catalog_entries (upstreams : list UpstreamConfig)
    : list (UpstreamConfig * DownstreamModelEntry) :=
  concat (map (fun upstream =>
                 map (pair upstream) (effective_downstream_models_detailed upstream))
            (retain uc_active upstreams)).

Definition explicit_labels_of (entries : list (UpstreamConfig * DownstreamModelEntry)) : gset string :=
  list_to_set (map (fun entry => canonical_model_id (de_model entry.2))
                 (retain (fun entry => de_from_mapping entry.2) entries)).

(** Names that are never published. *)
Definition reserved_name (raw : string) : bool :=
  str_is_empty raw || String.eqb raw "*" || String.eqb raw "__none__".

(** The public name of an entry. *)
Definition public_name (aliases : ModelAliasRegistry) (case_insensitive : bool)
    (entry : DownstreamModelEntry) : string :=
  let raw := trim (de_model entry) in
  if de_from_mapping entry then raw
  else match resolve_alias aliases raw with
       | Some canonical => canonical
       | None => if case_insensitive then canonical_model_id raw else raw
       end.

Definition published_route (case_insensitive : bool) (upstream : UpstreamConfig)
    (entry : DownstreamModelEntry) : option PublishedRoute :=
  let raw := trim (de_model entry) in
  wire ← resolved_model_name_with upstream raw case_insensitive;
  Some {| pu_upstream_id := uc_id upstream; pu_wire_model := default raw wire;
          pu_exposed_model := raw |}.

(** Whether the name of an entry replaces the one its model has. *)
Definition takes_name (from_mapping mapped : bool) (name current : string) : bool :=
  (from_mapping && negb mapped) || (bool_decide (from_mapping = mapped) && String.ltb name current).

(** One entry of the loop. *)
Definition publish (catalog : ModelCatalog) (grouped : gmap string (PublishedModel * bool))
    (item : UpstreamConfig * DownstreamModelEntry) : option (gmap string (PublishedModel * bool)) :=
  let '(upstream, entry) := item in
  let ci := ca_case_insensitive catalog in
  if reserved_name (trim (de_model entry)) then Some grouped
  else
    let name := public_name (ca_aliases catalog) ci entry in
    let key := model_identity_key_with name ci in
    route ← published_route ci upstream entry;
    id ← resolve_public_model_id catalog name;
    let '(model, mapped) :=
      default ({| pm_id := id; pm_name := name; pm_routes := [] |}, de_from_mapping entry)
        (grouped !! key) in
    let takes := takes_name (de_from_mapping entry) mapped name (pm_name model) in
    Some (<[key :=
      ({| pm_id := pm_id model;
          pm_name := if takes then name else pm_name model;
          pm_routes := pm_routes model ++ [route] |},
       if takes then de_from_mapping entry else mapped)]> grouped).

Fixpoint publish_all (catalog : ModelCatalog) (grouped : gmap string (PublishedModel * bool))
    (entries : list (UpstreamConfig * DownstreamModelEntry))
    : option (gmap string (PublishedModel * bool)) :=
  match entries with
  | [] => Some grouped
  | item :: entries => grouped ← publish catalog grouped item; publish_all catalog grouped entries
  end.

Definition ModelCatalog_new (upstreams : list UpstreamConfig) (aliases : ModelAliasRegistry)
    (case_insensitive : bool) : option ModelCatalog :=
  let entries := catalog_entries upstreams in
  let catalog := {| ca_models := []; ca_aliases := aliases;
                    ca_explicit_labels := explicit_labels_of entries;
                    ca_case_insensitive := case_insensitive |} in
  grouped ← publish_all catalog ∅ entries;
  Some {| catalog with ca_models :=
            sort_by (not_above (on_ltb pm_name String.ltb))
              (map (fun entry => entry.2.1) (btree_entries grouped)) |}.

(** ** Lookup *)

(** The second pass of [find]: the canonical spelling, or the identity. *)
Fixpoint find_canonical (catalog : ModelCatalog) (models : list PublishedModel)
    (canonical name : string) : option (option PublishedModel) :=
  match models with
  | [] => Some None
  | model :: models =>
      if String.eqb (pm_name model) canonical then Some (Some model)
      else if ca_case_insensitive catalog then
        requested ← resolve_public_model_id catalog name;
        if String.eqb (pm_id model) requested then Some (Some model)
        else find_canonical catalog models canonical name
      else find_canonical catalog models canonical name
  end.

Definition catalog_find (catalog : ModelCatalog) (name : string) : option (option PublishedModel) :=
  match find (fun model => String.eqb (pm_name model) (trim name)) (ca_models catalog) with
  | Some model => Some (Some model)
  | None =>
      let canonical := trim (default name (resolve_alias (ca_aliases catalog) name)) in
      find_canonical catalog (ca_models catalog) canonical name
  end.

Definition public_name_for_route (catalog : ModelCatalog) (upstream_id exposed_model : string)
    : option string :=
  pm_name <$> find (fun model =>
    existsb (fun route => String.eqb (pu_upstream_id route) upstream_id
                          && String.eqb (pu_exposed_model route) exposed_model)
      (pm_routes model)) (ca_models catalog).

(** ** Legacy lists of names *)

Definition legacy_match (catalog : ModelCatalog) (requested : ModelId) (value : string) : bool :=
  let value := trim value in
  negb (str_is_empty value) && negb (String.eqb value "__none__")
  && String.eqb (resolve_group_model_id catalog value) requested.

Definition allows_legacy (catalog : ModelCatalog) (allowed : list string) (name : string)
    : option bool :=
  if is_empty allowed || existsb (fun value => String.eqb (trim value) "*") allowed then Some true
  else
    requested ← resolve_public_model_id catalog name;
    Some (negb (str_is_empty requested) && existsb (legacy_match catalog requested) allowed).

Fixpoint names_allowed (catalog : ModelCatalog) (allowed : list string)
    (models : list PublishedModel) : option (list string) :=
  match models with
  | [] => Some []
  | model :: models =>
      allows ← allows_legacy catalog allowed (pm_name model);
      names ← names_allowed catalog allowed models;
      Some (if (allows : bool) then pm_name model :: names else names)
  end.

Definition names_for_legacy (catalog : ModelCatalog) (allowed : list string) : option (list string) :=
  names_allowed catalog allowed (ca_models catalog).

#[local] Opaque trim canonical_model_id codex_subagent_base_model.

(** ** Facts: identification *)

Lemma resolve_alias_canonical registry m m' :
  canonical_model_id m = canonical_model_id m' -> resolve_alias registry m = resolve_alias registry m'.
Proof. unfold resolve_alias. by intros ->. Qed.

(** The aliases of a catalogue were accepted as rules. *)
Definition aliases_accepted (registry : ModelAliasRegistry) : Prop :=
  exists rules, from_rules rules = Ok registry.

Lemma resolved_is_final registry model c :
  aliases_accepted registry -> resolve_alias registry model = Some c ->
  resolve_alias registry c = None /\ canonical_model_id c <> "".
Proof.
  intros [rules (seen & [Hs _ Hseen Hd])%from_rules_ok] Hres. unfold resolve_alias in Hres.
  destruct (str_is_empty (canonical_model_id model)); [done|].
  destruct (Hs _ _ Hres) as (_ & r & _ & Hr & -> & _). destruct (Hseen r Hr) as [Hin Hne].
  split; [|done]. unfold resolve_alias. case_match; [done|]. by apply Hd.
Qed.

(** An identity identifies itself. *)
Lemma resolve_group_fixed catalog name :
  aliases_accepted (ca_aliases catalog) ->
  resolve_group_model_id catalog (resolve_group_model_id catalog name) = resolve_group_model_id catalog name.
Proof.
  intros Hok. unfold resolve_group_model_id at 2 3.
  case_bool_decide as Hlabel.
  - unfold resolve_group_model_id. rewrite trim_canonical, canonical_idempotent.
    by rewrite bool_decide_true.
  - set (target := default (trim name) (resolve_alias (ca_aliases catalog) (trim name))).
    unfold resolve_group_model_id. rewrite trim_canonical, canonical_idempotent.
    case_bool_decide; [done|].
    rewrite (resolve_alias_canonical _ _ target) by apply canonical_idempotent.
    assert (resolve_alias (ca_aliases catalog) target = None) as ->; [|apply canonical_idempotent].
    subst target. destruct (resolve_alias (ca_aliases catalog) (trim name)) as [c|] eqn:Hc; [|done].
    by destruct (resolved_is_final _ _ _ Hok Hc).
Qed.

Lemma resolve_group_trimmed catalog name :
  trim (resolve_group_model_id catalog name) = resolve_group_model_id catalog name.
Proof. unfold resolve_group_model_id. case_bool_decide; apply trim_canonical. Qed.

(** ** Facts: the catalogue *)

(** What the loop has published of the entries it has seen. *)
Section published.
  Variable catalog : ModelCatalog.

Notation ci := (ca_case_insensitive catalog).
Notation item_name item := (public_name (ca_aliases catalog) ci (snd item)).
Notation item_key item := (model_identity_key_with (item_name item) ci).
Notation mapped_item item := (de_from_mapping (snd item)).

(** An entry that is published. *)
Definition listed (item : UpstreamConfig * DownstreamModelEntry) : Prop :=
  reserved_name (trim (de_model item.2)) = false.

Record model_ok (done : list (UpstreamConfig * DownstreamModelEntry)) (key : string)
    (model : PublishedModel) (mapped : bool) : Prop := {
  ok_pm_name : exists item, item ∈ done /\ listed item /\ item_name item = pm_name model /\
    mapped_item item = mapped;
  ok_pm_key : model_identity_key_with (pm_name model) ci = key;
  ok_pm_least item : item ∈ done -> listed item -> item_key item = key ->
    (mapped_item item = true -> mapped = true) /\
    (mapped_item item = mapped -> String.ltb (item_name item) (pm_name model) = false);
  ok_pm_routes route : route ∈ pm_routes model <-> exists item, item ∈ done /\ listed item /\
    item_key item = key /\ published_route ci item.1 item.2 = Some route
}.

Definition grouped_ok (done : list (UpstreamConfig * DownstreamModelEntry))
    (grouped : gmap string (PublishedModel * bool)) : Prop :=
  (forall key model mapped, grouped !! key = Some (model, mapped) -> model_ok done key model mapped) /\
  (forall item, item ∈ done -> listed item -> is_Some (grouped !! item_key item)).

Lemma takes_name_spec from_mapping mapped name current :
  takes_name from_mapping mapped name current = true <->
  (from_mapping = true /\ mapped = false) \/ (from_mapping = mapped /\ String.ltb name current = true).
Proof. unfold takes_name. destruct from_mapping, mapped; simpl; naive_solver. Qed.

(** The entry is added to the group of its key. *)
Lemma model_ok_add done item key model mapped route takes :
  model_ok done key model mapped -> listed item -> item_key item = key ->
  published_route ci item.1 item.2 = Some route ->
  takes = takes_name (mapped_item item) mapped (item_name item) (pm_name model) ->
  model_ok (done ++ [item]) key
    {| pm_id := pm_id model; pm_name := if takes then item_name item else pm_name model;
       pm_routes := pm_routes model ++ [route] |}
    (if takes then mapped_item item else mapped).
Proof.
  intros [(it & Hit & Hl & Hn & Hm) Hkey Hleast Hroutes] Hlisted Hk Hroute Ht. split; simpl.
  - destruct takes; [exists item|exists it]; rewrite elem_of_snoc; auto.
  - by destruct takes.
  - intros i [Hi| ->]%elem_of_snoc Hil Hik.
    + destruct (Hleast i Hi Hil Hik) as [Hmap Hless]. destruct takes; [|done].
      symmetry in Ht. apply takes_name_spec in Ht as [[Hfm ->]|[Hfm Hlt]].
      * split; [done|]. intros Heq. rewrite Hfm in Heq. by apply Hmap in Heq.
      * rewrite Hfm. split; [done|]. intros Heq. eapply (wo_neg_trans _ (pm_name model));
          [by apply Hless|by apply wo_asym].
    + destruct takes; [split; [done|]; intros; apply wo_irrefl|].
      assert (takes_name (mapped_item item) mapped (item_name item) (pm_name model) <> true) as Hnt by congruence.
      rewrite takes_name_spec in Hnt. split.
      * intros Hfm. destruct mapped; [done|]. naive_solver.
      * intros Hfm. destruct (String.ltb _ _) eqn:Hlt; [|done]. destruct Hnt. by right.
  - intros r. rewrite elem_of_snoc, Hroutes. setoid_rewrite elem_of_snoc. split.
    + intros [(i & ? & ? & ? & ?)| ->]; [by exists i; auto|exists item; auto].
    + intros (i & [Hi| ->] & ? & ? & ?); [left; by exists i|right; congruence].
Qed.

(** An entry of another key changes nothing for a group. *)
Lemma model_ok_other done item key model mapped :
  model_ok done key model mapped -> (listed item -> item_key item <> key) ->
  model_ok (done ++ [item]) key model mapped.
Proof.
  intros [(it & Hit & Hl & Hn & Hm) Hkey Hleast Hroutes] Hother. split; [|done|..].
  - exists it. rewrite elem_of_snoc. auto.
  - intros i [Hi| ->]%elem_of_snoc Hil Hik; [by apply Hleast|by apply Hother in Hik].
  - intros r. rewrite Hroutes. setoid_rewrite elem_of_snoc. split.
    + intros (i & ? & ? & ? & ?). exists i. auto.
    + intros (i & [Hi| ->] & ? & Hk & ?); [by exists i|by apply Hother in Hk].
Qed.

Lemma publish_ok done grouped item grouped' :
  grouped_ok done grouped -> publish catalog grouped item = Some grouped' ->
  grouped_ok (done ++ [item]) grouped'.
Proof.
  intros [Hok Hall]. unfold publish. destruct item as [upstream entry].
  destruct (reserved_name (trim (de_model entry))) eqn:Hres.
  { intros [= <-]. split.
    - intros key model mapped Hg. apply model_ok_other; [by apply Hok|]. unfold listed. simpl. congruence.
    - intros i [Hi| ->]%elem_of_snoc Hil; [by apply Hall|]. unfold listed in Hil. simpl in Hil. congruence. }
  intros (route & Hroute & (id & Hid & Hg)%bind_Some)%bind_Some.
  set (item := (upstream, entry)) in *. set (key := model_identity_key_with _ _) in Hg.
  assert (listed item) as Hlisted by done.
  assert (published_route (ca_case_insensitive catalog) item.1 item.2 = Some route) as Hroute' by done.
  assert (forall k m b, k <> key -> grouped !! k = Some (m, b) -> model_ok (done ++ [item]) k m b) as Hothers
    by (intros k m b Hne Hk; apply model_ok_other; [by apply Hok|done]).
  assert (forall v, grouped_ok (done ++ [item]) (<[key := v]> grouped) <-> model_ok (done ++ [item]) key v.1 v.2)
    as Hinsert.
  { intros [m b]. split; [intros [H _]; apply H, lookup_insert_eq|]. intros Hm. split.
    - intros k m' b'. rewrite lookup_insert_Some. intros [[<- [= <- <-]]|[Hne Hk]]; [done|].
      apply Hothers; [by intros ->|done].
    - intros i [Hi| ->]%elem_of_snoc Hil; [|rewrite lookup_insert_eq; by eexists].
      rewrite lookup_insert_is_Some'. right. by apply Hall. }
  destruct (grouped !! key) as [[model mapped]|] eqn:Hgroup; simpl in Hg; injection Hg as <-; apply Hinsert.
  - by eapply (model_ok_add done item key model mapped route _ (Hok _ _ _ Hgroup) Hlisted eq_refl Hroute eq_refl).
  - simpl. split; simpl.
    + exists item. rewrite elem_of_snoc. unfold takes_name. split_and!; [by right|done| |by case_match].
      by case_match.
    + by case_match.
    + intros i [Hi| ->]%elem_of_snoc Hil Hik.
      * destruct (Hall i Hi Hil) as [v Hv]. rewrite Hik in Hv. congruence.
      * case_match; (split; [done|]; intros; apply wo_irrefl).
    + intros r. rewrite list_elem_of_singleton. setoid_rewrite elem_of_snoc. split.
      * intros ->. exists item. auto.
      * intros (i & [Hi| ->] & Hil & Hik & Hr); [|rewrite Hroute' in Hr; congruence].
        destruct (Hall i Hi Hil) as [v Hv]. rewrite Hik in Hv. congruence.
Qed.

Lemma publish_all_ok entries : forall done grouped grouped',
  grouped_ok done grouped -> publish_all catalog grouped entries = Some grouped' ->
  grouped_ok (done ++ entries) grouped'.
Proof.
  induction entries as [|item entries IH]; intros done grouped grouped' Hok; simpl.
  { intros [= <-]. by rewrite app_nil_r. }
  intros (g & Hg & Hrest)%bind_Some.
  replace (done ++ item :: entries) with ((done ++ [item]) ++ entries) by (by rewrite <- app_assoc).
  eapply IH; [|exact Hrest]. by eapply publish_ok.
Qed.

Lemma grouped_ok_empty : grouped_ok [] ∅.
Proof. split; [intros *; by rewrite lookup_empty|by intros item ?%elem_of_nil]. Qed.

End published.

(** The items of the upstreams. *)
Lemma catalog_entries_elem upstreams upstream entry :
  (upstream, entry) ∈ catalog_entries upstreams <->
  upstream ∈ upstreams /\ uc_active upstream = true /\
  entry ∈ effective_downstream_models_detailed upstream.
Proof.
  unfold catalog_entries. rewrite list_elem_of_In, in_concat. split.
  - intros (l & Hl%list_elem_of_In & Hin%list_elem_of_In). apply list_elem_of_fmap in Hl as (u & -> & Hu).
    apply list_elem_of_fmap in Hin as (e & [= -> ->] & He). apply retain_elem in Hu as [? ?]. done.
  - intros (Hu & Hact & He). exists (map (pair upstream) (effective_downstream_models_detailed upstream)).
    rewrite <- !list_elem_of_In. split; apply list_elem_of_fmap; [|by eexists].
    eexists. split; [done|]. by apply retain_elem.
Qed.

(** A finished catalogue holds exactly the groups of the loop. *)
Lemma catalog_new_groups upstreams aliases ci catalog :
  ModelCatalog_new upstreams aliases ci = Some catalog ->
  ca_aliases catalog = aliases /\ ca_case_insensitive catalog = ci /\
  exists grouped, grouped_ok catalog (catalog_entries upstreams) grouped /\
    ca_models catalog ≡ₚ (fun entry : string * (PublishedModel * bool) => entry.2.1) <$> map_to_list grouped /\
    Sorted (fun x y => not_above (on_ltb pm_name String.ltb) x y = true) (ca_models catalog).
Proof.
  unfold ModelCatalog_new. intros (grouped & Hg & [= <-])%bind_Some. simpl. split_and!; [done..|].
  exists grouped. split_and!.
  - set (start := {| ca_models := [] |}) in Hg.
    pose proof (publish_all_ok start _ [] ∅ grouped (grouped_ok_empty start) Hg) as [H1 H2].
    split; [|exact H2]. intros key m b Hk. destruct (H1 key m b Hk) as [? ? ? ?]. by split.
  - rewrite sort_by_perm. apply fmap_Permutation, btree_entries_perm.
  - apply sort_by_sorted, not_above_total, _.
Qed.

Lemma catalog_models_keys (grouped : gmap string (PublishedModel * bool)) catalog done :
  grouped_ok catalog done grouped ->
  (fun m => model_identity_key_with (pm_name m) (ca_case_insensitive catalog)) <$>
    ((fun entry : string * (PublishedModel * bool) => entry.2.1) <$> map_to_list grouped)
  = (map_to_list grouped).*1.
Proof.
  intros [Hok _]. rewrite <- list_fmap_compose. apply list_fmap_ext. intros i [key [m b]] Hi. simpl.
  apply (Hok key m b). apply elem_of_map_to_list. by eapply list_elem_of_lookup_2.
Qed.

(** A published model, and the entries that its name stands for. *)
Definition serves_name (upstreams : list UpstreamConfig) (catalog : ModelCatalog) (name : string)
    (upstream : UpstreamConfig) (entry : DownstreamModelEntry) : Prop :=
  upstream ∈ upstreams /\ uc_active upstream = true /\
  entry ∈ effective_downstream_models_detailed upstream /\
  reserved_name (trim (de_model entry)) = false /\
  model_identity_key_with (public_name (ca_aliases catalog) (ca_case_insensitive catalog) entry)
    (ca_case_insensitive catalog)
  = model_identity_key_with name (ca_case_insensitive catalog).

(** The catalogue publishes what the active upstreams advertise, and nothing else.
    Every advertised name that is not reserved is a route of exactly one model, and
    every route of a model comes from such a name of the same identity; no two models
    have the same identity, and they are sorted by name; and the name of a model is
    that of one of its entries: of a mapping if it has one, and the least of those. *)
Theorem catalog_publishes upstreams aliases ci catalog :
  ModelCatalog_new upstreams aliases ci = Some catalog ->
  NoDup ((fun m => model_identity_key_with (pm_name m) ci) <$> ca_models catalog) /\
  Sorted (fun x y => not_above (on_ltb pm_name String.ltb) x y = true) (ca_models catalog) /\
  (forall upstream entry, upstream ∈ upstreams -> uc_active upstream = true ->
     entry ∈ effective_downstream_models_detailed upstream ->
     reserved_name (trim (de_model entry)) = false ->
     exists model, model ∈ ca_models catalog /\
       serves_name upstreams catalog (pm_name model) upstream entry) /\
  (forall model, model ∈ ca_models catalog ->
     (forall route, route ∈ pm_routes model <->
        exists upstream entry, serves_name upstreams catalog (pm_name model) upstream entry /\
          published_route ci upstream entry = Some route) /\
     exists upstream entry,
       serves_name upstreams catalog (pm_name model) upstream entry /\
       public_name aliases ci entry = pm_name model /\
       forall u e, serves_name upstreams catalog (pm_name model) u e ->
         (de_from_mapping e = true -> de_from_mapping entry = true) /\
         (de_from_mapping e = de_from_mapping entry ->
          String.ltb (public_name aliases ci e) (pm_name model) = false)).
Proof.
  intros Hnew. destruct (catalog_new_groups _ _ _ _ Hnew) as (Ha & Hci & grouped & Hgroups & Hperm & Hsorted).
  pose proof Hgroups as [Hok Hall]. rewrite Ha, Hci in *.
  assert (forall m, m ∈ ca_models catalog <-> exists key b, grouped !! key = Some (m, b)) as Hin.
  { intros m. rewrite Hperm, list_elem_of_fmap. split.
    - intros ([key [m' b]] & -> & Hk%elem_of_map_to_list). by exists key, b.
    - intros (key & b & Hk). exists (key, (m, b)). by rewrite elem_of_map_to_list. }
  split_and!; [|done| |].
  - rewrite Hperm. pose proof (catalog_models_keys grouped catalog _ Hgroups) as Hkeys. rewrite Hci in Hkeys.
    rewrite Hkeys. apply NoDup_fst_map_to_list.
  - intros u e Hu Hact He Hres. destruct (Hall (u, e)) as [[m b] Hm]; [by apply catalog_entries_elem|done|].
    exists m. split; [apply Hin; eauto|]. split_and!; [done..|]. rewrite Ha, Hci.
    destruct (Hok _ _ _ Hm) as [_ Hkey _ _]. rewrite Hci in Hkey. by rewrite Hkey.
  - intros m (key & b & Hm)%Hin. destruct (Hok _ _ _ Hm) as [([u e] & Hi & Hl & Hn & Hb) Hkey Hleast Hroutes].
    rewrite Ha, Hci in *. subst key.
    assert (forall u' e', serves_name upstreams catalog (pm_name m) u' e' <->
      (u', e') ∈ catalog_entries upstreams /\ listed (u', e') /\
      model_identity_key_with (public_name aliases ci e') ci = model_identity_key_with (pm_name m) ci) as Hserves.
    { intros u' e'. unfold serves_name, listed. rewrite catalog_entries_elem, Ha, Hci. simpl. tauto. }
    split.
    + intros route. rewrite Hroutes. setoid_rewrite Hserves. split.
      * intros ([u' e'] & ? & ? & ? & ?). eauto 10.
      * intros (u' & e' & (? & ? & ?) & ?). exists (u', e'). auto.
    + exists u, e. split_and!; [apply Hserves; split_and!; [done..|by rewrite <- Hn]|done|].
      intros u' e' (? & ? & Hk)%Hserves. destruct (Hleast (u', e')) as [H1 H2]; [done..|]. simpl in *. by subst b.
Qed.

Lemma catalog_names_distinct upstreams aliases ci catalog m m' :
  ModelCatalog_new upstreams aliases ci = Some catalog ->
  m ∈ ca_models catalog -> m' ∈ ca_models catalog ->
  model_identity_key_with (pm_name m) ci = model_identity_key_with (pm_name m') ci -> m = m'.
Proof.
  intros Hnew Hm Hm' Heq. destruct (catalog_new_groups _ _ _ _ Hnew) as (Ha & Hci & grouped & Hgroups & Hperm & _).
  assert (forall x, x ∈ ca_models catalog -> exists b,
    grouped !! model_identity_key_with (pm_name x) ci = Some (x, b)) as Hin.
  { intros x Hx. rewrite Hperm in Hx. apply list_elem_of_fmap in Hx as ([key [y b]] & -> & Hk%elem_of_map_to_list).
    exists b. simpl. destruct Hgroups as [Hok _]. destruct (Hok _ _ _ Hk) as [_ Hkey _ _]. rewrite Hci in Hkey.
    by rewrite Hkey. }
  destruct (Hin m Hm) as [b Hb], (Hin m' Hm') as [b' Hb']. rewrite Heq in Hb. congruence.
Qed.

(** A published name finds its model, however it is padded with white space. *)
Theorem published_name_found upstreams aliases ci catalog model name :
  ModelCatalog_new upstreams aliases ci = Some catalog ->
  model ∈ ca_models catalog -> trim name = pm_name model ->
  catalog_find catalog name = Some (Some model).
Proof.
  intros Hnew Hm Hname. unfold catalog_find. rewrite Hname.
  destruct (find_present (fun m => String.eqb (pm_name m) (pm_name model)) (ca_models catalog) model Hm)
    as [m' Hf]; [apply String.eqb_refl|]. rewrite Hf.
  apply find_elem in Hf as [Hm' Heq%String.eqb_eq]. do 2 f_equal.
  eapply catalog_names_distinct; [done..|]. by rewrite Heq.
Qed.

(** ** Witnesses *)

Definition sample_catalog : ModelCatalog :=
  default {| ca_models := []; ca_aliases := {| mr_rules := []; mr_alias_to_canonical := ∅ |};
             ca_explicit_labels := ∅; ca_case_insensitive := true |}
    (ModelCatalog_new [sample_upstream] {| mr_rules := []; mr_alias_to_canonical := ∅ |} true).

Lemma sample_catalog_new :
  ModelCatalog_new [sample_upstream] {| mr_rules := []; mr_alias_to_canonical := ∅ |} true
    = Some sample_catalog.
Proof. vm_compute. reflexivity. Qed.

(** The published model of the mapping. *)
Definition house_model : PublishedModel :=
  {| pm_id := "house"; pm_name := "house";
     pm_routes := [{| pu_upstream_id := "u1"; pu_wire_model := "glm-5.2"; pu_exposed_model := "house" |}] |}.

Lemma house_model_listed : house_model ∈ ca_models sample_catalog.
Proof. apply list_elem_of_lookup_2 with 1%nat. vm_compute. reflexivity. Qed.

Lemma catalog_publishes_witness :
  exists model, model ∈ ca_models sample_catalog /\
    serves_name [sample_upstream] sample_catalog (pm_name model) sample_upstream
      {| de_model := "gpt-5"; de_from_mapping := false |}.
Proof.
  apply (catalog_publishes _ _ _ _ sample_catalog_new).
  - apply elem_of_cons. left. reflexivity.
  - reflexivity.
  - apply list_elem_of_lookup_2 with 1%nat. vm_compute. reflexivity.
  - vm_compute. reflexivity.
Defined.

Lemma published_name_found_witness : catalog_find sample_catalog "  house " = Some (Some house_model).
Proof.
  apply (published_name_found _ _ _ _ house_model "  house " sample_catalog_new house_model_listed).
  vm_compute. reflexivity.
Defined.
