(* ===== verification/ModelAccess.v ===== *)
(** * Access to models

    [src/src/state/model_access.rs] and the decision of
    [src/src/state/model_access_store.rs]: which models a downstream key may use. A
    group of names allows everything, nothing or a set of identities; the owner of a
    portal key is allowed the union of its groups; the key itself inherits that,
    narrows it by a group of its own, or is denied. Lists of names are the older form
    of the same, into which the result is projected for the code that still reads it.

    Names are identified by [ModelCatalog]. The rows that the store reads are inputs;
    the transactions that write policies are not modelled. *)

From S2P Require Import Prelude ModelIdentity UpstreamConfig ModelCatalog.

Local Open Scope Z_scope.

(** ** What is allowed *)

Inductive AllowedModels :=
| AllModels
| NoModels
| Models (ids : gset ModelId).

#[export] Instance AllowedModels_eq_dec : EqDecision AllowedModels.
Proof. solve_decision. Defined.

Inductive GroupError :=
| EmptyName
| SentinelNotAlone.

(** A [BTreeSet] yields its elements in order. *)
Definition ordered_ids (ids : gset ModelId) : list ModelId :=
  sort_by (not_above String.ltb) (elements ids).

Definition from_group (models : list string) (catalog : ModelCatalog) : result AllowedModels GroupError :=
  if is_empty models || existsb (fun name => str_is_empty (trim name)) models then Err EmptyName
  else if existsb (fun name => String.eqb (trim name) "__none__") models then
    if (length models =? 1)%nat then Ok NoModels else Err SentinelNotAlone
  else if existsb (fun name => String.eqb (trim name) "*") models then Ok AllModels
  else Ok (Models (list_to_set (resolve_group_model_id catalog <$> models))).

Definition from_legacy (models : list string) (catalog : ModelCatalog) : AllowedModels :=
  if is_empty models then AllModels
  else match from_group models catalog with Ok allowed => allowed | Err _ => NoModels end.

Definition allowed_union (self other : AllowedModels) : AllowedModels :=
  match self, other with
  | AllModels, _ | _, AllModels => AllModels
  | NoModels, other | other, NoModels => other
  | Models ids, Models other_ids => Models (ids ∪ other_ids)
  end.

Definition allowed_intersection (self other : AllowedModels) : AllowedModels :=
  match self, other with
  | NoModels, _ | _, NoModels => NoModels
  | AllModels, other | other, AllModels => other
  | Models ids, Models other_ids =>
      let models := ids ∩ other_ids in
      if bool_decide (models = ∅) then NoModels else Models models
  end.

Definition allows (self : AllowedModels) (id : ModelId) : bool :=
  match self with
  | AllModels => true
  | NoModels => false
  | Models models => bool_decide (id ∈ models)
  end.

Definition legacy_projection (self : AllowedModels) : list string :=
  match self with
  | AllModels => ["*"]
  | NoModels => ["__none__"]
  | Models models => ordered_ids models
  end.

(** ** Policies *)

Inductive AccessMode := Inherit | Group | Deny.

#[export] Instance AccessMode_eq_dec : EqDecision AccessMode.
Proof. solve_decision. Defined.

Definition mode_as_str (mode : AccessMode) : string :=
  match mode with Inherit => "inherit" | Group => "group" | Deny => "deny" end.

Record ModelAccessSelection := {
  sl_mode : AccessMode;
  sl_group_id : option string
}.

Definition ModelAccessSelection_default : ModelAccessSelection :=
  {| sl_mode := Inherit; sl_group_id := None |}.

Inductive SelectionError := GroupIdMismatch.

Definition selection_validate (self : ModelAccessSelection) : result unit SelectionError :=
  match sl_mode self, sl_group_id self with
  | Group, Some id => if str_is_empty (trim id) then Err GroupIdMismatch else Ok tt
  | Inherit, None | Deny, None => Ok tt
  | _, _ => Err GroupIdMismatch
  end.

Definition from_group_id (id : string) : ModelAccessSelection :=
  if String.eqb id "deny-all" then {| sl_mode := Deny; sl_group_id := None |}
  else {| sl_mode := Group; sl_group_id := Some id |}.

Definition stored_group_id (self : ModelAccessSelection) : string :=
  default "deny-all" (sl_group_id self).

Record AccessPolicy := {
  ap_downstream_id : string;
  ap_subject_kind : string;
  ap_owner_user_id : option string;
  ap_mode : AccessMode;
  ap_model_group_id : string;
  ap_revision : Z
}.

Definition policy_selection (self : AccessPolicy) : ModelAccessSelection :=
  {| sl_mode := ap_mode self;
     sl_group_id := if bool_decide (ap_mode self = Group) then Some (ap_model_group_id self) else None |}.

(** The row of a policy, as [policy_from_row] reads it. *)
Record PolicyRow := {
  pw_downstream_id : string;
  pw_subject_kind : string;
  pw_owner_user_id : option string;
  pw_mode : string;
  pw_model_group_id : string;
  pw_revision : Z
}.

Inductive StoreError :=
| InvalidMode
| MissingGroup (id : string)
| BadGroup (error : GroupError).

Definition policy_from_row (row : PolicyRow) : result AccessPolicy StoreError :=
  let? mode :=
    if String.eqb (pw_mode row) "inherit" then Ok Inherit
    else if String.eqb (pw_mode row) "group" then Ok Group
    else if String.eqb (pw_mode row) "deny" then Ok Deny
    else Err InvalidMode in
  Ok {| ap_downstream_id := pw_downstream_id row; ap_subject_kind := pw_subject_kind row;
        ap_owner_user_id := pw_owner_user_id row; ap_mode := mode;
        ap_model_group_id := pw_model_group_id row; ap_revision := pw_revision row |}.

(** What [set_selection] writes of a selection into the row of a policy. *)
Definition set_selection (row : PolicyRow) (selection : ModelAccessSelection) : PolicyRow :=
  {| row with
     pw_mode := mode_as_str (sl_mode selection);
     pw_model_group_id := stored_group_id selection;
     pw_revision := pw_revision row + 1 |}.

Definition resolve_effective_models (mode : AccessMode) (portal : bool) (owner : option AllowedModels)
    (group : AllowedModels) : AllowedModels :=
  match mode with
  | Deny => NoModels
  | _ =>
      if portal then
        match mode, owner with
        | Inherit, Some ceiling => ceiling
        | Group, Some ceiling => allowed_intersection ceiling group
        | _, _ => NoModels
        end
      else match mode with Group => group | _ => NoModels end
  end.

(** ** The resolution of a key *)

Definition resolve_group (groups : gmap string (list string)) (id : string) (catalog : ModelCatalog)
    : result AllowedModels StoreError :=
  let? models := ok_or (groups !! id) (MissingGroup id) in
  match from_group models catalog with Ok allowed => Ok allowed | Err error => Err (BadGroup error) end.

(** The union of the groups of a user. *)
Fixpoint resolve_ceiling (groups : gmap string (list string)) (ids : list string)
    (catalog : ModelCatalog) (ceiling : AllowedModels) : result AllowedModels StoreError :=
  match ids with
  | [] => Ok ceiling
  | id :: ids =>
      let? group := resolve_group groups id catalog in
      resolve_ceiling groups ids catalog (allowed_union ceiling group)
  end.

(** [sort] and [dedup]. *)
Fixpoint dedup_sorted (l : list string) : list string :=
  match l with
  | x :: ((y :: _) as rest) => if String.eqb x y then dedup_sorted rest else x :: dedup_sorted rest
  | _ => l
  end.

Definition sorted_ids (ids : list string) : list string :=
  dedup_sorted (sort_by (not_above String.ltb) ids).

(** What the store joins to a policy: the owner's account, how many users the key is
    bound to, whether the owner is one of them, and the groups granted to the owner,
    the basic group first. *)
Record KeyRow := {
  ky_policy : PolicyRow;
  ky_disabled : option bool;
  ky_bindings : Z;
  ky_bound : bool;
  ky_granted : list string
}.

Inductive AccessReason :=
| OwnershipConflict
| UserDisabled
| OwnerMissing
| KeyDenied
| NoAuthorizedModels.

Record ResolvedModelAccess := {
  rm_policy : option AccessPolicy;
  rm_allowed : AllowedModels;
  rm_user_group_ids : list string;
  rm_reason : option AccessReason
}.

Definition owner_valid (policy : AccessPolicy) (row : KeyRow) : bool :=
  String.eqb (ap_subject_kind policy) "portal" && bool_decide (ky_disabled row = Some false)
  && (ky_bindings row =? 1) && ky_bound row.

Definition user_groups (policy : AccessPolicy) (row : KeyRow) : list string :=
  match ap_owner_user_id policy with
  | Some _ => sorted_ids ("basic" :: ky_granted row)
  | None => []
  end.

Definition access_reason (policy : AccessPolicy) (row : KeyRow) (allowed : AllowedModels)
    : option AccessReason :=
  let portal := String.eqb (ap_subject_kind policy) "portal" in
  if portal && (1 <? ky_bindings row) then Some OwnershipConflict
  else if portal && bool_decide (ky_disabled row = Some true) then Some UserDisabled
  else if portal && negb (owner_valid policy row) then Some OwnerMissing
  else if bool_decide (ap_mode policy = Deny) then Some KeyDenied
  else if bool_decide (allowed = NoModels) then Some NoAuthorizedModels
  else None.

Definition resolve_key_row (groups : gmap string (list string)) (catalog : ModelCatalog) (row : KeyRow)
    : result ResolvedModelAccess StoreError :=
  let? policy := policy_from_row (ky_policy row) in
  let portal := String.eqb (ap_subject_kind policy) "portal" in
  let ids := user_groups policy row in
  let? ceiling :=
    if owner_valid policy row then resolve_ceiling groups ids catalog NoModels else Ok NoModels in
  let? group :=
    if bool_decide (ap_mode policy = Group) then resolve_group groups (ap_model_group_id policy) catalog
    else Ok NoModels in
  let allowed :=
    resolve_effective_models (ap_mode policy) portal
      (if owner_valid policy row then Some ceiling else None) group in
  Ok {| rm_policy := Some policy; rm_allowed := allowed; rm_user_group_ids := ids;
        rm_reason := access_reason policy row allowed |}.

(** What the routes of a request check: the projection, by name. *)
Definition key_allows (catalog : ModelCatalog) (access : ResolvedModelAccess) (name : string)
    : option bool :=
  allows_legacy catalog (legacy_projection (rm_allowed access)) name.

#[local] Opaque trim canonical_model_id codex_subagent_base_model.

(** ** The lattice of what is allowed *)

(** A set is never empty: nothing is [NoModels]. *)
Definition allowed_wf (self : AllowedModels) : Prop :=
  match self with Models ids => ids <> ∅ | _ => True end.

Lemma allows_union a b id : allows (allowed_union a b) id = allows a id || allows b id.
Proof.
  destruct a as [| |s], b as [| |t]; simpl; rewrite ?orb_true_r, ?orb_false_r; try done.
  rewrite <- bool_decide_or. apply bool_decide_ext. set_solver.
Qed.

Lemma allows_intersection a b id : allows (allowed_intersection a b) id = allows a id && allows b id.
Proof.
  destruct a as [| |s], b as [| |t]; simpl; rewrite ?andb_true_r, ?andb_false_r; try done.
  rewrite <- bool_decide_and. case_bool_decide as He; simpl.
  - symmetry. apply bool_decide_eq_false. intros [Hs Ht].
    assert (id ∈ s ∩ t) as Hin by set_solver. rewrite He in Hin. by apply elem_of_empty in Hin.
  - apply bool_decide_ext. set_solver.
Qed.

Lemma union_wf a b : allowed_wf a -> allowed_wf b -> allowed_wf (allowed_union a b).
Proof. destruct a, b; simpl; try done. set_solver. Qed.

Lemma intersection_wf a b : allowed_wf a -> allowed_wf b -> allowed_wf (allowed_intersection a b).
Proof. destruct a, b; simpl; try done. intros _ _. by case_bool_decide. Qed.

(** What is allowed determines the value. *)
Lemma allows_inj a b :
  allowed_wf a -> allowed_wf b -> (forall id, allows a id = allows b id) -> a = b.
Proof.
  assert (forall s : gset string, exists id, bool_decide (id ∈ s) = false) as Hfresh
    by (intros s; exists (fresh s); apply bool_decide_eq_false, is_fresh).
  assert (forall s : gset string, s <> ∅ -> exists id, bool_decide (id ∈ s) = true) as Hsome
    by (intros s [id Hid]%set_choose_L; exists id; by apply bool_decide_eq_true).
  destruct a as [| |s], b as [| |t]; simpl; intros Ha Hb Heq; try done.
  - by specialize (Heq "").
  - destruct (Hfresh t) as [id Hid]. specialize (Heq id). congruence.
  - by specialize (Heq "").
  - destruct (Hsome t Hb) as [id Hid]. specialize (Heq id). congruence.
  - destruct (Hfresh s) as [id Hid]. specialize (Heq id). congruence.
  - destruct (Hsome s Ha) as [id Hid]. specialize (Heq id). congruence.
  - f_equal. apply set_eq. intros id. specialize (Heq id). destruct (bool_decide_reflect (id ∈ s)), (bool_decide_reflect (id ∈ t)); naive_solver.
Qed.

(** Laws of the operations follow from those of the booleans. *)
Ltac by_allows :=
  intros; apply allows_inj; auto using union_wf, intersection_wf;
  intros id; rewrite ?allows_union, ?allows_intersection, ?allows_union, ?allows_intersection;
  repeat match goal with |- context [allows ?a id] => destruct (allows a id) end; reflexivity.

(** What may be allowed is a distributive lattice, with everything on top and
    nothing at the bottom: union and intersection allow what either and what both
    allow, keep the values well formed (never an empty set, which the older readers
    would take for no restriction), and obey the laws, absorption and distribution
    included. *)
Theorem allowed_lattice a b c :
  allowed_wf a -> allowed_wf b -> allowed_wf c ->
  (forall id, allows (allowed_union a b) id = allows a id || allows b id) /\
  (forall id, allows (allowed_intersection a b) id = allows a id && allows b id) /\
  allowed_wf (allowed_union a b) /\ allowed_wf (allowed_intersection a b) /\
  allowed_union a b = allowed_union b a /\ allowed_intersection a b = allowed_intersection b a /\
  allowed_union a (allowed_union b c) = allowed_union (allowed_union a b) c /\
  allowed_intersection a (allowed_intersection b c) = allowed_intersection (allowed_intersection a b) c /\
  allowed_union a (allowed_intersection a b) = a /\ allowed_intersection a (allowed_union a b) = a /\
  allowed_intersection a (allowed_union b c) =
    allowed_union (allowed_intersection a b) (allowed_intersection a c) /\
  allowed_union NoModels a = a /\ allowed_intersection AllModels a = a.
Proof.
  intros. split_and!; try (by_allows); auto using allows_union, allows_intersection, union_wf, intersection_wf.
  all: by destruct a.
Qed.

(** ** Groups *)

(** No alias stands for a name with a meaning of its own in the lists. *)
Definition aliases_plain (registry : ModelAliasRegistry) : Prop :=
  forall model c, resolve_alias registry model = Some c ->
    canonical_model_id c <> "*" /\ canonical_model_id c <> "__none__".

Record catalog_ok (catalog : ModelCatalog) : Prop := {
  ok_ca_accepted : aliases_accepted (ca_aliases catalog);
  ok_ca_plain : aliases_plain (ca_aliases catalog)
}.

(** An identity of the catalogue that is an ordinary name. *)
Record id_ok (catalog : ModelCatalog) (id : ModelId) : Prop := {
  ok_id_fixed : resolve_group_model_id catalog id = id;
  ok_id_trim : trim id = id;
  ok_id_some : id <> "";
  ok_id_star : id <> "*";
  ok_id_none : id <> "__none__"
}.

Definition allowed_ok (catalog : ModelCatalog) (self : AllowedModels) : Prop :=
  allowed_wf self /\ match self with Models ids => forall id, id ∈ ids -> id_ok catalog id | _ => True end.

Lemma lower_star c : lower_byte c = star -> c = star.
Proof.
  assert (forallb (fun c => negb (Ascii.eqb (lower_byte c) star) || Ascii.eqb c star) all_bytes = true) as Hall
    by (vm_compute; reflexivity).
  rewrite forallb_forall in Hall. specialize (Hall c (proj1 (list_elem_of_In _ _) (all_bytes_complete c))).
  intros Hc. apply orb_true_iff in Hall as [Hall|Hall%Ascii.eqb_eq]; [|done].
  by rewrite Hc in Hall.
Qed.

Lemma canonical_star name : canonical_model_id name = "*" -> trim name = "*".
Proof.
  Transparent canonical_model_id. unfold canonical_model_id, to_ascii_lowercase. intros H.
  apply (f_equal bytes) in H. rewrite bytes_text in H. apply bytes_inj.
  destruct (bytes (trim name)) as [|c [|c' l]]; try done. injection H as Hc.
  apply lower_star in Hc. by subst c.
Qed.
#[local] Opaque canonical_model_id.

(** A name of a group that is not the sentinel in another case. *)
Definition name_plain (name : string) : Prop :=
  canonical_model_id name = "__none__" -> trim name = "__none__".

Lemma group_id_ok catalog name :
  catalog_ok catalog -> name_plain name ->
  trim name <> "" -> trim name <> "*" -> trim name <> "__none__" ->
  id_ok catalog (resolve_group_model_id catalog name).
Proof.
  intros [Hacc Hplain] Hname Hne Hstar Hnone.
  assert (canonical_model_id name <> "" /\ canonical_model_id name <> "*" /\ canonical_model_id name <> "__none__")
    as (H1 & H2 & H3).
  { split_and!; [by rewrite canonical_empty|by intros ?%canonical_star|naive_solver]. }
  assert (resolve_group_model_id catalog name <> "" /\ resolve_group_model_id catalog name <> "*" /\
    resolve_group_model_id catalog name <> "__none__") as (H1' & H2' & H3').
  { unfold resolve_group_model_id. rewrite canonical_trim. case_bool_decide; [done|].
    destruct (resolve_alias (ca_aliases catalog) (trim name)) as [c|] eqn:Hc; simpl; [|by rewrite canonical_trim].
    destruct (Hplain _ _ Hc). by destruct (resolved_is_final _ _ _ Hacc Hc). }
  split; [by apply resolve_group_fixed|apply resolve_group_trimmed|done..].
Qed.

Lemma from_group_ok catalog models allowed :
  catalog_ok catalog -> Forall name_plain models -> from_group models catalog = Ok allowed ->
  allowed_ok catalog allowed.
Proof.
  intros Hc Hplain. unfold from_group. rewrite Forall_forall in Hplain.
  destruct (is_empty models || _) eqn:Hblank; [done|]. apply orb_false_iff in Hblank as [Hne Hblank].
  destruct (existsb (fun name => String.eqb (trim name) "__none__") models) eqn:Hnone;
    [destruct (_ =? _)%nat; [intros [= <-]|]; done|].
  destruct (existsb (fun name => String.eqb (trim name) "*") models) eqn:Hstar; intros [= <-]; [done|].
  rewrite <- not_true_iff_false, existsb_elem in Hblank, Hnone, Hstar. split; simpl.
  - destruct models as [|m models]; [done|]. csimpl. set_solver.
  - intros id (name & -> & Hname)%elem_of_list_to_set%list_elem_of_fmap.
    apply group_id_ok; [done|by apply Hplain| | |].
    + intros He. apply Hblank. exists name. by rewrite He.
    + intros He. apply Hstar. exists name. by rewrite He.
    + intros He. apply Hnone. exists name. by rewrite He.
Qed.

Lemma union_ok catalog a b : allowed_ok catalog a -> allowed_ok catalog b -> allowed_ok catalog (allowed_union a b).
Proof.
  intros [Ha Ha'] [Hb Hb']. split; [by apply union_wf|]. destruct a, b; simpl in *; try done.
  intros id [?|?]%elem_of_union; auto.
Qed.

Lemma intersection_ok catalog a b :
  allowed_ok catalog a -> allowed_ok catalog b -> allowed_ok catalog (allowed_intersection a b).
Proof.
  intros [Ha Ha'] [Hb Hb']. split; [by apply intersection_wf|]. destruct a, b; simpl in *; try done.
  case_bool_decide; [done|]. intros id [? _]%elem_of_intersection. auto.
Qed.

(** ** The older lists *)

Lemma ordered_ids_elem ids id : id ∈ ordered_ids ids <-> id ∈ ids.
Proof. unfold ordered_ids. rewrite sort_by_perm. apply elem_of_elements. Qed.

Lemma projection_not_empty catalog self : allowed_ok catalog self -> is_empty (legacy_projection self) = false.
Proof.
  intros [Hwf _]. destruct self as [| |ids]; simpl; [done..|].
  apply set_choose_L in Hwf as [id Hid]. apply elem_not_empty with id. by apply ordered_ids_elem.
Qed.

Lemma existsb_ids_false catalog ids (f : string -> bool) :
  (forall id, id ∈ ids -> id_ok catalog id) -> (forall id, id_ok catalog id -> f id = false) ->
  existsb f (ordered_ids ids) = false.
Proof.
  intros Hids Hf. apply not_true_iff_false. rewrite existsb_elem.
  intros (id & Hid%ordered_ids_elem%Hids & Ht). by rewrite (Hf id Hid) in Ht.
Qed.

Lemma id_not_special catalog id s :
  id_ok catalog id -> s ∈ [""; "*"; "__none__"] -> String.eqb (trim id) s = false.
Proof.
  intros [_ Ht H1 H2 H3] Hs. rewrite Ht. apply String.eqb_neq.
  repeat (apply elem_of_cons in Hs as [->|Hs]; [done|]). by apply elem_of_nil in Hs.
Qed.

(** The older lists say the same. Projecting what is allowed to a list of names and
    reading the list back allows exactly the same identities: everything allows every
    name, and otherwise a name is allowed exactly when it is identified with something
    and that is allowed. *)
Lemma projection_read_back catalog self name :
  allowed_ok catalog self ->
  allows_legacy catalog (legacy_projection self) name =
    match self with
    | AllModels => Some true
    | _ => id ← resolve_public_model_id catalog name; Some (negb (str_is_empty id) && allows self id)
    end.
Proof.
  intros Hok. unfold allows_legacy. rewrite (projection_not_empty catalog) by done.
  destruct Hok as [Hwf Hids]. destruct self as [| |ids]; simpl; [done| |].
  - replace (String.eqb (trim "__none__") "*") with false by (vm_compute; reflexivity). simpl.
    destruct (resolve_public_model_id catalog name) as [requested|]; [|done]. simpl.
    replace (legacy_match catalog requested "__none__") with false; [by rewrite !andb_false_r|].
    unfold legacy_match. by replace (trim "__none__") with "__none__" by (vm_compute; reflexivity).
  - rewrite (existsb_ids_false catalog) by (done || (intros; apply (id_not_special catalog); set_solver)).
    destruct (resolve_public_model_id catalog name) as [requested|]; [|done]. simpl. do 2 f_equal.
    apply eq_bool_prop_intro. rewrite !Is_true_true, existsb_elem, bool_decide_eq_true. unfold legacy_match. split.
    + intros (id & Hid%ordered_ids_elem & Hm). destruct (Hids id Hid) as [Hf Ht _ _ _].
      rewrite Ht, Hf in Hm. by repeat (apply andb_true_iff in Hm as [Hm ->%String.eqb_eq]).
    + intros Hid. exists requested. split; [by apply ordered_ids_elem|]. pose proof (Hids _ Hid) as Hi.
      unfold str_is_empty. rewrite !(id_not_special catalog) by (done || set_solver).
      destruct Hi as [Hf Ht _ _ _]. by rewrite Ht, Hf, String.eqb_refl.
Qed.

(** A round trip: what is allowed is read back from its own projection. *)
Theorem legacy_projection_roundtrip catalog self :
  allowed_ok catalog self -> from_legacy (legacy_projection self) catalog = self.
Proof.
  intros Hok. unfold from_legacy. rewrite (projection_not_empty catalog) by done.
  destruct self as [| |ids]; [done..|]. unfold from_group.
  rewrite (projection_not_empty catalog (Models ids)) by done. destruct Hok as [Hwf Hids]. simpl in *.
  rewrite !(existsb_ids_false catalog) by
    (done || (intros; unfold str_is_empty; apply (id_not_special catalog); set_solver)).
  simpl. f_equal. apply set_eq. intros id. rewrite elem_of_list_to_set, list_elem_of_fmap. split.
  - intros (i & -> & Hi%ordered_ids_elem). by rewrite (ok_id_fixed _ _ (Hids i Hi)).
  - intros Hid. exists id. rewrite (ok_id_fixed _ _ (Hids id Hid)). split; [done|]. by apply ordered_ids_elem.
Qed.

(** ** Facts: the resolution of a key *)

Lemma dedup_sorted_elem l x : x ∈ dedup_sorted l <-> x ∈ l.
Proof.
  induction l as [|y [|z l] IH]; [done..|]. change (dedup_sorted (y :: z :: l)) with
    (if String.eqb y z then dedup_sorted (z :: l) else y :: dedup_sorted (z :: l)).
  destruct (String.eqb_spec y z) as [->|Hne]; rewrite ?elem_of_cons, IH, ?elem_of_cons; tauto.
Qed.

Lemma sorted_ids_elem ids x : x ∈ sorted_ids ids <-> x ∈ ids.
Proof. unfold sorted_ids. by rewrite dedup_sorted_elem, sort_by_perm. Qed.

(** A group lets an identity through. *)
Definition group_allows (groups : gmap string (list string)) (catalog : ModelCatalog) (group id : string)
    : Prop :=
  exists allowed, resolve_group groups group catalog = Ok allowed /\ allows allowed id = true.

Lemma from_group_wf catalog models allowed : from_group models catalog = Ok allowed -> allowed_wf allowed.
Proof.
  unfold from_group. destruct models as [|m models]; [done|]. simpl.
  repeat case_match; intros; simplify_eq/=; try done. set_solver.
Qed.

Lemma resolve_group_wf groups catalog id allowed :
  resolve_group groups id catalog = Ok allowed -> allowed_wf allowed.
Proof.
  unfold resolve_group. destruct (groups !! id); simpl; [|done].
  destruct (from_group _ _) eqn:Hg; [|done]. intros [= <-]. by eapply from_group_wf.
Qed.

Lemma resolve_ceiling_spec groups catalog ids : forall ceiling result,
  resolve_ceiling groups ids catalog ceiling = Ok result ->
  (forall id, allows result id = true <->
     allows ceiling id = true \/ exists g, g ∈ ids /\ group_allows groups catalog g id) /\
  (allowed_wf ceiling -> allowed_wf result).
Proof.
  induction ids as [|g ids IH]; intros ceiling result; simpl.
  { intros [= <-]. split; [|done]. intros id. split; [by left|]. by intros [?|(g & ?%elem_of_nil & _)]. }
  destruct (resolve_group groups g catalog) as [allowed|] eqn:Hg; simpl; [|done].
  intros (Hall & Hwf)%IH. split.
  - intros id. rewrite Hall, allows_union, orb_true_iff. split.
    + intros [[?|?]|(g' & ? & ?)]; [by left|right; exists g|right; exists g'].
      * split; [by left|by exists allowed].
      * split; [by right|done].
    + intros [?|(g' & [->|?]%elem_of_cons & Hga)]; [by left; left|left; right|right; by exists g'].
      destruct Hga as (a & Ha & ?). congruence.
  - intros Hc. apply Hwf, union_wf; [done|]. by eapply resolve_group_wf.
Qed.

(** The decision over what the groups let through. *)
Definition access_granted (groups : gmap string (list string)) (catalog : ModelCatalog)
    (policy : AccessPolicy) (row : KeyRow) (id : ModelId) : Prop :=
  let by_owner := owner_valid policy row = true /\
    exists g, g ∈ user_groups policy row /\ group_allows groups catalog g id in
  match ap_mode policy with
  | Deny => False
  | Inherit => by_owner
  | Group => group_allows groups catalog (ap_model_group_id policy) id /\
      (ap_subject_kind policy = "portal" -> by_owner)
  end.

Lemma owner_valid_portal policy row : owner_valid policy row = true -> ap_subject_kind policy = "portal".
Proof. unfold owner_valid. intros H. repeat (apply andb_true_iff in H as [H ?]). by apply String.eqb_eq. Qed.

(** The two sides of a successful resolution. *)
Lemma resolve_key_row_inv groups catalog row access :
  resolve_key_row groups catalog row = Ok access ->
  exists policy ceiling group,
    policy_from_row (ky_policy row) = Ok policy /\
    rm_policy access = Some policy /\ rm_user_group_ids access = user_groups policy row /\
    allowed_wf ceiling /\ allowed_wf group /\
    (forall id, owner_valid policy row = true -> allows ceiling id = true <->
       exists g, g ∈ user_groups policy row /\ group_allows groups catalog g id) /\
    (forall id, ap_mode policy = Group -> allows group id = true <->
       group_allows groups catalog (ap_model_group_id policy) id) /\
    rm_allowed access = resolve_effective_models (ap_mode policy)
      (String.eqb (ap_subject_kind policy) "portal")
      (if owner_valid policy row then Some ceiling else None) group /\
    rm_reason access = access_reason policy row (rm_allowed access).
Proof.
  unfold resolve_key_row. destruct (policy_from_row (ky_policy row)) as [policy|]; simpl; [|done].
  set (rc := if owner_valid policy row then _ else _).
  assert (forall ceiling, rc = Ok ceiling -> allowed_wf ceiling /\
    forall id, owner_valid policy row = true -> allows ceiling id = true <->
      exists g, g ∈ user_groups policy row /\ group_allows groups catalog g id) as Hceiling.
  { intros ceiling Hc. subst rc. destruct (owner_valid policy row); [|injection Hc as <-; done].
    apply resolve_ceiling_spec in Hc as [Hall Hwf]. split; [by apply Hwf|]. intros id _. rewrite Hall. simpl.
    naive_solver. }
  destruct rc as [ceiling|]; simpl; [|done]. destruct (Hceiling ceiling eq_refl) as [Hcwf Hcall].
  set (rg := if bool_decide (ap_mode policy = Group) then _ else _).
  assert (forall group, rg = Ok group -> allowed_wf group /\
    forall id, ap_mode policy = Group -> allows group id = true <->
      group_allows groups catalog (ap_model_group_id policy) id) as Hgroup.
  { intros group Hg. subst rg. case_bool_decide as Hm; [|injection Hg as <-; done].
    split; [by eapply resolve_group_wf|]. intros id _. unfold group_allows. rewrite Hg. naive_solver. }
  destruct rg as [group|]; simpl; [|done]. destruct (Hgroup group eq_refl) as [Hgwf Hgall].
  intros [= <-]. exists policy, ceiling, group. simpl. split_and!; done.
Qed.

Lemma resolve_key_row_allows groups catalog row access policy :
  resolve_key_row groups catalog row = Ok access -> policy_from_row (ky_policy row) = Ok policy ->
  forall id, allows (rm_allowed access) id = true <-> access_granted groups catalog policy row id.
Proof.
  intros (p & ceiling & group & Hp & _ & _ & _ & _ & Hcall & Hgall & Hallowed & _)%resolve_key_row_inv Hpol.
  rewrite Hpol in Hp. injection Hp as <-. rewrite Hallowed.
  intros id. unfold access_granted, resolve_effective_models.
    destruct (ap_mode policy) eqn:Hm; [| |done]; destruct (String.eqb_spec (ap_subject_kind policy) "portal") as [Hk|Hk];
    destruct (owner_valid policy row) eqn:Hv; try (by apply owner_valid_portal in Hv); simpl.
  - rewrite Hcall by done. naive_solver.
  - naive_solver.
  - naive_solver.
  - rewrite allows_intersection, andb_true_iff, Hcall, Hgall by done. naive_solver.
  - naive_solver.
  - rewrite Hgall by done. naive_solver.
Qed.

(** Who may use what. A denied key may use nothing. A portal key may use only what
    a group of its owner lets through, while the owner's account is enabled and the
    key is bound to the owner and to nobody else; with a group of its own it may use
    the part of that which this group lets through too, so it never exceeds the
    owner. Any other key may use what its group lets through, and nothing without
    one. A reason is given exactly when nothing is allowed. *)
Theorem key_access_decided groups catalog row access :
  resolve_key_row groups catalog row = Ok access ->
  exists policy, policy_from_row (ky_policy row) = Ok policy /\ rm_policy access = Some policy /\
    allowed_wf (rm_allowed access) /\
    (forall id, allows (rm_allowed access) id = true <-> access_granted groups catalog policy row id) /\
    (rm_reason access = None <-> rm_allowed access <> NoModels).
Proof.
  intros Hres. destruct (resolve_key_row_inv _ _ _ _ Hres)
    as (policy & ceiling & group & Hp & Hrp & _ & Hcwf & Hgwf & _ & _ & Hallowed & Hreason).
  exists policy. split_and!; [done..| | |]; rewrite Hallowed.
  - unfold resolve_effective_models. destruct (ap_mode policy); [| |done]; repeat case_match; simplify_eq; try done.
    by apply intersection_wf.
  - intros id. rewrite <- Hallowed. by eapply resolve_key_row_allows.
  - rewrite Hreason, Hallowed. unfold access_reason, resolve_effective_models.
    set (portal := String.eqb (ap_subject_kind policy) "portal").
    assert (owner_valid policy row = true -> ky_bindings row = 1 /\ ky_disabled row = Some false /\ portal = true) as Hv.
    { unfold owner_valid. intros [[[? ?%bool_decide_eq_true]%andb_true_iff ?%Z.eqb_eq]%andb_true_iff _]%andb_true_iff.
      done. }
    destruct (owner_valid policy row).
    + destruct Hv as (-> & -> & ->); [done|]. simpl.
      destruct (ap_mode policy); simpl; repeat case_bool_decide; naive_solver.
    + destruct portal; simpl; [|destruct (ap_mode policy); simpl; repeat case_bool_decide; naive_solver].
      destruct (1 <? ky_bindings row), (bool_decide (ky_disabled row = Some true)), (ap_mode policy); naive_solver.
Qed.

(** The identities that a key is allowed are ordinary names. *)
Lemma resolve_key_row_ok groups catalog row access :
  catalog_ok catalog ->
  (forall g models, groups !! g = Some models -> Forall name_plain models) ->
  resolve_key_row groups catalog row = Ok access -> allowed_ok catalog (rm_allowed access).
Proof.
  intros Hcat Hplain.
  assert (forall g a, resolve_group groups g catalog = Ok a -> allowed_ok catalog a) as Hg.
  { intros g a. unfold resolve_group. destruct (groups !! g) as [models|] eqn:Hm; simpl; [|done].
    destruct (from_group models catalog) eqn:Hf; [|done]. intros [= <-].
    apply (from_group_ok catalog models); [done|by eapply Hplain|done]. }
  assert (forall ids c r, allowed_ok catalog c -> resolve_ceiling groups ids catalog c = Ok r -> allowed_ok catalog r)
    as Hc.
  { induction ids as [|g ids IH]; intros c r Hcok; simpl; [by intros [= <-]|].
    destruct (resolve_group groups g catalog) eqn:Hgr; simpl; [|done]. apply IH, union_ok; eauto. }
  unfold resolve_key_row. destruct (policy_from_row (ky_policy row)) as [policy|]; simpl; [|done].
  destruct (if owner_valid policy row then _ else _) as [c|] eqn:Hceil; simpl; [|done].
  destruct (if bool_decide _ then _ else _) as [g|] eqn:Hgroup; simpl; [|done]. intros [= <-]. simpl.
  assert (allowed_ok catalog NoModels) as Hno by done.
  assert (allowed_ok catalog c) by (destruct (owner_valid policy row); [by eapply Hc|by injection Hceil as <-]).
  assert (allowed_ok catalog g) by (case_bool_decide; [by eapply Hg|by injection Hgroup as <-]).
  unfold resolve_effective_models. repeat case_match; simplify_eq; auto using intersection_ok.
Qed.

Lemma key_allows_spec catalog access name id :
  allowed_ok catalog (rm_allowed access) ->
  resolve_public_model_id catalog name = Some id -> id <> "" ->
  key_allows catalog access name = Some (allows (rm_allowed access) id).
Proof.
  intros Hok Hid Hne. unfold key_allows. rewrite projection_read_back by done. rewrite Hid. simpl.
  rewrite (proj2 (str_is_empty_false _) Hne). by destruct (rm_allowed access).
Qed.

(** C25. In a catalogue in which no alias stands for one of the reserved names, and with
    groups that do not spell the sentinel in capitals, what a request is checked against is
    that decision: for a name that stands for an identity of the catalogue, the check of
    the projected list succeeds exactly when the policy grants the identity. (An alias of
    the wildcard does open the list of a group: [wildcard_alias_opens_group].) *)
Theorem request_checked_by_policy groups catalog row access policy name id :
  catalog_ok catalog ->
  (forall g models, groups !! g = Some models -> Forall name_plain models) ->
  resolve_key_row groups catalog row = Ok access ->
  policy_from_row (ky_policy row) = Ok policy ->
  resolve_public_model_id catalog name = Some id -> id <> "" ->
  exists verdict, key_allows catalog access name = Some verdict /\
    (verdict = true <-> access_granted groups catalog policy row id).
Proof.
  intros Hcat Hplain Hres Hp Hid Hne.
  exists (allows (rm_allowed access) id). split; [|by eapply resolve_key_row_allows].
  apply key_allows_spec; [|done..]. by eapply resolve_key_row_ok.
Qed.

(** ** Selections *)

(** Round trips of a selection. A valid selection that is written into the row of a
    policy is read back as it was, with a newer revision; a group identifier is
    recovered from the selection it gives; and a selection, unless it inherits or
    names the denying group as an ordinary one, from its stored identifier. *)
Theorem selection_roundtrip row selection :
  selection_validate selection = Ok tt ->
  (exists policy, policy_from_row (set_selection row selection) = Ok policy /\
     policy_selection policy = selection /\ ap_revision policy = pw_revision row + 1 /\
     ap_downstream_id policy = pw_downstream_id row /\ ap_owner_user_id policy = pw_owner_user_id row) /\
  (forall id, stored_group_id (from_group_id id) = id) /\
  (sl_mode selection <> Inherit -> sl_group_id selection <> Some "deny-all" ->
     from_group_id (stored_group_id selection) = selection).
Proof.
  intros Hvalid. destruct selection as [mode group]. split_and!.
  - unfold selection_validate in Hvalid. simpl in Hvalid.
    destruct mode, group as [id|]; try done; eexists; (split; [reflexivity|]); by split_and!.
  - intros id. unfold from_group_id. by destruct (String.eqb_spec id "deny-all") as [->|].
  - simpl. intros Hm Hg. unfold from_group_id, stored_group_id. simpl. destruct mode, group as [id|]; try done.
    simpl. destruct (String.eqb_spec id "deny-all") as [->|]; done.
Qed.

Lemma selection_roundtrip_witness :
  exists policy,
    policy_from_row (set_selection
      {| pw_downstream_id := "d"; pw_subject_kind := "portal"; pw_owner_user_id := Some "u";
         pw_mode := "deny"; pw_model_group_id := "deny-all"; pw_revision := 7 |}
      {| sl_mode := Group; sl_group_id := Some "staff" |}) = Ok policy /\
    policy_selection policy = {| sl_mode := Group; sl_group_id := Some "staff" |} /\
    ap_revision policy = 8.
Proof.
  destruct (selection_roundtrip
    {| pw_downstream_id := "d"; pw_subject_kind := "portal"; pw_owner_user_id := Some "u";
       pw_mode := "deny"; pw_model_group_id := "deny-all"; pw_revision := 7 |}
    {| sl_mode := Group; sl_group_id := Some "staff" |}) as [(policy & Hp & Hs & Hr & _) _];
    [vm_compute; reflexivity|].
  exists policy. split; [exact Hp|]. split; [exact Hs|]. exact Hr.
Defined.

(** ** A wildcard among the aliases *)

Definition wildcard_rule : ModelAliasRule := {| ar_canonical := "*"; ar_aliases := ["house"] |}.

Definition wildcard_catalog : ModelCatalog :=
  {| sample_catalog with ca_explicit_labels := ∅;
     ca_aliases := match from_rules [wildcard_rule] with
                   | Ok registry => registry
                   | Err _ => {| mr_rules := []; mr_alias_to_canonical := ∅ |}
                   end |}.

(** An alias rule whose canonical name is the wildcard is accepted, and opens every
    group that names one of its aliases: the group lets only that identity through,
    but its projection is the list that allows everything. *)
Theorem wildcard_alias_opens_group name :
  is_ok (from_rules [wildcard_rule]) = true /\
  exists allowed, from_group ["house"] wildcard_catalog = Ok allowed /\
    allows allowed "gpt-5" = false /\
    allows_legacy wildcard_catalog (legacy_projection allowed) name = Some true.
Proof.
  split; [vm_compute; reflexivity|]. exists (Models {["*"]}).
  assert (resolve_group_model_id wildcard_catalog "house" = "*") as Hid by (vm_compute; reflexivity).
  split_and!.
  - unfold from_group. simpl.
    replace (trim "house") with "house" by (vm_compute; reflexivity). cbn -[resolve_group_model_id list_to_set]. rewrite Hid.
    do 2 f_equal.
  - apply bool_decide_eq_false, not_elem_of_singleton. discriminate.
  - unfold allows_legacy. simpl. replace (ordered_ids {["*"]}) with ["*"] by (vm_compute; reflexivity).
    simpl. by replace (trim "*") with "*" by (vm_compute; reflexivity).
Qed.

(** ** Witnesses *)

Definition plain_catalog : ModelCatalog :=
  {| sample_catalog with ca_aliases := {| mr_rules := []; mr_alias_to_canonical := ∅ |} |}.

Lemma plain_catalog_ok : catalog_ok plain_catalog.
Proof.
  split.
  - exists []. vm_compute. reflexivity.
  - intros model c. unfold resolve_alias. simpl. rewrite lookup_empty. by destruct (str_is_empty _).
Qed.

Definition sample_groups : gmap string (list string) :=
  <["basic" := ["House"]]> (<["staff" := ["house"; "gpt-5"]]> ∅).

Lemma sample_groups_plain g models : sample_groups !! g = Some models -> Forall name_plain models.
Proof.
  unfold sample_groups. rewrite !lookup_insert_Some, lookup_empty.
  assert (forall s, canonical_model_id s <> "__none__" -> name_plain s) as Hp by (unfold name_plain; naive_solver).
  intros [[_ <-]|[_ [[_ <-]|[_ ?]]]]; [| |done]; repeat constructor; apply Hp; vm_compute; discriminate.
Qed.

(** A portal key whose own group is wider than its owner's. *)
Definition sample_key : KeyRow :=
  {| ky_policy := {| pw_downstream_id := "d"; pw_subject_kind := "portal"; pw_owner_user_id := Some "u";
                     pw_mode := "group"; pw_model_group_id := "staff"; pw_revision := 1 |};
     ky_disabled := Some false; ky_bindings := 1; ky_bound := true; ky_granted := [] |}.

Definition sample_access : ResolvedModelAccess :=
  {| rm_policy := Some {| ap_downstream_id := "d"; ap_subject_kind := "portal"; ap_owner_user_id := Some "u";
                          ap_mode := Group; ap_model_group_id := "staff"; ap_revision := 1 |};
     rm_allowed := Models {["house"]}; rm_user_group_ids := ["basic"]; rm_reason := None |}.

Lemma sample_key_resolved : resolve_key_row sample_groups plain_catalog sample_key = Ok sample_access.
Proof. vm_compute. reflexivity. Qed.

Lemma allowed_lattice_witness :
  allowed_union (Models {["a"]}) (allowed_intersection (Models {["a"]}) AllModels) = Models {["a"]}.
Proof.
  apply (allowed_lattice (Models {["a"]}) AllModels NoModels); simpl;
    [apply non_empty_singleton_L|exact I|exact I].
Defined.

Lemma key_access_decided_witness :
  allows (rm_allowed sample_access) "gpt-5" = false /\ allowed_wf (rm_allowed sample_access).
Proof.
  destruct (key_access_decided _ _ _ _ sample_key_resolved) as (policy & _ & _ & Hwf & _ & _).
  split; [vm_compute; reflexivity|exact Hwf].
Defined.

Lemma request_checked_by_policy_witness :
  exists verdict, key_allows plain_catalog sample_access "HOUSE" = Some verdict /\ verdict = true.
Proof.
  destruct (request_checked_by_policy sample_groups plain_catalog sample_key sample_access
    {| ap_downstream_id := "d"; ap_subject_kind := "portal"; ap_owner_user_id := Some "u";
       ap_mode := Group; ap_model_group_id := "staff"; ap_revision := 1 |} "HOUSE" "house")
    as (verdict & Hv & _).
  - exact plain_catalog_ok.
  - exact sample_groups_plain.
  - exact sample_key_resolved.
  - reflexivity.
  - vm_compute. reflexivity.
  - discriminate.
  - exists verdict. split; [exact Hv|].
    assert (key_allows plain_catalog sample_access "HOUSE" = Some true) as Hk by (vm_compute; reflexivity).
    rewrite Hk in Hv. injection Hv as <-. reflexivity.
Defined.

Lemma legacy_projection_roundtrip_witness :
  from_legacy (legacy_projection (rm_allowed sample_access)) plain_catalog = Models {["house"]}.
Proof.
  apply (legacy_projection_roundtrip plain_catalog (rm_allowed sample_access)).
  apply (resolve_key_row_ok _ _ _ _ plain_catalog_ok sample_groups_plain sample_key_resolved).
Defined.
