(* ===== verification/Protocol.v ===== *)
(** * Errors of the protocol layer and text

    The errors of [src/src/protocol.rs], and the slice and string operations of the
    standard library that the decoders and adapters use. A byte string is a
    [list ascii]; a [String] is the [string] of its UTF-8 bytes ([ModelIdentity]). *)

From S2P Require Import Prelude ModelIdentity.

Local Open Scope Z_scope.

(** ** Errors *)

Inductive UpstreamStreamErrorKind :=
| Decode
| LimitExceeded
| UpstreamEvent
| Incomplete.

Inductive ProtocolError :=
| CapabilityUnsupported
| EncryptedAgentMessageUnsupported
| InvalidPayload (message : string)
| InvalidUpstreamStream (kind : UpstreamStreamErrorKind) (message : string)
| MissingField (field : string)
| UnsupportedImageSource.

#[export] Instance UpstreamStreamErrorKind_eq_dec : EqDecision UpstreamStreamErrorKind.
Proof. solve_decision. Defined.

#[export] Instance ProtocolError_eq_dec : EqDecision ProtocolError.
Proof. solve_decision. Defined.

Definition invalid_stream (kind : UpstreamStreamErrorKind) (message : string) : ProtocolError :=
  InvalidUpstreamStream kind message.

(** ** Bytes and text *)

Notation byte_string := (list Ascii.ascii).

Definition LF : Ascii.ascii := Ascii.ascii_of_N 10.
Definition CR : Ascii.ascii := Ascii.ascii_of_N 13.
Definition COLON : Ascii.ascii := Ascii.ascii_of_N 58.
Definition SPACE : Ascii.ascii := Ascii.ascii_of_N 32.

(** [slice::starts_with]. *)
Definition starts_with (l p : byte_string) : bool := is_some (strip_prefix p l).

Definition strip_suffix (p l : byte_string) : option byte_string :=
  reverse <$> strip_prefix (reverse p) (reverse l).

(** [str::split] at one character. *)
Fixpoint split_on (sep : Ascii.ascii) (l : byte_string) : list byte_string :=
  match l with
  | [] => [[]]
  | c :: l =>
      if bool_decide (c = sep) then [] :: split_on sep l
      else match split_on sep l with
           | line :: lines => (c :: line) :: lines
           | [] => [[c]]
           end
  end.

(** [str::split_once]: before and after the first occurrence. *)
Fixpoint split_once (pattern l : byte_string) : option (byte_string * byte_string) :=
  match strip_prefix pattern l with
  | Some rest => Some ([], rest)
  | None =>
      match l with
      | [] => None
      | c :: l => '(before, after) ← split_once pattern l; Some (c :: before, after)
      end
  end.

(** [slice::join]. *)
Fixpoint join_on (sep : byte_string) (lines : list byte_string) : byte_string :=
  match lines with
  | [] => []
  | [line] => line
  | line :: lines => line ++ sep ++ join_on sep lines
  end.

(** [l[from..to]]; [None] is the panic of a range that is not in the slice. *)
Definition slice (from to : nat) (l : byte_string) : option byte_string :=
  if Nat.leb from to && Nat.leb to (length l) then Some (take (to - from) (drop from l)) else None.

(** [usize::checked_add]. *)
Definition checked_add_usize (a b : Z) : option Z :=
  if a + b <=? usize_max then Some (a + b) else None.

(** ** UTF-8

    [str::from_utf8] accepts the well-formed sequences of the Unicode standard: no
    overlong forms, no surrogates, nothing above U+10FFFF. *)

Definition in_range (lo hi : Z) (c : Ascii.ascii) : bool :=
  let b := Z.of_N (Ascii.N_of_ascii c) in (lo <=? b) && (b <=? hi).

Definition continuation (c : Ascii.ascii) : bool := in_range 128 191 c.

Definition three_bytes (a b c : Ascii.ascii) : bool :=
  ((in_range 224 224 a && in_range 160 191 b) || (in_range 225 236 a && continuation b)
   || (in_range 237 237 a && in_range 128 159 b) || (in_range 238 239 a && continuation b))
  && continuation c.

Definition four_bytes (a b c d : Ascii.ascii) : bool :=
  ((in_range 240 240 a && in_range 144 191 b) || (in_range 241 243 a && continuation b)
   || (in_range 244 244 a && in_range 128 143 b))
  && continuation c && continuation d.

Fixpoint utf8_valid (l : byte_string) : bool :=
  match l with
  | [] => true
  | a :: l1 =>
      if in_range 0 127 a then utf8_valid l1
      else match l1 with
      | [] => false
      | b :: l2 =>
          if in_range 194 223 a && continuation b then utf8_valid l2
          else match l2 with
          | [] => false
          | c :: l3 =>
              if three_bytes a b c then utf8_valid l3
              else match l3 with
              | [] => false
              | d :: l4 => if four_bytes a b c d then utf8_valid l4 else false
              end
          end
      end
  end.

Example utf8_accepts : utf8_valid (code [226; 128; 168; 104; 240; 159; 146; 169]) = true.
Proof. reflexivity. Qed.

Example utf8_rejects :
  map utf8_valid [code [192; 128]; code [237; 160; 128]; code [244; 144; 128; 128]; code [226; 128]]
  = [false; false; false; false].
Proof. reflexivity. Qed.
