(* ===== verification/Json.v ===== *)
(** * JSON documents

    The documents that [src/src/protocol] and [src/src/server/gateway] read and build.
    Parsing and printing belong to serde_json and are parameters of the components
    that use them; what is here is the data type, whose constructors the source
    matches on, and the accessors it calls. A map is a list of fields; serde_json
    keeps the keys of a map in order and distinct, which [json_wf] says and every
    operation keeps. A number is an integer or a float, the float as its bits. *)

From Stdlib Require OrdersEx.
From S2P Require Import Prelude.

Local Open Scope Z_scope.

(** ** Data *)

Inductive JsonNumber :=
| Integer (z : Z)
| Float (bits : Z).

Inductive Value :=
| JNull
| JBool (b : bool)
| JNumber (n : JsonNumber)
| JString (s : string)
| JArray (values : list Value)
| JObject (fields : list (string * Value)).

Notation json_map := (list (string * Value)).

Section ValueInd.
  Variable P : Value -> Prop.
  Hypothesis Hnull : P JNull.
  Hypothesis Hbool : forall b, P (JBool b).
  Hypothesis Hnumber : forall n, P (JNumber n).
  Hypothesis Hstring : forall s, P (JString s).
  Hypothesis Harray : forall values, Forall P values -> P (JArray values).
  Hypothesis Hobject : forall fields, Forall (fun field => P field.2) fields -> P (JObject fields).

(** Induction through the lists. *)
Fixpoint Value_nested_ind (v : Value) : P v :=
  match v with
  | JNull => Hnull
  | JBool b => Hbool b
  | JNumber n => Hnumber n
  | JString s => Hstring s
  | JArray values =>
      Harray values
        ((fix go l : Forall P l :=
            match l with
            | [] => List.Forall_nil P
            | v :: l => @List.Forall_cons _ P v l (Value_nested_ind v) (go l)
            end) values)
  | JObject fields =>
      Hobject fields
        ((fix go (l : json_map) : Forall (fun field => P field.2) l :=
            match l with
            | [] => List.Forall_nil _
            | (k, v) :: l => @List.Forall_cons _ (fun field => P field.2) (k, v) l (Value_nested_ind v) (go l)
            end) fields)
  end.

End ValueInd.

(** ** Accessors *)

(** [Map::get]. *)
Fixpoint map_get (fields : json_map) (key : string) : option Value :=
  match fields with
  | [] => None
  | (k, v) :: fields => if String.eqb k key then Some v else map_get fields key
  end.

(** [Map::insert]: the keys stay in order. *)
Fixpoint map_insert (key : string) (value : Value) (fields : json_map) : json_map :=
  match fields with
  | [] => [(key, value)]
  | (k, v) :: rest =>
      if String.eqb k key then (key, value) :: rest
      else if String.ltb key k then (key, value) :: fields
      else (k, v) :: map_insert key value rest
  end.

(** [Map::remove]. *)
Definition map_remove (key : string) (fields : json_map) : json_map :=
  retain (fun field => negb (String.eqb field.1 key)) fields.

(** [entry(key).or_insert(value)]. *)
Definition or_insert (key : string) (value : Value) (fields : json_map) : json_map :=
  match map_get fields key with Some _ => fields | None => map_insert key value fields end.

(** The [json!] macro: the fields are inserted one after the other. *)
Definition json_fields (fields : json_map) : json_map :=
  fold_left (fun object field => map_insert field.1 field.2 object) fields [].

Definition json_object (fields : json_map) : Value := JObject (json_fields fields).

(** [Value::get] with a string, and the other accessors. *)
Definition get (value : Value) (key : string) : option Value :=
  match value with JObject fields => map_get fields key | _ => None end.

Definition as_str (value : Value) : option string :=
  match value with JString s => Some s | _ => None end.

Definition as_array (value : Value) : option (list Value) :=
  match value with JArray values => Some values | _ => None end.

Definition as_object (value : Value) : option json_map :=
  match value with JObject fields => Some fields | _ => None end.

(** [Value::as_u64]. *)
Definition as_u64 (value : Value) : option Z :=
  match value with
  | JNumber (Integer z) => if (0 <=? z) && (z <=? u64_max) then Some z else None
  | _ => None
  end.

Definition is_null (value : Value) : bool := match value with JNull => true | _ => false end.
Definition is_array (value : Value) : bool := is_some (as_array value).

(** The chains that the source repeats. *)
Definition get_str (value : Value) (key : string) : option string := v ← get value key; as_str v.
Definition get_array (value : Value) (key : string) : option (list Value) := v ← get value key; as_array v.

(** [get(key).filter(|v| !v.is_null())]. *)
Definition get_non_null (value : Value) (key : string) : option Value :=
  opt_filter (fun v => negb (is_null v)) (get value key).

(** ** Well-formed documents *)

Definition keys_sorted (fields : json_map) : Prop :=
  StronglySorted (fun a b => String.ltb a b = true) (fields.*1).

Fixpoint json_wf (value : Value) : Prop :=
  match value with
  | JArray values => foldr (fun v wf => json_wf v /\ wf) True values
  | JObject fields => keys_sorted fields /\ foldr (fun field wf => json_wf field.2 /\ wf) True fields
  | _ => True
  end.

(** ** Facts *)

Lemma map_get_insert fields key value key' :
  map_get (map_insert key value fields) key' = if String.eqb key key' then Some value else map_get fields key'.
Proof.
  induction fields as [|[k v] fields IH]; [done|]. simpl. destruct (String.eqb_spec k key) as [->|Hk]; simpl.
  - by destruct (String.eqb key key').
  - destruct (String.ltb key k); simpl; [done|]. destruct (String.eqb_spec k key') as [->|Hk'].
    + destruct (String.eqb_spec key key'); [congruence|done].
    + apply IH.
Qed.

Lemma map_get_fields_snoc fields key value key' :
  map_get (json_fields (fields ++ [(key, value)])) key' =
    if String.eqb key key' then Some value else map_get (json_fields fields) key'.
Proof. unfold json_fields. rewrite fold_left_app. apply map_get_insert. Qed.

(** The fields of an object that is built at once: a later field wins. *)
Fixpoint last_field (fields : json_map) (key : string) : option Value :=
  match fields with
  | [] => None
  | (k, v) :: fields =>
      match last_field fields key with
      | Some value => Some value
      | None => if String.eqb k key then Some v else None
      end
  end.

Lemma map_get_json_fields fields key : map_get (json_fields fields) key = last_field fields key.
Proof.
  unfold json_fields. assert (H : forall object, map_get (fold_left
      (fun object field => map_insert field.1 field.2 object) fields object) key =
      or_else (last_field fields key) (map_get object key)).
  { induction fields as [|[k v] fields IH]; intros object; simpl; [done|]. rewrite IH.
    destruct (last_field fields key); simpl; [done|]. rewrite map_get_insert. by destruct (String.eqb k key). }
  rewrite H. by destruct (last_field fields key).
Qed.

Lemma get_json_object fields key : get (json_object fields) key = last_field fields key.
Proof. apply map_get_json_fields. Qed.

Lemma map_get_remove fields key key' :
  map_get (map_remove key fields) key' = if String.eqb key key' then None else map_get fields key'.
Proof.
  induction fields as [|[k v] fields IH]; [simpl; by destruct (String.eqb key key')|].
  unfold map_remove. rewrite retain_cons. simpl. fold (map_remove key fields).
  destruct (String.eqb_spec k key) as [->|Hk]; simpl; rewrite IH.
  - by destruct (String.eqb key key').
  - destruct (String.eqb_spec key key') as [->|?]; [|done]. by destruct (String.eqb_spec k key').
Qed.

Lemma map_get_or_insert fields key value key' :
  map_get (or_insert key value fields) key' =
    if String.eqb key key' then Some (default value (map_get fields key)) else map_get fields key'.
Proof.
  unfold or_insert. destruct (map_get fields key) eqn:Hk.
  - destruct (String.eqb_spec key key') as [->|?]; by rewrite ?Hk.
  - by rewrite map_get_insert.
Qed.

Lemma map_remove_absent fields key : map_get fields key = None -> map_remove key fields = fields.
Proof.
  intros Hk. apply retain_all. intros [k v] Hv. simpl. destruct (String.eqb_spec k key) as [->|?]; [|done].
  exfalso. induction fields as [|[k' v'] fields IH]; [by apply elem_of_nil in Hv|]. simpl in Hk.
  destruct (String.eqb_spec k' key); [done|]. apply elem_of_cons in Hv as [Heq|Hv]; [by simplify_eq|by apply IH].
Qed.

(** The order of keys. *)
Lemma string_ltb_lt a b : String.ltb a b = true <-> OrdersEx.String_as_OT.lt a b.
Proof. unfold String.ltb, OrdersEx.String_as_OT.lt. change OrdersEx.String_as_OT.compare with String.compare. by destruct (String.compare a b). Qed.

Lemma string_ltb_trans a b c : String.ltb a b = true -> String.ltb b c = true -> String.ltb a c = true.
Proof. rewrite !string_ltb_lt. apply OrdersEx.String_as_OT.lt_strorder. Qed.

Lemma string_ltb_asym a b : String.ltb a b = true -> String.ltb b a = false.
Proof.
  intros Hab. apply not_true_is_false. intros Hba. pose proof (string_ltb_trans a b a Hab Hba) as Haa.
  rewrite string_ltb_lt in Haa. by apply OrdersEx.String_as_OT.lt_strorder in Haa.
Qed.

Lemma string_ltb_total a b : a <> b -> String.ltb a b = false -> String.ltb b a = true.
Proof.
  unfold String.ltb. rewrite (String.compare_antisym a b). intros Hn.
  destruct (String.compare b a) eqn:Hc; simpl; [|done..]. by apply String.compare_eq_iff in Hc.
Qed.

Lemma map_insert_keys fields key value k :
  k ∈ (map_insert key value fields).*1 <-> k = key \/ k ∈ fields.*1.
Proof.
  induction fields as [|[k' v'] fields IH]; csimpl; [by rewrite list_elem_of_singleton, elem_of_nil; intuition|].
  destruct (String.eqb_spec k' key) as [->|?]; csimpl; [|destruct (String.ltb key k'); csimpl];
    rewrite ?elem_of_cons, ?IH, ?elem_of_cons; intuition.
Qed.

Lemma map_get_elem fields key : is_some (map_get fields key) = true -> key ∈ fields.*1.
Proof.
  induction fields as [|[k v] fields IH]; csimpl; [done|]. destruct (String.eqb_spec k key) as [->|?].
  - intros _. by left.
  - intros H. right. by apply IH.
Qed.

Lemma keys_sorted_cons k v fields :
  keys_sorted ((k, v) :: fields) <-> keys_sorted fields /\ Forall (fun k' => String.ltb k k' = true) (fields.*1).
Proof. unfold keys_sorted. csimpl. split; [by inversion 1|]. intros [? ?]. by constructor. Qed.

Lemma map_insert_sorted fields key value : keys_sorted fields -> keys_sorted (map_insert key value fields).
Proof.
  induction fields as [|[k v] fields IH]; intros Hs; [apply keys_sorted_cons; by split|].
  apply keys_sorted_cons in Hs as [Hs Hk]. simpl. destruct (String.eqb_spec k key) as [->|Hn].
  - by apply keys_sorted_cons.
  - destruct (String.ltb key k) eqn:Hlt.
    + apply keys_sorted_cons. split; [by apply keys_sorted_cons|]. csimpl. constructor; [done|].
      eapply Forall_impl; [exact Hk|]. intros k'. by apply string_ltb_trans.
    + apply keys_sorted_cons. split; [by apply IH|]. apply Forall_forall. intros k'.
      rewrite map_insert_keys. intros [->|Hk']; [by apply string_ltb_total|].
      rewrite Forall_forall in Hk. by apply Hk.
Qed.

Lemma map_remove_sorted fields key : keys_sorted fields -> keys_sorted (map_remove key fields).
Proof.
  induction fields as [|[k v] fields IH]; intros Hs; [done|]. apply keys_sorted_cons in Hs as [Hs Hk].
  unfold map_remove. rewrite retain_cons. fold (map_remove key fields). case_match; [|by apply IH].
  apply keys_sorted_cons. split; [by apply IH|]. eapply Forall_of_sublist, Hk.
  apply sublist_map, retain_sublist.
Qed.

Lemma or_insert_sorted fields key value : keys_sorted fields -> keys_sorted (or_insert key value fields).
Proof. unfold or_insert. case_match; [done|]. apply map_insert_sorted. Qed.

Lemma json_fields_sorted fields : keys_sorted (json_fields fields).
Proof.
  unfold json_fields. assert (H : keys_sorted []) by constructor. revert H. generalize (@nil (string * Value)).
  induction fields as [|field fields IH]; [done|]. intros l Hl. by apply IH, map_insert_sorted.
Qed.

(** Writing a value that is there changes nothing. *)
Lemma map_insert_same fields key value :
  keys_sorted fields -> map_get fields key = Some value -> map_insert key value fields = fields.
Proof.
  induction fields as [|[k v] fields IH]; intros Hs Hget; [done|]. simpl in *.
  apply keys_sorted_cons in Hs as [Hs Hk]. destruct (String.eqb_spec k key) as [->|Hn]; [congruence|].
  assert (Hlt : String.ltb k key = true).
  { rewrite Forall_forall in Hk. apply Hk, map_get_elem. by rewrite Hget. }
  rewrite (string_ltb_asym _ _ Hlt). by rewrite IH.
Qed.

#[export] Hint Resolve map_insert_sorted map_remove_sorted or_insert_sorted json_fields_sorted : gateway.
