(* ===== verification/SseDecoder.v ===== *)
(** * The decoder of event streams

    [SseDecoder] and [parse_sse_event] of [src/src/protocol/stream_aggregate.rs]. The
    decoder collects the chunks of a response in a buffer, scans it once for the end
    of the next frame (an empty line) and hands out one event at a time.

    [split_frames] is the reference: the frames of a whole text, with no cursor, no
    buffer and no chunks. The theorems say that the decoder agrees with it however
    the text is cut into chunks. The counters of the tests are left out. *)

From S2P Require Import Prelude ModelIdentity Protocol.

Local Open Scope Z_scope.

Definition MAX_STREAM_AGGREGATE_FRAME_BYTES : Z := 1024 * 1024.
Definition MAX_STREAM_AGGREGATE_TOTAL_BYTES : Z := 16 * 1024 * 1024.

(** ** Events *)

Record SseEvent := {
  ev_event_type : option string;
  ev_data : string
}.

(** The field and the value of a line; [None] for an empty line or a comment. *)
Definition sse_field (raw_line : byte_string) : option (byte_string * byte_string) :=
  let line := default raw_line (strip_suffix [CR] raw_line) in
  if is_empty line || starts_with line [COLON] then None
  else
    let '(field, raw_value) := default (line, []) (split_once [COLON] line) in
    Some (field, default raw_value (strip_prefix [SPACE] raw_value)).

Fixpoint sse_lines (lines : list byte_string) (event_type : option string)
    (data_lines : list byte_string) : option string * list byte_string :=
  match lines with
  | [] => (event_type, data_lines)
  | raw_line :: lines =>
      match sse_field raw_line with
      | Some (field, value) =>
          if String.eqb (text field) "event" then sse_lines lines (Some (text value)) data_lines
          else if String.eqb (text field) "data" then sse_lines lines event_type (data_lines ++ [value])
          else sse_lines lines event_type data_lines
      | None => sse_lines lines event_type data_lines
      end
  end.

Definition parse_sse_event (frame : byte_string) : result (option SseEvent) ProtocolError :=
  if utf8_valid frame then
    let '(event_type, data_lines) := sse_lines (split_on LF frame) None [] in
    if is_empty data_lines && is_none event_type then Ok None
    else Ok (Some {| ev_event_type := event_type; ev_data := text (join_on [LF] data_lines) |})
  else Err (invalid_stream Decode "frame is not valid UTF-8").

(** ** The decoder *)

Record SseDecoder := {
  sd_buffer : byte_string;
  sd_consumed_offset : nat;
  sd_scan_cursor : nat;
  sd_total_bytes : Z;
  sd_finished : bool
}.

Definition SseDecoder_new : SseDecoder :=
  {| sd_buffer := []; sd_consumed_offset := 0; sd_scan_cursor := 0; sd_total_bytes := 0;
     sd_finished := false |}.

(** Drop what was consumed; [None] is the panic of an offset past the end. *)
Definition compact (self : SseDecoder) : option SseDecoder :=
  if Nat.eqb (sd_consumed_offset self) 0 then Some self
  else
    buffer ← slice (sd_consumed_offset self) (length (sd_buffer self)) (sd_buffer self);
    Some {| self with
      sd_buffer := buffer;
      sd_scan_cursor := (sd_scan_cursor self - sd_consumed_offset self)%nat;
      sd_consumed_offset := 0%nat |}.

Definition bytes_after_eof : ProtocolError := invalid_stream Decode "received bytes after EOF".
Definition total_limit : ProtocolError := invalid_stream LimitExceeded "total byte limit exceeded".
Definition frame_overflow : ProtocolError := invalid_stream LimitExceeded "frame length overflow".
Definition frame_limit : ProtocolError := invalid_stream LimitExceeded "frame byte limit exceeded".

Definition append (self : SseDecoder) (chunk : byte_string)
    : option (SseDecoder * result unit ProtocolError) :=
  if is_empty chunk then Some (self, Ok tt)
  else if sd_finished self then Some (self, Err bytes_after_eof)
  else
    match opt_filter (fun total => total <=? MAX_STREAM_AGGREGATE_TOTAL_BYTES)
            (checked_add_usize (sd_total_bytes self) (Z.of_nat (length chunk))) with
    | None => Some (self, Err total_limit)
    | Some total =>
        self ← compact {| self with sd_total_bytes := total |};
        Some ({| self with sd_buffer := sd_buffer self ++ chunk |}, Ok tt)
    end.

Definition decoder_finish (self : SseDecoder) : SseDecoder := {| self with sd_finished := true |}.

Definition CRLF_DELIMITER : byte_string := [CR; LF; CR; LF].

(** The scan of [next_frame_boundary] from [cursor] on, over [&buffer[cursor..]]: where
    it stops, and the boundary found there with the length of its delimiter. *)
Fixpoint scan (remaining : byte_string) (cursor : nat) : nat * option (nat * nat) :=
  match remaining with
  | [] => (cursor, None)
  | c :: rest =>
      if bool_decide (c = LF) then
        if Nat.ltb (length remaining) 2 then (cursor, None)
        else if starts_with remaining [LF; LF] then (cursor, Some (cursor, 2%nat))
        else scan rest (S cursor)
      else if bool_decide (c = CR) then
        if starts_with remaining CRLF_DELIMITER then (cursor, Some (cursor, length CRLF_DELIMITER))
        else if Nat.ltb (length remaining) (length CRLF_DELIMITER) && starts_with CRLF_DELIMITER remaining
        then (cursor, None)
        else scan rest (S cursor)
      else scan rest (S cursor)
  end.

Definition next_frame_boundary (self : SseDecoder) : SseDecoder * option (nat * nat) :=
  let '(cursor, boundary) := scan (drop (sd_scan_cursor self) (sd_buffer self)) (sd_scan_cursor self) in
  ({| self with sd_scan_cursor := cursor |}, boundary).

(** What is left when no frame is complete. *)
Definition pending_event (self : SseDecoder)
    : option (SseDecoder * result (option SseEvent) ProtocolError) :=
  let pending_bytes := (length (sd_buffer self) - sd_consumed_offset self)%nat in
  if MAX_STREAM_AGGREGATE_FRAME_BYTES <? Z.of_nat pending_bytes then Some (self, Err frame_limit)
  else if sd_finished self && Nat.ltb 0 pending_bytes then
    frame ← slice (sd_consumed_offset self) (length (sd_buffer self)) (sd_buffer self);
    match parse_sse_event frame with
    | Err error => Some (self, Err error)
    | Ok event =>
        Some ({| self with
                 sd_consumed_offset := length (sd_buffer self);
                 sd_scan_cursor := length (sd_buffer self) |}, Ok event)
    end
  else Some (self, Ok None).

(** The loop of [next_event]; [None] is a panic or too little fuel. *)
Fixpoint next_event_loop (fuel : nat) (self : SseDecoder)
    : option (SseDecoder * result (option SseEvent) ProtocolError) :=
  match fuel with
  | O => None
  | S fuel =>
      let '(self, boundary) := next_frame_boundary self in
      match boundary with
      | None => pending_event self
      | Some (frame_end, delimiter_len) =>
          match checked_add_usize (Z.of_nat frame_end) (Z.of_nat delimiter_len) with
          | None => Some (self, Err frame_overflow)
          | Some _ =>
              let consumed := (frame_end + delimiter_len)%nat in
              if MAX_STREAM_AGGREGATE_FRAME_BYTES <? Z.of_nat (consumed - sd_consumed_offset self)
              then Some (self, Err frame_limit)
              else
                frame ← slice (sd_consumed_offset self) frame_end (sd_buffer self);
                match parse_sse_event frame with
                | Err error => Some (self, Err error)
                | Ok event =>
                    let self := {| self with sd_consumed_offset := consumed; sd_scan_cursor := consumed |} in
                    match event with
                    | Some _ => Some (self, Ok event)
                    | None => next_event_loop fuel self
                    end
                end
          end
      end
  end.

(** Every frame takes a byte at least. *)
Definition next_event (self : SseDecoder) : option (SseDecoder * result (option SseEvent) ProtocolError) :=
  next_event_loop (S (length (sd_buffer self))) self.

(** ** The loop of the readers

    [while let Some(event) = self.decoder.next_event()? { process(&event)?; }], with the
    state of the reader as an accumulator. The [?] turns an error of the decoder into
    one of the reader, by [From]. *)

Class FromProtocol (E : Type) := from_protocol : ProtocolError -> E.

#[export] Instance from_protocol_same : FromProtocol ProtocolError := fun error => error.

Section Drain.
  Context {A E : Type} {from : FromProtocol E} (process : A -> SseEvent -> A * result unit E).

Fixpoint drain_loop (fuel : nat) (self : SseDecoder) (acc : A)
    : option (SseDecoder * A * result unit E) :=
  match fuel with
  | O => None
  | S fuel =>
      '(self, next) ← next_event self;
      match next with
      | Err error => Some (self, acc, Err (from_protocol error))
      | Ok None => Some (self, acc, Ok tt)
      | Ok (Some event) =>
          let '(acc, processed) := process acc event in
          match processed with
          | Err error => Some (self, acc, Err error)
          | Ok _ => drain_loop fuel self acc
          end
      end
  end.

Definition drain (self : SseDecoder) (acc : A) : option (SseDecoder * A * result unit E) :=
  drain_loop (S (S (length (sd_buffer self)))) self acc.

(** The chunks of a response, one by one; the reader stops at the first error. *)
Fixpoint feed (self : SseDecoder) (acc : A) (chunks : list byte_string)
    : option (SseDecoder * A * result unit E) :=
  match chunks with
  | [] => Some (self, acc, Ok tt)
  | chunk :: chunks =>
      '(self, appended) ← append self chunk;
      match appended with
      | Err error => Some (self, acc, Err (from_protocol error))
      | Ok _ =>
          '(self, acc, drained) ← drain self acc;
          match drained with
          | Err error => Some (self, acc, Err error)
          | Ok _ => feed self acc chunks
          end
      end
  end.

(** The chunks, and then the end of the response. *)
Definition decode_stream (acc : A) (chunks : list byte_string) : option (A * result unit E) :=
  '(self, acc, fed) ← feed SseDecoder_new acc chunks;
  match fed with
  | Err error => Some (acc, Err error)
  | Ok _ =>
      '(_, acc, drained) ← drain (decoder_finish self) acc;
      Some (acc, drained)
  end.

End Drain.

(** ** The reference *)

(** The first frame of a text, the length of its delimiter and the text after it. *)
Fixpoint cut (l : byte_string) : option (byte_string * nat * byte_string) :=
  match strip_prefix [LF; LF] l, strip_prefix CRLF_DELIMITER l, l with
  | Some rest, _, _ => Some ([], 2%nat, rest)
  | None, Some rest, _ => Some ([], 4%nat, rest)
  | None, None, [] => None
  | None, None, c :: l => '(frame, delimiter, rest) ← cut l; Some (c :: frame, delimiter, rest)
  end.

Fixpoint split_loop (fuel : nat) (l : byte_string) : list (byte_string * nat) * byte_string :=
  match fuel, cut l with
  | S fuel, Some (frame, delimiter, rest) =>
      let '(frames, rest) := split_loop fuel rest in ((frame, delimiter) :: frames, rest)
  | _, _ => ([], l)
  end.

(** All frames of a text and what is left. *)
Definition split_frames (l : byte_string) : list (byte_string * nat) * byte_string :=
  split_loop (length l) l.

Section Reference.
  Context {A E : Type} {from : FromProtocol E} (process : A -> SseEvent -> A * result unit E).

Definition process_frame (acc : A) (frame : byte_string) : A * result unit E :=
  match parse_sse_event frame with
  | Err error => (acc, Err (from_protocol error))
  | Ok None => (acc, Ok tt)
  | Ok (Some event) => process acc event
  end.

Fixpoint process_frames (acc : A) (frames : list (byte_string * nat)) : A * result unit E :=
  match frames with
  | [] => (acc, Ok tt)
  | (frame, delimiter) :: frames =>
      if MAX_STREAM_AGGREGATE_FRAME_BYTES <? Z.of_nat (length frame + delimiter) then (acc, Err (from_protocol frame_limit))
      else
        let '(acc, processed) := process_frame acc frame in
        match processed with Err error => (acc, Err error) | Ok _ => process_frames acc frames end
  end.

(** A whole text: its frames in order, and then what is left of it. *)
Definition process_text (acc : A) (l : byte_string) : A * result unit E :=
  let '(frames, rest) := split_frames l in
  let '(acc, processed) := process_frames acc frames in
  match processed with
  | Err error => (acc, Err error)
  | Ok _ =>
      if MAX_STREAM_AGGREGATE_FRAME_BYTES <? Z.of_nat (length rest) then (acc, Err (from_protocol frame_limit))
      else if is_empty rest then (acc, Ok tt) else process_frame acc rest
  end.

End Reference.

(** ** Facts: cutting a text *)

Definition prepend (before : byte_string) (c : byte_string * nat * byte_string) : byte_string * nat * byte_string :=
  let '(frame, delimiter, rest) := c in (before ++ frame, delimiter, rest).

Lemma starts_with_spec l p : starts_with l p = true <-> exists rest, l = p ++ rest.
Proof.
  unfold starts_with. destruct (strip_prefix p l) as [rest|] eqn:H; simpl.
  - apply strip_prefix_Some in H. naive_solver.
  - split; [done|]. intros [rest Hl]. apply strip_prefix_Some in Hl. congruence.
Qed.

Lemma cut_cons c l :
  starts_with (c :: l) [LF; LF] = false -> starts_with (c :: l) CRLF_DELIMITER = false ->
  cut (c :: l) = prepend [c] <$> cut l.
Proof.
  unfold starts_with. intros H1 H2. cbn [cut].
  destruct (strip_prefix [LF; LF] (c :: l)); [done|]. destruct (strip_prefix CRLF_DELIMITER (c :: l)); [done|].
  by destruct (cut l) as [[[f d] r]|].
Qed.

Lemma cut_lf rest : cut (LF :: LF :: rest) = Some ([], 2%nat, rest).
Proof. reflexivity. Qed.

Lemma cut_lf_app rest : cut ([LF; LF] ++ rest) = Some ([], 2%nat, rest).
Proof. reflexivity. Qed.

Lemma cut_crlf rest : cut (CRLF_DELIMITER ++ rest) = Some ([], 4%nat, rest).
Proof. reflexivity. Qed.

Lemma cut_shape l frame d rest :
  cut l = Some (frame, d, rest) ->
  exists delimiter, l = frame ++ delimiter ++ rest /\ d = length delimiter /\ (2 <= d <= 4)%nat.
Proof.
  revert frame. induction l as [|c l IH]; intros frame; [done|]. cbn [cut].
  destruct (strip_prefix [LF; LF] (c :: l)) as [r|] eqn:H1.
  { intros [= <- <- <-]. apply strip_prefix_Some in H1. exists [LF; LF]. split_and!; simpl; done || lia. }
  destruct (strip_prefix CRLF_DELIMITER (c :: l)) as [r|] eqn:H2.
  { intros [= <- <- <-]. apply strip_prefix_Some in H2. exists CRLF_DELIMITER.
    split_and!; simpl; done || lia. }
  destruct (cut l) as [[[f d'] r]|]; [|done]. intros [= <- <- <-].
  destruct (IH f eq_refl) as (delimiter & -> & -> & ? & ?). exists delimiter. by split_and!.
Qed.

(** A delimiter that is not there yet. *)
Lemma starts_with_app_false l p x :
  starts_with l p = false -> (length p <= length l)%nat -> starts_with (l ++ x) p = false.
Proof.
  intros H Hlen. apply not_true_iff_false. intros [rest Hr]%starts_with_spec.
  apply not_true_iff_false in H. apply H, starts_with_spec. exists (drop (length p) l).
  assert (take (length p) (l ++ x) = p) as Ht by (by rewrite Hr, take_app_length).
  rewrite take_app_le in Ht by done. rewrite <- Ht at 1. by rewrite take_drop.
Qed.

#[local] Arguments cut : simpl never.

(** No frame ends in the first [k] bytes, whatever comes after the text. *)
Definition no_cut (k : nat) (l : byte_string) : Prop :=
  (k <= length l)%nat /\ forall x, cut (l ++ x) = prepend (take k l) <$> cut (drop k l ++ x).

Lemma no_cut_0 l : no_cut 0 l.
Proof.
  split; [lia|]. intros x. rewrite drop_0. by destruct (cut (l ++ x)) as [[[? ?] ?]|].
Qed.

Lemma no_cut_S k c l :
  (forall x, starts_with (c :: l ++ x) [LF; LF] = false /\ starts_with (c :: l ++ x) CRLF_DELIMITER = false) ->
  no_cut k l -> no_cut (S k) (c :: l).
Proof.
  intros Hc [Hk Hcut]. split; [simpl; lia|]. intros x. destruct (Hc x) as [H1 H2].
  cbn [app take drop].
  rewrite cut_cons, Hcut by done. by destruct (cut (drop k l ++ x)) as [[[? ?] ?]|].
Qed.

Lemma no_cut_none k l : no_cut k l -> cut (drop k l) = None -> cut l = None.
Proof. intros [_ H] Hd. specialize (H []). rewrite !app_nil_r in H. by rewrite H, Hd. Qed.

Lemma no_cut_some k l f d rest :
  no_cut k l -> cut (drop k l) = Some (f, d, rest) -> cut l = Some (take k l ++ f, d, rest).
Proof. intros [_ H] Hd. specialize (H []). rewrite !app_nil_r in H. by rewrite H, Hd. Qed.

Lemma no_cut_app k l x : no_cut k l -> no_cut k (l ++ x).
Proof.
  intros [Hk H]. split; [rewrite length_app; lia|]. intros y.
  rewrite <- app_assoc, H, take_app_le, drop_app_le by done. by rewrite app_assoc.
Qed.

Lemma no_cut_trans k j l : no_cut k l -> no_cut j (drop k l) -> no_cut (k + j) l.
Proof.
  intros [Hk H1] [Hj H2]. rewrite length_drop in Hj. split; [lia|]. intros x.
  rewrite H1, H2, drop_drop, <- option_fmap_compose, <- take_take_drop.
  apply option_fmap_ext. intros [[f d] r]. simpl. by rewrite app_assoc.
Qed.

(** What [scan] finds. *)
Definition scan_result (r : byte_string) (c : nat) (found : nat * option (nat * nat)) : Prop :=
  match found with
  | (cursor, None) => cut r = None /\ exists k, cursor = (c + k)%nat /\ no_cut k r
  | (cursor, Some (frame_end, delimiter)) =>
      exists f rest, cursor = frame_end /\ frame_end = (c + length f)%nat /\
        cut r = Some (f, delimiter, rest) /\ no_cut (length f) r
  end.

Lemma scan_step b r c found :
  (forall x, starts_with (b :: r ++ x) [LF; LF] = false /\ starts_with (b :: r ++ x) CRLF_DELIMITER = false) ->
  scan_result r (S c) found -> scan_result (b :: r) c found.
Proof.
  intros Hb. assert (cut (b :: r) = prepend [b] <$> cut r) as Hcut.
  { destruct (Hb []) as [H1 H2]. rewrite app_nil_r in H1, H2. by apply cut_cons. }
  destruct found as [cursor [[e d]|]]; simpl.
  - intros (f & rest & -> & -> & Hf & Hn). exists (b :: f), rest. rewrite Hcut, Hf. split_and!; [done|simpl; lia|done|].
    by apply no_cut_S.
  - intros (Hf & k & -> & Hn). rewrite Hcut, Hf. split; [done|]. exists (S k). split; [lia|]. by apply no_cut_S.
Qed.

Lemma scan_spec r c : scan_result r c (scan r c).
Proof.
  revert c. induction r as [|b r IH]; intros c; [split; [done|]; exists 0%nat; split; [lia|apply no_cut_0]|].
  cbn [scan]. case_bool_decide as Hlf; [subst b|case_bool_decide as Hcr; [subst b|]].
  - destruct (Nat.ltb_spec (length (LF :: r)) 2) as [Hlen|Hlen].
    { destruct r; [|simpl in Hlen; lia]. split; [done|]. exists 0%nat. split; [lia|apply no_cut_0]. }
    destruct (starts_with (LF :: r) [LF; LF]) eqn:Hs.
    { apply starts_with_spec in Hs as [rest [= ->]]. exists [], rest. split_and!;
        [done|simpl; lia|apply cut_lf|apply no_cut_0]. }
    apply scan_step; [|apply IH]. intros x. split; [|done].
    apply (starts_with_app_false (LF :: r) [LF; LF] x); [done|simpl in *; lia].
  - destruct (starts_with (CR :: r) CRLF_DELIMITER) eqn:Hs.
    { apply starts_with_spec in Hs as [rest [= ->]]. exists [], rest. split_and!; [done|simpl; lia|done|apply no_cut_0]. }
    destruct (Nat.ltb_spec (length (CR :: r)) (length CRLF_DELIMITER)) as [Hlen|Hlen]; simpl andb.
    + destruct (starts_with CRLF_DELIMITER (CR :: r)) eqn:Hp.
      { split; [|exists 0%nat; split; [lia|apply no_cut_0]]. apply starts_with_spec in Hp as [rest [= Hp]].
        destruct r as [|? [|? [|? ?]]]; simplify_eq/=; done || lia. }
      apply scan_step; [|apply IH]. intros x. split; [done|]. apply not_true_iff_false.
      intros [rest Hr]%starts_with_spec. apply not_true_iff_false in Hp. apply Hp, starts_with_spec.
      exists (drop (length (CR :: r)) CRLF_DELIMITER).
      apply (f_equal (take (length (CR :: r)))) in Hr. change (CR :: r ++ x) with ((CR :: r) ++ x) in Hr.
      rewrite take_app_length, take_app_le in Hr by lia. rewrite Hr at 1. by rewrite take_drop.
    + apply scan_step; [|apply IH]. intros x. split; [done|]. apply (starts_with_app_false (CR :: r)); [done|simpl in *; lia].
  - apply scan_step; [|apply IH]. intros x. unfold starts_with. cbn [strip_prefix CRLF_DELIMITER].
    by rewrite !bool_decide_eq_false_2 by done.
Qed.

(** ** Facts: the decoder against the text it holds *)

(** The bytes that are not consumed yet. *)
Definition rest_of (self : SseDecoder) : byte_string := drop (sd_consumed_offset self) (sd_buffer self).

Record decoder_ok (self : SseDecoder) : Prop := {
  ok_sd_order : (sd_consumed_offset self <= sd_scan_cursor self <= length (sd_buffer self))%nat;
  ok_sd_scanned : no_cut (sd_scan_cursor self - sd_consumed_offset self) (rest_of self);
  ok_sd_size : Z.of_nat (length (sd_buffer self)) <= sd_total_bytes self;
  ok_sd_total : sd_total_bytes self <= MAX_STREAM_AGGREGATE_TOTAL_BYTES
}.

Lemma slice_drop l k : (k <= length l)%nat -> slice k (length l) l = Some (drop k l).
Proof.
  intros Hk. unfold slice. rewrite (proj2 (Nat.leb_le _ _) Hk), Nat.leb_refl. simpl. f_equal.
  apply take_ge. by rewrite length_drop.
Qed.

(** The frame that [cut] finds is the one between the offset and the boundary. *)
Lemma slice_frame l k f d rest :
  (k <= length l)%nat -> cut (drop k l) = Some (f, d, rest) ->
  slice k (k + length f) l = Some f /\ rest = drop (k + length f + d) l /\
  (k + length f + d <= length l)%nat.
Proof.
  intros Hk Hc. apply cut_shape in Hc as (delimiter & Hl & -> & _).
  assert (length (drop k l) = length (f ++ delimiter ++ rest)) as Hlen by (by rewrite Hl).
  rewrite length_drop, !length_app in Hlen.
  split_and!; [| |lia].
  - unfold slice. rewrite (proj2 (Nat.leb_le _ _)), (proj2 (Nat.leb_le _ _)) by lia. simpl. rewrite Hl. f_equal.
    replace (k + length f - k)%nat with (length f) by lia. apply take_app_length.
  - rewrite <- drop_drop, <- drop_drop, Hl, drop_app_length. by rewrite drop_app_length.
Qed.

(** The decoder after the frame of [rest_of self] and its delimiter. *)
Definition past_frame (self : SseDecoder) (frame_bytes : nat) : SseDecoder :=
  {| self with
     sd_consumed_offset := (sd_consumed_offset self + frame_bytes)%nat;
     sd_scan_cursor := (sd_consumed_offset self + frame_bytes)%nat |}.

(** The decoder after the scan that found nothing more. *)
Definition scanned_to (self : SseDecoder) (cursor : nat) : SseDecoder :=
  {| self with sd_scan_cursor := cursor |}.

Lemma past_frame_ok self f d rest :
  decoder_ok self -> cut (rest_of self) = Some (f, d, rest) ->
  decoder_ok (past_frame self (length f + d)) /\ rest_of (past_frame self (length f + d)) = rest.
Proof.
  intros [[Ho1 Ho2] _ Hs Ht] Hc. unfold rest_of in Hc.
  destruct (slice_frame (sd_buffer self) (sd_consumed_offset self) f d rest) as (_ & Hr & Hlen); [lia|done|].
  unfold rest_of. simpl. rewrite Nat.add_assoc. split; [|done].
  split; simpl; [lia| |done..]. replace (_ - _)%nat with 0%nat by lia. apply no_cut_0.
Qed.

Lemma scanned_to_ok self k cursor :
  decoder_ok self -> no_cut k (drop (sd_scan_cursor self) (sd_buffer self)) ->
  cursor = (sd_scan_cursor self + k)%nat -> decoder_ok (scanned_to self cursor).
Proof.
  intros [[Ho1 Ho2] Hscanned Hs Ht] Hk ->. pose proof (proj1 Hk) as Hlen. rewrite length_drop in Hlen.
  split; simpl; [lia| |done..]. change (rest_of (scanned_to self _)) with (rest_of self).
  replace (_ - _)%nat with ((sd_scan_cursor self - sd_consumed_offset self) + k)%nat by lia.
  apply no_cut_trans; [done|]. unfold rest_of. rewrite drop_drop.
  by replace (_ + _)%nat with (sd_scan_cursor self) by lia.
Qed.

(** One round of the loop, by what the text holds next. *)
Lemma next_event_loop_eq fuel self :
  decoder_ok self ->
  match cut (rest_of self) with
  | None => exists cursor, decoder_ok (scanned_to self cursor) /\
      next_event_loop (S fuel) self = pending_event (scanned_to self cursor)
  | Some (f, d, _) =>
      if MAX_STREAM_AGGREGATE_FRAME_BYTES <? Z.of_nat (length f + d)
      then exists cursor, decoder_ok (scanned_to self cursor) /\
        next_event_loop (S fuel) self = Some (scanned_to self cursor, Err frame_limit)
      else match parse_sse_event f with
           | Err error => exists cursor, decoder_ok (scanned_to self cursor) /\
               next_event_loop (S fuel) self = Some (scanned_to self cursor, Err error)
           | Ok None => next_event_loop (S fuel) self = next_event_loop fuel (past_frame self (length f + d))
           | Ok (Some event) =>
               next_event_loop (S fuel) self = Some (past_frame self (length f + d), Ok (Some event))
           end
  end.
Proof.
  intros Hok. pose proof Hok as [[Ho1 Ho2] Hscanned Hs Ht]. cbn [next_event_loop]. unfold next_frame_boundary.
  pose proof (scan_spec (drop (sd_scan_cursor self) (sd_buffer self)) (sd_scan_cursor self)) as Hscan.
  pose proof (scanned_to_ok self) as Hto.
  assert (drop (sd_scan_cursor self) (sd_buffer self) =
    drop (sd_scan_cursor self - sd_consumed_offset self) (rest_of self)) as Hd.
  { unfold rest_of. rewrite drop_drop. f_equal. lia. }
  rewrite Hd in *. set (k := (sd_scan_cursor self - sd_consumed_offset self)%nat) in *.
  destruct (scan _ _) as [cursor [[e d]|]]; simpl in Hscan.
  - destruct Hscan as (f & rest & -> & -> & Hc & Hn). specialize (Hto _ _ Hok Hn eq_refl).
    pose proof (no_cut_some _ _ _ _ _ Hscanned Hc) as Hcut. rewrite Hcut.
    assert (length (take k (rest_of self) ++ f) = k + length f)%nat as Hlen.
    { destruct Hscanned as [Hk _]. by rewrite length_app, length_take, Nat.min_l. }
    destruct (slice_frame (sd_buffer self) (sd_consumed_offset self) (take k (rest_of self) ++ f) d rest)
      as (Hslice & _ & Hend); [lia|done|]. rewrite Hlen in *.
    replace (sd_consumed_offset self + (k + length f))%nat with (sd_scan_cursor self + length f)%nat in * by lia.
    unfold checked_add_usize. rewrite (proj2 (Z.leb_le _ _)) by (unfold MAX_STREAM_AGGREGATE_TOTAL_BYTES, usize_max, u64_max in *; lia).
    simpl sd_consumed_offset. simpl sd_buffer.
    replace (sd_scan_cursor self + length f + d - sd_consumed_offset self)%nat with (k + length f + d)%nat by lia.
    destruct (_ <? _); [by eexists|]. rewrite Hslice. simpl mbind.
    assert (past_frame self (k + length f + d) =
      {| self with sd_consumed_offset := (sd_scan_cursor self + length f + d)%nat;
                   sd_scan_cursor := (sd_scan_cursor self + length f + d)%nat |}) as ->.
    { unfold past_frame. unfold k. f_equal; lia. }
    destruct (parse_sse_event _) as [[event|]|error]; simpl; eauto.
  - destruct Hscan as (Hc & j & -> & Hj). rewrite (no_cut_none _ _ Hscanned Hc).
    eexists. split; [|reflexivity]. by apply (Hto j).
Qed.

Lemma split_loop_fuel n : forall l fuel fuel',
  (length l <= n)%nat -> (n <= fuel)%nat -> (n <= fuel')%nat -> split_loop fuel l = split_loop fuel' l.
Proof.
  induction n as [n IH] using lt_wf_ind. intros l fuel fuel' Hl H1 H2.
  destruct (cut l) as [[[f d] rest]|] eqn:Hc; [|destruct fuel, fuel'; simpl; by rewrite ?Hc].
  pose proof (cut_shape _ _ _ _ Hc) as (delimiter & -> & -> & Hd). rewrite !length_app in Hl.
  destruct fuel as [|fuel], fuel' as [|fuel']; try lia. simpl. rewrite Hc.
  by rewrite (IH (length rest)) with (fuel' := fuel') by lia.
Qed.

Lemma split_frames_eq l :
  split_frames l =
    match cut l with
    | Some (f, d, rest) => let '(frames, rest) := split_frames rest in ((f, d) :: frames, rest)
    | None => ([], l)
    end.
Proof.
  unfold split_frames at 1. destruct (cut l) as [[[f d] rest]|] eqn:Hc.
  - pose proof (cut_shape _ _ _ _ Hc) as (delimiter & -> & -> & Hd).
    destruct (length (f ++ delimiter ++ rest)) as [|n] eqn:Hn; rewrite !length_app in Hn; [lia|]. simpl. rewrite Hc.
    unfold split_frames. by rewrite (split_loop_fuel (length rest) rest n (length rest)) by lia.
  - destruct (length l); simpl; by rewrite ?Hc.
Qed.

(** ** Facts: draining *)

Section Drained.
  Context {A E : Type} {from : FromProtocol E} (process : A -> SseEvent -> A * result unit E).

(** What a reader makes of the frames of a text that may go on. *)
Definition process_chunk (acc : A) (l : byte_string) : A * result unit E :=
  let '(frames, rest) := split_frames l in
  let '(acc, processed) := process_frames process acc frames in
  match processed with
  | Err error => (acc, Err error)
  | Ok _ =>
      if MAX_STREAM_AGGREGATE_FRAME_BYTES <? Z.of_nat (length rest) then (acc, Err (from_protocol frame_limit)) else (acc, Ok tt)
  end.

(** The end of a text. *)
Definition process_rest (acc : A) (rest : byte_string) : A * result unit E :=
  if is_empty rest then (acc, Ok tt) else process_frame process acc rest.

Definition decoder_end (self : SseDecoder) : byte_string :=
  if sd_finished self then [] else snd (split_frames (rest_of self)).

(** The outcome of a drained decoder. *)
Definition drained (self : SseDecoder) (acc : A) (outcome : option (SseDecoder * A * result unit E)) : Prop :=
  exists self' acc' r, outcome = Some (self', acc', r) /\
    (acc', r) =
      (let '(acc, processed) := process_chunk acc (rest_of self) in
       match processed with
       | Err error => (acc, Err error)
       | Ok _ => if sd_finished self then process_rest acc (snd (split_frames (rest_of self))) else (acc, Ok tt)
       end) /\
    (r = Ok tt -> decoder_ok self' /\ rest_of self' = decoder_end self /\
       sd_total_bytes self' = sd_total_bytes self /\ sd_finished self' = sd_finished self).

(** The loop with its first [next_event] at any fuel. *)
Definition drain_from (inner outer : nat) (self : SseDecoder) (acc : A)
    : option (SseDecoder * A * result unit E) :=
  '(self, next) ← next_event_loop inner self;
  match next with
  | Err error => Some (self, acc, Err (from_protocol error))
  | Ok None => Some (self, acc, Ok tt)
  | Ok (Some event) =>
      let '(acc, processed) := process acc event in
      match processed with
      | Err error => Some (self, acc, Err error)
      | Ok _ => drain_loop process outer self acc
      end
  end.

Lemma process_frames_cons acc f d frames :
  process_frames process acc ((f, d) :: frames) =
    if MAX_STREAM_AGGREGATE_FRAME_BYTES <? Z.of_nat (length f + d) then (acc, Err (from_protocol frame_limit))
    else match parse_sse_event f with
         | Err error => (acc, Err (from_protocol error))
         | Ok None => process_frames process acc frames
         | Ok (Some event) =>
             let '(acc, processed) := process acc event in
             match processed with Err error => (acc, Err error) | Ok _ => process_frames process acc frames end
         end.
Proof.
  cbn [process_frames]. destruct (_ <? _); [done|]. unfold process_frame.
  by destruct (parse_sse_event f) as [[event|]|error].
Qed.

(** A frame at the front. *)
Lemma drained_frame self f d rest acc outcome :
  decoder_ok self -> cut (rest_of self) = Some (f, d, rest) ->
  (MAX_STREAM_AGGREGATE_FRAME_BYTES <? Z.of_nat (length f + d)) = false ->
  forall acc1,
  process_frame process acc f = (acc1, Ok tt) ->
  drained (past_frame self (length f + d)) acc1 outcome -> drained self acc outcome.
Proof.
  intros Hok Hc Hsize acc1 Hp (self' & acc' & r & -> & Hr & Hafter).
  destruct (past_frame_ok self f d rest Hok Hc) as [Hok' Hrest].
  exists self', acc', r. split; [done|]. revert Hr Hafter. unfold process_chunk, decoder_end.
  rewrite Hrest. simpl sd_finished. simpl sd_total_bytes. rewrite (split_frames_eq (rest_of self)), Hc.
  destruct (split_frames rest) as [frames rest'] eqn:Hs. cbn [process_frames snd]. rewrite Hsize, Hp. done.
Qed.

(** An error ends the loop. *)
Lemma drained_error self self' acc acc' error :
  process_chunk acc (rest_of self) = (acc', Err error) ->
  drained self acc (Some (self', acc', Err error)).
Proof. intros Hp. exists self', acc', (Err error). by rewrite Hp. Qed.

Lemma process_chunk_none acc l :
  cut l = None ->
  process_chunk acc l =
    if MAX_STREAM_AGGREGATE_FRAME_BYTES <? Z.of_nat (length l) then (acc, Err (from_protocol frame_limit)) else (acc, Ok tt).
Proof. intros Hc. unfold process_chunk. by rewrite split_frames_eq, Hc. Qed.

Lemma process_chunk_cons acc l f d rest :
  cut l = Some (f, d, rest) ->
  process_chunk acc l =
    if MAX_STREAM_AGGREGATE_FRAME_BYTES <? Z.of_nat (length f + d) then (acc, Err (from_protocol frame_limit))
    else let '(acc, processed) := process_frame process acc f in
         match processed with Err error => (acc, Err error) | Ok _ => process_chunk acc rest end.
Proof.
  intros Hc. unfold process_chunk. rewrite split_frames_eq, Hc. destruct (split_frames rest) as [frames r].
  cbn [process_frames]. destruct (_ <? _); [done|]. by destruct (process_frame process acc f) as [a [[]|e]].
Qed.

(** The decoder once everything is consumed. *)
Definition consumed_all (self : SseDecoder) : SseDecoder :=
  {| self with sd_consumed_offset := length (sd_buffer self); sd_scan_cursor := length (sd_buffer self) |}.

Lemma consumed_all_ok self : decoder_ok self -> decoder_ok (consumed_all self) /\ rest_of (consumed_all self) = [].
Proof.
  intros [? ? ? ?]. assert (rest_of (consumed_all self) = []) as Hr by (unfold rest_of; simpl; by rewrite drop_ge).
  split; [|done]. split; [simpl; lia| |done..]. rewrite Hr. simpl. rewrite Nat.sub_diag. apply no_cut_0.
Qed.

Lemma pending_event_eq self :
  decoder_ok self ->
  pending_event self =
    if MAX_STREAM_AGGREGATE_FRAME_BYTES <? Z.of_nat (length (rest_of self)) then Some (self, Err frame_limit)
    else if sd_finished self && negb (is_empty (rest_of self)) then
      match parse_sse_event (rest_of self) with
      | Err error => Some (self, Err error)
      | Ok event => Some (consumed_all self, Ok event)
      end
    else Some (self, Ok None).
Proof.
  intros [[Ho1 Ho2] _ _ _]. unfold pending_event, rest_of.
  rewrite length_drop. destruct (_ <? _); [done|]. rewrite slice_drop by lia.
  replace (Nat.ltb 0 _) with (negb (is_empty (drop (sd_consumed_offset self) (sd_buffer self)))); [done|].
  rewrite <- length_drop. by destruct (drop _ _).
Qed.

Lemma drained_scanned self acc outcome cursor :
  drained (scanned_to self cursor) acc outcome -> drained self acc outcome.
Proof. done. Qed.

Lemma drain_from_end n self acc outer :
  decoder_ok self -> cut (rest_of self) = None -> (length (rest_of self) <= n)%nat ->
  (forall acc, rest_of self <> [] ->
     drained (consumed_all self) acc (drain_loop process outer (consumed_all self) acc)) ->
  drained self acc
    ('(self, next) ← pending_event self;
     match next with
     | Err error => Some (self, acc, Err (from_protocol error))
     | Ok None => Some (self, acc, Ok tt)
     | Ok (Some event) =>
         let '(acc, processed) := process acc event in
         match processed with Err error => Some (self, acc, Err error) | Ok _ => drain_loop process outer self acc end
     end).
Proof.
  intros Hok Hc Hn IH. rewrite pending_event_eq by done. pose proof (process_chunk_none acc _ Hc) as Hp.
  destruct (_ <? _); [by apply drained_error|].
  assert (snd (split_frames (rest_of self)) = rest_of self) as Hs by (by rewrite split_frames_eq, Hc).
  destruct (consumed_all_ok self Hok) as [Hok' Hrest'].
  destruct (sd_finished self) eqn:Hf; simpl andb.
  2:{ exists self, acc, (Ok tt). rewrite Hp, Hf. split_and!; [done..|]. unfold decoder_end. by rewrite Hf, Hs. }
  unfold drained. setoid_rewrite Hp. rewrite Hf, Hs. unfold process_rest, process_frame, decoder_end. rewrite Hf.
  destruct (is_empty (rest_of self)) eqn:He; simpl negb.
  { exists self, acc, (Ok tt). split_and!; [done..|]. intros _. split_and!; [done| |done..]. by destruct (rest_of self). }
  destruct (parse_sse_event (rest_of self)) as [[event|]|error]; simpl.
  - destruct (process acc event) as [acc1 [[]|error]]; [|by exists (consumed_all self), acc1, (Err error)].
    destruct (IH acc1) as (self' & acc' & r & Hd & Hr & Hafter); [by intros Hnil; rewrite Hnil in He|].
    rewrite Hrest', (process_chunk_none acc1 []) in Hr by done. simpl in Hr. rewrite Hf in Hr. injection Hr as -> ->.
    exists self', acc1, (Ok tt). unfold decoder_end in Hafter. simpl in Hafter. rewrite Hf in Hafter. done.
  - exists (consumed_all self), acc, (Ok tt). by split_and!.
  - by exists self, acc, (Err (from_protocol error)).
Qed.

Lemma drain_from_spec n : forall inner outer self acc,
  decoder_ok self -> (length (rest_of self) <= n)%nat -> (n < inner)%nat -> (n < outer)%nat ->
  drained self acc (drain_from inner outer self acc).
Proof.
  induction n as [n IH] using lt_wf_ind. intros [|inner] outer self acc Hok Hn Hi Ho; [lia|]. unfold drain_from.
  pose proof (next_event_loop_eq inner self Hok) as Heq.
  assert (forall self' acc, decoder_ok self' -> (length (rest_of self') < n)%nat ->
    (length (rest_of self') <= length (sd_buffer self'))%nat ->
    drained self' acc (drain_loop process outer self' acc)) as Houter.
  { intros self' acc' Hok' Hlt Hb. destruct outer as [|outer]; [lia|].
    apply (IH (length (rest_of self'))); [done..|lia|lia|lia]. }
  destruct (cut (rest_of self)) as [[[f d] rest]|] eqn:Hc.
  - destruct (past_frame_ok self f d rest Hok Hc) as [Hok' Hrest'].
    assert (length rest < n)%nat as Hlt.
    { destruct (cut_shape _ _ _ _ Hc) as (delimiter & Hl & -> & ?). rewrite Hl, !length_app in Hn. lia. }
    pose proof (process_chunk_cons acc _ _ _ _ Hc) as Hp. unfold process_frame in Hp.
    destruct (_ <? _) eqn:Hsize; [destruct Heq as (cursor & _ & ->); by apply drained_error|].
    destruct (parse_sse_event f) as [[event|]|error] eqn:Hparse.
    + rewrite Heq. simpl. destruct (process acc event) as [acc1 [[]|error]] eqn:Hpr; [|by apply drained_error].
      apply (drained_frame self f d rest acc _ Hok Hc Hsize acc1); [unfold process_frame; by rewrite Hparse|].
      apply Houter; [done|by rewrite Hrest'|]. unfold rest_of. rewrite length_drop. lia.
    + rewrite Heq. apply (drained_frame self f d rest acc _ Hok Hc Hsize acc); [unfold process_frame; by rewrite Hparse|].
      apply (IH (length rest)); [done..|by rewrite Hrest'|lia|lia].
    + destruct Heq as (cursor & _ & ->). by apply drained_error.
  - destruct Heq as (cursor & Hok' & ->). apply drained_scanned with cursor.
    apply (drain_from_end n); [done..|]. intros acc' Hne. destruct (consumed_all_ok _ Hok') as [Hok'' Hrest''].
    apply Houter; [done|rewrite Hrest''|rewrite Hrest''; simpl; lia].
    change (rest_of (scanned_to self cursor)) with (rest_of self) in Hne. destruct (rest_of self); [done|simpl in *; lia].
Qed.

Lemma drain_spec self acc : decoder_ok self -> drained self acc (drain process self acc).
Proof.
  intros Hok. assert (length (rest_of self) <= length (sd_buffer self))%nat by (unfold rest_of; rewrite length_drop; lia).
  change (drained self acc (drain_from (S (length (sd_buffer self))) (S (length (sd_buffer self))) self acc)).
  apply (drain_from_spec (length (rest_of self))); [done..|lia|lia].
Qed.

End Drained.

(** ** Facts: text that goes on *)

Lemma cut_delimiter l frame d rest :
  cut l = Some (frame, d, rest) ->
  exists delimiter, l = frame ++ delimiter ++ rest /\ d = length delimiter /\
    delimiter ∈ [[LF; LF]; CRLF_DELIMITER].
Proof.
  revert frame. induction l as [|c l IH]; intros frame; [done|].
  destruct (starts_with (c :: l) [LF; LF]) eqn:H1.
  { apply starts_with_spec in H1 as [r [= -> ->]]. rewrite cut_lf. intros [= <- <- <-]. exists [LF; LF].
    split_and!; [done..|]. by left. }
  destruct (starts_with (c :: l) CRLF_DELIMITER) eqn:H2.
  { apply starts_with_spec in H2 as [r Hr]. rewrite Hr, cut_crlf. intros [= <- <- <-]. exists CRLF_DELIMITER.
    split_and!; [done..|]. right. by left. }
  rewrite cut_cons by done. destruct (cut l) as [[[f d'] r]|]; [|done]. intros [= <- <- <-].
  destruct (IH f eq_refl) as (delimiter & -> & -> & Hd). by exists delimiter.
Qed.

Lemma cut_app l frame d rest x :
  cut l = Some (frame, d, rest) -> cut (l ++ x) = Some (frame, d, rest ++ x).
Proof.
  intros Hc. pose proof (scan_spec l 0) as Hs. destruct (scan l 0) as [cursor [[e d']|]]; [|by destruct Hs; congruence].
  destruct Hs as (f & r & _ & _ & Hc' & [_ Hn]). rewrite Hc in Hc'. injection Hc' as <- <- <-.
  rewrite Hn. destruct (cut_delimiter _ _ _ _ Hc) as (delimiter & -> & -> & Hd).
  rewrite take_app_length, drop_app_length, <- app_assoc.
  assert (cut (delimiter ++ rest ++ x) = Some ([], length delimiter, rest ++ x)) as ->.
  { apply elem_of_cons in Hd as [->|Hd]; [apply cut_lf|]. apply list_elem_of_singleton in Hd as ->. apply cut_crlf. }
  simpl. by rewrite app_nil_r.
Qed.

(** A frame that was not complete ends in the new text. *)
Lemma cut_app_none l x frame d rest :
  cut l = None -> cut (l ++ x) = Some (frame, d, rest) -> (length l < length frame + d)%nat.
Proof.
  intros Hn Hc. apply not_le. intros Hle. destruct (cut_delimiter _ _ _ _ Hc) as (delimiter & Heq & -> & Hd).
  assert (exists r, l = frame ++ delimiter ++ r) as [r Hr].
  { exists (drop (length frame + length delimiter) l).
    rewrite app_assoc in Heq. rewrite app_assoc, <- length_app in *. apply (f_equal (take (length (frame ++ delimiter)))) in Heq.
    rewrite take_app_le, take_app_length in Heq by lia. rewrite <- Heq at 1. by rewrite take_drop. }
  clear Heq Hc Hle. revert l Hn Hr. induction frame as [|c frame IH]; intros l Hn ->; cbn [app] in Hn.
  - apply elem_of_cons in Hd as [->|Hd].
    + by rewrite (cut_lf_app r) in Hn.
    + apply list_elem_of_singleton in Hd as ->. by rewrite cut_crlf in Hn.
  - destruct (starts_with (c :: frame ++ delimiter ++ r) [LF; LF]) eqn:H1.
    { apply starts_with_spec in H1 as [y Hy]. by rewrite Hy, (cut_lf_app y) in Hn. }
    destruct (starts_with (c :: frame ++ delimiter ++ r) CRLF_DELIMITER) eqn:H2.
    { apply starts_with_spec in H2 as [y Hy]. by rewrite Hy, cut_crlf in Hn. }
    rewrite cut_cons in Hn by done. apply fmap_None in Hn. by apply (IH _ Hn).
Qed.

Lemma split_rest_no_cut l : cut (snd (split_frames l)) = None.
Proof.
  induction l as [l IH] using (induction_ltof1 _ length). rewrite split_frames_eq.
  destruct (cut l) as [[[f d] rest]|] eqn:Hc; [|done].
  destruct (cut_shape _ _ _ _ Hc) as (delimiter & -> & -> & ?).
  specialize (IH rest). destruct (split_frames rest). apply IH. unfold ltof. rewrite !length_app. lia.
Qed.

Section Feeding.
  Context {A E : Type} {from : FromProtocol E} (process : A -> SseEvent -> A * result unit E).

Lemma process_chunk_app l x : forall acc,
  process_chunk process acc (l ++ x) =
    let '(acc, processed) := process_chunk process acc l in
    match processed with
    | Err error => (acc, Err error)
    | Ok _ => process_chunk process acc (snd (split_frames l) ++ x)
    end.
Proof.
  induction l as [l IH] using (induction_ltof1 _ length). intros acc. rewrite (split_frames_eq l).
  destruct (cut l) as [[[f d] rest]|] eqn:Hc.
  - rewrite (process_chunk_cons process acc _ _ _ _ Hc), (process_chunk_cons process acc _ _ _ _ (cut_app _ _ _ _ x Hc)).
    destruct (_ <? _); [done|]. destruct (process_frame process acc f) as [acc1 [[]|e]]; [|done].
    rewrite IH; [by destruct (split_frames rest)|]. destruct (cut_shape _ _ _ _ Hc) as (delimiter & -> & -> & ?).
    unfold ltof. rewrite !length_app. lia.
  - rewrite (process_chunk_none process acc l Hc). destruct (_ <? _) eqn:Hlen; [|done]. apply Z.ltb_lt in Hlen.
    destruct (cut (l ++ x)) as [[[f d] rest]|] eqn:Hcx.
    + rewrite (process_chunk_cons process acc _ _ _ _ Hcx). pose proof (cut_app_none _ _ _ _ _ Hc Hcx).
      by rewrite (proj2 (Z.ltb_lt _ _)) by lia.
    + rewrite (process_chunk_none process acc _ Hcx). rewrite length_app. by rewrite (proj2 (Z.ltb_lt _ _)) by lia.
Qed.

Lemma split_rest_app l x : snd (split_frames (l ++ x)) = snd (split_frames (snd (split_frames l) ++ x)).
Proof.
  induction l as [l IH] using (induction_ltof1 _ length). rewrite (split_frames_eq l).
  destruct (cut l) as [[[f d] rest]|] eqn:Hc; [|done].
  rewrite split_frames_eq, (cut_app _ _ _ _ x Hc).
  transitivity (snd (split_frames (rest ++ x))); [by destruct (split_frames (rest ++ x))|].
  rewrite IH; [by destruct (split_frames rest)|]. destruct (cut_shape _ _ _ _ Hc) as (delimiter & -> & -> & ?).
  unfold ltof. rewrite !length_app. lia.
Qed.

Lemma compact_spec self :
  decoder_ok self -> exists self', compact self = Some self' /\ decoder_ok self' /\
    rest_of self' = rest_of self /\ (length (sd_buffer self') <= length (sd_buffer self))%nat /\
    sd_total_bytes self' = sd_total_bytes self /\ sd_finished self' = sd_finished self.
Proof.
  intros Hok. pose proof Hok as [[Ho1 Ho2] Hscanned Hs Ht]. unfold compact.
  destruct (Nat.eqb_spec (sd_consumed_offset self) 0); [by exists self|]. rewrite slice_drop by lia. simpl.
  eexists. split; [reflexivity|]. split_and!; simpl; [|done| |done..].
  - split; simpl; rewrite ?length_drop; [lia| |lia..]. unfold rest_of in *. simpl. by rewrite Nat.sub_0_r, drop_0.
  - rewrite length_drop. lia.
Qed.

Lemma append_spec self chunk :
  decoder_ok self -> sd_finished self = false ->
  sd_total_bytes self + Z.of_nat (length chunk) <= MAX_STREAM_AGGREGATE_TOTAL_BYTES ->
  exists self', append self chunk = Some (self', Ok tt) /\ decoder_ok self' /\
    rest_of self' = rest_of self ++ chunk /\ sd_finished self' = false /\
    sd_total_bytes self' = sd_total_bytes self + Z.of_nat (length chunk).
Proof.
  intros Hok Hf Htotal. unfold append. destruct (is_empty chunk) eqn:He.
  { destruct chunk; [|done]. exists self. rewrite app_nil_r. simpl. rewrite Z.add_0_r. done. }
  rewrite Hf. unfold checked_add_usize.
  rewrite (proj2 (Z.leb_le _ _)) by (unfold MAX_STREAM_AGGREGATE_TOTAL_BYTES, usize_max, u64_max in *; lia).
  cbn [opt_filter]. rewrite (proj2 (Z.leb_le _ _)) by done. cbn iota beta.
  destruct (compact_spec
    {| self with sd_total_bytes := sd_total_bytes self + Z.of_nat (length chunk); sd_finished := false |})
    as (self' & -> & [[Ho1 Ho2] Hsc Hs Ht] & Hr & Hlen & Htot & Hfin).
  { destruct Hok as [? ? ? ?]. split; simpl; [done..|lia|lia]. }
  simpl in *. eexists. split; [reflexivity|].
  assert (rest_of {| self' with sd_buffer := sd_buffer self' ++ chunk |} = rest_of self' ++ chunk) as Happ.
  { unfold rest_of. simpl. apply drop_app_le. lia. }
  destruct Hok as [? ? ? ?]. split_and!; [|by rewrite Happ, Hr|by rewrite Hfin|done]. split; simpl.
  - rewrite length_app. lia.
  - rewrite Happ. by apply no_cut_app.
  - rewrite length_app. lia.
  - lia.
Qed.

Lemma feed_spec chunks : forall self acc,
  decoder_ok self -> sd_finished self = false ->
  sd_total_bytes self + Z.of_nat (length (concat chunks)) <= MAX_STREAM_AGGREGATE_TOTAL_BYTES ->
  process_chunk process acc (rest_of self) = (acc, Ok tt) -> cut (rest_of self) = None ->
  exists self' acc' r, feed process self acc chunks = Some (self', acc', r) /\
    (acc', r) = process_chunk process acc (rest_of self ++ concat chunks) /\
    (r = Ok tt -> decoder_ok self' /\ sd_finished self' = false /\
       rest_of self' = snd (split_frames (rest_of self ++ concat chunks))).
Proof.
  induction chunks as [|chunk chunks IH]; intros self acc Hok Hf Ht Hp Hn; simpl in *.
  - exists self, acc, (Ok tt). rewrite app_nil_r, Hp, split_frames_eq, Hn. done.
  - rewrite length_app in Ht. destruct (append_spec self chunk Hok Hf) as (s1 & -> & Hok1 & Hr1 & Hf1 & Ht1); [lia|].
    simpl. destruct (drain_spec process s1 acc Hok1) as (s2 & acc2 & r2 & -> & Hacc2 & Hafter). simpl.
    rewrite Hf1, Hr1 in Hacc2. rewrite app_assoc, (process_chunk_app (_ ++ chunk)), (split_rest_app (_ ++ chunk)).
    destruct (process_chunk process acc (rest_of self ++ chunk)) as [acc1 [[]|error]] eqn:Hpc; injection Hacc2 as -> ->;
      [|by exists s2, acc1, (Err error)].
    destruct (Hafter eq_refl) as (Hok2 & Hr2 & Ht2 & Hf2). unfold decoder_end in Hr2. rewrite Hf1, Hr1 in Hr2.
    rewrite <- Hr2. apply IH; [done|congruence|lia| |rewrite Hr2; apply split_rest_no_cut].
    rewrite process_chunk_none by (rewrite Hr2; apply split_rest_no_cut). rewrite Hr2. revert Hpc.
    unfold process_chunk. destruct (split_frames (rest_of self ++ chunk)) as [fs r]. simpl.
    destruct (process_frames process acc fs) as [a [[]|?]]; [|done]. by destruct (_ <? _).
Qed.

End Feeding.

Lemma SseDecoder_new_ok : decoder_ok SseDecoder_new.
Proof. split; simpl; [lia|apply no_cut_0|lia|done]. Qed.

Lemma decode_stream_text {A E} {from : FromProtocol E} (process : A -> SseEvent -> A * result unit E) acc chunks :
  Z.of_nat (length (concat chunks)) <= MAX_STREAM_AGGREGATE_TOTAL_BYTES ->
  decode_stream process acc chunks = Some (process_text process acc (concat chunks)).
Proof.
  intros Ht. unfold decode_stream.
  destruct (feed_spec process chunks SseDecoder_new acc SseDecoder_new_ok)
    as (s & acc1 & r & -> & Hr & Hafter); [done..|]. simpl.
  change (rest_of SseDecoder_new ++ concat chunks) with (concat chunks) in *.
  unfold process_text. unfold process_chunk in Hr.
  destruct (split_frames (concat chunks)) as [frames rest] eqn:Hsplit.
  destruct (process_frames process acc frames) as [acc2 [[]|error]] eqn:Hp; [|by injection Hr as -> ->].
  destruct (_ <? _) eqn:Hlen; injection Hr as -> ->; [done|].
  destruct (Hafter eq_refl) as (Hok & Hf & Hrest). simpl in Hrest.
  assert (cut rest = None) as Hn.
  { pose proof (split_rest_no_cut (concat chunks)) as Hno. by rewrite Hsplit in Hno. }
  assert (decoder_ok (decoder_finish s)) as Hok' by (by destruct Hok).
  destruct (drain_spec process (decoder_finish s) acc2 Hok') as (s3 & acc3 & r3 & -> & Hr3 & _). simpl in Hr3 |- *.
  change (rest_of (decoder_finish s)) with (rest_of s) in Hr3.
  rewrite Hrest, process_chunk_none, Hlen, split_frames_eq, Hn in Hr3 by done. simpl in Hr3.
  unfold process_rest in Hr3. by rewrite <- Hr3.
Qed.

(** C13. The decoder refines the reference: however a response is cut into chunks, the
    reader that drains the decoder after each of them, and once more at the end, sees
    exactly the events of the whole text, in order, and stops with the same error at
    the same place, as long as the response is within the limit. In particular the
    chunks do not matter, nothing panics and the loops end. *)
Theorem decode_stream_refines {A E} {from : FromProtocol E} (process : A -> SseEvent -> A * result unit E) acc chunks :
  Z.of_nat (length (concat chunks)) <= MAX_STREAM_AGGREGATE_TOTAL_BYTES ->
  decode_stream process acc chunks = Some (process_text process acc (concat chunks)).
Proof. apply decode_stream_text. Qed.

(** ** Any use of a decoder *)

Inductive decoder_event :=
| DAppend (chunk : byte_string)
| DNext
| DFinish.

Definition decoder_step (self : SseDecoder) (event : decoder_event) : option SseDecoder :=
  match event with
  | DAppend chunk => fst <$> append self chunk
  | DNext => fst <$> next_event self
  | DFinish => Some (decoder_finish self)
  end.

Fixpoint run_decoder (self : SseDecoder) (events : list decoder_event) : option SseDecoder :=
  match events with
  | [] => Some self
  | event :: events => self ← decoder_step self event; run_decoder self events
  end.

Lemma pending_event_ok self :
  decoder_ok self -> exists self' r, pending_event self = Some (self', r) /\ decoder_ok self' /\
    sd_total_bytes self' = sd_total_bytes self.
Proof.
  intros Hok. rewrite pending_event_eq by done. destruct (_ <? _); [eauto|].
  destruct (_ && _); [|eauto]. destruct (parse_sse_event _); [|eauto].
  do 2 eexists. split; [done|]. by split; [apply consumed_all_ok|].
Qed.

Lemma next_event_ok n : forall fuel self,
  decoder_ok self -> (length (rest_of self) <= n)%nat -> (n < fuel)%nat ->
  exists self' r, next_event_loop fuel self = Some (self', r) /\ decoder_ok self' /\
    sd_total_bytes self' = sd_total_bytes self.
Proof.
  induction n as [n IH] using lt_wf_ind. intros [|fuel] self Hok Hn Hf; [lia|].
  pose proof (next_event_loop_eq fuel self Hok) as Heq.
  destruct (cut (rest_of self)) as [[[f d] rest]|] eqn:Hc.
  - destruct (past_frame_ok self f d rest Hok Hc) as [Hok' Hrest'].
    destruct (_ <? _); [destruct Heq as (cursor & ? & ->); eauto|].
    destruct (parse_sse_event f) as [[event|]|error]; [rewrite Heq; eauto| |destruct Heq as (cursor & ? & ->); eauto].
    rewrite Heq. apply (IH (length rest)) with (self := past_frame self (length f + d)); [|done|by rewrite Hrest'|];
      destruct (cut_shape _ _ _ _ Hc) as (delimiter & Hl & -> & ?); rewrite Hl, !length_app in Hn; lia.
  - destruct Heq as (cursor & Hok' & ->).
    destruct (pending_event_ok _ Hok') as (self' & r & ? & ? & ?). eauto.
Qed.

Lemma append_ok self chunk :
  decoder_ok self -> exists self' r, append self chunk = Some (self', r) /\ decoder_ok self' /\
    (r = Ok tt -> chunk <> [] -> sd_finished self = false /\
       sd_total_bytes self' = sd_total_bytes self + Z.of_nat (length chunk)) /\
    (r <> Ok tt -> self' = self).
Proof.
  intros Hok. destruct (is_empty chunk) eqn:He; [unfold append; rewrite He; exists self, (Ok tt); by destruct chunk|].
  destruct (sd_finished self) eqn:Hf.
  { unfold append. rewrite He, Hf. by eexists _, _. }
  destruct (Z.leb_spec (sd_total_bytes self + Z.of_nat (length chunk)) MAX_STREAM_AGGREGATE_TOTAL_BYTES) as [Hle|Hgt].
  { destruct (append_spec self chunk Hok Hf Hle) as (self' & -> & ? & _ & _ & ?). by exists self', (Ok tt). }
  unfold append. rewrite He, Hf. replace (opt_filter _ _) with (@None Z); [by eexists _, _|].
  unfold checked_add_usize. destruct (_ <=? usize_max); [|done]. simpl. by rewrite (proj2 (Z.leb_gt _ _)) by done.
Qed.

(** A decoder is safe in any use. Whatever is appended, read and finished in
    whatever order, after errors too, nothing panics and every call ends; the decoder
    holds at most the bytes it was given, and those are never more than the limit of
    a response; and an error of [append] changes nothing. *)
Theorem decoder_safe events :
  exists self, run_decoder SseDecoder_new events = Some self /\
    (sd_consumed_offset self <= sd_scan_cursor self <= length (sd_buffer self))%nat /\
    Z.of_nat (length (sd_buffer self)) <= sd_total_bytes self <= MAX_STREAM_AGGREGATE_TOTAL_BYTES /\
    forall chunk, exists self' r, append self chunk = Some (self', r) /\ (r <> Ok tt -> self' = self).
Proof.
  assert (forall self, decoder_ok self -> exists self', run_decoder self events = Some self' /\ decoder_ok self') as Hrun.
  { induction events as [|[chunk| |] events IH]; intros self Hok; simpl.
    - by exists self.
    - destruct (append_ok self chunk Hok) as (self' & r & -> & Hok' & _). by apply IH.
    - destruct (next_event_ok (length (rest_of self)) (S (length (sd_buffer self))) self) as (self' & r & Hr & Hok' & _);
        [done|lia|unfold rest_of; rewrite length_drop; lia|]. unfold next_event. rewrite Hr. by apply IH.
    - apply IH. by destruct Hok. }
  destruct (Hrun _ SseDecoder_new_ok) as (self & Hself & Hok). exists self. pose proof Hok as [? ? ? ?].
  split_and!; try (done || lia). intros chunk. destruct (append_ok self chunk Hok) as (self' & r & ? & _ & _ & ?). eauto.
Qed.

(** ** Witnesses *)

Definition crlf_line (s : string) : byte_string := bytes s ++ [CR; LF].
Definition lf_line (s : string) : byte_string := bytes s ++ [LF].

(** A comment, a frame with [CRLF], one with two lines of data, and an unfinished one. *)
Definition sample_text : byte_string :=
  crlf_line ": keepalive" ++ [CR; LF] ++ crlf_line "event: ready" ++ crlf_line "data: one" ++ [CR; LF]
  ++ lf_line "data: two" ++ lf_line "data:three" ++ [LF] ++ bytes "data: four".

Definition sample_events : list SseEvent :=
  [{| ev_event_type := Some "ready"; ev_data := "one" |};
   {| ev_event_type := None; ev_data := text (bytes "two" ++ [LF] ++ bytes "three") |};
   {| ev_event_type := None; ev_data := "four" |}].

Definition collect (acc : list SseEvent) (event : SseEvent) : list SseEvent * result unit ProtocolError :=
  (acc ++ [event], Ok tt).

Definition byte_by_byte (l : byte_string) : list byte_string := (fun c => [c]) <$> l.

Lemma concat_byte_by_byte l : concat (byte_by_byte l) = l.
Proof. induction l as [|c l IH]; [done|]. simpl. f_equal. apply IH. Qed.

Lemma decode_stream_refines_witness :
  decode_stream collect [] (byte_by_byte sample_text) = Some (sample_events, Ok tt).
Proof.
  rewrite (decode_stream_refines collect [] (byte_by_byte sample_text)); rewrite (concat_byte_by_byte sample_text);
    vm_compute; [reflexivity|discriminate].
Defined.
