(* ===== verification/ToolArguments.v ===== *)
(** * Arguments of tool calls

    How [src/src/protocol.rs] cleans the argument text of a tool call before it crosses
    a protocol boundary ([normalize_tool_arguments]) and how it collects the fragments
    of a streamed call ([merge_tool_call_arguments]).

    serde_json is a parameter: [json_stream] gives what [Deserializer::into_iter] yields
    on a text, up to and including the first error ([None]); [complete_json] is
    [from_str::<Value>(_).is_ok()]; [print_json] is [Value::to_string]. Log events are
    left out; the repair that they report is part of the result. *)

From S2P Require Import Prelude ModelIdentity Protocol Json.

Local Open Scope Z_scope.

Inductive ToolArgumentsRepairReason :=
| TrailingData
| Unparseable.

#[export] Instance ToolArgumentsRepairReason_eq_dec : EqDecision ToolArgumentsRepairReason.
Proof. solve_decision. Defined.

Record ToolArgumentsContext := {
  ac_strict : bool;
  ac_model : option string;
  ac_request_id : option string;
  ac_upstream_id : option string
}.

Definition is_object (value : Value) : bool := is_some (as_object value).

(** The loop over the values after the first: whether there was anything, and the last
    object before an error. *)
Fixpoint walk_trailing (last_object : option Value) (items : list (option Value)) : option Value :=
  match items with
  | [] => last_object
  | Some value :: items => walk_trailing (if is_object value then Some value else last_object) items
  | None :: _ => last_object
  end.

Inductive ToolCallArgumentsMerge :=
| Appended
| ReplacedCompleteThenNew.

#[export] Instance ToolCallArgumentsMerge_eq_dec : EqDecision ToolCallArgumentsMerge.
Proof. solve_decision. Defined.

(** [fragment.as_bytes().first()] opens a value: a brace, a bracket or a quote. *)
Definition opens_value (fragment : string) : bool :=
  match bytes fragment with
  | [] => false
  | byte :: _ => existsb (fun opening => bool_decide (byte = opening)) (code [123; 91; 34])
  end.

Section Arguments.
  Variable json_stream : string -> list (option Value).
  Variable print_json : Value -> string.

Definition normalize_tool_arguments (raw : string) : string * option ToolArgumentsRepairReason :=
  let trimmed := trim raw in
  if str_is_empty trimmed then ("{}", None)
  else
    match json_stream trimmed with
    | [] => ("{}", None)
    | None :: _ => (raw, Some Unparseable)
    | Some _ :: [] => (raw, None)
    | Some first :: rest =>
        match walk_trailing None rest with
        | Some object => (print_json object, Some TrailingData)
        | None => (print_json first, Some TrailingData)
        end
    end.

Definition normalize_tool_arguments_for_request (raw : string) (ctx : ToolArgumentsContext) (call_id : string)
    : result string ProtocolError :=
  let '(normalized, repair) := normalize_tool_arguments raw in
  if ac_strict ctx && bool_decide (repair = Some Unparseable)
  then Err (InvalidPayload ("tool call `" +:+ call_id +:+ "` has arguments that are not valid JSON (tool_arguments_strict)"))
  else Ok normalized.

(** ** What the normalisation gives

    The documented behaviour of serde_json that it relies on: a printed value is read
    back, and an empty text holds no value. *)

Definition complete_value (text : string) : Prop := exists value, json_stream (trim text) = [Some value].

Hypothesis stream_of_printed : forall text value,
  Some value ∈ json_stream text -> json_stream (trim (print_json value)) = [Some value].
Hypothesis stream_of_nothing : json_stream "" = [].
Hypothesis stream_of_braces : json_stream "{}" = [Some (JObject [])].

Lemma walk_trailing_elem last items value :
  walk_trailing last items = Some value -> last = Some value \/ Some value ∈ items.
Proof.
  revert last. induction items as [|[item|] items IH]; intros last; simpl; [by left| |by left].
  intros [Hv|Hv]%IH; [|right; by right]. case_match; [|by left]. simplify_eq. right. by left.
Qed.

Lemma complete_normalized text :
  complete_value text -> normalize_tool_arguments text = (text, None).
Proof.
  intros [value Hv]. unfold normalize_tool_arguments. rewrite Hv.
  destruct (str_is_empty (trim text)) eqn:He; [|done]. apply str_is_empty_true in He.
  by rewrite He, stream_of_nothing in Hv.
Qed.

(** Something can be read: the text does not begin with an error. *)
Definition readable (raw : string) : bool := match json_stream (trim raw) with None :: _ => false | _ => true end.

Definition reads_as (text : string) (value : Value) : Prop := json_stream (trim text) = [Some value].

(** The value is one of those in the text, or the placeholder if the text holds none. *)
Definition value_of (raw : string) (value : Value) : Prop :=
  Some value ∈ json_stream (trim raw) \/ (json_stream (trim raw) = [] /\ value = JObject []).

Lemma normalize_readable raw :
  readable raw = true ->
  exists normalized repair value, normalize_tool_arguments raw = (normalized, repair) /\ repair <> Some Unparseable /\
    reads_as normalized value /\ value_of raw value.
Proof.
  unfold readable, normalize_tool_arguments, value_of, reads_as. intros Hr.
  destruct (str_is_empty (trim raw)) eqn:He.
  { apply str_is_empty_true in He. rewrite He, stream_of_nothing. eexists "{}", _, (JObject []).
    split_and!; [done|done|exact stream_of_braces|by right]. }
  destruct (json_stream (trim raw)) as [|[first|] rest] eqn:Hs; [|clear Hr|done].
  { eexists "{}", _, (JObject []). split_and!; [done|done|exact stream_of_braces|by right]. }
  assert (Hp : forall value, Some value ∈ Some first :: rest -> json_stream (trim (print_json value)) = [Some value])
    by (intros value Hv; apply (stream_of_printed (trim raw)); by rewrite Hs).
  destruct rest as [|item rest]; [eexists raw, _, first; split_and!; [done..|left; by left]|].
  destruct (walk_trailing None (item :: rest)) as [object|] eqn:Hw.
  - apply walk_trailing_elem in Hw as [|Hw]; [done|]. eexists _, _, object. split_and!; [done..| |left; by right].
    apply Hp. by right.
  - eexists _, _, first. split_and!; [done..| |left; by left]. apply Hp. by left.
Qed.

Lemma normalize_unreadable raw : readable raw = false -> normalize_tool_arguments raw = (raw, Some Unparseable).
Proof.
  unfold readable, normalize_tool_arguments. intros Hr. destruct (str_is_empty (trim raw)) eqn:He.
  { apply str_is_empty_true in He. by rewrite He, stream_of_nothing in Hr. }
  by destruct (json_stream (trim raw)) as [|[|] ?].
Qed.

(** C35. Arguments of which something can be read pass, in strict mode too: what passes is
    one complete value, which is one of those in the text (or an empty object for a text
    that holds none); a text that is one complete value is not touched, so passing again
    changes nothing. A text that begins with an error is refused in strict mode, and left
    alone otherwise. *)
Theorem normalized_arguments_complete raw ctx call_id :
  let request text := normalize_tool_arguments_for_request text ctx call_id in
  if readable raw then
    exists normalized value, request raw = Ok normalized /\ reads_as normalized value /\ value_of raw value /\
      (complete_value raw -> normalized = raw) /\ request normalized = Ok normalized
  else
    request raw = if ac_strict ctx
      then Err (InvalidPayload ("tool call `" +:+ call_id +:+ "` has arguments that are not valid JSON (tool_arguments_strict)"))
      else Ok raw.
Proof.
  cbv zeta. destruct (readable raw) eqn:Hr; unfold normalize_tool_arguments_for_request at 1.
  - destruct (normalize_readable raw Hr) as (normalized & repair & value & Hn & Hrep & Hreads & Hv). rewrite Hn.
    rewrite bool_decide_eq_false_2, andb_false_r by done. exists normalized, value. split_and!; [done..| |].
    + intros Hc%complete_normalized. congruence.
    + unfold normalize_tool_arguments_for_request. rewrite complete_normalized by (by exists value).
      by rewrite bool_decide_eq_false_2, andb_false_r.
  - rewrite (normalize_unreadable raw Hr), bool_decide_eq_true_2, andb_true_r by done. done.
Qed.

End Arguments.

(** ** Collecting fragments *)

Section Fragments.
  Variable complete_json : string -> bool.

(** The arguments collected so far and a further fragment. *)
Definition merge_tool_call_arguments (arguments fragment : string) (strict : bool)
    : string * ToolCallArgumentsMerge :=
  if strict && negb (str_is_empty arguments) && complete_json arguments && opens_value fragment
  then (fragment, ReplacedCompleteThenNew)
  else (arguments +:+ fragment, Appended).

(** The fragments of a call add up to its arguments, except that a fragment that
    opens a value after a complete one replaces it, in strict mode. *)
Lemma merge_spec arguments fragment strict :
  let '(merged, how) := merge_tool_call_arguments arguments fragment strict in
  (how = Appended /\ merged = arguments +:+ fragment) \/
  (how = ReplacedCompleteThenNew /\ merged = fragment /\ strict = true /\ complete_json arguments = true).
Proof. unfold merge_tool_call_arguments. destruct (_ && _) eqn:H; bool_prop; [by right|by left]. Qed.

End Fragments.

(** ** Witnesses *)

(** A reader that knows the placeholder, one object, and the two run together. *)
Definition ls_object : Value := json_object [("c", JString "ls")].
Definition quote : string := text (code [34]).
Definition ls_text : string := "{" +:+ quote +:+ "c" +:+ quote +:+ ":" +:+ quote +:+ "ls" +:+ quote +:+ "}".

Definition sample_stream (text : string) : list (option Value) :=
  if String.eqb text "{}" then [Some (JObject [])]
  else if String.eqb text ls_text then [Some ls_object]
  else if String.eqb text ("{}" +:+ ls_text) then [Some (JObject []); Some ls_object]
  else if str_is_empty text then []
  else [None].

Definition sample_print (value : Value) : string := if bool_decide (get value "c" = None) then "{}" else ls_text.

Lemma sample_printed text value :
  Some value ∈ sample_stream text -> sample_stream (trim (sample_print value)) = [Some value].
Proof.
  unfold sample_stream at 1. repeat case_match; rewrite ?elem_of_cons, ?elem_of_nil; intros; destruct_or?; simplify_eq;
    vm_compute; reflexivity.
Qed.

Lemma normalized_arguments_complete_witness :
  let ctx := {| ac_strict := true; ac_model := None; ac_request_id := None; ac_upstream_id := None |} in
  let request text := normalize_tool_arguments_for_request sample_stream sample_print text ctx "call" in
  request ("{}" +:+ ls_text) = Ok ls_text /\ request ls_text = Ok ls_text /\ is_ok (request "oops") = false.
Proof.
  intros ctx request.
  assert (H : request ("{}" +:+ ls_text) = Ok ls_text) by (vm_compute; reflexivity).
  pose proof (normalized_arguments_complete sample_stream sample_print sample_printed eq_refl eq_refl
    ("{}" +:+ ls_text) ctx "call") as Hn.
  destruct Hn as (normalized & value & Hr & _ & _ & _ & Hagain). unfold request in *. rewrite H in Hr. injection Hr as <-.
  split_and!; [exact H|exact Hagain|vm_compute; reflexivity].
Defined.
