(* ===== verification/ToolAdapter.v ===== *)
(** * Tools by other names

    [src/src/protocol/tool_adapter.rs]: tools of the Responses protocol (functions,
    custom tools, members of namespaces) go to an upstream that only knows functions
    under names of its own, and the calls that come back are given their identity
    again.

    SHA-256 is the parameter [sha256], as bytes; [{:x}] prints it with [hex]. serde_json
    is the parameters [parse_json] ([None] is an error, [json_error] its message) and
    [print_json]. [None] as the outer result of the naming functions is a loop that runs
    out of fuel, which [generated_name_total] excludes. The characters that
    [sanitize_middle] replaces form runs, so that working on bytes gives the same text
    as working on characters. *)

From Stdlib Require OrdersEx.
From S2P Require Import Prelude ModelIdentity Protocol Json ToolArguments.

Local Open Scope Z_scope.

(** ** Data *)

Inductive ToolKind :=
| Function
| Custom
| NamespaceMember.

#[export] Instance ToolKind_eq_dec : EqDecision ToolKind.
Proof. solve_decision. Defined.

Record ToolIdentity := {
  ti_kind : ToolKind;
  ti_namespace : option string;
  ti_name : string
}.

#[export] Instance ToolIdentity_eq_dec : EqDecision ToolIdentity.
Proof. solve_decision. Defined.

Record ToolMapping := {
  tm_identity : ToolIdentity;
  tm_upstream_name : string
}.

Record ToolAdapterRegistry := {
  ta_version : Z;
  ta_mappings : list ToolMapping
}.

Inductive ToolTarget :=
| NativeResponses
| RestrictedResponses
| FunctionsOnly.

#[export] Instance ToolTarget_eq_dec : EqDecision ToolTarget.
Proof. solve_decision. Defined.

Record ToolAdaptation := {
  ad_upstream_tools : list Value;
  ad_registry : ToolAdapterRegistry;
  ad_downgrades : list string
}.

Inductive ToolPolicyDecision :=
| Keep
| DropOptional (downgrade : string)
| Reject (category : string).

Definition UNSUPPORTED_CATEGORY : string := "gateway_protocol_capability_unsupported".

Definition is_hosted (kind : string) : bool :=
  existsb (String.eqb kind) ["web_search"; "file_search"; "computer_use"].

Definition hosted_tool_decision (kind : string) (route_supports_kind explicitly_selected : bool)
    (executable_tool_count_after_drop : nat) : ToolPolicyDecision :=
  if negb (is_hosted kind) then Reject UNSUPPORTED_CATEGORY
  else if route_supports_kind then Keep
  else if explicitly_selected || Nat.eqb executable_tool_count_after_drop 0 then Reject UNSUPPORTED_CATEGORY
  else DropOptional ("optional_tool:" +:+ kind).

Definition function_identity (name : string) : ToolIdentity :=
  {| ti_kind := Function; ti_namespace := None; ti_name := name |}.

Definition namespace_identity (namespace name : string) : ToolIdentity :=
  {| ti_kind := NamespaceMember; ti_namespace := Some namespace; ti_name := name |}.

Definition custom_identity (namespace : option string) (name : string) : ToolIdentity :=
  {| ti_kind := Custom; ti_namespace := namespace; ti_name := name |}.

(** ** The registry *)

Definition VERSION : Z := 1.

Definition registry_empty : ToolAdapterRegistry := {| ta_version := VERSION; ta_mappings := [] |}.

Definition mapping_for_identity (self : ToolAdapterRegistry) (identity : ToolIdentity) : option ToolMapping :=
  List.find (fun mapping => bool_decide (tm_identity mapping = identity)) (ta_mappings self).

Definition mapping_for_name (self : ToolAdapterRegistry) (upstream_name : string) : option ToolMapping :=
  List.find (fun mapping => String.eqb (tm_upstream_name mapping) upstream_name) (ta_mappings self).

Definition registry_upstream_name (self : ToolAdapterRegistry) (identity : ToolIdentity) : option string :=
  tm_upstream_name <$> mapping_for_identity self identity.

Definition registry_identity (self : ToolAdapterRegistry) (upstream_name : string) : option ToolIdentity :=
  tm_identity <$> mapping_for_name self upstream_name.

Definition restore_streamed_call_name (self : ToolAdapterRegistry) (upstream_name : string)
    : result ToolIdentity ProtocolError :=
  ok_or (registry_identity self upstream_name) (InvalidPayload ("unknown upstream tool name: " +:+ upstream_name)).

Fixpoint merge_mappings (merged additional : list ToolMapping) : list ToolMapping :=
  match additional with
  | [] => merged
  | mapping :: additional =>
      merge_mappings
        (if forallb (fun known => negb (String.eqb (tm_upstream_name known) (tm_upstream_name mapping))) merged
         then merged ++ [mapping] else merged)
        additional
  end.

Definition merged_with (self additional : ToolAdapterRegistry) : ToolAdapterRegistry :=
  {| self with ta_mappings := merge_mappings (ta_mappings self) (ta_mappings additional) |}.

(** ** Upstream names *)

(** The key [(kind_rank, namespace, name)], compared field by field. *)
Definition kind_rank (kind : ToolKind) : Z :=
  match kind with Function => 0 | Custom => 1 | NamespaceMember => 2 end.

Definition option_compare (a b : option string) : comparison :=
  match a, b with
  | None, None => Eq
  | None, Some _ => Lt
  | Some _, None => Gt
  | Some a, Some b => String.compare a b
  end.

Definition then_compare (c c' : comparison) : comparison := match c with Eq => c' | _ => c end.

Definition canonical_compare (a b : ToolIdentity) : comparison :=
  then_compare (kind_rank (ti_kind a) ?= kind_rank (ti_kind b))
    (then_compare (option_compare (ti_namespace a) (ti_namespace b)) (String.compare (ti_name a) (ti_name b))).

Definition canonical_leb (a b : ToolIdentity) : bool :=
  match canonical_compare a b with Gt => false | _ => true end.

(** [Vec::dedup]. *)
Fixpoint dedup (l : list ToolIdentity) : list ToolIdentity :=
  match l with
  | [] => []
  | x :: l =>
      match dedup l with
      | y :: rest => if bool_decide (x = y) then x :: rest else x :: y :: rest
      | [] => [x]
      end
  end.

Definition is_alphanumeric (c : Ascii.ascii) : bool := in_range 48 57 c || in_range 65 90 c || in_range 97 122 c.
Definition is_separator (c : Ascii.ascii) : bool := in_range 95 95 c || in_range 45 45 c.

(** The loop over the characters. *)
Fixpoint sanitize (last_was_separator : bool) (raw : byte_string) : byte_string :=
  match raw with
  | [] => []
  | c :: raw =>
      if is_alphanumeric c || is_separator c then c :: sanitize false raw
      else if last_was_separator then sanitize true raw
      else Ascii.ascii_of_N 95 :: sanitize true raw
  end.

Fixpoint drop_separators (l : byte_string) : byte_string :=
  match l with
  | [] => []
  | c :: rest => if is_separator c then drop_separators rest else l
  end.

(** Popping separators off the end; with both ends this is [trim_matches]. *)
Definition pop_separators (l : byte_string) : byte_string := reverse (drop_separators (reverse l)).

Definition or_tool (l : byte_string) : byte_string := if is_empty l then bytes "tool" else l.

Definition sanitize_middle (identity : ToolIdentity) : byte_string :=
  let raw :=
    match ti_namespace identity with
    | Some namespace => namespace +:+ "__" +:+ ti_name identity
    | None => ti_name identity
    end in
  or_tool (pop_separators (drop_separators (sanitize false (bytes raw)))).

Definition nul : string := text [Ascii.zero].

Definition identity_bytes (identity : ToolIdentity) : string :=
  let kind :=
    match ti_kind identity with
    | Function => "function" | Custom => "custom" | NamespaceMember => "namespace_member"
    end in
  kind +:+ nul +:+ default "" (ti_namespace identity) +:+ nul +:+ ti_name identity.

(** A name with [suffix_len] digits of the digest. *)
Definition candidate_name (sanitized digest : byte_string) (suffix_len : nat) : string :=
  let suffix := take suffix_len digest in
  let max_middle_len := (64 - (4 + length suffix))%nat in
  let middle :=
    if Nat.leb (length sanitized) max_middle_len then sanitized
    else or_tool (pop_separators (take max_middle_len sanitized)) in
  "gw_" +:+ text middle +:+ "_" +:+ text suffix.

Section Names.
  Variable sha256 : string -> list Z.

(** The loop of [generated_name]. *)
Fixpoint generate (fuel : nat) (sanitized digest : byte_string) (suffix_len : nat) (occupied : gset string)
    : option string :=
  match fuel with
  | O => None
  | S fuel =>
      let current_suffix_len := Nat.min suffix_len (length digest) in
      let candidate := candidate_name sanitized digest current_suffix_len in
      if negb (bool_decide (candidate ∈ occupied)) || Nat.leb 56 current_suffix_len then Some candidate
      else generate fuel sanitized digest (Nat.min (current_suffix_len + 4) 56) occupied
  end.

Definition clamp_digits (digest_len : nat) : nat := Nat.max 12 (Nat.min digest_len 56).

Definition generated_name (identity : ToolIdentity) (digest_len : nat) (occupied : gset string) : option string :=
  generate 12 (sanitize_middle identity) (bytes (hex (sha256 (identity_bytes identity))))
    (clamp_digits digest_len) occupied.

(** The loop of [assigned_upstream_name]. *)
Fixpoint assign (fuel : nat) (identity : ToolIdentity) (suffix_len : nat) (occupied : gset string)
    : option (result string ProtocolError) :=
  let collision :=
    Err (InvalidPayload ("tool name collision could not be resolved for " +:+ ti_name identity)) in
  match fuel with
  | O => None
  | S fuel =>
      if Nat.leb suffix_len 56 then
        candidate ← generated_name identity suffix_len occupied;
        if negb (bool_decide (candidate ∈ occupied)) then Some (Ok candidate)
        else
          let suffix_len := Nat.min (suffix_len + 4) 56 in
          if Nat.eqb suffix_len 56 then
            candidate ← generated_name identity suffix_len occupied;
            if negb (bool_decide (candidate ∈ occupied)) then Some (Ok candidate) else Some collision
          else assign fuel identity suffix_len occupied
      else Some collision
  end.

Definition preserves_original (identity : ToolIdentity) (occupied : gset string) : bool :=
  match ti_kind identity with
  | Function | Custom => negb (bool_decide (ti_name identity ∈ occupied))
  | NamespaceMember => false
  end.

Definition assigned_upstream_name (identity : ToolIdentity) (occupied : gset string)
    : option (result string ProtocolError) :=
  if preserves_original identity occupied then Some (Ok (ti_name identity))
  else assign 12 identity 12 occupied.

Fixpoint assign_all (identities : list ToolIdentity) (occupied : gset string) (mappings : list ToolMapping)
    : option (result (list ToolMapping) ProtocolError) :=
  match identities with
  | [] => Some (Ok mappings)
  | identity :: identities =>
      assigned ← assigned_upstream_name identity occupied;
      match assigned with
      | Err error => Some (Err error)
      | Ok upstream_name =>
          assign_all identities ({[upstream_name]} ∪ occupied)
            (mappings ++ [{| tm_identity := identity; tm_upstream_name := upstream_name |}])
      end
  end.

Definition from_identities (identities : list ToolIdentity) : option (result ToolAdapterRegistry ProtocolError) :=
  assigned ← assign_all (dedup (sort_by canonical_leb identities)) ∅ [];
  Some (let? mappings := assigned in Ok {| ta_version := VERSION; ta_mappings := mappings |}).

End Names.

(** ** Declarations of tools *)

Definition insert_description (description : option string) (object : json_map) : json_map :=
  match description with Some description => map_insert "description" (JString description) object | None => object end.

Definition function_tool (function : json_map) : Value :=
  json_object [("type", JString "function"); ("function", JObject function)].

Definition custom_input_tool (name : string) (description : option string) : Value :=
  let function := insert_description description (map_insert "name" (JString name) []) in
  function_tool
    (map_insert "parameters"
       (json_object
          [("type", JString "object");
           ("properties", json_object [("input", json_object [("type", JString "string")])]);
           ("required", JArray [JString "input"]); ("additionalProperties", JBool false)])
       function).

Definition chat_function_tool (name : string) (description : option string) (parameters : option Value) : Value :=
  let function := insert_description description (map_insert "name" (JString name) []) in
  function_tool
    (match parameters with Some parameters => map_insert "parameters" parameters function | None => function end).

Definition prefix_description (namespace_description member_description : option string) : option string :=
  match namespace_description, member_description with
  | Some namespace, Some member =>
      if negb (str_is_empty namespace) && negb (str_is_empty member) then Some (namespace +:+ ": " +:+ member)
      else if negb (str_is_empty member) then Some (namespace +:+ ": " +:+ member)
      else None
  | Some namespace, None => if str_is_empty namespace then None else Some namespace
  | None, Some member => if str_is_empty member then None else Some member
  | None, None => None
  end.

(** The vectors that [parse_tool] appends to; an error discards them all. *)
Record ParsedTools := {
  pt_identities : list ToolIdentity;
  pt_flattened_identities : list ToolIdentity;
  pt_flattened_tools : list Value;
  pt_downgrades : list string
}.

Definition ParsedTools_empty : ParsedTools :=
  {| pt_identities := []; pt_flattened_identities := []; pt_flattened_tools := []; pt_downgrades := [] |}.

Definition push_tool (parsed : ParsedTools) (target : ToolTarget) (identity : ToolIdentity) (tool : Value) : ParsedTools :=
  let parsed := {| parsed with pt_identities := pt_identities parsed ++ [identity] |} in
  if bool_decide (target = NativeResponses) then parsed
  else {| parsed with pt_flattened_identities := pt_flattened_identities parsed ++ [identity];
                      pt_flattened_tools := pt_flattened_tools parsed ++ [tool] |}.

Section Tools.
  Variable sha256 : string -> list Z.
  Variable print_json : Value -> string.
  Variable parse_json : string -> option Value.
  Variable json_error : string -> string.

Definition parse_function_definition (tool : Value)
    : result (string * option string * option Value) ProtocolError :=
  let? object := ok_or (as_object tool) (InvalidPayload ("unsupported tool definition: " +:+ print_json tool)) in
  match (v ← map_get object "function"; as_object v) with
  | Some function =>
      let? name := ok_or (get_str (JObject function) "name") (MissingField "name") in
      Ok (name, or_else (get_str (JObject function) "description") (get_str (JObject object) "description"),
          map_get function "parameters")
  | None =>
      let? name := ok_or (get_str (JObject object) "name") (MissingField "name") in
      Ok (name, get_str (JObject object) "description", map_get object "parameters")
  end.

(** One member of a namespace. *)
Definition parse_member (namespace : string) (namespace_description : option string) (target : ToolTarget)
    (parsed : ParsedTools) (member : Value) : result ParsedTools ProtocolError :=
  let? member_object :=
    ok_or (as_object member) (InvalidPayload ("unsupported namespace member: " +:+ print_json member)) in
  let kind := default "function" (get_str (JObject member_object) "type") in
  if String.eqb kind "function" then
    let? (member_name, member_description, parameters) := parse_function_definition member in
    let description := prefix_description namespace_description member_description in
    Ok (push_tool parsed target (namespace_identity namespace member_name)
          (chat_function_tool member_name description parameters))
  else if String.eqb kind "custom" then
    let? member_name := ok_or (get_str (JObject member_object) "name") (MissingField "name") in
    let description := prefix_description namespace_description (get_str (JObject member_object) "description") in
    Ok (push_tool parsed target (custom_identity (Some namespace) member_name)
          (custom_input_tool member_name description))
  else Err (InvalidPayload ("unsupported namespace member type: " +:+ kind)).

Fixpoint parse_members (namespace : string) (namespace_description : option string) (target : ToolTarget)
    (parsed : ParsedTools) (members : list Value) : result ParsedTools ProtocolError :=
  match members with
  | [] => Ok parsed
  | member :: members =>
      let? parsed := parse_member namespace namespace_description target parsed member in
      parse_members namespace namespace_description target parsed members
  end.

Definition parse_namespace_tool (tool : Value) (target : ToolTarget) (parsed : ParsedTools)
    : result ParsedTools ProtocolError :=
  let? object := ok_or (as_object tool) (InvalidPayload ("unsupported namespace tool: " +:+ print_json tool)) in
  let? namespace := ok_or (get_str (JObject object) "name") (MissingField "name") in
  let namespace_description := get_str (JObject object) "description" in
  let? members := ok_or (get_array (JObject object) "tools") (MissingField "tools") in
  parse_members namespace namespace_description target parsed members.

Definition parse_tool (tool : Value) (target : ToolTarget) (parsed : ParsedTools)
    : result ParsedTools ProtocolError :=
  let? object := ok_or (as_object tool) (InvalidPayload ("unsupported tool definition: " +:+ print_json tool)) in
  let kind := default "function" (get_str (JObject object) "type") in
  if String.eqb kind "function" then
    let? (name, description, parameters) := parse_function_definition tool in
    Ok (push_tool parsed target (function_identity name) (chat_function_tool name description parameters))
  else if String.eqb kind "custom" then
    let? name := ok_or (get_str (JObject object) "name") (MissingField "name") in
    let identity := custom_identity (get_str (JObject object) "namespace") name in
    Ok (push_tool parsed target identity (custom_input_tool name (get_str (JObject object) "description")))
  else if String.eqb kind "namespace" then parse_namespace_tool tool target parsed
  else if is_hosted kind then
    match hosted_tool_decision kind (bool_decide (target = NativeResponses)) false 0 with
    | Keep =>
        if bool_decide (target = NativeResponses) then Ok parsed
        else Ok {| parsed with pt_flattened_tools := pt_flattened_tools parsed ++ [tool] |}
    | DropOptional downgrade => Ok {| parsed with pt_downgrades := pt_downgrades parsed ++ [downgrade] |}
    | Reject category => Err (InvalidPayload (category +:+ ": hosted tool " +:+ kind +:+ " is not supported"))
    end
  else Err (InvalidPayload ("unsupported tool type: " +:+ kind)).

Fixpoint parse_tools (tools : list Value) (target : ToolTarget) (parsed : ParsedTools)
    : result ParsedTools ProtocolError :=
  match tools with
  | [] => Ok parsed
  | tool :: tools => let? parsed := parse_tool tool target parsed in parse_tools tools target parsed
  end.

(** The tool as the upstream sees it: the function has the name of the registry. *)
Definition rename_tool (registry : ToolAdapterRegistry) (identity : ToolIdentity) (tool : Value) : Value :=
  match as_object tool with
  | None => tool
  | Some object =>
      match (v ← map_get object "function"; as_object v), registry_upstream_name registry identity with
      | Some function, Some upstream_name =>
          JObject (map_insert "function" (JObject (map_insert "name" (JString upstream_name) function)) object)
      | _, _ => tool
      end
  end.

(** [zip]: tools without an identity of the same place stay as they are. *)
Fixpoint rename_tools (registry : ToolAdapterRegistry) (identities : list ToolIdentity) (tools : list Value) : list Value :=
  match identities, tools with
  | identity :: identities, tool :: tools =>
      rename_tool registry identity tool :: rename_tools registry identities tools
  | _, _ => tools
  end.

Definition registry_build (tools : Value) (target : ToolTarget) : option (result ToolAdaptation ProtocolError) :=
  match (let? array := ok_or (as_array tools) (InvalidPayload ("unsupported tool list: " +:+ print_json tools)) in
         let? parsed := parse_tools array target ParsedTools_empty in
         Ok (array, parsed)) with
  | Err error => Some (Err error)
  | Ok (array, parsed) =>
      built ← from_identities sha256 (pt_identities parsed);
      Some (let? registry := built in
            Ok {| ad_upstream_tools :=
                    if bool_decide (target = NativeResponses) then array
                    else rename_tools registry (pt_flattened_identities parsed) (pt_flattened_tools parsed);
                  ad_registry := registry;
                  ad_downgrades := pt_downgrades parsed |})
  end.

(** ** Choices and calls *)

Definition tool_choice_name (object : json_map) : option string :=
  v ← or_else (v ← map_get object "function"; function ← as_object v; map_get function "name") (map_get object "name");
  as_str v.

Definition set_tool_choice_name (object : json_map) (name : string) : json_map :=
  match (v ← map_get object "function"; as_object v) with
  | Some function => map_insert "function" (JObject (map_insert "name" (JString name) function)) object
  | None => map_insert "name" (JString name) object
  end.

Definition adapt_tool_choice (self : ToolAdapterRegistry) (choice : Value) : result Value ProtocolError :=
  match choice with
  | JString _ => Ok choice
  | JObject object =>
      Ok (JObject
        (match (name ← tool_choice_name object; identity ← registry_identity self name;
                registry_upstream_name self identity) with
         | Some upstream_name => set_tool_choice_name object upstream_name
         | None => object
         end))
  | other => Err (InvalidPayload ("unsupported tool_choice value: " +:+ print_json other))
  end.

Definition call_details (object : json_map) : result (string * string) ProtocolError :=
  let? name := ok_or (get_str (JObject object) "name") (MissingField "name") in
  Ok (name, default "" (get_str (JObject object) "arguments")).

Definition extract_call_details (object : json_map) : result (string * string) ProtocolError :=
  match (v ← map_get object "function"; as_object v) with
  | Some function => call_details function
  | None => call_details object
  end.

Definition extract_custom_input (arguments : string) : result string ProtocolError :=
  let? value := ok_or (parse_json arguments)
    (InvalidPayload ("invalid custom tool arguments: " +:+ json_error arguments)) in
  ok_or (object ← as_object value; v ← map_get object "input"; as_str v) (MissingField "input").

Definition namespace_value (namespace : option string) : Value :=
  match namespace with Some namespace => JString namespace | None => JNull end.

Definition restore_function_call (self : ToolAdapterRegistry) (call : Value) : result Value ProtocolError :=
  let? object := ok_or (as_object call) (InvalidPayload ("unsupported function call: " +:+ print_json call)) in
  let? (upstream_name, arguments) := extract_call_details object in
  let call_id :=
    default upstream_name (v ← or_else (map_get object "id") (map_get object "call_id"); as_str v) in
  let status := default (JString "completed") (map_get object "status") in
  match registry_identity self upstream_name with
  | Some identity =>
      match ti_kind identity with
      | Function =>
          Ok (json_object
            [("type", JString "function_call"); ("id", JString call_id); ("call_id", JString call_id);
             ("name", JString (ti_name identity)); ("arguments", JString arguments); ("status", status)])
      | NamespaceMember =>
          Ok (json_object
            [("type", JString "function_call"); ("id", JString call_id); ("call_id", JString call_id);
             ("name", JString (ti_name identity)); ("namespace", namespace_value (ti_namespace identity));
             ("arguments", JString arguments); ("status", status)])
      | Custom =>
          let? input := extract_custom_input arguments in
          Ok (json_object
            [("type", JString "custom_tool_call"); ("id", JString call_id); ("call_id", JString call_id);
             ("name", JString (ti_name identity)); ("namespace", namespace_value (ti_namespace identity));
             ("input", JString input); ("status", status)])
      end
  | None =>
      Ok (json_object
        [("type", JString "function_call"); ("id", JString call_id); ("call_id", JString call_id);
         ("name", JString upstream_name); ("arguments", JString arguments); ("status", status)])
  end.

Definition adapt_call_output (self : ToolAdapterRegistry) (output : Value) : result Value ProtocolError :=
  let? object := ok_or (as_object output) (InvalidPayload "unsupported call output") in
  match get_str (JObject object) "type" with
  | Some kind =>
      if String.eqb kind "custom_tool_call_output"
      then Ok (JObject (map_insert "type" (JString "function_call_output") object))
      else if String.eqb kind "function_call_output" then Ok (JObject object)
      else Err (InvalidPayload "unsupported call output type")
  | None => Ok (JObject object)
  end.

  Variable json_stream : string -> list (option Value).

(** What a call of a Responses request asks for, and its arguments as an upstream reads
    them. *)
Definition responses_call_identity (object : json_map) (call_type name call_id : string)
    (ctx : ToolArgumentsContext) : result (ToolIdentity * string) ProtocolError :=
  let namespace := opt_filter (fun namespace => negb (str_is_empty namespace)) (get_str (JObject object) "namespace") in
  if String.eqb call_type "function_call" then
    let identity :=
      match namespace with
      | Some namespace => namespace_identity namespace name
      | None => function_identity name
      end in
    let raw_arguments := default "{}" (get_str (JObject object) "arguments") in
    let? arguments := normalize_tool_arguments_for_request json_stream print_json raw_arguments ctx call_id in
    Ok (identity, arguments)
  else if String.eqb call_type "custom_tool_call" then
    let? input := ok_or (get_str (JObject object) "input") (MissingField "input") in
    Ok (custom_identity namespace name, print_json (json_object [("input", JString input)]))
  else Err (InvalidPayload "unsupported Responses function call type").

Definition adapt_responses_function_call (self : ToolAdapterRegistry) (call : Value) (ctx : ToolArgumentsContext)
    : result Value ProtocolError :=
  let? object := ok_or (as_object call) (InvalidPayload "unsupported Responses function call") in
  let? call_type := ok_or (get_str (JObject object) "type") (MissingField "type") in
  let? name := ok_or (get_str (JObject object) "name") (MissingField "name") in
  let? call_id :=
    ok_or (v ← or_else (map_get object "call_id") (map_get object "id"); as_str v) (MissingField "call_id") in
  let? (identity, arguments) := responses_call_identity object call_type name call_id ctx in
  let upstream_name := default name (registry_upstream_name self identity) in
  Ok (json_object
    [("id", JString call_id); ("type", JString "function");
     ("function", json_object [("name", JString upstream_name); ("arguments", JString arguments)])]).

End Tools.

(** ** The canonical order *)

(** A comparison function that decides a strict total order. *)
Class TotalCompare {A} (cmp : A -> A -> comparison) := {
  compare_same a b : cmp a b = Eq <-> a = b;
  compare_opp a b : cmp b a = CompOpp (cmp a b);
  compare_lt_trans a b c : cmp a b = Lt -> cmp b c = Lt -> cmp a c = Lt
}.

#[export] Instance Z_total_compare : TotalCompare Z.compare.
Proof.
  split; intros; rewrite ?Z.compare_eq_iff, ?Z.compare_lt_iff in *; [done|by rewrite Z.compare_antisym|lia].
Qed.

#[export] Instance string_total_compare : TotalCompare String.compare.
Proof.
  split.
  - intros a b. split; [apply String.compare_eq_iff|]. intros ->.
    pose proof (String.compare_antisym b b). by destruct (String.compare b b).
  - intros a b. apply String.compare_antisym.
  - intros a b c. exact (StrictOrder_Transitive (R := OrdersEx.String_as_OT.lt) a b c).
Qed.

#[export] Instance option_total_compare : TotalCompare option_compare.
Proof.
  split.
  - intros [a|] [b|]; simpl; [|done..]. rewrite compare_same. naive_solver.
  - intros [a|] [b|]; simpl; [|done..]. apply compare_opp.
  - intros [a|] [b|] [c|]; simpl; try done. apply compare_lt_trans.
Qed.

(** Field by field. *)
Lemma lexicographic_compare {A B C} (f : A -> B) (g : A -> C) cmpB cmpC
    `{!TotalCompare cmpB, !TotalCompare cmpC} :
  (forall a b, f a = f b -> g a = g b -> a = b) ->
  TotalCompare (fun a b => then_compare (cmpB (f a) (f b)) (cmpC (g a) (g b))).
Proof.
  intros Hinj. split.
  - intros a b. unfold then_compare. split.
    2: { intros ->. rewrite (proj2 (compare_same (f b) (f b)) eq_refl). by apply compare_same. }
    destruct (cmpB (f a) (f b)) eqn:Hb; [|done..]. intros Hc. apply compare_same in Hb, Hc. auto.
  - intros a b. rewrite (compare_opp (f a) (f b)), (compare_opp (g a) (g b)). by destruct (cmpB (f a) (f b)).
  - intros a b c. unfold then_compare. destruct (cmpB (f a) (f b)) eqn:Hab; [| |done].
    + apply compare_same in Hab as ->. destruct (cmpB (f b) (f c)) eqn:Hbc; [|done..]. apply compare_lt_trans.
    + intros _. destruct (cmpB (f b) (f c)) eqn:Hbc; [| |done].
      * apply compare_same in Hbc as <-. by rewrite Hab.
      * intros _. by rewrite (compare_lt_trans _ _ _ Hab Hbc).
Qed.

#[export] Instance canonical_total_compare : TotalCompare canonical_compare.
Proof.
  assert (TotalCompare (fun a b : option string * string => then_compare (option_compare a.1 b.1) (String.compare a.2 b.2))).
  { apply (lexicographic_compare fst snd option_compare String.compare). intros [] []; simpl; congruence. }
  apply (lexicographic_compare (fun a => kind_rank (ti_kind a)) (fun a => (ti_namespace a, ti_name a)) Z.compare
    (fun a b => then_compare (option_compare a.1 b.1) (String.compare a.2 b.2))).
  intros [[] n s] [[] n' s']; simpl; intros; simplify_eq; done.
Qed.

Definition canonical_lt (a b : ToolIdentity) : Prop := canonical_compare a b = Lt.

#[export] Instance canonical_lt_trans : Transitive canonical_lt.
Proof. intros a b c. apply compare_lt_trans. Qed.

#[export] Instance canonical_lt_antisym : AntiSymm eq canonical_lt.
Proof. intros a b Hab Hba. unfold canonical_lt in *. rewrite compare_opp, Hab in Hba. done. Qed.

Lemma canonical_lt_irrefl a : ~ canonical_lt a a.
Proof. unfold canonical_lt. by rewrite (proj2 (compare_same a a) eq_refl). Qed.

Lemma elem_of_dedup l x : x ∈ dedup l <-> x ∈ l.
Proof.
  induction l as [|y l IH]; [done|]. simpl. rewrite elem_of_cons, <- IH.
  destruct (dedup l) as [|z rest]; [by rewrite list_elem_of_singleton, elem_of_nil; naive_solver|].
  case_bool_decide; subst; rewrite !elem_of_cons; naive_solver.
Qed.

Lemma dedup_head l : head (dedup l) = head l.
Proof. destruct l as [|x l]; [done|]. simpl. destruct (dedup l); [done|]. by case_bool_decide. Qed.

Lemma dedup_sorted l :
  Sorted (fun a b => canonical_leb a b = true) l -> Sorted canonical_lt (dedup l).
Proof.
  induction l as [|x l IH]; intros Hs; [constructor|]. apply Sorted_inv in Hs as [Hs Hd]. specialize (IH Hs).
  simpl. pose proof (dedup_head l) as Hh. destruct (dedup l) as [|y rest]; [by repeat constructor|].
  destruct l as [|z l]; simpl in Hh; [done|]. apply HdRel_inv in Hd. simplify_eq.
  case_bool_decide as Hxy; [by subst|]. constructor; [done|]. constructor.
  unfold canonical_leb in Hd. unfold canonical_lt. destruct (canonical_compare x z) eqn:Hc; [|done..].
  by apply compare_same in Hc.
Qed.

(** The identities in the order in which they are named. *)
Definition canonical_identities (identities : list ToolIdentity) : list ToolIdentity :=
  dedup (sort_by canonical_leb identities).

Lemma canonical_identities_sorted identities : Sorted canonical_lt (canonical_identities identities).
Proof.
  apply dedup_sorted, sort_by_sorted. intros x y. unfold canonical_leb. rewrite (compare_opp x y).
  by destruct (canonical_compare x y).
Qed.

Lemma elem_of_canonical identities x : x ∈ canonical_identities identities <-> x ∈ identities.
Proof. unfold canonical_identities. by rewrite elem_of_dedup, (sort_by_perm canonical_leb identities). Qed.

Lemma canonical_identities_NoDup identities : NoDup (canonical_identities identities).
Proof.
  pose proof (canonical_identities_sorted identities) as Hs. apply Sorted_StronglySorted in Hs; [|exact _].
  induction Hs as [|x l _ IH Hx]; constructor; [|done]. intros Hin. rewrite Forall_forall in Hx.
  by apply (canonical_lt_irrefl x), Hx.
Qed.

Lemma canonical_identities_same l l' :
  (forall x, x ∈ l <-> x ∈ l') -> canonical_identities l = canonical_identities l'.
Proof.
  intros Hl. apply (Sorted_unique canonical_lt); [apply canonical_identities_sorted..|].
  apply NoDup_Permutation; [apply canonical_identities_NoDup..|]. intros x. by rewrite !elem_of_canonical.
Qed.

(** ** Names *)

Section NamesFacts.
  Variable sha256 : string -> list Z.

(** What [assign_all] has handed out. *)
Record named (occupied : gset string) (mappings : list ToolMapping) : Prop := {
  named_occupied name : name ∈ occupied <-> name ∈ tm_upstream_name <$> mappings;
  named_once : NoDup (tm_upstream_name <$> mappings)
}.

Lemma assigned_free identity occupied name :
  assigned_upstream_name sha256 identity occupied = Some (Ok name) -> name ∉ occupied.
Proof.
  unfold assigned_upstream_name. destruct (preserves_original identity occupied) eqn:Hp.
  { intros [= <-]. unfold preserves_original in Hp. destruct (ti_kind identity); bool_prop; done. }
  generalize 12%nat at 1 as fuel. generalize 12%nat as suffix_len. intros suffix_len fuel.
  revert suffix_len. induction fuel as [|fuel IH]; intros suffix_len; [done|]. cbn [assign].
  case_match; [|done]. destruct (generated_name sha256 identity suffix_len occupied) as [candidate|]; simpl; [|done].
  case_bool_decide; simpl; [|by intros [= <-]]. case_match; [|by apply IH].
  destruct (generated_name _ _ _ _) as [last|]; simpl; [|done]. case_bool_decide; simpl; [done|by intros [= <-]].
Qed.

Lemma named_snoc occupied mappings identity name :
  named occupied mappings -> name ∉ occupied ->
  named ({[name]} ∪ occupied) (mappings ++ [{| tm_identity := identity; tm_upstream_name := name |}]).
Proof.
  intros [Ho Hn] Hfree. split.
  - intros n. rewrite fmap_app, elem_of_app, <- Ho. csimpl. set_solver.
  - rewrite fmap_app. apply NoDup_app. split_and!; [done| |apply NoDup_singleton].
    intros n Hin. csimpl. rewrite list_elem_of_singleton. intros ->. by apply Hfree, Ho.
Qed.

Lemma assign_all_spec identities occupied mappings result :
  assign_all sha256 identities occupied mappings = Some (Ok result) -> named occupied mappings ->
  tm_identity <$> result = (tm_identity <$> mappings) ++ identities /\
  NoDup (tm_upstream_name <$> result) /\ exists more, result = mappings ++ more.
Proof.
  revert occupied mappings. induction identities as [|identity identities IH]; intros occupied mappings; simpl.
  { intros [= <-] [_ Hn]. rewrite !app_nil_r. split_and!; [done..|]. exists []. by rewrite app_nil_r. }
  destruct (assigned_upstream_name _ _ _) as [[name|]|] eqn:Ha; simpl; [|done..]. apply assigned_free in Ha.
  intros Hr Hn. apply IH in Hr as (Hi & Hd & more & ->); [|by apply named_snoc].
  split_and!; [by rewrite Hi, fmap_app, <- app_assoc|done|]. eexists. by rewrite <- app_assoc.
Qed.

(** A registry in which nothing is ambiguous. *)
Record unambiguous (registry : ToolAdapterRegistry) : Prop := {
  unambiguous_identities : NoDup (tm_identity <$> ta_mappings registry);
  unambiguous_names : NoDup (tm_upstream_name <$> ta_mappings registry)
}.

Lemma from_identities_spec identities registry :
  from_identities sha256 identities = Some (Ok registry) ->
  unambiguous registry /\ tm_identity <$> ta_mappings registry = canonical_identities identities.
Proof.
  unfold from_identities. fold (canonical_identities identities).
  destruct (assign_all _ _ _ _) as [[mappings|]|] eqn:Ha; simpl; [|done..]. intros [= <-].
  destruct (assign_all_spec _ _ _ _ Ha) as (Hi & Hn & _); [split; [set_solver|constructor]|].
  split; [|done]. split; simpl in *; [|done]. rewrite Hi. apply canonical_identities_NoDup.
Qed.

(** [find] by a field whose values are distinct. *)
Lemma find_unique {A B} (f : A -> B) (test : A -> bool) l x :
  NoDup (f <$> l) -> x ∈ l -> (forall y, test y = true <-> f y = f x) -> List.find test l = Some x.
Proof.
  induction l as [|y l IH]; intros Hn Hx Ht; [by apply elem_of_nil in Hx|]. csimpl in *. apply NoDup_cons in Hn as [Hy Hn].
  destruct (test y) eqn:Hty.
  - apply Ht in Hty. apply elem_of_cons in Hx as [->|Hx]; [done|]. destruct Hy. rewrite Hty. by apply list_elem_of_fmap_2.
  - apply elem_of_cons in Hx as [->|Hx]; [|by apply IH]. by rewrite (proj2 (Ht y) eq_refl) in Hty.
Qed.

Lemma mapping_found registry mapping :
  unambiguous registry -> mapping ∈ ta_mappings registry ->
  registry_upstream_name registry (tm_identity mapping) = Some (tm_upstream_name mapping) /\
  registry_identity registry (tm_upstream_name mapping) = Some (tm_identity mapping).
Proof.
  intros [Hi Hn] Hm. unfold registry_upstream_name, registry_identity, mapping_for_identity, mapping_for_name. split.
  - rewrite (find_unique tm_identity _ _ mapping); [done|done|done|]. intros y. apply bool_decide_eq_true.
  - rewrite (find_unique tm_upstream_name _ _ mapping); [done|done|done|]. intros y. apply String.eqb_eq.
Qed.

Lemma upstream_name_mapping registry identity name :
  registry_upstream_name registry identity = Some name ->
  {| tm_identity := identity; tm_upstream_name := name |} ∈ ta_mappings registry.
Proof.
  unfold registry_upstream_name, mapping_for_identity. destruct (List.find _ _) as [[i n]|] eqn:Hf; simpl; [|done].
  intros [= ->]. apply List.find_some in Hf as [Hin Hb]. bool_prop. simpl in Hb. subst. by apply list_elem_of_In.
Qed.

Lemma identity_mapping registry name identity :
  registry_identity registry name = Some identity ->
  {| tm_identity := identity; tm_upstream_name := name |} ∈ ta_mappings registry.
Proof.
  unfold registry_identity, mapping_for_name. destruct (List.find _ _) as [[i n]|] eqn:Hf; simpl; [|done].
  intros [= ->]. apply List.find_some in Hf as [Hin Hb]. simpl in Hb. apply String.eqb_eq in Hb as <-. by apply list_elem_of_In.
Qed.

(** C15. Naming is reversible: every declared tool has a name upstream, the name leads back
    to exactly that tool, only declared tools have one, and neither the order nor the
    repetition of the declarations matters. *)
Theorem tool_names_reversible identities registry :
  from_identities sha256 identities = Some (Ok registry) ->
  (forall identity, identity ∈ identities -> exists name,
     registry_upstream_name registry identity = Some name /\ registry_identity registry name = Some identity) /\
  (forall identity name, registry_upstream_name registry identity = Some name <->
                         registry_identity registry name = Some identity) /\
  (forall name identity, registry_identity registry name = Some identity -> identity ∈ identities) /\
  (forall identities', (forall identity, identity ∈ identities' <-> identity ∈ identities) ->
     from_identities sha256 identities' = Some (Ok registry)).
Proof.
  intros Hf. pose proof (from_identities_spec _ _ Hf) as [Hu Hi]. split_and!.
  - intros identity Hin. rewrite <- (elem_of_canonical identities), <- Hi in Hin.
    apply list_elem_of_fmap in Hin as (mapping & -> & Hm). exists (tm_upstream_name mapping). by apply mapping_found.
  - intros identity name. split.
    + intros Hn%upstream_name_mapping. by apply (mapping_found _ _ Hu) in Hn as [_ Hn].
    + intros Hn%identity_mapping. by apply (mapping_found _ _ Hu) in Hn as [Hn _].
  - intros name identity Hn%identity_mapping. rewrite <- (elem_of_canonical identities), <- Hi.
    by apply (list_elem_of_fmap_2 tm_identity) in Hn.
  - intros identities' Hs. rewrite <- Hf. unfold from_identities.
    change (dedup (sort_by canonical_leb identities')) with (canonical_identities identities').
    by rewrite (canonical_identities_same _ _ Hs).
Qed.

End NamesFacts.

(** ** Generated names *)

Definition name_byte (c : Ascii.ascii) : bool := is_alphanumeric c || is_separator c.

Definition fits (name : string) : Prop :=
  (length (bytes name) <= 64)%nat /\ starts_with (bytes name) (bytes "gw_") = true /\
  Forall (fun c => name_byte c = true) (bytes name).

Lemma sanitize_bytes last raw : Forall (fun c => name_byte c = true) (sanitize last raw).
Proof.
  revert last. induction raw as [|c raw IH]; intros last; simpl; [constructor|].
  destruct (is_alphanumeric c || is_separator c) eqn:Hc; [by constructor|]. destruct last; [done|by constructor].
Qed.

Lemma drop_separators_sublist l : sublist (drop_separators l) l.
Proof. induction l as [|c l IH]; simpl; [done|]. case_match; [by apply sublist_cons|done]. Qed.

Lemma drop_separators_suffix l : exists w, l = w ++ drop_separators l.
Proof.
  induction l as [|c l [w IH]]; simpl; [by exists []|]. case_match; [|by exists []].
  exists (c :: w). simpl. by rewrite <- IH.
Qed.

Lemma pop_separators_sublist l : sublist (pop_separators l) l.
Proof.
  destruct (drop_separators_suffix (reverse l)) as [w Hw].
  assert (Hl : l = pop_separators l ++ reverse w).
  { unfold pop_separators. by rewrite <- reverse_app, <- Hw, reverse_involutive. }
  rewrite Hl at 2. by apply sublist_inserts_r.
Qed.

Lemma or_tool_bytes l :
  Forall (fun c => name_byte c = true) l -> Forall (fun c => name_byte c = true) (or_tool l).
Proof. unfold or_tool. destruct (is_empty l); [|done]. intros _. by repeat constructor. Qed.

Lemma sanitize_middle_bytes identity : Forall (fun c => name_byte c = true) (sanitize_middle identity).
Proof.
  apply or_tool_bytes. eapply Forall_of_sublist; [apply pop_separators_sublist|].
  eapply Forall_of_sublist; [apply drop_separators_sublist|]. apply sanitize_bytes.
Qed.

Lemma candidate_fits sanitized digest suffix_len :
  (suffix_len <= 56)%nat -> Forall (fun c => name_byte c = true) sanitized ->
  Forall (fun c => name_byte c = true) digest -> fits (candidate_name sanitized digest suffix_len).
Proof.
  intros Hl Hs Hd. unfold candidate_name. set (suffix := take suffix_len digest).
  assert (Hsuffix : (length suffix <= 56)%nat) by (unfold suffix; rewrite length_take; lia).
  set (middle := if Nat.leb _ _ then _ else _).
  assert (Forall (fun c => name_byte c = true) middle /\ (length middle <= 60 - length suffix)%nat) as [Hm Hml].
  { unfold middle. case_match eqn:Hle; [apply Nat.leb_le in Hle; split; [done|lia]|]. split.
    - apply or_tool_bytes. eapply Forall_of_sublist; [apply pop_separators_sublist|]. by apply Forall_take.
    - unfold or_tool. case_match; [simpl; lia|]. etrans; [apply sublist_length, pop_separators_sublist|].
      rewrite length_take. lia. }
  unfold fits. rewrite !bytes_app, !bytes_text. split_and!.
  - rewrite !length_app. simpl. lia.
  - done.
  - rewrite !Forall_app. split_and!; [by repeat constructor|done|by repeat constructor|]. by apply Forall_take.
Qed.

Definition is_byte (b : Z) : Prop := 0 <= b <= 255.

Lemma hex_bytes l :
  Forall is_byte l -> Forall (fun c => name_byte c = true) (bytes (hex l)) /\ length (bytes (hex l)) = (2 * length l)%nat.
Proof.
  assert (Hd : forall n, 0 <= n < 16 -> name_byte (hex_digit n) = true).
  { intros n Hn. assert (Hin : n ∈ Z.of_nat <$> seq 0 16).
    { apply list_elem_of_fmap. exists (Z.to_nat n). rewrite elem_of_seq. lia. }
    assert (Hall : Forall (fun n => name_byte (hex_digit n) = true) (Z.of_nat <$> seq 0 16)) by (by apply (bool_decide_unpack _)).
    rewrite Forall_forall in Hall. by apply Hall. }
  induction 1 as [|b l Hb _ [IH1 IH2]]; [split; [constructor|done]|]. unfold is_byte in Hb.
  change (bytes (hex (b :: l))) with (hex_digit (b / 16) :: hex_digit (b mod 16) :: bytes (hex l)).
  split; [|simpl in *; lia]. constructor; [|constructor; [|done]]; apply Hd.
  - split; [apply Z.div_pos; lia|apply Z.div_lt_upper_bound; lia].
  - by apply Z.mod_pos_bound.
Qed.

Section NamesFit.
  Variable sha256 : string -> list Z.

  (** SHA-256 gives 32 bytes. *)
  Hypothesis sha256_length : forall material, length (sha256 material) = 32%nat.
  Hypothesis sha256_bytes : forall material, Forall is_byte (sha256 material).

Lemma generate_step fuel sanitized digest suffix_len occupied :
  generate (S fuel) sanitized digest suffix_len occupied =
    let current_suffix_len := Nat.min suffix_len (length digest) in
    let candidate := candidate_name sanitized digest current_suffix_len in
    if negb (bool_decide (candidate ∈ occupied)) || Nat.leb 56 current_suffix_len then Some candidate
    else generate fuel sanitized digest (Nat.min (current_suffix_len + 4) 56) occupied.
Proof. done. Qed.

Lemma generate_total fuel sanitized digest suffix_len occupied :
  length digest = 64%nat -> (suffix_len <= 56)%nat -> (56 - suffix_len <= 4 * fuel)%nat ->
  Forall (fun c => name_byte c = true) sanitized -> Forall (fun c => name_byte c = true) digest ->
  exists name, generate (S fuel) sanitized digest suffix_len occupied = Some name /\ fits name.
Proof.
  intros Hd. revert suffix_len. induction fuel as [|fuel IH]; intros suffix_len Hs Hf Hsan Hdig.
  all: rewrite generate_step; cbv zeta; rewrite Hd, (Nat.min_l suffix_len) by lia.
  - rewrite (proj2 (Nat.leb_le 56 suffix_len)), orb_true_r by lia. eexists. split; [done|]. by apply candidate_fits.
  - destruct (_ || _); [eexists; split; [done|]; by apply candidate_fits|]. apply IH; [lia|lia|done|done].
Qed.

Lemma generated_name_total identity digest_len occupied :
  exists name, generated_name sha256 identity digest_len occupied = Some name /\ fits name.
Proof.
  destruct (hex_bytes (sha256 (identity_bytes identity))) as [Hb Hl]; [apply sha256_bytes|].
  assert (clamp_digits digest_len <= 56 /\ 56 - clamp_digits digest_len <= 44)%nat as [? ?] by (unfold clamp_digits; lia).
  apply (generate_total 11); [by rewrite Hl, sha256_length|lia|lia|apply sanitize_middle_bytes|done].
Qed.

Definition collision (identity : ToolIdentity) : ProtocolError :=
  InvalidPayload ("tool name collision could not be resolved for " +:+ ti_name identity).

Lemma assign_step fuel identity suffix_len occupied :
  assign sha256 (S fuel) identity suffix_len occupied =
    if Nat.leb suffix_len 56 then
      candidate ← generated_name sha256 identity suffix_len occupied;
      if negb (bool_decide (candidate ∈ occupied)) then Some (Ok candidate)
      else if Nat.eqb (Nat.min (suffix_len + 4) 56) 56 then
        candidate ← generated_name sha256 identity (Nat.min (suffix_len + 4) 56) occupied;
        if negb (bool_decide (candidate ∈ occupied)) then Some (Ok candidate) else Some (Err (collision identity))
      else assign sha256 fuel identity (Nat.min (suffix_len + 4) 56) occupied
    else Some (Err (collision identity)).
Proof. done. Qed.

Lemma assign_total fuel identity suffix_len occupied :
  (suffix_len <= 55)%nat -> (52 - suffix_len <= 4 * fuel)%nat ->
  (exists name, assign sha256 (S fuel) identity suffix_len occupied = Some (Ok name) /\ fits name) \/
  assign sha256 (S fuel) identity suffix_len occupied = Some (Err (collision identity)).
Proof.
  revert suffix_len. induction fuel as [|fuel IH]; intros suffix_len Hs Hf.
  all: rewrite assign_step, (proj2 (Nat.leb_le suffix_len 56)) by lia.
  all: destruct (generated_name_total identity suffix_len occupied) as (name & -> & Hn); simpl.
  all: case_bool_decide; simpl; [|left; by eexists].
  all: destruct (Nat.eqb_spec (Nat.min (suffix_len + 4) 56) 56) as [He|He]; [|try lia].
  1,2: destruct (generated_name_total identity (Nat.min (suffix_len + 4) 56) occupied) as (last & -> & Hl); simpl;
    case_bool_decide; simpl; [by right|left; by eexists].
  apply IH; lia.
Qed.

(** A candidate that was taken says that all the longer ones are. *)
Lemma generate_taken fuel sanitized digest suffix_len occupied name digits :
  length digest = 64%nat -> generate fuel sanitized digest suffix_len occupied = Some name -> name ∈ occupied ->
  (suffix_len <= digits <= 56)%nat -> (exists k, digits = suffix_len + 4 * k)%nat ->
  candidate_name sanitized digest digits ∈ occupied.
Proof.
  intros Hd. revert suffix_len. induction fuel as [|fuel IH]; intros suffix_len; [done|].
  rewrite generate_step. cbv zeta. rewrite Hd. intros Hg Hin Hl (k & Hk). rewrite (Nat.min_l suffix_len) in Hg by lia.
  destruct (bool_decide (candidate_name sanitized digest suffix_len ∈ occupied)) eqn:Ht; bool_prop.
  - destruct (Nat.eqb_spec k 0) as [->|Hne]; [by replace digits with suffix_len by lia|]. cbn [negb orb] in Hg.
    rewrite (proj2 (Nat.leb_gt 56 suffix_len)) in Hg by lia. rewrite (Nat.min_l (suffix_len + 4)) in Hg by lia.
    apply (IH (suffix_len + 4)%nat); [done|done|lia|]. exists (k - 1)%nat. lia.
  - cbn [negb orb] in Hg. by simplify_eq.
Qed.

(** The names that can be made for a tool, with 12 to 56 digits of its digest. *)
Definition possible_names (identity : ToolIdentity) : list string :=
  (fun k => candidate_name (sanitize_middle identity) (bytes (hex (sha256 (identity_bytes identity)))) (12 + 4 * k)) <$> seq 0 12.

Lemma assign_taken identity occupied error :
  assign sha256 12 identity 12 occupied = Some (Err error) -> Forall (fun name => name ∈ occupied) (possible_names identity).
Proof.
  rewrite assign_step. change (Nat.leb 12 56) with true. cbv iota.
  destruct (generated_name sha256 identity 12 occupied) as [name|] eqn:Hg; [|done]. cbn [mbind option_bind].
  case_bool_decide as Hin; [|done]. intros _. unfold possible_names. apply Forall_fmap. apply Forall_seq. intros k Hk.
  destruct (hex_bytes (sha256 (identity_bytes identity))) as [_ Hl]; [apply sha256_bytes|].
  unfold generated_name in Hg. change (clamp_digits 12) with 12%nat in Hg. unfold compose.
  eapply generate_taken; [by rewrite Hl, sha256_length|exact Hg|done|lia|by exists k].
Qed.

(** A tool of the client's own name keeps it, unless it was given to a tool before; the
    others get a name that upstreams accept. *)
Definition named_rightly (before : list ToolMapping) (mapping : ToolMapping) : Prop :=
  let name := ti_name (tm_identity mapping) in
  if bool_decide (ti_kind (tm_identity mapping) <> NamespaceMember) && bool_decide (name ∉ tm_upstream_name <$> before)
  then tm_upstream_name mapping = name else fits (tm_upstream_name mapping).

Definition all_rightly (mappings : list ToolMapping) : Prop :=
  forall before mapping after, mappings = before ++ mapping :: after -> named_rightly before mapping.

(** Every name that the tool could get was given to a tool before. *)
Definition exhausted (before : list ToolMapping) (identity : ToolIdentity) : Prop :=
  (ti_kind identity <> NamespaceMember -> ti_name identity ∈ tm_upstream_name <$> before) /\
  Forall (fun name => name ∈ tm_upstream_name <$> before) (possible_names identity).

Lemma all_rightly_snoc mappings mapping :
  all_rightly mappings -> named_rightly mappings mapping -> all_rightly (mappings ++ [mapping]).
Proof.
  intros Hm Hn before other after Heq. destruct after as [|last after _] using rev_ind.
  - apply app_inj_tail in Heq as [-> ->]. done.
  - rewrite app_comm_cons, app_assoc in Heq. apply app_inj_tail in Heq as [-> _]. by eapply Hm.
Qed.

Lemma preserves_spec identity occupied mappings :
  named occupied mappings ->
  preserves_original identity occupied =
    bool_decide (ti_kind identity <> NamespaceMember) && bool_decide (ti_name identity ∉ tm_upstream_name <$> mappings).
Proof.
  intros [Ho _]. unfold preserves_original. rewrite <- bool_decide_not.
  assert (bool_decide (ti_name identity ∉ occupied) = bool_decide (ti_name identity ∉ tm_upstream_name <$> mappings)) as ->
    by (apply bool_decide_ext; by rewrite Ho).
  by destruct (ti_kind identity).
Qed.

Lemma assigned_total identity occupied mappings :
  named occupied mappings ->
  (exists name, assigned_upstream_name sha256 identity occupied = Some (Ok name) /\
     named_rightly mappings {| tm_identity := identity; tm_upstream_name := name |}) \/
  (assigned_upstream_name sha256 identity occupied = Some (Err (collision identity)) /\ exhausted mappings identity).
Proof.
  intros Hnamed. unfold assigned_upstream_name, named_rightly. cbn [tm_identity tm_upstream_name].
  rewrite <- (preserves_spec identity occupied mappings Hnamed).
  destruct (preserves_original identity occupied) eqn:Hp; [left; by exists (ti_name identity)|].
  destruct (assign_total 11 identity 12 occupied) as [(name & Hn & Hf)|He]; [lia..|left; by exists name|right].
  split; [done|]. split.
  - intros Hk. destruct Hnamed as [Ho _]. rewrite <- Ho. unfold preserves_original in Hp. destruct (ti_kind identity); by bool_prop.
  - apply assign_taken in He. eapply Forall_impl; [exact He|]. intros name. by rewrite (named_occupied _ _ Hnamed).
Qed.

Lemma assign_all_total identities occupied mappings :
  named occupied mappings -> all_rightly mappings ->
  (exists result, assign_all sha256 identities occupied mappings = Some (Ok result) /\ all_rightly result) \/
  exists before identity after, (tm_identity <$> mappings) ++ identities = (tm_identity <$> before) ++ identity :: after /\
    all_rightly before /\ exhausted before identity /\
    assign_all sha256 identities occupied mappings = Some (Err (collision identity)).
Proof.
  revert occupied mappings. induction identities as [|identity identities IH]; intros occupied mappings Hnamed Hm; simpl.
  { left. by eexists. }
  destruct (assigned_total identity occupied mappings) as [(name & Ha & Hn)|(-> & He)]; [done| |].
  - rewrite Ha. cbn [mbind option_bind]. apply assigned_free in Ha.
    destruct (IH ({[name]} ∪ occupied) (mappings ++ [{| tm_identity := identity; tm_upstream_name := name |}])) as [H|H];
      [by apply named_snoc|by apply all_rightly_snoc|by left|right].
    by rewrite fmap_app, <- app_assoc in H.
  - right. exists mappings, identity, identities. by split_and!.
Qed.

(** Plain functions come first and keep their names. *)
Definition plain (identity : ToolIdentity) : Prop := ti_kind identity = Function -> ti_namespace identity = None.

Definition function_kept (mapping : ToolMapping) : Prop :=
  ti_kind (tm_identity mapping) = Function -> tm_upstream_name mapping = ti_name (tm_identity mapping).

Lemma before_function a b : canonical_lt a b -> ti_kind b = Function -> ti_kind a = Function.
Proof.
  unfold canonical_lt, canonical_compare, then_compare. intros Hlt Hb. rewrite Hb in Hlt.
  by destruct (ti_kind a); simpl in *.
Qed.

Lemma functions_kept identities occupied mappings result :
  assign_all sha256 identities occupied mappings = Some (Ok result) ->
  named occupied mappings -> Forall function_kept mappings -> Forall plain (tm_identity <$> mappings) ->
  Forall plain identities -> StronglySorted canonical_lt ((tm_identity <$> mappings) ++ identities) ->
  Forall function_kept result.
Proof.
  revert occupied mappings. induction identities as [|identity identities IH]; intros occupied mappings; simpl.
  { intros [= <-]. done. }
  destruct (assigned_upstream_name _ _ _) as [[name|]|] eqn:Ha; simpl; [|done..].
  intros Hr Hn Hk Hp1 Hp2 Hs. apply Forall_cons in Hp2 as [Hpi Hp2].
  pose proof (assigned_free _ _ _ _ Ha) as Hfree.
  eapply IH; [exact Hr|by apply named_snoc| | |done|].
  - apply Forall_app. split; [done|]. apply List.Forall_cons; [|constructor]. intros Hfun. simpl in *.
    unfold assigned_upstream_name, preserves_original in Ha. rewrite Hfun in Ha.
    case_bool_decide as Hocc; cbn [negb] in Ha; [exfalso|by simplify_eq].
    destruct Hn as [Ho _]. apply Ho, list_elem_of_fmap in Hocc as (other & Hname & Hother).
    apply StronglySorted_app in Hs as (Hs & _ & _).
    assert (Hlt : canonical_lt (tm_identity other) identity).
    { apply Hs; [by apply list_elem_of_fmap_2|by left]. }
    assert (Hof : ti_kind (tm_identity other) = Function) by (by eapply before_function).
    rewrite Forall_forall in Hk. rewrite Forall_forall in Hp1. pose proof (Hk _ Hother Hof) as Hkept.
    assert (Hons : ti_namespace (tm_identity other) = None).
    { apply Hp1; [by apply list_elem_of_fmap_2|done]. }
    apply (canonical_lt_irrefl identity). replace identity with (tm_identity other) at 1; [done|].
    specialize (Hpi Hfun). destruct identity, (tm_identity other); simpl in *; congruence.
  - rewrite fmap_app. apply Forall_app. split; [done|]. by apply List.Forall_cons; [|constructor].
  - by rewrite fmap_app, <- app_assoc.
Qed.

(** C34. Naming ends. Either every tool has a name: a function or a custom tool keeps the
    name its client chose, unless a tool before it in the order of the declarations (sorted,
    functions first) was given that name, which does not happen to a plain function; every
    other tool gets a name that upstreams accept, at most 64 bytes of letters, digits, dashes
    and underscores. Or it ends with an error that names a tool for which there is no name
    left: the tools before it were given its own name and each of the twelve that could be
    made for it. *)
Theorem tool_names_fit identities :
  Forall plain identities ->
  (exists registry, from_identities sha256 identities = Some (Ok registry) /\
     tm_identity <$> ta_mappings registry = canonical_identities identities /\
     all_rightly (ta_mappings registry) /\ Forall function_kept (ta_mappings registry)) \/
  exists before identity after, canonical_identities identities = (tm_identity <$> before) ++ identity :: after /\
    all_rightly before /\ exhausted before identity /\
    from_identities sha256 identities = Some (Err (collision identity)).
Proof.
  intros Hp. assert (Hempty : named ∅ []) by (split; [set_solver|constructor]).
  destruct (assign_all_total (canonical_identities identities) ∅ [] Hempty)
    as [(result & Hr & Ha)|(before & identity & after & Hi & Hb & He & Hr)].
  { intros before mapping after Heq. by destruct before. }
  - left. assert (Hf : from_identities sha256 identities = Some (Ok {| ta_version := VERSION; ta_mappings := result |}))
      by (unfold from_identities; fold (canonical_identities identities); by rewrite Hr).
    eexists. split; [exact Hf|]. split; [by apply from_identities_spec in Hf as [_ ?]|]. split; [done|]. simpl.
    eapply functions_kept; [exact Hr|done|constructor..| |].
    + rewrite Forall_forall in *. intros i Hin. by apply Hp, elem_of_canonical.
    + apply Sorted_StronglySorted, canonical_identities_sorted. exact _.
  - right. exists before, identity, after. split_and!; [done..|]. unfold from_identities. fold (canonical_identities identities).
    by rewrite Hr.
Qed.

End NamesFit.

(** ** Calls *)

#[local] Opaque json_fields.

(** An identity that a declaration can have: members of a namespace have one, and a
    namespace has a name. *)
Definition declared_identity (identity : ToolIdentity) : Prop :=
  match ti_kind identity with
  | Function => ti_namespace identity = None
  | Custom => ti_namespace identity <> Some ""
  | NamespaceMember => is_Some (ti_namespace identity) /\ ti_namespace identity <> Some ""
  end.

(** The item of a completed call in the Responses protocol. *)
Definition call_item (identity : ToolIdentity) (call_id payload : string) : Value :=
  json_object
    (match ti_kind identity with
     | Function =>
         [("type", JString "function_call"); ("id", JString call_id); ("call_id", JString call_id);
          ("name", JString (ti_name identity)); ("arguments", JString payload); ("status", JString "completed")]
     | NamespaceMember =>
         [("type", JString "function_call"); ("id", JString call_id); ("call_id", JString call_id);
          ("name", JString (ti_name identity)); ("namespace", namespace_value (ti_namespace identity));
          ("arguments", JString payload); ("status", JString "completed")]
     | Custom =>
         [("type", JString "custom_tool_call"); ("id", JString call_id); ("call_id", JString call_id);
          ("name", JString (ti_name identity)); ("namespace", namespace_value (ti_namespace identity));
          ("input", JString payload); ("status", JString "completed")]
     end).

Section Calls.
  Variable sha256 : string -> list Z.
  Variable print_json : Value -> string.
  Variable parse_json : string -> option Value.
  Variable json_error : string -> string.
  Variable json_stream : string -> list (option Value).

  (** serde_json reads back the inputs that it prints, and an empty text holds no value. *)
  Hypothesis parse_print : forall input,
    parse_json (print_json (json_object [("input", JString input)])) = Some (json_object [("input", JString input)]).
  Hypothesis stream_of_nothing : json_stream "" = [].

Lemma restored_call registry upstream identity call_id arguments :
  registry_identity registry upstream = Some identity ->
  restore_function_call print_json parse_json json_error registry
    (json_object
       [("id", JString call_id); ("type", JString "function");
        ("function", json_object [("name", JString upstream); ("arguments", JString arguments)])]) =
  (let? payload :=
     match ti_kind identity with Custom => extract_custom_input parse_json json_error arguments | _ => Ok arguments end in
   Ok (call_item identity call_id payload)).
Proof.
  intros Hi. unfold restore_function_call, extract_call_details, call_details, get_str. simpl.
  rewrite !map_get_json_fields. simpl. rewrite !map_get_json_fields. simpl. rewrite Hi. unfold call_item.
  by destruct (ti_kind identity).
Qed.

Lemma printed_input input :
  extract_custom_input parse_json json_error (print_json (json_object [("input", JString input)])) = Ok input.
Proof. unfold extract_custom_input. rewrite parse_print. simpl. by rewrite map_get_json_fields. Qed.

(** What the upstream is given as the arguments of a call. *)
Definition upstream_arguments (identity : ToolIdentity) (payload : string) : string :=
  match ti_kind identity with
  | Custom => print_json (json_object [("input", JString payload)])
  | _ => payload
  end.

Lemma adapted_call registry identity call_id payload ctx :
  declared_identity identity -> (ti_kind identity = Custom \/ complete_value json_stream payload) ->
  adapt_responses_function_call print_json json_stream registry (call_item identity call_id payload) ctx =
  Ok (json_object
    [("id", JString call_id); ("type", JString "function");
     ("function", json_object
        [("name", JString (default (ti_name identity) (registry_upstream_name registry identity)));
         ("arguments", JString (upstream_arguments identity payload))])]).
Proof.
  intros Hd Hp.
  assert (Hn : complete_value json_stream payload ->
            normalize_tool_arguments_for_request json_stream print_json payload ctx call_id = Ok payload).
  { intros Hc. unfold normalize_tool_arguments_for_request. rewrite complete_normalized by done.
    by rewrite bool_decide_eq_false_2, andb_false_r. }
  assert (Hne : forall s, s <> "" -> str_is_empty s = false) by (intros; by apply str_is_empty_false).
  unfold adapt_responses_function_call, responses_call_identity, call_item, upstream_arguments.
  destruct identity as [[] namespace name]; unfold declared_identity in Hd; simpl in *;
    unfold get_str; simpl; rewrite !map_get_json_fields; simpl.
  - subst. destruct Hp as [|Hp]; [done|]. by rewrite Hn.
  - destruct namespace as [namespace|]; simpl; [|done]. by rewrite Hne by congruence.
  - destruct Hp as [|Hp]; [done|]. destruct Hd as [[ns ->] Hns]. simpl. rewrite Hne by congruence. simpl. by rewrite Hn.
Qed.

(** C33. A call survives the way to an upstream and back: what the registry restores from
    the upstream's call is the item the client knows, with its tool, its namespace, its
    identifier and its arguments or input. *)
Theorem calls_roundtrip identities registry identity call_id payload ctx :
  from_identities sha256 identities = Some (Ok registry) ->
  identity ∈ identities -> declared_identity identity ->
  (ti_kind identity = Custom \/ complete_value json_stream payload) ->
  let item := call_item identity call_id payload in
  exists call,
    adapt_responses_function_call print_json json_stream registry item ctx = Ok call /\
    restore_function_call print_json parse_json json_error registry call = Ok item.
Proof.
  intros Hf Hin Hd Hp item. pose proof (from_identities_spec _ _ _ Hf) as [Hu Hi].
  rewrite <- (elem_of_canonical identities), <- Hi in Hin. apply list_elem_of_fmap in Hin as (mapping & -> & Hm).
  apply (mapping_found _ _ Hu) in Hm as [Hname Hback].
  eexists. split; [by apply adapted_call|]. rewrite Hname. simpl. rewrite (restored_call _ _ _ _ _ Hback).
  unfold upstream_arguments. destruct (ti_kind (tm_identity mapping)); [done| |done]. by rewrite printed_input.
Qed.

End Calls.

(** ** Later declarations *)

Lemma find_snoc {A} (test : A -> bool) l x :
  List.find test (l ++ [x]) = or_else (List.find test l) (if test x then Some x else None).
Proof. induction l as [|y l IH]; simpl; [done|]. by destruct (test y). Qed.

Lemma merge_mappings_find merged additional name :
  let test := fun mapping => String.eqb (tm_upstream_name mapping) name in
  List.find test (merge_mappings merged additional) = or_else (List.find test merged) (List.find test additional).
Proof.
  intros test. revert merged. induction additional as [|mapping additional IH]; intros merged; simpl.
  { by destruct (List.find test merged). }
  rewrite IH. destruct (forallb _ merged) eqn:Hnew.
  - rewrite find_snoc. by destruct (List.find test merged), (test mapping).
  - destruct (test mapping) eqn:Ht; [|done]. unfold test in Ht. apply String.eqb_eq in Ht as <-.
    destruct (List.find test merged) eqn:Hf; [done|]. exfalso. apply not_true_iff_false in Hnew. apply Hnew.
    apply forallb_forall. intros known Hk.
    apply negb_true_iff. exact (List.find_none _ _ Hf known Hk).
Qed.

(** C39. Merging a later declaration adds names and changes none: a name means what it
    meant first. When the later declaration gave the name to another tool, that tool has
    no name left, and its calls are restored as calls of the old one. *)
Theorem merge_keeps_first_meaning earlier later :
  (forall name, registry_identity (merged_with earlier later) name =
     or_else (registry_identity earlier name) (registry_identity later name)) /\
  (forall name old new, unambiguous later -> registry_upstream_name later new = Some name ->
     registry_identity earlier name = Some old -> (forall other, registry_identity earlier other <> Some new) ->
     forall other, registry_identity (merged_with earlier later) other <> Some new).
Proof.
  assert (H : forall name, registry_identity (merged_with earlier later) name =
              or_else (registry_identity earlier name) (registry_identity later name)).
  { intros name. unfold registry_identity, mapping_for_name, merged_with. simpl. rewrite merge_mappings_find.
    by destruct (List.find _ (ta_mappings earlier)). }
  split; [exact H|]. intros name old new Hu Hn Ho Hnone other. rewrite H.
  destruct (registry_identity earlier other) eqn:He; simpl; [by rewrite <- He|]. intros Hl.
  apply identity_mapping, (mapping_found _ _ Hu) in Hl as [Hl _]. simpl in Hl. rewrite Hn in Hl. congruence.
Qed.

(** ** Choosing a tool *)

Lemma set_name_chosen object name known :
  tool_choice_name object = Some known -> tool_choice_name (set_tool_choice_name object name) = Some name.
Proof.
  unfold tool_choice_name, set_tool_choice_name.
  destruct (map_get object "function") as [[]|] eqn:Hf; simpl; rewrite ?map_get_insert; simpl; rewrite ?Hf; simpl;
    rewrite ?map_get_insert; done.
Qed.

(** Adapting a tool choice changes no name: the name is looked up among the names of
    the upstream, where the tools that have another name are not found under the name
    that the client uses. *)
Theorem tool_choice_keeps_name sha256 print_json identities registry object :
  from_identities sha256 identities = Some (Ok registry) ->
  exists adapted, adapt_tool_choice print_json registry (JObject object) = Ok (JObject adapted) /\
    tool_choice_name adapted = tool_choice_name object.
Proof.
  intros Hf. apply from_identities_spec in Hf as [Hu _]. simpl. eexists. split; [done|].
  destruct (tool_choice_name object) as [name|] eqn:Hn; simpl; [|done].
  destruct (registry_identity registry name) as [identity|] eqn:Hi; simpl; [|done].
  apply identity_mapping, (mapping_found _ _ Hu) in Hi as [Hi _]. simpl in Hi. rewrite Hi. by eapply set_name_chosen.
Qed.

(** ** Witnesses *)

(** A digest of the right size. *)
Definition sample_sha256 (material : string) : list Z :=
  repeat (Z.of_nat (length (bytes material)) mod 256) 32.

Lemma sample_sha256_bytes material : Forall is_byte (sample_sha256 material).
Proof.
  apply Forall_forall. intros b Hb. apply list_elem_of_In, repeat_spec in Hb as ->. unfold is_byte.
  pose proof (Z.mod_pos_bound (Z.of_nat (length (bytes material))) 256). lia.
Qed.

Definition docs_search : ToolIdentity := namespace_identity "mcp docs" "search/reference".
Definition patch_function : ToolIdentity := function_identity "apply_patch".
Definition patch_custom : ToolIdentity := custom_identity None "apply_patch".

Definition sample_identities : list ToolIdentity := [docs_search; patch_custom; patch_function; docs_search].

Definition sample_registry : ToolAdapterRegistry :=
  {| ta_version := 1;
     ta_mappings :=
       [{| tm_identity := patch_function; tm_upstream_name := "apply_patch" |};
        {| tm_identity := patch_custom; tm_upstream_name := "gw_apply_patch_131313131313" |};
        {| tm_identity := docs_search; tm_upstream_name := "gw_mcp_docs__search_reference_2a2a2a2a2a2a" |}] |}.

Lemma tool_names_reversible_witness :
  from_identities sample_sha256 sample_identities = Some (Ok sample_registry) /\
  from_identities sample_sha256 [patch_custom; docs_search; patch_function] = Some (Ok sample_registry).
Proof.
  assert (H : from_identities sample_sha256 sample_identities = Some (Ok sample_registry))
    by (vm_compute; reflexivity).
  split; [exact H|].
  destruct (tool_names_reversible sample_sha256 sample_identities sample_registry H) as (_ & _ & _ & Hp).
  apply Hp. intros identity. unfold sample_identities. rewrite !elem_of_cons. tauto.
Defined.

Lemma tool_names_fit_witness :
  Forall plain sample_identities /\
  exists registry, from_identities sample_sha256 sample_identities = Some (Ok registry) /\
    all_rightly (ta_mappings registry) /\ Forall function_kept (ta_mappings registry).
Proof.
  assert (H : Forall plain sample_identities) by (repeat (apply List.Forall_cons; [done|]); apply List.Forall_nil).
  split; [exact H|].
  destruct (tool_names_fit sample_sha256 (fun material => repeat_length _ 32) sample_sha256_bytes _ H)
    as [(registry & Hr & _ & Ha & Hf)|(before & identity & after & _ & _ & _ & He)];
    [exists registry; exact (conj Hr (conj Ha Hf))|vm_compute in He; discriminate He].
Defined.

Definition input_print (value : Value) : string := default "" (get_str value "input").
Definition input_parse (text : string) : option Value := Some (json_object [("input", JString text)]).
Definition one_value_stream (text : string) : list (option Value) := if str_is_empty text then [] else [Some JNull].

Lemma calls_roundtrip_witness :
  let ctx := {| ac_strict := true; ac_model := None; ac_request_id := None; ac_upstream_id := None |} in
  from_identities sample_sha256 sample_identities = Some (Ok sample_registry) /\
  exists call,
    adapt_responses_function_call input_print one_value_stream sample_registry (call_item patch_custom "c1" "*** Begin") ctx
      = Ok call /\
    restore_function_call input_print input_parse id sample_registry call = Ok (call_item patch_custom "c1" "*** Begin").
Proof.
  intros ctx. split; [vm_compute; reflexivity|].
  apply (calls_roundtrip sample_sha256 input_print input_parse id one_value_stream (fun input => eq_refl) eq_refl
    sample_identities sample_registry patch_custom "c1" "*** Begin" ctx); [vm_compute; reflexivity| |done|by left].
  unfold sample_identities. rewrite !elem_of_cons. tauto.
Defined.

(** The patch tool was a function and is now custom: its calls come back as calls of the
    function. *)
Lemma merge_keeps_first_meaning_witness :
  let earlier := {| ta_version := 1; ta_mappings := [{| tm_identity := patch_function; tm_upstream_name := "apply_patch" |}] |} in
  let later := {| ta_version := 1; ta_mappings := [{| tm_identity := patch_custom; tm_upstream_name := "apply_patch" |}] |} in
  from_identities sample_sha256 [patch_function] = Some (Ok earlier) /\
  from_identities sample_sha256 [patch_custom] = Some (Ok later) /\
  forall other, registry_identity (merged_with earlier later) other <> Some patch_custom.
Proof.
  intros earlier later. split_and!; [vm_compute; reflexivity..|].
  destruct (merge_keeps_first_meaning earlier later) as [_ H].
  apply (H "apply_patch" patch_function patch_custom); [|vm_compute; reflexivity..|].
  - split; repeat constructor; set_solver.
  - intros other. unfold registry_identity, mapping_for_name. simpl. case_match; simpl; [discriminate|done].
Defined.

(** Choosing the namespaced tool by its own name leaves that name, which is not the one
    that the upstream knows. *)
Lemma tool_choice_keeps_name_witness :
  let object := json_fields [("type", JString "function"); ("name", JString "search/reference")] in
  from_identities sample_sha256 sample_identities = Some (Ok sample_registry) /\
  exists adapted, adapt_tool_choice (fun _ => "") sample_registry (JObject object) = Ok (JObject adapted) /\
    tool_choice_name adapted = Some "search/reference".
Proof.
  intros object. assert (H : from_identities sample_sha256 sample_identities = Some (Ok sample_registry))
    by (vm_compute; reflexivity).
  split; [exact H|].
  destruct (tool_choice_keeps_name sample_sha256 (fun _ => "") sample_identities sample_registry object H) as (adapted & Ha & Hn).
  exists adapted. split; [exact Ha|]. rewrite Hn. vm_compute. reflexivity.
Defined.
