(* ===== verification/StreamAggregate.v ===== *)
(** * Aggregating an event stream into one response

    The rest of [src/src/protocol/stream_aggregate.rs]: the state that collects the
    deltas of a chat response ([ChatAggregateState]) or takes the final snapshot of a
    Responses stream, the aggregator over [SseDecoder], and the classifiers that watch
    the start of a stream. [serialize_sse_data] of [src/src/server/gateway/stream.rs] and
    [claude_sse_event] of [src/src/server/gateway/claude.rs] write the same format.

    The text of a document is parsed by serde_json, which is the parameter
    [parse_json]. A method that can fail half-way returns the state it leaves. *)

From S2P Require Import Prelude RouteTypes ModelIdentity Protocol Json SseDecoder.

Local Open Scope Z_scope.

(** Go on unless there was an error; the state is kept either way. *)
Notation "'let!' x := c1 'in' c2" :=
  (match c1 with (x, Ok _) => c2 | (x, Err error) => (x, Err error) end)
  (at level 10, x pattern, c1 at level 100, c2 at level 200) : rust_scope.

(** A [BTreeMap] yields its entries in the order of the keys. *)
Definition ordered_entries {V} (m : gmap Z V) : list (Z * V) :=
  sort_by (not_above (on_ltb fst Z.ltb)) (map_to_list m).

(** ** Text of deltas *)

Definition no_text : ProtocolError := invalid_stream Decode "chat content delta has no text".
Definition not_textual : ProtocolError := invalid_stream Decode "chat content delta is not textual".

Fixpoint stream_text (value : Value) : result string ProtocolError :=
  match value with
  | JString text => Ok text
  | JArray parts =>
      (fix texts parts :=
         match parts with
         | [] => Ok ""
         | part :: parts =>
             let? text := stream_text part in
             let? rest := texts parts in
             Ok (text +:+ rest)
         end) parts
  | JObject object => ok_or (v ← map_get object "text"; as_str v) no_text
  | _ => Err not_textual
  end.

Definition merge_stream_identity (current incoming : string) : string :=
  if str_is_empty current then incoming
  else if starts_with (bytes current) (bytes incoming) then current
  else if starts_with (bytes incoming) (bytes current) then incoming
  else current +:+ incoming.

Definition preserve_field (target : option Value) (source : Value) (field : string) : option Value :=
  or_else (get_non_null source field) target.

Definition insert_optional (output : json_map) (field : string) (value : option Value) : json_map :=
  match value with Some value => map_insert field value output | None => output end.

(** [merge_logprobs]: arrays grow, anything else is replaced. *)
Fixpoint merge_fields (existing incoming : json_map) : json_map :=
  match incoming with
  | [] => existing
  | (key, value) :: incoming =>
      let merged :=
        match map_get existing key, value with
        | Some (JArray old), JArray values => JArray (old ++ values)
        | _, _ => value
        end in
      merge_fields (map_insert key merged existing) incoming
  end.

Definition merge_logprobs (target : option Value) (incoming : Value) : option Value :=
  match target, incoming with
  | Some (JObject existing), JObject fields => Some (JObject (merge_fields existing fields))
  | _, _ => Some incoming
  end.

(** ** Tool calls *)

Record ChatFunctionState := {
  fn_name : string;
  fn_arguments : string
}.

Definition ChatFunctionState_default : ChatFunctionState := {| fn_name := ""; fn_arguments := "" |}.

Definition function_apply (self : ChatFunctionState) (delta : json_map) : ChatFunctionState :=
  let delta := JObject delta in
  let self :=
    match get_str delta "name" with
    | Some name => {| self with fn_name := merge_stream_identity (fn_name self) name |}
    | None => self
    end in
  match get_str delta "arguments" with
  | Some arguments => {| self with fn_arguments := fn_arguments self +:+ arguments |}
  | None => self
  end.

Definition function_build (self : ChatFunctionState) : Value :=
  json_object [("name", JString (fn_name self)); ("arguments", JString (fn_arguments self))].

Record ChatToolCallState := {
  tc_id : string;
  tc_kind : option string;
  tc_function : ChatFunctionState
}.

Definition ChatToolCallState_default : ChatToolCallState :=
  {| tc_id := ""; tc_kind := None; tc_function := ChatFunctionState_default |}.

Definition tool_call_apply (self : ChatToolCallState) (fields : json_map) : ChatToolCallState :=
  let delta := JObject fields in
  let self :=
    match get_str delta "id" with
    | Some id => {| self with tc_id := merge_stream_identity (tc_id self) id |}
    | None => self
    end in
  let self :=
    match get_str delta "type" with
    | Some kind => {| self with tc_kind := Some kind |}
    | None => self
    end in
  match (v ← get delta "function"; as_object v) with
  | Some function => {| self with tc_function := function_apply (tc_function self) function |}
  | None => self
  end.

Definition tool_call_build (index : Z) (self : ChatToolCallState) : Value :=
  json_object
    [("index", JNumber (Integer index)); ("id", JString (tc_id self));
     ("type", JString (default "function" (tc_kind self))); ("function", function_build (tc_function self))].

(** ** Choices *)

Record ChatChoiceState := {
  ch_role : option string;
  ch_content : string;
  ch_refusal : string;
  ch_reasoning_content : string;
  ch_tool_calls : gmap Z ChatToolCallState;
  ch_function_call : option ChatFunctionState;
  ch_finish_reason : option Value;
  ch_logprobs : option Value
}.

Definition ChatChoiceState_default : ChatChoiceState :=
  {| ch_role := None; ch_content := ""; ch_refusal := ""; ch_reasoning_content := "";
     ch_tool_calls := ∅; ch_function_call := None; ch_finish_reason := None; ch_logprobs := None |}.

(** The index of an entry: its own, or its place in the list. *)
Definition entry_index (entry : json_map) (fallback_index : Z) : Z :=
  default fallback_index (v ← map_get entry "index"; as_u64 v).

Fixpoint apply_tool_calls (calls : gmap Z ChatToolCallState) (fallback_index : Z) (tool_calls : list Value)
    : gmap Z ChatToolCallState * result unit ProtocolError :=
  match tool_calls with
  | [] => (calls, Ok tt)
  | tool_call :: tool_calls =>
      match as_object tool_call with
      | None => (calls, Err (invalid_stream Decode "chat tool call delta is not an object"))
      | Some tool_call =>
          let index := entry_index tool_call fallback_index in
          let state := default ChatToolCallState_default (calls !! index) in
          apply_tool_calls (<[index := tool_call_apply state tool_call]> calls) (fallback_index + 1) tool_calls
      end
  end.

Definition apply_content (self : ChatChoiceState) (delta : Value) : ChatChoiceState * result unit ProtocolError :=
  match get_non_null delta "content" with
  | None => (self, Ok tt)
  | Some content =>
      match stream_text content with
      | Ok text => ({| self with ch_content := ch_content self +:+ text |}, Ok tt)
      | Err error => (self, Err error)
      end
  end.

Definition apply_delta (self : ChatChoiceState) (fields : json_map)
    : ChatChoiceState * result unit ProtocolError :=
  let delta := JObject fields in
  let self :=
    match get_str delta "role" with Some role => {| self with ch_role := Some role |} | None => self end in
  let! self := apply_content self delta in
  let self :=
    match get_str delta "refusal" with
    | Some refusal => {| self with ch_refusal := ch_refusal self +:+ refusal |}
    | None => self
    end in
  let self :=
    match get_str delta "reasoning_content" with
    | Some reasoning => {| self with ch_reasoning_content := ch_reasoning_content self +:+ reasoning |}
    | None => self
    end in
  let! self :=
    match get_array delta "tool_calls" with
    | Some tool_calls =>
        let '(calls, applied) := apply_tool_calls (ch_tool_calls self) 0 tool_calls in
        ({| self with ch_tool_calls := calls |}, applied)
    | None => (self, Ok tt)
    end in
  (match (v ← get delta "function_call"; as_object v) with
   | Some function_call =>
       {| self with ch_function_call :=
            Some (function_apply (default ChatFunctionState_default (ch_function_call self)) function_call) |}
   | None => self
   end, Ok tt).

Definition text_or_null (s : string) : Value := if str_is_empty s then JNull else JString s.

Definition choice_message (self : ChatChoiceState) : json_map :=
  let message := map_insert "role" (JString (default "assistant" (ch_role self))) [] in
  let message := map_insert "content" (text_or_null (ch_content self)) message in
  let message :=
    if str_is_empty (ch_refusal self) then message
    else map_insert "refusal" (JString (ch_refusal self)) message in
  let message :=
    if str_is_empty (ch_reasoning_content self) then message
    else map_insert "reasoning_content" (JString (ch_reasoning_content self)) message in
  let message :=
    if bool_decide (ch_tool_calls self = ∅) then message
    else map_insert "tool_calls"
           (JArray ((fun '(index, call) => tool_call_build index call) <$> ordered_entries (ch_tool_calls self)))
           message in
  match ch_function_call self with
  | Some function_call => map_insert "function_call" (function_build function_call) message
  | None => message
  end.

Definition choice_build (index : Z) (self : ChatChoiceState) : Value :=
  json_object
    [("index", JNumber (Integer index)); ("message", JObject (choice_message self));
     ("finish_reason", default JNull (ch_finish_reason self)); ("logprobs", default JNull (ch_logprobs self))].

(** ** Chat responses *)

Record ChatAggregateState := {
  ca_id : option Value;
  ca_created : option Value;
  ca_model : option Value;
  ca_service_tier : option Value;
  ca_system_fingerprint : option Value;
  ca_usage : option Value;
  ca_choices : gmap Z ChatChoiceState
}.

Definition ChatAggregateState_default : ChatAggregateState :=
  {| ca_id := None; ca_created := None; ca_model := None; ca_service_tier := None;
     ca_system_fingerprint := None; ca_usage := None; ca_choices := ∅ |}.

(** One entry of [choices]. *)
Definition apply_choice (state : ChatChoiceState) (fields : json_map)
    : ChatChoiceState * result unit ProtocolError :=
  let choice := JObject fields in
  let! state :=
    match (v ← or_else (get choice "delta") (get choice "message"); as_object v) with
    | Some delta => apply_delta state delta
    | None => (state, Ok tt)
    end in
  let state :=
    match get_non_null choice "finish_reason" with
    | Some finish_reason => {| state with ch_finish_reason := Some finish_reason |}
    | None => state
    end in
  (match get_non_null choice "logprobs" with
   | Some logprobs => {| state with ch_logprobs := merge_logprobs (ch_logprobs state) logprobs |}
   | None => state
   end, Ok tt).

Fixpoint apply_choices (states : gmap Z ChatChoiceState) (fallback_index : Z) (choices : list Value)
    : gmap Z ChatChoiceState * result unit ProtocolError :=
  match choices with
  | [] => (states, Ok tt)
  | choice :: choices =>
      match as_object choice with
      | None => (states, Err (invalid_stream Decode "chat choice is not an object"))
      | Some choice =>
          let index := entry_index choice fallback_index in
          let '(state, applied) := apply_choice (default ChatChoiceState_default (states !! index)) choice in
          let states := <[index := state]> states in
          match applied with
          | Err error => (states, Err error)
          | Ok _ => apply_choices states (fallback_index + 1) choices
          end
      end
  end.

Definition chat_apply_event (self : ChatAggregateState) (event : Value)
    : ChatAggregateState * result unit ProtocolError :=
  let self :=
    {| self with
       ca_id := preserve_field (ca_id self) event "id";
       ca_created := preserve_field (ca_created self) event "created";
       ca_model := preserve_field (ca_model self) event "model";
       ca_service_tier := preserve_field (ca_service_tier self) event "service_tier";
       ca_system_fingerprint := preserve_field (ca_system_fingerprint self) event "system_fingerprint";
       ca_usage := or_else (get_non_null event "usage") (ca_usage self) |} in
  match get_array event "choices" with
  | None => (self, Ok tt)
  | Some choices =>
      let '(states, applied) := apply_choices (ca_choices self) 0 choices in
      ({| self with ca_choices := states |}, applied)
  end.

Definition is_semantically_finished (self : ChatAggregateState) : bool :=
  negb (bool_decide (ca_choices self = ∅))
  && forallb (fun entry => is_some (ch_finish_reason entry.2)) (ordered_entries (ca_choices self)).

Definition chat_build_response (self : ChatAggregateState) : result Value ProtocolError :=
  if bool_decide (ca_choices self = ∅) then Err (invalid_stream Incomplete "chat stream contains no choices")
  else
    let choices := (fun '(index, choice) => choice_build index choice) <$> ordered_entries (ca_choices self) in
    let response := map_insert "id" (default (JString "chatcmpl") (ca_id self)) [] in
    let response := map_insert "object" (JString "chat.completion") response in
    let response := map_insert "created" (default (JNumber (Integer 0)) (ca_created self)) response in
    let response := map_insert "model" (default (JString "") (ca_model self)) response in
    let response := map_insert "choices" (JArray choices) response in
    let response := insert_optional response "service_tier" (ca_service_tier self) in
    let response := insert_optional response "system_fingerprint" (ca_system_fingerprint self) in
    let response := insert_optional response "usage" (ca_usage self) in
    Ok (JObject response).

(** ** The aggregator *)

(** The fields of [StreamResponseAggregator] other than the decoder. *)
Record Aggregation := {
  as_protocol : UpstreamProtocol;
  as_chat : ChatAggregateState;
  as_complete : option Value;
  as_completion_emitted : bool
}.

Record StreamResponseAggregator := {
  ag_decoder : SseDecoder;
  ag_state : Aggregation
}.

Definition Aggregation_new (protocol : UpstreamProtocol) : Aggregation :=
  {| as_protocol := protocol; as_chat := ChatAggregateState_default; as_complete := None;
     as_completion_emitted := false |}.

Definition StreamResponseAggregator_new (protocol : UpstreamProtocol) : StreamResponseAggregator :=
  {| ag_decoder := SseDecoder_new; ag_state := Aggregation_new protocol |}.

Inductive StreamAggregateResult :=
| Pending
| Complete (value : Value).

Definition terminal_response_status (event_type : option string) : option string :=
  match event_type with
  | Some kind =>
      if String.eqb kind "response.completed" then Some "completed"
      else if String.eqb kind "response.incomplete" then Some "incomplete"
      else None
  | None => None
  end.

(** [matches!(kind, Some(a | b))]. *)
Definition kind_among (kind : option string) (kinds : list string) : bool :=
  is_some_and (fun kind => existsb (String.eqb kind) kinds) kind.

(** [value.get("error").is_some_and(|error| !error.is_null())]. *)
Definition has_error (value : Value) : bool := is_some (get_non_null value "error").

Definition apply_responses_event (self : Aggregation) (event : Value) (sse_event_type : option string)
    : Aggregation * result unit ProtocolError :=
  let json_event_type := get_str event "type" in
  if kind_among json_event_type ["response.failed"; "error"]
  then (self, Err (invalid_stream UpstreamEvent "upstream emitted a failed Responses event"))
  else
    let json_terminal := terminal_response_status json_event_type in
    let sse_terminal := terminal_response_status sse_event_type in
    if is_some json_terminal && is_some sse_terminal && negb (bool_decide (json_terminal = sse_terminal))
    then (self, Err (invalid_stream Decode "Responses SSE event type conflicts with the JSON event type"))
    else
      match or_else json_terminal sse_terminal with
      | None => (self, Ok tt)
      | Some expected_status =>
          match (v ← get event "response"; as_object v) with
          | None => (self, Err (invalid_stream Decode "terminal Responses event has no response object"))
          | Some response =>
              if negb (bool_decide (get_str (JObject response) "status" = Some expected_status))
                 || negb (is_some_and is_array (map_get response "output"))
              then (self, Err (invalid_stream Decode
                     "terminal Responses event does not contain a complete response snapshot"))
              else ({| self with as_complete := Some (JObject response) |}, Ok tt)
          end
      end.

Section Parsed.
  Variable parse_json : string -> option Value.

Definition process_event (self : Aggregation) (event : SseEvent) : Aggregation * result unit ProtocolError :=
  if kind_among (ev_event_type event) ["error"; "response.failed"]
  then (self, Err (invalid_stream UpstreamEvent "upstream emitted an SSE error event"))
  else
    let payload := trim (ev_data event) in
    if str_is_empty payload then (self, Ok tt)
    else if String.eqb payload "[DONE]" then
      match as_protocol self with
      | UpChatCompletions =>
          match chat_build_response (as_chat self) with
          | Ok response => ({| self with as_complete := Some response |}, Ok tt)
          | Err error => (self, Err error)
          end
      | UpResponses =>
          (self, Err (invalid_stream Incomplete "responses stream ended without a terminal response object"))
      end
    else
      match parse_json payload with
      | None => (self, Err (invalid_stream Decode "data payload is not valid JSON"))
      | Some value =>
          if has_error value
          then (self, Err (invalid_stream UpstreamEvent "upstream returned an error envelope"))
          else
            match as_protocol self with
            | UpChatCompletions =>
                let '(chat, applied) := chat_apply_event (as_chat self) value in
                ({| self with as_chat := chat |}, applied)
            | UpResponses => apply_responses_event self value (ev_event_type event)
            end
      end.

Definition validate_terminal_tail (event : SseEvent) : result unit ProtocolError :=
  if kind_among (ev_event_type event) ["error"; "response.failed"]
  then Err (invalid_stream UpstreamEvent "upstream emitted an SSE error event after terminal completion")
  else
    let payload := trim (ev_data event) in
    if String.eqb payload "[DONE]" then Ok tt
    else if is_some_and (fun value => kind_among (get_str value "type") ["error"; "response.failed"] || has_error value)
              (parse_json payload)
    then Err (invalid_stream UpstreamEvent "upstream emitted an error event after terminal completion")
    else Err (invalid_stream Decode "upstream emitted a semantic event after terminal completion").

Definition process_event_or_terminal_tail (self : Aggregation) (event : SseEvent)
    : Aggregation * result unit ProtocolError :=
  match as_complete self with
  | None => process_event self event
  | Some _ =>
      match validate_terminal_tail event with
      | Ok _ => (self, Ok tt)
      | Err error => ({| self with as_complete := None; as_completion_emitted := true |}, Err error)
      end
  end.

Definition completion_already_emitted : ProtocolError :=
  invalid_stream Decode "aggregate completion was already emitted".

(** [None] is a panic of the decoder. *)
Definition push (self : StreamResponseAggregator) (chunk : byte_string)
    : option (StreamResponseAggregator * result StreamAggregateResult ProtocolError) :=
  if as_completion_emitted (ag_state self) then Some (self, Err completion_already_emitted)
  else
    '(decoder, appended) ← append (ag_decoder self) chunk;
    match appended with
    | Err error => Some ({| self with ag_decoder := decoder |}, Err error)
    | Ok _ =>
        '(decoder, state, drained) ← drain process_event_or_terminal_tail decoder (ag_state self);
        let self := {| ag_decoder := decoder; ag_state := state |} in
        match drained, as_complete state with
        | Err error, _ => Some (self, Err error)
        | Ok _, Some value =>
            Some ({| self with ag_state := {| state with as_complete := None; as_completion_emitted := true |} |},
                  Ok (Complete value))
        | Ok _, None => Some (self, Ok Pending)
        end
    end.

Definition aggregator_finish (self : StreamResponseAggregator) : option (result Value ProtocolError) :=
  let state := ag_state self in
  if as_completion_emitted state then Some (Err completion_already_emitted)
  else match as_complete state with
  | Some value => Some (Ok value)
  | None =>
      '(_, state, drained) ← drain process_event_or_terminal_tail (decoder_finish (ag_decoder self)) state;
      match drained, as_complete state with
      | Err error, _ => Some (Err error)
      | Ok _, Some value => Some (Ok value)
      | Ok _, None =>
          Some match as_protocol state with
               | UpChatCompletions =>
                   if is_semantically_finished (as_chat state) then chat_build_response (as_chat state)
                   else Err (invalid_stream Incomplete "chat stream ended before a semantic finish")
               | UpResponses =>
                   Err (invalid_stream Incomplete
                     "responses stream ended before response.completed or response.incomplete")
               end
      end
  end.

(** The loop of [aggregate_upstream_sse_response] over the chunks that arrive. *)
Fixpoint aggregate_chunks (self : StreamResponseAggregator) (chunks : list byte_string)
    : option (result Value ProtocolError) :=
  match chunks with
  | [] => aggregator_finish self
  | chunk :: chunks =>
      '(self, pushed) ← push self chunk;
      match pushed with
      | Err error => Some (Err error)
      | Ok (Complete response) => Some (Ok response)
      | Ok Pending => aggregate_chunks self chunks
      end
  end.

Definition aggregate_upstream_sse_response (protocol : UpstreamProtocol) (chunks : list byte_string)
    : option (result Value ProtocolError) :=
  aggregate_chunks (StreamResponseAggregator_new protocol) chunks.

End Parsed.

(** ** The reference

    What a whole text aggregates to: its events in order until one completes the
    response; whatever comes after that is ignored. *)

Section Reference.
  Variable parse_json : string -> option Value.

Definition until_complete (self : Aggregation) (event : SseEvent) : Aggregation * result unit ProtocolError :=
  match as_complete self with
  | None => process_event parse_json self event
  | Some _ => (self, Ok tt)
  end.

(** A stream that ended without a terminal event. *)
Definition end_of_stream (state : Aggregation) : result Value ProtocolError :=
  match as_protocol state with
  | UpChatCompletions =>
      if is_semantically_finished (as_chat state) then chat_build_response (as_chat state)
      else Err (invalid_stream Incomplete "chat stream ended before a semantic finish")
  | UpResponses =>
      Err (invalid_stream Incomplete "responses stream ended before response.completed or response.incomplete")
  end.

Definition conclude (outcome : Aggregation * result unit ProtocolError) : result Value ProtocolError :=
  let '(state, processed) := outcome in
  match as_complete state, processed with
  | Some value, _ => Ok value
  | None, Err error => Err error
  | None, Ok _ => end_of_stream state
  end.

Definition aggregate_text (protocol : UpstreamProtocol) (text : byte_string) : result Value ProtocolError :=
  conclude (process_text until_complete (Aggregation_new protocol) text).

End Reference.

(** ** Facts: processing an event *)

Lemma chat_apply_event_only self event chat applied :
  chat_apply_event (as_chat self) event = (chat, applied) ->
  as_complete {| self with as_chat := chat |} = as_complete self.
Proof. done. Qed.

(** What [process_event] leaves alone, and that a completion is never an error. *)
Lemma process_event_frame parse self event self' r :
  process_event parse self event = (self', r) ->
  as_protocol self' = as_protocol self /\ as_completion_emitted self' = as_completion_emitted self /\
  (r <> Ok tt -> as_complete self' = as_complete self).
Proof.
  unfold process_event, apply_responses_event. intros H.
  repeat case_match; simplify_eq/=; by split_and!.
Qed.

Section Compared.
  Variable parse_json : string -> option Value.
  #[local] Notation strict := (process_event_or_terminal_tail parse_json).
  #[local] Notation lenient := (until_complete parse_json).

(** The outcome of the code against that of the reference: the same until a response
    is complete, and then the same unless the tail is an error. *)
Definition agrees (x y : Aggregation * result unit ProtocolError) : Prop :=
  (as_complete y.1 = None /\ x = y) \/
  (exists value, as_complete y.1 = Some value /\ (x.2 = Ok tt -> x = y)).

Lemma lenient_complete self event value :
  as_complete self = Some value -> lenient self event = (self, Ok tt).
Proof. unfold until_complete. by intros ->. Qed.

Lemma strict_complete self event value self' :
  as_complete self = Some value -> strict self event = (self', Ok tt) -> self' = self.
Proof. unfold process_event_or_terminal_tail. intros ->. destruct (validate_terminal_tail _ _) as [[]|]; naive_solver. Qed.

Lemma frame_complete self frame value :
  as_complete self = Some value ->
  (process_frame lenient self frame).1 = self /\
  ((process_frame strict self frame).2 = Ok tt -> process_frame strict self frame = (self, Ok tt) /\
     process_frame lenient self frame = (self, Ok tt)).
Proof.
  intros Hc. unfold process_frame. destruct (parse_sse_event frame) as [[event|]|error]; [|done..].
  rewrite (lenient_complete _ _ _ Hc). split; [done|]. destruct (strict self event) as [self' [[]|]] eqn:Hs; [|done].
  by apply (strict_complete _ _ _ _ Hc) in Hs as ->.
Qed.

Lemma frame_agrees self frame :
  as_complete self = None -> agrees (process_frame strict self frame) (process_frame lenient self frame).
Proof.
  intros Hc. unfold process_frame. destruct (parse_sse_event frame) as [[event|]|error]; [|by left..].
  unfold process_event_or_terminal_tail, until_complete. rewrite Hc.
  destruct (process_event parse_json self event) as [self' r]. destruct (as_complete self') as [value|] eqn:Hv.
  - right. by exists value.
  - by left.
Qed.

Lemma frames_complete frames : forall self value,
  as_complete self = Some value ->
  (process_frames lenient self frames).1 = self /\
  ((process_frames strict self frames).2 = Ok tt -> process_frames strict self frames = (self, Ok tt) /\
     process_frames lenient self frames = (self, Ok tt)).
Proof.
  induction frames as [|[frame d] frames IH]; intros self value Hc; [done|]. cbn [process_frames].
  destruct (_ <? _); [done|]. destruct (frame_complete self frame value Hc) as [H1 H2].
  destruct (process_frame lenient self frame) as [s1 [[]|e1]], (process_frame strict self frame) as [s2 [[]|e2]]; simpl in *;
    subst; try (by split; [|intros [=]]).
  - destruct (H2 eq_refl) as [[= ->] _]. by eapply IH.
  - split; [by eapply IH|done].
  - by destruct (H2 eq_refl) as [_ [=]].
Qed.

Lemma frames_agree frames : forall self,
  as_complete self = None -> agrees (process_frames strict self frames) (process_frames lenient self frames).
Proof.
  induction frames as [|[frame d] frames IH]; intros self Hc; [by left|]. cbn [process_frames].
  destruct (_ <? _); [by left|].
  destruct (frame_agrees self frame Hc) as [[H1 ->]|(value & Hv & Heq)].
  - destruct (process_frame lenient self frame) as [s [[]|e]]; [by apply IH|by left].
  - destruct (process_frame lenient self frame) as [s r] eqn:Hl. simpl in Hv.
    destruct (process_frame strict self frame) as [s' [[]|e]] eqn:Hs; simpl in Heq.
    + injection (Heq eq_refl) as -> <-. right. exists value.
      destruct (frames_complete frames s value Hv) as [H1 H2]. rewrite H1. split; [done|]. intros Hok.
      by destruct (H2 Hok) as [-> ->].
    + right. exists value. split; [|done]. destruct r as [[]|]; [|done]. by destruct (frames_complete frames s value Hv) as [-> _].
Qed.

Lemma chunk_complete self l value :
  as_complete self = Some value ->
  (process_chunk lenient self l).1 = self.
Proof.
  intros Hc. unfold process_chunk. destruct (split_frames l) as [frames rest].
  destruct (frames_complete frames self value Hc) as [H _].
  destruct (process_frames lenient self frames) as [s [[]|e]]; simpl in *; [|done]. by destruct (_ <? _).
Qed.

Lemma chunk_agrees self l :
  as_complete self = None -> agrees (process_chunk strict self l) (process_chunk lenient self l).
Proof.
  intros Hc. unfold process_chunk. destruct (split_frames l) as [frames rest].
  destruct (frames_agree frames self Hc) as [[H1 ->]|(value & Hv & Heq)].
  - left. split; [|done]. destruct (process_frames lenient self frames) as [s [[]|e]]; [|done]. by destruct (_ <? _).
  - right. exists value. destruct (process_frames lenient self frames) as [s r]. simpl in Hv.
    split; [destruct r as [[]|]; [by destruct (_ <? _)|done]|].
    destruct (process_frames strict self frames) as [s' [[]|e]]; simpl in *; [|done]. by injection (Heq eq_refl) as -> <-.
Qed.

Lemma rest_agrees self rest :
  as_complete self = None -> agrees (process_rest strict self rest) (process_rest lenient self rest).
Proof. unfold process_rest. intros Hc. destruct (is_empty rest); [by left|by apply frame_agrees]. Qed.

Lemma rest_complete self rest value :
  as_complete self = Some value -> (process_rest lenient self rest).1 = self.
Proof. unfold process_rest. intros Hc. destruct (is_empty rest); [done|]. by apply (frame_complete self rest value). Qed.

End Compared.

Section Preserved.
  Context {A : Type} (process : A -> SseEvent -> A * result unit ProtocolError) (P : A -> Prop).
  Hypothesis process_keeps : forall acc event, P acc -> P (process acc event).1.

Lemma frame_keeps acc frame : P acc -> P (process_frame process acc frame).1.
Proof. unfold process_frame. destruct (parse_sse_event frame) as [[event|]|]; auto. Qed.

Lemma frames_keep frames : forall acc, P acc -> P (process_frames process acc frames).1.
Proof.
  induction frames as [|[frame d] frames IH]; intros acc HP; [done|]. cbn [process_frames].
  destruct (_ <? _); [done|]. pose proof (frame_keeps acc frame HP).
  destruct (process_frame process acc frame) as [acc' [[]|]]; auto.
Qed.

Lemma chunk_keeps acc l : P acc -> P (process_chunk process acc l).1.
Proof.
  intros HP. unfold process_chunk. destruct (split_frames l) as [frames rest]. pose proof (frames_keep frames acc HP).
  destruct (process_frames process acc frames) as [acc' [[]|]]; [|done]. by destruct (_ <? _).
Qed.

End Preserved.

Lemma process_text_eq {A} (process : A -> SseEvent -> A * result unit ProtocolError) acc l :
  process_text process acc l =
    let '(acc, processed) := process_chunk process acc l in
    match processed with
    | Err error => (acc, Err error)
    | Ok _ => process_rest process acc (snd (split_frames l))
    end.
Proof.
  unfold process_text, process_chunk, process_rest. destruct (split_frames l) as [frames rest]. simpl.
  destruct (process_frames process acc frames) as [acc' [[]|]]; [|done]. by destruct (_ <? _).
Qed.

(** A text that goes on after a chunk. *)
Lemma process_text_app {A} (process : A -> SseEvent -> A * result unit ProtocolError) acc l x :
  process_text process acc (l ++ x) =
    let '(acc, processed) := process_chunk process acc l in
    match processed with
    | Err error => (acc, Err error)
    | Ok _ => process_text process acc (snd (split_frames l) ++ x)
    end.
Proof.
  rewrite process_text_eq, process_chunk_app, split_rest_app.
  destruct (process_chunk process acc l) as [acc' [[]|]]; [|done]. by rewrite process_text_eq.
Qed.

Section Aggregated.
  Variable parse_json : string -> option Value.
  #[local] Notation strict := (process_event_or_terminal_tail parse_json).
  #[local] Notation lenient := (until_complete parse_json).

Lemma lenient_keeps protocol self event :
  as_protocol self = protocol /\ as_completion_emitted self = false ->
  as_protocol (lenient self event).1 = protocol /\ as_completion_emitted (lenient self event).1 = false.
Proof.
  unfold until_complete. intros [Hp He]. destruct (as_complete self); [done|].
  destruct (process_event parse_json self event) as [self' r] eqn:Hr.
  destruct (process_event_frame _ _ _ _ _ Hr) as (H1 & H2 & _). simpl. by rewrite H1, H2.
Qed.

Lemma text_complete self l value :
  as_complete self = Some value -> conclude (process_text lenient self l) = Ok value.
Proof.
  intros Hc. rewrite process_text_eq. pose proof (chunk_complete parse_json self l value Hc) as H.
  destruct (process_chunk lenient self l) as [s [[]|]]; simpl in H; subst s; unfold conclude; [|by rewrite Hc].
  pose proof (rest_complete parse_json self (snd (split_frames l)) value Hc) as H.
  destruct (process_rest _ _ _) as [s r]. simpl in H. subst s. by rewrite Hc.
Qed.

(** Between two chunks. *)
Record between (self : StreamResponseAggregator) : Prop := {
  bt_decoder : decoder_ok (ag_decoder self);
  bt_open : sd_finished (ag_decoder self) = false;
  bt_no_frame : cut (rest_of (ag_decoder self)) = None;
  bt_size : Z.of_nat (length (rest_of (ag_decoder self))) <= MAX_STREAM_AGGREGATE_FRAME_BYTES;
  bt_incomplete : as_complete (ag_state self) = None;
  bt_not_emitted : as_completion_emitted (ag_state self) = false
}.

(** The reference result, or an error of what follows a complete response, which the
    code also finds when it reads the whole text at once. *)
Definition refines (r : result Value ProtocolError) (self : Aggregation) (l : byte_string) : Prop :=
  let reference := conclude (process_text lenient self l) in
  r = reference \/
  (is_ok reference = true /\ is_ok r = false /\ is_ok (process_text strict self l).2 = false).

Lemma finish_spec self :
  between self ->
  exists r, aggregator_finish parse_json self = Some r /\
    refines r (ag_state self) (rest_of (ag_decoder self)).
Proof.
  intros [Hok Hf Hn Hsize Hc He]. unfold aggregator_finish. rewrite Hc, He.
  destruct (drain_spec strict (decoder_finish (ag_decoder self)) (ag_state self)) as (d & s & r & -> & Hr & _);
    [by destruct Hok|]. simpl in Hr |- *. change (rest_of (decoder_finish (ag_decoder self))) with (rest_of (ag_decoder self)) in Hr.
  unfold refines. rewrite !process_text_eq. rewrite !process_chunk_none, (proj2 (Z.ltb_ge _ _)) in * by done.
  assert (snd (split_frames (rest_of (ag_decoder self))) = rest_of (ag_decoder self)) as Hs by (by rewrite split_frames_eq, Hn).
  rewrite Hs in *. pose proof (rest_agrees parse_json (ag_state self) (rest_of (ag_decoder self)) Hc) as Hagree.
  rewrite <- Hr in *. destruct (process_rest lenient _ _) as [s' r']. destruct Hagree as [[Hv [= -> ->]]|(value & Hv & Heq)].
  - simpl in Hv. unfold conclude. rewrite Hv. destruct r' as [[]|e]; eexists; (split; [done|by left]).
  - simpl in Hv. unfold conclude. rewrite Hv. destruct r as [[]|e]; simpl in Heq.
    + injection (Heq eq_refl) as -> <-. rewrite Hv. eexists. split; [done|by left].
    + eexists. split; [done|]. by right.
Qed.

Lemma aggregate_chunks_spec chunks : forall self,
  between self ->
  sd_total_bytes (ag_decoder self) + Z.of_nat (length (concat chunks)) <= MAX_STREAM_AGGREGATE_TOTAL_BYTES ->
  exists r, aggregate_chunks parse_json self chunks = Some r /\
    refines r (ag_state self) (rest_of (ag_decoder self) ++ concat chunks).
Proof.
  induction chunks as [|chunk chunks IH]; intros self Hb Ht; simpl in *; [rewrite app_nil_r; by apply finish_spec|].
  pose proof Hb as [Hok Hf Hn Hsize Hc He]. rewrite length_app in Ht. unfold push. rewrite He.
  destruct (append_spec (ag_decoder self) chunk Hok Hf) as (d1 & -> & Hok1 & Hr1 & Hf1 & Ht1); [lia|]. simpl.
  destruct (drain_spec strict d1 (ag_state self) Hok1) as (d2 & s2 & r2 & -> & Hacc & Hafter). simpl.
  rewrite Hf1, Hr1 in Hacc. set (l := rest_of (ag_decoder self) ++ chunk) in *.
  assert ((s2, r2) = process_chunk strict (ag_state self) l) as Hs2.
  { destruct (process_chunk strict (ag_state self) l) as [s [[]|e]]; done. }
  pose proof (chunk_agrees parse_json (ag_state self) l Hc) as Hagree. rewrite <- Hs2 in Hagree.
  unfold refines. rewrite app_assoc, !process_text_app. fold l. rewrite <- Hs2.
  pose proof (chunk_keeps lenient _ (lenient_keeps (as_protocol (ag_state self))) (ag_state self) l (conj eq_refl He)) as Hkeep.
  destruct (process_chunk lenient (ag_state self) l) as [s3 r3] eqn:Hs3. simpl in Hkeep.
  destruct Hagree as [[Hv [= -> ->]]|(value & Hv & Heq)]; simpl in Hv.
  - destruct r3 as [[]|e]; simpl; rewrite ?Hv; [|eexists; split; [done|by left]].
    destruct (Hafter eq_refl) as (Hok2 & Hr2 & Ht2 & Hf2). unfold decoder_end in Hr2. rewrite Hf1, Hr1 in Hr2. fold l in Hr2.
    assert (Z.of_nat (length (rest_of d2)) <= MAX_STREAM_AGGREGATE_FRAME_BYTES) as Hsize2.
    { rewrite Hr2. revert Hs3. unfold process_chunk. destruct (split_frames l) as [fs r]. simpl.
      destruct (process_frames _ _ _) as [a [[]|?]]; [|done]. destruct (Z.ltb_spec MAX_STREAM_AGGREGATE_FRAME_BYTES (Z.of_nat (length r))); [done|lia]. }
    simpl. destruct (IH {| ag_decoder := d2; ag_state := s3 |}) as (r & -> & Hr); simpl; [|lia|].
    + split; simpl; [done|congruence|rewrite Hr2; apply split_rest_no_cut|done|done|apply Hkeep].
    + exists r. split; [done|]. by rewrite <- Hr2.
  - assert (conclude (let '(acc, processed) := (s3, r3) in match processed with
      | Ok _ => process_text lenient acc ((split_frames l).2 ++ concat chunks) | Err error => (acc, Err error) end) = Ok value) as ->.
    { destruct r3 as [[]|e]; [by apply text_complete|unfold conclude; by rewrite Hv]. }
    destruct r2 as [[]|e]; simpl in Heq |- *; [|eexists; split; [done|by right]].
    injection (Heq eq_refl) as -> <-. rewrite Hv. simpl. eexists. split; [done|by left].
Qed.

Lemma aggregator_new_between protocol : between (StreamResponseAggregator_new protocol).
Proof. split; simpl; try done. apply SseDecoder_new_ok. Qed.

End Aggregated.

(** C16. How a response is cut into chunks can change its aggregation in one way only.
    Within the limit, aggregation ends, without a panic, with the result of the whole
    text read up to its terminal event, unless an error follows the complete response in
    the same chunk, which then replaces the response. So every error of the text itself
    is reported in whatever chunks it comes; a response that is returned is the right
    one; and a text without an error, not even after its terminal event, gives the same
    result in whatever chunks it comes. *)
Theorem aggregation_ignores_chunks parse_json protocol chunks :
  Z.of_nat (length (concat chunks)) <= MAX_STREAM_AGGREGATE_TOTAL_BYTES ->
  exists r, aggregate_upstream_sse_response parse_json protocol chunks = Some r /\
    let reference := aggregate_text parse_json protocol (concat chunks) in
    (is_ok r = true -> r = reference) /\
    (is_ok reference = false -> r = reference) /\
    ((process_text (process_event_or_terminal_tail parse_json) (Aggregation_new protocol)
        (concat chunks)).2 = Ok tt -> r = reference).
Proof.
  intros Ht. destruct (aggregate_chunks_spec parse_json chunks (StreamResponseAggregator_new protocol)) as (r & Hr & Href);
    [apply aggregator_new_between|done|].
  exists r. split; [done|]. destruct Href as [Href|(Hok & Herr & Hwhole)]; [done|].
  unfold aggregate_text. simpl in *. split_and!; intros H; [congruence..|]. by rewrite H in Hwhole.
Qed.

(** ** Deltas

    The reference for the texts of a choice: what the events say for it, one after the
    other. *)

Fixpoint chat_apply_events (self : ChatAggregateState) (events : list Value)
    : ChatAggregateState * result unit ProtocolError :=
  match events with
  | [] => (self, Ok tt)
  | event :: events => let! self := chat_apply_event self event in chat_apply_events self events
  end.

Section Deltas.
  Variable delta_text : json_map -> string.

(** The delta of an entry of [choices]. *)
Definition delta_of (fields : json_map) : option json_map :=
  let choice := JObject fields in
  v ← or_else (get choice "delta") (get choice "message"); as_object v.

Definition choice_text (fields : json_map) : string :=
  match delta_of fields with Some delta => delta_text delta | None => "" end.

Fixpoint choices_text (index fallback_index : Z) (choices : list Value) : string :=
  match choices with
  | [] => ""
  | choice :: choices =>
      match as_object choice with
      | Some fields => if entry_index fields fallback_index =? index then choice_text fields else ""
      | None => ""
      end +:+ choices_text index (fallback_index + 1) choices
  end.

Fixpoint events_text (index : Z) (events : list Value) : string :=
  match events with
  | [] => ""
  | event :: events => choices_text index 0 (default [] (get_array event "choices")) +:+ events_text index events
  end.

End Deltas.

Definition content_delta (delta : json_map) : string :=
  match get_non_null (JObject delta) "content" with
  | Some content => match stream_text content with Ok text => text | Err _ => "" end
  | None => ""
  end.

Definition text_delta (field : string) (delta : json_map) : string := default "" (get_str (JObject delta) field).

(** The arguments of one tool call. *)
Fixpoint tool_arguments (index fallback_index : Z) (tool_calls : list Value) : string :=
  match tool_calls with
  | [] => ""
  | tool_call :: tool_calls =>
      match as_object tool_call with
      | Some fields =>
          if entry_index fields fallback_index =? index
          then default "" (function ← get (JObject fields) "function"; function ← as_object function;
                           get_str (JObject function) "arguments")
          else ""
      | None => ""
      end +:+ tool_arguments index (fallback_index + 1) tool_calls
  end.

Definition tool_calls_of (delta : json_map) : list Value := default [] (get_array (JObject delta) "tool_calls").

Definition arguments_delta (index : Z) (delta : json_map) : string := tool_arguments index 0 (tool_calls_of delta).

(** The function call of the older format. *)
Definition function_call_of (delta : json_map) : option json_map :=
  v ← get (JObject delta) "function_call"; as_object v.

Definition function_delta (delta : json_map) : string :=
  default "" (function ← function_call_of delta; get_str (JObject function) "arguments").

(** Some entry of a list stands for [index] and satisfies [f]. *)
Fixpoint some_entry (f : json_map -> bool) (index fallback_index : Z) (entries : list Value) : bool :=
  match entries with
  | [] => false
  | entry :: entries =>
      match as_object entry with
      | Some fields => (entry_index fields fallback_index =? index) && f fields
      | None => false
      end || some_entry f index (fallback_index + 1) entries
  end.

(** Some event names the choice [index], with a delta that satisfies [f]. *)
Definition events_name (f : json_map -> bool) (index : Z) (events : list Value) : bool :=
  existsb (fun event => some_entry f index 0 (default [] (get_array event "choices"))) events.

Definition names_choice : Z -> list Value -> bool := events_name (fun _ => true).

Definition names_tool (tool : Z) : Z -> list Value -> bool :=
  events_name (fun fields => is_some_and (fun delta => some_entry (fun _ => true) tool 0 (tool_calls_of delta)) (delta_of fields)).

Definition names_function : Z -> list Value -> bool :=
  events_name (fun fields => is_some_and (fun delta => is_some (function_call_of delta)) (delta_of fields)).

(** ** Facts: deltas are appended *)

Lemma append_assoc (a b c : string) : a +:+ (b +:+ c) = (a +:+ b) +:+ c.
Proof.
  induction a as [|x a IH]; [done|]. change (String.String x (a +:+ (b +:+ c)) = String.String x ((a +:+ b) +:+ c)).
  by rewrite IH.
Qed.

Lemma append_nil (a : string) : a +:+ "" = a.
Proof. induction a as [|x a IH]; [done|]. change (String.String x (a +:+ "") = String.String x a). by rewrite IH. Qed.

Lemma append_empty (a b : string) : str_is_empty (a +:+ b) = str_is_empty a && str_is_empty b.
Proof. by destruct a. Qed.

Section Appended.
  Context (part : ChatChoiceState -> string) (delta_text : json_map -> string).
  Hypothesis part_delta : forall state delta state',
    apply_delta state delta = (state', Ok tt) -> part state' = part state +:+ delta_text delta.
  Hypothesis part_default : part ChatChoiceState_default = "".
  Hypothesis part_finish : forall state reason, part {| state with ch_finish_reason := reason |} = part state.
  Hypothesis part_logprobs : forall state logprobs, part {| state with ch_logprobs := logprobs |} = part state.

Definition part_of (states : gmap Z ChatChoiceState) (index : Z) : string :=
  part (default ChatChoiceState_default (states !! index)).

Lemma apply_choice_part state fields state' :
  apply_choice state fields = (state', Ok tt) -> part state' = part state +:+ choice_text delta_text fields.
Proof.
  unfold apply_choice, choice_text, delta_of. intros H.
  destruct (v ← or_else _ _; as_object v) as [delta|].
  - destruct (apply_delta state delta) as [s [[]|]] eqn:Hd; [|done]. apply part_delta in Hd. rewrite <- Hd.
    repeat case_match; simplify_eq; by rewrite ?part_logprobs, ?part_finish.
  - rewrite append_nil. repeat case_match; simplify_eq; by rewrite ?part_logprobs, ?part_finish.
Qed.

Lemma apply_choices_part index choices : forall states fallback states',
  apply_choices states fallback choices = (states', Ok tt) ->
  part_of states' index = part_of states index +:+ choices_text delta_text index fallback choices.
Proof.
  induction choices as [|choice choices IH]; intros states fallback states'; cbn [apply_choices choices_text].
  { intros [= <-]. by rewrite append_nil. }
  destruct (as_object choice) as [fields|]; [|done].
  destruct (apply_choice _ fields) as [state [[]|]] eqn:Hc; [|done]. intros ->%IH.
  apply apply_choice_part in Hc. rewrite append_assoc. f_equal. unfold part_of.
  destruct (Z.eqb_spec (entry_index fields fallback) index) as [<-|Hne].
  - by rewrite lookup_insert_eq.
  - rewrite lookup_insert_ne by done. by rewrite append_nil.
Qed.

Lemma chat_apply_event_part index self event self' :
  chat_apply_event self event = (self', Ok tt) ->
  part_of (ca_choices self') index =
    part_of (ca_choices self) index +:+ choices_text delta_text index 0 (default [] (get_array event "choices")).
Proof.
  unfold chat_apply_event. destruct (get_array event "choices") as [choices|]; simpl.
  - destruct (apply_choices _ 0 choices) as [states [[]|]] eqn:Hc; [|done]. intros [= <-]. by apply apply_choices_part.
  - intros [= <-]. simpl. by rewrite append_nil.
Qed.

Lemma chat_apply_events_part index events : forall self self',
  chat_apply_events self events = (self', Ok tt) ->
  part_of (ca_choices self') index = part_of (ca_choices self) index +:+ events_text delta_text index events.
Proof.
  induction events as [|event events IH]; intros self self'; simpl; [intros [= <-]; by rewrite append_nil|].
  destruct (chat_apply_event self event) as [s [[]|]] eqn:He; [|done]. intros ->%IH.
  rewrite (chat_apply_event_part _ _ _ _ He). by rewrite append_assoc.
Qed.

Lemma aggregated_part index events self' :
  chat_apply_events ChatAggregateState_default events = (self', Ok tt) ->
  part_of (ca_choices self') index = events_text delta_text index events.
Proof.
  intros ->%(chat_apply_events_part index). unfold part_of. simpl. rewrite lookup_empty. simpl. by rewrite part_default.
Qed.

End Appended.

(** What a delta does to each part. *)
Lemma apply_delta_inv state delta state' :
  apply_delta state delta = (state', Ok tt) ->
  ch_content state' = ch_content state +:+ content_delta delta /\
  ch_refusal state' = ch_refusal state +:+ text_delta "refusal" delta /\
  ch_reasoning_content state' = ch_reasoning_content state +:+ text_delta "reasoning_content" delta /\
  apply_tool_calls (ch_tool_calls state) 0 (tool_calls_of delta) = (ch_tool_calls state', Ok tt) /\
  ch_function_call state' =
    match function_call_of delta with
    | Some call => Some (function_apply (default ChatFunctionState_default (ch_function_call state)) call)
    | None => ch_function_call state
    end.
Proof.
  unfold apply_delta, apply_content, content_delta, text_delta, function_call_of, tool_calls_of.
  set (value := JObject delta). generalize (v ← get value "function_call"; as_object v). intros function.
  assert (exists s1, (match get_str value "role" with Some role => {| state with ch_role := Some role |} | None => state end)
    = s1 /\ ch_content s1 = ch_content state /\ ch_refusal s1 = ch_refusal state /\
      ch_reasoning_content s1 = ch_reasoning_content state /\ ch_tool_calls s1 = ch_tool_calls state /\
      ch_function_call s1 = ch_function_call state)
    as (s1 & -> & <- & <- & <- & <- & <-) by (destruct (get_str value "role"); by eexists).
  destruct (get_non_null value "content") as [content|]; [destruct (stream_text content); [|done]|];
    destruct (get_array value "tool_calls") as [calls|]; simpl;
    destruct (get_str value "refusal"), (get_str value "reasoning_content"); simpl;
    try (destruct (apply_tool_calls _ 0 calls) as [states [[]|]]; [|done]);
    destruct function; intros [= <-]; simpl; by rewrite ?append_nil.
Qed.

(** What an entry does to the calls of its choice. *)
Lemma apply_choice_calls state fields state' :
  apply_choice state fields = (state', Ok tt) ->
  match delta_of fields with
  | Some delta => exists s1, apply_delta state delta = (s1, Ok tt) /\
      ch_tool_calls state' = ch_tool_calls s1 /\ ch_function_call state' = ch_function_call s1
  | None => ch_tool_calls state' = ch_tool_calls state /\ ch_function_call state' = ch_function_call state
  end.
Proof.
  unfold apply_choice, delta_of. intros H. destruct (v ← or_else _ _; as_object v) as [delta|].
  - destruct (apply_delta state delta) as [s [[]|]] eqn:Hd; [|done]. exists s. split; [done|].
    repeat case_match; by simplify_eq.
  - repeat case_match; by simplify_eq.
Qed.

(** *** What an event names is kept *)

Section Named.
  Context (P : ChatChoiceState -> Prop) (f : json_map -> bool).
  Hypothesis P_kept : forall state fields state', apply_choice state fields = (state', Ok tt) -> P state -> P state'.
  Hypothesis P_named : forall state fields state', apply_choice state fields = (state', Ok tt) -> f fields = true -> P state'.

Definition has_choice (states : gmap Z ChatChoiceState) (index : Z) : Prop := exists state, states !! index = Some state /\ P state.

Lemma apply_choices_named index choices : forall states fallback states',
  apply_choices states fallback choices = (states', Ok tt) ->
  has_choice states index \/ some_entry f index fallback choices = true -> has_choice states' index.
Proof.
  induction choices as [|choice choices IH]; intros states fallback states'; cbn [apply_choices some_entry].
  { intros [= <-]. by intros [?|?]. }
  destruct (as_object choice) as [fields|]; [|done].
  destruct (apply_choice _ fields) as [state [[]|]] eqn:Hc; [|done]. intros Hrest Hor. eapply IH; [done|].
  destruct (Z.eqb_spec (entry_index fields fallback) index) as [<-|Hne]; simpl in Hor.
  - destruct Hor as [(s & Hs & HP)|[Hf|?]%orb_true_iff]; [| |by right]; left; exists state; rewrite lookup_insert_eq; (split; [done|]).
    + rewrite Hs in Hc. by eapply P_kept.
    + by eapply P_named.
  - destruct Hor as [(s & Hs & HP)|?]; [left; exists s; by rewrite lookup_insert_ne|by right].
Qed.

Lemma chat_apply_events_named index events : forall self self',
  chat_apply_events self events = (self', Ok tt) ->
  has_choice (ca_choices self) index \/ events_name f index events = true -> has_choice (ca_choices self') index.
Proof.
  induction events as [|event events IH]; intros self self'; simpl; [intros [= <-]; by intros [?|?]|].
  destruct (chat_apply_event self event) as [s [[]|]] eqn:He; [|done]. intros Hrest Hor. eapply IH; [done|].
  unfold chat_apply_event in He. destruct (get_array event "choices") as [choices|]; simpl in *.
  - destruct (apply_choices _ 0 choices) as [states [[]|]] eqn:Hc; [|done]. injection He as <-. simpl.
    destruct Hor as [Hh|[Hh|?]%orb_true_iff]; [left; eapply apply_choices_named; eauto..|by right].
  - injection He as <-. by destruct Hor; [left|right].
Qed.

End Named.

Lemma apply_tool_calls_named index tool_calls : forall calls fallback calls',
  apply_tool_calls calls fallback tool_calls = (calls', Ok tt) ->
  is_Some (calls !! index) \/ some_entry (fun _ => true) index fallback tool_calls = true -> is_Some (calls' !! index).
Proof.
  induction tool_calls as [|call tool_calls IH]; intros calls fallback calls'; cbn [apply_tool_calls some_entry].
  { intros [= <-]. by intros [?|?]. }
  destruct (as_object call) as [fields|]; [|done]. intros Hrest Hor. eapply IH; [done|].
  destruct (Z.eqb_spec (entry_index fields fallback) index) as [<-|Hne]; simpl in Hor.
  - left. rewrite lookup_insert_eq. by eexists.
  - rewrite lookup_insert_ne by done. done.
Qed.

Lemma function_arguments state delta :
  fn_arguments (function_apply state delta) = fn_arguments state +:+ default "" (get_str (JObject delta) "arguments").
Proof.
  unfold function_apply. destruct (get_str _ "name"), (get_str _ "arguments"); simpl; by rewrite ?append_nil.
Qed.

Lemma tool_call_function state fields :
  tc_function (tool_call_apply state fields) =
    match (v ← get (JObject fields) "function"; as_object v) with
    | Some function => function_apply (tc_function state) function
    | None => tc_function state
    end.
Proof.
  unfold tool_call_apply. destruct (v ← get _ "function"; as_object v), (get_str _ "id"), (get_str _ "type"); done.
Qed.

Lemma apply_tool_calls_part index tool_calls : forall calls fallback calls',
  apply_tool_calls calls fallback tool_calls = (calls', Ok tt) ->
  fn_arguments (tc_function (default ChatToolCallState_default (calls' !! index))) =
    fn_arguments (tc_function (default ChatToolCallState_default (calls !! index)))
    +:+ tool_arguments index fallback tool_calls.
Proof.
  induction tool_calls as [|call tool_calls IH]; intros calls fallback calls'; cbn [apply_tool_calls tool_arguments].
  { intros [= <-]. by rewrite append_nil. }
  destruct (as_object call) as [fields|]; [|done]. intros ->%IH. rewrite append_assoc. f_equal.
  destruct (Z.eqb_spec (entry_index fields fallback) index) as [<-|Hne].
  - rewrite lookup_insert_eq. cbn [from_option id]. rewrite tool_call_function.
    destruct (get (JObject fields) "function") as [f|]; [|by rewrite append_nil]. cbn [mbind option_bind].
    destruct (as_object f) as [fn|]; [apply function_arguments|by rewrite append_nil].
  - rewrite lookup_insert_ne by done. by rewrite append_nil.
Qed.

(** The texts of a built choice. *)
Definition optional_text (s : string) : option Value := if str_is_empty s then None else Some (JString s).

Lemma choice_message_texts state :
  map_get (choice_message state) "content" = Some (text_or_null (ch_content state)) /\
  map_get (choice_message state) "refusal" = optional_text (ch_refusal state) /\
  map_get (choice_message state) "reasoning_content" = optional_text (ch_reasoning_content state) /\
  map_get (choice_message state) "tool_calls" =
    (if bool_decide (ch_tool_calls state = ∅) then None
     else Some (JArray ((fun '(index, call) => tool_call_build index call) <$> ordered_entries (ch_tool_calls state)))) /\
  map_get (choice_message state) "function_call" = function_build <$> ch_function_call state.
Proof.
  unfold choice_message, optional_text. split_and!;
    destruct (ch_function_call state), (bool_decide _), (str_is_empty (ch_reasoning_content state)),
      (str_is_empty (ch_refusal state)); by rewrite ?map_get_insert.
Qed.

Lemma ordered_entries_elem {V} (m : gmap Z V) i v : (i, v) ∈ ordered_entries m <-> m !! i = Some v.
Proof. unfold ordered_entries. rewrite sort_by_perm. apply elem_of_map_to_list. Qed.

Lemma built_choices response chat :
  chat_build_response chat = Ok response ->
  get_array response "choices" = Some ((fun '(index, choice) => choice_build index choice) <$> ordered_entries (ca_choices chat)).
Proof.
  unfold chat_build_response. destruct (bool_decide _); [done|]. intros [= <-].
  unfold get_array, insert_optional. simpl. by destruct (ca_usage chat), (ca_system_fingerprint chat), (ca_service_tier chat);
    rewrite ?map_get_insert.
Qed.

(** The tool calls and the function call that the events name are in the state. *)
Lemma named_tool events chat index tool :
  chat_apply_events ChatAggregateState_default events = (chat, Ok tt) -> names_tool tool index events = true ->
  exists state, ca_choices chat !! index = Some state /\ is_Some (ch_tool_calls state !! tool).
Proof.
  intros Hev Hn.
  apply (chat_apply_events_named (fun s => is_Some (ch_tool_calls s !! tool))
    (fun fields => is_some_and (fun delta => some_entry (fun _ => true) tool 0 (tool_calls_of delta)) (delta_of fields)))
    with (index := index) in Hev; [done|..|by right].
  - intros s fields s' Hc HP. apply apply_choice_calls in Hc. destruct (delta_of fields) as [delta|].
    + destruct Hc as (s1 & (_ & _ & _ & Hd & _)%apply_delta_inv & -> & _). eapply apply_tool_calls_named; eauto.
    + by destruct Hc as [-> _].
  - intros s fields s' Hc HP. apply apply_choice_calls in Hc. destruct (delta_of fields) as [delta|]; [|done].
    destruct Hc as (s1 & (_ & _ & _ & Hd & _)%apply_delta_inv & -> & _). eapply apply_tool_calls_named; eauto.
Qed.

Lemma named_function events chat index :
  chat_apply_events ChatAggregateState_default events = (chat, Ok tt) -> names_function index events = true ->
  exists state, ca_choices chat !! index = Some state /\ is_Some (ch_function_call state).
Proof.
  intros Hev Hn.
  apply (chat_apply_events_named (fun s => is_Some (ch_function_call s))
    (fun fields => is_some_and (fun delta => is_some (function_call_of delta)) (delta_of fields)))
    with (index := index) in Hev; [done|..|by right].
  - intros s fields s' Hc HP. apply apply_choice_calls in Hc. destruct (delta_of fields) as [delta|].
    + destruct Hc as (s1 & (_ & _ & _ & _ & Hd)%apply_delta_inv & _ & ->). rewrite Hd. by case_match.
    + by destruct Hc as [_ ->].
  - intros s fields s' Hc HP. apply apply_choice_calls in Hc. destruct (delta_of fields) as [delta|]; [|done]. simpl in HP.
    destruct Hc as (s1 & (_ & _ & _ & _ & Hd)%apply_delta_inv & _ & ->). rewrite Hd. by destruct (function_call_of delta).
Qed.

(** C17. No choice, no call and no text is lost, and none is out of order. Of a chat stream
    whose events are applied without an error, and which names a choice, a response is
    built, and it has for every index that some event names exactly one choice with that
    index. Its content, refusal and reasoning are what the events said for it, one after
    the other; it has every tool call that some event names for it, with the arguments
    that the events gave that call, one after the other; and if some event has a function
    call of the older format for it, it has that call, with its arguments likewise. *)
Theorem aggregated_texts_complete events chat index :
  chat_apply_events ChatAggregateState_default events = (chat, Ok tt) -> names_choice index events = true ->
  exists response choices choice message, chat_build_response chat = Ok response /\
    get_array response "choices" = Some choices /\
    (forall other, other ∈ choices /\ get other "index" = Some (JNumber (Integer index)) <-> other = choice) /\
    get choice "message" = Some message /\
    get message "content" = Some (text_or_null (events_text content_delta index events)) /\
    get message "refusal" = optional_text (events_text (text_delta "refusal") index events) /\
    get message "reasoning_content" =
      optional_text (events_text (text_delta "reasoning_content") index events) /\
    (forall tool, names_tool tool index events = true ->
      exists calls call function, get_array message "tool_calls" = Some calls /\ call ∈ calls /\
        get call "index" = Some (JNumber (Integer tool)) /\ get call "function" = Some function /\
        get function "arguments" = Some (JString (events_text (arguments_delta tool) index events))) /\
    (names_function index events = true ->
      exists function, get message "function_call" = Some function /\
        get function "arguments" = Some (JString (events_text function_delta index events))).
Proof.
  intros Hev Hn.
  destruct (chat_apply_events_named (fun _ => True) (fun _ => true) ltac:(done) ltac:(done) index events _ _ Hev (or_intror Hn))
    as (state & Hi & _).
  assert (forall part delta_text, (forall s d s', apply_delta s d = (s', Ok tt) -> part s' = part s +:+ delta_text d) ->
    part ChatChoiceState_default = "" ->
    (forall s reason, part {| s with ch_finish_reason := reason |} = part s) ->
    (forall s logprobs, part {| s with ch_logprobs := logprobs |} = part s) ->
    part state = events_text delta_text index events) as Hpart.
  { intros part dt H1 H2 H3 H4. rewrite <- (aggregated_part part dt H1 H2 H3 H4 index events chat Hev).
    unfold part_of. by rewrite Hi. }
  assert (exists response, chat_build_response chat = Ok response) as [response Hbuild].
  { unfold chat_build_response. rewrite bool_decide_eq_false_2 by (intros He; by rewrite He, lookup_empty in Hi). by eexists. }
  eexists response, _, (choice_build index state), (JObject (choice_message state)).
  destruct (choice_message_texts state) as (Hc & Hr & Hrc & Htc & Hfc).
  split_and!; [done|by apply built_choices|..].
  - intros other. split.
    + intros [([i s] & -> & Hin%ordered_entries_elem)%list_elem_of_fmap Hother].
      assert (get (choice_build i s) "index" = Some (JNumber (Integer i))) as Hown by done.
      rewrite Hown in Hother. injection Hother as ->. congruence.
    + intros ->. split; [|done]. apply list_elem_of_fmap. exists (index, state). split; [done|]. by apply ordered_entries_elem.
  - done.
  - simpl. rewrite Hc. do 2 f_equal. apply (Hpart ch_content); [|done..]. intros. by apply apply_delta_inv.
  - simpl. rewrite Hr. f_equal. apply (Hpart ch_refusal); [|done..]. intros. by apply apply_delta_inv.
  - simpl. rewrite Hrc. f_equal. apply (Hpart ch_reasoning_content); [|done..]. intros. by apply apply_delta_inv.
  - intros tool Hnt. destruct (named_tool _ _ _ _ Hev Hnt) as (s & Hs & call & Ht).
    assert (s = state) as -> by congruence. unfold get_array. simpl. rewrite Htc.
    rewrite bool_decide_eq_false_2 by (intros He; by rewrite He, lookup_empty in Ht).
    eexists _, (tool_call_build tool call), (function_build (tc_function call)). split_and!; [done| |done..|].
    + apply list_elem_of_fmap. exists (tool, call). split; [done|]. by apply ordered_entries_elem.
    + pose proof (Hpart (fun s => fn_arguments (tc_function (default ChatToolCallState_default (ch_tool_calls s !! tool))))
        (arguments_delta tool)) as H. simpl in H. rewrite Ht in H. simpl in H. simpl. rewrite <- H; [done|clear H|done..].
      intros s d s' (_ & _ & _ & Hd & _)%apply_delta_inv. by apply (apply_tool_calls_part tool _ _ 0).
  - intros Hnf. destruct (named_function _ _ _ Hev Hnf) as (s & Hs & call & Hcall).
    assert (s = state) as -> by congruence. exists (function_build call). split; [simpl; by rewrite Hfc, Hcall|].
    pose proof (Hpart (fun s => from_option fn_arguments "" (ch_function_call s)) function_delta) as H.
    simpl in H. rewrite Hcall in H. simpl in H. simpl. rewrite <- H; [done|clear H|done..].
    intros s d s' (_ & _ & _ & _ & ->)%apply_delta_inv. unfold function_delta.
    destruct (function_call_of d) as [fc|]; simpl; [|by rewrite append_nil].
    rewrite function_arguments. by destruct (ch_function_call s).
Qed.

(** ** Samples for the witnesses *)

Definition delta_event (fields : json_map) (delta : json_map) (finish : Value) : Value :=
  json_object (fields ++ [("choices", JArray [json_object
    [("index", JNumber (Integer 0)); ("delta", json_object delta); ("finish_reason", finish)]])]).

Definition call_delta (fields : json_map) (arguments : string) : string * Value :=
  ("tool_calls", JArray [json_object (fields ++
    [("index", JNumber (Integer 0)); ("function", json_object [("arguments", JString arguments)])])]).

Definition first_event : Value :=
  delta_event [("id", JString "c1")]
    [("role", JString "assistant"); ("content", JString "Hel"); call_delta [("id", JString "t")] "{"] JNull.

Definition second_event : Value :=
  delta_event [] [("content", JString "lo"); call_delta [] "}"] (JString "stop").

(** The two events stand for their texts. *)
Definition sample_parse (text : string) : option Value :=
  if String.eqb text "{1}" then Some first_event
  else if String.eqb text "{2}" then Some second_event else None.

Definition sample_print (value : Value) : string :=
  match get value "id" with Some _ => "{1}" | None => "{2}" end.

Definition sample_chat : ChatAggregateState :=
  (chat_apply_events ChatAggregateState_default [first_event; second_event]).1.

Lemma sample_chat_applied :
  chat_apply_events ChatAggregateState_default [first_event; second_event] = (sample_chat, Ok tt).
Proof. vm_compute. reflexivity. Qed.

Definition sample_response : Value :=
  match chat_build_response sample_chat with Ok response => response | Err _ => JNull end.

Lemma sample_response_built : chat_build_response sample_chat = Ok sample_response.
Proof. vm_compute. reflexivity. Qed.

Lemma aggregated_texts_complete_witness :
  exists choices message calls call function, get_array sample_response "choices" = Some choices /\
    get message "content" = Some (JString "Hello") /\
    get_array message "tool_calls" = Some calls /\ call ∈ calls /\
    get call "function" = Some function /\ get function "arguments" = Some (JString "{}").
Proof.
  destruct (aggregated_texts_complete _ _ 0 sample_chat_applied eq_refl)
    as (response & choices & choice & message & Hb & Hc & _ & _ & Hm & _ & _ & Htools & _).
  destruct (Htools 0 eq_refl) as (calls & call & function & Hcalls & Hin & _ & Hf & Ha).
  exists choices, message, calls, call, function.
  split; [|split; [rewrite Hm; vm_compute; reflexivity|]].
  - unfold sample_response. rewrite Hb. exact Hc.
  - split; [exact Hcalls|]. split; [exact Hin|]. split; [exact Hf|]. rewrite Ha. vm_compute. reflexivity.
Defined.

(** The two events and [DONE], as text. *)
Definition sample_stream : byte_string :=
  bytes "data: {1}" ++ [LF; LF] ++ bytes "data: {2}" ++ [LF; LF] ++ bytes "data: [DONE]" ++ [LF; LF].

Lemma aggregation_ignores_chunks_witness :
  exists r, aggregate_upstream_sse_response sample_parse UpChatCompletions (byte_by_byte sample_stream) = Some r /\
    r = Ok sample_response.
Proof.
  destruct (aggregation_ignores_chunks sample_parse UpChatCompletions (byte_by_byte sample_stream))
    as (r & Hr & _ & _ & Hsame); rewrite (concat_byte_by_byte sample_stream) in *; [vm_compute; discriminate|].
  exists r. split; [exact Hr|]. rewrite Hsame; vm_compute; reflexivity.
Defined.
