(* ===== verification/ChatCanonicalizer.v ===== *)
(** * Canonical chat streams

    [ChatStreamCanonicalizer] of [src/src/protocol.rs]: what every provider's
    chat-completions events pass before an adapter reads them. The identity of the
    first event is kept for the whole stream, choices get stable indices and at most
    one terminal reason, usage moves to a last event without choices.

    A method that can fail half-way returns the state it leaves; the event it was
    changing is dropped with the error. *)

From S2P Require Import Prelude ModelIdentity Protocol Json StreamAggregate.

Local Open Scope Z_scope.

(** ** State *)

Record ChatStreamCanonicalizer := {
  cc_id : string;
  cc_model : string;
  cc_created : Z;
  cc_identity_locked : bool;
  cc_choice_indices : list (option Z);
  cc_terminal_indices : gset Z;
  cc_saw_output_indices : gset Z;
  cc_saw_tool_call_indices : gset Z;
  cc_usage : option Value
}.

Definition ChatStreamCanonicalizer_new (id model : string) (created : Z) : ChatStreamCanonicalizer :=
  {| cc_id := id; cc_model := model; cc_created := created; cc_identity_locked := false;
     cc_choice_indices := []; cc_terminal_indices := ∅; cc_saw_output_indices := ∅;
     cc_saw_tool_call_indices := ∅; cc_usage := None |}.

Definition invalid_chat_stream : ProtocolError :=
  invalid_stream UpstreamEvent "Chat stream event has an invalid envelope or terminal".

(** A [BTreeSet] yields its elements in order. *)
Definition ordered_set (s : gset Z) : list Z := sort_by Z.leb (elements s).

(** ** Identity *)

Definition optional_string (object : json_map) (field : string) : result (option string) ProtocolError :=
  match map_get object field with
  | None | Some JNull => Ok None
  | Some (JString value) => Ok (Some value)
  | Some _ => Err invalid_chat_stream
  end.

Definition optional_u64 (object : json_map) (field : string) : result (option Z) ProtocolError :=
  match map_get object field with
  | None | Some JNull => Ok None
  | Some (JNumber value) =>
      let? value := ok_or (as_u64 (JNumber value)) invalid_chat_stream in Ok (Some value)
  | Some _ => Err invalid_chat_stream
  end.

Definition stabilize_identity (self : ChatStreamCanonicalizer) (object : json_map)
    : result ChatStreamCanonicalizer ProtocolError :=
  let? incoming_id := optional_string object "id" in
  let? incoming_model := optional_string object "model" in
  let? incoming_created := optional_u64 object "created" in
  if cc_identity_locked self then Ok self
  else Ok {| self with
             cc_id := default (cc_id self) incoming_id;
             cc_model := default (cc_model self) incoming_model;
             cc_created := default (cc_created self) incoming_created;
             cc_identity_locked := true |}.

(** ** Choices *)

Definition normalize_finish_reason (self : ChatStreamCanonicalizer) (choice_index : Z) (reason : string)
    : result string ProtocolError :=
  let saw_tool_call := bool_decide (choice_index ∈ cc_saw_tool_call_indices self) in
  if String.eqb reason "stop" && saw_tool_call then Ok "tool_calls"
  else if existsb (String.eqb reason) ["stop"; "length"; "content_filter"] then Ok reason
  else if String.eqb reason "function_call" && saw_tool_call then Ok "tool_calls"
  else if String.eqb reason "tool_calls" && saw_tool_call then Ok "tool_calls"
  else if String.eqb reason "end_turn" && negb saw_tool_call then Ok "stop"
  else if existsb (String.eqb reason) ["max_tokens"; "max_output_tokens"] then Ok "length"
  else if String.eqb reason "tool_use" && saw_tool_call then Ok "tool_calls"
  else Err invalid_chat_stream.

(** The index a position is given at its first choice holds for all later ones. *)
Definition canonical_index (self : ChatStreamCanonicalizer) (position : nat) (incoming_index : option Z)
    : ChatStreamCanonicalizer * result Z ProtocolError :=
  match mjoin (cc_choice_indices self !! position) with
  | Some index =>
      if is_some_and (fun incoming => negb (incoming =? index)) incoming_index
      then (self, Err invalid_chat_stream)
      else (self, Ok index)
  | None =>
      let index := default (Z.of_nat position) incoming_index in
      let indices :=
        if Nat.leb (length (cc_choice_indices self)) position
        then resize (S position) None (cc_choice_indices self)
        else cc_choice_indices self in
      ({| self with cc_choice_indices := <[position := Some index]> indices |}, Ok index)
  end.

Definition remove_null (field : string) (delta : json_map) : json_map :=
  if is_some_and is_null (map_get delta field) then map_remove field delta else delta.

Definition canonical_delta (choice : json_map) : result json_map ProtocolError :=
  match default (JObject []) (map_get choice "delta") with
  | JNull => Ok []
  | JObject delta =>
      Ok (remove_null "function_calls" (remove_null "function_call" (remove_null "tool_calls" delta)))
  | _ => Err invalid_chat_stream
  end.

(** [and_then(Value::as_str).is_some_and(|value| !value.is_empty())]. *)
Definition has_text (delta : json_map) (field : string) : bool :=
  is_some_and (fun value => negb (str_is_empty value)) (get_str (JObject delta) field).

Definition has_output (delta : json_map) : bool :=
  has_text delta "content" || has_text delta "reasoning_content".

Definition has_tool_call (delta : json_map) : bool :=
  is_some_and (fun calls => negb (is_empty calls)) (get_array (JObject delta) "tool_calls")
  || is_some_and (fun call => negb (is_null call)) (map_get delta "function_call").

Definition note_delta (self : ChatStreamCanonicalizer) (index : Z) (delta : json_map) : ChatStreamCanonicalizer :=
  let self :=
    if has_output delta
    then {| self with cc_saw_output_indices := {[index]} ∪ cc_saw_output_indices self |} else self in
  if has_tool_call delta
  then {| self with cc_saw_tool_call_indices := {[index]} ∪ cc_saw_tool_call_indices self |} else self.

Definition canonical_reason (self : ChatStreamCanonicalizer) (index : Z) (choice : json_map)
    : ChatStreamCanonicalizer * result json_map ProtocolError :=
  let finish_reason := default JNull (map_get choice "finish_reason") in
  let choice := or_insert "finish_reason" JNull choice in
  if is_some_and str_is_empty (as_str finish_reason)
  then (self, Ok (map_insert "finish_reason" JNull choice))
  else if is_null finish_reason then (self, Ok choice)
  else
    match (let? reason := ok_or (as_str finish_reason) invalid_chat_stream in
           normalize_finish_reason self index reason) with
    | Err error => (self, Err error)
    | Ok normalized =>
        if bool_decide (index ∈ cc_terminal_indices self) then (self, Err invalid_chat_stream)
        else ({| self with cc_terminal_indices := {[index]} ∪ cc_terminal_indices self |},
              Ok (map_insert "finish_reason" (JString normalized) choice))
    end.

(** One round of the loop over the choices. *)
Definition push_choice (self : ChatStreamCanonicalizer) (position : nat) (choice : Value)
    : ChatStreamCanonicalizer * result Value ProtocolError :=
  match as_object choice with
  | None => (self, Err (invalid_stream UpstreamEvent "Chat stream choice must be an object"))
  | Some choice =>
      match canonical_index self position (v ← map_get choice "index"; as_u64 v) with
      | (self, Err error) => (self, Err error)
      | (self, Ok index) =>
          let choice := map_insert "index" (JNumber (Integer index)) choice in
          match canonical_delta choice with
          | Err error => (self, Err error)
          | Ok delta =>
              let self := note_delta self index delta in
              match canonical_reason self index (map_insert "delta" (JObject delta) choice) with
              | (self, Err error) => (self, Err error)
              | (self, Ok choice) => (self, Ok (JObject choice))
              end
          end
      end
  end.

Fixpoint push_choices (self : ChatStreamCanonicalizer) (position : nat) (choices : list Value)
    : ChatStreamCanonicalizer * result (list Value) ProtocolError :=
  match choices with
  | [] => (self, Ok [])
  | choice :: choices =>
      match push_choice self position choice with
      | (self, Err error) => (self, Err error)
      | (self, Ok choice) =>
          match push_choices self (S position) choices with
          | (self, Err error) => (self, Err error)
          | (self, Ok choices) => (self, Ok (choice :: choices))
          end
      end
  end.

(** ** Events *)

Definition note_usage (self : ChatStreamCanonicalizer) (object : json_map) : ChatStreamCanonicalizer :=
  match get_non_null (JObject object) "usage" with
  | Some usage => {| self with cc_usage := Some usage |}
  | None => self
  end.

Definition canonical_event (self : ChatStreamCanonicalizer) (choices : list Value) (object : json_map) : json_map :=
  let object := map_insert "choices" (JArray choices) object in
  let object := map_insert "id" (JString (cc_id self)) object in
  let object := map_insert "object" (JString "chat.completion.chunk") object in
  let object := map_insert "created" (JNumber (Integer (cc_created self))) object in
  let object := map_insert "model" (JString (cc_model self)) object in
  map_remove "usage" object.

Definition canonicalizer_push (self : ChatStreamCanonicalizer) (event : Value)
    : ChatStreamCanonicalizer * result (list Value) ProtocolError :=
  match as_object event with
  | None => (self, Err (invalid_stream UpstreamEvent "Chat stream event must be an object"))
  | Some object =>
      match stabilize_identity self object with
      | Err error => (self, Err error)
      | Ok self =>
          let self := note_usage self object in
          match as_array (default (JArray []) (map_get object "choices")) with
          | None => (self, Err (invalid_stream UpstreamEvent "Chat stream choices must be an array"))
          | Some [] => (self, Ok [])
          | Some choices =>
              match push_choices self 0 choices with
              | (self, Err error) => (self, Err error)
              | (self, Ok choices) => (self, Ok [JObject (canonical_event self choices object)])
              end
          end
      end
  end.

Definition envelope (self : ChatStreamCanonicalizer) (choices : list Value) : json_map :=
  json_fields
    [("id", JString (cc_id self)); ("object", JString "chat.completion.chunk");
     ("created", JNumber (Integer (cc_created self))); ("model", JString (cc_model self));
     ("choices", JArray choices)].

Definition missing_choice (self : ChatStreamCanonicalizer) (index : Z) : result Value ProtocolError :=
  let? reason :=
    if bool_decide (index ∈ cc_saw_tool_call_indices self) then Ok "tool_calls"
    else if bool_decide (index ∈ cc_saw_output_indices self) then Ok "stop"
    else Err invalid_chat_stream in
  Ok (json_object [("index", JNumber (Integer index)); ("delta", JObject []); ("finish_reason", JString reason)]).

(** [collect::<Result<Vec<_>, _>>]. *)
Fixpoint collect {A B E} (f : A -> result B E) (l : list A) : result (list B) E :=
  match l with
  | [] => Ok []
  | x :: l => let? y := f x in let? ys := collect f l in Ok (y :: ys)
  end.

(** The loop that marks the synthesized terminals. *)
Fixpoint mark_terminals (self : ChatStreamCanonicalizer) (choices : list Value)
    : ChatStreamCanonicalizer * result unit ProtocolError :=
  match choices with
  | [] => (self, Ok tt)
  | choice :: choices =>
      match (v ← get choice "index"; as_u64 v) with
      | None => (self, Err invalid_chat_stream)
      | Some index =>
          mark_terminals {| self with cc_terminal_indices := {[index]} ∪ cc_terminal_indices self |} choices
      end
  end.

Definition open_indices (self : ChatStreamCanonicalizer) : gset Z :=
  match cc_choice_indices self with
  | [] => {[0]}
  | indices => list_to_set (omap id indices)
  end.

Definition synthesize_terminals (self : ChatStreamCanonicalizer) (missing : list Z)
    : ChatStreamCanonicalizer * result (list Value) ProtocolError :=
  match missing with
  | [] => (self, Ok [])
  | _ =>
      match collect (missing_choice self) missing with
      | Err error => (self, Err error)
      | Ok choices =>
          match mark_terminals self choices with
          | (self, Err error) => (self, Err error)
          | (self, Ok _) => (self, Ok [JObject (envelope self choices)])
          end
      end
  end.

(** [usage.take()], in an event of its own. *)
Definition flush_usage (self : ChatStreamCanonicalizer) : ChatStreamCanonicalizer * list Value :=
  match cc_usage self with
  | Some usage => ({| self with cc_usage := None |}, [JObject (map_insert "usage" usage (envelope self []))])
  | None => (self, [])
  end.

Definition finish_inner (self : ChatStreamCanonicalizer) (allow_missing_terminal : bool)
    : ChatStreamCanonicalizer * result (list Value) ProtocolError :=
  let indices := open_indices self in
  let missing := ordered_set (indices ∖ cc_terminal_indices self) in
  if negb allow_missing_terminal && (bool_decide (indices = ∅) || negb (is_empty missing))
  then (self, Err invalid_chat_stream)
  else
    match (if allow_missing_terminal then synthesize_terminals self missing else (self, Ok [])) with
    | (self, Err error) => (self, Err error)
    | (self, Ok output) =>
        let '(self, usage) := flush_usage self in
        (self, Ok (output ++ usage))
    end.

(** [finish] and [finish_after_done]. *)
Definition canonicalizer_finish (self : ChatStreamCanonicalizer)
    : ChatStreamCanonicalizer * result (list Value) ProtocolError := finish_inner self true.

(** ** Whole streams *)

(** Events up to the first error. *)
Fixpoint push_all (self : ChatStreamCanonicalizer) (events : list Value)
    : ChatStreamCanonicalizer * result (list Value) ProtocolError :=
  match events with
  | [] => (self, Ok [])
  | event :: events =>
      match canonicalizer_push self event with
      | (self, Err error) => (self, Err error)
      | (self, Ok output) =>
          match push_all self events with
          | (self, Err error) => (self, Err error)
          | (self, Ok outputs) => (self, Ok (output ++ outputs))
          end
      end
  end.

Definition canonicalize (self : ChatStreamCanonicalizer) (events : list Value) : result (list Value) ProtocolError :=
  match push_all self events with
  | (self, Ok outputs) => let? last := (canonicalizer_finish self).2 in Ok (outputs ++ last)
  | (_, Err error) => Err error
  end.

(** ** What a canonical stream is *)

Definition choice_index (choice : Value) : option Z :=
  match get choice "index" with Some (JNumber (Integer index)) => Some index | _ => None end.

Definition choice_delta (choice : Value) : json_map := default [] (v ← get choice "delta"; as_object v).

Definition choice_reason (choice : Value) : option string := get_str choice "finish_reason".

Definition choices_of (events : list Value) : list Value :=
  events ≫= fun event => default [] (get_array event "choices").

(** The indices of the choices that satisfy a test, one for each of them. *)
Definition marked (test : Value -> bool) (choices : list Value) : list Z :=
  choices ≫= fun choice => if test choice then option_list (choice_index choice) else [].

Definition is_terminal (choice : Value) : bool := is_some (choice_reason choice).
Definition calls_tool (choice : Value) : bool := has_tool_call (choice_delta choice).
Definition any_choice (choice : Value) : bool := true.

(** A choice that comes after [before] has a reason that they justify, or none. *)
Definition reason_justified (before : list Value) (choice : Value) : Prop :=
  get choice "finish_reason" = Some JNull \/
  exists reason index,
    get choice "finish_reason" = Some (JString reason) /\ choice_index choice = Some index /\
    reason ∈ ["stop"; "length"; "content_filter"; "tool_calls"] /\
    (reason = "tool_calls" -> index ∈ marked calls_tool (before ++ [choice])) /\
    (reason = "stop" -> index ∉ marked calls_tool (before ++ [choice])).

Definition has_identity (id model : string) (created : Z) (event : Value) : Prop :=
  get event "id" = Some (JString id) /\ get event "model" = Some (JString model) /\
  get event "created" = Some (JNumber (Integer created)) /\
  get event "object" = Some (JString "chat.completion.chunk").

(** ** Lemmas on choices *)

Lemma marked_app test l1 l2 : marked test (l1 ++ l2) = marked test l1 ++ marked test l2.
Proof. unfold marked. apply bind_app. Qed.

Lemma choices_of_app l1 l2 : choices_of (l1 ++ l2) = choices_of l1 ++ choices_of l2.
Proof. unfold choices_of. apply bind_app. Qed.

Lemma marked_one test choice index :
  choice_index choice = Some index -> marked test [choice] = if test choice then [index] else [].
Proof. intros Hi. unfold marked. csimpl. rewrite Hi. by destruct (test choice). Qed.

Lemma note_delta_fields self index delta :
  cc_choice_indices (note_delta self index delta) = cc_choice_indices self /\
  cc_terminal_indices (note_delta self index delta) = cc_terminal_indices self /\
  cc_saw_tool_call_indices (note_delta self index delta) =
    (if has_tool_call delta then {[index]} ∪ cc_saw_tool_call_indices self else cc_saw_tool_call_indices self).
Proof. unfold note_delta. by destruct (has_output delta), (has_tool_call delta). Qed.

Lemma normalized_reason self index raw reason :
  normalize_finish_reason self index raw = Ok reason ->
  reason ∈ ["stop"; "length"; "content_filter"; "tool_calls"] /\
  (reason = "tool_calls" -> index ∈ cc_saw_tool_call_indices self) /\
  (reason = "stop" -> index ∉ cc_saw_tool_call_indices self).
Proof.
  unfold normalize_finish_reason. intros H. case_bool_decide as Ht; simpl in H.
  all: repeat match type of H with
       | context [String.eqb ?r ?s] => destruct (String.eqb_spec r s) as [->|_]; simpl in H
       end.
  all: simplify_eq; try (split_and!; [set_solver|by intros|by intros]).
Qed.

(** What a round of the loop over the choices leaves. *)
Definition settles (self : ChatStreamCanonicalizer) (index : Z) (choice : Value) (self' : ChatStreamCanonicalizer)
    : Prop :=
  (get choice "finish_reason" = Some JNull /\ self' = self) \/
  exists raw reason,
    get choice "finish_reason" = Some (JString reason) /\ normalize_finish_reason self index raw = Ok reason /\
    index ∉ cc_terminal_indices self /\
    self' = {| self with cc_terminal_indices := {[index]} ∪ cc_terminal_indices self |}.

Lemma canonical_reason_spec self index choice self' fields :
  canonical_reason self index choice = (self', Ok fields) ->
  settles self index (JObject fields) self' /\
  forall key, key <> "finish_reason" -> map_get fields key = map_get choice key.
Proof.
  assert (Hor : forall key, key <> "finish_reason" -> map_get (or_insert "finish_reason" JNull choice) key = map_get choice key).
  { intros key Hk. rewrite map_get_or_insert. by destruct (String.eqb_spec "finish_reason" key). }
  unfold canonical_reason, settles. simpl. case_match eqn:He; intros; simplify_eq/=.
  { rewrite map_get_insert. simpl. split; [by left|]. intros key Hk. rewrite map_get_insert, Hor by done.
    by destruct (String.eqb_spec "finish_reason" key). }
  destruct (is_null _) eqn:Hn; simplify_eq/=.
  { split; [left; split; [|done]|by apply Hor]. rewrite map_get_or_insert. simpl.
    destruct (map_get choice "finish_reason") as [[]|]; by simplify_eq/=. }
  destruct (as_str _) as [raw|]; simplify_eq/=. destruct (normalize_finish_reason self index raw) eqn:Hr; simplify_eq/=.
  case_bool_decide; simplify_eq/=. rewrite map_get_insert. simpl. split; [right; by eauto 10|].
  intros key Hk. rewrite map_get_insert, Hor by done. by destruct (String.eqb_spec "finish_reason" key).
Qed.

Lemma push_choice_spec self position choice self' choice' :
  push_choice self position choice = (self', Ok choice') ->
  exists incoming self1 index,
    canonical_index self position incoming = (self1, Ok index) /\
    choice_index choice' = Some index /\
    settles (note_delta self1 index (choice_delta choice')) index choice' self'.
Proof.
  unfold push_choice. destruct (as_object choice) as [fields|]; intros; simplify_eq/=.
  destruct (canonical_index self position _) as [self1 [index|]] eqn:Hi; simplify_eq/=.
  destruct (canonical_delta _) as [delta|]; simplify_eq/=.
  destruct (canonical_reason _ _ _) as [self2 [fields'|]] eqn:Hr; simplify_eq/=.
  apply canonical_reason_spec in Hr as [Hs Hk]. eexists _, _, index. split; [exact Hi|].
  unfold choice_index, choice_delta. simpl. rewrite !Hk, !map_get_insert by done. done.
Qed.

(** ** The indices of positions *)

Definition assigned (self : ChatStreamCanonicalizer) (position : nat) : option Z :=
  mjoin (cc_choice_indices self !! position).

Lemma canonical_index_spec self position incoming self1 index :
  canonical_index self position incoming = (self1, Ok index) ->
  (exists indices, self1 = {| self with cc_choice_indices := indices |}) /\
  index = default (default (Z.of_nat position) incoming) (assigned self position) /\
  (forall i, assigned self position = Some i -> incoming = None \/ incoming = Some i) /\
  (forall q, assigned self1 q = if decide (q = position) then Some index else assigned self q).
Proof.
  unfold canonical_index. fold (assigned self position). destruct (assigned self position) as [i|] eqn:Ha.
  - case_match eqn:Hi; intros; simplify_eq/=. split_and!; [by exists (cc_choice_indices self1); destruct self1|done|..].
    + intros ? [= <-]. destruct incoming; [right|by left]. simpl in Hi. f_equal. bool_prop. lia.
    + intros q. case_decide; by subst.
  - intros; simplify_eq/=. split_and!; [by eexists|done..|]. intros q. unfold assigned. simpl.
    case_decide as Hq.
    + subst q. rewrite list_lookup_insert_eq; [done|]. case_match eqn:Hl; [rewrite length_resize; lia|].
      apply Nat.leb_gt in Hl. lia.
    + rewrite list_lookup_insert_ne by done. case_match eqn:Hl; [|done]. apply Nat.leb_le in Hl.
      destruct (decide (q < length (cc_choice_indices self))%nat).
      * by rewrite lookup_resize by lia.
      * rewrite (lookup_ge_None_2 (cc_choice_indices self) q) by lia.
        destruct (decide (q < S position)%nat).
        -- by rewrite lookup_resize_new by lia.
        -- by rewrite lookup_resize_old by lia.
Qed.

Lemma elem_omap_id (l : list (option Z)) i : i ∈ omap id l <-> exists q, mjoin (l !! q) = Some i.
Proof.
  rewrite list_elem_of_omap. split.
  - intros (o & Ho & Hi). simpl in Hi. subst o. apply list_elem_of_lookup in Ho as [q Hq]. exists q. by rewrite Hq.
  - intros [q Hq]. exists (Some i). split; [|done]. apply list_elem_of_lookup. exists q.
    destruct (l !! q) as [[]|]; by simplify_eq/=.
Qed.

(** ** The state and what has been written *)

(** [choices] are the choices written so far. *)
Record tracked (self : ChatStreamCanonicalizer) (choices : list Value) : Prop := {
  tracked_known i : (exists q, assigned self q = Some i) <-> i ∈ marked any_choice choices;
  tracked_terminal i : i ∈ cc_terminal_indices self <-> i ∈ marked is_terminal choices;
  tracked_once : NoDup (marked is_terminal choices);
  tracked_tools i : i ∈ cc_saw_tool_call_indices self <-> i ∈ marked calls_tool choices;
  tracked_justified before choice after :
    choices = before ++ choice :: after -> reason_justified before choice
}.

Lemma tracked_new id model created : tracked (ChatStreamCanonicalizer_new id model created) [].
Proof.
  split; simpl.
  - intros i. split; [|intros Hi; by apply elem_of_nil in Hi]. intros [[|q] Hq]; unfold assigned in Hq; simplify_eq/=.
  - set_solver.
  - constructor.
  - set_solver.
  - by intros [|].
Qed.

Lemma snoc_split {A} (l : list A) x before y after :
  l ++ [x] = before ++ y :: after ->
  (after = [] /\ l = before /\ x = y) \/ exists after', l = before ++ y :: after'.
Proof.
  destruct after as [|z after _] using rev_ind.
  - intros [? ?]%app_inj_2; [|done]. left. by simplify_eq.
  - rewrite app_comm_cons, app_assoc. intros [? ?]%app_inj_2; [|done]. right. by exists after.
Qed.

Lemma elem_snoc_if i (l : list Z) index (test : bool) :
  i ∈ l ++ (if test then [index] else []) <-> i ∈ l \/ (test = true /\ i = index).
Proof. destruct test; set_solver. Qed.

Lemma elem_union_if i (s : gset Z) index (test : bool) :
  i ∈ (if test then {[index]} ∪ s else s) <-> i ∈ s \/ (test = true /\ i = index).
Proof. destruct test; set_solver. Qed.

Lemma settles_fields self index choice self' :
  settles self index choice self' ->
  cc_choice_indices self' = cc_choice_indices self /\
  cc_saw_tool_call_indices self' = cc_saw_tool_call_indices self /\
  cc_terminal_indices self' =
    (if is_terminal choice then {[index]} ∪ cc_terminal_indices self else cc_terminal_indices self) /\
  (is_terminal choice = true -> index ∉ cc_terminal_indices self).
Proof.
  unfold is_terminal, choice_reason, get_str. intros [[Hr ->]|(raw & reason & Hr & _ & Ht & ->)]; by rewrite Hr.
Qed.

Lemma settles_justified self index choice self' before :
  settles self index choice self' -> choice_index choice = Some index ->
  (forall i, i ∈ cc_saw_tool_call_indices self <-> i ∈ marked calls_tool (before ++ [choice])) ->
  reason_justified before choice.
Proof.
  intros [[Hr _]|(raw & reason & Hr & Hn & _)] Hi Ht; [by left|right].
  apply normalized_reason in Hn as (? & ? & ?). exists reason, index. rewrite <- Ht. by split_and!.
Qed.

Lemma tracked_snoc self position choice self' choice' choices :
  tracked self choices -> push_choice self position choice = (self', Ok choice') ->
  tracked self' (choices ++ [choice']).
Proof.
  intros [Hk Ht Ho Htools Hj] (incoming & self1 & index & Hi & Hidx & Hs)%push_choice_spec.
  apply canonical_index_spec in Hi as ([indices ->] & Hindex & _ & Ha).
  pose proof (note_delta_fields {| self with cc_choice_indices := indices |} index (choice_delta choice'))
    as (Hn1 & Hn2 & Hn3). simpl in *.
  destruct (settles_fields _ _ _ _ Hs) as (Hf1 & Hf2 & Hf3 & Hnew). rewrite Hn1 in Hf1. rewrite Hn3 in Hf2.
  rewrite Hn2 in Hf3, Hnew.
  assert (Htool : forall i, i ∈ cc_saw_tool_call_indices self' <-> i ∈ marked calls_tool (choices ++ [choice'])).
  { intros i. rewrite marked_app, (marked_one _ _ _ Hidx), elem_snoc_if, Hf2, elem_union_if, Htools. done. }
  split.
  - intros i. rewrite marked_app, (marked_one _ _ _ Hidx). unfold any_choice at 2. rewrite elem_of_app, <- Hk, list_elem_of_singleton.
    assert (Hq : forall q, assigned self' q = if decide (q = position) then Some index else assigned self q).
    { intros q. rewrite <- Ha. unfold assigned. by rewrite Hf1. }
    split.
    + intros [q Hq']. rewrite Hq in Hq'. case_decide; [right; congruence|left; by exists q].
    + intros [[q Hq']| ->]; [|exists position; by rewrite Hq, decide_True].
      destruct (decide (q = position)) as [->|?]; [|exists q; by rewrite Hq, decide_False].
      exists position. rewrite Hq, decide_True by done. rewrite Hq' in Hindex. by subst.
  - intros i. rewrite marked_app, (marked_one _ _ _ Hidx), elem_snoc_if, Hf3, elem_union_if, Ht. done.
  - rewrite marked_app, (marked_one _ _ _ Hidx). apply NoDup_app. split_and!; [done| |case_match; [apply NoDup_singleton|constructor]].
    intros i Hi Hi'. case_match; [|by apply elem_of_nil in Hi']. apply list_elem_of_singleton in Hi' as ->.
    apply Ht in Hi. by apply Hnew.
  - apply Htool.
  - intros before c after [(-> & -> & ->)|[after' Hb]]%snoc_split; [|by eapply Hj].
    eapply settles_justified; [exact Hs|done|]. intros i. rewrite <- Htool, Hf2, Hn3. done.
Qed.

Lemma marked_subset test choices i : i ∈ marked test choices -> i ∈ marked any_choice choices.
Proof.
  unfold marked. rewrite !list_elem_of_bind. intros (choice & Hi & Hc). exists choice. split; [|done].
  by destruct (test choice); [|apply elem_of_nil in Hi].
Qed.

(** The fields that the loop over the choices leaves alone. *)
Definition frame (self : ChatStreamCanonicalizer) : string * string * Z * bool * option Value :=
  (cc_id self, cc_model self, cc_created self, cc_identity_locked self, cc_usage self).

Lemma note_delta_frame self index delta : frame (note_delta self index delta) = frame self.
Proof. unfold note_delta. by destruct (has_output delta), (has_tool_call delta). Qed.

Lemma canonical_index_frame self position incoming : frame (canonical_index self position incoming).1 = frame self.
Proof. unfold canonical_index. by repeat case_match. Qed.

Lemma canonical_reason_frame self index choice : frame (canonical_reason self index choice).1 = frame self.
Proof. unfold canonical_reason. by repeat (case_match; simplify_eq/=). Qed.

Lemma push_choice_frame self position choice : frame (push_choice self position choice).1 = frame self.
Proof.
  unfold push_choice. destruct (as_object choice) as [fields|]; [|done].
  pose proof (canonical_index_frame self position (v ← map_get fields "index"; as_u64 v)) as Hf.
  destruct (canonical_index _ _ _) as [self1 [index|]]; [|done]. simpl in Hf.
  destruct (canonical_delta _) as [delta|]; [|done].
  pose proof (canonical_reason_frame (note_delta self1 index delta) index
    (map_insert "delta" (JObject delta) (map_insert "index" (JNumber (Integer index)) fields))) as Hr.
  destruct (canonical_reason _ _ _) as [self2 []]; simpl in *; by rewrite Hr, note_delta_frame.
Qed.

Lemma push_choices_frame self position choices : frame (push_choices self position choices).1 = frame self.
Proof.
  revert self position. induction choices as [|choice choices IH]; intros self position; [done|]. simpl.
  pose proof (push_choice_frame self position choice) as Hf. destruct (push_choice _ _ _) as [self1 []]; [|done].
  specialize (IH self1 (S position)). destruct (push_choices _ _ _) as [self2 []]; simpl in *; congruence.
Qed.

Lemma push_choices_tracked self position choices self' choices' written :
  tracked self written -> push_choices self position choices = (self', Ok choices') ->
  tracked self' (written ++ choices') /\ length choices' = length choices.
Proof.
  revert self position choices' written. induction choices as [|choice choices IH]; intros self position choices' written Ht Hp; simplify_eq/=.
  { by rewrite app_nil_r. }
  destruct (push_choice self position choice) as [self1 [choice'|]] eqn:Hc; simplify_eq/=.
  destruct (push_choices self1 (S position) choices) as [self2 [rest|]] eqn:Hr; simplify_eq/=.
  destruct (IH _ _ _ _ (tracked_snoc _ _ _ _ _ _ Ht Hc) Hr) as [Ht' Hlen]. rewrite <- app_assoc in Ht'. auto.
Qed.

(** ** Events *)

Lemma canonical_event_get self choices object key :
  map_get (canonical_event self choices object) key =
    if String.eqb "usage" key then None
    else if String.eqb "model" key then Some (JString (cc_model self))
    else if String.eqb "created" key then Some (JNumber (Integer (cc_created self)))
    else if String.eqb "object" key then Some (JString "chat.completion.chunk")
    else if String.eqb "id" key then Some (JString (cc_id self))
    else if String.eqb "choices" key then Some (JArray choices)
    else map_get object key.
Proof. unfold canonical_event. by rewrite map_get_remove, !map_get_insert. Qed.

Lemma tracked_frame self self' choices :
  cc_choice_indices self' = cc_choice_indices self ->
  cc_terminal_indices self' = cc_terminal_indices self ->
  cc_saw_tool_call_indices self' = cc_saw_tool_call_indices self ->
  tracked self choices -> tracked self' choices.
Proof. intros H1 H2 H3 [Hk Ht Ho Htools Hj]. split; unfold assigned in *; rewrite ?H1, ?H2, ?H3; done. Qed.

Lemma stabilize_fields self object self' :
  stabilize_identity self object = Ok self' ->
  cc_choice_indices self' = cc_choice_indices self /\ cc_terminal_indices self' = cc_terminal_indices self /\
  cc_saw_tool_call_indices self' = cc_saw_tool_call_indices self /\
  cc_saw_output_indices self' = cc_saw_output_indices self /\
  cc_usage self' = cc_usage self /\ cc_identity_locked self' = true /\
  (cc_identity_locked self = true -> self' = self).
Proof. unfold stabilize_identity. intros. by repeat (case_match; simplify_eq/=). Qed.

(** The usage that an event leaves to be written at the end. *)
Definition usage_after (usage : option Value) (event : Value) : option Value :=
  or_else (get_non_null event "usage") usage.

(** A written chunk: it has choices and no usage. *)
Definition is_chunk (event : Value) : Prop :=
  get event "usage" = None /\ default [] (get_array event "choices") <> [].

Definition carries_identity (self : ChatStreamCanonicalizer) (event : Value) : Prop :=
  has_identity (cc_id self) (cc_model self) (cc_created self) event.

Lemma push_spec self event self' output written :
  tracked self written -> canonicalizer_push self event = (self', Ok output) ->
  tracked self' (written ++ choices_of output) /\ cc_usage self' = usage_after (cc_usage self) event /\
  cc_identity_locked self' = true /\ Forall is_chunk output /\ Forall (carries_identity self') output.
Proof.
  intros Ht. unfold canonicalizer_push. destruct event as [| | | | |object]; intros Hp; simplify_eq/=.
  destruct (stabilize_identity self object) as [self1|] eqn:Hs; simplify_eq/=.
  apply stabilize_fields in Hs as (Hs1 & Hs2 & Hs3 & _ & Hu & Hl & _).
  assert (Hn : tracked (note_usage self1 object) written).
  { eapply tracked_frame, Ht; unfold note_usage; by destruct (get_non_null (JObject object) "usage"). }
  assert (Hf : cc_usage (note_usage self1 object) = usage_after (cc_usage self) (JObject object) /\
               cc_identity_locked (note_usage self1 object) = true).
  { unfold note_usage, usage_after. rewrite <- Hu. by destruct (get_non_null (JObject object) "usage"). }
  destruct Hf as [Hfu Hfl]. destruct (as_array _) as [[|c choices]|]; [simplify_eq/=; rewrite app_nil_r; split_and!; by auto| |done].
  destruct (push_choices (note_usage self1 object) 0 (c :: choices)) as [self2 [choices'|]] eqn:Hc; simplify_eq.
  destruct (push_choices_tracked _ _ _ _ _ _ Hn Hc) as [Ht2 Hlen].
  pose proof (push_choices_frame (note_usage self1 object) 0 (c :: choices)) as Hfr. rewrite Hc in Hfr.
  unfold frame in Hfr. simpl in Hfr. rewrite Hfu, Hfl in Hfr. simplify_eq.
  unfold choices_of, is_chunk, carries_identity, has_identity, get_array. csimpl.
  rewrite canonical_event_get. simpl. rewrite app_nil_r.
  split_and!; [done..|apply List.Forall_cons; [|constructor]|apply List.Forall_cons; [|constructor]].
  - csimpl. rewrite !canonical_event_get. simpl. split; [done|by intros ->].
  - csimpl. by rewrite !canonical_event_get.
Qed.

(** ** The end of a stream *)

Lemma elem_ordered_set i s : i ∈ ordered_set s <-> i ∈ s.
Proof. unfold ordered_set. rewrite (sort_by_perm Z.leb (elements s)). apply elem_of_elements. Qed.

Lemma NoDup_ordered_set s : NoDup (ordered_set s).
Proof. unfold ordered_set. rewrite (sort_by_perm Z.leb (elements s)). apply NoDup_elements. Qed.

Lemma collect_Ok {A B E} (f : A -> result B E) l ys :
  collect f l = Ok ys -> Forall2 (fun x y => f x = Ok y) l ys.
Proof.
  revert ys. induction l as [|x l IH]; intros ys; simpl; intros; simplify_eq; [constructor|].
  destruct (f x) eqn:Hx; simplify_eq. destruct (collect f l) eqn:Hl; simplify_eq. constructor; auto.
Qed.

(** A synthesized choice. *)
Lemma missing_choice_spec self index choice :
  missing_choice self index = Ok choice ->
  choice_index choice = Some index /\ is_terminal choice = true /\ calls_tool choice = false /\
  exists reason, get choice "finish_reason" = Some (JString reason) /\
    ((reason = "tool_calls" /\ index ∈ cc_saw_tool_call_indices self) \/
     (reason = "stop" /\ index ∉ cc_saw_tool_call_indices self /\ index ∈ cc_saw_output_indices self)).
Proof.
  unfold missing_choice. case_bool_decide; intros; simplify_eq/=; [split_and!; [done..|by eexists; eauto]|].
  case_bool_decide; simplify_eq/=. split_and!; [done..|by eexists; eauto].
Qed.

Lemma marked_missing self missing choices :
  Forall2 (fun index choice => missing_choice self index = Ok choice) missing choices ->
  marked is_terminal choices = missing /\ marked any_choice choices = missing /\ marked calls_tool choices = [].
Proof.
  induction 1 as [|index choice missing choices Hc _ (IH1 & IH2 & IH3)]; [done|].
  apply missing_choice_spec in Hc as (Hi & Ht & Htool & _). change (choice :: choices) with ([choice] ++ choices).
  by rewrite !marked_app, !(marked_one _ _ _ Hi), Ht, Htool, IH1, IH2, IH3.
Qed.

Lemma mark_terminals_frame self choices :
  frame (mark_terminals self choices).1 = frame self /\
  cc_choice_indices (mark_terminals self choices).1 = cc_choice_indices self.
Proof.
  revert self. induction choices as [|choice choices IH]; intros self; [done|]. simpl. case_match; [|done].
  destruct (IH {| self with cc_terminal_indices := {[z]} ∪ cc_terminal_indices self |}) as [-> ->]. done.
Qed.

Lemma synthesize_spec self missing self' output :
  synthesize_terminals self missing = (self', Ok output) ->
  frame self' = frame self /\
  Forall2 (fun index choice => missing_choice self index = Ok choice) missing (choices_of output) /\
  ((missing = [] /\ output = []) \/
   missing <> [] /\ output = [JObject (envelope self' (choices_of output))]).
Proof.
  unfold synthesize_terminals. destruct missing as [|index missing]; intros; simplify_eq/=; [by split_and!; auto|].
  change (let? y := missing_choice self index in let? ys := collect (missing_choice self) missing in Ok (y :: ys))
    with (collect (missing_choice self) (index :: missing)) in *.
  destruct (collect _ _) as [choices|] eqn:Hc; simplify_eq. apply collect_Ok in Hc.
  pose proof (mark_terminals_frame self choices) as [Hf _].
  destruct (mark_terminals self choices) as [self1 []]; simplify_eq/=.
  rewrite app_nil_r. split_and!; [unfold frame; congruence|done|by right].
Qed.

Lemma marked_justified self written missing choices :
  (forall i, i ∈ cc_saw_tool_call_indices self <-> i ∈ marked calls_tool written) ->
  Forall2 (fun index choice => missing_choice self index = Ok choice) missing choices ->
  (forall before choice after, written = before ++ choice :: after -> reason_justified before choice) ->
  forall before choice after, written ++ choices = before ++ choice :: after -> reason_justified before choice.
Proof.
  intros Ht Hm Hj. revert missing Hm. induction choices as [|last choices IH] using rev_ind; intros missing Hm before c after.
  { rewrite app_nil_r. apply Hj. }
  apply Forall2_app_inv_r in Hm as (m1 & [|i []] & Hm1 & Hm2 & ->); [inversion Hm2| |inversion Hm2; by inversion H4].
  inversion Hm2 as [|? ? ? ? Hc]; subst. rewrite app_assoc.
  intros [(-> & <- & <-)|[after' Hb]]%snoc_split; [|by eapply IH].
  destruct (marked_missing _ _ _ Hm1) as (_ & _ & Htool).
  apply missing_choice_spec in Hc as (Hi & _ & Hlast & reason & Hr & Hcase).
  right. exists reason, i. rewrite !marked_app, Htool, (marked_one _ _ _ Hi), Hlast, !app_nil_r, <- Ht.
  destruct Hcase as [(-> & ?)|(-> & ? & _)]; split_and!; try done; set_solver.
Qed.

Lemma open_indices_known self i :
  (exists q, assigned self q = Some i) -> i ∈ open_indices self.
Proof.
  intros [q Hq]. unfold open_indices. unfold assigned in Hq. destruct (cc_choice_indices self) as [|o l] eqn:Hl; [done|].
  rewrite <- Hl in *. apply elem_of_list_to_set, elem_omap_id. by exists q.
Qed.

Definition last_usage (self : ChatStreamCanonicalizer) (tail : list Value) : Prop :=
  match cc_usage self with
  | None => tail = []
  | Some usage => exists event, tail = [event] /\ get event "usage" = Some usage /\ get event "choices" = Some (JArray [])
  end.

Lemma envelope_identity self choices : carries_identity self (JObject (envelope self choices)).
Proof. done. Qed.

Lemma canonical_finish_spec self written self' output :
  tracked self written -> canonicalizer_finish self = (self', Ok output) ->
  let choices := written ++ choices_of output in
  NoDup (marked is_terminal choices) /\
  (forall i, i ∈ marked is_terminal choices <-> i ∈ marked any_choice choices) /\
  (forall before choice after, choices = before ++ choice :: after -> reason_justified before choice) /\
  (exists chunks tail, output = chunks ++ tail /\ Forall is_chunk chunks /\ last_usage self tail) /\
  Forall (carries_identity self) output.
Proof.
  intros [Hk Ht Ho Htools Hj]. unfold canonicalizer_finish, finish_inner. simpl.
  set (missing := ordered_set (open_indices self ∖ cc_terminal_indices self)).
  destruct (synthesize_terminals self missing) as [self1 [chunks|]] eqn:Hs; [|done].
  apply synthesize_spec in Hs as (Hf & Hm & Hshape). destruct (marked_missing _ _ _ Hm) as (Hmt & Hma & Hmc).
  destruct (flush_usage self1) as [self2 tail] eqn:Hu. intros [= <- <-].
  assert (Hl : last_usage self tail /\ choices_of tail = [] /\ Forall (carries_identity self) tail).
  { unfold frame in Hf. injection Hf as H1 H2 H3 _ H5. unfold flush_usage in Hu. unfold last_usage. rewrite <- H5.
    destruct (cc_usage self1) as [usage|]; simplify_eq/=; [|done]. split_and!; [by eexists|done|].
    apply List.Forall_cons; [|done]. unfold carries_identity. by rewrite <- H1, <- H2, <- H3. }
  destruct Hl as (Hl & Hc & Hit). rewrite choices_of_app, Hc, app_nil_r.
  assert (Hmiss : forall i, i ∈ missing <-> i ∈ open_indices self /\ i ∉ cc_terminal_indices self).
  { intros i. unfold missing. rewrite elem_ordered_set. set_solver. }
  split_and!.
  - rewrite marked_app, Hmt. apply NoDup_app. split_and!; [done| |apply NoDup_ordered_set].
    intros i Hi%Ht Hi'%Hmiss. tauto.
  - intros i. split; [apply marked_subset|]. rewrite !marked_app, Hmt, Hma, !elem_of_app. intros [Hi|Hi]; [|by right].
    destruct (decide (i ∈ cc_terminal_indices self)) as [Hin|Hin]; [left; by apply Ht|right].
    apply Hmiss. split; [|done]. apply open_indices_known. by apply Hk.
  - eapply marked_justified; [exact Htools|exact Hm|exact Hj].
  - exists chunks, tail. split_and!; [done| |done]. destruct Hshape as [[_ ->]|[Hne ->]]; [constructor|].
    apply List.Forall_cons; [|constructor]. split; [done|]. simpl.
    intros H0. rewrite H0 in Hm. by inversion Hm; subst.
  - apply Forall_app. split; [|done]. destruct Hshape as [[_ ->]|[Hne ->]]; [constructor|].
    apply List.Forall_cons; [|constructor]. unfold frame in Hf. injection Hf as H1 H2 H3 _ _.
    unfold carries_identity. by rewrite <- H1, <- H2, <- H3.
Qed.

(** ** Whole streams are canonical *)

Definition last_reported (usage : option Value) (events : list Value) : option Value :=
  fold_left usage_after events usage.

(** The identity that a first event gives a stream. *)
Definition identified (self : ChatStreamCanonicalizer) (events : list Value) : string * string * Z :=
  match events with
  | event :: _ =>
      if cc_identity_locked self then (cc_id self, cc_model self, cc_created self)
      else (default (cc_id self) (get_str event "id"), default (cc_model self) (get_str event "model"),
            default (cc_created self) (v ← get event "created"; as_u64 v))
  | [] => (cc_id self, cc_model self, cc_created self)
  end.

Definition identity_of (self : ChatStreamCanonicalizer) : string * string * Z :=
  (cc_id self, cc_model self, cc_created self).

Lemma optional_string_get object field value :
  optional_string object field = Ok value -> get_str (JObject object) field = value.
Proof. unfold optional_string, get_str. simpl. by destruct (map_get object field) as [[]|]; intros; simplify_eq/=. Qed.

Lemma optional_u64_get object field value :
  optional_u64 object field = Ok value -> (v ← get (JObject object) field; as_u64 v) = value.
Proof.
  unfold optional_u64. simpl. destruct (map_get object field) as [[| |n| | |]|]; try (intros; by simplify_eq/=).
  change (Some (JNumber n) ≫= (fun v => as_u64 v)) with (as_u64 (JNumber n)).
  change (match n with Integer z => _ | Float _ => None end) with (as_u64 (JNumber n)).
  destruct (as_u64 (JNumber n)); intros; by simplify_eq/=.
Qed.

Lemma stabilize_identity_of self object self' :
  stabilize_identity self object = Ok self' -> identity_of self' = identified self [JObject object].
Proof.
  unfold stabilize_identity, identified.
  destruct (optional_string object "id") as [id|] eqn:Hid; [|done].
  destruct (optional_string object "model") as [model|] eqn:Hm; [|done].
  destruct (optional_u64 object "created") as [created|] eqn:Hc; [|done].
  apply optional_string_get in Hid, Hm. apply optional_u64_get in Hc.
  destruct (cc_identity_locked self); intros; simplify_eq/=; [done|]. unfold identity_of. by simpl.
Qed.

(** Whatever comes of an event, a locked identity stays, and what is written carries it. *)
Lemma push_identity self event self' output :
  canonicalizer_push self event = (self', output) ->
  self' = self \/
  (cc_identity_locked self' = true /\ identity_of self' = identified self [event]).
Proof.
  unfold canonicalizer_push. destruct (as_object event) as [object|] eqn:Ho; intros Hp; simplify_eq/=; [|by left].
  destruct event; simplify_eq/=. destruct (stabilize_identity self object) as [self1|] eqn:Hs; simplify_eq; [|by left].
  right. pose proof (stabilize_identity_of _ _ _ Hs) as Hi. apply stabilize_fields in Hs as (_ & _ & _ & _ & _ & Hl & _).
  assert (Hn : frame (note_usage self1 object) = (cc_id self1, cc_model self1, cc_created self1, true, cc_usage (note_usage self1 object))).
  { unfold note_usage, frame. destruct (get_non_null (JObject object) "usage"); simpl; by rewrite Hl. }
  assert (Hend : forall self2, frame self2 = frame (note_usage self1 object) ->
    cc_identity_locked self2 = true /\ identity_of self2 = identified self [JObject object]).
  { intros self2 Hf. rewrite Hn in Hf. unfold frame in Hf. rewrite <- Hi. unfold identity_of. split; congruence. }
  destruct (as_array _) as [[|c choices]|]; [simplify_eq; by apply Hend| |simplify_eq; by apply Hend].
  pose proof (push_choices_frame (note_usage self1 object) 0 (c :: choices)) as Hfr.
  destruct (push_choices _ 0 (c :: choices)) as [self2 []]; injection Hp as <- <-; by apply Hend.
Qed.

Lemma push_all_spec self events self' outputs written :
  tracked self written -> push_all self events = (self', Ok outputs) ->
  tracked self' (written ++ choices_of outputs) /\ cc_usage self' = last_reported (cc_usage self) events /\
  Forall is_chunk outputs /\ identity_of self' = identified self events /\
  Forall (carries_identity self') outputs.
Proof.
  revert self outputs written. induction events as [|event events IH]; intros self outputs written Ht; simpl.
  { intros [= <- <-]. rewrite app_nil_r. by split_and!. }
  destruct (canonicalizer_push self event) as [self1 [output|]] eqn:Hp; [|done].
  destruct (push_all self1 events) as [self2 [rest|]] eqn:Hr; [|done]. intros [= <- <-].
  destruct (push_spec _ _ _ _ _ Ht Hp) as (Ht1 & Hu & Hl & Hc & Hi).
  destruct (IH _ _ _ Ht1 Hr) as (Ht2 & Hu2 & Hc2 & Hid & Hi2).
  assert (Hsame : identity_of self2 = identity_of self1).
  { rewrite Hid. unfold identified. by destruct events; [|rewrite Hl]. }
  rewrite choices_of_app, app_assoc. split_and!; [done| |by apply Forall_app| |apply Forall_app; split; [|done]].
  - by rewrite Hu2, Hu.
  - destruct (push_identity _ _ _ _ Hp) as [->|[_ Hpi]]; [|by rewrite Hsame, Hpi].
    rewrite Hsame. unfold identified. by rewrite Hl.
  - unfold identity_of in Hsame. injection Hsame as E1 E2 E3. unfold carries_identity in *.
    by rewrite E1, E2, E3.
Qed.

(** C14. A stream that is canonicalized carries the identity of its first event throughout;
    every choice that occurs ends exactly once, with a reason that what was written
    justifies; the last usage that was reported stands in a last event of its own. *)
Theorem canonical_streams id model created events outputs :
  canonicalize (ChatStreamCanonicalizer_new id model created) events = Ok outputs ->
  let choices := choices_of outputs in
  (exists event rest, events = event :: rest /\
     Forall (has_identity (default id (get_str event "id")) (default model (get_str event "model"))
               (default created (v ← get event "created"; as_u64 v))) outputs) /\
  NoDup (marked is_terminal choices) /\
  (forall index, index ∈ marked is_terminal choices <-> index ∈ marked any_choice choices) /\
  (forall before choice after, choices = before ++ choice :: after -> reason_justified before choice) /\
  exists chunks tail, outputs = chunks ++ tail /\ Forall is_chunk chunks /\
    match last_reported None events with
    | None => tail = []
    | Some usage =>
        exists event, tail = [event] /\ get event "usage" = Some usage /\ get event "choices" = Some (JArray [])
    end.
Proof.
  unfold canonicalize. set (self := ChatStreamCanonicalizer_new id model created).
  destruct (push_all self events) as [self1 [pushed|]] eqn:Hp; [|done].
  destruct (canonicalizer_finish self1) as [self2 [last|]] eqn:Hf; [|done]. intros [= <-]. simpl.
  destruct (push_all_spec _ _ _ _ _ (tracked_new id model created) Hp) as (Ht & Hu & Hc & Hid & Hi).
  destruct (canonical_finish_spec _ _ _ _ Ht Hf) as (Ho & Heq & Hj & (chunks & tail & -> & Hch & Htail) & Hi2).
  rewrite !choices_of_app in *. simpl in *. split_and!; [|done..|].
  - destruct events as [|event rest]; [by simplify_eq/=|]. exists event, rest. split; [done|].
    unfold identity_of in Hid. simpl in Hid. injection Hid as E1 E2 E3. unfold carries_identity in *.
    rewrite E1, E2, E3 in *. by apply Forall_app.
  - exists (pushed ++ chunks), tail. split_and!; [by rewrite app_assoc|by apply Forall_app|].
    unfold last_usage in Htail. by rewrite Hu in Htail.
Qed.

(** A choice is known by its place in the list: an event whose first choice has
    another index than the first choices so far ends the stream with an error, also
    when providers send each choice in an event of its own. *)
Theorem interleaved_choices_rejected self object fields rest known index :
  assigned self 0 = Some known ->
  map_get object "choices" = Some (JArray (JObject fields :: rest)) ->
  (v ← map_get fields "index"; as_u64 v) = Some index -> index <> known ->
  is_ok (canonicalizer_push self (JObject object)).2 = false.
Proof.
  intros Ha Hc Hi Hne. unfold canonicalizer_push. simpl.
  destruct (stabilize_identity self object) as [self1|] eqn:Hs; [|done].
  apply stabilize_fields in Hs as (Hs1 & _). rewrite Hc. simpl. unfold push_choice. simpl. rewrite Hi.
  assert (Hn : mjoin (cc_choice_indices (note_usage self1 object) !! 0%nat) = Some known).
  { rewrite <- Ha. unfold assigned, note_usage. rewrite <- Hs1. by destruct (get_non_null (JObject object) "usage"). }
  unfold canonical_index. rewrite Hn. simpl. by destruct (Z.eqb_spec index known).
Qed.

(** ** Witnesses *)

Definition text_choice (index : Z) (text : string) : Value :=
  json_object [("index", JNumber (Integer index)); ("delta", json_object [("content", JString text)])].

Definition end_choice (index : Z) (reason : string) : Value :=
  json_object [("index", JNumber (Integer index)); ("delta", JNull); ("finish_reason", JString reason)].

Definition tool_choice (index : Z) : Value :=
  json_object [("index", JNumber (Integer index));
    ("delta", json_object [("content", JNull); ("tool_calls", JArray [json_object [("index", JNumber (Integer 0))]])])].

Definition chat_event (id : string) (choices : list Value) : Value :=
  json_object [("id", JString id); ("choices", JArray choices)].

Definition two_choices : list Value :=
  [chat_event "first" [text_choice 0 "Hello"; tool_choice 1];
   json_object [("choices", JArray []); ("usage", json_object [("total_tokens", JNumber (Integer 7))])];
   chat_event "later" [end_choice 0 "end_turn"]].

Definition two_choices_canonical : list Value :=
  [json_object [("id", JString "first"); ("model", JString "gpt"); ("created", JNumber (Integer 5));
     ("object", JString "chat.completion.chunk");
     ("choices", JArray
       [json_object [("index", JNumber (Integer 0)); ("delta", json_object [("content", JString "Hello")]); ("finish_reason", JNull)];
        json_object [("index", JNumber (Integer 1)); ("delta", json_object
            [("content", JNull); ("tool_calls", JArray [json_object [("index", JNumber (Integer 0))]])]); ("finish_reason", JNull)]])];
   json_object [("id", JString "first"); ("model", JString "gpt"); ("created", JNumber (Integer 5));
     ("object", JString "chat.completion.chunk");
     ("choices", JArray [json_object [("index", JNumber (Integer 0)); ("delta", JObject []); ("finish_reason", JString "stop")]])];
   json_object [("id", JString "first"); ("model", JString "gpt"); ("created", JNumber (Integer 5));
     ("object", JString "chat.completion.chunk");
     ("choices", JArray [json_object [("index", JNumber (Integer 1)); ("delta", JObject []); ("finish_reason", JString "tool_calls")]])];
   json_object [("id", JString "first"); ("model", JString "gpt"); ("created", JNumber (Integer 5));
     ("object", JString "chat.completion.chunk"); ("choices", JArray []);
     ("usage", json_object [("total_tokens", JNumber (Integer 7))])]].

Lemma canonical_streams_witness :
  canonicalize (ChatStreamCanonicalizer_new "request" "gpt" 5) two_choices = Ok two_choices_canonical /\
  NoDup (marked is_terminal (choices_of two_choices_canonical)).
Proof.
  assert (H : canonicalize (ChatStreamCanonicalizer_new "request" "gpt" 5) two_choices = Ok two_choices_canonical)
    by (vm_compute; reflexivity).
  split; [exact H|]. exact (proj1 (proj2 (canonical_streams _ _ _ _ _ H))).
Defined.

(** The completion of the second choice, in an event of its own, is such an event: the
    stream that was written is not accepted again. *)
Lemma interleaved_choices_rejected_witness :
  let self := (push_all (ChatStreamCanonicalizer_new "request" "gpt" 5) (take 2 two_choices_canonical)).1 in
  assigned self 0 = Some 0 /\
  is_ok (canonicalizer_push self (JObject (default [] (v ← two_choices_canonical !! 2%nat; as_object v)))).2 = false.
Proof.
  intros self. split; [vm_compute; reflexivity|].
  eapply (interleaved_choices_rejected _ _ _ [] 0 1); [vm_compute; reflexivity..|done].
Defined.
