(* ===== verification/ResponseEvents.v ===== *)
(** * Events of the Responses protocol

    The documents that the stream translator of [src/src/protocol.rs] emits
    ([make_response_*]), and the usage of a chat response in the form of the Responses
    protocol. *)

From S2P Require Import Prelude Protocol Json.

Local Open Scope Z_scope.

Definition number (n : Z) : Value := JNumber (Integer n).

(** ** Usage *)

Definition usage_token_count (usage : Value) (primary fallback : string) : Z :=
  default 0 (v ← or_else (get usage primary) (get usage fallback); as_u64 v).

Definition usage_total_tokens (usage : Value) (left right : Z) : Z :=
  default (sat_add u64_max left right) (v ← get usage "total_tokens"; as_u64 v).

Definition ensure_usage_detail (usage : json_map) (details_field required_field : string) : json_map :=
  let details := default [] (v ← map_get usage details_field; as_object v) in
  let details :=
    match (v ← map_get details required_field; as_u64 v) with
    | Some _ => details
    | None => map_insert required_field (number 0) details
    end in
  map_insert details_field (JObject details) usage.

Definition normalize_responses_usage_details (usage : Value) : Value :=
  match usage with
  | JObject usage =>
      let usage := ensure_usage_detail usage "input_tokens_details" "cached_tokens" in
      JObject (ensure_usage_detail usage "output_tokens_details" "reasoning_tokens")
  | _ => usage
  end.

Definition insert_detail (field : string) (details : option Value) (output : json_map) : json_map :=
  match details with Some details => map_insert field details output | None => output end.

Definition chat_usage_to_responses_usage (usage : Value) : Value :=
  let input_tokens := usage_token_count usage "prompt_tokens" "input_tokens" in
  let output_tokens := usage_token_count usage "completion_tokens" "output_tokens" in
  let output := json_fields
    [("input_tokens", number input_tokens); ("output_tokens", number output_tokens);
     ("total_tokens", number (usage_total_tokens usage input_tokens output_tokens))] in
  let output := insert_detail "input_tokens_details"
    (or_else (get usage "input_tokens_details") (get usage "prompt_tokens_details")) output in
  let output := insert_detail "output_tokens_details"
    (or_else (get usage "output_tokens_details") (get usage "completion_tokens_details")) output in
  normalize_responses_usage_details (JObject output).

(** ** Reasons for an incomplete response *)
Definition responses_incomplete_reason (finish_reason : option string) : option string :=
  match finish_reason with
  | Some reason =>
      if String.eqb reason "length" then Some "max_output_tokens"
      else if String.eqb reason "content_filter" then Some "content_filter"
      else None
  | None => None
  end.

(** ** Items *)

Definition output_text_part (content : string) : Value :=
  json_object [("type", JString "output_text"); ("text", JString content); ("annotations", JArray [])].

Definition reasoning_text_part (content : string) : Value :=
  json_object [("type", JString "reasoning_text"); ("text", JString content)].

Definition make_response_message_item (item_id status : string) (content : option string) : Value :=
  json_object
    [("id", JString item_id); ("type", JString "message"); ("status", JString status); ("role", JString "assistant");
     ("content", JArray (match content with Some content => [output_text_part content] | None => [] end))].

Definition make_reasoning_item (item_id status : string) (content : option string) : Value :=
  json_object
    [("id", JString item_id); ("type", JString "reasoning"); ("status", JString status); ("summary", JArray []);
     ("content", JArray (match content with Some content => [reasoning_text_part content] | None => [] end))].

Definition insert_namespace (namespace : option string) (item : json_map) : json_map :=
  match namespace with Some namespace => map_insert "namespace" (JString namespace) item | None => item end.

Definition make_response_function_call_item (item_id call_id name : string) (namespace : option string)
    (arguments status : string) : Value :=
  JObject (insert_namespace namespace
    (json_fields
       [("id", JString item_id); ("type", JString "function_call"); ("status", JString status);
        ("call_id", JString call_id); ("name", JString name); ("arguments", JString arguments)])).

(** ** Events *)

Definition make_response_created_event (response_id : string) (created_at : Z) (model : string) (sequence_number : Z) : Value :=
  json_object
    [("type", JString "response.created"); ("sequence_number", number sequence_number);
     ("response", json_object
        [("id", JString response_id); ("object", JString "response"); ("created_at", number created_at);
         ("status", JString "in_progress"); ("model", JString model); ("output", JArray [])])].

Definition make_response_terminal_event (response_id : string) (created_at : Z) (model : string) (output : Value)
    (usage : option Value) (incomplete_reason : option string) (sequence_number : Z) : Value :=
  let response := json_fields
    [("id", JString response_id); ("object", JString "response"); ("created_at", number created_at);
     ("status", JString (if is_some incomplete_reason then "incomplete" else "completed"));
     ("model", JString model); ("output", output)] in
  let response :=
    match incomplete_reason with
    | Some reason => map_insert "incomplete_details" (json_object [("reason", JString reason)]) response
    | None => response
    end in
  let response := match usage with Some usage => map_insert "usage" usage response | None => response end in
  json_object
    [("type", JString (if is_some incomplete_reason then "response.incomplete" else "response.completed"));
     ("sequence_number", number sequence_number); ("response", JObject response)].

Definition item_event (kind response_id : string) (output_index : Z) (item : Value) (sequence_number : Z) : Value :=
  json_object
    [("type", JString kind); ("sequence_number", number sequence_number); ("response_id", JString response_id);
     ("output_index", number output_index); ("item", item)].

Definition make_response_output_item_added_message_event (response_id item_id : string) (output_index sequence_number : Z) : Value :=
  item_event "response.output_item.added" response_id output_index
    (json_object
       [("id", JString item_id); ("type", JString "message"); ("status", JString "in_progress");
        ("role", JString "assistant"); ("content", JArray [])])
    sequence_number.

Definition make_response_output_item_done_message_event (response_id item_id : string) (output_index : Z)
    (status content : string) (sequence_number : Z) : Value :=
  item_event "response.output_item.done" response_id output_index
    (json_object
       [("id", JString item_id); ("type", JString "message"); ("status", JString status);
        ("role", JString "assistant"); ("content", JArray [output_text_part content])])
    sequence_number.

(** An event about one part of an item. *)
Definition part_event (kind response_id item_id : string) (output_index : Z) (field content : string)
    (sequence_number : Z) : Value :=
  json_object
    [("type", JString kind); ("sequence_number", number sequence_number); ("response_id", JString response_id);
     ("item_id", JString item_id); ("output_index", number output_index); ("content_index", number 0);
     (field, JString content)].

Definition make_response_output_text_delta_event (response_id item_id : string) (output_index : Z) (delta : string)
    (sequence_number : Z) : Value :=
  part_event "response.output_text.delta" response_id item_id output_index "delta" delta sequence_number.

Definition make_response_output_text_done_event (response_id item_id : string) (output_index : Z) (content : string)
    (sequence_number : Z) : Value :=
  part_event "response.output_text.done" response_id item_id output_index "text" content sequence_number.

Definition make_reasoning_text_delta_event (response_id item_id : string) (output_index : Z) (delta : string)
    (sequence_number : Z) : Value :=
  part_event "response.reasoning_text.delta" response_id item_id output_index "delta" delta sequence_number.

Definition make_reasoning_text_done_event (response_id item_id : string) (output_index : Z) (content : string)
    (sequence_number : Z) : Value :=
  part_event "response.reasoning_text.done" response_id item_id output_index "text" content sequence_number.

Definition make_response_output_item_added_function_call_event (response_id item_id : string) (output_index : Z)
    (call_id name : string) (sequence_number : Z) : Value :=
  item_event "response.output_item.added" response_id output_index
    (make_response_function_call_item item_id call_id name None "" "in_progress") sequence_number.

Definition make_response_function_call_arguments_delta_event (response_id item_id : string) (output_index : Z)
    (delta : string) (sequence_number : Z) : Value :=
  json_object
    [("type", JString "response.function_call_arguments.delta"); ("sequence_number", number sequence_number);
     ("response_id", JString response_id); ("item_id", JString item_id); ("output_index", number output_index);
     ("delta", JString delta)].

Definition make_response_function_call_arguments_done_event (response_id item_id : string) (output_index : Z)
    (name arguments : string) (sequence_number : Z) : Value :=
  json_object
    [("type", JString "response.function_call_arguments.done"); ("sequence_number", number sequence_number);
     ("response_id", JString response_id); ("item_id", JString item_id); ("output_index", number output_index);
     ("name", JString name); ("arguments", JString arguments)].

Definition make_response_output_item_done_function_call_event (response_id : string) (output_index : Z) (item : Value)
    (sequence_number : Z) : Value :=
  item_event "response.output_item.done" response_id output_index item sequence_number.

(** ** Numbers of 64 bits *)

Definition u64 (n : Z) : Prop := 0 <= n <= u64_max.

Lemma as_u64_number n : u64 n -> as_u64 (number n) = Some n.
Proof. intros [? ?]. simpl. rewrite (proj2 (Z.leb_le _ _)), (proj2 (Z.leb_le _ _)) by lia. done. Qed.

Lemma as_u64_range value n : as_u64 value = Some n -> u64 n.
Proof.
  destruct value as [| |[z|]| | |]; try done. simpl. destruct (_ && _) eqn:Hr; [|done]. intros [= <-]. bool_prop.
  unfold u64, u64_max in *. lia.
Qed.
