(* ===== verification/ChatToResponses.v ===== *)
(** * From a chat stream to a Responses stream

    [ChatToResponsesState] of [src/src/protocol.rs]: the translator that turns the
    events of a chat-completions stream into those of the Responses protocol.

    A method that takes the vector of events works on the pair of the state and that
    vector ([Emitting]). Fresh identifiers and the clock are in [Draws], one value for
    each place that draws one in a call; [dr_call] has one for each tool call of the
    delta. Nothing is assumed of them. Log events are left out. A [usize] wraps in the
    one place where it is not saturated, as it does in a release build. *)

From S2P Require Import Prelude ModelIdentity Protocol Json ToolArguments ToolAdapter StreamAggregate ResponseEvents.

Local Open Scope Z_scope.

(** ** Content *)

Definition content_part_text (value : Value) : result string ProtocolError :=
  match as_str value with
  | Some content => Ok content
  | None =>
      let? object := ok_or (as_object value) (InvalidPayload "unsupported content part") in
      ok_or (get_str (JObject object) "text") (InvalidPayload "unsupported content part")
  end.

Fixpoint content_parts_text (parts : list Value) : result string ProtocolError :=
  match parts with
  | [] => Ok ""
  | part :: parts =>
      let? content := content_part_text part in
      let? rest := content_parts_text parts in
      Ok (content +:+ rest)
  end.

Definition content_to_plain_text (content : Value) : result string ProtocolError :=
  match content with
  | JNull => Ok ""
  | JString content => Ok content
  | JArray parts => content_parts_text parts
  | JObject _ => content_part_text content
  | _ => Err (InvalidPayload "unsupported content payload")
  end.

Definition named_arguments (object : json_map) : option (option string * string) :=
  let name := get_str (JObject object) "name" in
  let arguments := default "" (get_str (JObject object) "arguments") in
  if is_none name && str_is_empty arguments then None else Some (name, arguments).

Definition extract_tool_call_details (object : json_map) : option (option string * string) :=
  match (v ← map_get object "function"; as_object v) with
  | Some function => named_arguments function
  | None => named_arguments object
  end.

(** ** State *)

Record ReasoningStreamState := {
  rs_item_id : string;
  rs_output_index : Z;
  rs_text : string;
  rs_started_emitted : bool;
  rs_done_emitted : bool;
  rs_done_status : option string
}.

(** [ChatToolCallState] of this file. *)
Record StreamToolCall := {
  st_item_id : string;
  st_call_id : string;
  st_output_index : Z;
  st_name : option string;
  st_arguments : string;
  st_added_emitted : bool;
  st_done_emitted : bool;
  st_client_delta_desynced : bool
}.

Record ChatToResponsesState := {
  tr_response_id : option string;
  tr_upstream_response_id : option string;
  tr_model : option string;
  tr_created_at : option Z;
  tr_created_emitted : bool;
  tr_completed_emitted : bool;
  tr_incomplete_reason : option string;
  tr_sequence_number : Z;
  tr_next_output_index : Z;
  tr_text_item_id : option string;
  tr_text_output_index : option Z;
  tr_text_item_added_emitted : bool;
  tr_text_item_done_emitted : bool;
  tr_usage : option Value;
  tr_text : string;
  tr_reasoning : option ReasoningStreamState;
  tr_tool_calls : gmap Z StreamToolCall;
  tr_tool_registry : option ToolAdapterRegistry;
  tr_tool_call_merge_strict : bool
}.

Definition ChatToResponsesState_new (tool_registry : option ToolAdapterRegistry) (tool_call_merge_strict : bool)
    : ChatToResponsesState :=
  {| tr_response_id := None; tr_upstream_response_id := None; tr_model := None; tr_created_at := None;
     tr_created_emitted := false; tr_completed_emitted := false; tr_incomplete_reason := None;
     tr_sequence_number := 0; tr_next_output_index := 0; tr_text_item_id := None; tr_text_output_index := None;
     tr_text_item_added_emitted := false; tr_text_item_done_emitted := false; tr_usage := None; tr_text := "";
     tr_reasoning := None; tr_tool_calls := ∅; tr_tool_registry := tool_registry;
     tr_tool_call_merge_strict := tool_call_merge_strict |}.

Record Draws := {
  dr_response : string;
  dr_reasoning : string;
  dr_text : string;
  dr_call : nat -> string;
  dr_now : Z
}.

Definition Emitting : Type := ChatToResponsesState * list Value.

(** ** Values that are fixed on first use *)

Definition gateway_response_id (draws : Draws) : string := "resp_" +:+ dr_response draws.

Definition initialize_metadata (draws : Draws) (self : ChatToResponsesState) (event : Value) : ChatToResponsesState :=
  {| self with
     tr_response_id := Some (default (gateway_response_id draws) (tr_response_id self));
     tr_upstream_response_id := or_else (tr_upstream_response_id self) (get_str event "id");
     tr_model := or_else (tr_model self) (get_str event "model");
     tr_created_at :=
       or_else (tr_created_at self)
         (or_else (v ← get event "created"; as_u64 v) (v ← get event "created_at"; as_u64 v)) |}.

Definition response_id_value (draws : Draws) (self : ChatToResponsesState) : ChatToResponsesState * string :=
  let response_id := default (gateway_response_id draws) (tr_response_id self) in
  ({| self with tr_response_id := Some response_id |}, response_id).

Definition model_value (self : ChatToResponsesState) : string := default "" (tr_model self).

Definition created_at_value (draws : Draws) (self : ChatToResponsesState) : ChatToResponsesState * Z :=
  let created_at := default (dr_now draws) (tr_created_at self) in
  ({| self with tr_created_at := Some created_at |}, created_at).

Definition next_sequence (self : ChatToResponsesState) : ChatToResponsesState * Z :=
  let sequence_number := sat_add u64_max (tr_sequence_number self) 1 in
  ({| self with tr_sequence_number := sequence_number |}, sequence_number).

Definition allocate_output_index (self : ChatToResponsesState) : ChatToResponsesState * Z :=
  ({| self with tr_next_output_index := sat_add usize_max (tr_next_output_index self) 1 |}, tr_next_output_index self).

Definition terminal_item_status (self : ChatToResponsesState) : string :=
  if is_some (tr_incomplete_reason self) then "incomplete" else "completed".

Definition restored_tool_identity (self : ChatToResponsesState) (upstream_name : string) : string * option string :=
  match (registry ← tr_tool_registry self;
         match restore_streamed_call_name registry upstream_name with Ok identity => Some identity | Err _ => None end) with
  | Some identity => (ti_name identity, ti_namespace identity)
  | None => (upstream_name, None)
  end.

(** [output.push(event(self.next_sequence()))]. *)
Definition push_event (event : Z -> Value) (emitting : Emitting) : Emitting :=
  let '(self, output) := emitting in
  let '(self, sequence_number) := next_sequence self in
  (self, output ++ [event sequence_number]).

(** ** Messages and reasoning *)

Definition emit_created (draws : Draws) (emitting : Emitting) : Emitting :=
  let '(self, output) := emitting in
  if tr_created_emitted self then (self, output)
  else
    let '(self, response_id) := response_id_value draws self in
    let model := model_value self in
    let '(self, created_at) := created_at_value draws self in
    let '(self, output) := push_event (make_response_created_event response_id created_at model) (self, output) in
    ({| self with tr_created_emitted := true |}, output).

(** The item of the text, announced on first use; its identifier and its index. *)
Definition ensure_text_item (draws : Draws) (emitting : Emitting) : Emitting * (string * Z) :=
  let '(self, output) := emitting in
  let '(self, output_index) :=
    match tr_text_output_index self with
    | Some output_index => (self, output_index)
    | None =>
        let '(self, output_index) := allocate_output_index self in
        ({| self with tr_text_output_index := Some output_index |}, output_index)
    end in
  let item_id := default ("msg-" +:+ dr_text draws) (tr_text_item_id self) in
  let self := {| self with tr_text_item_id := Some item_id |} in
  if tr_text_item_added_emitted self then ((self, output), (item_id, output_index))
  else
    let '(self, response_id) := response_id_value draws self in
    let '(self, output) :=
      push_event (make_response_output_item_added_message_event response_id item_id output_index) (self, output) in
    (({| self with tr_text_item_added_emitted := true |}, output), (item_id, output_index)).

Definition emit_text_done (draws : Draws) (emitting : Emitting) : Emitting :=
  let '(self, output) := emitting in
  if negb (tr_text_item_added_emitted self) || tr_text_item_done_emitted self then (self, output)
  else
    let '(self, response_id) := response_id_value draws self in
    let item_id := default ("msg-" +:+ dr_text draws) (tr_text_item_id self) in
    let content := tr_text self in
    let output_index := default 0 (tr_text_output_index self) in
    let status := terminal_item_status self in
    let '(self, output) :=
      push_event (make_response_output_text_done_event response_id item_id output_index content) (self, output) in
    let '(self, output) :=
      push_event (make_response_output_item_done_message_event response_id item_id output_index status content) (self, output) in
    ({| self with tr_text_item_done_emitted := true |}, output).

Definition emit_reasoning_done (draws : Draws) (emitting : Emitting) : Emitting :=
  let '(self, output) := emitting in
  let status := terminal_item_status self in
  match tr_reasoning self with
  | Some reasoning =>
      if rs_done_emitted reasoning || negb (rs_started_emitted reasoning) then (self, output)
      else
        let self :=
          {| self with tr_reasoning :=
               Some {| reasoning with rs_done_emitted := true; rs_done_status := Some status |} |} in
        let '(self, response_id) := response_id_value draws self in
        let '(self, output) :=
          push_event (make_reasoning_text_done_event response_id (rs_item_id reasoning) (rs_output_index reasoning)
            (rs_text reasoning)) (self, output) in
        push_event (item_event "response.output_item.done" response_id (rs_output_index reasoning)
          (make_reasoning_item (rs_item_id reasoning) status (Some (rs_text reasoning)))) (self, output)
  | None => (self, output)
  end.

(** The delta of [reasoning_content]. *)
Definition emit_reasoning_delta (draws : Draws) (reasoning_content : string) (emitting : Emitting) : Emitting :=
  let '(self, output) := emit_created draws emitting in
  let '(self, response_id) := response_id_value draws self in
  let '(self, reasoning) :=
    match tr_reasoning self with
    | Some reasoning => (self, reasoning)
    | None =>
        let '(self, output_index) := allocate_output_index self in
        (self, {| rs_item_id := "rs-" +:+ dr_reasoning draws; rs_output_index := output_index; rs_text := "";
                  rs_started_emitted := false; rs_done_emitted := false; rs_done_status := None |})
    end in
  let started_emitted := rs_started_emitted reasoning in
  let reasoning :=
    {| reasoning with rs_started_emitted := true; rs_text := rs_text reasoning +:+ reasoning_content |} in
  let self := {| self with tr_reasoning := Some reasoning |} in
  let item_id := rs_item_id reasoning in
  let output_index := rs_output_index reasoning in
  let '(self, output) :=
    if started_emitted then (self, output)
    else push_event (item_event "response.output_item.added" response_id output_index
           (make_reasoning_item item_id "in_progress" None)) (self, output) in
  push_event (make_reasoning_text_delta_event response_id item_id output_index reasoning_content) (self, output).

(** The delta of [content]. *)
Definition emit_text_delta (draws : Draws) (content : string) (emitting : Emitting) : Emitting :=
  let emitting := emit_reasoning_done draws (emit_created draws emitting) in
  let '(self, output) := emitting in
  let '(self, response_id) := response_id_value draws self in
  let '((self, output), (text_item_id, output_index)) := ensure_text_item draws (self, output) in
  let self := {| self with tr_text := tr_text self +:+ content |} in
  push_event (make_response_output_text_delta_event response_id text_item_id output_index content) (self, output).

(** ** Tool calls *)

(** [keys().next_back().map_or(0, |max| max + 1)]. *)
Definition next_free_key (calls : gmap Z StreamToolCall) : Z :=
  match List.last ((fun entry => Some entry.1) <$> ordered_entries calls) None with
  | Some max => (max + 1) mod (usize_max + 1)
  | None => 0
  end.

Definition find_call (test : StreamToolCall -> bool) (calls : gmap Z StreamToolCall) : option Z :=
  fst <$> List.find (fun entry => test entry.2) (ordered_entries calls).

Definition open_calls (calls : gmap Z StreamToolCall) : list Z :=
  fst <$> retain (fun entry => negb (st_done_emitted entry.2)) (ordered_entries calls).

Definition name_missing (name : option string) : bool := is_none_or str_is_empty name.

(** A fragment that has neither an index nor an identifier continues the one open call,
    unless it names another one. *)
Definition continued_key (calls : gmap Z StreamToolCall) (name : option string) : Z :=
  match open_calls calls with
  | [open_index] =>
      let entry_name := call ← calls !! open_index; st_name call in
      let name_conflicts :=
        negb (name_missing name) && negb (name_missing entry_name) && negb (bool_decide (name = entry_name)) in
      if name_conflicts then next_free_key calls else open_index
  | _ => next_free_key calls
  end.

Definition call_key (self : ChatToResponsesState) (object : json_map) (fallback_index : Z)
    (call_id_hint name : option string) : Z :=
  let calls := tr_tool_calls self in
  match (v ← map_get object "index"; as_u64 v) with
  | Some index => index
  | None =>
      match call_id_hint with
      | Some call_id =>
          default (next_free_key calls) (find_call (fun call => String.eqb (st_call_id call) call_id) calls)
      | None => if tr_tool_call_merge_strict self then continued_key calls name else fallback_index
      end
  end.

Definition new_call (call_id : string) (output_index : Z) (name : option string) : StreamToolCall :=
  {| st_item_id := call_id; st_call_id := call_id; st_output_index := output_index; st_name := name;
     st_arguments := ""; st_added_emitted := false; st_done_emitted := false; st_client_delta_desynced := false |}.

(** An entry takes the identifiers and the name that it lacks. *)
Definition complete_call (entry : StreamToolCall) (call_id : string) (name : option string) : StreamToolCall :=
  {| entry with
     st_item_id := if str_is_empty (st_item_id entry) then call_id else st_item_id entry;
     st_call_id := if str_is_empty (st_call_id entry) then call_id else st_call_id entry;
     st_name := or_else (st_name entry) name |}.

Section Calls.
  Variable complete_json : string -> bool.

(** The entry after a fragment, and whether the fragment is passed on as a delta. *)
Definition merge_fragment (entry : StreamToolCall) (arguments : string) (strict : bool) : StreamToolCall * bool :=
  if str_is_empty arguments then (entry, false)
  else
    let '(merged, how) := merge_tool_call_arguments complete_json (st_arguments entry) arguments strict in
    let entry := {| entry with st_arguments := merged |} in
    if bool_decide (how = Appended) then (entry, negb (st_client_delta_desynced entry))
    else ({| entry with st_client_delta_desynced := true |}, false).

(** What both kinds of call deltas do with the entry at [index]. [added_event] makes the
    announcement of a new item. *)
Definition emit_call_fragment (draws : Draws) (index : Z) (call_id : string) (name : option string) (arguments : string)
    (added_event : ChatToResponsesState -> string -> string -> Z -> string -> string -> Z -> Value)
    (emitting : Emitting) : Emitting :=
  let '(self, output) := emitting in
  let '(self, response_id) := response_id_value draws self in
  let '(self, output_index) :=
    match tr_tool_calls self !! index with
    | Some call => (self, st_output_index call)
    | None => allocate_output_index self
    end in
  let entry := default (new_call call_id output_index name) (tr_tool_calls self !! index) in
  let entry := complete_call entry call_id name in
  let added := st_added_emitted entry in
  let entry := {| entry with st_added_emitted := true |} in
  let '(merged, delta) := merge_fragment entry arguments (tr_tool_call_merge_strict self) in
  let self := {| self with tr_tool_calls := <[index := merged]> (tr_tool_calls self) |} in
  let '(self, output) :=
    if added then (self, output)
    else push_event
           (added_event self response_id (st_item_id entry) output_index (st_call_id entry) (default "" (st_name entry)))
           (self, output) in
  if delta
  then push_event
         (make_response_function_call_arguments_delta_event response_id (st_item_id entry) output_index arguments)
         (self, output)
  else (self, output).

(** The method of the same name, which restores the name of the tool. *)
Definition added_function_call_event (self : ChatToResponsesState) (response_id item_id : string) (output_index : Z)
    (call_id name : string) (sequence_number : Z) : Value :=
  let '(name, namespace) := restored_tool_identity self name in
  item_event "response.output_item.added" response_id output_index
    (make_response_function_call_item item_id call_id name namespace "" "in_progress") sequence_number.

Definition emit_chat_tool_call_delta (draws : Draws) (tool_call : Value) (fallback_index : nat) (emitting : Emitting)
    : ChatToResponsesState * result (list Value) ProtocolError :=
  let '(self, output) := emitting in
  match as_object tool_call with
  | None => (self, Err (InvalidPayload "unsupported tool call"))
  | Some object =>
      match extract_tool_call_details object with
      | None => (self, Ok output)
      | Some (name, arguments) =>
          let call_id_hint := v ← or_else (map_get object "id") (map_get object "call_id"); as_str v in
          let index := call_key self object (Z.of_nat fallback_index) call_id_hint name in
          let call_id := default ("gw-call-" +:+ dr_call draws fallback_index) call_id_hint in
          let '(self, output) :=
            emit_call_fragment draws index call_id name arguments added_function_call_event (self, output) in
          (self, Ok output)
      end
  end.

  Variable print_json : Value -> string.

Definition emit_chat_function_call_delta (draws : Draws) (function_call : Value) (emitting : Emitting)
    : ChatToResponsesState * result (list Value) ProtocolError :=
  let '(self, output) := emitting in
  match (let? object := ok_or (as_object function_call)
           (InvalidPayload ("unsupported function call: " +:+ print_json function_call)) in
         let? call_id := ok_or (v ← or_else (map_get object "id") (map_get object "call_id"); as_str v)
           (MissingField "call_id") in
         let? name := ok_or (get_str (JObject object) "name") (MissingField "name") in
         Ok (call_id, name, default "" (get_str (JObject object) "arguments"))) with
  | Err error => (self, Err error)
  | Ok (call_id, name, arguments) =>
      let '(self, output) :=
        emit_call_fragment draws 0 call_id (Some name) arguments
          (fun _ => make_response_output_item_added_function_call_event) (self, output) in
      (self, Ok output)
  end.

  Variable json_stream : string -> list (option Value).

(** The item of a call as it is reported when it is done. *)
Definition done_call_item (self : ChatToResponsesState) (call : StreamToolCall) (status : string) : Value :=
  let '(arguments, _) := normalize_tool_arguments json_stream print_json (st_arguments call) in
  let '(name, namespace) := restored_tool_identity self (default "" (st_name call)) in
  make_response_function_call_item (st_item_id call) (st_call_id call) name namespace arguments status.

(** One round of the loop over the pending calls. *)
Definition emit_one_call_done (response_id status : string) (emitting : Emitting) (call : StreamToolCall) : Emitting :=
  let '(self, output) := emitting in
  let '(arguments, _) := normalize_tool_arguments json_stream print_json (st_arguments call) in
  let '(name, namespace) := restored_tool_identity self (default "" (st_name call)) in
  let '(self, output) :=
    push_event (make_response_function_call_arguments_done_event response_id (st_item_id call) (st_output_index call)
      name arguments) (self, output) in
  push_event (make_response_output_item_done_function_call_event response_id (st_output_index call)
    (make_response_function_call_item (st_item_id call) (st_call_id call) name namespace arguments status)) (self, output).

Definition emit_tool_call_done (draws : Draws) (emitting : Emitting) : Emitting :=
  let '(self, output) := emitting in
  let '(self, response_id) := response_id_value draws self in
  let status := terminal_item_status self in
  let pending := retain (fun call => negb (st_done_emitted call)) (snd <$> ordered_entries (tr_tool_calls self)) in
  let self :=
    {| self with tr_tool_calls := (fun call => {| call with st_done_emitted := true |}) <$> tr_tool_calls self |} in
  fold_left (emit_one_call_done response_id status) pending (self, output).

(** The items of the final response, in the order of their indices. *)
Definition completed_output_items (self : ChatToResponsesState) : list Value :=
  let status := terminal_item_status self in
  let reasoning_items :=
    match tr_reasoning self with
    | Some reasoning =>
        if rs_started_emitted reasoning
        then [(rs_output_index reasoning,
               make_reasoning_item (rs_item_id reasoning) (default status (rs_done_status reasoning))
                 (Some (rs_text reasoning)))]
        else []
    | None => []
    end in
  let text_items :=
    if tr_text_item_added_emitted self
    then [(default 0 (tr_text_output_index self),
           make_response_message_item (default "" (tr_text_item_id self)) status (Some (tr_text self)))]
    else [] in
  let call_items :=
    (fun call => (st_output_index call, done_call_item self call status)) <$>
      (snd <$> ordered_entries (tr_tool_calls self)) in
  snd <$> sort_by (fun a b => a.1 <=? b.1) (reasoning_items ++ text_items ++ call_items).

(** ** Events *)

Definition translator_finish (draws : Draws) (self : ChatToResponsesState)
    : ChatToResponsesState * result (list Value) ProtocolError :=
  if tr_completed_emitted self then (self, Ok [])
  else
    let '(self, output) :=
      emit_tool_call_done draws (emit_text_done draws (emit_reasoning_done draws (emit_created draws (self, [])))) in
    let '(self, response_id) := response_id_value draws self in
    let model := model_value self in
    let '(self, created_at) := created_at_value draws self in
    let '(self, output) :=
      push_event (make_response_terminal_event response_id created_at model (JArray (completed_output_items self))
        (tr_usage self) (tr_incomplete_reason self)) (self, output) in
    ({| self with tr_completed_emitted := true |}, Ok output).

Fixpoint translate_tool_calls (draws : Draws) (fallback_index : nat) (tool_calls : list Value) (emitting : Emitting)
    : ChatToResponsesState * result (list Value) ProtocolError :=
  match tool_calls with
  | [] => let '(self, output) := emitting in (self, Ok output)
  | tool_call :: tool_calls =>
      match emit_chat_tool_call_delta draws tool_call fallback_index
              (emit_reasoning_done draws (emit_created draws emitting)) with
      | (self, Err error) => (self, Err error)
      | (self, Ok output) => translate_tool_calls draws (S fallback_index) tool_calls (self, output)
      end
  end.

(** The delta of a choice. *)
Definition translate_delta (draws : Draws) (delta : Value) (self : ChatToResponsesState)
    : ChatToResponsesState * result (list Value) ProtocolError :=
  let saw_role := is_some (get_str delta "role") in
  let '(self, output) :=
    match get_str delta "reasoning_content" with
    | Some reasoning_content =>
        if str_is_empty reasoning_content then (self, []) else emit_reasoning_delta draws reasoning_content (self, [])
    | None => (self, [])
    end in
  match
    match get_non_null delta "content" with
    | Some content => content_to_plain_text content
    | None => Ok ""
    end
  with
  | Err error => (self, Err error)
  | Ok content =>
      let '(self, output) :=
        if str_is_empty content then (self, output) else emit_text_delta draws content (self, output) in
      match translate_tool_calls draws 0 (default [] (get_array delta "tool_calls")) (self, output) with
      | (self, Err error) => (self, Err error)
      | (self, Ok output) =>
          match
            match get delta "function_call" with
            | Some function_call =>
                emit_chat_function_call_delta draws function_call
                  (emit_reasoning_done draws (emit_created draws (self, output)))
            | None => (self, Ok output)
            end
          with
          | (self, Err error) => (self, Err error)
          | (self, Ok output) =>
              let '(self, output) := if saw_role then emit_created draws (self, output) else (self, output) in
              (self, Ok output)
          end
      end
  end.

Definition translate_choice (draws : Draws) (choice : Value) (self : ChatToResponsesState)
    : ChatToResponsesState * result (list Value) ProtocolError :=
  match translate_delta draws (default JNull (get choice "delta")) self with
  | (self, Err error) => (self, Err error)
  | (self, Ok output) =>
      match get_str choice "finish_reason" with
      | Some finish_reason =>
          let self := {| self with tr_incomplete_reason := responses_incomplete_reason (Some finish_reason) |} in
          let '(self, output) := emit_created draws (self, output) in
          (self, Ok output)
      | None => (self, Ok output)
      end
  end.

Definition translate_event (draws : Draws) (self : ChatToResponsesState) (event : Value)
    : ChatToResponsesState * result (list Value) ProtocolError :=
  if tr_completed_emitted self then (self, Ok [])
  else
    let self := initialize_metadata draws self event in
    let usage := get_non_null event "usage" in
    let self :=
      match usage with
      | Some usage => {| self with tr_usage := Some (chat_usage_to_responses_usage usage) |}
      | None => self
      end in
    match get_array event "choices" with
    | None => (self, Ok [])
    | Some [] => if is_some usage then translator_finish draws self else (self, Ok [])
    | Some [choice] => translate_choice draws choice self
    | Some _ =>
        (self, Err (InvalidPayload
          "multiple chat completion choices are not supported when translating Chat stream events to Responses payloads"))
    end.

End Calls.
