(* ===== verification/ChatToResponsesFacts.v ===== *)
(** * What a client makes of a translated stream

    An abstract client of the Responses protocol reads the events that
    [ChatToResponses] emits: it insists on the sequence numbers, on one [created] event
    before anything else and nothing after the terminal event, on items that are
    announced in the order of their indices, on deltas and done events that name an item
    that is open, and on done texts that are what the deltas add up to. Deltas of reasoning
    may come after their item was closed, which the translator does; a strict client
    refuses them. The theorems say that the client accepts every stream that is translated
    to its end, and the strict one those without such deltas, that the final response holds
    exactly the items it has, and that both hold all that the upstream said. *)

From S2P Require Import Prelude ModelIdentity Protocol Json ToolArguments ToolAdapter StreamAggregate ResponseEvents ChatToResponses.

Local Open Scope Z_scope.

(** ** The client *)

Record ClientItem := {
  ci_kind : string;
  ci_id : string;
  ci_deltas : string;
  ci_done : option Value;
  ci_late : bool
}.

Record Client := {
  cl_sequence : Z;
  cl_created : bool;
  cl_items : list ClientItem;
  cl_terminal : option Value
}.

Definition client_new : Client := {| cl_sequence := 0; cl_created := false; cl_items := []; cl_terminal := None |}.

Definition as_number (value : Value) : option Z := match value with JNumber (Integer n) => Some n | _ => None end.

(** The item that an event is about. An item that was announced without an identifier
    may get one later. *)
Definition named_item (self : Client) (event : Value) (kind : string) : option (nat * ClientItem) :=
  index ← (v ← get event "output_index"; as_number v);
  item ← cl_items self !! Z.to_nat index;
  item_id ← get_str event "item_id";
  if (0 <=? index) && String.eqb (ci_kind item) kind && (str_is_empty (ci_id item) || String.eqb (ci_id item) item_id)
  then Some (Z.to_nat index, item) else None.

Definition put_item (self : Client) (index : nat) (item : ClientItem) : Client :=
  {| self with cl_items := <[index := item]> (cl_items self) |}.

(** A delta extends an open item. Reasoning may come late, which the client notes. *)
Definition take_delta (self : Client) (event : Value) (kind : string) (late_allowed : bool) : option Client :=
  '(index, item) ← named_item self event kind;
  delta ← get_str event "delta";
  if is_some (ci_done item) && negb late_allowed then None
  else Some (put_item self index
    {| item with ci_deltas := ci_deltas item +:+ delta; ci_late := ci_late item || is_some (ci_done item) |}).

(** A text that is done is the one that the deltas gave. *)
Definition take_text_done (self : Client) (event : Value) (kind : string) : option Client :=
  '(_, item) ← named_item self event kind;
  content ← get_str event "text";
  if is_some (ci_done item) || negb (String.eqb (ci_deltas item) content) then None else Some self.

Definition take_arguments_done (self : Client) (event : Value) : option Client :=
  '(_, item) ← named_item self event "function_call";
  if is_some (ci_done item) then None else Some self.

Definition take_item_added (self : Client) (event : Value) : option Client :=
  index ← (v ← get event "output_index"; as_number v);
  item ← get event "item";
  kind ← get_str item "type";
  id ← get_str item "id";
  if index =? Z.of_nat (length (cl_items self))
  then Some {| self with cl_items := cl_items self ++
                 [{| ci_kind := kind; ci_id := id; ci_deltas := ""; ci_done := None; ci_late := false |}] |}
  else None.

Definition take_item_done (self : Client) (event : Value) : option Client :=
  index ← (v ← get event "output_index"; as_number v);
  final ← get event "item";
  kind ← get_str final "type";
  id ← get_str final "id";
  item ← cl_items self !! Z.to_nat index;
  if (0 <=? index) && String.eqb (ci_kind item) kind && (str_is_empty (ci_id item) || String.eqb (ci_id item) id)
     && is_none (ci_done item)
  then Some (put_item self (Z.to_nat index) {| item with ci_done := Some final |}) else None.

Definition take_terminal (self : Client) (event : Value) : option Client :=
  response ← get event "response";
  Some {| self with cl_terminal := Some response |}.

(** One event, by its type, for a client that puts up with late reasoning or not. *)
Definition take_event_of (lenient : bool) (self : Client) (kind : string) (event : Value) : option Client :=
  if String.eqb kind "response.created" then
    if cl_created self then None else Some {| self with cl_created := true |}
  else if negb (cl_created self) then None
  else if String.eqb kind "response.output_item.added" then take_item_added self event
  else if String.eqb kind "response.output_item.done" then take_item_done self event
  else if String.eqb kind "response.output_text.delta" then take_delta self event "message" false
  else if String.eqb kind "response.reasoning_text.delta" then take_delta self event "reasoning" lenient
  else if String.eqb kind "response.function_call_arguments.delta" then take_delta self event "function_call" false
  else if String.eqb kind "response.output_text.done" then take_text_done self event "message"
  else if String.eqb kind "response.reasoning_text.done" then take_text_done self event "reasoning"
  else if String.eqb kind "response.function_call_arguments.done" then take_arguments_done self event
  else if String.eqb kind "response.completed" || String.eqb kind "response.incomplete" then take_terminal self event
  else None.

Definition client_step_of (lenient : bool) (self : Client) (event : Value) : option Client :=
  sequence_number ← (v ← get event "sequence_number"; as_number v);
  kind ← get_str event "type";
  if is_some (cl_terminal self) || negb (sequence_number =? sat_add u64_max (cl_sequence self) 1) then None
  else take_event_of lenient {| self with cl_sequence := sequence_number |} kind event.

Fixpoint client_replay_of (lenient : bool) (self : Client) (events : list Value) : option Client :=
  match events with
  | [] => Some self
  | event :: events => self ← client_step_of lenient self event; client_replay_of lenient self events
  end.

Notation take_event := (take_event_of true).
Notation client_step := (client_step_of true).
Notation client_replay := (client_replay_of true).
Notation strict_replay := (client_replay_of false).

(** No delta came late. *)
Definition punctual (self : Client) : Prop := Forall (fun item => ci_late item = false) (cl_items self).

Lemma client_replay_app self events1 events2 :
  client_replay self (events1 ++ events2) = (self ← client_replay self events1; client_replay self events2).
Proof.
  revert self. induction events1 as [|event events1 IH]; intros self; simpl; [done|].
  destruct (client_step self event); simpl; [apply IH|done].
Qed.

Lemma client_step_items self event self' :
  client_step self event = Some self' -> (length (cl_items self) <= length (cl_items self') <= S (length (cl_items self)))%nat.
Proof.
  unfold client_step_of, take_event_of, take_item_added, take_item_done, take_delta, take_text_done, take_arguments_done,
    take_terminal, put_item.
  intros H. repeat (case_match || destruct_and? || simplify_option_eq); simpl in *; rewrite ?length_insert, ?length_app; simpl; lia.
Qed.

(** *** The strict client

    It refuses exactly the streams in which a delta comes late. *)

Lemma named_item_known self event kind index item :
  named_item self event kind = Some (index, item) -> cl_items self !! index = Some item.
Proof. unfold named_item. intros. repeat (case_match || simplify_option_eq); by simplify_eq. Qed.

Lemma punctual_delta self event kind late self' :
  take_delta self event kind late = Some self' -> punctual self ->
  punctual self' <-> take_delta self event kind false = Some self'.
Proof.
  unfold take_delta, punctual. destruct (named_item self event kind) as [[index item]|] eqn:Hn; [|done]. simpl.
  apply named_item_known in Hn. destruct (get_str event "delta") as [delta|]; [|done]. simpl.
  intros Ht Hp. pose proof (Forall_lookup_1 _ _ _ _ Hp Hn) as Hl. cbv beta in Hl.
  destruct (ci_done item) as [final|] eqn:Hd; simpl in *.
  - destruct late; simpl in Ht; simplify_eq. unfold put_item. simpl. split; [|done]. intros Hall.
    pose proof (Forall_lookup_1 _ _ index _ Hall (list_lookup_insert_eq _ _ _ (lookup_lt_Some _ _ _ Hn))) as Hlate.
    simpl in Hlate. by rewrite orb_true_r in Hlate.
  - simplify_eq. split; [done|]. intros _. unfold put_item. simpl. apply Forall_insert; [done|]. simpl. by rewrite Hl.
Qed.

Lemma punctual_step self event self' :
  punctual self -> client_step self event = Some self' /\ punctual self' <-> client_step_of false self event = Some self'.
Proof.
  intros Hp. unfold client_step_of. destruct (v ← get event "sequence_number"; as_number v) as [n|]; [|naive_solver].
  destruct (get_str event "type") as [kind|]; [|naive_solver]. simpl. destruct (_ || _); [naive_solver|].
  set (self0 := {| self with cl_sequence := n |}). assert (Hp0 : punctual self0) by done. clearbody self0. clear Hp self.
  unfold take_event_of.
  assert (Hdelta : forall kind late, (late = false \/ kind = "reasoning") ->
    take_delta self0 event kind late = Some self' /\ punctual self' <-> take_delta self0 event kind false = Some self').
  { intros kind' late Hlate. split.
    - intros [Ht Hq]. by apply (punctual_delta _ _ _ _ _ Ht Hp0).
    - intros Ht. pose proof (proj2 (punctual_delta _ _ _ _ _ Ht Hp0) Ht) as Hq. split; [|done].
      revert Ht. unfold take_delta. destruct (named_item _ _ _) as [[? ?]|]; [|done]. simpl.
      destruct (get_str _ _); [|done]. simpl. rewrite andb_true_r. destruct (is_some _); [done|]. by destruct late. }
  assert (Hsame : forall r : option Client, (r = Some self' -> punctual self') -> r = Some self' /\ punctual self' <-> r = Some self')
    by naive_solver.
  repeat match goal with
  | |- context [if ?test then _ else _] => destruct test
  end; try (apply Hdelta; by auto); try (apply Hsame; clear Hdelta Hsame); try naive_solver.
  all: unfold take_item_added, take_item_done, take_text_done, take_arguments_done, take_terminal, punctual; intros Ht;
    repeat (case_match || simplify_option_eq); simpl; try done.
  - apply Forall_app. split; [done|]. by constructor.
  - unfold put_item. simpl. apply Forall_insert; [done|]. simpl. by eapply (Forall_lookup_1 _ _ _ _ Hp0).
Qed.

Lemma step_late self event self' : client_step self event = Some self' -> punctual self' -> punctual self.
Proof.
  unfold client_step_of, take_event_of, take_item_added, take_item_done, take_delta, take_text_done, take_arguments_done,
    take_terminal, put_item, punctual.
  assert (Hput : forall items index item (item' : ClientItem), items !! index = Some item -> (ci_late item' = false -> ci_late item = false) ->
    Forall (fun item => ci_late item = false) (<[index := item']> items) -> Forall (fun item => ci_late item = false) items).
  { intros items index item item' Hl Himp Hall. apply Forall_lookup. intros j other Hj. destruct (decide (j = index)) as [->|Hne].
    - simplify_eq. apply Himp.
      exact (Forall_lookup_1 _ _ index _ Hall (list_lookup_insert_eq _ _ _ (lookup_lt_Some _ _ _ Hl))).
    - apply (Forall_lookup_1 _ _ j other Hall). by rewrite list_lookup_insert_ne. }
  intros H Hp.
  repeat match goal with H : named_item _ _ _ = Some (_, _) |- _ => apply named_item_known in H end.
  repeat (case_match || simplify_option_eq); simpl in *; try done;
    repeat match goal with H : named_item _ _ _ = Some (_, _) |- _ => apply named_item_known in H end; simpl in *;
    try (by apply Forall_app in Hp as [? _]);
    (eapply Hput; [eassumption| |exact Hp]; simpl; intros Hl; try apply orb_false_iff in Hl as [Hl _]; exact Hl).
Qed.

Lemma replay_late c events c' : client_replay c events = Some c' -> punctual c' -> punctual c.
Proof.
  revert c. induction events as [|event events IH]; intros c; simpl; [by intros [= <-]|].
  destruct (client_step c event) as [c1|] eqn:Hs; simpl; [|done]. intros Hr Hp. eapply step_late; [exact Hs|]. by apply IH.
Qed.

Lemma strict_replay_iff self events self' :
  punctual self -> strict_replay self events = Some self' <-> client_replay self events = Some self' /\ punctual self'.
Proof.
  revert self. induction events as [|event events IH]; intros self Hp; simpl; [naive_solver|].
  destruct (client_step_of false self event) as [self1|] eqn:Hs; simpl.
  - apply punctual_step in Hs as [-> Hp1]; [|done]. simpl. by apply IH.
  - split; [done|]. intros [Hr Hq]. destruct (client_step self event) as [self1|] eqn:Hs1; [|done]. simpl in Hr.
    assert (Hx : client_step_of false self event = Some self1) by (apply punctual_step; eauto using replay_late). congruence.
Qed.

(** *** What the client heard *)

(** The deltas of the items of a kind, one after the other. *)
Definition deltas_of (kind : string) (items : list ClientItem) : string :=
  foldr (fun item rest => (if String.eqb (ci_kind item) kind then ci_deltas item else "") +:+ rest) "" items.

(** The text and the reasoning. *)
Definition heard (self : Client) : string * string :=
  (deltas_of "message" (cl_items self), deltas_of "reasoning" (cl_items self)).

Lemma deltas_of_none kind items :
  (forall index item, items !! index = Some item -> ci_kind item <> kind) -> deltas_of kind items = "".
Proof.
  induction items as [|item items IH]; intros Hn; simpl; [done|].
  rewrite (proj2 (String.eqb_neq _ _) (Hn 0%nat item eq_refl)). apply IH. intros index. apply (Hn (S index)).
Qed.

Lemma deltas_of_one kind items index item :
  items !! index = Some item -> ci_kind item = kind ->
  (forall j other, items !! j = Some other -> ci_kind other = kind -> j = index) -> deltas_of kind items = ci_deltas item.
Proof.
  revert index. induction items as [|first items IH]; intros index Hi Hk Hu; [done|]. cbn [deltas_of foldr].
  destruct index as [|index]; simpl in Hi.
  - simplify_eq. rewrite String.eqb_refl. fold (deltas_of (ci_kind item) items). rewrite deltas_of_none; [apply append_nil|].
    intros j other Hj Hk. by specialize (Hu (S j) other Hj Hk).
  - destruct (String.eqb_spec (ci_kind first) kind) as [Hf|Hf]; [by specialize (Hu 0%nat first eq_refl Hf)|].
    apply (IH index); [done|done|]. intros j other Hj Ho. by specialize (Hu (S j) other Hj Ho) as [= ->].
Qed.

Lemma deltas_of_alter kind f index items :
  (forall item, ci_kind (f item) = ci_kind item /\ ci_deltas (f item) = ci_deltas item) ->
  deltas_of kind (alter f index items) = deltas_of kind items.
Proof.
  intros Hf. revert index. induction items as [|item items IH]; intros [|index]; simpl; [done..| |].
  - by destruct (Hf item) as [-> ->].
  - f_equal. apply IH.
Qed.

(** ** What the client does with each event *)

#[local] Opaque json_fields.

Definition next_number (c : Client) : Z := sat_add u64_max (cl_sequence c) 1.
Definition ticked (c : Client) : Client := {| c with cl_sequence := next_number c |}.
Definition listening (c : Client) : Prop := cl_created c = true /\ cl_terminal c = None.
Definition id_matches (item : ClientItem) (id : string) : Prop := ci_id item = "" \/ ci_id item = id.

Lemma id_matches_test item id : id_matches item id -> str_is_empty (ci_id item) || String.eqb (ci_id item) id = true.
Proof. intros [->| ->]; [done|]. rewrite String.eqb_refl. apply orb_true_r. Qed.

Lemma step_known c event kind :
  get_str event "type" = Some kind -> (v ← get event "sequence_number"; as_number v) = Some (next_number c) ->
  cl_terminal c = None -> client_step c event = take_event (ticked c) kind event.
Proof.
  intros Hk Hs Ht. unfold client_step_of. rewrite Hs, Hk. cbn [mbind option_bind]. fold (next_number c).
  unfold ticked. by rewrite Ht, Z.eqb_refl.
Qed.

Ltac event_fields :=
  unfold make_response_created_event, make_response_terminal_event, make_response_output_text_delta_event,
    make_reasoning_text_delta_event, make_response_function_call_arguments_delta_event,
    make_response_function_call_arguments_done_event, item_event, part_event, get_str;
  rewrite ?get_json_object; simpl.

Lemma step_created c response_id created_at model :
  cl_terminal c = None -> cl_created c = false ->
  client_step c (make_response_created_event response_id created_at model (next_number c)) =
  Some {| (ticked c) with cl_created := true |}.
Proof.
  intros Ht Hc. rewrite (step_known _ _ "response.created"); [|by event_fields..|done].
  unfold take_event_of, ticked. simpl. by rewrite !Hc.
Qed.

Lemma step_added c response_id index item kind id :
  listening c -> index = Z.of_nat (length (cl_items c)) -> get_str item "type" = Some kind -> get_str item "id" = Some id ->
  client_step c (item_event "response.output_item.added" response_id index item (next_number c)) =
  Some {| (ticked c) with cl_items := cl_items c ++
          [{| ci_kind := kind; ci_id := id; ci_deltas := ""; ci_done := None; ci_late := false |}] |}.
Proof.
  unfold get_str. intros [Hc Ht] -> Hk Hi. rewrite (step_known _ _ "response.output_item.added"); [|by event_fields..|done].
  unfold take_event_of, ticked. simpl. rewrite !Hc. unfold take_item_added. event_fields.
  rewrite Hk. simpl. rewrite Hi. simpl. by rewrite Z.eqb_refl.
Qed.

Lemma step_item_done c response_id index item final kind id :
  listening c -> cl_items c !! index = Some item -> get_str final "type" = Some kind -> get_str final "id" = Some id ->
  ci_kind item = kind -> id_matches item id -> ci_done item = None ->
  client_step c (item_event "response.output_item.done" response_id (Z.of_nat index) final (next_number c)) =
  Some (put_item (ticked c) index {| item with ci_done := Some final |}).
Proof.
  unfold get_str. intros [Hc Ht] Hl Hk Hi <- Hm Hd. rewrite (step_known _ _ "response.output_item.done"); [|by event_fields..|done].
  unfold take_event_of, ticked. simpl. rewrite !Hc. unfold take_item_done. event_fields.
  rewrite Hk. simpl. rewrite Hi. simpl. rewrite Nat2Z.id, Hl. simpl.
  rewrite (proj2 (Z.leb_le 0 (Z.of_nat index))), String.eqb_refl, (id_matches_test _ _ Hm), Hd by lia. done.
Qed.

(** An event about a part of an item finds the item. *)
Lemma named_item_found c event kind index item id :
  (v ← get event "output_index"; as_number v) = Some (Z.of_nat index) -> get_str event "item_id" = Some id ->
  cl_items c !! index = Some item -> ci_kind item = kind -> id_matches item id ->
  named_item c event kind = Some (index, item).
Proof.
  intros Ho Hid Hl <- Hm. unfold named_item. rewrite Ho. simpl. rewrite Nat2Z.id, Hl. simpl. rewrite Hid. simpl.
  by rewrite (proj2 (Z.leb_le 0 (Z.of_nat index))), String.eqb_refl, (id_matches_test _ _ Hm) by lia.
Qed.

Definition with_delta (item : ClientItem) (delta : string) : ClientItem :=
  {| item with ci_deltas := ci_deltas item +:+ delta; ci_late := ci_late item || is_some (ci_done item) |}.

Lemma step_text_delta c response_id id index item delta :
  listening c -> cl_items c !! index = Some item -> ci_kind item = "message" -> id_matches item id -> ci_done item = None ->
  client_step c (make_response_output_text_delta_event response_id id (Z.of_nat index) delta (next_number c)) =
  Some (put_item (ticked c) index (with_delta item delta)).
Proof.
  intros [Hc Ht] Hl Hk Hm Hd. rewrite (step_known _ _ "response.output_text.delta"); [|by event_fields..|done].
  unfold take_event_of, ticked. simpl. rewrite !Hc. unfold take_delta.
  rewrite (named_item_found _ _ _ index item id); [|by event_fields..|done|done|done]. event_fields. unfold with_delta. by rewrite Hd.
Qed.

Lemma step_reasoning_delta c response_id id index item delta :
  listening c -> cl_items c !! index = Some item -> ci_kind item = "reasoning" -> id_matches item id ->
  client_step c (make_reasoning_text_delta_event response_id id (Z.of_nat index) delta (next_number c)) =
  Some (put_item (ticked c) index (with_delta item delta)).
Proof.
  intros [Hc Ht] Hl Hk Hm. rewrite (step_known _ _ "response.reasoning_text.delta"); [|by event_fields..|done].
  unfold take_event_of, ticked. simpl. rewrite !Hc. unfold take_delta.
  rewrite (named_item_found _ _ _ index item id); [|by event_fields..|done|done|done]. event_fields.
  by rewrite andb_false_r.
Qed.

Lemma step_arguments_delta c response_id id index item delta :
  listening c -> cl_items c !! index = Some item -> ci_kind item = "function_call" -> id_matches item id ->
  ci_done item = None ->
  client_step c (make_response_function_call_arguments_delta_event response_id id (Z.of_nat index) delta (next_number c)) =
  Some (put_item (ticked c) index (with_delta item delta)).
Proof.
  intros [Hc Ht] Hl Hk Hm Hd. rewrite (step_known _ _ "response.function_call_arguments.delta"); [|by event_fields..|done].
  unfold take_event_of, ticked. simpl. rewrite !Hc. unfold take_delta.
  rewrite (named_item_found _ _ _ index item id); [|by event_fields..|done|done|done]. event_fields. unfold with_delta. by rewrite Hd.
Qed.

Lemma step_text_done c response_id id index item kind content :
  listening c -> cl_items c !! index = Some item -> ci_kind item = kind -> id_matches item id -> ci_done item = None ->
  ci_deltas item = content -> (kind = "message" \/ kind = "reasoning") ->
  client_step c
    (part_event (if String.eqb kind "message" then "response.output_text.done" else "response.reasoning_text.done")
       response_id id (Z.of_nat index) "text" content (next_number c)) = Some (ticked c).
Proof.
  intros [Hc Ht] Hl Hk Hm Hd <- Hcase. destruct Hcase as [->| ->]; simpl.
  1: rewrite (step_known _ _ "response.output_text.done"); [|by event_fields..|done].
  2: rewrite (step_known _ _ "response.reasoning_text.done"); [|by event_fields..|done].
  all: unfold take_event_of, ticked; simpl; rewrite !Hc; unfold take_text_done.
  all: rewrite (named_item_found _ _ _ index item id); [|by event_fields..|done|done|done]; event_fields.
  all: by rewrite Hd, String.eqb_refl.
Qed.

Lemma step_arguments_done c response_id id index item name arguments :
  listening c -> cl_items c !! index = Some item -> ci_kind item = "function_call" -> id_matches item id ->
  ci_done item = None ->
  client_step c (make_response_function_call_arguments_done_event response_id id (Z.of_nat index) name arguments
    (next_number c)) = Some (ticked c).
Proof.
  intros [Hc Ht] Hl Hk Hm Hd. rewrite (step_known _ _ "response.function_call_arguments.done"); [|by event_fields..|done].
  unfold take_event_of, ticked. simpl. rewrite !Hc. unfold take_arguments_done.
  rewrite (named_item_found _ _ _ index item id); [|by event_fields..|done|done|done]. event_fields. by rewrite Hd.
Qed.

Definition terminal_response (response_id : string) (created_at : Z) (model : string) (output : Value)
    (usage : option Value) (incomplete_reason : option string) : option Value :=
  get (make_response_terminal_event response_id created_at model output usage incomplete_reason 0) "response".

Lemma step_terminal c response_id created_at model output usage incomplete_reason :
  listening c ->
  client_step c (make_response_terminal_event response_id created_at model output usage incomplete_reason (next_number c)) =
  Some {| (ticked c) with cl_terminal := terminal_response response_id created_at model output usage incomplete_reason |}.
Proof.
  intros [Hc Ht]. unfold terminal_response, make_response_terminal_event.
  rewrite (step_known _ _ (if is_some incomplete_reason then "response.incomplete" else "response.completed"));
    [|by event_fields..|done].
  unfold take_event_of, ticked. destruct (is_some incomplete_reason); simpl; rewrite !Hc; unfold take_terminal; by event_fields.
Qed.

Lemma terminal_output response_id created_at model output usage incomplete_reason :
  (response ← terminal_response response_id created_at model output usage incomplete_reason; get response "output") =
  Some output.
Proof.
  unfold terminal_response, make_response_terminal_event. event_fields.
  destruct usage, incomplete_reason; rewrite ?map_get_insert; simpl; by rewrite map_get_json_fields.
Qed.

(** ** The translator and the client *)

(** The part of the translator that an item belongs to. *)
Inductive Owner :=
| OReasoning
| OText
| OCall (key : Z).

Definition present (self : ChatToResponsesState) (owner : Owner) : Prop :=
  match owner with
  | OReasoning => is_Some (tr_reasoning self)
  | OText => tr_text_item_added_emitted self = true
  | OCall key => is_Some (tr_tool_calls self !! key)
  end.

Definition reasoning_view (reasoning : ReasoningStreamState) (index : nat) (item : ClientItem) : Prop :=
  rs_started_emitted reasoning = true /\ rs_output_index reasoning = Z.of_nat index /\
  ci_kind item = "reasoning" /\ ci_id item = rs_item_id reasoning /\ ci_deltas item = rs_text reasoning /\
  (if rs_done_emitted reasoning
   then exists status content, rs_done_status reasoning = Some status /\
          ci_done item = Some (make_reasoning_item (rs_item_id reasoning) status (Some content)) /\
          (ci_late item = false -> content = rs_text reasoning)
   else ci_done item = None /\ ci_late item = false).

Definition call_view (strict : bool) (call : StreamToolCall) (index : nat) (item : ClientItem) : Prop :=
  st_added_emitted call = true /\ st_done_emitted call = false /\ st_output_index call = Z.of_nat index /\
  ci_kind item = "function_call" /\ id_matches item (st_item_id call) /\
  (st_client_delta_desynced call = false -> ci_deltas item = st_arguments call) /\
  (strict = false -> st_client_delta_desynced call = false) /\
  ci_done item = None /\ ci_late item = false.

Definition text_view (self : ChatToResponsesState) (index : nat) (item : ClientItem) : Prop :=
  tr_text_item_id self = Some (ci_id item) /\ tr_text_output_index self = Some (Z.of_nat index) /\
  ci_kind item = "message" /\ ci_deltas item = tr_text self /\ ci_done item = None /\ ci_late item = false.

Definition view (self : ChatToResponsesState) (owner : Owner) (index : nat) (item : ClientItem) : Prop :=
  match owner with
  | OReasoning => exists reasoning, tr_reasoning self = Some reasoning /\ reasoning_view reasoning index item
  | OText => text_view self index item
  | OCall key => exists call, tr_tool_calls self !! key = Some call /\
                   call_view (tr_tool_call_merge_strict self) call index item
  end.

Section Following.
  (** How the fragments of calls are merged, which the stream does not change. *)
  Variable merging : bool.

(** Both are before the terminal event and at the same point. *)
Record in_step (self : ChatToResponsesState) (c : Client) : Prop := {
  step_sequence : cl_sequence c = tr_sequence_number self;
  step_created_flag : cl_created c = tr_created_emitted self;
  step_open : cl_terminal c = None;
  step_running : tr_completed_emitted self = false;
  step_text_open : tr_text_item_done_emitted self = false;
  step_next : tr_next_output_index self = Z.of_nat (length (cl_items c));
  step_idle : cl_created c = false -> cl_items c = [];
  step_no_text : tr_text_item_added_emitted self = false -> tr_text_output_index self = None /\ tr_text self = "";
  step_strict : tr_tool_call_merge_strict self = merging
}.

(** The text and the reasoning so far. *)
Definition told (self : ChatToResponsesState) : string * string := (tr_text self, default "" (rs_text <$> tr_reasoning self)).

Record tracks (owners : list Owner) (self : ChatToResponsesState) (c : Client) : Prop := {
  tracks_step : in_step self c;
  tracks_NoDup : NoDup owners;
  tracks_length : length owners = length (cl_items c);
  tracks_present owner : owner ∈ owners <-> present self owner;
  tracks_view index owner item :
    owners !! index = Some owner -> cl_items c !! index = Some item -> view self owner index item
}.

(** The item of an owner. *)
Lemma tracks_item owners self c owner :
  tracks owners self c -> present self owner ->
  exists index item, owners !! index = Some owner /\ cl_items c !! index = Some item /\ view self owner index item.
Proof.
  intros Ht Hp. apply (tracks_present _ _ _ Ht) in Hp. apply list_elem_of_lookup in Hp as [index Hi].
  pose proof (lookup_lt_Some _ _ _ Hi) as Hl. rewrite (tracks_length _ _ _ Ht) in Hl.
  apply lookup_lt_is_Some in Hl as [item Hitem]. exists index, item. split_and!; [done..|]. by eapply tracks_view.
Qed.

(** The kind of the item of an owner. *)
Definition owner_kind (owner : Owner) : string :=
  match owner with OReasoning => "reasoning" | OText => "message" | OCall _ => "function_call" end.

Lemma item_owner owners self c j item :
  tracks owners self c -> cl_items c !! j = Some item ->
  exists owner, owners !! j = Some owner /\ present self owner /\ view self owner j item /\ ci_kind item = owner_kind owner.
Proof.
  intros Ht Hj. pose proof (lookup_lt_Some _ _ _ Hj) as Hl. rewrite <- (tracks_length _ _ _ Ht) in Hl.
  apply lookup_lt_is_Some in Hl as [owner Ho]. exists owner. pose proof (tracks_view _ _ _ Ht _ _ _ Ho Hj) as Hv.
  split_and!; [done| |done|].
  - apply (tracks_present _ _ _ Ht). by eapply list_elem_of_lookup_2.
  - destruct owner; [by destruct Hv as (? & _ & _ & _ & ? & _)|by destruct Hv as (_ & _ & ? & _)|
      by destruct Hv as (? & _ & _ & _ & _ & ? & _)].
Qed.

(** The text and the reasoning are each in one item. *)
Lemma tracks_deltas owners self c owner index item :
  tracks owners self c -> owner = OText \/ owner = OReasoning -> owners !! index = Some owner ->
  cl_items c !! index = Some item -> deltas_of (owner_kind owner) (cl_items c) = ci_deltas item.
Proof.
  intros Ht Hcase Ho Hi. apply (deltas_of_one _ _ index); [done| |].
  - destruct (item_owner _ _ _ _ _ Ht Hi) as (other & Ho' & _ & _ & ->). by simplify_eq.
  - intros j other Hj Hk. destruct (item_owner _ _ _ _ _ Ht Hj) as (owner' & Ho' & _ & _ & Hk'). rewrite Hk' in Hk.
    assert (owner' = owner) as -> by (destruct Hcase; subst; by destruct owner').
    eapply NoDup_lookup; [apply Ht|done|done].
Qed.

Lemma tracks_no_deltas owners self c owner :
  tracks owners self c -> owner = OText \/ owner = OReasoning -> ~ present self owner ->
  deltas_of (owner_kind owner) (cl_items c) = "".
Proof.
  intros Ht Hcase Hp. apply deltas_of_none. intros j item Hj. destruct (item_owner _ _ _ _ _ Ht Hj) as (other & _ & Hp' & _ & ->).
  intros Hk. assert (other = owner) as -> by (destruct Hcase; subst; by destruct other). done.
Qed.

(** The client heard what the translator was told. *)
Lemma tracks_heard owners self c : tracks owners self c -> heard c = told self.
Proof.
  intros Ht. unfold heard, told. f_equal.
  - destruct (tr_text_item_added_emitted self) eqn:Ha.
    + destruct (tracks_item _ _ _ OText Ht Ha) as (i & item & Ho & Hi & (_ & _ & _ & <- & _)).
      apply (tracks_deltas owners self c OText i); auto.
    + destruct (step_no_text _ _ (tracks_step _ _ _ Ht) Ha) as [_ ->].
      apply (tracks_no_deltas owners self c OText); [done|auto|]. simpl. by rewrite Ha.
  - destruct (tr_reasoning self) as [r|] eqn:Hr.
    + destruct (tracks_item _ _ _ OReasoning Ht) as (i & item & Ho & Hi & (r' & Hr' & Hv)); [simpl; rewrite Hr; by eexists|].
      rewrite Hr in Hr'. injection Hr' as <-. destruct Hv as (_ & _ & _ & _ & Hd & _).
      change (default "" (rs_text <$> Some r)) with (rs_text r). rewrite <- Hd. apply (tracks_deltas owners self c OReasoning i); auto.
    + apply (tracks_no_deltas owners self c OReasoning); [done|auto|]. simpl. rewrite Hr. by intros [].
Qed.

(** One item changes, with the part of the translator that it belongs to. *)
Lemma tracks_put owners self c self' c' index owner item :
  tracks owners self c -> owners !! index = Some owner -> in_step self' c' ->
  cl_items c' = <[index := item]> (cl_items c) ->
  (forall other, present self' other <-> present self other) ->
  (forall other j item, other <> owner -> view self other j item -> view self' other j item) ->
  view self' owner index item -> tracks owners self' c'.
Proof.
  intros [Hs Hn Hl Hp Hv] Ho Hs' Hi Hsame Hother Hview. split; [done|done|by rewrite Hi, length_insert|by intros; rewrite Hp, Hsame|].
  intros j other item' Hj. rewrite Hi. destruct (decide (index = j)) as [<-|Hne].
  - rewrite list_lookup_insert_eq by (apply lookup_lt_Some in Ho; lia). intros. by simplify_eq.
  - rewrite list_lookup_insert_ne by done. intros Hitem. apply Hother; [|by eapply Hv].
    intros ->. by eapply Hne, NoDup_lookup.
Qed.

(** A new item, with a new part of the translator. *)
Lemma tracks_append owners self c self' c' owner item :
  tracks owners self c -> ~ present self owner -> in_step self' c' ->
  cl_items c' = cl_items c ++ [item] ->
  (forall other, present self' other <-> other = owner \/ present self other) ->
  (forall other j item, other <> owner -> view self other j item -> view self' other j item) ->
  view self' owner (length (cl_items c)) item -> tracks (owners ++ [owner]) self' c'.
Proof.
  intros [Hs Hn Hl Hp Hv] Hnew Hs' Hi Hpresent Hother Hview. split.
  - done.
  - apply NoDup_app. split_and!; [done| |apply NoDup_singleton].
    intros other Hin Heq. apply list_elem_of_singleton in Heq as ->. by apply Hnew, Hp.
  - rewrite Hi, !length_app. simpl. lia.
  - intros other. rewrite elem_of_snoc, Hpresent, Hp. tauto.
  - intros j other item' Hj. rewrite Hi. apply lookup_snoc_Some in Hj as [[Hlt Hj]|[-> <-]].
    + rewrite lookup_app_l by lia. intros Hitem. apply Hother; [|by eapply Hv].
      intros ->. apply Hnew, Hp. by eapply list_elem_of_lookup_2.
    + rewrite Hl, lookup_app_r, Nat.sub_diag by lia. intros. by simplify_eq/=.
Qed.

(** What the views and the step depend on. *)
Definition progress (self : ChatToResponsesState) :=
  (tr_sequence_number self, tr_created_emitted self, tr_completed_emitted self, tr_next_output_index self,
   (tr_text_item_id self, tr_text_output_index self, tr_text_item_added_emitted self, tr_text_item_done_emitted self,
    tr_text self), tr_reasoning self, tr_tool_calls self, tr_tool_call_merge_strict self).

Lemma tracks_progress owners self self' c :
  progress self' = progress self -> tracks owners self c -> tracks owners self' c.
Proof.
  unfold progress. intros Hp [[] ? ? Hpr Hv]. simplify_eq.
  assert (Hv' : forall owner i item, view self owner i item -> view self' owner i item).
  { intros [] i item; simpl; unfold text_view;
      repeat match goal with H : ?f self' = ?f self |- _ => rewrite H end; done. }
  split; [|done|done| |by eauto].
  - by split; repeat match goal with H : ?f self' = ?f self |- _ => rewrite H end.
  - intros []; rewrite Hpr; simpl; repeat match goal with H : ?f self' = ?f self |- _ => rewrite H end; done.
Qed.

(** ** Simulation *)

(** The events fit in memory, so that no index saturates. *)
Definition room (c : Client) (more : list Value) : Prop :=
  Z.of_nat (length (cl_items c) + length more) <= usize_max.

Definition follows (self self' : ChatToResponsesState) (more : list Value) : Prop :=
  forall owners c, tracks owners self c -> room c more ->
    exists owners' c', client_replay c more = Some c' /\ tracks owners' self' c'.

(** What [f] emits, the client follows. *)
Definition simulates (f : Emitting -> Emitting) (self self' : ChatToResponsesState) : Prop :=
  exists more, (forall output, f (self, output) = (self', output ++ more)) /\ follows self self' more.

Lemma client_replay_items c events c' :
  client_replay c events = Some c' -> (length (cl_items c') <= length (cl_items c) + length events)%nat.
Proof.
  revert c. induction events as [|event events IH]; intros c; simpl; [intros; simplify_eq; lia|].
  destruct (client_step c event) as [c1|] eqn:Hs; simpl; [|done]. intros Hr. apply IH in Hr.
  apply client_step_items in Hs. lia.
Qed.

Lemma follows_refl self self' : progress self' = progress self -> follows self self' [].
Proof. intros Hp owners c Ht _. exists owners, c. split; [done|]. by eapply tracks_progress. Qed.

Lemma follows_trans self self1 self2 more1 more2 :
  follows self self1 more1 -> follows self1 self2 more2 -> follows self self2 (more1 ++ more2).
Proof.
  intros H1 H2 owners c Ht Hr. unfold room in Hr. rewrite length_app in Hr.
  destruct (H1 owners c Ht) as (owners1 & c1 & Hr1 & Ht1); [unfold room; lia|].
  pose proof (client_replay_items _ _ _ Hr1) as Hi.
  destruct (H2 owners1 c1 Ht1) as (owners2 & c2 & Hr2 & Ht2); [unfold room; lia|].
  exists owners2, c2. split; [|done]. by rewrite client_replay_app, Hr1.
Qed.

Lemma simulates_silent f self self' :
  (forall output, f (self, output) = (self', output)) -> progress self' = progress self -> simulates f self self'.
Proof. intros Hf Hp. exists []. split; [intros; by rewrite app_nil_r|by apply follows_refl]. Qed.

Lemma simulates_then f g self self1 self2 :
  simulates f self self1 -> simulates g self1 self2 -> simulates (fun emitting => g (f emitting)) self self2.
Proof.
  intros (more1 & Hf & H1) (more2 & Hg & H2). exists (more1 ++ more2). split; [|by eapply follows_trans].
  intros output. by rewrite Hf, Hg, app_assoc.
Qed.

Definition counted (self : ChatToResponsesState) : ChatToResponsesState :=
  {| self with tr_sequence_number := sat_add u64_max (tr_sequence_number self) 1 |}.

Definition own_number (self : ChatToResponsesState) : Z := sat_add u64_max (tr_sequence_number self) 1.

Lemma push_event_eq event self output :
  push_event event (self, output) = (counted self, output ++ [event (own_number self)]).
Proof. done. Qed.

Lemma tracks_number owners self c : tracks owners self c -> own_number self = next_number c.
Proof. intros [[Hs _ _ _ _ _ _ _ _] _ _ _ _]. unfold own_number, next_number. by rewrite Hs. Qed.

Lemma tracks_listening owners self c :
  tracks owners self c -> tr_created_emitted self = true -> listening c.
Proof. intros [[_ Hc Ho _ _ _ _ _ _] _ _ _ _] H. split; [congruence|done]. Qed.

(** Something was announced, so the stream was. *)
Lemma tracks_created owners self c owner :
  tracks owners self c -> present self owner -> tr_created_emitted self = true.
Proof.
  intros Ht Hp. destruct (tracks_item _ _ _ _ Ht Hp) as (i & item & _ & Hi & _).
  destruct Ht as [[_ Hc _ _ _ _ Hidle _ _] _ _ _ _]. destruct (tr_created_emitted self); [done|].
  by rewrite Hidle in Hi by done.
Qed.

(** One way to give the state and the events that a computation leads to. *)
Lemma simulates_intro f self self' more :
  (forall output, f (self, output) = (self', output ++ more)) -> follows self self' more -> simulates f self self'.
Proof. intros Hf Hm. by exists more. Qed.

Lemma emit_created_simulates draws self :
  exists self', simulates (emit_created draws) self self' /\ tr_created_emitted self' = true.
Proof.
  destruct (tr_created_emitted self) eqn:Hc.
  { exists self. split; [|done]. apply simulates_silent; [|done]. intros. unfold emit_created. by rewrite Hc. }
  eexists. split.
  { eapply simulates_intro; [intros output; unfold emit_created; rewrite Hc; simpl; reflexivity|].
    intros owners c Ht _. pose proof (tracks_number _ _ _ Ht) as Hn. unfold own_number in Hn. rewrite Hn.
    destruct Ht as [[Hs Hcr Ho Hr Htd Hnext Hidle Htext Hst] Hnd Hl Hp Hv]. exists owners. eexists. simpl.
    rewrite step_created by congruence. simpl. split; [done|]. split; [|done|done|done|by intros; eapply Hv]. by split. }
  done.
Qed.

(** The number of the next event, as the client computes it. *)
Ltac renumber :=
  match goal with
  | |- context [client_step ?c ?event] =>
      match event with
      | context [sat_add u64_max ?n 1] => change (sat_add u64_max n 1) with (next_number c)
      end
  end.

Lemma emit_reasoning_done_simulates draws self :
  exists self', simulates (emit_reasoning_done draws) self self' /\ tr_created_emitted self' = tr_created_emitted self.
Proof.
  destruct (tr_reasoning self) as [r|] eqn:Hreas.
  2: { exists self. split; [|done]. apply simulates_silent; [|done]. intros. unfold emit_reasoning_done. by rewrite Hreas. }
  destruct (rs_done_emitted r || negb (rs_started_emitted r)) eqn:Hd.
  { exists self. split; [|done]. apply simulates_silent; [|done]. intros. unfold emit_reasoning_done. by rewrite Hreas, Hd. }
  eexists. split.
  { eapply simulates_intro.
    { intros output. unfold emit_reasoning_done. rewrite Hreas, Hd. simpl. rewrite <- app_assoc. reflexivity. }
    intros owners c Ht _. pose proof (tracks_number _ _ _ Ht) as Hn. unfold own_number in Hn. simpl. rewrite Hn.
    assert (Hpresent : present self OReasoning) by (simpl; rewrite Hreas; by eexists).
    pose proof (tracks_listening _ _ _ Ht (tracks_created _ _ _ _ Ht Hpresent)) as Hlisten.
    destruct (tracks_item _ _ _ _ Ht Hpresent) as (i & item & Hoi & Hi & (r' & Hr & Hview)).
    rewrite Hreas in Hr. injection Hr as <-. bool_prop.
    destruct Hview as (Hstart & Hidx & Hkind & Hid & Hdeltas & Hopen). rewrite H in Hopen. destruct Hopen as [Hdone Hlate].
    rewrite Hidx. unfold make_reasoning_text_done_event.
    rewrite (step_text_done c _ _ i item "reasoning"); [|done|done|done|by right|done|done|by right]. simpl.
    renumber.
    rewrite (step_item_done _ _ i item _ "reasoning" (rs_item_id r)); [|done|done|done|done|done|by right|done]. simpl.
    exists owners. eexists. split; [done|].
    eapply tracks_put with (owner := OReasoning); [exact Ht|done| |done| | |].
    - destruct Ht as [[] _ _ _ _]. split; simpl; try done; [by rewrite length_insert|].
      intros Hc. by rewrite step_idle0.
    - intros []; simpl; [|done..]. rewrite Hreas. by split; intros; eexists.
    - by intros [].
    - simpl. eexists. split; [done|]. unfold reasoning_view. simpl. split_and!; try done. eauto 10. }
  done.
Qed.

Lemma with_delta_new kind id delta :
  with_delta {| ci_kind := kind; ci_id := id; ci_deltas := ""; ci_done := None; ci_late := false |} delta =
  {| ci_kind := kind; ci_id := id; ci_deltas := delta; ci_done := None; ci_late := false |}.
Proof. done. Qed.

Lemma room_allocates c more :
  room c more -> more <> [] -> sat_add usize_max (Z.of_nat (length (cl_items c))) 1 = Z.of_nat (S (length (cl_items c))).
Proof. unfold room, sat_add. destruct more; [done|]. simpl. lia. Qed.

Lemma insert_last {A} (l : list A) x y : <[length l := y]> (l ++ [x]) = l ++ [y].
Proof. by rewrite insert_app_r_alt, Nat.sub_diag by lia. Qed.

Lemma lookup_last {A} (l : list A) x : (l ++ [x]) !! length l = Some x.
Proof. by rewrite lookup_app_r, Nat.sub_diag by lia. Qed.

(** The deltas of reasoning, once the stream was announced. *)
Definition reasoning_part (draws : Draws) (reasoning_content : string) (emitting : Emitting) : Emitting :=
  let '(self, output) := emitting in
  let '(self, response_id) := response_id_value draws self in
  let '(self, reasoning) :=
    match tr_reasoning self with
    | Some reasoning => (self, reasoning)
    | None =>
        let '(self, output_index) := allocate_output_index self in
        (self, {| rs_item_id := "rs-" +:+ dr_reasoning draws; rs_output_index := output_index; rs_text := "";
                  rs_started_emitted := false; rs_done_emitted := false; rs_done_status := None |})
    end in
  let started_emitted := rs_started_emitted reasoning in
  let reasoning :=
    {| reasoning with rs_started_emitted := true; rs_text := rs_text reasoning +:+ reasoning_content |} in
  let self := {| self with tr_reasoning := Some reasoning |} in
  let '(self, output) :=
    if started_emitted then (self, output)
    else push_event (item_event "response.output_item.added" response_id (rs_output_index reasoning)
           (make_reasoning_item (rs_item_id reasoning) "in_progress" None)) (self, output) in
  push_event (make_reasoning_text_delta_event response_id (rs_item_id reasoning) (rs_output_index reasoning)
    reasoning_content) (self, output).

Lemma emit_reasoning_delta_eq draws content emitting :
  emit_reasoning_delta draws content emitting = reasoning_part draws content (emit_created draws emitting).
Proof. done. Qed.

Lemma reasoning_part_simulates draws content self :
  tr_created_emitted self = true -> exists self', simulates (reasoning_part draws content) self self'.
Proof.
  intros Hcreated. destruct (tr_reasoning self) as [r|] eqn:Hreas.
  - destruct (rs_started_emitted r) eqn:Hstarted.
    2: { eexists. eapply simulates_intro.
         { intros output. unfold reasoning_part. simpl. rewrite Hreas. simpl. rewrite Hstarted. simpl. rewrite <- app_assoc. reflexivity. }
         intros owners c Ht _.
         destruct (tracks_item _ _ _ OReasoning Ht) as (i & item & _ & _ & (r' & Hr & (Hs & _))); [simpl; by eexists|].
         congruence. }
    eexists. eapply simulates_intro.
    { intros output. unfold reasoning_part. simpl. rewrite Hreas. simpl. rewrite Hstarted. simpl. reflexivity. }
    intros owners c Ht _. pose proof (tracks_number _ _ _ Ht) as Hn. unfold own_number in Hn. simpl. rewrite Hn.
    assert (Hpresent : present self OReasoning) by (simpl; rewrite Hreas; by eexists).
    pose proof (tracks_listening _ _ _ Ht Hcreated) as Hlisten.
    destruct (tracks_item _ _ _ _ Ht Hpresent) as (i & item & Hoi & Hi & (r' & Hr & Hview)).
    rewrite Hreas in Hr. injection Hr as <-. destruct Hview as (Hstart & Hidx & Hkind & Hid & Hdeltas & Hopen).
    rewrite Hidx, (step_reasoning_delta c _ _ i item); [|done|done|done|by right]. simpl.
    exists owners. eexists. split; [done|].
    eapply tracks_put with (owner := OReasoning); [exact Ht|done| |done| | |].
    + destruct Ht as [[] _ _ _ _]. split; simpl; try done; [by rewrite length_insert|]. intros Hc. by rewrite step_idle0.
    + intros []; simpl; [|done..]. rewrite Hreas. by split; intros; eexists.
    + by intros [].
    + simpl. eexists. split; [done|]. unfold reasoning_view. simpl. split_and!; [done|done|done|done|by rewrite Hdeltas|].
      destruct (rs_done_emitted r); destruct Hopen as [? Hopen]; [|by rewrite H, Hopen].
      destruct Hopen as (done & Hst & Hdone & Hlate). eexists _, _. split_and!; [done|exact Hdone|].
      rewrite Hdone, orb_true_r. done.
  - eexists. eapply simulates_intro.
    { intros output. unfold reasoning_part. simpl. rewrite Hreas. simpl. rewrite <- app_assoc. reflexivity. }
    intros owners c Ht Hroom. pose proof (tracks_number _ _ _ Ht) as Hn. unfold own_number in Hn. simpl. rewrite Hn.
    pose proof (tracks_listening _ _ _ Ht Hcreated) as Hlisten.
    pose proof (step_next _ _ (tracks_step _ _ _ Ht)) as Hnext. rewrite Hnext.
    rewrite (step_added c _ _ _ "reasoning" ("rs-" +:+ dr_reasoning draws)); [|done|done|done|done]. simpl.
    renumber.
    rewrite step_reasoning_delta with (item := {| ci_kind := "reasoning"; ci_id := "rs-" +:+ dr_reasoning draws;
      ci_deltas := ""; ci_done := None; ci_late := false |}); [|by destruct Hlisten|apply lookup_last|done|by right].
    rewrite with_delta_new. simpl.
    exists (owners ++ [OReasoning]). eexists. split; [done|].
    eapply tracks_append; [exact Ht| | |by simpl; rewrite insert_last| | |].
    + simpl. rewrite Hreas. by intros [? ?].
    + destruct Ht as [[] _ _ _ _]. split; simpl; try done.
      * rewrite insert_last, length_app. simpl. rewrite (room_allocates _ _ Hroom) by done. lia.
      * destruct Hlisten. congruence.
    + intros []; simpl; [rewrite Hreas; split; [by left|by eexists]|by split; [right|intros [|]]..].
    + by intros [].
    + simpl. eexists. split; [done|]. unfold reasoning_view. by simpl.
Qed.

(** The deltas of text, once the stream was announced. *)
Definition text_part (draws : Draws) (content : string) (emitting : Emitting) : Emitting :=
  let '(self, output) := emitting in
  let '(self, response_id) := response_id_value draws self in
  let '((self, output), (text_item_id, output_index)) := ensure_text_item draws (self, output) in
  let self := {| self with tr_text := tr_text self +:+ content |} in
  push_event (make_response_output_text_delta_event response_id text_item_id output_index content) (self, output).

Lemma emit_text_delta_eq draws content emitting :
  emit_text_delta draws content emitting = text_part draws content (emit_reasoning_done draws (emit_created draws emitting)).
Proof. done. Qed.

Lemma text_known owners self c :
  tracks owners self c -> tr_text_item_added_emitted self = true ->
  exists index item, owners !! index = Some OText /\ cl_items c !! index = Some item /\ text_view self index item.
Proof. intros Ht Ha. by apply (tracks_item _ _ _ OText Ht). Qed.

Lemma text_part_simulates draws content self :
  tr_created_emitted self = true -> exists self', simulates (text_part draws content) self self'.
Proof.
  intros Hcreated. destruct (tr_text_item_added_emitted self) eqn:Hadded.
  - (* the item is known *)
    destruct (tr_text_output_index self) as [index|] eqn:Hindex.
    2: { eexists. eapply simulates_intro.
         { intros output. unfold text_part, ensure_text_item. simpl. rewrite Hindex. simpl. rewrite Hadded. simpl. reflexivity. }
         intros owners c Ht _. destruct (text_known _ _ _ Ht Hadded) as (i & item & _ & _ & (_ & Hx & _)). congruence. }
    eexists. eapply simulates_intro.
    { intros output. unfold text_part, ensure_text_item. simpl. rewrite Hindex. simpl. rewrite Hadded. simpl. reflexivity. }
    intros owners c Ht _. pose proof (tracks_number _ _ _ Ht) as Hn. unfold own_number in Hn. simpl. rewrite Hn.
    pose proof (tracks_listening _ _ _ Ht Hcreated) as Hlisten.
    destruct (text_known _ _ _ Ht Hadded) as (i & item & Hoi & Hi & (Hid & Hidx & Hkind & Hdeltas & Hdone & Hlate)).
    rewrite Hindex in Hidx. injection Hidx as ->. rewrite Hid. simpl.
    rewrite (step_text_delta c _ _ i item); [|done|done|done|by right|done]. simpl.
    exists owners. eexists. split; [done|].
    eapply tracks_put with (owner := OText); [exact Ht|done| |done| | |].
    + destruct Ht as [[] _ _ _ _]. split; simpl; try done; [by rewrite length_insert|intros Hc; by rewrite step_idle0].
    + by intros [].
    + by intros [].
    + simpl. unfold text_view. simpl. rewrite Hdeltas, Hdone, Hlate. by split_and!.
  - (* the item is announced *)
    destruct (tr_text_output_index self) as [index|] eqn:Hindex.
    { eexists. eapply simulates_intro.
      { intros output. unfold text_part, ensure_text_item. simpl. rewrite Hindex. simpl. rewrite Hadded. simpl. rewrite <- app_assoc. reflexivity. }
      intros owners c Ht _. destruct (tracks_step _ _ _ Ht) as []. destruct (step_no_text0 Hadded). congruence. }
    eexists. eapply simulates_intro.
    { intros output. unfold text_part, ensure_text_item. simpl. rewrite Hindex. simpl. rewrite Hadded. simpl. rewrite <- app_assoc. reflexivity. }
    intros owners c Ht Hroom. pose proof (tracks_number _ _ _ Ht) as Hn. unfold own_number in Hn. simpl. rewrite Hn.
    pose proof (tracks_listening _ _ _ Ht Hcreated) as Hlisten.
    set (item_id := default ("msg-" +:+ dr_text draws) (tr_text_item_id self)).
    pose proof (step_next _ _ (tracks_step _ _ _ Ht)) as Hnext. rewrite Hnext.
    destruct (step_no_text _ _ (tracks_step _ _ _ Ht) Hadded) as [_ Hempty]. rewrite Hempty.
    unfold make_response_output_item_added_message_event.
    rewrite (step_added c _ _ _ "message" item_id); [|done|done|done|done]. simpl. renumber.
    rewrite step_text_delta with (item := {| ci_kind := "message"; ci_id := item_id;
      ci_deltas := ""; ci_done := None; ci_late := false |}); [|by destruct Hlisten|apply lookup_last|done|by right|done].
    rewrite with_delta_new. simpl.
    exists (owners ++ [OText]). eexists. split; [done|].
    eapply tracks_append; [exact Ht| | |by simpl; rewrite insert_last| | |].
    + simpl. by rewrite Hadded.
    + destruct Ht as [[] _ _ _ _]. split; simpl; try done.
      * rewrite insert_last, length_app. simpl. rewrite (room_allocates _ _ Hroom) by done. lia.
      * destruct Hlisten. congruence.
    + intros []; simpl; [by split; [right|intros [|]]|rewrite Hadded; by split; [left|]|by split; [right|intros [|]]].
    + by intros [].
    + done.
Qed.

(** ** Fragments of calls *)

Lemma call_item_field item_id call_id name namespace arguments status key :
  key <> "namespace" ->
  get (make_response_function_call_item item_id call_id name namespace arguments status) key =
  last_field
    [("id", JString item_id); ("type", JString "function_call"); ("status", JString status);
     ("call_id", JString call_id); ("name", JString name); ("arguments", JString arguments)] key.
Proof.
  intros Hk. unfold make_response_function_call_item, insert_namespace, get.
  destruct namespace; rewrite ?map_get_insert, map_get_json_fields; [|done].
  by destruct (String.eqb_spec "namespace" key).
Qed.

Definition announces
    (added_event : ChatToResponsesState -> string -> string -> Z -> string -> string -> Z -> Value) : Prop :=
  forall self response_id item_id index call_id name n, exists item,
    added_event self response_id item_id index call_id name n = item_event "response.output_item.added" response_id index item n /\
    get_str item "type" = Some "function_call" /\ get_str item "id" = Some item_id.

Lemma added_announces : announces added_function_call_event.
Proof.
  intros self response_id item_id index call_id name n. unfold added_function_call_event.
  destruct (restored_tool_identity self name). eexists. split; [done|]. unfold get_str.
  by rewrite !call_item_field.
Qed.

Lemma made_announces : announces (fun _ => make_response_output_item_added_function_call_event).
Proof.
  intros self response_id item_id index call_id name n. eexists. split; [done|]. unfold get_str.
  by rewrite !call_item_field.
Qed.

Section CallFacts.
  Variable complete_json : string -> bool.

(** What a fragment does to the entry, as far as the client can tell. *)
Lemma merge_fragment_spec entry arguments strict merged delta :
  merge_fragment complete_json entry arguments strict = (merged, delta) ->
  (st_item_id merged = st_item_id entry /\ st_output_index merged = st_output_index entry /\
   st_added_emitted merged = st_added_emitted entry /\ st_done_emitted merged = st_done_emitted entry) /\
  ((delta = true /\ st_client_delta_desynced merged = false /\ st_client_delta_desynced entry = false /\
    st_arguments merged = st_arguments entry +:+ arguments) \/
   (delta = false /\ merged = entry /\ arguments = "") \/
   (delta = false /\ st_client_delta_desynced merged = true /\ (strict = false -> st_client_delta_desynced entry = true))).
Proof.
  unfold merge_fragment. destruct (str_is_empty arguments) eqn:He.
  { apply str_is_empty_true in He. intros. simplify_eq. split; [done|]. right. by left. }
  pose proof (merge_spec complete_json (st_arguments entry) arguments strict) as Hm.
  destruct (merge_tool_call_arguments _ _ _ _) as [text how].
  destruct Hm as [[-> ->]|(-> & -> & -> & _)]; simpl; intros; simplify_eq/=; (split; [done|]).
  - destruct (st_client_delta_desynced entry) eqn:Hd; [right; right|left]; by split_and!.
  - right. right. by split_and!.
Qed.

Lemma new_fragment entry arguments strict :
  st_arguments entry = "" -> st_client_delta_desynced entry = false ->
  merge_fragment complete_json entry arguments strict =
    ({| entry with st_arguments := arguments |}, negb (str_is_empty arguments)).
Proof.
  intros Ha Hd. unfold merge_fragment. destruct (str_is_empty arguments) eqn:He.
  - apply str_is_empty_true in He as ->. destruct entry. simpl in *. by subst.
  - unfold merge_tool_call_arguments. rewrite Ha. simpl. rewrite andb_false_r. simpl. by rewrite Hd.
Qed.

Lemma call_progress owners self c key call c' merged index item item' self' :
  tracks owners self c -> tr_tool_calls self !! key = Some call ->
  owners !! index = Some (OCall key) -> cl_items c !! index = Some item ->
  in_step self' c' -> cl_items c' = <[index := item']> (cl_items c) ->
  tr_tool_calls self' = <[key := merged]> (tr_tool_calls self) ->
  tr_tool_call_merge_strict self' = tr_tool_call_merge_strict self ->
  tr_reasoning self' = tr_reasoning self ->
  (tr_text_item_id self' = tr_text_item_id self /\ tr_text_output_index self' = tr_text_output_index self /\
   tr_text_item_added_emitted self' = tr_text_item_added_emitted self /\ tr_text self' = tr_text self) ->
  call_view (tr_tool_call_merge_strict self) merged index item' -> tracks owners self' c'.
Proof.
  intros Ht Hcall Ho Hi Hs Hitems Hcalls Hstrict Hr (Ht1 & Ht2 & Ht3 & Ht4) Hv.
  eapply tracks_put with (owner := OCall key); [exact Ht|done|done|done| | |].
  - intros []; simpl; rewrite ?Hr, ?Ht3, ?Hcalls; [done..|].
    destruct (decide (key0 = key)) as [->|?]; [rewrite lookup_insert_eq, Hcall; by split; intros; eexists|by rewrite lookup_insert_ne].
  - intros [] j it Hne; simpl; unfold text_view; rewrite ?Hr, ?Ht1, ?Ht2, ?Ht4, ?Hcalls, ?Hstrict; [done..|].
    rewrite lookup_insert_ne by congruence. done.
  - simpl. rewrite Hcalls, lookup_insert_eq, Hstrict. by eexists.
Qed.

Lemma known_fragment_simulates draws key call_id name arguments added_event self call :
  tr_created_emitted self = true -> tr_tool_calls self !! key = Some call -> st_added_emitted call = true ->
  exists self', simulates (emit_call_fragment complete_json draws key call_id name arguments added_event) self self' /\
    tr_created_emitted self' = true.
Proof.
  intros Hcreated Hcall Hadded.
  destruct (merge_fragment complete_json {| (complete_call call call_id name) with st_added_emitted := true |} arguments
    (tr_tool_call_merge_strict self)) as [merged delta] eqn:Hmerge.
  pose proof (merge_fragment_spec _ _ _ _ _ Hmerge) as [(Hm1 & Hm2 & Hm3 & Hm4) Hcase]. simpl in *.
  assert (Hviews : forall owners c, tracks owners self c -> exists i item,
    owners !! i = Some (OCall key) /\ cl_items c !! i = Some item /\ call_view (tr_tool_call_merge_strict self) call i item /\
    id_matches item (st_item_id merged)).
  { intros owners c Ht. destruct (tracks_item _ _ _ (OCall key) Ht) as (i & item & Ho & Hi & (call' & Hcall' & Hv));
      [by eexists|]. rewrite Hcall in Hcall'. injection Hcall' as <-. exists i, item. split_and!; [done..|].
    rewrite Hm1. destruct Hv as (_ & _ & _ & _ & Hid & _). destruct (str_is_empty (st_item_id call)) eqn:He; [|done].
    apply str_is_empty_true in He. left. destruct Hid as [?|Hid]; [done|]. by rewrite Hid. }
  destruct delta.
  - destruct Hcase as [(_ & Hd & Hd0 & Hargs)|[(? & _)|(? & _)]]; [|done..].
    eexists. split.
    { eapply simulates_intro.
      { intros output. unfold emit_call_fragment. simpl. rewrite Hcall. simpl. rewrite Hcall. simpl. rewrite Hadded, Hmerge. simpl. reflexivity. }
      intros owners c Ht _. pose proof (tracks_number _ _ _ Ht) as Hn. unfold own_number in Hn. simpl. rewrite Hn.
      pose proof (tracks_listening _ _ _ Ht Hcreated) as Hlisten.
      destruct (Hviews _ _ Ht) as (i & item & Ho & Hi & Hv & Hid).
      destruct Hv as (Hv1 & Hv2 & Hv3 & Hv4 & Hv5 & Hv6 & Hv7 & Hv8 & Hv9). rewrite Hv3, <- Hm1.
      rewrite (step_arguments_delta c _ _ i item); [|done..]. simpl.
      exists owners. eexists. split; [done|].
      eapply call_progress with (item' := with_delta item arguments) (merged := merged); [exact Ht|done|done|done| |done..|].
      - destruct Ht as [[] _ _ _ _]. split; simpl; try done; [by rewrite length_insert|intros Hc; by rewrite step_idle0].
      - unfold call_view, with_delta. simpl. rewrite Hm2, Hm3, Hm4, Hv8, Hv9. split_and!; try done.
        intros _. by rewrite Hargs, Hv6. }
    done.
  - destruct Hcase as [(? & _)|Hcase]; [done|].
    eexists. split.
    { eapply simulates_intro with (more := []).
      { intros output. unfold emit_call_fragment. simpl. rewrite Hcall. simpl. rewrite Hcall. simpl. rewrite Hadded, Hmerge. simpl.
        rewrite app_nil_r. reflexivity. }
      intros owners c Ht _. destruct (Hviews _ _ Ht) as (i & item & Ho & Hi & Hv & Hid).
      destruct Hv as (Hv1 & Hv2 & Hv3 & Hv4 & Hv5 & Hv6 & Hv7 & Hv8 & Hv9).
      exists owners, c. split; [done|].
      eapply call_progress with (item' := item) (merged := merged); [exact Ht|done|done|done| |by rewrite list_insert_id|done..|].
      - by destruct Ht as [[] _ _ _ _].
      - unfold call_view. rewrite Hm2, Hm3, Hm4. simpl. split_and!; try done.
        + destruct Hcase as [(_ & -> & _)|(_ & Hd & _)]; [done|congruence].
        + intros Hs. destruct Hcase as [(_ & -> & _)|(_ & Hd & Hx)]; [by apply Hv7|]. rewrite (Hv7 Hs) in Hx. by specialize (Hx Hs). }
    done.
Qed.

Definition bare_call (call_id : string) (index : Z) (name : option string) (arguments : string) : StreamToolCall :=
  {| st_item_id := call_id; st_call_id := call_id; st_output_index := index; st_name := name;
     st_arguments := arguments; st_added_emitted := true; st_done_emitted := false; st_client_delta_desynced := false |}.

Lemma complete_new_call call_id index name :
  complete_call (new_call call_id index name) call_id name = new_call call_id index name.
Proof. unfold complete_call. simpl. destruct (str_is_empty call_id), name; done. Qed.

(** The state and the events of a fragment that opens a call. *)
Definition opened (draws : Draws) (key : Z) (call_id : string) (name : option string) (arguments : string)
    (self : ChatToResponsesState) : ChatToResponsesState :=
  {| self with
     tr_response_id := Some (default (gateway_response_id draws) (tr_response_id self));
     tr_next_output_index := sat_add usize_max (tr_next_output_index self) 1;
     tr_tool_calls := <[key := bare_call call_id (tr_next_output_index self) name arguments]> (tr_tool_calls self) |}.

Definition opening_delta (response_id call_id arguments : string) (index n : Z) : list Value :=
  if str_is_empty arguments then []
  else [make_response_function_call_arguments_delta_event response_id call_id index arguments n].

Lemma new_fragment_eq draws key call_id name arguments added_event self output :
  tr_tool_calls self !! key = None ->
  let self' := opened draws key call_id name arguments self in
  let response_id := default (gateway_response_id draws) (tr_response_id self) in
  emit_call_fragment complete_json draws key call_id name arguments added_event (self, output) =
    (if str_is_empty arguments then counted self' else counted (counted self'),
     output ++ added_event self' response_id call_id (tr_next_output_index self) call_id (default "" name) (own_number self) ::
       opening_delta response_id call_id arguments (tr_next_output_index self) (own_number (counted self))).
Proof.
  intros Hnone. unfold emit_call_fragment, response_id_value, allocate_output_index, opening_delta. cbv beta iota zeta.
  cbn [tr_tool_calls]. rewrite Hnone. cbv beta iota zeta. cbn [tr_tool_calls]. rewrite Hnone. cbn [default].
  rewrite complete_new_call, new_fragment by done. simpl.
  by destruct (str_is_empty arguments); simpl; rewrite <- ?app_assoc.
Qed.

Lemma opening_replay c response_id call_id index item arguments :
  listening c -> index = Z.of_nat (length (cl_items c)) ->
  get_str item "type" = Some "function_call" -> get_str item "id" = Some call_id ->
  exists c', client_replay c (item_event "response.output_item.added" response_id index item (next_number c) ::
      opening_delta response_id call_id arguments index (sat_add u64_max (next_number c) 1)) = Some c' /\
    cl_items c' = cl_items c ++ [{| ci_kind := "function_call"; ci_id := call_id; ci_deltas := arguments;
                                    ci_done := None; ci_late := false |}] /\
    cl_created c' = true /\ cl_terminal c' = None /\
    cl_sequence c' = (if str_is_empty arguments then next_number c else sat_add u64_max (next_number c) 1).
Proof.
  intros [Hc Ht] -> Hk Hid. cbn [client_replay]. rewrite (step_added c _ _ _ "function_call" call_id) by done. simpl.
  unfold opening_delta. destruct (str_is_empty arguments) eqn:He; simpl.
  - apply str_is_empty_true in He as ->. eexists. by split_and!.
  - renumber.
    rewrite step_arguments_delta with (item := {| ci_kind := "function_call"; ci_id := call_id;
      ci_deltas := ""; ci_done := None; ci_late := false |}); [|done|apply lookup_last|done|by right|done].
    rewrite with_delta_new. simpl. eexists. split; [done|]. simpl. rewrite insert_last. by split_and!.
Qed.

(** Counting changes the number only. *)
Definition settled (arguments : string) (self : ChatToResponsesState) : ChatToResponsesState :=
  if str_is_empty arguments then counted self else counted (counted self).

Lemma settled_rest arguments self :
  tr_created_emitted (settled arguments self) = tr_created_emitted self /\
   tr_completed_emitted (settled arguments self) = tr_completed_emitted self /\
   tr_text_item_id (settled arguments self) = tr_text_item_id self /\
   tr_text_output_index (settled arguments self) = tr_text_output_index self /\
   tr_text_item_added_emitted (settled arguments self) = tr_text_item_added_emitted self /\
   tr_text_item_done_emitted (settled arguments self) = tr_text_item_done_emitted self /\
   tr_text (settled arguments self) = tr_text self /\ tr_reasoning (settled arguments self) = tr_reasoning self /\
   tr_tool_calls (settled arguments self) = tr_tool_calls self /\
   tr_tool_call_merge_strict (settled arguments self) = tr_tool_call_merge_strict self /\
   tr_next_output_index (settled arguments self) = tr_next_output_index self /\
   tr_sequence_number (settled arguments self) =
    (if str_is_empty arguments then own_number self else sat_add u64_max (own_number self) 1).
Proof. unfold settled. by destruct (str_is_empty arguments). Qed.

Lemma new_fragment_simulates draws key call_id name arguments added_event self :
  announces added_event -> tr_created_emitted self = true -> tr_tool_calls self !! key = None ->
  exists self', simulates (emit_call_fragment complete_json draws key call_id name arguments added_event) self self' /\
    tr_created_emitted self' = true.
Proof.
  intros Hann Hcreated Hnone. set (self1 := opened draws key call_id name arguments self).
  exists (settled arguments self1).
  destruct (settled_rest arguments self1) as (R1 & R2 & R3 & R4 & R5 & R6 & R7 & R8 & R9 & R10 & R11 & R12).
  split; [|by rewrite R1].
  eapply simulates_intro; [intros output; rewrite new_fragment_eq by done; reflexivity|].
  intros owners c Ht Hroom. pose proof (tracks_number _ _ _ Ht) as Hn.
  pose proof (tracks_listening _ _ _ Ht Hcreated) as Hlisten.
  pose proof (step_next _ _ (tracks_step _ _ _ Ht)) as Hnext.
  assert (Hindex : sat_add usize_max (tr_next_output_index self) 1 = Z.of_nat (S (length (cl_items c))))
    by (rewrite Hnext; by eapply room_allocates).
  destruct (Hann self1 (default (gateway_response_id draws) (tr_response_id self)) call_id (tr_next_output_index self)
    call_id (default "" name) (own_number self)) as (item & Hev & Hk & Hid).
  fold self1. rewrite Hev. change (own_number (counted self)) with (sat_add u64_max (own_number self) 1). rewrite Hn.
  destruct (opening_replay c (default (gateway_response_id draws) (tr_response_id self)) call_id (tr_next_output_index self)
    item arguments Hlisten Hnext Hk Hid) as (c' & Hreplay & Hitems & Hcr & Hterm & Hseq).
  exists (owners ++ [OCall key]), c'. split; [exact Hreplay|].
  eapply tracks_append; [exact Ht| | |exact Hitems| | |].
  - simpl. rewrite Hnone. by intros [? ?].
  - destruct Ht as [[] _ _ _ _]. split; rewrite ?R1, ?R2, ?R4, ?R5, ?R6, ?R7, ?R10, ?R11, ?R12; try done.
    + rewrite Hseq. change (own_number self1) with (own_number self). by rewrite Hn.
    + by rewrite Hcr.
    + simpl. rewrite Hindex, Hitems, length_app. simpl. lia.
    + congruence.
  - intros []; simpl; rewrite ?R5, ?R8, ?R9; simpl; [by split; [right|intros [|]]..|].
    destruct (decide (key0 = key)) as [->|?]; [rewrite lookup_insert_eq; split; [by left|by eexists]|].
    rewrite lookup_insert_ne by done. split; [by right|]. intros [[=]|]; done.
  - intros [] j it Hne; simpl; unfold text_view; rewrite ?R3, ?R4, ?R7, ?R8, ?R9, ?R10; simpl; [done..|].
    rewrite lookup_insert_ne by congruence. done.
  - simpl. rewrite R9, R10. simpl. rewrite lookup_insert_eq. eexists. split; [done|].
    unfold call_view. simpl. split_and!; try done. by right.
Qed.

End CallFacts.

(** ** Whole deltas *)

Section Deltas.
  Variable complete_json : string -> bool.
  Variable print_json : Value -> string.
  Variable json_stream : string -> list (option Value).

Lemma call_fragment_simulates draws key call_id name arguments added_event self :
  announces added_event -> tr_created_emitted self = true ->
  exists self', simulates (emit_call_fragment complete_json draws key call_id name arguments added_event) self self' /\
    tr_created_emitted self' = true.
Proof.
  intros Hann Hcreated. destruct (tr_tool_calls self !! key) as [call|] eqn:Hcall; [|by apply new_fragment_simulates].
  destruct (st_added_emitted call) eqn:Hadded; [by eapply known_fragment_simulates|].
  destruct (merge_fragment complete_json {| (complete_call call call_id name) with st_added_emitted := true |} arguments
    (tr_tool_call_merge_strict self)) as [merged delta] eqn:Hmerge.
  simpl in Hmerge. eexists. split.
  { eapply simulates_intro.
    { intros output. unfold emit_call_fragment. simpl. rewrite Hcall. simpl. rewrite Hcall. simpl. rewrite Hadded, Hmerge. simpl.
      instantiate (1 := (if delta then [_; _] else [_])). instantiate (4 := (if delta then _ else _)).
      destruct delta; [rewrite <- app_assoc|]; reflexivity. }
    intros owners c Ht _. destruct (tracks_item _ _ _ (OCall key) Ht) as (i & item & _ & _ & (call' & Hc & (Ha & _)));
      [by eexists|]. congruence. }
  by destruct delta.
Qed.

(** A computation fails, or the client follows it. *)
Definition outcome (f : Emitting -> ChatToResponsesState * result (list Value) ProtocolError) (self : ChatToResponsesState)
    : Prop :=
  (exists self' error, forall output, f (self, output) = (self', Err error)) \/
  (exists self' more, (forall output, f (self, output) = (self', Ok (output ++ more))) /\ follows self self' more).

Lemma outcome_after f g self self1 :
  simulates f self self1 -> outcome g self1 -> outcome (fun emitting => g (f emitting)) self.
Proof.
  intros (more1 & Hf & H1) [(self2 & error & Hg)|(self2 & more2 & Hg & H2)].
  - left. exists self2, error. intros output. by rewrite Hf, Hg.
  - right. exists self2, (more1 ++ more2). split; [|by eapply follows_trans].
    intros output. by rewrite Hf, Hg, app_assoc.
Qed.

Lemma outcome_done self : outcome (fun '(self, output) => (self, Ok output)) self.
Proof. right. exists self, []. split; [intros; by rewrite app_nil_r|by apply follows_refl]. Qed.

Lemma outcome_bind f g self :
  outcome f self -> (forall self', outcome g self') ->
  outcome (fun emitting => match f emitting with (self, Err error) => (self, Err error) | (self, Ok output) => g (self, output) end) self.
Proof.
  intros [(self1 & error & Hf)|(self1 & more1 & Hf & H1)] Hg.
  - left. exists self1, error. intros output. by rewrite Hf.
  - destruct (Hg self1) as [(self2 & error & Hg2)|(self2 & more2 & Hg2 & H2)].
    + left. exists self2, error. intros output. by rewrite Hf, Hg2.
    + right. exists self2, (more1 ++ more2). split; [|by eapply follows_trans].
      intros output. by rewrite Hf, Hg2, app_assoc.
Qed.

Lemma outcome_simulates f self self' : simulates f self self' -> outcome (fun emitting => let '(self, output) := f emitting in (self, Ok output)) self.
Proof. intros (more & Hf & H). right. exists self', more. split; [|done]. intros output. by rewrite Hf. Qed.

Lemma tool_call_outcome draws tool_call fallback_index self :
  tr_created_emitted self = true -> outcome (emit_chat_tool_call_delta complete_json draws tool_call fallback_index) self.
Proof.
  intros Hc. unfold emit_chat_tool_call_delta. destruct (as_object tool_call) as [object|]; [|left; by eexists _, _].
  destruct (extract_tool_call_details object) as [[name arguments]|]; [|apply outcome_done].
  destruct (call_fragment_simulates draws
    (call_key self object (Z.of_nat fallback_index) (v ← or_else (map_get object "id") (map_get object "call_id"); as_str v) name)
    (default ("gw-call-" +:+ dr_call draws fallback_index) (v ← or_else (map_get object "id") (map_get object "call_id"); as_str v))
    name arguments added_function_call_event self added_announces Hc) as (self' & (more & Hf & H) & _).
  right. exists self', more. split; [|done]. intros output. by rewrite Hf.
Qed.

Lemma function_call_outcome draws function_call self :
  tr_created_emitted self = true -> outcome (emit_chat_function_call_delta complete_json print_json draws function_call) self.
Proof.
  intros Hc. unfold emit_chat_function_call_delta.
  match goal with |- outcome (fun '(self, output) => match ?r with _ => _ end) _ => destruct r as [[[call_id name] arguments]|error] end;
    [|left; by eexists _, _].
  destruct (call_fragment_simulates draws 0 call_id (Some name) arguments
    (fun _ => make_response_output_item_added_function_call_event) self made_announces Hc) as (self' & (more & Hf & H) & _).
  right. exists self', more. split; [|done]. intros output. by rewrite Hf.
Qed.

(** Announcing the stream and closing the reasoning comes first. *)
Lemma prepared draws self :
  exists self', simulates (fun emitting => emit_reasoning_done draws (emit_created draws emitting)) self self' /\
    tr_created_emitted self' = true.
Proof.
  destruct (emit_created_simulates draws self) as (self1 & H1 & Hc1).
  destruct (emit_reasoning_done_simulates draws self1) as (self2 & H2 & Hc2).
  exists self2. split; [by eapply simulates_then|congruence].
Qed.

Lemma outcome_ext f g self :
  (forall output, f (self, output) = g (self, output)) -> outcome g self -> outcome f self.
Proof.
  intros Hfg [(self1 & error & Hg)|(self1 & more1 & Hg & H1)].
  - left. exists self1, error. intros output. by rewrite Hfg.
  - right. exists self1, more1. split; [|done]. intros output. by rewrite Hfg.
Qed.

Lemma tool_calls_outcome draws tool_calls fallback_index self :
  outcome (translate_tool_calls complete_json draws fallback_index tool_calls) self.
Proof.
  revert fallback_index self. induction tool_calls as [|tool_call tool_calls IH]; intros fallback_index self; [apply outcome_done|].
  destruct (prepared draws self) as (self1 & H1 & Hc1).
  apply (outcome_bind (fun emitting => emit_chat_tool_call_delta complete_json draws tool_call fallback_index
    (emit_reasoning_done draws (emit_created draws emitting))) (translate_tool_calls complete_json draws (S fallback_index) tool_calls));
    [|intros; apply IH].
  apply (outcome_after (fun emitting => emit_reasoning_done draws (emit_created draws emitting)) _ _ self1); [done|].
  by apply tool_call_outcome.
Qed.

Lemma reasoning_delta_simulates draws content self : exists self', simulates (emit_reasoning_delta draws content) self self'.
Proof.
  destruct (emit_created_simulates draws self) as (self1 & H1 & Hc1).
  destruct (reasoning_part_simulates draws content self1 Hc1) as (self2 & H2). exists self2.
  exact (simulates_then (emit_created draws) (reasoning_part draws content) _ _ _ H1 H2).
Qed.

Lemma text_delta_simulates draws content self : exists self', simulates (emit_text_delta draws content) self self'.
Proof.
  destruct (prepared draws self) as (self1 & H1 & Hc1).
  destruct (text_part_simulates draws content self1 Hc1) as (self2 & H2). exists self2.
  exact (simulates_then _ (text_part draws content) _ _ _ H1 H2).
Qed.

Lemma simulates_if (test : bool) f self :
  (exists self', simulates f self self') -> exists self', simulates (fun emitting => if test then emitting else f emitting) self self'.
Proof. destruct test; [|done]. intros _. exists self. by apply simulates_silent. Qed.

(** The parts of a delta, one after the other. *)
Definition reasoning_step (draws : Draws) (delta : Value) (emitting : Emitting) : Emitting :=
  let reasoning := default "" (get_str delta "reasoning_content") in
  if str_is_empty reasoning then emitting else emit_reasoning_delta draws reasoning emitting.

Definition text_step (draws : Draws) (content : string) (emitting : Emitting) : Emitting :=
  if str_is_empty content then emitting else emit_text_delta draws content emitting.

Definition function_call_step (draws : Draws) (delta : Value) (emitting : Emitting)
    : ChatToResponsesState * result (list Value) ProtocolError :=
  match get delta "function_call" with
  | Some function_call =>
      emit_chat_function_call_delta complete_json print_json draws function_call
        (emit_reasoning_done draws (emit_created draws emitting))
  | None => let '(self, output) := emitting in (self, Ok output)
  end.

Definition role_step (draws : Draws) (delta : Value) (emitting : Emitting) : Emitting :=
  if negb (is_some (get_str delta "role")) then emitting else emit_created draws emitting.

Definition calls_step (draws : Draws) (delta : Value) (emitting : Emitting)
    : ChatToResponsesState * result (list Value) ProtocolError :=
  match translate_tool_calls complete_json draws 0 (default [] (get_array delta "tool_calls")) emitting with
  | (self, Err error) => (self, Err error)
  | (self, Ok output) =>
      match function_call_step draws delta (self, output) with
      | (self, Err error) => (self, Err error)
      | (self, Ok output) => let '(self, output) := role_step draws delta (self, output) in (self, Ok output)
      end
  end.

Definition delta_content (delta : Value) : result string ProtocolError :=
  match get_non_null delta "content" with Some content => content_to_plain_text content | None => Ok "" end.

Definition delta_parts (draws : Draws) (delta : Value) (emitting : Emitting)
    : ChatToResponsesState * result (list Value) ProtocolError :=
  match delta_content delta with
  | Err error => ((reasoning_step draws delta emitting).1, Err error)
  | Ok content => calls_step draws delta (text_step draws content (reasoning_step draws delta emitting))
  end.

Lemma translate_delta_eq draws delta self :
  translate_delta complete_json print_json draws delta self = delta_parts draws delta (self, []).
Proof.
  unfold translate_delta, delta_parts. fold (delta_content delta).
  assert (Hr : (match get_str delta "reasoning_content" with
                | Some reasoning_content =>
                    if str_is_empty reasoning_content then (self, []) else emit_reasoning_delta draws reasoning_content (self, [])
                | None => (self, [])
                end) = reasoning_step draws delta (self, [])).
  { unfold reasoning_step. by destruct (get_str delta "reasoning_content"). }
  rewrite Hr.
  destruct (reasoning_step draws delta (self, [])) as [self1 output1]. destruct (delta_content delta) as [content|]; [|done].
  unfold text_step. destruct (if str_is_empty content then _ else _) as [self2 output2].
  unfold calls_step. destruct (translate_tool_calls _ _ _ _ _) as [self3 [output3|]]; [|done].
  unfold function_call_step.
  destruct (match get delta "function_call" with Some _ => _ | None => _ end) as [self4 [output4|]]; [|done].
  unfold role_step. by destruct (is_some (get_str delta "role")).
Qed.

Lemma calls_outcome draws delta self : outcome (calls_step draws delta) self.
Proof.
  apply (outcome_bind (translate_tool_calls complete_json draws 0 (default [] (get_array delta "tool_calls")))
    (fun emitting => match function_call_step draws delta emitting with
      | (self, Err error) => (self, Err error)
      | (self, Ok output) => let '(self, output) := role_step draws delta (self, output) in (self, Ok output)
      end)); [apply tool_calls_outcome|]. clear self. intros self.
  apply (outcome_bind (function_call_step draws delta)
    (fun emitting => let '(self, output) := role_step draws delta emitting in (self, Ok output))).
  - unfold function_call_step. destruct (get delta "function_call") as [function_call|]; [|apply outcome_done].
    destruct (prepared draws self) as (self1 & H1 & Hc1).
    apply (outcome_after (fun emitting => emit_reasoning_done draws (emit_created draws emitting)) _ _ self1); [done|].
    by apply function_call_outcome.
  - clear self. intros self. destruct (simulates_if (negb (is_some (get_str delta "role"))) (emit_created draws) self) as (self1 & H1).
    { destruct (emit_created_simulates draws self) as (self1 & H1 & _). by exists self1. }
    by apply (outcome_simulates (role_step draws delta) self self1).
Qed.

Lemma delta_outcome draws delta self : outcome (delta_parts draws delta) self.
Proof.
  unfold delta_parts.
  assert (H1 : exists self1, simulates (reasoning_step draws delta) self self1)
    by (apply simulates_if, reasoning_delta_simulates).
  destruct H1 as (self1 & H1). destruct (delta_content delta) as [content|error].
  - assert (H2 : exists self2, simulates (text_step draws content) self1 self2)
      by (apply simulates_if, text_delta_simulates).
    destruct H2 as (self2 & H2).
    apply (outcome_after (fun emitting => text_step draws content (reasoning_step draws delta emitting)) _ _ self2);
      [|apply calls_outcome].
    by apply (simulates_then (reasoning_step draws delta) (text_step draws content) _ self1).
  - left. destruct H1 as (more & Hf & _). exists self1, error. intros output. by rewrite Hf.
Qed.

End Deltas.

(** ** The end of the stream *)

Section Finish.
  Variable print_json : Value -> string.
  Variable json_stream : string -> list (option Value).

Notation done_call_item := (done_call_item print_json json_stream).
Notation emit_one_call_done := (emit_one_call_done print_json json_stream).
Notation completed_output_items := (completed_output_items print_json json_stream).

(** The place and the final item of a part of the translator. *)
Definition final_entry (self : ChatToResponsesState) (owner : Owner) : Z * Value :=
  let status := terminal_item_status self in
  match owner with
  | OReasoning =>
      match tr_reasoning self with
      | Some reasoning =>
          (rs_output_index reasoning,
           make_reasoning_item (rs_item_id reasoning) (default status (rs_done_status reasoning)) (Some (rs_text reasoning)))
      | None => (0, JNull)
      end
  | OText =>
      (default 0 (tr_text_output_index self),
       make_response_message_item (default "" (tr_text_item_id self)) status (Some (tr_text self)))
  | OCall key =>
      match tr_tool_calls self !! key with
      | Some call => (st_output_index call, done_call_item self call status)
      | None => (0, JNull)
      end
  end.

Definition closing_parts (self : ChatToResponsesState) : list Owner :=
  (if tr_text_item_added_emitted self then [OText] else []) ++ (OCall <$> (ordered_entries (tr_tool_calls self)).*1).

Definition parts (self : ChatToResponsesState) : list Owner :=
  (if default false (rs_started_emitted <$> tr_reasoning self) then [OReasoning] else []) ++ closing_parts self.

Lemma call_entries_eq self status (f : StreamToolCall -> Z * Value) :
  (forall key call, tr_tool_calls self !! key = Some call -> f call = (st_output_index call, done_call_item self call status)) ->
  status = terminal_item_status self ->
  f <$> (ordered_entries (tr_tool_calls self)).*2 = final_entry self <$> (OCall <$> (ordered_entries (tr_tool_calls self)).*1).
Proof.
  intros Hf ->. rewrite <- !list_fmap_compose. apply list_fmap_ext. intros i [key call] Hi. simpl.
  apply list_elem_of_lookup_2, ordered_entries_elem in Hi. by rewrite (Hf key call Hi), Hi.
Qed.

Lemma completed_parts self :
  completed_output_items self = snd <$> sort_by (fun a b => a.1 <=? b.1) (final_entry self <$> parts self).
Proof.
  unfold ChatToResponses.completed_output_items, parts, closing_parts. rewrite !fmap_app.
  rewrite <- (call_entries_eq self (terminal_item_status self)
    (fun call => (st_output_index call, done_call_item self call (terminal_item_status self)))) by done.
  destruct (tr_reasoning self) as [r|] eqn:Hr; simpl; [destruct (rs_started_emitted r)|];
    destruct (tr_text_item_added_emitted self); simpl; by rewrite ?Hr.
Qed.

Lemma ordered_keys_NoDup {V} (m : gmap Z V) : NoDup (ordered_entries m).*1.
Proof. unfold ordered_entries. rewrite sort_by_perm. apply NoDup_fst_map_to_list. Qed.

Lemma ordered_keys_elem {V} (m : gmap Z V) key : key ∈ (ordered_entries m).*1 <-> is_Some (m !! key).
Proof.
  rewrite list_elem_of_fmap. split.
  - intros ([k v] & -> & H). apply ordered_entries_elem in H. by eexists.
  - intros [v H]. exists (key, v). split; [done|]. by apply ordered_entries_elem.
Qed.

Lemma closing_parts_NoDup self : NoDup (closing_parts self).
Proof.
  unfold closing_parts. apply NoDup_app. split_and!.
  - destruct (tr_text_item_added_emitted self); [apply NoDup_singleton|constructor].
  - intros owner Ho Hc. apply list_elem_of_fmap in Hc as (k & -> & _).
    by destruct (tr_text_item_added_emitted self); [apply list_elem_of_singleton in Ho|apply elem_of_nil in Ho].
  - apply NoDup_fmap_2; [by intros ?? [=]|apply ordered_keys_NoDup].
Qed.

Lemma closing_parts_elem self owner : owner ∈ closing_parts self <-> owner <> OReasoning /\ present self owner.
Proof.
  unfold closing_parts. rewrite elem_of_app, list_elem_of_fmap. destruct owner as [| |key]; simpl.
  - split; [|by intros []]. intros [H|(? & [=] & _)].
    by destruct (tr_text_item_added_emitted self); [apply list_elem_of_singleton in H|apply elem_of_nil in H].
  - destruct (tr_text_item_added_emitted self); [by split; [|left; apply list_elem_of_singleton]|].
    split; [by intros [?%elem_of_nil|(? & [=] & _)]|by intros [_ ?]].
  - split.
    + intros [H|(k & [= ->] & H)]; [|by apply ordered_keys_elem in H].
      by destruct (tr_text_item_added_emitted self); [apply list_elem_of_singleton in H|apply elem_of_nil in H].
    + intros [_ H]. right. exists key. split; [done|]. by apply ordered_keys_elem.
Qed.

Lemma parts_NoDup self : NoDup (parts self).
Proof.
  unfold parts. apply NoDup_app. split_and!; [| |apply closing_parts_NoDup].
  - destruct (default false _); [apply NoDup_singleton|constructor].
  - intros owner Ho Hc. apply closing_parts_elem in Hc as [Hne _].
    by destruct (default false _); [apply list_elem_of_singleton in Ho|apply elem_of_nil in Ho].
Qed.

Lemma keyed_sorted (l : list (Z * Value)) (n : Z) :
  (forall j entry, l !! j = Some entry -> entry.1 = n + Z.of_nat j) -> Sorted (fun a b => (a.1 <=? b.1) = true) l.
Proof.
  revert n. induction l as [|entry l IH]; intros n H; constructor.
  - apply (IH (n + 1)). intros j e Hj. rewrite (H (S j) e Hj). lia.
  - destruct l as [|entry' l]; constructor. rewrite (H 0%nat entry eq_refl), (H 1%nat entry' eq_refl). apply Z.leb_le. lia.
Qed.

(** The final items are in the order of the client's. *)
Lemma completed_in_order owners self :
  parts self ≡ₚ owners ->
  (forall j owner, owners !! j = Some owner -> (final_entry self owner).1 = Z.of_nat j) ->
  completed_output_items self = (fun owner => (final_entry self owner).2) <$> owners.
Proof.
  intros Hp Hj. rewrite completed_parts. transitivity (snd <$> (final_entry self <$> owners)); [|by rewrite <- list_fmap_compose]. f_equal.
  set (leb := fun a b : Z * Value => a.1 <=? b.1).
  assert (Htrans : Transitive (fun a b => leb a b = true)) by (intros ???; unfold leb; rewrite !Z.leb_le; lia).
  assert (Hkey : forall j entry, (final_entry self <$> owners) !! j = Some entry -> entry.1 = Z.of_nat j).
  { intros j entry H. rewrite list_lookup_fmap in H. destruct (owners !! j) eqn:Ho; simplify_eq/=. by apply Hj. }
  eapply (Sorted_unique_strong (fun a b => leb a b = true)).
  - intros x1 x2 H1 H2 Hle1 Hle2. rewrite sort_by_perm, Hp in H1.
    apply list_elem_of_lookup in H1 as [j1 H1]. apply list_elem_of_lookup in H2 as [j2 H2].
    pose proof (Hkey _ _ H1). pose proof (Hkey _ _ H2). apply Z.leb_le in Hle1, Hle2. replace j2 with j1 in H2 by lia. congruence.
  - apply sort_by_sorted. intros x y. unfold leb. rewrite Z.leb_gt, Z.leb_le. lia.
  - by apply (keyed_sorted _ 0).
  - by rewrite sort_by_perm, Hp.
Qed.

Lemma parts_elem owners self c owner : tracks owners self c -> owner ∈ owners <-> owner ∈ parts self.
Proof.
  intros Ht. unfold parts. rewrite elem_of_app, closing_parts_elem, (tracks_present _ _ _ Ht). destruct owner as [| |key]; simpl.
  - split.
    + intros Hp. left. destruct (tracks_item _ _ _ OReasoning Ht Hp) as (i & item & _ & _ & (r & Hr & (Hs & _))).
      rewrite Hr. simpl. rewrite Hs. by apply list_elem_of_singleton.
    + intros [H|[]]; [|done]. destruct (tr_reasoning self); [by eexists|]. by apply elem_of_nil in H.
  - split; [by right|]. intros [H|[_ H]]; [|done].
    by destruct (default false _); [apply list_elem_of_singleton in H|apply elem_of_nil in H].
  - split; [by right|]. intros [H|[_ H]]; [|done].
    by destruct (default false _); [apply list_elem_of_singleton in H|apply elem_of_nil in H].
Qed.

Lemma parts_tracked owners self c : tracks owners self c -> parts self ≡ₚ owners.
Proof.
  intros Ht. apply NoDup_Permutation; [apply parts_NoDup|by destruct Ht|]. intros owner. symmetry. by eapply parts_elem.
Qed.

Lemma entry_place owners self c j owner :
  tracks owners self c -> owners !! j = Some owner -> (final_entry self owner).1 = Z.of_nat j.
Proof.
  intros Ht Ho. pose proof (lookup_lt_Some _ _ _ Ho) as Hl. rewrite (tracks_length _ _ _ Ht) in Hl.
  apply lookup_lt_is_Some in Hl as [item Hi]. pose proof (tracks_view _ _ _ Ht _ _ _ Ho Hi) as Hv.
  destruct owner as [| |key]; simpl in *.
  - destruct Hv as (r & -> & (_ & Hx & _)). done.
  - destruct Hv as (_ & -> & _). done.
  - destruct Hv as (call & -> & (_ & _ & Hx & _)). done.
Qed.

(** The two events that close an item. *)
Definition closing_pair (self : ChatToResponsesState) (response_id : string) (owner : Owner) (n : Z) : list Value :=
  match owner with
  | OReasoning => []
  | OText =>
      let item_id := default "" (tr_text_item_id self) in
      let index := default 0 (tr_text_output_index self) in
      [make_response_output_text_done_event response_id item_id index (tr_text self) n;
       make_response_output_item_done_message_event response_id item_id index (terminal_item_status self) (tr_text self)
         (sat_add u64_max n 1)]
  | OCall key =>
      match tr_tool_calls self !! key with
      | Some call =>
          let name := (restored_tool_identity self (default "" (st_name call))).1 in
          let arguments := (normalize_tool_arguments json_stream print_json (st_arguments call)).1 in
          [make_response_function_call_arguments_done_event response_id (st_item_id call) (st_output_index call) name arguments n;
           item_event "response.output_item.done" response_id (st_output_index call)
             (done_call_item self call (terminal_item_status self)) (sat_add u64_max n 1)]
      | None => []
      end
  end.

Fixpoint closing_events (self : ChatToResponsesState) (response_id : string) (owners : list Owner) (n : Z) : list Value :=
  match owners with
  | [] => []
  | owner :: owners =>
      closing_pair self response_id owner (sat_add u64_max n 1) ++
      closing_events self response_id owners (sat_add u64_max (sat_add u64_max n 1) 1)
  end.

Definition after_pairs (count : nat) (n : Z) : Z := Nat.iter count (fun n => sat_add u64_max (sat_add u64_max n 1) 1) n.

Lemma after_pairs_S count n : after_pairs (S count) n = after_pairs count (sat_add u64_max (sat_add u64_max n 1) 1).
Proof. unfold after_pairs. by rewrite Nat.iter_succ_r. Qed.

Definition numbered (n : Z) (self : ChatToResponsesState) : ChatToResponsesState := {| self with tr_sequence_number := n |}.

Lemma numbered_same self : numbered (tr_sequence_number self) self = self.
Proof. by destruct self. Qed.

(** What the loop over the calls emits. *)
Lemma emit_calls_eq self0 response_id entries s output :
  Forall (fun entry => tr_tool_calls self0 !! entry.1 = Some entry.2) entries ->
  tr_tool_registry s = tr_tool_registry self0 ->
  fold_left (emit_one_call_done response_id (terminal_item_status self0)) entries.*2 (s, output) =
  (numbered (after_pairs (length entries) (tr_sequence_number s)) s,
   output ++ closing_events self0 response_id (OCall <$> entries.*1) (tr_sequence_number s)).
Proof.
  intros Hall Hreg. revert s output Hreg. induction Hall as [|[key call] entries Hcall Hall IH]; intros s output Hreg.
  { change (after_pairs (length []) (tr_sequence_number s)) with (tr_sequence_number s). simpl. by rewrite numbered_same, app_nil_r. }
  cbn [fmap list_fmap fold_left length fst snd closing_events closing_pair]. simpl in Hcall. rewrite Hcall.
  assert (Hround : emit_one_call_done response_id (terminal_item_status self0) (s, output) call =
    (numbered (sat_add u64_max (sat_add u64_max (tr_sequence_number s) 1) 1) s,
     output ++ closing_pair self0 response_id (OCall key) (sat_add u64_max (tr_sequence_number s) 1))).
  { unfold ChatToResponses.emit_one_call_done, closing_pair, ChatToResponses.done_call_item. rewrite Hcall.
    assert (Hname : restored_tool_identity s (default "" (st_name call)) =
                    restored_tool_identity self0 (default "" (st_name call)))
      by (unfold restored_tool_identity; by rewrite Hreg). rewrite Hname.
    destruct (normalize_tool_arguments _ _ _) as [arguments how].
    destruct (restored_tool_identity self0 _) as [name namespace].
    simpl. by rewrite <- app_assoc. }
  rewrite Hround. unfold fmap in IH. rewrite IH by done. rewrite after_pairs_S.
  unfold closing_pair. rewrite Hcall. by rewrite <- app_assoc.
Qed.

(** The item of a part, once it is closed. *)
Definition shut (self : ChatToResponsesState) (owner : Owner) (item : ClientItem) : ClientItem :=
  {| item with ci_done := Some (final_entry self owner).2 |}.

Definition close_items (self : ChatToResponsesState) (items : list ClientItem) (closing : list Owner) : list ClientItem :=
  fold_left (fun items owner => alter (shut self owner) (Z.to_nat (final_entry self owner).1) items) closing items.

#[local] Instance Owner_eq_dec : EqDecision Owner.
Proof. solve_decision. Defined.

Lemma insert_as_alter (items : list ClientItem) j f item :
  items !! j = Some item -> <[j := f item]> items = alter f j items.
Proof.
  intros Hj. apply list_eq. intros i. destruct (decide (i = j)) as [->|Hne].
  - rewrite list_lookup_insert_eq by (by eapply lookup_lt_Some). by rewrite list_lookup_alter_eq, Hj.
  - by rewrite list_lookup_insert_ne, list_lookup_alter_ne by congruence.
Qed.

Lemma close_items_lookup self os items closing j owner :
  NoDup os -> (forall j owner, os !! j = Some owner -> (final_entry self owner).1 = Z.of_nat j) ->
  (forall owner, owner ∈ closing -> owner ∈ os) -> NoDup closing -> os !! j = Some owner ->
  close_items self items closing !! j =
    (fun item => if bool_decide (owner ∈ closing) then shut self owner item else item) <$> items !! j.
Proof.
  intros Hnd Hplace Hsub Hc Ho. revert items. induction Hc as [|other closing Hnew Hc IH]; intros items; simpl.
  { by destruct (items !! j). }
  rewrite IH by (intros; apply Hsub; by right).
  destruct (list_elem_of_lookup_1 os other) as [i Hi]; [apply Hsub; by left|].
  rewrite (Hplace _ _ Hi), Nat2Z.id. destruct (decide (i = j)) as [->|Hne].
  - rewrite Hi in Ho. injection Ho as ->. rewrite list_lookup_alter_eq, (bool_decide_eq_false_2 (owner ∈ closing)) by done.
    rewrite bool_decide_eq_true_2 by by left. by destruct (items !! j).
  - rewrite list_lookup_alter_ne by done. f_equal.
    assert (other <> owner) by (intros ->; apply Hne; by eapply (NoDup_lookup os)).
    rewrite (bool_decide_ext (owner ∈ other :: closing) (owner ∈ closing)); [done|]. rewrite elem_of_cons.
    split; [by intros [->|?]|by right].
Qed.

(** The client accepts what closes an item that is open. *)
Lemma closing_pair_replay self response_id owner c j item :
  owner <> OReasoning -> listening c -> cl_items c !! j = Some item -> view self owner j item ->
  exists c', client_replay c (closing_pair self response_id owner (next_number c)) = Some c' /\
    cl_items c' = alter (shut self owner) j (cl_items c) /\ listening c' /\
    cl_sequence c' = sat_add u64_max (next_number c) 1.
Proof.
  intros Hne Hlisten Hi Hv. destruct owner as [| |key]; [done| |].
  - destruct Hv as (Hid & Hidx & Hkind & Hdeltas & Hdone & Hlate). unfold closing_pair. rewrite Hid, Hidx. cbn [client_replay default].
    unfold make_response_output_text_done_event, make_response_output_item_done_message_event.
    rewrite (step_text_done c _ _ j item "message"); [|done|done|done|by right|done|done|by left]. simpl. renumber.
    rewrite (step_item_done _ _ j item _ "message" (ci_id item)); [|done|done|by event_fields|by event_fields|done|by right|done].
    simpl. eexists. split; [done|]. rewrite <- (insert_as_alter _ _ _ item) by done.
    unfold shut, final_entry. by rewrite Hid, Hidx.
  - destruct Hv as (call & Hcall & (Hadd & Hopen & Hidx & Hkind & Hid & Hdeltas & Hdes & Hdone & Hlate)).
    unfold closing_pair. rewrite Hcall, Hidx. cbn [client_replay].
    rewrite (step_arguments_done c _ _ j item); [|done|done|done|done|done]. simpl. renumber.
    assert (Hitem : get_str (done_call_item self call (terminal_item_status self)) "type" = Some "function_call" /\
      get_str (done_call_item self call (terminal_item_status self)) "id" = Some (st_item_id call)).
    { unfold ChatToResponses.done_call_item. destruct (normalize_tool_arguments _ _ _), (restored_tool_identity _ _).
      unfold get_str. by rewrite !call_item_field. }
    rewrite (step_item_done _ _ j item _ "function_call" (st_item_id call)); [|done|done|apply Hitem|apply Hitem|done|done|done].
    simpl. eexists. split; [done|]. rewrite <- (insert_as_alter _ _ _ item) by done.
    unfold shut, final_entry. by rewrite Hcall.
Qed.

Lemma closing_replay self response_id os closing c :
  NoDup os -> (forall j owner, os !! j = Some owner -> (final_entry self owner).1 = Z.of_nat j) ->
  NoDup closing -> (forall owner, owner ∈ closing -> owner <> OReasoning /\ owner ∈ os) -> listening c ->
  (forall j owner, owner ∈ closing -> os !! j = Some owner -> exists item, cl_items c !! j = Some item /\ view self owner j item) ->
  exists c', client_replay c (closing_events self response_id closing (cl_sequence c)) = Some c' /\
    cl_items c' = close_items self (cl_items c) closing /\ listening c' /\
    cl_sequence c' = after_pairs (length closing) (cl_sequence c).
Proof.
  intros Hnd Hplace Hc. revert c. induction Hc as [|owner closing Hnew Hc IH]; intros c Hsub Hlisten Hitems; [by exists c|].
  destruct (Hsub owner) as [Hne Hin]; [by left|]. apply list_elem_of_lookup in Hin as [j Hj].
  destruct (Hitems j owner) as (item & Hi & Hv); [by left|done|].
  destruct (closing_pair_replay self response_id owner c j item Hne Hlisten Hi Hv) as (c1 & Hr1 & Hi1 & Hl1 & Hs1).
  destruct (IH c1) as (c2 & Hr2 & Hi2 & Hl2 & Hs2); [intros; apply Hsub; by right|done| |].
  { intros k other Hother Hk. destruct (Hitems k other) as (item' & Hi' & Hv'); [by right|done|]. exists item'. split; [|done].
    rewrite Hi1, list_lookup_alter_ne; [done|]. intros ->. congruence. }
  exists c2. cbn [closing_events length]. rewrite client_replay_app. fold (next_number c). rewrite Hr1. cbn [mbind option_bind].
  rewrite Hs1 in Hr2, Hs2. unfold close_items. cbn [fold_left]. rewrite (Hplace _ _ Hj), Nat2Z.id, <- Hi1.
  rewrite after_pairs_S. by split_and!.
Qed.

(** The state when everything is closed but the stream. *)
Definition all_closed (draws : Draws) (self : ChatToResponsesState) : ChatToResponsesState :=
  {| self with
     tr_response_id := Some (default (gateway_response_id draws) (tr_response_id self));
     tr_sequence_number := after_pairs (length (closing_parts self)) (tr_sequence_number self);
     tr_text_item_done_emitted := tr_text_item_added_emitted self;
     tr_tool_calls := (fun call => {| call with st_done_emitted := true |}) <$> tr_tool_calls self |}.

Record closable (self : ChatToResponsesState) : Prop := {
  closable_text : tr_text_item_done_emitted self = false;
  closable_text_id : tr_text_item_added_emitted self = true -> is_Some (tr_text_item_id self);
  closable_calls key call : tr_tool_calls self !! key = Some call -> st_done_emitted call = false
}.

Lemma tracks_closable owners self c : tracks owners self c -> closable self.
Proof.
  intros Ht. split.
  - by destruct Ht as [[] _ _ _ _].
  - intros Ha. destruct (text_known _ _ _ Ht Ha) as (i & item & _ & _ & (-> & _)). by eexists.
  - intros key call Hc. destruct (tracks_item _ _ _ (OCall key) Ht) as (i & item & _ & _ & (call' & Hc' & (_ & Hd & _)));
      [by eexists|]. simpl in Hc'. congruence.
Qed.

Lemma pending_all self :
  closable self ->
  retain (fun call => negb (st_done_emitted call)) (ordered_entries (tr_tool_calls self)).*2 =
    (ordered_entries (tr_tool_calls self)).*2.
Proof.
  intros Hc. apply retain_all. intros call Hin. apply list_elem_of_fmap in Hin as ([key call'] & -> & Hin).
  apply ordered_entries_elem in Hin. simpl. by rewrite (closable_calls _ Hc _ _ Hin).
Qed.

Lemma calls_done_eq draws self0 self output :
  closable self0 -> tr_tool_calls self = tr_tool_calls self0 -> tr_tool_registry self = tr_tool_registry self0 ->
  tr_incomplete_reason self = tr_incomplete_reason self0 ->
  let response_id := default (gateway_response_id draws) (tr_response_id self) in
  emit_tool_call_done print_json json_stream draws (self, output) =
  ({| self with
      tr_response_id := Some response_id;
      tr_sequence_number := after_pairs (length (ordered_entries (tr_tool_calls self0))) (tr_sequence_number self);
      tr_tool_calls := (fun call => {| call with st_done_emitted := true |}) <$> tr_tool_calls self0 |},
   output ++ closing_events self0 response_id (OCall <$> (ordered_entries (tr_tool_calls self0)).*1) (tr_sequence_number self)).
Proof.
  intros Hc Hcalls Hreg Hreason response_id. unfold emit_tool_call_done. cbn [response_id_value]. cbv beta iota zeta.
  assert (Hstatus : terminal_item_status self = terminal_item_status self0) by (unfold terminal_item_status; by rewrite Hreason).
  change (terminal_item_status {| self with tr_response_id := Some (default (gateway_response_id draws) (tr_response_id self)) |})
    with (terminal_item_status self).
  cbn [tr_tool_calls]. rewrite Hstatus, Hcalls, pending_all by done.
  rewrite (emit_calls_eq self0); [done| |done].
  apply Forall_forall. intros [key call] Hin. by apply ordered_entries_elem.
Qed.

Lemma text_done_eq draws self output :
  closable self -> tr_text_item_added_emitted self = true ->
  let response_id := default (gateway_response_id draws) (tr_response_id self) in
  emit_text_done draws (self, output) =
  ({| self with
      tr_response_id := Some response_id;
      tr_sequence_number := sat_add u64_max (sat_add u64_max (tr_sequence_number self) 1) 1;
      tr_text_item_done_emitted := true |},
   output ++ closing_pair self response_id OText (sat_add u64_max (tr_sequence_number self) 1)).
Proof.
  intros Hc Ha response_id. destruct (closable_text_id _ Hc Ha) as [item_id Hid]. unfold emit_text_done, closing_pair.
  rewrite (closable_text _ Hc), Ha, Hid. simpl. rewrite Hid, <- app_assoc. by destruct self; simpl in *; rewrite Ha, Hid.
Qed.

Lemma closing_eq draws self output :
  closable self ->
  emit_tool_call_done print_json json_stream draws (emit_text_done draws (self, output)) =
  (all_closed draws self,
   output ++ closing_events self (default (gateway_response_id draws) (tr_response_id self)) (closing_parts self)
     (tr_sequence_number self)).
Proof.
  intros Hc. destruct (tr_text_item_added_emitted self) eqn:Ha.
  - rewrite text_done_eq, (calls_done_eq _ self) by done. unfold all_closed, closing_parts. rewrite Ha. cbn [app length closing_events].
    by rewrite length_fmap, length_fmap, after_pairs_S, <- app_assoc.
  - assert (Htext : emit_text_done draws (self, output) = (self, output)) by (unfold emit_text_done; by rewrite Ha).
    rewrite Htext, (calls_done_eq _ self) by done. unfold all_closed, closing_parts. rewrite Ha. cbn [app].
    pose proof (closable_text _ Hc) as Hd. rewrite !length_fmap. destruct self. simpl in *. by subst.
Qed.

Lemma reasoning_closed draws emitting r :
  tr_reasoning (emit_reasoning_done draws emitting).1 = Some r -> rs_started_emitted r = true -> rs_done_emitted r = true.
Proof.
  destruct emitting as [self output]. unfold emit_reasoning_done. destruct (tr_reasoning self) as [r0|] eqn:Hr; [|simpl; congruence].
  destruct (rs_done_emitted r0 || negb (rs_started_emitted r0)) eqn:Hd; simpl.
  - rewrite Hr. intros [= ->]. destruct (rs_done_emitted r); [done|]. simpl in Hd. by destruct (rs_started_emitted r).
  - by intros [= <-].
Qed.

Lemma all_closed_entry draws self owner : final_entry (all_closed draws self) owner = final_entry self owner.
Proof. destruct owner as [| |key]; simpl; [done..|]. rewrite lookup_fmap. by destruct (tr_tool_calls self !! key). Qed.

Lemma all_closed_parts draws owners self c : tracks owners self c -> parts (all_closed draws self) ≡ₚ owners.
Proof.
  intros Ht. apply NoDup_Permutation; [apply parts_NoDup|by destruct Ht|]. intros owner.
  rewrite (parts_elem _ _ _ _ Ht). unfold parts. rewrite !elem_of_app, !closing_parts_elem.
  assert (present (all_closed draws self) owner <-> present self owner) as ->; [|done].
  destruct owner; simpl; [done..|]. rewrite lookup_fmap. apply fmap_is_Some.
Qed.

Lemma all_closed_output draws owners self c :
  tracks owners self c -> completed_output_items (all_closed draws self) = (fun owner => (final_entry self owner).2) <$> owners.
Proof.
  intros Ht. rewrite (completed_in_order owners).
  - apply list_fmap_ext. intros. by rewrite all_closed_entry.
  - by eapply all_closed_parts.
  - intros j owner Ho. rewrite all_closed_entry. by eapply entry_place.
Qed.

(** ** The final response *)

(** What an item of the final response has to do with the item that the client has: the
    item was closed; what closed it is the final item, unless deltas of it came late; and
    the final text is what the deltas add up to. *)
Definition agrees (item : ClientItem) (final : Value) : Prop :=
  is_Some (ci_done item) /\ (ci_late item = false -> ci_done item = Some final) /\
  get_str final "type" = Some (ci_kind item) /\ (exists id, get_str final "id" = Some id /\ id_matches item id) /\
  ((ci_kind item = "message" /\ ci_late item = false /\
    get final "content" = Some (JArray [output_text_part (ci_deltas item)])) \/
   (ci_kind item = "reasoning" /\ get final "content" = Some (JArray [reasoning_text_part (ci_deltas item)])) \/
   (ci_kind item = "function_call" /\ ci_late item = false /\
    (merging = false ->
     get_str final "arguments" = Some (normalize_tool_arguments json_stream print_json (ci_deltas item)).1))).

Definition concluded (c : Client) : Prop :=
  exists response items, cl_terminal c = Some response /\ get response "output" = Some (JArray items) /\
    Forall2 agrees (cl_items c) items.

Lemma done_item_fields self call status :
  get_str (done_call_item self call status) "type" = Some "function_call" /\
  get_str (done_call_item self call status) "id" = Some (st_item_id call) /\
  get_str (done_call_item self call status) "arguments" =
    Some (normalize_tool_arguments json_stream print_json (st_arguments call)).1.
Proof.
  unfold ChatToResponses.done_call_item. destruct (normalize_tool_arguments _ _ _), (restored_tool_identity _ _).
  unfold get_str. by rewrite !call_item_field.
Qed.

Lemma view_agrees owners self c j owner item :
  tracks owners self c -> view self owner j item ->
  (forall r, tr_reasoning self = Some r -> rs_started_emitted r = true -> rs_done_emitted r = true) ->
  agrees (if bool_decide (owner ∈ closing_parts self) then shut self owner item else item) (final_entry self owner).2.
Proof.
  intros Ht Hv Hclosed. pose proof (step_strict _ _ (tracks_step _ _ _ Ht)) as Hstrict. destruct owner as [| |key].
  - rewrite bool_decide_eq_false_2 by (rewrite closing_parts_elem; by intros []).
    destruct Hv as (r & Hr & (Hstart & Hidx & Hkind & Hid & Hdeltas & Hopen)). rewrite (Hclosed r Hr Hstart) in Hopen.
    destruct Hopen as (status & content & Hs & Hdone & Hlate). unfold final_entry. rewrite Hr, Hs, <- Hid, <- Hdeltas.
    rewrite <- Hid in Hdone. simpl. split; [by eexists|]. split; [intros Hl; by rewrite Hdone, (Hlate Hl), Hdeltas|].
    unfold make_reasoning_item, json_object, get_str. unfold get. rewrite !map_get_json_fields. simpl. split; [by rewrite Hkind|].
    split; [eexists; split; [done|by right]|]. right. by left.
  - rewrite bool_decide_eq_true_2.
    2: { apply closing_parts_elem. split; [done|]. simpl. destruct Hv as (Hid & Hidx & _).
         destruct (tr_text_item_added_emitted self) eqn:Ha; [done|].
         destruct (step_no_text _ _ (tracks_step _ _ _ Ht) Ha). congruence. }
    destruct Hv as (Hid & Hidx & Hkind & Hdeltas & Hdone & Hlate). unfold shut, final_entry. rewrite Hid, <- Hdeltas. simpl.
    split; [by eexists|]. split; [done|]. unfold make_response_message_item, json_object, get_str. unfold get.
    rewrite !map_get_json_fields. simpl. split; [by rewrite Hkind|]. split; [eexists; split; [done|by right]|]. by left.
  - rewrite bool_decide_eq_true_2.
    2: { apply closing_parts_elem. split; [done|]. destruct Hv as (call & Hcall & _). by eexists. }
    destruct Hv as (call & Hcall & (Hadd & Hopen & Hidx & Hkind & Hid & Hdeltas & Hdes & Hdone & Hlate)).
    unfold shut, final_entry. rewrite Hcall. simpl.
    destruct (done_item_fields self call (terminal_item_status self)) as (Htype & Hfid & Hargs).
    split; [by eexists|]. split; [done|]. simpl. split; [by rewrite Hkind|]. split; [by eexists|]. right. right.
    split_and!; [done..|]. intros Hm. rewrite Hdeltas by (apply Hdes; congruence). done.
Qed.

Section Events.
  Variable complete_json : string -> bool.

Notation translator_finish := (translator_finish print_json json_stream).
Notation translate_event := (translate_event complete_json print_json json_stream).
Notation translate_choice := (translate_choice complete_json print_json).

(** The terminal event, which follows the events that close the items. *)
Definition final_event (draws : Draws) (self : ChatToResponsesState) : Value :=
  make_response_terminal_event (default (gateway_response_id draws) (tr_response_id self))
    (default (dr_now draws) (tr_created_at self)) (model_value self)
    (JArray (completed_output_items (all_closed draws self))) (tr_usage self) (tr_incomplete_reason self)
    (sat_add u64_max (after_pairs (length (closing_parts self)) (tr_sequence_number self)) 1).

Lemma finish_eq draws self self1 more :
  tr_completed_emitted self = false ->
  emit_reasoning_done draws (emit_created draws (self, [])) = (self1, more) -> closable self1 ->
  exists self', translator_finish draws self =
    (self', Ok ((more ++ closing_events self1 (default (gateway_response_id draws) (tr_response_id self1)) (closing_parts self1)
       (tr_sequence_number self1)) ++ [final_event draws self1])) /\ tr_completed_emitted self' = true /\ told self' = told self1.
Proof.
  intros Hrun Heq Hc. unfold ChatToResponses.translator_finish. rewrite Hrun, Heq, closing_eq by done.
  eexists. split; [reflexivity|]. done.
Qed.

Lemma terminal_gives response_id created_at model output usage incomplete_reason :
  exists response, terminal_response response_id created_at model output usage incomplete_reason = Some response /\
    get response "output" = Some output.
Proof.
  pose proof (terminal_output response_id created_at model output usage incomplete_reason) as H.
  destruct (terminal_response _ _ _ _ _ _) as [response|]; [|done]. by exists response.
Qed.

Lemma closed_items_agree owners self c :
  tracks owners self c ->
  (forall r, tr_reasoning self = Some r -> rs_started_emitted r = true -> rs_done_emitted r = true) ->
  Forall2 agrees (close_items self (cl_items c) (closing_parts self)) ((fun owner => (final_entry self owner).2) <$> owners).
Proof.
  intros Ht Hclosed.
  assert (Hlookup : forall j owner, owners !! j = Some owner ->
    close_items self (cl_items c) (closing_parts self) !! j =
      (fun item => if bool_decide (owner ∈ closing_parts self) then shut self owner item else item) <$> cl_items c !! j).
  { intros j owner Ho. eapply close_items_lookup; [by destruct Ht|by intros; eapply entry_place| |apply closing_parts_NoDup|done].
    intros other Hin. apply closing_parts_elem in Hin as [_ Hp]. by apply (tracks_present _ _ _ Ht). }
  assert (Hlen : length (close_items self (cl_items c) (closing_parts self)) = length owners).
  { rewrite (tracks_length _ _ _ Ht). unfold close_items. clear. revert c. generalize (closing_parts self) as closing.
    intros closing c. revert closing. induction closing as [|owner closing IH] using rev_ind; [done|].
    rewrite fold_left_app. cbn [fold_left]. by rewrite length_alter. }
  apply Forall2_same_length_lookup_2; [by rewrite length_fmap|]. intros j item final Hi Hf.
  rewrite list_lookup_fmap in Hf. destruct (owners !! j) as [owner|] eqn:Ho; [|done]. injection Hf as <-.
  rewrite (Hlookup _ _ Ho) in Hi. destruct (cl_items c !! j) as [item0|] eqn:Hi0; [|done]. injection Hi as <-.
  eapply view_agrees; [done|by eapply (tracks_view _ _ _ Ht)|done].
Qed.

Lemma close_items_deltas self kind items closing : deltas_of kind (close_items self items closing) = deltas_of kind items.
Proof.
  revert items. unfold close_items. induction closing as [|owner closing IH]; intros items; simpl; [done|].
  rewrite IH. by apply deltas_of_alter.
Qed.

(** The client accepts the end of the stream. *)
Lemma ending_replay draws owners self c :
  tracks owners self c -> tr_created_emitted self = true ->
  (forall r, tr_reasoning self = Some r -> rs_started_emitted r = true -> rs_done_emitted r = true) ->
  exists c', client_replay c (closing_events self (default (gateway_response_id draws) (tr_response_id self)) (closing_parts self)
       (tr_sequence_number self) ++ [final_event draws self]) = Some c' /\ concluded c' /\ heard c' = told self.
Proof.
  intros Ht Hcreated Hclosed. pose proof (tracks_listening _ _ _ Ht Hcreated) as Hlisten.
  pose proof (step_sequence _ _ (tracks_step _ _ _ Ht)) as Hseq.
  assert (Hplace : forall j owner, owners !! j = Some owner -> (final_entry self owner).1 = Z.of_nat j)
    by (intros; by eapply entry_place).
  assert (Hsub : forall owner, owner ∈ closing_parts self -> owner <> OReasoning /\ owner ∈ owners).
  { intros owner Ho. apply closing_parts_elem in Ho as [Hne Hp]. split; [done|]. by apply (tracks_present _ _ _ Ht). }
  destruct (closing_replay self (default (gateway_response_id draws) (tr_response_id self)) owners (closing_parts self) c)
    as (c1 & Hr1 & Hi1 & Hl1 & Hs1); [by destruct Ht|done|apply closing_parts_NoDup|done|done| |].
  { intros j owner Ho Hj. pose proof (lookup_lt_Some _ _ _ Hj) as Hlt. rewrite (tracks_length _ _ _ Ht) in Hlt.
    apply lookup_lt_is_Some in Hlt as [item Hi]. exists item. split; [done|]. by eapply (tracks_view _ _ _ Ht). }
  rewrite client_replay_app, <- Hseq, Hr1. cbn [mbind option_bind client_replay]. unfold final_event.
  rewrite <- Hseq, <- Hs1. fold (next_number c1). rewrite step_terminal by done. cbn [mbind option_bind].
  eexists. split; [done|].
  destruct (terminal_gives (default (gateway_response_id draws) (tr_response_id self)) (default (dr_now draws) (tr_created_at self))
    (model_value self) (JArray (completed_output_items (all_closed draws self))) (tr_usage self) (tr_incomplete_reason self))
    as (response & Hresp & Houtput).
  split.
  - exists response, (completed_output_items (all_closed draws self)). split; [done|]. split; [done|].
    cbn [ticked cl_items]. rewrite Hi1, (all_closed_output draws owners self c Ht). by apply closed_items_agree.
  - rewrite <- (tracks_heard _ _ _ Ht). unfold heard. cbn [ticked cl_items]. by rewrite Hi1, !close_items_deltas.
Qed.

Lemma prepared_closable draws self output :
  closable self -> closable (emit_reasoning_done draws (emit_created draws (self, output))).1.
Proof.
  assert (Hreasoning : forall emitting, closable emitting.1 -> closable (emit_reasoning_done draws emitting).1).
  { intros [s o] Hc. unfold emit_reasoning_done. destruct (tr_reasoning s) as [r|]; [|done].
    destruct (rs_done_emitted r || negb (rs_started_emitted r)); [done|]. by destruct Hc. }
  intros Hc. apply Hreasoning. unfold emit_created. destruct (tr_created_emitted self); [done|]. by destruct Hc.
Qed.

(** Finishing closes what is open and gives the final response. *)
Lemma finish_replay draws owners self c :
  tracks owners self c ->
  exists self' more, translator_finish draws self = (self', Ok more) /\ tr_completed_emitted self' = true /\
    (room c more -> exists c', client_replay c more = Some c' /\ concluded c' /\ heard c' = told self').
Proof.
  intros Ht. destruct (prepared draws self) as (self1 & (more1 & Heq1 & H1) & Hcreated).
  specialize (Heq1 []). cbv beta in Heq1. pose proof (reasoning_closed draws (emit_created draws (self, []))) as Hrc.
  pose proof (prepared_closable draws self [] (tracks_closable _ _ _ Ht)) as Hclosable.
  rewrite Heq1 in Hrc, Hclosable. cbn [fst app] in Hrc, Hclosable. cbn [app] in Heq1.
  destruct (finish_eq draws self self1 more1 (step_running _ _ (tracks_step _ _ _ Ht)) Heq1 Hclosable) as (self' & Hfinish & Hdone & Htold).
  eexists self', _. split; [exact Hfinish|]. split; [done|]. intros Hroom. unfold room in Hroom. rewrite !length_app in Hroom.
  destruct (H1 owners c Ht) as (owners1 & c1 & Hr1 & Ht1); [unfold room; lia|].
  destruct (ending_replay draws owners1 self1 c1 Ht1 Hcreated Hrc) as (c2 & Hr2 & Hend & Hheard).
  exists c2. split; [|by rewrite Htold]. by rewrite <- app_assoc, client_replay_app, Hr1.
Qed.

(** After an event the client still tracks the translator, or the stream is over. *)
Definition caught_up (self : ChatToResponsesState) (c : Client) : Prop :=
  (tr_completed_emitted self = true /\ concluded c /\ heard c = told self) \/ (exists owners, tracks owners self c).

Definition finish_reason_step (draws : Draws) (choice : Value) (emitting : Emitting)
    : ChatToResponsesState * result (list Value) ProtocolError :=
  let '(self, output) := emitting in
  match get_str choice "finish_reason" with
  | Some finish_reason =>
      let '(self, output) :=
        emit_created draws ({| self with tr_incomplete_reason := responses_incomplete_reason (Some finish_reason) |}, output) in
      (self, Ok output)
  | None => (self, Ok output)
  end.

Definition choice_parts (draws : Draws) (choice : Value) (emitting : Emitting)
    : ChatToResponsesState * result (list Value) ProtocolError :=
  match delta_parts complete_json print_json draws (default JNull (get choice "delta")) emitting with
  | (self, Err error) => (self, Err error)
  | (self, Ok output) => finish_reason_step draws choice (self, output)
  end.

Lemma translate_choice_eq draws choice self : translate_choice draws choice self = choice_parts draws choice (self, []).
Proof.
  unfold ChatToResponses.translate_choice, choice_parts. rewrite translate_delta_eq.
  destruct (delta_parts _ _ _ _ _) as [self1 [output1|]]; [|done].
  unfold finish_reason_step. by destruct (get_str choice "finish_reason").
Qed.

Lemma choice_outcome draws choice self : outcome (choice_parts draws choice) self.
Proof.
  apply (outcome_bind (delta_parts complete_json print_json draws (default JNull (get choice "delta")))
    (finish_reason_step draws choice)); [apply delta_outcome|].
  clear self. intros self. unfold finish_reason_step.
  destruct (get_str choice "finish_reason") as [finish_reason|]; [|apply outcome_done].
  set (self0 := {| self with tr_incomplete_reason := responses_incomplete_reason (Some finish_reason) |}).
  destruct (emit_created_simulates draws self0) as (self1 & (more & Hf & H1) & _).
  right. exists self1, more. split; [intros output; by rewrite Hf|].
  apply (follows_trans self self0 self1 [] more); [by apply follows_refl|done].
Qed.

Lemma metadata_progress draws self event : progress (initialize_metadata draws self event) = progress self.
Proof. done. Qed.

Lemma event_replay draws owners self c event self' output :
  tracks owners self c -> translate_event draws self event = (self', Ok output) -> room c output ->
  exists c', client_replay c output = Some c' /\ caught_up self' c'.
Proof.
  intros Ht Hev Hroom. unfold ChatToResponses.translate_event in Hev. rewrite (step_running _ _ (tracks_step _ _ _ Ht)) in Hev.
  set (self0 := match get_non_null event "usage" with Some usage => _ | None => _ end) in Hev.
  assert (Ht0 : tracks owners self0 c).
  { unfold self0. destruct (get_non_null event "usage"); by apply (tracks_progress owners self). }
  clearbody self0. destruct (get_array event "choices") as [[|choice [|]]|].
  - destruct (is_some (get_non_null event "usage")); [|simplify_eq; exists c; split; [done|]; right; by eexists].
    destruct (finish_replay draws owners self0 c Ht0) as (self1 & more & Hf & Hdone & Hreplay). rewrite Hf in Hev. simplify_eq.
    destruct (Hreplay Hroom) as (c' & Hr & Hend). exists c'. split; [done|]. by left.
  - rewrite translate_choice_eq in Hev.
    destruct (choice_outcome draws choice self0) as [(self1 & error & Hf)|(self1 & more & Hf & H1)]; rewrite Hf in Hev; simplify_eq/=.
    destruct (H1 owners c Ht0 Hroom) as (owners' & c' & Hr & Ht'). exists c'. split; [done|]. right. by eexists.
  - done.
  - simplify_eq. exists c. split; [done|]. right. by eexists.
Qed.

End Events.
End Finish.
End Following.

(** ** Whole streams *)

Section Streams.
  Variable complete_json : string -> bool.
  Variable print_json : Value -> string.
  Variable json_stream : string -> list (option Value).

(** Events one after the other, and the end of the input. *)
Fixpoint translate_stream (self : ChatToResponsesState) (events : list (Draws * Value)) (last : Draws)
    : ChatToResponsesState * result (list Value) ProtocolError :=
  match events with
  | [] => translator_finish print_json json_stream last self
  | (draws, event) :: events =>
      match translate_event complete_json print_json json_stream draws self event with
      | (self, Err error) => (self, Err error)
      | (self, Ok output) =>
          match translate_stream self events last with
          | (self, Err error) => (self, Err error)
          | (self, Ok rest) => (self, Ok (output ++ rest))
          end
      end
  end.

Lemma after_the_end self events last :
  tr_completed_emitted self = true -> translate_stream self events last = (self, Ok []).
Proof.
  intros Hd. induction events as [|[draws event] events IH]; simpl; [unfold translator_finish|unfold translate_event]; rewrite Hd; [done|].
  by rewrite IH.
Qed.

Lemma stream_replay strict owners self c events last self' outputs :
  tracks strict owners self c -> translate_stream self events last = (self', Ok outputs) -> room c outputs ->
  exists c', client_replay c outputs = Some c' /\ concluded strict print_json json_stream c' /\ heard c' = told self'.
Proof.
  revert owners self c outputs. induction events as [|[draws event] events IH]; intros owners self c outputs Ht Hs Hroom; simpl in Hs.
  { destruct (finish_replay strict print_json json_stream last owners self c Ht) as (self1 & more & Hf & _ & Hreplay).
    rewrite Hf in Hs. simplify_eq. by apply Hreplay. }
  destruct (translate_event _ _ _ draws self event) as [self1 [output|]] eqn:Hev; [|done].
  destruct (translate_stream self1 events last) as [self2 [rest|]] eqn:Hrest; [|done]. simplify_eq.
  unfold room in Hroom. rewrite length_app in Hroom.
  destruct (event_replay strict print_json json_stream complete_json draws owners self c event self1 output Ht Hev)
    as (c1 & Hr1 & Hcaught); [unfold room; lia|].
  pose proof (client_replay_items _ _ _ Hr1) as Hi.
  rewrite client_replay_app, Hr1. cbn [mbind option_bind]. destruct Hcaught as [(Hdone & Hend)|[owners1 Ht1]].
  - rewrite after_the_end in Hrest by done. simplify_eq. by exists c1.
  - apply (IH owners1 self1); [done|done|]. unfold room. lia.
Qed.

Lemma tracks_new registry strict : tracks strict [] (ChatToResponsesState_new registry strict) client_new.
Proof.
  split; [done|constructor|done| |by intros].
  intros owner. rewrite elem_of_nil. split; [done|]. destruct owner; simpl; [by intros [? ?]|done|by intros [? ?]].
Qed.

(** *** What the upstream said *)

(** The text and the reasoning so far, and whether that is all. *)
Definition said (self : ChatToResponsesState) : string * string * bool := (told self, tr_completed_emitted self).

Definition more_text (content : string) (so_far : string * string * bool) : string * string * bool :=
  (so_far.1.1 +:+ content, so_far.1.2, so_far.2).
Definition more_reasoning (content : string) (so_far : string * string * bool) : string * string * bool :=
  (so_far.1.1, so_far.1.2 +:+ content, so_far.2).

Lemma more_text_nothing so_far : more_text "" so_far = so_far.
Proof. destruct so_far as [[? ?] ?]. unfold more_text. simpl. by rewrite append_nil. Qed.
Lemma more_reasoning_nothing so_far : more_reasoning "" so_far = so_far.
Proof. destruct so_far as [[? ?] ?]. unfold more_reasoning. simpl. by rewrite append_nil. Qed.

Lemma said_created draws emitting : said (emit_created draws emitting).1 = said emitting.1.
Proof. destruct emitting as [self output]. unfold emit_created. by destruct (tr_created_emitted self). Qed.

Lemma said_reasoning_done draws emitting : said (emit_reasoning_done draws emitting).1 = said emitting.1.
Proof.
  destruct emitting as [self output]. unfold emit_reasoning_done. destruct (tr_reasoning self) as [r|] eqn:Hr; [|done].
  destruct (rs_done_emitted r || negb (rs_started_emitted r)); [done|]. unfold said, told. simpl. by rewrite Hr.
Qed.

Lemma said_text_done draws emitting : said (emit_text_done draws emitting).1 = said emitting.1.
Proof.
  destruct emitting as [self output]. unfold emit_text_done.
  by destruct (negb (tr_text_item_added_emitted self) || tr_text_item_done_emitted self).
Qed.

Lemma said_calls_done draws emitting : said (emit_tool_call_done print_json json_stream draws emitting).1 = said emitting.1.
Proof.
  destruct emitting as [self output]. unfold emit_tool_call_done. cbn [response_id_value]. cbv beta iota zeta.
  change (said (self, output).1) with (said self).
  match goal with |- context [fold_left ?f ?l (?s, _)] => assert (Hs : said s = said self) by done; revert Hs; generalize s; generalize l end.
  intros calls. revert output. induction calls as [|call calls IH]; intros output s Hs; [done|]. cbn [fold_left].
  destruct (emit_one_call_done print_json json_stream _ _ (s, output) call) as [s1 output1] eqn:Hone.
  apply IH. transitivity (said s); [|done]. revert Hone. unfold emit_one_call_done.
  destruct (normalize_tool_arguments _ _ _), (restored_tool_identity _ _). simpl. by intros [= <- _].
Qed.

Lemma said_reasoning draws content emitting :
  said (emit_reasoning_delta draws content emitting).1 = more_reasoning content (said emitting.1).
Proof.
  rewrite emit_reasoning_delta_eq, <- (said_created draws emitting). destruct (emit_created draws emitting) as [self output].
  unfold reasoning_part, said, told. simpl. destruct (tr_reasoning self) as [r|]; simpl; [by destruct (rs_started_emitted r)|done].
Qed.

Lemma said_text draws content emitting :
  said (emit_text_delta draws content emitting).1 = more_text content (said emitting.1).
Proof.
  rewrite emit_text_delta_eq, <- (said_created draws emitting), <- (said_reasoning_done draws (emit_created draws emitting)).
  destruct (emit_reasoning_done draws (emit_created draws emitting)) as [self output].
  unfold text_part, ensure_text_item, said, told. simpl.
  destruct (tr_text_output_index self); simpl; by destruct (tr_text_item_added_emitted self).
Qed.

Lemma said_fragment draws key call_id name arguments added_event emitting :
  said (emit_call_fragment complete_json draws key call_id name arguments added_event emitting).1 = said emitting.1.
Proof.
  destruct emitting as [self output]. unfold emit_call_fragment. simpl.
  destruct (tr_tool_calls self !! key) as [call|]; simpl; destruct (merge_fragment _ _ _ _) as [merged []]; simpl; try done;
    by match goal with |- context [if ?announced then (_, output) else _] => destruct announced end.
Qed.

Lemma said_call draws tool_call fallback_index emitting :
  said (emit_chat_tool_call_delta complete_json draws tool_call fallback_index emitting).1 = said emitting.1.
Proof.
  destruct emitting as [self output]. unfold emit_chat_tool_call_delta. destruct (as_object tool_call) as [object|]; [|done].
  destruct (extract_tool_call_details object) as [[name arguments]|]; [|done].
  match goal with |- context [emit_call_fragment _ ?a ?b ?c ?d ?e ?f ?g] =>
    pose proof (said_fragment a b c d e f g) as Hs; by destruct (emit_call_fragment _ a b c d e f g) end.
Qed.

Lemma said_function_call draws function_call emitting :
  said (emit_chat_function_call_delta complete_json print_json draws function_call emitting).1 = said emitting.1.
Proof.
  destruct emitting as [self output]. unfold emit_chat_function_call_delta.
  match goal with |- context [match ?r with Ok _ => _ | Err _ => _ end] => destruct r as [[[call_id name] arguments]|] end; [|done].
  match goal with |- context [emit_call_fragment _ ?a ?b ?c ?d ?e ?f ?g] =>
    pose proof (said_fragment a b c d e f g) as Hs; by destruct (emit_call_fragment _ a b c d e f g) end.
Qed.

Lemma said_calls draws fallback_index tool_calls emitting :
  said (translate_tool_calls complete_json draws fallback_index tool_calls emitting).1 = said emitting.1.
Proof.
  revert fallback_index emitting. induction tool_calls as [|tool_call tool_calls IH]; intros fallback_index emitting; simpl;
    [by destruct emitting|].
  rewrite <- (said_created draws emitting), <- (said_reasoning_done draws (emit_created draws emitting)),
    <- (said_call draws tool_call fallback_index).
  destruct (emit_chat_tool_call_delta _ _ _ _ _) as [self [output|]]; [|done]. by rewrite IH.
Qed.

(** What a delta adds to the text and to the reasoning. *)
Definition delta_says (delta : Value) : string * string :=
  (match delta_content delta with Ok content => content | Err _ => "" end,
   default "" (get_str delta "reasoning_content")).

Definition more_delta (delta : Value) (so_far : string * string * bool) : string * string * bool :=
  more_text (delta_says delta).1 (more_reasoning (delta_says delta).2 so_far).

Lemma said_delta draws delta self self' output :
  translate_delta complete_json print_json draws delta self = (self', Ok output) -> said self' = more_delta delta (said self).
Proof.
  rewrite translate_delta_eq. unfold delta_parts, more_delta, delta_says. destruct (delta_content delta) as [content|]; [|done].
  cbn [fst snd].
  assert (Hr : said (reasoning_step draws delta (self, [])).1 =
    more_reasoning (default "" (get_str delta "reasoning_content")) (said self)).
  { unfold reasoning_step. destruct (str_is_empty _) eqn:He; [|by rewrite said_reasoning].
    apply str_is_empty_true in He. by rewrite He, more_reasoning_nothing. }
  assert (Ht : said (text_step draws content (reasoning_step draws delta (self, []))).1 =
    more_text content (more_reasoning (default "" (get_str delta "reasoning_content")) (said self))).
  { unfold text_step. destruct (str_is_empty content) eqn:He; [|by rewrite said_text, Hr].
    apply str_is_empty_true in He as ->. by rewrite Hr, more_text_nothing. }
  rewrite <- Ht. clear Hr Ht. unfold calls_step.
  pose proof (said_calls draws 0 (default [] (get_array delta "tool_calls"))
    (text_step draws content (reasoning_step draws delta (self, [])))) as Hc.
  destruct (translate_tool_calls _ _ _ _ _) as [self1 [output1|]]; [|done]. cbn [fst] in Hc. rewrite <- Hc.
  assert (Hf : said (function_call_step complete_json print_json draws delta (self1, output1)).1 = said self1).
  { unfold function_call_step. destruct (get delta "function_call") as [function_call|]; [|done].
    by rewrite said_function_call, said_reasoning_done, said_created. }
  destruct (function_call_step _ _ _ _ _) as [self2 [output2|]]; [|done]. cbn [fst] in Hf. rewrite <- Hf.
  assert (Hrole : said (role_step draws delta (self2, output2)).1 = said self2)
    by (unfold role_step; destruct (negb _); [done|by rewrite said_created]).
  destruct (role_step draws delta (self2, output2)) as [self3 output3]. by intros [= <- _].
Qed.

Lemma said_choice draws choice self self' output :
  translate_choice complete_json print_json draws choice self = (self', Ok output) ->
  said self' = more_delta (default JNull (get choice "delta")) (said self).
Proof.
  unfold translate_choice. destruct (translate_delta _ _ _ _ _) as [self1 [output1|]] eqn:Hd; [|done].
  apply said_delta in Hd. rewrite <- Hd. destruct (get_str choice "finish_reason") as [finish_reason|]; [|by intros [= <- _]].
  match goal with |- context [emit_created draws ?e] => pose proof (said_created draws e) as Hc; destruct (emit_created draws e) end.
  by intros [= <- _].
Qed.

(** What a stream says until it is over. *)
Fixpoint stream_says (events : list (Draws * Value)) (so_far : string * string * bool) : string * string * bool :=
  match events with
  | [] => (so_far.1, true)
  | (_, event) :: events =>
      match get_array event "choices" with
      | Some [choice] => stream_says events (more_delta (default JNull (get choice "delta")) so_far)
      | Some [] => if is_some (get_non_null event "usage") then (so_far.1, true) else stream_says events so_far
      | _ => stream_says events so_far
      end
  end.

Lemma finish_says draws self self' outputs :
  tr_completed_emitted self = false -> translator_finish print_json json_stream draws self = (self', Ok outputs) ->
  said self' = ((said self).1, true).
Proof.
  intros Hrun. unfold translator_finish. rewrite Hrun.
  pose proof (said_calls_done draws (emit_text_done draws (emit_reasoning_done draws (emit_created draws (self, []))))) as Hs.
  rewrite said_text_done, said_reasoning_done, said_created in Hs.
  destruct (emit_tool_call_done _ _ _ _) as [self1 output1]. cbn [fst] in Hs. cbv beta iota zeta.
  cbn [response_id_value created_at_value push_event next_sequence]. cbv beta iota zeta.
  intros [= <- _]. by rewrite <- Hs.
Qed.

Lemma stream_said self events last self' outputs :
  tr_completed_emitted self = false -> translate_stream self events last = (self', Ok outputs) ->
  said self' = stream_says events (said self).
Proof.
  revert self outputs. induction events as [|[draws event] events IH]; intros self outputs Hrun Hs; simpl in Hs; [by apply finish_says in Hs|].
  destruct (translate_event _ _ _ draws self event) as [self1 [output|]] eqn:Hev; [|done].
  destruct (translate_stream self1 events last) as [self2 [rest|]] eqn:Hrest; [|done]. simplify_eq.
  unfold translate_event in Hev. rewrite Hrun in Hev.
  set (self0 := match get_non_null event "usage" with Some usage => _ | None => _ end) in Hev.
  assert (H0 : said self0 = said self /\ tr_completed_emitted self0 = false)
    by (unfold self0; by destruct (get_non_null event "usage")).
  clearbody self0. destruct H0 as [H0 Hrun0].
  assert (Hgo : said self1 = said self0 \/ (exists choice, get_array event "choices" = Some [choice] /\
    said self1 = more_delta (default JNull (get choice "delta")) (said self0)) -> tr_completed_emitted self1 = false).
  { intros [H|(choice & _ & H)]; apply (f_equal snd) in H; simpl in H; congruence. }
  cbn [stream_says]. destruct (get_array event "choices") as [[|choice [|]]|].
  - destruct (is_some (get_non_null event "usage")).
    + pose proof (finish_says draws self0 self1 output Hrun0 Hev) as Hsaid.
      rewrite after_the_end in Hrest by (by apply (f_equal snd) in Hsaid). injection Hrest as <- _. by rewrite Hsaid, H0.
    + injection Hev as <- <-. rewrite <- H0. by apply (IH _ rest).
  - pose proof (said_choice _ _ _ _ _ Hev) as Hc.
    rewrite (IH self1 rest), Hc, H0; [done|apply Hgo; right; by eexists|done].
  - done.
  - injection Hev as <- <-. rewrite <- H0. by apply (IH _ rest).
Qed.

(** The text of the final items of a kind, one after the other. *)
Definition part_text (part : Value) : string := default "" (get_str part "text").

Definition item_text (item : Value) : string :=
  foldr (fun part rest => part_text part +:+ rest) "" (default [] (get_array item "content")).

Definition texts_of (kind : string) (items : list Value) : string :=
  foldr (fun item rest => (if bool_decide (get_str item "type" = Some kind) then item_text item else "") +:+ rest) "" items.

Definition response_says (items : list Value) : string * string := (texts_of "message" items, texts_of "reasoning" items).

Lemma agrees_text merging item final kind :
  agrees merging print_json json_stream item final -> (kind = "message" \/ kind = "reasoning") ->
  (if bool_decide (get_str final "type" = Some kind) then item_text final else "") =
  (if String.eqb (ci_kind item) kind then ci_deltas item else "").
Proof.
  intros (_ & _ & -> & _ & Hcase) Hkind. destruct (String.eqb_spec (ci_kind item) kind) as [<-|Hne];
    [rewrite bool_decide_eq_true_2 by done|by rewrite bool_decide_eq_false_2 by congruence].
  unfold item_text, get_array. destruct Hcase as [(_ & _ & ->)|[(_ & ->)|(Hk & _)]]; [| |rewrite Hk in Hkind; by destruct Hkind].
  all: simpl; unfold part_text, output_text_part, reasoning_text_part, get_str; rewrite get_json_object; simpl; apply append_nil.
Qed.

Lemma agreed_texts merging kind cl_items items :
  Forall2 (agrees merging print_json json_stream) cl_items items -> (kind = "message" \/ kind = "reasoning") ->
  texts_of kind items = deltas_of kind cl_items.
Proof.
  intros H Hkind. induction H as [|item final cl_items items Ha _ IH]; [done|]. simpl.
  by rewrite (agrees_text merging item final kind Ha Hkind), IH.
Qed.

(** C18. A stream that is translated to its end loses nothing of what was said: the text
    and the reasoning of the upstream, the contents of its deltas one after the other up to
    the event that reports the usage, are what a client of the translated stream gets in
    its deltas, and they are the text and the reasoning of the items of the final
    response. *)
Theorem translated_text_complete registry strict events last self outputs :
  translate_stream (ChatToResponsesState_new registry strict) events last = (self, Ok outputs) ->
  Z.of_nat (length outputs) <= usize_max ->
  exists client response items, client_replay client_new outputs = Some client /\
    heard client = (stream_says events ("", "", false)).1 /\
    cl_terminal client = Some response /\ get response "output" = Some (JArray items) /\
    response_says items = (stream_says events ("", "", false)).1.
Proof.
  intros Hs Hroom.
  destruct (stream_replay strict [] _ client_new _ _ _ _ (tracks_new _ _) Hs Hroom) as (client & Hr & Hend & Hheard).
  pose proof (stream_said (ChatToResponsesState_new registry strict) _ _ _ _ eq_refl Hs) as Hsaid. apply (f_equal fst) in Hsaid. cbn [fst] in Hsaid.
  change ((said self).1) with (told self) in Hsaid.
  change (said (ChatToResponsesState_new registry strict)) with ("", "", false) in Hsaid.
  rewrite Hsaid in Hheard. destruct Hend as (response & items & Ht & Ho & Ha). exists client, response, items.
  split_and!; [done..|]. rewrite <- Hheard. unfold response_says, heard.
  by rewrite !(agreed_texts _ _ _ _ Ha) by auto.
Qed.


(** The item of a call of a custom tool is a function call in a stream, where the
    whole response would have a custom tool call. *)
Theorem streamed_custom_call_is_function (parse_json : string -> option Value) (json_error : string -> string)
    self registry call identity arguments status item :
  tr_tool_registry self = Some registry -> registry_identity registry (default "" (st_name call)) = Some identity ->
  ti_kind identity = Custom ->
  restore_function_call print_json parse_json json_error registry
    (json_object
       [("id", JString (st_call_id call)); ("type", JString "function");
        ("function", json_object [("name", JString (default "" (st_name call))); ("arguments", JString arguments)])]) = Ok item ->
  get_str item "type" = Some "custom_tool_call" /\
  get_str (done_call_item print_json json_stream self call status) "type" = Some "function_call" /\
  get_str (done_call_item print_json json_stream self call status) "name" = Some (ti_name identity).
Proof.
  intros Hr Hi Hk. rewrite (restored_call _ _ _ _ _ _ _ _ Hi), Hk.
  destruct (extract_custom_input parse_json json_error arguments) as [input|]; simpl; [|done]. intros [= <-].
  unfold ChatToResponses.done_call_item, restored_tool_identity, restore_streamed_call_name. rewrite Hr. cbn [mbind option_bind].
  rewrite Hi. simpl. destruct (normalize_tool_arguments _ _ _). unfold get_str. rewrite !call_item_field by done. split_and!; [|done..].
  unfold call_item. rewrite Hk. by rewrite get_json_object.
Qed.

End Streams.

(** *** Reasoning that comes late *)

Definition delta_event (fields : list (string * Value)) : Value :=
  json_object
    [("id", JString "chat-1"); ("model", JString "m"); ("created", number 7);
     ("choices", JArray [json_object [("index", number 0); ("delta", json_object fields)]])].

Definition reasoning_event (content : string) : Value := delta_event [("reasoning_content", JString content)].
Definition text_event (content : string) : Value := delta_event [("content", JString content)].

(** Reasoning that comes after the text has begun goes to the item that was already
    closed: the client is given further deltas of it, and the reasoning item of the final
    response is not the one that the done event gave. *)
Theorem late_reasoning_changes_item complete_json print_json json_stream registry strict (draws1 draws2 draws3 last : Draws)
    c1 c2 c3 rest1 rest2 rest3 :
  let thought := String c1 rest1 in
  let answer := String c2 rest2 in
  let afterthought := String c3 rest3 in
  let response_id := gateway_response_id draws1 in
  let item_id := "rs-" +:+ dr_reasoning draws1 in
  exists self outputs,
    translate_stream complete_json print_json json_stream (ChatToResponsesState_new registry strict)
      [(draws1, reasoning_event thought); (draws2, text_event answer); (draws3, reasoning_event afterthought)] last =
      (self, Ok outputs) /\
    item_event "response.output_item.done" response_id 0 (make_reasoning_item item_id "completed" (Some thought)) 5 ∈ outputs /\
    make_reasoning_text_delta_event response_id item_id 0 afterthought 8 ∈ outputs /\
    make_response_terminal_event response_id 7 "m"
      (JArray [make_reasoning_item item_id "completed" (Some (thought +:+ afterthought));
               make_response_message_item ("msg-" +:+ dr_text draws2) "completed" (Some answer)])
      None None 11 ∈ outputs.
Proof.
  intros thought answer afterthought response_id item_id.
  set (run := translate_stream _ _ _ _ _ _).
  exists run.1, (match run.2 with Ok outputs => outputs | Err _ => [] end).
  split; [vm_compute; reflexivity|]. rewrite !list_elem_of_In.
  split_and!; vm_compute; repeat (first [left; reflexivity|right]).
Qed.

(** ** Concrete streams *)

Definition sample_draws (name : string) : Draws :=
  {| dr_response := name; dr_reasoning := name; dr_text := name; dr_call := fun _ => name; dr_now := 9 |}.

Definition call_event (fields function : list (string * Value)) : Value :=
  delta_event [("tool_calls", JArray [json_object (("function", json_object function) :: fields)])].

Definition usage_event : Value :=
  json_object
    [("choices", JArray []);
     ("usage", json_object [("prompt_tokens", number 3); ("completion_tokens", number 4)])].

Definition sample_events : list (Draws * Value) :=
  (fun event => (sample_draws "a", event)) <$>
    [delta_event [("role", JString "assistant")]; reasoning_event "hm"; text_event "Hel"; text_event "lo";
     call_event [("index", number 0); ("id", JString "c1")] [("name", JString "f"); ("arguments", JString "{")];
     call_event [("index", number 0)] [("arguments", JString "}")]; usage_event].


Lemma streamed_custom_call_is_function_witness :
  let self := ChatToResponsesState_new (Some sample_registry) true in
  let call := {| (new_call "c1" 0 (Some "gw_apply_patch_131313131313")) with st_arguments := ls_text |} in
  let input_stream := fun _ : string => [Some (json_object [("input", JString "x")])] in
  exists item,
    get_str item "type" = Some "custom_tool_call" /\ get_str item "input" = Some "x" /\
    get_str (done_call_item (fun _ => "") input_stream self call "completed") "type" = Some "function_call".
Proof.
  intros self call input_stream.
  exists (call_item patch_custom "c1" "x").
  destruct (streamed_custom_call_is_function (fun _ => "") input_stream (fun _ => Some (json_object [("input", JString "x")]))
    id self sample_registry call patch_custom ls_text "completed" (call_item patch_custom "c1" "x")) as (Ht & Hf & _);
    [reflexivity|vm_compute; reflexivity|reflexivity|vm_compute; reflexivity|].
  split_and!; [exact Ht|vm_compute; reflexivity|exact Hf].
Defined.

Lemma translated_text_complete_witness :
  exists self outputs client response items,
    translate_stream (fun _ => false) (fun _ => "") (fun _ => []) (ChatToResponsesState_new None false) sample_events
      (sample_draws "z") = (self, Ok outputs) /\
    client_replay client_new outputs = Some client /\ heard client = ("Hello", "hm") /\
    cl_terminal client = Some response /\ get response "output" = Some (JArray items) /\
    response_says items = ("Hello", "hm").
Proof.
  set (run := translate_stream (fun _ => false) (fun _ => "") (fun _ => []) (ChatToResponsesState_new None false)
    sample_events (sample_draws "z")).
  set (outputs := match run.2 with Ok outputs => outputs | Err _ => [] end).
  assert (Hrun : run = (run.1, Ok outputs)) by (vm_compute; reflexivity).
  assert (Hlen : length outputs = 16%nat) by (vm_compute; reflexivity).
  destruct (translated_text_complete (fun _ => false) (fun _ => "") (fun _ => []) None false sample_events (sample_draws "z")
    run.1 outputs Hrun) as (client & response & items & Hr & Hh & Ht & Ho & Hs); [rewrite Hlen; vm_compute; discriminate|].
  exists run.1, outputs, client, response, items. exact (conj Hrun (conj Hr (conj Hh (conj Ht (conj Ho Hs))))).
Defined.
