(* ===== verification/ImageAdapter.v ===== *)
(** * Images and reasoning between protocols

    [src/src/protocol/image_adapter.rs]: an image of one protocol as a part of another,
    as far as the dialect of the upstream allows; and
    [src/src/protocol/reasoning_adapter.rs]: the reasoning of a chat message as an item
    of a Responses document, and back. *)

From S2P Require Import Prelude ModelIdentity Protocol Json ResponseEvents.

Local Open Scope Z_scope.

(** ** Prefixes of text *)

(** [str::starts_with] and [str::strip_prefix]. *)
Definition text_strip_prefix (prefix s : string) : option string := text <$> strip_prefix (bytes prefix) (bytes s).
Definition text_starts_with (prefix s : string) : bool := starts_with (bytes s) (bytes prefix).

(** ** Images *)

Inductive ImageSource :=
| HttpsUrl (url : string)
| DataUrl (url : string)
| NativeFile (id : string).

Record ImagePart := { ip_source : ImageSource; ip_detail : option string }.

Record ImageDialect := {
  id_https_url : bool;
  id_data_url : bool;
  id_detail : bool;
  id_native_file_id : bool
}.

Record ImageAdaptation := { ia_value : Value; ia_downgrade : option string }.

Definition ImageDialect_all : ImageDialect :=
  {| id_https_url := true; id_data_url := true; id_detail := true; id_native_file_id := false |}.

Definition parse_data_url (value : string) : result (string * string) ProtocolError :=
  let? rest := ok_or (text_strip_prefix "data:" value) UnsupportedImageSource in
  let? (media, data) := ok_or (split_once (bytes ";base64,") (bytes rest)) UnsupportedImageSource in
  if negb (starts_with media (bytes "image/")) || is_empty data then Err UnsupportedImageSource
  else Ok (text media, text data).

Definition classify_url (value : string) : result ImageSource ProtocolError :=
  if text_starts_with "https://" value then Ok (HttpsUrl value)
  else if text_starts_with "data:" value then
    let? _ := parse_data_url value in Ok (DataUrl value)
  else Err UnsupportedImageSource.

(** The address of an image, if the dialect has a place for it. *)
Definition allowed_url (image : ImagePart) (dialect : ImageDialect) : result string ProtocolError :=
  match ip_source image with
  | HttpsUrl value => if id_https_url dialect then Ok value else Err UnsupportedImageSource
  | DataUrl value => if id_data_url dialect then Ok value else Err UnsupportedImageSource
  | NativeFile _ => Err UnsupportedImageSource
  end.

(** The detail goes into the object, or is left out with a note. *)
Definition insert_image_detail (image : ImagePart) (dialect : ImageDialect) (object : json_map) : json_map * option string :=
  match ip_detail image with
  | Some detail =>
      if id_detail dialect then (map_insert "detail" (JString detail) object, None)
      else (object, Some "optional_image_detail")
  | None => (object, None)
  end.

Definition emit_chat_image (image : ImagePart) (dialect : ImageDialect) : result ImageAdaptation ProtocolError :=
  let? url := allowed_url image dialect in
  let '(nested, downgrade) := insert_image_detail image dialect (json_fields [("url", JString url)]) in
  Ok {| ia_value := json_object [("type", JString "image_url"); ("image_url", JObject nested)]; ia_downgrade := downgrade |}.

Definition emit_responses_image (image : ImagePart) (dialect : ImageDialect) : result ImageAdaptation ProtocolError :=
  let? url := allowed_url image dialect in
  let '(value, downgrade) :=
    insert_image_detail image dialect (json_fields [("type", JString "input_image"); ("image_url", JString url)]) in
  Ok {| ia_value := JObject value; ia_downgrade := downgrade |}.

Definition messages_image_to_chat_part (block : Value) (dialect : ImageDialect) : result ImageAdaptation ProtocolError :=
  let? source := ok_or (v ← get block "source"; as_object v) (MissingField "source") in
  let? image :=
    match get_str (JObject source) "type" with
    | Some kind =>
        if String.eqb kind "url" then
          let? url := ok_or (get_str (JObject source) "url") (MissingField "url") in
          let? source := classify_url url in
          Ok {| ip_source := source; ip_detail := None |}
        else if String.eqb kind "base64" then
          let? media := ok_or (get_str (JObject source) "media_type") (MissingField "media_type") in
          let? data := ok_or (get_str (JObject source) "data") (MissingField "data") in
          let value := "data:" +:+ media +:+ ";base64," +:+ data in
          let? _ := parse_data_url value in
          Ok {| ip_source := DataUrl value; ip_detail := None |}
        else Err UnsupportedImageSource
    | None => Err UnsupportedImageSource
    end in
  emit_chat_image image dialect.

Definition chat_image_to_responses_part (part : Value) (dialect : ImageDialect) : result ImageAdaptation ProtocolError :=
  let? image_url := ok_or (get part "image_url") (MissingField "image_url") in
  let? (url, detail) :=
    match image_url with
    | JString url => Ok (url, None)
    | JObject object =>
        let? url := ok_or (get_str (JObject object) "url") (MissingField "url") in
        Ok (url, get_str (JObject object) "detail")
    | _ => Err UnsupportedImageSource
    end in
  let? source := classify_url url in
  emit_responses_image {| ip_source := source; ip_detail := detail |} dialect.

Definition responses_image_to_chat_part (part : Value) (dialect : ImageDialect) : result ImageAdaptation ProtocolError :=
  let? url := ok_or (get_str part "image_url") (MissingField "image_url") in
  let detail := get_str part "detail" in
  let? source := classify_url url in
  emit_chat_image {| ip_source := source; ip_detail := detail |} dialect.

(** ** Reasoning *)

(** [capabilities/types.rs]. *)
Inductive ReasoningCarrier :=
| NoCarrier
| ReasoningContent
| ResponsesReasoningItem
| MessagesThinking.

#[export] Instance ReasoningCarrier_eq_dec : EqDecision ReasoningCarrier.
Proof. solve_decision. Defined.

Definition chat_reasoning_item (message : Value) (id : string) (carrier : ReasoningCarrier)
    : option (ReasoningCarrier * Value) :=
  if bool_decide (carrier = MessagesThinking) then None
  else
    content ← get_str message "reasoning_content";
    if str_is_empty content then None
    else Some (ReasoningContent, make_reasoning_item id "completed" (Some content)).

Definition is_reasoning_text (part : Value) : bool := bool_decide (get_str part "type" = Some "reasoning_text").

Fixpoint reasoning_parts_text (parts : list Value) : result string ProtocolError :=
  match parts with
  | [] => Ok ""
  | part :: parts =>
      if is_reasoning_text part then
        let? content := ok_or (get_str part "text") (MissingField "text") in
        let? rest := reasoning_parts_text parts in
        Ok (content +:+ rest)
      else reasoning_parts_text parts
  end.

Definition responses_reasoning_text (item : Value) : result (option string) ProtocolError :=
  if negb (bool_decide (get_str item "type" = Some "reasoning")) then Ok None
  else
    let? content := ok_or (get_array item "content") (MissingField "content") in
    let? text := reasoning_parts_text content in
    Ok (Some text).
