(* ===== verification/MessageConversion.v ===== *)
(** * Messages between protocols

    How [src/src/protocol.rs] turns the messages, items and content parts of one
    protocol into those of the other ([translate_chat_message_to_responses],
    [translate_responses_input_item] and what they call).

    serde_json is a parameter, as in [ToolArguments] and [ToolAdapter]. Fresh
    identifiers are arguments. A function that appends to a vector and fails discards
    the vector with it, so the vector is part of the value. *)

From S2P Require Import Prelude ModelIdentity Protocol Json ToolArguments ToolAdapter ChatCanonicalizer ResponseEvents ChatToResponses ImageAdapter.

Local Open Scope Z_scope.

(** ** Context *)

Record ConversionContext := {
  cv_image_dialect : ImageDialect;
  cv_reasoning_carrier : ReasoningCarrier;
  cv_tool_registry : ToolAdapterRegistry;
  cv_tool_arguments_strict : bool;
  cv_model : option string;
  cv_request_id : option string;
  cv_upstream_id : option string
}.

Definition ConversionContext_default : ConversionContext :=
  {| cv_image_dialect := ImageDialect_all; cv_reasoning_carrier := NoCarrier; cv_tool_registry := registry_empty;
     cv_tool_arguments_strict := false; cv_model := None; cv_request_id := None; cv_upstream_id := None |}.

Definition ConversionContext_reasoning_content : ConversionContext :=
  {| ConversionContext_default with cv_reasoning_carrier := ReasoningContent |}.

Definition tool_arguments_context (self : ConversionContext) : ToolArgumentsContext :=
  {| ac_strict := cv_tool_arguments_strict self; ac_model := cv_model self; ac_request_id := cv_request_id self;
     ac_upstream_id := cv_upstream_id self |}.

Definition ToolArgumentsContext_default : ToolArgumentsContext :=
  {| ac_strict := false; ac_model := None; ac_request_id := None; ac_upstream_id := None |}.

(** ** Fields *)

Definition string_field (value : Value) (field : string) : result string ProtocolError :=
  ok_or (get_str value field) (MissingField field).

Definition array_field (value : Value) (field : string) : result (list Value) ProtocolError :=
  ok_or (get_array value field) (MissingField field).

Definition copy_field (input : Value) (field : string) (output : json_map) : json_map :=
  match get input field with Some value => map_insert field value output | None => output end.

Definition insert_nested_object_field (outer_field inner_field : string) (value : Value) (output : json_map) : json_map :=
  let output := or_insert outer_field (JObject []) output in
  match (entry ← map_get output outer_field; as_object entry) with
  | Some object => map_insert outer_field (JObject (map_insert inner_field value object)) output
  | None => output
  end.

Definition contains_key (object : json_map) (key : string) : bool := is_some (map_get object key).

Definition one_of (s : string) (names : list string) : bool := existsb (String.eqb s) names.

Definition typed_text (kind content : string) : Value := json_object [("type", JString kind); ("text", JString content)].

Section Conversion.
  Variable print_json : Value -> string.
  Variable json_stream : string -> list (option Value).

Notation normalized_arguments := (normalize_tool_arguments_for_request json_stream print_json).

(** ** Content *)

Definition chat_content_part_to_responses_input_part_with_dialect (part : Value) (dialect : ImageDialect)
    : result Value ProtocolError :=
  match as_str part with
  | Some content => Ok (typed_text "input_text" content)
  | None =>
      let? object := ok_or (as_object part) (InvalidPayload ("unsupported content part: " +:+ print_json part)) in
      let kind := default "text" (get_str (JObject object) "type") in
      if one_of kind ["text"; "input_text"; "output_text"] then
        let? content := ok_or (get_str (JObject object) "text") (MissingField "text") in
        Ok (typed_text "input_text" content)
      else if one_of kind ["image_url"; "input_image"] then
        let? adaptation := chat_image_to_responses_part (JObject object) dialect in
        Ok (ia_value adaptation)
      else if one_of kind ["file"; "input_file"] then
        let? file_id := ok_or (get_str (JObject object) "file_id") (MissingField "file_id") in
        Ok (json_object [("type", JString "input_file"); ("file_id", JString file_id)])
      else
        match get_str (JObject object) "text" with
        | Some content => Ok (typed_text "input_text" content)
        | None => Err (InvalidPayload ("unsupported content part type: " +:+ kind))
        end
  end.

Definition chat_content_to_responses_input_content_with_dialect (content : Value) (dialect : ImageDialect)
    : result Value ProtocolError :=
  match content with
  | JString content => Ok (JString content)
  | JArray parts =>
      let? converted := collect (fun part => chat_content_part_to_responses_input_part_with_dialect part dialect) parts in
      Ok (JArray converted)
  | JNull => Ok JNull
  | _ => Err (InvalidPayload "unsupported content payload")
  end.

(** The dialect is not used. *)
Definition chat_content_part_to_responses_output_part_with_dialect (part : Value) : result Value ProtocolError :=
  match as_str part with
  | Some content => Ok (typed_text "output_text" content)
  | None =>
      let? object := ok_or (as_object part) (InvalidPayload ("unsupported content part: " +:+ print_json part)) in
      let kind := default "text" (get_str (JObject object) "type") in
      if one_of kind ["text"; "input_text"; "output_text"] then
        let? content := ok_or (get_str (JObject object) "text") (MissingField "text") in
        Ok (typed_text "output_text" content)
      else Err (InvalidPayload ("unsupported chat content part type: " +:+ kind))
  end.

Definition chat_content_to_responses_output_content_with_dialect (content : Value) : result Value ProtocolError :=
  match content with
  | JString content => Ok (JArray [typed_text "output_text" content])
  | JArray parts =>
      let? converted := collect chat_content_part_to_responses_output_part_with_dialect parts in
      Ok (JArray converted)
  | JNull => Ok (JArray [])
  | other => Err (InvalidPayload ("unsupported chat content: " +:+ print_json other))
  end.

Definition chat_text_part_text (value : Value) : option string :=
  object ← as_object value;
  if bool_decide (get_str (JObject object) "type" = Some "text") then get_str (JObject object) "text" else None.

Definition is_chat_text_part (value : Value) : bool := is_some (chat_text_part_text value).

Definition image_url_string (object : json_map) : option string :=
  or_else
    (image_url ← map_get object "image_url";
     match image_url with
     | JString url => Some url
     | JObject image => get_str (JObject image) "url"
     | _ => None
     end)
    (get_str (JObject object) "url").

Definition responses_content_part_to_chat_content_part_with_dialect (part : Value) (dialect : ImageDialect)
    : result Value ProtocolError :=
  match as_str part with
  | Some content => Ok (typed_text "text" content)
  | None =>
      let? object := ok_or (as_object part) (InvalidPayload ("unsupported responses content part: " +:+ print_json part)) in
      match get_str (JObject object) "text" with
      | Some content => Ok (typed_text "text" content)
      | None =>
          if is_some (image_url_string object) then
            let? adaptation := responses_image_to_chat_part (JObject object) dialect in
            Ok (ia_value adaptation)
          else Err (InvalidPayload ("unsupported responses content part: " +:+ print_json part))
      end
  end.

Definition concat_texts (parts : list Value) : string :=
  foldr (fun part rest => default "" (chat_text_part_text part) +:+ rest) "" parts.

Definition responses_content_to_chat_content_with_dialect (content : Value) (dialect : ImageDialect)
    : result Value ProtocolError :=
  match content with
  | JNull => Ok JNull
  | JString content => Ok (JString content)
  | JArray parts =>
      let? converted := collect (fun part => responses_content_part_to_chat_content_part_with_dialect part dialect) parts in
      if forallb is_chat_text_part converted then Ok (JString (concat_texts converted)) else Ok (JArray converted)
  | other => Err (InvalidPayload ("unsupported responses content: " +:+ print_json other))
  end.

(** ** Calls and their outputs *)

Definition function_call_item (call_id name arguments : string) : Value :=
  json_object
    [("type", JString "function_call"); ("id", JString call_id); ("call_id", JString call_id); ("name", JString name);
     ("arguments", JString arguments); ("status", JString "completed")].

Definition chat_tool_call (call_id name arguments : string) : Value :=
  json_object
    [("id", JString call_id); ("type", JString "function");
     ("function", json_object [("name", JString name); ("arguments", JString arguments)])].

Definition chat_tool_call_to_function_call (tool_call : Value) (ctx : ToolArgumentsContext) : result Value ProtocolError :=
  let? object := ok_or (as_object tool_call) (InvalidPayload "unsupported tool call") in
  let? (name, arguments) := ok_or (extract_tool_call_details object) (MissingField "function") in
  let? name := ok_or name (MissingField "name") in
  let call_id := default name (v ← or_else (map_get object "id") (map_get object "call_id"); as_str v) in
  let? arguments := (if str_is_empty arguments then Ok "{}" else normalized_arguments arguments ctx call_id) in
  Ok (function_call_item call_id name arguments).

Definition chat_function_call_to_function_call (function_call : Value) (ctx : ToolArgumentsContext)
    : result Value ProtocolError :=
  let? object := ok_or (as_object function_call) (InvalidPayload ("unsupported function call: " +:+ print_json function_call)) in
  let? name := ok_or (get_str (JObject object) "name") (MissingField "name") in
  let call_id := default name (v ← or_else (map_get object "id") (map_get object "call_id"); as_str v) in
  let raw_arguments := default "{}" (get_str (JObject object) "arguments") in
  let? arguments := normalized_arguments raw_arguments ctx call_id in
  Ok (function_call_item call_id name arguments).

Definition chat_tool_message_to_function_call_output (message : Value) : result Value ProtocolError :=
  let? call_id := ok_or (v ← or_else (or_else (get message "tool_call_id") (get message "call_id")) (get message "name"); as_str v)
    (MissingField "tool_call_id") in
  let? content := ok_or (get message "content") (MissingField "content") in
  let? output := content_to_plain_text content in
  Ok (json_object [("type", JString "function_call_output"); ("call_id", JString call_id); ("output", JString output)]).

Definition response_chat_tool_name (object : json_map) (original_name : string) (tool_registry : option ToolAdapterRegistry)
    : string :=
  match tool_registry with
  | None => original_name
  | Some tool_registry =>
      let namespace := opt_filter (fun namespace => negb (str_is_empty namespace)) (get_str (JObject object) "namespace") in
      let identity :=
        if bool_decide (get_str (JObject object) "type" = Some "custom_tool_call") then custom_identity namespace original_name
        else match namespace with
             | Some namespace => namespace_identity namespace original_name
             | None => function_identity original_name
             end in
      default original_name (registry_upstream_name tool_registry identity)
  end.

Definition item_call_id (object : json_map) : result string ProtocolError :=
  ok_or (v ← or_else (map_get object "call_id") (map_get object "id"); as_str v) (MissingField "call_id").

Definition response_function_call_item_to_chat_tool_call (object : json_map) (tool_registry : option ToolAdapterRegistry)
    (ctx : ToolArgumentsContext) : result Value ProtocolError :=
  let? call_id := item_call_id object in
  let? name := ok_or (get_str (JObject object) "name") (MissingField "name") in
  let name := response_chat_tool_name object name tool_registry in
  let raw_arguments := default "{}" (get_str (JObject object) "arguments") in
  let? arguments := normalized_arguments raw_arguments ctx call_id in
  Ok (chat_tool_call call_id name arguments).

Definition response_custom_tool_call_item_to_chat_tool_call (object : json_map) (tool_registry : option ToolAdapterRegistry)
    : result Value ProtocolError :=
  let? call_id := item_call_id object in
  let? name := ok_or (get_str (JObject object) "name") (MissingField "name") in
  let name := response_chat_tool_name object name tool_registry in
  let? input := ok_or (get_str (JObject object) "input") (MissingField "input") in
  Ok (chat_tool_call call_id name (print_json (json_object [("input", JString input)]))).

Definition responses_tool_output_object_to_chat_message (object : json_map) : result Value ProtocolError :=
  let? call_id := ok_or (v ← or_else (or_else (map_get object "tool_call_id") (map_get object "call_id")) (map_get object "id");
                         as_str v) (MissingField "tool_call_id") in
  let? content := ok_or (or_else (map_get object "output") (map_get object "content")) (MissingField "content") in
  let? content := content_to_plain_text content in
  Ok (json_object [("role", JString "tool"); ("tool_call_id", JString call_id); ("content", JString content)]).

(** ** Messages that agents send each other *)

(** Looks into the [content] of objects and into arrays. *)
Fixpoint agent_message_contains_encrypted_content (value : Value) : bool :=
  match value with
  | JArray values => existsb agent_message_contains_encrypted_content values
  | JObject fields =>
      bool_decide (get_str (JObject fields) "type" = Some "encrypted_content")
      || is_some_and (fun value => negb (is_null value)) (map_get fields "encrypted_content")
      || (fix in_content (fields : json_map) : bool :=
            match fields with
            | [] => false
            | (key, value) :: fields =>
                if String.eqb key "content" then agent_message_contains_encrypted_content value else in_content fields
            end) fields
  | _ => false
  end.

(** The parts that [append_agent_message_content_part] appends. *)
Fixpoint agent_message_content_parts (part : Value) : list Value :=
  match part with
  | JString content => [typed_text "input_text" content]
  | JObject fields =>
      match get_str (JObject fields) "text" with
      | Some content => [typed_text "input_text" content]
      | None =>
          (fix in_content (fields : json_map) : list Value :=
             match fields with
             | [] => []
             | (key, value) :: fields =>
                 if String.eqb key "content" then
                   match value with
                   | JArray nested => flat_map agent_message_content_parts nested
                   | nested => agent_message_content_parts nested
                   end
                 else in_content fields
             end) fields
      end
  | _ => []
  end.

Definition agent_message_object_to_chat_message (object : json_map) (dialect : ImageDialect) : result Value ProtocolError :=
  if agent_message_contains_encrypted_content (JObject object) then Err EncryptedAgentMessageUnsupported
  else
    let content_parts :=
      match map_get object "content" with
      | Some (JArray parts) => flat_map agent_message_content_parts parts
      | Some (JString content) => [typed_text "input_text" content]
      | Some JNull | None => []
      | Some content => agent_message_content_parts content
      end in
    let content_parts :=
      match get_str (JObject object) "text" with
      | Some content => content_parts ++ [typed_text "input_text" content]
      | None => content_parts
      end in
    let? content := responses_content_to_chat_content_with_dialect (JArray content_parts) dialect in
    Ok (json_object [("role", JString "assistant"); ("content", content)]).

(** ** Items of a Responses document as chat messages *)

(** [tool_calls] of a message, each read as a function call. *)
Definition converted_tool_calls (object : json_map) (ctx : ToolArgumentsContext) (message : json_map)
    : result json_map ProtocolError :=
  match get_array (JObject object) "tool_calls" with
  | Some tool_calls =>
      let? converted := collect (fun tool_call =>
        let? tool_call := ok_or (as_object tool_call) (InvalidPayload "unsupported tool call") in
        response_function_call_item_to_chat_tool_call tool_call None ctx) tool_calls in
      Ok (if is_empty converted then message else map_insert "tool_calls" (JArray converted) message)
  | None => Ok message
  end.

Definition responses_message_object_to_chat_message_with_dialect (object : json_map) (dialect : ImageDialect)
    (ctx : ToolArgumentsContext) : result Value ProtocolError :=
  let role := default "user" (get_str (JObject object) "role") in
  if String.eqb role "tool" || String.eqb role "function" || contains_key object "tool_call_id" then
    responses_tool_output_object_to_chat_message object
  else
    let role := if one_of role ["system"; "user"; "assistant"] then role else "system" in
    let message := json_fields [("role", JString role)] in
    let? content :=
      match map_get object "content" with
      | Some content => responses_content_to_chat_content_with_dialect content dialect
      | None => Ok JNull
      end in
    let message := map_insert "content" content message in
    let message :=
      match get_str (JObject object) "reasoning_content" with
      | Some reasoning_content =>
          if str_is_empty reasoning_content then message
          else map_insert "reasoning_content" (JString reasoning_content) message
      | None => message
      end in
    let? message := converted_tool_calls object ctx message in
    Ok (JObject message).

Inductive ResponseOutputItemKind :=
| MessageItem
| AgentMessageItem
| FunctionCallItem
| CustomToolCallItem
| ReasoningOutputItem.

Definition response_output_item_kind (object : json_map) : result ResponseOutputItemKind ProtocolError :=
  match get_str (JObject object) "type" with
  | Some kind =>
      if String.eqb kind "message" then Ok MessageItem
      else if String.eqb kind "agent_message" then Ok AgentMessageItem
      else if String.eqb kind "function_call" then Ok FunctionCallItem
      else if String.eqb kind "custom_tool_call" then Ok CustomToolCallItem
      else if String.eqb kind "reasoning" then Ok ReasoningOutputItem
      else Err (InvalidPayload "unsupported responses output item type")
  | None =>
      if existsb (contains_key object) ["role"; "content"; "tool_calls"; "tool_call_id"] then Ok MessageItem
      else Err (InvalidPayload "unsupported responses output item")
  end.

Definition response_output_message_object_to_chat_message (object : json_map) : result Value ProtocolError :=
  let? _ :=
    match get_str (JObject object) "role" with
    | Some role =>
        if String.eqb role "assistant" then Ok tt
        else Err (InvalidPayload ("unsupported responses output role: " +:+ role))
    | None => Ok tt
    end in
  let? content :=
    match map_get object "content" with
    | Some content => responses_content_to_chat_content_with_dialect content ImageDialect_all
    | None => Ok JNull
    end in
  let? message := converted_tool_calls object ToolArgumentsContext_default
    (json_fields [("role", JString "assistant"); ("content", content)]) in
  Ok (JObject message).

Definition response_output_message_item_to_chat_message (object : json_map) : result Value ProtocolError :=
  if bool_decide (get_str (JObject object) "type" = Some "agent_message")
  then agent_message_object_to_chat_message object ImageDialect_all
  else response_output_message_object_to_chat_message object.

Definition response_output_item_to_chat_message (item : Value) : result (option Value) ProtocolError :=
  let? object := ok_or (as_object item) (InvalidPayload "unsupported responses output item") in
  let? kind := response_output_item_kind object in
  match kind with
  | FunctionCallItem | CustomToolCallItem | ReasoningOutputItem => Ok None
  | MessageItem | AgentMessageItem =>
      let? message := response_output_message_item_to_chat_message object in
      Ok (Some message)
  end.

Definition response_output_item_to_chat_tool_call (item : Value) (tool_registry : option ToolAdapterRegistry)
    (ctx : ToolArgumentsContext) : result (option Value) ProtocolError :=
  let? object := ok_or (as_object item) (InvalidPayload "unsupported responses output item") in
  let? kind := response_output_item_kind object in
  match kind with
  | FunctionCallItem =>
      let? tool_call := response_function_call_item_to_chat_tool_call object tool_registry ctx in
      Ok (Some tool_call)
  | CustomToolCallItem =>
      let? tool_call := response_custom_tool_call_item_to_chat_tool_call object tool_registry in
      Ok (Some tool_call)
  | MessageItem | AgentMessageItem | ReasoningOutputItem => Ok None
  end.

(** ** The assistant message under construction *)

Definition chat_content_value_to_parts (value : Value) : result (list Value) ProtocolError :=
  match value with
  | JNull => Ok []
  | JString content => Ok [typed_text "text" content]
  | JArray parts => Ok parts
  | other => Err (InvalidPayload ("unsupported chat content value: " +:+ print_json other))
  end.

Definition merge_chat_message_content (current next : Value) : result Value ProtocolError :=
  match current, next with
  | JNull, value => Ok value
  | value, JNull => Ok value
  | JString former, JString latter => Ok (JString (former +:+ latter))
  | former, latter =>
      let? parts := chat_content_value_to_parts former in
      let? more := chat_content_value_to_parts latter in
      Ok (JArray (parts ++ more))
  end.

Definition new_assistant : json_map := json_fields [("role", JString "assistant"); ("content", JNull)].

Definition merge_reasoning (object pending : json_map) : json_map :=
  match get_str (JObject object) "reasoning_content" with
  | Some reasoning_content =>
      if str_is_empty reasoning_content then pending
      else map_insert "reasoning_content"
             (JString (default "" (get_str (JObject pending) "reasoning_content") +:+ reasoning_content)) pending
  | None => pending
  end.

Definition merge_tool_calls (object pending : json_map) : result json_map ProtocolError :=
  match get_array (JObject object) "tool_calls" with
  | Some tool_calls =>
      let pending := or_insert "tool_calls" (JArray []) pending in
      let? merged := ok_or (get_array (JObject pending) "tool_calls") (InvalidPayload "assistant tool_calls must be an array") in
      Ok (map_insert "tool_calls" (JArray (merged ++ tool_calls)) pending)
  | None => Ok pending
  end.

Definition merge_assistant_chat_message (pending : option json_map) (message : Value) : result json_map ProtocolError :=
  let? object := ok_or (as_object message) (InvalidPayload "unsupported assistant message") in
  let role := default "assistant" (get_str (JObject object) "role") in
  if negb (String.eqb role "assistant") then Err (InvalidPayload ("expected assistant message, got role: " +:+ role))
  else
    let pending := default new_assistant pending in
    let? pending :=
      match map_get object "content" with
      | Some content =>
          let? merged := merge_chat_message_content (default JNull (map_get pending "content")) content in
          Ok (map_insert "content" merged pending)
      | None => Ok pending
      end in
    merge_tool_calls object (merge_reasoning object pending).

(** The messages so far, and the assistant message that is not among them yet. *)
Record Conversation := { cn_pending : option json_map; cn_messages : list Value }.

Definition flush_pending_assistant_message (self : Conversation) : Conversation :=
  {| cn_pending := None; cn_messages := cn_messages self ++ option_list (JObject <$> cn_pending self) |}.

(** A message that is not the assistant's. *)
Definition push_message (self : Conversation) (message : Value) : Conversation :=
  let self := flush_pending_assistant_message self in
  {| self with cn_messages := cn_messages self ++ [message] |}.

Definition merge_message (self : Conversation) (message : Value) : result Conversation ProtocolError :=
  let? pending := merge_assistant_chat_message (cn_pending self) message in
  Ok {| self with cn_pending := Some pending |}.

Definition merge_or_push (self : Conversation) (role : option string) (message : Value) : result Conversation ProtocolError :=
  if bool_decide (role = Some "assistant") then merge_message self message else Ok (push_message self message).

(** ** Items of a request *)

Definition user_message (content : string) : Value := json_object [("role", JString "user"); ("content", JString content)].

Definition assistant_call_message (tool_call : Value) : Value :=
  json_object [("role", JString "assistant"); ("content", JNull); ("tool_calls", JArray [tool_call])].

Definition assistant_reasoning_message (reasoning : string) : Value :=
  json_object [("role", JString "assistant"); ("content", JNull); ("reasoning_content", JString reasoning)].

Definition translate_reasoning_item (item : Value) (context : ConversionContext) (self : Conversation)
    : result Conversation ProtocolError :=
  if negb (bool_decide (cv_reasoning_carrier context = ReasoningContent)) then Ok self
  else
    let? reasoning := responses_reasoning_text item in
    match reasoning with
    | Some reasoning =>
        if str_is_empty reasoning then Ok self else merge_message self (assistant_reasoning_message reasoning)
    | None => Ok self
    end.

Definition translate_call_item (item : Value) (context : ConversionContext) (self : Conversation)
    : result Conversation ProtocolError :=
  let? tool_call := adapt_responses_function_call print_json json_stream (cv_tool_registry context) item
    (tool_arguments_context context) in
  merge_message self (assistant_call_message tool_call).

Definition translate_message_item (object : json_map) (context : ConversionContext) (self : Conversation)
    : result Conversation ProtocolError :=
  let? message := responses_message_object_to_chat_message_with_dialect object (cv_image_dialect context)
    (tool_arguments_context context) in
  merge_or_push self (get_str (JObject object) "role") message.

(** The branches for objects without a type of their own. *)
Definition translate_untyped_item (object : json_map) (context : ConversionContext) (self : Conversation)
    : result Conversation ProtocolError :=
  if existsb (contains_key object) ["role"; "content"; "tool_call_id"; "tool_calls"] then
    let? message := responses_message_object_to_chat_message_with_dialect object (cv_image_dialect context)
      (tool_arguments_context context) in
    merge_or_push self (get_str message "role") message
  else Err (InvalidPayload "unsupported responses input item").

Definition translate_responses_input_item (item : Value) (context : ConversionContext) (self : Conversation)
    : result Conversation ProtocolError :=
  match item with
  | JString content => Ok (push_message self (user_message content))
  | JObject object =>
      match get_str item "type" with
      | Some kind =>
          if String.eqb kind "reasoning" then translate_reasoning_item item context self
          else if String.eqb kind "function_call" || String.eqb kind "custom_tool_call" then
            translate_call_item item context self
          else if String.eqb kind "function_call_output" then
            let? message := responses_tool_output_object_to_chat_message object in
            Ok (push_message self message)
          else if String.eqb kind "custom_tool_call_output" then
            let? adapted := adapt_call_output (cv_tool_registry context) item in
            let? adapted := ok_or (as_object adapted) (InvalidPayload "adapted tool output is not an object") in
            let? message := responses_tool_output_object_to_chat_message adapted in
            Ok (push_message self message)
          else if String.eqb kind "message" then translate_message_item object context self
          else if String.eqb kind "agent_message" then
            let? message := agent_message_object_to_chat_message object (cv_image_dialect context) in
            merge_or_push self (get_str message "role") message
          else if contains_key object "role" || contains_key object "content" then
            translate_message_item (map_insert "type" (JString kind) object) context self
          else translate_untyped_item object context self
      | None => translate_untyped_item object context self
      end
  | _ => Err (InvalidPayload "unsupported input item")
  end.

Fixpoint translate_responses_input_items (items : list Value) (context : ConversionContext) (self : Conversation)
    : result Conversation ProtocolError :=
  match items with
  | [] => Ok self
  | item :: items =>
      let? self := translate_responses_input_item item context self in
      translate_responses_input_items items context self
  end.

(** ** Chat messages as items of a request *)

Definition role_item (role : string) (content : Value) : Value := json_object [("role", JString role); ("content", content)].

(** The items of an assistant message; [rs_id] is the fresh identifier of its reasoning. *)
Definition assistant_items (message : Value) (context : ConversionContext) (rs_id : string) : result (list Value) ProtocolError :=
  let reasoning := option_list (snd <$> chat_reasoning_item message ("rs-" +:+ rs_id) (cv_reasoning_carrier context)) in
  let? content :=
    match get_non_null message "content" with
    | Some content =>
        let? converted := chat_content_to_responses_input_content_with_dialect content (cv_image_dialect context) in
        Ok [role_item "assistant" converted]
    | None => Ok []
    end in
  let tool_calls := get_array message "tool_calls" in
  let? calls := collect (fun tool_call => chat_tool_call_to_function_call tool_call (tool_arguments_context context))
    (default [] tool_calls) in
  let? call :=
    match get message "function_call" with
    | Some function_call =>
        let? item := chat_function_call_to_function_call function_call (tool_arguments_context context) in
        Ok [item]
    | None => Ok []
    end in
  if is_empty reasoning && is_empty content && is_none tool_calls && is_empty call then Err (MissingField "content")
  else Ok (reasoning ++ content ++ calls ++ call).

(** What a message adds to the instructions and to the input. *)
Definition translate_chat_message_to_responses (message : Value) (context : ConversionContext) (rs_id : string)
    : result (list string * list Value) ProtocolError :=
  let? role := string_field message "role" in
  if one_of role ["system"; "developer"] then
    match get message "content" with
    | Some content =>
        let? content := content_to_plain_text content in
        Ok (if str_is_empty content then ([], []) else ([content], []))
    | None => Ok ([], [])
    end
  else if String.eqb role "assistant" then
    let? items := assistant_items message context rs_id in Ok ([], items)
  else if one_of role ["tool"; "function"] then
    let? item := chat_tool_message_to_function_call_output message in Ok ([], [item])
  else
    let? content := ok_or (get message "content") (MissingField "content") in
    let? converted := chat_content_to_responses_input_content_with_dialect content (cv_image_dialect context) in
    Ok ([], [role_item role converted]).

Fixpoint translate_chat_messages_to_responses (messages : list Value) (context : ConversionContext) (draws : nat -> string)
    : result (list string * list Value) ProtocolError :=
  match messages with
  | [] => Ok ([], [])
  | message :: messages =>
      let? (instructions, items) := translate_chat_message_to_responses message context (draws 0%nat) in
      let? (more_instructions, more_items) := translate_chat_messages_to_responses messages context (fun i => draws (S i)) in
      Ok (instructions ++ more_instructions, items ++ more_items)
  end.

End Conversion.
