(* ===== verification/PayloadConversion.v ===== *)
(** * Requests and responses between protocols

    The conversions of whole documents of [src/src/protocol.rs]:
    [chat_request_to_responses_payload_with_context],
    [responses_request_to_chat_payload_with_context],
    [chat_response_to_responses_payload_with_context] and
    [responses_response_to_chat_payload_with_tool_registry]. Fresh identifiers are
    arguments. *)

From S2P Require Import Prelude ModelIdentity Protocol Json ToolArguments ToolAdapter ChatCanonicalizer ResponseEvents ChatToResponses ImageAdapter MessageConversion.

Local Open Scope Z_scope.

Definition copy_fields (input : Value) (fields : list string) (output : json_map) : json_map :=
  fold_left (fun output field => copy_field input field output) fields output.

Definition insert_some (field : string) (value : option Value) (output : json_map) : json_map :=
  match value with Some value => map_insert field value output | None => output end.

(** The text between double quotes. *)
Definition quoted (s : string) : string := text (code [34]) +:+ s +:+ text (code [34]).

Section Payloads.
  Variable print_json : Value -> string.
  Variable json_stream : string -> list (option Value).
  Variable parse_json : string -> option Value.
  Variable json_error : string -> string.

(** ** Tools *)

Definition function_definition_to_tool (function : Value) : result Value ProtocolError :=
  if is_object function then Ok (json_object [("type", JString "function"); ("function", function)])
  else Err (InvalidPayload ("unsupported function definition: " +:+ print_json function)).

Definition chosen_function (name : string) : Value :=
  json_object [("type", JString "function"); ("function", json_object [("name", JString name)])].

Definition chat_function_call_to_tool_choice (function_call : Value) : result Value ProtocolError :=
  match function_call with
  | JString choice =>
      if one_of choice ["auto"; "none"; "required"] then Ok (JString choice)
      else Err (InvalidPayload ("unsupported function_call value: " +:+ choice))
  | JObject object =>
      let? name := ok_or
        (v ← or_else (map_get object "name") (function ← (v ← map_get object "function"; as_object v); map_get function "name");
         as_str v) (MissingField "name") in
      Ok (chosen_function name)
  | other => Err (InvalidPayload ("unsupported function_call value: " +:+ print_json other))
  end.

Definition responses_tool_definition_to_chat_tool (tool : Value) : result Value ProtocolError :=
  let? object := ok_or (as_object tool) (InvalidPayload ("unsupported tool definition: " +:+ print_json tool)) in
  match (v ← map_get object "function"; as_object v) with
  | Some function => Ok (function_tool function)
  | None =>
      let? _ :=
        match get_str (JObject object) "type" with
        | Some tool_type =>
            if String.eqb tool_type "function" then Ok tt
            else Err (InvalidPayload ("unsupported responses tool type: " +:+ tool_type))
        | None => Ok tt
        end in
      let function := map_remove "type" object in
      if contains_key function "name" then Ok (function_tool function) else Err (MissingField "name")
  end.

Definition responses_tool_choice_to_chat_tool_choice (tool_choice : Value) (has_supported_tools : bool)
    : result (option Value) ProtocolError :=
  match tool_choice with
  | JString choice =>
      if String.eqb choice "none" then Ok (Some (JString choice))
      else if String.eqb choice "auto" then Ok (if has_supported_tools then Some (JString choice) else None)
      else if String.eqb choice "required" then
        if has_supported_tools then Ok (Some (JString choice))
        else Err (InvalidPayload ("responses tool_choice " +:+ quoted "required" +:+ " requires at least one supported function tool"))
      else Err (InvalidPayload ("unsupported responses tool_choice value: " +:+ choice))
  | JObject object =>
      let? _ :=
        match get_str (JObject object) "type" with
        | Some tool_type =>
            if String.eqb tool_type "function" then Ok tt
            else Err (InvalidPayload ("unsupported responses tool_choice type: " +:+ tool_type))
        | None => Ok tt
        end in
      if negb has_supported_tools then
        Err (InvalidPayload "responses function tool_choice requires at least one supported function tool")
      else
        match (v ← map_get object "function"; as_object v) with
        | Some function =>
            let? name := ok_or (get_str (JObject function) "name") (MissingField "name") in
            Ok (Some (chosen_function name))
        | None =>
            let? name := ok_or (get_str (JObject object) "name") (MissingField "name") in
            Ok (Some (chosen_function name))
        end
  | other => Err (InvalidPayload ("unsupported responses tool_choice value: " +:+ print_json other))
  end.

(** ** Requests *)

(** [n] must be one, or absent. *)
Definition check_single_choice (input : Value) : result unit ProtocolError :=
  match get input "n" with
  | Some n =>
      match as_u64 n with
      | Some value =>
          if value =? 1 then Ok tt
          else Err (InvalidPayload
            ("multiple chat completion choices are not supported when converting Chat Completions payloads to Responses payloads: n="
             +:+ print_json n))
      | None => Err (InvalidPayload ("unsupported chat completion n value for Responses payloads: " +:+ print_json n))
      end
  | None => Ok tt
  end.

(** The options of the stream that both protocols have. *)
Definition copy_stream_options (input : Value) (output : json_map) : json_map :=
  match (v ← get input "stream_options"; as_object v) with
  | Some stream_options =>
      match map_get stream_options "include_obfuscation" with
      | Some include_obfuscation =>
          map_insert "stream_options" (json_object [("include_obfuscation", include_obfuscation)]) output
      | None => output
      end
  | None => output
  end.

(** The options of the text, which the Responses protocol nests. *)
Definition nest_text_options (input : Value) (output : json_map) : json_map :=
  let output := match get input "response_format" with
                | Some response_format => insert_nested_object_field "text" "format" response_format output
                | None => output end in
  match get input "verbosity" with
  | Some verbosity => insert_nested_object_field "text" "verbosity" verbosity output
  | None => output
  end.

Definition lift_text_options (input : Value) (output : json_map) : json_map :=
  match (v ← get input "text"; as_object v) with
  | Some text => insert_some "verbosity" (map_get text "verbosity") (insert_some "response_format" (map_get text "format") output)
  | None => output
  end.

Definition request_tools (input : Value) : result (option Value) ProtocolError :=
  match get input "tools" with
  | Some tools => Ok (Some tools)
  | None =>
      match get_array input "functions" with
      | Some functions =>
          let? tools := collect function_definition_to_tool functions in
          Ok (Some (JArray tools))
      | None => Ok None
      end
  end.

Definition request_tool_choice (input : Value) : result (option Value) ProtocolError :=
  match get input "tool_choice" with
  | Some tool_choice => Ok (Some tool_choice)
  | None =>
      match get input "function_call" with
      | Some function_call => let? choice := chat_function_call_to_tool_choice function_call in Ok (Some choice)
      | None => Ok None
      end
  end.

(** [join("\n")]. *)
Definition join_lines (lines : list string) : string := text (join_on [LF] (bytes <$> lines)).

Definition shared_fields : list string :=
  ["stream"; "temperature"; "top_p"; "stop"; "metadata"; "service_tier"; "store"; "safety_identifier"; "prompt_cache_key"].

Definition chat_request_to_responses_payload_with_context (draws : nat -> string) (input : Value) (context : ConversionContext)
    : result Value ProtocolError :=
  let? model := string_field input "model" in
  let? messages := array_field input "messages" in
  let? _ := check_single_choice input in
  let? (instructions, response_input) := translate_chat_messages_to_responses print_json json_stream messages context draws in
  let output := json_fields [("model", JString model)] in
  let output := copy_fields input (shared_fields ++ ["client_metadata"; "prompt_cache_retention"]) output in
  let output := if contains_key output "prompt_cache_key" then output
                else insert_some "prompt_cache_key" (get input "user") output in
  let output := copy_field input "parallel_tool_calls" output in
  let? tools := request_tools input in
  let output := insert_some "tools" tools output in
  let? tool_choice := request_tool_choice input in
  let output := insert_some "tool_choice" tool_choice output in
  let output := insert_some "max_output_tokens"
    (or_else (or_else (get input "max_output_tokens") (get input "max_tokens")) (get input "max_completion_tokens")) output in
  let output := insert_some "instructions" (if is_empty instructions then None else Some (JString (join_lines instructions)))
    output in
  let output := copy_stream_options input (nest_text_options input output) in
  let output := insert_some "reasoning"
    ((fun effort => json_object [("effort", JString effort)]) <$> get_str input "reasoning_effort") output in
  Ok (JObject (map_insert "input" (JArray response_input) output)).

(** The conversation of a Responses request. *)
Definition request_conversation (input : Value) (context : ConversionContext) : result Conversation ProtocolError :=
  let? messages :=
    match get input "instructions" with
    | Some instructions =>
        let? content := responses_content_to_chat_content_with_dialect print_json instructions (cv_image_dialect context) in
        Ok [role_item "system" content]
    | None => Ok []
    end in
  let conversation := {| cn_pending := None; cn_messages := messages |} in
  let? input_value := ok_or (get input "input") (MissingField "input") in
  match input_value with
  | JString content => Ok (push_message conversation (user_message content))
  | JArray items => translate_responses_input_items print_json json_stream items context conversation
  | JObject _ => translate_responses_input_item print_json json_stream input_value context conversation
  | other => Err (InvalidPayload ("unsupported input payload: " +:+ print_json other))
  end.

Definition converted_tools (input : Value) : result (list Value) ProtocolError :=
  collect responses_tool_definition_to_chat_tool (default [] (get_array input "tools")).

Definition responses_request_to_chat_payload_with_context (input : Value) (context : ConversionContext)
    : result Value ProtocolError :=
  let? model := string_field input "model" in
  let? conversation := request_conversation input context in
  let messages := cn_messages (flush_pending_assistant_message conversation) in
  let output := json_fields [("model", JString model)] in
  let output := copy_fields input (shared_fields ++ ["prompt_cache_retention"]) output in
  let output := insert_some "reasoning_effort"
    (JString <$> (reasoning ← (v ← get input "reasoning"; as_object v); get_str (JObject reasoning) "effort")) output in
  let? converted := converted_tools input in
  let output := insert_some "tools" (if is_empty converted then None else Some (JArray converted)) output in
  let has_supported_tools := negb (is_empty converted) in
  let? tool_choice :=
    match get input "tool_choice" with
    | Some tool_choice => responses_tool_choice_to_chat_tool_choice tool_choice has_supported_tools
    | None => Ok None
    end in
  let output := insert_some "tool_choice" tool_choice output in
  let output := copy_field input "parallel_tool_calls" output in
  let output := insert_some "max_tokens" (get input "max_output_tokens") output in
  let output := copy_stream_options input (lift_text_options input output) in
  Ok (JObject (map_insert "messages" (JArray messages) output)).

(** ** Responses *)

Definition mark_incomplete (item : Value) : Value :=
  match item with JObject object => JObject (map_insert "status" (JString "incomplete") object) | _ => item end.

Definition restore_item (tool_registry : ToolAdapterRegistry) (item : Value) : result Value ProtocolError :=
  match as_object item with
  | Some object =>
      if bool_decide (get_str item "type" = Some "function_call")
      then restore_function_call print_json parse_json json_error tool_registry (JObject object)
      else Ok item
  | None => Ok item
  end.

(** The items of a chat message in a response. *)
Definition response_items (response_id : string) (message : Value) (context : ConversionContext)
    : result (list Value) ProtocolError :=
  let reasoning := option_list (snd <$> chat_reasoning_item message ("rs-" +:+ response_id) (cv_reasoning_carrier context)) in
  let? content :=
    match get_non_null message "content" with
    | Some content =>
        let? converted := chat_content_to_responses_output_content_with_dialect print_json content in
        Ok [json_object
              [("id", JString ("msg-" +:+ response_id)); ("type", JString "message"); ("status", JString "completed");
               ("role", JString "assistant"); ("content", converted)]]
    | None => Ok []
    end in
  let? calls :=
    match get_array message "tool_calls" with
    | Some tool_calls =>
        collect (fun tool_call => chat_tool_call_to_function_call print_json json_stream tool_call
          (tool_arguments_context context)) tool_calls
    | None =>
        match get message "function_call" with
        | Some function_call =>
            let? item := chat_function_call_to_function_call print_json json_stream function_call
              (tool_arguments_context context) in
            Ok [item]
        | None => Ok []
        end
    end in
  Ok (reasoning ++ content ++ calls).

Definition chat_response_to_responses_payload_with_context (response_uuid : string) (input : Value) (context : ConversionContext)
    : result Value ProtocolError :=
  let? model := string_field input "model" in
  let response_id := "resp_" +:+ response_uuid in
  let? choices := array_field input "choices" in
  match choices with
  | [] => Err (MissingField "choices[0]")
  | _ :: _ :: _ =>
      Err (InvalidPayload
        "multiple chat completion choices are not supported when converting Chat Completions responses to Responses payloads")
  | [choice] =>
      let incomplete_reason := responses_incomplete_reason (get_str choice "finish_reason") in
      let? message := ok_or (get choice "message") (MissingField "choices[0].message") in
      let? output_items := response_items response_id message context in
      if is_empty output_items then Err (MissingField "choices[0].message.content")
      else
        let output_items := if is_some incomplete_reason then mark_incomplete <$> output_items else output_items in
        let output := json_fields
          [("id", JString response_id); ("object", JString "response");
           ("status", JString (if is_some incomplete_reason then "incomplete" else "completed"))] in
        let output := match incomplete_reason with
                      | Some reason => map_insert "incomplete_details" (json_object [("reason", JString reason)]) output
                      | None => output end in
        let output := map_insert "created" (default (number 0) (get input "created")) output in
        let output := map_insert "model" (JString model) output in
        let? output_items := collect (restore_item (cv_tool_registry context)) output_items in
        let output := map_insert "output" (JArray output_items) output in
        Ok (JObject (insert_some "usage" (chat_usage_to_responses_usage <$> get input "usage") output))
  end.

Definition responses_usage_to_chat_usage (usage : Value) : Value :=
  let prompt_tokens := usage_token_count usage "input_tokens" "prompt_tokens" in
  let completion_tokens := usage_token_count usage "output_tokens" "completion_tokens" in
  let output := json_fields
    [("prompt_tokens", number prompt_tokens); ("completion_tokens", number completion_tokens);
     ("total_tokens", number (usage_total_tokens usage prompt_tokens completion_tokens))] in
  let output := insert_detail "prompt_tokens_details"
    (or_else (get usage "prompt_tokens_details") (get usage "input_tokens_details")) output in
  JObject (insert_detail "completion_tokens_details"
    (or_else (get usage "completion_tokens_details") (get usage "output_tokens_details")) output).

(** What the items of a response amount to. *)
Record AssistantOutput := {
  ao_message : option Value;
  ao_tool_calls : list Value;
  ao_reasoning : string
}.

Definition take_output_item (tool_registry : option ToolAdapterRegistry) (self : AssistantOutput) (item : Value)
    : result AssistantOutput ProtocolError :=
  let? reasoning := responses_reasoning_text item in
  match reasoning with
  | Some reasoning => Ok {| self with ao_reasoning := ao_reasoning self +:+ reasoning |}
  | None =>
      let? message := response_output_item_to_chat_message print_json json_stream item in
      match message with
      | Some message =>
          if is_some (ao_message self) then
            Err (InvalidPayload
              "multiple assistant messages are not supported when converting Responses payloads to chat payloads")
          else Ok {| self with ao_message := Some message |}
      | None =>
          let? tool_call := response_output_item_to_chat_tool_call print_json json_stream item tool_registry
            ToolArgumentsContext_default in
          Ok {| self with ao_tool_calls := ao_tool_calls self ++ option_list tool_call |}
      end
  end.

Fixpoint take_output_items (tool_registry : option ToolAdapterRegistry) (self : AssistantOutput) (items : list Value)
    : result AssistantOutput ProtocolError :=
  match items with
  | [] => Ok self
  | item :: items =>
      let? self := take_output_item tool_registry self item in take_output_items tool_registry self items
  end.

Definition assistant_output_new : AssistantOutput := {| ao_message := None; ao_tool_calls := []; ao_reasoning := "" |}.

Definition assistant_output_message (self : AssistantOutput) : json_map :=
  let message := json_fields
    [("role", JString "assistant"); ("content", default JNull (message ← ao_message self; get message "content"))] in
  let message := if is_empty (ao_tool_calls self) then message
                 else map_insert "tool_calls" (JArray (ao_tool_calls self)) message in
  if str_is_empty (ao_reasoning self) then message
  else map_insert "reasoning_content" (JString (ao_reasoning self)) message.

Definition responses_response_to_chat_payload_with_tool_registry (input : Value) (tool_registry : option ToolAdapterRegistry)
    : result Value ProtocolError :=
  let? model := string_field input "model" in
  let? output_items := array_field input "output" in
  let? taken := take_output_items tool_registry assistant_output_new output_items in
  let message := assistant_output_message taken in
  let finish_reason := if contains_key message "tool_calls" then "tool_calls" else "stop" in
  let output := json_fields
    [("id", default (JString "chatcmpl") (get input "id")); ("object", JString "chat.completion");
     ("created", default (number 0) (get input "created")); ("model", JString model);
     ("choices", JArray [json_object
        [("index", number 0); ("message", JObject message); ("finish_reason", JString finish_reason)]])] in
  Ok (JObject (insert_some "usage" (responses_usage_to_chat_usage <$> get input "usage") output)).

End Payloads.
