(* ===== verification/Conversations.v ===== *)
(** * Conversations between protocols

    What [MessageConversion] and [PayloadConversion] do to the messages of a request.
    A conversation is given as its [Turn]s, the messages that a chat client sends; the
    proofs follow the items of the turns through the assistant message under
    construction, whose contents form a monoid ([Said]). *)

From S2P Require Import Prelude ModelIdentity Protocol Json ToolArguments ToolAdapter ChatCanonicalizer ResponseEvents StreamAggregate ChatToResponses ImageAdapter MessageConversion PayloadConversion.

Local Open Scope Z_scope.

(** ** Turns of a conversation *)

Record ToolCall := { tc_id : string; tc_name : string; tc_arguments : string }.

(** What an assistant message says; no reasoning is the empty text. *)
Record Said := { sd_content : option string; sd_reasoning : string; sd_calls : list ToolCall }.

#[export] Instance ToolCall_eq_dec : EqDecision ToolCall.
Proof. solve_decision. Defined.
#[export] Instance Said_eq_dec : EqDecision Said.
Proof. solve_decision. Defined.

Inductive Part :=
| TextPart (content : string)
| UrlPart (url : string) (detail : option string).

Inductive Turn :=
| SystemTurn (content : string)
| UserTurn (content : string)
| UserPartsTurn (parts : list Part)
| AssistantTurn (said : Said)
| ToolTurn (call_id output : string).

Definition insert_calls (calls : list ToolCall) (message : json_map) : json_map :=
  if is_empty calls then message
  else map_insert "tool_calls"
         (JArray ((fun call => chat_tool_call (tc_id call) (tc_name call) (tc_arguments call)) <$> calls)) message.

Definition insert_reasoning (reasoning : string) (message : json_map) : json_map :=
  if str_is_empty reasoning then message else map_insert "reasoning_content" (JString reasoning) message.

Definition assistant_fields (said : Said) : json_map :=
  insert_calls (sd_calls said) (insert_reasoning (sd_reasoning said)
    (json_fields [("role", JString "assistant"); ("content", from_option JString JNull (sd_content said))])).

Definition part_value (part : Part) : Value :=
  match part with
  | TextPart content => typed_text "text" content
  | UrlPart url detail =>
      json_object [("type", JString "image_url");
                   ("image_url", JObject (insert_some "detail" (JString <$> detail) (json_fields [("url", JString url)])))]
  end.

(** The chat message of a turn. *)
Definition turn_message (turn : Turn) : Value :=
  match turn with
  | SystemTurn content => role_item "system" (JString content)
  | UserTurn content => role_item "user" (JString content)
  | UserPartsTurn parts => role_item "user" (JArray (part_value <$> parts))
  | AssistantTurn said => JObject (assistant_fields said)
  | ToolTurn call_id output =>
      json_object [("role", JString "tool"); ("tool_call_id", JString call_id); ("content", JString output)]
  end.

(** ** What comes of a conversation *)

Definition nothing_said : Said := {| sd_content := None; sd_reasoning := ""; sd_calls := [] |}.

Definition join_content (a b : option string) : option string :=
  match a, b with Some a, Some b => Some (a +:+ b) | None, b => b | a, None => a end.

Definition join_said (a b : Said) : Said :=
  {| sd_content := join_content (sd_content a) (sd_content b); sd_reasoning := sd_reasoning a +:+ sd_reasoning b;
     sd_calls := sd_calls a ++ sd_calls b |}.

(** Texts alone are one text. *)
Definition plain_text (part : Part) : option string := match part with TextPart content => Some content | _ => None end.

Definition flat_parts (parts : list Part) : Turn :=
  if forallb (fun part => is_some (plain_text part)) parts
  then UserTurn (foldr (fun part rest => default "" (plain_text part) +:+ rest) "" parts) else UserPartsTurn parts.

(** Reasoning goes on only in the field that has it. *)
Definition heard (carrier : ReasoningCarrier) (said : Said) : Said :=
  if bool_decide (carrier = ReasoningContent) then said else {| said with sd_reasoning := "" |}.

(** A turn on its own. *)
Definition arrived (carrier : ReasoningCarrier) (turn : Turn) : Turn :=
  match turn with
  | AssistantTurn said => AssistantTurn (heard carrier said)
  | UserPartsTurn parts => flat_parts parts
  | turn => turn
  end.

(** Neighbouring assistant messages are one message. *)
Fixpoint merged (turns : list Turn) : list Turn :=
  match turns with
  | [] => []
  | AssistantTurn said :: turns =>
      match merged turns with
      | AssistantTurn more :: rest => AssistantTurn (join_said said more) :: rest
      | rest => AssistantTurn said :: rest
      end
  | turn :: turns => turn :: merged turns
  end.

(** The system messages become one message, at the beginning. *)
Definition is_system (turn : Turn) : bool := match turn with SystemTurn _ => true | _ => false end.
Definition system_texts (turns : list Turn) : list string :=
  flat_map (fun turn => match turn with SystemTurn content => if str_is_empty content then [] else [content] | _ => [] end) turns.
Definition system_turns (texts : list string) : list Turn := if is_empty texts then [] else [SystemTurn (join_lines texts)].
Definition spoken (turns : list Turn) : list Turn := retain (fun turn => negb (is_system turn)) turns.

(** The conversation that the other side gets. *)
Definition carried (carrier : ReasoningCarrier) (turns : list Turn) : list Turn :=
  system_turns (system_texts turns) ++ merged (arrived carrier <$> spoken turns).

(** ** Conversations as clients write them *)

Section Conversations.
  Variable print_json : Value -> string.
  Variable json_stream : string -> list (option Value).
  Variable context : ConversionContext.

(** Arguments that are already complete, and a name that the registry does not replace. *)
Definition call_wf (call : ToolCall) : Prop :=
  tc_arguments call <> "" /\
  normalize_tool_arguments_for_request json_stream print_json (tc_arguments call) (tool_arguments_context context)
    (tc_id call) = Ok (tc_arguments call) /\
  default (tc_name call) (registry_upstream_name (cv_tool_registry context) (function_identity (tc_name call))) = tc_name call.

(** An image that the dialect has a place for. *)
Definition part_wf (part : Part) : Prop :=
  match part with
  | TextPart _ => True
  | UrlPart url detail =>
      exists source, classify_url url = Ok source /\
        allowed_url {| ip_source := source; ip_detail := detail |} (cv_image_dialect context) = Ok url /\
        (detail = None \/ id_detail (cv_image_dialect context) = true)
  end.

Definition turn_wf (turn : Turn) : Prop :=
  match turn with
  | AssistantTurn said => (sd_content said <> None \/ sd_calls said <> []) /\ Forall call_wf (sd_calls said)
  | UserPartsTurn parts => Forall part_wf parts
  | _ => True
  end.

(** ** There: the items of a turn *)

Definition call_item (call : ToolCall) : Value := function_call_item (tc_id call) (tc_name call) (tc_arguments call).

Definition reasoning_items (rs_id reasoning : string) : list Value :=
  if bool_decide (cv_reasoning_carrier context = MessagesThinking) || str_is_empty reasoning then []
  else [make_reasoning_item ("rs-" +:+ rs_id) "completed" (Some reasoning)].

Definition content_items (content : option string) : list Value :=
  match content with Some content => [role_item "assistant" (JString content)] | None => [] end.

Definition input_part (part : Part) : Value :=
  match part with
  | TextPart content => typed_text "input_text" content
  | UrlPart url detail =>
      JObject (insert_some "detail" (JString <$> detail) (json_fields [("type", JString "input_image"); ("image_url", JString url)]))
  end.

Definition turn_items (rs_id : string) (turn : Turn) : list Value :=
  match turn with
  | SystemTurn _ => []
  | UserTurn content => [role_item "user" (JString content)]
  | UserPartsTurn parts => [role_item "user" (JArray (input_part <$> parts))]
  | AssistantTurn said => reasoning_items rs_id (sd_reasoning said) ++ content_items (sd_content said) ++ (call_item <$> sd_calls said)
  | ToolTurn call_id output =>
      [json_object [("type", JString "function_call_output"); ("call_id", JString call_id); ("output", JString output)]]
  end.

Lemma assistant_field said key :
  map_get (assistant_fields said) key =
    if String.eqb "tool_calls" key && negb (is_empty (sd_calls said)) then
      Some (JArray ((fun call => chat_tool_call (tc_id call) (tc_name call) (tc_arguments call)) <$> sd_calls said))
    else if String.eqb "reasoning_content" key && negb (str_is_empty (sd_reasoning said)) then Some (JString (sd_reasoning said))
    else map_get (json_fields [("role", JString "assistant"); ("content", from_option JString JNull (sd_content said))]) key.
Proof.
  unfold assistant_fields, insert_calls, insert_reasoning.
  destruct (is_empty (sd_calls said)), (str_is_empty (sd_reasoning said)); cbn [negb];
    by rewrite ?andb_true_r, ?andb_false_r, ?map_get_insert.
Qed.

Lemma collect_map {A B C E} (f : B -> result C E) (g : A -> B) (h : A -> C) l :
  Forall (fun x => f (g x) = Ok (h x)) l -> collect f (g <$> l) = Ok (h <$> l).
Proof. induction 1 as [|x l Hx _ IH]; [done|]. rewrite !fmap_cons. simpl. by rewrite Hx, IH. Qed.

Lemma call_there call :
  call_wf call ->
  chat_tool_call_to_function_call print_json json_stream (chat_tool_call (tc_id call) (tc_name call) (tc_arguments call))
    (tool_arguments_context context) = Ok (call_item call).
Proof.
  intros (Hne & Hn & _). unfold chat_tool_call_to_function_call, chat_tool_call. simpl.
  unfold extract_tool_call_details. simpl. unfold named_arguments. simpl.
  destruct (str_is_empty (tc_arguments call)) eqn:He.
  - by apply str_is_empty_true in He.
  - simpl. by rewrite Hn.
Qed.


Section Urls.
  Context (source : ImageSource) (url : string) (detail : option string).
  Hypothesis Hallowed : allowed_url {| ip_source := source; ip_detail := detail |} (cv_image_dialect context) = Ok url.
  Hypothesis Hdetail : detail = None \/ id_detail (cv_image_dialect context) = true.

Lemma emit_responses_url :
  (let? adaptation := emit_responses_image {| ip_source := source; ip_detail := detail |} (cv_image_dialect context) in
   Ok (ia_value adaptation)) = Ok (input_part (UrlPart url detail)).
Proof.
  unfold emit_responses_image. rewrite Hallowed. unfold insert_image_detail. cbn.
  destruct detail as [detail'|]; [|done]. destruct Hdetail as [?|Hd]; [done|]. by rewrite Hd.
Qed.

Lemma emit_chat_url :
  (let? adaptation := emit_chat_image {| ip_source := source; ip_detail := detail |} (cv_image_dialect context) in
   Ok (ia_value adaptation)) = Ok (part_value (UrlPart url detail)).
Proof.
  unfold emit_chat_image. rewrite Hallowed. unfold insert_image_detail. cbn.
  destruct detail as [detail'|]; [|done]. destruct Hdetail as [?|Hd]; [done|]. by rewrite Hd.
Qed.

End Urls.

Lemma part_there part :
  part_wf part ->
  chat_content_part_to_responses_input_part_with_dialect print_json (part_value part) (cv_image_dialect context) = Ok (input_part part).
Proof.
  destruct part as [content|url detail]; [done|]. intros (source & Hs & Ha & Hd).
  unfold chat_content_part_to_responses_input_part_with_dialect. simpl.
  unfold chat_image_to_responses_part. simpl.
  destruct detail as [detail|]; simpl; rewrite Hs; exact (emit_responses_url _ _ _ Ha Hd).
Qed.

Lemma part_back part :
  part_wf part ->
  responses_content_part_to_chat_content_part_with_dialect print_json (input_part part) (cv_image_dialect context) =
    Ok (part_value part).
Proof.
  destruct part as [content|url detail]; [done|]. intros (source & Hs & Ha & Hd).
  unfold responses_content_part_to_chat_content_part_with_dialect.
  destruct detail as [detail|]; simpl; unfold responses_image_to_chat_part; simpl; rewrite Hs;
    exact (emit_chat_url _ _ _ Ha Hd).
Qed.

Lemma message_fields_said said :
  let message := JObject (assistant_fields said) in
  get_str message "role" = Some "assistant" /\
  get_non_null message "content" = JString <$> sd_content said /\
  get_str message "reasoning_content" = (if str_is_empty (sd_reasoning said) then None else Some (sd_reasoning said)) /\
  get_array message "tool_calls" =
    (if is_empty (sd_calls said) then None
     else Some ((fun call => chat_tool_call (tc_id call) (tc_name call) (tc_arguments call)) <$> sd_calls said)) /\
  get message "function_call" = None.
Proof.
  intros message. unfold get_non_null, get_str, get_array, message, get. rewrite !assistant_field.
  split_and!; try done; simpl.
  - by destruct (sd_content said).
  - by destruct (str_is_empty (sd_reasoning said)).
  - by destruct (sd_calls said).
Qed.

Lemma assistant_there said rs_id :
  turn_wf (AssistantTurn said) ->
  assistant_items print_json json_stream (JObject (assistant_fields said)) context rs_id = Ok (turn_items rs_id (AssistantTurn said)).
Proof.
  intros [Hsome Hcalls]. destruct (message_fields_said said) as (_ & Hc & Hr & Hk & Hf).
  unfold assistant_items, chat_reasoning_item. rewrite Hc, Hr, Hk, Hf.
  assert (Hcollect : collect (fun tool_call => chat_tool_call_to_function_call print_json json_stream tool_call
      (tool_arguments_context context)) (default [] (if is_empty (sd_calls said) then None
        else Some ((fun call => chat_tool_call (tc_id call) (tc_name call) (tc_arguments call)) <$> sd_calls said)))
    = Ok (call_item <$> sd_calls said)).
  { destruct (sd_calls said) as [|call calls]; [done|]. simpl is_empty. apply collect_map.
    eapply Forall_impl; [exact Hcalls|]. intros x Hx. by apply call_there. }
  rewrite Hcollect.
  assert (Hreasoning : option_list (snd <$> (if bool_decide (cv_reasoning_carrier context = MessagesThinking) then None
      else content ← (if str_is_empty (sd_reasoning said) then None else Some (sd_reasoning said));
           if str_is_empty content then None
           else Some (ReasoningContent, make_reasoning_item ("rs-" +:+ rs_id) "completed" (Some content))))
    = reasoning_items rs_id (sd_reasoning said)).
  { unfold reasoning_items. destruct (bool_decide _); [done|]. destruct (str_is_empty (sd_reasoning said)) eqn:He; [done|].
    simpl. by rewrite He. }
  rewrite Hreasoning. destruct (sd_content said) as [content|] eqn:Hcontent; simpl; rewrite Hcontent.
  - rewrite ?andb_false_r. simpl. by rewrite app_nil_r.
  - destruct Hsome as [?|Hsome]; [done|]. destruct (sd_calls said); [done|]. simpl. rewrite andb_false_r. simpl.
    by rewrite app_nil_r.
Qed.

Lemma turn_there turn rs_id :
  turn_wf turn ->
  translate_chat_message_to_responses print_json json_stream (turn_message turn) context rs_id =
    Ok (system_texts [turn], turn_items rs_id turn).
Proof.
  intros Hwf. unfold translate_chat_message_to_responses, string_field. destruct turn as [content|content|parts|said|call_id output].
  - simpl. by destruct (str_is_empty content).
  - done.
  - simpl. rewrite (collect_map _ part_value input_part); [done|]. eapply Forall_impl; [exact Hwf|]. intros part Hp.
    by apply part_there.
  - destruct (message_fields_said said) as (Hrole & _). simpl turn_message. rewrite Hrole. simpl.
    by rewrite assistant_there.
  - done.
Qed.

Fixpoint conversation_items (draws : nat -> string) (turns : list Turn) : list Value :=
  match turns with
  | [] => []
  | turn :: turns => turn_items (draws 0%nat) turn ++ conversation_items (fun i => draws (S i)) turns
  end.

Lemma turns_there turns draws :
  Forall turn_wf turns ->
  translate_chat_messages_to_responses print_json json_stream (turn_message <$> turns) context draws =
    Ok (system_texts turns, conversation_items draws turns).
Proof.
  intros H. revert draws. induction H as [|turn turns Hturn _ IH]; intros draws; [done|]. rewrite fmap_cons. simpl.
  rewrite turn_there by done. simpl. rewrite IH. simpl. by rewrite app_nil_r.
Qed.

(** ** Back: the items of a turn *)

#[local] Notation back := (translate_responses_input_items print_json json_stream).

Lemma items_app items more self :
  back (items ++ more) context self =
    (let? self := back items context self in back more context self).
Proof.
  revert self. induction items as [|item items IH]; intros self; [done|]. simpl.
  destruct (translate_responses_input_item _ _ _ _ _) as [self'|]; [apply IH|done].
Qed.

Definition pending_fields (pending : option Said) : option json_map := assistant_fields <$> pending.

Definition saying (pending : option Said) (messages : list Value) : Conversation :=
  {| cn_pending := pending_fields pending; cn_messages := messages |}.

Lemma assistant_content said content :
  map_insert "content" (from_option JString JNull content) (assistant_fields said) =
    assistant_fields {| said with sd_content := content |}.
Proof.
  unfold assistant_fields, insert_calls, insert_reasoning. simpl sd_reasoning. simpl sd_calls.
  by destruct (is_empty (sd_calls said)), (str_is_empty (sd_reasoning said)).
Qed.

Lemma assistant_reasoning said reasoning :
  reasoning <> "" ->
  map_insert "reasoning_content" (JString reasoning) (assistant_fields said) =
    assistant_fields {| said with sd_reasoning := reasoning |}.
Proof.
  intros Hne%str_is_empty_false. unfold assistant_fields, insert_calls, insert_reasoning. cbn [sd_reasoning sd_calls].
  rewrite Hne. by destruct (is_empty (sd_calls said)), (str_is_empty (sd_reasoning said)).
Qed.

Lemma assistant_calls said calls :
  calls <> [] ->
  map_insert "tool_calls" (JArray ((fun call => chat_tool_call (tc_id call) (tc_name call) (tc_arguments call)) <$> calls))
    (assistant_fields said) = assistant_fields {| said with sd_calls := calls |}.
Proof.
  intros Hne. unfold assistant_fields, insert_calls, insert_reasoning. simpl sd_reasoning. simpl sd_calls.
  destruct calls; [done|]. by destruct (is_empty (sd_calls said)), (str_is_empty (sd_reasoning said)).
Qed.

Lemma merge_content_said a b :
  merge_chat_message_content print_json (from_option JString JNull a) (from_option JString JNull b) =
    Ok (from_option JString JNull (join_content a b)).
Proof. by destruct a, b. Qed.

Lemma merge_reasoning_said pending said :
  merge_reasoning (assistant_fields said) (assistant_fields pending) =
    assistant_fields {| pending with sd_reasoning := sd_reasoning pending +:+ sd_reasoning said |}.
Proof.
  destruct (message_fields_said said) as (_ & _ & Hr & _). unfold merge_reasoning. rewrite Hr.
  destruct (str_is_empty (sd_reasoning said)) eqn:He.
  - apply str_is_empty_true in He. rewrite He, append_nil. by destruct pending.
  - rewrite He. destruct (message_fields_said pending) as (_ & _ & Hp & _). rewrite Hp.
    apply str_is_empty_false in He.
    assert (Hd : default "" (if str_is_empty (sd_reasoning pending) then None else Some (sd_reasoning pending)) =
      sd_reasoning pending).
    { destruct (str_is_empty (sd_reasoning pending)) eqn:Hpe; [|done]. by apply str_is_empty_true in Hpe. }
    rewrite Hd. apply assistant_reasoning. intros Hz. destruct (sd_reasoning pending); [|done]. done.
Qed.

Lemma merge_calls_said pending said :
  merge_tool_calls (assistant_fields said) (assistant_fields pending) =
    Ok (assistant_fields {| pending with sd_calls := sd_calls pending ++ sd_calls said |}).
Proof.
  destruct (message_fields_said said) as (_ & _ & _ & Hk & _). unfold merge_tool_calls. rewrite Hk.
  destruct (decide (sd_calls said = [])) as [Hnone|Hsome].
  - rewrite Hnone, app_nil_r. by destruct pending.
  - replace (is_empty (sd_calls said)) with false by by destruct (sd_calls said).
    assert (Hget : get_array (JObject (or_insert "tool_calls" (JArray []) (assistant_fields pending))) "tool_calls" =
      Some ((fun call => chat_tool_call (tc_id call) (tc_name call) (tc_arguments call)) <$> sd_calls pending)).
    { unfold get_array, get. rewrite map_get_or_insert. simpl. rewrite assistant_field. by destruct (sd_calls pending). }
    rewrite Hget. simpl. rewrite <-fmap_app. f_equal. rewrite <-assistant_calls by (intros [_ ?]%app_eq_nil; done).
    unfold or_insert. rewrite assistant_field. destruct (sd_calls pending) eqn:Hp; [|done].
    unfold assistant_fields, insert_reasoning, insert_calls. rewrite Hp. by destruct (str_is_empty (sd_reasoning pending)).
Qed.

Lemma merge_said pending messages more :
  merge_message print_json (saying pending messages) (JObject (assistant_fields more)) =
    Ok (saying (Some (join_said (default nothing_said pending) more)) messages).
Proof.
  unfold merge_message, merge_assistant_chat_message. simpl as_object.
  destruct (message_fields_said more) as (Hrole & _). cbn [ok_or]. rewrite Hrole. cbn [default negb String.eqb].
  assert (Hpending : default new_assistant (cn_pending (saying pending messages)) = assistant_fields (default nothing_said pending))
    by by destruct pending.
  cbn match. rewrite Hpending. generalize (default nothing_said pending) as former. intros former.
  rewrite !assistant_field. simpl. rewrite merge_content_said.
  rewrite assistant_content, merge_reasoning_said, merge_calls_said. done.
Qed.

Lemma join_nothing_l said : join_said nothing_said said = said.
Proof. destruct said as [[?|] ? ?]; done. Qed.

Lemma join_nothing_r said : join_said said nothing_said = said.
Proof. destruct said as [content reasoning calls]. unfold join_said. simpl. rewrite append_nil, app_nil_r. by destruct content. Qed.

Lemma join_said_assoc a b c : join_said a (join_said b c) = join_said (join_said a b) c.
Proof.
  unfold join_said. simpl. rewrite app_assoc, append_assoc.
  destruct (sd_content a), (sd_content b), (sd_content c); simpl; by rewrite ?append_assoc.
Qed.

Lemma join_said_nothing a b : join_said a b = nothing_said -> a = nothing_said /\ b = nothing_said.
Proof.
  destruct a as [[?|] [|] [|]], b as [[?|] [|] [|]]; unfold join_said; simpl; intros H; by inversion H.
Qed.

(** A piece that says nothing leaves no message behind. *)
Definition more_said (pending : option Said) (piece : Said) : option Said :=
  if decide (piece = nothing_said) then pending else Some (join_said (default nothing_said pending) piece).

Lemma more_said_app pending a b : more_said (more_said pending a) b = more_said pending (join_said a b).
Proof.
  unfold more_said. destruct (decide (a = nothing_said)) as [->|Ha].
  - by rewrite join_nothing_l.
  - rewrite (decide_False (P := join_said a b = _)) by (intros [? _]%join_said_nothing; done).
    destruct (decide (b = nothing_said)) as [->|Hb]; [by rewrite join_nothing_r|]. simpl. by rewrite join_said_assoc.
Qed.

Definition only_reasoning (reasoning : string) : Said := {| nothing_said with sd_reasoning := reasoning |}.
Definition only_content (content : option string) : Said := {| nothing_said with sd_content := content |}.
Definition only_calls (calls : list ToolCall) : Said := {| nothing_said with sd_calls := calls |}.

Lemma said_pieces said :
  join_said (only_reasoning (sd_reasoning said)) (join_said (only_content (sd_content said)) (only_calls (sd_calls said))) = said.
Proof. destruct said as [content reasoning calls]. unfold join_said. simpl. rewrite append_nil. by destruct content. Qed.

Lemma back_reasoning rs_id reasoning pending messages :
  back (reasoning_items rs_id reasoning) context (saying pending messages) =
    Ok (saying (more_said pending
      (only_reasoning (if bool_decide (cv_reasoning_carrier context = ReasoningContent) then reasoning else ""))) messages).
Proof.
  unfold reasoning_items. destruct (bool_decide (_ = MessagesThinking)) eqn:Hm; simpl orb; cbn match.
  { apply bool_decide_eq_true in Hm. by rewrite Hm. }
  destruct (str_is_empty reasoning) eqn:He; cbn match.
  { apply str_is_empty_true in He as ->. by destruct (bool_decide (_ = ReasoningContent)). }
  simpl. unfold translate_reasoning_item. destruct (bool_decide (_ = ReasoningContent)); simpl; [|done].
  rewrite append_nil, He.
  assert (Hmessage : assistant_reasoning_message reasoning = JObject (assistant_fields (only_reasoning reasoning))).
  { unfold assistant_reasoning_message, assistant_fields, insert_reasoning. simpl sd_reasoning. by rewrite He. }
  rewrite Hmessage, merge_said. simpl. unfold more_said. rewrite decide_False; [done|].
  intros H. injection H as ->. done.
Qed.

Lemma back_content content pending messages :
  back (content_items content) context (saying pending messages) =
    Ok (saying (more_said pending (only_content content)) messages).
Proof.
  destruct content as [content|]; [|done].
  transitivity (let? self := merge_message print_json (saying pending messages)
    (JObject (assistant_fields (only_content (Some content)))) in Ok self); [done|]. by rewrite merge_said.
Qed.

Lemma call_back call :
  call_wf call ->
  adapt_responses_function_call print_json json_stream (cv_tool_registry context) (call_item call)
    (tool_arguments_context context) = Ok (chat_tool_call (tc_id call) (tc_name call) (tc_arguments call)).
Proof.
  intros (_ & Hn & Hname). unfold adapt_responses_function_call, call_item, function_call_item, responses_call_identity.
  simpl. rewrite Hn. simpl. by rewrite Hname.
Qed.

Lemma back_calls calls pending messages :
  Forall call_wf calls ->
  back (call_item <$> calls) context (saying pending messages) =
    Ok (saying (more_said pending (only_calls calls)) messages).
Proof.
  intros H. revert pending. induction H as [|call calls Hcall _ IH]; intros pending; [done|].
  assert (Hone : translate_responses_input_item print_json json_stream (call_item call) context (saying pending messages) =
    Ok (saying (more_said pending (only_calls [call])) messages)).
  { transitivity (translate_call_item print_json json_stream (call_item call) context (saying pending messages)); [done|].
    unfold translate_call_item. rewrite call_back by done. simpl.
    transitivity (merge_message print_json (saying pending messages) (JObject (assistant_fields (only_calls [call])))); [done|].
    by rewrite merge_said. }
  rewrite fmap_cons. cbn [translate_responses_input_items]. rewrite Hone, IH, more_said_app. done.
Qed.

Lemma back_assistant rs_id said pending messages :
  turn_wf (AssistantTurn said) ->
  back (turn_items rs_id (AssistantTurn said)) context (saying pending messages) =
    Ok (saying (Some (join_said (default nothing_said pending) (heard (cv_reasoning_carrier context) said))) messages).
Proof.
  intros [Hsome Hcalls]. simpl. rewrite !items_app, back_reasoning. simpl. rewrite items_app, back_content. simpl.
  rewrite back_calls, !more_said_app by done. f_equal. f_equal.
  assert (Heard : join_said (only_reasoning (if bool_decide (cv_reasoning_carrier context = ReasoningContent)
      then sd_reasoning said else "")) (join_said (only_content (sd_content said)) (only_calls (sd_calls said)))
    = heard (cv_reasoning_carrier context) said).
  { rewrite <-(said_pieces (heard _ said)). unfold heard. by destruct (bool_decide (_ = ReasoningContent)). }
  rewrite Heard. unfold more_said. rewrite decide_False; [done|].
  unfold heard. intros H. destruct said as [content reasoning calls]. destruct Hsome as [Hs|Hs]; apply Hs;
    destruct (bool_decide _); by inversion H.
Qed.

(** The other turns end the assistant message. *)
Definition pending_turn (pending : option Said) : list Turn := option_list (AssistantTurn <$> pending).

Lemma push_pending pending messages message :
  push_message (saying pending messages) message =
    saying None (messages ++ (turn_message <$> pending_turn pending) ++ [message]).
Proof. unfold push_message, flush_pending_assistant_message, saying. destruct pending; simpl; by rewrite ?app_nil_r, <-?app_assoc. Qed.

Lemma collected_parts parts :
  Forall part_wf parts ->
  responses_content_to_chat_content_with_dialect print_json (JArray (input_part <$> parts)) (cv_image_dialect context) =
    Ok (if forallb (fun part => is_some (plain_text part)) parts
        then JString (foldr (fun part rest => default "" (plain_text part) +:+ rest) "" parts)
        else JArray (part_value <$> parts)).
Proof.
  intros H. simpl. rewrite (collect_map _ input_part part_value).
  2: { eapply Forall_impl; [exact H|]. intros part. apply part_back. }
  assert (Htext : forall part, chat_text_part_text (part_value part) = plain_text part) by by intros [|url [detail|]].
  assert (Hall : forallb is_chat_text_part (part_value <$> parts) = forallb (fun part => is_some (plain_text part)) parts).
  { clear H. induction parts as [|part parts IH]; [done|]. rewrite fmap_cons. simpl. unfold is_chat_text_part at 1.
    by rewrite Htext, IH. }
  assert (Hconcat : concat_texts (part_value <$> parts) = foldr (fun part rest => default "" (plain_text part) +:+ rest) "" parts).
  { clear H Hall. induction parts as [|part parts IH]; [done|]. rewrite fmap_cons. simpl. by rewrite Htext, <-IH. }
  rewrite Hall, Hconcat. by destruct (forallb _ parts).
Qed.

Lemma back_other rs_id turn pending messages :
  turn_wf turn -> is_system turn = false -> (forall said, turn <> AssistantTurn said) ->
  back (turn_items rs_id turn) context (saying pending messages) =
    Ok (saying None (messages ++ (turn_message <$> pending_turn pending ++ [arrived (cv_reasoning_carrier context) turn]))).
Proof.
  intros Hwf Hsystem Hnot. rewrite fmap_app. destruct turn as [content|content|parts|said|call_id output]; [done| | |by destruct (Hnot said)|].
  - simpl. rewrite <-push_pending. done.
  - simpl turn_items. cbn [translate_responses_input_items].
    transitivity (let? self := (let? content := responses_content_to_chat_content_with_dialect print_json (JArray (input_part <$> parts))
      (cv_image_dialect context) in Ok (push_message (saying pending messages) (role_item "user" content))) in Ok self); [|].
    { unfold translate_responses_input_item, translate_untyped_item, responses_message_object_to_chat_message_with_dialect.
      simpl. unfold converted_tool_calls. simpl. by destruct (collect _ _) as [converted|]; simpl; [destruct (forallb _ _)|]. }
    rewrite collected_parts by done. simpl. rewrite push_pending. unfold flat_parts. by destruct (forallb _ parts).
  - simpl. rewrite <-push_pending. done.
Qed.

Lemma merged_join a b turns : merged (AssistantTurn a :: AssistantTurn b :: turns) = merged (AssistantTurn (join_said a b) :: turns).
Proof. simpl. destruct (merged turns) as [|[]]; by rewrite ?join_said_assoc. Qed.

Lemma merged_break a turn turns :
  (forall said, turn <> AssistantTurn said) ->
  merged (option_list (AssistantTurn <$> a) ++ turn :: turns) = option_list (AssistantTurn <$> a) ++ turn :: merged turns.
Proof. intros Hnot. destruct a, turn; simpl; try done; by destruct (Hnot said). Qed.

Lemma merged_pending pending said turns :
  merged (pending_turn pending ++ AssistantTurn said :: turns) =
    merged (pending_turn (Some (join_said (default nothing_said pending) said)) ++ turns).
Proof. destruct pending as [former|]; [apply merged_join|]. simpl default. by rewrite join_nothing_l. Qed.

Lemma arrived_not_assistant carrier turn :
  (forall said, turn <> AssistantTurn said) -> forall said, arrived carrier turn <> AssistantTurn said.
Proof.
  intros Hnot said. destruct turn as [| |parts|said'|]; simpl; try done; [|by destruct (Hnot said')].
  unfold flat_parts. by case_match.
Qed.

Lemma assistant_or_not turn : (exists said, turn = AssistantTurn said) \/ (forall said, turn <> AssistantTurn said).
Proof. destruct turn; (by left; eexists) || by right. Qed.

(** The messages of the items of a conversation. *)
Lemma conversation_back turns draws pending messages :
  Forall turn_wf turns ->
  exists self, back (conversation_items draws turns) context (saying pending messages) = Ok self /\
    cn_messages (flush_pending_assistant_message self) =
      messages ++ (turn_message <$> merged (pending_turn pending ++ (arrived (cv_reasoning_carrier context) <$> spoken turns))).
Proof.
  intros Hwf. revert draws pending messages. induction Hwf as [|turn turns Hturn _ IH]; intros draws pending messages.
  { eexists. split; [done|]. unfold flush_pending_assistant_message. simpl. f_equal. rewrite app_nil_r. by destruct pending. }
  cbn [conversation_items]. rewrite items_app. unfold spoken. rewrite retain_cons. fold (spoken turns).
  destruct (is_system turn) eqn:Hsystem.
  { destruct turn; try done. simpl. apply IH. }
  cbn [negb]. rewrite fmap_cons.
  destruct (assistant_or_not turn) as [[said ->]|Hnot].
  - rewrite back_assistant by done. cbn [arrived]. rewrite merged_pending. apply IH.
  - rewrite back_other by done.
    destruct (IH (fun i => draws (S i)) None (messages ++ (turn_message <$> pending_turn pending ++ [arrived (cv_reasoning_carrier context) turn])))
      as (self & Hself & Hmessages).
    exists self. split; [exact Hself|]. rewrite Hmessages, <-app_assoc. f_equal.
    unfold pending_turn at 3. rewrite merged_break by (by apply arrived_not_assistant).
    rewrite !fmap_app, fmap_cons, <-app_assoc. done.
Qed.

(** ** The request as a whole *)

Lemma map_get_copy_field input field output key :
  map_get (copy_field input field output) key =
    if String.eqb field key then or_else (get input field) (map_get output key) else map_get output key.
Proof. unfold copy_field. destruct (get input field); rewrite ?map_get_insert; by destruct (String.eqb field key). Qed.

Lemma map_get_insert_some field value output key :
  map_get (insert_some field value output) key =
    if String.eqb field key then or_else value (map_get output key) else map_get output key.
Proof. unfold insert_some. destruct value; rewrite ?map_get_insert; by destruct (String.eqb field key). Qed.

Lemma map_get_copy_fields input fields output key :
  map_get (copy_fields input fields output) key =
    if one_of key fields then or_else (get input key) (map_get output key) else map_get output key.
Proof.
  revert output. induction fields as [|field fields IH]; intros output; [done|].
  change (one_of key (field :: fields)) with (String.eqb key field || one_of key fields).
  change (copy_fields input (field :: fields) output) with (copy_fields input fields (copy_field input field output)).
  rewrite IH, map_get_copy_field, (String.eqb_sym key field). destruct (String.eqb_spec field key) as [->|?]; cbn [orb]; [|done].
  destruct (one_of key fields); [|done]. by destruct (get input key).
Qed.

Lemma map_get_nested outer inner value output key :
  map_get (insert_nested_object_field outer inner value output) key =
    if String.eqb outer key then
      match map_get output outer with
      | None => Some (JObject [(inner, value)])
      | Some (JObject object) => Some (JObject (map_insert inner value object))
      | entry => entry
      end
    else map_get output key.
Proof.
  unfold insert_nested_object_field. rewrite map_get_or_insert, String.eqb_refl.
  destruct (map_get output outer) as [[]|] eqn:Ho; cbn -[map_get String.eqb];
    rewrite ?map_get_insert, ?map_get_or_insert; destruct (String.eqb_spec outer key) as [<-|?]; by rewrite ?Ho.
Qed.

Lemma map_get_nest_text input output key :
  map_get output "text" = None ->
  map_get (nest_text_options input output) key =
    if String.eqb "text" key then
      match get input "response_format", get input "verbosity" with
      | None, None => None
      | format, verbosity => Some (JObject (insert_some "verbosity" verbosity (insert_some "format" format [])))
      end
    else map_get output key.
Proof.
  intros Hnone. unfold nest_text_options.
  destruct (get input "response_format") as [format|], (get input "verbosity") as [verbosity|];
    rewrite ?map_get_nested, ?map_get_nested, ?Hnone; destruct (String.eqb_spec "text" key) as [<-|?]; done.
Qed.

Lemma lifted_text_options input request output key :
  get request "text" = match get input "response_format", get input "verbosity" with
      | None, None => None
      | format, verbosity => Some (JObject (insert_some "verbosity" verbosity (insert_some "format" format [])))
      end ->
  map_get (lift_text_options request output) key =
    map_get (insert_some "verbosity" (get input "verbosity") (insert_some "response_format" (get input "response_format") output)) key.
Proof.
  intros Htext. unfold lift_text_options. rewrite Htext.
  by destruct (get input "response_format"), (get input "verbosity").
Qed.

Lemma map_get_stream_options input output key :
  map_get (copy_stream_options input output) key =
    if String.eqb "stream_options" key
    then or_else (options ← (v ← get input "stream_options"; as_object v);
                  include_obfuscation ← map_get options "include_obfuscation";
                  Some (json_object [("include_obfuscation", include_obfuscation)])) (map_get output key)
    else map_get output key.
Proof.
  unfold copy_stream_options. destruct (v ← get input "stream_options"; as_object v) as [options|];
    [|by destruct (String.eqb _ key)].
  cbn -[String.eqb map_get json_object]. destruct (map_get options "include_obfuscation"); cbn -[String.eqb map_get json_object];
    rewrite ?map_get_insert; by destruct (String.eqb _ key).
Qed.

Lemma tools_back functions :
  collect (responses_tool_definition_to_chat_tool print_json) (function_tool <$> functions) = Ok (function_tool <$> functions).
Proof. apply (collect_map _ function_tool function_tool), Forall_true. intros function. reflexivity. Qed.

(** A chat request whose options are all ones that both protocols have. *)
Definition choice_wf (functions : list json_map) (tool_choice : Value) : Prop :=
  functions <> [] /\
  (tool_choice = JString "auto" \/ tool_choice = JString "none" \/ tool_choice = JString "required" \/
   exists name, tool_choice = chosen_function name).

Record request_wf (input : Value) (model : string) (turns : list Turn) (functions : list json_map) : Prop := {
  rq_model : get_str input "model" = Some model;
  rq_messages : get_array input "messages" = Some (turn_message <$> turns);
  rq_turns : Forall turn_wf turns;
  rq_single : get input "n" = None \/ get input "n" = Some (number 1);
  rq_tools : get input "tools" = if is_empty functions then None else Some (JArray (function_tool <$> functions));
  rq_choice : forall tool_choice, get input "tool_choice" = Some tool_choice -> choice_wf functions tool_choice;
  rq_effort : forall effort, get input "reasoning_effort" = Some effort -> exists s, effort = JString s;
  rq_functions : get input "functions" = None;
  rq_function_call : get input "function_call" = None
}.

Definition cache_key (input : Value) (output : json_map) : json_map :=
  if contains_key output "prompt_cache_key" then output else insert_some "prompt_cache_key" (get input "user") output.

Lemma map_get_cache_key input output key :
  map_get (cache_key input output) key =
    if String.eqb "prompt_cache_key" key then or_else (map_get output key) (get input "user") else map_get output key.
Proof.
  unfold cache_key, contains_key. destruct (is_some (map_get output "prompt_cache_key")) eqn:Hk; rewrite ?map_get_insert_some;
    destruct (String.eqb_spec "prompt_cache_key" key) as [<-|?]; try done;
    destruct (map_get output "prompt_cache_key"); try done. by destruct (get input "user").
Qed.

(** What the Responses request holds. *)
Definition request_fields (input : Value) (model : string) (texts : list string) (items : list Value) : json_map :=
  map_insert "input" (JArray items)
    (insert_some "reasoning" ((fun effort => json_object [("effort", JString effort)]) <$> get_str input "reasoning_effort")
      (copy_stream_options input (nest_text_options input
        (insert_some "instructions" (if is_empty texts then None else Some (JString (join_lines texts)))
          (insert_some "max_output_tokens"
            (or_else (or_else (get input "max_output_tokens") (get input "max_tokens")) (get input "max_completion_tokens"))
            (insert_some "tool_choice" (get input "tool_choice") (insert_some "tools" (get input "tools")
              (copy_field input "parallel_tool_calls" (cache_key input
                (copy_fields input (shared_fields ++ ["client_metadata"; "prompt_cache_retention"])
                  (json_fields [("model", JString model)]))))))))))).

Lemma request_there input model turns functions draws :
  request_wf input model turns functions ->
  chat_request_to_responses_payload_with_context print_json json_stream draws input context =
    Ok (JObject (request_fields input model (system_texts turns) (conversation_items draws turns))).
Proof.
  intros [Hmodel Hmessages Hturns Hsingle Htools _ _ Hfunctions Hcall].
  unfold chat_request_to_responses_payload_with_context, string_field, array_field. rewrite Hmodel, Hmessages. cbn [ok_or].
  assert (Hone : check_single_choice print_json input = Ok tt) by (unfold check_single_choice; by destruct Hsingle as [->| ->]).
  rewrite Hone, turns_there by done. unfold request_tools, request_tool_choice, get_array. rewrite Hfunctions, Hcall.
  unfold request_fields. destruct (get input "tools"), (get input "tool_choice"); done.
Qed.

(** Values of fields, with the names compared. *)
Ltac look :=
  repeat (rewrite ?map_get_insert, ?map_get_insert_some, ?map_get_stream_options, ?map_get_cache_key, ?map_get_copy_fields,
            ?map_get_copy_field; cbn [String.eqb Ascii.eqb Bool.eqb one_of existsb app orb shared_fields or_else]).

Section Fields.
  Context (input : Value) (model : string) (texts : list string) (items : list Value).
Let request := JObject (request_fields input model texts items).

Lemma request_text :
  get request "text" =
    match get input "response_format", get input "verbosity" with
    | None, None => None
    | format, verbosity => Some (JObject (insert_some "verbosity" verbosity (insert_some "format" format [])))
    end.
Proof. unfold request, get, request_fields. look. rewrite map_get_nest_text by (by look). done. Qed.

#[local] Ltac look_request :=
  unfold request; change (get (JObject ?fields) ?key) with (map_get fields key); unfold request_fields; look;
  rewrite ?map_get_nest_text by (by look); look.

Lemma request_same_field field :
  field ∈ ["stream"; "temperature"; "top_p"; "stop"; "metadata"; "service_tier"; "store"; "safety_identifier";
           "parallel_tool_calls"; "tools"; "tool_choice"] ->
  get request field = get input field.
Proof.
  intros H. repeat (apply elem_of_cons in H; destruct H as [->|H]; [look_request; by destruct (get input _)|]).
  by apply elem_of_nil in H.
Qed.

Lemma request_model : get request "model" = Some (JString model).
Proof. by look_request. Qed.

Lemma request_input : get request "input" = Some (JArray items).
Proof. by look_request. Qed.

Lemma request_cache_key : get request "prompt_cache_key" = or_else (get input "prompt_cache_key") (get input "user").
Proof. look_request. by destruct (get input "prompt_cache_key"). Qed.

Lemma request_max_tokens :
  get request "max_output_tokens" =
    or_else (or_else (get input "max_output_tokens") (get input "max_tokens")) (get input "max_completion_tokens").
Proof. look_request. by destruct (get input "max_output_tokens"), (get input "max_tokens"), (get input "max_completion_tokens"). Qed.

Lemma request_instructions :
  get request "instructions" = if is_empty texts then None else Some (JString (join_lines texts)).
Proof. look_request. by destruct (is_empty texts). Qed.

Lemma request_reasoning :
  get request "reasoning" = (fun effort => json_object [("effort", JString effort)]) <$> get_str input "reasoning_effort".
Proof. look_request. by destruct (get_str input "reasoning_effort"). Qed.

End Fields.

(** What the chat request holds that is made of it. *)
Definition chat_fields (input : Value) (model : string) (messages : list Value) (request : Value) : json_map :=
  map_insert "messages" (JArray messages) (copy_stream_options request (lift_text_options request
    (insert_some "max_tokens" (get request "max_output_tokens") (copy_field request "parallel_tool_calls" (insert_some "tool_choice" (get input "tool_choice")
      (insert_some "tools" (get input "tools") (insert_some "reasoning_effort" (get input "reasoning_effort")
        (copy_fields request (shared_fields ++ ["prompt_cache_retention"]) (json_fields [("model", JString model)]))))))))).

Lemma choice_back functions tool_choice :
  choice_wf functions tool_choice ->
  responses_tool_choice_to_chat_tool_choice print_json tool_choice (negb (is_empty (function_tool <$> functions))) =
    Ok (Some tool_choice).
Proof. intros [Hne [->|[->|[->|[name ->]]]]]; destruct functions; done. Qed.

Lemma request_back input model turns functions texts items self :
  request_wf input model turns functions ->
  let request := JObject (request_fields input model texts items) in
  back items context {| cn_pending := None; cn_messages := turn_message <$> system_turns texts |} = Ok self ->
  responses_request_to_chat_payload_with_context print_json json_stream request context =
    Ok (JObject (chat_fields input model (cn_messages (flush_pending_assistant_message self)) request)).
Proof.
  intros [Hmodel Hmessages Hturns Hsingle Htools Hchoice Heffort _ _] request Hself.
  pose proof (request_instructions input model texts items) as Hi. fold request in Hi.
  unfold responses_request_to_chat_payload_with_context, string_field, get_str at 1.
  rewrite (request_model input model texts items : get request "model" = _). cbn [mbind option_bind as_str ok_or].
  assert (Hconversation : request_conversation print_json json_stream request context = Ok self).
  { unfold request_conversation. rewrite Hi, (request_input input model texts items : get request "input" = _).
    unfold system_turns in Hself. destruct (is_empty texts); cbn [ok_or responses_content_to_chat_content_with_dialect]; exact Hself. }
  rewrite Hconversation. unfold converted_tools, get_array.
  rewrite (request_same_field input model texts items "tools" ltac:(set_solver) : get request "tools" = _), Htools.
  assert (Hconverted : collect (responses_tool_definition_to_chat_tool print_json)
      (default [] (v ← (if is_empty functions then None else Some (JArray (function_tool <$> functions))); as_array v)) =
    Ok (function_tool <$> functions)).
  { destruct functions; [done|]. apply tools_back. }
  rewrite Hconverted.
  rewrite (request_same_field input model texts items "tool_choice" ltac:(set_solver) : get request "tool_choice" = _).
  assert (Hchosen : match get input "tool_choice" with
      | Some tool_choice => responses_tool_choice_to_chat_tool_choice print_json tool_choice (negb (is_empty (function_tool <$> functions)))
      | None => Ok None end = Ok (get input "tool_choice")).
  { destruct (get input "tool_choice") as [tool_choice|] eqn:Hc; [|done]. by apply choice_back, Hchoice. }
  rewrite Hchosen. unfold chat_fields. rewrite Htools.
  assert (Hlow : JString <$> (reasoning ← (v ← get request "reasoning"; as_object v); get_str (JObject reasoning) "effort") =
    get input "reasoning_effort").
  { rewrite (request_reasoning input model texts items : get request "reasoning" = _). unfold get_str.
    destruct (get input "reasoning_effort") as [effort|] eqn:He; [|done]. by destruct (Heffort effort eq_refl) as [s ->]. }
  rewrite Hlow. by destruct functions.
Qed.

(** ** What is carried is in normal form *)

Lemma heard_heard carrier said : heard carrier (heard carrier said) = heard carrier said.
Proof. unfold heard. by destruct (bool_decide _). Qed.

Lemma heard_join carrier a b : heard carrier (join_said a b) = join_said (heard carrier a) (heard carrier b).
Proof. unfold heard. by destruct (bool_decide _). Qed.

Lemma arrived_arrived carrier turn : arrived carrier (arrived carrier turn) = arrived carrier turn.
Proof.
  destruct turn as [| |parts|said|]; simpl; try done.
  - unfold flat_parts. destruct (forallb _ parts) eqn:Hall; [done|]. simpl. unfold flat_parts. by rewrite Hall.
  - by rewrite heard_heard.
Qed.

(** An assistant message that goes before the others. *)
Definition merge_first (said : Said) (turns : list Turn) : list Turn :=
  match turns with
  | AssistantTurn more :: rest => AssistantTurn (join_said said more) :: rest
  | rest => AssistantTurn said :: rest
  end.

Lemma merged_said said turns : merged (AssistantTurn said :: turns) = merge_first said (merged turns).
Proof. cbn [merged]. by destruct (merged turns) as [|[]]. Qed.

Lemma merged_other turn turns :
  (forall said, turn <> AssistantTurn said) -> merged (turn :: turns) = turn :: merged turns.
Proof. intros Hnot. destruct turn; try done. by destruct (Hnot said). Qed.

Lemma merged_arrived carrier turns : arrived carrier <$> merged turns = merged (arrived carrier <$> turns).
Proof.
  induction turns as [|turn turns IH]; [done|]. rewrite fmap_cons.
  destruct (assistant_or_not turn) as [[said ->]|Hnot].
  - cbn [arrived]. rewrite !merged_said, <-IH. destruct (merged turns) as [|next rest]; [done|].
    destruct next as [| |parts|more|]; simpl; try done; [|by rewrite heard_join].
    unfold flat_parts. by destruct (forallb _ parts).
  - rewrite !merged_other by (done || by apply arrived_not_assistant). by rewrite fmap_cons, IH.
Qed.

Lemma merge_first_cases turns :
  (exists more rest, turns = AssistantTurn more :: rest) \/ (forall said, merge_first said turns = AssistantTurn said :: turns).
Proof. destruct turns as [|[] ?]; try (by right); left; by eexists _, _. Qed.

Lemma merged_length turns : (length (merged turns) <= length turns)%nat.
Proof.
  induction turns as [|turn turns IH]; [done|]. destruct (assistant_or_not turn) as [[said ->]|Hnot].
  - rewrite merged_said. destruct (merge_first_cases (merged turns)) as [(more & rest & Hm)|Hc].
    + rewrite Hm in IH |- *. simpl in *. lia.
    + rewrite Hc. simpl. lia.
  - rewrite merged_other by done. simpl. lia.
Qed.

Lemma merged_merged turns : merged (merged turns) = merged turns.
Proof.
  induction turns as [|turn turns IH]; [done|]. destruct (assistant_or_not turn) as [[said ->]|Hnot].
  2: { by rewrite !merged_other, IH by done. }
  rewrite merged_said. destruct (merge_first_cases (merged turns)) as [(more & rest & Hm)|Hc].
  2: { by rewrite Hc, merged_said, IH. }
  rewrite Hm in IH |- *. cbn [merge_first]. rewrite merged_said in IH |- *.
  destruct (merge_first_cases (merged rest)) as [(third & rest' & Hr)|Hc].
  - exfalso. rewrite Hr in IH. cbn [merge_first] in IH. injection IH as _ ->.
    pose proof (merged_length rest) as Hl. rewrite Hr in Hl. simpl in Hl. lia.
  - rewrite Hc in IH |- *. by injection IH as ->.
Qed.

Lemma spoken_others turns : Forall (fun turn => is_system turn = false) turns -> spoken turns = turns.
Proof. intros H. apply retain_all. intros turn Ht. rewrite Forall_forall in H. by rewrite H. Qed.

Lemma merged_others turns :
  Forall (fun turn => is_system turn = false) turns -> Forall (fun turn => is_system turn = false) (merged turns).
Proof.
  induction 1 as [|turn turns Hturn _ IH]; [done|]. destruct (assistant_or_not turn) as [[said ->]|Hnot].
  - rewrite merged_said. destruct (merge_first_cases (merged turns)) as [(more & rest & Hm)|Hc].
    + rewrite Hm in *. inversion IH; subst. by constructor.
    + rewrite Hc. by constructor.
  - rewrite merged_other by done. by constructor.
Qed.

Lemma arrived_others carrier turns : Forall (fun turn => is_system turn = false) (arrived carrier <$> spoken turns).
Proof.
  apply Forall_fmap, Forall_forall. intros turn Ht. unfold spoken in Ht. apply retain_elem in Ht as [Ht _].
  destruct turn; simpl in *; try done. unfold flat_parts. by case_match.
Qed.

Lemma system_texts_others turns : Forall (fun turn => is_system turn = false) turns -> system_texts turns = [].
Proof. induction 1 as [|turn turns Hturn _ IH]; [done|]. simpl. rewrite IH. by destruct turn. Qed.

Lemma system_texts_nonempty turns : Forall (fun content => content <> "") (system_texts turns).
Proof.
  induction turns as [|turn turns IH]; [done|]. simpl. apply Forall_app. split; [|done].
  destruct turn as [content| | | |]; try done. destruct (str_is_empty content) eqn:He; [done|].
  constructor; [|done]. by apply str_is_empty_false.
Qed.

Lemma join_lines_one content : join_lines [content] = content.
Proof. apply text_bytes. Qed.

Lemma join_lines_nonempty first texts : first <> "" -> join_lines (first :: texts) <> "".
Proof.
  intros Hne He. apply Hne. apply (f_equal bytes) in He. unfold join_lines in He. rewrite bytes_text in He.
  assert (Hb : bytes first = []).
  { rewrite fmap_cons in He. destruct (bytes <$> texts); [done|]. cbn [join_on] in He. by apply app_eq_nil in He as [? _]. }
  by rewrite <-(text_bytes first), Hb.
Qed.

Lemma carried_carried carrier turns : carried carrier (carried carrier turns) = carried carrier turns.
Proof.
  unfold carried at 1. set (rest := merged (arrived carrier <$> spoken turns)).
  assert (Hrest : Forall (fun turn => is_system turn = false) rest) by apply merged_others, arrived_others.
  assert (Hsystem : system_texts (carried carrier turns) = system_texts (system_turns (system_texts turns))).
  { unfold carried. fold rest. unfold system_texts at 1. rewrite flat_map_app. fold (system_texts rest).
    rewrite (system_texts_others rest Hrest), app_nil_r. done. }
  assert (Hspoken : spoken (carried carrier turns) = rest).
  { unfold carried. fold rest. unfold spoken. rewrite retain_app. fold (spoken rest). rewrite (spoken_others rest Hrest).
    unfold system_turns. by destruct (is_empty _). }
  rewrite Hsystem, Hspoken. unfold carried. fold rest. f_equal.
  - destruct (system_texts turns) as [|first texts] eqn:Ht; [done|].
    pose proof (system_texts_nonempty turns) as Hne. rewrite Ht in Hne. inversion Hne; subst.
    unfold system_turns at 2 3. cbn [is_empty system_texts flat_map].
    rewrite (proj2 (str_is_empty_false _)) by by apply join_lines_nonempty. unfold system_turns. simpl. by rewrite join_lines_one.
  - unfold rest. rewrite <-merged_arrived, merged_merged, merged_arrived, <-list_fmap_compose. f_equal.
    apply list_fmap_ext. intros i turn _. apply arrived_arrived.
Qed.

(** ** The round trip of a request *)

Section ChatFields.
  Context (input : Value) (model : string) (texts : list string) (items messages : list Value).
Let request := JObject (request_fields input model texts items).
Let chat := JObject (chat_fields input model messages request).

#[local] Ltac look_chat :=
  unfold chat; change (get (JObject ?fields) ?key) with (map_get fields key); unfold chat_fields; look;
  rewrite ?(lifted_text_options input request _ _ (request_text input model texts items)); look.

Lemma chat_same_field field :
  get input "model" = Some (JString model) ->
  field ∈ ["model"; "stream"; "temperature"; "top_p"; "stop"; "metadata"; "service_tier"; "store";
    "safety_identifier"; "parallel_tool_calls"; "tools"; "tool_choice"; "response_format"; "verbosity"; "reasoning_effort"] ->
  get chat field = get input field.
Proof.
  intros Hmodel H. apply elem_of_cons in H as [->|H]; [look_chat; by rewrite Hmodel|]. clear Hmodel.
  repeat (apply elem_of_cons in H; destruct H as [->|H];
    [look_chat; rewrite ?(request_same_field input model texts items) by set_solver; by destruct (get input _)|]).
  by apply elem_of_nil in H.
Qed.

Lemma chat_cache_key : get chat "prompt_cache_key" = or_else (get input "prompt_cache_key") (get input "user").
Proof.
  look_chat. rewrite (request_cache_key input model texts items : get request "prompt_cache_key" = _).
  by destruct (get input "prompt_cache_key"), (get input "user").
Qed.

Lemma chat_max_tokens :
  get chat "max_tokens" =
    or_else (or_else (get input "max_output_tokens") (get input "max_tokens")) (get input "max_completion_tokens").
Proof.
  look_chat. rewrite (request_max_tokens input model texts items : get request "max_output_tokens" = _).
  by destruct (get input "max_output_tokens"), (get input "max_tokens"), (get input "max_completion_tokens").
Qed.

Lemma chat_messages : get chat "messages" = Some (JArray messages).
Proof. by look_chat. Qed.

End ChatFields.

(** C4. A chat request that is sent on as a Responses request and turned back is the
    request that was made, its options unchanged and its conversation in normal form:
    one system message, texts instead of lists of texts, one message for neighbouring
    assistant messages, reasoning if the upstream has a field for it. A conversation in
    normal form stays as it is. *)
Theorem conversation_roundtrip input model turns functions draws :
  request_wf input model turns functions ->
  exists request chat,
    chat_request_to_responses_payload_with_context print_json json_stream draws input context = Ok request /\
    responses_request_to_chat_payload_with_context print_json json_stream request context = Ok chat /\
    get chat "messages" = Some (JArray (turn_message <$> carried (cv_reasoning_carrier context) turns)) /\
    carried (cv_reasoning_carrier context) (carried (cv_reasoning_carrier context) turns) =
      carried (cv_reasoning_carrier context) turns /\
    (forall field, field ∈ ["model"; "stream"; "temperature"; "top_p"; "stop"; "metadata"; "service_tier"; "store";
       "safety_identifier"; "parallel_tool_calls"; "tools"; "tool_choice"; "response_format"; "verbosity"; "reasoning_effort"] ->
       get chat field = get input field) /\
    get chat "prompt_cache_key" = or_else (get input "prompt_cache_key") (get input "user") /\
    get chat "max_tokens" =
      or_else (or_else (get input "max_output_tokens") (get input "max_tokens")) (get input "max_completion_tokens").
Proof.
  intros Hwf. pose proof (request_there input model turns functions draws Hwf) as Hthere.
  set (items := conversation_items draws turns) in *. set (texts := system_texts turns) in *.
  destruct (conversation_back turns draws None (turn_message <$> system_turns texts) (rq_turns _ _ _ _ Hwf)) as (self & Hself & Hmessages).
  pose proof (request_back input model turns functions texts items self Hwf Hself) as Hback.
  eexists _, _. split; [exact Hthere|]. split; [exact Hback|].
  split_and!.
  - rewrite chat_messages, Hmessages. unfold carried. by rewrite fmap_app.
  - apply carried_carried.
  - intros field. apply chat_same_field. pose proof (rq_model _ _ _ _ Hwf) as Hmodel. unfold get_str in Hmodel.
    destruct (get input "model") as [[]|]; simplify_eq/=. done.
  - apply chat_cache_key.
  - apply chat_max_tokens.
Qed.

End Conversations.

(** ** Witness *)

Definition sample_call : ToolCall := {| tc_id := "c1"; tc_name := "ls"; tc_arguments := "{}" |}.

Definition sample_turns : list Turn :=
  [SystemTurn "be brief"; UserPartsTurn [TextPart "look "; TextPart "here"];
   UserPartsTurn [TextPart "at"; UrlPart "https://x/y.png" (Some "low")];
   AssistantTurn {| sd_content := Some "so"; sd_reasoning := "first"; sd_calls := [] |};
   AssistantTurn {| sd_content := None; sd_reasoning := ""; sd_calls := [sample_call] |};
   ToolTurn "c1" "out"; SystemTurn "be kind"].

Definition sample_carried : list Turn :=
  [SystemTurn (join_lines ["be brief"; "be kind"]); UserTurn "look here";
   UserPartsTurn [TextPart "at"; UrlPart "https://x/y.png" (Some "low")];
   AssistantTurn {| sd_content := Some "so"; sd_reasoning := "first"; sd_calls := [sample_call] |}; ToolTurn "c1" "out"].

Definition sample_function : json_map := json_fields [("name", JString "ls")].

Definition sample_chat_request : Value :=
  json_object
    [("model", JString "m"); ("messages", JArray (turn_message <$> sample_turns)); ("tools", JArray [function_tool sample_function]);
     ("tool_choice", JString "auto"); ("max_tokens", number 9); ("verbosity", JString "low"); ("reasoning_effort", JString "high")].

Lemma conversation_roundtrip_witness :
  request_wf input_print one_value_stream ConversionContext_reasoning_content sample_chat_request "m" sample_turns [sample_function] /\
  exists request chat,
    chat_request_to_responses_payload_with_context input_print one_value_stream (fun _ => "r") sample_chat_request
      ConversionContext_reasoning_content = Ok request /\
    responses_request_to_chat_payload_with_context input_print one_value_stream request ConversionContext_reasoning_content = Ok chat /\
    get chat "messages" = Some (JArray (turn_message <$> sample_carried)).
Proof.
  assert (Hwf : request_wf input_print one_value_stream ConversionContext_reasoning_content sample_chat_request "m" sample_turns
    [sample_function]).
  { split; try (vm_compute; reflexivity).
    - unfold sample_turns. repeat apply List.Forall_cons; try apply List.Forall_nil; try exact I.
      + exists (HttpsUrl "https://x/y.png"). split; [vm_compute; reflexivity|]. split; [vm_compute; reflexivity|by right].
      + split; [by left|apply List.Forall_nil].
      + split; [by right|]. repeat apply List.Forall_cons; try apply List.Forall_nil.
        split; [discriminate|]. split; vm_compute; reflexivity.
    - left. vm_compute. reflexivity.
    - intros tool_choice Hc. vm_compute in Hc. injection Hc as <-. split; [discriminate|by left].
    - intros effort He. vm_compute in He. injection He as <-. by eexists. }
  split; [exact Hwf|].
  destruct (conversation_roundtrip input_print one_value_stream ConversionContext_reasoning_content sample_chat_request "m" sample_turns
    [sample_function] (fun _ => "r") Hwf) as (request & chat & Hthere & Hback & Hmessages & _).
  exists request, chat. split; [exact Hthere|]. split; [exact Hback|]. rewrite Hmessages. vm_compute. reflexivity.
Defined.
