(* ===== verification/RequestRules.v ===== *)
(** * What a converted request can hold

    Rules that hold of every chat request that [PayloadConversion] makes of a Responses
    request, whatever its items: the roles of its messages, their alternation, and the
    refusal of encrypted messages between agents. *)

From S2P Require Import Prelude ModelIdentity Protocol Json ToolArguments ToolAdapter ChatCanonicalizer ResponseEvents ChatToResponses ImageAdapter MessageConversion PayloadConversion.

Local Open Scope Z_scope.

(** ** Roles *)

Definition chat_roles : list string := ["system"; "user"; "assistant"; "tool"].

Definition role_of (message : Value) : option string := get_str message "role".

Definition has_role (message : Value) : Prop := exists role, role ∈ chat_roles /\ role_of message = Some role.

Definition from_assistant (message : Value) : Prop := role_of message = Some "assistant".

(** No two neighbours are both the assistant's. *)
Definition alternate (messages : list Value) : Prop :=
  forall i former latter, messages !! i = Some former -> messages !! S i = Some latter ->
    ~ (from_assistant former /\ from_assistant latter).

Lemma alternate_nil : alternate [].
Proof. intros i former latter H. by rewrite lookup_nil in H. Qed.

Lemma alternate_snoc messages message :
  alternate messages ->
  (forall former, last messages = Some former -> ~ (from_assistant former /\ from_assistant message)) ->
  alternate (messages ++ [message]).
Proof.
  intros Ha Hlast i former latter Hf Hl.
  apply lookup_snoc_Some in Hl as [[Hlt Hl]|[Hi ->]].
  - rewrite lookup_app_l in Hf by lia. by eapply Ha.
  - rewrite lookup_app_l in Hf by lia. apply Hlast. rewrite last_lookup, <-Hi. done.
Qed.

(** ** The conversation under construction *)

Record conversation_wf (self : Conversation) : Prop := {
  cw_roles : Forall has_role (cn_messages self);
  cw_alternate : alternate (cn_messages self);
  cw_last : forall former, last (cn_messages self) = Some former -> ~ from_assistant former;
  cw_pending : forall pending, cn_pending self = Some pending -> from_assistant (JObject pending)
}.

Lemma flush_wf self :
  conversation_wf self ->
  Forall has_role (cn_messages (flush_pending_assistant_message self)) /\
  alternate (cn_messages (flush_pending_assistant_message self)).
Proof.
  intros [Hr Ha Hlast Hp]. unfold flush_pending_assistant_message. cbn [cn_messages].
  destruct (cn_pending self) as [pending|]; simpl; [|by rewrite app_nil_r].
  pose proof (Hp _ eq_refl) as Hassistant. split.
  - apply Forall_app. split; [done|]. constructor; [|done]. exists "assistant". split; [set_solver|done].
  - apply alternate_snoc; [done|]. intros former Hf [Hfa _]. by eapply Hlast.
Qed.

Lemma push_wf self message :
  conversation_wf self -> has_role message -> ~ from_assistant message -> conversation_wf (push_message self message).
Proof.
  intros Hwf Hrole Hnot. destruct (flush_wf self Hwf) as [Hr Ha]. unfold push_message. split; cbn [cn_messages cn_pending].
  - apply Forall_app. split; [done|]. by constructor.
  - apply alternate_snoc; [done|]. tauto.
  - rewrite last_snoc. by intros ? [= <-].
  - done.
Qed.

Section Rules.
  Variable print_json : Value -> string.
  Variable json_stream : string -> list (option Value).

Lemma pending_assistant pending message merged :
  (forall object, pending = Some object -> from_assistant (JObject object)) ->
  merge_assistant_chat_message print_json pending message = Ok merged -> from_assistant (JObject merged).
Proof.
  intros Hp. unfold merge_assistant_chat_message. destruct (as_object message) as [object|]; [|done]. cbn [ok_or].
  destruct (negb _); [done|].
  assert (Hdefault : from_assistant (JObject (default new_assistant pending))).
  { destruct pending as [former|]; [by apply Hp|done]. }
  revert Hdefault. generalize (default new_assistant pending) as former. intros former Hformer.
  assert (Hinsert : forall key value fields, key <> "role" -> from_assistant (JObject fields) ->
    from_assistant (JObject (map_insert key value fields))).
  { intros key value fields Hk Hf. unfold from_assistant, role_of, get_str, get in *. rewrite map_get_insert.
    by destruct (String.eqb_spec key "role"). }
  assert (Hcontent : forall fields, match map_get object "content" with
      | Some content => let? merged := merge_chat_message_content print_json (default JNull (map_get former "content")) content in
                        Ok (map_insert "content" merged former)
      | None => Ok former end = Ok fields -> from_assistant (JObject fields)).
  { intros fields. destruct (map_get object "content"); [|by intros [= <-]].
    destruct (merge_chat_message_content _ _ _); [|done]. intros [= <-]. by apply Hinsert. }
  destruct (match map_get object "content" with Some _ => _ | None => _ end) as [fields|]; [|done].
  specialize (Hcontent fields eq_refl). unfold merge_tool_calls, merge_reasoning.
  assert (Hreasoning : from_assistant (JObject (merge_reasoning object fields))).
  { unfold merge_reasoning. destruct (get_str _ _) as [reasoning|]; [|done]. destruct (str_is_empty reasoning); [done|]. by apply Hinsert. }
  unfold merge_reasoning in Hreasoning. destruct (get_array _ _); [|by intros [= <-]].
  destruct (get_array _ _); [|done]. intros [= <-]. apply Hinsert; [done|]. unfold or_insert.
  destruct (map_get _ _); [done|]. by apply Hinsert.
Qed.

Lemma merge_wf self message self' :
  conversation_wf self -> merge_message print_json self message = Ok self' -> conversation_wf self'.
Proof.
  intros [Hr Ha Hlast Hp] H. unfold merge_message in H.
  destruct (merge_assistant_chat_message _ _ _) as [pending|] eqn:Hm; [|done]. injection H as <-.
  split; cbn [cn_messages cn_pending]; [done..|]. intros ? [= <-]. by eapply pending_assistant.
Qed.

(** ** The messages of the items *)

Lemma tool_output_role object message :
  responses_tool_output_object_to_chat_message object = Ok message -> role_of message = Some "tool".
Proof.
  unfold responses_tool_output_object_to_chat_message. destruct (ok_or _ _) as [call_id|]; [|done].
  destruct (ok_or _ _) as [content|]; [|done]. destruct (content_to_plain_text content); [|done]. by intros [= <-].
Qed.

Lemma converted_calls_role object ctx fields fields' :
  converted_tool_calls print_json json_stream object ctx fields = Ok fields' ->
  role_of (JObject fields') = role_of (JObject fields).
Proof.
  unfold converted_tool_calls. destruct (get_array _ _); [|by intros [= <-]]. destruct (collect _ _) as [calls|]; [|done].
  intros [= <-]. destruct (is_empty calls); [done|]. unfold role_of, get_str, get. by rewrite map_get_insert.
Qed.

(** The role of a message item, which is the one of the item unless the item is an
    output or has a role that chat does not know. *)
Lemma message_role object dialect ctx message :
  responses_message_object_to_chat_message_with_dialect print_json json_stream object dialect ctx = Ok message ->
  has_role message /\ (from_assistant message -> get_str (JObject object) "role" = Some "assistant").
Proof.
  unfold responses_message_object_to_chat_message_with_dialect. set (role := default "user" _).
  destruct (_ || _ || _).
  { intros H%tool_output_role. split; [exists "tool"; split; [set_solver|done]|]. unfold from_assistant. by rewrite H. }
  destruct (match map_get object "content" with Some _ => _ | None => _ end) as [content|]; [|done].
  destruct (converted_tool_calls _ _ _ _ _) as [fields|] eqn:Hc; [|done]. intros [= <-].
  apply converted_calls_role in Hc. set (known := if one_of role _ then role else "system") in *.
  assert (Hrole : role_of (JObject fields) = Some known).
  { rewrite Hc. destruct (get_str (JObject object) "reasoning_content") as [reasoning|]; [destruct (str_is_empty reasoning)|];
      unfold role_of, get_str, get; by rewrite ?map_get_insert. }
  unfold has_role, from_assistant. rewrite Hrole. split.
  - exists known. split; [|done]. unfold known, one_of. destruct (existsb _ _) eqn:Hk; [|set_solver].
    apply existsb_exists in Hk as (name & Hn & ->%String.eqb_eq). apply list_elem_of_In in Hn. set_solver.
  - intros [= Hk]. unfold known, role in Hk. destruct (one_of _ _) in Hk; [|done]. revert Hk.
    by destruct (get_str (JObject object) "role") as [?|]; intros [= ->].
Qed.

Lemma merge_or_push_wf self role message self' :
  conversation_wf self -> has_role message -> (from_assistant message -> role = Some "assistant") ->
  merge_or_push print_json self role message = Ok self' -> conversation_wf self'.
Proof.
  intros Hwf Hrole Hassistant. unfold merge_or_push. case_bool_decide as Hr.
  - by apply merge_wf.
  - intros [= <-]. apply push_wf; [done..|]. tauto.
Qed.

Lemma item_wf item context self self' :
  conversation_wf self -> translate_responses_input_item print_json json_stream item context self = Ok self' -> conversation_wf self'.
Proof.
  intros Hwf.
  assert (Hpush : forall message, role_of message = Some "tool" \/ role_of message = Some "user" ->
    conversation_wf (push_message self message)).
  { intros message H. apply push_wf; [done|..]; [exists (default "" (role_of message))|unfold from_assistant];
      destruct H as [H|H]; rewrite H; [split; [set_solver|done]..|done|done]. }
  assert (Hmessage : forall object, translate_message_item print_json json_stream object context self = Ok self' -> conversation_wf self').
  { intros object. unfold translate_message_item. destruct (responses_message_object_to_chat_message_with_dialect _ _ _ _ _) as [message|] eqn:Hm; [|done].
    apply message_role in Hm as [Hrole Ha]. by apply merge_or_push_wf. }
  assert (Huntyped : forall object, translate_untyped_item print_json json_stream object context self = Ok self' -> conversation_wf self').
  { intros object. unfold translate_untyped_item. destruct (existsb _ _); [|done].
    destruct (responses_message_object_to_chat_message_with_dialect _ _ _ _ _) as [message|] eqn:Hm; [|done].
    apply message_role in Hm as [Hrole Ha]. by apply merge_or_push_wf. }
  destruct item as [| | |content| |object]; try done; cbn [translate_responses_input_item].
  { intros [= <-]. apply Hpush. by right. }
  destruct (get_str (JObject object) "type") as [kind|]; [|apply Huntyped].
  destruct (String.eqb kind "reasoning").
  { unfold translate_reasoning_item. destruct (negb _); [by intros [= <-]|].
    destruct (responses_reasoning_text _) as [[reasoning|]|]; [|by intros [= <-]|done].
    destruct (str_is_empty reasoning); [by intros [= <-]|by apply merge_wf]. }
  destruct (_ || _).
  { unfold translate_call_item. destruct (adapt_responses_function_call _ _ _ _ _); [by apply merge_wf|done]. }
  destruct (String.eqb kind "function_call_output").
  { destruct (responses_tool_output_object_to_chat_message object) eqn:Hm; [|done]. intros [= <-]. apply Hpush. left.
    by eapply tool_output_role. }
  destruct (String.eqb kind "custom_tool_call_output").
  { destruct (adapt_call_output _ _) as [adapted|]; [|done]. destruct (ok_or _ _) as [fields|]; [|done].
    destruct (responses_tool_output_object_to_chat_message fields) eqn:Hm; [|done]. intros [= <-]. apply Hpush. left.
    by eapply tool_output_role. }
  destruct (String.eqb kind "message"); [apply Hmessage|].
  destruct (String.eqb kind "agent_message").
  { destruct (agent_message_object_to_chat_message _ _ _) as [message|] eqn:Hm; [|done].
    assert (Hrole : role_of message = Some "assistant").
    { revert Hm. unfold agent_message_object_to_chat_message. destruct (agent_message_contains_encrypted_content _); [done|].
      destruct (responses_content_to_chat_content_with_dialect _ _ _); [|done]. by intros [= <-]. }
    apply merge_or_push_wf; [done|exists "assistant"; split; [set_solver|done]|done]. }
  destruct (_ || _); [apply Hmessage|apply Huntyped].
Qed.

Lemma items_wf items context self self' :
  conversation_wf self -> translate_responses_input_items print_json json_stream items context self = Ok self' -> conversation_wf self'.
Proof.
  revert self. induction items as [|item items IH]; intros self Hwf; [by intros [= <-]|]. cbn [translate_responses_input_items].
  destruct (translate_responses_input_item _ _ _ _ _) as [next|] eqn:Hi; [|done]. apply IH. by eapply item_wf.
Qed.

(** C31. The messages of every chat request that is made of a Responses request have
    roles that chat knows, and no two neighbours are both the assistant's. *)
Theorem chat_messages_alternate input context chat :
  responses_request_to_chat_payload_with_context print_json json_stream input context = Ok chat ->
  exists messages, get chat "messages" = Some (JArray messages) /\ Forall has_role messages /\ alternate messages.
Proof.
  unfold responses_request_to_chat_payload_with_context. destruct (string_field _ _); [|done].
  destruct (request_conversation _ _ _ _) as [self|] eqn:Hself; [|done].
  destruct (converted_tools _ _); [|done]. destruct (match get input "tool_choice" with Some _ => _ | None => _ end); [|done].
  intros [= <-]. exists (cn_messages (flush_pending_assistant_message self)). split.
  { unfold get. by rewrite map_get_insert. }
  apply flush_wf. revert Hself. unfold request_conversation.
  destruct (match get input "instructions" with Some _ => _ | None => _ end) as [messages|] eqn:Hsystem; [|done].
  assert (Hwf : conversation_wf {| cn_pending := None; cn_messages := messages |}).
  { assert (Hm : messages = [] \/ exists content, messages = [role_item "system" content]).
    { destruct (get input "instructions"); [|by injection Hsystem as <-; left].
      destruct (responses_content_to_chat_content_with_dialect _ _ _) as [content|]; [|done]. injection Hsystem as <-. right. by exists content. }
    destruct Hm as [->|[content ->]]; [split; done|]. split; cbn [cn_messages cn_pending].
    - constructor; [|done]. exists "system". split; [set_solver|done].
    - apply (alternate_snoc [] (role_item "system" content)); [apply alternate_nil|done].
    - by intros ? [= <-].
    - done. }
  destruct (ok_or _ _) as [value|]; [|done]. destruct value as [| | |content|items|fields]; try done.
  - intros [= <-]. apply push_wf; [done|exists "user"; split; [set_solver|done]|done].
  - by apply items_wf.
  - by apply item_wf.
Qed.

(** ** Encrypted messages *)

(** Encrypted content somewhere in a value: in an array, or down the [content] fields. *)
Inductive Encrypted : Value -> Prop :=
| EncryptedType fields : get_str (JObject fields) "type" = Some "encrypted_content" -> Encrypted (JObject fields)
| EncryptedField fields value :
    map_get fields "encrypted_content" = Some value -> value <> JNull -> Encrypted (JObject fields)
| EncryptedContent fields value : map_get fields "content" = Some value -> Encrypted value -> Encrypted (JObject fields)
| EncryptedElement values value : value ∈ values -> Encrypted value -> Encrypted (JArray values).

Lemma in_content_spec {A} (default : A) (f : Value -> A) (fields : json_map) :
  (fix in_content (fields : json_map) : A :=
     match fields with
     | [] => default
     | (key, value) :: fields => if String.eqb key "content" then f value else in_content fields
     end) fields = match map_get fields "content" with Some value => f value | None => default end.
Proof. induction fields as [|[key value] fields IH]; [done|]. simpl. by destruct (String.eqb key "content"). Qed.

Lemma map_get_in fields key value : map_get fields key = Some value -> exists field, field ∈ fields /\ field.2 = value.
Proof.
  induction fields as [|[k v] fields IH]; [done|]. simpl. destruct (String.eqb k key).
  - intros [= ->]. exists (k, value). split; [by left|done].
  - intros (field & Hf & Hv)%IH. exists field. split; [by right|done].
Qed.

Lemma encrypted_spec value : agent_message_contains_encrypted_content value = true <-> Encrypted value.
Proof.
  induction value as [| | | |values IH|fields IH] using Value_nested_ind; try (split; [done|by inversion 1]).
  - cbn [agent_message_contains_encrypted_content]. rewrite existsb_exists. split.
    + intros (value & Hin & He). apply list_elem_of_In in Hin. eapply EncryptedElement; [exact Hin|].
      rewrite Forall_forall in IH. by apply IH.
    + inversion 1 as [| | |? value Hin He]; subst. exists value. split; [by apply list_elem_of_In|].
      rewrite Forall_forall in IH. by apply IH.
  - cbn [agent_message_contains_encrypted_content]. rewrite in_content_spec, !orb_true_iff, bool_decide_eq_true.
    assert (Hcontent : match map_get fields "content" with
        | Some value => agent_message_contains_encrypted_content value | None => false end = true <->
      exists value, map_get fields "content" = Some value /\ Encrypted value).
    { destruct (map_get fields "content") as [value|] eqn:Hc; [|split; [done|by intros (? & ? & _)]].
      destruct (map_get_in _ _ _ Hc) as (field & Hf & <-). rewrite Forall_forall in IH. rewrite (IH field Hf).
      split; [by eexists|]. by intros (? & [= <-] & ?). }
    rewrite Hcontent. split.
    + intros [[?|He]|(value & Hv & He)]; [by constructor| |by eapply EncryptedContent].
      destruct (map_get fields "encrypted_content") as [value|] eqn:Hv; [|done].
      eapply EncryptedField; [exact Hv|]. by intros ->.
    + inversion 1 as [? Ht|? value Hv Hne|? value Hv He|]; subst; [by left; left| |right; by eexists].
      left. right. rewrite Hv. by destruct value.
Qed.

(** C32. A message between agents that has encrypted content, at any depth, is never
    sent on: the conversion of the request fails with the error that names it, if the
    items before it can be read. *)
Theorem encrypted_messages_refused input context model before item after fields conversation instructions :
  string_field input "model" = Ok model ->
  get input "instructions" = JString <$> instructions ->
  get input "input" = Some (JArray (before ++ item :: after)) ->
  translate_responses_input_items print_json json_stream before context
    {| cn_pending := None; cn_messages := option_list ((fun text => role_item "system" (JString text)) <$> instructions) |} = Ok conversation ->
  item = JObject fields -> get_str item "type" = Some "agent_message" -> Encrypted item ->
  responses_request_to_chat_payload_with_context print_json json_stream input context = Err EncryptedAgentMessageUnsupported.
Proof.
  intros Hmodel Hinstructions Hinput Hbefore -> Htype Hencrypted%encrypted_spec.
  unfold responses_request_to_chat_payload_with_context. rewrite Hmodel. cbn match.
  assert (Hfails : request_conversation print_json json_stream input context = Err EncryptedAgentMessageUnsupported).
  { unfold request_conversation. rewrite Hinstructions.
    transitivity (translate_responses_input_items print_json json_stream (before ++ JObject fields :: after) context
      {| cn_pending := None; cn_messages := option_list ((fun text => role_item "system" (JString text)) <$> instructions) |}).
    { by destruct instructions; cbn; rewrite Hinput. }
    clear Hinput. revert Hbefore. generalize {| cn_pending := None; cn_messages := option_list ((fun text => role_item "system" (JString text)) <$> instructions) |}.
    induction before as [|former before IH]; intros self.
    - intros [= ->]. cbn [app translate_responses_input_items translate_responses_input_item]. rewrite Htype. cbn.
      unfold agent_message_object_to_chat_message. by rewrite Hencrypted.
    - cbn [app translate_responses_input_items]. destruct (translate_responses_input_item _ _ _ _ _); [apply IH|done]. }
  by rewrite Hfails.
Qed.

End Rules.

(** ** Witnesses *)

Definition no_print (value : Value) : string := "".
Definition no_stream (text : string) : list (option Value) := [].

Definition encrypted_item : Value :=
  json_object [("type", JString "agent_message");
               ("content", JArray [json_object [("type", JString "encrypted_content"); ("data", JString "x")]])].

Definition sample_request (items : list Value) : Value :=
  json_object [("model", JString "m"); ("instructions", JString "be brief"); ("input", JArray items)].

Lemma chat_messages_alternate_witness :
  exists messages, messages <> [] /\ Forall has_role messages /\ alternate messages.
Proof.
  set (chat := match responses_request_to_chat_payload_with_context no_print no_stream
                 (sample_request [role_item "assistant" (JString "a"); role_item "assistant" (JString "b"); role_item "user" (JString "c")])
                 ConversionContext_default with Ok chat => chat | Err _ => JNull end).
  destruct (chat_messages_alternate no_print no_stream
    (sample_request [role_item "assistant" (JString "a"); role_item "assistant" (JString "b"); role_item "user" (JString "c")])
    ConversionContext_default chat) as (messages & Hget & Hr & Ha).
  - vm_compute. reflexivity.
  - exists messages. split; [|by split]. vm_compute in Hget. injection Hget as <-. done.
Defined.

Lemma encrypted_messages_refused_witness :
  responses_request_to_chat_payload_with_context no_print no_stream (sample_request [role_item "user" (JString "c"); encrypted_item])
    ConversionContext_default = Err EncryptedAgentMessageUnsupported.
Proof.
  eapply (encrypted_messages_refused no_print no_stream _ ConversionContext_default "m" [role_item "user" (JString "c")] encrypted_item
    [] _ _ (Some "be brief")).
  - reflexivity.
  - reflexivity.
  - reflexivity.
  - vm_compute. reflexivity.
  - reflexivity.
  - reflexivity.
  - apply encrypted_spec. vm_compute. reflexivity.
Defined.
