(* ===== verification/ResponseRules.v ===== *)
(** * Responses between protocols

    The round trip of a chat response through a Responses response and back
    ([chat_response_to_responses_payload_with_context],
    [responses_response_to_chat_payload_with_tool_registry]). What the assistant says is
    a [Said] of [Conversations]. *)

From S2P Require Import Prelude ModelIdentity Protocol Json ToolArguments ToolAdapter StreamAggregate ChatCanonicalizer ResponseEvents ChatToResponses ImageAdapter MessageConversion PayloadConversion Conversations.

Local Open Scope Z_scope.

Section Responses.
  Variable print_json : Value -> string.
  Variable json_stream : string -> list (option Value).
  Variable parse_json : string -> option Value.
  Variable json_error : string -> string.
  Variable context : ConversionContext.

  (** serde_json reads back the inputs that it prints. *)
  Hypothesis parse_print : forall input,
    parse_json (print_json (json_object [("input", JString input)])) = Some (json_object [("input", JString input)]).

#[local] Notation registry := (cv_tool_registry context).

(** A call whose name the registry leads to its tool and back, or does not know; the
    arguments of a custom tool are its wrapped input. *)
Definition upstream_call (call : ToolCall) : Prop :=
  tc_arguments call <> "" /\
  (normalize_tool_arguments json_stream print_json (tc_arguments call)).1 = tc_arguments call /\
  normalize_tool_arguments_for_request json_stream print_json (tc_arguments call) (tool_arguments_context context)
    (tc_id call) = Ok (tc_arguments call) /\
  match registry_identity registry (tc_name call) with
  | None => registry_upstream_name registry (function_identity (tc_name call)) = None
  | Some identity =>
      declared_identity identity /\ registry_upstream_name registry identity = Some (tc_name call) /\
      (ti_kind identity = Custom -> exists input, tc_arguments call = print_json (json_object [("input", JString input)]))
  end.

(** ** The items of a response *)

Definition message_item (response_id status : string) (content : option string) : list Value :=
  match content with
  | Some content =>
      [json_object [("id", JString ("msg-" +:+ response_id)); ("type", JString "message"); ("status", JString status);
                    ("role", JString "assistant"); ("content", JArray [typed_text "output_text" content])]]
  | None => []
  end.

Definition reasoning_item (response_id status : string) (reasoning : string) : list Value :=
  if bool_decide (cv_reasoning_carrier context = MessagesThinking) || str_is_empty reasoning then []
  else [make_reasoning_item ("rs-" +:+ response_id) status (Some reasoning)].

Definition sent_call (status : string) (call : ToolCall) : Value :=
  json_object
    [("type", JString "function_call"); ("id", JString (tc_id call)); ("call_id", JString (tc_id call));
     ("name", JString (tc_name call)); ("arguments", JString (tc_arguments call)); ("status", JString status)].

(** What is left of the reasoning. *)
Definition reported (said : Said) : Said :=
  if bool_decide (cv_reasoning_carrier context = MessagesThinking) then {| said with sd_reasoning := "" |} else said.

Lemma items_there response_id said :
  Forall upstream_call (sd_calls said) ->
  response_items print_json json_stream response_id (JObject (assistant_fields said)) context =
    Ok (reasoning_item response_id "completed" (sd_reasoning said) ++ message_item response_id "completed" (sd_content said) ++
        (sent_call "completed" <$> sd_calls said)).
Proof.
  intros Hcalls. destruct (message_fields_said said) as (_ & Hc & Hr & Hk & Hf).
  unfold response_items, chat_reasoning_item. rewrite Hc, Hr, Hk, Hf.
  assert (Hcollect : forall call, upstream_call call ->
    chat_tool_call_to_function_call print_json json_stream (chat_tool_call (tc_id call) (tc_name call) (tc_arguments call))
      (tool_arguments_context context) = Ok (sent_call "completed" call)).
  { intros call (Hne & _ & Hn & _). unfold chat_tool_call_to_function_call, chat_tool_call. simpl.
    unfold extract_tool_call_details. simpl. unfold named_arguments. simpl. apply str_is_empty_false in Hne. rewrite Hne. simpl.
    by rewrite Hn. }
  assert (Hreasoning : option_list (snd <$> (if bool_decide (cv_reasoning_carrier context = MessagesThinking) then None
      else content ← (if str_is_empty (sd_reasoning said) then None else Some (sd_reasoning said));
           if str_is_empty content then None
           else Some (ReasoningContent, make_reasoning_item ("rs-" +:+ response_id) "completed" (Some content))))
    = reasoning_item response_id "completed" (sd_reasoning said)).
  { unfold reasoning_item. destruct (bool_decide _); [done|]. destruct (str_is_empty (sd_reasoning said)) eqn:He; [done|].
    simpl. by rewrite He. }
  rewrite Hreasoning.
  assert (Hcalled : match (if is_empty (sd_calls said) then None
        else Some ((fun call => chat_tool_call (tc_id call) (tc_name call) (tc_arguments call)) <$> sd_calls said)) with
      | Some tool_calls => collect (fun tool_call => chat_tool_call_to_function_call print_json json_stream tool_call
          (tool_arguments_context context)) tool_calls
      | None => Ok [] end = Ok (sent_call "completed" <$> sd_calls said)).
  { destruct (sd_calls said) as [|call calls]; [done|]. simpl is_empty. cbn match. apply collect_map.
    eapply Forall_impl; [exact Hcalls|]. apply Hcollect. }
  destruct (sd_content said) as [content|]; simpl; by rewrite Hcalled.
Qed.

(** ** Restored calls *)

Lemma restored_sent status call :
  upstream_call call ->
  exists item, restore_item print_json parse_json json_error registry (sent_call status call) = Ok item /\
    response_output_item_to_chat_message print_json json_stream item = Ok None /\
    responses_reasoning_text item = Ok None /\
    response_output_item_to_chat_tool_call print_json json_stream item (Some registry) ToolArgumentsContext_default =
      Ok (Some (chat_tool_call (tc_id call) (tc_name call) (tc_arguments call))).
Proof.
  intros (_ & Hn & _ & Hidentity).
  assert (Hdefault : normalize_tool_arguments_for_request json_stream print_json (tc_arguments call) ToolArgumentsContext_default
    (tc_id call) = Ok (tc_arguments call)).
  { unfold normalize_tool_arguments_for_request. destruct (normalize_tool_arguments _ _ _) as [normalized repair].
    simpl in *. by subst. }
  unfold restore_item, sent_call. simpl. unfold restore_function_call, extract_call_details, call_details. simpl.
  destruct (registry_identity registry (tc_name call)) as [[kind namespace name]|].
  2: { eexists. split; [done|]. split_and!; [done..|]. unfold response_output_item_to_chat_tool_call. simpl.
       unfold response_function_call_item_to_chat_tool_call. simpl. rewrite Hdefault. simpl. by rewrite Hidentity. }
  destruct Hidentity as (Hdeclared & Hname & Hcustom).
  assert (Hnamespace : match namespace with Some namespace => str_is_empty namespace = false | None => kind <> NamespaceMember end).
  { unfold declared_identity in Hdeclared. destruct kind, namespace as [namespace|]; simpl in *; try done;
      [apply str_is_empty_false; by intros ->|apply str_is_empty_false; intros ->; by destruct Hdeclared|by destruct Hdeclared as [[? ?] _]]. }
  destruct kind; simpl.
  - unfold declared_identity in Hdeclared. simpl in Hdeclared. subst. eexists. split; [done|]. split_and!; [done..|].
    unfold response_output_item_to_chat_tool_call. simpl. unfold response_function_call_item_to_chat_tool_call. simpl.
    rewrite Hdefault. simpl. unfold response_chat_tool_name. simpl. fold (function_identity name) in Hname. by rewrite Hname.
  - destruct (Hcustom eq_refl) as [input Hinput]. rewrite Hinput. unfold extract_custom_input. rewrite parse_print. simpl.
    eexists. split; [done|]. split_and!; [done..|].
    unfold response_output_item_to_chat_tool_call. simpl. unfold response_custom_tool_call_item_to_chat_tool_call. simpl.
    unfold response_chat_tool_name. fold (custom_identity namespace name) in Hname.
    destruct namespace as [namespace|]; simpl; rewrite ?Hnamespace; simpl; rewrite Hname; done.
  - destruct namespace as [namespace|]; [|done]. eexists. split; [done|]. split_and!; [done..|].
    unfold response_output_item_to_chat_tool_call. simpl. unfold response_function_call_item_to_chat_tool_call. simpl.
    rewrite Hdefault. simpl. unfold response_chat_tool_name. simpl. rewrite Hnamespace. simpl.
    fold (namespace_identity namespace name) in Hname. by rewrite Hname.
Qed.

(** ** Back *)

#[local] Notation take := (take_output_items print_json json_stream (Some registry)).

Lemma take_app self items more :
  take self (items ++ more) = (let? self := take self items in take self more).
Proof.
  revert self. induction items as [|item items IH]; intros self; [done|]. cbn [app take_output_items].
  destruct (take_output_item _ _ _ _ _) as [self'|]; [apply IH|done].
Qed.

Definition chat_call (call : ToolCall) : Value := chat_tool_call (tc_id call) (tc_name call) (tc_arguments call).

Lemma calls_back status calls :
  Forall upstream_call calls ->
  exists items, collect (restore_item print_json parse_json json_error registry) (sent_call status <$> calls) = Ok items /\
    forall self, take self items = Ok {| self with ao_tool_calls := ao_tool_calls self ++ (chat_call <$> calls) |}.
Proof.
  induction 1 as [|call calls Hcall _ (items & Hitems & Htake)].
  { exists []. split; [done|]. intros [message tool_calls reasoning]. simpl. by rewrite app_nil_r. }
  destruct (restored_sent status call Hcall) as (item & Hrestored & Hmessage & Hreasoning & Htool).
  exists (item :: items). split.
  { rewrite fmap_cons. cbn [collect]. by rewrite Hrestored, Hitems. }
  intros self. cbn [take_output_items]. unfold take_output_item. rewrite Hreasoning, Hmessage, Htool. simpl. rewrite Htake.
  simpl. by rewrite <-app_assoc.
Qed.

Definition mark (incomplete : bool) (items : list Value) : list Value := if incomplete then mark_incomplete <$> items else items.
Definition marked (incomplete : bool) : string := if incomplete then "incomplete" else "completed".

(** The items after they are marked. *)
Lemma marked_items incomplete response_id said :
  mark incomplete (reasoning_item response_id "completed" (sd_reasoning said) ++
    message_item response_id "completed" (sd_content said) ++ (sent_call "completed" <$> sd_calls said)) =
  reasoning_item response_id (marked incomplete) (sd_reasoning said) ++
    message_item response_id (marked incomplete) (sd_content said) ++ (sent_call (marked incomplete) <$> sd_calls said).
Proof.
  destruct incomplete; [|done]. cbn [mark marked]. rewrite !fmap_app, <-list_fmap_compose. f_equal; [|f_equal].
  - unfold reasoning_item. by destruct (_ || _).
  - by destruct (sd_content said).
Qed.

Lemma items_back incomplete response_id said :
  Forall upstream_call (sd_calls said) ->
  exists items, collect (restore_item print_json parse_json json_error registry)
      (reasoning_item response_id (marked incomplete) (sd_reasoning said) ++
       message_item response_id (marked incomplete) (sd_content said) ++ (sent_call (marked incomplete) <$> sd_calls said)) = Ok items /\
    exists taken, take assistant_output_new items = Ok taken /\ assistant_output_message taken = assistant_fields (reported said).
Proof.
  intros Hcalls. destruct (calls_back (marked incomplete) _ Hcalls) as (calls & Hrestored & Htake).
  exists (reasoning_item response_id (marked incomplete) (sd_reasoning said) ++ message_item response_id (marked incomplete) (sd_content said) ++ calls).
  split.
  { unfold reasoning_item. destruct (_ || _), (sd_content said); simpl; by rewrite Hrestored. }
  eexists. split.
  { rewrite take_app.
    assert (Hreasoning : take assistant_output_new (reasoning_item response_id (marked incomplete) (sd_reasoning said)) =
      Ok {| assistant_output_new with ao_reasoning := sd_reasoning (reported said) |}).
    { unfold reasoning_item, reported. destruct (bool_decide (_ = MessagesThinking)); simpl; [done|].
      destruct (str_is_empty (sd_reasoning said)) eqn:He; [apply str_is_empty_true in He; by rewrite He|]. simpl.
      unfold take_output_item. simpl. by rewrite append_nil. }
    rewrite Hreasoning. rewrite take_app.
    assert (Hcontent : forall reasoning, take {| assistant_output_new with ao_reasoning := reasoning |}
        (message_item response_id (marked incomplete) (sd_content said)) =
      Ok {| ao_message := (fun content => json_object [("role", JString "assistant"); ("content", JString content)]) <$> sd_content said;
            ao_tool_calls := []; ao_reasoning := reasoning |}).
    { intros reasoning. destruct (sd_content said) as [content|]; [|done]. simpl. unfold take_output_item. simpl.
      by rewrite append_nil. }
    rewrite Hcontent, Htake. simpl. reflexivity. }
  assert (Hs : forall s : Said, sd_content (reported s) = sd_content s /\ sd_calls (reported s) = sd_calls s).
  { intros s. unfold reported. by destruct (bool_decide _). }
  destruct (Hs said) as [<- <-]. unfold assistant_output_message, assistant_fields, insert_calls, insert_reasoning.
  cbn [ao_message ao_tool_calls ao_reasoning]. destruct (sd_calls (reported said)) as [|call calls'];
    destruct (sd_content (reported said)), (str_is_empty (sd_reasoning (reported said))); done.
Qed.

(** ** Usage *)

Lemma token_count_range usage primary fallback : u64 (usage_token_count usage primary fallback).
Proof.
  unfold usage_token_count. destruct (v ← or_else _ _; as_u64 v) as [n|] eqn:H; [|unfold u64, u64_max; simpl; lia].
  destruct (or_else _ _); [|done]. by apply as_u64_range in H.
Qed.

Lemma total_tokens_range usage a b : u64 a -> u64 b -> u64 (usage_total_tokens usage a b).
Proof.
  intros [? ?] [? ?]. unfold usage_total_tokens.
  destruct (v ← get usage "total_tokens"; as_u64 v) as [n|] eqn:Hn.
  - destruct (get usage "total_tokens"); [|done]. by apply as_u64_range in Hn.
  - unfold u64, sat_add. simpl. lia.
Qed.

Definition chat_usage (usage : Value) : Value := responses_usage_to_chat_usage (chat_usage_to_responses_usage usage).

(** The tokens survive the way there and back. *)
Lemma usage_back usage :
  let prompt := usage_token_count usage "prompt_tokens" "input_tokens" in
  let completion := usage_token_count usage "completion_tokens" "output_tokens" in
  get (chat_usage usage) "prompt_tokens" = Some (number prompt) /\
  get (chat_usage usage) "completion_tokens" = Some (number completion) /\
  get (chat_usage usage) "total_tokens" = Some (number (usage_total_tokens usage prompt completion)).
Proof.
  intros prompt completion.
  assert (Hfields : forall key, key <> "input_tokens_details" -> key <> "output_tokens_details" ->
    get (chat_usage_to_responses_usage usage) key = map_get (json_fields [("input_tokens", number prompt);
      ("output_tokens", number completion); ("total_tokens", number (usage_total_tokens usage prompt completion))]) key).
  { intros key Hi Ho. unfold chat_usage_to_responses_usage, normalize_responses_usage_details, ensure_usage_detail, get.
    rewrite !map_get_insert. unfold insert_detail.
    rewrite (proj2 (String.eqb_neq _ _)) by done. rewrite (proj2 (String.eqb_neq _ _)) by done.
    do 2 (destruct (or_else _ _); rewrite ?map_get_insert; rewrite ?(proj2 (String.eqb_neq "input_tokens_details" key)),
      ?(proj2 (String.eqb_neq "output_tokens_details" key)) by done). all: done. }
  pose proof (token_count_range usage "prompt_tokens" "input_tokens") as Hp.
  pose proof (token_count_range usage "completion_tokens" "output_tokens") as Hc.
  pose proof (total_tokens_range usage _ _ Hp Hc) as Ht.
  unfold chat_usage, responses_usage_to_chat_usage. set (responses := chat_usage_to_responses_usage usage) in *.
  assert (Hget : get responses "input_tokens" = Some (number prompt) /\ get responses "output_tokens" = Some (number completion) /\
    get responses "total_tokens" = Some (number (usage_total_tokens usage prompt completion))).
  { rewrite !Hfields by done. done. }
  destruct Hget as (Hgi & Hgo & Hgt).
  assert (Hin : usage_token_count responses "input_tokens" "prompt_tokens" = prompt).
  { unfold usage_token_count. rewrite Hgi. cbn [or_else mbind option_bind]. by rewrite as_u64_number. }
  assert (Hout : usage_token_count responses "output_tokens" "completion_tokens" = completion).
  { unfold usage_token_count. rewrite Hgo. cbn [or_else mbind option_bind]. by rewrite as_u64_number. }
  assert (Htotal : usage_total_tokens responses prompt completion = usage_total_tokens usage prompt completion).
  { unfold usage_total_tokens at 1. rewrite Hgt. cbn [mbind option_bind]. by rewrite as_u64_number. }
  rewrite Hin, Hout, Htotal. unfold insert_detail.
  destruct (or_else (get responses "prompt_tokens_details") _), (or_else (get responses "completion_tokens_details") _); done.
Qed.

(** ** The response as a whole *)

Record response_wf (input : Value) (model : string) (said : Said) (finish_reason : option string) : Prop := {
  rs_model : get_str input "model" = Some model;
  rs_choices : exists choice, get_array input "choices" = Some [choice] /\
    get choice "message" = Some (JObject (assistant_fields said)) /\ get_str choice "finish_reason" = finish_reason;
  rs_calls : Forall upstream_call (sd_calls said);
  rs_something : reported said <> nothing_said
}.

Definition chat_choice (said : Said) : Value :=
  json_object
    [("index", number 0); ("message", JObject (assistant_fields said));
     ("finish_reason", JString (if is_empty (sd_calls said) then "stop" else "tool_calls"))].

Lemma something_sent incomplete response_id said :
  reported said <> nothing_said ->
  is_empty (reasoning_item response_id (marked incomplete) (sd_reasoning said) ++
    message_item response_id (marked incomplete) (sd_content said) ++ (sent_call (marked incomplete) <$> sd_calls said)) = false.
Proof.
  unfold reported, reasoning_item. destruct said as [[content|] reasoning [|call calls]]; intros Hne;
    destruct (bool_decide _); simpl in *; try done; destruct (str_is_empty reasoning) eqn:He; try done.
  apply str_is_empty_true in He. by subst.
Qed.

Definition is_incomplete (finish_reason : option string) : bool := is_some (responses_incomplete_reason finish_reason).

Lemma response_there input model said finish_reason uuid :
  response_wf input model said finish_reason ->
  let incomplete := is_incomplete finish_reason in
  exists output items,
    chat_response_to_responses_payload_with_context print_json json_stream parse_json json_error uuid input context =
      Ok (JObject output) /\
    collect (restore_item print_json parse_json json_error registry)
      (reasoning_item ("resp_" +:+ uuid) (marked incomplete) (sd_reasoning said) ++
       message_item ("resp_" +:+ uuid) (marked incomplete) (sd_content said) ++ (sent_call (marked incomplete) <$> sd_calls said)) = Ok items /\
    map_get output "output" = Some (JArray items) /\ map_get output "model" = Some (JString model) /\
    map_get output "status" = Some (JString (marked incomplete)) /\
    map_get output "created" = Some (default (number 0) (get input "created")) /\
    map_get output "usage" = chat_usage_to_responses_usage <$> get input "usage".
Proof.
  intros [Hmodel (choice & Hchoices & Hmessage & Hfinish) Hcalls Hsome] incomplete.
  destruct (items_back incomplete ("resp_" +:+ uuid) said Hcalls) as (items & Hitems & _).
  unfold chat_response_to_responses_payload_with_context, string_field, array_field.
  rewrite Hmodel, Hchoices. cbn [ok_or]. rewrite Hmessage, Hfinish. cbn [ok_or]. rewrite items_there by done.
  rewrite (something_sent false) by done.
  change (if is_some (responses_incomplete_reason finish_reason) then mark_incomplete <$> ?l else ?l) with (mark incomplete l).
  rewrite marked_items, Hitems. eexists _, items. split; [done|]. split; [done|].
  rewrite !map_get_insert_some, !map_get_insert. cbn [String.eqb Ascii.eqb Bool.eqb].
  destruct (get input "usage"); cbn [or_else fmap option_fmap option_map];
    unfold incomplete, is_incomplete; destruct (responses_incomplete_reason finish_reason); rewrite ?map_get_insert; done.
Qed.

(** C30. A chat response that is sent on as a Responses response and read back is the
    response that was made: what the assistant said (reasoning only if the upstream
    does not sign it), the calls under the names of the tools, the model, the creation
    time and the tokens. The reason to finish is only whether there are calls, also for
    a response that was cut off and is marked as incomplete on the way. *)
Theorem response_roundtrip input model said finish_reason uuid :
  response_wf input model said finish_reason ->
  exists document chat,
    chat_response_to_responses_payload_with_context print_json json_stream parse_json json_error uuid input context = Ok document /\
    responses_response_to_chat_payload_with_tool_registry print_json json_stream document (Some registry) = Ok chat /\
    get_str document "status" = Some (if is_incomplete finish_reason then "incomplete" else "completed") /\
    get_str chat "model" = Some model /\
    get chat "choices" = Some (JArray [chat_choice (reported said)]) /\
    get chat "created" = Some (default (number 0) (get input "created")) /\
    get chat "usage" = chat_usage <$> get input "usage" /\
    (forall usage, get input "usage" = Some usage ->
       let prompt := usage_token_count usage "prompt_tokens" "input_tokens" in
       let completion := usage_token_count usage "completion_tokens" "output_tokens" in
       get (chat_usage usage) "prompt_tokens" = Some (number prompt) /\
       get (chat_usage usage) "completion_tokens" = Some (number completion) /\
       get (chat_usage usage) "total_tokens" = Some (number (usage_total_tokens usage prompt completion))).
Proof.
  intros Hwf. destruct (response_there input model said finish_reason uuid Hwf)
    as (output & items & Hthere & Hitems & Houtput & Hmodel & Hstatus & Hcreated & Husage).
  destruct (items_back (is_incomplete finish_reason) ("resp_" +:+ uuid) said (rs_calls _ _ _ _ Hwf))
    as (items' & Hitems' & taken & Htake & Hmessage).
  rewrite Hitems in Hitems'. injection Hitems' as <-.
  exists (JObject output). eexists. split; [exact Hthere|]. split.
  { unfold responses_response_to_chat_payload_with_tool_registry, string_field, array_field, get_str, get_array.
    change (get (JObject ?fields) ?key) with (map_get fields key).
    rewrite Hmodel, Houtput. cbn [mbind option_bind as_str as_array ok_or]. rewrite Htake, Hmessage. reflexivity. }
  unfold get_str. change (get (JObject ?fields) ?key) with (map_get fields key). rewrite Hcreated, Hstatus, Husage, !map_get_insert_some. cbn [String.eqb Ascii.eqb Bool.eqb].
  unfold contains_key. rewrite !assistant_field. split_and!.
  - done.
  - done.
  - rewrite map_get_json_fields. cbn -[json_object assistant_fields]. unfold chat_choice.
    by destruct (sd_calls (reported said)).
  - done.
  - by destruct (get input "usage").
  - intros usage _. apply usage_back.
Qed.

End Responses.

(** ** Witness *)

Definition wrapped_call : ToolCall :=
  {| tc_id := "c1"; tc_name := default "" (registry_upstream_name sample_registry patch_custom); tc_arguments := "*** Begin" |}.

Definition sample_said : Said :=
  {| sd_content := Some "here"; sd_reasoning := "first";
     sd_calls := [wrapped_call; {| tc_id := "c2"; tc_name := "ls"; tc_arguments := "{}" |}] |}.

Definition sample_response : Value :=
  json_object
    [("model", JString "m");
     ("choices", JArray [json_object [("message", JObject (assistant_fields sample_said)); ("finish_reason", JString "length")]]);
     ("usage", json_object [("prompt_tokens", number 3); ("completion_tokens", number 4)])].

Lemma response_roundtrip_witness :
  let context := {| ConversionContext_default with cv_tool_registry := sample_registry |} in
  response_wf input_print one_value_stream context sample_response "m" sample_said (Some "length") /\
  exists document chat,
    chat_response_to_responses_payload_with_context input_print one_value_stream input_parse id "u" sample_response context = Ok document /\
    responses_response_to_chat_payload_with_tool_registry input_print one_value_stream document (Some sample_registry) = Ok chat /\
    get_str document "status" = Some "incomplete" /\ get chat "choices" = Some (JArray [chat_choice sample_said]).
Proof.
  intros context.
  assert (Hwf : response_wf input_print one_value_stream context sample_response "m" sample_said (Some "length")).
  { split; [done| |repeat apply List.Forall_cons; [..|apply List.Forall_nil]|vm_compute; discriminate].
    - eexists. split; [reflexivity|]. split; vm_compute; reflexivity.
    - split; [vm_compute; discriminate|]. split; [vm_compute; reflexivity|]. split; [vm_compute; reflexivity|].
      change (declared_identity patch_custom /\
        registry_upstream_name sample_registry patch_custom = Some (default "" (registry_upstream_name sample_registry patch_custom)) /\
        (Custom = Custom -> exists input, "*** Begin" = input_print (json_object [("input", JString input)]))).
      split; [vm_compute; discriminate|]. split; [vm_compute; reflexivity|]. intros _. by exists "*** Begin".
    - split; [vm_compute; discriminate|]. split; [vm_compute; reflexivity|]. split; vm_compute; reflexivity. }
  split; [exact Hwf|].
  destruct (response_roundtrip input_print one_value_stream input_parse id context (fun input => eq_refl) sample_response "m" sample_said
    (Some "length") "u" Hwf) as (document & chat & Hthere & Hback & Hstatus & _ & Hchoices & _).
  by exists document, chat.
Defined.
