(* ===== verification/ResponsesToChat.v ===== *)
(** * From a Responses stream to a chat stream

    [ResponsesToChatState] of [src/src/protocol.rs]: the translator that turns the
    events of a Responses stream into the chunks of a chat stream.

    A method that appends chunks to a vector is an [Emission]: a function from the state
    to the state and the chunks, or the error that ends the call; the vector of a call
    that fails is lost, the state is not. Fresh identifiers and the clock are in
    [ChatDraws]. serde_json is a parameter; [Value::to_string] of a string is quoted. *)

From S2P Require Import Prelude ModelIdentity Protocol Json ToolArguments ToolAdapter StreamAggregate ResponseEvents ChatToResponses ImageAdapter MessageConversion.

Local Open Scope Z_scope.

(** ** State *)

Record ResponsesToolCallState := {
  rt_item_id : string;
  rt_call_id : string;
  rt_name : option string;
  rt_arguments : string;
  rt_added_emitted : bool;
  rt_custom_input : bool;
  rt_custom_input_value : string;
  rt_custom_input_closed : bool
}.

Record ResponsesToChatState := {
  rc_response_id : option string;
  rc_model : option string;
  rc_created_at : option Z;
  rc_assistant_role_emitted : bool;
  rc_completed_emitted : bool;
  rc_assistant_message_output_index : option Z;
  rc_text : string;
  rc_text_output_emitted : bool;
  rc_text_output_done : bool;
  rc_agent_message_content_emitted : bool;
  rc_pending_agent_message : option json_map;
  rc_tool_calls : gmap Z ResponsesToolCallState;
  rc_tool_registry : option ToolAdapterRegistry
}.

Definition ResponsesToChatState_new (tool_registry : option ToolAdapterRegistry) : ResponsesToChatState :=
  {| rc_response_id := None; rc_model := None; rc_created_at := None; rc_assistant_role_emitted := false;
     rc_completed_emitted := false; rc_assistant_message_output_index := None; rc_text := "";
     rc_text_output_emitted := false; rc_text_output_done := false; rc_agent_message_content_emitted := false;
     rc_pending_agent_message := None; rc_tool_calls := ∅; rc_tool_registry := tool_registry |}.

Record ChatDraws := { cd_response : string; cd_now : Z }.

(** ** Emissions *)

Definition Emission : Type := ResponsesToChatState -> ResponsesToChatState * result (list Value) ProtocolError.

Definition emit_nothing : Emission := fun self => (self, Ok []).
Definition fail_with (error : ProtocolError) : Emission := fun self => (self, Err error).
Definition update (f : ResponsesToChatState -> ResponsesToChatState) : Emission := fun self => (f self, Ok []).

Definition then_emit (f g : Emission) : Emission := fun self =>
  match f self with
  | (self, Err error) => (self, Err error)
  | (self, Ok output) =>
      match g self with
      | (self, Err error) => (self, Err error)
      | (self, Ok more) => (self, Ok (output ++ more))
      end
  end.

Infix ";>" := then_emit (at level 60, right associativity).

(** A fallible value that the emission goes on with. *)
Definition with_value {A} (value : result A ProtocolError) (f : A -> Emission) : Emission := fun self =>
  match value with Ok value => f value self | Err error => (self, Err error) end.

(** ** Chunks *)

Definition make_chat_completion_chunk (response_id : string) (created_at : Z) (model : string) (delta : Value)
    (finish_reason : option string) : Value :=
  json_object
    [("id", JString response_id); ("object", JString "chat.completion.chunk"); ("created", number created_at);
     ("model", JString model);
     ("choices", JArray [json_object
        [("index", number 0); ("delta", delta);
         ("finish_reason", match finish_reason with Some value => JString value | None => JNull end)]])].

Section Translator.
  Variable print_json : Value -> string.
  Variable json_stream : string -> list (option Value).
  Variable draws : ChatDraws.

Definition chat_response_id : string := "chatcmpl-" +:+ cd_response draws.

Definition response_field (event : Value) (field : string) : option Value :=
  response ← (v ← get event "response"; as_object v); map_get response field.

Definition initialize_chat_metadata (event : Value) (self : ResponsesToChatState) : ResponsesToChatState :=
  {| self with
     rc_response_id := or_else (rc_response_id self)
       (Some (default chat_response_id (or_else (get_str event "response_id") (v ← response_field event "id"; as_str v))));
     rc_model := or_else (rc_model self) (or_else (get_str event "model") (v ← response_field event "model"; as_str v));
     rc_created_at := or_else (rc_created_at self)
       (or_else (v ← get event "created"; as_u64 v) (v ← response_field event "created_at"; as_u64 v)) |}.

(** [response_id_value], [model_value] and [created_at_value], and the chunk that is
    built with them. *)
Definition push_chunk (delta : Value) (finish_reason : option string) : Emission := fun self =>
  let response_id := default chat_response_id (rc_response_id self) in
  let model := default "" (rc_model self) in
  let created_at := default (cd_now draws) (rc_created_at self) in
  ({| self with rc_response_id := Some response_id; rc_created_at := Some created_at |},
   Ok [make_chat_completion_chunk response_id created_at model delta finish_reason]).

Definition content_delta (content : string) : Value := json_object [("content", JString content)].

Definition role_delta : Value := json_object [("role", JString "assistant"); ("content", JString "")].

Definition emit_assistant_role : Emission := fun self =>
  if rc_assistant_role_emitted self then (self, Ok [])
  else (push_chunk role_delta None ;> update (fun self => {| self with rc_assistant_role_emitted := true |})) self.

Definition ensure_single_assistant_message_output_index (output_index : Z) : Emission := fun self =>
  match rc_assistant_message_output_index self with
  | Some existing_output_index =>
      if existing_output_index =? output_index then (self, Ok [])
      else (self, Err (InvalidPayload
        "multiple assistant messages are not supported when translating Responses streams to chat payloads"))
  | None => ({| self with rc_assistant_message_output_index := Some output_index |}, Ok [])
  end.

(** ** Text *)

Definition emit_output_text_delta (event : Value) : Emission :=
  with_value (ok_or (get_str event "delta") (MissingField "delta")) (fun delta self =>
    if rc_agent_message_content_emitted self || rc_text_output_done self then (self, Ok [])
    else
      (update (fun self =>
         {| self with rc_text := rc_text self +:+ delta;
            rc_text_output_emitted := rc_text_output_emitted self || negb (str_is_empty delta) |}) ;>
       push_chunk (content_delta delta) None) self).

(** What of a text was not sent yet. *)
Definition text_suffix (self : ResponsesToChatState) (content : string) : string :=
  if rc_text_output_emitted self then default content (text_strip_prefix (rc_text self) content) else content.

Definition emit_complete_text (content : string) : Emission := fun self =>
  let suffix := text_suffix self content in
  (update (fun self => {| self with rc_text := content |}) ;>
   (if str_is_empty suffix then emit_nothing else push_chunk (content_delta suffix) None) ;>
   update (fun self =>
     {| self with rc_text_output_emitted := rc_text_output_emitted self || negb (str_is_empty content) |})) self.

Definition emit_output_text_done (event : Value) : Emission :=
  match get_str event "text" with Some content => emit_complete_text content | None => emit_nothing end ;>
  update (fun self => {| self with rc_text_output_done := true |}).

(** ** Tool calls *)

Definition event_output_index (event : Value) : Z := default 0 (v ← get event "output_index"; as_u64 v).

Definition find_tool_call_index_by_item_id (self : ResponsesToChatState) (item_id : option string) : option Z :=
  item_id ← item_id;
  fst <$> List.find (fun entry => String.eqb (rt_item_id entry.2) item_id) (ordered_entries (rc_tool_calls self)).

Definition call_output_index (self : ResponsesToChatState) (event : Value) : Z :=
  default 0 (or_else (v ← get event "output_index"; as_u64 v)
    (find_tool_call_index_by_item_id self (get_str event "item_id"))).

(** The text of a string in a document, without the quotes. *)
Definition json_string_fragment (value : string) : string :=
  let encoded := bytes (print_json (JString value)) in
  text (take (length encoded - 2) (drop 1 encoded)).

(** The beginning and the end of the arguments of a custom call. *)
Definition input_opening : string := "{" +:+ text (code [34]) +:+ "input" +:+ text (code [34]) +:+ ":" +:+ text (code [34]).
Definition input_closing : string := text (code [34]) +:+ "}".

Definition call_chunk_delta (output_index : Z) (call_id : string) (name : option string) (arguments : string) : Value :=
  json_object
    [("tool_calls", JArray [json_object
       [("index", number output_index); ("id", JString call_id); ("type", JString "function");
        ("function", JObject (match name with
           | Some name => json_fields [("name", JString name); ("arguments", JString arguments)]
           | None => json_fields [("arguments", JString arguments)] end))]])].

Definition put_call (output_index : Z) (entry : ResponsesToolCallState) (self : ResponsesToChatState) : ResponsesToChatState :=
  {| self with rc_tool_calls := <[output_index := entry]> (rc_tool_calls self) |}.

(** The entry after an announcement of the item. *)
Definition announced_entry (entry : ResponsesToolCallState) (item_id call_id name arguments : string) (is_custom : bool)
    (input : option string) : ResponsesToolCallState :=
  {| rt_item_id := if str_is_empty (rt_item_id entry) then item_id else rt_item_id entry;
     rt_call_id := if str_is_empty (rt_call_id entry) then call_id else rt_call_id entry;
     rt_name := if is_none (rt_name entry) && negb (str_is_empty name) then Some name else rt_name entry;
     rt_arguments := rt_arguments entry +:+ arguments;
     rt_added_emitted := true;
     rt_custom_input := is_custom || rt_custom_input entry;
     rt_custom_input_value := if is_custom then default (rt_custom_input_value entry) input else rt_custom_input_value entry;
     rt_custom_input_closed := rt_custom_input_closed entry |}.

Definition emit_function_call_item_added (event : Value) (item : json_map) : Emission :=
  let output_index := event_output_index event in
  with_value (ok_or (get_str (JObject item) "id") (MissingField "item.id")) (fun item_id self =>
    let call_id := default item_id (get_str (JObject item) "call_id") in
    let name := response_chat_tool_name item (default "" (get_str (JObject item) "name")) (rc_tool_registry self) in
    let is_custom := bool_decide (get_str (JObject item) "type" = Some "custom_tool_call") in
    let input := get_str (JObject item) "input" in
    let arguments :=
      if is_custom then input_opening +:+ json_string_fragment (default "" input)
      else default "" (get_str (JObject item) "arguments") in
    let entry := default
      {| rt_item_id := item_id; rt_call_id := call_id; rt_name := Some name; rt_arguments := ""; rt_added_emitted := false;
         rt_custom_input := is_custom; rt_custom_input_value := ""; rt_custom_input_closed := false |}
      (rc_tool_calls self !! output_index) in
    let entry' := announced_entry entry item_id call_id name arguments is_custom input in
    (update (put_call output_index entry') ;>
     (if rt_added_emitted entry then emit_nothing
      else push_chunk (call_chunk_delta output_index (rt_call_id entry') (Some (default "" (rt_name entry')))
             (rt_arguments entry')) None)) self).

(** The call that a delta belongs to when it was not announced. *)
Definition unannounced_entry (event : Value) (output_index_text : string) (name : option string) (is_custom : bool)
    : ResponsesToolCallState :=
  {| rt_item_id := default ("call-" +:+ output_index_text) (get_str event "item_id");
     rt_call_id := default ("call-" +:+ output_index_text) (get_str event "call_id");
     rt_name := name; rt_arguments := ""; rt_added_emitted := false; rt_custom_input := is_custom;
     rt_custom_input_value := ""; rt_custom_input_closed := false |}.

Definition extended_entry (entry : ResponsesToolCallState) (name : option string) (is_custom : bool) (delta fragment : string)
    : ResponsesToolCallState :=
  {| entry with
     rt_name := or_else (rt_name entry) name;
     rt_arguments := (if is_custom && str_is_empty (rt_arguments entry) then input_opening else rt_arguments entry) +:+ fragment;
     rt_custom_input := is_custom || rt_custom_input entry;
     rt_custom_input_value := if is_custom then rt_custom_input_value entry +:+ delta else rt_custom_input_value entry |}.

Definition emit_function_call_arguments_delta (event : Value) : Emission := fun self =>
  let output_index := call_output_index self event in
  with_value (ok_or (get_str event "delta") (MissingField "delta")) (fun delta self =>
    let mapped_name :=
      object ← as_object event; name ← get_str event "name";
      Some (response_chat_tool_name object name (rc_tool_registry self)) in
    let is_custom := bool_decide (get_str event "type" = Some "response.custom_tool_call_input.delta") in
    let fragment := if is_custom then json_string_fragment delta else delta in
    let entry := default (unannounced_entry event (print_json (number output_index)) mapped_name is_custom)
      (rc_tool_calls self !! output_index) in
    let entry := extended_entry entry mapped_name is_custom delta fragment in
    (update (put_call output_index entry) ;>
     push_chunk (call_chunk_delta output_index (rt_call_id entry) (Some (default "" (rt_name entry))) fragment) None) self)
  self.

Definition emit_function_call_arguments_done (event : Value) (self : ResponsesToChatState) : ResponsesToChatState :=
  let output_index := call_output_index self event in
  match rc_tool_calls self !! output_index with
  | Some entry =>
      put_call output_index
        {| entry with rt_arguments := default (rt_arguments entry) (get_str event "arguments");
                      rt_name := or_else (get_str event "name") (rt_name entry) |} self
  | None => self
  end.

(** The rest of the input of a custom call, and the closing of its arguments. *)
Definition close_custom_entry (entry : ResponsesToolCallState) (input : string)
    : result (ResponsesToolCallState * string * string) ProtocolError :=
  if negb (rt_custom_input entry) then Err (InvalidPayload "custom tool input event did not have a custom tool call")
  else
    let? (entry, fragment) :=
      (if String.eqb (rt_custom_input_value entry) input then Ok (entry, "")
       else
         let? missing := ok_or (text_strip_prefix (rt_custom_input_value entry) input)
           (InvalidPayload "custom tool input delta mismatch") in
         let fragment := json_string_fragment missing in
         let arguments := if str_is_empty (rt_arguments entry) then input_opening else rt_arguments entry in
         Ok ({| entry with rt_custom_input_value := input; rt_arguments := arguments +:+ fragment |}, fragment)) in
    if rt_custom_input_closed entry then Ok (entry, fragment, "")
    else Ok ({| entry with rt_custom_input_closed := true; rt_arguments := rt_arguments entry +:+ input_closing |},
             fragment, input_closing).

Definition emit_custom_tool_call_input_done (event : Value) : Emission := fun self =>
  let output_index := call_output_index self event in
  with_value
    (let? input := ok_or (get_str event "input") (MissingField "input") in
     let? entry := ok_or (rc_tool_calls self !! output_index) (MissingField "custom_tool_call") in
     close_custom_entry entry input)
    (fun '(entry, fragment, suffix) =>
       update (put_call output_index entry) ;>
       (if str_is_empty fragment && str_is_empty suffix then emit_nothing
        else push_chunk (call_chunk_delta output_index (rt_call_id entry) None (fragment +:+ suffix)) None))
    self.

(** ** Items *)

(** Recursion through the [content] of objects and through arrays. *)
Fixpoint visible_chat_content_text (content : Value) : string :=
  match content with
  | JString content => content
  | JArray parts => foldr (fun part rest => visible_chat_content_text part +:+ rest) "" parts
  | JObject fields =>
      match get_str (JObject fields) "text" with
      | Some content => content
      | None =>
          (fix in_content (fields : json_map) : string :=
             match fields with
             | [] => ""
             | (key, value) :: fields => if String.eqb key "content" then visible_chat_content_text value else in_content fields
             end) fields
      end
  | _ => ""
  end.

Definition emit_agent_message_content_if_needed (item : json_map) : Emission :=
  with_value (agent_message_object_to_chat_message print_json item ImageDialect_all) (fun message =>
    match get message "content" with
    | None => emit_nothing
    | Some content =>
        let content := visible_chat_content_text content in
        if str_is_empty content then emit_nothing
        else emit_complete_text content ;> update (fun self => {| self with rc_agent_message_content_emitted := true |})
    end).

(** An announced or finished message must be readable and be the only one. *)
Definition accept_message_item (event : Value) (item : json_map) : Emission :=
  with_value (response_output_message_item_to_chat_message print_json json_stream item) (fun _ =>
    ensure_single_assistant_message_output_index (event_output_index event)).

Definition emit_output_item_added (event : Value) : Emission :=
  match (v ← get event "item"; as_object v) with
  | None => emit_nothing
  | Some item =>
      with_value (response_output_item_kind item) (fun kind =>
        match kind with
        | FunctionCallItem | CustomToolCallItem => emit_assistant_role ;> emit_function_call_item_added event item
        | MessageItem => accept_message_item event item ;> emit_assistant_role
        | AgentMessageItem =>
            accept_message_item event item ;> emit_assistant_role ;>
            update (fun self => {| self with rc_pending_agent_message := Some item |})
        | ReasoningOutputItem => emit_nothing
        end)
  end.

(** The event as one about the input of the call. *)
Definition custom_done_event (event : Value) (item : json_map) : Value :=
  match event with
  | JObject object =>
      let object := map_insert "item_id" (default JNull (map_get item "id")) object in
      JObject (match map_get item "input" with Some input => map_insert "input" input object | None => object end)
  | _ => event
  end.

Definition emit_output_item_done (event : Value) : Emission :=
  match (v ← get event "item"; as_object v) with
  | None => emit_nothing
  | Some item =>
      with_value (response_output_item_kind item) (fun kind =>
        match kind with
        | FunctionCallItem => update (emit_function_call_arguments_done event)
        | CustomToolCallItem => emit_custom_tool_call_input_done (custom_done_event event item)
        | MessageItem => accept_message_item event item ;> update (emit_function_call_arguments_done event)
        | AgentMessageItem =>
            accept_message_item event item ;>
            update (fun self => {| self with rc_pending_agent_message := None |}) ;>
            emit_agent_message_content_if_needed item ;> update (emit_function_call_arguments_done event)
        | ReasoningOutputItem => emit_nothing
        end)
  end.

(** ** The end *)

Definition finish_reason_of (self : ResponsesToChatState) : string :=
  if bool_decide (rc_tool_calls self = ∅) then "stop" else "tool_calls".

Definition emit_pending_agent_message : Emission := fun self =>
  match rc_pending_agent_message self with
  | Some item =>
      (update (fun self => {| self with rc_pending_agent_message := None |}) ;> emit_agent_message_content_if_needed item) self
  | None => (self, Ok [])
  end.

Definition chat_translator_finish : Emission := fun self =>
  if rc_completed_emitted self then (self, Ok [])
  else
    (emit_assistant_role ;> emit_pending_agent_message ;>
     (fun self => push_chunk (JObject []) (Some (finish_reason_of self)) self) ;>
     update (fun self => {| self with rc_completed_emitted := true |})) self.

(** The output of a [completed] event must be one that a chat response can hold. *)
Fixpoint validate_output (items : list Value) (assistant_message_count : nat) : result unit ProtocolError :=
  match items with
  | [] => Ok tt
  | item :: items =>
      let? object := ok_or (as_object item) (InvalidPayload "unsupported responses output item") in
      let? kind := response_output_item_kind object in
      match kind with
      | FunctionCallItem =>
          let? _ := response_function_call_item_to_chat_tool_call print_json json_stream object None ToolArgumentsContext_default in
          validate_output items assistant_message_count
      | CustomToolCallItem =>
          let? _ := response_custom_tool_call_item_to_chat_tool_call print_json object None in
          validate_output items assistant_message_count
      | MessageItem | AgentMessageItem =>
          let? _ := response_output_message_item_to_chat_message print_json json_stream object in
          if Nat.ltb 1 (S assistant_message_count) then
            Err (InvalidPayload
              "multiple assistant messages are not supported when translating Responses payloads to chat payloads")
          else validate_output items (S assistant_message_count)
      | ReasoningOutputItem => validate_output items assistant_message_count
      end
  end.

Definition completed_output (event : Value) : option (list Value) := v ← response_field event "output"; as_array v.

Definition validate_completed_response_output (event : Value) : Emission :=
  match completed_output event with
  | Some output => with_value (validate_output output 0) (fun _ => emit_nothing)
  | None => emit_nothing
  end.

(** The first message of an agent in the output of a [completed] event. *)
Fixpoint emit_first_agent_message (output_index : Z) (items : list Value) : Emission :=
  match items with
  | [] => emit_nothing
  | item :: items =>
      match as_object item with
      | None => emit_first_agent_message (output_index + 1) items
      | Some object =>
          with_value (response_output_item_kind object) (fun kind =>
            match kind with
            | AgentMessageItem =>
                ensure_single_assistant_message_output_index output_index ;>
                update (fun self => {| self with rc_pending_agent_message := None |}) ;>
                emit_agent_message_content_if_needed object
            | _ => emit_first_agent_message (output_index + 1) items
            end)
      end
  end.

Definition emit_completed_agent_message_content (event : Value) : Emission := fun self =>
  if rc_agent_message_content_emitted self then (self, Ok [])
  else
    match completed_output event with
    | Some items => emit_first_agent_message 0 items self
    | None => (self, Ok [])
    end.

(** ** Events *)

Definition emit_text_event (event : Value) (emission : Emission) : Emission :=
  emit_assistant_role ;> ensure_single_assistant_message_output_index (event_output_index event) ;> emission.

Definition emit_event (kind : string) (event : Value) : Emission :=
  if String.eqb kind "response.created" then emit_assistant_role
  else if String.eqb kind "response.output_item.added" then emit_output_item_added event
  else if String.eqb kind "response.output_text.delta" then emit_text_event event (emit_output_text_delta event)
  else if String.eqb kind "response.output_text.done" then emit_text_event event (emit_output_text_done event)
  else if String.eqb kind "response.function_call_arguments.delta"
       || String.eqb kind "response.custom_tool_call_input.delta" then
    emit_assistant_role ;> emit_function_call_arguments_delta event
  else if String.eqb kind "response.function_call_arguments.done" then
    emit_assistant_role ;> update (emit_function_call_arguments_done event)
  else if String.eqb kind "response.custom_tool_call_input.done" then
    emit_assistant_role ;> emit_custom_tool_call_input_done event
  else if String.eqb kind "response.output_item.done" then emit_assistant_role ;> emit_output_item_done event
  else if String.eqb kind "response.completed" then
    emit_assistant_role ;> validate_completed_response_output event ;> emit_completed_agent_message_content event ;>
    chat_translator_finish
  else emit_nothing.

Definition translate_response_event (event : Value) : Emission :=
  match get_str event "type" with
  | None => emit_nothing
  | Some kind => update (initialize_chat_metadata event) ;> emit_event kind event
  end.

End Translator.
