(* ===== verification/ResponsesToChatFacts.v ===== *)
(** * What a chat client reads in a translated Responses stream

    [Reply] is what a Responses stream says, grown by the relation [says], one rule for
    each event of a well-formed stream. [chat_replay] is a client that reads the chunks
    of a chat stream and insists on the protocol. The theorem is that the translator of
    [ResponsesToChat] accepts every such stream and that the client reads in its chunks
    what the stream says. The proofs are by rules for [Emission]s. *)

From S2P Require Import Prelude ModelIdentity Protocol Json ToolArguments ToolAdapter StreamAggregate ResponseEvents ChatToResponses ImageAdapter MessageConversion ResponsesToChat.

Local Open Scope Z_scope.

(** ** A client of chat streams *)

Record ReadCall := { rd_id : string; rd_name : string; rd_arguments : string }.

Record Reading := {
  rd_envelope : option (string * Z);
  rd_text : string;
  rd_calls : gmap Z ReadCall;
  rd_finish : option string
}.

Definition reading_new : Reading := {| rd_envelope := None; rd_text := ""; rd_calls := ∅; rd_finish := None |}.

(** The first chunk has the role, and no other chunk has; all chunks have the same
    identifier and time. *)
Definition take_role (self : Reading) (envelope : string * Z) (delta : Value) : option Reading :=
  match rd_envelope self with
  | None => if bool_decide (get_str delta "role" = Some "assistant") then Some {| self with rd_envelope := Some envelope |} else None
  | Some former => if bool_decide (former = envelope /\ get delta "role" = None) then Some self else None
  end.

Definition take_text (self : Reading) (delta : Value) : Reading :=
  {| self with rd_text := rd_text self +:+ default "" (get_str delta "content") |}.

(** A fragment of a call: the first one names the tool; a name is never changed. *)
Definition take_fragment (self : Reading) (fragment : Value) : option Reading :=
  index ← (v ← get fragment "index"; as_u64 v);
  call_id ← get_str fragment "id";
  arguments ← (function ← get fragment "function"; get_str function "arguments");
  let name := function ← get fragment "function"; get_str function "name" in
  match rd_calls self !! index with
  | None =>
      name ← name;
      Some {| self with rd_calls :=
        <[index := {| rd_id := call_id; rd_name := name; rd_arguments := arguments |}]> (rd_calls self) |}
  | Some call =>
      if bool_decide (call_id = rd_id call /\ is_none_or (String.eqb (rd_name call)) name = true) then
        Some {| self with rd_calls :=
          <[index := {| call with rd_arguments := rd_arguments call +:+ arguments |}]> (rd_calls self) |}
      else None
  end.

Fixpoint take_fragments (self : Reading) (fragments : list Value) : option Reading :=
  match fragments with
  | [] => Some self
  | fragment :: fragments => self ← take_fragment self fragment; take_fragments self fragments
  end.

(** Nothing may follow the chunk with the reason to finish. *)
Definition take_chunk (self : Reading) (chunk : Value) : option Reading :=
  match rd_finish self with
  | Some _ => None
  | None =>
      response_id ← get_str chunk "id";
      created ← (v ← get chunk "created"; as_u64 v);
      choices ← get_array chunk "choices";
      match choices with
      | [choice] =>
          delta ← get choice "delta";
          self ← take_role self (response_id, created) delta;
          self ← take_fragments (take_text self delta) (default [] (get_array delta "tool_calls"));
          Some {| self with rd_finish := get_str choice "finish_reason" |}
      | _ => None
      end
  end.

Fixpoint chat_replay (self : Reading) (chunks : list Value) : option Reading :=
  match chunks with
  | [] => Some self
  | chunk :: chunks => self ← take_chunk self chunk; chat_replay self chunks
  end.

Lemma chat_replay_app self chunks more :
  chat_replay self (chunks ++ more) = (self ← chat_replay self chunks; chat_replay self more).
Proof. revert self. induction chunks as [|chunk chunks IH]; intros self; [done|]. simpl. destruct (take_chunk self chunk); [apply IH|done]. Qed.

(** ** Rules for emissions *)

(** [emits f P self c]: the emission succeeds, the client accepts its chunks, and what
    follows holds of the state and of the client. *)
Definition emits (f : Emission) (P : ResponsesToChatState -> Reading -> Prop) (self : ResponsesToChatState) (c : Reading) : Prop :=
  exists self' chunks c', f self = (self', Ok chunks) /\ chat_replay c chunks = Some c' /\ P self' c'.

Lemma emits_nothing P self c : P self c -> emits emit_nothing P self c.
Proof. intros H. by exists self, [], c. Qed.

Lemma emits_update f P self c : P (f self) c -> emits (update f) P self c.
Proof. intros H. by exists (f self), [], c. Qed.

Lemma emits_then f g P self c : emits f (emits g P) self c -> emits (f ;> g) P self c.
Proof.
  intros (self1 & chunks & c1 & Hf & Hc & self2 & more & c2 & Hg & Hmore & HP).
  exists self2, (chunks ++ more), c2. unfold then_emit. rewrite Hf, Hg. split; [done|]. split; [|done].
  rewrite chat_replay_app, Hc. done.
Qed.

Lemma emits_with_value {A} (value : A) f P self c : emits (f value) P self c -> emits (with_value (Ok value) f) P self c.
Proof. done. Qed.

Lemma emits_same f g P self c : f self = g self -> emits g P self c -> emits f P self c.
Proof. intros Hsame (self' & chunks & c' & Hg & H). exists self', chunks, c'. by rewrite Hsame. Qed.

Lemma emits_weaken f (P Q : ResponsesToChatState -> Reading -> Prop) self c :
  emits f P self c -> (forall self' c', P self' c' -> Q self' c') -> emits f Q self c.
Proof. intros (self' & chunks & c' & Hf & Hc & HP) Himp. exists self', chunks, c'. auto. Qed.

(** The chunk that the translator builds, as the client takes it. *)
Section Chunks.
  Context (draws : ChatDraws).
  Hypothesis Hnow : u64 (cd_now draws).

(** What the chunks of the state are wrapped in. *)
Definition enveloped (self : ResponsesToChatState) : ResponsesToChatState :=
  {| self with rc_response_id := Some (default (chat_response_id draws) (rc_response_id self));
               rc_created_at := Some (default (cd_now draws) (rc_created_at self)) |}.

Definition envelope_of (self : ResponsesToChatState) : string * Z :=
  (default (chat_response_id draws) (rc_response_id self), default (cd_now draws) (rc_created_at self)).

Definition created_ok (self : ResponsesToChatState) : Prop := forall created, rc_created_at self = Some created -> u64 created.

(** What the client makes of a chunk with this delta. *)
Definition take_delta (c : Reading) (envelope : string * Z) (delta : Value) (finish : option string) : option Reading :=
  c ← take_role c envelope delta;
  c ← take_fragments (take_text c delta) (default [] (get_array delta "tool_calls"));
  Some {| c with rd_finish := finish |}.

Lemma emits_chunk delta finish (P : ResponsesToChatState -> Reading -> Prop) self c c' :
  rd_finish c = None -> created_ok self -> take_delta c (envelope_of self) delta finish = Some c' ->
  P (enveloped self) c' -> emits (push_chunk draws delta finish) P self c.
Proof.
  intros Hfinish Hcreated Htake HP. eexists (enveloped self), _, c'. split; [done|]. split; [|done].
  cbn [chat_replay].
  assert (Hchunk : take_chunk c (make_chat_completion_chunk (default (chat_response_id draws) (rc_response_id self))
      (default (cd_now draws) (rc_created_at self)) (default "" (rc_model self)) delta finish) =
    take_delta c (envelope_of self) delta finish).
  { unfold take_chunk. rewrite Hfinish. unfold make_chat_completion_chunk, get_str, get_array.
    rewrite !get_json_object. cbn -[as_u64 take_role take_fragments number]. rewrite as_u64_number.
    - by destruct finish.
    - destruct (rc_created_at self) as [created|] eqn:Hc; [by apply Hcreated|done]. }
  by rewrite Hchunk, Htake.
Qed.

End Chunks.

(** ** What a Responses stream says *)

(** A call: how its arguments are sent, and whether they are complete. A custom call
    sends its input, which is wrapped. *)
Record SaidCall := {
  sc_item_id : string;
  sc_call_id : string;
  sc_name : string;
  sc_custom : bool;
  sc_payload : string;
  sc_done : bool
}.

Record Reply := {
  re_message : option Z;
  re_text : string;
  re_text_done : bool;
  re_calls : gmap Z SaidCall;
  re_over : bool
}.

Definition reply_new : Reply :=
  {| re_message := None; re_text := ""; re_text_done := false; re_calls := ∅; re_over := false |}.

Section Facts.
  Variable print_json : Value -> string.
  Variable json_stream : string -> list (option Value).
  Variable registry : option ToolAdapterRegistry.

  (** How serde_json prints: a string character by character, an object without spaces. *)
  Hypothesis fragment_app : forall a b,
    json_string_fragment print_json (a +:+ b) = json_string_fragment print_json a +:+ json_string_fragment print_json b.
  Hypothesis print_input : forall input,
    print_json (json_object [("input", JString input)]) = input_opening +:+ json_string_fragment print_json input +:+ input_closing.

(** The arguments as they are sent. *)
Definition sent_arguments (call : SaidCall) : string :=
  if sc_custom call
  then input_opening +:+ json_string_fragment print_json (sc_payload call) +:+ (if sc_done call then input_closing else "")
  else sc_payload call.

Definition event_type (event : Value) (kind : string) : Prop := get_str event "type" = Some kind.
Definition event_index (event : Value) (index : Z) : Prop := (v ← get event "output_index"; as_u64 v) = Some index.

Definition item_of (event : Value) : option json_map := v ← get event "item"; as_object v.
Definition item_kind (item : json_map) (kind : ResponseOutputItemKind) : Prop := response_output_item_kind item = Ok kind.

(** The message of the stream is one that a chat message can hold, and the only one. *)
Definition readable_message (item : json_map) : Prop :=
  exists message, response_output_message_item_to_chat_message print_json json_stream item = Ok message.

Definition the_message (self : Reply) (index : Z) : Prop := re_message self = None \/ re_message self = Some index.

Definition ignored_kinds : list string :=
  ["response.created"; "response.output_item.added"; "response.output_text.delta"; "response.output_text.done";
   "response.function_call_arguments.delta"; "response.custom_tool_call_input.delta"; "response.function_call_arguments.done";
   "response.custom_tool_call_input.done"; "response.output_item.done"; "response.completed"].

Definition with_call (self : Reply) (index : Z) (call : SaidCall) : Reply :=
  {| self with re_calls := <[index := call]> (re_calls self) |}.

(** One event of a well-formed stream. *)
Inductive says (self : Reply) (event : Value) : Reply -> Prop :=
| says_other :
    (forall kind, event_type event kind -> kind ∉ ignored_kinds) -> says self event self
| says_created :
    re_over self = false -> event_type event "response.created" -> says self event self
| says_reasoning item :
    re_over self = false ->
    event_type event "response.output_item.added" \/ event_type event "response.output_item.done" ->
    item_of event = Some item -> item_kind item ReasoningOutputItem -> says self event self
| says_message item index :
    re_over self = false -> event_type event "response.output_item.added" ->
    item_of event = Some item -> item_kind item MessageItem -> readable_message item ->
    event_index event index -> the_message self index ->
    says self event {| self with re_message := Some index |}
| says_text index delta :
    re_over self = false -> event_type event "response.output_text.delta" ->
    event_index event index -> the_message self index -> re_text_done self = false ->
    get_str event "delta" = Some delta ->
    says self event {| self with re_message := Some index; re_text := re_text self +:+ delta |}
| says_text_done index rest :
    re_over self = false -> event_type event "response.output_text.done" ->
    event_index event index -> the_message self index -> re_text_done self = false ->
    get_str event "text" = Some (re_text self +:+ rest) \/ (get_str event "text" = None /\ rest = "") ->
    says self event {| self with re_message := Some index; re_text := re_text self +:+ rest; re_text_done := true |}
| says_message_done item index :
    re_over self = false -> event_type event "response.output_item.done" ->
    item_of event = Some item -> item_kind item MessageItem -> readable_message item ->
    event_index event index -> the_message self index -> re_calls self !! index = None ->
    says self event {| self with re_message := Some index |}
| says_call item index item_id :
    re_over self = false -> event_type event "response.output_item.added" ->
    item_of event = Some item -> item_kind item FunctionCallItem \/ item_kind item CustomToolCallItem ->
    event_index event index -> re_calls self !! index = None -> get_str (JObject item) "id" = Some item_id ->
    let custom := bool_decide (get_str (JObject item) "type" = Some "custom_tool_call") in
    says self event (with_call self index
      {| sc_item_id := item_id; sc_call_id := default item_id (get_str (JObject item) "call_id");
         sc_name := response_chat_tool_name item (default "" (get_str (JObject item) "name")) registry;
         sc_custom := custom;
         sc_payload := default "" (get_str (JObject item) (if custom then "input" else "arguments"));
         sc_done := false |})
| says_arguments index call delta :
    re_over self = false ->
    event_type event (if sc_custom call then "response.custom_tool_call_input.delta" else "response.function_call_arguments.delta") ->
    event_index event index -> re_calls self !! index = Some call -> sc_done call = false ->
    get_str event "delta" = Some delta ->
    says self event (with_call self index {| call with sc_payload := sc_payload call +:+ delta |})
| says_arguments_done item index call :
    re_over self = false ->
    event_type event "response.function_call_arguments.done" \/
      (event_type event "response.output_item.done" /\ item_of event = Some item /\ item_kind item FunctionCallItem) ->
    event_index event index -> re_calls self !! index = Some call -> sc_custom call = false ->
    get_str event "arguments" = None \/ get_str event "arguments" = Some (sc_payload call) ->
    says self event (with_call self index {| call with sc_done := true |})
| says_input_done source index call rest :
    re_over self = false ->
    (event_type event "response.custom_tool_call_input.done" /\ source = event) \/
      (exists item, event_type event "response.output_item.done" /\ item_of event = Some item /\ item_kind item CustomToolCallItem /\
         source = custom_done_event event item) ->
    event_index source index -> re_calls self !! index = Some call -> sc_custom call = true ->
    get_str source "input" = Some (sc_payload call +:+ rest) -> (sc_done call = true -> rest = "") ->
    says self event (with_call self index {| call with sc_payload := sc_payload call +:+ rest; sc_done := true |})
| says_completed :
    re_over self = false -> event_type event "response.completed" ->
    (forall output, completed_output event = Some output ->
       validate_output print_json json_stream output 0 = Ok tt /\
       Forall (fun item => exists fields kind, item = JObject fields /\ item_kind fields kind /\ kind <> AgentMessageItem) output) ->
    says self event {| self with re_over := true |}.

Inductive says_all : Reply -> list Value -> Reply -> Prop :=
| says_nil self : says_all self [] self
| says_cons self event next events last : says self event next -> says_all next events last -> says_all self (event :: events) last.

(** ** The translator keeps up *)

(** A call of the stream, in the translator and at the client. *)
Record call_follows (call : SaidCall) (entry : ResponsesToolCallState) (read : ReadCall) : Prop := {
  cf_call_id : rt_call_id entry = sc_call_id call;
  cf_added : rt_added_emitted entry = true;
  cf_custom : rt_custom_input entry = sc_custom call;
  cf_input : sc_custom call = true -> rt_custom_input_value entry = sc_payload call /\ rt_custom_input_closed entry = sc_done call;
  cf_arguments : rt_arguments entry = sent_arguments call;
  cf_name : sc_done call = false -> rt_name entry = Some (sc_name call);
  cf_read : read = {| rd_id := sc_call_id call; rd_name := sc_name call; rd_arguments := sent_arguments call |}
}.

Record follows (self : Reply) (state : ResponsesToChatState) (c : Reading) : Prop := {
  fo_registry : rc_tool_registry state = registry;
  fo_agent : rc_agent_message_content_emitted state = false;
  fo_pending : rc_pending_agent_message state = None;
  fo_created : created_ok state;
  fo_message : rc_assistant_message_output_index state = re_message self;
  fo_text : rc_text state = re_text self;
  fo_emitted : rc_text_output_emitted state = negb (str_is_empty (re_text self));
  fo_done : rc_text_output_done state = re_text_done self;
  fo_read_text : rd_text c = re_text self;
  fo_calls : forall index, match re_calls self !! index, rc_tool_calls state !! index, rd_calls c !! index with
             | Some call, Some entry, Some read => call_follows call entry read
             | None, None, None => True
             | _, _, _ => False
             end;
  fo_role : rd_envelope c = if rc_assistant_role_emitted state
                            then Some (default "" (rc_response_id state), default 0 (rc_created_at state)) else None;
  fo_started : rc_assistant_role_emitted state = true -> is_some (rc_response_id state) = true /\ is_some (rc_created_at state) = true;
  fo_over : rc_completed_emitted state = re_over self;
  fo_finish : rd_finish c =
    if re_over self then Some (if bool_decide (re_calls self = ∅) then "stop" else "tool_calls") else None
}.


(** ** Steps of the translator *)

Section Steps.
  Context (draws : ChatDraws).
  Hypothesis Hnow : u64 (cd_now draws).

Lemma metadata_follows self state c event :
  follows self state c -> follows self (initialize_chat_metadata draws event state) c.
Proof.
  intros []. split; cbn [initialize_chat_metadata rc_tool_registry rc_agent_message_content_emitted rc_pending_agent_message
    rc_assistant_message_output_index rc_text rc_text_output_emitted rc_text_output_done rc_tool_calls rc_assistant_role_emitted
    rc_completed_emitted rc_response_id rc_created_at]; try done.
  - intros created Hc. unfold initialize_chat_metadata in Hc. cbn in Hc.
    destruct (rc_created_at state) as [former|] eqn:Hf; [by apply fo_created0; cbn in Hc; simplify_eq|]. cbn [or_else] in Hc.
    destruct (get event "created") as [value|]; cbn in Hc.
    + destruct (as_u64 value) eqn:Hv; [simplify_eq/=; by apply as_u64_range in Hv|]. cbn in Hc.
      destruct (response_field event "created_at") as [v|]; [|done]. by apply as_u64_range in Hc.
    + destruct (response_field event "created_at") as [v|]; [|done]. by apply as_u64_range in Hc.
  - destruct (rc_assistant_role_emitted state); [|done]. destruct (fo_started0 eq_refl) as [Hid Hcreated].
    by destruct (rc_response_id state), (rc_created_at state).
  - intros Hrole. destruct (fo_started0 Hrole) as [Hid Hcreated]. by destruct (rc_response_id state), (rc_created_at state).
Qed.

Definition started (self : Reply) (state : ResponsesToChatState) (c : Reading) : Prop :=
  follows self state c /\ rc_assistant_role_emitted state = true.

Lemma emits_role self state c :
  follows self state c -> re_over self = false -> emits (emit_assistant_role draws) (started self) state c.
Proof.
  intros Hf Hover. pose proof Hf as []. unfold emit_assistant_role. destruct (rc_assistant_role_emitted state) eqn:Hrole.
  { unfold emits. rewrite Hrole. by exists state, [], c. }
  assert (H : emits (push_chunk draws role_delta None ;> update (fun self => {| self with rc_assistant_role_emitted := true |}))
    (started self) state c).
  2: { unfold emits in *. by rewrite Hrole. }
  apply emits_then. eapply emits_chunk; [done|by rewrite fo_finish0, Hover|done| |].
  { unfold take_delta, take_role. rewrite fo_role0. done. }
  apply emits_update. split; [|done]. split; try done; cbn.
  - intros created [= <-]. destruct (rc_created_at state) eqn:Hc; [by apply fo_created0|done].
  - by rewrite append_nil.
  - by rewrite Hover.
Qed.

(** The stream is open for a further chunk. *)
Definition open_stream (state : ResponsesToChatState) (c : Reading) : Prop :=
  exists response_id created, rc_response_id state = Some response_id /\ rc_created_at state = Some created /\ u64 created /\
    rd_envelope c = Some (response_id, created) /\ rd_finish c = None.

Lemma started_open self state c : started self state c -> re_over self = false -> open_stream state c.
Proof.
  intros [[] Hrole] Hover. rewrite Hrole in *. destruct (fo_started0 eq_refl) as [Hid Hcreated].
  destruct (rc_response_id state) as [response_id|] eqn:Hr, (rc_created_at state) as [created|] eqn:Hc; try done.
  exists response_id, created. rewrite fo_finish0, Hover. repeat split; try done; by apply fo_created0.
Qed.

Lemma emits_push delta finish (P : ResponsesToChatState -> Reading -> Prop) state c c' :
  open_stream state c -> get delta "role" = None ->
  take_fragments (take_text c delta) (default [] (get_array delta "tool_calls")) = Some c' ->
  P state {| c' with rd_finish := finish |} -> emits (push_chunk draws delta finish) P state c.
Proof.
  intros (response_id & created & Hr & Hc & Hu & Henvelope & Hfinish) Hdelta Htake HP.
  assert (Hsame : enveloped draws state = state).
  { unfold enveloped. rewrite Hr, Hc. destruct state. simpl in *. by subst. }
  eapply emits_chunk; [done|done|intros ? Hc'; by simplify_eq| |rewrite Hsame; exact HP].
  unfold take_delta, take_role, envelope_of. rewrite Henvelope, Hr, Hc. cbn [default].
  rewrite bool_decide_eq_true_2 by done. cbn [mbind option_bind]. by rewrite Htake.
Qed.

Lemma emits_index self state c index :
  started self state c -> the_message self index ->
  emits (ensure_single_assistant_message_output_index index) (started {| self with re_message := Some index |}) state c.
Proof.
  intros [Hf Hrole] Hmessage. pose proof Hf as []. unfold emits, ensure_single_assistant_message_output_index. rewrite fo_message0.
  destruct Hmessage as [Hm|Hm]; rewrite Hm.
  - eexists _, [], c. split; [done|]. split; [done|]. split; [|done]. by split.
  - rewrite Z.eqb_refl. eexists _, [], c. split; [done|]. split; [done|]. split; [|done]. split; try done. by rewrite fo_message0.
Qed.


(** A text that goes on: the chunk has what is new. *)
Lemma text_starts_app a b : text_strip_prefix a (a +:+ b) = Some b.
Proof.
  unfold text_strip_prefix. rewrite bytes_app, (proj2 (strip_prefix_Some _ _ (bytes b))) by done. simpl. by rewrite text_bytes.
Qed.

Lemma started_text self state c content :
  started self state c -> re_over self = false ->
  started {| self with re_text := content |}
    {| state with rc_text := content; rc_text_output_emitted := negb (str_is_empty content) |}
    {| c with rd_text := content; rd_finish := None |}.
Proof. intros [[] Hrole] Hover. split; [|done]. split; try done. cbn. by rewrite Hover. Qed.

Lemma emits_text_delta self state c delta event :
  started self state c -> re_over self = false -> re_text_done self = false -> get_str event "delta" = Some delta ->
  emits (emit_output_text_delta draws event) (started {| self with re_text := re_text self +:+ delta |}) state c.
Proof.
  intros Hs Hover Hdone Hdelta. pose proof Hs as [[] Hrole]. unfold emit_output_text_delta. rewrite Hdelta.
  apply emits_with_value.
  eapply emits_same; [cbn beta; by rewrite fo_agent0, fo_done0, Hdone|].
  apply emits_then, emits_update.
  eapply emits_push; [exact (started_open self state c Hs Hover)|done|done|].
  cbn [rd_envelope rd_text rd_calls rd_finish take_text]. rewrite fo_text0, fo_emitted0, fo_read_text0, <-negb_andb, <-append_empty.
  exact (started_text self state c _ Hs Hover).
Qed.

Lemma emits_text_done self state c event rest :
  started self state c -> re_over self = false -> re_text_done self = false ->
  get_str event "text" = Some (re_text self +:+ rest) \/ (get_str event "text" = None /\ rest = "") ->
  emits (emit_output_text_done draws event) (started {| self with re_text := re_text self +:+ rest; re_text_done := true |}) state c.
Proof.
  intros Hs Hover Hdone Htext. pose proof Hs as [[] Hrole]. unfold emit_output_text_done.
  assert (Hfinish : forall self state c, started self state c ->
    emits (update (fun self => {| self with rc_text_output_done := true |})) (started {| self with re_text_done := true |}) state c).
  { intros self' state' c' [[] Hrole']. apply emits_update. by split. }
  apply emits_then. destruct Htext as [Htext|[Htext ->]]; rewrite Htext.
  2: { rewrite append_nil. apply emits_nothing. exact (Hfinish self state c Hs). }
  unfold emit_complete_text. eapply emits_same; [cbn beta; reflexivity|].
  assert (Hsuffix : text_suffix state (re_text self +:+ rest) = rest).
  { unfold text_suffix. rewrite fo_emitted0, fo_text0, text_starts_app. cbn [default].
    destruct (str_is_empty (re_text self)) eqn:He; [|done]. apply str_is_empty_true in He. by rewrite He. }
  rewrite Hsuffix. apply emits_then, emits_update, emits_then.
  assert (Hend : forall c', c' = {| c with rd_text := re_text self +:+ rest; rd_finish := None |} ->
    emits (update (fun self0 => {| self0 with rc_text_output_emitted := rc_text_output_emitted self0 || negb (str_is_empty (re_text self +:+ rest)) |}))
      (emits (update (fun self => {| self with rc_text_output_done := true |}))
         (started {| self with re_text := re_text self +:+ rest; re_text_done := true |}))
      {| state with rc_text := re_text self +:+ rest |} c').
  { intros c' ->. apply emits_update. cbn [rc_text_output_emitted rc_text rc_response_id rc_model rc_created_at rc_assistant_role_emitted
      rc_completed_emitted rc_assistant_message_output_index rc_text_output_done rc_agent_message_content_emitted
      rc_pending_agent_message rc_tool_calls rc_tool_registry].
    replace (rc_text_output_emitted state || negb (str_is_empty (re_text self +:+ rest))) with (negb (str_is_empty (re_text self +:+ rest))).
    2: { rewrite fo_emitted0, append_empty. by destruct (str_is_empty (re_text self)), (str_is_empty rest). }
    apply (Hfinish {| self with re_text := re_text self +:+ rest |}). exact (started_text self state c _ Hs Hover). }
  destruct (str_is_empty rest) eqn:Hrest.
  - apply emits_nothing, Hend. apply str_is_empty_true in Hrest. rewrite Hrest, append_nil, <-fo_read_text0.
    destruct c. cbn in *. by rewrite fo_finish0, Hover.
  - eapply emits_push; [exact (started_open self state c Hs Hover)|done|done|]. apply Hend. cbn. by rewrite fo_read_text0.
Qed.

(** ** Calls *)

Definition started_calls (self : Reply) (state : ResponsesToChatState) (c : Reading) : Prop := started self state c.

(** The call at an index changes. *)
Lemma started_call self state c index call entry read :
  started self state c -> re_over self = false -> call_follows call entry read ->
  started (with_call self index call) (put_call index entry state)
    {| c with rd_calls := <[index := read]> (rd_calls c); rd_finish := None |}.
Proof.
  intros [[] Hrole] Hover Hcall. split; [|done]. split; try done; cbn.
  - intros i. destruct (decide (i = index)) as [->|Hi]; [by rewrite !lookup_insert_eq|]. rewrite !lookup_insert_ne by done. apply fo_calls0.
  - by rewrite Hover.
Qed.

Lemma take_text_calls c index call_id name arguments :
  take_text c (call_chunk_delta index call_id name arguments) = c.
Proof. unfold take_text. cbn. rewrite append_nil. by destruct c. Qed.

Lemma taken_fragment c index call_id name arguments :
  u64 index ->
  take_fragments (take_text c (call_chunk_delta index call_id name arguments))
    (default [] (get_array (call_chunk_delta index call_id name arguments) "tool_calls")) =
  match rd_calls c !! index with
  | None =>
      name ← name;
      Some {| c with rd_calls := <[index := {| rd_id := call_id; rd_name := name; rd_arguments := arguments |}]> (rd_calls c) |}
  | Some call =>
      if bool_decide (call_id = rd_id call /\ is_none_or (String.eqb (rd_name call)) name = true) then
        Some {| c with rd_calls := <[index := {| call with rd_arguments := rd_arguments call +:+ arguments |}]> (rd_calls c) |}
      else None
  end.
Proof.
  intros Hindex. rewrite take_text_calls.
  set (fragment := json_object
    [("index", number index); ("id", JString call_id); ("type", JString "function");
     ("function", JObject (match name with
        | Some name => json_fields [("name", JString name); ("arguments", JString arguments)]
        | None => json_fields [("arguments", JString arguments)] end))]).
  transitivity (self ← take_fragment c fragment; Some self); [done|].
  assert (Hi : get fragment "index" = Some (number index)) by done.
  assert (Hid : get_str fragment "id" = Some call_id) by done.
  assert (Ha : (function ← get fragment "function"; get_str function "arguments") = Some arguments) by by destruct name.
  assert (Hn : (function ← get fragment "function"; get_str function "name") = name) by by destruct name.
  unfold take_fragment. rewrite Hi, Hid, Ha, Hn. cbn [mbind option_bind]. rewrite as_u64_number by done. cbn [mbind option_bind].
  destruct (rd_calls c !! index); [by destruct (bool_decide _)|by destruct name].
Qed.

Lemma take_first_fragment c index call_id name arguments :
  u64 index -> rd_calls c !! index = None ->
  take_fragments (take_text c (call_chunk_delta index call_id (Some name) arguments))
    (default [] (get_array (call_chunk_delta index call_id (Some name) arguments) "tool_calls")) =
  Some {| c with rd_calls := <[index := {| rd_id := call_id; rd_name := name; rd_arguments := arguments |}]> (rd_calls c) |}.
Proof. intros Hindex Hnone. by rewrite taken_fragment, Hnone. Qed.

Lemma take_next_fragment c index call_id name arguments call :
  u64 index -> rd_calls c !! index = Some call -> call_id = rd_id call -> (name = None \/ name = Some (rd_name call)) ->
  take_fragments (take_text c (call_chunk_delta index call_id name arguments))
    (default [] (get_array (call_chunk_delta index call_id name arguments) "tool_calls")) =
  Some {| c with rd_calls := <[index := {| call with rd_arguments := rd_arguments call +:+ arguments |}]> (rd_calls c) |}.
Proof.
  intros Hindex Hcall -> Hname. rewrite taken_fragment, Hcall, bool_decide_eq_true_2; [done| |done].
  split; [done|]. destruct Hname as [->| ->]; [done|]. apply String.eqb_refl.
Qed.

Lemma index_u64 event index : event_index event index -> u64 index /\ event_output_index event = index.
Proof.
  unfold event_index, event_output_index. intros H. rewrite H. split; [|done].
  destruct (get event "output_index"); [|done]. by apply as_u64_range in H.
Qed.

Lemma call_index state event index : event_index event index -> call_output_index state event = index.
Proof. unfold event_index, call_output_index. by intros ->. Qed.

Lemma emits_call_added self state c event item index item_id :
  started self state c -> re_over self = false -> event_index event index -> re_calls self !! index = None ->
  get_str (JObject item) "id" = Some item_id ->
  let custom := bool_decide (get_str (JObject item) "type" = Some "custom_tool_call") in
  emits (emit_function_call_item_added print_json draws event item)
    (started (with_call self index
      {| sc_item_id := item_id; sc_call_id := default item_id (get_str (JObject item) "call_id");
         sc_name := response_chat_tool_name item (default "" (get_str (JObject item) "name")) registry;
         sc_custom := custom;
         sc_payload := default "" (get_str (JObject item) (if custom then "input" else "arguments"));
         sc_done := false |})) state c.
Proof.
  intros Hs Hover Hindex Hnone Hid custom. pose proof Hs as [[] Hrole]. destruct (index_u64 _ _ Hindex) as [Hu Hi].
  unfold emit_function_call_item_added. rewrite Hid, Hi. apply emits_with_value.
  pose proof (fo_calls0 index) as Hc. rewrite Hnone in Hc. destruct (rc_tool_calls state !! index) eqn:Hentry; [done|].
  destruct (rd_calls c !! index) eqn:Hread; [done|].
  eapply emits_same; [cbn beta; rewrite Hentry, fo_registry0; cbn [default rt_added_emitted]; reflexivity|].
  fold custom. apply emits_then, emits_update. set (call_id := default item_id (get_str (JObject item) "call_id")).
  set (name := response_chat_tool_name item _ _).
  eapply emits_push; [exact (started_open self state c Hs Hover)|done| |].
  { unfold announced_entry. cbn [rt_name rt_call_id rt_arguments is_none andb default]. apply take_first_fragment; done. }
  cbn [rd_envelope rd_text rd_calls rd_finish]. apply started_call; [done|done|].
  unfold announced_entry. cbn [rt_item_id rt_call_id rt_name rt_arguments rt_custom_input rt_custom_input_value rt_custom_input_closed is_none andb].
  assert (Hsame : (if str_is_empty call_id then call_id else call_id) = call_id) by by destruct (str_is_empty call_id).
  split; cbn [rt_item_id rt_call_id rt_name rt_arguments rt_custom_input rt_custom_input_value rt_custom_input_closed
    sc_call_id sc_custom sc_done sc_payload sc_name rt_added_emitted]; rewrite ?Hsame; try done.
  - by rewrite orb_diag.
  - intros Hcustom. rewrite Hcustom. split; [|done]. by destruct (get_str (JObject item) "input").
  - unfold sent_arguments. cbn [sc_custom sc_payload sc_done]. destruct custom; [|done].
    change ("" +:+ ?a) with a. by rewrite append_nil.
  - unfold sent_arguments. cbn [sc_custom sc_payload sc_done]. destruct custom; [|done].
    change ("" +:+ ?a) with a. by rewrite append_nil.
Qed.

Lemma emits_arguments self state c event index call delta :
  started self state c -> re_over self = false ->
  event_type event (if sc_custom call then "response.custom_tool_call_input.delta" else "response.function_call_arguments.delta") ->
  event_index event index -> re_calls self !! index = Some call -> sc_done call = false ->
  get_str event "delta" = Some delta ->
  emits (emit_function_call_arguments_delta print_json draws event)
    (started (with_call self index {| call with sc_payload := sc_payload call +:+ delta |})) state c.
Proof.
  intros Hs Hover Htype Hindex Hcall Hdone Hdelta. pose proof Hs as [[] Hrole]. destruct (index_u64 _ _ Hindex) as [Hu _].
  pose proof (fo_calls0 index) as Hc. rewrite Hcall in Hc. destruct (rc_tool_calls state !! index) as [entry|] eqn:Hentry; [|done].
  destruct (rd_calls c !! index) as [read|] eqn:Hread; [|done]. destruct Hc.
  assert (Hcustom : bool_decide (get_str event "type" = Some "response.custom_tool_call_input.delta") = sc_custom call).
  { rewrite Htype. by destruct (sc_custom call). }
  unfold emit_function_call_arguments_delta. eapply emits_same.
  { cbn beta. rewrite (call_index _ _ _ Hindex), Hdelta. cbn [ok_or with_value]. cbv zeta beta. rewrite Hentry, Hcustom. cbn [from_option default id]. reflexivity. }
  set (fragment := if sc_custom call then json_string_fragment print_json delta else delta).
  set (entry' := extended_entry entry _ _ _ _).
  assert (Hid : rt_call_id entry' = sc_call_id call) by exact cf_call_id0.
  assert (Hname : rt_name entry' = Some (sc_name call)) by (unfold entry', extended_entry; cbn [rt_name]; by rewrite (cf_name0 Hdone)).
  rewrite Hid, Hname. cbn [default]. apply emits_then, emits_update.
  assert (Hsent : sent_arguments call +:+ fragment = sent_arguments {| call with sc_payload := sc_payload call +:+ delta |}).
  { unfold sent_arguments, fragment. cbn [sc_custom sc_payload sc_done]. rewrite Hdone. destruct (sc_custom call); [|done].
    by rewrite fragment_app, !append_nil, append_assoc. }
  eapply emits_push; [exact (started_open self state c Hs Hover)|done| |].
  { rewrite cf_read0 in Hread. apply (take_next_fragment c index _ _ _ _ Hu Hread); [done|by right]. }
  cbn [rd_envelope rd_text rd_calls rd_finish rd_arguments rd_id rd_name]. rewrite Hsent.
  apply started_call; [done|done|]. unfold entry', extended_entry.
  assert (Harguments : (if sc_custom call && str_is_empty (rt_arguments entry) then input_opening else rt_arguments entry) +:+ fragment =
    sent_arguments {| call with sc_payload := sc_payload call +:+ delta |}).
  { rewrite <-Hsent, cf_arguments0. f_equal. destruct (sc_custom call) eqn:Hk; [|done].
    unfold sent_arguments. by rewrite Hk. }
  split; cbn [rt_item_id rt_call_id rt_name rt_arguments rt_custom_input rt_custom_input_value rt_custom_input_closed rt_added_emitted
    sc_call_id sc_custom sc_done sc_payload sc_name]; try done.
  - rewrite cf_custom0. by destruct (sc_custom call).
  - intros Hk. rewrite Hk. destruct (cf_input0 Hk) as [-> ->]. done.
Qed.

(** The done events of function calls change nothing that is sent. *)
Lemma arguments_done_started self state c event index call :
  started self state c -> re_over self = false -> event_index event index -> re_calls self !! index = Some call ->
  sc_custom call = false -> (get_str event "arguments" = None \/ get_str event "arguments" = Some (sc_payload call)) ->
  started (with_call self index {| call with sc_done := true |}) (emit_function_call_arguments_done event state) c.
Proof.
  intros Hs Hover Hindex Hcall Hcustom Harguments. pose proof Hs as [[] Hrole]. unfold emit_function_call_arguments_done.
  rewrite (call_index _ _ _ Hindex). pose proof (fo_calls0 index) as Hc. rewrite Hcall in Hc.
  destruct (rc_tool_calls state !! index) as [entry|] eqn:Hentry; [|done].
  destruct (rd_calls c !! index) as [read|] eqn:Hread; [|done]. destruct Hc.
  assert (Hsent : sent_arguments {| call with sc_done := true |} = sent_arguments call).
  { unfold sent_arguments. cbn [sc_custom sc_payload]. by rewrite Hcustom. }
  assert (Hc : c = {| c with rd_calls := <[index := read]> (rd_calls c); rd_finish := None |}).
  { rewrite insert_id by done. destruct c. cbn in *. by rewrite fo_finish0, Hover. }
  rewrite Hc. apply started_call; [done|done|].
  split; cbn [rt_item_id rt_call_id rt_name rt_arguments rt_custom_input rt_custom_input_value rt_custom_input_closed rt_added_emitted
    sc_call_id sc_custom sc_done sc_payload sc_name]; try done; rewrite ?Hsent; try done.
  - rewrite Hcustom. done.
  - rewrite cf_arguments0. unfold sent_arguments. rewrite Hcustom. by destruct Harguments as [->| ->].
Qed.

Lemma arguments_done_absent self state c event index :
  started self state c -> event_index event index -> re_calls self !! index = None ->
  emit_function_call_arguments_done event state = state.
Proof.
  intros [[] _] Hindex Hnone. unfold emit_function_call_arguments_done. rewrite (call_index _ _ _ Hindex).
  pose proof (fo_calls0 index) as Hc. rewrite Hnone in Hc. by destruct (rc_tool_calls state !! index).
Qed.

(** The rest of the input of a custom call. *)
Lemma closed_entry call entry rest :
  rt_custom_input entry = true -> rt_custom_input_value entry = sc_payload call -> rt_custom_input_closed entry = sc_done call ->
  rt_arguments entry = sent_arguments call -> sc_custom call = true -> (sc_done call = true -> rest = "") ->
  exists entry' fragment suffix,
    close_custom_entry print_json entry (sc_payload call +:+ rest) = Ok (entry', fragment, suffix) /\
    rt_call_id entry' = rt_call_id entry /\ rt_added_emitted entry' = rt_added_emitted entry /\ rt_custom_input entry' = true /\
    rt_custom_input_value entry' = sc_payload call +:+ rest /\ rt_custom_input_closed entry' = true /\
    rt_arguments entry' = sent_arguments {| call with sc_payload := sc_payload call +:+ rest; sc_done := true |} /\
    sent_arguments call +:+ (fragment +:+ suffix) = sent_arguments {| call with sc_payload := sc_payload call +:+ rest; sc_done := true |}.
Proof.
  intros Hcustom Hvalue Hclosed Harguments Hcall Hrest. unfold close_custom_entry. rewrite Hcustom, Hvalue. cbn [negb].
  assert (Hopen : str_is_empty (sent_arguments call) = false) by (unfold sent_arguments; by rewrite Hcall).
  destruct (String.eqb_spec (sc_payload call) (sc_payload call +:+ rest)) as [Hsame|Hmore].
  - cbn match. rewrite Hclosed. destruct (sc_done call) eqn:Hdone.
    + rewrite (Hrest eq_refl) in *. rewrite append_nil. eexists _, _, _. split; [done|]. rewrite Harguments.
      unfold sent_arguments. cbn [sc_custom sc_payload sc_done]. rewrite Hcall, Hdone. split_and!; try done. by rewrite !append_nil.
    + eexists _, _, _. split; [done|]. cbn [rt_call_id rt_added_emitted rt_custom_input rt_custom_input_value rt_custom_input_closed rt_arguments].
      rewrite <-Hsame, Harguments. unfold sent_arguments. cbn [sc_custom sc_payload sc_done]. rewrite Hcall, Hdone.
      split_and!; try done; by rewrite !append_assoc, !append_nil.
  - rewrite text_starts_app. cbn [ok_or]. cbn match.
    assert (Hdone : sc_done call = false).
    { destruct (sc_done call); [|done]. by rewrite (Hrest eq_refl), append_nil in Hmore. }
    cbn [rt_custom_input_closed]. rewrite Hclosed, Hdone.
    eexists _, _, _. split; [done|]. cbn [rt_call_id rt_added_emitted rt_custom_input rt_custom_input_value rt_custom_input_closed rt_arguments].
    rewrite Harguments, Hopen. unfold sent_arguments. cbn [sc_custom sc_payload sc_done]. rewrite Hcall, Hdone, fragment_app.
    split_and!; try done; by rewrite !append_assoc, !append_nil.
Qed.

Lemma emits_input_done self state c event index call rest :
  started self state c -> re_over self = false -> event_index event index -> re_calls self !! index = Some call ->
  sc_custom call = true -> get_str event "input" = Some (sc_payload call +:+ rest) -> (sc_done call = true -> rest = "") ->
  emits (emit_custom_tool_call_input_done print_json draws event)
    (started (with_call self index {| call with sc_payload := sc_payload call +:+ rest; sc_done := true |})) state c.
Proof.
  intros Hs Hover Hindex Hcall Hcustom Hinput Hrest. pose proof Hs as [[] Hrole]. destruct (index_u64 _ _ Hindex) as [Hu _].
  pose proof (fo_calls0 index) as Hc. rewrite Hcall in Hc. destruct (rc_tool_calls state !! index) as [entry|] eqn:Hentry; [|done].
  destruct (rd_calls c !! index) as [read|] eqn:Hread; [|done]. destruct Hc.
  destruct (cf_input0 Hcustom) as [Hvalue Hclosed]. rewrite Hcustom in cf_custom0.
  destruct (closed_entry call entry rest cf_custom0 Hvalue Hclosed cf_arguments0 Hcustom Hrest)
    as (entry' & fragment & suffix & Hclose & Hid & Hadded & Hk & Hvalue' & Hclosed' & Harguments & Hsent).
  unfold emit_custom_tool_call_input_done. eapply emits_same.
  { cbv zeta beta. rewrite (call_index _ _ _ Hindex), Hinput, Hentry. cbn [ok_or]. rewrite Hclose. cbn [with_value]. reflexivity. }
  apply emits_then, emits_update.
  assert (Hfollows : call_follows {| call with sc_payload := sc_payload call +:+ rest; sc_done := true |} entry'
    {| read with rd_arguments := rd_arguments read +:+ (fragment +:+ suffix) |}).
  { rewrite cf_read0. cbn [rd_id rd_name rd_arguments]. rewrite Hsent. split; cbn [sc_call_id sc_custom sc_done sc_payload sc_name]; try done; congruence. }
  pose proof (started_call self state c index _ _ _ Hs Hover Hfollows) as Hnext.
  destruct (str_is_empty fragment && str_is_empty suffix) eqn:Hnothing.
  - apply emits_nothing. rewrite <-append_empty in Hnothing. apply str_is_empty_true in Hnothing.
    rewrite Hnothing, append_nil in Hnext.
    assert (Hc : c = {| c with rd_calls := <[index := {| read with rd_arguments := rd_arguments read |}]> (rd_calls c); rd_finish := None |}).
    { rewrite insert_id by (by destruct read). destruct c. cbn in *. by rewrite fo_finish0, Hover. }
    by rewrite Hc.
  - eapply emits_push; [exact (started_open self state c Hs Hover)|done| |].
    { rewrite Hid, cf_call_id0. apply (take_next_fragment c index _ _ _ read Hu Hread); [by rewrite cf_read0|by left]. }
    exact Hnext.
Qed.

(** ** The end *)

Lemma emits_finish self state c :
  follows self state c -> re_over self = false ->
  emits (chat_translator_finish print_json draws) (started {| self with re_over := true |}) state c.
Proof.
  intros Hf Hover. pose proof Hf as []. unfold chat_translator_finish.
  eapply emits_same; [cbn beta; by rewrite fo_over0, Hover|].
  clear -Hnow Hf Hover. apply emits_then. eapply emits_weaken; [by apply emits_role|]. clear state c Hf. intros state c Hs.
  pose proof Hs as [[] Hrole].
  apply emits_then, (emits_same _ emit_nothing); [unfold emit_pending_agent_message; by rewrite fo_pending0|]. apply emits_nothing.
  apply emits_then. eapply (emits_same _ (push_chunk draws (JObject []) (Some (finish_reason_of state)))); [done|].
  eapply emits_push; [exact (started_open self state c Hs Hover)|done|done|].
  apply emits_update. split; [|done]. split; try done; cbn.
  - by rewrite append_nil.
  - unfold finish_reason_of. assert (Hempty : rc_tool_calls state = ∅ <-> re_calls self = ∅).
    { rewrite !map_empty. split; intros Hall i; pose proof (fo_calls0 i) as Hc; rewrite Hall in Hc;
        [by destruct (re_calls self !! i)|by destruct (rc_tool_calls state !! i)]. }
    f_equal. by rewrite (bool_decide_ext _ _ Hempty).
Qed.

End Steps.

(** ** Whole streams *)

Lemma other_event kind event draws : kind ∉ ignored_kinds -> emit_event print_json json_stream draws kind event = emit_nothing.
Proof.
  intros Hk.
  assert (Hne : forall name, name ∈ ignored_kinds -> String.eqb kind name = false).
  { intros name Hname. apply String.eqb_neq. by intros ->. }
  unfold emit_event. by rewrite !Hne by (unfold ignored_kinds; set_solver).
Qed.

Lemma emits_typed draws event kind P self state c :
  event_type event kind -> follows self state c ->
  (forall state', follows self state' c -> emits (emit_event print_json json_stream draws kind event) P state' c) ->
  emits (translate_response_event print_json json_stream draws event) P state c.
Proof.
  intros Htype Hf Hemits. unfold translate_response_event. rewrite Htype. apply emits_then, emits_update, Hemits.
  by apply metadata_follows.
Qed.

Lemma emits_after_role draws f P self state c :
  u64 (cd_now draws) -> follows self state c -> re_over self = false ->
  (forall state' c', started self state' c' -> emits f P state' c') -> emits (emit_assistant_role draws ;> f) P state c.
Proof.
  intros Hnow Hf Hover Hemits. apply emits_then. eapply emits_weaken; [by apply emits_role|]. exact Hemits.
Qed.

Lemma started_follows f self state c : emits f (started self) state c -> emits f (follows self) state c.
Proof. intros H. eapply emits_weaken; [exact H|]. by intros ? ? [? _]. Qed.

(** An item that the translator announces or finishes. *)
Lemma item_added event item kind draws :
  item_of event = Some item -> item_kind item kind ->
  emit_output_item_added print_json json_stream draws event =
      match kind with
      | FunctionCallItem | CustomToolCallItem => emit_assistant_role draws ;> emit_function_call_item_added print_json draws event item
      | MessageItem => accept_message_item print_json json_stream event item ;> emit_assistant_role draws
      | AgentMessageItem =>
          accept_message_item print_json json_stream event item ;> emit_assistant_role draws ;>
          update (fun self => {| self with rc_pending_agent_message := Some item |})
      | ReasoningOutputItem => emit_nothing
      end.
Proof. unfold item_of, item_kind, emit_output_item_added. by intros -> ->. Qed.

Lemma item_done event item kind draws :
  item_of event = Some item -> item_kind item kind ->
  emit_output_item_done print_json json_stream draws event =
      match kind with
      | FunctionCallItem => update (emit_function_call_arguments_done event)
      | CustomToolCallItem => emit_custom_tool_call_input_done print_json draws (custom_done_event event item)
      | MessageItem => accept_message_item print_json json_stream event item ;> update (emit_function_call_arguments_done event)
      | AgentMessageItem =>
          accept_message_item print_json json_stream event item ;>
          update (fun self => {| self with rc_pending_agent_message := None |}) ;>
          emit_agent_message_content_if_needed print_json draws item ;> update (emit_function_call_arguments_done event)
      | ReasoningOutputItem => emit_nothing
      end.
Proof. unfold item_of, item_kind, emit_output_item_done. by intros -> ->. Qed.

Lemma follows_index self state c index :
  follows self state c -> the_message self index ->
  emits (ensure_single_assistant_message_output_index index) (follows {| self with re_message := Some index |}) state c.
Proof.
  intros Hf Hmessage. pose proof Hf as []. unfold emits, ensure_single_assistant_message_output_index. rewrite fo_message0.
  destruct Hmessage as [Hm|Hm]; rewrite Hm.
  - eexists _, [], c. split; [done|]. split; [done|]. by split.
  - rewrite Z.eqb_refl. eexists _, [], c. split; [done|]. split; [done|]. split; try done. by rewrite fo_message0.
Qed.

Lemma emits_accept event item index (P : ResponsesToChatState -> Reading -> Prop) state c :
  readable_message item -> event_index event index ->
  emits (ensure_single_assistant_message_output_index index) P state c ->
  emits (accept_message_item print_json json_stream event item) P state c.
Proof.
  intros [message Hmessage] Hindex H. unfold accept_message_item. rewrite Hmessage. apply emits_with_value.
  by rewrite (proj2 (index_u64 _ _ Hindex)).
Qed.

Lemma no_agent_message draws index output state c P :
  Forall (fun item => exists fields kind, item = JObject fields /\ item_kind fields kind /\ kind <> AgentMessageItem) output ->
  P state c -> emits (emit_first_agent_message print_json draws index output) P state c.
Proof.
  intros H HP. revert index. induction H as [|item output (fields & kind & -> & Hkind & Hagent) _ IH]; intros index.
  - by apply emits_nothing.
  - cbn [emit_first_agent_message as_object]. rewrite Hkind. apply emits_with_value. by destruct kind.
Qed.

(** An event after which the turn has begun: the translator opens it, if it is not open, and goes on with [f]. *)
Lemma emits_started draws event kind f self next state c :
  u64 (cd_now draws) -> event_type event kind -> follows self state c -> re_over self = false ->
  (forall state', emit_event print_json json_stream draws kind event state' = (emit_assistant_role draws ;> f) state') ->
  (forall state' c', started self state' c' -> emits f (started next) state' c') ->
  emits (translate_response_event print_json json_stream draws event) (follows next) state c.
Proof.
  intros Hnow Htype Hf Hover Hsame Hemits. eapply emits_typed; [exact Htype|exact Hf|]. intros state' Hf'.
  eapply emits_same; [apply Hsame|]. apply started_follows. by eapply emits_after_role.
Qed.

(** The event that ends a response: its items are read, none of them is a message between agents, and the stream ends. *)
Lemma emits_completed draws event self state c :
  u64 (cd_now draws) -> re_over self = false -> started self state c ->
  (forall output, completed_output event = Some output ->
    validate_output print_json json_stream output 0 = Ok tt /\
    Forall (fun item => exists fields kind, item = JObject fields /\ item_kind fields kind /\ kind <> AgentMessageItem) output) ->
  emits (validate_completed_response_output print_json json_stream event ;>
         emit_completed_agent_message_content print_json draws event ;> chat_translator_finish print_json draws)
    (started {| self with re_over := true |}) state c.
Proof.
  intros Hnow Hover Hs Houtput. pose proof Hs as [[] Hrole].
  apply emits_then. unfold validate_completed_response_output.
  assert (Hvalid : forall P, P state c -> emits match completed_output event with
      | Some output => with_value (validate_output print_json json_stream output 0) (fun _ => emit_nothing)
      | None => emit_nothing end P state c).
  { intros P HP. destruct (completed_output event) as [output|]; [|by apply emits_nothing].
    destruct (Houtput output eq_refl) as [-> _]. by apply emits_with_value, emits_nothing. }
  apply Hvalid, emits_then.
  assert (Hagent : forall P, P state c -> emits (emit_completed_agent_message_content print_json draws event) P state c).
  { intros P HP. unfold emit_completed_agent_message_content. destruct (completed_output event) as [output|].
    - eapply emits_same; [cbn beta; by rewrite fo_agent0|]. apply no_agent_message; [|done]. by apply Houtput.
    - apply (emits_same _ emit_nothing); [by rewrite fo_agent0|]. by apply emits_nothing. }
  apply Hagent. apply emits_finish; [done| |done]. by destruct Hs.
Qed.

Lemma event_followed draws self event next state c :
  u64 (cd_now draws) -> says self event next -> follows self state c ->
  emits (translate_response_event print_json json_stream draws event) (follows next) state c.
Proof.
  intros Hnow Hsays Hf. destruct Hsays as
    [Hother|Hover Htype|item Hover Htype Hitem Hkind|item index Hover Htype Hitem Hkind Hreadable Hindex Hmessage
    |index delta Hover Htype Hindex Hmessage Hdone Hdelta|index rest Hover Htype Hindex Hmessage Hdone Htext
    |item index Hover Htype Hitem Hkind Hreadable Hindex Hmessage Hnone|item index item_id Hover Htype Hitem Hkind Hindex Hnone Hid custom
    |index call delta Hover Htype Hindex Hcall Hdone Hdelta|item index call Hover Htype Hindex Hcall Hcustom Harguments
    |source index call rest Hover Htype Hindex Hcall Hcustom Hinput Hrest|Hover Htype Houtput].
  - unfold translate_response_event. destruct (get_str event "type") as [kind|] eqn:Htype; [|by apply emits_nothing].
    rewrite (other_event kind) by by apply Hother. apply emits_then, emits_update, emits_nothing. by apply metadata_follows.
  - eapply emits_typed; [exact Htype|exact Hf|]. intros state' Hf'. apply started_follows. by apply emits_role.
  - destruct Htype as [Htype|Htype].
    + eapply emits_typed; [exact Htype|exact Hf|]. intros state' Hf'.
    change (emit_event _ _ _ _ _) with (emit_output_item_added print_json json_stream draws event). rewrite (item_added _ _ _ _ Hitem Hkind).
      by apply emits_nothing.
    + eapply emits_started; [done|exact Htype|done|done|by intros|]. intros. rewrite (item_done _ _ _ _ Hitem Hkind). by apply emits_nothing.
  - eapply emits_typed; [exact Htype|exact Hf|]. intros state' Hf'.
    change (emit_event _ _ _ _ _) with (emit_output_item_added print_json json_stream draws event). rewrite (item_added _ _ _ _ Hitem Hkind).
    apply emits_then, (emits_accept _ _ index); [done|done|].
    eapply emits_weaken; [by apply follows_index|]. intros state'' c'' Hf''. apply started_follows. by apply emits_role.
  - eapply emits_started; [done|exact Htype|done|done|by intros|]. intros. rewrite (proj2 (index_u64 _ _ Hindex)).
    apply emits_then. eapply emits_weaken; [by apply emits_index|]. intros. eapply emits_weaken; [eapply emits_text_delta; [done|eassumption|done|done|exact Hdelta]|done].
  - eapply emits_started; [done|exact Htype|done|done|by intros|]. intros. rewrite (proj2 (index_u64 _ _ Hindex)).
    apply emits_then. eapply emits_weaken; [by apply emits_index|]. intros. eapply emits_weaken; [eapply emits_text_done; [done|eassumption|done|done|exact Htext]|done].
  - eapply emits_started; [done|exact Htype|done|done|by intros|]. intros. rewrite (item_done _ _ _ _ Hitem Hkind).
    apply emits_then, (emits_accept _ _ index); [done|done|]. eapply emits_weaken; [by apply emits_index|].
    intros state3 c3 Hs3. apply emits_update. by rewrite (arguments_done_absent _ _ _ _ _ Hs3 Hindex Hnone).
  - eapply emits_started; [done|exact Htype|done|done| |by intros; eapply emits_call_added].
    intros state'. change (emit_event _ _ _ _ _) with (emit_output_item_added print_json json_stream draws event).
    by destruct Hkind as [Hkind|Hkind]; rewrite (item_added _ _ _ _ Hitem Hkind).
  - eapply (emits_started _ _ _ (emit_function_call_arguments_delta print_json draws event));
      [done|exact Htype|done|done|by destruct (sc_custom call)|]. intros. by apply emits_arguments.
  - assert (Hstep : forall state' c', started self state' c' ->
      emits (update (emit_function_call_arguments_done event)) (started (with_call self index {| call with sc_done := true |})) state' c').
    { intros state' c' Hs. apply emits_update. by apply arguments_done_started. }
    destruct Htype as [Htype|(Htype & Hitem & Hkind)]; (eapply emits_started; [done|exact Htype|done|done|by intros|]); [exact Hstep|].
    intros. rewrite (item_done _ _ _ _ Hitem Hkind). by apply Hstep.
  - destruct Htype as [[Htype ->]|(item & Htype & Hitem & Hkind & ->)]; (eapply emits_started; [done|exact Htype|done|done|by intros|]); intros.
    + by apply emits_input_done.
    + rewrite (item_done _ _ _ _ Hitem Hkind). by apply emits_input_done.
  - eapply emits_started; [done|exact Htype|done|done|by intros|]. intros. by apply emits_completed.
Qed.

(** The events of a stream, one after the other, and its end. *)
Fixpoint translate_responses_stream (events : list (ChatDraws * Value)) : Emission :=
  match events with
  | [] => emit_nothing
  | (draws, event) :: events => translate_response_event print_json json_stream draws event ;> translate_responses_stream events
  end.

Definition whole_chat_stream (events : list (ChatDraws * Value)) (last : ChatDraws) : Emission :=
  translate_responses_stream events ;> chat_translator_finish print_json last.

Lemma stream_followed events self next state c (P : ResponsesToChatState -> Reading -> Prop) :
  Forall (fun step => u64 (cd_now step.1)) events -> says_all self (snd <$> events) next -> follows self state c ->
  (forall state' c', follows next state' c' -> P state' c') -> emits (translate_responses_stream events) P state c.
Proof.
  intros Hnow. revert self state c. induction Hnow as [|[draws event] events Hdraws _ IH]; intros self state c Hsays Hf HP.
  - inversion Hsays; subst. by apply emits_nothing, HP.
  - inversion Hsays as [|? ? middle ? ? Hstep Hrest]; subst. cbn [translate_responses_stream]. apply emits_then.
    eapply emits_weaken; [by eapply event_followed|]. intros state' c' Hf'. by eapply IH.
Qed.

Lemma new_follows : follows reply_new (ResponsesToChatState_new registry) reading_new.
Proof. split; done. Qed.

(** What the client reads of a call. *)
Definition read_call (call : SaidCall) : ReadCall :=
  {| rd_id := sc_call_id call; rd_name := sc_name call; rd_arguments := sent_arguments call |}.

(** C5. The chunks of every well-formed Responses stream are a chat stream that a
    strict client accepts (the role first, one envelope, each call named once, one
    reason to finish, nothing after it), and the client reads in them the text and the
    calls of the stream. *)
Theorem responses_stream_read events last reply :
  Forall (fun step => u64 (cd_now step.1)) events -> u64 (cd_now last) ->
  says_all reply_new (snd <$> events) reply ->
  exists state chunks c,
    whole_chat_stream events last (ResponsesToChatState_new registry) = (state, Ok chunks) /\
    chat_replay reading_new chunks = Some c /\
    rd_text c = re_text reply /\
    (forall index, rd_calls c !! index = read_call <$> re_calls reply !! index) /\
    (forall call, sc_custom call = true -> sc_done call = true ->
       rd_arguments (read_call call) = print_json (json_object [("input", JString (sc_payload call))])) /\
    rd_finish c = Some (if bool_decide (re_calls reply = ∅) then "stop" else "tool_calls").
Proof.
  intros Hnow Hlast Hsays.
  assert (Hemits : emits (whole_chat_stream events last) (follows {| reply with re_over := true |})
    (ResponsesToChatState_new registry) reading_new).
  { apply emits_then. eapply stream_followed; [done|done|apply new_follows|]. intros state c Hf.
    destruct (re_over reply) eqn:Hover.
    - apply (emits_same _ emit_nothing); [|apply emits_nothing].
      + unfold chat_translator_finish. destruct Hf. by rewrite fo_over0, Hover.
      + destruct reply. cbn in Hover. by subst.
    - apply started_follows. by apply emits_finish. }
  destruct Hemits as (state & chunks & c & Hrun & Hreplay & []). exists state, chunks, c. split_and!; try done.
  - intros index. specialize (fo_calls0 index). cbn [re_calls] in fo_calls0.
    destruct (re_calls reply !! index), (rc_tool_calls state !! index), (rd_calls c !! index); try done.
    by destruct fo_calls0 as [_ _ _ _ _ _ ->].
  - intros call Hcustom Hdone. cbn [read_call rd_arguments]. unfold sent_arguments. by rewrite Hcustom, Hdone, print_input.
Qed.

(** ** What is lost *)

Lemma role_silent draws f state : rc_assistant_role_emitted state = true -> (emit_assistant_role draws ;> f) state = f state.
Proof.
  intros Hrole. unfold then_emit, emit_assistant_role. rewrite Hrole. by destruct (f state) as [? [?|?]].
Qed.

Lemma translated_kind draws event kind state :
  event_type event kind ->
  translate_response_event print_json json_stream draws event state =
    emit_event print_json json_stream draws kind event (initialize_chat_metadata draws event state).
Proof.
  intros Htype. unfold translate_response_event, then_emit, update. rewrite Htype.
  by destruct (emit_event _ _ _ _ _ _) as [? [?|?]].
Qed.

(** Events that give a chat client nothing, once its stream has begun: the event that ends
    a call, whose arguments are only stored; a delta of text after its text part has ended;
    and the events that say that the response was incomplete or failed, which are read for
    their metadata only. Later events may still bring the stored arguments or the text. *)
Theorem stream_losses draws event state :
  rc_assistant_role_emitted state = true ->
  (event_type event "response.function_call_arguments.done" ->
     exists state', translate_response_event print_json json_stream draws event state = (state', Ok [])) /\
  (forall delta, event_type event "response.output_text.delta" -> get_str event "delta" = Some delta ->
     rc_assistant_message_output_index state = Some (event_output_index event) -> rc_text_output_done state = true ->
     exists state', translate_response_event print_json json_stream draws event state = (state', Ok []) /\ rc_text state' = rc_text state) /\
  (event_type event "response.incomplete" \/ event_type event "response.failed" ->
     translate_response_event print_json json_stream draws event state = (initialize_chat_metadata draws event state, Ok [])).
Proof.
  intros Hrole. set (state1 := initialize_chat_metadata draws event state).
  assert (Hrole1 : rc_assistant_role_emitted state1 = true) by exact Hrole. split_and!.
  - intros Htype. rewrite (translated_kind _ _ _ _ Htype). fold state1. eexists.
    change (emit_event _ _ _ _ _) with (emit_assistant_role draws ;> update (emit_function_call_arguments_done event)).
    by rewrite role_silent.
  - intros delta Htype Hdelta Hindex Hdone. rewrite (translated_kind _ _ _ _ Htype). fold state1.
    change (emit_event _ _ _ _ _) with (emit_text_event draws event (emit_output_text_delta draws event)).
    unfold emit_text_event. rewrite role_silent by done.
    assert (Hindex1 : rc_assistant_message_output_index state1 = Some (event_output_index event)) by exact Hindex.
    assert (Hdone1 : rc_text_output_done state1 = true) by exact Hdone.
    exists state1. split; [|done]. unfold then_emit, ensure_single_assistant_message_output_index. rewrite Hindex1, Z.eqb_refl.
    unfold emit_output_text_delta. rewrite Hdelta. cbn [ok_or with_value]. by rewrite Hdone1, orb_true_r.
  - intros [Htype|Htype]; rewrite (translated_kind _ _ _ _ Htype); done.
Qed.

End Facts.

(** ** Witnesses *)

(** A printer that needs to escape nothing. *)
Definition quote : string := text (code [34]).

Definition plain_print (value : Value) : string :=
  match value with
  | JString s => quote +:+ s +:+ quote
  | _ => input_opening +:+ default "" (get_str value "input") +:+ input_closing
  end.

Lemma plain_fragment s : json_string_fragment plain_print s = s.
Proof.
  unfold json_string_fragment, plain_print. rewrite !bytes_app. change (bytes quote) with [Ascii.ascii_of_nat 34].
  cbn [app drop length]. rewrite length_app. cbn [length]. replace (S (length (bytes s) + 1) - 2)%nat with (length (bytes s)) by lia.
  rewrite drop_0, take_app_length. apply text_bytes.
Qed.

Definition text_delta_event (content : string) : Value :=
  json_object [("type", JString "response.output_text.delta"); ("output_index", number 0); ("delta", JString content)].

Definition custom_item : json_map :=
  json_fields [("type", JString "custom_tool_call"); ("id", JString "i1"); ("call_id", JString "c1"); ("name", JString "patch")].

Definition sample_events : list Value :=
  [json_object [("type", JString "response.created"); ("response_id", JString "r")];
   text_delta_event "hel"; text_delta_event "lo";
   json_object [("type", JString "response.output_item.added"); ("output_index", number 1); ("item", JObject custom_item)];
   json_object [("type", JString "response.custom_tool_call_input.delta"); ("output_index", number 1); ("delta", JString "do")];
   json_object [("type", JString "response.custom_tool_call_input.done"); ("output_index", number 1); ("input", JString "do it")];
   json_object [("type", JString "response.completed")]].

Definition sample_draws_now : ChatDraws := {| cd_response := "x"; cd_now := 7 |}.
Definition sample_steps : list (ChatDraws * Value) := (fun event => (sample_draws_now, event)) <$> sample_events.

Definition sample_said_call : SaidCall :=
  {| sc_item_id := "i1"; sc_call_id := "c1"; sc_name := "patch"; sc_custom := true; sc_payload := "do it"; sc_done := true |}.

Definition sample_reply : Reply :=
  {| re_message := Some 0; re_text := "hello"; re_text_done := false; re_calls := {[1 := sample_said_call]}; re_over := true |}.

Ltac ran := vm_compute; reflexivity.

Lemma responses_stream_read_witness :
  exists state chunks c,
    whole_chat_stream plain_print (fun _ => []) sample_steps sample_draws_now (ResponsesToChatState_new None) = (state, Ok chunks) /\
    chat_replay reading_new chunks = Some c /\ rd_text c = "hello" /\
    rd_calls c !! 1 = Some {| rd_id := "c1"; rd_name := "patch"; rd_arguments := plain_print (json_object [("input", JString "do it")]) |} /\
    rd_finish c = Some "tool_calls".
Proof.
  assert (Hsays : says_all plain_print (fun _ => []) None reply_new (snd <$> sample_steps) sample_reply).
  { cbn. eapply says_cons; [eapply says_created; vm_compute; reflexivity|].
    eapply says_cons; [eapply (says_text _ _ _ _ _ 0 "hel"); [ran|ran|ran|left; ran|ran|ran]|].
    eapply says_cons; [eapply (says_text _ _ _ _ _ 0 "lo"); [ran|ran|ran|right; ran|ran|ran]|].
    eapply says_cons; [eapply (says_call _ _ _ _ _ custom_item 1 "i1"); [ran|ran|ran|right; ran|ran|ran|ran]|].
    eapply says_cons; [eapply (says_arguments _ _ _ _ _ 1 {| sample_said_call with sc_payload := ""; sc_done := false |} "do"); ran|].
    eapply says_cons; [eapply (says_input_done _ _ _ _ _ _ 1 {| sample_said_call with sc_payload := "do"; sc_done := false |} " it"); [ran|left; split; [ran|reflexivity]|ran|ran|ran|ran|done]|].
    eapply says_cons; [eapply says_completed; [vm_compute; reflexivity|vm_compute; reflexivity|done]|].
    match goal with |- says_all _ _ _ ?reply _ _ => replace reply with sample_reply by (vm_compute; reflexivity) end.
    apply says_nil. }
  destruct (responses_stream_read plain_print (fun _ => []) None
    ltac:(intros a b; rewrite !plain_fragment; reflexivity) ltac:(intros input; rewrite plain_fragment; reflexivity)
    sample_steps sample_draws_now sample_reply) as (state & chunks & c & Hrun & Hreplay & Htext & Hcalls & Hwrapped & Hfinish).
  - unfold sample_steps, sample_events. cbn [fmap list_fmap]. repeat apply List.Forall_cons; try apply List.Forall_nil; vm_compute; split; discriminate.
  - vm_compute. split; discriminate.
  - exact Hsays.
  - exists state, chunks, c. split; [exact Hrun|]. split; [exact Hreplay|]. split; [exact Htext|]. split; [|exact Hfinish].
    rewrite Hcalls. exact (f_equal (fun arguments => Some {| rd_id := "c1"; rd_name := "patch"; rd_arguments := arguments |})
      (Hwrapped sample_said_call eq_refl eq_refl)).
Defined.

Lemma stream_losses_witness :
  exists state, rc_assistant_role_emitted state = true /\
    translate_response_event plain_print (fun _ => []) sample_draws_now (json_object [("type", JString "response.failed")]) state =
      (initialize_chat_metadata sample_draws_now (json_object [("type", JString "response.failed")]) state, Ok []).
Proof.
  set (state := (translate_response_event plain_print (fun _ => []) sample_draws_now
    (json_object [("type", JString "response.created"); ("response_id", JString "r")]) (ResponsesToChatState_new None)).1).
  assert (Hrole : rc_assistant_role_emitted state = true) by (vm_compute; reflexivity).
  exists state. split; [exact Hrole|].
  apply (stream_losses plain_print (fun _ => []) sample_draws_now (json_object [("type", JString "response.failed")]) state Hrole).
  right. vm_compute. reflexivity.
Defined.
