(* ===== verification/SseFormat.v ===== *)
(** * Writing event streams

    [serialize_sse_data] of [src/src/server/gateway/stream.rs] and [claude_sse_event] of
    [src/src/server/gateway/claude.rs] write the format that [SseDecoder] reads. A document
    is printed by serde_json, which is the parameter [print_json]. The theorems are the
    round trips: of events, and of a whole chat stream through the aggregator. *)

From S2P Require Import Prelude RouteTypes ModelIdentity Protocol Json SseDecoder StreamAggregate.

Local Open Scope Z_scope.

(** ** What the gateway writes *)

Section Printed.
  Variable print_json : Value -> string.

(** [format!("event: {event}\ndata: {data}\n\n")], and the form without an event. *)
Definition sse_frame (event : option string) (data : string) : byte_string :=
  match event with
  | Some event => bytes "event: " ++ bytes event ++ [LF]
  | None => []
  end ++ bytes "data: " ++ bytes data ++ [LF; LF].

Definition serialize_sse_data (value : Value) : byte_string :=
  sse_frame (opt_filter (fun event => negb (str_is_empty event)) (get_str value "type")) (print_json value).

Definition claude_sse_event (event : string) (payload : Value) : byte_string :=
  sse_frame (Some event) (print_json payload).

Definition done_frame : byte_string := sse_frame None "[DONE]".

End Printed.

(** ** Facts: frames are read back *)

(** One line of UTF-8 text. *)
Record one_line (s : string) : Prop := {
  ol_utf8 : utf8_valid (bytes s) = true;
  ol_no_lf : LF ∉ bytes s;
  ol_no_cr : CR ∉ bytes s
}.

Lemma cut_line line l : LF ∉ line -> CR ∉ line -> cut (line ++ l) = prepend line <$> cut l.
Proof.
  induction line as [|c line IH]; intros Hlf Hcr; [cbn [app]; by destruct (cut l) as [[[? ?] ?]|]|].
  apply not_elem_of_cons in Hlf as [Hc1 Hlf], Hcr as [Hc2 Hcr]. cbn [app].
  rewrite cut_cons, IH by (done || (unfold starts_with; cbn [strip_prefix CRLF_DELIMITER]; by rewrite bool_decide_eq_false_2)).
  by destruct (cut l) as [[[? ?] ?]|].
Qed.

Lemma cut_next_line c l : c <> LF -> cut (LF :: c :: l) = prepend [LF] <$> cut (c :: l).
Proof.
  intros Hc. rewrite cut_cons; [done| |done]. unfold starts_with. cbn [strip_prefix].
  by rewrite bool_decide_eq_true_2, bool_decide_eq_false_2.
Qed.

Lemma cut_data_line l : cut (LF :: bytes "data: " ++ l) = prepend [LF] <$> cut (bytes "data: " ++ l).
Proof. by apply (cut_next_line (Ascii.ascii_of_N 100) (code [97; 116; 97; 58; 32] ++ l)). Qed.

Lemma split_on_line line l : LF ∉ line -> split_on LF (line ++ LF :: l) = line :: split_on LF l.
Proof.
  induction line as [|c line IH]; intros Hlf; [done|]. cbn [app split_on].
  apply not_elem_of_cons in Hlf as [Hc Hlf]. by rewrite bool_decide_eq_false_2, IH.
Qed.

Lemma split_on_last line : LF ∉ line -> split_on LF line = [line].
Proof.
  induction line as [|c line IH]; intros Hlf; [done|]. apply not_elem_of_cons in Hlf as [Hc Hlf]. cbn [split_on].
  by rewrite bool_decide_eq_false_2, IH.
Qed.

Lemma utf8_app n : forall a b, (length a <= n)%nat -> utf8_valid a = true -> utf8_valid (a ++ b) = utf8_valid b.
Proof.
  induction n as [|n IH]; intros [|c1 a] b Hn; simpl in Hn; [done|lia|done|]. cbn [utf8_valid app].
  destruct (in_range 0 127 c1); [apply IH; lia|]. destruct a as [|c2 a]; [done|]. cbn [app]. simpl in Hn.
  destruct (in_range 194 223 c1 && continuation c2); [apply IH; lia|]. destruct a as [|c3 a]; [done|]. cbn [app]. simpl in Hn.
  destruct (three_bytes c1 c2 c3); [apply IH; lia|]. destruct a as [|c4 a]; [done|]. cbn [app]. simpl in Hn.
  destruct (four_bytes c1 c2 c3 c4); [apply IH; lia|done].
Qed.

Lemma utf8_app_true a b : utf8_valid a = true -> utf8_valid b = true -> utf8_valid (a ++ b) = true.
Proof. intros Ha Hb. by rewrite (utf8_app (length a)). Qed.

Lemma no_cr_suffix line : CR ∉ line -> strip_suffix [CR] line = None.
Proof.
  intros H. unfold strip_suffix. destruct (strip_prefix _ _) as [r|] eqn:Hs; [|done].
  apply strip_prefix_Some in Hs. apply (f_equal reverse) in Hs. rewrite reverse_involutive in Hs. destruct H.
  rewrite Hs, reverse_app. apply elem_of_app. right. by left.
Qed.

(** A line of the two fields that matter. *)
Lemma sse_field_plain field value :
  field ∈ ["event"; "data"] -> CR ∉ value -> sse_field (bytes field ++ COLON :: SPACE :: value) = Some (bytes field, value).
Proof.
  intros Hf Hcr. change (COLON :: SPACE :: value) with ([COLON; SPACE] ++ value). unfold sse_field. rewrite no_cr_suffix.
  - apply elem_of_cons in Hf as [->|Hf]; [done|]. by apply list_elem_of_singleton in Hf as ->.
  - rewrite !not_elem_of_app. split_and!; [|by apply not_elem_of_cons; split; [|apply not_elem_of_cons; split; [|apply not_elem_of_nil]]|done].
    apply elem_of_cons in Hf as [->|Hf]; [|apply list_elem_of_singleton in Hf as ->]; cbn;
      by repeat (apply not_elem_of_cons; split; [done|]); apply not_elem_of_nil.
Qed.

(** The frame without its delimiter. *)
Definition frame_body (event : option string) (data : string) : byte_string :=
  match event with
  | Some event => (bytes "event" ++ [COLON; SPACE] ++ bytes event) ++ [LF]
  | None => []
  end ++ bytes "data" ++ [COLON; SPACE] ++ bytes data.

Definition plain_event (event : option string) : Prop :=
  match event with Some event => one_line event | None => True end.

Lemma cut_sse_frame event data rest :
  plain_event event -> one_line data ->
  cut (sse_frame event data ++ rest) = Some (frame_body event data, 2%nat, rest).
Proof.
  intros He [_ Hlf Hcr]. assert (forall prefix, LF ∉ prefix -> CR ∉ prefix ->
    cut ((prefix ++ bytes data ++ [LF; LF]) ++ rest) = Some (prefix ++ bytes data, 2%nat, rest)) as Hline.
  { intros prefix H1 H2. rewrite <- !app_assoc, cut_line, cut_line by done. cbn [app]. rewrite cut_lf.
    simpl. by rewrite app_nil_r. }
  assert (forall s, s ∈ ["event: "; "data: "] -> LF ∉ bytes s /\ CR ∉ bytes s) as Hs.
  { intros s Hs. split; intros Hin; revert Hin; apply elem_of_cons in Hs as [->|Hs];
      [|apply list_elem_of_singleton in Hs as ->| |apply list_elem_of_singleton in Hs as ->]; cbn;
      repeat (apply not_elem_of_cons; split; [done|]); apply not_elem_of_nil. }
  destruct (Hs "data: ") as [Hd1 Hd2]; [set_solver|]. unfold sse_frame, frame_body.
  destruct event as [event|]; [|by apply (Hline (bytes "data: "))].
  destruct He as [_ He1 He2]. destruct (Hs "event: ") as [Hv1 Hv2]; [set_solver|].
  rewrite <- !app_assoc, cut_line, cut_line by done. cbn [app].
  change (prepend (bytes "event: ") <$> (prepend (bytes event) <$>
    cut (LF :: bytes "data: " ++ bytes data ++ LF :: LF :: rest)) =
    Some (bytes "event: " ++ bytes event ++ LF :: bytes "data: " ++ bytes data, 2%nat, rest)).
  rewrite cut_data_line, (cut_line (bytes "data: ")), (cut_line (bytes data)), cut_lf by done. simpl.
  by rewrite app_nil_r.
Qed.

Lemma frame_body_lines event data :
  plain_event event -> one_line data ->
  split_on LF (frame_body event data) =
    match event with Some event => [bytes "event" ++ [COLON; SPACE] ++ bytes event] | None => [] end
    ++ [bytes "data" ++ [COLON; SPACE] ++ bytes data].
Proof.
  intros He [_ Hlf _]. assert (forall field l, field ∈ ["event"; "data"] -> LF ∉ l ->
    LF ∉ bytes field ++ [COLON; SPACE] ++ l) as Hline.
  { intros field l Hf Hl. rewrite !not_elem_of_app.
    apply elem_of_cons in Hf as [->|Hf]; [|apply list_elem_of_singleton in Hf as ->]; split_and!; try done;
      cbn; repeat (apply not_elem_of_cons; split; [done|]); apply not_elem_of_nil. }
  assert (forall a b, LF ∉ a -> LF ∉ b -> split_on LF ((a ++ [LF]) ++ b) = [a; b]) as Hsplit.
  { intros a b Ha Hb. rewrite <- app_assoc. cbn [app]. by rewrite split_on_line, split_on_last. }
  unfold frame_body. destruct event as [event|].
  - destruct He as [_ He _]. apply Hsplit; apply Hline; set_solver.
  - cbn [app]. apply split_on_last, Hline; set_solver.
Qed.

(** The event that a frame is. *)
Definition event_of (item : option string * string) : SseEvent :=
  {| ev_event_type := item.1; ev_data := item.2 |}.

Lemma parse_frame_body event data :
  plain_event event -> one_line data ->
  parse_sse_event (frame_body event data) = Ok (Some (event_of (event, data))).
Proof.
  intros He Hd. unfold parse_sse_event.
  assert (utf8_valid (frame_body event data) = true) as ->.
  { destruct Hd as [Hd _ _]. unfold frame_body. destruct event as [event|]; [destruct He as [He _ _]|];
      repeat apply utf8_app_true; done. }
  rewrite frame_body_lines by done. destruct Hd as [_ _ Hd].
  destruct event as [event|]; cbn [app sse_lines]; [destruct He as [_ _ He]; rewrite (sse_field_plain "event") by (set_solver || done)|];
    rewrite (sse_field_plain "data") by (set_solver || done); rewrite text_bytes; cbn;
    rewrite ?text_bytes; done.
Qed.

Fixpoint process_events {A} (process : A -> SseEvent -> A * result unit ProtocolError) (acc : A)
    (events : list SseEvent) : A * result unit ProtocolError :=
  match events with
  | [] => (acc, Ok tt)
  | event :: events => let! acc := process acc event in process_events process acc events
  end.

(** A written item fits in a frame. *)
Record item_ok (item : option string * string) : Prop := {
  it_event : plain_event item.1;
  it_data : one_line item.2;
  it_size : Z.of_nat (length (sse_frame item.1 item.2)) <= MAX_STREAM_AGGREGATE_FRAME_BYTES
}.

Definition stream_of (items : list (option string * string)) : byte_string :=
  concat ((fun item => sse_frame item.1 item.2) <$> items).

Lemma sse_frame_length event data : length (sse_frame event data) = (length (frame_body event data) + 2)%nat.
Proof. unfold sse_frame, frame_body. destruct event; rewrite !length_app; simpl; lia. Qed.

Lemma process_stream {A} (process : A -> SseEvent -> A * result unit ProtocolError) items : forall acc,
  Forall item_ok items -> process_text process acc (stream_of items) = process_events process acc (event_of <$> items).
Proof.
  induction items as [|[event data] items IH]; intros acc Hitems; [done|].
  apply Forall_cons in Hitems as [[He Hd Hsize] Hitems]. simpl in He, Hd, Hsize.
  change (stream_of ((event, data) :: items)) with (sse_frame event data ++ stream_of items).
  rewrite process_text_eq, split_frames_eq.
  rewrite (process_chunk_cons process acc _ _ _ _ (cut_sse_frame event data (stream_of items) He Hd)).
  rewrite sse_frame_length in Hsize. rewrite (proj2 (Z.ltb_ge _ _)) by done. rewrite (cut_sse_frame event data) by done.
  unfold process_frame. rewrite parse_frame_body by done. cbn [fmap list_fmap process_events].
  destruct (process acc (event_of (event, data))) as [acc' [[]|error]]; [|done].
  rewrite <- IH, process_text_eq by done. by destruct (split_frames (stream_of items)).
Qed.

(** C40. What the gateway writes, it reads. Events written one frame each, with a name
    and a datum of one line, are decoded as the same events in the same order, in
    whatever chunks they arrive, as long as they fit. *)
Theorem sse_roundtrip {A} (process : A -> SseEvent -> A * result unit ProtocolError) acc items chunks :
  Forall item_ok items -> concat chunks = stream_of items ->
  Z.of_nat (length (stream_of items)) <= MAX_STREAM_AGGREGATE_TOTAL_BYTES ->
  decode_stream process acc chunks = Some (process_events process acc (event_of <$> items)).
Proof. intros Hitems Hc Hsize. rewrite decode_stream_text, Hc by (by rewrite Hc). by rewrite process_stream. Qed.

(** ** A chat stream *)

Section ChatStream.
  Context (parse_json : string -> option Value) (print_json : Value -> string).

(** serde_json prints a document on one line, without surrounding space, and reads it back. *)
Record prints (value : Value) : Prop := {
  pr_parse : parse_json (print_json value) = Some value;
  pr_line : one_line (print_json value);
  pr_trim : trim (print_json value) = print_json value;
  pr_some : print_json value <> "";
  pr_not_done : print_json value <> "[DONE]"
}.

(** An event that is not an error, with a name that fits on a line. *)
Record chat_event (value : Value) : Prop := {
  ce_prints : prints value;
  ce_no_error : has_error value = false;
  ce_kind : kind_among (get_str value "type") ["error"; "response.failed"] = false;
  ce_event : plain_event (get_str value "type");
  ce_size : Z.of_nat (length (serialize_sse_data print_json value)) <= MAX_STREAM_AGGREGATE_FRAME_BYTES
}.

(** The event name and the datum that [serialize_sse_data] writes. *)
Definition item_of (value : Value) : option string * string :=
  (opt_filter (fun event => negb (str_is_empty event)) (get_str value "type"), print_json value).

Lemma item_of_ok value : chat_event value -> item_ok (item_of value).
Proof.
  intros [[_ Hline _ _ _] _ _ Hev Hsize]. split; [|done..]. simpl.
  destruct (get_str value "type") as [event|]; simpl; [|done]. by destruct (str_is_empty event).
Qed.

Definition done_item : option string * string := (None, "[DONE]").

Lemma done_item_ok : item_ok done_item.
Proof.
  split; [done| |vm_compute; discriminate]. simpl.
  split; [done|..]; cbn; repeat (apply not_elem_of_cons; split; [done|]); apply not_elem_of_nil.
Qed.

(** A reader that processes the events of an incomplete response. *)
Context (reader : Aggregation -> SseEvent -> Aggregation * result unit ProtocolError).
Hypothesis reader_incomplete : forall self event,
  as_complete self = None -> reader self event = process_event parse_json self event.

Lemma process_chat_event self value chat :
  as_complete self = None -> as_protocol self = UpChatCompletions -> chat_event value ->
  chat_apply_event (as_chat self) value = (chat, Ok tt) ->
  reader self (event_of (item_of value)) = ({| self with as_chat := chat |}, Ok tt).
Proof.
  intros Hc Hp [[Hparse _ Htrim Hsome Hdone] Herr Hkind _ _] Happ.
  rewrite reader_incomplete by done. unfold process_event. cbn [event_of item_of fst snd ev_event_type ev_data].
  assert (kind_among (opt_filter (fun event => negb (str_is_empty event)) (get_str value "type"))
    ["error"; "response.failed"] = false) as ->.
  { destruct (get_str value "type") as [event|]; simpl; [|done]. by destruct (str_is_empty event). }
  rewrite Htrim. rewrite (proj2 (str_is_empty_false _)) by done. rewrite (proj2 (String.eqb_neq _ _)) by done.
  by rewrite Hparse, Herr, Hp, Happ.
Qed.

Lemma process_chat_events events : forall self chat,
  as_complete self = None -> as_protocol self = UpChatCompletions -> Forall chat_event events ->
  chat_apply_events (as_chat self) events = (chat, Ok tt) ->
  process_events reader self (event_of <$> (item_of <$> events)) = ({| self with as_chat := chat |}, Ok tt).
Proof.
  induction events as [|value events IH]; intros self chat Hc Hp Hev; cbn [chat_apply_events fmap list_fmap process_events].
  { intros [= <-]. by destruct self. }
  apply Forall_cons in Hev as [Hv Hev]. destruct (chat_apply_event (as_chat self) value) as [chat1 [[]|]] eqn:Happ; [|done].
  intros Hrest. rewrite (process_chat_event _ _ _ Hc Hp Hv Happ). by rewrite (IH {| self with as_chat := chat1 |} chat).
Qed.

Lemma process_events_app {A} (process : A -> SseEvent -> A * result unit ProtocolError) xs ys : forall acc,
  process_events process acc (xs ++ ys) = let! acc := process_events process acc xs in process_events process acc ys.
Proof.
  induction xs as [|x xs IH]; intros acc; [done|]. cbn [app process_events].
  by destruct (process acc x) as [acc' [[]|]].
Qed.

Lemma process_done self response :
  as_complete self = None -> as_protocol self = UpChatCompletions ->
  chat_build_response (as_chat self) = Ok response ->
  reader self (event_of done_item) = ({| self with as_complete := Some response |}, Ok tt).
Proof.
  intros Hc Hp Hbuild. rewrite reader_incomplete by done. unfold process_event.
  change (trim (ev_data (event_of done_item))) with (trim "[DONE]").
  replace (trim "[DONE]") with "[DONE]" by (vm_compute; reflexivity). simpl. by rewrite Hp, Hbuild.
Qed.

Lemma process_whole events chat response :
  Forall chat_event events ->
  chat_apply_events ChatAggregateState_default events = (chat, Ok tt) -> chat_build_response chat = Ok response ->
  process_events reader (Aggregation_new UpChatCompletions) (event_of <$> ((item_of <$> events) ++ [done_item])) =
    ({| as_protocol := UpChatCompletions; as_chat := chat; as_complete := Some response;
        as_completion_emitted := false |}, Ok tt).
Proof.
  intros Hev Happ Hbuild. rewrite fmap_app, process_events_app.
  rewrite (process_chat_events events (Aggregation_new UpChatCompletions) chat) by done.
  cbn [fmap list_fmap process_events]. by rewrite (process_done _ response).
Qed.

(** The whole stream: the events, then [DONE]. *)
Definition chat_stream (events : list Value) : byte_string :=
  concat (serialize_sse_data print_json <$> events) ++ done_frame.

Lemma chat_stream_items events : chat_stream events = stream_of ((item_of <$> events) ++ [done_item]).
Proof.
  unfold chat_stream, stream_of. rewrite fmap_app, concat_app, <- list_fmap_compose.
  by f_equal.
Qed.

End ChatStream.

(** A chat stream survives the wire. If the events of a stream can be applied and
    give a response, then writing them out, cutting the text into any chunks, decoding,
    parsing and aggregating it gives that very response. *)
Theorem chat_stream_roundtrip parse_json print_json events chat response chunks :
  Forall (chat_event parse_json print_json) events ->
  chat_apply_events ChatAggregateState_default events = (chat, Ok tt) ->
  chat_build_response chat = Ok response ->
  concat chunks = chat_stream print_json events ->
  Z.of_nat (length (chat_stream print_json events)) <= MAX_STREAM_AGGREGATE_TOTAL_BYTES ->
  aggregate_upstream_sse_response parse_json UpChatCompletions chunks = Some (Ok response).
Proof.
  intros Hev Happ Hbuild Hc Hsize. rewrite <- Hc in Hsize.
  destruct (aggregate_chunks_spec parse_json chunks (StreamResponseAggregator_new UpChatCompletions)) as (r & Hr & Href);
    [apply aggregator_new_between|done|]. unfold aggregate_upstream_sse_response. rewrite Hr. f_equal.
  unfold refines in Href. change (rest_of _ ++ concat chunks) with (concat chunks) in Href. rewrite Hc, chat_stream_items in Href.
  assert (Forall item_ok ((item_of print_json <$> events) ++ [done_item])) as Hitems.
  { apply Forall_app. split; [|by repeat constructor; apply done_item_ok]. apply Forall_fmap.
    eapply Forall_impl; [done|]. intros v Hv. by eapply item_of_ok. }
  rewrite !process_stream in Href by done.
  rewrite (process_whole parse_json print_json (until_complete parse_json)) with (chat := chat) (response := response) in Href
    by (done || by intros ? ? Hn; unfold until_complete; rewrite Hn).
  rewrite (process_whole parse_json print_json (process_event_or_terminal_tail parse_json)) with (chat := chat) (response := response) in Href
    by (done || by intros ? ? Hn; unfold process_event_or_terminal_tail; rewrite Hn).
  by destruct Href as [->|(_ & _ & ?)].
Qed.

(** ** Witnesses *)

Lemma one_line_check s :
  utf8_valid (bytes s) && forallb (fun c => negb (bool_decide (c = LF)) && negb (bool_decide (c = CR))) (bytes s) = true ->
  one_line s.
Proof.
  intros [Hu Hf]%andb_true_iff. rewrite forallb_forall in Hf.
  assert (forall c, c ∈ bytes s -> c <> LF /\ c <> CR) as Hc.
  { intros c Hc%list_elem_of_In%Hf. bool_prop. done. }
  split; [done|..]; intros Hin; by destruct (Hc _ Hin).
Qed.

Definition sample_items : list (option string * string) := [(Some "ready", "one"); (None, "[DONE]")].

Lemma sample_items_ok : Forall item_ok sample_items.
Proof.
  apply List.Forall_cons; [|apply List.Forall_cons; [|apply List.Forall_nil]]; (split; simpl;
    [exact I || (apply one_line_check; vm_compute; reflexivity)|apply one_line_check; vm_compute; reflexivity|vm_compute; discriminate]).
Qed.

Lemma sse_roundtrip_witness :
  decode_stream collect [] (byte_by_byte (stream_of sample_items)) =
    Some ([{| ev_event_type := Some "ready"; ev_data := "one" |};
           {| ev_event_type := None; ev_data := "[DONE]" |}], Ok tt).
Proof.
  rewrite (sse_roundtrip collect [] sample_items (byte_by_byte (stream_of sample_items)));
    [vm_compute; reflexivity|exact sample_items_ok|apply concat_byte_by_byte|vm_compute; discriminate].
Defined.

Lemma sample_chat_events : Forall (chat_event sample_parse sample_print) [first_event; second_event].
Proof.
  apply List.Forall_cons; [|apply List.Forall_cons; [|apply List.Forall_nil]]; (split; [split| | | |]);
    try (apply one_line_check); vm_compute; (reflexivity || discriminate || exact I).
Qed.

Lemma chat_stream_roundtrip_witness :
  aggregate_upstream_sse_response sample_parse UpChatCompletions
    (byte_by_byte (chat_stream sample_print [first_event; second_event])) = Some (Ok sample_response).
Proof.
  apply (chat_stream_roundtrip sample_parse sample_print [first_event; second_event] sample_chat sample_response).
  - exact sample_chat_events.
  - exact sample_chat_applied.
  - exact sample_response_built.
  - apply concat_byte_by_byte.
  - vm_compute. discriminate.
Defined.
