(* ===== verification/StreamCommit.v ===== *)
(** * When a stream is committed

    [src/src/server/gateway/stream_commit.rs]: the tracker that watches the events of a
    downstream stream for its first semantic output, after which the request may not
    be replayed elsewhere, and the deadline for that output. From
    [src/src/server/gateway.rs] and [src/src/server/gateway/stream.rs]: which documents carry
    usable output, and how the first semantic output settles the health lease of the
    route ([mark_healthy_verdict_if_due], over the permits of [RouteHealthRegistry]).

    The mutex and the atomic flags make each method one step. *)

From S2P Require Import Prelude RouteTypes RouteHealth RouteHealthRegistry ModelIdentity Json.

Local Open Scope Z_scope.

Inductive EndpointKind :=
| EndpointChatCompletions
| EndpointResponses.

(** ** The tracker *)

Record StreamCommitState := {
  sc_transport_committed : bool;
  sc_semantic_output_observed : bool;
  sc_terminal_observed : bool;
  sc_last_semantic_at : option Instant;
  sc_last_keepalive_at : option Instant
}.

Record StreamCommitTracker := {
  ct_inner : StreamCommitState;
  ct_health_settle_pending : bool
}.

Definition StreamCommitTracker_default : StreamCommitTracker :=
  {| ct_inner :=
       {| sc_transport_committed := false; sc_semantic_output_observed := false;
          sc_terminal_observed := false; sc_last_semantic_at := None; sc_last_keepalive_at := None |};
     ct_health_settle_pending := false |}.

Definition commit_transport (self : StreamCommitTracker) : StreamCommitTracker :=
  {| self with ct_inner := {| (ct_inner self) with sc_transport_committed := true |} |}.

Definition observe_keepalive (self : StreamCommitTracker) (now : Instant) : StreamCommitTracker :=
  {| self with ct_inner := {| (ct_inner self) with sc_last_keepalive_at := Some now |} |}.

(** The three assignments that a semantic output makes. *)
Definition observe_semantic (self : StreamCommitTracker) (now : Instant) : StreamCommitTracker :=
  {| ct_inner :=
       {| (ct_inner self) with sc_semantic_output_observed := true; sc_last_semantic_at := Some now |};
     ct_health_settle_pending := true |}.

Definition observe_terminal (self : StreamCommitTracker) : StreamCommitTracker :=
  {| self with ct_inner := {| (ct_inner self) with sc_terminal_observed := true |} |}.

(** ** Semantic output *)

Definition non_empty_str (value : option Value) : bool :=
  is_some_and (fun s => negb (str_is_empty s)) (value ← value; as_str value).

Definition has_non_empty_string (value : Value) (field : string) : bool := non_empty_str (get value field).

Fixpoint has_non_empty_nested_string (current : Value) (path : list string) : bool :=
  match path with
  | [] => non_empty_str (Some current)
  | segment :: path =>
      match get current segment with
      | Some next => has_non_empty_nested_string next path
      | None => false
      end
  end.

Fixpoint value_has_semantic_payload (value : Value) : bool :=
  match value with
  | JString text => negb (str_is_empty text)
  | JArray values => existsb value_has_semantic_payload values
  | JObject object =>
      existsb (fun '(key, value) =>
        negb (existsb (String.eqb key) ["id"; "role"; "status"; "type"]) && value_has_semantic_payload value) object
  | _ => false
  end.

Definition response_output_item_is_semantic (item : Value) : bool :=
  match get_str item "type" with
  | None => false
  | Some kind =>
      if String.eqb kind "function_call" then
        has_non_empty_string item "call_id" || has_non_empty_string item "name"
        || has_non_empty_string item "arguments"
      else if String.eqb kind "custom_tool_call" then
        has_non_empty_string item "call_id" || has_non_empty_string item "name"
        || has_non_empty_string item "input"
      else if String.eqb kind "message" || String.eqb kind "agent_message" then
        has_non_empty_string item "text"
        || is_some_and (fun value => negb (is_null value)) (get item "encrypted_content")
        || is_some_and value_has_semantic_payload (get item "content")
      else false
  end.

Definition tool_call_is_semantic (tc : Value) : bool :=
  has_non_empty_string tc "id" || has_non_empty_nested_string tc ["function"; "name"]
  || has_non_empty_nested_string tc ["function"; "arguments"].

Fixpoint observe_tool_calls (self : StreamCommitTracker) (tool_calls : list Value) (now : Instant) : StreamCommitTracker :=
  match tool_calls with
  | [] => self
  | tc :: tool_calls =>
      observe_tool_calls (if tool_call_is_semantic tc then observe_semantic self now else self) tool_calls now
  end.

Definition observe_choice (self : StreamCommitTracker) (choice : Value) (now : Instant) : StreamCommitTracker :=
  let self :=
    match get choice "delta" with
    | Some delta =>
        let self :=
          if has_non_empty_string delta "content" || has_non_empty_string delta "reasoning_content"
          then observe_semantic self now else self in
        match get_array delta "tool_calls" with
        | Some tool_calls => observe_tool_calls self tool_calls now
        | None => self
        end
    | None => self
    end in
  if is_some (get choice "finish_reason") && negb (is_none_or is_null (get choice "finish_reason"))
  then observe_terminal self else self.

Fixpoint observe_choices (self : StreamCommitTracker) (choices : list Value) (now : Instant) : StreamCommitTracker :=
  match choices with
  | [] => self
  | choice :: choices => observe_choices (observe_choice self choice now) choices now
  end.

Definition observe_json (self : StreamCommitTracker) (endpoint : EndpointKind) (event : Value) (now : Instant)
    : StreamCommitTracker :=
  match endpoint with
  | EndpointChatCompletions =>
      match get_array event "choices" with
      | Some choices => observe_choices self choices now
      | None => self
      end
  | EndpointResponses =>
      let event_type := default "" (get_str event "type") in
      if (String.eqb event_type "response.output_text.delta"
          || String.eqb event_type "response.reasoning_summary_text.delta")
         && has_non_empty_string event "delta"
      then observe_semantic self now
      else if (String.eqb event_type "response.output_item.added"
               || String.eqb event_type "response.output_item.done")
              && is_some_and response_output_item_is_semantic (get event "item")
      then observe_semantic self now
      else if String.eqb event_type "response.function_call_arguments.delta"
              && has_non_empty_string event "delta"
      then observe_semantic self now
      else if String.eqb event_type "response.completed" then observe_terminal self
      else self
  end.

(** The one-shot flag: its value, and the tracker with the flag lowered. *)
Definition take_health_settle_pending (self : StreamCommitTracker) : StreamCommitTracker * bool :=
  ({| self with ct_health_settle_pending := false |}, ct_health_settle_pending self).

Definition can_replay (self : StreamCommitTracker) : bool := negb (sc_semantic_output_observed (ct_inner self)).

(** ** The deadline of the first semantic output *)

Record FirstSemanticDeadline := {
  fd_started : Instant;
  fd_deadline : Instant;
  fd_warn_after : Duration
}.

Inductive DeadlineError := FirstSemanticOutputTimeout.

Definition FirstSemanticDeadline_new_with_warn (started : Instant) (budget warn_after : Duration)
    : FirstSemanticDeadline :=
  {| fd_started := started; fd_deadline := started + budget; fd_warn_after := warn_after |}.

Definition FirstSemanticDeadline_new (started : Instant) (budget : Duration) : FirstSemanticDeadline :=
  FirstSemanticDeadline_new_with_warn started budget 0.

Definition elapsed_since_start (self : FirstSemanticDeadline) (now : Instant) : Duration :=
  since now (fd_started self).

Definition should_warn (self : FirstSemanticDeadline) (now : Instant) : bool :=
  negb (fd_warn_after self =? 0) && (fd_warn_after self <=? elapsed_since_start self now).

Definition remaining (self : FirstSemanticDeadline) (now : Instant) : result Duration DeadlineError :=
  if fd_deadline self <=? now then Err FirstSemanticOutputTimeout else Ok (since (fd_deadline self) now).

Definition clip (self : FirstSemanticDeadline) (phase_limit : Duration) (now : Instant)
    : result Duration DeadlineError :=
  let? budget := remaining self now in Ok (Z.min budget phase_limit).

(** ** Usable output *)

Fixpoint value_has_non_empty_text (value : Value) : bool :=
  match value with
  | JString text => negb (str_is_empty text)
  | JArray items => existsb value_has_non_empty_text items
  | JObject object =>
      non_empty_str
        (or_else (map_get object "text") (or_else (map_get object "refusal")
           (or_else (map_get object "summary_text") (or_else (map_get object "reasoning_text")
              (map_get object "reasoning_content")))))
  | _ => false
  end.

(** With the [None] of the source. *)
Definition has_text (value : option Value) : bool := is_some_and value_has_non_empty_text value.

Definition non_empty_array (value : option Value) : bool :=
  is_some_and (fun items => negb (is_empty items)) (value ← value; as_array value).

Definition value_has_payload (value : option Value) : bool :=
  match value with
  | Some JNull | None => false
  | Some (JString text) => negb (str_is_empty text)
  | Some (JArray items) => negb (is_empty items)
  | Some (JObject object) => negb (is_empty object)
  | Some _ => true
  end.

Fixpoint typed_field_has_payload (value : Value) : bool :=
  match value with
  | JNull => false
  | JString text => negb (str_is_empty text)
  | JArray items => existsb typed_field_has_payload items
  | JObject object => existsb (fun '(_, value) => typed_field_has_payload value) object
  | JBool _ | JNumber _ => true
  end.

Definition typed_output_item_has_payload (item : Value) : bool :=
  is_some_and (existsb (fun '(field, value) =>
    negb (existsb (String.eqb field)
      ["type"; "id"; "status"; "object"; "created_at"; "completed_at"; "sequence_number"; "output_index";
       "content_index"]) && typed_field_has_payload value)) (as_object item).

Definition chat_message_has_usable_output (message : Value) : bool :=
  has_text (get message "content") || has_text (get message "refusal")
  || has_text (get message "reasoning_content") || non_empty_array (get message "tool_calls")
  || value_has_payload (get message "function_call").

Definition untyped_item_has_usable_output (item : Value) : bool :=
  has_text (get item "content") || non_empty_array (get item "tool_calls")
  || value_has_payload (get item "function_call").

Definition responses_output_item_has_usable_output (item : Value) : bool :=
  match get_str item "type" with
  | Some kind =>
      if String.eqb kind "message" then untyped_item_has_usable_output item
      else if String.eqb kind "reasoning" then
        has_text (get item "summary") || has_text (get item "content")
        || is_some_and typed_field_has_payload (get item "encrypted_content")
      else typed_output_item_has_payload item
  | None => untyped_item_has_usable_output item
  end.

Definition chat_stream_event_has_usable_output (event : Value) : bool :=
  is_some_and (existsb (fun choice =>
    is_some_and chat_message_has_usable_output (or_else (get choice "delta") (get choice "message"))))
    (get_array event "choices").

Definition responses_stream_event_has_usable_output (event : Value) : bool :=
  has_text (get event "delta")
  || is_some_and responses_output_item_has_usable_output (get event "item")
  || is_some_and (existsb responses_output_item_has_usable_output)
       (response ← get event "response"; get_array response "output").

Definition stream_event_has_usable_output (event : Value) : bool :=
  chat_stream_event_has_usable_output event || responses_stream_event_has_usable_output event.

Definition usage_count (body : Value) (field : string) : Z :=
  default 0 (usage ← get body "usage"; tokens ← get usage field; as_u64 tokens).

Definition is_empty_success_response (body : Value) : bool :=
  if negb (usage_count body "completion_tokens" =? 0) || negb (usage_count body "output_tokens" =? 0) then false
  else match get_array body "choices" with
  | Some choices =>
      negb (existsb (fun choice =>
        is_some_and chat_message_has_usable_output (or_else (get choice "message") (get choice "delta"))) choices)
  | None =>
      match get_array body "output" with
      | Some output => negb (existsb responses_output_item_has_usable_output output)
      | None => true
      end
  end.

(** ** The health of the route

    The parts of a stream that decide about its lease: the tracker, the guard and the
    slot of the completion context, and the registry, which others change too. *)

Record StreamHealth := {
  sh_tracker : StreamCommitTracker;
  sh_verdict_pending : bool;
  sh_permit : option RouteHealthPermit;
  sh_registry : RouteHealthRegistry
}.

Section Settling.
  Variable sha256 : string -> list Z.
  Context `{!IterOrder RouteHealthKey HealthState, !IterOrder KeyHealthKey HealthState}.

Definition mark_healthy_verdict (self : StreamHealth) (now : Instant) : StreamHealth :=
  if sh_verdict_pending self then
    let '(registry, permit) := settle_healthy sha256 (sh_registry self) (sh_permit self) now in
    {| self with sh_verdict_pending := false; sh_permit := permit; sh_registry := registry |}
  else self.

Definition mark_healthy_verdict_if_due (self : StreamHealth) (now : Instant) : StreamHealth :=
  let '(tracker, due) := take_health_settle_pending (sh_tracker self) in
  let self := {| self with sh_tracker := tracker |} in
  if due then mark_healthy_verdict {| self with sh_verdict_pending := true |} now else self.

(** What happens to a stream; [Elsewhere] is anything that others do to the registry. *)
Inductive stream_event :=
| CommitTransport
| ObserveKeepalive (now : Instant)
| ObserveJson (endpoint : EndpointKind) (event : Value) (now : Instant)
| PollHealth (now : Instant)
| Elsewhere (registry : RouteHealthRegistry).

Definition stream_step (self : StreamHealth) (event : stream_event) : StreamHealth :=
  match event with
  | CommitTransport => {| self with sh_tracker := commit_transport (sh_tracker self) |}
  | ObserveKeepalive now => {| self with sh_tracker := observe_keepalive (sh_tracker self) now |}
  | ObserveJson endpoint event now =>
      {| self with sh_tracker := observe_json (sh_tracker self) endpoint event now |}
  | PollHealth now => mark_healthy_verdict_if_due self now
  | Elsewhere registry => {| self with sh_registry := registry |}
  end.

Definition run_stream (self : StreamHealth) (events : list stream_event) : StreamHealth :=
  fold_left stream_step events self.

End Settling.

Definition StreamHealth_new (lease : HealthLease) (registry : RouteHealthRegistry) : StreamHealth :=
  {| sh_tracker := StreamCommitTracker_default; sh_verdict_pending := false;
     sh_permit := Some (Local lease); sh_registry := registry |}.

(** ** The reference: which events count *)

Definition chat_choice_semantic (choice : Value) : bool :=
  is_some_and (fun delta =>
    has_non_empty_string delta "content" || has_non_empty_string delta "reasoning_content"
    || is_some_and (existsb tool_call_is_semantic) (get_array delta "tool_calls")) (get choice "delta").

Definition semantic_event (endpoint : EndpointKind) (event : Value) : bool :=
  match endpoint with
  | EndpointChatCompletions => is_some_and (existsb chat_choice_semantic) (get_array event "choices")
  | EndpointResponses =>
      match get_str event "type" with
      | None => false
      | Some kind =>
          (existsb (String.eqb kind)
             ["response.output_text.delta"; "response.reasoning_summary_text.delta";
              "response.function_call_arguments.delta"] && has_non_empty_string event "delta")
          || (existsb (String.eqb kind) ["response.output_item.added"; "response.output_item.done"]
              && is_some_and response_output_item_is_semantic (get event "item"))
      end
  end.

Definition terminal_event (endpoint : EndpointKind) (event : Value) : bool :=
  match endpoint with
  | EndpointChatCompletions =>
      is_some_and (existsb (fun choice => is_some (get_non_null choice "finish_reason"))) (get_array event "choices")
  | EndpointResponses => bool_decide (get_str event "type" = Some "response.completed")
  end.

(** ** Facts: observing *)

Definition observed (self : StreamCommitTracker) (semantic terminal : bool) (now : Instant) : StreamCommitTracker :=
  let self := if semantic then observe_semantic self now else self in
  if terminal then observe_terminal self else self.

Lemma observed_observed self s t s' t' now :
  observed (observed self s t now) s' t' now = observed self (s || s') (t || t') now.
Proof. by destruct self as [[]], s, t, s', t'. Qed.

Lemma observe_tool_calls_spec tool_calls now : forall self,
  observe_tool_calls self tool_calls now = observed self (existsb tool_call_is_semantic tool_calls) false now.
Proof.
  induction tool_calls as [|tc tool_calls IH]; intros self; [done|]. cbn [observe_tool_calls existsb]. rewrite IH.
  change (if tool_call_is_semantic tc then observe_semantic self now else self)
    with (observed self (tool_call_is_semantic tc) false now).
  by rewrite observed_observed.
Qed.

Lemma observe_choice_spec self choice now :
  observe_choice self choice now =
    observed self (chat_choice_semantic choice) (is_some (get_non_null choice "finish_reason")) now.
Proof.
  unfold observe_choice, chat_choice_semantic, get_non_null.
  replace (is_some (get choice "finish_reason") && negb (is_none_or is_null (get choice "finish_reason")))
    with (is_some (opt_filter (fun v => negb (is_null v)) (get choice "finish_reason")))
    by (destruct (get choice "finish_reason") as [[]|]; done).
  destruct (get choice "delta") as [delta|]; [|done]. simpl is_some_and.
  destruct (get_array delta "tool_calls") as [tool_calls|]; [|by rewrite orb_false_r].
  rewrite observe_tool_calls_spec. simpl is_some_and.
  by destruct (_ || has_non_empty_string delta "reasoning_content"), (existsb _ _), self as [[]].
Qed.

Lemma observe_choices_spec choices now : forall self,
  observe_choices self choices now =
    observed self (existsb chat_choice_semantic choices)
      (existsb (fun choice => is_some (get_non_null choice "finish_reason")) choices) now.
Proof.
  induction choices as [|choice choices IH]; intros self; [done|]. cbn [observe_choices existsb].
  by rewrite IH, observe_choice_spec, observed_observed.
Qed.

Lemma observe_json_spec self endpoint event now :
  observe_json self endpoint event now =
    observed self (semantic_event endpoint event) (terminal_event endpoint event) now.
Proof.
  destruct endpoint; simpl.
  - destruct (get_array event "choices") as [choices|]; [apply observe_choices_spec|done].
  - destruct (get_str event "type") as [kind|]; simpl; [|done].
    repeat match goal with |- context [String.eqb kind ?s] => destruct (String.eqb_spec kind s); [subst kind; simpl|] end;
      rewrite ?orb_false_r, ?andb_false_r; try (rewrite bool_decide_eq_false_2 by congruence);
      repeat case_match; done.
Qed.

(** ** What the tracker remembers *)

(** The times of the events that count, in order. *)
Definition semantic_times (events : list stream_event) : list Instant :=
  omap (fun event => match event with
    | ObserveJson endpoint value now => if semantic_event endpoint value then Some now else None
    | _ => None end) events.

Definition keepalive_times (events : list stream_event) : list Instant :=
  omap (fun event => match event with ObserveKeepalive now => Some now | _ => None end) events.

Definition is_terminal (event : stream_event) : bool :=
  match event with ObserveJson endpoint value _ => terminal_event endpoint value | _ => false end.

Definition is_commit (event : stream_event) : bool :=
  match event with CommitTransport => true | _ => false end.

(** A first poll after semantic output has been seen: whether there was any, and
    whether a poll has come after it. *)
Definition watch (state : bool * bool) (event : stream_event) : bool * bool :=
  let '(seen, settled) := state in
  match event with
  | ObserveJson endpoint value _ => (seen || semantic_event endpoint value, settled)
  | PollHealth _ => (seen, settled || seen)
  | _ => state
  end.

Definition watched (events : list stream_event) : bool * bool := fold_left watch events (false, false).

Section Facts.
  Variable sha256 : string -> list Z.
  Context `{!IterOrder RouteHealthKey HealthState, !IterOrder KeyHealthKey HealthState}.

Lemma mark_healthy_tracker self now :
  ct_inner (sh_tracker (mark_healthy_verdict_if_due sha256 self now)) = ct_inner (sh_tracker self).
Proof.
  unfold mark_healthy_verdict_if_due, mark_healthy_verdict, take_health_settle_pending.
  destruct (ct_health_settle_pending _); simpl; [|done]. by destruct (settle_healthy _ _ _ _).
Qed.

Lemma run_stream_snoc self events event :
  run_stream sha256 self (events ++ [event]) = stream_step sha256 (run_stream sha256 self events) event.
Proof. unfold run_stream. by rewrite fold_left_app. Qed.

Lemma last_app_some {A} (l : list A) (x : A) : last (l ++ [x]) = Some x.
Proof. by rewrite last_snoc. Qed.

(** The tracker after any events. *)
Lemma tracker_spec lease registry events :
  ct_inner (sh_tracker (run_stream sha256 (StreamHealth_new lease registry) events)) =
    {| sc_transport_committed := existsb is_commit events;
       sc_semantic_output_observed := negb (is_empty (semantic_times events));
       sc_terminal_observed := existsb is_terminal events;
       sc_last_semantic_at := last (semantic_times events);
       sc_last_keepalive_at := last (keepalive_times events) |}.
Proof.
  induction events as [|event events IH] using rev_ind; [done|].
  rewrite run_stream_snoc. unfold semantic_times, keepalive_times. rewrite !omap_app, !existsb_app.
  fold (semantic_times events) (keepalive_times events).
  destruct event as [|now|endpoint value now|now|r]; simpl; rewrite ?app_nil_r, ?orb_false_r, ?orb_true_r.
  - by rewrite IH.
  - rewrite IH. by rewrite last_app_some.
  - rewrite observe_json_spec. destruct (semantic_event endpoint value), (terminal_event endpoint value); simpl; rewrite IH;
      simpl; rewrite ?app_nil_r, ?orb_false_r, ?orb_true_r, ?last_app_some; try done; by destruct (semantic_times events).
  - by rewrite mark_healthy_tracker.
  - done.
Qed.

(** The flag is up exactly between semantic output and the next poll; the permit is
    settled once a poll has seen it. *)
Lemma settle_invariant lease registry events :
  let self := run_stream sha256 (StreamHealth_new lease registry) events in
  sh_verdict_pending self = false /\
  (ct_health_settle_pending (sh_tracker self) = true -> (watched events).1 = true) /\
  ((watched events).1 = true -> (watched events).2 = false -> ct_health_settle_pending (sh_tracker self) = true) /\
  ((watched events).2 = true -> (watched events).1 = true) /\
  sh_permit self =
    Some (if (watched events).2 then Settled (hl_route lease) (hl_key lease) else Local lease).
Proof.
  induction events as [|event events IH] using rev_ind; [done|]. simpl in *.
  rewrite run_stream_snoc. unfold watched in *. rewrite fold_left_app. simpl.
  set (self := run_stream sha256 _ events) in *.
  destruct (fold_left watch events (false, false)) as [seen settled]. simpl in IH.
  destruct IH as (Hv & Hp1 & Hp2 & Hs & Hpermit).
  destruct event as [|now|endpoint value now|now|r]; simpl; try by split_and!.
  - rewrite observe_json_spec. unfold observed.
    destruct (semantic_event endpoint value), (terminal_event endpoint value); simpl; rewrite ?orb_true_r, ?orb_false_r; by split_and!.
  - unfold mark_healthy_verdict_if_due, take_health_settle_pending. destruct (ct_health_settle_pending (sh_tracker self)) eqn:Hpend.
    + rewrite (Hp1 eq_refl) in *. unfold mark_healthy_verdict. simpl. rewrite Hpermit, orb_true_r.
      destruct settled; simpl; by split_and!.
    + simpl. destruct seen; simpl; [|by rewrite ?orb_false_r; split_and!].
      destruct settled; simpl; [by split_and!|]. by specialize (Hp2 eq_refl eq_refl).
Qed.

(** What a poll does. *)
Lemma poll_spec lease registry events now :
  let self := run_stream sha256 (StreamHealth_new lease registry) events in
  let self' := stream_step sha256 self (PollHealth now) in
  if (watched events).1 && negb (watched events).2
  then sh_registry self' = (settle_healthy sha256 (sh_registry self) (Some (Local lease)) now).1
  else sh_registry self' = sh_registry self.
Proof.
  intros self self'. pose proof (settle_invariant lease registry events) as (Hv & Hp1 & Hp2 & Hs & Hpermit).
  fold self in Hv, Hp1, Hp2, Hpermit. unfold self', stream_step, mark_healthy_verdict_if_due, take_health_settle_pending.
  destruct (watched events) as [seen settled]. simpl in *.
  destruct seen, settled; simpl; destruct (ct_health_settle_pending (sh_tracker self)) eqn:Hpend; simpl; try done;
    try (by specialize (Hp2 eq_refl eq_refl)); try (by specialize (Hp1 eq_refl)); try (by specialize (Hs eq_refl));
    unfold mark_healthy_verdict; simpl; rewrite Hpermit; done.
Qed.

(** What the tracker of a stream knows is what happened. Whatever events come in
    whatever order, replay is allowed exactly until the first semantic output, and
    never again; the terminal and transport flags and the times are those of the
    events. *)
Theorem commit_tracks_stream lease registry events :
  let tracker := sh_tracker (run_stream sha256 (StreamHealth_new lease registry) events) in
  can_replay tracker = is_empty (semantic_times events) /\
  sc_terminal_observed (ct_inner tracker) = existsb is_terminal events /\
  sc_transport_committed (ct_inner tracker) = existsb is_commit events /\
  sc_last_semantic_at (ct_inner tracker) = last (semantic_times events) /\
  sc_last_keepalive_at (ct_inner tracker) = last (keepalive_times events) /\
  forall later, can_replay tracker = false ->
    can_replay (sh_tracker (run_stream sha256 (StreamHealth_new lease registry) (events ++ later))) = false.
Proof.
  simpl. assert (forall events, can_replay (sh_tracker (run_stream sha256 (StreamHealth_new lease registry) events)) =
    is_empty (semantic_times events)) as Hreplay.
  { intros es. unfold can_replay. rewrite tracker_spec. apply negb_involutive. }
  split_and!; [apply Hreplay|by rewrite tracker_spec..|]. intros later. rewrite !Hreplay.
  unfold semantic_times. rewrite omap_app. by destruct (omap _ events).
Qed.

(** C24. The lease is settled once, at the first poll after the first semantic output.
    Every other poll leaves the registry alone, however many outputs come and whatever
    others do to the registry in between; until that poll the permit holds the live
    lease, and afterwards it is settled. *)
Theorem stream_settles_once lease registry events now :
  let self := run_stream sha256 (StreamHealth_new lease registry) events in
  let self' := stream_step sha256 self (PollHealth now) in
  let due := negb (is_empty (semantic_times events)) && negb (watched events).2 in
  sh_registry self' =
    (if due then (settle_healthy sha256 (sh_registry self) (Some (Local lease)) now).1 else sh_registry self) /\
  sh_permit self = Some (if (watched events).2 then Settled (hl_route lease) (hl_key lease) else Local lease) /\
  (forall later, (watched events).2 = true -> (watched (events ++ later)).2 = true) /\
  (due = true -> (watched (events ++ [PollHealth now])).2 = true).
Proof.
  simpl. assert (forall events, (watched events).1 = negb (is_empty (semantic_times events))) as Hseen.
  { intros es. induction es as [|event es IH] using rev_ind; [done|]. unfold watched, semantic_times in *.
    rewrite fold_left_app, omap_app. simpl. destruct (fold_left watch es (false, false)) as [seen settled]. simpl in IH.
    destruct event as [|t|endpoint value t|t|r]; simpl; rewrite ?app_nil_r, IH; try done.
    destruct (semantic_event endpoint value); simpl; [|by rewrite app_nil_r, orb_false_r].
    rewrite orb_true_r. by destruct (omap _ es). }
  pose proof (poll_spec lease registry events now) as Hpoll. simpl in Hpoll. rewrite <- Hseen.
  split_and!.
  - by destruct (_ && _).
  - apply settle_invariant.
  - intros later. unfold watched. rewrite fold_left_app. destruct (fold_left watch events (false, false)) as [seen settled].
    simpl. intros ->. revert seen. induction later as [|event later IH]; intros seen; [done|].
    destruct event; apply IH.
  - unfold watched. rewrite fold_left_app. simpl. destruct (fold_left watch events (false, false)) as [seen settled]. simpl.
    intros [-> _]%andb_true_iff. by rewrite orb_true_r.
Qed.

End Facts.

(** The shared deadline. A phase is given no more time than it asks for and than is
    left, so that it ends by the deadline; once the deadline has come every phase is
    refused; and the warning comes when the threshold has passed, unless that is zero. *)
Theorem deadline_bounds_phases started budget warn_after phase_limit now :
  let deadline := FirstSemanticDeadline_new_with_warn started budget warn_after in
  match clip deadline phase_limit now with
  | Ok limit => now < started + budget /\ limit <= phase_limit /\ now + limit <= started + budget /\
      (0 < phase_limit -> 0 < limit)
  | Err _ => started + budget <= now
  end /\
  (should_warn deadline now = true <-> warn_after <> 0 /\ warn_after <= since now started).
Proof.
  simpl. split.
  - unfold clip, remaining. simpl. destruct (Z.leb_spec (started + budget) now); [done|]. unfold since. lia.
  - unfold should_warn, elapsed_since_start. simpl. rewrite andb_true_iff, negb_true_iff, Z.eqb_neq, Z.leb_le. done.
Qed.
