(* ===== verification/StreamPrefetch.v ===== *)
(** * Watching the start of a stream

    The classifiers of [src/src/protocol/stream_aggregate.rs] that read a stream until it
    shows something, and [prefetch_first_usable_output] of
    [src/src/server/gateway/stream.rs], which holds a response back until its first usable
    output. They drain [SseDecoder] like the aggregator of [StreamAggregate], but stop
    at the first event that decides. What counts as usable is [StreamCommit].

    Network failures and timeouts end the loop with an error of their own and are left
    out; the closure [is_usable] keeps its state (the commit tracker) in [T]. *)

From S2P Require Import Prelude RouteTypes ModelIdentity Protocol Json SseDecoder StreamAggregate StreamCommit.

Local Open Scope Z_scope.

Inductive FirstSemanticEventResult :=
| SemanticPending
| SemanticReady.

Inductive FirstUsableOutputResult :=
| UsablePending
| UsableReady
| CompleteWithoutOutput.

(** ** The first event *)

Record FirstSemanticEventClassifier := {
  fs_decoder : SseDecoder;
  fs_validator : Aggregation;
  fs_ready : bool
}.

Definition FirstSemanticEventClassifier_new (protocol : UpstreamProtocol) : FirstSemanticEventClassifier :=
  {| fs_decoder := SseDecoder_new; fs_validator := Aggregation_new protocol; fs_ready := false |}.

(** ** The first usable output *)

Record FirstUsableOutputClassifier := {
  fu_decoder : SseDecoder;
  fu_validator : Aggregation;
  fu_ready : bool
}.

Definition FirstUsableOutputClassifier_new (protocol : UpstreamProtocol) : FirstUsableOutputClassifier :=
  {| fu_decoder := SseDecoder_new; fu_validator := Aggregation_new protocol; fu_ready := false |}.

Definition no_semantic_event : ProtocolError :=
  invalid_stream Incomplete "stream ended before the first semantic event".
Definition no_usable_output : ProtocolError :=
  invalid_stream Incomplete "stream ended before the first usable output".

Section Classifiers.
  Variable parse_json : string -> option Value.

(** [None] is a panic of the decoder, here and below. *)
Definition classify_next (self : FirstSemanticEventClassifier)
    : option (FirstSemanticEventClassifier * result FirstSemanticEventResult ProtocolError) :=
  '(decoder, next) ← next_event (fs_decoder self);
  let self := {| self with fs_decoder := decoder |} in
  match next with
  | Err error => Some (self, Err error)
  | Ok None => Some (self, Ok SemanticPending)
  | Ok (Some event) =>
      let '(validator, processed) := process_event parse_json (fs_validator self) event in
      let self := {| self with fs_validator := validator |} in
      match processed with
      | Err error => Some (self, Err error)
      | Ok _ => Some ({| self with fs_ready := true |}, Ok SemanticReady)
      end
  end.

Definition semantic_push (self : FirstSemanticEventClassifier) (chunk : byte_string)
    : option (FirstSemanticEventClassifier * result FirstSemanticEventResult ProtocolError) :=
  if fs_ready self then Some (self, Ok SemanticReady)
  else
    '(decoder, appended) ← append (fs_decoder self) chunk;
    let self := {| self with fs_decoder := decoder |} in
    match appended with
    | Err error => Some (self, Err error)
    | Ok _ => classify_next self
    end.

Definition semantic_finish (self : FirstSemanticEventClassifier)
    : option (result FirstSemanticEventResult ProtocolError) :=
  if fs_ready self then Some (Ok SemanticReady)
  else
    '(_, classified) ← classify_next {| self with fs_decoder := decoder_finish (fs_decoder self) |};
    Some match classified with
         | Err error => Err error
         | Ok SemanticReady => Ok SemanticReady
         | Ok SemanticPending => Err no_semantic_event
         end.

Context {T : Type} (is_usable : T -> SseEvent -> T * bool).

(** The loop of [classify_available]; [None] is too little fuel or a panic. *)
Fixpoint classify_loop (fuel : nat) (self : FirstUsableOutputClassifier) (t : T)
    : option (FirstUsableOutputClassifier * T * result FirstUsableOutputResult ProtocolError) :=
  match fuel with
  | O => None
  | S fuel =>
      '(decoder, next) ← next_event (fu_decoder self);
      let self := {| self with fu_decoder := decoder |} in
      match next with
      | Err error => Some (self, t, Err error)
      | Ok None => Some (self, t, Ok UsablePending)
      | Ok (Some event) =>
          let '(validator, processed) := process_event parse_json (fu_validator self) event in
          let self := {| self with fu_validator := validator |} in
          match processed with
          | Err error => Some (self, t, Err error)
          | Ok _ =>
              let '(t, usable) := is_usable t event in
              if usable then Some ({| self with fu_ready := true |}, t, Ok UsableReady)
              else if is_some (as_complete validator) then Some (self, t, Ok CompleteWithoutOutput)
              else classify_loop fuel self t
          end
      end
  end.

Definition classify_available (self : FirstUsableOutputClassifier) (t : T)
    : option (FirstUsableOutputClassifier * T * result FirstUsableOutputResult ProtocolError) :=
  classify_loop (S (S (length (sd_buffer (fu_decoder self))))) self t.

Definition usable_push (self : FirstUsableOutputClassifier) (t : T) (chunk : byte_string)
    : option (FirstUsableOutputClassifier * T * result FirstUsableOutputResult ProtocolError) :=
  if fu_ready self then Some (self, t, Ok UsableReady)
  else
    '(decoder, appended) ← append (fu_decoder self) chunk;
    let self := {| self with fu_decoder := decoder |} in
    match appended with
    | Err error => Some (self, t, Err error)
    | Ok _ => classify_available self t
    end.

Definition usable_finish (self : FirstUsableOutputClassifier) (t : T)
    : option (T * result FirstUsableOutputResult ProtocolError) :=
  if fu_ready self then Some (t, Ok UsableReady)
  else
    '(_, t, classified) ← classify_available {| self with fu_decoder := decoder_finish (fu_decoder self) |} t;
    Some (t, match classified with
             | Ok UsablePending => Err no_usable_output
             | classified => classified
             end).

(** The loop of [prefetch_first_usable_output] over the chunks that arrive: it stops at
    the first answer that is not [Pending]. *)
Fixpoint prefetch_chunks (self : FirstUsableOutputClassifier) (t : T) (chunks : list byte_string)
    : option (T * result FirstUsableOutputResult ProtocolError) :=
  match chunks with
  | [] => usable_finish self t
  | chunk :: chunks =>
      '(self, t, pushed) ← usable_push self t chunk;
      match pushed with
      | Ok UsablePending => prefetch_chunks self t chunks
      | _ => Some (t, pushed)
      end
  end.

Definition prefetch_first_usable_output (protocol : UpstreamProtocol) (t : T) (chunks : list byte_string)
    : option (T * result FirstUsableOutputResult ProtocolError) :=
  prefetch_chunks (FirstUsableOutputClassifier_new protocol) t chunks.

(** ** The reference

    The events of the whole text in order, up to the one that decides. *)

(** Why the reading stops. *)
Inductive prefetch_stop :=
| Failed (error : ProtocolError)
| FoundUsable
| FoundComplete.

#[local] Instance prefetch_stop_from : FromProtocol prefetch_stop := Failed.

Definition classify_event (acc : Aggregation * T) (event : SseEvent)
    : (Aggregation * T) * result unit prefetch_stop :=
  let '(validator, t) := acc in
  let '(validator, processed) := process_event parse_json validator event in
  match processed with
  | Err error => ((validator, t), Err (Failed error))
  | Ok _ =>
      let '(t, usable) := is_usable t event in
      if usable then ((validator, t), Err FoundUsable)
      else if is_some (as_complete validator) then ((validator, t), Err FoundComplete)
      else ((validator, t), Ok tt)
  end.

Definition verdict_of (processed : result unit prefetch_stop) (pending : result FirstUsableOutputResult ProtocolError)
    : result FirstUsableOutputResult ProtocolError :=
  match processed with
  | Err (Failed error) => Err error
  | Err FoundUsable => Ok UsableReady
  | Err FoundComplete => Ok CompleteWithoutOutput
  | Ok _ => pending
  end.

Definition prefetch_text (protocol : UpstreamProtocol) (t : T) (l : byte_string)
    : T * result FirstUsableOutputResult ProtocolError :=
  let '((_, t), processed) := process_text classify_event (Aggregation_new protocol, t) l in
  (t, verdict_of processed (Err no_usable_output)).

End Classifiers.

Definition classify_prefetch_payload (parse_json : string -> option Value) (endpoint : EndpointKind) (now : Instant)
    (commit_tracker : StreamCommitTracker) (event : SseEvent) : StreamCommitTracker * bool :=
  let payload := trim (ev_data event) in
  if str_is_empty payload || String.eqb payload "[DONE]" then (commit_tracker, false)
  else match parse_json payload with
  | Some value =>
      (observe_json commit_tracker endpoint value now, stream_event_has_usable_output value)
  | None => (commit_tracker, false)
  end.

(** ** Facts: the loop is a drain *)

Section Prefetched.
  Variable parse_json : string -> option Value.
  Context {T : Type} (is_usable : T -> SseEvent -> T * bool).
  #[local] Existing Instance prefetch_stop_from.
  #[local] Notation process := (classify_event parse_json is_usable).

(** The end of a loop, read as a verdict. *)
Definition same_loop (self : FirstUsableOutputClassifier)
    (looped : option (FirstUsableOutputClassifier * T * result FirstUsableOutputResult ProtocolError))
    (drained : option (SseDecoder * (Aggregation * T) * result unit prefetch_stop)) : Prop :=
  match drained with
  | None => looped = None
  | Some (decoder, (validator, t), processed) =>
      exists ready, looped =
        Some ({| fu_decoder := decoder; fu_validator := validator; fu_ready := ready |}, t,
              verdict_of processed (Ok UsablePending)) /\
        (processed = Ok tt -> ready = fu_ready self)
  end.

Lemma classify_loop_drain fuel : forall self t,
  same_loop self (classify_loop parse_json is_usable fuel self t)
    (drain_loop process fuel (fu_decoder self) (fu_validator self, t)).
Proof.
  induction fuel as [|fuel IH]; intros self t; [done|]. cbn [classify_loop drain_loop].
  destruct (next_event (fu_decoder self)) as [[decoder [[event|]|error]]|]; simpl; [|by eexists|by eexists|done].
  destruct (process_event parse_json (fu_validator self) event) as [validator [[]|error]]; [|by eexists].
  destruct (is_usable t event) as [t' []]; [by eexists|]. destruct (is_some (as_complete validator)); [by eexists|].
  apply (IH {| fu_decoder := decoder; fu_validator := validator; fu_ready := fu_ready self |}).
Qed.

#[local] Arguments classify_loop : simpl never.
#[local] Arguments drain_loop : simpl never.

(** The loop over the chunks is a feed, and then a drain of what is left. *)
Lemma prefetch_chunks_feed chunks : forall self t,
  fu_ready self = false ->
  prefetch_chunks parse_json is_usable self t chunks =
    ('(decoder, acc, fed) ← feed process (fu_decoder self) (fu_validator self, t) chunks;
     match fed with
     | Err stop => Some (acc.2, verdict_of (Err stop) (Ok UsablePending))
     | Ok _ =>
         '(_, acc, drained) ← drain process (decoder_finish decoder) acc;
         Some (acc.2, verdict_of drained (Err no_usable_output))
     end).
Proof.
  induction chunks as [|chunk chunks IH]; intros self t Hready; cbn [prefetch_chunks feed].
  - unfold usable_finish. rewrite Hready. simpl. unfold classify_available, drain.
    pose proof (classify_loop_drain (S (S (length (sd_buffer (fu_decoder self)))))
      {| self with fu_decoder := decoder_finish (fu_decoder self) |} t) as Hsame.
    simpl in Hsame |- *. rewrite Hready in Hsame.
    destruct (drain_loop _ _ _ _) as [[[d [v t']] r]|]; [|by rewrite Hsame].
    destruct Hsame as (ready & -> & _). simpl. by destruct r as [[]|[]].
  - unfold usable_push. rewrite Hready. destruct (append (fu_decoder self) chunk) as [[d [[]|error]]|]; [|done..]. simpl.
    unfold classify_available, drain.
    pose proof (classify_loop_drain (S (S (length (sd_buffer d)))) {| self with fu_decoder := d |} t) as Hsame.
    simpl in Hsame |- *. rewrite Hready in Hsame.
    destruct (drain_loop _ _ _ _) as [[[d' [v t']] r]|]; [|by rewrite Hsame].
    destruct Hsame as (ready & -> & Hr). simpl. destruct r as [[]|[]]; simpl; [|done..].
    rewrite Hr by done. by apply (IH {| fu_decoder := d'; fu_validator := v; fu_ready := false |}).
Qed.

End Prefetched.

(** The verdict on the start of a stream is that of its text. In whatever chunks a
    response within the limit comes, it is held back exactly until the first event
    that decides: usable output, a terminal event without it, an error, or the end;
    the same events are shown to the closure, in order, and nothing panics. *)
Theorem prefetch_ignores_chunks {T} parse_json (is_usable : T -> SseEvent -> T * bool) protocol t chunks :
  Z.of_nat (length (concat chunks)) <= MAX_STREAM_AGGREGATE_TOTAL_BYTES ->
  prefetch_first_usable_output parse_json is_usable protocol t chunks =
    Some (prefetch_text parse_json is_usable protocol t (concat chunks)).
Proof.
  intros Ht. unfold prefetch_first_usable_output, prefetch_text. rewrite prefetch_chunks_feed by done.
  pose proof (decode_stream_text (from := prefetch_stop_from) (classify_event parse_json is_usable)
    (Aggregation_new protocol, t) chunks Ht) as Hdecode.
  unfold decode_stream in Hdecode. simpl. destruct (feed _ _ _ _) as [[[d acc] [[]|stop]]|]; simpl in *; [| |done].
  - destruct (drain _ _ _) as [[[d' acc'] r]|]; simpl in *; [|done]. injection Hdecode as <-. by destruct acc'.
  - injection Hdecode as <-. destruct acc. by destruct stop.
Qed.

(** ** Usable output reaches the response

    A delta in the shapes that the aggregator reads: the texts are strings, and a
    function call is an object. *)

Definition text_or_absent (value : option Value) : bool :=
  match value with Some (JString _) | Some JNull | None => true | _ => false end.

Definition object_or_absent (value : option Value) : bool :=
  match value with Some (JObject _) | Some JNull | None => true | _ => false end.

Definition plain_delta (delta : Value) : bool :=
  text_or_absent (get delta "refusal") && text_or_absent (get delta "reasoning_content")
  && object_or_absent (get delta "function_call")
  && match get delta "tool_calls" with Some (JArray _) | Some JNull | None => true | _ => false end.

Definition plain_chat_event (event : Value) : bool :=
  forallb (fun choice => is_none_or plain_delta (or_else (get choice "delta") (get choice "message")))
    (default [] (get_array event "choices")).

(** A choice that says something. *)
Definition useful (state : ChatChoiceState) : bool :=
  negb (str_is_empty (ch_content state)) || negb (str_is_empty (ch_refusal state))
  || negb (str_is_empty (ch_reasoning_content state)) || negb (bool_decide (ch_tool_calls state = ∅))
  || is_some (ch_function_call state).

Lemma stream_text_not_empty value :
  forall text, stream_text value = Ok text -> value_has_non_empty_text value = true -> str_is_empty text = false.
Proof.
  induction value as [|b|n|s|parts IH|fields IH] using Value_nested_ind; intros text; simpl; try done.
  - intros [= <-] Hs. by apply negb_true_iff in Hs.
  - revert text. induction IH as [|part parts Hpart Hparts IH2]; intros text; simpl; [done|].
    destruct (stream_text part) as [t|] eqn:Ht; [|done].
    match goal with |- match ?rest with Ok _ => _ | Err _ => _ end = _ -> _ => destruct rest as [r|] eqn:Hr; [|done] end.
    intros [= <-]. rewrite append_empty. intros [Hp|Hp]%orb_true_iff.
    + by rewrite (Hpart t eq_refl Hp).
    + by rewrite (IH2 r eq_refl Hp), andb_false_r.
  - unfold non_empty_str. destruct (map_get fields "text") as [[]|]; simpl; try done.
    intros [= <-] Hs. by apply negb_true_iff in Hs.
Qed.

(** What applying a delta without an error says about its content and function call. *)
Lemma apply_delta_rest state fields state' :
  apply_delta state fields = (state', Ok tt) ->
  is_some (ch_function_call state') =
    is_some (ch_function_call state) || is_some (v ← get (JObject fields) "function_call"; as_object v) /\
  match get_non_null (JObject fields) "content" with
  | Some content => exists text, stream_text content = Ok text
  | None => True
  end.
Proof.
  unfold apply_delta, apply_content. set (value := JObject fields).
  generalize (v ← get value "function_call"; as_object v). intros function.
  assert (exists s1, (match get_str value "role" with Some role => {| state with ch_role := Some role |} | None => state end)
    = s1 /\ ch_function_call s1 = ch_function_call state) as (s1 & -> & <-) by (destruct (get_str value "role"); by eexists).
  destruct (get_non_null value "content") as [content|]; [destruct (stream_text content); [|done]|];
    destruct (get_array value "tool_calls") as [calls|]; simpl;
    destruct (get_str value "refusal"), (get_str value "reasoning_content"); simpl;
    try (destruct (apply_tool_calls _ 0 calls) as [states [[]|]]; [|done]);
    destruct function; intros [= <-]; simpl; (split; [by rewrite ?orb_true_r, ?orb_false_r|eauto]).
Qed.

Lemma apply_tool_calls_some tool_calls : forall calls fallback calls',
  apply_tool_calls calls fallback tool_calls = (calls', Ok tt) -> calls' = ∅ -> calls = ∅ /\ tool_calls = [].
Proof.
  induction tool_calls as [|call tool_calls IH]; intros calls fallback calls'; simpl; [by intros [= <-]|].
  destruct (as_object call) as [fields|]; [|done]. intros Happ Hempty.
  destruct (IH _ _ _ Happ Hempty) as [Hins _]. by apply insert_non_empty in Hins.
Qed.

Lemma text_of_plain delta field :
  text_or_absent (get delta field) = true -> has_text (get delta field) = true ->
  str_is_empty (default "" (get_str delta field)) = false.
Proof.
  unfold has_text, get_str. destruct (get delta field) as [[]|]; simpl; try done. by intros _ ?%negb_true_iff.
Qed.

Lemma usable_delta_useful state fields state' :
  apply_delta state fields = (state', Ok tt) -> plain_delta (JObject fields) = true ->
  useful state || chat_message_has_usable_output (JObject fields) = true -> useful state' = true.
Proof.
  intros Happ Hplain Huse. destruct (apply_delta_inv _ _ _ Happ) as (Hc & Hr & Hrc & Htc & _).
  destruct (apply_delta_rest _ _ _ Happ) as [Hf Hcontent]. set (delta := JObject fields) in *.
  unfold plain_delta in Hplain. apply andb_true_iff in Hplain as [[[Hp1 Hp2]%andb_true_iff Hp3]%andb_true_iff Hp4].
  unfold useful. rewrite Hc, Hr, Hrc, Hf, !append_empty. apply not_false_iff_true. intros Hnone.
  rewrite !orb_false_iff, !negb_false_iff, !andb_true_iff in Hnone.
  destruct Hnone as [[[[[Hc1 Hc2] [Hr1 Hr2]] [Hrc1 Hrc2]] Ht] [Hf1 Hf2]].
  apply bool_decide_eq_true in Ht. destruct (apply_tool_calls_some _ _ _ _ Htc Ht) as [Ht1 Ht2].
  revert Huse. unfold useful. rewrite Hc1, Hr1, Hrc1, Hf1, Ht1. rewrite bool_decide_eq_true_2 by done. simpl.
  unfold chat_message_has_usable_output. rewrite !orb_true_iff. intros [[[[H|H]|H]|H]|H].
  - unfold content_delta, get_non_null in *. fold delta in Hc2. destruct (get delta "content") as [content|]; [|done].
    simpl in *. destruct (is_null content) eqn:Hnull; simpl in *; [by destruct content|].
    destruct Hcontent as [text Htext]. rewrite Htext in Hc2. by rewrite (stream_text_not_empty _ _ Htext H) in Hc2.
  - unfold text_delta in Hr2. fold delta in Hr2. by rewrite (text_of_plain _ _ Hp1 H) in Hr2.
  - unfold text_delta in Hrc2. fold delta in Hrc2. by rewrite (text_of_plain _ _ Hp2 H) in Hrc2.
  - revert H Ht2. unfold non_empty_array, tool_calls_of. fold delta. unfold get_array. destruct (get delta "tool_calls") as [[]|]; simpl; try done. by destruct values.
  - revert H Hf2 Hp3. destruct (get delta "function_call") as [[]|]; done.
Qed.

(** ** Facts: the choices of a stream *)

Lemma apply_choice_useful state fields state' :
  apply_choice state fields = (state', Ok tt) ->
  is_none_or plain_delta (or_else (get (JObject fields) "delta") (get (JObject fields) "message")) = true ->
  useful state || is_some_and chat_message_has_usable_output
    (or_else (get (JObject fields) "delta") (get (JObject fields) "message")) = true ->
  useful state' = true.
Proof.
  unfold apply_choice. destruct (or_else _ _) as [delta|]; simpl.
  - intros Happ Hplain Huse.
    assert (exists s, useful s = true /\ useful state' = useful s) as (s & Hs & ->); [|done].
    destruct (as_object delta) as [object|] eqn:Hobj.
    + destruct (apply_delta state object) as [s [[]|]] eqn:Hd; [|done]. exists s. destruct delta; try done. injection Hobj as <-.
      split; [by eapply usable_delta_useful|]. by destruct (get_non_null _ "finish_reason"), (get_non_null _ "logprobs"); simplify_eq.
    + exists state. split; [by destruct delta; rewrite ?orb_false_r in Huse|].
      by destruct (get_non_null _ "finish_reason"), (get_non_null _ "logprobs"); simplify_eq.
  - rewrite orb_false_r. intros Happ _ Huse. rewrite <- Huse.
    by destruct (get_non_null _ "finish_reason"), (get_non_null _ "logprobs"); simplify_eq.
Qed.

Definition some_useful (states : gmap Z ChatChoiceState) : Prop :=
  exists index state, states !! index = Some state /\ useful state = true.

Lemma apply_choices_useful choices : forall states fallback states',
  apply_choices states fallback choices = (states', Ok tt) ->
  forallb (fun choice => is_none_or plain_delta (or_else (get choice "delta") (get choice "message"))) choices = true ->
  some_useful states \/
  existsb (fun choice =>
    is_some_and chat_message_has_usable_output (or_else (get choice "delta") (get choice "message"))) choices = true ->
  some_useful states'.
Proof.
  induction choices as [|choice choices IH]; intros states fallback states'; cbn [apply_choices forallb existsb].
  { intros [= <-] _ [?|?]; done. }
  destruct (as_object choice) as [fields|] eqn:Hobj; [|done]. destruct choice; try done. injection Hobj as ->.
  destruct (apply_choice _ fields) as [state [[]|]] eqn:Hc; [|done]. intros Hrest [Hp Hps]%andb_true_iff Huse.
  apply (IH _ _ _ Hrest Hps). rewrite orb_true_iff in Huse.
  assert (useful (default ChatChoiceState_default (states !! entry_index fields fallback)) ||
    is_some_and chat_message_has_usable_output (or_else (get (JObject fields) "delta") (get (JObject fields) "message")) = true ->
    some_useful (<[entry_index fields fallback := state]> states)) as Hnew.
  { intros Hu. exists (entry_index fields fallback), state. split; [by rewrite lookup_insert_eq|]. by eapply apply_choice_useful. }
  destruct Huse as [(i & s & Hi & Hs)|[Hu|Hu]]; [|left; apply Hnew; by rewrite Hu, orb_true_r|by right].
  left. destruct (decide (i = entry_index fields fallback)) as [->|Hne].
  - apply Hnew. rewrite Hi. simpl. by rewrite Hs.
  - exists i, s. by rewrite lookup_insert_ne.
Qed.

Lemma chat_apply_events_useful events : forall self self',
  chat_apply_events self events = (self', Ok tt) -> forallb plain_chat_event events = true ->
  some_useful (ca_choices self) \/ existsb chat_stream_event_has_usable_output events = true ->
  some_useful (ca_choices self').
Proof.
  induction events as [|event events IH]; intros self self'; cbn [chat_apply_events forallb existsb].
  { intros [= <-] _ [?|?]; done. }
  destruct (chat_apply_event self event) as [s [[]|]] eqn:He; [|done]. intros Hrest [Hp Hps]%andb_true_iff Huse.
  apply (IH _ _ Hrest Hps). rewrite orb_true_iff in Huse. unfold chat_apply_event in He. unfold plain_chat_event in Hp.
  unfold chat_stream_event_has_usable_output in Huse. destruct (get_array event "choices") as [choices|]; simpl in *.
  - destruct (apply_choices _ 0 choices) as [states [[]|]] eqn:Hc; [|done]. injection He as <-. simpl.
    destruct Huse as [Hu|[Hu|Hu]]; [left|left|by right]; eapply apply_choices_useful; eauto.
  - injection He as <-. simpl. naive_solver.
Qed.

Lemma ordered_entries_not_empty {V} (m : gmap Z V) : m <> ∅ -> is_empty (ordered_entries m) = false.
Proof.
  intros (i & v & Hi)%map_choose. apply (elem_not_empty _ (i, v)). by apply ordered_entries_elem.
Qed.

Lemma useful_message state :
  useful state = true -> chat_message_has_usable_output (JObject (choice_message state)) = true.
Proof.
  destruct (choice_message_texts state) as (Hc & Hr & Hrc & Htc & _).
  unfold chat_message_has_usable_output, useful. simpl get. rewrite Hc, Hr, Hrc, Htc, !orb_true_iff.
  unfold text_or_null, optional_text, has_text. intros [[[[H|H]|H]|H]|H].
  - destruct (str_is_empty (ch_content state)) eqn:He; [done|]. simpl. rewrite He. auto.
  - destruct (str_is_empty (ch_refusal state)) eqn:He; [done|]. simpl. rewrite He. auto.
  - destruct (str_is_empty (ch_reasoning_content state)) eqn:He; [done|]. simpl. rewrite He. auto.
  - destruct (bool_decide (ch_tool_calls state = ∅)) eqn:He; [done|]. left. right. simpl.
    apply bool_decide_eq_false in He. pose proof (ordered_entries_not_empty _ He) as Hne.
    by destruct (ordered_entries (ch_tool_calls state)).
  - right. unfold choice_message. destruct (ch_function_call state) as [f|]; [|done]. by rewrite map_get_insert.
Qed.

(** Usable output of a chat stream in the shapes that the aggregator reads is not lost. If
    some event of such a stream counts as usable output, which ends the holding back of the
    stream, then the response aggregated from the events does not count as an empty one.
    In other shapes it can be: an array under [reasoning_content] or [refusal] counts as
    usable output and is dropped by the aggregator. *)
Theorem usable_stream_not_empty events chat response :
  chat_apply_events ChatAggregateState_default events = (chat, Ok tt) ->
  chat_build_response chat = Ok response ->
  forallb plain_chat_event events = true ->
  existsb chat_stream_event_has_usable_output events = true ->
  is_empty_success_response response = false.
Proof.
  intros Happ Hbuild Hplain Huse.
  destruct (chat_apply_events_useful events _ _ Happ Hplain) as (index & state & Hi & Hs); [by right|].
  unfold is_empty_success_response. destruct (_ || _); [done|].
  assert (get_array response "choices" =
    Some ((fun '(index, choice) => choice_build index choice) <$> ordered_entries (ca_choices chat))) as ->.
  { unfold chat_build_response in Hbuild. destruct (bool_decide _); [done|]. injection Hbuild as <-.
    unfold get_array, insert_optional. simpl.
    by destruct (ca_usage chat), (ca_system_fingerprint chat), (ca_service_tier chat); rewrite ?map_get_insert. }
  apply negb_false_iff, existsb_elem. exists (choice_build index state). split.
  - apply list_elem_of_fmap. exists (index, state). split; [done|]. by apply ordered_entries_elem.
  - change (get (choice_build index state) "message") with (Some (JObject (choice_message state))). by apply useful_message.
Qed.

(** ** Witnesses *)

Lemma prefetch_ignores_chunks_witness :
  exists tracker,
    prefetch_first_usable_output sample_parse (classify_prefetch_payload sample_parse EndpointChatCompletions 7)
      UpChatCompletions StreamCommitTracker_default (byte_by_byte sample_stream) = Some (tracker, Ok UsableReady) /\
    can_replay tracker = false.
Proof.
  eexists. rewrite (prefetch_ignores_chunks sample_parse (classify_prefetch_payload sample_parse EndpointChatCompletions 7)
    UpChatCompletions StreamCommitTracker_default (byte_by_byte sample_stream));
    rewrite (concat_byte_by_byte sample_stream); [|vm_compute; discriminate].
  split; [vm_compute; reflexivity|reflexivity].
Defined.

Lemma usable_stream_not_empty_witness : is_empty_success_response sample_response = false.
Proof.
  apply (usable_stream_not_empty [first_event; second_event] sample_chat sample_response
    sample_chat_applied sample_response_built); vm_compute; reflexivity.
Defined.
