(* ===== verification/UpstreamLeases.v ===== *)
(** * Leases of upstream accounts

    The local gate in front of every upstream account, [src/src/state.rs]: the table of
    leases with its sweeps and statistics ([UpstreamLeaseTable]), the reservation of a
    request or of a hedge, renewal and release, the queue of requests that wait for
    a slot, and the cooldown that upstream feedback sets.

    The table sits behind one mutex, and every critical section is one function. A
    reservation also holds the lock of the quota windows from beginning to end; a hedge
    looks at the table twice, and what others do to it in between is a parameter. The
    clock, in nanoseconds for leases and in seconds for quotas, and the fresh UUIDs are
    arguments. Only the local backend is modelled; the counters are not bounded. The
    cost of a request is always 1.0, so that a sum of costs is the number of events. *)

From S2P Require Import Prelude RouteTypes AccountConcurrency.

Local Open Scope Z_scope.

(** ** Data *)

Inductive UpstreamLeaseKind := Streaming | Unary.

Definition LEASE_HOLD_SAMPLE_SIZE : nat := 32.

Record UpstreamLeaseRecord := {
  ur_expires_at : Instant;
  ur_last_renewed_at : Instant;
  ur_reserved_at : Instant;
  ur_kind : UpstreamLeaseKind
}.

Definition UpstreamLeaseRecord_new (now : Instant) (ttl : Duration) (kind : UpstreamLeaseKind) : UpstreamLeaseRecord :=
  {| ur_expires_at := now + ttl; ur_last_renewed_at := now; ur_reserved_at := now; ur_kind := kind |}.

Inductive StreamDecodeCounter := SseBadFrameSkipped | SseParseError | TransportDecodeError.

Abbreviation lease_map := (gmap string UpstreamLeaseRecord).

Record UpstreamLeaseTable := {
  lt_leases : gmap AccountConcurrencyKey lease_map;
  lt_hold_samples : gmap AccountConcurrencyKey (list Duration);
  lt_leaked_reclaimed_total : gmap string Z;
  lt_stale_reclaimed_total : gmap string Z;
  lt_capacity_reject_total : gmap string Z;
  lt_sse_bad_frame_skipped_total : gmap string Z;
  lt_sse_parse_error_total : gmap string Z;
  lt_transport_decode_error_total : gmap string Z
}.

Definition UpstreamLeaseTable_default : UpstreamLeaseTable :=
  {| lt_leases := ∅; lt_hold_samples := ∅; lt_leaked_reclaimed_total := ∅; lt_stale_reclaimed_total := ∅;
     lt_capacity_reject_total := ∅; lt_sse_bad_frame_skipped_total := ∅; lt_sse_parse_error_total := ∅;
     lt_transport_decode_error_total := ∅ |}.

(** The fields of [AppConfig] that the gate reads. *)
Record LeaseConfig := {
  lc_upstream_lease_stale_after_ms : Z;
  lc_upstream_local_lease_ttl_seconds : Z;
  lc_upstream_concurrency_probe_delays_ms : list Z
}.

Definition stale_after (config : LeaseConfig) : Duration :=
  from_millis (Z.max 1 (lc_upstream_lease_stale_after_ms config)).

Definition lease_ttl (config : LeaseConfig) : Duration :=
  from_secs (Z.max 1 (lc_upstream_local_lease_ttl_seconds config)).

(** ** Reading the table *)

Definition values {K V} `{Countable K} (m : gmap K V) : list V := (map_to_list m).*2.

Definition account_lease_count (self : UpstreamLeaseTable) (account : AccountConcurrencyKey) : Z :=
  map_or 0 (fun leases : lease_map => Z.of_nat (size leases)) (lt_leases self !! account).

(** The lease maps of one upstream. *)
Definition upstream_leases (self : UpstreamLeaseTable) (upstream_id : string) : list lease_map :=
  values (filter (fun '(account, _) => ack_upstream_id account = upstream_id) (lt_leases self)).

Definition account_lease_count_for_upstream (self : UpstreamLeaseTable) (upstream_id : string) : Z :=
  sumZ ((fun leases : lease_map => Z.of_nat (size leases)) <$> upstream_leases self upstream_id).

Definition is_stale (stale_after : Duration) (now : Instant) (record : UpstreamLeaseRecord) : bool :=
  stale_after <? since now (ur_last_renewed_at record).

Definition stale_count (stale_after : Duration) (now : Instant) (leases : lease_map) : Z :=
  Z.of_nat (length (retain (is_stale stale_after now) (values leases))).

Definition account_stale_lease_count (self : UpstreamLeaseTable) (account : AccountConcurrencyKey)
    (stale_after : Duration) (now : Instant) : Z :=
  map_or 0 (stale_count stale_after now) (lt_leases self !! account).

Definition upstream_stale_lease_count (self : UpstreamLeaseTable) (upstream_id : string)
    (stale_after : Duration) (now : Instant) : Z :=
  sumZ (stale_count stale_after now <$> upstream_leases self upstream_id).

(** [max().unwrap_or(0)] of unsigned values. *)
Definition max_or_zero (l : list Z) : Z := foldr Z.max 0 l.

Definition upstream_oldest_lease_age_seconds (self : UpstreamLeaseTable) (upstream_id : string) (now : Instant) : Z :=
  max_or_zero ((fun record => as_secs (since now (ur_last_renewed_at record))) <$>
    mjoin (values <$> upstream_leases self upstream_id)).

Definition oldest_held_seconds (self : UpstreamLeaseTable) (account : AccountConcurrencyKey) (now : Instant) : Z :=
  map_or 0 (fun leases => max_or_zero ((fun record => as_secs (since now (ur_reserved_at record))) <$> values leases))
    (lt_leases self !! account).

(** The quantiles, of a list that is sorted in place. *)
Definition sorted_holds (holds : list Duration) : list Duration := sort_by Z.leb holds.

(** [((holds.len() as f64) * q).ceil()] for q of [percent] hundredths; the product of a
    length and 0.95 or 0.50 is rounded to the integer whenever the exact one is one. *)
Definition ceil_percent (percent : Z) (n : Z) : Z := (percent * n + 99) / 100.

Definition quantile (percent : Z) (holds : list Duration) : option Duration :=
  let index := ceil_percent percent (Z.of_nat (length holds)) in
  sorted_holds holds !! Z.to_nat (Z.min (sat_sub index 1) (Z.of_nat (length holds) - 1)).

Definition hold_p50_seconds (self : UpstreamLeaseTable) (account : AccountConcurrencyKey) : option Z :=
  holds ← lt_hold_samples self !! account;
  if Nat.ltb (length holds) 2 then None
  else hold ← sorted_holds holds !! (length holds / 2)%nat; Some (as_secs hold).

Definition hold_p95_seconds (self : UpstreamLeaseTable) (account : AccountConcurrencyKey) : option Z :=
  holds ← lt_hold_samples self !! account;
  if Nat.ltb (length holds) 2 then None else hold ← quantile 95 holds; Some (as_secs hold).

Definition upstream_holds (self : UpstreamLeaseTable) (upstream_id : string) : list Duration :=
  mjoin (values (filter (fun '(account, _) => ack_upstream_id account = upstream_id) (lt_hold_samples self))).

Definition upstream_hold_ms (percent : Z) (self : UpstreamLeaseTable) (upstream_id : string) : option Z :=
  let holds := upstream_holds self upstream_id in
  if Nat.ltb (length holds) 2 then None else hold ← quantile percent holds; Some (as_millis_u64 hold).

Definition upstream_hold_p50_ms := upstream_hold_ms 50.
Definition upstream_hold_p95_ms := upstream_hold_ms 95.

(** A counter of an upstream. *)
Definition total (totals : gmap string Z) (upstream_id : string) : Z := default 0 (totals !! upstream_id).

Definition bump (totals : gmap string Z) (upstream_id : string) : gmap string Z :=
  <[upstream_id := total totals upstream_id + 1]> totals.

(** ** Changing the table *)

Definition remove_leases_for_upstream (self : UpstreamLeaseTable) (upstream_id : string) (key_fingerprint : option string)
    : UpstreamLeaseTable * Z :=
  let kept '(account, _) :=
    ack_upstream_id account <> upstream_id \/ is_some_and (fun fp => negb (String.eqb fp (ack_key_fingerprint account))) key_fingerprint = true in
  ({| self with lt_leases := filter kept (lt_leases self) |},
   sumZ ((fun leases : lease_map => Z.of_nat (size leases)) <$>
     values (filter (fun entry => ~ kept entry) (lt_leases self)))).

Definition lease_insert (self : UpstreamLeaseTable) (account : AccountConcurrencyKey) (lease_id : string)
    (record : UpstreamLeaseRecord) : UpstreamLeaseTable :=
  {| self with lt_leases :=
       <[account := <[lease_id := record]> (default ∅ (lt_leases self !! account))]> (lt_leases self) |}.

Definition push_sample (samples : list Duration) (hold : Duration) : list Duration :=
  (if Nat.leb LEASE_HOLD_SAMPLE_SIZE (length samples) then tail samples else samples) ++ [hold].

(** A map of leases that has become empty leaves the table. *)
Definition put_leases (leases : gmap AccountConcurrencyKey lease_map) (account : AccountConcurrencyKey)
    (held : lease_map) : gmap AccountConcurrencyKey lease_map :=
  if bool_decide (held = ∅) then delete account leases else <[account := held]> leases.

Definition lease_remove (self : UpstreamLeaseTable) (account : AccountConcurrencyKey) (lease_id : string) (now : Instant)
    : UpstreamLeaseTable * bool :=
  match (held ← lt_leases self !! account; record ← held !! lease_id; Some (held, record)) with
  | None => (self, false)
  | Some (held, record) =>
      let hold := since now (ur_reserved_at record) in
      let samples := push_sample (default [] (lt_hold_samples self !! account)) hold in
      ({| self with
          lt_leases := put_leases (lt_leases self) account (delete lease_id held);
          lt_hold_samples := <[account := samples]> (lt_hold_samples self) |}, true)
  end.

(** A change of one record, if the lease is held. *)
Definition update_lease (self : UpstreamLeaseTable) (account : AccountConcurrencyKey) (lease_id : string)
    (change : UpstreamLeaseRecord -> UpstreamLeaseRecord) : UpstreamLeaseTable :=
  match (held ← lt_leases self !! account; record ← held !! lease_id; Some (held, record)) with
  | None => self
  | Some (held, record) =>
      {| self with lt_leases := <[account := <[lease_id := change record]> held]> (lt_leases self) |}
  end.

Definition lease_renew (self : UpstreamLeaseTable) (account : AccountConcurrencyKey) (lease_id : string)
    (now : Instant) (ttl : Duration) : UpstreamLeaseTable :=
  update_lease self account lease_id
    (fun record => {| record with ur_expires_at := now + ttl; ur_last_renewed_at := now |}).

Definition mark_streaming (self : UpstreamLeaseTable) (account : AccountConcurrencyKey) (lease_id : string)
    : UpstreamLeaseTable * bool :=
  (update_lease self account lease_id (fun record => {| record with ur_kind := Streaming |}),
   is_some (held ← lt_leases self !! account; held !! lease_id)).

Definition table_remove_upstream (self : UpstreamLeaseTable) (upstream_id : string) : UpstreamLeaseTable :=
  {| self with
     lt_leases := filter (fun '(account, _) => ack_upstream_id account <> upstream_id) (lt_leases self);
     lt_leaked_reclaimed_total := delete upstream_id (lt_leaked_reclaimed_total self);
     lt_stale_reclaimed_total := delete upstream_id (lt_stale_reclaimed_total self) |}.

Definition record_stream_counter (self : UpstreamLeaseTable) (upstream_id : string) (counter : StreamDecodeCounter)
    : UpstreamLeaseTable :=
  match counter with
  | SseBadFrameSkipped =>
      {| self with lt_sse_bad_frame_skipped_total := bump (lt_sse_bad_frame_skipped_total self) upstream_id |}
  | SseParseError => {| self with lt_sse_parse_error_total := bump (lt_sse_parse_error_total self) upstream_id |}
  | TransportDecodeError =>
      {| self with lt_transport_decode_error_total := bump (lt_transport_decode_error_total self) upstream_id |}
  end.

Fixpoint record_upstream_stream_counter (self : UpstreamLeaseTable) (upstream_id : string)
    (counter : StreamDecodeCounter) (delta : nat) : UpstreamLeaseTable :=
  match delta with
  | O => self
  | S delta => record_upstream_stream_counter (record_stream_counter self upstream_id counter) upstream_id counter delta
  end.

(** ** The sweep *)

Definition lease_expired (now : Instant) (record : UpstreamLeaseRecord) : bool := ur_expires_at record <=? now.

(** A lease that has not expired, without a heartbeat for too long. *)
Definition lease_abandoned (config : LeaseConfig) (now : Instant) (record : UpstreamLeaseRecord) : bool :=
  negb (lease_expired now record) && is_stale (stale_after config) now record.

Definition lease_live (config : LeaseConfig) (now : Instant) (record : UpstreamLeaseRecord) : bool :=
  negb (lease_expired now record) && negb (is_stale (stale_after config) now record).

Definition count_records (f : UpstreamLeaseRecord -> bool) (leases : lease_map) : Z :=
  Z.of_nat (length (retain f (values leases))).

Definition add_total (f : UpstreamLeaseRecord -> bool) (totals : gmap string Z)
    (entry : AccountConcurrencyKey * lease_map) : gmap string Z :=
  let '(account, leases) := entry in
  let n := count_records f leases in
  if n =? 0 then totals else <[ack_upstream_id account := total totals (ack_upstream_id account) + n]> totals.

Definition keep_live (config : LeaseConfig) (now : Instant) (leases : lease_map) : lease_map :=
  filter (fun '(_, record) => lease_live config now record = true) leases.

Definition swept_leases (config : LeaseConfig) (now : Instant) (leases : gmap AccountConcurrencyKey lease_map)
    : gmap AccountConcurrencyKey lease_map :=
  filter (fun '(_, held) => held <> ∅) (keep_live config now <$> leases).

(** The accounts are visited in the order of the hash map, on which nothing depends. *)
Definition prune_expired_upstream_leases (table : UpstreamLeaseTable) (now : Instant) (config : LeaseConfig)
    : UpstreamLeaseTable * Z :=
  let accounts := map_to_list (lt_leases table) in
  ({| table with
      lt_leases := swept_leases config now (lt_leases table);
      lt_leaked_reclaimed_total := foldl (add_total (lease_expired now)) (lt_leaked_reclaimed_total table) accounts;
      lt_stale_reclaimed_total := foldl (add_total (lease_abandoned config now)) (lt_stale_reclaimed_total table) accounts |},
   sumZ ((fun '(_, leases) => count_records (lease_expired now) leases + count_records (lease_abandoned config now) leases)
     <$> accounts)).

(** [estimate_local_concurrency_retry_after_seconds]. *)
Definition estimate_retry_after_seconds (config : LeaseConfig) (table : UpstreamLeaseTable)
    (account : AccountConcurrencyKey) (now : Instant) : Z :=
  let probe_delay_secs :=
    map_or 1 (fun ms => Z.max 1 (ms / 1000)) (head (lc_upstream_concurrency_probe_delays_ms config)) in
  match hold_p50_seconds table account with
  | None => probe_delay_secs
  | Some p50_hold =>
      Z.max 1 (Z.max probe_delay_secs (sat_sub p50_hold (oldest_held_seconds table account now)))
  end.

(** ** Quotas *)

(** The event of a request, whose cost is 1.0. *)
Record QuotaEvent := { qe_created_at : Z }.

(** The events of a queue that the loop on its front leaves. *)
Fixpoint drop_while {A} (f : A -> bool) (l : list A) : list A :=
  match l with
  | x :: rest => if f x then drop_while f rest else l
  | [] => []
  end.

Definition prune_quota_events (events : list QuotaEvent) (now window_seconds : Z) : list QuotaEvent :=
  let window_start := sat_sub now (sat_sub window_seconds 1) in
  drop_while (fun event => qe_created_at event <? window_start) events.

Definition quota_event_cost (events : list QuotaEvent) : Z := Z.of_nat (length events).

Record UpstreamRuntimeState := {
  rt_minute_events : list QuotaEvent;
  rt_five_hour_events : list QuotaEvent;
  rt_cooldown_until : Z;
  rt_last_feedback_type : option string;
  rt_last_retry_after_seconds : option Z
}.

Definition UpstreamRuntimeState_default : UpstreamRuntimeState :=
  {| rt_minute_events := []; rt_five_hour_events := []; rt_cooldown_until := 0;
     rt_last_feedback_type := None; rt_last_retry_after_seconds := None |}.

(** The fields of an [UpstreamConfig] that the gate reads. *)
Record UpstreamLimits := {
  lim_id : string;
  lim_max_concurrency : Z;
  lim_request_quota_window_hours : Z;
  lim_requests_per_minute : Z;
  lim_request_quota_requests : Z
}.

Definition quota_window_seconds (upstream : UpstreamLimits) : Z :=
  sat_mul u64_max (Z.max 1 (lim_request_quota_window_hours upstream)) (60 * 60).

Inductive UpstreamAdmissionRejectionReason :=
| LocalConcurrency
| HedgeMinuteQuota
| HedgeWindowQuota.

Record UpstreamAdmissionError := {
  ue_message : string;
  ue_retry_after_seconds : Z;
  ue_reason : UpstreamAdmissionRejectionReason
}.

Definition UpstreamAdmissionError_new (reason : UpstreamAdmissionRejectionReason) (message : string)
    (retry_after_seconds : Z) : UpstreamAdmissionError :=
  {| ue_message := message; ue_retry_after_seconds := Z.max 1 retry_after_seconds; ue_reason := reason |}.

Record UpstreamRequestLease := {
  ul_account : AccountConcurrencyKey;
  ul_lease_id : string
}.

(** ** Reservations *)

(** The two parts of the state that a reservation locks. *)
Record UpstreamGate := {
  ug_runtime : gmap string UpstreamRuntimeState;
  ug_table : UpstreamLeaseTable
}.

Definition UpstreamGate_default : UpstreamGate := {| ug_runtime := ∅; ug_table := UpstreamLeaseTable_default |}.

Definition runtime_state (self : UpstreamGate) (upstream_id : string) : UpstreamRuntimeState :=
  default UpstreamRuntimeState_default (ug_runtime self !! upstream_id).

Definition put_runtime (self : UpstreamGate) (upstream_id : string) (state : UpstreamRuntimeState) : UpstreamGate :=
  {| self with ug_runtime := <[upstream_id := state]> (ug_runtime self) |}.

Definition prune_quotas (state : UpstreamRuntimeState) (window_seconds now : Z) : UpstreamRuntimeState :=
  {| state with
     rt_minute_events := prune_quota_events (rt_minute_events state) now 60;
     rt_five_hour_events := prune_quota_events (rt_five_hour_events state) now window_seconds |}.

Definition push_quota (state : UpstreamRuntimeState) (now : Z) : UpstreamRuntimeState :=
  {| state with
     rt_minute_events := rt_minute_events state ++ [{| qe_created_at := now |}];
     rt_five_hour_events := rt_five_hour_events state ++ [{| qe_created_at := now |}] |}.

Definition account_key (upstream_id key_fingerprint : string) : AccountConcurrencyKey :=
  {| ack_upstream_id := upstream_id; ack_key_fingerprint := key_fingerprint |}.

Definition at_capacity (upstream : UpstreamLimits) (table : UpstreamLeaseTable) (account : AccountConcurrencyKey) : bool :=
  Z.max 1 (lim_max_concurrency upstream) <=? account_lease_count table account.

Definition concurrency_full (config : LeaseConfig) (table : UpstreamLeaseTable) (account : AccountConcurrencyKey)
    (now_instant : Instant) (message : string) : UpstreamAdmissionError :=
  UpstreamAdmissionError_new LocalConcurrency message (estimate_retry_after_seconds config table account now_instant).

Definition try_reserve_upstream_account_request (config : LeaseConfig) (self : UpstreamGate) (upstream : UpstreamLimits)
    (key_fingerprint lease_id : string) (now_instant : Instant) (now : Z)
    : UpstreamGate * result UpstreamRequestLease UpstreamAdmissionError :=
  let account := account_key (lim_id upstream) key_fingerprint in
  let state := prune_quotas (runtime_state self (lim_id upstream)) (quota_window_seconds upstream) now in
  let self := put_runtime self (lim_id upstream) state in
  let '(table, _) := prune_expired_upstream_leases (ug_table self) now_instant config in
  if at_capacity upstream table account then
    ({| self with ug_table :=
          {| table with lt_capacity_reject_total := bump (lt_capacity_reject_total table) (lim_id upstream) |} |},
     Err (concurrency_full config table account now_instant "upstream request concurrency capacity is full"))
  else
    let record := UpstreamLeaseRecord_new now_instant (lease_ttl config) Unary in
    let self := {| self with ug_table := lease_insert table account lease_id record |} in
    (put_runtime self (lim_id upstream) (push_quota state now),
     Ok {| ul_account := account; ul_lease_id := lease_id |}).

(** [between] is what others do to the table between the two looks at it. *)
Definition try_reserve_upstream_account_hedge (config : LeaseConfig) (self : UpstreamGate) (upstream : UpstreamLimits)
    (key_fingerprint lease_id : string) (now_instant : Instant) (now : Z)
    (between : UpstreamLeaseTable -> UpstreamLeaseTable)
    : UpstreamGate * result UpstreamRequestLease UpstreamAdmissionError :=
  let account := account_key (lim_id upstream) key_fingerprint in
  let state := prune_quotas (runtime_state self (lim_id upstream)) (quota_window_seconds upstream) now in
  let self := put_runtime self (lim_id upstream) state in
  if at_capacity upstream (ug_table self) account then
    (self, Err (concurrency_full config (ug_table self) account now_instant "upstream hedge concurrency capacity is full"))
  else if (0 <? lim_requests_per_minute upstream)
          && (lim_requests_per_minute upstream <? quota_event_cost (rt_minute_events state) + 1) then
    (self, Err (UpstreamAdmissionError_new HedgeMinuteQuota "upstream hedge minute quota is exhausted" 1))
  else if (0 <? lim_request_quota_requests upstream)
          && (lim_request_quota_requests upstream <? quota_event_cost (rt_five_hour_events state) + 1) then
    (self, Err (UpstreamAdmissionError_new HedgeWindowQuota "upstream hedge request quota is exhausted" 1))
  else
    let '(table, _) := prune_expired_upstream_leases (between (ug_table self)) now_instant config in
    if at_capacity upstream table account then
      ({| self with ug_table := table |},
       Err (concurrency_full config table account now_instant "upstream hedge concurrency capacity is full"))
    else
      let record := UpstreamLeaseRecord_new now_instant (lease_ttl config) Unary in
      let self := {| self with ug_table := lease_insert table account lease_id record |} in
      (put_runtime self (lim_id upstream) (push_quota state now),
       Ok {| ul_account := account; ul_lease_id := lease_id |}).

(** ** Release and renewal *)

Inductive ReleaseState := ReleaseActive | ReleaseReleasing | Released.

(** [LeaseReleaseGuard::acquire]: the new state of the lease, and whether to release. *)
Definition LeaseReleaseGuard_acquire (state : ReleaseState) : ReleaseState * result bool unit :=
  match state with
  | ReleaseActive => (ReleaseReleasing, Ok true)
  | Released => (Released, Ok false)
  | ReleaseReleasing => (ReleaseReleasing, Err tt)
  end.

Definition release_upstream_request (table : UpstreamLeaseTable) (state : ReleaseState) (lease : UpstreamRequestLease)
    (now : Instant) : UpstreamLeaseTable * ReleaseState * result unit unit :=
  let '(state, guard) := LeaseReleaseGuard_acquire state in
  match guard with
  | Err error => (table, state, Err error)
  | Ok false => (table, state, Ok tt)
  | Ok true => ((lease_remove table (ul_account lease) (ul_lease_id lease) now).1, Released, Ok tt)
  end.

Definition renew_upstream_request (config : LeaseConfig) (table : UpstreamLeaseTable) (lease : UpstreamRequestLease)
    (now : Instant) : UpstreamLeaseTable :=
  let '(table, _) := prune_expired_upstream_leases table now config in
  lease_renew table (ul_account lease) (ul_lease_id lease) now (lease_ttl config).

Definition expire_upstream_request_lease_sync (table : UpstreamLeaseTable) (lease : UpstreamRequestLease) (now : Instant)
    : UpstreamLeaseTable * bool :=
  lease_remove table (ul_account lease) (ul_lease_id lease) now.

(** ** Cooldowns from feedback *)

Definition mark_upstream_cooldown (self : UpstreamGate) (upstream_id : string) (cooldown_seconds : Z)
    (feedback_type : string) (now : Z) : UpstreamGate :=
  let state := runtime_state self upstream_id in
  let cooldown_until := sat_add u64_max now (Z.max 1 cooldown_seconds) in
  put_runtime self upstream_id
    {| state with
       rt_cooldown_until := Z.max (rt_cooldown_until state) cooldown_until;
       rt_last_feedback_type := Some feedback_type;
       rt_last_retry_after_seconds := Some (Z.max 1 cooldown_seconds) |}.

Definition mark_upstream_rate_limited (self : UpstreamGate) (upstream_id : string) (retry_after_seconds now : Z) :=
  mark_upstream_cooldown self upstream_id retry_after_seconds "rate_limited" now.

Definition mark_upstream_concurrency_full (self : UpstreamGate) (upstream_id : string) (cooldown_ms now : Z) :=
  mark_upstream_cooldown self upstream_id (Z.max 1 (sat_add u64_max cooldown_ms 999 / 1000)) "concurrency_full" now.

(** The part of [mark_upstream_success] that the local backend keeps. *)
Definition clear_upstream_cooldown (self : UpstreamGate) (upstream_id : string) : UpstreamGate :=
  match ug_runtime self !! upstream_id with
  | Some state => put_runtime self upstream_id {| state with rt_cooldown_until := 0 |}
  | None => self
  end.

(** ** Snapshots *)

Record UpstreamRuntimeSnapshot := {
  sn_in_flight : Z;
  sn_minute_cost : Z;
  sn_five_hour_cost : Z;
  sn_cooldown_until : Z;
  sn_leaked_reclaimed_total : Z;
  sn_stale_reclaimed_total : Z;
  sn_stale_lease_count : Z;
  sn_oldest_lease_age_seconds : Z;
  sn_hold_p50_ms : option Z;
  sn_hold_p95_ms : option Z;
  sn_capacity_reject_total : Z;
  sn_sse_bad_frame_skipped_total : Z;
  sn_sse_parse_error_total : Z;
  sn_transport_decode_error_total : Z
}.

Definition is_in_cooldown (self : UpstreamRuntimeSnapshot) (now : Z) : bool := now <? sn_cooldown_until self.
Definition cooldown_remaining (self : UpstreamRuntimeSnapshot) (now : Z) : Z := sat_sub (sn_cooldown_until self) now.

(** What the loop of [upstream_runtime_snapshots] does for one upstream. *)
Definition upstream_runtime_snapshot (config : LeaseConfig) (self : UpstreamGate) (upstream_id : string)
    (window_seconds : option Z) (now : Z) (lease_now : Instant) : UpstreamGate * UpstreamRuntimeSnapshot :=
  let state := prune_quotas (runtime_state self upstream_id) (default (5 * 60 * 60) window_seconds) now in
  let self := put_runtime self upstream_id state in
  let stale_lease_count := upstream_stale_lease_count (ug_table self) upstream_id (stale_after config) lease_now in
  let oldest_lease_age_seconds := upstream_oldest_lease_age_seconds (ug_table self) upstream_id lease_now in
  let '(table, _) := prune_expired_upstream_leases (ug_table self) lease_now config in
  ({| self with ug_table := table |},
   {| sn_in_flight := Z.min u32_max (account_lease_count_for_upstream table upstream_id);
      sn_minute_cost := quota_event_cost (rt_minute_events state);
      sn_five_hour_cost := quota_event_cost (rt_five_hour_events state);
      sn_cooldown_until := rt_cooldown_until state;
      sn_leaked_reclaimed_total := total (lt_leaked_reclaimed_total table) upstream_id;
      sn_stale_reclaimed_total := total (lt_stale_reclaimed_total table) upstream_id;
      sn_stale_lease_count := Z.min u32_max stale_lease_count;
      sn_oldest_lease_age_seconds := oldest_lease_age_seconds;
      sn_hold_p50_ms := upstream_hold_p50_ms table upstream_id;
      sn_hold_p95_ms := upstream_hold_p95_ms table upstream_id;
      sn_capacity_reject_total := total (lt_capacity_reject_total table) upstream_id;
      sn_sse_bad_frame_skipped_total := total (lt_sse_bad_frame_skipped_total table) upstream_id;
      sn_sse_parse_error_total := total (lt_sse_parse_error_total table) upstream_id;
      sn_transport_decode_error_total := total (lt_transport_decode_error_total table) upstream_id |}).

(** The loop visits the upstreams in the order of the hash map; each has its own instant. *)
Fixpoint upstream_runtime_snapshots (config : LeaseConfig) (windows : gmap string Z) (self : UpstreamGate)
    (upstreams : list (string * Instant)) (now : Z) : UpstreamGate * list (string * UpstreamRuntimeSnapshot) :=
  match upstreams with
  | [] => (self, [])
  | (upstream_id, lease_now) :: upstreams =>
      let '(self, snapshot) := upstream_runtime_snapshot config self upstream_id (windows !! upstream_id) now lease_now in
      let '(self, snapshots) := upstream_runtime_snapshots config windows self upstreams now in
      (self, (upstream_id, snapshot) :: snapshots)
  end.

(** ** The queue of waiters *)

Abbreviation slot_waiters := (gmap AccountConcurrencyKey Z).

Definition try_enter_local_slot_wait (counts : slot_waiters) (account : AccountConcurrencyKey) (max_depth : Z)
    : slot_waiters * bool :=
  let entry := default 0 (counts !! account) in
  if Z.max 1 max_depth <=? entry then (<[account := entry]> counts, false)
  else (<[account := entry + 1]> counts, true).

Definition leave_local_slot_wait (counts : slot_waiters) (account : AccountConcurrencyKey) : slot_waiters :=
  match counts !! account with
  | None => counts
  | Some entry =>
      let entry := sat_sub entry 1 in
      if entry =? 0 then delete account counts else <[account := entry]> counts
  end.

Definition local_slot_waiter_count (counts : slot_waiters) (account : AccountConcurrencyKey) : Z :=
  default 0 (counts !! account).

Definition upstream_slot_waiter_count (counts : slot_waiters) (upstream_id : string) : Z :=
  sumZ (values (filter (fun '(account, _) => ack_upstream_id account = upstream_id) counts)).

(** The settings of the plan; the product with the floating-point factor is a parameter. *)
Record QueueSettings := {
  qs_max_wait_ms : Z;
  qs_adaptive_budget_ceiling_ms : Z;
  qs_adaptive_budget_factor : Z -> Z;
  qs_skip_when_doomed_enabled : bool
}.

Definition account_hold_percentiles_ms (table : UpstreamLeaseTable) (account : AccountConcurrencyKey) : option (Z * Z) :=
  p95 ← hold_p95_seconds table account;
  Some (sat_mul u64_max (default 0 (hold_p50_seconds table account)) 1000, sat_mul u64_max p95 1000).

Definition local_slot_queue_plan (settings : QueueSettings) (table : UpstreamLeaseTable) (account : AccountConcurrencyKey)
    : Z * bool :=
  let floor_ms := Z.max 1 (qs_max_wait_ms settings) in
  let ceiling_ms := Z.max floor_ms (qs_adaptive_budget_ceiling_ms settings) in
  match account_hold_percentiles_ms table account with
  | None => (floor_ms, false)
  | Some (p50_ms, p95_ms) =>
      let budget := clamp floor_ms ceiling_ms (qs_adaptive_budget_factor settings p95_ms) in
      (budget, qs_skip_when_doomed_enabled settings && (0 <? p50_ms) && (floor_ms <? p50_ms))
  end.

(** ** Events

    Everything that touches the table. The events of [table_event] are one critical
    section on the table and never add a lease; the others hold the lock of the quota
    windows as well. *)

Inductive table_event :=
| Remove (lease : UpstreamRequestLease) (now : Instant)
| Renew (lease : UpstreamRequestLease) (now : Instant)
| Sweep (now : Instant)
| MarkStreaming (lease : UpstreamRequestLease)
| RemoveUpstream (upstream_id : string)
| ResetConcurrency (upstream_id : string) (key_fingerprint : option string)
| CountStream (upstream_id : string) (counter : StreamDecodeCounter) (delta : nat).

Definition table_step (config : LeaseConfig) (self : UpstreamLeaseTable) (event : table_event) : UpstreamLeaseTable :=
  match event with
  | Remove lease now => (lease_remove self (ul_account lease) (ul_lease_id lease) now).1
  | Renew lease now => renew_upstream_request config self lease now
  | Sweep now => (prune_expired_upstream_leases self now config).1
  | MarkStreaming lease => (mark_streaming self (ul_account lease) (ul_lease_id lease)).1
  | RemoveUpstream upstream_id => table_remove_upstream self upstream_id
  | ResetConcurrency upstream_id key_fingerprint => (remove_leases_for_upstream self upstream_id key_fingerprint).1
  | CountStream upstream_id counter delta => record_upstream_stream_counter self upstream_id counter delta
  end.

Definition table_run (config : LeaseConfig) (events : list table_event) (self : UpstreamLeaseTable) : UpstreamLeaseTable :=
  foldl (table_step config) self events.

Inductive gate_event :=
| Reserve (upstream : UpstreamLimits) (key_fingerprint lease_id : string) (now_instant : Instant) (now : Z)
| Hedge (upstream : UpstreamLimits) (key_fingerprint lease_id : string) (now_instant : Instant) (now : Z)
    (between : list table_event)
| Snapshot (windows : gmap string Z) (upstreams : list (string * Instant)) (now : Z)
| Cooldown (upstream_id : string) (cooldown_seconds : Z) (feedback_type : string) (now : Z)
| Table (event : table_event).

Definition gate_step (config : LeaseConfig) (self : UpstreamGate) (event : gate_event) : UpstreamGate :=
  match event with
  | Reserve upstream key_fingerprint lease_id now_instant now =>
      (try_reserve_upstream_account_request config self upstream key_fingerprint lease_id now_instant now).1
  | Hedge upstream key_fingerprint lease_id now_instant now between =>
      (try_reserve_upstream_account_hedge config self upstream key_fingerprint lease_id now_instant now
        (table_run config between)).1
  | Snapshot windows upstreams now => (upstream_runtime_snapshots config windows self upstreams now).1
  | Cooldown upstream_id cooldown_seconds feedback_type now =>
      mark_upstream_cooldown self upstream_id cooldown_seconds feedback_type now
  | Table event => {| self with ug_table := table_step config (ug_table self) event |}
  end.

Definition gate_run (config : LeaseConfig) (events : list gate_event) : UpstreamGate :=
  foldl (gate_step config) UpstreamGate_default events.

(** ** Facts: the leases of an account *)

Definition held_leases (self : UpstreamLeaseTable) (account : AccountConcurrencyKey) : lease_map :=
  default ∅ (lt_leases self !! account).

Lemma account_lease_count_held self account :
  account_lease_count self account = Z.of_nat (size (held_leases self account)).
Proof. unfold account_lease_count, held_leases. by destruct (lt_leases self !! account). Qed.

(** No account is kept without a lease, and the rings of samples are bounded. *)
Record table_ok (self : UpstreamLeaseTable) : Prop := {
  tab_not_empty : forall account held, lt_leases self !! account = Some held -> held <> ∅;
  tab_samples : forall account samples, lt_hold_samples self !! account = Some samples ->
    (length samples <= LEASE_HOLD_SAMPLE_SIZE)%nat
}.

(** A change that adds no lease. *)
Definition shrinks (self self' : UpstreamLeaseTable) : Prop :=
  forall account, (size (held_leases self' account) <= size (held_leases self account))%nat.

#[export] Instance shrinks_preorder : PreOrder shrinks.
Proof.
  split.
  - by intros self account.
  - intros x y z H1 H2 account. by etrans; [apply H2|].
Qed.

Lemma default_empty (o : option lease_map) : (forall held, o = Some held -> held <> ∅) -> default ∅ o = ∅ -> o = None.
Proof. destruct o; [|done]. intros H He. by destruct (H g). Qed.

Lemma swept_held config now self account :
  default ∅ (swept_leases config now (lt_leases self) !! account) = keep_live config now (held_leases self account).
Proof.
  unfold swept_leases, held_leases. rewrite map_lookup_filter, lookup_fmap.
  destruct (lt_leases self !! account) as [held|]; simpl.
  - case_guard as Hg; simpl; [done|]. symmetry. apply dec_stable; tauto.
  - by unfold keep_live; rewrite map_filter_empty.
Qed.

Lemma sweep_held self now config account :
  held_leases (prune_expired_upstream_leases self now config).1 account = keep_live config now (held_leases self account).
Proof. apply swept_held. Qed.

Lemma sweep_shrinks self now config : shrinks self (prune_expired_upstream_leases self now config).1.
Proof. intros account. rewrite sweep_held. apply map_subseteq_size, map_filter_subseteq. Qed.

Lemma sweep_ok self now config : table_ok self -> table_ok (prune_expired_upstream_leases self now config).1.
Proof.
  intros [Hne Hs]. split; [|exact Hs]. simpl. intros account held. unfold swept_leases.
  by rewrite map_lookup_filter_Some; intros [_ ?].
Qed.

Lemma lookup_held self account lease_id held record :
  (held ← lt_leases self !! account; record ← held !! lease_id; Some (held, record)) = Some (held, record) ->
  lt_leases self !! account = Some held /\ held !! lease_id = Some record.
Proof.
  destruct (lt_leases self !! account) as [h|]; simpl; [|done]. destruct (h !! lease_id) as [r|] eqn:Hr; simpl; [|done].
  by intros [= <- <-].
Qed.

Lemma put_leases_held leases account held other :
  default ∅ (put_leases leases account held !! other) =
    if bool_decide (other = account) then held else default ∅ (leases !! other).
Proof.
  unfold put_leases. destruct (bool_decide_reflect (held = ∅)) as [->|He], (bool_decide_reflect (other = account)) as [->|Ho].
  - by rewrite lookup_delete_eq.
  - by rewrite lookup_delete_ne.
  - by rewrite lookup_insert_eq.
  - by rewrite lookup_insert_ne.
Qed.

Lemma push_sample_length samples hold :
  (length samples <= LEASE_HOLD_SAMPLE_SIZE)%nat -> (length (push_sample samples hold) <= LEASE_HOLD_SAMPLE_SIZE)%nat.
Proof.
  unfold push_sample, LEASE_HOLD_SAMPLE_SIZE. rewrite length_app.
  destruct (Nat.leb_spec 32 (length samples)); simpl length; [|lia]. destruct samples; cbn [tail length] in *; lia.
Qed.

Lemma remove_held self account lease_id now other :
  held_leases (lease_remove self account lease_id now).1 other =
    if bool_decide (other = account) then delete lease_id (held_leases self account) else held_leases self other.
Proof.
  unfold lease_remove. destruct (held ← _; _) as [[held record]|] eqn:Hl; simpl.
  - apply lookup_held in Hl as [Hl Hr]. unfold held_leases. simpl. rewrite put_leases_held. by rewrite Hl.
  - case_bool_decide as Ho; subst; [|done]. symmetry. apply delete_id. unfold held_leases.
    destruct (lt_leases self !! account) as [h|]; simpl in *; [|by rewrite lookup_empty]. by destruct (h !! lease_id).
Qed.

Lemma remove_ok self account lease_id now : table_ok self -> table_ok (lease_remove self account lease_id now).1.
Proof.
  intros [Hne Hs]. unfold lease_remove. destruct (held ← _; _) as [[held record]|] eqn:Hl; simpl; [|by split].
  split; simpl.
  - intros other held'. unfold put_leases. case_bool_decide as He.
    + rewrite lookup_delete_Some. intros [_ H]. by eapply Hne.
    + destruct (decide (other = account)) as [->|Hn]; [by rewrite lookup_insert_eq; intros [= <-]|].
      rewrite lookup_insert_ne by done. apply Hne.
  - intros other samples. destruct (decide (other = account)) as [->|Hn].
    + rewrite lookup_insert_eq. intros [= <-]. apply push_sample_length.
      destruct (lt_hold_samples self !! account) eqn:Ha; simpl; [by eapply Hs|lia].
    + rewrite lookup_insert_ne by done. apply Hs.
Qed.

Lemma update_held self account lease_id change other :
  held_leases (update_lease self account lease_id change) other =
    if bool_decide (other = account) then alter change lease_id (held_leases self account) else held_leases self other.
Proof.
  unfold update_lease. destruct (held ← _; _) as [[held record]|] eqn:Hl; unfold held_leases; simpl.
  - apply lookup_held in Hl as [Hl Hr]. case_bool_decide as Ho; subst.
    + rewrite lookup_insert_eq, Hl. simpl. apply map_eq. intros i. destruct (decide (i = lease_id)) as [->|Hn].
      * by rewrite lookup_insert_eq, lookup_alter_eq, Hr.
      * by rewrite lookup_insert_ne, lookup_alter_ne.
    + by rewrite lookup_insert_ne.
  - case_bool_decide as Ho; subst; [|done]. destruct (lt_leases self !! account) as [h|]; simpl in *.
    + destruct (h !! lease_id) eqn:Hh; simpl in *; [done|]. apply map_eq. intros i.
      destruct (decide (i = lease_id)) as [->|Hn]; [by rewrite lookup_alter_eq, Hh|by rewrite lookup_alter_ne].
    + apply map_eq. intros i. destruct (decide (i = lease_id)) as [->|Hn];
        [by rewrite lookup_alter_eq, !lookup_empty|by rewrite lookup_alter_ne, !lookup_empty].
Qed.

Lemma update_ok self account lease_id change : table_ok self -> table_ok (update_lease self account lease_id change).
Proof.
  intros [Hne Hs]. unfold update_lease. destruct (held ← _; _) as [[held record]|] eqn:Hl; [|by split].
  split; simpl; [|exact Hs]. intros other held'. destruct (decide (other = account)) as [->|Hn].
  - rewrite lookup_insert_eq. intros [= <-]. apply insert_non_empty.
  - rewrite lookup_insert_ne by done. apply Hne.
Qed.

Lemma update_shrinks self account lease_id change : shrinks self (update_lease self account lease_id change).
Proof.
  intros other. rewrite update_held. case_bool_decide; subst; [|done].
  rewrite <- !size_dom. by rewrite dom_alter_L.
Qed.

(** ** Facts: steps *)

Lemma filter_shrinks (P : AccountConcurrencyKey * lease_map -> Prop) `{!forall x, Decision (P x)} self :
  shrinks self {| self with lt_leases := filter P (lt_leases self) |}.
Proof.
  intros account. unfold held_leases. simpl. rewrite map_lookup_filter.
  destruct (lt_leases self !! account) as [held|]; simpl; [|done]. case_guard; simpl; [done|]. rewrite map_size_empty. lia.
Qed.

Lemma filter_ok (P : AccountConcurrencyKey * lease_map -> Prop) `{!forall x, Decision (P x)} self :
  table_ok self -> table_ok {| self with lt_leases := filter P (lt_leases self) |}.
Proof.
  intros [Hne Hs]. split; simpl; [|exact Hs]. intros account held. rewrite map_lookup_filter_Some. intros [Hl _]. by eapply Hne.
Qed.

(** The leases and the samples are all that the invariant is about. *)
Definition same_leases (self self' : UpstreamLeaseTable) : Prop :=
  lt_leases self' = lt_leases self /\ lt_hold_samples self' = lt_hold_samples self.

Lemma same_leases_shrinks self self' : same_leases self self' -> shrinks self self'.
Proof. intros [H _] account. unfold held_leases. by rewrite H. Qed.

Lemma same_leases_ok self self' : same_leases self self' -> table_ok self -> table_ok self'.
Proof. intros [H1 H2] [Hne Hs]. split; [by rewrite H1|by rewrite H2]. Qed.

Lemma stream_counter_same delta : forall self upstream_id counter,
  same_leases self (record_upstream_stream_counter self upstream_id counter delta).
Proof.
  induction delta as [|delta IH]; intros self upstream_id counter; simpl; [done|].
  destruct (IH (record_stream_counter self upstream_id counter) upstream_id counter) as [H1 H2].
  split; [rewrite H1|rewrite H2]; by destruct counter.
Qed.

Lemma table_step_shrinks config self event : shrinks self (table_step config self event).
Proof.
  destruct event as [lease now|lease now|now|lease|id|id fp|id counter delta]; simpl.
  - intros account. rewrite remove_held. case_bool_decide; subst; [|done]. apply map_subseteq_size, delete_subseteq.
  - unfold renew_upstream_request. etrans; [apply sweep_shrinks|]. apply update_shrinks.
  - apply sweep_shrinks.
  - apply update_shrinks.
  - apply (filter_shrinks (fun '(account, _) => _)).
  - apply (filter_shrinks (fun '(account, _) => _)).
  - apply same_leases_shrinks, stream_counter_same.
Qed.

Lemma table_step_ok config self event : table_ok self -> table_ok (table_step config self event).
Proof.
  intros Hok. destruct event as [lease now|lease now|now|lease|id|id fp|id counter delta]; simpl.
  - by apply remove_ok.
  - apply update_ok. by apply sweep_ok.
  - by apply sweep_ok.
  - by apply update_ok.
  - eapply same_leases_ok; [|by apply (filter_ok (fun '(account, _) => ack_upstream_id account <> id))]. done.
  - by apply (filter_ok (fun '(account, _) => _)).
  - eapply same_leases_ok; [apply stream_counter_same|done].
Qed.

Lemma table_run_shrinks config events : forall self, shrinks self (table_run config events self).
Proof.
  induction events as [|event events IH]; intros self; simpl; [done|]. etrans; [apply table_step_shrinks|apply IH].
Qed.

Lemma table_run_ok config events : forall self, table_ok self -> table_ok (table_run config events self).
Proof. induction events as [|event events IH]; intros self Hok; simpl; [done|]. by apply IH, table_step_ok. Qed.

Lemma insert_held self account lease_id record other :
  held_leases (lease_insert self account lease_id record) other =
    if bool_decide (other = account) then <[lease_id := record]> (held_leases self account) else held_leases self other.
Proof.
  unfold held_leases, lease_insert. simpl. case_bool_decide; subst; [by rewrite lookup_insert_eq|by rewrite lookup_insert_ne].
Qed.

Lemma insert_ok self account lease_id record : table_ok self -> table_ok (lease_insert self account lease_id record).
Proof.
  intros [Hne Hs]. split; simpl; [|exact Hs]. intros other held. destruct (decide (other = account)) as [->|Hn].
  - rewrite lookup_insert_eq. intros [= <-]. apply insert_non_empty.
  - rewrite lookup_insert_ne by done. apply Hne.
Qed.

(** What a snapshot does to the table is a series of sweeps. *)
Lemma snapshots_table config windows upstreams : forall self now,
  exists events, ug_table (upstream_runtime_snapshots config windows self upstreams now).1 =
    table_run config events (ug_table self).
Proof.
  induction upstreams as [|[id lease_now] upstreams IH]; intros self now; [by exists []|].
  cbn [upstream_runtime_snapshots]. destruct (upstream_runtime_snapshot _ _ _ _ _ _) as [self' snapshot] eqn:Hs.
  assert (ug_table self' = (prune_expired_upstream_leases (ug_table self) lease_now config).1) as Hself by (injection Hs as <- _; done).
  destruct (IH self' now) as [events Hev]. destruct (upstream_runtime_snapshots _ _ _ _ _) as [final snapshots].
  exists (Sweep lease_now :: events). simpl in *. by rewrite Hev, Hself.
Qed.

(** ** Facts: reservations *)

(** The leases that keep their slot when the table is swept. *)
Definition live_leases (config : LeaseConfig) (self : UpstreamGate) (account : AccountConcurrencyKey) (now : Instant) : lease_map :=
  keep_live config now (held_leases (ug_table self) account).

Section Decided.
  Variables (config : LeaseConfig) (self : UpstreamGate) (upstream : UpstreamLimits).
  Variables (key_fingerprint lease_id : string) (now_instant : Instant) (now : Z).

  #[local] Notation account := (account_key (lim_id upstream) key_fingerprint).
  #[local] Notation cap := (Z.max 1 (lim_max_concurrency upstream)).
  #[local] Notation swept := (prune_expired_upstream_leases (ug_table self) now_instant config).1.
  #[local] Notation outcome :=
    (try_reserve_upstream_account_request config self upstream key_fingerprint lease_id now_instant now).

Lemma reserve_granted :
  Z.of_nat (size (live_leases config self account now_instant)) < cap ->
  ug_table outcome.1 = lease_insert swept account lease_id (UpstreamLeaseRecord_new now_instant (lease_ttl config) Unary) /\
  outcome.2 = Ok {| ul_account := account; ul_lease_id := lease_id |}.
Proof.
  intros Hlive. unfold try_reserve_upstream_account_request, at_capacity. simpl.
  rewrite account_lease_count_held. unfold held_leases. simpl. rewrite swept_held. fold (live_leases config self account now_instant).
  destruct (Z.leb_spec cap (Z.of_nat (size (live_leases config self account now_instant)))); [lia|by split].
Qed.

Lemma reserve_refused :
  cap <= Z.of_nat (size (live_leases config self account now_instant)) ->
  same_leases swept (ug_table outcome.1) /\
  exists error, outcome.2 = Err error /\ ue_reason error = LocalConcurrency /\ 1 <= ue_retry_after_seconds error.
Proof.
  intros Hlive. unfold try_reserve_upstream_account_request, at_capacity. simpl.
  rewrite account_lease_count_held. unfold held_leases. simpl. rewrite swept_held. fold (live_leases config self account now_instant).
  destruct (Z.leb_spec cap (Z.of_nat (size (live_leases config self account now_instant)))); [|lia].
  split; [done|]. eexists. split_and!; [done|done|]. simpl. lia.
Qed.

End Decided.

(** A hedge changes the table as a run of table events does, and then adds a lease
    only when there is room for it. *)
Lemma hedge_table config self upstream key_fingerprint lease_id now_instant now between :
  let account := account_key (lim_id upstream) key_fingerprint in
  let outcome := try_reserve_upstream_account_hedge config self upstream key_fingerprint lease_id now_instant now
    (table_run config between) in
  exists events, ug_table outcome.1 = table_run config events (ug_table self) \/
    account_lease_count (table_run config events (ug_table self)) account < Z.max 1 (lim_max_concurrency upstream) /\
    exists record, ug_table outcome.1 = lease_insert (table_run config events (ug_table self)) account lease_id record.
Proof.
  intros account outcome. unfold outcome, try_reserve_upstream_account_hedge. fold account. simpl.
  destruct (at_capacity upstream (ug_table self) account); [by exists []; left|].
  destruct (_ && _); [by exists []; left|]. destruct (_ && _); [by exists []; left|].
  exists (between ++ [Sweep now_instant]).
  assert (table_run config (between ++ [Sweep now_instant]) (ug_table self) =
    (prune_expired_upstream_leases (table_run config between (ug_table self)) now_instant config).1) as ->
    by (unfold table_run; by rewrite foldl_app).
  unfold prune_expired_upstream_leases at 1. simpl.
  destruct (at_capacity upstream _ account) eqn:Hcap; [by left|]. right. apply Z.leb_gt in Hcap. split; [done|by eexists].
Qed.

(** ** The gate is never exceeded *)

Definition reserves_within (account : AccountConcurrencyKey) (cap : Z) (event : gate_event) : Prop :=
  match event with
  | Reserve upstream key_fingerprint _ _ _ | Hedge upstream key_fingerprint _ _ _ _ =>
      account_key (lim_id upstream) key_fingerprint = account -> lim_max_concurrency upstream <= cap
  | _ => True
  end.

Lemma insert_count self account lease_id record other cap :
  1 <= cap -> account_lease_count self other <= cap ->
  (other = account -> account_lease_count self account < cap) ->
  account_lease_count (lease_insert self account lease_id record) other <= cap.
Proof.
  rewrite !account_lease_count_held, insert_held. intros Hcap Hle Hlt. case_bool_decide as Ho; [|done].
  specialize (Hlt Ho). pose proof (size_insert_le (held_leases self account) lease_id record). lia.
Qed.

Lemma gate_step_ok config self event account cap :
  1 <= cap -> table_ok (ug_table self) -> account_lease_count (ug_table self) account <= cap ->
  reserves_within account cap event ->
  table_ok (ug_table (gate_step config self event)) /\
  account_lease_count (ug_table (gate_step config self event)) account <= cap.
Proof.
  intros Hcap Hok Hcount Hwithin.
  assert (forall table, shrinks (ug_table self) table -> account_lease_count table account <= cap) as Hshrink.
  { intros table Hs. specialize (Hs account). rewrite account_lease_count_held in *. lia. }
  destruct event as [upstream fp lease_id t now|upstream fp lease_id t now between|windows upstreams now|id s feedback now|event];
    cbn [gate_step reserves_within] in *.
  - destruct (Z.lt_ge_cases (Z.of_nat (size (live_leases config self (account_key (lim_id upstream) fp) t)))
      (Z.max 1 (lim_max_concurrency upstream))) as [Hlive|Hlive].
    + destruct (reserve_granted config self upstream fp lease_id t now Hlive) as [-> _].
      split; [by apply insert_ok, sweep_ok|]. apply insert_count; [done|apply Hshrink, sweep_shrinks|].
      intros ->. rewrite account_lease_count_held, sweep_held. unfold live_leases in Hlive. specialize (Hwithin eq_refl). lia.
    + destruct (reserve_refused config self upstream fp lease_id t now Hlive) as [Hsame _].
      split; [by eapply same_leases_ok; [|apply sweep_ok]|]. apply Hshrink. etrans; [apply sweep_shrinks|].
      by apply same_leases_shrinks.
  - destruct (hedge_table config self upstream fp lease_id t now between) as (events & [->|(Hroom & record & ->)]).
    + split; [by apply table_run_ok|]. apply Hshrink, table_run_shrinks.
    + split; [by apply insert_ok, table_run_ok|]. apply insert_count; [done|apply Hshrink, table_run_shrinks|].
      intros ->. specialize (Hwithin eq_refl). lia.
  - destruct (snapshots_table config windows upstreams self now) as [events ->].
    split; [by apply table_run_ok|apply Hshrink, table_run_shrinks].
  - done.
  - split; [by apply table_step_ok|apply Hshrink, table_step_shrinks].
Qed.

(** C21. The concurrency of an account is never exceeded. Whatever requests and hedges
    are reserved, renewed, released, swept or reset, in whatever order and with
    whatever clock, an account never holds more leases than the largest capacity its
    reservations were made under; no account without a lease stays in the table, and
    no ring of hold times grows past its size. *)
Theorem slots_bounded config events account cap :
  Forall (reserves_within account cap) events ->
  let table := ug_table (gate_run config events) in
  account_lease_count table account <= Z.max 1 cap /\ table_ok table.
Proof.
  intros Hall table.
  assert (forall self, table_ok (ug_table self) -> account_lease_count (ug_table self) account <= Z.max 1 cap ->
    table_ok (ug_table (foldl (gate_step config) self events)) /\
    account_lease_count (ug_table (foldl (gate_step config) self events)) account <= Z.max 1 cap) as Hrun.
  { induction Hall as [|event events Hev Hall IH]; intros self Hok Hcount; simpl; [done|].
    destruct (gate_step_ok config self event account (Z.max 1 cap)) as [Hok' Hcount']; try done; [lia| |by apply IH].
    destruct event; simpl in *; try done; intros Ha; specialize (Hev Ha); lia. }
  destruct (Hrun UpstreamGate_default) as [H1 H2]; [by split; intros ? ?; simpl; rewrite lookup_empty|simpl|done].
  rewrite account_lease_count_held. unfold held_leases. simpl. rewrite lookup_empty. simpl. rewrite map_size_empty. lia.
Qed.

(** ** What decides a reservation *)

(** A reservation is decided by the leases that are alive. It is granted exactly when
    fewer leases than the capacity are neither expired nor without a heartbeat, so a
    leaked lease holds its slot only until it lapses; the account then holds the live
    leases and the new one, and the quota windows have one event more. Otherwise the
    error carries the estimate of at least a second, and nothing but the lapsed leases
    and events is gone. *)
Theorem reservation_decided config self upstream key_fingerprint lease_id now_instant now :
  let account := account_key (lim_id upstream) key_fingerprint in
  let live := live_leases config self account now_instant in
  let quotas := prune_quotas (runtime_state self (lim_id upstream)) (quota_window_seconds upstream) now in
  let outcome := try_reserve_upstream_account_request config self upstream key_fingerprint lease_id now_instant now in
  held_leases (ug_table outcome.1) account =
    (if is_ok outcome.2 then <[lease_id := UpstreamLeaseRecord_new now_instant (lease_ttl config) Unary]> live else live) /\
  runtime_state outcome.1 (lim_id upstream) = (if is_ok outcome.2 then push_quota quotas now else quotas) /\
  match outcome.2 with
  | Ok lease =>
      Z.of_nat (size live) < Z.max 1 (lim_max_concurrency upstream) /\
      lease = {| ul_account := account; ul_lease_id := lease_id |}
  | Err error =>
      Z.max 1 (lim_max_concurrency upstream) <= Z.of_nat (size live) /\
      ue_reason error = LocalConcurrency /\ 1 <= ue_retry_after_seconds error
  end.
Proof.
  intros account live quotas outcome.
  assert (runtime_state outcome.1 (lim_id upstream) = (if is_ok outcome.2 then push_quota quotas now else quotas)) as ->.
  { unfold outcome, try_reserve_upstream_account_request, runtime_state. simpl.
    destruct (at_capacity _ _ _); simpl; by rewrite lookup_insert_eq. }
  destruct (Z.lt_ge_cases (Z.of_nat (size live)) (Z.max 1 (lim_max_concurrency upstream))) as [Hlive|Hlive].
  - destruct (reserve_granted config self upstream key_fingerprint lease_id now_instant now Hlive) as [Ht Hr].
    unfold outcome. rewrite Ht, Hr, insert_held, sweep_held, bool_decide_eq_true_2 by done. by split_and!.
  - destruct (reserve_refused config self upstream key_fingerprint lease_id now_instant now Hlive) as [[Ht _] (error & Hr & He1 & He2)].
    unfold outcome. rewrite Hr. simpl. split_and!; try done. unfold held_leases. rewrite Ht. apply sweep_held.
Qed.

(** ** The life of a lease *)

(** Events that do not end the lease: no sweep comes too long after its last heartbeat,
    and no one removes it. *)
Definition same_lease (lease other : UpstreamRequestLease) : bool :=
  bool_decide (ul_account lease = ul_account other) && String.eqb (ul_lease_id lease) (ul_lease_id other).

Definition in_time (config : LeaseConfig) (heartbeat now : Instant) : Prop :=
  now < heartbeat + lease_ttl config /\ now - heartbeat <= stale_after config.

Definition spares (config : LeaseConfig) (lease : UpstreamRequestLease) (heartbeat : Instant) (event : table_event) : Prop :=
  match event with
  | Remove other _ => same_lease lease other = false
  | Renew _ now | Sweep now => in_time config heartbeat now
  | RemoveUpstream upstream_id => ack_upstream_id (ul_account lease) <> upstream_id
  | ResetConcurrency upstream_id key_fingerprint =>
      ack_upstream_id (ul_account lease) <> upstream_id \/
      exists fp, key_fingerprint = Some fp /\ fp <> ack_key_fingerprint (ul_account lease)
  | MarkStreaming _ | CountStream _ _ _ => True
  end.

Definition heartbeat_after (lease : UpstreamRequestLease) (heartbeat : Instant) (event : table_event) : Instant :=
  match event with
  | Renew other now => if same_lease lease other then now else heartbeat
  | _ => heartbeat
  end.

Fixpoint kept_alive (config : LeaseConfig) (lease : UpstreamRequestLease) (heartbeat : Instant) (events : list table_event) : Prop :=
  match events with
  | [] => True
  | event :: events =>
      spares config lease heartbeat event /\ kept_alive config lease (heartbeat_after lease heartbeat event) events
  end.

(** The record of a lease whose last heartbeat was at an instant. *)
Definition beats (config : LeaseConfig) (self : UpstreamLeaseTable) (lease : UpstreamRequestLease)
    (reserved heartbeat : Instant) : Prop :=
  exists record, held_leases self (ul_account lease) !! ul_lease_id lease = Some record /\
    ur_last_renewed_at record = heartbeat /\ ur_expires_at record = heartbeat + lease_ttl config /\
    ur_reserved_at record = reserved.

Lemma same_lease_spec lease other :
  same_lease lease other = true <-> ul_account other = ul_account lease /\ ul_lease_id other = ul_lease_id lease.
Proof. unfold same_lease. rewrite andb_true_iff, bool_decide_eq_true, String.eqb_eq. naive_solver. Qed.

Lemma sweep_beats config self lease reserved heartbeat now :
  beats config self lease reserved heartbeat -> in_time config heartbeat now ->
  beats config (prune_expired_upstream_leases self now config).1 lease reserved heartbeat.
Proof.
  intros (record & Hr & Hb & He & Hres) [Hnow Hstale]. exists record. rewrite sweep_held. split_and!; try done.
  unfold keep_live. apply map_lookup_filter_Some. split; [done|]. unfold lease_live, lease_expired, is_stale.
  rewrite He, Hb. apply andb_true_iff. split; apply negb_true_iff.
  - apply Z.leb_gt. lia.
  - apply Z.ltb_ge. unfold since, stale_after, from_millis in *. lia.
Qed.

Lemma update_beats config self lease reserved heartbeat heartbeat' account lease_id change :
  beats config self lease reserved heartbeat ->
  (forall record, ur_last_renewed_at record = heartbeat -> ur_expires_at record = heartbeat + lease_ttl config ->
    ur_reserved_at record = reserved ->
    let record' := if same_lease lease {| ul_account := account; ul_lease_id := lease_id |} then change record else record in
    ur_last_renewed_at record' = heartbeat' /\ ur_expires_at record' = heartbeat' + lease_ttl config /\
    ur_reserved_at record' = reserved) ->
  beats config (update_lease self account lease_id change) lease reserved heartbeat'.
Proof.
  intros (record & Hr & Hb & He & Hres) Hchange. specialize (Hchange record Hb He Hres).
  destruct (same_lease lease _) eqn:Hs; simpl in Hchange.
  - apply same_lease_spec in Hs as [Ha Hi]. simpl in Ha, Hi. subst. exists (change record). rewrite update_held, bool_decide_eq_true_2 by done.
    by rewrite lookup_alter_eq, Hr.
  - exists record. rewrite update_held. split; [|done]. case_bool_decide as Ha; [|done].
    rewrite lookup_alter_ne, <- Ha; [done|]. intros Hi. rewrite (proj2 (same_lease_spec _ _)) in Hs; [done|]. by split.
Qed.

Lemma filter_beats config self lease reserved heartbeat (P : AccountConcurrencyKey * lease_map -> Prop)
    `{!forall x, Decision (P x)} :
  beats config self lease reserved heartbeat -> (forall held, P (ul_account lease, held)) ->
  beats config {| self with lt_leases := filter P (lt_leases self) |} lease reserved heartbeat.
Proof.
  intros (record & Hr & Hrest) HP. exists record. split; [|done]. unfold held_leases in *. simpl.
  rewrite map_lookup_filter. destruct (lt_leases self !! ul_account lease) as [held|]; simpl in *; [|done].
  by rewrite option_guard_True by apply HP.
Qed.

Lemma table_step_beats config self lease reserved heartbeat event :
  beats config self lease reserved heartbeat -> spares config lease heartbeat event ->
  beats config (table_step config self event) lease reserved (heartbeat_after lease heartbeat event).
Proof.
  intros Hb Hs. destruct event as [other now|other now|now|other|id|id fp|id counter delta]; cbn [table_step spares heartbeat_after] in *.
  - destruct Hb as (record & Hr & Hrest). exists record. split; [|done]. rewrite remove_held. case_bool_decide as Ha; [|done].
    rewrite lookup_delete_ne, <- Ha; [done|]. intros Hi. rewrite (proj2 (same_lease_spec _ _)) in Hs; [done|]. by split.
  - unfold renew_upstream_request. rewrite (surjective_pairing (prune_expired_upstream_leases _ _ _)).
    eapply update_beats; [by apply sweep_beats|]. destruct other as [account lease_id]. simpl.
    intros record H1 H2 H3. by destruct (same_lease lease _).
  - by apply sweep_beats.
  - eapply update_beats; [done|]. intros record H1 H2 H3. by destruct (same_lease lease _).
  - by apply (filter_beats config self lease reserved heartbeat (fun '(account, _) => _)).
  - apply (filter_beats config self lease reserved heartbeat (fun '(account, _) => _)); [done|]. intros held.
    destruct Hs as [Hs|(f & -> & Hf)]; [by left|]. right. simpl. by apply negb_true_iff, String.eqb_neq.
  - destruct Hb as (record & Hr & Hrest). exists record. split; [|done]. unfold held_leases.
    by destruct (stream_counter_same delta self id counter) as [-> _].
Qed.

(** A heartbeat keeps the slot. A lease is still held, with its last heartbeat and
    the instant of its reservation, after any events in which no sweep comes later than
    its lifetime or the limit for silent leases after its last heartbeat, and which do
    not release it or reset its upstream; so a stream that renews in time may last as
    long as it likes, and the renewals never touch what its hold time is measured from. *)
Theorem heartbeat_keeps_slot config events table lease reserved heartbeat :
  beats config table lease reserved heartbeat ->
  kept_alive config lease heartbeat events ->
  beats config (table_run config events table) lease reserved (foldl (heartbeat_after lease) heartbeat events).
Proof.
  revert table heartbeat. induction events as [|event events IH]; intros table heartbeat Hb; simpl; [done|].
  intros [Hs Halive]. by apply IH; [apply table_step_beats|].
Qed.

(** A slot is freed once. The first release of a lease that is held frees its slot
    and no other one, and its hold time enters the ring of the account; the clones of the
    lease share its state, so that a further release of any of them, even of a lease
    that was reserved again under the same identifier, changes nothing. *)
Theorem slot_freed_once table lease now :
  let '(table', state, released) := release_upstream_request table ReleaseActive lease now in
  released = Ok tt /\ state = Released /\
  (forall account, held_leases table' account =
    if bool_decide (account = ul_account lease) then delete (ul_lease_id lease) (held_leases table account)
    else held_leases table account) /\
  lt_hold_samples table' !! ul_account lease =
    match held_leases table (ul_account lease) !! ul_lease_id lease with
    | Some record =>
        Some (push_sample (default [] (lt_hold_samples table !! ul_account lease)) (since now (ur_reserved_at record)))
    | None => lt_hold_samples table !! ul_account lease
    end /\
  forall later_table later, release_upstream_request later_table state lease later = (later_table, Released, Ok tt).
Proof.
  unfold release_upstream_request. simpl. split_and!; try done.
  - intros account. rewrite remove_held. by case_bool_decide; subst.
  - unfold lease_remove, held_leases. destruct (lt_leases table !! ul_account lease) as [held|]; simpl; [|by rewrite lookup_empty].
    destruct (held !! ul_lease_id lease) as [record|]; simpl; [|done]. by rewrite lookup_insert_eq.
Qed.

(** ** The estimate of a wait *)

Definition count_le (x : Duration) (holds : list Duration) : nat := length (retain (fun y => y <=? x) holds).
Definition count_ge (x : Duration) (holds : list Duration) : nat := length (retain (fun y => x <=? y) holds).

Lemma retain_perm {A} (f : A -> bool) l1 l2 : l1 ≡ₚ l2 -> length (retain f l1) = length (retain f l2).
Proof. intros H. unfold retain. by rewrite H. Qed.

Lemma sorted_holds_sorted holds : StronglySorted Z.le (sorted_holds holds).
Proof.
  apply Sorted_StronglySorted; [intros x y z; lia|].
  assert (Sorted (fun x y => Z.leb x y = true) (sorted_holds holds)) as Hs.
  { apply sort_by_sorted; intros x y; rewrite ?Z.leb_le, ?Z.leb_gt; lia. }
  induction Hs as [|x l Hs IH Hd]; [done|]. constructor; [done|]. inversion Hd; subst; constructor. by apply Z.leb_le.
Qed.

Lemma sorted_split l i x :
  StronglySorted Z.le l -> l !! i = Some x -> Forall (fun y => y <= x) (take (S i) l) /\ Forall (fun y => x <= y) (drop i l).
Proof.
  intros Hs. revert i. induction Hs as [|a l Hs IH Ha]; intros [|i]; simpl; try done.
  - intros [= ->]. split; [by repeat constructor|]. by constructor.
  - intros Hi. destruct (IH _ Hi) as [H1 H2]. split; [|done]. constructor; [|done].
    rewrite Forall_lookup in Ha. by eapply Ha.
Qed.

Lemma retain_all_length {A} (f : A -> bool) l : Forall (fun x => f x = true) l -> length (retain f l) = length l.
Proof. intros H. rewrite retain_all; [done|]. by apply Forall_forall. Qed.

(** The element at an index of the sorted list has that many elements on either side. *)
Lemma sorted_rank holds i x :
  sorted_holds holds !! i = Some x ->
  x ∈ holds /\ (S i <= count_le x holds)%nat /\ (length holds - i <= count_ge x holds)%nat.
Proof.
  intros Hi. pose proof (sort_by_perm Z.leb holds) as Hperm. fold (sorted_holds holds) in Hperm.
  destruct (sorted_split _ _ _ (sorted_holds_sorted holds) Hi) as [Hle Hge].
  assert (i < length (sorted_holds holds))%nat as Hlen by by eapply lookup_lt_Some.
  assert (length (sorted_holds holds) = length holds) as Hsame by by apply Permutation_length.
  split; [rewrite <- Hperm; by eapply list_elem_of_lookup_2|]. unfold count_le, count_ge.
  rewrite <- !(retain_perm _ _ _ Hperm). split.
  - rewrite <- (take_drop (S i) (sorted_holds holds)), retain_app, length_app, retain_all_length, length_take; [lia|].
    eapply Forall_impl; [exact Hle|]. intros y. apply Z.leb_le.
  - rewrite <- (take_drop i (sorted_holds holds)), retain_app, length_app, (retain_all_length _ (drop i _)), length_drop;
      [lia|]. eapply Forall_impl; [exact Hge|]. intros y. apply Z.leb_le.
Qed.

Lemma quantile_rank percent holds x :
  0 < percent <= 100 -> quantile percent holds = Some x ->
  x ∈ holds /\ percent * Z.of_nat (length holds) <= 100 * Z.of_nat (count_le x holds).
Proof.
  intros Hp. unfold quantile. intros Hx. destruct (sorted_rank _ _ _ Hx) as (Hin & Hle & _). split; [done|].
  assert (0 < Z.of_nat (length holds)) by (destruct holds; simpl; [by apply elem_of_nil in Hin|lia]).
  unfold ceil_percent, sat_sub in Hle. pose proof (Z.div_mod (percent * Z.of_nat (length holds) + 99) 100 ltac:(lia)) as Hdiv.
  pose proof (Z.mod_pos_bound (percent * Z.of_nat (length holds) + 99) 100 ltac:(lia)).
  set (q := (percent * Z.of_nat (length holds) + 99) / 100) in *. nia.
Qed.

(** The first delay of the probes, in seconds. *)
Definition wait_floor (config : LeaseConfig) : Z :=
  map_or 1 (fun ms => Z.max 1 (ms / 1000)) (head (lc_upstream_concurrency_probe_delays_ms config)).

(** Where the advice to retry comes from. With fewer than two observed hold times
    it is the first delay of the probes; otherwise it is the median hold time less what
    the oldest lease of the account has already been held, and never less than that
    delay. The median and the 95th percentile are hold times that were observed, with at
    least half, and at least 95 percent, of the observations below them. *)
Theorem retry_after_from_holds config table account now :
  let holds := default [] (lt_hold_samples table !! account) in
  let estimate := estimate_retry_after_seconds config table account now in
  1 <= wait_floor config <= estimate /\
  match hold_p50_seconds table account with
  | None => (length holds < 2)%nat /\ estimate = wait_floor config /\ hold_p95_seconds table account = None
  | Some p50 =>
      estimate = Z.max (wait_floor config) (p50 - oldest_held_seconds table account now) /\
      exists median p95, p50 = as_secs median /\ hold_p95_seconds table account = Some (as_secs p95) /\
        median ∈ holds /\ p95 ∈ holds /\
        (length holds <= 2 * count_le median holds)%nat /\ (length holds <= 2 * count_ge median holds)%nat /\
        95 * Z.of_nat (length holds) <= 100 * Z.of_nat (count_le p95 holds)
  end.
Proof.
  intros holds estimate.
  assert (1 <= wait_floor config) as Hfloor by (unfold wait_floor; destruct (head _); simpl; lia).
  unfold estimate, estimate_retry_after_seconds. fold (wait_floor config).
  unfold hold_p50_seconds, hold_p95_seconds. unfold holds. destruct (lt_hold_samples table !! account) as [samples|]; cbn [from_option id mbind option_bind];
    [|simpl; split_and!; try done; lia].
  destruct (Nat.ltb_spec (length samples) 2) as [Hlen|Hlen]; [split_and!; try done; lia|].
  destruct (lookup_lt_is_Some_2 (sorted_holds samples) (length samples / 2)) as [median Hm].
  { rewrite (sort_by_perm Z.leb samples). apply Nat.div_lt; lia. }
  rewrite Hm. cbn [mbind option_bind]. split; [lia|]. split; [unfold sat_sub; lia|].
  assert (exists p95, quantile 95 samples = Some p95) as [p95 H95].
  { unfold quantile. apply lookup_lt_is_Some_2. rewrite (sort_by_perm Z.leb samples). unfold sat_sub. lia. }
  destruct (quantile_rank 95 samples p95) as [Hin95 Hrank]; [lia|done|].
  destruct (sorted_rank _ _ _ Hm) as (Hin & Hle & Hge).
  exists median, p95. rewrite H95. split_and!; try done.
  - pose proof (Nat.div_mod (length samples) 2). pose proof (Nat.mod_upper_bound (length samples) 2). lia.
  - pose proof (Nat.Div0.div_mod (length samples) 2). lia.
Qed.

(** A hedge counts leases that have lapsed. It looks at the table for the first time
    without sweeping it, so that an account whose leases have all expired, which grants
    a request at once, still refuses every hedge, and leaves the table as it is for the
    next one. *)
Theorem lapsed_leases_block_hedges config self upstream key_fingerprint lease_id now_instant now between :
  let account := account_key (lim_id upstream) key_fingerprint in
  Z.max 1 (lim_max_concurrency upstream) <= account_lease_count (ug_table self) account ->
  live_leases config self account now_instant = ∅ ->
  is_ok (try_reserve_upstream_account_request config self upstream key_fingerprint lease_id now_instant now).2 = true /\
  let hedge := try_reserve_upstream_account_hedge config self upstream key_fingerprint lease_id now_instant now between in
  ug_table hedge.1 = ug_table self /\ exists error, hedge.2 = Err error /\ ue_reason error = LocalConcurrency.
Proof.
  intros account Hfull Hlive. split.
  - destruct (reserve_granted config self upstream key_fingerprint lease_id now_instant now) as [_ ->]; [|done].
    fold account. rewrite Hlive, map_size_empty. lia.
  - unfold try_reserve_upstream_account_hedge. fold account. simpl. unfold at_capacity.
    destruct (Z.leb_spec (Z.max 1 (lim_max_concurrency upstream)) (account_lease_count (ug_table self) account)); [|lia].
    split; [done|]. by eexists.
Qed.

(** ** Facts: the queue of waiters *)

Definition waiters_ok (max_depth : Z) (counts : slot_waiters) : Prop :=
  forall account n, counts !! account = Some n -> 1 <= n <= Z.max 1 max_depth.

Lemma enter_ok max_depth counts account :
  waiters_ok max_depth counts -> waiters_ok max_depth (try_enter_local_slot_wait counts account max_depth).1.
Proof.
  intros Hok other n. unfold try_enter_local_slot_wait.
  assert (0 <= default 0 (counts !! account) <= Z.max 1 max_depth) as Hd.
  { destruct (counts !! account) as [m|] eqn:Hm; simpl; [specialize (Hok _ _ Hm)|]; lia. }
  destruct (Z.leb_spec (Z.max 1 max_depth) (default 0 (counts !! account))); simpl;
    destruct (decide (other = account)) as [->|Hn]; rewrite ?lookup_insert_eq, ?lookup_insert_ne by done; try apply Hok;
    intros [= <-]; lia.
Qed.

Lemma leave_ok max_depth counts account :
  waiters_ok max_depth counts -> waiters_ok max_depth (leave_local_slot_wait counts account).
Proof.
  intros Hok other n. unfold leave_local_slot_wait. destruct (counts !! account) as [m|] eqn:Hm; [|apply Hok].
  specialize (Hok _ _ Hm) as Hb. destruct (Z.eqb_spec (sat_sub m 1) 0).
  - rewrite lookup_delete_Some. intros [_ H]. by eapply Hok.
  - destruct (decide (other = account)) as [->|Hn]; rewrite ?lookup_insert_eq, ?lookup_insert_ne by done; [|apply Hok].
    intros [= <-]. unfold sat_sub in *. lia.
Qed.

(** The queue is never deeper than allowed, a refusal changes no count, and whoever
    leaves gives the place back. *)
Theorem waiters_bounded max_depth counts account :
  waiters_ok max_depth counts ->
  let '(counts', entered) := try_enter_local_slot_wait counts account max_depth in
  waiters_ok max_depth counts' /\ waiters_ok max_depth (leave_local_slot_wait counts account) /\
  local_slot_waiter_count counts' account = local_slot_waiter_count counts account + (if entered then 1 else 0) /\
  (entered = false -> counts' = counts) /\
  (entered = true -> leave_local_slot_wait counts' account = counts).
Proof.
  intros Hok. pose proof (enter_ok max_depth counts account Hok) as He. pose proof (leave_ok max_depth counts account Hok) as Hl.
  revert He. unfold try_enter_local_slot_wait, local_slot_waiter_count.
  destruct (Z.leb_spec (Z.max 1 max_depth) (default 0 (counts !! account))) as [Hfull|Hroom]; simpl; intros He.
  - destruct (counts !! account) as [m|] eqn:Hm; simpl in *; [|lia].
    rewrite lookup_insert_eq. split_and!; try done; [simpl; lia|]. intros _. by apply insert_id.
  - rewrite lookup_insert_eq. split_and!; try done. intros _. unfold leave_local_slot_wait. rewrite lookup_insert_eq.
    unfold sat_sub. destruct (counts !! account) as [m|] eqn:Hm; simpl.
    + specialize (Hok _ _ Hm). destruct (Z.eqb_spec (Z.max 0 (m + 1 - 1)) 0); [lia|]. rewrite insert_insert_eq.
      apply insert_id. rewrite Hm. f_equal. lia.
    + apply delete_insert_id. done.
Qed.

(** ** Facts: what a snapshot shows *)

Lemma keep_live_not_stale config now leases : stale_count (stale_after config) now (keep_live config now leases) = 0.
Proof.
  unfold stale_count. replace (retain _ _) with (@nil UpstreamLeaseRecord); [done|].
  symmetry. apply elem_of_nil_inv. intros record. rewrite retain_elem. unfold values. intros [Hs Hin].
  apply list_elem_of_fmap in Hin as ([lease_id r] & -> & Hin). apply elem_of_map_to_list in Hin.
  apply map_lookup_filter_Some in Hin as [_ Hlive]. simpl in *. unfold lease_live in Hlive.
  rewrite Hs, andb_false_r in Hlive. done.
Qed.

Lemma swept_not_stale config self upstream_id now :
  upstream_stale_lease_count (prune_expired_upstream_leases self now config).1 upstream_id (stale_after config) now = 0.
Proof.
  unfold upstream_stale_lease_count, upstream_leases, values.
  assert (forall l, Forall (fun leases => stale_count (stale_after config) now leases = 0) l ->
    sumZ (stale_count (stale_after config) now <$> l) = 0) as Hsum.
  { intros l. induction 1 as [|x l Hx Hl IH]; [done|]. rewrite fmap_cons. unfold sumZ in *. cbn [foldr]. lia. }
  apply Hsum, Forall_forall. intros leases Hin. apply list_elem_of_fmap in Hin as ([account l] & -> & Hin).
  apply elem_of_map_to_list, map_lookup_filter_Some in Hin as [Hin _]. simpl in *. unfold swept_leases in Hin.
  apply map_lookup_filter_Some in Hin as [Hin _]. rewrite lookup_fmap in Hin.
  destruct (lt_leases self !! account); simplify_eq/=. apply keep_live_not_stale.
Qed.

(** Only the first upstream of a snapshot shows its silent leases. The loop sweeps
    the whole table for every upstream, after counting only that one, so that the others
    always report none, although the count is documented as the state before the sweep. *)
Theorem snapshot_hides_stale_leases config windows self first others now lease_now :
  let '(_, snapshots) := upstream_runtime_snapshots config windows self
    ((first, lease_now) :: ((fun id => (id, lease_now)) <$> others)) now in
  (sn_stale_lease_count <$> snapshots.*2) =
    Z.min u32_max (upstream_stale_lease_count (ug_table self) first (stale_after config) lease_now) :: ((fun _ => 0) <$> others).
Proof.
  cbn [upstream_runtime_snapshots]. destruct (upstream_runtime_snapshot config self first _ _ _) as [self1 snapshot] eqn:H1.
  assert (forall others self1, (exists table, ug_table self1 = (prune_expired_upstream_leases table lease_now config).1) ->
    (sn_stale_lease_count <$> (upstream_runtime_snapshots config windows self1 ((fun id => (id, lease_now)) <$> others) now).2.*2)
      = (fun _ => 0) <$> others) as Hrest.
  { clear. induction others as [|id others IH]; intros self [table Htable]; [done|].
    pose proof (swept_not_stale config table id lease_now) as Hz. rewrite <- Htable in Hz.
    cbn [fmap list_fmap upstream_runtime_snapshots]. destruct (upstream_runtime_snapshot config self id _ _ _) as [self1 snapshot] eqn:H1.
    specialize (IH self1). unfold fmap in IH.
    destruct (upstream_runtime_snapshots config windows self1 _ now) as [final snapshots]. simpl in *.
    rewrite IH by (injection H1 as <- _; by eexists). f_equal.
    assert (sn_stale_lease_count snapshot =
      Z.min u32_max (upstream_stale_lease_count (ug_table self) id (stale_after config) lease_now)) as -> by (by injection H1 as _ <-).
    by rewrite Hz. }
  specialize (Hrest others self1). destruct (upstream_runtime_snapshots config windows self1 _ now) as [final snapshots].
  cbn [snd] in Hrest. rewrite !fmap_cons, Hrest by (injection H1 as <- _; by eexists). f_equal. by injection H1 as _ <-.
Qed.

(** ** Witnesses *)

Definition lease_config : LeaseConfig :=
  {| lc_upstream_lease_stale_after_ms := 90000; lc_upstream_local_lease_ttl_seconds := 300;
     lc_upstream_concurrency_probe_delays_ms := [2000; 5000] |}.

Definition one_slot : UpstreamLimits :=
  {| lim_id := "up"; lim_max_concurrency := 1; lim_request_quota_window_hours := 5;
     lim_requests_per_minute := 0; lim_request_quota_requests := 0 |}.

Definition at_second (s : Z) : Instant := from_secs s.

Definition one_held : UpstreamGate :=
  gate_run lease_config [Reserve one_slot "fp" "l1" (at_second 0) 0; Reserve one_slot "fp" "l2" (at_second 1) 1].

Definition first_lease : UpstreamRequestLease := {| ul_account := account_key "up" "fp"; ul_lease_id := "l1" |}.

(** The second request is refused, for as long as the first one delays of the probes. *)
Example one_slot_full :
  account_lease_count (ug_table one_held) (account_key "up" "fp") = 1 /\
  (try_reserve_upstream_account_request lease_config one_held one_slot "fp" "l3" (at_second 2) 2).2 =
    Err {| ue_message := "upstream request concurrency capacity is full"; ue_retry_after_seconds := 2;
           ue_reason := LocalConcurrency |}.
Proof. by vm_compute. Qed.

Lemma slots_bounded_witness : account_lease_count (ug_table one_held) (account_key "up" "fp") <= 1.
Proof.
  apply (slots_bounded lease_config [Reserve one_slot "fp" "l1" (at_second 0) 0; Reserve one_slot "fp" "l2" (at_second 1) 1]
    (account_key "up" "fp") 1).
  apply List.Forall_cons; [by intros _|]. apply List.Forall_cons; [by intros _|]. apply List.Forall_nil.
Defined.

Lemma heartbeat_keeps_slot_witness :
  beats lease_config
    (table_run lease_config [Renew first_lease (at_second 80); Sweep (at_second 160); Renew first_lease (at_second 165); Sweep (at_second 250)]
      (ug_table one_held)) first_lease (at_second 0) (at_second 165).
Proof.
  apply (heartbeat_keeps_slot lease_config
    [Renew first_lease (at_second 80); Sweep (at_second 160); Renew first_lease (at_second 165); Sweep (at_second 250)]
    (ug_table one_held) first_lease (at_second 0) (at_second 0)).
  - eexists. split_and!; [vm_compute; reflexivity|reflexivity..].
  - by vm_compute.
Defined.

Lemma lapsed_leases_block_hedges_witness :
  (try_reserve_upstream_account_hedge lease_config one_held one_slot "fp" "l3" (at_second 400) 400 (fun table => table)).1.(ug_table)
    = ug_table one_held.
Proof.
  apply (lapsed_leases_block_hedges lease_config one_held one_slot "fp" "l3" (at_second 400) 400 (fun table => table)).
  - by vm_compute.
  - by apply map_eq; intros i; vm_compute.
Defined.
