(* ===== verification/ModelGroups.v ===== *)
(** * Concurrency groups of a downstream key

    [src/src/state/types.rs]: the glob matcher of the patterns, the group that a model
    falls into, and the validation of the groups of a key.

    Text is a string of bytes; what is searched and cut is valid UTF-8, so that every
    index the matcher slices at is a boundary. *)

From S2P Require Import Prelude ModelIdentity Protocol.

Local Open Scope Z_scope.

(** ** Globs *)

Definition STAR : Ascii.ascii := Ascii.ascii_of_N 42.

(** The loop over the parts between the first and the last; [str::find] and the slice
    after what it found are the second half of [split_once]. *)
Fixpoint match_parts (parts : list byte_string) (remainder : byte_string) : option byte_string :=
  match parts with
  | [] => Some remainder
  | part :: parts =>
      if is_empty part then match_parts parts remainder
      else '(_, remainder) ← split_once part remainder; match_parts parts remainder
  end.

Definition glob_match_bytes (pattern text : byte_string) : bool :=
  match split_on STAR pattern with
  | [] => false
  | [_] => bool_decide (pattern = text)
  | first :: rest =>
      match strip_prefix first text with
      | None => false
      | Some remainder =>
          match match_parts (removelast rest) remainder with
          | None => false
          | Some remainder => is_some (strip_suffix (List.last rest []) remainder)
          end
      end
  end.

Definition glob_match_star (pattern text : string) : bool := glob_match_bytes (bytes pattern) (bytes text).

(** ** Groups *)

Record ModelConcurrencyGroup := {
  mg_name : string;
  mg_patterns : list string;
  mg_max_concurrency : Z
}.

(** The folding of a model or a pattern. *)
Definition group_needle (case_insensitive : bool) (model : string) : string :=
  if case_insensitive then to_ascii_lowercase (trim model) else trim model.

Definition group_matches (case_insensitive : bool) (needle : string) (group : ModelConcurrencyGroup) : bool :=
  existsb (fun pattern => glob_match_star (group_needle case_insensitive pattern) needle) (mg_patterns group).

Definition concurrency_group_for_model (groups : list ModelConcurrencyGroup) (model : string) (case_insensitive : bool)
    : option ModelConcurrencyGroup :=
  if is_empty groups || str_is_empty (trim model) then None
  else find (group_matches case_insensitive (group_needle case_insensitive model)) groups.

Inductive GroupsError :=
| GroupNameEmpty
| GroupNameDuplicate (name : string)
| GroupCapZero (name : string)
| GroupMatchEmpty (name : string)
| GroupPatternEmpty (name : string).

Definition validate_group (seen : gset string) (group : ModelConcurrencyGroup) : result (gset string) GroupsError :=
  let name := trim (mg_name group) in
  if str_is_empty name then Err GroupNameEmpty
  else if bool_decide (name ∈ seen) then Err (GroupNameDuplicate (mg_name group))
  else if mg_max_concurrency group =? 0 then Err (GroupCapZero (mg_name group))
  else if is_empty (mg_patterns group) then Err (GroupMatchEmpty (mg_name group))
  else if existsb (fun pattern => str_is_empty (trim pattern)) (mg_patterns group) then Err (GroupPatternEmpty (mg_name group))
  else Ok ({[name]} ∪ seen).

Fixpoint validate_groups (seen : gset string) (groups : list ModelConcurrencyGroup) : result unit GroupsError :=
  match groups with
  | [] => Ok tt
  | group :: groups =>
      match validate_group seen group with
      | Ok seen => validate_groups seen groups
      | Err error => Err error
      end
  end.

Definition validate_model_concurrency_groups (groups : list ModelConcurrencyGroup) : result unit GroupsError :=
  validate_groups ∅ groups.

(** ** The reference: what a glob matches *)

Inductive glob : byte_string -> byte_string -> Prop :=
| glob_nil : glob [] []
| glob_char c pattern text : c <> STAR -> glob pattern text -> glob (c :: pattern) (c :: text)
| glob_star pattern run text : glob pattern text -> glob (STAR :: pattern) (run ++ text).

(** The same by the parts between the stars. *)
Fixpoint parts_match (part : byte_string) (parts : list byte_string) (text : byte_string) : Prop :=
  match parts with
  | [] => text = part
  | next :: parts => exists run rest, text = part ++ run ++ rest /\ parts_match next parts rest
  end.

Lemma split_on_cons sep l : exists line lines, split_on sep l = line :: lines.
Proof.
  induction l as [|c l (line & lines & IH)]; simpl; [by repeat eexists|]. rewrite IH.
  case_bool_decide; by repeat eexists.
Qed.

Lemma parts_match_cons c part parts text :
  parts_match (c :: part) parts text <-> exists text', text = c :: text' /\ parts_match part parts text'.
Proof. destruct parts; simpl; [naive_solver|]. split; [|naive_solver]. intros (run & rest & -> & H). eexists. split; [done|]. by exists run, rest. Qed.

Lemma glob_parts pattern : forall text part parts,
  split_on STAR pattern = part :: parts -> glob pattern text <-> parts_match part parts text.
Proof.
  induction pattern as [|c pattern IH]; intros text part parts; simpl.
  - intros [= <- <-]. simpl. split; [by inversion 1|]. intros ->. constructor.
  - destruct (split_on_cons STAR pattern) as (line & lines & Hs). rewrite Hs. case_bool_decide as Hc; subst; intros [= <- <-].
    + simpl. split.
      * inversion 1; subst; [done|]. exists run, text0. split; [done|]. by apply IH.
      * intros (run & rest & -> & Hm). constructor. by eapply IH.
    + rewrite parts_match_cons. split.
      * inversion 1; subst; [|done]. eexists. split; [done|]. by apply IH.
      * intros (text' & -> & Hm). constructor; [done|]. by eapply IH.
Qed.

(** ** Facts: the leftmost occurrence is enough *)

Lemma split_once_spec pattern l :
  match split_once pattern l with
  | Some (before, after) =>
      l = before ++ pattern ++ after /\
      forall before' after', l = before' ++ pattern ++ after' -> exists more, after = more ++ after'
  | None => forall before' after', l <> before' ++ pattern ++ after'
  end.
Proof.
  assert (forall l rest, strip_prefix pattern l = Some rest <-> l = pattern ++ rest) as Hp by (intros; apply strip_prefix_Some).
  induction l as [|c l IH]; simpl.
  - destruct (strip_prefix pattern []) as [rest|] eqn:Hs.
    + apply Hp in Hs. split; [done|]. intros before' after' H. exists [].
      symmetry in Hs, H. apply app_nil in Hs as [-> ->], H as [-> H]. by apply app_nil in H as [_ ->].
    + intros before' after' H. symmetry in H. apply app_nil in H as [-> H]. symmetry in H. apply Hp in H. congruence.
  - destruct (strip_prefix pattern (c :: l)) as [rest|] eqn:Hs.
    + apply Hp in Hs. split; [done|]. intros before' after' H. rewrite Hs in H. revert H. clear.
      intros H. exists (take (length before') rest). rewrite <- (take_drop (length before') rest) at 1. f_equal.
      apply (f_equal (drop (length pattern + length before'))) in H.
      rewrite <- drop_drop, drop_app_length in H. rewrite H, app_assoc. apply drop_app_length'. rewrite length_app. lia.
    + destruct (split_once pattern l) as [[before after]|]; simpl.
      * destruct IH as [-> IH]. split; [done|]. intros [|c' before'] after' H; simpl in H.
        -- apply Hp in H. congruence.
        -- injection H as -> H. by eapply IH.
      * intros [|c' before'] after' H; simpl in H; [apply Hp in H; congruence|]. injection H as -> H. by eapply IH.
Qed.

(** What is left of a text matches when some tail of it does. *)
Definition tail_match (part : byte_string) (parts : list byte_string) (text : byte_string) : Prop :=
  exists run rest, text = run ++ rest /\ parts_match part parts rest.

Lemma tail_match_more more part parts text : tail_match part parts text -> tail_match part parts (more ++ text).
Proof. intros (run & rest & -> & H). exists (more ++ run), rest. by rewrite <- app_assoc. Qed.

Lemma strip_suffix_is_some p l : is_some (strip_suffix p l) = true <-> exists run, l = run ++ p.
Proof.
  unfold strip_suffix. split.
  - destruct (strip_prefix (reverse p) (reverse l)) as [rest|] eqn:Hs; simpl; [intros _|done].
    apply strip_prefix_Some in Hs. exists (reverse rest). apply (f_equal reverse) in Hs.
    by rewrite reverse_involutive, reverse_app, reverse_involutive in Hs.
  - intros [run ->]. rewrite reverse_app. by rewrite (proj2 (strip_prefix_Some (reverse p) _ (reverse run)) eq_refl).
Qed.

Definition ends_match (parts : list byte_string) (text : byte_string) : bool :=
  match match_parts (removelast parts) text with
  | Some remainder => is_some (strip_suffix (List.last parts []) remainder)
  | None => false
  end.

Lemma greedy_match parts : forall part text, ends_match (part :: parts) text = true <-> tail_match part parts text.
Proof.
  induction parts as [|next parts IH]; intros part text.
  - unfold ends_match, tail_match. simpl. rewrite strip_suffix_is_some. naive_solver.
  - assert (ends_match (part :: next :: parts) text =
      if is_empty part then ends_match (next :: parts) text
      else match split_once part text with Some (_, after) => ends_match (next :: parts) after | None => false end) as ->.
    { unfold ends_match. cbn [removelast List.last match_parts]. destruct (is_empty part); [done|].
      by destruct (split_once part text) as [[? ?]|]. }
    destruct part as [|c part]; cbn [is_empty].
    + rewrite IH. unfold tail_match. simpl. split.
      * intros (run & rest & -> & H). exists [], (run ++ rest). split; [done|]. by exists run, rest.
      * intros (run & rest & -> & run' & rest' & -> & H). exists (run ++ run'), rest'. by rewrite <- app_assoc.
    + pose proof (split_once_spec (c :: part) text) as Hs. destruct (split_once (c :: part) text) as [[before after]|].
      * destruct Hs as [-> Hleft]. rewrite IH. split.
        -- intros (run & rest & -> & H). exists before, ((c :: part) ++ run ++ rest). split; [done|]. by exists run, rest.
        -- intros (run & rest & Ht & run' & rest' & -> & H). destruct (Hleft run (run' ++ rest')) as [more ->]; [done|].
           apply tail_match_more. by exists run', rest'.
      * split; [done|]. intros (run & rest & Ht & run' & rest' & -> & H). by destruct (Hs run (run' ++ rest')).
Qed.

(** The matcher is the usual relation of globs. Although it takes the leftmost
    occurrence of every part and never tries another one, it accepts exactly the texts
    that the pattern describes, a star standing for any run of bytes, empty or not. *)
Lemma glob_match_star_spec pattern text : glob_match_star pattern text = true <-> glob (bytes pattern) (bytes text).
Proof.
  unfold glob_match_star. generalize (bytes pattern) as p, (bytes text) as t. intros p t. unfold glob_match_bytes.
  destruct (split_on_cons STAR p) as (first & rest & Hs). rewrite Hs, (glob_parts p t first rest Hs).
  destruct rest as [|next parts].
  - assert (p = first) as ->.
    { clear t. revert first Hs. induction p as [|c p IH]; intros first; simpl; [by intros [= <-]|].
      case_bool_decide; [by destruct (split_on_cons STAR p) as (? & ? & ->)|].
      destruct (split_on_cons STAR p) as (line & lines & Hl). rewrite Hl in *.
      destruct lines; intros [= <-]. by rewrite (IH line). }
    rewrite bool_decide_eq_true. simpl. naive_solver.
  - transitivity (exists remainder, t = first ++ remainder /\ tail_match next parts remainder).
    + destruct (strip_prefix first t) as [remainder|] eqn:Hp.
      * apply strip_prefix_Some in Hp as ->. fold (ends_match (next :: parts) remainder). rewrite greedy_match. split; [naive_solver|].
        intros (r & H & Hm). by apply app_inv_head in H as ->.
      * split; [done|]. intros (r & -> & Hm). by rewrite (proj2 (strip_prefix_Some first _ r) eq_refl) in Hp.
    + simpl. unfold tail_match. split.
      * intros (r & -> & run & rest & -> & H). by exists run, rest.
      * intros (run & rest & -> & H). eexists. split; [done|]. by exists run, rest.
Qed.

(** ** The group of a model *)

(** A group that describes a model, declaratively. *)
Definition describes (case_insensitive : bool) (model : string) (group : ModelConcurrencyGroup) : Prop :=
  exists pattern, pattern ∈ mg_patterns group /\
    glob (bytes (group_needle case_insensitive pattern)) (bytes (group_needle case_insensitive model)).

Lemma group_matches_spec case_insensitive model group :
  group_matches case_insensitive (group_needle case_insensitive model) group = true <-> describes case_insensitive model group.
Proof.
  unfold group_matches, describes. rewrite existsb_elem. by setoid_rewrite glob_match_star_spec.
Qed.

(** A model falls into the first group that describes it, and into none exactly when
    no group does or the model is blank, where describing is the relation of globs: a star
    stands for any run of bytes. The matcher takes the leftmost occurrence of every part
    and never tries another one, and still decides that relation. *)
Theorem first_group_wins groups model case_insensitive :
  match concurrency_group_for_model groups model case_insensitive with
  | Some group =>
      exists before after, groups = before ++ group :: after /\ describes case_insensitive model group /\
        forall other, other ∈ before -> ~ describes case_insensitive model other
  | None => trim model = "" \/ forall group, group ∈ groups -> ~ describes case_insensitive model group
  end.
Proof.
  unfold concurrency_group_for_model. destruct (is_empty groups) eqn:Hempty; simpl.
  { right. destruct groups; [|done]. intros group Hg. by apply elem_of_nil in Hg. }
  destruct (str_is_empty (trim model)) eqn:Hblank; [left; by apply String.eqb_eq|]. clear Hempty.
  induction groups as [|group groups IH]; simpl; [right; intros ? ?%elem_of_nil; done|].
  destruct (group_matches _ _ group) eqn:Hm.
  - exists [], groups. split_and!; [done|by apply group_matches_spec|]. intros ? ?%elem_of_nil; done.
  - assert (~ describes case_insensitive model group) as Hnot by (rewrite <- group_matches_spec, Hm; done).
    destruct (find _ groups) as [found|].
    + destruct IH as (before & after & -> & Hd & Hb). exists (group :: before), after. split_and!; try done.
      intros other [->|Ho]%elem_of_cons; [done|by apply Hb].
    + right. destruct IH as [IH|IH]; [by apply String.eqb_neq in Hblank|].
      intros other [->|Ho]%elem_of_cons; [done|by apply IH].
Qed.

(** Groups as the validation wants them. *)
Record group_ok (group : ModelConcurrencyGroup) : Prop := {
  gok_name : trim (mg_name group) <> "";
  gok_cap : mg_max_concurrency group <> 0;
  gok_patterns : mg_patterns group <> [];
  gok_no_blank : forall pattern, pattern ∈ mg_patterns group -> trim pattern <> ""
}.

Lemma validate_group_spec seen group :
  validate_group seen group = Ok ({[trim (mg_name group)]} ∪ seen) <->
  group_ok group /\ trim (mg_name group) ∉ seen.
Proof.
  unfold validate_group, str_is_empty. split.
  - destruct (String.eqb_spec (trim (mg_name group)) "") as [He|He]; [done|]. case_bool_decide; [done|].
    destruct (Z.eqb_spec (mg_max_concurrency group) 0); [done|]. destruct (is_empty (mg_patterns group)) eqn:Hp; [done|].
    destruct (existsb _ _) eqn:Hb; [done|]. intros _. split; [|done]. split; try done.
    + intros Hnil. by rewrite Hnil in Hp.
    + intros pattern Hin Hblank. apply not_true_iff_false in Hb. apply Hb, existsb_elem. exists pattern.
      split; [done|]. by apply String.eqb_eq.
  - intros [[H1 H2 H3 H4] H5]. apply String.eqb_neq in H1. rewrite H1, bool_decide_eq_false_2 by done. apply Z.eqb_neq in H2. rewrite H2.
    destruct (mg_patterns group) as [|p ps] eqn:Hps; [done|]. cbn [is_empty].
    destruct (existsb _ _) eqn:Hb; [|done]. apply existsb_elem in Hb as (pattern & Hin & Hblank).
    by apply String.eqb_eq, H4 in Hblank.
Qed.

Lemma validate_groups_spec groups : forall seen,
  validate_groups seen groups = Ok tt <->
  Forall group_ok groups /\ NoDup ((fun group => trim (mg_name group)) <$> groups) /\
  forall group, group ∈ groups -> trim (mg_name group) ∉ seen.
Proof.
  induction groups as [|group groups IH]; intros seen; simpl.
  { split; [|done]. intros _. split_and!; [done|constructor|]. intros ? ?%elem_of_nil; done. }
  destruct (validate_group seen group) as [seen'|error] eqn:Hv.
  - assert (seen' = {[trim (mg_name group)]} ∪ seen) as -> by (revert Hv; unfold validate_group; repeat case_match; congruence).
    apply validate_group_spec in Hv as [Hok Hnew]. rewrite IH, Forall_cons, NoDup_cons. setoid_rewrite elem_of_cons.
    setoid_rewrite not_elem_of_union. setoid_rewrite not_elem_of_singleton.
    split.
    + intros (H1 & H2 & H3). split_and!; try done; [|intros g [->|Hg]; [done|by apply H3]].
      intros Hin. apply list_elem_of_fmap in Hin as (g & Hg & Hin). by destruct (H3 g Hin).
    + intros ((_ & H1) & (Hn & H2) & H3). split_and!; try done. intros g Hg. split; [|apply H3; by right].
      intros He. apply Hn. apply list_elem_of_fmap. by exists g.
  - split; [done|]. intros ([Hok _]%Forall_cons & _ & H). assert (trim (mg_name group) ∉ seen) as Hnew by (apply H; left; done).
    rewrite (proj2 (validate_group_spec seen group) (conj Hok Hnew)) in Hv. done.
Qed.

(** What the validation of the groups promises: named, distinct after trimming, with a
    capacity and with patterns that are not blank. *)
Theorem validated_groups groups :
  validate_model_concurrency_groups groups = Ok tt <->
  Forall group_ok groups /\ NoDup ((fun group => trim (mg_name group)) <$> groups).
Proof.
  unfold validate_model_concurrency_groups. rewrite validate_groups_spec. set_solver.
Qed.

(** The unit test of the matcher claims the second of these to match. *)
Example prefix_keeps_its_dash :
  glob_match_star "deepseek-*" "deepseek-v4" = true /\ glob_match_star "deepseek-*" "deepseek" = false /\
  glob_match_star "d*e*1" "deepseek-v4-flash-0731" = true /\ glob_match_star "a*b" "aXbY" = false.
Proof. by vm_compute. Qed.
