(* ===== verification/DownstreamAdmission.v ===== *)
(** * Admission of downstream requests

    The gate in front of every downstream key, [src/src/state.rs] with
    [src/src/state/usage.rs], [src/src/state/cost_scope.rs] and
    [src/src/state/types.rs]: the sliding windows of requests and of costs, and the
    concurrency leases of a key and of its model groups.

    Only the local backend is modelled. The request windows, the cost windows and the
    table of leases each have a lock; a reservation holds the first one from beginning
    to end. The clock is an argument, read as often as the code reads it: seconds for the
    windows, milliseconds for the leases. Fresh UUIDs are arguments. *)

From S2P Require Import Prelude RouteTypes AccountConcurrency UpstreamLeases ModelIdentity ModelGroups.

Local Open Scope Z_scope.

(** ** Configuration *)

(** The fields of a [DownstreamConfig] that admission reads. *)
Record DownstreamConfig := {
  dc_id : string;
  dc_rate_limit_enabled : bool;
  dc_per_minute_limit : Z;
  dc_max_concurrency : Z;
  dc_input_token_price_per_million_cents : option Z;
  dc_output_token_price_per_million_cents : option Z;
  dc_request_quota_window_hours : option Z;
  dc_request_quota_requests : option Z;
  dc_billing_mode : string;
  dc_model_concurrency_groups : list ModelConcurrencyGroup
}.

Definition uses_request_quota (self : DownstreamConfig) : bool :=
  dc_rate_limit_enabled self && is_some (dc_request_quota_window_hours self) && is_some (dc_request_quota_requests self).

Definition billing_mode (self : DownstreamConfig) : string :=
  if String.eqb (dc_billing_mode self) "token" then "token" else "request".

Definition token_billing_mode (self : DownstreamConfig) : bool := String.eqb (billing_mode self) "token".

Definition has_cost_pricing (self : DownstreamConfig) : bool :=
  token_billing_mode self &&
  (is_some (dc_input_token_price_per_million_cents self) || is_some (dc_output_token_price_per_million_cents self)).

(** The sum of two 128-bit costs is truncated to 64 bits. *)
Definition cost_for_tokens (self : DownstreamConfig) (input_tokens output_tokens : Z) : Z :=
  let cost price tokens := map_or 0 (fun price => tokens * price / 1000000) price in
  (cost (dc_input_token_price_per_million_cents self) input_tokens
   + cost (dc_output_token_price_per_million_cents self) output_tokens) mod (u64_max + 1).

Record CostScope := {
  cs_scope_id : string;
  cs_daily_limit_cents : option Z
}.

Definition is_limited (self : CostScope) : bool := is_some_and (fun limit => 0 <? limit) (cs_daily_limit_cents self).

Definition resolve_cost_scope (downstream_id : string) (owners : gmap string string) (limits : gmap string Z) : CostScope :=
  let scope_id := default downstream_id (owners !! downstream_id) in
  {| cs_scope_id := scope_id; cs_daily_limit_cents := opt_filter (fun limit => 0 <? limit) (limits !! scope_id) |}.

(** ** Windows *)

Record DownstreamRequestEvent := { re_event_id : string; re_created_at : Z }.
Record DownstreamTokenEvent := { te_created_at : Z; te_tokens : Z }.

Definition DOWNSTREAM_DAILY_TOKEN_WINDOW_SECONDS : Z := 24 * 60 * 60.

Definition downstream_token_retention_seconds (downstream : DownstreamConfig) (scope : CostScope) : Z :=
  if has_cost_pricing downstream && is_limited scope then DOWNSTREAM_DAILY_TOKEN_WINDOW_SECONDS else 60.

Fixpoint token_retry_loop (events : list DownstreamTokenEvent) (freed now window_seconds deficit : Z) : Z :=
  match events with
  | [] => Z.max 1 window_seconds
  | event :: events =>
      let freed := sat_add u64_max freed (te_tokens event) in
      if deficit <=? freed then Z.max 1 (sat_sub (sat_add u64_max (te_created_at event) window_seconds) now)
      else token_retry_loop events freed now window_seconds deficit
  end.

Definition downstream_token_retry_after_seconds (events : list DownstreamTokenEvent) (now window_seconds deficit : Z) : Z :=
  if deficit =? 0 then 1 else token_retry_loop events 0 now window_seconds deficit.

Inductive DownstreamAdmissionRejection :=
| ConcurrencyLimitExceeded (retry_after_seconds limit : Z) (group : option string)
| PerMinuteLimitExceeded (retry_after_seconds limit used : Z)
| RequestQuotaExceeded (retry_after_seconds limit used window_seconds : Z)
| DailyCostQuotaExceeded (retry_after_seconds limit used : Z).

Definition rejection_retry_after_seconds (self : DownstreamAdmissionRejection) : Z :=
  match self with
  | ConcurrencyLimitExceeded retry_after _ _ | PerMinuteLimitExceeded retry_after _ _
  | RequestQuotaExceeded retry_after _ _ _ | DailyCostQuotaExceeded retry_after _ _ => Z.max 1 retry_after
  end.

Record DownstreamRequestReservation := {
  rv_downstream_id : string;
  rv_event_id : option string
}.

(** ** Leases *)

Record DownstreamLeaseState := {
  dl_admitted : gmap string Z;
  dl_waiting : gset string
}.

Definition DownstreamLeaseState_default : DownstreamLeaseState := {| dl_admitted := ∅; dl_waiting := ∅ |}.

Definition lease_state_prune_expired (self : DownstreamLeaseState) (now_ms : Z) : DownstreamLeaseState :=
  let admitted := filter (fun '(_, expires_at) => now_ms < expires_at) (dl_admitted self) in
  {| dl_admitted := admitted; dl_waiting := filter (fun lease_id => is_Some (admitted !! lease_id)) (dl_waiting self) |}.

Definition lease_state_is_empty (self : DownstreamLeaseState) : bool :=
  bool_decide (dl_admitted self = ∅) && bool_decide (dl_waiting self = ∅).

(** [DownstreamLeaseKey]: the key and the name of the group. *)
Abbreviation runtime_table := (gmap (string * string) DownstreamLeaseState).

Definition admitted_count (self : DownstreamLeaseState) : Z := Z.of_nat (size (dl_admitted self)).

Definition downstream_total_admitted (runtime : runtime_table) (downstream_id : string) : Z :=
  sumZ (admitted_count <$> values (filter (fun '((id, _), _) => id = downstream_id) runtime)).

Record DownstreamConcurrencyLease := {
  cl_downstream_id : string;
  cl_group_name : string;
  cl_lease_id : option string
}.

Record DownstreamGate := {
  dg_request_windows : gmap string (list DownstreamRequestEvent);
  dg_token_windows : gmap string (list DownstreamTokenEvent);
  dg_runtime : runtime_table
}.

Definition DownstreamGate_default : DownstreamGate :=
  {| dg_request_windows := ∅; dg_token_windows := ∅; dg_runtime := ∅ |}.

(** ** Reserving a request *)

Definition count_since {A} (created_at : A -> Z) (start : Z) (events : list A) : Z :=
  Z.of_nat (length (retain (fun event => start <=? created_at event) events)).

Definition oldest_since {A} (created_at : A -> Z) (start now : Z) (events : list A) : Z :=
  map_or now created_at (find (fun event => start <=? created_at event) events).

Definition request_quota_window (downstream : DownstreamConfig) : option Z :=
  match dc_request_quota_window_hours downstream, dc_request_quota_requests downstream with
  | Some hours, Some _ => Some (sat_mul u64_max (Z.max 1 hours) (60 * 60))
  | _, _ => None
  end.

(** The check of a window of so many seconds. *)
Definition window_full (events : list DownstreamRequestEvent) (now seconds limit : Z) : option Z :=
  let start := sat_sub now (sat_sub seconds 1) in
  if limit <=? count_since re_created_at start events
  then Some (Z.max 1 (sat_sub (sat_add u64_max (oldest_since re_created_at start now events) seconds) now))
  else None.

Definition check_quota (downstream : DownstreamConfig) (window : list DownstreamRequestEvent) (now : Z)
    : option DownstreamAdmissionRejection :=
  if token_billing_mode downstream then None
  else
    seconds ← request_quota_window downstream;
    let limit := Z.max 1 (default 0 (dc_request_quota_requests downstream)) in
    retry_after ← window_full window now seconds limit;
    Some (RequestQuotaExceeded retry_after limit
      (count_since re_created_at (sat_sub now (sat_sub seconds 1)) window) seconds).

Definition check_minute (downstream : DownstreamConfig) (window : list DownstreamRequestEvent) (now : Z)
    : option DownstreamAdmissionRejection :=
  retry_after ← window_full window now 60 (dc_per_minute_limit downstream);
  Some (PerMinuteLimitExceeded retry_after (dc_per_minute_limit downstream)
    (count_since re_created_at (sat_sub now 59) window)).

(** The cost window of the scope is only looked at, and shortened, if the scope has a limit. *)
Definition check_cost (downstream : DownstreamConfig) (cost_scope : CostScope)
    (token_windows : gmap string (list DownstreamTokenEvent)) (now : Z)
    : gmap string (list DownstreamTokenEvent) * option DownstreamAdmissionRejection :=
  match opt_filter (fun limit => 0 <? limit) (cs_daily_limit_cents cost_scope) with
  | None => (token_windows, None)
  | Some daily_cost_limit =>
      let start := sat_sub now (sat_sub (downstream_token_retention_seconds downstream cost_scope) 1) in
      let window := drop_while (fun event => te_created_at event <? start)
        (default [] (token_windows !! cs_scope_id cost_scope)) in
      let token_windows := <[cs_scope_id cost_scope := window]> token_windows in
      let day := sat_sub now (sat_sub DOWNSTREAM_DAILY_TOKEN_WINDOW_SECONDS 1) in
      let daily_used := sumZ (te_tokens <$> retain (fun event => day <=? te_created_at event) window) in
      let limit := Z.max 1 daily_cost_limit in
      if limit <=? daily_used then
        (token_windows,
         Some (DailyCostQuotaExceeded
           (Z.max 1 (downstream_token_retry_after_seconds window now DOWNSTREAM_DAILY_TOKEN_WINDOW_SECONDS
             (sat_sub (sat_add u64_max daily_used 1) limit))) limit daily_used))
      else (token_windows, None)
  end.

Definition request_window (self : DownstreamGate) (downstream_id : string) : list DownstreamRequestEvent :=
  default [] (dg_request_windows self !! downstream_id).

Definition put_window (self : DownstreamGate) (downstream_id : string) (window : list DownstreamRequestEvent) : DownstreamGate :=
  {| self with dg_request_windows := <[downstream_id := window]> (dg_request_windows self) |}.

Definition retained_window (self : DownstreamGate) (downstream : DownstreamConfig) (now : Z) : list DownstreamRequestEvent :=
  let retention_seconds := Z.max 60 (default 60 (request_quota_window downstream)) in
  drop_while (fun event => re_created_at event <? sat_sub now (sat_sub retention_seconds 1))
    (request_window self (dc_id downstream)).

Definition reserve_downstream_request (self : DownstreamGate) (downstream : DownstreamConfig) (cost_scope : CostScope)
    (event_id : string) (now : Z) : DownstreamGate * result DownstreamRequestReservation DownstreamAdmissionRejection :=
  if negb (dc_rate_limit_enabled downstream) then
    (self, Ok {| rv_downstream_id := dc_id downstream; rv_event_id := None |})
  else
    let window := retained_window self downstream now in
    let self := put_window self (dc_id downstream) window in
    match or_else (check_minute downstream window now) (check_quota downstream window now) with
    | Some rejection => (self, Err rejection)
    | None =>
        let '(token_windows, rejected) := check_cost downstream cost_scope (dg_token_windows self) now in
        let self := {| self with dg_token_windows := token_windows |} in
        match rejected with
        | Some rejection => (self, Err rejection)
        | None =>
            (put_window self (dc_id downstream) (window ++ [{| re_event_id := event_id; re_created_at := now |}]),
             Ok {| rv_downstream_id := dc_id downstream; rv_event_id := Some event_id |})
        end
    end.

Definition rollback_downstream_request_reservation (self : DownstreamGate) (reservation : DownstreamRequestReservation)
    : DownstreamGate :=
  match rv_event_id reservation with
  | None => self
  | Some event_id =>
      match dg_request_windows self !! rv_downstream_id reservation with
      | None => self
      | Some window =>
          let window := retain (fun event => negb (String.eqb (re_event_id event) event_id)) window in
          {| self with dg_request_windows :=
               if is_empty window then delete (rv_downstream_id reservation) (dg_request_windows self)
               else <[rv_downstream_id reservation := window]> (dg_request_windows self) |}
      end
  end.

(** ** Reserving a lease *)

Definition concurrency_exceeded (limit : Z) (group : option string) : DownstreamAdmissionRejection :=
  ConcurrencyLimitExceeded 1 limit group.

(** The part of [AppConfig] that gives the lifetime of a lease. *)
Definition lease_duration_ms (ttl_seconds : Z) : Z := Z.max 60000 (sat_mul u64_max ttl_seconds 1000).

Definition unlimited_lease (downstream : DownstreamConfig) : DownstreamConcurrencyLease :=
  {| cl_downstream_id := dc_id downstream; cl_group_name := ""; cl_lease_id := None |}.

Definition lease_state (runtime : runtime_table) (key : string * string) : DownstreamLeaseState :=
  default DownstreamLeaseState_default (runtime !! key).

Definition group_limit (limit : option ModelConcurrencyGroup) : option Z :=
  (fun group => Z.max 1 (mg_max_concurrency group)) <$> limit.

(** [now_group], [now_prune] and [now_insert] are the readings of the clock. *)
Definition try_reserve_downstream_concurrency (runtime : runtime_table) (ttl_seconds : Z) (downstream : DownstreamConfig)
    (model : string) (case_insensitive : bool) (lease_id : string) (now_group now_prune now_insert : Z)
    : runtime_table * result DownstreamConcurrencyLease DownstreamAdmissionRejection :=
  if negb (dc_rate_limit_enabled downstream) then (runtime, Ok (unlimited_lease downstream))
  else
    let group := concurrency_group_for_model (dc_model_concurrency_groups downstream) model case_insensitive in
    let group_name := map_or "" mg_name group in
    let key := (dc_id downstream, group_name) in
    let global_limit := Z.max 1 (dc_max_concurrency downstream) in
    let runtime :=
      match group with
      | Some _ => <[key := lease_state_prune_expired (lease_state runtime key) now_group]> runtime
      | None => runtime
      end in
    if is_some_and (fun group_cap => group_cap <=? admitted_count (lease_state runtime key)) (group_limit group) then
      (runtime, Err (concurrency_exceeded (default 0 (group_limit group)) (Some group_name)))
    else if global_limit <=? downstream_total_admitted runtime (dc_id downstream) then
      (runtime, Err (concurrency_exceeded global_limit (if str_is_empty group_name then None else Some group_name)))
    else
      let current := lease_state_prune_expired (lease_state runtime key) now_prune in
      let expires_at := sat_add u64_max now_insert (lease_duration_ms ttl_seconds) in
      (<[key := {| current with dl_admitted := <[lease_id := expires_at]> (dl_admitted current) |}]> runtime,
       Ok {| cl_downstream_id := dc_id downstream; cl_group_name := group_name; cl_lease_id := Some lease_id |}).

(** Both reservations; a lease that is refused gives the request back. *)
Definition reserve_downstream_admission (self : DownstreamGate) (ttl_seconds : Z) (downstream : DownstreamConfig)
    (cost_scope : CostScope) (model : string) (case_insensitive : bool) (event_id lease_id : string)
    (now now_group now_prune now_insert : Z) (between : DownstreamGate -> DownstreamGate)
    : DownstreamGate * result (DownstreamRequestReservation * DownstreamConcurrencyLease) DownstreamAdmissionRejection :=
  if negb (dc_rate_limit_enabled downstream) then
    (self, Ok ({| rv_downstream_id := dc_id downstream; rv_event_id := None |}, unlimited_lease downstream))
  else
    let '(self, reserved) := reserve_downstream_request self downstream cost_scope event_id now in
    match reserved with
    | Err rejection => (self, Err rejection)
    | Ok reservation =>
        let self := between self in
        let '(runtime, leased) := try_reserve_downstream_concurrency (dg_runtime self) ttl_seconds downstream model
          case_insensitive lease_id now_group now_prune now_insert in
        let self := {| self with dg_runtime := runtime |} in
        match leased with
        | Ok lease => (self, Ok (reservation, lease))
        | Err rejection => (rollback_downstream_request_reservation self reservation, Err rejection)
        end
    end.

(** ** Holding and releasing a lease *)

Definition remove_lease_id (state : DownstreamLeaseState) (lease_id : string) : DownstreamLeaseState :=
  {| dl_admitted := delete lease_id (dl_admitted state); dl_waiting := dl_waiting state ∖ {[lease_id]} |}.

Definition lease_key (lease : DownstreamConcurrencyLease) : string * string :=
  (cl_downstream_id lease, cl_group_name lease).

(** The state of the lease is removed, and its entry with the last one; the boolean says
    whether the entry was. *)
Definition drop_lease (runtime : runtime_table) (lease : DownstreamConcurrencyLease) (lease_id : string)
    : runtime_table * bool :=
  match runtime !! lease_key lease with
  | None => (runtime, false)
  | Some state =>
      let state := remove_lease_id state lease_id in
      if lease_state_is_empty state then (delete (lease_key lease) runtime, true)
      else (<[lease_key lease := state]> runtime, false)
  end.

Definition release_downstream_concurrency (runtime : runtime_table) (release : ReleaseState) (lease : DownstreamConcurrencyLease)
    : runtime_table * ReleaseState * result unit unit :=
  let '(release, guard) := LeaseReleaseGuard_acquire release in
  match guard with
  | Err error => (runtime, release, Err error)
  | Ok false => (runtime, release, Ok tt)
  | Ok true =>
      let runtime := match cl_lease_id lease with Some lease_id => (drop_lease runtime lease lease_id).1 | None => runtime end in
      (runtime, Released, Ok tt)
  end.

Definition expire_downstream_request_lease_sync (runtime : runtime_table) (release : ReleaseState)
    (lease : DownstreamConcurrencyLease) : runtime_table * ReleaseState * bool :=
  match cl_lease_id lease with
  | None => (runtime, release, false)
  | Some lease_id =>
      match LeaseReleaseGuard_acquire release with
      | (_, Ok true) => let '(runtime, removed) := drop_lease runtime lease lease_id in (runtime, Released, removed)
      | (release, _) => (runtime, release, false)
      end
  end.

Definition renew_downstream_concurrency (runtime : runtime_table) (ttl_seconds : Z) (lease : DownstreamConcurrencyLease)
    (now : Z) : runtime_table :=
  match cl_lease_id lease with
  | None => runtime
  | Some lease_id =>
      match runtime !! lease_key lease with
      | None => runtime
      | Some state =>
          if is_some (dl_admitted state !! lease_id) then
            <[lease_key lease := {| state with dl_admitted :=
              <[lease_id := sat_add u64_max now (lease_duration_ms ttl_seconds)]> (dl_admitted state) |}]> runtime
          else runtime
      end
  end.

Definition mark_downstream_waiting (runtime : runtime_table) (lease : DownstreamConcurrencyLease) (now : Z)
    : runtime_table * result unit unit :=
  match cl_lease_id lease with
  | None => (runtime, Ok tt)
  | Some lease_id =>
      match runtime !! lease_key lease with
      | None => (runtime, Err tt)
      | Some state =>
          let state := lease_state_prune_expired state now in
          if is_some (dl_admitted state !! lease_id) then
            (<[lease_key lease := {| state with dl_waiting := {[lease_id]} ∪ dl_waiting state |}]> runtime, Ok tt)
          else (<[lease_key lease := state]> runtime, Err tt)
      end
  end.

Definition unmark_downstream_waiting (runtime : runtime_table) (lease : DownstreamConcurrencyLease) : runtime_table :=
  match cl_lease_id lease with
  | None => runtime
  | Some lease_id =>
      match runtime !! lease_key lease with
      | None => runtime
      | Some state => <[lease_key lease := {| state with dl_waiting := dl_waiting state ∖ {[lease_id]} |}]> runtime
      end
  end.

(** ** Snapshots and clearing *)

Record DownstreamRuntimeCounts := { rc_admitted : Z; rc_waiting_upstream : Z; rc_running : Z }.

(** The entries of a key, each with the clock that it reads. *)
Definition prune_key (runtime : runtime_table) (downstream_id : string) (now : string * string -> Z) : runtime_table :=
  map_imap (fun key state =>
    Some (if String.eqb key.1 downstream_id && negb (lease_state_is_empty state) then lease_state_prune_expired state (now key) else state))
    runtime.

Definition key_states (runtime : runtime_table) (downstream_id : string) : list DownstreamLeaseState :=
  values (filter (fun '((id, _), _) => id = downstream_id) runtime).

Definition sat_sum (counts : list Z) : Z := foldl (fun acc n => sat_add u32_max acc (Z.min u32_max n)) 0 counts.

Definition downstream_runtime_snapshot (runtime : runtime_table) (downstream_id : string) (now : string * string -> Z)
    : runtime_table * result DownstreamRuntimeCounts unit :=
  let runtime := prune_key runtime downstream_id now in
  let admitted := sat_sum (admitted_count <$> key_states runtime downstream_id) in
  let waiting_upstream :=
    sat_sum ((fun state => Z.of_nat (size (dl_waiting state))) <$> key_states runtime downstream_id) in
  (runtime,
   if admitted <? waiting_upstream then Err tt
   else Ok {| rc_admitted := admitted; rc_waiting_upstream := waiting_upstream; rc_running := admitted - waiting_upstream |}).

Definition clear_downstream_runtime (self : DownstreamGate) (downstream_id : string) : DownstreamGate :=
  {| dg_request_windows := delete downstream_id (dg_request_windows self);
     dg_token_windows := delete downstream_id (dg_token_windows self);
     dg_runtime := filter (fun '((id, _), _) => id <> downstream_id) (dg_runtime self) |}.

(** ** Recording a cost *)

Record UsageEvent := {
  us_downstream_key_id : string;
  us_status_code : Z;
  us_created_at : Z;
  us_prompt_tokens : Z;
  us_completion_tokens : Z;
  us_total_cost_cents : option Z
}.

Definition is_request_quota_counted (log : UsageEvent) : bool :=
  negb (us_status_code log =? 429) && (us_status_code log <? 500).

(** [record_downstream_usage_event]; [downstream] is the configuration of the key that
    the log names, if there is one. *)
Definition record_downstream_usage_event (self : DownstreamGate) (downstream : option DownstreamConfig) (scope : CostScope)
    (log : UsageEvent) : DownstreamGate :=
  if negb (is_request_quota_counted log) then self
  else
    match opt_filter (fun downstream => dc_rate_limit_enabled downstream && has_cost_pricing downstream && is_limited scope)
            downstream with
    | None => self
    | Some downstream =>
        let value := default (cost_for_tokens downstream (us_prompt_tokens log) (us_completion_tokens log)) (us_total_cost_cents log) in
        {| self with dg_token_windows :=
             <[cs_scope_id scope := default [] (dg_token_windows self !! cs_scope_id scope)
               ++ [{| te_created_at := us_created_at log; te_tokens := value |}]]> (dg_token_windows self) |}
    end.

(** ** Facts: counting leases *)

Lemma sumZ_perm l1 l2 : l1 ≡ₚ l2 -> sumZ l1 = sumZ l2.
Proof. unfold sumZ. induction 1; simpl; lia. Qed.

Lemma admitted_default : admitted_count DownstreamLeaseState_default = 0.
Proof. unfold admitted_count. simpl dl_admitted. by rewrite map_size_empty. Qed.

Lemma admitted_nonneg state : 0 <= admitted_count state.
Proof. unfold admitted_count. lia. Qed.

Lemma total_insert (runtime : runtime_table) key state id :
  runtime !! key = None ->
  downstream_total_admitted (<[key := state]> runtime) id =
    (if bool_decide (key.1 = id) then admitted_count state else 0) + downstream_total_admitted runtime id.
Proof.
  intros Hnew. unfold downstream_total_admitted, values. destruct key as [i g]. simpl. case_bool_decide as Hi.
  - rewrite map_filter_insert_True by done.
    assert (filter (fun '((j, _), _) => j = id) runtime !! (i, g) = None) as Hf by (apply map_lookup_filter_None; by left).
    rewrite (sumZ_perm _ (admitted_count state :: (admitted_count <$> (map_to_list (filter (fun '((j, _), _) => j = id) runtime)).*2))); [done|].
    by rewrite (map_to_list_insert _ _ _ Hf).
  - rewrite map_filter_insert_False, delete_id by done. lia.
Qed.

Lemma total_delete (runtime : runtime_table) key id :
  downstream_total_admitted runtime id =
    (if bool_decide (key.1 = id) then admitted_count (lease_state runtime key) else 0) +
    downstream_total_admitted (delete key runtime) id.
Proof.
  destruct (runtime !! key) as [state|] eqn:Hk.
  - rewrite <- (insert_delete_id runtime key state Hk) at 1. rewrite total_insert by apply lookup_delete_eq.
    unfold lease_state. by rewrite Hk.
  - rewrite delete_id by done. unfold lease_state. rewrite Hk. simpl. rewrite admitted_default. by case_bool_decide.
Qed.

Lemma total_nonneg (runtime : runtime_table) id : 0 <= downstream_total_admitted runtime id.
Proof.
  unfold downstream_total_admitted, sumZ. generalize (values (filter (fun '((j, _), _) => j = id) runtime)). intros l.
  induction l as [|state l IH]; [done|]. rewrite fmap_cons. cbn [foldr]. pose proof (admitted_nonneg state). lia.
Qed.

(** No entry of the key admits more. *)
Definition fewer (runtime runtime' : runtime_table) : Prop :=
  forall key, admitted_count (lease_state runtime' key) <= admitted_count (lease_state runtime key).

#[export] Instance fewer_preorder : PreOrder fewer.
Proof. split; [by intros x key|]. intros x y z H1 H2 key. etrans; [apply H2|apply H1]. Qed.

Lemma lease_state_insert (runtime : runtime_table) key state other :
  lease_state (<[key := state]> runtime) other = if bool_decide (other = key) then state else lease_state runtime other.
Proof. unfold lease_state. case_bool_decide; subst; [by rewrite lookup_insert_eq|by rewrite lookup_insert_ne]. Qed.

Lemma lease_state_delete (runtime : runtime_table) key other :
  lease_state (delete key runtime) other =
    if bool_decide (other = key) then DownstreamLeaseState_default else lease_state runtime other.
Proof. unfold lease_state. case_bool_decide; subst; [by rewrite lookup_delete_eq|by rewrite lookup_delete_ne]. Qed.

Lemma total_mono id runtime' : forall runtime, fewer runtime runtime' ->
  downstream_total_admitted runtime' id <= downstream_total_admitted runtime id.
Proof.
  induction runtime' as [|key state runtime' Hnew IH] using map_ind; intros runtime Hf.
  { unfold downstream_total_admitted at 1. rewrite map_filter_empty. apply total_nonneg. }
  rewrite total_insert by done. rewrite (total_delete runtime key id).
  assert (admitted_count state <= admitted_count (lease_state runtime key)) as Hk.
  { specialize (Hf key). by rewrite lease_state_insert, bool_decide_eq_true_2 in Hf. }
  specialize (IH (delete key runtime)). destruct (bool_decide (key.1 = id)); apply Z.add_le_mono; try lia; apply IH;
    intros other; specialize (Hf other); rewrite lease_state_insert in Hf; rewrite lease_state_delete;
    (case_bool_decide; [|done]); subst; unfold lease_state; rewrite Hnew; simpl; rewrite admitted_default; lia.
Qed.

Lemma total_put (runtime : runtime_table) key state id n :
  admitted_count state <= admitted_count (lease_state runtime key) + n -> 0 <= n ->
  downstream_total_admitted (<[key := state]> runtime) id <= downstream_total_admitted runtime id + n.
Proof.
  intros Hc Hn. rewrite <- (insert_delete_eq runtime key state), total_insert by apply lookup_delete_eq.
  rewrite (total_delete runtime key id). case_bool_decide; lia.
Qed.

Lemma prune_fewer state now : admitted_count (lease_state_prune_expired state now) <= admitted_count state.
Proof.
  unfold admitted_count. simpl. apply inj_le, map_subseteq_size, map_filter_subseteq.
Qed.

(** Every lease that waits is admitted. *)
Definition state_ok (state : DownstreamLeaseState) : Prop := dl_waiting state ⊆ dom (dl_admitted state).

Definition runtime_ok (runtime : runtime_table) : Prop := forall key, state_ok (lease_state runtime key).

Lemma prune_state_ok state now : state_ok (lease_state_prune_expired state now).
Proof. intros lease_id. unfold lease_state_prune_expired. simpl. rewrite elem_of_filter, elem_of_dom. naive_solver. Qed.

Lemma remove_state_ok state lease_id : state_ok state -> state_ok (remove_lease_id state lease_id).
Proof. unfold state_ok, remove_lease_id. simpl. rewrite dom_delete_L. set_solver. Qed.

Lemma insert_runtime_ok runtime key state : runtime_ok runtime -> state_ok state -> runtime_ok (<[key := state]> runtime).
Proof. intros Hr Hs other. rewrite lease_state_insert. by case_bool_decide. Qed.

Lemma delete_runtime_ok runtime key : runtime_ok runtime -> runtime_ok (delete key runtime).
Proof. intros Hr other. rewrite lease_state_delete. by case_bool_decide. Qed.

Lemma put_fewer (runtime : runtime_table) key state :
  admitted_count state <= admitted_count (lease_state runtime key) -> fewer runtime (<[key := state]> runtime).
Proof. intros Hc other. rewrite lease_state_insert. by case_bool_decide; subst. Qed.

Lemma delete_fewer (runtime : runtime_table) key : fewer runtime (delete key runtime).
Proof.
  intros other. rewrite lease_state_delete. case_bool_decide; subst; [|done]. rewrite admitted_default. apply admitted_nonneg.
Qed.

Lemma lease_state_Some (runtime : runtime_table) key state : runtime !! key = Some state -> lease_state runtime key = state.
Proof. unfold lease_state. by intros ->. Qed.

(** ** Events on the leases *)

Inductive lease_event :=
| TryReserve (downstream : DownstreamConfig) (model : string) (case_insensitive : bool) (lease_id : string)
    (now_group now_prune now_insert : Z)
| DropLease (lease : DownstreamConcurrencyLease) (lease_id : string)
| RenewLease (lease : DownstreamConcurrencyLease) (now : Z)
| MarkWaiting (lease : DownstreamConcurrencyLease) (now : Z)
| UnmarkWaiting (lease : DownstreamConcurrencyLease)
| SnapshotKey (downstream_id : string) (now : string * string -> Z)
| ClearKey (downstream_id : string).

Definition lease_step (ttl_seconds : Z) (runtime : runtime_table) (event : lease_event) : runtime_table :=
  match event with
  | TryReserve downstream model case_insensitive lease_id now_group now_prune now_insert =>
      (try_reserve_downstream_concurrency runtime ttl_seconds downstream model case_insensitive lease_id
        now_group now_prune now_insert).1
  | DropLease lease lease_id => (drop_lease runtime lease lease_id).1
  | RenewLease lease now => renew_downstream_concurrency runtime ttl_seconds lease now
  | MarkWaiting lease now => (mark_downstream_waiting runtime lease now).1
  | UnmarkWaiting lease => unmark_downstream_waiting runtime lease
  | SnapshotKey downstream_id now => (downstream_runtime_snapshot runtime downstream_id now).1
  | ClearKey downstream_id => filter (fun '((id, _), _) => id <> downstream_id) runtime
  end.

Definition run_leases (ttl_seconds : Z) (events : list lease_event) : runtime_table :=
  foldl (lease_step ttl_seconds) ∅ events.

(** What is configured for a key and one of its groups, in every reservation of a run. *)
Definition configured (downstream_id : string) (cap : Z) (group_name : string) (group_cap : Z) (event : lease_event) : Prop :=
  match event with
  | TryReserve downstream model case_insensitive _ _ _ _ =>
      dc_id downstream = downstream_id ->
      dc_max_concurrency downstream <= cap /\
      forall group, concurrency_group_for_model (dc_model_concurrency_groups downstream) model case_insensitive = Some group ->
        mg_name group = group_name -> mg_max_concurrency group <= group_cap
  | _ => True
  end.

(** ** Facts: steps on the leases *)

Lemma lease_state_prune_key runtime id now key :
  lease_state (prune_key runtime id now) key =
    if String.eqb key.1 id && negb (lease_state_is_empty (lease_state runtime key))
    then lease_state_prune_expired (lease_state runtime key) (now key) else lease_state runtime key.
Proof.
  unfold prune_key, lease_state. rewrite map_lookup_imap. destruct (runtime !! key) as [state|]; simpl; [done|].
  by rewrite andb_false_r.
Qed.

Lemma drop_lease_spec runtime lease lease_id key :
  lease_state (drop_lease runtime lease lease_id).1 key =
    if bool_decide (key = lease_key lease) then remove_lease_id (lease_state runtime key) lease_id else lease_state runtime key.
Proof.
  unfold drop_lease. destruct (runtime !! lease_key lease) as [state|] eqn:Hs.
  - destruct (lease_state_is_empty (remove_lease_id state lease_id)) eqn:He; simpl.
    + rewrite lease_state_delete. case_bool_decide; subst; [|done]. rewrite (lease_state_Some _ _ _ Hs).
      unfold lease_state_is_empty in He. apply andb_true_iff in He as [H1%bool_decide_eq_true H2%bool_decide_eq_true].
      unfold remove_lease_id in *. simpl in *. by rewrite H1, H2.
    + rewrite lease_state_insert. case_bool_decide; subst; [|done]. by rewrite (lease_state_Some _ _ _ Hs).
  - case_bool_decide; subst; [|done]. simpl. unfold lease_state. rewrite Hs. simpl.
    unfold remove_lease_id, DownstreamLeaseState_default. simpl. f_equal; rewrite ?delete_empty; set_solver.
Qed.

Lemma renew_spec runtime ttl lease now key :
  dom (dl_admitted (lease_state (renew_downstream_concurrency runtime ttl lease now) key)) =
    dom (dl_admitted (lease_state runtime key)) /\
  dl_waiting (lease_state (renew_downstream_concurrency runtime ttl lease now) key) = dl_waiting (lease_state runtime key).
Proof.
  unfold renew_downstream_concurrency. destruct (cl_lease_id lease) as [lease_id|]; [|done].
  destruct (runtime !! lease_key lease) as [state|] eqn:Hs; [|done].
  destruct (dl_admitted state !! lease_id) eqn:Ha; simpl; [|done]. rewrite lease_state_insert.
  case_bool_decide; subst; [|done]. rewrite (lease_state_Some _ _ _ Hs). simpl. split; [|done].
  rewrite dom_insert_L. apply elem_of_dom_2 in Ha. set_solver.
Qed.

(** An event that reserves nothing. *)
Lemma quiet_step ttl runtime event :
  match event with TryReserve _ _ _ _ _ _ _ => False | _ => True end -> runtime_ok runtime ->
  runtime_ok (lease_step ttl runtime event) /\ fewer runtime (lease_step ttl runtime event).
Proof.
  intros Hq Hok. destruct event as [|lease lease_id|lease now|lease now|lease|id now|id]; [done|..]; cbn [lease_step].
  - split; intros key; rewrite drop_lease_spec; case_bool_decide; try done; subst; [by apply remove_state_ok|].
    unfold admitted_count. apply inj_le, map_subseteq_size, delete_subseteq.
  - split; intros key; destruct (renew_spec runtime ttl lease now key) as [H1 H2].
    + unfold state_ok. rewrite H1, H2. apply Hok.
    + unfold admitted_count. by rewrite <- !size_dom, H1.
  - unfold mark_downstream_waiting. destruct (cl_lease_id lease) as [lease_id|]; [|done].
    destruct (runtime !! lease_key lease) as [state|] eqn:Hs; [|done].
    pose proof (prune_fewer state now) as Hf. rewrite <- (lease_state_Some _ _ _ Hs) in Hf at 2.
    destruct (dl_admitted (lease_state_prune_expired state now) !! lease_id) eqn:Ha; cbn [is_some fst].
    + split; [|by apply put_fewer]. apply insert_runtime_ok; [done|]. pose proof (prune_state_ok state now) as Hp.
      unfold state_ok in *. simpl in *. apply elem_of_dom_2 in Ha. set_solver.
    + split; [|by apply put_fewer]. apply insert_runtime_ok; [done|]. apply prune_state_ok.
  - unfold unmark_downstream_waiting. destruct (cl_lease_id lease) as [lease_id|]; [|done].
    destruct (runtime !! lease_key lease) as [state|] eqn:Hs; [|done].
    split; [|apply put_fewer; by rewrite (lease_state_Some _ _ _ Hs)]. apply insert_runtime_ok; [done|].
    specialize (Hok (lease_key lease)). rewrite (lease_state_Some _ _ _ Hs) in Hok. unfold state_ok in *. simpl. set_solver.
  - cbn [downstream_runtime_snapshot fst]. split; intros key; unfold downstream_runtime_snapshot; cbn [fst];
      rewrite lease_state_prune_key; destruct (_ && _); try done; [apply prune_state_ok|apply prune_fewer].
  - assert (forall key, lease_state (filter (fun '((i, _), _) => i <> id) runtime) key =
      if String.eqb key.1 id then DownstreamLeaseState_default else lease_state runtime key) as Hf.
    { intros [i g]. unfold lease_state. rewrite map_lookup_filter. simpl.
      destruct (runtime !! (i, g)) as [state|]; simpl; [|by destruct (String.eqb i id)].
      case_guard; destruct (String.eqb_spec i id); done. }
    split; intros key; rewrite Hf; destruct (String.eqb _ _); try done. rewrite admitted_default. apply admitted_nonneg.
Qed.

(** What a reservation does: refused, nothing is added; granted, one lease of the group. *)
Lemma reserve_spec runtime ttl downstream model ci lease_id t1 t2 t3 :
  let group := concurrency_group_for_model (dc_model_concurrency_groups downstream) model ci in
  let key := (dc_id downstream, map_or "" mg_name group) in
  let '(runtime', reserved) := try_reserve_downstream_concurrency runtime ttl downstream model ci lease_id t1 t2 t3 in
  runtime_ok runtime -> fewer runtime runtime' /\ runtime_ok runtime' \/
    exists runtime1 state, fewer runtime runtime1 /\ runtime_ok runtime1 /\ runtime' = <[key := state]> runtime1 /\
      state_ok state /\ admitted_count state <= admitted_count (lease_state runtime1 key) + 1 /\
      downstream_total_admitted runtime1 (dc_id downstream) < Z.max 1 (dc_max_concurrency downstream) /\
      (forall g, group = Some g -> admitted_count (lease_state runtime1 key) < Z.max 1 (mg_max_concurrency g)).
Proof.
  intros group key. unfold try_reserve_downstream_concurrency. destruct (negb (dc_rate_limit_enabled downstream)); [by left|].
  fold group. fold key.
  set (runtime1 := match group with Some _ => _ | None => runtime end).
  assert (runtime_ok runtime -> fewer runtime runtime1 /\ runtime_ok runtime1) as H1.
  { intros Hok. unfold runtime1. destruct group; [|done].
    split; [apply put_fewer, prune_fewer|]. apply insert_runtime_ok; [done|apply prune_state_ok]. }
  destruct (is_some_and _ _) eqn:Hg; [intros Hok; left; by apply H1|].
  destruct (Z.leb_spec (Z.max 1 (dc_max_concurrency downstream)) (downstream_total_admitted runtime1 (dc_id downstream)));
    [intros Hok; left; by apply H1|].
  intros Hok. right. destruct (H1 Hok) as [Hf Hok1]. eexists runtime1, _. split_and!; try done.
  - pose proof (prune_state_ok (lease_state runtime1 key) t2) as Hp. unfold state_ok in *. simpl in *.
    rewrite dom_insert_L. set_solver.
  - pose proof (prune_fewer (lease_state runtime1 key) t2) as Hp. unfold admitted_count in *. simpl in *.
    pose proof (size_insert_le (filter (fun '(_, e) => t2 < e) (dl_admitted (lease_state runtime1 key))) lease_id
      (sat_add u64_max t3 (lease_duration_ms ttl))). lia.
  - intros g ->. simpl in Hg. by apply Z.leb_gt in Hg.
Qed.

Lemma lease_step_ok ttl runtime event id cap name group_cap :
  runtime_ok runtime -> configured id cap name group_cap event -> 1 <= cap -> 1 <= group_cap ->
  downstream_total_admitted runtime id <= cap ->
  (name <> "" -> admitted_count (lease_state runtime (id, name)) <= group_cap) ->
  let runtime' := lease_step ttl runtime event in
  runtime_ok runtime' /\ downstream_total_admitted runtime' id <= cap /\
  (name <> "" -> admitted_count (lease_state runtime' (id, name)) <= group_cap).
Proof.
  intros Hok Hconf Hcap Hgcap Htotal Hgroup runtime'.
  assert (forall r, fewer runtime r -> downstream_total_admitted r id <= cap /\
    (name <> "" -> admitted_count (lease_state r (id, name)) <= group_cap)) as Hfewer.
  { intros r Hf. split; [etrans; [by apply total_mono|done]|]. intros Hn. etrans; [apply Hf|by apply Hgroup]. }
  unfold runtime'. destruct event as [d model ci lease_id t1 t2 t3| | | | | |];
    [|match goal with |- runtime_ok (lease_step _ _ ?event) /\ _ => destruct (quiet_step ttl runtime event I Hok) as [? ?] end;
      split; [done|by apply Hfewer]..].
   cbn [lease_step configured] in *.
  pose proof (reserve_spec runtime ttl d model ci lease_id t1 t2 t3) as Hs. cbn zeta in Hs.
  destruct (try_reserve_downstream_concurrency _ _ _ _ _ _ _ _ _) as [r reserved]. cbn [fst].
  destruct (Hs Hok) as [[Hf Hr]|(r1 & state & Hf & Hr1 & -> & Hst & Hcount & Hglobal & Hg)]; [split; [done|by apply Hfewer]|].
  destruct (Hfewer r1 Hf) as [Ht1 Hg1]. split; [by apply insert_runtime_ok|]. split.
  - destruct (decide (dc_id d = id)) as [Hid|Hid].
    + destruct (Hconf Hid) as [Hmax _]. subst id. etrans; [apply (total_put _ _ _ _ 1); [done|lia]|]. lia.
    + rewrite <- (insert_delete_eq r1), total_insert by apply lookup_delete_eq. rewrite bool_decide_eq_false_2 by done.
      etrans; [|apply Ht1]. simpl. apply total_mono. apply delete_fewer.
  - intros Hn. rewrite lease_state_insert. case_bool_decide as Hk; [|by apply Hg1].
    injection Hk as Hid Hname. destruct (Hconf (eq_sym Hid)) as [_ Hcaps]. subst name id.
    destruct (concurrency_group_for_model _ _ _) as [g|]; simpl in *; [|done].
    specialize (Hcaps g eq_refl eq_refl). specialize (Hg g eq_refl). lia.
Qed.

Lemma snapshot_consistent runtime id now : runtime_ok runtime -> is_ok (downstream_runtime_snapshot runtime id now).2 = true.
Proof.
  intros Hok. unfold downstream_runtime_snapshot. cbn [snd].
  match goal with |- context [?a <? ?b] => destruct (Z.ltb_spec a b) as [Hlt|Hle] end; [exfalso|done]. revert Hlt. apply Z.le_ngt.
  assert (Forall state_ok (key_states (prune_key runtime id now) id)) as Hstates.
  { apply Forall_forall. intros state Hin. unfold key_states, values in Hin.
    apply list_elem_of_fmap in Hin as ([key s] & -> & Hin). apply elem_of_map_to_list, map_lookup_filter_Some in Hin as [Hin _].
    simpl. rewrite <- (lease_state_Some _ _ _ Hin), lease_state_prune_key. destruct (_ && _); [apply prune_state_ok|apply Hok]. }
  unfold sat_sum.
  assert (forall acc1 acc2, acc1 <= acc2 ->
    foldl (fun acc n => sat_add u32_max acc (Z.min u32_max n)) acc1
      ((fun state => Z.of_nat (size (dl_waiting state))) <$> key_states (prune_key runtime id now) id) <=
    foldl (fun acc n => sat_add u32_max acc (Z.min u32_max n)) acc2
      (admitted_count <$> key_states (prune_key runtime id now) id)) as Hfold; [|by apply Hfold].
  induction Hstates as [|state states Hs Hall IH]; intros acc1 acc2 Hacc; [done|].
  rewrite !fmap_cons. cbn [foldl]. apply IH. apply subseteq_size in Hs. rewrite size_dom in Hs.
  unfold sat_add, admitted_count. lia.
Qed.

(** C22. A key never runs more requests than it may. Whatever is reserved, renewed,
    released, marked or swept, in whatever order and with whatever clock, the leases of a
    key over all of its groups never exceed its largest configured concurrency, those of
    a named group never exceed the cap of the group, and every lease that waits for an
    upstream is admitted, so that the counts of a snapshot are always consistent. *)
Theorem downstream_concurrency_bounded ttl events id cap name group_cap :
  Forall (configured id cap name group_cap) events ->
  let runtime := run_leases ttl events in
  downstream_total_admitted runtime id <= Z.max 1 cap /\
  (name <> "" -> admitted_count (lease_state runtime (id, name)) <= Z.max 1 group_cap) /\
  runtime_ok runtime /\
  forall now, is_ok (downstream_runtime_snapshot runtime id now).2 = true.
Proof.
  intros Hall runtime.
  assert (forall r, runtime_ok r -> downstream_total_admitted r id <= Z.max 1 cap ->
    (name <> "" -> admitted_count (lease_state r (id, name)) <= Z.max 1 group_cap) ->
    let r' := foldl (lease_step ttl) r events in
    runtime_ok r' /\ downstream_total_admitted r' id <= Z.max 1 cap /\
    (name <> "" -> admitted_count (lease_state r' (id, name)) <= Z.max 1 group_cap)) as Hrun.
  { induction Hall as [|event events Hev Hall IH]; intros r Hok Ht Hg; simpl; [done|].
    assert (configured id (Z.max 1 cap) name (Z.max 1 group_cap) event) as Hev'.
    { destruct event; simpl in *; try done. intros Hid. destruct (Hev Hid) as [Hm Hc]. split; [lia|].
      intros g H1 H2. specialize (Hc g H1 H2). lia. }
    destruct (lease_step_ok ttl r event id _ name _ Hok Hev') as (H1 & H2 & H3); try done; [lia..|]. by apply IH. }
  destruct (Hrun ∅) as (H1 & H2 & H3).
  - intros key lease_id. unfold lease_state. rewrite lookup_empty. simpl. set_solver.
  - unfold downstream_total_admitted. rewrite map_filter_empty. unfold values. rewrite map_to_list_empty. simpl. lia.
  - intros _. unfold lease_state. rewrite lookup_empty. simpl. rewrite admitted_default. lia.
  - split_and!; try done. intros now. by apply snapshot_consistent.
Qed.

(** ** Facts: windows *)

Definition count_between (from to : Z) (events : list DownstreamRequestEvent) : Z :=
  Z.of_nat (length (retain (fun event => (from <=? re_created_at event) && (re_created_at event <=? to)) events)).

Lemma drop_while_suffix {A} (f : A -> bool) l : exists dropped, l = dropped ++ drop_while f l /\ Forall (fun x => f x = true) dropped.
Proof.
  induction l as [|x l (dropped & IH1 & IH2)]; simpl; [by exists []|]. destruct (f x) eqn:Hf; [|by exists []].
  exists (x :: dropped). split; [simpl; by f_equal|by constructor].
Qed.

Lemma retain_none {A} (f : A -> bool) l : Forall (fun x => f x = false) l -> retain f l = [].
Proof.
  intros H. apply elem_of_nil_inv. intros x. rewrite retain_elem. intros [Hx Hin]. rewrite Forall_forall in H.
  by rewrite H in Hx.
Qed.

Lemma retain_le {A} (f g : A -> bool) l : (forall x, f x = true -> g x = true) -> (length (retain f l) <= length (retain g l))%nat.
Proof.
  intros H. induction l as [|x l IH]; [done|]. rewrite !retain_cons. destruct (f x) eqn:Hf.
  - rewrite (H x Hf). simpl. lia.
  - destruct (g x); simpl; lia.
Qed.

Lemma retain_comm {A} (f g : A -> bool) l : retain f (retain g l) = retain g (retain f l).
Proof. unfold retain. rewrite !list_filter_filter. apply list_filter_iff. tauto. Qed.

(** Everything granted to a key, with what of it is still in the window. The events that
    have left the window are older than [retention]. *)
Record tracks (clock retention : Z) (window granted : list DownstreamRequestEvent) : Prop := {
  trk_suffix : exists dropped, granted = dropped ++ window /\
    Forall (fun event => re_created_at event < clock - (retention - 1)) dropped;
  trk_past : Forall (fun event => 0 <= re_created_at event <= clock) granted
}.

Lemma tracks_count clock retention window granted now start :
  tracks clock retention window granted -> clock <= now -> clock - (retention - 1) <= start ->
  count_between start now granted <= count_since re_created_at start window.
Proof.
  intros [(dropped & -> & Hd) Hpast] Hnow Hstart. unfold count_between, count_since. rewrite retain_app, length_app.
  rewrite retain_none.
  - simpl. apply inj_le, retain_le. intros event H. by apply andb_true_iff in H as [? _].
  - eapply Forall_impl; [exact Hd|]. intros event H. simpl in H. apply andb_false_iff. left. apply Z.leb_gt. lia.
Qed.

Lemma tracks_prune clock retention window granted now :
  tracks clock retention window granted -> 0 <= clock -> clock <= now ->
  tracks now retention (drop_while (fun event => re_created_at event <? sat_sub now (sat_sub retention 1)) window) granted.
Proof.
  intros [(dropped & -> & Hd) Hpast] Hclock Hnow. destruct (drop_while_suffix
    (fun event => re_created_at event <? sat_sub now (sat_sub retention 1)) window) as (gone & Hg & Hgone).
  split.
  - exists (dropped ++ gone). split; [by rewrite <- app_assoc, <- Hg|]. apply Forall_app. split.
    + eapply Forall_impl; [exact Hd|]. simpl. lia.
    + rewrite Hg in Hpast. apply Forall_app in Hpast as [_ Hpast]. apply Forall_app in Hpast as [Hpast _].
      rewrite Forall_forall in Hpast, Hgone. apply Forall_forall. intros event Hin. specialize (Hpast event Hin). specialize (Hgone event Hin).
      apply Z.ltb_lt in Hgone. unfold sat_sub in Hgone. lia.
  - eapply Forall_impl; [exact Hpast|]. simpl. lia.
Qed.

Lemma tracks_grant clock retention window granted event_id :
  0 <= clock -> tracks clock retention window granted ->
  tracks clock retention (window ++ [{| re_event_id := event_id; re_created_at := clock |}])
    (granted ++ [{| re_event_id := event_id; re_created_at := clock |}]).
Proof.
  intros Hclock [(dropped & -> & Hd) Hpast]. split.
  - exists dropped. split; [by rewrite app_assoc|done].
  - apply Forall_app. split; [done|]. repeat constructor; simpl; lia.
Qed.

Lemma tracks_retain clock retention window granted f :
  tracks clock retention window granted -> tracks clock retention (retain f window) (retain f granted).
Proof.
  intros [(dropped & -> & Hd) Hpast]. split.
  - exists (retain f dropped). split; [apply retain_app|]. eapply Forall_of_sublist; [apply retain_sublist|exact Hd].
  - eapply Forall_of_sublist; [apply retain_sublist|exact Hpast].
Qed.

(** No [seconds] seconds have seen more than [limit] requests. *)
Definition within (seconds limit : Z) (granted : list DownstreamRequestEvent) : Prop :=
  forall start, count_between start (start + seconds - 1) granted <= limit.

Lemma within_retain seconds limit granted f : within seconds limit granted -> within seconds limit (retain f granted).
Proof.
  intros H start. etrans; [|apply (H start)]. unfold count_between. rewrite retain_comm. apply inj_le, retain_length.
Qed.

Lemma within_grant clock seconds limit window granted event_id retention :
  tracks clock retention window granted -> within seconds limit granted -> 1 <= seconds <= retention -> 0 <= clock ->
  window_full window clock seconds limit = None ->
  within seconds limit (granted ++ [{| re_event_id := event_id; re_created_at := clock |}]).
Proof.
  intros Htr Hw Hsec Hclock Hroom start. unfold count_between. rewrite retain_app, length_app, Nat2Z.inj_add.
  fold (count_between start (start + seconds - 1) granted).
  assert (count_since re_created_at (clock - (seconds - 1)) window < limit) as Hlt.
  { revert Hroom. unfold window_full, sat_sub. destruct (Z.leb_spec limit (count_since re_created_at (Z.max 0 (clock - Z.max 0 (seconds - 1))) window));
      [done|intros _].
    eapply Z.le_lt_trans; [|done]. unfold count_since. destruct Htr as [(dropped & -> & _) Hpast]. apply Forall_app in Hpast as [_ Hpast].
    apply inj_le. clear -Hpast Hsec. induction Hpast as [|event events He Hall IH]; [done|]. rewrite !retain_cons.
    destruct (Z.leb_spec (clock - (seconds - 1)) (re_created_at event)),
      (Z.leb_spec (Z.max 0 (clock - Z.max 0 (seconds - 1))) (re_created_at event)); simpl; lia. }
  rewrite retain_cons. cbn [re_created_at]. destruct (Z.leb_spec start clock) as [Hs1|], (Z.leb_spec clock (start + seconds - 1)) as [Hs2|];
    cbn [andb]; try (specialize (Hw start); simpl; lia).
  assert (count_between start (start + seconds - 1) granted <= count_between (clock - (seconds - 1)) clock granted) as Hle.
  { unfold count_between. apply inj_le. destruct Htr as [_ Hpast]. clear -Hs1 Hs2 Hpast.
    induction Hpast as [|event events He Hall IH]; [done|]. rewrite !retain_cons.
    destruct (Z.leb_spec start (re_created_at event)), (Z.leb_spec (re_created_at event) (start + seconds - 1)),
      (Z.leb_spec (clock - (seconds - 1)) (re_created_at event)), (Z.leb_spec (re_created_at event) clock); simpl; lia. }
  pose proof (tracks_count _ _ _ _ clock (clock - (seconds - 1)) Htr ltac:(lia) ltac:(lia)).
  replace (length (_ :: retain _ [])) with 1%nat by done. lia.
Qed.

(** ** The windows of a key, over time *)

Inductive window_event :=
| Request (downstream : DownstreamConfig) (cost_scope : CostScope) (event_id : string) (now : Z)
| GiveBack (reservation : DownstreamRequestReservation)
| RecordUsage (downstream : option DownstreamConfig) (scope : CostScope) (log : UsageEvent).

(** The gate, and the requests of one key that were granted and not given back. *)
Definition window_step (key : string) (state : DownstreamGate * list DownstreamRequestEvent) (event : window_event)
    : DownstreamGate * list DownstreamRequestEvent :=
  let '(self, granted) := state in
  match event with
  | Request downstream cost_scope event_id now =>
      let '(self, reserved) := reserve_downstream_request self downstream cost_scope event_id now in
      (self,
       match reserved with
       | Ok {| rv_downstream_id := id; rv_event_id := Some event_id |} =>
           if String.eqb id key then granted ++ [{| re_event_id := event_id; re_created_at := now |}] else granted
       | _ => granted
       end)
  | GiveBack reservation =>
      (rollback_downstream_request_reservation self reservation,
       match rv_event_id reservation with
       | Some event_id =>
           if String.eqb (rv_downstream_id reservation) key
           then retain (fun event => negb (String.eqb (re_event_id event) event_id)) granted else granted
       | None => granted
       end)
  | RecordUsage downstream scope log => (record_downstream_usage_event self downstream scope log, granted)
  end.

Definition run_windows (key : string) (events : list window_event) : DownstreamGate * list DownstreamRequestEvent :=
  foldl (window_step key) (DownstreamGate_default, []) events.

(** The clock of the requests does not run backwards, and the key keeps its configuration. *)
Fixpoint steady (downstream : DownstreamConfig) (clock : Z) (events : list window_event) : Prop :=
  match events with
  | [] => True
  | Request other _ _ now :: events =>
      clock <= now /\ (dc_id other = dc_id downstream -> other = downstream) /\ steady downstream now events
  | _ :: events => steady downstream clock events
  end.

Definition retention (downstream : DownstreamConfig) : Z := Z.max 60 (default 60 (request_quota_window downstream)).

Definition limited (downstream : DownstreamConfig) (granted : list DownstreamRequestEvent) : Prop :=
  within 60 (Z.max 0 (dc_per_minute_limit downstream)) granted /\
  (token_billing_mode downstream = false -> forall seconds, request_quota_window downstream = Some seconds ->
    within seconds (Z.max 1 (default 0 (dc_request_quota_requests downstream))) granted).

Lemma tracks_later clock retention window granted now :
  tracks clock retention window granted -> clock <= now -> tracks now retention window granted.
Proof.
  intros [(dropped & -> & Hd) Hpast] Hnow. split.
  - exists dropped. split; [done|]. eapply Forall_impl; [exact Hd|]. simpl. lia.
  - eapply Forall_impl; [exact Hpast|]. simpl. lia.
Qed.

Lemma quota_window_bounds downstream seconds :
  request_quota_window downstream = Some seconds -> 1 <= seconds <= retention downstream.
Proof.
  unfold retention. intros H. rewrite H. simpl. unfold request_quota_window in H.
  destruct (dc_request_quota_window_hours downstream); [|done]. destruct (dc_request_quota_requests downstream); [|done].
  injection H as <-. unfold sat_mul, u64_max. lia.
Qed.

Lemma request_window_put self key window other :
  request_window (put_window self key window) other = if String.eqb other key then window else request_window self other.
Proof.
  unfold request_window, put_window. simpl. destruct (String.eqb_spec other key); subst;
    [by rewrite lookup_insert_eq|by rewrite lookup_insert_ne].
Qed.

(** A request leaves the windows of other keys alone; it prunes its own, and adds to it
    exactly when it is granted, which needs room in the minute and in the quota. *)
Lemma reserve_request_spec self downstream cost_scope event_id now :
  let window := retained_window self downstream now in
  let '(self', reserved) := reserve_downstream_request self downstream cost_scope event_id now in
  (forall key, key <> dc_id downstream -> request_window self' key = request_window self key) /\
  dg_runtime self' = dg_runtime self /\
  (dc_rate_limit_enabled downstream = false -> self' = self /\
    reserved = Ok {| rv_downstream_id := dc_id downstream; rv_event_id := None |}) /\
  (dc_rate_limit_enabled downstream = true ->
    match reserved with
    | Ok reservation =>
        reservation = {| rv_downstream_id := dc_id downstream; rv_event_id := Some event_id |} /\
        request_window self' (dc_id downstream) = window ++ [{| re_event_id := event_id; re_created_at := now |}] /\
        check_minute downstream window now = None /\ check_quota downstream window now = None
    | Err _ => request_window self' (dc_id downstream) = window
    end).
Proof.
  intros window. unfold reserve_downstream_request. destruct (dc_rate_limit_enabled downstream); cbn [negb].
  2: { by split_and!. }
  fold window. destruct (or_else (check_minute downstream window now) _) as [rejection|] eqn:Hc.
  - split_and!; try done; [|intros _; by rewrite request_window_put, String.eqb_refl].
    intros key Hk. apply String.eqb_neq in Hk. by rewrite request_window_put, Hk.
  - assert (check_minute downstream window now = None /\ check_quota downstream window now = None) as [Hm Hq]
      by (destruct (check_minute downstream window now); [done|by destruct (check_quota downstream window now)]).
    destruct (check_cost _ _ _ _) as [token_windows [rejection|]].
    + split_and!; try done; [|intros _; unfold request_window; simpl; by rewrite lookup_insert_eq].
      intros key Hk. unfold request_window. simpl. by rewrite lookup_insert_ne.
    + split_and!; try done; [|intros _; split_and!; try done; unfold request_window; simpl; by rewrite lookup_insert_eq].
      intros key Hk. unfold request_window. simpl. by rewrite !lookup_insert_ne.
Qed.

Lemma rollback_window self reservation key :
  request_window (rollback_downstream_request_reservation self reservation) key =
    match rv_event_id reservation with
    | Some event_id =>
        if String.eqb (rv_downstream_id reservation) key
        then retain (fun event => negb (String.eqb (re_event_id event) event_id)) (request_window self key)
        else request_window self key
    | None => request_window self key
    end.
Proof.
  unfold rollback_downstream_request_reservation. destruct (rv_event_id reservation) as [event_id|]; [|done].
  destruct (dg_request_windows self !! rv_downstream_id reservation) as [window|] eqn:Hw.
  - unfold request_window. simpl. destruct (String.eqb_spec (rv_downstream_id reservation) key) as [<-|Hn].
    + rewrite Hw. simpl. destruct (is_empty (retain _ window)) eqn:He.
      * rewrite lookup_delete_eq. simpl. by destruct (retain _ window).
      * by rewrite lookup_insert_eq.
    + by destruct (is_empty _); rewrite ?lookup_delete_ne, ?lookup_insert_ne by done.
  - destruct (String.eqb_spec (rv_downstream_id reservation) key) as [<-|Hn]; [|done]. unfold request_window. by rewrite Hw.
Qed.

Lemma window_full_none downstream window now :
  check_minute downstream window now = None -> window_full window now 60 (dc_per_minute_limit downstream) = None.
Proof. unfold check_minute. by destruct (window_full _ _ _ _). Qed.

Lemma quota_full_none downstream window now seconds :
  check_quota downstream window now = None -> token_billing_mode downstream = false ->
  request_quota_window downstream = Some seconds ->
  window_full window now seconds (Z.max 1 (default 0 (dc_request_quota_requests downstream))) = None.
Proof. unfold check_quota. intros H Hm Hs. rewrite Hm, Hs in H. simpl in H. by destruct (window_full _ _ _ _). Qed.

Lemma window_step_ok downstream clock event events self granted :
  dc_rate_limit_enabled downstream = true -> 0 <= clock ->
  steady downstream clock (event :: events) ->
  tracks clock (retention downstream) (request_window self (dc_id downstream)) granted -> limited downstream granted ->
  let '(self', granted') := window_step (dc_id downstream) (self, granted) event in
  exists clock', 0 <= clock' /\ steady downstream clock' events /\
    tracks clock' (retention downstream) (request_window self' (dc_id downstream)) granted' /\ limited downstream granted'.
Proof.
  intros Henabled Hclock Hsteady Htr [Hmin Hquota]. destruct event as [other cost_scope event_id now|reservation|d scope log]; simpl.
  - destruct Hsteady as (Hnow & Hsame & Hsteady). pose proof (reserve_request_spec self other cost_scope event_id now) as Hs.
    destruct (reserve_downstream_request self other cost_scope event_id now) as [self' reserved].
    destruct Hs as (Hothers & _ & Hoff & Hon). exists now. split; [lia|]. split; [done|].
    destruct (decide (dc_id other = dc_id downstream)) as [Hid|Hid].
    + specialize (Hsame Hid). subst other. specialize (Hon Henabled).
      assert (tracks now (retention downstream) (retained_window self downstream now) granted) as Htr' by by apply (tracks_prune clock).
      destruct reserved as [reservation|rejection]; [|rewrite Hon; by split].
      destruct Hon as (-> & -> & Hcm & Hcq). rewrite String.eqb_refl. split; [apply tracks_grant; [lia|done]|]. split.
      * eapply within_grant; try done; [unfold retention; lia|lia|].
        apply window_full_none in Hcm. revert Hcm. unfold window_full. destruct (Z.leb_spec (dc_per_minute_limit downstream)
          (count_since re_created_at (sat_sub now (sat_sub 60 1)) (retained_window self downstream now))); [done|].
        destruct (Z.leb_spec (Z.max 0 (dc_per_minute_limit downstream))
          (count_since re_created_at (sat_sub now (sat_sub 60 1)) (retained_window self downstream now))); [|done].
        unfold count_since in *. lia.
      * intros Hmode seconds Hsec. eapply within_grant; try done; [by apply Hquota|by apply quota_window_bounds|lia|].
        by apply quota_full_none.
    + assert (match reserved with
        | Ok {| rv_downstream_id := id; rv_event_id := Some event_id0 |} =>
            if String.eqb id (dc_id downstream) then granted ++ [{| re_event_id := event_id0; re_created_at := now |}] else granted
        | _ => granted end = granted) as ->.
      { destruct (dc_rate_limit_enabled other); [|destruct (Hoff eq_refl) as [_ ->]; done]. specialize (Hon eq_refl).
        destruct reserved as [reservation|]; [|done]. destruct Hon as (-> & _). apply String.eqb_neq in Hid. by rewrite Hid. }
      rewrite Hothers by done. split; [by eapply tracks_later|by split].
  - exists clock. rewrite rollback_window. destruct (rv_event_id reservation) as [event_id|]; [|done].
    destruct (String.eqb _ _); [|done]. split_and!; try done; [by apply tracks_retain|]. split; [by apply within_retain|].
    intros Hmode seconds Hsec. by apply within_retain, Hquota.
  - exists clock. split_and!; try done. unfold record_downstream_usage_event, request_window.
    destruct (negb _); [done|]. by destruct (opt_filter _ d).
Qed.

(** C23. No window of time sees more requests than a key may make. For a key that is
    limited, over any requests of any keys with a clock that does not run backwards, any
    reservations given back and any costs recorded, no 60 seconds contain more granted
    requests than the limit per minute, and, unless the key is billed by tokens, no
    window of its quota more than the quota allows; requests given back do not count. *)
Theorem request_rate_bounded downstream events start :
  dc_rate_limit_enabled downstream = true -> 0 <= start -> steady downstream start events ->
  limited downstream (run_windows (dc_id downstream) events).2.
Proof.
  intros Henabled. unfold run_windows.
  assert (tracks start (retention downstream) (request_window DownstreamGate_default (dc_id downstream)) []) as Htr.
  { unfold request_window. simpl. rewrite lookup_empty. split; [by exists []|done]. }
  assert (limited downstream []) as Hlim by (split; [|intros _ seconds _]; intros t; unfold count_between; simpl; lia).
  revert start Htr Hlim. generalize DownstreamGate_default, (@nil DownstreamRequestEvent).
  induction events as [|event events IH]; intros self granted clock Htr Hlim Hclock Hsteady; [done|].
  pose proof (window_step_ok downstream clock event events self granted Henabled Hclock Hsteady Htr Hlim) as Hstep.
  cbn [foldl]. destruct (window_step _ (self, granted) event) as [self' granted'].
  destruct Hstep as (clock' & Hc & Hs & Ht & Hl). by eapply IH.
Qed.

(** ** When to come back *)

Definition in_order (window : list DownstreamRequestEvent) : Prop :=
  StronglySorted (fun event later => re_created_at event <= re_created_at later) window.

Lemma count_since_drop start from window :
  from <= start ->
  count_since re_created_at start (drop_while (fun event => re_created_at event <? from) window) =
  count_since re_created_at start window.
Proof.
  intros Hle. destruct (drop_while_suffix (fun event => re_created_at event <? from) window) as (dropped & Hw & Hd).
  rewrite Hw at 2. unfold count_since. rewrite retain_app, (retain_none _ dropped); [done|].
  eapply Forall_impl; [exact Hd|]. intros event H. simpl in H. apply Z.ltb_lt in H. apply Z.leb_gt. lia.
Qed.

Lemma in_order_retain window start :
  in_order window ->
  match find (fun event => start <=? re_created_at event) window with
  | Some oldest => exists rest, retain (fun event => start <=? re_created_at event) window = oldest :: rest /\
      start <= re_created_at oldest /\ Forall (fun event => re_created_at oldest <= re_created_at event) rest
  | None => retain (fun event => start <=? re_created_at event) window = []
  end.
Proof.
  intros Hs. induction Hs as [|event window Hs IH Hall]; simpl; [done|]. rewrite retain_cons.
  destruct (Z.leb_spec start (re_created_at event)) as [Hle|Hgt]; [|done].
  eexists. split_and!; [done|done|]. eapply Forall_of_sublist; [apply retain_sublist|exact Hall].
Qed.

(** Later starts count what is not older. *)
Lemma count_since_later window start later oldest rest :
  retain (fun event => start <=? re_created_at event) window = oldest :: rest ->
  Forall (fun event => re_created_at oldest <= re_created_at event) rest -> start <= later ->
  count_since re_created_at start window = Z.of_nat (S (length rest)) /\
  (later <= re_created_at oldest -> count_since re_created_at later window = Z.of_nat (S (length rest))) /\
  (re_created_at oldest < later -> count_since re_created_at later window <= Z.of_nat (length rest)).
Proof.
  intros Hr Hall Hle. unfold count_since.
  assert (retain (fun event => later <=? re_created_at event) window =
    retain (fun event => later <=? re_created_at event) (oldest :: rest)) as ->.
  { rewrite <- Hr, retain_comm. symmetry. apply retain_all. intros event [Hf _]%retain_elem. apply Z.leb_le in Hf.
    apply Z.leb_le. lia. }
  rewrite Hr. split; [done|]. split; intros Ho.
  - rewrite retain_all_length; [done|]. constructor; [by apply Z.leb_le|]. eapply Forall_impl; [exact Hall|].
    intros event H. simpl in H. apply Z.leb_le. lia.
  - rewrite retain_cons, (proj2 (Z.leb_gt _ _) Ho). apply inj_le, retain_length.
Qed.

Lemma reserve_minute self downstream scope event_id now :
  dc_rate_limit_enabled downstream = true ->
  match (reserve_downstream_request self downstream scope event_id now).2 with
  | Err (PerMinuteLimitExceeded retry_after limit used) =>
      check_minute downstream (retained_window self downstream now) now = Some (PerMinuteLimitExceeded retry_after limit used)
  | _ => check_minute downstream (retained_window self downstream now) now = None
  end.
Proof.
  intros Henabled. unfold reserve_downstream_request. rewrite Henabled. cbn [negb].
  destruct (check_minute downstream _ now) as [m|] eqn:Hm; cbn [or_else].
  - unfold check_minute in Hm. destruct (window_full _ _ _ _); simpl in Hm; [|done]. by injection Hm as <-.
  - destruct (check_quota downstream _ now) as [q|] eqn:Hq.
    + unfold check_quota in Hq. destruct (token_billing_mode downstream); [done|].
      destruct (request_quota_window downstream); [|done]. simpl in Hq. destruct (window_full _ _ _ _); [|done]. by injection Hq as <-.
    + unfold check_cost. destruct (opt_filter _ _); [|done]. by destruct (_ <=? _).
Qed.

(** The advice to retry is exact. When a key has used up its minute, and does
    nothing meanwhile, a request is refused for the same reason at every instant before
    the advised number of seconds has passed, and at none from then on. *)
Theorem minute_retry_after_exact self downstream scope scope' event_id event_id' now later retry_after limit used :
  dc_rate_limit_enabled downstream = true -> 0 < dc_per_minute_limit downstream ->
  in_order (request_window self (dc_id downstream)) ->
  Forall (fun event => 0 <= re_created_at event <= now) (request_window self (dc_id downstream)) ->
  now <= later <= u64_max - 60 ->
  let '(self', reserved) := reserve_downstream_request self downstream scope event_id now in
  reserved = Err (PerMinuteLimitExceeded retry_after limit used) -> used <= limit ->
  (exists retry_after' limit' used',
    (reserve_downstream_request self' downstream scope' event_id' later).2 =
      Err (PerMinuteLimitExceeded retry_after' limit' used')) <->
  later < now + retry_after.
Proof.
  intros Henabled Hpos Horder Hpast Hlater.
  pose proof (reserve_request_spec self downstream scope event_id now) as Hspec.
  destruct (reserve_downstream_request self downstream scope event_id now) as [self' reserved] eqn:Hres.
  intros -> Hused. destruct Hspec as (_ & _ & _ & Hwin). specialize (Hwin Henabled).
  pose proof (reserve_minute self downstream scope event_id now Henabled) as Hnow. rewrite Hres in Hnow. cbn [snd] in Hnow.
  pose proof (reserve_minute self' downstream scope' event_id' later Henabled) as Hthen.
  assert (forall start, now - 59 <= start -> 0 <= start ->
    count_since re_created_at start (retained_window self downstream now) = count_since re_created_at start (request_window self (dc_id downstream)))
    as Hprune by (intros start H1 H2; apply count_since_drop; unfold sat_sub; lia).
  assert (count_since re_created_at (sat_sub later 59) (retained_window self' downstream later) =
    count_since re_created_at (sat_sub later 59) (request_window self (dc_id downstream))) as Hlast.
  { unfold retained_window. rewrite Hwin, count_since_drop by (unfold sat_sub; lia). apply Hprune; unfold sat_sub; lia. }
  transitivity (is_some (check_minute downstream (retained_window self' downstream later) later) = true).
  { destruct (reserve_downstream_request self' downstream scope' event_id' later).2 as [|[| | |]]; rewrite Hthen; naive_solver. }
  clear Hthen. unfold check_minute, window_full in *. change (sat_sub 60 1) with 59 in *. rewrite Hlast.
  rewrite Hprune in Hnow by (unfold sat_sub; lia).
  destruct (Z.leb_spec (dc_per_minute_limit downstream) (count_since re_created_at (sat_sub now 59) (request_window self (dc_id downstream)))) as [Hfull|];
    [|done].
  injection Hnow as Hr <- <-.
  assert (oldest_since re_created_at (sat_sub now 59) now (retained_window self downstream now) =
    oldest_since re_created_at (sat_sub now 59) now (request_window self (dc_id downstream))) as Hold.
  { unfold retained_window, oldest_since. destruct (drop_while_suffix (fun event => re_created_at event <?
      sat_sub now (sat_sub (Z.max 60 (default 60 (request_quota_window downstream))) 1)) (request_window self (dc_id downstream))) as (dropped & Hw & Hd).
    rewrite Hw at 2. rewrite !find_retain, retain_app, (retain_none _ dropped); [done|]. eapply Forall_impl; [exact Hd|].
    intros event H. simpl in H. apply Z.ltb_lt in H. apply Z.leb_gt. unfold sat_sub in *. lia. }
  rewrite Hold in Hr. pose proof (in_order_retain _ (sat_sub now 59) Horder) as Hfind. unfold oldest_since in Hr.
  destruct (find _ (request_window self (dc_id downstream))) as [oldest|] eqn:Hf.
  2: { unfold count_since in Hfull. rewrite Hfind in Hfull. simpl in Hfull. lia. }
  destruct Hfind as (rest & Hrest & Hge & Hall).
  destruct (count_since_later _ _ (sat_sub later 59) _ _ Hrest Hall) as (Hcount & Hsame & Hless); [unfold sat_sub; lia|].
  assert (0 <= re_created_at oldest <= now) as Ho.
  { rewrite Forall_forall in Hpast. apply Hpast. eapply retain_elem. rewrite Hrest. by left. }
  rewrite Hcount in *. simpl in Hr. unfold sat_add, sat_sub in *.
  destruct (Z.leb_spec (dc_per_minute_limit downstream)
    (count_since re_created_at (Z.max 0 (later - 59)) (request_window self (dc_id downstream)))) as [H|H]; cbn [mbind option_bind is_some].
  - split; [intros _|done]. destruct (Z.lt_ge_cases (re_created_at oldest) (Z.max 0 (later - 59))) as [Hlt|Hle]; [specialize (Hless Hlt)|]; lia.
  - split; [done|]. intros Hlt. exfalso. rewrite Hsame in H; lia.
Qed.

(** ** Both or neither *)

Lemma drop_while_elem {A} (f : A -> bool) l x : x ∈ drop_while f l -> x ∈ l.
Proof. destruct (drop_while_suffix f l) as (dropped & Hl & _). rewrite Hl at 2. rewrite elem_of_app. tauto. Qed.

(** Admission is all or nothing for the request and the lease, when nothing else happens
    between its steps. When it succeeds, the request window of the key has one request
    more and the entry of its group one lease more, both as reported. When it fails, for
    whatever reason, the request window is what was left of it before, and no entry of any
    key admits more than it did. The windows of tokens and of costs are not part of it: they
    are pruned on the way, the costs of a key without prices to the last minute. *)
Theorem admission_all_or_nothing self ttl downstream scope model ci event_id lease_id now t1 t2 t3 :
  dc_rate_limit_enabled downstream = true ->
  (forall event, event ∈ request_window self (dc_id downstream) -> re_event_id event <> event_id) ->
  runtime_ok (dg_runtime self) ->
  let window := retained_window self downstream now in
  let '(self', admitted) := reserve_downstream_admission self ttl downstream scope model ci event_id lease_id
    now t1 t2 t3 (fun gate => gate) in
  match admitted with
  | Ok (reservation, lease) =>
      reservation = {| rv_downstream_id := dc_id downstream; rv_event_id := Some event_id |} /\
      request_window self' (dc_id downstream) = window ++ [{| re_event_id := event_id; re_created_at := now |}] /\
      cl_lease_id lease = Some lease_id /\ cl_downstream_id lease = dc_id downstream /\
      dl_admitted (lease_state (dg_runtime self') (lease_key lease)) !! lease_id =
        Some (sat_add u64_max t3 (lease_duration_ms ttl))
  | Err _ =>
      request_window self' (dc_id downstream) = window /\ fewer (dg_runtime self) (dg_runtime self')
  end.
Proof.
  intros Henabled Hfresh Hok window. unfold reserve_downstream_admission. rewrite Henabled. cbn [negb].
  pose proof (reserve_request_spec self downstream scope event_id now) as Hspec.
  destruct (reserve_downstream_request self downstream scope event_id now) as [self1 [reservation|rejection]].
  2: { destruct Hspec as (_ & -> & _ & Hwin). by rewrite (Hwin Henabled). }
  destruct Hspec as (_ & Hruntime & _ & Hwin). destruct (Hwin Henabled) as (-> & Hw & _). clear Hwin.
  pose proof (reserve_spec (dg_runtime self1) ttl downstream model ci lease_id t1 t2 t3) as Hs. cbn zeta in Hs.
  destruct (try_reserve_downstream_concurrency (dg_runtime self1) ttl downstream model ci lease_id t1 t2 t3) as [runtime [lease|rejection]] eqn:Hr.
  - split; [done|]. split; [exact Hw|]. unfold try_reserve_downstream_concurrency in Hr. rewrite Henabled in Hr. cbn [negb] in Hr.
    destruct (is_some_and _ _); [done|]. destruct (_ <=? _); [done|]. injection Hr as <- <-. simpl. split_and!; try done.
    rewrite lease_state_insert, bool_decide_eq_true_2 by done. simpl. by rewrite lookup_insert_eq.
  - split.
    + rewrite rollback_window. simpl. rewrite String.eqb_refl. unfold request_window in *. simpl. rewrite Hw, retain_app.
      rewrite retain_cons. simpl. rewrite String.eqb_refl, app_nil_r. apply retain_all. intros event Hin.
      apply negb_true_iff, String.eqb_neq, Hfresh. unfold request_window. by eapply drop_while_elem.
    + assert (fewer (dg_runtime self1) runtime) as Hf.
      { rewrite Hruntime in *. unfold try_reserve_downstream_concurrency in Hr. rewrite Henabled in Hr. cbn [negb] in Hr.
        assert (forall o : option ModelConcurrencyGroup, fewer (dg_runtime self)
          (match o with Some _ => <[(dc_id downstream, map_or "" mg_name o) := lease_state_prune_expired
              (lease_state (dg_runtime self) (dc_id downstream, map_or "" mg_name o)) t1]> (dg_runtime self)
           | None => dg_runtime self end)) as Hg.
        { intros []; [apply put_fewer, prune_fewer|done]. }
        specialize (Hg (concurrency_group_for_model (dc_model_concurrency_groups downstream) model ci)).
        destruct (is_some_and _ _); [by injection Hr as <- _|]. destruct (_ <=? _); [by injection Hr as <- _|done]. }
      rewrite Hruntime in Hf. unfold rollback_downstream_request_reservation. simpl.
      by destruct (dg_request_windows self1 !! _).
Qed.

(** ** What does not lapse *)

Lemma all_lapsed_total (runtime : runtime_table) id now :
  (forall key state lease_id expires_at, runtime !! key = Some state -> dl_admitted state !! lease_id = Some expires_at ->
    expires_at <= now) ->
  downstream_total_admitted (prune_key runtime id (fun _ => now)) id <= 0.
Proof.
  intros Hall.
  assert (downstream_total_admitted (prune_key runtime id (fun _ => now)) id =
    downstream_total_admitted (filter (fun '((i, _), _) => i = id) (prune_key runtime id (fun _ => now))) id) as ->.
  { unfold downstream_total_admitted. rewrite map_filter_filter. do 3 f_equal. apply map_filter_ext. intros [i g]. naive_solver. }
  assert (downstream_total_admitted ∅ id = 0) as <-
    by (unfold downstream_total_admitted, values; by rewrite map_filter_empty, map_to_list_empty).
  apply total_mono. intros [i g]. unfold lease_state at 2. rewrite lookup_empty. simpl. rewrite admitted_default.
  unfold lease_state. rewrite map_lookup_filter. destruct (prune_key runtime id (fun _ => now) !! (i, g)) as [state|] eqn:Hs;
    simpl; [|by rewrite admitted_default].
  case_guard as Hi; simpl; [|by rewrite admitted_default]. subst i.
  apply lease_state_Some in Hs. rewrite lease_state_prune_key in Hs. simpl in Hs. rewrite String.eqb_refl in Hs.
  assert (dl_admitted (lease_state_prune_expired (lease_state runtime (id, g)) now) = ∅) as Hempty.
  { apply map_eq. intros lease_id. rewrite lookup_empty. simpl. apply map_lookup_filter_None. right.
    intros expires_at Hin Hlt. unfold lease_state in Hin. destruct (runtime !! (id, g)) as [s|] eqn:Hg; simpl in Hin; [|by rewrite lookup_empty in Hin].
    specialize (Hall _ _ _ _ Hg Hin). lia. }
  unfold lease_state_is_empty in Hs. destruct (bool_decide_reflect (dl_admitted (lease_state runtime (id, g)) = ∅)) as [He|He];
    simpl in Hs; [|subst state; unfold admitted_count; by rewrite Hempty, map_size_empty].
  assert (dl_admitted state = ∅) as Hnone by (destruct (bool_decide _); simpl in Hs; subst state; [done|by rewrite Hempty]).
  unfold admitted_count. by rewrite Hnone, map_size_empty.
Qed.

(** Leases that lapse keep a key shut. The limit of a key counts the leases of all its
    entries without sweeping them, and a refusal changes nothing; so a key whose leases
    have all expired unreleased, which the expiry is documented to heal, refuses every
    request outside a group, at any time and as often as it tries. Only looking at the
    key, as the administration does, would make room. *)
Theorem lapsed_leases_shut_key runtime ttl downstream model ci lease_id t1 t2 t3 now :
  dc_rate_limit_enabled downstream = true ->
  concurrency_group_for_model (dc_model_concurrency_groups downstream) model ci = None ->
  Z.max 1 (dc_max_concurrency downstream) <= downstream_total_admitted runtime (dc_id downstream) ->
  (forall key state lease expires_at, runtime !! key = Some state -> dl_admitted state !! lease = Some expires_at ->
    expires_at <= now) ->
  try_reserve_downstream_concurrency runtime ttl downstream model ci lease_id t1 t2 t3 =
    (runtime, Err (ConcurrencyLimitExceeded 1 (Z.max 1 (dc_max_concurrency downstream)) None)) /\
  let looked := (downstream_runtime_snapshot runtime (dc_id downstream) (fun _ => now)).1 in
  is_ok (try_reserve_downstream_concurrency looked ttl downstream model ci lease_id t1 t2 t3).2 = true.
Proof.
  intros Henabled Hgroup Hfull Hlapsed. split.
  - unfold try_reserve_downstream_concurrency. rewrite Henabled, Hgroup. simpl.
    destruct (Z.leb_spec (Z.max 1 (dc_max_concurrency downstream)) (downstream_total_admitted runtime (dc_id downstream))); [done|lia].
  - unfold downstream_runtime_snapshot. cbn [fst]. pose proof (all_lapsed_total runtime (dc_id downstream) now Hlapsed) as Hzero.
    unfold try_reserve_downstream_concurrency. rewrite Henabled, Hgroup. cbn [negb is_some_and group_limit fmap option_fmap option_map].
    destruct (Z.leb_spec (Z.max 1 (dc_max_concurrency downstream))
      (downstream_total_admitted (prune_key runtime (dc_id downstream) (fun _ => now)) (dc_id downstream))); [lia|done].
Qed.

(** ** Samples *)

Definition priced_key : DownstreamConfig :=
  {| dc_id := "priced"; dc_rate_limit_enabled := true; dc_per_minute_limit := 2; dc_max_concurrency := 1;
     dc_input_token_price_per_million_cents := Some 300; dc_output_token_price_per_million_cents := Some 1500;
     dc_request_quota_window_hours := None; dc_request_quota_requests := None; dc_billing_mode := "token";
     dc_model_concurrency_groups := [] |}.

(** Another key of the same account, which pays per request. *)
Definition unpriced_key : DownstreamConfig :=
  {| priced_key with dc_id := "unpriced"; dc_input_token_price_per_million_cents := None;
     dc_output_token_price_per_million_cents := None; dc_billing_mode := "request" |}.

Definition shared_scope : CostScope := {| cs_scope_id := "account"; cs_daily_limit_cents := Some 100 |}.

(** The account has spent its daily limit. *)
Definition spent : DownstreamGate :=
  {| DownstreamGate_default with dg_token_windows := {["account" := [{| te_created_at := 1000; te_tokens := 100 |}]]} |}.

(** A key that pays per request erases what its account has spent. The costs of an
    account are one window for all of its keys, but a request of a key without prices
    shortens it to a minute; so the limit of the day, which refuses a priced key, is
    gone as soon as such a key has made a request. *)
Theorem unpriced_key_erases_costs :
  (reserve_downstream_request spent priced_key shared_scope "e1" 2000).2 = Err (DailyCostQuotaExceeded 85400 100 100) /\
  let after := (reserve_downstream_request spent unpriced_key shared_scope "e2" 2001).1 in
  dg_token_windows after !! "account" = Some [] /\
  is_ok (reserve_downstream_request after priced_key shared_scope "e3" 2002).2 = true.
Proof. by vm_compute. Qed.

(** ** Witnesses *)

Definition minute_trace : list window_event :=
  [Request unpriced_key shared_scope "e1" 100; Request unpriced_key shared_scope "e2" 130;
   Request unpriced_key shared_scope "e3" 159; Request unpriced_key shared_scope "e4" 160].

(** The third request comes in the 60th second of the first one, the fourth after it. *)
Example minute_granted :
  re_event_id <$> (run_windows "unpriced" minute_trace).2 = ["e1"; "e2"; "e4"] /\
  (reserve_downstream_request (run_windows "unpriced" (take 2 minute_trace)).1 unpriced_key shared_scope "e3" 159).2 =
    Err (PerMinuteLimitExceeded 1 2 2).
Proof. by vm_compute. Qed.

Lemma request_rate_bounded_witness : limited unpriced_key (run_windows "unpriced" minute_trace).2.
Proof. apply (request_rate_bounded unpriced_key minute_trace 100); by vm_compute. Defined.

Definition used_up : DownstreamGate := (run_windows "unpriced" (take 2 minute_trace)).1.

Lemma minute_retry_after_exact_witness :
  (reserve_downstream_request used_up unpriced_key shared_scope "e3" 140).2 = Err (PerMinuteLimitExceeded 20 2 2) /\
  let '(self', reserved) := reserve_downstream_request used_up unpriced_key shared_scope "e3" 140 in
  reserved = Err (PerMinuteLimitExceeded 20 2 2) -> 2 <= 2 ->
  (exists retry_after limit used,
    (reserve_downstream_request self' unpriced_key shared_scope "e4" 160).2 = Err (PerMinuteLimitExceeded retry_after limit used))
  <-> 160 < 140 + 20.
Proof.
  split; [by vm_compute|].
  apply (minute_retry_after_exact used_up unpriced_key shared_scope shared_scope "e3" "e4" 140 160 20 2 2);
    [reflexivity|reflexivity| | |unfold u64_max; lia].
  - change (in_order [{| re_event_id := "e1"; re_created_at := 100 |}; {| re_event_id := "e2"; re_created_at := 130 |}]).
    unfold in_order. repeat constructor; simpl; lia.
  - change (Forall (fun event => 0 <= re_created_at event <= 140)
      [{| re_event_id := "e1"; re_created_at := 100 |}; {| re_event_id := "e2"; re_created_at := 130 |}]).
    apply List.Forall_cons; [simpl; lia|]. apply List.Forall_cons; [simpl; lia|]. apply List.Forall_nil.
Defined.

Definition lease_trace : list lease_event :=
  [TryReserve unpriced_key "glm-5" true "l1" 1000 1000 1000; TryReserve unpriced_key "glm-5" true "l2" 1000 1000 1000].

Lemma downstream_concurrency_bounded_witness : downstream_total_admitted (run_leases 60 lease_trace) "unpriced" <= 1.
Proof.
  apply (downstream_concurrency_bounded 60 lease_trace "unpriced" 1 "group" 1).
  apply List.Forall_cons; [by intros _|]. apply List.Forall_cons; [by intros _|]. apply List.Forall_nil.
Defined.

Definition busy : DownstreamGate := {| DownstreamGate_default with dg_runtime := run_leases 60 lease_trace |}.

Definition refused_admission :=
  reserve_downstream_admission busy 60 unpriced_key shared_scope "glm-5" true "e1" "l3" 200 2000 2000 2000 (fun gate => gate).

Lemma refused_admission_refused : is_ok refused_admission.2 = false.
Proof. by vm_compute. Qed.

Lemma admission_all_or_nothing_witness : request_window refused_admission.1 "unpriced" = retained_window busy unpriced_key 200.
Proof.
  pose proof (admission_all_or_nothing busy 60 unpriced_key shared_scope "glm-5" true "e1" "l3" 200 2000 2000 2000 eq_refl) as H.
  fold refused_admission in H. pose proof refused_admission_refused as Hr. destruct refused_admission as [self' [[? ?]|?]]; [done|].
  apply H.
  - intros event Hin. by apply elem_of_nil in Hin.
  - apply (lease_step_ok 60 ∅ (TryReserve unpriced_key "glm-5" true "l1" 1000 1000 1000) "unpriced" 1 "group" 1); try done; lia.
Defined.

Lemma lapsed_leases_shut_key_witness :
  is_ok (try_reserve_downstream_concurrency (run_leases 60 lease_trace) 60 unpriced_key "glm-5" true "l9"
    999999 999999 999999).2 = false.
Proof.
  destruct (lapsed_leases_shut_key (run_leases 60 lease_trace) 60 unpriced_key "glm-5" true "l9" 999999 999999 999999 61000
    eq_refl eq_refl) as [-> _]; [by vm_compute| |reflexivity].
  change (run_leases 60 lease_trace) with
    (<[("unpriced", "") := {| dl_admitted := <["l1" := 61000]> ∅; dl_waiting := ∅ |}]> (∅ : runtime_table)).
  intros key state lease expires_at Hs Hl. apply lookup_insert_Some in Hs as [[_ <-]|[_ Hs]]; [|by rewrite lookup_empty in Hs].
  simpl in Hl. apply lookup_insert_Some in Hl as [[_ <-]|[_ Hl]]; [lia|by rewrite lookup_empty in Hl].
Defined.
