(* ===== verification/AccountRecovery.v ===== *)
(** * Waiting for a saturated account

    The session of [src/src/server/gateway/account_recovery.rs], through which one
    request queues on saturated accounts, waits for its turn to probe one of them,
    keeps the probe alive while it runs and reports how it ended. It works on the
    registry of [AccountConcurrency] and the leases of [DownstreamAdmission], which
    all requests share; the wrappers of [src/src/state.rs] in between are modelled for
    the local backend.

    A session is a computation that awaits: whenever it touches the shared state or
    reads a clock it takes the next [Turn], which first lets the other requests change
    the world in any way, and then gives it the clocks and a fresh UUID. A run out of
    turns is [Suspended]; a future that is dropped is never resumed. Sleeping skips
    turns until the clock is late enough. The task that renews the probe is a machine
    of its own, [ProbeRenewal], whose ticks are interleaved with everything else.

    The sums that can pass the end of the clock are checked: those with a Retry-After, with
    a delay of the schedule and with the lifetime of a probe. The sums with the fixed
    intervals of this file, and the deadlines that the registry gives to tickets and
    probes, are not; [AccountConcurrency] checks the latter for each of its events. *)

From S2P Require Import Prelude RouteTypes AccountConcurrency UpstreamLeases ModelIdentity ModelGroups DownstreamAdmission.

Local Open Scope Z_scope.

Definition RENEWAL_INTERVAL : Duration := from_secs 30.
Definition PROBE_EXPIRY_MARGIN : Duration := from_secs 30.
Definition ACCOUNT_POLL_INTERVAL : Duration := from_millis 100.

(** ** The shared state *)

Record World := { wd_registry : AccountConcurrencyRegistry; wd_runtime : runtime_table }.

Record Turn := {
  tu_others : World -> World;
  tu_now : Instant;
  tu_unix_millis : Z;
  tu_uuid : string;
  (** what a rejection in this turn reads of the tuning *)
  tu_reads : TuningReads
}.

(** ** The renewal of a probe *)

Inductive ProbeOwnership := ActiveUntil (deadline : Instant) | OwnershipFailed.

(** The task, its channel to the session and the lease it renews. *)
Record ProbeRenewal := {
  rn_lease : AccountProbeLease;
  rn_safe_for : Duration;
  rn_ownership : ProbeOwnership;
  rn_next_renewal : Instant
}.

(** [ProbeRenewal::start]; [now] is read by the session, whose sum can panic, [task_now] by
    the task. A task that panics ends: its channel is closed, which the session sees as a
    failure. *)
Definition ProbeRenewal_start (lease : AccountProbeLease) (probe_ttl : Duration) (now task_now : Instant)
    : option ProbeRenewal :=
  let safe_for := sat_sub probe_ttl PROBE_EXPIRY_MARGIN in
  deadline ← instant_add now safe_for;
  Some match instant_add task_now RENEWAL_INTERVAL with
       | Some next_renewal =>
           {| rn_lease := lease; rn_safe_for := safe_for; rn_ownership := ActiveUntil deadline;
              rn_next_renewal := next_renewal |}
       | None =>
           {| rn_lease := lease; rn_safe_for := safe_for; rn_ownership := OwnershipFailed;
              rn_next_renewal := task_now |}
       end.

(** A wake of the task at its renewal time. The registry is asked at [now], the channel is
    written at [sent], the next time is computed at [rescheduled]. A failed task has ended. *)
Definition renewal_tick (registry : AccountConcurrencyRegistry) (renewal : ProbeRenewal) (now sent rescheduled : Instant)
    : AccountConcurrencyRegistry * ProbeRenewal :=
  match rn_ownership renewal with
  | OwnershipFailed => (registry, renewal)
  | ActiveUntil _ =>
      if now <? rn_next_renewal renewal then (registry, renewal)
      else
        match renew_probe registry (rn_lease renewal) now with
        | (registry, Err _) => (registry, {| renewal with rn_ownership := OwnershipFailed |})
        | (registry, Ok _) =>
            match instant_add sent (rn_safe_for renewal), instant_add rescheduled RENEWAL_INTERVAL with
            | Some deadline, Some next_renewal =>
                (registry, {| renewal with rn_ownership := ActiveUntil deadline; rn_next_renewal := next_renewal |})
            | _, _ => (registry, {| renewal with rn_ownership := OwnershipFailed |})
            end
        end
  end.

(** Whether [wait_for_failure] returns at [now]. *)
Definition ownership_lost (renewal : ProbeRenewal) (now : Instant) : bool :=
  match rn_ownership renewal with OwnershipFailed => true | ActiveUntil deadline => deadline <=? now end.

(** ** The session *)

Record AccountRecoverySession := {
  rs_request_id : string;
  rs_downstream_lease : DownstreamConcurrencyLease;
  rs_deadline : Instant;
  rs_recovery_deadline : option Instant;
  rs_tickets : list AccountWaitTicket;
  rs_probe : option AccountProbeLease;
  rs_probe_renewal : option ProbeRenewal;
  rs_waiting_marked : bool;
  rs_waited : Duration;
  rs_rounds : Z;
  rs_max_rounds : Z;
  rs_finished : bool
}.

Inductive AccountAdmission :=
| Ordinary
| Deferred (retry_after : Duration)
| AdmittedProbe (lease : AccountProbeLease).

(** The two [GatewayError]s of the module. *)
Inductive RecoveryError :=
| CoordinationUnavailable
| RecoveryBudgetExhausted (retry_after : Duration).

Definition AccountRecoverySession_new (request_id : string) (downstream_lease : DownstreamConcurrencyLease)
    (deadline : Instant) (max_rounds : Z) : AccountRecoverySession :=
  {| rs_request_id := request_id; rs_downstream_lease := downstream_lease; rs_deadline := deadline;
     rs_recovery_deadline := None; rs_tickets := []; rs_probe := None; rs_probe_renewal := None;
     rs_waiting_marked := false; rs_waited := 0; rs_rounds := 0; rs_max_rounds := Z.max 1 max_rounds;
     rs_finished := false |}.

(** ** Computations that await *)

Inductive progress (A : Type) : Type :=
| Returns (r : result A RecoveryError) (self : AccountRecoverySession) (world : World) (turns : list Turn)
| Suspended (self : AccountRecoverySession) (world : World)
| Panics.

Arguments Returns {A}.
Arguments Suspended {A}.
Arguments Panics {A}.

Definition Recovery (A : Type) : Type := AccountRecoverySession -> World -> list Turn -> progress A.

#[export] Instance recovery_ret : MRet Recovery := fun A a self world turns => Returns (Ok a) self world turns.

(** The [?] of the source: an error ends the computation. *)
#[export] Instance recovery_bind : MBind Recovery := fun A B k m self world turns =>
  match m self world turns with
  | Returns (Ok a) self world turns => k a self world turns
  | Returns (Err error) self world turns => Returns (Err error) self world turns
  | Suspended self world => Suspended self world
  | Panics => Panics
  end.

Definition fail {A} (error : RecoveryError) : Recovery A := fun self world turns => Returns (Err error) self world turns.

(** The result as a value, for callers that look at it. *)
Definition attempt {A} (m : Recovery A) : Recovery (result A RecoveryError) := fun self world turns =>
  match m self world turns with
  | Returns r self world turns => Returns (Ok r) self world turns
  | Suspended self world => Suspended self world
  | Panics => Panics
  end.

Definition this : Recovery AccountRecoverySession := fun self world turns => Returns (Ok self) self world turns.

Definition modify (f : AccountRecoverySession -> AccountRecoverySession) : Recovery unit :=
  fun self world turns => Returns (Ok tt) (f self) world turns.

(** A call into the shared state, whose error is [coordination_error]; [None] is a panic. *)
Definition call {A} (f : Turn -> World -> option (World * result A unit)) : Recovery A := fun self world turns =>
  match turns with
  | [] => Suspended self world
  | turn :: turns =>
      match f turn (tu_others turn world) with
      | None => Panics
      | Some (world, Ok a) => Returns (Ok a) self world turns
      | Some (world, Err _) => Returns (Err CoordinationUnavailable) self world turns
      end
  end.

(** [Instant::now]. *)
Definition instant_now : Recovery Instant := call (fun turn world => Some (world, Ok (tu_now turn))).

Fixpoint sleep_turns (wake_at : Instant) (self : AccountRecoverySession) (world : World) (turns : list Turn) : progress unit :=
  match turns with
  | [] => Suspended self world
  | turn :: turns =>
      let world := tu_others turn world in
      if tu_now turn <? wake_at then sleep_turns wake_at self world turns else Returns (Ok tt) self world turns
  end.

Definition sleep_until (wake_at : Instant) : Recovery unit := sleep_turns wake_at.

(** A computation of a value that panics without one. *)
Definition or_panic {A} (value : option A) : Recovery A := fun self world turns =>
  match value with Some a => Returns (Ok a) self world turns | None => Panics end.

(** ** The shared state, as [AppState] wraps it *)

(** A change of the registry alone; its error is [RuntimeCoordinationError]. *)
Definition on_registry {A E} (f : Turn -> AccountConcurrencyRegistry -> AccountConcurrencyRegistry * result A E)
    : Recovery A :=
  call (fun turn world =>
    let '(registry, r) := f turn (wd_registry world) in
    Some ({| world with wd_registry := registry |}, match r with Ok a => Ok a | Err _ => Err tt end)).

(** The waiter carries the key of the lease and the lease, empty when there is none. *)
Definition register_account_waiter_if_saturated (account : AccountConcurrencyKey) (request_id : string)
    (lease : DownstreamConcurrencyLease) : Recovery (option AccountWaitTicket) :=
  on_registry (E := unit) (fun turn registry =>
    let '(registry, ticket) := register_waiter_if_saturated registry account request_id (cl_downstream_id lease)
      (default "" (cl_lease_id lease)) (tu_uuid turn) (tu_now turn) in
    (registry, Ok ticket)).

Definition account_requires_recovery (account : AccountConcurrencyKey) : Recovery bool :=
  on_registry (E := unit) (fun turn registry =>
    let '(registry, snap) := snapshot registry account (tu_now turn) in (registry, Ok (snap_saturated snap))).

Definition account_recovery_retry_after (account : AccountConcurrencyKey) : Recovery Duration :=
  on_registry (E := unit) (fun turn registry =>
    let '(registry, snap) := snapshot registry account (tu_now turn) in (registry, Ok (snap_retry_after snap))).

Definition renew_account_waiter (ticket : AccountWaitTicket) : Recovery unit :=
  on_registry (fun turn registry => renew_waiter registry ticket (tu_now turn)).

Definition cancel_account_waiter (ticket : AccountWaitTicket) : Recovery unit :=
  on_registry (E := unit) (fun turn registry => (cancel_waiter registry ticket (tu_now turn), Ok tt)).

(** [try_acquire_account_probe]. *)
Definition try_acquire_account_probe (ticket : AccountWaitTicket) : Turn -> World -> World * ProbeDecision :=
  fun turn world =>
    let '(registry, decision) := try_probe (wd_registry world) ticket (tu_uuid turn) (tu_now turn) in
    ({| world with wd_registry := registry |}, decision).

(** A granted probe no longer waits: its lease leaves the waiting set in the same step. *)
Definition try_acquire_account_probe_for_downstream_lease (ticket : AccountWaitTicket) (lease : DownstreamConcurrencyLease)
    : Recovery ProbeDecision :=
  call (fun turn world =>
    if negb (String.eqb (tk_downstream_id ticket) (cl_downstream_id lease)) then Some (world, Err tt)
    else
      match cl_lease_id lease with
      | None => let '(world, decision) := try_acquire_account_probe ticket turn world in Some (world, Ok decision)
      | Some lease_id =>
          if negb (String.eqb (tk_downstream_lease_id ticket) lease_id) then Some (world, Err tt)
          else
            match wd_runtime world !! lease_key lease with
            | None => Some (world, Err tt)
            | Some downstream =>
                if is_none (dl_admitted downstream !! lease_id) || negb (bool_decide (lease_id ∈ dl_waiting downstream))
                then Some (world, Err tt)
                else
                  let '(world, decision) := try_acquire_account_probe ticket turn world in
                  match decision with
                  | Granted _ =>
                      Some ({| world with wd_runtime :=
                        <[lease_key lease := {| downstream with dl_waiting := dl_waiting downstream ∖ {[lease_id]} |}]>
                          (wd_runtime world) |}, Ok decision)
                  | Wait _ => Some (world, Ok decision)
                  end
            end
      end).

Definition mark_waiting (lease : DownstreamConcurrencyLease) : Recovery unit :=
  call (fun turn world =>
    let '(runtime, r) := mark_downstream_waiting (wd_runtime world) lease (tu_unix_millis turn) in
    Some ({| world with wd_runtime := runtime |}, r)).

Definition unmark_waiting (lease : DownstreamConcurrencyLease) : Recovery unit :=
  call (fun turn world =>
    Some ({| world with wd_runtime := unmark_downstream_waiting (wd_runtime world) lease |}, Ok tt)).

Section recovery.
(** The jitter of the registry, and the header timeout of the configuration. *)
Variable hash_account : AccountConcurrencyKey -> Z -> Z.
Variable upstream_response_header_timeout_seconds : Z.

Definition observe_account_concurrency (account : AccountConcurrencyKey) (retry_after : option Duration) : Recovery unit :=
  call (fun turn world =>
    registry ← reject hash_account (wd_registry world) account retry_after (tu_reads turn) (tu_now turn);
    Some ({| world with wd_registry := registry |}, Ok tt)).

Definition finish_account_probe (lease : AccountProbeLease) (outcome : AccountProbeOutcome) : Recovery unit :=
  call (fun turn world =>
    '(registry, r) ← finish_probe hash_account (wd_registry world) lease outcome (tu_reads turn) (tu_now turn);
    Some ({| world with wd_registry := registry |}, match r with Ok _ => Ok tt | Err _ => Err tt end)).

(** ** The methods of the session *)

(** The time left until the latest deadline of recovery, at least a second. *)
Definition recovery_retry_after : Recovery Duration :=
  self ← this;
  match rs_recovery_deadline self with
  | None => mret (Z.max 0 (from_secs 1))
  | Some deadline => now ← instant_now; mret (Z.max (since deadline now) (from_secs 1))
  end.

Definition account_budget_exhausted {A} : Recovery A :=
  retry_after ← recovery_retry_after; fail (RecoveryBudgetExhausted retry_after).

Definition refresh_recovery_deadline (account : AccountConcurrencyKey) : Recovery unit :=
  retry_after ← account_recovery_retry_after account;
  now ← instant_now;
  match instant_add now retry_after with
  | None => fail CoordinationUnavailable
  | Some deadline =>
      modify (fun self =>
        {| self with rs_recovery_deadline := Some (map_or deadline (Z.max deadline) (rs_recovery_deadline self)) |})
  end.

Definition push_ticket (ticket : AccountWaitTicket) : Recovery unit :=
  modify (fun self => {| self with rs_tickets := rs_tickets self ++ [ticket] |}).

Definition set_marked (marked : bool) : Recovery unit :=
  modify (fun self => {| self with rs_waiting_marked := marked |}).

Definition ensure_marked : Recovery unit :=
  self ← this;
  if rs_waiting_marked self then mret tt
  else mark_waiting (rs_downstream_lease self);; set_marked true.

Definition has_ticket (self : AccountRecoverySession) (account : AccountConcurrencyKey) : bool :=
  existsb (fun ticket => bool_decide (tk_account ticket = account)) (rs_tickets self).

Definition deferred : Recovery AccountAdmission := retry_after ← recovery_retry_after; mret (Deferred retry_after).

Definition wait_for_account (account : AccountConcurrencyKey) : Recovery AccountAdmission :=
  self ← this;
  match rs_probe self with
  | Some probe => if bool_decide (pl_account probe = account) then mret (AdmittedProbe probe) else deferred
  | None =>
      if has_ticket self account then deferred
      else
        ticket ← register_account_waiter_if_saturated account (rs_request_id self) (rs_downstream_lease self);
        match ticket with
        | None => mret Ordinary
        | Some ticket =>
            push_ticket ticket;;
            refresh_recovery_deadline account;;
            retry_after ← recovery_retry_after;
            ensure_marked;;
            mret (Deferred retry_after)
        end
  end.

Fixpoint renew_tickets (tickets : list AccountWaitTicket) : Recovery unit :=
  match tickets with
  | [] => mret tt
  | ticket :: tickets => renew_account_waiter ticket;; renew_tickets tickets
  end.

Definition probe_ttl : Duration := from_secs (sat_add u64_max upstream_response_header_timeout_seconds 60).

Definition take_probe (selected : AccountWaitTicket) (lease : AccountProbeLease) : Recovery AccountAdmission :=
  modify (fun self =>
    {| self with
       rs_tickets := retain (fun ticket =>
         negb (String.eqb (tk_registration_token ticket) (tk_registration_token selected))) (rs_tickets self);
       rs_probe := Some lease;
       rs_waiting_marked := false;
       rs_rounds := sat_add u32_max (rs_rounds self) 1 |});;
  now ← instant_now;
  task_now ← instant_now;
  renewal ← or_panic (ProbeRenewal_start lease probe_ttl now task_now);
  modify (fun self => {| self with rs_probe_renewal := Some renewal |});;
  mret (AdmittedProbe lease).

(** The end of a round of waiting: whether the tickets are due for renewal, and when next. *)
Definition renew_if_due (next_renewal : Instant) : Recovery Instant :=
  now ← instant_now;
  if now <? next_renewal then mret next_renewal
  else self ← this; renew_tickets (rs_tickets self);; now ← instant_now; mret (now + RENEWAL_INTERVAL).

Definition wait_round (retry_after : Duration) (next_renewal : Instant) : Recovery Instant :=
  now ← instant_now;
  self ← this;
  sleep_until (Z.min (Z.min (now + Z.min retry_after ACCOUNT_POLL_INTERVAL) next_renewal) (rs_deadline self));;
  later ← instant_now;
  modify (fun self => {| self with rs_waited := dur_add (rs_waited self) (since later now) |});;
  renew_if_due next_renewal.

(** Each round takes at least four turns, so the turns are fuel enough. *)
Fixpoint wait_loop (fuel : nat) (selected : AccountWaitTicket) (next_renewal : Instant) : Recovery AccountAdmission :=
  match fuel with
  | O => fun self world _ => Suspended self world
  | S fuel =>
      now ← instant_now;
      self ← this;
      if (rs_deadline self <=? now) || (rs_max_rounds self <=? rs_rounds self) then account_budget_exhausted
      else
        decision ← try_acquire_account_probe_for_downstream_lease selected (rs_downstream_lease self);
        match decision with
        | Granted lease => take_probe selected lease
        | Wait retry_after => next_renewal ← wait_round retry_after next_renewal; wait_loop fuel selected next_renewal
        end
  end.

Definition wait_for_ticket (selected : AccountWaitTicket) : Recovery AccountAdmission := fun self world turns =>
  (now ← instant_now; wait_loop (length turns) selected (now + RENEWAL_INTERVAL)) self world turns.

Definition wait_for_pending_account : Recovery bool :=
  self ← this;
  match rs_probe self with
  | Some _ => mret true
  | None =>
      match min_by (key_ltb tk_registered_at_ms) (rs_tickets self) with
      | None => mret false
      | Some ticket =>
          admission ← wait_for_ticket ticket;
          mret (match admission with AdmittedProbe _ => true | _ => false end)
      end
  end.

Definition active_probe_account (self : AccountRecoverySession) : option AccountConcurrencyKey :=
  pl_account <$> rs_probe self.

Definition has_pending_recovery (self : AccountRecoverySession) : bool :=
  negb (is_empty (rs_tickets self)) || is_some (rs_probe self).

(** What [wait_for_probe_interruption] gives when it is polled at [now]: nothing yet, the
    loss of the probe, or the end of the budget. When both are due, the select takes
    either, [pick_failure] says which. *)
Inductive Interruption := StillWaiting | ProbeLost | BudgetSpent.

Definition probe_interruption (self : AccountRecoverySession) (renewal : option ProbeRenewal) (pick_failure : bool)
    (now : Instant) : Interruption :=
  let lost := is_some_and (fun renewal => ownership_lost renewal now) renewal in
  let spent := rs_deadline self <=? now in
  if lost && (pick_failure || negb spent) then ProbeLost else if spent then BudgetSpent else StillWaiting.

Definition wait_for_probe_interruption (interruption : Interruption) (started : Instant) : Recovery RecoveryError :=
  match interruption with
  | BudgetSpent =>
      now ← instant_now;
      modify (fun self => {| self with rs_waited := dur_add (rs_waited self) (since now started) |});;
      retry_after ← recovery_retry_after;
      mret (RecoveryBudgetExhausted retry_after)
  | _ => mret CoordinationUnavailable
  end.

Definition session_enqueue (account : AccountConcurrencyKey) : Recovery unit :=
  self ← this;
  if has_ticket self account then mret tt
  else
    ticket ← register_account_waiter_if_saturated account (rs_request_id self) (rs_downstream_lease self);
    match ticket with
    | None => mret tt
    | Some ticket => push_ticket ticket;; ensure_marked
    end.

(** The tickets whose cancellation failed are kept. *)
Fixpoint cancel_each (tickets retained : list AccountWaitTicket) (failed : bool)
    : Recovery (list AccountWaitTicket * bool) :=
  match tickets with
  | [] => mret (retained, failed)
  | ticket :: tickets =>
      r ← attempt (cancel_account_waiter ticket);
      match r with
      | Ok _ => cancel_each tickets retained failed
      | Err _ => cancel_each tickets (retained ++ [ticket]) true
      end
  end.

Definition cancel_all_waiters : Recovery unit :=
  self ← this;
  modify (fun self => {| self with rs_tickets := [] |});;
  '(retained, failed) ← cancel_each (rs_tickets self) [] false;
  modify (fun self => {| self with rs_tickets := retained |});;
  failed ←
    (if rs_waiting_marked self then
       r ← attempt (unmark_waiting (rs_downstream_lease self));
       match r with
       | Err _ => mret true
       | Ok _ => set_marked false;; mret failed
       end
     else mret failed);
  if failed : bool then fail CoordinationUnavailable else mret tt.

Definition stop_renewal : Recovery unit := modify (fun self => {| self with rs_probe_renewal := None |}).
Definition clear_probe : Recovery unit := modify (fun self => {| self with rs_probe := None |}).

Definition enqueue_if_required (account : AccountConcurrencyKey) : Recovery unit :=
  required ← account_requires_recovery account;
  if required : bool then session_enqueue account else mret tt.

Definition complete_attempt (account : AccountConcurrencyKey) (outcome : AccountProbeOutcome) : Recovery unit :=
  stop_renewal;;
  self ← this;
  (match rs_probe self with
   | Some probe =>
       if negb (bool_decide (pl_account probe = account)) then
         finish_account_probe probe Cancelled;; clear_probe;; fail CoordinationUnavailable
       else finish_account_probe probe outcome;; clear_probe
   | None =>
       match outcome with
       | ConcurrencyRejected retry_after => observe_account_concurrency account retry_after
       | _ => mret tt
       end
   end);;
  match outcome with
  | ConcurrencyRejected _ | AttemptFailed => refresh_recovery_deadline account;; enqueue_if_required account
  | Accepted => cancel_all_waiters
  | Cancelled => mret tt
  end.

Definition session_finish : Recovery unit :=
  self ← this;
  if rs_finished self then mret tt
  else
    stop_renewal;;
    failed ←
      (match rs_probe self with
       | None => mret false
       | Some probe =>
           r ← attempt (finish_account_probe probe Cancelled);
           match r with Err _ => mret true | Ok _ => clear_probe;; mret false end
       end);
    cancelled ← attempt cancel_all_waiters;
    if failed || negb (is_ok cancelled) then fail CoordinationUnavailable
    else modify (fun self => {| self with rs_finished := true |}).

(** [Drop]: without a runtime nothing is released here; the task that it spawns otherwise
    ignores every error. *)
Fixpoint cancel_ignoring (tickets : list AccountWaitTicket) : Recovery unit :=
  match tickets with
  | [] => mret tt
  | ticket :: tickets => _ ← attempt (cancel_account_waiter ticket); cancel_ignoring tickets
  end.

Definition drop_session (has_runtime : bool) : Recovery unit :=
  self ← this;
  if rs_finished self || (is_empty (rs_tickets self) && is_none (rs_probe self) && negb (rs_waiting_marked self))
  then mret tt
  else
    stop_renewal;;
    modify (fun self => {| self with rs_tickets := []; rs_probe := None |});;
    if negb has_runtime then mret tt
    else
      (match rs_probe self with
       | Some probe => _ ← attempt (finish_account_probe probe Cancelled); mret tt
       | None => mret tt
       end);;
      cancel_ignoring (rs_tickets self);;
      (if rs_waiting_marked self then _ ← attempt (unmark_waiting (rs_downstream_lease self)); mret tt else mret tt).

(** ** A request's calls, one after the other *)

Inductive session_call :=
| CallWaitForAccount (account : AccountConcurrencyKey)
| CallWaitForPendingAccount
| CallCompleteAttempt (account : AccountConcurrencyKey) (outcome : AccountProbeOutcome)
| CallFinish.

Definition run_call (c : session_call) : Recovery unit :=
  match c with
  | CallWaitForAccount account => _ ← wait_for_account account; mret tt
  | CallWaitForPendingAccount => _ ← wait_for_pending_account; mret tt
  | CallCompleteAttempt account outcome => complete_attempt account outcome
  | CallFinish => session_finish
  end.

(** The caller goes on whatever a call returns. *)
Fixpoint run_calls (calls : list session_call) : Recovery unit :=
  match calls with
  | [] => mret tt
  | c :: calls => _ ← attempt (run_call c); run_calls calls
  end.

End recovery.

(** ** Reasoning about computations *)

(** What holds when a computation returns, or is suspended; it never panics. *)
Definition wp {A} (m : Recovery A) (returned : result A RecoveryError -> AccountRecoverySession -> World -> list Turn -> Prop)
    (suspended : AccountRecoverySession -> World -> Prop) self world turns : Prop :=
  match m self world turns with
  | Returns r self world turns => returned r self world turns
  | Suspended self world => suspended self world
  | Panics => False
  end.

Lemma wp_bind {A B} (m : Recovery A) (k : A -> Recovery B) Q S self world turns :
  wp m (fun r self world turns =>
    match r with Ok a => wp (k a) Q S self world turns | Err error => Q (Err error) self world turns end) S self world turns ->
  wp (m ≫= k) Q S self world turns.
Proof. unfold wp, mbind, recovery_bind. destruct (m self world turns) as [[a|e] ? ? ?|? ?|]; done. Qed.

Lemma wp_mono {A} (m : Recovery A) (Q Q' : result A RecoveryError -> AccountRecoverySession -> World -> list Turn -> Prop)
    (S S' : AccountRecoverySession -> World -> Prop) self world turns :
  wp m Q S self world turns -> (forall r s w t, Q r s w t -> Q' r s w t) -> (forall s w, S s w -> S' s w) ->
  wp m Q' S' self world turns.
Proof. unfold wp. intros Hm HQ HS. destruct (m self world turns); auto. Qed.

Lemma wp_attempt {A} (m : Recovery A) Q S self world turns :
  wp m (fun r => Q (Ok r)) S self world turns -> wp (attempt m) Q S self world turns.
Proof. unfold wp, attempt. destruct (m self world turns); done. Qed.

Section sessions.
(** The header timeout of the configuration and the Retry-After values that come up. *)
Context (timeout : Z) (named : list Duration).

(** A turn in which nothing that the session may do panics: the others keep the registry
    well formed, a rejection reads one schedule, and what is added to the clock lies on
    it: the delays of the schedule, the time for which a probe is safe, each Retry-After. *)
Record sound (turn : Turn) : Prop := {
  sd_tame : forall world, registry_ok (wd_registry world) -> registry_ok (wd_registry (tu_others turn world));
  sd_reads : rejection_in_time (tu_reads turn) None (tu_now turn);
  sd_clock : tu_now turn <= instant_max;
  sd_probe : tu_now turn + probe_ttl timeout <= instant_max;
  sd_named : Forall (fun d => tu_now turn + d <= instant_max) named
}.

(** The outcomes that name no other Retry-After. *)
Definition outcome_named (outcome : AccountProbeOutcome) : Prop :=
  match outcome with ConcurrencyRejected (Some d) => d ∈ named | _ => True end.

Lemma sound_outcome turn outcome : sound turn -> outcome_named outcome ->
  match outcome with ConcurrencyRejected ra => rejection_in_time (tu_reads turn) ra (tu_now turn) | _ => True end.
Proof.
  intros [_ [] _ _ Hn] Ho. destruct outcome as [[d|]| | |]; try done. split; try done.
  rewrite Forall_forall in Hn. by apply Hn.
Qed.

(** A precondition, kept suspended, and a postcondition, when the turns are sound; every
    computation keeps the registry well formed. *)
Definition triple {A} (always P : AccountRecoverySession -> Prop) (m : Recovery A)
    (Q : result A RecoveryError -> AccountRecoverySession -> Prop) : Prop :=
  forall self world turns, P self -> Forall sound turns -> registry_ok (wd_registry world) ->
    wp m (fun r self world turns => Q r self /\ Forall sound turns /\ registry_ok (wd_registry world))
      (fun self world => always self /\ registry_ok (wd_registry world)) self world turns.

Section rules.
Context (always : AccountRecoverySession -> Prop).

Lemma triple_ret {A} (a : A) (P : AccountRecoverySession -> Prop) : triple always P (mret a) (fun r self => r = Ok a /\ P self).
Proof. done. Qed.

Lemma triple_fail {A} error (P : AccountRecoverySession -> Prop) : triple always P (@fail A error) (fun r self => r = Err error /\ P self).
Proof. done. Qed.

Lemma triple_this (P : AccountRecoverySession -> Prop) : triple always P this (fun r self => r = Ok self /\ P self).
Proof. done. Qed.

Lemma triple_modify f (P : AccountRecoverySession -> Prop) :
  triple always P (modify f) (fun r self => r = Ok tt /\ exists self0, self = f self0 /\ P self0).
Proof. intros self world turns HP Ht Hr. unfold wp, modify. eauto 10. Qed.

Lemma triple_bind {A B} P (m : Recovery A) (k : A -> Recovery B) R Q :
  triple always P m R -> (forall a, triple always (R (Ok a)) (k a) Q) -> (forall e self, R (Err e) self -> Q (Err e) self) ->
  triple always P (m ≫= k) Q.
Proof.
  intros Hm Hk He self world turns HP Ht Hr. apply wp_bind. eapply wp_mono; [by apply Hm| |done].
  intros [a|e] s w t (HR & Ht' & Hr'); [by apply Hk|]. split; [by apply He|done].
Qed.

Lemma triple_conseq {A} P P' (m : Recovery A) Q Q' :
  triple always P m Q -> (forall self, P' self -> P self) -> (forall r self, Q r self -> Q' r self) ->
  triple always P' m Q'.
Proof.
  intros Hm HP HQ self world turns H Ht Hr. eapply wp_mono; [by apply Hm; [apply HP|..]| |done].
  intros r s w t (? & ? & ?). split; [by apply HQ|done].
Qed.

Lemma triple_attempt {A} P (m : Recovery A) Q :
  triple always P m Q -> triple always P (attempt m) (fun r self => exists r', r = Ok r' /\ Q r' self).
Proof.
  intros Hm self world turns H Ht Hr. apply wp_attempt. eapply wp_mono; [by apply Hm| |done].
  intros r s w t (? & ? & ?). eauto.
Qed.

(** The session is untouched by a call; the call must keep the registry well formed and not panic. *)
Lemma triple_call {A} (f : Turn -> World -> option (World * result A unit)) (P : AccountRecoverySession -> Prop) (R : result A unit -> Prop) :
  (forall self, P self -> always self) ->
  (forall turn world, sound turn -> registry_ok (wd_registry world) ->
    exists world' r, f turn world = Some (world', r) /\ registry_ok (wd_registry world') /\ R r) ->
  triple always P (call f)
    (fun r self => P self /\ match r with Ok a => R (Ok a) | Err e => e = CoordinationUnavailable end).
Proof.
  intros Halways Hf self world turns HP Ht Hr. unfold wp, call. destruct turns as [|turn turns]; [auto|].
  apply Forall_cons in Ht as [Hturn Ht]. destruct (Hf turn _ Hturn (sd_tame _ Hturn _ Hr)) as (world' & r & -> & ? & ?).
  by destruct r.
Qed.

Lemma triple_sleep wake_at (P : AccountRecoverySession -> Prop) :
  (forall self, P self -> always self) -> triple always P (sleep_until wake_at) (fun r self => r = Ok tt /\ P self).
Proof.
  intros Halways self world turns HP. unfold wp, sleep_until. revert world.
  induction turns as [|turn turns IH]; intros world Ht Hr; cbn [sleep_turns]; [auto|].
  apply Forall_cons in Ht as [Hturn Ht]. apply (sd_tame _ Hturn) in Hr. by destruct (tu_now turn <? wake_at); [apply IH|].
Qed.

End rules.

(** ** What a session keeps *)

Definition own_ticket (self : AccountRecoverySession) (ticket : AccountWaitTicket) : Prop :=
  tk_request_id ticket = rs_request_id self /\ tk_downstream_id ticket = cl_downstream_id (rs_downstream_lease self) /\
  tk_downstream_lease_id ticket = default "" (cl_lease_id (rs_downstream_lease self)).

Record session_ok (self : AccountRecoverySession) : Prop := {
  so_rounds : 0 <= rs_rounds self <= rs_max_rounds self;
  so_own : Forall (own_ticket self) (rs_tickets self);
  (** one ticket for each account *)
  so_accounts : NoDup (tk_account <$> rs_tickets self);
  (** and none for the account that is probed, during which the request does not count as waiting *)
  so_probe : forall probe, rs_probe self = Some probe ->
    ~ pl_account probe ∈ tk_account <$> rs_tickets self /\ rs_waiting_marked self = false;
  so_renewal : forall renewal, rs_probe_renewal self = Some renewal -> rs_probe self = Some (rn_lease renewal)
}.

(** What no method changes. *)
Definition same_request (self self' : AccountRecoverySession) : Prop :=
  rs_request_id self' = rs_request_id self /\ rs_downstream_lease self' = rs_downstream_lease self /\
  rs_deadline self' = rs_deadline self /\ rs_max_rounds self' = rs_max_rounds self.

Lemma new_session_ok request_id lease deadline max_rounds :
  session_ok (AccountRecoverySession_new request_id lease deadline max_rounds).
Proof. split; simpl; [lia|constructor|constructor|done|done]. Qed.

Lemma has_ticket_spec self account : has_ticket self account = true <-> account ∈ tk_account <$> rs_tickets self.
Proof.
  unfold has_ticket. rewrite list_elem_of_fmap, existsb_exists. setoid_rewrite bool_decide_eq_true.
  setoid_rewrite list_elem_of_In. naive_solver.
Qed.

Lemma NoDup_fmap_elem {A B} (f : A -> B) l x y : NoDup (f <$> l) -> x ∈ l -> y ∈ l -> f x = f y -> x = y.
Proof.
  intros Hd [i Hi]%list_elem_of_lookup [j Hj]%list_elem_of_lookup Hf.
  assert (i = j) as ->; [|congruence]. eapply NoDup_lookup; [done|by rewrite list_lookup_fmap, Hi|].
  by rewrite list_lookup_fmap, Hj, Hf.
Qed.

Section kept.
Context (hash_account : AccountConcurrencyKey -> Z -> Z) (start : AccountRecoverySession).

Definition inv (self : AccountRecoverySession) : Prop := session_ok self /\ same_request start self /\ rs_max_rounds self <= u32_max.
Definition idle (self : AccountRecoverySession) : Prop := inv self /\ rs_probe self = None.

(** Computations that leave the session as it is. *)
Definition quiet {A} (m : Recovery A) : Prop :=
  forall P : AccountRecoverySession -> Prop, (forall self, P self -> inv self) -> triple inv P m (fun _ => P).

Definition keeps {A} (P : AccountRecoverySession -> Prop) (m : Recovery A) : Prop := triple inv P m (fun _ => P).

Lemma quiet_ret {A} (a : A) : quiet (mret a).
Proof. intros P HP. eapply triple_conseq; [apply (triple_ret _ a P)|done|]. by intros r self [_ ?]. Qed.

Lemma quiet_fail {A} error : quiet (@fail A error).
Proof. intros P HP. eapply triple_conseq; [apply (triple_fail _ error P)|done|]. by intros r self [_ ?]. Qed.

Lemma quiet_this : quiet this.
Proof. intros P HP. eapply triple_conseq; [apply (triple_this _ P)|done|]. by intros r self [_ ?]. Qed.

Lemma quiet_call {A} (f : Turn -> World -> option (World * result A unit)) :
  (forall turn world, sound turn -> registry_ok (wd_registry world) ->
    exists world' r, f turn world = Some (world', r) /\ registry_ok (wd_registry world')) -> quiet (call f).
Proof.
  intros Hf P HP. eapply triple_conseq; [apply (triple_call _ f P (fun _ => True)); [done|]|done|].
  - intros turn world Ht Hr. destruct (Hf turn world Ht Hr) as (w & r & ? & ?). eauto.
  - by intros r self [? _].
Qed.

Lemma quiet_bind {A B} (m : Recovery A) (k : A -> Recovery B) : quiet m -> (forall a, quiet (k a)) -> quiet (m ≫= k).
Proof. intros Hm Hk P HP. eapply triple_bind; [by apply Hm|intros a; by apply Hk|done]. Qed.

Lemma quiet_attempt {A} (m : Recovery A) : quiet m -> quiet (attempt m).
Proof.
  intros Hm P HP. eapply triple_conseq; [apply triple_attempt, (Hm P HP)|done|]. by intros r self (r' & _ & ?).
Qed.

Lemma quiet_on_registry {A E} (f : Turn -> AccountConcurrencyRegistry -> AccountConcurrencyRegistry * result A E) :
  (forall turn registry, registry_ok registry -> registry_ok (f turn registry).1) -> quiet (on_registry f).
Proof.
  intros Hf. apply quiet_call. intros turn world _ Hr. specialize (Hf turn _ Hr). destruct (f turn _) as [registry r].
  eauto.
Qed.

Lemma keeps_bind {A B} P (m : Recovery A) (k : A -> Recovery B) : keeps P m -> (forall a, keeps P (k a)) -> keeps P (m ≫= k).
Proof. intros Hm Hk. eapply triple_bind; [apply Hm|apply Hk|done]. Qed.

Lemma keeps_attempt {A} P (m : Recovery A) : keeps P m -> keeps P (attempt m).
Proof. intros Hm. eapply triple_conseq; [apply triple_attempt, Hm|done|]. by intros r self (r' & _ & ?). Qed.

Lemma keeps_quiet {A} (P : AccountRecoverySession -> Prop) (m : Recovery A) : (forall self, P self -> inv self) -> quiet m -> keeps P m.
Proof. intros HP Hm. by apply Hm. Qed.

Lemma keeps_modify (P : AccountRecoverySession -> Prop) f : (forall self, P self -> P (f self)) -> keeps P (modify f).
Proof. intros Hf. eapply triple_conseq; [apply (triple_modify _ f P)|done|]. intros r self (_ & s & -> & ?). auto. Qed.

Lemma triple_modify_to (P Q : AccountRecoverySession -> Prop) f :
  (forall self, P self -> Q (f self)) -> triple inv P (modify f) (fun _ => Q).
Proof. intros Hf. eapply triple_conseq; [apply (triple_modify _ f P)|done|]. intros r self (_ & s & -> & ?). auto. Qed.

(** Looking at the session: the rest may rely on what it is now. *)
Lemma keeps_this {A} (P : AccountRecoverySession -> Prop) (k : AccountRecoverySession -> Recovery A) Q :
  (forall self, P self -> triple inv (fun s => s = self /\ P s) (k self) Q) -> triple inv P (this ≫= k) Q.
Proof.
  intros Hk self world turns HP Ht Hr. apply wp_bind. unfold wp at 1, this. by apply Hk.
Qed.

Lemma triple_then {A B} P R (m : Recovery A) (k : A -> Recovery B) Q :
  triple inv P m (fun _ => R) -> (forall a, triple inv R (k a) Q) -> (forall e self, R self -> Q (Err e) self) ->
  triple inv P (m ≫= k) Q.
Proof. intros Hm Hk He. eapply triple_bind; [apply Hm|apply Hk|by apply He]. Qed.

Lemma keeps_weaken {A} (P P' : AccountRecoverySession -> Prop) (m : Recovery A) Q :
  (forall self, P' self -> P self) -> triple inv P m Q -> triple inv P' m Q.
Proof. intros HP Hm. by eapply triple_conseq. Qed.

(** *** The calls *)

Lemma quiet_now : quiet instant_now.
Proof. apply quiet_call. eauto. Qed.

Lemma quiet_sleep wake_at : quiet (sleep_until wake_at).
Proof. intros P HP. eapply triple_conseq; [by apply (triple_sleep _ wake_at P)|done|]. by intros r self [_ ?]. Qed.

Lemma quiet_requires account : quiet (account_requires_recovery account).
Proof.
  apply quiet_on_registry. intros turn registry Hr.
  pose proof (run_step_ok hash_account registry (EvSnapshot account) (tu_now turn) _ Hr eq_refl) as H. simpl in H.
  by destruct (snapshot _ _ _).
Qed.

Lemma quiet_retry_after account : quiet (account_recovery_retry_after account).
Proof.
  apply quiet_on_registry. intros turn registry Hr.
  pose proof (run_step_ok hash_account registry (EvSnapshot account) (tu_now turn) _ Hr eq_refl) as H. simpl in H.
  by destruct (snapshot _ _ _).
Qed.

Lemma quiet_renew ticket : quiet (renew_account_waiter ticket).
Proof.
  apply quiet_on_registry. intros turn registry Hr.
  exact (run_step_ok hash_account registry (EvRenewWaiter ticket) (tu_now turn) _ Hr eq_refl).
Qed.

Lemma quiet_cancel ticket : quiet (cancel_account_waiter ticket).
Proof.
  apply quiet_on_registry. intros turn registry Hr. 
  exact (run_step_ok hash_account registry (EvCancel ticket) (tu_now turn) _ Hr eq_refl).
Qed.

Lemma quiet_mark lease : quiet (mark_waiting lease).
Proof. apply quiet_call. intros turn world _ Hr. destruct (mark_downstream_waiting _ _ _) as [runtime r]. eauto. Qed.

Lemma quiet_unmark lease : quiet (unmark_waiting lease).
Proof. apply quiet_call. eauto. Qed.

Lemma quiet_observe account retry_after :
  outcome_named (ConcurrencyRejected retry_after) -> quiet (observe_account_concurrency hash_account account retry_after).
Proof.
  intros Hn. apply quiet_call. intros turn world Ht Hr. apply (sound_outcome _ _ Ht) in Hn.
  destruct (reject_total hash_account (wd_registry world) account retry_after _ _ Hn) as [registry Hrun].
  rewrite Hrun. pose proof (reject_ok hash_account _ _ _ _ _ _ Hr Hrun). simpl. eauto.
Qed.

Lemma quiet_finish_probe lease outcome : outcome_named outcome -> quiet (finish_account_probe hash_account lease outcome).
Proof.
  intros Hn. apply quiet_call. intros turn world Ht Hr. apply (sound_outcome _ _ Ht) in Hn.
  destruct (finish_probe_total hash_account (wd_registry world) lease outcome _ _ Hn) as [[registry r] Hrun].
  rewrite Hrun. apply finish_probe_ok in Hrun; [|done]. eexists _, _. simpl. done.
Qed.

(** *** The methods *)

Hint Resolve quiet_ret quiet_fail quiet_this quiet_bind quiet_attempt quiet_now quiet_sleep quiet_requires quiet_retry_after
  quiet_renew quiet_cancel quiet_mark quiet_unmark : quiet.

Ltac quiet := repeat first
  [ apply quiet_ret | apply quiet_fail | apply quiet_this | (apply quiet_bind; [|intros]) | apply quiet_attempt
  | solve [eauto 2 with quiet] | case_goal ].

Lemma quiet_recovery_retry_after : quiet recovery_retry_after.
Proof. unfold recovery_retry_after. quiet. Qed.

Lemma quiet_exhausted {A} : quiet (@account_budget_exhausted A).
Proof. unfold account_budget_exhausted. apply quiet_bind; [apply quiet_recovery_retry_after|]. intros ?. apply quiet_fail. Qed.

Lemma quiet_deferred : quiet deferred.
Proof. unfold deferred. apply quiet_bind; [apply quiet_recovery_retry_after|]. intros ?. apply quiet_ret. Qed.

Lemma quiet_renew_tickets tickets : quiet (renew_tickets tickets).
Proof. induction tickets as [|ticket tickets IH]; simpl; quiet. Qed.

Lemma quiet_cancel_each tickets : forall retained failed, quiet (cancel_each tickets retained failed).
Proof. induction tickets as [|ticket tickets IH]; intros retained failed; simpl; quiet. Qed.

Lemma quiet_cancel_ignoring tickets : quiet (cancel_ignoring tickets).
Proof. induction tickets as [|ticket tickets IH]; simpl; quiet. Qed.

Lemma quiet_renew_if_due next : quiet (renew_if_due next).
Proof. unfold renew_if_due. quiet. apply quiet_renew_tickets. Qed.

Lemma quiet_acquire ticket lease : quiet (try_acquire_account_probe_for_downstream_lease ticket lease).
Proof.
  apply quiet_call. intros turn world _ Hr.
  pose proof (run_step_ok hash_account _ (EvTryProbe ticket (tu_uuid turn)) (tu_now turn) _ Hr eq_refl) as H. simpl in H.
  unfold try_acquire_account_probe. destruct (try_probe _ _ _ _) as [registry decision]. simpl in H.
  repeat case_match; eauto.
Qed.

(** The fields that the clocks move are none of the invariant's. *)
Definition clocks_only (f : AccountRecoverySession -> AccountRecoverySession) : Prop :=
  forall self, f self = {| self with rs_recovery_deadline := rs_recovery_deadline (f self); rs_waited := rs_waited (f self) |}.

Lemma inv_same self self' :
  rs_request_id self' = rs_request_id self -> rs_downstream_lease self' = rs_downstream_lease self ->
  rs_deadline self' = rs_deadline self -> rs_max_rounds self' = rs_max_rounds self ->
  session_ok self' -> inv self -> inv self'.
Proof. intros H1 H2 H3 H4 Hs (_ & (? & ? & ? & ?) & ?). split; [done|]. unfold same_request. split_and!; congruence. Qed.

Lemma clocks_inv f self : clocks_only f -> inv self -> inv (f self).
Proof.
  intros Hf Hi. rewrite Hf. apply (inv_same self); try done. destruct Hi as ([] & _). by split.
Qed.

Lemma clocks_idle f self : clocks_only f -> idle self -> idle (f self).
Proof. intros Hf [Hi Hp]. split; [by apply clocks_inv|]. by rewrite Hf. Qed.

Lemma keeps_refresh (P : AccountRecoverySession -> Prop) account :
  (forall self, P self -> inv self) -> (forall f self, clocks_only f -> P self -> P (f self)) ->
  keeps P (refresh_recovery_deadline account).
Proof.
  intros HP Hclocks. unfold refresh_recovery_deadline.
  apply keeps_bind; [apply keeps_quiet, quiet_retry_after; done|]. intros retry_after.
  apply keeps_bind; [apply keeps_quiet, quiet_now; done|]. intros now.
  destruct (instant_add now retry_after) as [deadline|]; [|apply keeps_quiet, quiet_fail; done].
  lazymatch goal with |- keeps _ (modify ?f) => apply keeps_modify; intros self; by apply (Hclocks f) end.
Qed.

Lemma idle_inv self : idle self -> inv self.
Proof. by intros []. Qed.

Lemma keeps_ensure_marked : keeps idle ensure_marked.
Proof.
  apply keeps_this. intros self Hidle. apply (keeps_weaken idle); [by intros s [_ ?]|]. fold (keeps idle (if rs_waiting_marked self then mret tt else mark_waiting (rs_downstream_lease self);; set_marked true)).
  destruct (rs_waiting_marked self); [apply keeps_quiet, quiet_ret; apply idle_inv|].
  apply keeps_bind; [apply keeps_quiet, quiet_mark; apply idle_inv|]. intros _. apply keeps_modify.
  intros s [Hi Hp]. split; [|done]. apply (inv_same s); try done. destruct Hi as ([] & _). split; try done.
  simpl. intros probe. congruence.
Qed.

(** Registering and queueing the ticket of an account that has none. *)
Lemma register_spec account (P : AccountRecoverySession -> Prop) self :
  (forall s, P s -> inv s) ->
  triple inv P (register_account_waiter_if_saturated account (rs_request_id self) (rs_downstream_lease self))
    (fun r s => P s /\ match r with Ok (Some ticket) => own_ticket self ticket /\ tk_account ticket = account | _ => True end).
Proof.
  intros HP. eapply triple_conseq; [apply (triple_call _ _ P (fun r => match r with
    | Ok (Some ticket) => own_ticket self ticket /\ tk_account ticket = account | _ => True end)); [done|]|done|].
  - intros turn world _ Hr.
    pose proof (run_step_ok hash_account _ (EvRegisterIfSaturated account (rs_request_id self) (cl_downstream_id (rs_downstream_lease self))
      (default "" (cl_lease_id (rs_downstream_lease self))) (tu_uuid turn)) (tu_now turn) _ Hr eq_refl) as H. simpl in H.
    destruct (register_waiter_if_saturated _ _ _ _ _ _ _) as [registry ticket] eqn:Hreg. eexists _, _.
    split; [done|]. split; [done|]. simpl. destruct ticket as [ticket|]; [|done].
    unfold register_waiter_if_saturated in Hreg. repeat case_match; simplify_eq/=.
    unfold enqueue_ticket in *. simplify_eq/=. done.
  - intros r s [? Hm]. split; [done|]. by destruct r as [[ticket|]|].
Qed.

Lemma push_ticket_idle self account ticket :
  has_ticket self account = false -> own_ticket self ticket -> tk_account ticket = account ->
  triple inv (fun s => s = self /\ idle s) (push_ticket ticket) (fun _ => idle).
Proof.
  intros Hnew Hown <-. apply triple_modify_to. intros s (-> & Hi & Hp). split; [|done].
  apply (inv_same self); try done. destruct Hi as ([] & _). split; simpl; try done.
  - apply Forall_app. by split; [|constructor].
  - rewrite fmap_app. apply NoDup_app. split_and!; [done| |apply NoDup_singleton].
    intros account Ha Hs. apply list_elem_of_singleton in Hs as ->. apply has_ticket_spec in Ha. congruence.
  - intros probe. congruence.
Qed.

(** Queueing on an account, for the two methods that do. *)
Lemma keeps_queue account {B} (k none : Recovery B) self :
  has_ticket self account = false -> keeps idle k -> keeps idle none ->
  triple inv (fun s => s = self /\ idle s)
    (ticket ← register_account_waiter_if_saturated account (rs_request_id self) (rs_downstream_lease self);
     match ticket with None => none | Some ticket => push_ticket ticket;; k end) (fun _ => idle).
Proof.
  intros Hnew Hk Hnone. eapply triple_bind.
  - apply (register_spec account (fun s => s = self /\ idle s) self). by intros s [_ []].
  - intros [ticket|]; cbn beta iota.
    + intros s world turns [Hs [Ho Ha]]. revert s world turns Hs.
      change (triple inv (fun s => s = self /\ idle s) (push_ticket ticket;; k) (fun _ => idle)).
      eapply triple_then; [by eapply push_ticket_idle|by intros _|done].
    + eapply keeps_weaken; [|apply Hnone]. by intros s [[_ ?] _].
  - by intros e s [[_ ?] _].
Qed.

Lemma keeps_wait_for_account account : keeps inv (wait_for_account account).
Proof.
  apply keeps_this. intros self Hself. destruct (rs_probe self) as [probe|] eqn:Hp.
  - apply (keeps_weaken inv); [by intros s []|]. destruct (bool_decide _); [by apply quiet_ret|by apply quiet_deferred].
  - destruct (has_ticket self account) eqn:Hnew; [apply (keeps_weaken inv); [by intros s []|by apply quiet_deferred]|].
    apply (keeps_weaken (fun s => s = self /\ idle s)); [by intros s [-> Hi]|].
    eapply triple_conseq; [apply (keeps_queue account _ _ self Hnew)|done|by intros _ s []].
    + apply keeps_bind; [apply keeps_refresh; [apply idle_inv|apply clocks_idle]|]. intros _.
      apply keeps_bind; [apply keeps_quiet, quiet_recovery_retry_after; apply idle_inv|]. intros retry_after.
      apply keeps_bind; [apply keeps_ensure_marked|]. intros _. apply keeps_quiet, quiet_ret. apply idle_inv.
    + apply keeps_quiet, quiet_ret. apply idle_inv.
Qed.

Lemma keeps_enqueue account : keeps idle (session_enqueue account).
Proof.
  apply keeps_this. intros self Hself. destruct (has_ticket self account) eqn:Hnew.
  - apply (keeps_weaken idle); [by intros s []|]. apply keeps_quiet, quiet_ret. apply idle_inv.
  - apply (keeps_queue account _ _ self Hnew); [apply keeps_ensure_marked|apply keeps_quiet, quiet_ret; apply idle_inv].
Qed.

(** *** Waiting for a turn *)

Definition waits_for (selected : AccountWaitTicket) (self : AccountRecoverySession) : Prop :=
  idle self /\ selected ∈ rs_tickets self.

Lemma waits_inv selected self : waits_for selected self -> inv self.
Proof. by intros [[] _]. Qed.

Lemma clocks_waits selected f self : clocks_only f -> waits_for selected self -> waits_for selected (f self).
Proof. intros Hf [Hi Hs]. split; [by apply clocks_idle|]. by rewrite Hf. Qed.

Lemma acquire_spec selected lease (P : AccountRecoverySession -> Prop) :
  (forall s, P s -> inv s) ->
  triple inv P (try_acquire_account_probe_for_downstream_lease selected lease)
    (fun r s => P s /\ match r with Ok (Granted granted) => pl_account granted = tk_account selected | _ => True end).
Proof.
  intros HP. eapply triple_conseq; [apply (triple_call _ _ P (fun r => match r with
    | Ok (Granted granted) => pl_account granted = tk_account selected | _ => True end)); [done|]|done|].
  - intros turn world _ Hr.
    pose proof (run_step_ok hash_account _ (EvTryProbe selected (tu_uuid turn)) (tu_now turn) _ Hr eq_refl) as H. simpl in H.
    unfold try_acquire_account_probe. destruct (try_probe _ _ _ _) as [registry decision] eqn:Ht. simpl in H.
    assert (match decision with Granted granted => pl_account granted = tk_account selected | Wait _ => True end) as Hd.
    { destruct decision; [|done]. by apply grant_held in Ht as (_ & _ & ?). }
    repeat case_match; eexists _, _; split_and!; simpl; try done; simplify_eq/=; try done.
  - intros r s [? Hm]. split; [done|]. by destruct r as [[granted|]|].
Qed.

Lemma now_spec (P : AccountRecoverySession -> Prop) :
  (forall s, P s -> inv s) ->
  triple inv P instant_now (fun r s => P s /\ match r with Ok now => now <= instant_max /\ now + probe_ttl timeout <= instant_max | Err _ => True end).
Proof.
  intros HP. eapply triple_conseq; [apply (triple_call _ _ P (fun r => match r with
    | Ok now => now <= instant_max /\ now + probe_ttl timeout <= instant_max | Err _ => True end)); [done|]|done|].
  - intros turn world Ht Hr. eexists _, _. split; [done|]. split; [done|]. by destruct Ht.
  - intros r s [? Hm]. split; [done|]. by destruct r.
Qed.

Lemma start_total lease ttl now task_now :
  now <= instant_max /\ now + ttl <= instant_max -> exists renewal, ProbeRenewal_start lease ttl now task_now = Some renewal /\ rn_lease renewal = lease.
Proof.
  intros [Hn Ht]. unfold ProbeRenewal_start, PROBE_EXPIRY_MARGIN, from_secs, sat_sub. rewrite (instant_add_fits now) by lia. simpl.
  eexists. split; [done|]. by destruct (instant_add task_now RENEWAL_INTERVAL).
Qed.

Lemma keeps_take_probe selected lease :
  pl_account lease = tk_account selected ->
  triple inv (fun s => waits_for selected s /\ rs_rounds s < rs_max_rounds s) (take_probe timeout selected lease) (fun _ => inv).
Proof.
  intros Hacc. unfold take_probe. eapply (triple_then _ (fun s => inv s /\ rs_probe s = Some lease)).
  - apply triple_modify_to. intros s [[[Hi Hp] Hs] Hr]. split; [|done]. apply (inv_same s); try done.
    destruct Hi as ([Hrounds Hown Hacc' _ Hren] & _ & Hmax). split; simpl.
    + unfold sat_add. lia.
    + eapply Forall_of_sublist; [apply retain_sublist|done].
    + by apply retain_NoDup_fmap.
    + intros probe [= <-]. split; [|done]. rewrite Hacc. intros (ticket & Ht & Hk)%list_elem_of_fmap.
      apply retain_elem in Hk as [Htoken Hin]. apply negb_true_iff, String.eqb_neq in Htoken. apply Htoken. f_equal.
      by apply (NoDup_fmap_elem tk_account (rs_tickets s)).
    + intros renewal Hrn. apply Hren in Hrn. congruence.
  - intros _. eapply triple_bind; [apply (now_spec (fun s => inv s /\ rs_probe s = Some lease)); by intros s []| |by intros e s [[] _]].
    intros now s world turns [HP Hnow]. revert s world turns HP.
    change (triple inv (fun s => inv s /\ rs_probe s = Some lease) (task_now ← instant_now;
      renewal ← or_panic (ProbeRenewal_start lease (probe_ttl timeout) now task_now);
      modify (fun self => {| self with rs_probe_renewal := Some renewal |});; mret (AdmittedProbe lease)) (fun _ => inv)).
    eapply triple_then; [apply quiet_now; by intros s []| |by intros e s []]. intros task_now.
    destruct (start_total lease (probe_ttl timeout) now task_now) as (renewal & -> & Hlease); [done|].
    change (triple inv (fun s => inv s /\ rs_probe s = Some lease)
      (modify (fun self => {| self with rs_probe_renewal := Some renewal |});; mret (AdmittedProbe lease)) (fun _ => inv)).
    eapply triple_then; [apply (triple_modify_to _ inv)| |done].
    + intros s [Hi Hp]. apply (inv_same s); try done. destruct Hi as ([Hrounds Hown Hacc' Hprobe Hren] & _).
      split; simpl; try done. intros ? [= <-]. by rewrite Hlease.
    + intros _. by apply quiet_ret.
  - by intros e s [].
Qed.

Lemma keeps_wait_round selected retry_after next : keeps (waits_for selected) (wait_round retry_after next).
Proof.
  pose proof (waits_inv selected) as HP. unfold wait_round.
  apply keeps_bind; [by apply keeps_quiet, quiet_now|]. intros now.
  apply keeps_bind; [by apply keeps_quiet, quiet_this|]. intros self.
  apply keeps_bind; [by apply keeps_quiet, quiet_sleep|]. intros _.
  apply keeps_bind; [by apply keeps_quiet, quiet_now|]. intros later.
  apply keeps_bind; [|intros _; by apply keeps_quiet, quiet_renew_if_due].
  lazymatch goal with |- keeps _ (modify ?f) => apply keeps_modify; intros s; by apply (clocks_waits selected f) end.
Qed.

Lemma triple_wait_loop fuel selected : forall next,
  triple inv (waits_for selected) (wait_loop timeout fuel selected next) (fun _ => inv).
Proof.
  pose proof (waits_inv selected) as HP.
  induction fuel as [|fuel IH]; intros next; cbn [wait_loop].
  { intros s world turns Hw Ht Hr. split; [by apply HP|done]. }
  eapply triple_then; [by apply quiet_now| |auto]. intros now. apply keeps_this. intros self Hself.
  destruct (_ || _) eqn:Hend.
  - eapply triple_conseq; [apply quiet_exhausted|by intros s [_ ?]|auto]. auto.
  - bool_prop. eapply triple_bind.
    + apply (acquire_spec selected _ (fun s => s = self /\ waits_for selected s)). intros s []. auto.
    + intros [granted|retry_after]; cbn beta iota.
      * intros s world turns [[-> Hw] Hacc]. eapply keeps_take_probe; [done|]. split; [done|lia].
      * eapply (keeps_weaken (waits_for selected)); [by intros s [[]]|].
        eapply triple_then; [apply keeps_wait_round|intros ?; apply IH|auto].
    + intros e s [[]]. auto.
Qed.

Lemma keeps_wait_for_pending : keeps inv (wait_for_pending_account timeout).
Proof.
  apply keeps_this. intros self Hself. destruct (rs_probe self) as [probe|] eqn:Hp.
  { apply (keeps_weaken inv); [by intros s []|by apply quiet_ret]. }
  destruct (min_by _ _) as [selected|] eqn:Hm; [|apply (keeps_weaken inv); [by intros s []|by apply quiet_ret]].
  apply (keeps_weaken (waits_for selected)).
  { intros s [-> Hi]. split; [done|]. by eapply min_by_elem. }
  eapply triple_then; [|intros ?; by apply quiet_ret|done].
  intros s world turns Hw Ht Hr. unfold wait_for_ticket.
  eapply (triple_then (waits_for selected) (waits_for selected) instant_now); [apply quiet_now, waits_inv| | |done..].
  - intros now. apply triple_wait_loop.
  - intros e s'. apply waits_inv.
Qed.

(** *** Ending an attempt and the session *)

Lemma cancel_never_fails ticket (P : AccountRecoverySession -> Prop) :
  (forall s, P s -> inv s) -> triple inv P (cancel_account_waiter ticket) (fun r s => r = Ok tt /\ P s).
Proof.
  intros HP self world turns Hs Ht Hr. pose proof (quiet_cancel ticket P HP self world turns Hs Ht Hr) as Hq.
  unfold wp in *. unfold cancel_account_waiter, on_registry, call in *. destruct turns; [done|]. simpl in *. tauto.
Qed.

Lemma unmark_never_fails lease (P : AccountRecoverySession -> Prop) :
  (forall s, P s -> inv s) -> triple inv P (unmark_waiting lease) (fun r s => r = Ok tt /\ P s).
Proof.
  intros HP self world turns Hs Ht Hr. pose proof (quiet_unmark lease P HP self world turns Hs Ht Hr) as Hq.
  unfold wp in *. unfold unmark_waiting, call in *. destruct turns; [done|]. simpl in *. tauto.
Qed.

(** Cancelling works through the list and keeps nothing back. *)
Lemma cancel_each_spec tickets (P : AccountRecoverySession -> Prop) : (forall s, P s -> inv s) ->
  forall retained failed, triple inv P (cancel_each tickets retained failed) (fun r s => r = Ok (retained, failed) /\ P s).
Proof.
  intros HP. induction tickets as [|ticket tickets IH]; intros retained failed; cbn [cancel_each]; [by apply triple_ret|].
  eapply triple_bind; [by apply triple_attempt, cancel_never_fails| |].
  - intros r s world turns (r' & [= <-] & -> & Hs). by apply IH.
  - by intros e s (r' & [=] & _).
Qed.

Definition unqueued (P : AccountRecoverySession -> Prop) (self : AccountRecoverySession) : Prop :=
  P self /\ rs_tickets self = [] /\ rs_waiting_marked self = false.

Lemma triple_modify_then {A} (P R : AccountRecoverySession -> Prop) f (k : Recovery A) Q :
  (forall s, P s -> R (f s)) -> triple inv R k Q -> triple inv P (modify f;; k) Q.
Proof.
  intros Hf Hk self world turns HP Ht Hr. apply wp_bind. unfold wp at 1, modify. by apply Hk; [apply Hf|..].
Qed.

(** A step that cannot fail. *)
Lemma triple_ok_then {A B} (P R : AccountRecoverySession -> Prop) (m : Recovery A) (a : A) (k : A -> Recovery B) Q :
  triple inv P m (fun r s => r = Ok a /\ R s) -> triple inv R (k a) Q -> triple inv P (m ≫= k) Q.
Proof.
  intros Hm Hk. eapply triple_bind; [apply Hm| |by intros e s [[=] _]].
  intros b s world turns [[= ->] HR]. by apply Hk.
Qed.

Lemma cancel_all_spec (P : AccountRecoverySession -> Prop) :
  (forall s, P s -> inv s) ->
  (forall s, P s -> P {| s with rs_tickets := [] |}) -> (forall s, P s -> P {| s with rs_waiting_marked := false |}) ->
  triple inv P cancel_all_waiters (fun r s => r = Ok tt /\ unqueued P s).
Proof.
  intros HP Htickets Hmarked. apply keeps_this. intros self Hself.
  set (R s := P s /\ rs_tickets s = [] /\ rs_waiting_marked s = rs_waiting_marked self).
  assert (forall s, R s -> inv s) as HR by (intros s [? _]; auto).
  apply (triple_modify_then _ R); [intros s [-> Hs]; split_and!; [by apply Htickets|done..]|].
  eapply triple_ok_then; [by apply cancel_each_spec|]. cbn beta iota.
  apply (triple_modify_then _ R); [intros s (Hs & Ht & Hm); split_and!; [by apply Htickets|done..]|].
  apply (triple_ok_then _ (unqueued P) _ false); [|apply triple_ret].
  destruct (rs_waiting_marked self) eqn:Hmark.
  - apply (triple_ok_then _ R _ (Ok tt)).
    + eapply triple_conseq; [by apply triple_attempt, unmark_never_fails|done|]. by intros r s (r' & -> & -> & ?).
    + apply (triple_modify_then _ (unqueued P)); [|apply triple_ret].
      intros s (Hs & Ht & _). split; [by apply Hmarked|done].
  - eapply triple_conseq; [apply (triple_ret _ false R)|done|]. intros r s (-> & Hs & Ht & Hm). split; [done|]. by split.
Qed.

Lemma inv_without_tickets s : inv s -> inv {| s with rs_tickets := [] |}.
Proof.
  intros Hi. apply (inv_same s); try done. destruct Hi as ([Hr _ _ Hp Hn] & _). split; simpl; try done; [constructor..|].
  intros probe Hprobe. split; [by apply not_elem_of_nil|]. by eapply Hp.
Qed.

Lemma inv_unmarked s : inv s -> inv {| s with rs_waiting_marked := false |}.
Proof.
  intros Hi. apply (inv_same s); try done. destruct Hi as ([Hr Ho Ha Hp Hn] & _). split; simpl; try done.
  intros probe Hprobe. split; [by eapply Hp|done].
Qed.

Lemma keeps_cancel_all : keeps inv cancel_all_waiters.
Proof.
  eapply triple_conseq; [apply (cancel_all_spec inv); [done|apply inv_without_tickets|apply inv_unmarked]|done|].
  by intros r s (_ & ? & _).
Qed.

(** Nothing renews the probe any more. *)
Definition stopped (s : AccountRecoverySession) : Prop := inv s /\ rs_probe_renewal s = None.

Lemma stop_stopped s : inv s -> stopped {| s with rs_probe_renewal := None |}.
Proof. intros Hi. split; [|done]. apply (inv_same s); try done. by destruct Hi as ([] & _). Qed.

Lemma clear_idle s : stopped s -> idle {| s with rs_probe := None |}.
Proof.
  intros [Hi Hr]. split; [|done]. apply (inv_same s); try done. destruct Hi as ([] & _). split; simpl; try done.
  intros renewal. congruence.
Qed.

Lemma keeps_enqueue_if_required account : keeps idle (enqueue_if_required account).
Proof.
  apply keeps_bind; [apply keeps_quiet, quiet_requires; apply idle_inv|]. intros [].
  - apply keeps_enqueue.
  - apply keeps_quiet, quiet_ret. apply idle_inv.
Qed.

Lemma keeps_complete_attempt account outcome : outcome_named outcome -> keeps inv (complete_attempt hash_account account outcome).
Proof.
  intros Hnamed. unfold complete_attempt. apply (triple_modify_then _ stopped); [apply stop_stopped|]. apply keeps_this. intros self Hself.
  eapply (triple_bind _ _ _ _ (fun r s => match r with Ok _ => idle s | Err _ => inv s end)); [| |done].
  - destruct (rs_probe self) as [probe|] eqn:Hp.
    + destruct (negb _).
      * eapply (triple_then _ stopped); [apply keeps_weaken with (P := stopped); [by intros s []|apply (quiet_finish_probe _ Cancelled I); by intros s []]| |by intros e s []].
        intros _. apply (triple_modify_then _ idle); [apply clear_idle|].
        eapply triple_conseq; [apply quiet_fail, idle_inv|done|]. intros [] s Hs; [done|by apply idle_inv].
      * eapply (triple_then _ stopped); [apply keeps_weaken with (P := stopped); [by intros s []|apply (quiet_finish_probe _ _ Hnamed); by intros s []]| |by intros e s []].
        intros _. eapply triple_conseq; [apply (triple_modify_to _ idle), clear_idle|done|]. intros [] s Hs; [done|by apply idle_inv].
    + apply (keeps_weaken idle); [by intros s [-> [? _]]|].
      assert (forall s r, idle s -> match r : result unit RecoveryError with Ok _ => idle s | Err _ => inv s end) as Hr
        by (intros s [] Hs; [done|by apply idle_inv]).
      destruct outcome; (eapply triple_conseq; [|done|by intros r s; apply Hr]); first [apply (quiet_observe _ _ Hnamed), idle_inv | apply quiet_ret, idle_inv].
  - intros _. destruct outcome.
    1, 3: eapply triple_then; [apply keeps_refresh; [apply idle_inv|apply clocks_idle]| |by intros e s []];
      intros _; eapply triple_conseq; [apply keeps_enqueue_if_required|done|by intros _ s []].
    + eapply keeps_weaken; [apply idle_inv|apply keeps_cancel_all].
    + eapply keeps_weaken; [apply idle_inv|]. by apply quiet_ret.
Qed.

Lemma keeps_finish : keeps inv (session_finish hash_account).
Proof.
  apply keeps_this. intros self Hself. destruct (rs_finished self); [apply (keeps_weaken inv); [by intros s []|by apply quiet_ret]|].
  apply (triple_modify_then _ stopped); [intros s []; by apply stop_stopped|].
  eapply (triple_then _ inv); [| |done].
  - destruct (rs_probe self) as [probe|]; [|apply (keeps_weaken inv); [by intros s []|by apply quiet_ret]].
    eapply (triple_then _ stopped); [apply quiet_attempt; [apply (quiet_finish_probe _ Cancelled I)|by intros s []]| |by intros e s []].
    intros [[]|e]; [|eapply keeps_weaken; [by intros s [? _]|by apply quiet_ret]].
    apply (triple_modify_then _ inv); [intros s Hs; by apply clear_idle|by apply quiet_ret].
  - intros failed. apply keeps_bind; [apply keeps_attempt, keeps_cancel_all|]. intros cancelled.
    destruct (_ || _); [by apply quiet_fail|]. apply keeps_modify. intros s Hi. apply (inv_same s); try done. by destruct Hi as ([] & _).
Qed.

(** A call that names no other Retry-After. *)
Definition call_named (c : session_call) : Prop :=
  match c with CallCompleteAttempt _ outcome => outcome_named outcome | _ => True end.

Lemma keeps_call c : call_named c -> keeps inv (run_call hash_account timeout c).
Proof.
  intros Hn. destruct c; cbn [run_call].
  - apply keeps_bind; [apply keeps_wait_for_account|]. intros ?. by apply quiet_ret.
  - apply keeps_bind; [apply keeps_wait_for_pending|]. intros ?. by apply quiet_ret.
  - by apply keeps_complete_attempt.
  - apply keeps_finish.
Qed.

Lemma keeps_calls calls : Forall call_named calls -> keeps inv (run_calls hash_account timeout calls).
Proof.
  induction 1 as [|c calls Hc _ IH]; [by apply quiet_ret|]. apply keeps_bind; [by apply keeps_attempt, keeps_call|]. by intros _.
Qed.

End kept.

End sessions.

(** The caller goes on after an error. *)
Lemma run_calls_ok hash_account timeout calls : forall self world turns,
  match run_calls hash_account timeout calls self world turns with Returns r _ _ _ => r = Ok tt | _ => True end.
Proof.
  induction calls as [|c calls IH]; intros self world turns; [done|]. cbn [run_calls]. unfold mbind, recovery_bind, attempt.
  destruct (run_call _ _ _ _ _ _); try done. apply IH.
Qed.

(** C19. Whatever a request asks of its session, in whatever order, and whatever the other
    requests do to the accounts and the leases in between, the session does not panic as
    long as the turns are sound (no update of the tuning tears the reads of a rejection,
    and neither the Retry-After of an upstream nor the lifetime of a probe takes the clock
    past its end); and at every moment, finished or suspended, it is consistent: it has
    made no more rounds than it may; it has at most one ticket for an account, each
    registered for this request and its lease; it never queues on the account that it
    probes, and does not count as waiting while it probes; and only that probe is being
    renewed. *)
Theorem session_invariant hash_account timeout named request_id lease deadline max_rounds calls world turns :
  max_rounds <= u32_max -> registry_ok (wd_registry world) ->
  Forall (sound timeout named) turns -> Forall (call_named named) calls ->
  let start := AccountRecoverySession_new request_id lease deadline max_rounds in
  match run_calls hash_account timeout calls start world turns with
  | Returns r self world' _ => r = Ok tt /\ session_ok self /\ same_request start self /\ registry_ok (wd_registry world')
  | Suspended self world' => session_ok self /\ same_request start self /\ registry_ok (wd_registry world')
  | Panics => False
  end.
Proof.
  intros Hmax Hr Ht Hn start.
  assert (inv start start) as Hi by (split; [apply new_session_ok|split; [done|]]; unfold start, u32_max in *; simpl; lia).
  pose proof (keeps_calls timeout named hash_account start calls Hn start world turns Hi Ht Hr) as Hc. unfold wp in Hc.
  pose proof (run_calls_ok hash_account timeout calls start world turns) as Hok.
  destruct (run_calls _ _ _ _ _ _) as [r self world' turns'|self world'|]; [|destruct Hc as ((? & ? & _) & ?)|]; [|by split_and!|done].
  destruct Hc as ((? & ? & _) & _ & ?). by split_and!.
Qed.

(** ** The wait ends *)

(** The turns whose clock has reached the deadline. *)
Definition late (deadline : Instant) (turns : list Turn) : nat :=
  length (filter (fun turn => (deadline <= tu_now turn)%Z) turns).

Definition clocks_ordered (turns : list Turn) : Prop :=
  StronglySorted (fun turn turn' => tu_now turn <= tu_now turn') turns.

Lemma late_cons deadline turn turns :
  late deadline (turn :: turns) = ((if bool_decide (deadline <= tu_now turn)%Z then 1 else 0) + late deadline turns)%nat.
Proof. unfold late. rewrite filter_cons. case_decide; case_bool_decide; simpl; done. Qed.

Lemma late_length deadline turns : (late deadline turns <= length turns)%nat.
Proof. apply length_filter. Qed.

Lemma late_ordered deadline turn turns :
  clocks_ordered (turn :: turns) -> deadline <= tu_now turn -> late deadline turns = length turns.
Proof.
  intros [_ Hall]%StronglySorted_inv Hturn. induction Hall as [|turn' turns Hle Hall IH]; [done|].
  rewrite late_cons, bool_decide_true by lia. cbn [length]. by rewrite IH.
Qed.

(** [turns'] is left of [turns] after at most [j] of its late turns. *)
Definition spends (deadline : Instant) (j : nat) (turns turns' : list Turn) : Prop :=
  turns' `suffix_of` turns /\ (late deadline turns <= late deadline turns' + j)%nat.

Lemma spends_trans deadline j k turns1 turns2 turns3 :
  spends deadline j turns1 turns2 -> spends deadline k turns2 turns3 -> spends deadline (j + k) turns1 turns3.
Proof. intros [H1 ?] [H2 ?]. split; [by etrans|lia]. Qed.

Lemma spends_one deadline turn turns : spends deadline 1 (turn :: turns) turns.
Proof. split; [by apply suffix_cons_r|]. rewrite late_cons. case_bool_decide; lia. Qed.

Section ends.
Context (timeout : Z) (deadline : Instant) (tickets : list AccountWaitTicket) (rounds max_rounds : Z) (probe : option AccountProbeLease).

(** A turn in which the lifetime of a probe lies on the clock. *)
Definition roomy (turn : Turn) : Prop := tu_now turn <= instant_max /\ tu_now turn + probe_ttl timeout <= instant_max.

Definition waiting_on (self : AccountRecoverySession) : Prop :=
  rs_deadline self = deadline /\ rs_tickets self = tickets /\ rs_rounds self = rounds /\ rs_max_rounds self = max_rounds /\
  rs_probe self = probe.

Definition never (_ : AccountRecoverySession) (_ : World) : Prop := False.

(** The only error is the loss of coordination. *)
Definition uncoordinated {A} (r : result A RecoveryError) : Prop :=
  match r with Ok _ => True | Err e => e = CoordinationUnavailable end.

(** A computation that gets by with [j] late turns and leaves the wait as it is. *)
Definition gets_by {A} (j : nat) (m : Recovery A) : Prop :=
  forall self world turns, waiting_on self -> (j <= late deadline turns)%nat ->
    wp m (fun r self world turns' => uncoordinated r /\ waiting_on self /\ spends deadline j turns turns') never self world turns.

Lemma gets_by_ret {A} (a : A) : gets_by 0 (mret a).
Proof. intros self world turns Hw _. split_and!; [done..|]. split; [done|lia]. Qed.

Lemma gets_by_this : gets_by 0 this.
Proof. intros self world turns Hw _. split_and!; [done..|]. split; [done|lia]. Qed.

Lemma gets_by_call {A} (f : Turn -> World -> option (World * result A unit)) :
  (forall turn world, is_Some (f turn world)) -> gets_by 1 (call f).
Proof.
  intros Hf self world turns Hw Hlate. unfold wp, call. destruct turns as [|turn turns]; [unfold late in Hlate; simpl in Hlate; lia|].
  destruct (Hf turn (tu_others turn world)) as [[world' [a|e]] ->]; (split_and!; [done..|apply spends_one]).
Qed.

Lemma gets_by_now : gets_by 1 instant_now.
Proof. apply gets_by_call. eauto. Qed.

Lemma gets_by_sleep wake_at : wake_at <= deadline -> gets_by 1 (sleep_until wake_at).
Proof.
  intros Hwake self world turns Hw. unfold wp, sleep_until. revert world.
  induction turns as [|turn turns IH]; intros world Hlate; [unfold late in Hlate; simpl in Hlate; lia|]. cbn [sleep_turns].
  destruct (Z.ltb_spec (tu_now turn) wake_at).
  - specialize (IH (tu_others turn world)). rewrite late_cons, bool_decide_false in Hlate by lia. specialize (IH Hlate).
    destruct (sleep_turns _ _ _ _); try done. destruct IH as (? & ? & Hs & Hl). split_and!; [done..|]. split; [by apply suffix_cons_r|].
    rewrite late_cons, bool_decide_false by lia. done.
  - split_and!; [done..|apply spends_one].
Qed.

Lemma gets_by_bind {A B} j k (m : Recovery A) (f : A -> Recovery B) :
  gets_by j m -> (forall a, gets_by k (f a)) -> gets_by (j + k) (m ≫= f).
Proof.
  intros Hm Hf self world turns Hw Hlate. apply wp_bind. eapply wp_mono; [apply Hm; [done|lia]| |done].
  intros [a|e] s w t (He & Hw' & Hs & Hl).
  - eapply wp_mono; [apply Hf; [done|lia]| |done]. intros r s' w' t' (? & ? & ?). split_and!; [done..|]. by eapply spends_trans.
  - split_and!; [done..|]. split; [done|lia].
Qed.

Lemma gets_by_less {A} j k (m : Recovery A) : gets_by j m -> (j <= k)%nat -> gets_by k m.
Proof.
  intros Hm Hjk self world turns Hw Hlate. eapply wp_mono; [apply Hm; [done|lia]| |done].
  intros r s w t (? & ? & ? & ?). split_and!; [done..|]. split; [done|lia].
Qed.

Lemma gets_by_renew ts : gets_by (length ts) (renew_tickets ts).
Proof.
  induction ts as [|ticket ts IH]; cbn [renew_tickets length]; [apply gets_by_ret|].
  apply (gets_by_bind 1); [|intros _; exact IH]. apply gets_by_call. intros turn world. by destruct (renew_waiter _ _ _).
Qed.

Lemma gets_by_knowing {A} j (k : AccountRecoverySession -> Recovery A) :
  (forall self, waiting_on self -> gets_by j (k self)) -> gets_by j (this ≫= k).
Proof. intros Hk self world turns Hw Hlate. apply wp_bind. unfold wp at 1, this. by apply Hk. Qed.

Lemma gets_by_renew_if_due next : gets_by (2 + length tickets) (renew_if_due next).
Proof.
  apply (gets_by_less (1 + (length tickets + (1 + 0)))); [|lia]. apply gets_by_bind; [apply gets_by_now|]. intros now.
  destruct (now <? next); [apply (gets_by_less 0); [apply gets_by_ret|lia]|].
  apply gets_by_knowing. intros self (_ & <- & _). apply gets_by_bind; [apply gets_by_renew|]. intros _.
  apply gets_by_bind; [apply gets_by_now|]. intros ?. apply gets_by_ret.
Qed.

Lemma gets_by_wait_round retry_after next : gets_by (5 + length tickets) (wait_round retry_after next).
Proof.
  apply (gets_by_less (1 + (1 + (1 + (0 + (2 + length tickets)))))); [|lia].
  apply gets_by_bind; [apply gets_by_now|]. intros now. apply gets_by_knowing. intros self (Hd & _).
  apply gets_by_bind; [apply gets_by_sleep; rewrite Hd; lia|]. intros _.
  apply gets_by_bind; [apply gets_by_now|]. intros later.
  apply gets_by_bind; [|intros _; apply gets_by_renew_if_due].
  intros s world turns Hw _. split_and!; [done..|]. split; [done|lia].
Qed.

Lemma gets_by_acquire selected lease : gets_by 1 (try_acquire_account_probe_for_downstream_lease selected lease).
Proof.
  apply gets_by_call. intros turn world. unfold try_acquire_account_probe.
  repeat case_match; eauto.
Qed.

(** What a wait for [selected] returns. *)
Definition wait_result (selected : AccountWaitTicket) (r : result AccountAdmission RecoveryError) (self : AccountRecoverySession) : Prop :=
  match r with
  | Ok admission => exists lease, admission = AdmittedProbe lease /\ rs_probe self = Some lease /\
      pl_account lease = tk_account selected /\ rs_waiting_marked self = false /\ rs_rounds self = sat_add u32_max rounds 1
  | Err (RecoveryBudgetExhausted retry_after) => from_secs 1 <= retry_after
  | Err CoordinationUnavailable => True
  end.

Lemma exhausted_result selected self world turns :
  (1 <= length turns)%nat -> wp account_budget_exhausted (fun r s _ _ => wait_result selected r s) never self world turns.
Proof.
  intros Hl. unfold account_budget_exhausted, recovery_retry_after. apply wp_bind, wp_bind. unfold wp at 1, this.
  destruct (rs_recovery_deadline self) as [d|]; [|unfold wp; simpl; lia].
  destruct turns as [|turn turns]; [simpl in Hl; lia|]. apply wp_bind. unfold wp; simpl. lia.
Qed.

Lemma take_probe_result selected lease self world turns :
  (2 <= length turns)%nat -> Forall roomy turns -> waiting_on self -> pl_account lease = tk_account selected ->
  wp (take_probe timeout selected lease) (fun r s _ _ => wait_result selected r s) never self world turns.
Proof.
  intros Hl Hroom (_ & _ & Hr & _) Hacc. destruct turns as [|t1 [|t2 turns]]; [simpl in Hl; lia..|].
  apply Forall_cons in Hroom as [Hroom _].
  destruct (start_total lease (probe_ttl timeout) (tu_now t1) (tu_now t2) Hroom) as (renewal & Hs & _).
  unfold wp, take_probe, mbind, recovery_bind, mret, recovery_ret. cbn [modify instant_now call]. rewrite Hs. cbn.
  rewrite Hr. by eexists.
Qed.

Lemma acquire_result selected lease self world turns :
  (1 <= length turns)%nat ->
  wp (try_acquire_account_probe_for_downstream_lease selected lease)
    (fun r s _ ts => s = self /\ ts = tail turns /\ match r with Ok (Granted granted) => pl_account granted = tk_account selected | Ok (Wait _) => True | Err e => e = CoordinationUnavailable end)
    never self world turns.
Proof.
  intros Hl. destruct turns as [|turn turns]; [simpl in Hl; lia|].
  unfold wp, try_acquire_account_probe_for_downstream_lease, call, try_acquire_account_probe.
  destruct (try_probe _ _ _ _) as [registry decision] eqn:Ht.
  assert (match decision with Granted granted => pl_account granted = tk_account selected | Wait _ => True end) as Hd.
  { destruct decision; [|done]. by apply grant_held in Ht as (_ & _ & ?). }
  repeat case_match; simplify_eq/=; done.
Qed.

(** Enough late turns for the round that straddles the deadline and for the report, or
    nothing but late turns. *)
Definition enough (turns : list Turn) : Prop :=
  (8 + length tickets <= late deadline turns)%nat \/ (2 <= length turns)%nat /\ late deadline turns = length turns.

Lemma late_suffix before turns : clocks_ordered (before ++ turns) ->
  late deadline turns = length turns \/ late deadline turns = late deadline (before ++ turns).
Proof.
  induction before as [|turn before IH]; intros Hord; [by right|]. simpl in Hord. destruct (Z.le_gt_cases deadline (tu_now turn)).
  - left. pose proof (late_ordered _ _ _ Hord H) as Hl. unfold late in *. rewrite filter_app, !length_app in Hl.
    pose proof (length_filter (fun turn => (deadline <= tu_now turn)%Z) before).
    pose proof (length_filter (fun turn => (deadline <= tu_now turn)%Z) turns). lia.
  - apply StronglySorted_inv in Hord as [Hord _]. destruct (IH Hord) as [->| ->]; [by left|right].
    simpl. by rewrite late_cons, bool_decide_false by lia.
Qed.

Lemma clocks_suffix turns turns' : turns' `suffix_of` turns -> clocks_ordered turns -> clocks_ordered turns'.
Proof. intros [before ->]. induction before as [|turn before IH]; [done|]. intros [? _]%StronglySorted_inv. auto. Qed.

Lemma roomy_suffix turns turns' : turns' `suffix_of` turns -> Forall roomy turns -> Forall roomy turns'.
Proof. intros [before ->]. by intros [_ ?]%Forall_app. Qed.

Lemma enough_after turns turns' :
  clocks_ordered turns -> (8 + length tickets <= late deadline turns)%nat ->
  spends deadline (6 + length tickets) turns turns' -> enough turns'.
Proof.
  intros Hord Hlate [[before ->] Hspent]. destruct (late_suffix before turns' Hord) as [Hl|Hl]; [right|left]; lia.
Qed.

Lemma enough_head turn turns : clocks_ordered (turn :: turns) -> enough (turn :: turns) ->
  (1 <= length turns)%nat /\ (tu_now turn < deadline -> (8 + length tickets <= late deadline turns)%nat).
Proof.
  intros Hord He. unfold enough in He. rewrite late_cons in He. cbn [length] in *.
  pose proof (late_length deadline turns). case_bool_decide; split; lia.
Qed.

Lemma wait_loop_ends selected fuel : forall next self world turns,
  (length turns < fuel)%nat -> waiting_on self -> probe = None -> Forall roomy turns -> clocks_ordered turns -> enough turns ->
  wp (wait_loop timeout fuel selected next) (fun r s _ _ => wait_result selected r s) never self world turns.
Proof.
  induction fuel as [|fuel IH]; intros next self world turns Hfuel Hw Hp Hroom Hord He; [lia|]. cbn [wait_loop].
  destruct turns as [|turn turns]; [destruct He as [He|[He _]]; unfold late in He; simpl in He; lia|].
  apply Forall_cons in Hroom as [_ Hroom].
  destruct (enough_head turn turns Hord He) as [Hlen Hlate]. pose proof Hord as [Hord' _]%StronglySorted_inv.
  apply wp_bind. unfold wp at 1. simpl. apply wp_bind. unfold wp at 1. simpl.
  destruct (_ || _) eqn:Hend; [by apply exhausted_result|]. bool_prop. pose proof Hw as (Hd & _). specialize (Hlate ltac:(lia)).
  pose proof (late_length deadline turns) as Hll.
  apply wp_bind. eapply wp_mono; [by apply acquire_result| |done].
  intros [decision|e] s w ts (-> & -> & Hacc); [|by rewrite Hacc].
  destruct decision as [lease|retry_after].
  - apply take_probe_result; try done; [destruct turns; simpl in *; lia|].
    destruct turns; [done|]. by apply Forall_cons in Hroom as [_ ?].
  - destruct turns as [|turn2 turns]; [simpl in Hlen; lia|]. cbn [tail] in *.
    apply wp_bind. eapply wp_mono; [apply gets_by_wait_round; [done|rewrite late_cons in Hlate; case_bool_decide; lia]| |done].
    intros [next'|e] s w' ts (He' & Hw' & Hs); [|by rewrite He'].
    assert (spends deadline (6 + length tickets) (turn2 :: turns) ts) as Hspent
      by (apply (spends_trans _ 1 (5 + length tickets) _ turns); [apply spends_one|done]).
    apply IH; try done.
    + destruct Hspent as [Hsuf%suffix_length _]. simpl in *. lia.
    + eapply roomy_suffix; [|done]. apply Hspent.
    + eapply clocks_suffix; [|done]. apply Hspent.
    + by eapply enough_after.
Qed.

End ends.

Lemma wp_wait_for_ticket timeout selected Q S self world turn turns :
  wp (wait_loop timeout (length (turn :: turns)) selected (tu_now turn + RENEWAL_INTERVAL)) Q S self (tu_others turn world) turns ->
  wp (wait_for_ticket timeout selected) Q S self world (turn :: turns).
Proof. done. Qed.

Lemma wait_for_ticket_ends timeout selected self world turns :
  Forall (roomy timeout) turns -> clocks_ordered turns -> rs_probe self = None -> (9 + length (rs_tickets self) <= late (rs_deadline self) turns)%nat ->
  wp (wait_for_ticket timeout selected) (fun r s _ _ => wait_result (rs_rounds self) selected r s) never self world turns.
Proof.
  intros Hroom Hord Hp Hlate. destruct turns as [|turn turns]; [unfold late in Hlate; simpl in Hlate; lia|].
  apply wp_wait_for_ticket.
  apply (wait_loop_ends timeout (rs_deadline self) (rs_tickets self) (rs_rounds self) (rs_max_rounds self) None); try done.
  - cbn [length]. lia.
  - by apply Forall_cons in Hroom as [_ ?].
  - by apply StronglySorted_inv in Hord as [? _].
  - left. rewrite late_cons in Hlate. case_bool_decide; lia.
Qed.

(** C28. A wait ends. However the others change accounts and leases meanwhile, a wait whose
    clocks move on past its deadline, without coming so close to the end of the clock that
    the lifetime of a probe no longer fits, returns, and it needs no more turns after the
    deadline than the round that straddles it takes: it has the probe of the account on
    which it has waited longest, held by its session and counted as a round, or says that
    the budget is spent, with a delay of at least a second, or that coordination failed. *)
Theorem pending_wait_ends timeout self world turns :
  rs_probe self = None -> Forall (roomy timeout) turns -> clocks_ordered turns ->
  (9 + length (rs_tickets self) <= late (rs_deadline self) turns)%nat ->
  exists r self' world' turns', wait_for_pending_account timeout self world turns = Returns r self' world' turns' /\
    match r with
    | Ok false => rs_tickets self = []
    | Ok true =>
        exists selected lease, min_by (key_ltb tk_registered_at_ms) (rs_tickets self) = Some selected /\
          rs_probe self' = Some lease /\ pl_account lease = tk_account selected /\
          rs_waiting_marked self' = false /\ rs_rounds self' = sat_add u32_max (rs_rounds self) 1
    | Err (RecoveryBudgetExhausted retry_after) => from_secs 1 <= retry_after
    | Err CoordinationUnavailable => True
    end.
Proof.
  intros Hp Hroom Hord Hlate.
  set (Q r self' := match r with
    | Ok false => rs_tickets self = []
    | Ok true =>
        exists selected lease, min_by (key_ltb tk_registered_at_ms) (rs_tickets self) = Some selected /\
          rs_probe self' = Some lease /\ pl_account lease = tk_account selected /\
          rs_waiting_marked self' = false /\ rs_rounds self' = sat_add u32_max (rs_rounds self) 1
    | Err (RecoveryBudgetExhausted retry_after) => from_secs 1 <= retry_after
    | Err CoordinationUnavailable => True
    end).
  assert (wp (wait_for_pending_account timeout) (fun r s _ _ => Q r s) never self world turns) as Hwp.
  { unfold wait_for_pending_account. apply wp_bind. unfold wp at 1, this. rewrite Hp.
    destruct (min_by _ _) as [selected|] eqn:Hm; [|by apply min_by_None in Hm].
    apply wp_bind. eapply wp_mono; [by apply wait_for_ticket_ends| |done].
    intros [admission|[]] s w t Hr; [|done..]. destruct Hr as (lease & -> & Hr). exists selected, lease. by split. }
  unfold wp in Hwp. destruct (wait_for_pending_account _ _ _ _) as [r s w t| |]; [|done..]. by exists r, s, w, t.
Qed.

(** ** The probe that a session owns *)

Inductive renewal_event :=
| Foreign (ev : event) (now : Instant)
| Tick (now sent rescheduled : Instant).

(** The registry and the task, under what others do and what the task does. *)
Definition renewal_step hash_account (state : AccountConcurrencyRegistry * ProbeRenewal) (ev : renewal_event)
    : option (AccountConcurrencyRegistry * ProbeRenewal) :=
  let '(registry, renewal) := state in
  match ev with
  | Foreign ev now => registry ← run hash_account registry ev now; Some (registry, renewal)
  | Tick now sent rescheduled => Some (renewal_tick registry renewal now sent rescheduled)
  end.

Fixpoint run_renewal hash_account (state : AccountConcurrencyRegistry * ProbeRenewal) (trace : list renewal_event)
    : option (AccountConcurrencyRegistry * ProbeRenewal) :=
  match trace with
  | [] => Some state
  | ev :: trace => state ← renewal_step hash_account state ev; run_renewal hash_account state trace
  end.

Definition event_time (ev : renewal_event) : Instant := match ev with Foreign _ now | Tick now _ _ => now end.

(** Time goes on; the others do not act for the owner; the task takes less than the margin
    between asking the registry and telling the session. *)
Definition fair_event (key : AccountConcurrencyKey) (token : string) (ev : renewal_event) : Prop :=
  match ev with
  | Foreign ev _ => owner_event key token ev = false
  | Tick now sent _ => now <= sent <= now + PROBE_EXPIRY_MARGIN
  end.

Fixpoint in_time_order (since : Instant) (trace : list renewal_event) : Prop :=
  match trace with [] => True | ev :: trace => since <= event_time ev /\ in_time_order (event_time ev) trace end.

Fixpoint last_time (clock : Instant) (trace : list renewal_event) : Instant :=
  match trace with [] => clock | ev :: trace => last_time (event_time ev) trace end.

Lemma run_step_probe_ttl hash_account registry ev now registry' :
  run_step hash_account registry ev now = Some registry' -> tn_probe_ttl (reg_tuning registry') = tn_probe_ttl (reg_tuning registry).
Proof.
  destruct ev; unfold run_step; intros Hrun; try (apply (inj Some) in Hrun; subst registry').
  - unfold reject in Hrun. by simplify_option_eq.
  - by rewrite register_waiter_registry.
  - rewrite register_if_saturated_registry. by repeat case_match.
  - unfold cancel_waiter. by repeat case_match.
  - unfold renew_waiter. by repeat case_match.
  - unfold try_probe. by repeat case_match.
  - unfold renew_probe. by repeat case_match.
  - unfold finish_probe in Hrun. repeat case_match; simplify_option_eq; simpl; done.
  - unfold snapshot. by repeat case_match.
  - done.
  - done.
  - done.
Qed.

(** A renewal that succeeds makes its owner's lease last for the whole lifetime again. *)
Lemma renew_probe_held registry lease now registry' :
  renew_probe registry lease now = (registry', Ok tt) ->
  held registry' (pl_account lease) (pl_owner_token lease) (now + tn_probe_ttl (reg_tuning registry)) /\
  tn_probe_ttl (reg_tuning registry') = tn_probe_ttl (reg_tuning registry).
Proof.
  unfold renew_probe. intros Hr. destruct (reg_accounts registry !! _) as [state|] eqn:Hl; [|done].
  destruct (validate_probe _ _) as [[]|] eqn:Hv; [|done]. destruct (as_probe _) as [probe|] eqn:Hp; [|done].
  apply validate_probe_Ok in Hv as (_ & p & Hp' & Ho & _). rewrite Hp in Hp'. injection Hp' as <-.
  simplify_eq/=. split; [|done]. eexists _, _. simpl. rewrite lookup_insert_eq. by split_and!.
Qed.

Section owned.
Context (hash_account : AccountConcurrencyKey -> Z -> Z) (lease : AccountProbeLease) (ttl : Duration).
Hypothesis long_enough : PROBE_EXPIRY_MARGIN <= ttl.

(** While the session may rely on its probe, the registry holds it. *)
Record owns (clock : Instant) (registry : AccountConcurrencyRegistry) (renewal : ProbeRenewal) : Prop := {
  ow_lease : rn_lease renewal = lease;
  ow_safe : rn_safe_for renewal = ttl - PROBE_EXPIRY_MARGIN;
  ow_ttl : tn_probe_ttl (reg_tuning registry) = ttl;
  ow_held : forall deadline, rn_ownership renewal = ActiveUntil deadline -> clock < deadline ->
    held registry (pl_account lease) (pl_owner_token lease) deadline
}.

Lemma owns_step clock registry renewal ev registry' renewal' :
  owns clock registry renewal -> clock <= event_time ev -> fair_event (pl_account lease) (pl_owner_token lease) ev ->
  renewal_step hash_account (registry, renewal) ev = Some (registry', renewal') -> owns (event_time ev) registry' renewal'.
Proof.
  intros [Hlease Hsafe Httl Hheld] Hclock Hfair Hstep. destruct ev as [ev now|now sent rescheduled]; simpl in *.
  - apply bind_Some in Hstep as (r & Hrun & [= <- <-]). split; try done; [by rewrite (run_step_probe_ttl _ _ _ _ _ (run_Some _ _ _ _ _ Hrun))|].
    intros deadline Ha Hnow. eapply held_run; [apply Hheld; [done|lia]|done..].
  - apply (inj Some) in Hstep. unfold renewal_tick in Hstep. destruct (rn_ownership renewal) as [deadline|] eqn:Ho.
    2: { simplify_eq. split; try done. intros deadline. congruence. }
    destruct (now <? rn_next_renewal renewal).
    { simplify_eq. split; try done. rewrite Ho. intros ? [= <-] ?. apply Hheld; [done|lia]. }
    rewrite Hlease in Hstep. destruct (renew_probe registry lease now) as [r [[]|]] eqn:Hr; simplify_eq.
    + apply renew_probe_held in Hr as [(s & p & ? & ? & ? & ?) ?].
      destruct (instant_add sent _) as [deadline'|] eqn:Hd; [destruct (instant_add rescheduled _)|]; simplify_eq; split; simpl; try congruence.
      intros ? [= <-] _. apply instant_add_Some in Hd as [-> _]. exists s, p. split_and!; try done. lia.
    + split; simpl; try done.
      rewrite <- Httl. by apply (run_step_probe_ttl hash_account registry (EvRenewProbe lease) now); simpl; rewrite Hr.
Qed.

Lemma owns_run trace : forall clock registry renewal registry' renewal',
  owns clock registry renewal -> in_time_order clock trace ->
  Forall (fair_event (pl_account lease) (pl_owner_token lease)) trace ->
  run_renewal hash_account (registry, renewal) trace = Some (registry', renewal') ->
  owns (last_time clock trace) registry' renewal'.
Proof.
  induction trace as [|ev trace IH]; intros clock registry renewal registry' renewal' How Hord Hfair Hrun.
  - by simplify_eq/=.
  - cbn [run_renewal] in Hrun. apply bind_Some in Hrun as ([r rn] & Hstep & Hrun). destruct Hord as [Hclock Hord].
    apply Forall_cons in Hfair as [Hev Hfair].
    eapply IH; [eapply owns_step; eassumption|done..].
Qed.

End owned.

(** C20. A session that has not been told of its loss still owns its probe. From the grant
    on, whatever the others do and however the ticks of the renewal task fall among them,
    as long as the task takes less than the margin between a renewal and its report,
    waiting for an interruption has not returned only while the registry holds the probe
    for this very lease; so nobody else probes the account meanwhile. *)
Theorem owned_probe_is_live hash_account registry0 ticket token granted_at registry lease now task_now renewal trace registry' renewal' self pick at_ :
  try_probe registry0 ticket token granted_at = (registry, Granted lease) ->
  PROBE_EXPIRY_MARGIN <= tn_probe_ttl (reg_tuning registry0) ->
  granted_at <= now <= granted_at + PROBE_EXPIRY_MARGIN ->
  in_time_order now trace -> Forall (fair_event (tk_account ticket) token) trace ->
  ProbeRenewal_start lease (tn_probe_ttl (reg_tuning registry0)) now task_now = Some renewal ->
  run_renewal hash_account (registry, renewal) trace = Some (registry', renewal') ->
  last_time now trace <= at_ ->
  probe_interruption self (Some renewal') pick at_ = StillWaiting ->
  (exists until, at_ < until /\ held registry' (tk_account ticket) token until) /\
  forall other token', tk_account other = tk_account ticket -> exists wait, (try_probe registry' other token' at_).2 = Wait wait.
Proof.
  intros Hgrant Hlong Hnow Hord Hfair Hstart Hrun Hat Hwait.
  assert (tn_probe_ttl (reg_tuning registry) = tn_probe_ttl (reg_tuning registry0)) as Httl
    by (apply (run_step_probe_ttl hash_account registry0 (EvTryProbe ticket token) granted_at); simpl; by rewrite Hgrant).
  apply grant_held in Hgrant as (Hheld & <- & Hacc). rewrite <- Hacc in *.
  assert (owns lease (tn_probe_ttl (reg_tuning registry0)) now registry renewal) as How.
  { unfold ProbeRenewal_start in Hstart. apply bind_Some in Hstart as (d & [-> _]%instant_add_Some & [= <-]).
    destruct (instant_add task_now RENEWAL_INTERVAL); [|split; simpl; try done; unfold sat_sub; lia].
    split; simpl; try done; [unfold sat_sub; lia|]. intros deadline [= <-] _.
    destruct Hheld as (s & p & ? & ? & ? & ?). exists s, p. split_and!; try done. unfold sat_sub, PROBE_EXPIRY_MARGIN in *. lia. }
  eapply owns_run in How; [|done..].
  assert (exists until, at_ < until /\ held registry' (pl_account lease) (pl_owner_token lease) until) as (until & Huntil & Hlive).
  { unfold probe_interruption in Hwait. simpl in Hwait. unfold ownership_lost in Hwait.
    destruct (rn_ownership renewal') as [deadline|] eqn:Ho.
    - destruct (Z.leb_spec deadline at_); [by destruct pick, (rs_deadline self <=? at_)|]. exists deadline. split; [done|].
      eapply ow_held; [done|done|lia].
    - by destruct pick, (rs_deadline self <=? at_). }
  split; [by eexists|]. intros other token' Ho. by eapply held_try_probe_waits.
Qed.

(** ** What finishing releases *)

(** The ticket is in no queue. *)
Definition absent (ticket : AccountWaitTicket) (world : World) : Prop :=
  forall state, reg_accounts (wd_registry world) !! tk_account ticket = Some state ->
    Forall (fun record => ticket_matches (tr_ticket record) ticket = false) (as_tickets state).

(** The registry has a probe for this lease, which lasts until [until]. *)
Definition lease_held (lease : AccountProbeLease) (world : World) (until : Instant) : Prop :=
  exists state probe, reg_accounts (wd_registry world) !! pl_account lease = Some state /\ as_probe state = Some probe /\
    pr_expires_at probe = until /\ as_generation state = pl_generation lease /\
    pl_owner_token (pr_lease probe) = pl_owner_token lease /\ pl_request_id (pr_lease probe) = pl_request_id lease.

(** The account is not probed for this lease, not even in the past of the clock. *)
Definition released (lease : AccountProbeLease) (world : World) : Prop := forall until, ~ lease_held lease world until.

(** The request does not count as waiting. *)
Definition not_waiting (lease : DownstreamConcurrencyLease) (world : World) : Prop :=
  forall lease_id state, cl_lease_id lease = Some lease_id -> wd_runtime world !! lease_key lease = Some state ->
    ~ lease_id ∈ dl_waiting state.

(** The others do not bring back what the session has given up. *)
Definition respected (G : World -> Prop) (turn : Turn) : Prop := forall world, G world -> G (tu_others turn world).

Definition cancelled (world : World) (ticket : AccountWaitTicket) (now : Instant) : World :=
  {| world with wd_registry := cancel_waiter (wd_registry world) ticket now |}.

Lemma cancelled_lookup world ticket now key state :
  reg_accounts (wd_registry (cancelled world ticket now)) !! key = Some state ->
  exists state0, reg_accounts (wd_registry world) !! key = Some state0 /\
    (as_probe state = as_probe state0 /\ as_generation state = as_generation state0) /\
    as_tickets state = if bool_decide (tk_account ticket = key)
      then retain (fun record => negb (ticket_matches (tr_ticket record) ticket)) (as_tickets state0) else as_tickets state0.
Proof.
  unfold cancelled, cancel_waiter. simpl. case_bool_decide as Hk.
  - subst key. destruct (reg_accounts (wd_registry world) !! tk_account ticket) as [s|] eqn:Hl; simpl; [|congruence].
    rewrite lookup_insert_eq. intros [= <-]. by exists s.
  - destruct (reg_accounts (wd_registry world) !! tk_account ticket) as [s|]; simpl; [rewrite lookup_insert_ne by done|]; eauto.
Qed.

Lemma absent_cancelled world ticket other now : absent other world -> absent other (cancelled world ticket now).
Proof.
  intros Ha state (s & Hs & _ & ->)%cancelled_lookup. specialize (Ha s Hs). case_bool_decide; [|done].
  eapply Forall_of_sublist; [apply retain_sublist|done].
Qed.

Lemma cancelled_absent world ticket now : absent ticket (cancelled world ticket now).
Proof.
  intros state (s & Hs & _ & ->)%cancelled_lookup. rewrite bool_decide_true by done.
  apply Forall_forall. intros record [Hr _]%retain_elem. by apply negb_true_iff.
Qed.

Lemma released_cancelled world lease ticket now : released lease world -> released lease (cancelled world ticket now).
Proof.
  intros Hd limit (state & probe & (s & Hs & [Hp Hg] & _)%cancelled_lookup & Hprobe & Hrest).
  apply (Hd limit). exists s, probe. rewrite <- Hp, <- Hg. destruct Hrest as (? & ? & ? & ?). by split_and!.
Qed.

Lemma cancel_each_releases tickets : forall (G : World -> Prop) retained failed self world turns,
  (forall world ticket now, G world -> G (cancelled world ticket now)) ->
  (length tickets <= length turns)%nat -> G world -> Forall (respected G) turns ->
  (forall ticket, ticket ∈ tickets -> Forall (respected (absent ticket)) turns) ->
  wp (cancel_each tickets retained failed)
    (fun r s w ts => r = Ok (retained, failed) /\ s = self /\ ts = drop (length tickets) turns /\ G w /\
      forall ticket, ticket ∈ tickets -> absent ticket w) never self world turns.
Proof.
  induction tickets as [|ticket tickets IH]; intros G retained failed self world turns Hcancel Hlen HG Hturns Habsent.
  { split_and!; try done. by intros ? ?%elem_of_nil. }
  destruct turns as [|turn turns]; [simpl in Hlen; lia|]. apply Forall_cons in Hturns as [Hturn Hturns].
  cbn [cancel_each]. apply wp_bind. unfold wp at 1, attempt. simpl.
  eapply wp_mono; [apply (IH (fun w => G w /\ absent ticket w))| |done].
  - intros w other now [? ?]. split; [by apply Hcancel|by apply absent_cancelled].
  - simpl in Hlen. lia.
  - split; [by apply Hcancel, Hturn|apply cancelled_absent].
  - specialize (Habsent ticket ltac:(set_solver)). apply Forall_cons in Habsent as [_ Habsent].
    apply Forall_forall. intros t Ht w [? ?]. rewrite Forall_forall in Hturns, Habsent. split; [by apply Hturns|by apply Habsent].
  - intros other Ho. specialize (Habsent other ltac:(set_solver)). by apply Forall_cons in Habsent as [_ ?].
  - intros r s w ts (-> & -> & -> & [HGw Ha] & Hall). split_and!; try done.
    intros other [->|Ho]%elem_of_cons; [done|by apply Hall].
Qed.

Lemma unmarked_not_waiting runtime lease registry :
  not_waiting lease {| wd_registry := registry; wd_runtime := unmark_downstream_waiting runtime lease |}.
Proof.
  intros lease_id state Hid. simpl. unfold unmark_downstream_waiting. rewrite Hid.
  destruct (runtime !! lease_key lease) as [s|] eqn:Hl; [rewrite lookup_insert_eq; intros [= <-]; simpl; set_solver|congruence].
Qed.

(** What validation says after pruning: the probe is the lease's and has not lapsed. *)
Lemma validate_pruned state now lease u :
  validate_probe (prune_account state now) lease = Ok u <->
  exists probe, as_probe state = Some probe /\ now < pr_expires_at probe /\ as_generation state = pl_generation lease /\
    pl_owner_token (pr_lease probe) = pl_owner_token lease /\ pl_request_id (pr_lease probe) = pl_request_id lease.
Proof.
  rewrite validate_probe_Ok, prune_probe, prune_generation. split.
  - intros (Hg & probe & Hp & Ht & Hr). destruct (as_probe state) as [p|]; simpl in *; [|done].
    destruct (Z.leb_spec (pr_expires_at p) now); [done|]. simplify_eq. exists probe. by split_and!.
  - intros (probe & -> & Hlive & Hg & Ht & Hr). simpl. rewrite (proj2 (Z.leb_gt _ _) Hlive). split; [done|]. by exists probe.
Qed.

(** Giving up a probe leaves none for the lease, and succeeds exactly when it had one. *)
Lemma finish_probe_releases hash_account world lease reads now registry' r :
  finish_probe hash_account (wd_registry world) lease Cancelled reads now = Some (registry', r) ->
  released lease {| world with wd_registry := registry' |} /\
  (is_ok r = true <-> exists until, now < until /\ lease_held lease world until).
Proof.
  unfold finish_probe, lease_held. intros Hf.
  destruct (reg_accounts (wd_registry world) !! pl_account lease) as [s|] eqn:Hl.
  2: { injection Hf as <- <-. split; [|split; [done|by intros (until & _ & s & p & [=] & _)]].
       intros limit (s & p & Hs & _). simpl in Hs. congruence. }
  destruct (validate_probe _ _) as [[]|e] eqn:Hv; simpl in Hf; injection Hf as <- <-.
  - split.
    + intros limit (state & p & Hs & Hp & _). simpl in Hs. rewrite lookup_insert_eq in Hs. by simplify_eq/=.
    + apply validate_pruned in Hv as (probe & Hp & Hlive & Hrest). split; [|done]. intros _.
      exists (pr_expires_at probe). split; [done|]. by exists s, probe.
  - split.
    + intros limit (state & p & Hs & Hp & _ & Hg & Ht & Hr). simpl in Hs. rewrite lookup_insert_eq in Hs. simplify_eq.
      assert (validate_probe (prune_account s now) lease = Ok tt) as Hok; [|congruence].
      apply validate_probe_Ok. split; [done|]. by exists p.
    + split; [done|]. intros (until & Hn & state & p & Hs & Hp & <- & Hrest). simplify_eq.
      assert (validate_probe (prune_account state now) lease = Ok tt) as Hok; [|congruence].
      apply validate_pruned. by exists p.
Qed.

Lemma cancel_all_releases (G : World -> Prop) self world turns :
  (forall world ticket now, G world -> G (cancelled world ticket now)) ->
  (forall world runtime, G world -> G {| world with wd_runtime := runtime |}) ->
  (1 + length (rs_tickets self) <= length turns)%nat -> G world -> Forall (respected G) turns ->
  (forall ticket, ticket ∈ rs_tickets self -> Forall (respected (absent ticket)) turns) ->
  wp cancel_all_waiters (fun r s w _ => r = Ok tt /\ rs_tickets s = [] /\ rs_waiting_marked s = false /\
    rs_probe_renewal s = rs_probe_renewal self /\ rs_probe s = rs_probe self /\ rs_finished s = rs_finished self /\
    G w /\ (forall ticket, ticket ∈ rs_tickets self -> absent ticket w) /\
    (rs_waiting_marked self = true -> not_waiting (rs_downstream_lease self) w)) never self world turns.
Proof.
  intros Hcancel Hunmark Hlen HG Hturns Habsent. unfold cancel_all_waiters.
  apply wp_bind. unfold wp at 1, this. apply wp_bind. unfold wp at 1, modify. apply wp_bind.
  eapply wp_mono; [by apply (cancel_each_releases _ G); [..|lia| | |]| |done].
  intros r s w ts (-> & -> & -> & HGw & Hall). apply wp_bind. unfold wp at 1. cbn [modify]. apply wp_bind.
  destruct (rs_waiting_marked self) eqn:Hm; [|by split_and!].
  destruct (drop (length (rs_tickets self)) turns) as [|turn ts] eqn:Hd.
  { apply (f_equal length) in Hd. rewrite length_drop in Hd. simpl in Hd. lia. }
  assert (turn ∈ turns) as Hin by (rewrite <- (take_drop (length (rs_tickets self)) turns), Hd; set_solver).
  unfold wp; simpl. split_and!; try done.
  - apply Hunmark. rewrite Forall_forall in Hturns. by apply Hturns.
  - intros ticket Ht. specialize (Habsent ticket Ht). rewrite Forall_forall in Habsent. apply (Habsent turn Hin w), Hall, Ht.
  - intros _. apply unmarked_not_waiting.
Qed.

(** What is left of [session_finish] once the probe has been dealt with. *)
Lemma finish_rest (G : World -> Prop) (failed : bool) self world turns :
  (forall world ticket now, G world -> G (cancelled world ticket now)) ->
  (forall world runtime, G world -> G {| world with wd_runtime := runtime |}) ->
  (1 + length (rs_tickets self) <= length turns)%nat -> G world -> Forall (respected G) turns ->
  (forall ticket, ticket ∈ rs_tickets self -> Forall (respected (absent ticket)) turns) ->
  wp (cancelled ← attempt cancel_all_waiters;
      if failed || negb (is_ok cancelled) then fail CoordinationUnavailable
      else modify (fun self => {| self with rs_finished := true |})) (fun r s w _ =>
    rs_tickets s = [] /\ rs_waiting_marked s = false /\ rs_probe_renewal s = rs_probe_renewal self /\
    (forall ticket, ticket ∈ rs_tickets self -> absent ticket w) /\
    (rs_waiting_marked self = true -> not_waiting (rs_downstream_lease self) w) /\
    rs_probe s = rs_probe self /\ G w /\
    if failed then r = Err CoordinationUnavailable /\ rs_finished s = rs_finished self
    else r = Ok tt /\ rs_finished s = true) never self world turns.
Proof.
  intros Hcancel Hunmark Hlen HG Hturns Habsent. apply wp_bind, wp_attempt.
  eapply wp_mono; [by apply (cancel_all_releases G)| |done].
  intros r s w ts (-> & ? & ? & ? & ? & ? & ? & ? & ?). destruct failed; unfold wp; simpl; by split_and!.
Qed.


Lemma finish_cancelled_total hash_account registry lease reads now :
  finish_probe hash_account registry lease Cancelled reads now <> None.
Proof. unfold finish_probe. by repeat case_match. Qed.

(** What [session_finish] promises of [self] by what it returns, when the first turn is the
    one in which it finds the world. *)
Definition finished_result (self : AccountRecoverySession) (turn : Turn) (world : World) (r : result unit RecoveryError)
    (self' : AccountRecoverySession) (world' : World) : Prop :=
  rs_tickets self' = [] /\ rs_waiting_marked self' = false /\ rs_probe_renewal self' = None /\
  (forall ticket, ticket ∈ rs_tickets self -> absent ticket world') /\
  (rs_waiting_marked self = true -> not_waiting (rs_downstream_lease self) world') /\
  (forall probe, rs_probe self = Some probe -> released probe world') /\
  (rs_finished self' = is_ok r /\ rs_probe self' = if is_ok r then None else rs_probe self) /\
  (is_ok r = true <-> forall probe, rs_probe self = Some probe ->
    exists until, tu_now turn < until /\ lease_held probe (tu_others turn world) until).

(** C29. Finishing gives everything back. With a turn for each call it makes, [session_finish]
    returns: the tickets of the session are then in no queue, the request does not count
    as waiting, and the registry has no probe for its lease, whatever happened before,
    provided the others do not bring them back. It succeeds exactly when the registry
    still had the live probe that the session holds, or the session holds none; the
    session is then finished, and otherwise can be asked again. *)
Theorem finish_releases hash_account self world turn turns :
  rs_finished self = false ->
  (1 + length (rs_tickets self) <= length turns)%nat ->
  (forall ticket, ticket ∈ rs_tickets self -> Forall (respected (absent ticket)) (turn :: turns)) ->
  (forall probe, rs_probe self = Some probe -> Forall (respected (released probe)) (turn :: turns)) ->
  exists r self' world' turns', session_finish hash_account self world (turn :: turns) = Returns r self' world' turns' /\
    finished_result self turn world r self' world'.
Proof.
  intros Hfin Hlen Habsent Hreleased.
  assert (wp (session_finish hash_account) (fun r s w _ => finished_result self turn world r s w) never self world (turn :: turns)) as Hwp.
  2: { unfold wp in Hwp. destruct (session_finish _ _ _ _) as [r s w t| |]; [by exists r, s, w, t|done..]. }
  unfold session_finish. apply wp_bind. unfold wp at 1, this. rewrite Hfin. apply wp_bind. unfold wp at 1. cbn [stop_renewal modify].
  apply wp_bind.
  destruct (rs_probe self) as [probe|] eqn:Hp.
  - specialize (Hreleased probe eq_refl). apply Forall_cons in Hreleased as [_ Hreleased].
    assert (forall ticket, ticket ∈ rs_tickets self -> Forall (respected (absent ticket)) turns) as Habsent'.
    { intros ticket Ht. specialize (Habsent ticket Ht). by apply Forall_cons in Habsent as [_ ?]. }
    apply wp_bind, wp_attempt. unfold wp at 1, finish_account_probe, call.
    destruct (finish_probe _ _ _ _ _ _) as [[registry r]|] eqn:Hf; [|by apply finish_cancelled_total in Hf]. simpl.
    apply finish_probe_releases in Hf as [Hrel Hok].
    assert (is_ok r = true <-> forall p, Some probe = Some p ->
      exists until, tu_now turn < until /\ lease_held p (tu_others turn world) until) as Hok'.
    { rewrite Hok. split; [by intros ? p [= <-]|auto]. }
    destruct r as [[]|]; simpl in *.
    + apply wp_bind. unfold wp at 1. cbn [clear_probe modify mret recovery_ret]. unfold wp at 1.
      eapply wp_mono; [apply (finish_rest (released probe) false)| |done]; try done.
      * intros w ticket now. apply released_cancelled.
      * intros r s w ts (? & ? & ? & ? & ? & ? & ? & -> & ?). simpl in *. unfold finished_result. rewrite Hp.
        split_and!; try done. by intros ? [= <-].
    + unfold wp at 1. cbn [mret recovery_ret].
      eapply wp_mono; [apply (finish_rest (released probe) true)| |done]; try done.
      * intros w ticket now. apply released_cancelled.
      * intros r s w ts (? & ? & ? & ? & ? & ? & ? & -> & ?). simpl in *. unfold finished_result. rewrite Hp.
        split_and!; simpl; try done; [by intros ? [= <-]|congruence].
  - unfold wp at 1. cbn [mret recovery_ret].
    eapply wp_mono; [apply (finish_rest (fun _ => True) false)| |done]; try done.
    + simpl. lia.
    + by apply Forall_true.
    + intros r s w ts (? & ? & ? & ? & ? & ? & ? & -> & ?). simpl in *. unfold finished_result. rewrite Hp.
      by split_and!.
Qed.

(** A session can be left with a ticket that it can never use. When the attempt on a
    probed account fails while another request has meanwhile found the account working,
    the session is not queued there again, and nothing marks the request as waiting for
    the tickets it still holds, since only queueing does; from then on waiting for them
    fails as a loss of coordination at the first poll, however ready their accounts are,
    and the request is answered as if the coordination backend were down. *)
Theorem unmarked_tickets_fail timeout self world turn0 turn1 turn2 turns ticket lease_id :
  rs_probe self = None -> min_by (key_ltb tk_registered_at_ms) (rs_tickets self) = Some ticket -> own_ticket self ticket ->
  cl_lease_id (rs_downstream_lease self) = Some lease_id ->
  not_waiting (rs_downstream_lease self) world ->
  Forall (respected (not_waiting (rs_downstream_lease self))) [turn0; turn1; turn2] ->
  tu_now turn1 < rs_deadline self -> rs_rounds self < rs_max_rounds self ->
  exists world', wait_for_pending_account timeout self world (turn0 :: turn1 :: turn2 :: turns)
    = Returns (Err CoordinationUnavailable) self world' turns.
Proof.
  intros Hp Hm (_ & Hd & Hl) Hid Hw Hresp Hearly Hrounds.
  apply Forall_cons in Hresp as [H0 Hresp]. apply Forall_cons in Hresp as [H1 Hresp]. apply Forall_cons in Hresp as [H2 _].
  specialize (H2 _ (H1 _ (H0 _ Hw))). set (w := tu_others turn2 (tu_others turn1 (tu_others turn0 world))) in *.
  exists w. assert (wp (wait_for_pending_account timeout) (fun r s w' ts => r = Err CoordinationUnavailable /\ s = self /\ w' = w /\ ts = turns)
    never self world (turn0 :: turn1 :: turn2 :: turns)) as Hwp.
  2: { unfold wp in Hwp. destruct (wait_for_pending_account _ _ _ _) as [r s w' t| |]; [|done..]. by destruct Hwp as (-> & -> & -> & ->). }
  unfold wait_for_pending_account. apply wp_bind. unfold wp at 1, this. rewrite Hp, Hm.
  apply wp_bind, wp_wait_for_ticket.
  cbn [length wait_loop]. apply wp_bind. unfold wp at 1. cbn [instant_now call]. apply wp_bind. unfold wp at 1, this.
  rewrite (proj2 (Z.leb_gt _ _) Hearly), (proj2 (Z.leb_gt _ _) Hrounds). cbn [orb]. apply wp_bind.
  unfold wp at 1. unfold try_acquire_account_probe_for_downstream_lease, call. fold w.
  rewrite Hd, String.eqb_refl, Hid. cbn [negb]. rewrite Hl, Hid, String.eqb_refl. cbn [negb].
  destruct (wd_runtime w !! _) as [state|] eqn:Hs; [|done].
  rewrite bool_decide_false by (by eapply H2). by rewrite orb_true_r.
Qed.

(** ** The theorems at concrete inputs *)

Definition account_a : AccountConcurrencyKey := {| ack_upstream_id := "a"; ack_key_fingerprint := "k" |}.
Definition account_b : AccountConcurrencyKey := {| ack_upstream_id := "b"; ack_key_fingerprint := "k" |}.

Definition own_lease : DownstreamConcurrencyLease := {| cl_downstream_id := "d"; cl_group_name := ""; cl_lease_id := Some "lease" |}.

Definition shipped_reads : TuningReads := untorn (reg_tuning Witness.start).

(** Both accounts are saturated and another request waits for the first one. *)
Definition saturated_world : World :=
  let registry := default Witness.start (reject Witness.no_hash Witness.start account_a None shipped_reads 0) in
  let registry := default registry (reject Witness.no_hash registry account_b None shipped_reads 0) in
  {| wd_registry := (register_waiter registry account_a "other" "d2" "lease2" "token2" 0).1;
     wd_runtime := {[ lease_key own_lease := {| dl_admitted := {[ "lease" := 1000000 ]}; dl_waiting := ∅ |} ]} |}.

(** The other request finds the first account working, ten seconds later. *)
Definition other_ticket : AccountWaitTicket :=
  (register_waiter (wd_registry saturated_world) account_a "other" "d2" "lease2" "token2" 0).2.

Definition other_succeeds (world : World) : World :=
  match try_probe (wd_registry world) other_ticket "owner2" (from_secs 10) with
  | (registry, Granted lease) =>
      match finish_probe Witness.no_hash registry lease Accepted shipped_reads (from_secs 10) with
      | Some (registry, _) => {| world with wd_registry := registry |}
      | None => world
      end
  | (_, Wait _) => world
  end.

Definition turn_at (seconds : Z) (uuid : string) : Turn :=
  {| tu_others := fun world => world; tu_now := from_secs seconds; tu_unix_millis := 0; tu_uuid := uuid;
     tu_reads := shipped_reads |}.

Definition recovery_calls : list session_call :=
  [CallWaitForAccount account_a; CallWaitForAccount account_b; CallWaitForPendingAccount;
   CallCompleteAttempt account_a AttemptFailed].

Definition recovery_turns : list Turn :=
  [turn_at 1 "ta"; turn_at 1 ""; turn_at 1 ""; turn_at 1 ""; turn_at 1 "";
   turn_at 2 "tb"; turn_at 2 ""; turn_at 2 ""; turn_at 2 "";
   {| (turn_at 10 "") with tu_others := other_succeeds |}; turn_at 11 ""; turn_at 11 "owner"; turn_at 11 ""; turn_at 11 "";
   turn_at 12 ""; turn_at 12 ""; turn_at 12 ""; turn_at 12 ""].

Definition new_session : AccountRecoverySession := AccountRecoverySession_new "r" own_lease (from_secs 60) 32.

Definition recovery_run := run_calls Witness.no_hash 600 recovery_calls new_session saturated_world recovery_turns.

Definition session_of {A} (p : progress A) : AccountRecoverySession :=
  match p with Returns _ self _ _ | Suspended self _ => self | Panics => new_session end.
Definition world_of {A} (p : progress A) : World :=
  match p with Returns _ _ world _ | Suspended _ world => world | Panics => saturated_world end.

Definition result_of {A} (p : progress A) : option (result A RecoveryError) :=
  match p with Returns r _ _ _ => Some r | _ => None end.

(** The session that waits for both accounts, and the one that is stranded. *)
Definition waiting_run := run_calls Witness.no_hash 600 (take 2 recovery_calls) new_session saturated_world (take 9 recovery_turns).
Definition probing_run := run_calls Witness.no_hash 600 (take 3 recovery_calls) new_session saturated_world (take 14 recovery_turns).
Definition ticket_b : AccountWaitTicket :=
  {| tk_account := account_b; tk_request_id := "r"; tk_downstream_id := "d"; tk_downstream_lease_id := "lease";
     tk_generation := 1; tk_registered_at_ms := 2000; tk_registration_token := "tb" |}.

Lemma default_reject_ok registry key :
  registry_ok registry -> registry_ok (default registry (reject Witness.no_hash registry key None shipped_reads 0)).
Proof.
  intros Hr. destruct (reject _ _ _ _ _ _) as [registry'|] eqn:He; [|exact Hr]. exact (reject_ok Witness.no_hash _ _ _ _ _ _ Hr He).
Qed.

Lemma saturated_world_ok : registry_ok (wd_registry saturated_world).
Proof.
  eapply (run_step_ok Witness.no_hash _ (EvRegister account_a "other" "d2" "lease2" "token2") 0); [|reflexivity].
  apply default_reject_ok, default_reject_ok, new_registry_ok.
Qed.

Lemma other_succeeds_tame world : registry_ok (wd_registry world) -> registry_ok (wd_registry (other_succeeds world)).
Proof.
  intros Hr. unfold other_succeeds.
  pose proof (run_step_ok Witness.no_hash (wd_registry world) (EvTryProbe other_ticket "owner2") (from_secs 10) _ Hr eq_refl) as H. simpl in H.
  destruct (try_probe _ _ _ _) as [registry [lease|]]; [|done].
  destruct (finish_probe _ _ _ _ _ _) as [[registry' r]|] eqn:Hf; [|done].
  by apply finish_probe_ok in Hf.
Qed.

Lemma turn_at_sound seconds uuid : 0 <= seconds <= 100 -> sound 600 [from_secs 5] (turn_at seconds uuid).
Proof.
  intros Hs. split; cbn [turn_at tu_others tu_now tu_reads]; [done| |unfold probe_ttl, sat_add, u64_max, from_secs, instant_max; lia..|].
  - split; [discriminate|reflexivity|vm_compute; discriminate| |exact I].
    repeat apply List.Forall_cons; try apply List.Forall_nil; cbn; unfold from_secs, from_millis, instant_max; lia.
  - repeat constructor. unfold from_secs, instant_max. lia.
Qed.

Lemma recovery_turns_sound : Forall (sound 600 [from_secs 5]) recovery_turns.
Proof.
  repeat apply List.Forall_cons; try apply List.Forall_nil; try (apply turn_at_sound; lia).
  destruct (turn_at_sound 10 "" ltac:(lia)). split; [apply other_succeeds_tame|assumption..].
Qed.

Lemma session_invariant_witness :
  session_ok (session_of recovery_run) /\ rs_tickets (session_of recovery_run) = [ticket_b].
Proof.
  pose proof (session_invariant Witness.no_hash 600 [from_secs 5] "r" own_lease (from_secs 60) 32 recovery_calls saturated_world recovery_turns
    ltac:(unfold u32_max; lia) saturated_world_ok recovery_turns_sound ltac:(repeat constructor)) as H.
  cbv zeta in H. split; [|vm_compute; reflexivity]. unfold recovery_run, new_session in *.
  destruct (run_calls _ _ _ _ _ _); [exact (proj1 (proj2 H))|exact (proj1 H)|destruct H].
Defined.

Lemma clocks_ordered_repeat turn n : clocks_ordered (repeat turn n).
Proof.
  induction n as [|n IH]; [apply SSorted_nil|]. apply SSorted_cons; [exact IH|].
  apply Forall_forall. intros turn' Hin. apply list_elem_of_In, repeat_spec in Hin as ->. reflexivity.
Qed.

Lemma pending_wait_ends_witness :
  exists r self' world' turns', wait_for_pending_account 600 (session_of waiting_run) (world_of waiting_run) (repeat (turn_at 61 "") 11)
    = Returns r self' world' turns' /\ r = Err (RecoveryBudgetExhausted (from_secs 1)).
Proof.
  destruct (pending_wait_ends 600 (session_of waiting_run) (world_of waiting_run) (repeat (turn_at 61 "") 11))
    as (r & self' & world' & turns' & H & _).
  - vm_compute. reflexivity.
  - apply Forall_forall. intros turn Hin. apply list_elem_of_In, repeat_spec in Hin as ->. split; vm_compute; discriminate.
  - apply clocks_ordered_repeat.
  - apply Nat.leb_le. vm_compute. reflexivity.
  - exists r, self', world', turns'. split; [exact H|]. apply (f_equal result_of) in H.
    assert (Some (Err (RecoveryBudgetExhausted (from_secs 1))) = result_of (Returns r self' world' turns')) as Hres by (rewrite <- H; vm_compute; reflexivity).
    injection Hres as <-. reflexivity.
Defined.

Definition renewal_trace : list renewal_event :=
  [Foreign (EvSnapshot Witness.account) (from_secs 20); Tick (from_secs 31) (from_secs 32) (from_secs 32)].

(** What [ProbeRenewal_start] gives at one second. *)
Definition renewal_started : ProbeRenewal :=
  {| rn_lease := Witness.lease; rn_safe_for := from_secs 90; rn_ownership := ActiveUntil (from_secs 91);
     rn_next_renewal := from_secs 31 |}.

Definition renewed := run_renewal Witness.no_hash
  (Witness.granted.1, renewal_started) renewal_trace.

Lemma owned_probe_is_live_witness :
  exists registry' renewal', renewed = Some (registry', renewal') /\
    exists until, from_secs 121 < until /\ held registry' Witness.account "owner-1" until.
Proof.
  destruct renewed as [[registry' renewal']|] eqn:Hrun; [|vm_compute in Hrun; discriminate]. exists registry', renewal'. split; [reflexivity|].
  assert (snd <$> renewed = Some renewal') as Hren by (rewrite Hrun; reflexivity).
  apply (owned_probe_is_live Witness.no_hash Witness.waiting.1 Witness.waiting.2 "owner-1" 0 Witness.granted.1 Witness.lease
    (from_secs 1) (from_secs 1) renewal_started renewal_trace registry' renewal' (AccountRecoverySession_new "request" own_lease (from_secs 600) 32) true (from_secs 121)).
  - vm_compute. reflexivity.
  - vm_compute. discriminate.
  - split; vm_compute; discriminate.
  - repeat split; vm_compute; discriminate.
  - apply List.Forall_cons; [reflexivity|]. apply List.Forall_cons; [split; vm_compute; discriminate|]. apply List.Forall_nil.
  - vm_compute. reflexivity.
  - exact Hrun.
  - vm_compute. discriminate.
  - vm_compute in Hren. injection Hren as <-. vm_compute. reflexivity.
Defined.

Lemma finish_releases_witness :
  exists r self' world' turns', session_finish Witness.no_hash (session_of probing_run) (world_of probing_run) (repeat (turn_at 20 "") 3)
    = Returns r self' world' turns' /\ r = Ok tt /\ absent ticket_b world'.
Proof.
  assert (rs_tickets (session_of probing_run) = [ticket_b]) as Ht by (vm_compute; reflexivity).
  assert (forall G, Forall (respected G) (repeat (turn_at 20 "") 3)) as Hresp
    by (intros G; repeat apply List.Forall_cons; try apply List.Forall_nil; intros world HG; exact HG).
  destruct (finish_releases Witness.no_hash (session_of probing_run) (world_of probing_run) (turn_at 20 "") (repeat (turn_at 20 "") 2))
    as (r & self' & world' & turns' & H & Hr).
  - vm_compute. reflexivity.
  - rewrite Ht. apply Nat.leb_le. reflexivity.
  - intros ticket _. apply (Hresp _).
  - intros probe _. apply (Hresp _).
  - exists r, self', world', turns'. split; [exact H|]. split.
    + apply (f_equal result_of) in H. assert (Some (Ok tt) = result_of (Returns r self' world' turns')) as Hok by (rewrite <- H; vm_compute; reflexivity).
      injection Hok as <-. reflexivity.
    + destruct Hr as (_ & _ & _ & Ha & _). apply Ha. rewrite Ht. apply list_elem_of_singleton. reflexivity.
Defined.

(** The account of the ticket would let the stranded session in. *)
Lemma unmarked_tickets_fail_witness :
  (exists world', wait_for_pending_account 600 (session_of recovery_run) (world_of recovery_run) (repeat (turn_at 13 "") 3)
    = Returns (Err CoordinationUnavailable) (session_of recovery_run) world' []) /\
  exists lease, (try_probe (wd_registry (world_of recovery_run)) ticket_b "" (from_secs 13)).2 = Granted lease.
Proof.
  split; [|eexists; vm_compute; reflexivity].
  assert (Forall (respected (not_waiting (rs_downstream_lease (session_of recovery_run)))) (repeat (turn_at 13 "") 3)) as Hresp
    by (repeat apply List.Forall_cons; try apply List.Forall_nil; intros world HG; exact HG).
  apply (unmarked_tickets_fail 600 (session_of recovery_run) (world_of recovery_run) (turn_at 13 "") (turn_at 13 "") (turn_at 13 "") [] ticket_b "lease").
  - vm_compute. reflexivity.
  - vm_compute. reflexivity.
  - split; [|split]; vm_compute; reflexivity.
  - vm_compute. reflexivity.
  - intros lease_id state Hid Hs. vm_compute in Hid. injection Hid as <-. apply (f_equal (fmap dl_waiting)) in Hs.
    assert (Some (∅ : gset string) = Some (dl_waiting state)) as He by (etransitivity; [|exact Hs]; vm_compute; reflexivity).
    injection He as He. rewrite <- He. exact (not_elem_of_empty (C := gset string) "lease").
  - exact Hresp.
  - vm_compute. reflexivity.
  - vm_compute. reflexivity.
Defined.
