(* ===== verification/CapabilityTypes.v ===== *)
(** * Capabilities: data

    The types of [src/src/capabilities/types.rs]: what a route can do and how that is
    known, the configuration of the operator, the profiles that probes leave behind, what a
    request asks for and what the resolution of a route gives; with the baseline of every
    route and the static presets for families of upstreams.

    A [BTreeMap] is a [gmap] and a [BTreeSet] a [gset]; where the order of iteration can be
    seen, the entries come from [btree_entries] (string keys) or from [Capability_ALL],
    which lists the capabilities in their order. *)

From S2P Require Import Prelude RouteTypes ProbeQueue RuntimeHints ModelIdentity UpstreamConfig Json ImageAdapter.

Local Open Scope Z_scope.

Definition CAPABILITY_SCHEMA_VERSION : Z := 1.
Definition DIALECT_PROBE_SCHEMA_VERSION : Z := 11.

(** ** Equality of documents

    [PartialEq] of [serde_json::Value]; the two zeros of the floats are equal. *)

Definition float_is_zero (bits : Z) : bool := (bits =? 0) || (bits =? 9223372036854775808).

Definition number_eqb (a b : JsonNumber) : bool :=
  match a, b with
  | Integer a, Integer b => a =? b
  | Float a, Float b => (a =? b) || (float_is_zero a && float_is_zero b)
  | _, _ => false
  end.

Fixpoint value_eqb (a b : Value) : bool :=
  match a, b with
  | JNull, JNull => true
  | JBool a, JBool b => Bool.eqb a b
  | JNumber a, JNumber b => number_eqb a b
  | JString a, JString b => String.eqb a b
  | JArray a, JArray b =>
      (fix go (a b : list Value) : bool :=
         match a, b with
         | [], [] => true
         | x :: a, y :: b => value_eqb x y && go a b
         | _, _ => false
         end) a b
  | JObject a, JObject b =>
      (fix go (a b : json_map) : bool :=
         match a, b with
         | [], [] => true
         | (k, x) :: a, (l, y) :: b => String.eqb k l && value_eqb x y && go a b
         | _, _ => false
         end) a b
  | _, _ => false
  end.

(** [Vec::contains] for documents. *)
Definition contains_value (values : list Value) (value : Value) : bool := existsb (fun v => value_eqb v value) values.

(** ** What is known of a capability *)

Inductive EvidenceState := Supported | Rejected | Unobserved.

Inductive CapabilitySource := FromOverride | FromProbe | FromPolicy | FromBaseline.

Inductive TokenLimitField := MaxTokens | MaxCompletionTokens | MaxOutputTokens | Omit.

Inductive ReasoningMode := ReasoningOff | ReasoningOptional | ReasoningFixedOn.

#[export] Instance EvidenceState_eq_dec : EqDecision EvidenceState.
Proof. solve_decision. Defined.
#[export] Instance CapabilitySource_eq_dec : EqDecision CapabilitySource.
Proof. solve_decision. Defined.
#[export] Instance TokenLimitField_eq_dec : EqDecision TokenLimitField.
Proof. solve_decision. Defined.
#[export] Instance ReasoningMode_eq_dec : EqDecision ReasoningMode.
Proof. solve_decision. Defined.

Definition request_field (self : TokenLimitField) : option string :=
  match self with
  | MaxTokens => Some "max_tokens"
  | MaxCompletionTokens => Some "max_completion_tokens"
  | MaxOutputTokens => Some "max_output_tokens"
  | Omit => None
  end.

Inductive DialectCorrectionRule :=
| SwitchTokenLimit (rejected replacement : TokenLimitField)
| RemoveOptionalField (field : string).

#[export] Instance DialectCorrectionRule_eq_dec : EqDecision DialectCorrectionRule.
Proof. solve_decision. Defined.

(** The fields that a rule may remove. *)
Definition removable_fields : list string :=
  [ "service_tier"; "safety_identifier"; "prompt_cache_key"; "prompt_cache_retention"; "client_metadata"; "verbosity";
    "parallel_tool_calls"; "stream_options" ].

Definition is_safe (self : DialectCorrectionRule) : bool :=
  match self with
  | SwitchTokenLimit rejected replacement =>
      negb (bool_decide (rejected = replacement)) && is_some (request_field rejected) && is_some (request_field replacement)
  | RemoveOptionalField field => existsb (String.eqb field) removable_fields
  end.

Definition matches_rejected_field (self : DialectCorrectionRule) (rejected_field : string) : bool :=
  match self with
  | SwitchTokenLimit rejected _ => bool_decide (request_field rejected = Some rejected_field)
  | RemoveOptionalField field => String.eqb field rejected_field
  end.

(** ** Configuration *)

Inductive AgentClientProfile := Codex | Opencode | ClaudeCode | Hermes.

#[export] Instance AgentClientProfile_eq_dec : EqDecision AgentClientProfile.
Proof. solve_decision. Defined.

#[export] Instance AgentClientProfile_countable : Countable AgentClientProfile.
Proof.
  refine (inj_countable'
    (fun p => match p with Codex => 0%nat | Opencode => 1%nat | ClaudeCode => 2%nat | Hermes => 3%nat end)
    (fun n => match n with 0%nat => Codex | 1%nat => Opencode | 2%nat => ClaudeCode | _ => Hermes end) _).
  by intros [].
Defined.

Inductive PredicateOperator := PredExists | PredEquals | PredContains | PredEventSequence.

Record CapabilitySelector := {
  cs_exposed_model : option string;
  cs_runtime_model : option string;
  cs_runtime_model_glob : option string;
  cs_upstream_id : option string;
  cs_key_fingerprint : option string;
  cs_protocol : option WireProtocol;
  cs_tag : option string
}.

Definition CapabilitySelector_default : CapabilitySelector :=
  {| cs_exposed_model := None; cs_runtime_model := None; cs_runtime_model_glob := None; cs_upstream_id := None;
     cs_key_fingerprint := None; cs_protocol := None; cs_tag := None |}.

Record SemanticPolicy := {
  sp_reasoning_mode : option ReasoningMode;
  sp_reasoning_replay_required : option bool;
  sp_effort_map : gmap string string;
  sp_context_window : option Z;
  sp_max_output_tokens : option Z;
  sp_omit_sampling_fields : gset string
}.

Definition SemanticPolicy_default : SemanticPolicy :=
  {| sp_reasoning_mode := None; sp_reasoning_replay_required := None; sp_effort_map := ∅; sp_context_window := None;
     sp_max_output_tokens := None; sp_omit_sampling_fields := ∅ |}.

Record ProbeCandidates := {
  pc_token_limit_fields : list TokenLimitField;
  pc_reasoning_controls : gmap string (list Value);
  pc_reasoning_carriers : list ReasoningCarrier
}.

Definition ProbeCandidates_default : ProbeCandidates :=
  {| pc_token_limit_fields := []; pc_reasoning_controls := ∅; pc_reasoning_carriers := [] |}.

Record ResponsePredicate := {
  rp_path : string;
  rp_operator : PredicateOperator;
  rp_value : option Value
}.

Record DeclarativeProbeCase := {
  dp_id : string;
  dp_protocol : WireProtocol;
  dp_prerequisites : gset Capability;
  dp_request_patch : Value;
  dp_response_predicate : ResponsePredicate
}.

Record EvidenceReference := {
  er_title : string;
  er_url : string;
  er_retrieved_at : string;
  er_version : option string
}.

Record HttpsImageFixture := {
  hf_url : string;
  hf_expected_label : string
}.

Record CapabilityPolicy := {
  cp_id : string;
  cp_priority : Z;
  cp_selector : CapabilitySelector;
  cp_semantic : SemanticPolicy;
  cp_evidence : list EvidenceReference;
  cp_probe_candidates : ProbeCandidates;
  cp_extension_probes : list DeclarativeProbeCase
}.

Record RouteCapabilityOverride := {
  ro_id : string;
  ro_priority : Z;
  ro_selector : CapabilitySelector;
  ro_capabilities : gmap Capability EvidenceState;
  ro_token_limit_field : option TokenLimitField;
  ro_reasoning_carrier : option ReasoningCarrier;
  ro_reasoning_control_field : option string;
  ro_effort_map : gmap string Value;
  ro_correction_rules : list DialectCorrectionRule;
  ro_extensions : gmap string EvidenceState
}.

Record RouteTagAssignment := {
  rta_id : string;
  rta_selector : CapabilitySelector;
  rta_tags : gset string
}.

Record CompatibilityBundle := {
  cb_id : string;
  cb_required : gset Capability
}.

Record CompatibilityExpectation := {
  ce_id : string;
  ce_selector : CapabilitySelector;
  ce_bundles : gset string;
  ce_client_profiles : gset AgentClientProfile;
  ce_permitted_optional_downgrades : gset string;
  ce_https_image_fixture : option HttpsImageFixture
}.

Record ProbeConfiguration := {
  prc_enabled : bool;
  prc_refresh_interval_seconds : Z;
  prc_max_global_concurrency : Z;
  prc_max_per_upstream_concurrency : Z;
  prc_output_token_cap : Z;
  prc_https_image_fixture : option HttpsImageFixture
}.

Definition ProbeConfiguration_default : ProbeConfiguration :=
  {| prc_enabled := true; prc_refresh_interval_seconds := 7 * 24 * 60 * 60; prc_max_global_concurrency := 4;
     prc_max_per_upstream_concurrency := 1; prc_output_token_cap := 64; prc_https_image_fixture := None |}.

Record CapabilityConfiguration := {
  cfg_schema_version : Z;
  cfg_revision : Z;
  cfg_builtin_policy_version : Z;
  cfg_policies : list CapabilityPolicy;
  cfg_route_overrides : list RouteCapabilityOverride;
  cfg_route_tags : list RouteTagAssignment;
  cfg_bundles : list CompatibilityBundle;
  cfg_compatibility_expectations : list CompatibilityExpectation;
  cfg_probe : ProbeConfiguration
}.

Definition CapabilityConfiguration_default : CapabilityConfiguration :=
  {| cfg_schema_version := CAPABILITY_SCHEMA_VERSION; cfg_revision := 0; cfg_builtin_policy_version := 0; cfg_policies := [];
     cfg_route_overrides := []; cfg_route_tags := []; cfg_bundles := []; cfg_compatibility_expectations := [];
     cfg_probe := ProbeConfiguration_default |}.

(** ** Routes and their profiles *)

Record RouteIdentity := {
  ri_upstream_id : string;
  ri_key_fingerprint : string;
  ri_exposed_model_slug : string;
  ri_runtime_model_slug : string;
  ri_protocol : WireProtocol;
  ri_tags : gset string
}.

(** [DialectProfileKey::from_route]. *)
Definition from_route (route : RouteIdentity) : DialectProfileKey :=
  {| dk_upstream_id := ri_upstream_id route; dk_key_fingerprint := ri_key_fingerprint route;
     dk_runtime_model_slug := ri_runtime_model_slug route; dk_protocol := ri_protocol route |}.

Inductive DialectProfileState := ProfileVerified | ProfilePartial | ProfileUnsupported | ProfileUnknown.

Inductive ProbeProfileOutcome := OutcomeAccepted | OutcomeRejected | OutcomeOperationalFailure | OutcomeDeferred.

#[export] Instance DialectProfileState_eq_dec : EqDecision DialectProfileState.
Proof. solve_decision. Defined.
#[export] Instance ProbeProfileOutcome_eq_dec : EqDecision ProbeProfileOutcome.
Proof. solve_decision. Defined.

Record UpstreamDialectProfile := {
  ud_key : DialectProfileKey;
  ud_configuration_fingerprint : string;
  ud_probe_schema_version : Z;
  ud_state : DialectProfileState;
  ud_capabilities : gmap Capability EvidenceState;
  ud_token_limit_field : option TokenLimitField;
  ud_reasoning_carrier : option ReasoningCarrier;
  ud_correction_rules : list DialectCorrectionRule;
  ud_reasoning_controls : gmap string (list Value);
  ud_extension_evidence : gmap string EvidenceState;
  ud_last_attempt_at : option Z;
  ud_last_success_at : option Z;
  ud_last_operational_failure : option string;
  ud_last_probe_outcome : option ProbeProfileOutcome;
  ud_probe_retry_count : Z;
  ud_next_probe_at : option Z;
  ud_evidence_codes : gset string;
  ud_http_status : option Z;
  ud_event_types : gset string
}.

(** [UpstreamDialectProfile::unknown]. *)
Definition UpstreamDialectProfile_unknown (key : DialectProfileKey) : UpstreamDialectProfile :=
  {| ud_key := key; ud_configuration_fingerprint := ""; ud_probe_schema_version := DIALECT_PROBE_SCHEMA_VERSION;
     ud_state := ProfileUnknown; ud_capabilities := ∅; ud_token_limit_field := None; ud_reasoning_carrier := None;
     ud_correction_rules := []; ud_reasoning_controls := ∅; ud_extension_evidence := ∅; ud_last_attempt_at := None;
     ud_last_success_at := None; ud_last_operational_failure := None; ud_last_probe_outcome := None;
     ud_probe_retry_count := 0; ud_next_probe_at := None; ud_evidence_codes := ∅; ud_http_status := None;
     ud_event_types := ∅ |}.

(** ** Requests and resolutions *)

Record RequestedFeatures := {
  rf_required : gset Capability;
  rf_optional : gset Capability;
  rf_explicitly_selected_tool_kind : option string;
  rf_allow_reasoning_history_downgrade : bool;
  rf_continuation_profile : option DialectProfileKey;
  rf_continuation_reasoning_carrier : option ReasoningCarrier
}.

Definition RequestedFeatures_default : RequestedFeatures :=
  {| rf_required := ∅; rf_optional := ∅; rf_explicitly_selected_tool_kind := None;
     rf_allow_reasoning_history_downgrade := false; rf_continuation_profile := None;
     rf_continuation_reasoning_carrier := None |}.

(** [RequestedFeatures::text_stream]. *)
Definition RequestedFeatures_text_stream : RequestedFeatures :=
  {| RequestedFeatures_default with rf_required := {[ TextInput; TextStream ]} |}.

Record ResolvedCapability := {
  rv_state : EvidenceState;
  rv_source : CapabilitySource
}.

Record ResolvedRequestExtension := {
  rx_id : string;
  rx_request_patch : Value
}.

Record ResolvedCapabilities := {
  rs_values : gmap Capability ResolvedCapability;
  rs_token_limit_field : TokenLimitField;
  rs_reasoning_mode : ReasoningMode;
  rs_reasoning_carrier : ReasoningCarrier;
  rs_correction_rules : list DialectCorrectionRule;
  rs_reasoning_control_field : option string;
  rs_effort_map : gmap string Value;
  rs_omit_sampling_fields : gset string;
  rs_context_window : option Z;
  rs_max_output_tokens : option Z;
  rs_omit_optional_extensions : bool;
  rs_profile_state : DialectProfileState;
  rs_provisional : bool;
  rs_native_preferred : bool;
  rs_adapters : gset string;
  rs_request_extensions : list ResolvedRequestExtension;
  rs_field_sources : gmap string CapabilitySource
}.

Definition resolved_state (self : ResolvedCapabilities) (capability : Capability) : EvidenceState :=
  map_or Unobserved rv_state (rs_values self !! capability).

Definition resolved_source (self : ResolvedCapabilities) (capability : Capability) : CapabilitySource :=
  map_or FromBaseline rv_source (rs_values self !! capability).

Definition resolved_supports (self : ResolvedCapabilities) (capability : Capability) : bool :=
  bool_decide (resolved_state self capability = Supported).

(** ** The baseline and the presets *)

(** What every route is taken to support. *)
Definition baseline_supports (capability : Capability) : bool :=
  match capability with
  | TextInput | NonStreamingResponse | TextStream | FunctionTools | ForcedToolChoice | ToolContinuation => true
  | _ => false
  end.

Definition baseline_capability (capability : Capability) : ResolvedCapability :=
  {| rv_state := if baseline_supports capability then Supported else Unobserved; rv_source := FromBaseline |}.

Definition baseline_capabilities : gmap Capability ResolvedCapability :=
  list_to_map ((fun capability => (capability, baseline_capability capability)) <$> Capability_ALL).

Definition supported_by_policy : ResolvedCapability := {| rv_state := Supported; rv_source := FromPolicy |}.

(** What a preset says: capabilities that its upstreams support, the control of reasoning,
    fields that they reject, and whether every optional field is left out. *)
Record Preset := {
  ps_supported : list Capability;
  ps_reasoning_carrier : ReasoningCarrier;
  ps_reasoning_control_field : option string;
  ps_effort_map : gmap string Value;
  ps_omit_sampling_fields : gset string;
  ps_omit_optional_extensions : bool
}.

(** The arms of the match in [compile_dialect_preset]. *)
Definition dialect_preset (preset : string) : option Preset :=
  if bool_decide (preset = "openai" \/ preset = "minimax") then
    Some {| ps_supported := [ParallelToolCalls]; ps_reasoning_carrier := NoCarrier; ps_reasoning_control_field := None;
            ps_effort_map := ∅; ps_omit_sampling_fields := ∅; ps_omit_optional_extensions := false |}
  else if String.eqb preset "deepseek" then
    Some {| ps_supported := [ReasoningOutput; ReasoningReplay; ParallelToolCalls]; ps_reasoning_carrier := ReasoningContent;
            ps_reasoning_control_field := Some "reasoning_effort";
            ps_effort_map := list_to_map ((fun effort => (effort, JString effort)) <$> ["low"; "medium"; "high"; "xhigh"; "max"]);
            ps_omit_sampling_fields := {[ "logprobs"; "top_logprobs" ]}; ps_omit_optional_extensions := false |}
  else if String.eqb preset "glm" then
    Some {| ps_supported := [ReasoningOutput; ReasoningReplay; ParallelToolCalls]; ps_reasoning_carrier := ReasoningContent;
            ps_reasoning_control_field := Some "thinking";
            ps_effort_map :=
              list_to_map (("low", json_object [("type", JString "disabled")]) ::
                ((fun effort => (effort, json_object [("type", JString "enabled")])) <$> ["medium"; "high"; "xhigh"; "max"]));
            ps_omit_sampling_fields := {[ "stream_options"; "logprobs"; "top_logprobs" ]};
            ps_omit_optional_extensions := false |}
  else if String.eqb preset "generic-strict" then
    Some {| ps_supported := []; ps_reasoning_carrier := NoCarrier; ps_reasoning_control_field := None; ps_effort_map := ∅;
            ps_omit_sampling_fields := {[ "stream_options" ]}; ps_omit_optional_extensions := true |}
  else None.

Definition policy_unless (baseline : bool) : CapabilitySource := if baseline then FromBaseline else FromPolicy.

(** The sources that a compiled preset names. *)
Definition preset_field_sources (p : Preset) : gmap string CapabilitySource :=
  let field_sources : gmap string CapabilitySource :=
    list_to_map
      [ ("token_limit_field", FromPolicy);
        ("reasoning_carrier", policy_unless (bool_decide (ps_reasoning_carrier p = NoCarrier)));
        ("effort_map", policy_unless (bool_decide (ps_effort_map p = ∅)));
        ("omit_sampling_fields", policy_unless (bool_decide (ps_omit_sampling_fields p = ∅))) ] in
  if ps_omit_optional_extensions p then <["omit_optional_extensions" := FromPolicy]> field_sources else field_sources.

Definition compile_dialect_preset (preset : string) : option ResolvedCapabilities :=
  p ← dialect_preset preset;
  Some
    {| rs_values := fold_left (fun values capability => <[capability := supported_by_policy]> values) (ps_supported p)
                      baseline_capabilities;
       rs_token_limit_field := MaxTokens;
       rs_reasoning_mode := ReasoningOptional;
       rs_reasoning_carrier := ps_reasoning_carrier p;
       rs_correction_rules := [];
       rs_reasoning_control_field := ps_reasoning_control_field p;
       rs_effort_map := ps_effort_map p;
       rs_omit_sampling_fields := ps_omit_sampling_fields p;
       rs_context_window := None;
       rs_max_output_tokens := None;
       rs_omit_optional_extensions := ps_omit_optional_extensions p;
       rs_profile_state := ProfilePartial;
       rs_provisional := false;
       rs_native_preferred := true;
       rs_adapters := ∅;
       rs_request_extensions := [];
       rs_field_sources := preset_field_sources p |}.
