(* ===== verification/CapabilityResolver.v ===== *)
(** * Resolution of what a route can do

    [CapabilityResolver::resolve] of [src/src/capabilities/resolver.rs]: from the baseline,
    the profile of the last probe (or a static preset, where there is none), the policies
    and the overrides of the operator to one answer for every capability and every setting,
    or the first capability that the request requires and the route cannot preserve. *)

From S2P Require Import Prelude RouteTypes ProbeQueue RuntimeHints ModelIdentity UpstreamConfig Json ImageAdapter CapabilityTypes.

Local Open Scope Z_scope.

(** ** Data *)

Record CapabilityResolutionError := { cre_capability : Capability }.

Record ResolutionInput := {
  rn_route : RouteIdentity;
  rn_requested : RequestedFeatures;
  rn_semantic : SemanticPolicy;
  rn_route_overrides : list RouteCapabilityOverride;
  rn_policy_extensions : list DeclarativeProbeCase;
  rn_profile : option UpstreamDialectProfile;
  rn_dialect_preset : option string;
  rn_strip_nonstandard_chat_fields : NonstandardFieldPolicy
}.

(** [ResolutionInput::baseline]. *)
Definition ResolutionInput_baseline (route : RouteIdentity) (requested : RequestedFeatures) : ResolutionInput :=
  {| rn_route := route; rn_requested := requested; rn_semantic := SemanticPolicy_default; rn_route_overrides := [];
     rn_policy_extensions := []; rn_profile := None; rn_dialect_preset := None;
     rn_strip_nonstandard_chat_fields := StripAuto |}.

(** A [BTreeSet] of capabilities yields them in their order. *)
Definition capabilities_in_order (s : gset Capability) : list Capability :=
  retain (fun capability => bool_decide (capability ∈ s)) Capability_ALL.

(** ** The values of the capabilities *)

(** What evidence says, over the values so far: what was not observed says nothing. *)
Definition observe (source : CapabilitySource) (evidence : gmap Capability EvidenceState)
    (values : gmap Capability ResolvedCapability) : gmap Capability ResolvedCapability :=
  fold_left (fun values capability =>
      match evidence !! capability with
      | Some Unobserved | None => values
      | Some state => <[capability := {| rv_state := state; rv_source := source |}]> values
      end)
    Capability_ALL values.

(** What a preset says. *)
Definition observe_preset (preset : gmap Capability ResolvedCapability) (values : gmap Capability ResolvedCapability)
    : gmap Capability ResolvedCapability :=
  fold_left (fun values capability =>
      match preset !! capability with
      | Some resolved => if bool_decide (rv_state resolved = Unobserved) then values else <[capability := resolved]> values
      | None => values
      end)
    Capability_ALL values.

Definition matching_continuation_carrier (input : ResolutionInput) : option ReasoningCarrier :=
  if bool_decide (rf_continuation_profile (rn_requested input) = Some (from_route (rn_route input)))
  then rf_continuation_reasoning_carrier (rn_requested input) else None.

(** A continuation that carries its reasoning in the content is taken to be able to. *)
Definition continuation_values (continuation_carrier : option ReasoningCarrier)
    (values : gmap Capability ResolvedCapability) : gmap Capability ResolvedCapability :=
  if bool_decide (continuation_carrier = Some ReasoningContent) then
    fold_left (fun values capability => <[capability := {| rv_state := Supported; rv_source := FromBaseline |}]> values)
      [ReasoningOutput; ReasoningReplay] values
  else values.

Definition resolve_values (input : ResolutionInput) (preset : option ResolvedCapabilities)
    : gmap Capability ResolvedCapability :=
  let values := continuation_values (matching_continuation_carrier input) baseline_capabilities in
  let values :=
    match rn_profile input, preset with
    | Some profile, _ => observe FromProbe (ud_capabilities profile) values
    | None, Some preset => observe_preset (rs_values preset) values
    | None, None => values
    end in
  fold_left (fun values route_override => observe FromOverride (ro_capabilities route_override) values)
    (rn_route_overrides input) values.

(** ** The settings *)

Definition resolve_correction_rules (input : ResolutionInput) : list DialectCorrectionRule :=
  fold_left (fun rules route_override =>
      if is_empty (ro_correction_rules route_override) then rules else ro_correction_rules route_override)
    (rn_route_overrides input)
    (match rn_profile input with Some profile => ud_correction_rules profile | None => [] end).

Definition reasoning_carrier_matches_protocol (carrier : ReasoningCarrier) (protocol : WireProtocol) : bool :=
  match protocol, carrier with
  | ChatCompletions, ReasoningContent | Responses, ResponsesReasoningItem | Messages, MessagesThinking => true
  | _, _ => false
  end.

(** The last override that sets a field wins over what was there. *)
Definition overridden {A} (field : RouteCapabilityOverride -> option A) (route_overrides : list RouteCapabilityOverride)
    (value : A * CapabilitySource) : A * CapabilitySource :=
  fold_left (fun value route_override =>
      match field route_override with Some override_value => (override_value, FromOverride) | None => value end)
    route_overrides value.

Definition resolve_token_limit_field (input : ResolutionInput) (preset : option ResolvedCapabilities)
    : TokenLimitField * CapabilitySource :=
  let value :=
    match (profile ← rn_profile input; ud_token_limit_field profile), preset with
    | Some profile_value, _ => (profile_value, FromProbe)
    | None, Some preset => (rs_token_limit_field preset, FromPolicy)
    | None, None => (Omit, FromBaseline)
    end in
  overridden ro_token_limit_field (rn_route_overrides input) value.

Definition resolve_reasoning_carrier (input : ResolutionInput) (continuation_carrier : option ReasoningCarrier)
    (preset : option ResolvedCapabilities) : ReasoningCarrier * CapabilitySource :=
  let value :=
    match (profile ← rn_profile input; ud_reasoning_carrier profile), preset with
    | Some profile_value, _ => (profile_value, FromProbe)
    | None, Some preset => (rs_reasoning_carrier preset, FromPolicy)
    | None, None => (default NoCarrier continuation_carrier, FromBaseline)
    end in
  overridden ro_reasoning_carrier (rn_route_overrides input) value.

(** The levels of effort whose value the field accepts. *)
Definition accepted_efforts (effort_map : gmap string string) (accepted_values : list Value) : gmap string Value :=
  JString <$> filter (fun entry : string * string =>
    existsb (fun accepted => bool_decide (as_str accepted = Some entry.2)) accepted_values = true) effort_map.

Fixpoint first_control (effort_map : gmap string string) (controls : list (string * list Value))
    : option (string * gmap string Value) :=
  match controls with
  | [] => None
  | (profile_field, accepted_values) :: controls =>
      let filtered := accepted_efforts effort_map accepted_values in
      if bool_decide (filtered = ∅) then first_control effort_map controls else Some (profile_field, filtered)
  end.

Definition EffortControl : Type := option string * gmap string Value * CapabilitySource.

Definition resolve_effort_control (input : ResolutionInput) (preset : option ResolvedCapabilities) : EffortControl :=
  let control :=
    match rn_profile input, preset with
    | Some profile, _ =>
        match first_control (sp_effort_map (rn_semantic input)) (btree_entries (ud_reasoning_controls profile)) with
        | Some (field, filtered) => (Some field, filtered, FromProbe)
        | None => (None, ∅, FromBaseline)
        end
    | None, Some preset =>
        (rs_reasoning_control_field preset, rs_effort_map preset,
         if bool_decide (rs_effort_map preset = ∅) then FromBaseline else FromPolicy)
    | None, None => (None, ∅, FromBaseline)
    end in
  fold_left (fun control route_override =>
      match ro_reasoning_control_field route_override with
      | Some override_field => (Some override_field, ro_effort_map route_override, FromOverride)
      | None => control
      end)
    (rn_route_overrides input) control.

Definition stronger_evidence_source (current candidate : CapabilitySource) : CapabilitySource :=
  match current, candidate with
  | _, FromOverride => FromOverride
  | FromBaseline, FromProbe => FromProbe
  | _, _ => current
  end.

Definition source_for_option {A} (value : option A) : CapabilitySource :=
  if is_some value then FromPolicy else FromBaseline.

(** ** Extensions *)

Definition extension_applies (input : ResolutionInput) (extension : DeclarativeProbeCase) : bool :=
  bool_decide (dp_protocol extension = ri_protocol (rn_route input)) &&
  bool_decide (dp_prerequisites extension ⊆ rf_required (rn_requested input) ∪ rf_optional (rn_requested input)).

Definition extension_evidence (input : ResolutionInput) (id : string) : EvidenceState * CapabilitySource :=
  let evidence :=
    match (profile ← rn_profile input; ud_extension_evidence profile !! id) with
    | Some Unobserved | None => (Unobserved, FromBaseline)
    | Some profile_evidence => (profile_evidence, FromProbe)
    end in
  fold_left (fun evidence route_override =>
      match ro_extensions route_override !! id with
      | Some Unobserved | None => evidence
      | Some override_evidence => (override_evidence, FromOverride)
      end)
    (rn_route_overrides input) evidence.

Definition extensions_are_eligible (input : ResolutionInput) : bool :=
  match rn_strip_nonstandard_chat_fields input with
  | StripAlways => false
  | StripForward => true
  | StripAuto => is_some (rn_profile input)
  end.

Definition resolve_extension (input : ResolutionInput) (resolved : list ResolvedRequestExtension * CapabilitySource)
    (extension : DeclarativeProbeCase) : list ResolvedRequestExtension * CapabilitySource :=
  if negb (extension_applies input extension) then resolved
  else
    let '(evidence, evidence_source) := extension_evidence input (dp_id extension) in
    (resolved.1 ++
       (if bool_decide (evidence = Supported)
        then [{| rx_id := dp_id extension; rx_request_patch := dp_request_patch extension |}] else []),
     stronger_evidence_source resolved.2 evidence_source).

Definition resolve_extensions (input : ResolutionInput) (preset : option ResolvedCapabilities)
    : list ResolvedRequestExtension * CapabilitySource :=
  match preset with
  | Some preset => (rs_request_extensions preset, FromPolicy)
  | None =>
      if negb (extensions_are_eligible input) then ([], FromBaseline)
      else fold_left (resolve_extension input) (rn_policy_extensions input) ([], FromBaseline)
  end.

(** ** What the request requires *)

Definition required_capabilities (input : ResolutionInput) : gset Capability :=
  rf_required (rn_requested input)
  ∪ (if bool_decide (sp_reasoning_mode (rn_semantic input) = Some ReasoningFixedOn) then {[ ReasoningOutput ]} else ∅)
  ∪ (if bool_decide (sp_reasoning_replay_required (rn_semantic input) = Some true)
     then {[ ReasoningOutput; ReasoningReplay ]} else ∅).

Definition carries_reasoning (capability : Capability) : bool :=
  match capability with ReasoningOutput | ReasoningReplay => true | _ => false end.

Definition preserved (input : ResolutionInput) (values : gmap Capability ResolvedCapability)
    (reasoning_carrier : ReasoningCarrier) (capability : Capability) : bool :=
  map_or false (fun resolved => bool_decide (rv_state resolved = Supported)) (values !! capability) &&
  (negb (carries_reasoning capability) ||
   reasoning_carrier_matches_protocol reasoning_carrier (ri_protocol (rn_route input))).

Definition validate_required_capabilities (input : ResolutionInput) (values : gmap Capability ResolvedCapability)
    (reasoning_carrier : ReasoningCarrier) : result unit CapabilityResolutionError :=
  match find (fun capability => negb (preserved input values reasoning_carrier capability))
          (capabilities_in_order (required_capabilities input)) with
  | Some capability => Err {| cre_capability := capability |}
  | None => Ok tt
  end.

(** ** The resolution *)

(** A profile counts only for the route that it was made for. *)
Definition matching_profile (input : ResolutionInput) : option UpstreamDialectProfile :=
  opt_filter (fun profile => bool_decide (ud_key profile = from_route (rn_route input))) (rn_profile input).

Definition resolve (input : ResolutionInput) : result ResolvedCapabilities CapabilityResolutionError :=
  let profile := matching_profile input in
  let input := {| input with rn_profile := profile |} in
  let preset := rn_dialect_preset input ≫= compile_dialect_preset in
  let uses_preset := is_none profile && is_some preset in
  let values := resolve_values input preset in
  let '(reasoning_carrier, reasoning_carrier_source) :=
    resolve_reasoning_carrier input (matching_continuation_carrier input) preset in
  let? _ := validate_required_capabilities input values reasoning_carrier in
  let '(token_limit_field, token_limit_source) := resolve_token_limit_field input preset in
  let '(reasoning_control_field, effort_map, effort_source) := resolve_effort_control input preset in
  let '(request_extensions, request_extension_source) := resolve_extensions input preset in
  let semantic := rn_semantic input in
  let profile_state :=
    match profile with
    | Some profile => ud_state profile
    | None => if uses_preset then ProfilePartial else ProfileUnknown
    end in
  Ok
    {| rs_values := values;
       rs_token_limit_field := token_limit_field;
       rs_reasoning_mode := default ReasoningOff (sp_reasoning_mode semantic);
       rs_reasoning_carrier := reasoning_carrier;
       rs_correction_rules := resolve_correction_rules input;
       rs_reasoning_control_field := reasoning_control_field;
       rs_effort_map := effort_map;
       rs_omit_sampling_fields :=
         if uses_preset then map_or ∅ rs_omit_sampling_fields preset else sp_omit_sampling_fields semantic;
       rs_context_window := sp_context_window semantic;
       rs_max_output_tokens := sp_max_output_tokens semantic;
       rs_omit_optional_extensions :=
         if uses_preset then map_or false rs_omit_optional_extensions preset
         else match rn_strip_nonstandard_chat_fields input with
              | StripAlways => true
              | StripForward => false
              | StripAuto => bool_decide (profile_state = ProfileUnknown)
              end;
       rs_profile_state := profile_state;
       rs_provisional := bool_decide (profile_state = ProfileUnknown);
       rs_native_preferred :=
         match profile_state with
         | ProfileVerified => true
         | ProfileUnsupported => false
         | ProfilePartial | ProfileUnknown => bool_decide (ri_protocol (rn_route input) = ChatCompletions)
         end;
       rs_adapters := ∅;
       rs_request_extensions := request_extensions;
       rs_field_sources :=
         list_to_map
           [ ("token_limit_field", token_limit_source);
             ("reasoning_carrier", reasoning_carrier_source);
             ("reasoning_mode", source_for_option (sp_reasoning_mode semantic));
             ("context_window", source_for_option (sp_context_window semantic));
             ("max_output_tokens", source_for_option (sp_max_output_tokens semantic));
             ("omit_sampling_fields", policy_unless (bool_decide (sp_omit_sampling_fields semantic = ∅)));
             ("effort_map", effort_source);
             ("request_extensions", request_extension_source) ] |}.

(** ** Facts *)

(** Assignments to some of the keys of a list. *)
Lemma fold_assign {K V} `{Countable K} (step : gmap K V -> K -> gmap K V) (assigned : K -> option V) :
  (forall m k, step m k = match assigned k with Some v => <[k := v]> m | None => m end) ->
  forall l m k, fold_left step l m !! k = if bool_decide (k ∈ l) then or_else (assigned k) (m !! k) else m !! k.
Proof.
  intros Hstep l. induction l as [|key l IH]; intros m k; [done|]. simpl. rewrite IH, Hstep.
  destruct (decide (k = key)) as [->|Hk].
  - rewrite (bool_decide_true (key ∈ key :: l)) by left.
    case_bool_decide; destruct (assigned key); simpl; by simplify_map_eq.
  - assert (bool_decide (k ∈ key :: l) = bool_decide (k ∈ l)) as ->.
    { apply bool_decide_ext. rewrite elem_of_cons. naive_solver. }
    destruct (assigned key); [by rewrite lookup_insert_ne by done|done].
Qed.

Lemma every_capability capability : capability ∈ Capability_ALL.
Proof. destruct capability; unfold Capability_ALL; set_solver. Qed.

Lemma capabilities_in_order_elem s capability : capability ∈ capabilities_in_order s <-> capability ∈ s.
Proof. unfold capabilities_in_order. rewrite retain_elem, bool_decide_eq_true. pose proof (every_capability capability). tauto. Qed.

Lemma Capability_ALL_NoDup : NoDup Capability_ALL.
Proof. apply (bool_decide_unpack _). by vm_compute. Qed.

(** What one piece of evidence says of a capability. *)
Definition observed (source : CapabilitySource) (evidence : gmap Capability EvidenceState) (capability : Capability)
    : option ResolvedCapability :=
  match evidence !! capability with
  | Some Unobserved | None => None
  | Some state => Some {| rv_state := state; rv_source := source |}
  end.

Lemma observe_lookup source evidence values capability :
  observe source evidence values !! capability = or_else (observed source evidence capability) (values !! capability).
Proof.
  unfold observe. rewrite (fold_assign _ (observed source evidence)).
  - by rewrite bool_decide_true by apply every_capability.
  - intros m k. unfold observed. by destruct (evidence !! k) as [[]|].
Qed.

Definition preset_observed (preset : gmap Capability ResolvedCapability) (capability : Capability) : option ResolvedCapability :=
  opt_filter (fun resolved => negb (bool_decide (rv_state resolved = Unobserved))) (preset !! capability).

Lemma observe_preset_lookup preset values capability :
  observe_preset preset values !! capability = or_else (preset_observed preset capability) (values !! capability).
Proof.
  unfold observe_preset. rewrite (fold_assign _ (preset_observed preset)).
  - by rewrite bool_decide_true by apply every_capability.
  - intros m k. unfold preset_observed. destruct (preset !! k) as [resolved|]; simpl; [|done]. by case_bool_decide.
Qed.

Lemma baseline_lookup capability : baseline_capabilities !! capability = Some (baseline_capability capability).
Proof.
  unfold baseline_capabilities. apply elem_of_list_to_map_1.
  - rewrite <- list_fmap_compose. apply (NoDup_fmap_2 id), Capability_ALL_NoDup.
  - apply (list_elem_of_fmap_2 (fun capability => (capability, baseline_capability capability))), every_capability.
Qed.

Lemma continuation_values_lookup carrier values capability :
  continuation_values carrier values !! capability =
    if bool_decide (carrier = Some ReasoningContent) && carries_reasoning capability
    then Some {| rv_state := Supported; rv_source := FromBaseline |} else values !! capability.
Proof.
  unfold continuation_values. case_bool_decide; [|done].
  rewrite (fold_assign _ (fun _ => Some {| rv_state := Supported; rv_source := FromBaseline |})) by done.
  assert (bool_decide (capability ∈ [ReasoningOutput; ReasoningReplay]) = carries_reasoning capability) as -> by by destruct capability.
  done.
Qed.

(** The last of a list that says something; a loop that lets each element overwrite what was there ends with it. *)
Definition latest {A B} (says : A -> option B) (l : list A) : option B := head (omap says (reverse l)).

Lemma latest_cons {A B} (says : A -> option B) x l : latest says (x :: l) = or_else (latest says l) (says x).
Proof.
  unfold latest. rewrite reverse_cons, omap_app. destruct (omap says (reverse l)); [|done]. cbn. by destruct (says x).
Qed.

Lemma fold_latest {S A B} (step : S -> A -> S) (view : S -> option B) (says : A -> option B) :
  (forall s x, view (step s x) = or_else (says x) (view s)) ->
  forall l s, view (fold_left step l s) = or_else (latest says l) (view s).
Proof.
  intros Hstep l. induction l as [|x l IH]; intros s; [done|]. cbn [fold_left]. rewrite IH, Hstep, latest_cons.
  by destruct (latest says l).
Qed.

(** The overrides: the last one that observes a capability decides. *)
Definition override_observed (capability : Capability) (route_override : RouteCapabilityOverride) : option ResolvedCapability :=
  observed FromOverride (ro_capabilities route_override) capability.

Lemma overrides_lookup route_overrides values capability :
  fold_left (fun values route_override => observe FromOverride (ro_capabilities route_override) values) route_overrides values
    !! capability = or_else (latest (override_observed capability) route_overrides) (values !! capability).
Proof. apply (fold_latest _ (fun values => values !! capability)). intros s x. apply observe_lookup. Qed.

Lemma overridden_latest {A} (field : RouteCapabilityOverride -> option A) route_overrides value :
  overridden field route_overrides value =
    default value ((fun override_value => (override_value, FromOverride)) <$> latest field route_overrides).
Proof.
  set (says := fun route_override => (fun v => (v, FromOverride)) <$> field route_override).
  assert (Hl : latest says route_overrides = (fun v => (v, FromOverride)) <$> latest field route_overrides).
  { induction route_overrides as [|x l IH]; [done|]. rewrite !latest_cons, IH. by destruct (latest field l). }
  assert (H : Some (overridden field route_overrides value) = or_else (latest says route_overrides) (Some value)).
  { apply (fold_latest _ Some). intros s x. unfold says. by destruct (field x). }
  rewrite Hl in H. destruct (latest field route_overrides); simpl in H; by simplify_eq/=.
Qed.

(** ** What is known of a capability

    The answer of the strongest source that has one: the last override, the profile of the
    route (or the preset, where there is no profile), the continuation, the baseline. *)

Definition input_preset (input : ResolutionInput) : option ResolvedCapabilities :=
  rn_dialect_preset input ≫= compile_dialect_preset.

Definition probed (input : ResolutionInput) (capability : Capability) : option ResolvedCapability :=
  match matching_profile input with
  | Some profile => observed FromProbe (ud_capabilities profile) capability
  | None => preset ← input_preset input; preset_observed (rs_values preset) capability
  end.

Definition continued (input : ResolutionInput) (capability : Capability) : option ResolvedCapability :=
  if bool_decide (matching_continuation_carrier input = Some ReasoningContent) && carries_reasoning capability
  then Some {| rv_state := Supported; rv_source := FromBaseline |} else None.

Definition known (input : ResolutionInput) (capability : Capability) : ResolvedCapability :=
  default (baseline_capability capability)
    (or_else (latest (override_observed capability) (rn_route_overrides input))
       (or_else (probed input capability) (continued input capability))).

Definition known_carrier (input : ResolutionInput) : ReasoningCarrier :=
  default NoCarrier
    (or_else (latest ro_reasoning_carrier (rn_route_overrides input))
       (or_else (profile ← matching_profile input; ud_reasoning_carrier profile)
          (or_else (rs_reasoning_carrier <$> input_preset input) (matching_continuation_carrier input)))).

(** What the route cannot do for a request: it does not support the capability, or has no way to carry the reasoning. *)
Definition lacks (input : ResolutionInput) (capability : Capability) : bool :=
  negb (bool_decide (rv_state (known input capability) = Supported)) ||
  (carries_reasoning capability &&
   negb (reasoning_carrier_matches_protocol (known_carrier input) (ri_protocol (rn_route input)))).

Lemma resolve_values_known input capability :
  resolve_values {| input with rn_profile := matching_profile input |} (input_preset input) !! capability =
    Some (known input capability).
Proof.
  unfold resolve_values, known. cbn [rn_profile rn_route_overrides]. rewrite overrides_lookup.
  destruct (latest (override_observed capability) (rn_route_overrides input)) as [resolved|]; [done|]. cbn [or_else].
  unfold probed, continued. change (matching_continuation_carrier _) with (matching_continuation_carrier input).
  destruct (matching_profile input) as [profile|]; [|destruct (input_preset input) as [preset|]];
    rewrite ?observe_lookup, ?observe_preset_lookup, continuation_values_lookup, baseline_lookup; cbn [or_else mbind option_bind].
  - destruct (observed FromProbe (ud_capabilities profile) capability); [done|]. cbn [or_else]. by case_match.
  - destruct (preset_observed (rs_values preset) capability); [done|]. cbn [or_else]. by case_match.
  - by case_match.
Qed.

Lemma resolve_carrier_known input :
  (resolve_reasoning_carrier {| input with rn_profile := matching_profile input |} (matching_continuation_carrier input)
     (input_preset input)).1 = known_carrier input.
Proof.
  unfold resolve_reasoning_carrier, known_carrier. rewrite overridden_latest. cbn [rn_profile rn_route_overrides].
  destruct (latest ro_reasoning_carrier (rn_route_overrides input)); [done|]. cbn [or_else fmap option_fmap option_map default from_option].
  by destruct (profile ← matching_profile input; ud_reasoning_carrier profile), (input_preset input).
Qed.

Lemma find_head {A} (f : A -> bool) l : find f l = head (retain f l).
Proof. induction l as [|x l IH]; [done|]. rewrite retain_cons. simpl. by destruct (f x). Qed.

Lemma retain_ext {A} (f g : A -> bool) l : (forall x, f x = g x) -> retain f l = retain g l.
Proof. intros H. induction l as [|x l IH]; [done|]. by rewrite !retain_cons, H, IH. Qed.

Lemma validated input :
  let carrier := known_carrier input in
  validate_required_capabilities {| input with rn_profile := matching_profile input |}
    (resolve_values {| input with rn_profile := matching_profile input |} (input_preset input)) carrier =
  match head (retain (lacks input) (capabilities_in_order (required_capabilities input))) with
  | Some capability => Err {| cre_capability := capability |}
  | None => Ok tt
  end.
Proof.
  cbv zeta. unfold validate_required_capabilities. rewrite find_head.
  change (required_capabilities {| input with rn_profile := matching_profile input |}) with (required_capabilities input).
  rewrite (retain_ext _ (lacks input)); [done|]. intros capability. unfold preserved, lacks.
  rewrite resolve_values_known. cbn [map_or rn_route]. by rewrite negb_andb, negb_orb, negb_involutive.
Qed.

(** What [resolve] does, with the parts named. *)
Lemma resolve_cases input :
  let matched := {| input with rn_profile := matching_profile input |} in
  match resolve input with
  | Ok resolved =>
      rs_values resolved = resolve_values matched (input_preset input) /\
      rs_reasoning_carrier resolved = known_carrier input /\
      rs_token_limit_field resolved = (resolve_token_limit_field matched (input_preset input)).1 /\
      rs_request_extensions resolved = (resolve_extensions matched (input_preset input)).1 /\
      retain (lacks input) (capabilities_in_order (required_capabilities input)) = [] /\
      rs_reasoning_control_field resolved = (resolve_effort_control matched (input_preset input)).1.1
  | Err e => head (retain (lacks input) (capabilities_in_order (required_capabilities input))) = Some (cre_capability e)
  end.
Proof.
  pose proof (resolve_carrier_known input) as Hcarrier. pose proof (validated input) as Hvalid. cbv zeta in *.
  unfold resolve. cbv zeta. set (matched := {| input with rn_profile := matching_profile input |}) in *.
  change (rn_dialect_preset matched ≫= compile_dialect_preset) with (input_preset input).
  change (matching_continuation_carrier matched) with (matching_continuation_carrier input).
  destruct (resolve_reasoning_carrier _ _ _) as [carrier source]. cbn [fst] in Hcarrier. subst carrier. rewrite Hvalid.
  destruct (retain (lacks input) _) as [|capability l]; cbn [head]; [|done].
  destruct (resolve_token_limit_field _ _) as [field field_source].
  destruct (resolve_effort_control _ _) as [[control efforts] effort_source].
  by destruct (resolve_extensions _ _) as [extensions extension_source].
Qed.

(** The extensions of the policies that a resolution takes: those that apply and whose evidence says that they work. *)
Definition taken_extension (input : ResolutionInput) (extension : DeclarativeProbeCase) : bool :=
  extension_applies input extension && bool_decide ((extension_evidence input (dp_id extension)).1 = Supported).

Definition request_extension (extension : DeclarativeProbeCase) : ResolvedRequestExtension :=
  {| rx_id := dp_id extension; rx_request_patch := dp_request_patch extension |}.

Lemma resolve_extension_fold input extensions taken :
  (fold_left (resolve_extension input) extensions taken).1 = taken.1 ++ (request_extension <$> retain (taken_extension input) extensions).
Proof.
  revert taken. induction extensions as [|extension extensions IH]; intros taken; [by rewrite app_nil_r|].
  cbn [fold_left]. rewrite IH, retain_cons. unfold resolve_extension, taken_extension.
  destruct (extension_applies input extension); [|done]. cbn [negb andb].
  destruct (extension_evidence input (dp_id extension)) as [evidence source]. cbn [fst].
  case_bool_decide; [by rewrite <- app_assoc|by rewrite app_nil_r].
Qed.


(** A route is resolved only when it preserves everything that the request and the policies require, reasoning with a
    carrier of its protocol; otherwise the error names the first capability, in their order, that it lacks. *)
Theorem resolution_all_or_nothing (input : ResolutionInput) :
  match resolve input with
  | Ok resolved =>
      forall capability, capability ∈ required_capabilities input ->
        resolved_supports resolved capability = true /\
        (carries_reasoning capability = true ->
         reasoning_carrier_matches_protocol (rs_reasoning_carrier resolved) (ri_protocol (rn_route input)) = true)
  | Err e => head (retain (lacks input) (capabilities_in_order (required_capabilities input))) = Some (cre_capability e)
  end.
Proof.
  pose proof (resolve_cases input) as H. destruct (resolve input) as [resolved|e] eqn:Hok; [|done].
  destruct H as (Hvalues & Hcarrier & _ & _ & Hnone & _). intros capability Hrequired.
  assert (Hlacks : lacks input capability = false).
  { apply not_true_is_false. intros Hlacks. apply capabilities_in_order_elem in Hrequired.
    assert (capability ∈ retain (lacks input) (capabilities_in_order (required_capabilities input))) as Hin by by apply retain_elem.
    rewrite Hnone in Hin. by apply elem_of_nil in Hin. }
  apply orb_false_iff in Hlacks as [Hstate Hreasoning]. unfold resolved_supports, resolved_state.
  rewrite Hvalues, resolve_values_known, Hcarrier. cbn [map_or]. split; [by apply negb_false_iff|].
  intros Hcarries. rewrite Hcarries in Hreasoning. by apply negb_false_iff.
Qed.

Lemma compiled_preset name preset :
  compile_dialect_preset name = Some preset -> rs_request_extensions preset = [] /\ rs_token_limit_field preset = MaxTokens.
Proof. unfold compile_dialect_preset. intros (p & _ & [= <-])%bind_Some. done. Qed.

(** A preset is meant to apply only where no probe has left a profile. But it also decides what the profile leaves open,
    and with a preset no extension of the policies is ever used, whatever the probe has found of it. *)
Theorem preset_overrules_probe (input : ResolutionInput) (preset resolved : ResolvedCapabilities)
    (profile : UpstreamDialectProfile) :
  input_preset input = Some preset -> matching_profile input = Some profile ->
  rn_route_overrides input = [] -> resolve input = Ok resolved ->
  rs_request_extensions resolved = [] /\
  (ud_token_limit_field profile = None -> rs_token_limit_field resolved = MaxTokens) /\
  (ud_reasoning_carrier profile = None -> rs_reasoning_carrier resolved = rs_reasoning_carrier preset).
Proof.
  intros Hpreset Hprofile Hoverrides Hok. pose proof (resolve_cases input) as H. rewrite Hok in H.
  destruct H as (_ & Hcarrier & Hlimit & Hextensions & _).
  assert (exists name, compile_dialect_preset name = Some preset) as [name Hname].
  { unfold input_preset in Hpreset. destruct (rn_dialect_preset input) as [name|]; [by exists name|done]. }
  apply compiled_preset in Hname as [Hnone Hmax]. split_and!.
  - by rewrite Hextensions, Hpreset.
  - intros Hopen. rewrite Hlimit. unfold resolve_token_limit_field. cbn [rn_profile rn_route_overrides].
    by rewrite Hprofile, Hpreset, Hoverrides; cbn; rewrite Hopen.
  - intros Hopen. rewrite Hcarrier. unfold known_carrier. by rewrite Hprofile, Hpreset, Hoverrides; cbn; rewrite Hopen.
Qed.

(** ** A route, resolved *)

Definition sample_route : RouteIdentity :=
  {| ri_upstream_id := "relay"; ri_key_fingerprint := "k1"; ri_exposed_model_slug := "glm-5"; ri_runtime_model_slug := "glm-5";
     ri_protocol := ChatCompletions; ri_tags := ∅ |}.

Definition sample_profile : UpstreamDialectProfile :=
  let unknown := UpstreamDialectProfile_unknown (from_route sample_route) in
  {| unknown with
     ud_state := ProfileVerified;
     ud_capabilities := {[ ParallelToolCalls := Rejected; ReasoningOutput := Supported; FunctionTools := Unobserved ]};
     ud_extension_evidence := {[ "cache-hint" := Supported ]} |}.

Definition sample_extension : DeclarativeProbeCase :=
  {| dp_id := "cache-hint"; dp_protocol := ChatCompletions; dp_prerequisites := {[ FunctionTools ]};
     dp_request_patch := json_object [("cache", JBool true)];
     dp_response_predicate := {| rp_path := "/cached"; rp_operator := PredExists; rp_value := None |} |}.

Definition sample_override : RouteCapabilityOverride :=
  {| ro_id := "operator"; ro_priority := 0; ro_selector := CapabilitySelector_default;
     ro_capabilities := {[ ParallelToolCalls := Supported ]}; ro_token_limit_field := None;
     ro_reasoning_carrier := Some ReasoningContent; ro_reasoning_control_field := None; ro_effort_map := ∅;
     ro_correction_rules := []; ro_extensions := ∅ |}.

Definition sample_requested : RequestedFeatures :=
  {| RequestedFeatures_default with rf_required := {[ FunctionTools; ParallelToolCalls; ReasoningOutput ]} |}.

Definition sample_input : ResolutionInput :=
  let baseline := ResolutionInput_baseline sample_route sample_requested in
  {| baseline with
     rn_profile := Some sample_profile; rn_route_overrides := [sample_override];
     rn_policy_extensions := [sample_extension] |}.

(** The same route with a preset and without the override. *)
Definition preset_input : ResolutionInput :=
  {| sample_input with rn_requested := RequestedFeatures_default; rn_route_overrides := [];
     rn_dialect_preset := Some "glm" |}.


Lemma preset_overrules_probe_witness :
  exists preset resolved, input_preset preset_input = Some preset /\ resolve preset_input = Ok resolved /\
    rs_request_extensions resolved = [] /\ rs_token_limit_field resolved = MaxTokens /\
    rs_reasoning_carrier resolved = rs_reasoning_carrier preset.
Proof.
  destruct (input_preset preset_input) as [preset|] eqn:Hpreset; [|by vm_compute in Hpreset].
  destruct (resolve preset_input) as [resolved|e] eqn:Hok; [|by vm_compute in Hok].
  exists preset, resolved. split; [done|]. split; [done|].
  destruct (preset_overrules_probe preset_input preset resolved sample_profile Hpreset eq_refl eq_refl Hok) as (He & Hl & Hc).
  split; [done|]. split; [by apply Hl|by apply Hc].
Defined.
