(* ===== verification/CapabilityProfile.v ===== *)
(** * Dialect profiles

    What probes leave behind of a route: [src/src/capabilities/profile.rs], the part of
    [run_probe_job] of [src/src/server/gateway/capability_probe.rs] that turns the outcome
    of a probe into a profile, what successful requests teach
    ([learn_stream_only_route], [learn_dialect_field_rejected] of [src/src/state.rs]), and
    when a profile is out of date.

    URLs belong to the [url] crate: its operations are the class [UrlOps]. The digest and
    the JSON of a fingerprint are parameters. *)

From S2P Require Import Prelude RouteTypes ProbeQueue RuntimeHints ModelIdentity UpstreamConfig Json ImageAdapter CapabilityTypes CapabilityResolver.

Local Open Scope Z_scope.

(** ** Fingerprints *)

Class UrlOps (Url : Type) := {
  url_parse : string -> result Url string;
  url_set_username : Url -> string -> Url;
  url_set_password : Url -> option string -> Url;
  url_set_query : Url -> option string -> Url;
  url_set_fragment : Url -> option string -> Url;
  url_set_path : Url -> string -> Url;
  url_path : Url -> string;
  url_to_string : Url -> string;
  url_scheme : Url -> string;
  url_host_str : Url -> option string;
  url_username : Url -> string;
  url_password : Url -> option string;
  url_query_pairs : Url -> list (string * string)
}.

Definition slash : Ascii.ascii := Ascii.ascii_of_N 47.

Fixpoint drop_slashes (l : list Ascii.ascii) : list Ascii.ascii :=
  match l with
  | c :: rest => if bool_decide (c = slash) then drop_slashes rest else l
  | [] => []
  end.

(** [trim_end_matches('/')] and [trim_matches('/')]. *)
Definition trim_end_slashes (s : string) : string := text (reverse (drop_slashes (reverse (bytes s)))).
Definition trim_slashes (s : string) : string := trim_end_slashes (text (drop_slashes (bytes s))).

Definition normalize_route_base_url {Url} `{!UrlOps Url} (value : string) : result string string :=
  let? url := url_parse (trim value) in
  let url := url_set_username url "" in
  let url := url_set_password url None in
  let url := url_set_query url None in
  let url := url_set_fragment url None in
  let normalized_path := String slash (trim_slashes (url_path url)) in
  let url := url_set_path url (trim_end_slashes normalized_path) in
  Ok (trim_end_slashes (url_to_string url)).

Record RouteFingerprintInput := {
  fi_normalized_base_url : string;
  fi_enabled_protocols : list WireProtocol;
  fi_runtime_model_slug : string;
  fi_route_override_digest : string;
  fi_probe_schema_version : Z
}.

Definition wire_protocol_rank (protocol : WireProtocol) : Z :=
  match protocol with ChatCompletions => 0 | Responses => 1 | Messages => 2 end.

(** [Vec::dedup]: neighbours that are equal become one. *)
Fixpoint dedup_neighbours (l : list WireProtocol) : list WireProtocol :=
  match l with
  | x :: ((y :: _) as rest) => if bool_decide (x = y) then dedup_neighbours rest else x :: dedup_neighbours rest
  | _ => l
  end.

Definition canonical_fingerprint_input (input : RouteFingerprintInput) : RouteFingerprintInput :=
  {| input with
     fi_enabled_protocols :=
       dedup_neighbours (sort_by (fun a b => wire_protocol_rank a <=? wire_protocol_rank b) (fi_enabled_protocols input)) |}.

Definition route_fingerprint (to_vec : RouteFingerprintInput -> string) (sha256_hex : string -> string)
    (input : RouteFingerprintInput) : string :=
  sha256_hex (to_vec (canonical_fingerprint_input input)).

(** ** Outcomes of a probe *)

Definition OPERATIONAL_RETRY_DELAYS_SECONDS : list Z := [5; 15; 60; 300; 900].

Definition next_operational_retry (attempted_at failures : Z) : Z :=
  let index := Z.min (sat_sub failures 1) (Z.of_nat (length OPERATIONAL_RETRY_DELAYS_SECONDS) - 1) in
  sat_add u64_max attempted_at (default 0 (OPERATIONAL_RETRY_DELAYS_SECONDS !! Z.to_nat index)).

Record ConclusiveProbe := {
  co_capabilities : gmap Capability EvidenceState;
  co_token_limit_field : option TokenLimitField;
  co_reasoning_carrier : option ReasoningCarrier;
  co_reasoning_controls : gmap string (list Value);
  co_correction_rules : list DialectCorrectionRule;
  co_extension_evidence : gmap string EvidenceState;
  co_evidence_codes : gset string;
  co_event_types : gset string;
  co_http_status : Z;
  co_attempted_at : Z
}.

Inductive ProbeOutcome :=
| Conclusive (probe : ConclusiveProbe)
| OperationalFailure (failure_code : string) (http_status : option Z) (attempted_at : Z).

Definition outcome_capability (self : ProbeOutcome) (capability : Capability) : EvidenceState :=
  match self with
  | Conclusive probe => default Unobserved (co_capabilities probe !! capability)
  | OperationalFailure _ _ _ => Unobserved
  end.

Definition outcome_evidence_codes (self : ProbeOutcome) : gset string :=
  match self with
  | Conclusive probe => co_evidence_codes probe
  | OperationalFailure failure_code _ _ => {[ failure_code ]}
  end.

Definition count_evidence (capabilities : gmap Capability EvidenceState) (state : EvidenceState) : nat :=
  size (filter (fun entry : Capability * EvidenceState => entry.2 = state) capabilities).

Definition profile_state_of (capabilities : gmap Capability EvidenceState) : DialectProfileState :=
  let supported := count_evidence capabilities Supported in
  let rejected := count_evidence capabilities Rejected in
  if Nat.eqb supported 0 && Nat.ltb 0 rejected then ProfileUnsupported
  else if Nat.eqb rejected 0 then ProfileVerified
  else ProfilePartial.

Definition apply_probe_outcome (profile : UpstreamDialectProfile) (outcome : ProbeOutcome) : UpstreamDialectProfile :=
  match outcome with
  | OperationalFailure failure_code http_status attempted_at =>
      let probe_retry_count := sat_add u32_max (ud_probe_retry_count profile) 1 in
      {| profile with
         ud_last_attempt_at := Some attempted_at;
         ud_http_status := http_status;
         ud_last_operational_failure := Some failure_code;
         ud_last_probe_outcome := Some OutcomeOperationalFailure;
         ud_probe_retry_count := probe_retry_count;
         ud_next_probe_at := Some (next_operational_retry attempted_at probe_retry_count) |}
  | Conclusive probe =>
      let state := profile_state_of (co_capabilities probe) in
      {| ud_key := ud_key profile;
         ud_configuration_fingerprint := ud_configuration_fingerprint profile;
         ud_probe_schema_version := ud_probe_schema_version profile;
         ud_state := state;
         ud_capabilities := co_capabilities probe;
         ud_token_limit_field := co_token_limit_field probe;
         ud_reasoning_carrier := co_reasoning_carrier probe;
         ud_correction_rules := co_correction_rules probe;
         ud_reasoning_controls := co_reasoning_controls probe;
         ud_extension_evidence := co_extension_evidence probe;
         ud_last_attempt_at := Some (co_attempted_at probe);
         ud_last_success_at := Some (co_attempted_at probe);
         ud_last_operational_failure := None;
         ud_last_probe_outcome :=
           Some (if bool_decide (state = ProfileUnsupported) then OutcomeRejected else OutcomeAccepted);
         ud_probe_retry_count := 0;
         ud_next_probe_at := None;
         ud_evidence_codes := co_evidence_codes probe;
         ud_http_status := Some (co_http_status probe);
         ud_event_types := co_event_types probe |}
  end.

(** The values that a field accepts: those that are new come after the others. *)
Definition merge_values (slot values : list Value) : list Value :=
  fold_left (fun slot value => if contains_value slot value then slot else slot ++ [value]) values slot.

Definition merge_controls (controls : gmap string (list Value)) (probed : gmap string (list Value)) : gmap string (list Value) :=
  fold_left (fun controls entry => <[entry.1 := merge_values (default [] (controls !! entry.1)) entry.2]> controls)
    (btree_entries probed) controls.

Definition observed_evidence (evidence : gmap Capability EvidenceState) : gmap Capability EvidenceState :=
  filter (fun entry : Capability * EvidenceState => entry.2 <> Unobserved) evidence.

Definition apply_probe_outcome_partial (profile : UpstreamDialectProfile) (outcome : ProbeOutcome) : UpstreamDialectProfile :=
  match outcome with
  | OperationalFailure _ _ _ => profile
  | Conclusive probe =>
      let capabilities := observed_evidence (co_capabilities probe) ∪ ud_capabilities profile in
      {| ud_key := ud_key profile;
         ud_configuration_fingerprint := ud_configuration_fingerprint profile;
         ud_probe_schema_version := ud_probe_schema_version profile;
         ud_state := profile_state_of capabilities;
         ud_capabilities := capabilities;
         ud_token_limit_field := or_else (ud_token_limit_field profile) (co_token_limit_field probe);
         ud_reasoning_carrier := or_else (ud_reasoning_carrier profile) (co_reasoning_carrier probe);
         ud_correction_rules :=
           if is_empty (co_correction_rules probe) then ud_correction_rules profile else co_correction_rules probe;
         ud_reasoning_controls := merge_controls (ud_reasoning_controls profile) (co_reasoning_controls probe);
         ud_extension_evidence :=
           if bool_decide (co_extension_evidence probe = ∅) then ud_extension_evidence profile else co_extension_evidence probe;
         ud_last_attempt_at := Some (co_attempted_at probe);
         ud_last_success_at := ud_last_success_at profile;
         ud_last_operational_failure := ud_last_operational_failure profile;
         ud_last_probe_outcome := Some OutcomeDeferred;
         ud_probe_retry_count := ud_probe_retry_count profile;
         ud_next_probe_at := Some (sat_add u64_max (co_attempted_at probe) 1);
         ud_evidence_codes := ud_evidence_codes profile ∪ co_evidence_codes probe;
         ud_http_status :=
           if is_none (ud_last_operational_failure profile) then Some (co_http_status probe) else ud_http_status profile;
         ud_event_types := ud_event_types profile ∪ co_event_types probe |}
  end.

Definition profile_is_current (profile : UpstreamDialectProfile) (fingerprint : string) (now refresh_interval_seconds : Z) : bool :=
  String.eqb (ud_configuration_fingerprint profile) fingerprint &&
  (ud_probe_schema_version profile =? DIALECT_PROBE_SCHEMA_VERSION) &&
  map_or false (fun last_success => sat_sub now last_success <? refresh_interval_seconds) (ud_last_success_at profile).

Definition capability_profile_is_current_or_retry_pending (profile : UpstreamDialectProfile) (fingerprint : string)
    (now refresh_interval_seconds : Z) : bool :=
  match ud_next_probe_at profile with
  | Some next_probe_at =>
      String.eqb (ud_configuration_fingerprint profile) fingerprint &&
      (ud_probe_schema_version profile =? DIALECT_PROBE_SCHEMA_VERSION) && (now <? next_probe_at)
  | None => profile_is_current profile fingerprint now refresh_interval_seconds
  end.

(** ** From the outcome of a probe to the profile of the route *)

Inductive ProbePlanCompleteness := PlanFull | PlanCapacitySkipped.

(** The middle of [run_probe_job]: the stored profile, bound to the configuration of the job. The second part is what the
    probe was conclusive about. *)
Definition probed_profile (stored : option UpstreamDialectProfile) (job : ProbeJob) (completeness : ProbePlanCompleteness)
    (outcome : ProbeOutcome) : UpstreamDialectProfile * option (gset Capability) :=
  let profile := default (UpstreamDialectProfile_unknown (pj_key job)) stored in
  let profile :=
    {| profile with
       ud_configuration_fingerprint := pb_configuration_fingerprint (pj_configuration job);
       ud_probe_schema_version := pb_probe_schema_version (pj_configuration job) |} in
  match outcome with
  | OperationalFailure _ _ _ => (apply_probe_outcome profile outcome, None)
  | Conclusive probe =>
      (match completeness, pj_mode job with
       | PlanFull, Full => apply_probe_outcome profile outcome
       | _, _ => apply_probe_outcome_partial profile outcome
       end, Some (dom (co_capabilities probe)))
  end.

(** ** What requests teach *)

(** The profile that a lesson is written into: the stored one, if it is bound to the configuration, or a new one. *)
Definition profile_to_teach (stored : option UpstreamDialectProfile) (key : DialectProfileKey)
    (configuration_fingerprint : string) : option UpstreamDialectProfile :=
  match stored with
  | Some current_profile =>
      if negb (bool_decide (ud_key current_profile = key)) ||
         negb (String.eqb (ud_configuration_fingerprint current_profile) configuration_fingerprint) ||
         negb (ud_probe_schema_version current_profile =? DIALECT_PROBE_SCHEMA_VERSION)
      then None else Some current_profile
  | None =>
      let profile := UpstreamDialectProfile_unknown key in
      Some {| profile with ud_configuration_fingerprint := configuration_fingerprint |}
  end.

Definition learn (profile : UpstreamDialectProfile) (lessons : list (Capability * EvidenceState)) : UpstreamDialectProfile :=
  {| profile with
     ud_capabilities := fold_left (fun capabilities lesson => <[lesson.1 := lesson.2]> capabilities) lessons (ud_capabilities profile) |}.

(** The end of [learn_stream_only_route] and of [learn_dialect_field_rejected]. *)
Definition learned_stream_only (stored : option UpstreamDialectProfile) (key : DialectProfileKey)
    (configuration_fingerprint : string) : option UpstreamDialectProfile :=
  profile ← profile_to_teach stored key configuration_fingerprint;
  Some (learn profile [(NonStreamingResponse, Rejected); (TextStream, Supported)]).

Definition learned_field_rejected (stored : option UpstreamDialectProfile) (key : DialectProfileKey)
    (configuration_fingerprint : string) (capability : Capability) : option UpstreamDialectProfile :=
  profile ← profile_to_teach stored key configuration_fingerprint;
  Some (learn profile [(capability, Rejected)]).

(** ** Facts *)

Lemma number_eqb_refl n : number_eqb n n = true.
Proof. destruct n; simpl; by rewrite Z.eqb_refl. Qed.

Lemma value_eqb_refl value : value_eqb value value = true.
Proof.
  induction value as [| |n|s|values IH|fields IH] using Value_nested_ind; cbn [value_eqb].
  - done.
  - apply Bool.eqb_reflx.
  - apply number_eqb_refl.
  - apply String.eqb_refl.
  - induction IH as [|v l Hv _ IHl]; [done|]. by rewrite Hv.
  - induction IH as [|[k v] l Hv _ IHl]; [done|]. cbn in Hv. by rewrite String.eqb_refl, Hv.
Qed.

Lemma merge_values_keeps slot values value : value ∈ slot -> value ∈ merge_values slot values.
Proof.
  unfold merge_values. revert slot. induction values as [|v values IH]; intros slot Hin; [done|]. cbn [fold_left].
  apply IH. case_match; [done|]. apply elem_of_app. by left.
Qed.

Lemma merge_values_adds slot values value :
  value ∈ values -> exists accepted, accepted ∈ merge_values slot values /\ value_eqb accepted value = true.
Proof.
  revert slot. induction values as [|v values IH]; intros slot Hin; [by apply elem_of_nil in Hin|].
  apply elem_of_cons in Hin as [->|Hin]; [|by apply IH].
  assert (exists accepted, accepted ∈ (if contains_value slot v then slot else slot ++ [v]) /\ value_eqb accepted v = true)
    as (accepted & Ha & Heq).
  { destruct (contains_value slot v) eqn:Hc.
    - unfold contains_value in Hc. apply existsb_exists in Hc as (accepted & Ha & Heq). exists accepted.
      split; [by apply list_elem_of_In|done].
    - exists v. split; [apply elem_of_app; right; by left|apply value_eqb_refl]. }
  exists accepted. split; [|done]. unfold merge_values. cbn [fold_left]. by apply (merge_values_keeps _ values).
Qed.

Lemma merge_controls_lookup controls probed field :
  merge_controls controls probed !! field =
    match probed !! field with
    | Some values => Some (merge_values (default [] (controls !! field)) values)
    | None => controls !! field
    end.
Proof.
  unfold merge_controls.
  assert (H : forall l (controls : gmap string (list Value)), NoDup (l.*1) ->
    fold_left (fun controls entry => <[entry.1 := merge_values (default [] (controls !! entry.1)) entry.2]> controls) l controls
      !! field =
    match (list_to_map l : gmap string (list Value)) !! field with
    | Some values => Some (merge_values (default [] (controls !! field)) values)
    | None => controls !! field
    end).
  { clear controls. induction l as [|[key values] l IH]; intros controls Hd; [done|]. csimpl in Hd.
    apply NoDup_cons in Hd as [Hkey Hd]. cbn [fold_left fst snd list_to_map foldr]. rewrite IH by done.
    destruct (decide (key = field)) as [->|Hne].
    - rewrite lookup_insert_eq. apply not_elem_of_list_to_map_1 in Hkey. rewrite Hkey. by rewrite lookup_insert_eq.
    - by rewrite !lookup_insert_ne by done. }
  rewrite H by apply btree_entries_NoDup. by rewrite btree_entries_map.
Qed.

Lemma observed_evidence_lookup evidence capability :
  observed_evidence evidence !! capability =
    opt_filter (fun state => negb (bool_decide (state = Unobserved))) (evidence !! capability).
Proof.
  unfold observed_evidence. destruct (evidence !! capability) as [state|] eqn:He.
  - destruct (decide (state = Unobserved)) as [->|Hn]; simpl.
    + apply map_lookup_filter_None. right. intros s Hs Hn. rewrite He in Hs. by simplify_eq.
    + rewrite (proj2 (bool_decide_eq_false _)) by done. by apply map_lookup_filter_Some.
  - apply map_lookup_filter_None. by left.
Qed.

(** The delays between failed probes: at least five seconds, at most fifteen minutes, never shorter than before. *)
Definition retry_delay (failures : Z) : Z :=
  default 0 (OPERATIONAL_RETRY_DELAYS_SECONDS !! Z.to_nat (Z.min (sat_sub failures 1) 4)).

Lemma retry_delay_range failures : 5 <= retry_delay failures <= 900.
Proof.
  unfold retry_delay, sat_sub. assert (H : (Z.to_nat (Z.min (Z.max 0 (failures - 1)) 4) <= 4)%nat) by lia.
  destruct (Z.to_nat _) as [|[|[|[|[|n]]]]]; cbn; lia.
Qed.

Lemma retry_delay_grows failures : retry_delay failures <= retry_delay (failures + 1).
Proof.
  unfold retry_delay, sat_sub. assert (H : (Z.to_nat (Z.min (Z.max 0 (failures - 1)) 4) <= 4)%nat) by lia.
  replace (Z.to_nat (Z.min (Z.max 0 (failures + 1 - 1)) 4)) with
    (if decide (1 <= failures <= 4) then S (Z.to_nat (Z.min (Z.max 0 (failures - 1)) 4))
     else Z.to_nat (Z.min (Z.max 0 (failures - 1)) 4)) by (case_decide; lia).
  case_decide; [|lia]. assert (H' : (Z.to_nat (Z.min (Z.max 0 (failures - 1)) 4) <= 3)%nat) by lia.
  destruct (Z.to_nat _) as [|[|[|[|n]]]]; cbn; lia.
Qed.

Lemma next_retry attempted_at failures :
  next_operational_retry attempted_at failures = sat_add u64_max attempted_at (retry_delay failures).
Proof. done. Qed.

(** ** Histories of a profile *)

Inductive ProfileEvent :=
| EvProbe (job : ProbeJob) (completeness : ProbePlanCompleteness) (outcome : ProbeOutcome)
| EvStreamOnly (configuration_fingerprint : string)
| EvFieldRejected (configuration_fingerprint : string) (capability : Capability).

(** One event: the profile that is stored afterwards. A lesson that does not fit the stored profile is dropped. *)
Definition profile_after (key : DialectProfileKey) (stored : option UpstreamDialectProfile) (event : ProfileEvent)
    : option UpstreamDialectProfile :=
  match event with
  | EvProbe job completeness outcome => Some (probed_profile stored job completeness outcome).1
  | EvStreamOnly fingerprint => or_else (learned_stream_only stored key fingerprint) stored
  | EvFieldRejected fingerprint capability => or_else (learned_field_rejected stored key fingerprint capability) stored
  end.

Definition profile_history (key : DialectProfileKey) (events : list ProfileEvent) : option UpstreamDialectProfile :=
  fold_left (profile_after key) events None.

(** Events of the profile of [key], at times that fit in 64 bits. *)
Definition event_about (key : DialectProfileKey) (event : ProfileEvent) : Prop :=
  match event with
  | EvProbe job _ outcome =>
      pj_key job = key /\
      match outcome with
      | Conclusive probe => 0 <= co_attempted_at probe < u64_max - 900
      | OperationalFailure _ _ attempted_at => 0 <= attempted_at < u64_max - 900
      end
  | _ => True
  end.

Definition conclusive_event (event : ProfileEvent) : bool :=
  match event with EvProbe _ _ (Conclusive _) => true | _ => false end.

Record profile_ok (key : DialectProfileKey) (concluded : bool) (profile : UpstreamDialectProfile) : Prop := {
  po_key : ud_key profile = key;
  po_state : ud_state profile = ProfileUnknown <-> concluded = false;
  po_count : 0 <= ud_probe_retry_count profile <= u32_max;
  po_failed : ud_last_operational_failure profile = None -> ud_probe_retry_count profile = 0;
  po_next : forall next, ud_next_probe_at profile = Some next ->
    exists attempted, ud_last_attempt_at profile = Some attempted /\ attempted < next <= attempted + 900;
  po_outcome : ud_last_attempt_at profile = None <-> ud_last_probe_outcome profile = None;
  po_success : is_Some (ud_last_success_at profile) -> concluded = true
}.

Lemma state_of_known capabilities : profile_state_of capabilities <> ProfileUnknown.
Proof. unfold profile_state_of. by repeat case_match. Qed.

Lemma unknown_ok key : profile_ok key false (UpstreamDialectProfile_unknown key).
Proof. split; simpl; done. Qed.

(** What does not touch the marks of probes. *)
Lemma rebound_ok key concluded profile fingerprint version :
  profile_ok key concluded profile ->
  profile_ok key concluded
    {| profile with ud_configuration_fingerprint := fingerprint; ud_probe_schema_version := version |}.
Proof. intros []. by split. Qed.

Lemma learn_ok key concluded profile lessons : profile_ok key concluded profile -> profile_ok key concluded (learn profile lessons).
Proof. intros []. by split. Qed.

Lemma failure_ok key concluded profile failure_code http_status attempted_at :
  0 <= attempted_at < u64_max - 900 -> profile_ok key concluded profile ->
  profile_ok key concluded (apply_probe_outcome profile (OperationalFailure failure_code http_status attempted_at)).
Proof.
  intros Htime []. split; cbn; try done.
  - unfold sat_add, u32_max in *. lia.
  - intros next [= <-]. exists attempted_at. split; [done|]. rewrite next_retry.
    generalize (sat_add u32_max (ud_probe_retry_count profile) 1). intros failures.
    pose proof (retry_delay_range failures). unfold sat_add. lia.
Qed.

Lemma conclusive_ok key concluded profile probe :
  profile_ok key concluded profile -> profile_ok key true (apply_probe_outcome profile (Conclusive probe)).
Proof.
  intros []. split; cbn; try done.
  split; [intros H; by apply state_of_known in H|done].
Qed.

Lemma partial_ok key concluded profile probe :
  0 <= co_attempted_at probe < u64_max - 900 -> profile_ok key concluded profile ->
  profile_ok key true (apply_probe_outcome_partial profile (Conclusive probe)).
Proof.
  intros Htime []. split; cbn; try done.
  - split; [intros H; by apply state_of_known in H|done].
  - intros next [= <-]. eexists. split; [done|]. unfold sat_add. lia.
Qed.

Definition stored_ok (key : DialectProfileKey) (concluded : bool) (stored : option UpstreamDialectProfile) : Prop :=
  match stored with Some profile => profile_ok key concluded profile | None => concluded = false end.

Lemma probed_ok key concluded stored job completeness outcome :
  event_about key (EvProbe job completeness outcome) -> stored_ok key concluded stored ->
  profile_ok key (concluded || conclusive_event (EvProbe job completeness outcome))
    (probed_profile stored job completeness outcome).1.
Proof.
  intros [Hkey Htime] Hstored. unfold probed_profile.
  assert (Hbase : profile_ok key concluded (default (UpstreamDialectProfile_unknown (pj_key job)) stored)).
  { destruct stored as [profile|]; [done|]. simpl in Hstored |- *. subst. apply unknown_ok. }
  revert Hbase. generalize (default (UpstreamDialectProfile_unknown (pj_key job)) stored). intros profile Hbase.
  apply (rebound_ok _ _ _ (pb_configuration_fingerprint (pj_configuration job)) (pb_probe_schema_version (pj_configuration job)))
    in Hbase.
  destruct outcome as [probe|failure_code http_status attempted_at]; cbn [fst conclusive_event].
  - rewrite orb_true_r. destruct completeness, (pj_mode job); try (by eapply partial_ok). by eapply conclusive_ok.
  - rewrite orb_false_r. by apply failure_ok.
Qed.

Lemma taught_ok key concluded stored fingerprint lessons :
  stored_ok key concluded stored ->
  stored_ok key concluded
    (or_else (profile ← profile_to_teach stored key fingerprint; Some (learn profile lessons)) stored).
Proof.
  intros Hstored. unfold profile_to_teach. destruct stored as [profile|].
  - case_match; [done|]. by apply learn_ok.
  - simpl in *. subst. apply learn_ok, (rebound_ok _ _ (UpstreamDialectProfile_unknown key) fingerprint DIALECT_PROBE_SCHEMA_VERSION), unknown_ok.
Qed.

(** Every profile is well formed, whatever probes and requests have taught: it belongs to its route, it is unknown exactly
    until a probe has concluded, a success has concluded, the retries are counted within 32 bits and only while the last
    probe has failed, and the next probe is due after the last attempt and at most fifteen minutes later. *)
Theorem profile_well_formed (key : DialectProfileKey) (events : list ProfileEvent) :
  Forall (event_about key) events ->
  stored_ok key (existsb conclusive_event events) (profile_history key events).
Proof.
  intros Hevents. unfold profile_history.
  assert (H : forall concluded stored, stored_ok key concluded stored ->
    stored_ok key (concluded || existsb conclusive_event events) (fold_left (profile_after key) events stored)).
  { induction Hevents as [|event events Hevent _ IH]; intros concluded stored Hstored; simpl; [by rewrite orb_false_r|].
    rewrite orb_assoc. apply IH. destruct event as [job completeness outcome|fingerprint|fingerprint capability].
    - by apply probed_ok.
    - rewrite orb_false_r. by apply taught_ok.
    - rewrite orb_false_r. by apply taught_ok. }
  by apply (H false None).
Qed.

(** A probe that could not run all its cases adds to what was known: a capability that it did not observe, a value that a
    field accepted, a carrier and a field for the limit stay as they were, and what it did observe is taken over. *)
Theorem partial_probe_keeps_evidence (profile : UpstreamDialectProfile) (probe : ConclusiveProbe) :
  let merged := apply_probe_outcome_partial profile (Conclusive probe) in
  (forall capability, ud_capabilities merged !! capability =
     match outcome_capability (Conclusive probe) capability with
     | Unobserved => ud_capabilities profile !! capability
     | state => Some state
     end) /\
  (forall field value, value ∈ default [] (ud_reasoning_controls profile !! field) ->
     value ∈ default [] (ud_reasoning_controls merged !! field)) /\
  (forall field value, value ∈ default [] (co_reasoning_controls probe !! field) ->
     contains_value (default [] (ud_reasoning_controls merged !! field)) value = true) /\
  (is_Some (ud_reasoning_carrier profile) -> ud_reasoning_carrier merged = ud_reasoning_carrier profile) /\
  (is_Some (ud_token_limit_field profile) -> ud_token_limit_field merged = ud_token_limit_field profile) /\
  ud_evidence_codes profile ⊆ ud_evidence_codes merged /\
  ud_last_success_at merged = ud_last_success_at profile.
Proof.
  cbn. split_and!.
  - intros capability. destruct (co_capabilities probe !! capability) as [state|] eqn:Hc; simpl.
    + pose proof (observed_evidence_lookup (co_capabilities probe) capability) as H. rewrite Hc in H.
      destruct state; simpl in H; [by rewrite (lookup_union_Some_l _ _ _ _ H)..|by rewrite lookup_union_r].
    + rewrite lookup_union_r; [done|]. by rewrite observed_evidence_lookup, Hc.
  - intros field value Hin. rewrite merge_controls_lookup. destruct (co_reasoning_controls probe !! field); [|done].
    by apply merge_values_keeps.
  - intros field value Hin. rewrite merge_controls_lookup. destruct (co_reasoning_controls probe !! field) as [values|]; simpl in *.
    + destruct (merge_values_adds (default [] (ud_reasoning_controls profile !! field)) values value Hin) as (accepted & Ha & Heq).
      apply existsb_exists. exists accepted. split; [by apply list_elem_of_In|done].
    + by apply elem_of_nil in Hin.
  - by intros [carrier ->].
  - by intros [field ->].
  - set_solver.
  - done.
Qed.

(** The profile that a probe leaves when it has failed. *)
Definition after_failure (stored : option UpstreamDialectProfile) (job : ProbeJob) (failure_code : string)
    (http_status : option Z) (attempted_at : Z) : UpstreamDialectProfile :=
  (probed_profile stored job PlanFull (OperationalFailure failure_code http_status attempted_at)).1.

(** A probe that fails binds the evidence of the old configuration to the new one: the profile then counts as current for a
    configuration under which the upstream was never probed. *)
Theorem failed_probe_rebinds_evidence (stored : UpstreamDialectProfile) (job : ProbeJob) (failure_code : string)
    (http_status : option Z) (attempted_at last_success now refresh_interval_seconds : Z) :
  pb_probe_schema_version (pj_configuration job) = DIALECT_PROBE_SCHEMA_VERSION ->
  ud_last_success_at stored = Some last_success -> sat_sub now last_success < refresh_interval_seconds ->
  let profile := after_failure (Some stored) job failure_code http_status attempted_at in
  profile_is_current profile (pb_configuration_fingerprint (pj_configuration job)) now refresh_interval_seconds = true /\
  ud_capabilities profile = ud_capabilities stored /\ ud_state profile = ud_state stored.
Proof.
  intros Hversion Hsuccess Hrecent. unfold profile_is_current. cbn.
  rewrite String.eqb_refl, Hversion, Hsuccess. cbn. split; [by apply Z.ltb_lt|done].
Qed.

(** A preset stands in for a route that has not been probed. The first probe that fails leaves a profile that knows
    nothing, but hides the preset: what the preset supports is back at the baseline, and requests that need it are refused. *)
Theorem failed_probe_hides_preset (input : ResolutionInput) (preset : ResolvedCapabilities) (capability : Capability)
    (resolved : ResolvedCapability) (job : ProbeJob) (failure_code : string) (http_status : option Z) (attempted_at : Z) :
  input_preset input = Some preset -> preset_observed (rs_values preset) capability = Some resolved ->
  rn_route_overrides input = [] -> rf_continuation_profile (rn_requested input) = None ->
  pj_key job = from_route (rn_route input) ->
  let unprobed := {| input with rn_profile := None |} in
  let failed := {| input with rn_profile := Some (after_failure None job failure_code http_status attempted_at) |} in
  known unprobed capability = resolved /\
  known failed capability = baseline_capability capability /\
  (capability ∈ required_capabilities input -> baseline_supports capability = false -> is_ok (resolve failed) = false).
Proof.
  intros Hpreset Hresolved Hoverrides Hcontinuation Hkey unprobed failed.
  assert (Hmatching : matching_profile failed = Some (after_failure None job failure_code http_status attempted_at)).
  { unfold matching_profile, failed. cbn. by rewrite Hkey, bool_decide_true. }
  assert (Hfailed : known failed capability = baseline_capability capability).
  { unfold known, probed, continued. rewrite Hmatching. unfold failed, matching_continuation_carrier. cbn.
    by rewrite Hoverrides, Hcontinuation, (bool_decide_false (None = Some _)) by done. }
  split_and!; [|done|].
  - unfold known, probed. change (matching_profile unprobed) with (@None UpstreamDialectProfile).
    change (rn_route_overrides unprobed) with (rn_route_overrides input). change (input_preset unprobed) with (input_preset input).
    rewrite Hoverrides, Hpreset. cbn. by rewrite Hresolved.
  - intros Hrequired Hbaseline. pose proof (resolve_cases failed) as H. cbv zeta in H.
    destruct (resolve failed) as [r|e]; [|done]. destruct H as (_ & _ & _ & _ & Hnone & _). exfalso.
    assert (Hin : capability ∈ retain (lacks failed) (capabilities_in_order (required_capabilities failed))).
    { apply retain_elem. split; [|by apply capabilities_in_order_elem]. unfold lacks, baseline_capability in *.
      by rewrite Hfailed, Hbaseline. }
    rewrite Hnone in Hin. by apply elem_of_nil in Hin.
Qed.

(** ** Witnesses *)

Definition sample_binding : ProbeConfigurationBinding :=
  {| pb_configuration_fingerprint := "new"; pb_configuration_digest := "d"; pb_configuration_schema_version := 1;
     pb_configuration_revision := 2; pb_probe_schema_version := DIALECT_PROBE_SCHEMA_VERSION |}.

Definition sample_job : ProbeJob :=
  {| pj_key := from_route sample_route; pj_exposed_model_slugs := {[ "glm-5" ]}; pj_reason := ConfigurationChanged;
     pj_mode := Full; pj_configuration := sample_binding; pj_plan_configuration_digest := "p" |}.

Definition sample_probe : ConclusiveProbe :=
  {| co_capabilities := {[ FunctionTools := Supported; ParallelToolCalls := Rejected ]}; co_token_limit_field := Some MaxTokens;
     co_reasoning_carrier := None; co_reasoning_controls := {[ "thinking" := [JString "on"] ]}; co_correction_rules := [];
     co_extension_evidence := ∅; co_evidence_codes := ∅; co_event_types := ∅; co_http_status := 200; co_attempted_at := 1000 |}.

Lemma profile_well_formed_witness :
  stored_ok (from_route sample_route) true
    (profile_history (from_route sample_route)
       [EvProbe sample_job PlanFull (OperationalFailure "timeout" None 100); EvStreamOnly "new";
        EvProbe sample_job PlanCapacitySkipped (Conclusive sample_probe);
        EvProbe sample_job PlanFull (Conclusive sample_probe)]).
Proof.
  apply (profile_well_formed (from_route sample_route)
    [EvProbe sample_job PlanFull (OperationalFailure "timeout" None 100); EvStreamOnly "new";
     EvProbe sample_job PlanCapacitySkipped (Conclusive sample_probe);
     EvProbe sample_job PlanFull (Conclusive sample_probe)]).
  repeat constructor; cbn; unfold u64_max; lia.
Defined.

Lemma failed_probe_rebinds_evidence_witness :
  let stored := apply_probe_outcome (UpstreamDialectProfile_unknown (from_route sample_route)) (Conclusive sample_probe) in
  let profile := after_failure (Some stored) sample_job "timeout" None 1200 in
  ud_configuration_fingerprint stored <> "new" /\
  profile_is_current profile "new" 1300 604800 = true /\ ud_state profile = ProfilePartial.
Proof.
  intros stored profile. split; [done|].
  destruct (failed_probe_rebinds_evidence stored sample_job "timeout" None 1200 1000 1300 604800 eq_refl eq_refl eq_refl)
    as (Hcurrent & _ & Hstate).
  split; [exact Hcurrent|]. unfold profile. rewrite Hstate. by vm_compute.
Defined.

(** A request that needs reasoning goes to a route with the preset for GLM, until a probe of the route fails. *)
Definition reasoning_input : ResolutionInput :=
  {| preset_input with rn_requested := {| RequestedFeatures_default with rf_required := {[ ReasoningOutput ]} |} |}.

Lemma failed_probe_hides_preset_witness :
  let unprobed := {| reasoning_input with rn_profile := None |} in
  let failed := {| reasoning_input with rn_profile := Some (after_failure None sample_job "timeout" None 1200) |} in
  is_ok (resolve unprobed) = true /\ is_ok (resolve failed) = false.
Proof.
  intros unprobed failed. split; [by vm_compute|].
  destruct (input_preset reasoning_input) as [preset|] eqn:Hpreset; [|by vm_compute in Hpreset].
  assert (Hobserved : preset_observed (rs_values preset) ReasoningOutput = Some supported_by_policy).
  { vm_compute in Hpreset. simplify_eq. by vm_compute. }
  destruct (failed_probe_hides_preset reasoning_input preset ReasoningOutput supported_by_policy sample_job "timeout" None 1200
    Hpreset Hobserved eq_refl eq_refl eq_refl) as (_ & _ & Hrefused).
  apply Hrefused; [|done]. by apply (bool_decide_unpack _); vm_compute.
Defined.
