(* ===== verification/CapabilityPolicy.v ===== *)
(** * Capability configuration

    [src/src/capabilities/policy.rs]: the configuration that the operator writes is checked
    and compiled, so that policies and overrides are found by route, the strongest last; and
    [src/src/capabilities/bootstrap.rs]: built-in policies are added to a stored
    configuration.

    The glob patterns of [globset] are the class [GlobOps], URLs are [UrlOps]. What
    [serde_json::to_writer] writes for a value is a parameter: the buffers, one after the
    other, and the error that ends them, if there is one. *)

From stdpp Require Import pretty.
From S2P Require Import Prelude RouteTypes ProbeQueue RuntimeHints ModelIdentity UpstreamConfig Json ChatCanonicalizer ImageAdapter CapabilityTypes CapabilityResolver CapabilityProfile.

Local Open Scope Z_scope.

Definition MAX_CAPABILITY_COLLECTION_ENTRIES : Z := 1024.
Definition MAX_CAPABILITY_CONFIGURATION_BYTES : Z := 1048576.
Definition MAX_CAPABILITY_EXTENSION_CASE_BYTES : Z := 16384.
Definition MAX_CAPABILITY_EXTENSION_PROBES : Z := 1024.
Definition MAX_CAPABILITY_SELECTOR_VALUE_BYTES : Z := 1024.
Definition MAX_PREDICATE_PATH_BYTES : Z := 256.

(** The fields of a request that an extension may not touch. *)
Definition protected_request_fields : list string :=
  ["model"; "messages"; "input"; "tools"; "stream"; "headers"; "url"; "image_url"; "source"; "data"].

Definition PROTECTED_REQUEST_PATHS : list string := (fun field => "/" +:+ field) <$> protected_request_fields.

Class GlobOps (Glob : Type) := {
  glob_new : string -> result Glob string;
  glob_is_match : Glob -> string -> bool
}.

(** ** Data *)

Inductive CapabilityPolicyError :=
| UnsupportedSchemaVersion (found expected : Z)
| EmptyCapabilityId
| DuplicateCapabilityId (id : string)
| UnknownCompatibilityBundle (expectation bundle : string)
| InvalidSelectorGlob (id pattern reason : string)
| AmbiguousSemanticField (field first second : string)
| AmbiguousOverrideField (field first second : string)
| InvalidReasoningOverride (id reason : string)
| ProtectedRequestPath (id path : string)
| InvalidHttpsFixture (id : string)
| SensitiveUrl
| InvalidBoundedResponsePredicatePath (id path : string)
| ExtensionCaseTooLarge (id : string) (size : Z)
| RouteTagAssignmentSelectsByTag (id : string)
| RouteTagAssignmentHasEmptyTags (id : string)
| CapabilityConfigurationTooLarge (maximum : Z)
| TooManyEntries (field : string) (count maximum : Z)
| SelectorValueTooLong (id field : string) (length maximum : Z)
| SerializationError (error : string).

(** What a serializer writes. *)
Definition Writes : Type := list string * option string.

Record BoundedWriter := {
  bw_bytes_written : Z;
  bw_maximum : Z;
  bw_exceeded : bool
}.

(** [BoundedWriter::write]: [false] is the error. *)
Definition bounded_write (self : BoundedWriter) (buffer : string) : BoundedWriter * bool :=
  if sat_sub (bw_maximum self) (bw_bytes_written self) <? str_len buffer then ({| self with bw_exceeded := true |}, false)
  else ({| self with bw_bytes_written := bw_bytes_written self + str_len buffer |}, true).

(** [to_writer] stops at the first error of the writer. *)
Fixpoint write_all (self : BoundedWriter) (buffers : list string) : BoundedWriter :=
  match buffers with
  | [] => self
  | buffer :: buffers =>
      let '(self, written) := bounded_write self buffer in
      if written then write_all self buffers else self
  end.

Definition bounded_serialized_size (writes : Writes) (maximum : Z) : result (option Z) CapabilityPolicyError :=
  let writer := write_all {| bw_bytes_written := 0; bw_maximum := maximum; bw_exceeded := false |} writes.1 in
  if bw_exceeded writer then Ok None
  else match writes.2 with
       | Some error => Err (SerializationError error)
       | None => Ok (Some (bw_bytes_written writer))
       end.

(** A loop whose body can return an error. *)
Fixpoint try_each {A E} (f : A -> result unit E) (l : list A) : result unit E :=
  match l with
  | [] => Ok tt
  | x :: l => let? _ := f x in try_each f l
  end.

Definition err_if {E} (condition : bool) (error : E) : result unit E := if condition then Err error else Ok tt.

Section Policy.
  Context {Url Glob : Type} `{!UrlOps Url} `{!GlobOps Glob}.
  Context (write_configuration : CapabilityConfiguration -> Writes) (write_case : DeclarativeProbeCase -> Writes).
  Context (sha256_hex : string -> string).

(** ** Selectors *)

Record CompiledSelector := {
  sel_source : CapabilitySelector;
  sel_runtime_model_glob : option Glob;
  sel_specificity : Z
}.

(** Two for every exact field, one for a pattern. *)
Definition selector_specificity (selector : CapabilitySelector) : Z :=
  let exact_fields :=
    Z.of_nat (length (retain (fun present : bool => present)
      [ is_some (cs_exposed_model selector); is_some (cs_runtime_model selector); is_some (cs_upstream_id selector);
        is_some (cs_key_fingerprint selector); is_some (cs_protocol selector); is_some (cs_tag selector) ])) in
  exact_fields * 2 + (if is_some (cs_runtime_model_glob selector) then 1 else 0).

Definition compile_selector (id : string) (selector : CapabilitySelector) : result CompiledSelector CapabilityPolicyError :=
  let? runtime_model_glob :=
    match cs_runtime_model_glob selector with
    | Some pattern =>
        match glob_new pattern with
        | Ok glob => Ok (Some glob)
        | Err reason => Err (InvalidSelectorGlob id pattern reason)
        end
    | None => Ok None
    end in
  Ok {| sel_source := selector; sel_runtime_model_glob := runtime_model_glob;
        sel_specificity := selector_specificity selector |}.

Definition optional_matches (expected : option string) (actual : string) : bool := is_none_or (String.eqb actual) expected.

Definition selector_matches (self : CompiledSelector) (route : RouteIdentity) : bool :=
  let source := sel_source self in
  optional_matches (cs_exposed_model source) (ri_exposed_model_slug route) &&
  optional_matches (cs_runtime_model source) (ri_runtime_model_slug route) &&
  optional_matches (cs_upstream_id source) (ri_upstream_id route) &&
  optional_matches (cs_key_fingerprint source) (ri_key_fingerprint route) &&
  is_none_or (fun protocol => bool_decide (protocol = ri_protocol route)) (cs_protocol source) &&
  is_none_or (fun tag => bool_decide (tag ∈ ri_tags route)) (cs_tag source) &&
  is_none_or (fun glob => glob_is_match glob (ri_runtime_model_slug route)) (sel_runtime_model_glob self).

Definition is_satisfiable (self : CompiledSelector) : bool :=
  match cs_runtime_model (sel_source self), sel_runtime_model_glob self with
  | Some runtime_model, Some glob => glob_is_match glob runtime_model
  | _, _ => true
  end.

Definition exact_values_differ {A} `{!EqDecision A} (left right : option A) : bool :=
  match left, right with Some x, Some y => negb (bool_decide (x = y)) | _, _ => false end.

(** The model that one selector names, against the pattern of the other. *)
Definition glob_excludes (left right : CompiledSelector) : bool :=
  match cs_runtime_model (sel_source left), sel_runtime_model_glob right with
  | Some runtime_model, Some glob => negb (glob_is_match glob runtime_model)
  | _, _ => false
  end.

Definition selectors_overlap (left right : CompiledSelector) : bool :=
  let l := sel_source left in
  let r := sel_source right in
  is_satisfiable left && is_satisfiable right &&
  negb (exact_values_differ (cs_exposed_model l) (cs_exposed_model r) ||
        exact_values_differ (cs_runtime_model l) (cs_runtime_model r) ||
        exact_values_differ (cs_upstream_id l) (cs_upstream_id r) ||
        exact_values_differ (cs_key_fingerprint l) (cs_key_fingerprint r) ||
        exact_values_differ (cs_protocol l) (cs_protocol r)) &&
  negb (glob_excludes left right) && negb (glob_excludes right left).

(** ** Compiled configurations *)

Record CompiledPolicy := { pol_source_index : nat; pol_selector : CompiledSelector }.
Record CompiledOverride := { ovr_source_index : nat; ovr_selector : CompiledSelector }.
Record CompiledRouteTagAssignment := { tag_source_index : nat; tag_selector : CompiledSelector }.

Record CompiledExpectation := {
  cex_id : string;
  cex_required : gset Capability;
  cex_client_profiles : gset AgentClientProfile;
  cex_permitted_optional_downgrades : gset string;
  cex_https_image_fixture : option HttpsImageFixture;
  cex_selector : CapabilitySelector;
  cex_compiled_selector : CompiledSelector
}.

Record CompiledCapabilityConfiguration := {
  com_source : CapabilityConfiguration;
  com_digest : string;
  com_policies : list CompiledPolicy;
  com_route_overrides : list CompiledOverride;
  com_ordered_route_overrides : list RouteCapabilityOverride;
  com_route_tags : list CompiledRouteTagAssignment;
  com_expectations : list CompiledExpectation
}.

(** [self.policies[i]] and the like: the indices of a compiled configuration are in range. *)
Definition policy_at (configuration : CapabilityConfiguration) (i : nat) : CapabilityPolicy :=
  default
    {| cp_id := ""; cp_priority := 0; cp_selector := CapabilitySelector_default; cp_semantic := SemanticPolicy_default;
       cp_evidence := []; cp_probe_candidates := ProbeCandidates_default; cp_extension_probes := [] |}
    (cfg_policies configuration !! i).

Definition override_at (configuration : CapabilityConfiguration) (i : nat) : RouteCapabilityOverride :=
  default
    {| ro_id := ""; ro_priority := 0; ro_selector := CapabilitySelector_default; ro_capabilities := ∅;
       ro_token_limit_field := None; ro_reasoning_carrier := None; ro_reasoning_control_field := None; ro_effort_map := ∅;
       ro_correction_rules := []; ro_extensions := ∅ |}
    (cfg_route_overrides configuration !! i).

Definition route_tags_at (configuration : CapabilityConfiguration) (i : nat) : gset string :=
  default ∅ (rta_tags <$> cfg_route_tags configuration !! i).

(** ** Validation *)

Definition validate_entry_count (field : string) (count maximum : Z) : result unit CapabilityPolicyError :=
  err_if (maximum <? count) (TooManyEntries field count maximum).

Definition validate_selector_value_length (id field value : string) : result unit CapabilityPolicyError :=
  err_if (MAX_CAPABILITY_SELECTOR_VALUE_BYTES <? str_len value)
    (SelectorValueTooLong id field (str_len value) MAX_CAPABILITY_SELECTOR_VALUE_BYTES).

Definition validate_selector_value_lengths (id : string) (selector : CapabilitySelector) : result unit CapabilityPolicyError :=
  try_each (fun '(field, value) =>
      match value with Some value => validate_selector_value_length id field value | None => Ok tt end)
    [ ("selector.exposed_model", cs_exposed_model selector); ("selector.runtime_model", cs_runtime_model selector);
      ("selector.runtime_model_glob", cs_runtime_model_glob selector); ("selector.upstream_id", cs_upstream_id selector);
      ("selector.key_fingerprint", cs_key_fingerprint selector); ("selector.tag", cs_tag selector) ].

(** The probes of the policies are counted one policy after the other. *)
Fixpoint validate_probe_count (count : Z) (policies : list CapabilityPolicy) : result unit CapabilityPolicyError :=
  match policies with
  | [] => Ok tt
  | policy :: policies =>
      let count := sat_add usize_max count (Z.of_nat (length (cp_extension_probes policy))) in
      if MAX_CAPABILITY_EXTENSION_PROBES <? count
      then Err (TooManyEntries "extension_probes" count MAX_CAPABILITY_EXTENSION_PROBES)
      else validate_probe_count count policies
  end.

(** A [BTreeSet] of texts yields them in their order. *)
Definition texts_in_order (s : gset string) : list string := sort_by String.leb (elements s).

Definition length_of {A} (l : list A) : Z := Z.of_nat (length l).

Definition validate_resource_bounds (configuration : CapabilityConfiguration) : result unit CapabilityPolicyError :=
  let? _ := try_each (fun '(field, count) => validate_entry_count field count MAX_CAPABILITY_COLLECTION_ENTRIES)
    [ ("policies", length_of (cfg_policies configuration)); ("route_overrides", length_of (cfg_route_overrides configuration));
      ("route_tags", length_of (cfg_route_tags configuration)); ("bundles", length_of (cfg_bundles configuration));
      ("compatibility_expectations", length_of (cfg_compatibility_expectations configuration)) ] in
  let? _ := validate_probe_count 0 (cfg_policies configuration) in
  let? _ := try_each (fun policy => validate_selector_value_lengths (cp_id policy) (cp_selector policy))
    (cfg_policies configuration) in
  let? _ := try_each (fun route_override => validate_selector_value_lengths (ro_id route_override) (ro_selector route_override))
    (cfg_route_overrides configuration) in
  let? _ := try_each (fun assignment =>
      let? _ := validate_selector_value_lengths (rta_id assignment) (rta_selector assignment) in
      try_each (validate_selector_value_length (rta_id assignment) "route_tags.tags") (texts_in_order (rta_tags assignment)))
    (cfg_route_tags configuration) in
  let? _ := try_each (fun expectation => validate_selector_value_lengths (ce_id expectation) (ce_selector expectation))
    (cfg_compatibility_expectations configuration) in
  let? size := bounded_serialized_size (write_configuration configuration) MAX_CAPABILITY_CONFIGURATION_BYTES in
  err_if (is_none size) (CapabilityConfigurationTooLarge MAX_CAPABILITY_CONFIGURATION_BYTES).

Definition extension_probes (configuration : CapabilityConfiguration) : list DeclarativeProbeCase :=
  concat (cp_extension_probes <$> cfg_policies configuration).

(** Every identifier of the configuration, in the order in which they are checked. *)
Definition configured_ids (configuration : CapabilityConfiguration) : list string :=
  (cp_id <$> cfg_policies configuration) ++ (ro_id <$> cfg_route_overrides configuration) ++
  (rta_id <$> cfg_route_tags configuration) ++ (cb_id <$> cfg_bundles configuration) ++
  (ce_id <$> cfg_compatibility_expectations configuration) ++ (dp_id <$> extension_probes configuration).

Fixpoint check_ids (seen : gset string) (ids : list string) : result unit CapabilityPolicyError :=
  match ids with
  | [] => Ok tt
  | id :: ids =>
      if str_is_empty (trim id) then Err EmptyCapabilityId
      else if bool_decide (id ∈ seen) then Err (DuplicateCapabilityId id)
      else check_ids ({[ id ]} ∪ seen) ids
  end.

Definition validate_ids (configuration : CapabilityConfiguration) : result unit CapabilityPolicyError :=
  check_ids ∅ (configured_ids configuration).

(** *** URLs *)

Definition is_alphanumeric (c : Ascii.ascii) : bool :=
  let n := Ascii.N_of_ascii c in
  ((48 <=? n) && (n <=? 57) || (65 <=? n) && (n <=? 90) || (97 <=? n) && (n <=? 122))%N.

(** [str::contains]. *)
Fixpoint contains_bytes (pattern l : list Ascii.ascii) : bool :=
  is_some (strip_prefix pattern l) || match l with [] => false | _ :: l => contains_bytes pattern l end.

Definition text_contains (s pattern : string) : bool := contains_bytes (bytes pattern) (bytes s).

Definition sensitive_terms : list string :=
  ["token"; "key"; "secret"; "signature"; "sig"; "credential"; "password"; "passwd"; "auth"].

Definition is_sensitive_url_query_key (key : string) : bool :=
  let normalized := text (lower_byte <$> retain is_alphanumeric (bytes key)) in
  existsb (text_contains normalized) sensitive_terms.

Definition is_sensitive_url (value : string) : bool :=
  match url_parse value with
  | Err _ => false
  | Ok url =>
      negb (str_is_empty (url_username url)) || is_some (url_password url) ||
      existsb (fun pair => is_sensitive_url_query_key pair.1) (url_query_pairs url)
  end.

Definition validate_public_url (value : string) : result unit CapabilityPolicyError :=
  err_if (is_sensitive_url value) SensitiveUrl.

Definition validate_fixture (id : string) (fixture : HttpsImageFixture) : result unit CapabilityPolicyError :=
  let valid_url :=
    match url_parse (hf_url fixture) with
    | Ok url => String.eqb (url_scheme url) "https" && is_some (url_host_str url)
    | Err _ => false
    end in
  let? _ := err_if (negb valid_url || str_is_empty (trim (hf_expected_label fixture))) (InvalidHttpsFixture id) in
  validate_public_url (hf_url fixture).

Definition validate_fixtures (configuration : CapabilityConfiguration) : result unit CapabilityPolicyError :=
  let? _ :=
    match prc_https_image_fixture (cfg_probe configuration) with
    | Some fixture => validate_fixture "probe" fixture
    | None => Ok tt
    end in
  let? _ := try_each (fun expectation =>
      match ce_https_image_fixture expectation with
      | Some fixture => validate_fixture (ce_id expectation) fixture
      | None => Ok tt
      end) (cfg_compatibility_expectations configuration) in
  try_each (fun evidence => validate_public_url (er_url evidence)) (concat (cp_evidence <$> cfg_policies configuration)).

(** *** Extensions *)

(** [~] and [/] in a segment of a JSON pointer. *)
Definition escape_byte (c : Ascii.ascii) : list Ascii.ascii :=
  let n := Ascii.N_of_ascii c in
  if N.eqb n 126 then code [126; 48] else if N.eqb n 47 then code [126; 49] else [c].

Definition escape_json_pointer_segment (segment : string) : string := text (concat (escape_byte <$> bytes segment)).

Definition is_protected_request_path (path : string) : bool :=
  existsb (fun protected =>
      String.eqb path protected ||
      match text_strip_prefix protected path with
      | Some suffix => text_starts_with "/" suffix
      | None => false
      end)
    PROTECTED_REQUEST_PATHS.

Fixpoint validate_request_patch (case : DeclarativeProbeCase) (value : Value) (parent_path : string)
    : result unit CapabilityPolicyError :=
  match value with
  | JObject object =>
      (fix go (object : json_map) : result unit CapabilityPolicyError :=
         match object with
         | [] => Ok tt
         | (key, value) :: object =>
             let path := parent_path +:+ "/" +:+ escape_json_pointer_segment key in
             if is_protected_request_path path then Err (ProtectedRequestPath (dp_id case) path)
             else let? _ := validate_request_patch case value path in go object
         end) object
  | JArray array =>
      (fix go (index : N) (array : list Value) : result unit CapabilityPolicyError :=
         match array with
         | [] => Ok tt
         | value :: array =>
             let path := parent_path +:+ "/" +:+ pretty index in
             if is_protected_request_path path then Err (ProtectedRequestPath (dp_id case) path)
             else let? _ := validate_request_patch case value path in go (index + 1)%N array
         end) 0%N array
  | JString value => validate_public_url value
  | _ => Ok tt
  end.

Definition validate_extension (case : DeclarativeProbeCase) : result unit CapabilityPolicyError :=
  let? size := bounded_serialized_size (write_case case) MAX_CAPABILITY_EXTENSION_CASE_BYTES in
  let? _ := err_if (is_none size) (ExtensionCaseTooLarge (dp_id case) (MAX_CAPABILITY_EXTENSION_CASE_BYTES + 1)) in
  let predicate_path := rp_path (dp_response_predicate case) in
  let? _ := err_if (negb (text_starts_with "/" predicate_path) || (MAX_PREDICATE_PATH_BYTES <? str_len predicate_path))
    (InvalidBoundedResponsePredicatePath (dp_id case) predicate_path) in
  validate_request_patch case (dp_request_patch case) "".

Definition validate_extensions (configuration : CapabilityConfiguration) : result unit CapabilityPolicyError :=
  try_each validate_extension (extension_probes configuration).

(** *** Tags and overrides *)

Definition validate_route_tags (configuration : CapabilityConfiguration) : result unit CapabilityPolicyError :=
  try_each (fun assignment =>
      let? _ := err_if (is_some (cs_tag (rta_selector assignment))) (RouteTagAssignmentSelectsByTag (rta_id assignment)) in
      err_if (bool_decide (rta_tags assignment = ∅) || existsb (fun tag => str_is_empty (trim tag)) (elements (rta_tags assignment)))
        (RouteTagAssignmentHasEmptyTags (rta_id assignment)))
    (cfg_route_tags configuration).

Definition validate_reasoning_overrides (configuration : CapabilityConfiguration) : result unit CapabilityPolicyError :=
  try_each (fun route_override =>
      match ro_reasoning_control_field route_override, bool_decide (ro_effort_map route_override = ∅) with
      | Some _, true =>
          Err (InvalidReasoningOverride (ro_id route_override) "reasoning_control_field requires a non-empty effort_map")
      | None, false =>
          Err (InvalidReasoningOverride (ro_id route_override) "effort_map requires reasoning_control_field")
      | _, _ => Ok tt
      end)
    (cfg_route_overrides configuration).

(** ** Expectations *)

(** The bundles by their identifiers: a later one replaces an earlier one. *)
Definition bundle_map (configuration : CapabilityConfiguration) : gmap string (gset Capability) :=
  fold_left (fun bundles bundle => <[cb_id bundle := cb_required bundle]> bundles) (cfg_bundles configuration) ∅.

Definition compile_expectation (bundles : gmap string (gset Capability)) (expectation : CompatibilityExpectation)
    : result CompiledExpectation CapabilityPolicyError :=
  let? required := collect (fun bundle_id =>
      ok_or (bundles !! bundle_id) (UnknownCompatibilityBundle (ce_id expectation) bundle_id))
    (texts_in_order (ce_bundles expectation)) in
  let? selector := compile_selector (ce_id expectation) (ce_selector expectation) in
  Ok {| cex_id := ce_id expectation; cex_required := ⋃ required; cex_client_profiles := ce_client_profiles expectation;
        cex_permitted_optional_downgrades := ce_permitted_optional_downgrades expectation;
        cex_https_image_fixture := ce_https_image_fixture expectation; cex_selector := ce_selector expectation;
        cex_compiled_selector := selector |}.

Definition compile_expectations (configuration : CapabilityConfiguration)
    : result (list CompiledExpectation) CapabilityPolicyError :=
  collect (compile_expectation (bundle_map configuration)) (cfg_compatibility_expectations configuration).

(** ** Ranks and conflicts *)

Definition policy_rank (configuration : CapabilityConfiguration) (policy : CompiledPolicy) : Z * Z :=
  (cp_priority (policy_at configuration (pol_source_index policy)), sel_specificity (pol_selector policy)).

Definition override_rank (configuration : CapabilityConfiguration) (route_override : CompiledOverride) : Z * Z :=
  (ro_priority (override_at configuration (ovr_source_index route_override)), sel_specificity (ovr_selector route_override)).

(** The order in which matching entries apply: by rank, then by identifier. *)
Definition ranked_leb (left right : Z * Z * string) : bool :=
  let '(priority, specificity, id) := left in
  let '(priority', specificity', id') := right in
  (priority <? priority') ||
  (priority =? priority') && ((specificity <? specificity') || (specificity =? specificity') && String.leb id id').

Definition find_map {A B} (f : A -> option B) (l : list A) : option B := head (omap f l).

Definition conflicting_semantic_field (left right : CapabilityPolicy) : option string :=
  let l := cp_semantic left in
  let r := cp_semantic right in
  if exact_values_differ (sp_context_window l) (sp_context_window r) then Some "context_window"
  else if exact_values_differ (sp_max_output_tokens l) (sp_max_output_tokens r) then Some "max_output_tokens"
  else if exact_values_differ (sp_reasoning_mode l) (sp_reasoning_mode r) then Some "reasoning_mode"
  else if exact_values_differ (sp_reasoning_replay_required l) (sp_reasoning_replay_required r)
    then Some "reasoning_replay_required"
  else find_map (fun '(key, left_value) =>
      match sp_effort_map r !! key with
      | Some right_value => if String.eqb right_value left_value then None else Some ("effort_map." +:+ key)
      | None => None
      end) (btree_entries (sp_effort_map l)).

(** [{capability:?}]. *)
Definition capability_name (capability : Capability) : string :=
  match capability with
  | TextInput => "TextInput" | NonStreamingResponse => "NonStreamingResponse" | ImageHttps => "ImageHttps"
  | ImageDataUrl => "ImageDataUrl" | ImageDetail => "ImageDetail" | NativeFileId => "NativeFileId"
  | FunctionTools => "FunctionTools" | NamespaceTools => "NamespaceTools" | CustomTools => "CustomTools"
  | HostedTools => "HostedTools" | ParallelToolCalls => "ParallelToolCalls" | ForcedToolChoice => "ForcedToolChoice"
  | ToolContinuation => "ToolContinuation" | ReasoningOutput => "ReasoningOutput" | ReasoningReplay => "ReasoningReplay"
  | TextStream => "TextStream" | ReasoningStream => "ReasoningStream"
  | IndexedToolArgumentStream => "IndexedToolArgumentStream" | UsageStream => "UsageStream"
  | StructuredOutput => "StructuredOutput"
  end.

Definition conflicting_override_field (left right : RouteCapabilityOverride) : option string :=
  match find (fun capability => exact_values_differ (ro_capabilities left !! capability) (ro_capabilities right !! capability))
          Capability_ALL with
  | Some capability => Some ("capabilities." +:+ capability_name capability)
  | None =>
      match find_map (fun '(extension, left_state) =>
                if exact_values_differ (Some left_state) (ro_extensions right !! extension) then Some extension else None)
              (btree_entries (ro_extensions left)) with
      | Some extension => Some ("extensions." +:+ extension)
      | None =>
          if exact_values_differ (ro_token_limit_field left) (ro_token_limit_field right) then Some "token_limit_field"
          else if exact_values_differ (ro_reasoning_carrier left) (ro_reasoning_carrier right) then Some "reasoning_carrier"
          else if exact_values_differ (ro_reasoning_control_field left) (ro_reasoning_control_field right)
            then Some "reasoning_control_field"
          else
            match find_map (fun '(level, left_value) =>
                      match ro_effort_map right !! level with
                      | Some right_value => if value_eqb right_value left_value then None else Some level
                      | None => None
                      end) (btree_entries (ro_effort_map left)) with
            | Some level => Some ("effort_map." +:+ level)
            | None =>
                if negb (is_empty (ro_correction_rules left)) && negb (is_empty (ro_correction_rules right)) &&
                   negb (bool_decide (ro_correction_rules left = ro_correction_rules right))
                then Some "correction_rules" else None
            end
      end
  end.

(** Every pair of a list, the first with the later ones. *)
Fixpoint try_pairs {A E} (f : A -> A -> result unit E) (l : list A) : result unit E :=
  match l with
  | [] => Ok tt
  | x :: l => let? _ := try_each (f x) l in try_pairs f l
  end.

Definition check_policy_pair (configuration : CapabilityConfiguration) (left right : CompiledPolicy)
    : result unit CapabilityPolicyError :=
  if negb (bool_decide (policy_rank configuration left = policy_rank configuration right)) ||
     negb (selectors_overlap (pol_selector left) (pol_selector right))
  then Ok tt
  else
    let left_source := policy_at configuration (pol_source_index left) in
    let right_source := policy_at configuration (pol_source_index right) in
    match conflicting_semantic_field left_source right_source with
    | Some field => Err (AmbiguousSemanticField field (cp_id left_source) (cp_id right_source))
    | None => Ok tt
    end.

Definition validate_policy_conflicts (configuration : CapabilityConfiguration) (policies : list CompiledPolicy)
    : result unit CapabilityPolicyError := try_pairs (check_policy_pair configuration) policies.

Definition check_override_pair (configuration : CapabilityConfiguration) (left right : CompiledOverride)
    : result unit CapabilityPolicyError :=
  if negb (bool_decide (override_rank configuration left = override_rank configuration right)) ||
     negb (selectors_overlap (ovr_selector left) (ovr_selector right))
  then Ok tt
  else
    let left_source := override_at configuration (ovr_source_index left) in
    let right_source := override_at configuration (ovr_source_index right) in
    match conflicting_override_field left_source right_source with
    | Some field => Err (AmbiguousOverrideField field (ro_id left_source) (ro_id right_source))
    | None => Ok tt
    end.

Definition validate_override_conflicts (configuration : CapabilityConfiguration) (route_overrides : list CompiledOverride)
    : result unit CapabilityPolicyError := try_pairs (check_override_pair configuration) route_overrides.

(** ** Compilation *)

(** The entries of a list with their indices, compiled. *)
Definition compile_indexed {A B} (id : A -> string) (selector : A -> CapabilitySelector) (make : nat -> CompiledSelector -> B)
    (l : list A) : result (list B) CapabilityPolicyError :=
  collect (fun '(source_index, item) =>
      let? compiled := compile_selector (id item) (selector item) in Ok (make source_index compiled))
    (zip (seq 0 (length l)) l).

Definition Build_policy (i : nat) (s : CompiledSelector) : CompiledPolicy := {| pol_source_index := i; pol_selector := s |}.
Definition Build_override (i : nat) (s : CompiledSelector) : CompiledOverride := {| ovr_source_index := i; ovr_selector := s |}.
Definition Build_assignment (i : nat) (s : CompiledSelector) : CompiledRouteTagAssignment :=
  {| tag_source_index := i; tag_selector := s |}.

Definition policy_order (configuration : CapabilityConfiguration) (policy : CompiledPolicy) : Z * Z * string :=
  (policy_rank configuration policy, cp_id (policy_at configuration (pol_source_index policy))).

Definition override_order (configuration : CapabilityConfiguration) (route_override : CompiledOverride) : Z * Z * string :=
  (override_rank configuration route_override, ro_id (override_at configuration (ovr_source_index route_override))).

Definition compile (configuration : CapabilityConfiguration) : result CompiledCapabilityConfiguration CapabilityPolicyError :=
  if negb (cfg_schema_version configuration =? CAPABILITY_SCHEMA_VERSION)
  then Err (UnsupportedSchemaVersion (cfg_schema_version configuration) CAPABILITY_SCHEMA_VERSION)
  else
    let? _ := validate_resource_bounds configuration in
    let? _ := validate_ids configuration in
    let? _ := validate_fixtures configuration in
    let? _ := validate_extensions configuration in
    let? _ := validate_route_tags configuration in
    let? _ := validate_reasoning_overrides configuration in
    let? policies := compile_indexed cp_id cp_selector Build_policy (cfg_policies configuration) in
    let? route_overrides := compile_indexed ro_id ro_selector Build_override (cfg_route_overrides configuration) in
    let? route_tags := compile_indexed rta_id rta_selector Build_assignment (cfg_route_tags configuration) in
    let? expectations := compile_expectations configuration in
    let? _ := validate_policy_conflicts configuration policies in
    let? _ := validate_override_conflicts configuration route_overrides in
    let policies := sort_by (fun left right => ranked_leb (policy_order configuration left) (policy_order configuration right))
      policies in
    let route_overrides :=
      sort_by (fun left right => ranked_leb (override_order configuration left) (override_order configuration right))
        route_overrides in
    let writes := write_configuration configuration in
    match writes.2 with
    | Some error => Err (SerializationError error)
    | None =>
        Ok {| com_source := configuration; com_digest := sha256_hex (foldr String.append "" writes.1);
              com_policies := policies; com_route_overrides := route_overrides;
              com_ordered_route_overrides :=
                (fun route_override => override_at configuration (ovr_source_index route_override)) <$> route_overrides;
              com_route_tags := route_tags; com_expectations := expectations |}
    end.

(** ** What a compiled configuration says of a route *)

Definition expectations_for (self : CompiledCapabilityConfiguration) (route : RouteIdentity) : list CompiledExpectation :=
  retain (fun expectation => selector_matches (cex_compiled_selector expectation) route) (com_expectations self).

Definition route_overrides_for (self : CompiledCapabilityConfiguration) (route : RouteIdentity) : list RouteCapabilityOverride :=
  (fun route_override => override_at (com_source self) (ovr_source_index route_override)) <$>
    retain (fun route_override => selector_matches (ovr_selector route_override) route) (com_route_overrides self).

Definition apply_route_tags (self : CompiledCapabilityConfiguration) (route : RouteIdentity) : RouteIdentity :=
  fold_left (fun route assignment =>
      if selector_matches (tag_selector assignment) route
      then {| route with ri_tags := ri_tags route ∪ route_tags_at (com_source self) (tag_source_index assignment) |}
      else route)
    (com_route_tags self) route.

Definition matching_policies (self : CompiledCapabilityConfiguration) (route : RouteIdentity) : list CapabilityPolicy :=
  (fun policy => policy_at (com_source self) (pol_source_index policy)) <$>
    retain (fun policy => selector_matches (pol_selector policy) route) (com_policies self).

(** A policy over the ones before it: what it sets replaces, what it lists is added. *)
Definition extend_semantic (semantic source : SemanticPolicy) : SemanticPolicy :=
  {| sp_reasoning_mode := or_else (sp_reasoning_mode source) (sp_reasoning_mode semantic);
     sp_reasoning_replay_required := or_else (sp_reasoning_replay_required source) (sp_reasoning_replay_required semantic);
     sp_effort_map := sp_effort_map source ∪ sp_effort_map semantic;
     sp_context_window := or_else (sp_context_window source) (sp_context_window semantic);
     sp_max_output_tokens := or_else (sp_max_output_tokens source) (sp_max_output_tokens semantic);
     sp_omit_sampling_fields := sp_omit_sampling_fields semantic ∪ sp_omit_sampling_fields source |}.

Definition semantic_for (self : CompiledCapabilityConfiguration) (route : RouteIdentity) : SemanticPolicy :=
  fold_left (fun semantic policy => extend_semantic semantic (cp_semantic policy)) (matching_policies self route)
    SemanticPolicy_default.

Definition extensions_for (self : CompiledCapabilityConfiguration) (route : RouteIdentity) : list DeclarativeProbeCase :=
  concat (cp_extension_probes <$> matching_policies self route).

(** Elements are added unless they are there. *)
Definition push_new {A} `{!EqDecision A} (l : list A) (x : A) : list A := if bool_decide (x ∈ l) then l else l ++ [x].

Definition extend_candidates (candidates source : ProbeCandidates) : ProbeCandidates :=
  {| pc_token_limit_fields := fold_left push_new (pc_token_limit_fields source) (pc_token_limit_fields candidates);
     pc_reasoning_controls := merge_controls (pc_reasoning_controls candidates) (pc_reasoning_controls source);
     pc_reasoning_carriers := fold_left push_new (pc_reasoning_carriers source) (pc_reasoning_carriers candidates) |}.

Definition probe_candidates_for (self : CompiledCapabilityConfiguration) (route : RouteIdentity) : ProbeCandidates :=
  fold_left (fun candidates policy => extend_candidates candidates (cp_probe_candidates policy)) (matching_policies self route)
    ProbeCandidates_default.

Definition policy_ids_for (self : CompiledCapabilityConfiguration) (route : RouteIdentity) : list string :=
  cp_id <$> matching_policies self route.

(** ** Sensitive URLs are taken out *)

Definition REDACTED_URL : string := "https://redacted.invalid/".

(** The value, and whether it has changed. *)
Definition sanitize_url (value : string) : string * bool :=
  if is_sensitive_url value then (REDACTED_URL, true) else (value, false).

Definition sanitize_fixture_url (fixture : option HttpsImageFixture) : option HttpsImageFixture * bool :=
  match fixture with
  | Some fixture =>
      let '(url, changed) := sanitize_url (hf_url fixture) in
      (Some {| hf_url := url; hf_expected_label := hf_expected_label fixture |}, changed)
  | None => (None, false)
  end.

Fixpoint sanitize_json_urls (value : Value) : Value * bool :=
  match value with
  | JObject object =>
      let '(object, changed) :=
        (fix go (object : json_map) : json_map * bool :=
           match object with
           | [] => ([], false)
           | (key, value) :: object =>
               let '(value, changed) := sanitize_json_urls value in
               let '(object, changed') := go object in
               ((key, value) :: object, changed || changed')
           end) object in
      (JObject object, changed)
  | JArray values =>
      let '(values, changed) :=
        (fix go (values : list Value) : list Value * bool :=
           match values with
           | [] => ([], false)
           | value :: values =>
               let '(value, changed) := sanitize_json_urls value in
               let '(values, changed') := go values in
               (value :: values, changed || changed')
           end) values in
      (JArray values, changed)
  | JString value => let '(value, changed) := sanitize_url value in (JString value, changed)
  | _ => (value, false)
  end.

(** A loop over elements that can change. *)
Definition sanitize_each {A} (f : A -> A * bool) (l : list A) : list A * bool :=
  let sanitized := f <$> l in (sanitized.*1, existsb id sanitized.*2).

Definition sanitize_evidence (evidence : EvidenceReference) : EvidenceReference * bool :=
  let '(url, changed) := sanitize_url (er_url evidence) in ({| evidence with er_url := url |}, changed).

Definition sanitize_extension (extension : DeclarativeProbeCase) : DeclarativeProbeCase * bool :=
  let '(patch, changed) := sanitize_json_urls (dp_request_patch extension) in
  ({| extension with dp_request_patch := patch |}, changed).

Definition sanitize_policy (policy : CapabilityPolicy) : CapabilityPolicy * bool :=
  let '(evidence, changed) := sanitize_each sanitize_evidence (cp_evidence policy) in
  let '(extensions, changed') := sanitize_each sanitize_extension (cp_extension_probes policy) in
  ({| policy with cp_evidence := evidence; cp_extension_probes := extensions |}, changed || changed').

Definition sanitize_expectation (expectation : CompatibilityExpectation) : CompatibilityExpectation * bool :=
  let '(fixture, changed) := sanitize_fixture_url (ce_https_image_fixture expectation) in
  ({| expectation with ce_https_image_fixture := fixture |}, changed).

Definition sanitize_sensitive_urls (configuration : CapabilityConfiguration) : CapabilityConfiguration * bool :=
  let probe := cfg_probe configuration in
  let '(fixture, changed) := sanitize_fixture_url (prc_https_image_fixture probe) in
  let '(expectations, changed') := sanitize_each sanitize_expectation (cfg_compatibility_expectations configuration) in
  let '(policies, changed'') := sanitize_each sanitize_policy (cfg_policies configuration) in
  ({| configuration with
      cfg_policies := policies; cfg_compatibility_expectations := expectations;
      cfg_probe := {| probe with prc_https_image_fixture := fixture |} |},
   changed || changed' || changed'').

End Policy.

(** ** Built-in policies *)

Definition BUILTIN_POLICY_ID_PREFIXES : list string := ["domestic-"].

Definition is_builtin_entry_id (id : string) : bool :=
  existsb (fun prefix => text_starts_with prefix id) BUILTIN_POLICY_ID_PREFIXES.

(** The entries of the template that are wanted and missing are appended; the second part are those. *)
Definition append_missing {A} (id : A -> string) (wanted : A -> bool) (stored template : list A) : list A * list A :=
  fold_left (fun '(stored, added) item =>
      if wanted item && negb (existsb (fun existing => String.eqb (id existing) (id item)) stored)
      then (stored ++ [item], added ++ [item]) else (stored, added))
    template (stored, []).

Definition merge_builtin_policy_entries (stored template : CapabilityConfiguration) : CapabilityConfiguration * list string :=
  let '(policies, added_policies) :=
    append_missing cp_id (fun policy => is_builtin_entry_id (cp_id policy)) (cfg_policies stored) (cfg_policies template) in
  let '(expectations, added_expectations) :=
    append_missing ce_id (fun expectation => is_builtin_entry_id (ce_id expectation)) (cfg_compatibility_expectations stored)
      (cfg_compatibility_expectations template) in
  let referenced_bundles : gset string := ⋃ (ce_bundles <$> added_expectations) in
  let '(bundles, added_bundles) :=
    append_missing cb_id (fun bundle => bool_decide (cb_id bundle ∈ referenced_bundles)) (cfg_bundles stored)
      (cfg_bundles template) in
  ({| stored with
      cfg_policies := policies; cfg_bundles := bundles; cfg_compatibility_expectations := expectations |},
   (cp_id <$> added_policies) ++ (ce_id <$> added_expectations) ++ (cb_id <$> added_bundles)).
