(* ===== verification/CapabilityPolicyFacts.v ===== *)
(** * Capability configuration: theorems

    What [CapabilityPolicy] promises: the strongest entry that matches a route decides each
    setting, and no two that are equally strong disagree; a configuration that compiles is
    safe to apply; built-in entries are added once. *)

From S2P Require Import Prelude RouteTypes ProbeQueue RuntimeHints ModelIdentity UpstreamConfig Json ChatCanonicalizer ImageAdapter CapabilityTypes CapabilityResolver CapabilityProfile CapabilityPolicy.

Local Open Scope Z_scope.

(** ** Loops *)

Lemma try_each_ok {A E} (f : A -> result unit E) l : try_each f l = Ok tt <-> Forall (fun x => f x = Ok tt) l.
Proof.
  induction l as [|x l IH]; simpl; [done|]. rewrite Forall_cons, <- IH.
  destruct (f x) as [[]|e]; [tauto|]. split; [done|]. by intros [? _].
Qed.

Lemma try_pairs_ok {A E} (f : A -> A -> result unit E) l :
  try_pairs f l = Ok tt -> forall i j x y, (i < j)%nat -> l !! i = Some x -> l !! j = Some y -> f x y = Ok tt.
Proof.
  induction l as [|z l IH]; intros Hok i j x y Hij Hx Hy; [done|]. simpl in Hok.
  destruct (try_each (f z) l) as [[]|e] eqn:Hz; [|done]. destruct j as [|j]; [lia|]. destruct i as [|i]; simplify_eq/=.
  - apply try_each_ok in Hz. rewrite Forall_forall in Hz. by apply Hz, (list_elem_of_lookup_2 _ j).
  - apply (IH Hok i j); [lia|done|done].
Qed.

Lemma err_if_ok {E} b (e : E) : err_if b e = Ok tt <-> b = false.
Proof. by destruct b. Qed.

Lemma then_ok {A E} (r : result A E) (c : result unit E) : (let? _ := r in c) = Ok tt <-> (exists x, r = Ok x) /\ c = Ok tt.
Proof. destruct r as [x|e]; [naive_solver|]. split; [done|]. by intros [[x ?] _]. Qed.

Lemma collect_ok {A B E} (f : A -> result B E) l ys : collect f l = Ok ys <-> Forall2 (fun x y => f x = Ok y) l ys.
Proof.
  revert ys. induction l as [|x l IH]; intros ys; simpl; [by split; [intros [= <-]|inversion 1]|].
  destruct (f x) as [y|e] eqn:Hx; [|by split; [|inversion 1; congruence]].
  destruct (collect f l) as [zs|e] eqn:Hl.
  - split; [intros [= <-]; constructor; [done|by apply IH]|].
    inversion 1 as [|? ? ? ? Hy Hys]; subst. rewrite Hy in Hx. apply IH in Hys. congruence.
  - split; [done|]. inversion 1 as [|? ? ? ? Hy Hys]; subst. apply IH in Hys. congruence.
Qed.

(** ** Ranks *)

Definition rank_leb (left right : Z * Z) : bool :=
  (left.1 <? right.1) || (left.1 =? right.1) && (left.2 <=? right.2).

Lemma rank_leb_refl r : rank_leb r r = true.
Proof. unfold rank_leb. rewrite Z.eqb_refl, Z.leb_refl. by rewrite orb_true_r. Qed.

Lemma rank_leb_trans a b c : rank_leb a b = true -> rank_leb b c = true -> rank_leb a c = true.
Proof. unfold rank_leb. destruct a, b, c; simpl. lia. Qed.

Lemma rank_leb_antisym a b : rank_leb a b = true -> rank_leb b a = true -> a = b.
Proof. unfold rank_leb. destruct a as [p s], b as [p' s']; simpl. intros. f_equal; lia. Qed.

Lemma ranked_leb_rank a b i j : ranked_leb (a, i) (b, j) = true -> rank_leb a b = true.
Proof.
  unfold ranked_leb, rank_leb. destruct a, b; simpl. destruct (String.leb i j); [lia|]. rewrite andb_false_r. lia.
Qed.

Lemma ranked_leb_total a b : ranked_leb a b = false -> ranked_leb b a = true.
Proof.
  destruct a as [[p s] i], b as [[p' s'] j]. unfold ranked_leb. pose proof (String.leb_total i j).
  destruct (String.leb i j), (String.leb j i); lia.
Qed.

Lemma string_leb_trans a b c : String.leb a b = true -> String.leb b c = true -> String.leb a c = true.
Proof.
  assert (Heq : forall x y, String.leb x y = true <-> x = y \/ String.ltb x y = true).
  { intros x y. unfold String.leb, String.ltb. destruct (String.compare x y) eqn:H.
    - apply String.compare_eq_iff in H. naive_solver.
    - naive_solver.
    - split; [done|]. intros [->|?]; [|done]. pose proof (String.compare_antisym y y) as Ha. by rewrite H in Ha. }
  rewrite !Heq. intros [->|Hab] [->|Hbc]; auto. right. by eapply string_ltb_trans.
Qed.

Lemma ranked_leb_trans a b c : ranked_leb a b = true -> ranked_leb b c = true -> ranked_leb a c = true.
Proof.
  destruct a as [[p s] i], b as [[p' s'] j], c as [[p'' s''] k]. unfold ranked_leb.
  pose proof (string_leb_trans i j k). destruct (String.leb i j), (String.leb j k), (String.leb i k); try lia.
  all: exfalso; naive_solver.
Qed.

(** ** The strongest that says something *)

(** Two that both say something say the same. *)
Definition agree {A} (x y : option A) : Prop := forall a b, x = Some a -> y = Some b -> a = b.

Lemma agree_sym {A} (x y : option A) : agree x y -> agree y x.
Proof. intros H a b Ha Hb. symmetry. by apply H. Qed.

Lemma differ_agree {A} `{!EqDecision A} (x y : option A) : exact_values_differ x y = false -> agree x y.
Proof. intros H a b -> ->. simpl in H. apply negb_false_iff in H. by apply bool_decide_eq_true in H. Qed.

Lemma latest_None {A B} (says : A -> option B) l : latest says l = None <-> forall x, x ∈ l -> says x = None.
Proof.
  induction l as [|x l IH]; [split; [intros _ x Hx; by apply elem_of_nil in Hx|done]|]. rewrite latest_cons. split.
  - intros H y Hy. destruct (latest says l) eqn:Hl; [done|]. apply elem_of_cons in Hy as [->|Hy]; [done|]. by apply IH.
  - intros H. rewrite (proj2 IH); [apply H; by left|]. intros y Hy. apply H. by right.
Qed.

Lemma latest_elem {A B} (says : A -> option B) l v : latest says l = Some v -> exists x, x ∈ l /\ says x = Some v.
Proof.
  induction l as [|x l IH]; [done|]. rewrite latest_cons. destruct (latest says l) as [w|] eqn:Hl; simpl.
  - intros [= ->]. destruct IH as (y & Hy & Hv); [done|]. exists y. split; [by right|done].
  - intros Hv. exists x. split; [by left|done].
Qed.

(** In a list in the order of the ranks, where those of one rank agree, the last that says something says what the
    strongest says. *)
Section ranked.
  Context {A B : Type} (rank : A -> Z * Z) (says : A -> option B).

Lemma latest_strongest l x v :
  StronglySorted (fun x y => rank_leb (rank x) (rank y) = true) l ->
  (forall y z, y ∈ l -> z ∈ l -> rank y = rank z -> agree (says y) (says z)) ->
  x ∈ l -> says x = Some v -> (forall y, y ∈ l -> is_Some (says y) -> rank_leb (rank y) (rank x) = true) ->
  latest says l = Some v.
Proof.
  intros Hsorted Hagree Hx Hv Hmax. induction Hsorted as [|y l Hsorted IH Hy]; [by apply elem_of_nil in Hx|].
  rewrite latest_cons. apply elem_of_cons in Hx as [->|Hx].
  - destruct (latest says l) as [w|] eqn:Hl; [|done]. simpl. f_equal. apply latest_elem in Hl as (z & Hz & Hw).
    symmetry. apply (Hagree y z); [by left|by right| |done|done]. apply rank_leb_antisym.
    + rewrite Forall_forall in Hy. by apply Hy.
    + apply Hmax; [by right|by eexists].
  - rewrite IH; [done|..]; [|done|].
    + intros z w Hz Hw. apply Hagree; by right.
    + intros z Hz. apply Hmax. by right.
Qed.

(** And it says nothing that no strongest one says. *)
Lemma latest_is_strongest l v :
  StronglySorted (fun x y => rank_leb (rank x) (rank y) = true) l -> latest says l = Some v ->
  exists x, x ∈ l /\ says x = Some v /\ forall y, y ∈ l -> is_Some (says y) -> rank_leb (rank y) (rank x) = true.
Proof.
  intros Hsorted. induction Hsorted as [|y l Hsorted IH Hy]; [done|]. rewrite latest_cons.
  destruct (latest says l) as [w|] eqn:Hl; simpl.
  - intros [= ->]. destruct IH as (x & Hx & Hv & Hmax); [done|]. exists x. split_and!; [by right|done|].
    intros z Hz Hs. apply elem_of_cons in Hz as [->|Hz]; [|by apply Hmax]. rewrite Forall_forall in Hy. by apply Hy.
  - intros Hv. exists y. split_and!; [by left|done|]. intros z Hz Hs. apply elem_of_cons in Hz as [->|Hz]; [apply rank_leb_refl|].
    rewrite (proj1 (latest_None says l) Hl z Hz) in Hs. by destruct Hs.
Qed.

End ranked.

Section Facts.
  Context {Url Glob : Type} `{!UrlOps Url} `{!GlobOps Glob}.
  Context (write_configuration : CapabilityConfiguration -> Writes) (write_case : DeclarativeProbeCase -> Writes).
  Context (sha256_hex : string -> string).

(** ** Selectors *)

Lemma optional_matches_true expected actual : optional_matches expected actual = true -> expected = None \/ expected = Some actual.
Proof. destruct expected as [e|]; simpl; [|by left]. intros ->%String.eqb_eq. by right. Qed.

Lemma matched_same {A} `{!EqDecision A} (x y : option A) a :
  x = None \/ x = Some a -> y = None \/ y = Some a -> exact_values_differ x y = false.
Proof. intros [-> | ->] [-> | ->]; simpl; try done. by rewrite bool_decide_true. Qed.

(** Two selectors that match one route overlap. *)
Lemma matching_overlap (left right : CompiledSelector (Glob := Glob)) route :
  selector_matches left route = true -> selector_matches right route = true -> selectors_overlap left right = true.
Proof.
  intros Hl Hr. unfold selector_matches in Hl, Hr.
  repeat match goal with H : andb _ _ = true |- _ => apply andb_true_iff in H as [? ?] end.
  repeat match goal with H : optional_matches _ _ = true |- _ => apply optional_matches_true in H end.
  unfold selectors_overlap.
  assert (Hp : forall p : option WireProtocol, is_none_or (fun protocol => bool_decide (protocol = ri_protocol route)) p = true ->
    p = None \/ p = Some (ri_protocol route)).
  { intros [p|]; simpl; [|by left]. intros ->%bool_decide_eq_true. by right. }
  rewrite (matched_same (cs_exposed_model _) (cs_exposed_model _) (ri_exposed_model_slug route)) by done.
  rewrite (matched_same (cs_runtime_model _) (cs_runtime_model _) (ri_runtime_model_slug route)) by done.
  rewrite (matched_same (cs_upstream_id _) (cs_upstream_id _) (ri_upstream_id route)) by done.
  rewrite (matched_same (cs_key_fingerprint _) (cs_key_fingerprint _) (ri_key_fingerprint route)) by done.
  rewrite (matched_same (cs_protocol _) (cs_protocol _) (ri_protocol route)) by auto.
  assert (Hg : forall s s' : CompiledSelector (Glob := Glob),
    cs_runtime_model (sel_source s) = None \/ cs_runtime_model (sel_source s) = Some (ri_runtime_model_slug route) ->
    is_none_or (fun glob => glob_is_match glob (ri_runtime_model_slug route)) (sel_runtime_model_glob s') = true ->
    glob_excludes s s' = false).
  { intros s s' [Hs|Hs] Hglob; unfold glob_excludes; rewrite Hs; [done|]. destruct (sel_runtime_model_glob s'); simpl in *; [|done].
    by rewrite Hglob. }
  assert (Hsat : forall s : CompiledSelector (Glob := Glob), is_satisfiable s = negb (glob_excludes s s)).
  { intros s. unfold is_satisfiable, glob_excludes. repeat case_match; by rewrite ?negb_involutive. }
  by rewrite !Hsat, !Hg by done.
Qed.

(** ** The entries that apply to a route

    Policies and overrides are compiled, checked and sorted in the same way. *)

Section entries.
  Context {A C : Type} (id : A -> string) (selector : A -> CapabilitySelector) (priority : A -> Z).
  Context (make : nat -> CompiledSelector (Glob := Glob) -> C) (index : C -> nat) (sel : C -> CompiledSelector (Glob := Glob)).
  Context (index_make : forall i s, index (make i s) = i) (sel_make : forall i s, sel (make i s) = s).
  Context (l : list A) (at_index : nat -> A) (at_lookup : forall i x, l !! i = Some x -> at_index i = x).
  Context (check : C -> C -> result unit CapabilityPolicyError) (conflict : A -> A -> option string).
  Context (compiled : list C).
  Context (compiled_ok : compile_indexed id selector make l = Ok compiled).

(** An entry applies to the routes that its selector matches. *)
Definition entry_applies (x : A) (route : RouteIdentity) : Prop :=
  exists s, compile_selector (Glob := Glob) (id x) (selector x) = Ok s /\ selector_matches s route = true.

Definition entry_rank (x : A) : Z * Z := (priority x, selector_specificity (selector x)).

Definition compiled_rank (c : C) : Z * Z := (priority (at_index (index c)), sel_specificity (sel c)).

Context (check_ok : forall c d, check c d = Ok tt -> compiled_rank c = compiled_rank d ->
  selectors_overlap (sel c) (sel d) = true -> conflict (at_index (index c)) (at_index (index d)) = None).

Definition entry_order (c : C) : Z * Z * string := (compiled_rank c, id (at_index (index c))).

Definition applied (route : RouteIdentity) : list A :=
  (fun c => at_index (index c)) <$>
    retain (fun c => selector_matches (sel c) route) (sort_by (fun c d => ranked_leb (entry_order c) (entry_order d)) compiled).

Lemma compiled_Forall2 :
  Forall2 (fun '(i, x) c => exists s, compile_selector (id x) (selector x) = Ok s /\ c = make i s)
    (zip (seq 0 (length l)) l) compiled.
Proof.
  unfold compile_indexed in compiled_ok. apply collect_ok in compiled_ok. eapply Forall2_impl; [exact compiled_ok|].
  intros [i x] c. simpl. destruct (compile_selector (id x) (selector x)) as [s|e]; [|done]. intros [= <-]. by exists s.
Qed.

Lemma zip_seq_lookup i : zip (seq 0 (length l)) l !! i = (fun x => (i, x)) <$> l !! i.
Proof.
  rewrite lookup_zip_with. destruct (l !! i) as [x|] eqn:Hx; simpl.
  - by rewrite lookup_seq_lt by by eapply lookup_lt_Some.
  - by destruct (seq 0 (length l) !! i).
Qed.

Lemma compiled_lookup i c :
  compiled !! i = Some c ->
  exists x s, l !! i = Some x /\ compile_selector (id x) (selector x) = Ok s /\ c = make i s.
Proof.
  intros Hc. pose proof compiled_Forall2 as H. eapply Forall2_lookup_r in H as (y & Hy & H); [|exact Hc].
  rewrite zip_seq_lookup in Hy. destruct (l !! i) as [x|] eqn:Hx; [|done]. simpl in Hy. simplify_eq.
  destruct H as (s & Hs & ->). by exists x, s.
Qed.

Lemma entry_compiled i x : l !! i = Some x -> exists s, compile_selector (id x) (selector x) = Ok s /\ compiled !! i = Some (make i s).
Proof.
  intros Hx. pose proof compiled_Forall2 as H. eapply Forall2_lookup_l in H as (c & Hc & H).
  2: { rewrite zip_seq_lookup, Hx. done. }
  destruct H as (s & Hs & ->). by exists s.
Qed.

Lemma compiled_entry i c :
  compiled !! i = Some c ->
  exists x s, l !! i = Some x /\ compile_selector (id x) (selector x) = Ok s /\ c = make i s /\ index c = i /\
    at_index i = x /\ sel c = s /\ compiled_rank c = entry_rank x.
Proof.
  intros Hc. destruct (compiled_lookup i c Hc) as (x & s & Hx & Hs & ->). exists x, s. rewrite index_make, sel_make.
  split_and!; try done; [by apply at_lookup|]. unfold compiled_rank, entry_rank. rewrite index_make, sel_make, (at_lookup i x Hx).
  f_equal. unfold compile_selector in Hs. repeat case_match; by simplify_eq/=.
Qed.

Lemma applied_elem route x : x ∈ applied route <-> x ∈ l /\ entry_applies x route.
Proof.
  unfold applied. rewrite list_elem_of_fmap. split.
  - intros (c & -> & Hc). apply retain_elem in Hc as [Hmatch Hc]. rewrite sort_by_perm in Hc.
    apply list_elem_of_lookup in Hc as [i Hc]. destruct (compiled_entry i c Hc) as (x & s & Hx & Hs & _ & -> & -> & Hsel & _).
    split; [by eapply list_elem_of_lookup_2|]. exists s. split; [done|]. by rewrite <- Hsel.
  - intros [[i Hx]%list_elem_of_lookup (s & Hs & Hmatch)]. destruct (entry_compiled i x Hx) as (s' & Hs' & Hc).
    exists (make i s'). rewrite index_make. split; [by rewrite (at_lookup i x Hx)|]. apply retain_elem. rewrite sel_make.
    assert (s = s') as <- by congruence. split; [done|]. rewrite sort_by_perm. by eapply list_elem_of_lookup_2.
Qed.

Lemma applied_sorted route : StronglySorted (fun x y => rank_leb (entry_rank x) (entry_rank y) = true) (applied route).
Proof.
  unfold applied.
  assert (Hs : StronglySorted (fun c d => ranked_leb (entry_order c) (entry_order d) = true)
    (sort_by (fun c d => ranked_leb (entry_order c) (entry_order d)) compiled)).
  { apply Sorted_StronglySorted; [intros c d e; apply ranked_leb_trans|]. apply sort_by_sorted. intros c d. apply ranked_leb_total. }
  assert (Hin : forall c, c ∈ sort_by (fun c d => ranked_leb (entry_order c) (entry_order d)) compiled -> c ∈ compiled)
    by (intros c; by rewrite sort_by_perm).
  induction Hs as [|c cs Hs IH Hc]; [constructor|]. rewrite retain_cons.
  assert (IH' := IH (fun d Hd => Hin d (list_elem_of_further _ _ _ Hd))). clear IH.
  destruct (selector_matches (sel c) route); [|done]. csimpl. constructor; [done|]. apply Forall_fmap, Forall_forall.
  intros d [_ Hd]%retain_elem. simpl. rewrite Forall_forall in Hc. specialize (Hc d Hd). apply ranked_leb_rank in Hc.
  assert (Hrank : forall c, c ∈ compiled -> entry_rank (at_index (index c)) = compiled_rank c).
  { intros e [i He]%list_elem_of_lookup. by destruct (compiled_entry i e He) as (x & s & Hx & _ & _ & -> & -> & _ & ->). }
  rewrite !Hrank; [done|by apply Hin; right|by apply Hin; left].
Qed.

Lemma applied_agree route x y :
  try_pairs check compiled = Ok tt -> x ∈ applied route -> y ∈ applied route -> entry_rank x = entry_rank y ->
  x = y \/ conflict x y = None \/ conflict y x = None.
Proof.
  intros Hpairs Hx Hy Hrank. unfold applied in Hx, Hy.
  apply list_elem_of_fmap in Hx as (c & -> & [Hmc Hc]%retain_elem). apply list_elem_of_fmap in Hy as (d & -> & [Hmd Hd]%retain_elem).
  rewrite sort_by_perm in Hc, Hd. apply list_elem_of_lookup in Hc as [i Hc]. apply list_elem_of_lookup in Hd as [j Hd].
  destruct (compiled_entry i c Hc) as (x & s & Hx & _ & _ & Hic & Hax & _ & Hrc).
  destruct (compiled_entry j d Hd) as (y & s' & Hy & _ & _ & Hjd & Hay & _ & Hrd).
  rewrite Hic, Hjd, Hax, Hay in Hrank.
  destruct (decide (i = j)) as [->|Hne]; [left; congruence|right].
  assert (i < j \/ j < i)%nat as [Hij|Hij] by lia; [left|right]; apply check_ok;
    try (by eapply try_pairs_ok); try congruence; by eapply matching_overlap.
Qed.

End entries.

(** ** Policies *)

Lemma policy_lookup configuration i x : cfg_policies configuration !! i = Some x -> policy_at configuration i = x.
Proof. unfold policy_at. by intros ->. Qed.

Lemma override_lookup configuration i x : cfg_route_overrides configuration !! i = Some x -> override_at configuration i = x.
Proof. unfold override_at. by intros ->. Qed.

Definition policy_applies (policy : CapabilityPolicy) (route : RouteIdentity) : Prop :=
  entry_applies cp_id cp_selector policy route.

Definition override_applies (route_override : RouteCapabilityOverride) (route : RouteIdentity) : Prop :=
  entry_applies ro_id ro_selector route_override route.

Notation compile := (compile write_configuration write_case sha256_hex).

(** What [compile] has checked, and what it keeps. *)
Lemma compile_ok configuration compiled :
  compile configuration = Ok compiled ->
  exists policies route_overrides route_tags,
    validate_ids configuration = Ok tt /\ validate_fixtures configuration = Ok tt /\
    validate_extensions write_case configuration = Ok tt /\ validate_route_tags configuration = Ok tt /\
    compile_indexed cp_id cp_selector Build_policy (cfg_policies configuration) = Ok policies /\
    compile_indexed ro_id ro_selector Build_override (cfg_route_overrides configuration) = Ok route_overrides /\
    compile_indexed rta_id rta_selector Build_assignment (cfg_route_tags configuration) = Ok route_tags /\
    validate_policy_conflicts configuration policies = Ok tt /\
    validate_override_conflicts configuration route_overrides = Ok tt /\
    com_source compiled = configuration /\ com_route_tags compiled = route_tags /\
    com_policies compiled =
      sort_by (fun left right => ranked_leb (policy_order configuration left) (policy_order configuration right)) policies /\
    com_route_overrides compiled =
      sort_by (fun left right => ranked_leb (override_order configuration left) (override_order configuration right)) route_overrides.
Proof.
  unfold compile. intros H. destruct (negb _); [done|].
  destruct (validate_resource_bounds _ configuration) as [[]|]; [|done].
  destruct (validate_ids configuration) as [[]|]; [|done]. destruct (validate_fixtures configuration) as [[]|]; [|done].
  destruct (validate_extensions _ configuration) as [[]|]; [|done]. destruct (validate_route_tags configuration) as [[]|]; [|done].
  destruct (validate_reasoning_overrides configuration) as [[]|]; [|done].
  destruct (compile_indexed cp_id cp_selector Build_policy _) as [policies|]; [|done].
  destruct (compile_indexed ro_id ro_selector Build_override _) as [route_overrides|]; [|done].
  destruct (compile_indexed rta_id rta_selector Build_assignment _) as [route_tags|]; [|done].
  destruct (compile_expectations configuration) as [expectations|]; [|done].
  destruct (validate_policy_conflicts configuration policies) as [[]|] eqn:Hpolicies; [|done].
  destruct (validate_override_conflicts configuration route_overrides) as [[]|] eqn:Hoverrides; [|done].
  destruct (write_configuration configuration).2; [done|]. simplify_eq. by exists policies, route_overrides, route_tags.
Qed.

Lemma matching_policies_applied configuration compiled policies route :
  com_source compiled = configuration ->
  com_policies compiled =
    sort_by (fun left right => ranked_leb (policy_order configuration left) (policy_order configuration right)) policies ->
  matching_policies compiled route =
    applied cp_id cp_priority pol_source_index pol_selector (policy_at configuration) policies route.
Proof. unfold matching_policies, applied. by intros -> ->. Qed.

Lemma route_overrides_applied configuration compiled route_overrides route :
  com_source compiled = configuration ->
  com_route_overrides compiled =
    sort_by (fun left right => ranked_leb (override_order configuration left) (override_order configuration right)) route_overrides ->
  route_overrides_for compiled route =
    applied ro_id ro_priority ovr_source_index ovr_selector (override_at configuration) route_overrides route.
Proof. unfold route_overrides_for, applied. by intros -> ->. Qed.

Definition policy_precedence (policy : CapabilityPolicy) : Z * Z := entry_rank cp_selector cp_priority policy.
Definition override_precedence (route_override : RouteCapabilityOverride) : Z * Z := entry_rank ro_selector ro_priority route_override.

(** The settings of a policy, one for every level of effort. *)
Inductive Setting : Type -> Type :=
| SetContextWindow : Setting Z
| SetMaxOutputTokens : Setting Z
| SetReasoningMode : Setting ReasoningMode
| SetReplayRequired : Setting bool
| SetEffort (level : string) : Setting string.

Definition setting {A} (s : Setting A) : SemanticPolicy -> option A :=
  match s in Setting A return SemanticPolicy -> option A with
  | SetContextWindow => sp_context_window
  | SetMaxOutputTokens => sp_max_output_tokens
  | SetReasoningMode => sp_reasoning_mode
  | SetReplayRequired => sp_reasoning_replay_required
  | SetEffort level => fun policy => sp_effort_map policy !! level
  end.

Lemma setting_extend {A} (s : Setting A) semantic source :
  setting s (extend_semantic semantic source) = or_else (setting s source) (setting s semantic).
Proof.
  destruct s; simpl; try done. rewrite lookup_union. by destruct (sp_effort_map source !! level), (sp_effort_map semantic !! level).
Qed.

Lemma find_map_None {A B} (f : A -> option B) l : find_map f l = None <-> forall x, x ∈ l -> f x = None.
Proof.
  unfold find_map. induction l as [|x l IH]; [split; [intros _ x Hx; by apply elem_of_nil in Hx|done]|]. simpl.
  destruct (f x) eqn:Hx; simpl.
  - split; [done|]. intros H. rewrite H in Hx; [done|by left].
  - rewrite IH. split; [|by intros H y Hy; apply H; right]. intros H y Hy. apply elem_of_cons in Hy as [->|Hy]; [done|by apply H].
Qed.

Lemma no_conflict_agree {A} (s : Setting A) p q :
  conflicting_semantic_field p q = None -> agree (setting s (cp_semantic p)) (setting s (cp_semantic q)).
Proof.
  unfold conflicting_semantic_field. intros H.
  destruct (exact_values_differ (sp_context_window _) _) eqn:H1; [done|].
  destruct (exact_values_differ (sp_max_output_tokens _) _) eqn:H2; [done|].
  destruct (exact_values_differ (sp_reasoning_mode _) _) eqn:H3; [done|].
  destruct (exact_values_differ (sp_reasoning_replay_required _) _) eqn:H4; [done|].
  destruct s; simpl; try by apply differ_agree.
  intros a b Ha Hb. rewrite find_map_None in H. specialize (H (level, a)). rewrite btree_entries_elem in H. specialize (H Ha).
  simpl in H. rewrite Hb in H. destruct (String.eqb_spec b a); [done|done].
Qed.

Lemma semantic_latest {A} (s : Setting A) (compiled : CompiledCapabilityConfiguration (Glob := Glob)) route :
  setting s (semantic_for compiled route) = latest (fun policy => setting s (cp_semantic policy)) (matching_policies compiled route).
Proof.
  unfold semantic_for. rewrite (fold_latest _ (setting s) (fun policy => setting s (cp_semantic policy))).
  - assert (setting s SemanticPolicy_default = None) as -> by by destruct s; simpl. by destruct (latest _ _).
  - intros semantic policy. apply setting_extend.
Qed.

Lemma check_policy_ok configuration (c d : CompiledPolicy (Glob := Glob)) :
  check_policy_pair configuration c d = Ok tt ->
  compiled_rank cp_priority pol_source_index pol_selector (policy_at configuration) c =
    compiled_rank cp_priority pol_source_index pol_selector (policy_at configuration) d ->
  selectors_overlap (pol_selector c) (pol_selector d) = true ->
  conflicting_semantic_field (policy_at configuration (pol_source_index c)) (policy_at configuration (pol_source_index d)) = None.
Proof.
  unfold check_policy_pair. intros H Hrank Hoverlap. change (policy_rank configuration c = policy_rank configuration d) in Hrank.
  rewrite bool_decide_true, Hoverlap in H by done. simpl in H. by destruct (conflicting_semantic_field _ _).
Qed.

(** A policy decides a setting with a value: it applies, it has the value, and no policy with a higher precedence applies
    and has one. *)
Definition decides {A} (configuration : CapabilityConfiguration) (route : RouteIdentity) (s : Setting A)
    (policy : CapabilityPolicy) (v : A) : Prop :=
  policy ∈ cfg_policies configuration /\ policy_applies policy route /\ setting s (cp_semantic policy) = Some v /\
  forall other, other ∈ cfg_policies configuration -> policy_applies other route -> is_Some (setting s (cp_semantic other)) ->
    rank_leb (policy_precedence other) (policy_precedence policy) = true.


(** ** Overrides *)

(** The settings of an override that are taken as they are. *)
Inductive OverrideSetting : Type -> Type :=
| OvState (capability : Capability) : OverrideSetting ResolvedCapability
| OvExtension (id : string) : OverrideSetting EvidenceState
| OvTokenLimit : OverrideSetting TokenLimitField
| OvCarrier : OverrideSetting ReasoningCarrier
| OvControlField : OverrideSetting string.

Definition extension_observed (evidence : option EvidenceState) : option EvidenceState :=
  match evidence with Some Unobserved => None | _ => evidence end.

Definition override_setting {A} (s : OverrideSetting A) : RouteCapabilityOverride -> option A :=
  match s in OverrideSetting A return RouteCapabilityOverride -> option A with
  | OvState capability => override_observed capability
  | OvExtension id => fun route_override => extension_observed (ro_extensions route_override !! id)
  | OvTokenLimit => ro_token_limit_field
  | OvCarrier => ro_reasoning_carrier
  | OvControlField => ro_reasoning_control_field
  end.

Lemma observed_agree source (x y : gmap Capability EvidenceState) capability :
  agree (x !! capability) (y !! capability) -> agree (observed source x capability) (observed source y capability).
Proof.
  intros H a b. unfold observed. destruct (x !! capability) as [s|], (y !! capability) as [t|]; try done.
  rewrite (H s t eq_refl eq_refl). destruct t; try done; congruence.
Qed.

Lemma no_override_conflict_agree {A} (s : OverrideSetting A) p q :
  conflicting_override_field p q = None -> agree (override_setting s p) (override_setting s q).
Proof.
  unfold conflicting_override_field. intros H.
  destruct (find _ Capability_ALL) eqn:H1; [done|]. destruct (find_map _ (btree_entries (ro_extensions p))) eqn:H2; [done|].
  destruct (exact_values_differ (ro_token_limit_field p) _) eqn:H3; [done|].
  destruct (exact_values_differ (ro_reasoning_carrier p) _) eqn:H4; [done|].
  destruct (exact_values_differ (ro_reasoning_control_field p) _) eqn:H5; [done|]. clear H.
  destruct s; simpl; try by apply differ_agree.
  - apply observed_agree, differ_agree. apply (find_none _ _ H1). apply list_elem_of_In, every_capability.
  - intros a b. unfold extension_observed. destruct (ro_extensions p !! id) as [x|] eqn:Hx, (ro_extensions q !! id) as [y|] eqn:Hy; try done.
    assert (x = y) as ->; [|by intros -> [= ->]]. rename Hx into Ha, Hy into Hb. clear -H2 Ha Hb. rewrite find_map_None in H2. specialize (H2 (id, x)). rewrite btree_entries_elem in H2. specialize (H2 Ha).
    simpl in H2. rewrite Hb in H2. simpl in H2. case_bool_decide; [done|by simpl in H2].
Qed.

Lemma check_override_ok configuration (c d : CompiledOverride (Glob := Glob)) :
  check_override_pair configuration c d = Ok tt ->
  compiled_rank ro_priority ovr_source_index ovr_selector (override_at configuration) c =
    compiled_rank ro_priority ovr_source_index ovr_selector (override_at configuration) d ->
  selectors_overlap (ovr_selector c) (ovr_selector d) = true ->
  conflicting_override_field (override_at configuration (ovr_source_index c)) (override_at configuration (ovr_source_index d)) = None.
Proof.
  unfold check_override_pair. intros H Hrank Hoverlap. change (override_rank configuration c = override_rank configuration d) in Hrank.
  rewrite bool_decide_true, Hoverlap in H by done. simpl in H. by destruct (conflicting_override_field _ _).
Qed.

Definition override_decides {A} (configuration : CapabilityConfiguration) (route : RouteIdentity) (s : OverrideSetting A)
    (route_override : RouteCapabilityOverride) (v : A) : Prop :=
  route_override ∈ cfg_route_overrides configuration /\ override_applies route_override route /\
  override_setting s route_override = Some v /\
  forall other, other ∈ cfg_route_overrides configuration -> override_applies other route ->
    is_Some (override_setting s other) -> rank_leb (override_precedence other) (override_precedence route_override) = true.

(** The last override of a route that says something is the strongest one that does. *)
Lemma strongest_override configuration compiled route A (s : OverrideSetting A) v :
  compile configuration = Ok compiled ->
  latest (override_setting s) (route_overrides_for compiled route) = Some v <->
  exists route_override, override_decides configuration route s route_override v.
Proof.
  intros Hok. destruct (compile_ok _ _ Hok) as
    (policies & route_overrides & route_tags & _ & _ & _ & _ & _ & Hoverrides & _ & _ & Hconflicts & Hsource & _ & _ & Hsorted).
  rewrite (route_overrides_applied _ _ _ _ Hsource Hsorted). set (l := applied _ _ _ _ _ _ _).
  pose proof (applied_sorted ro_id ro_selector ro_priority Build_override ovr_source_index ovr_selector ltac:(done) ltac:(done)
    (cfg_route_overrides configuration) (override_at configuration) (override_lookup configuration) route_overrides Hoverrides route) as Hranks.
  pose proof (applied_elem ro_id ro_selector ro_priority Build_override ovr_source_index ovr_selector ltac:(done) ltac:(done)
    (cfg_route_overrides configuration) (override_at configuration) (override_lookup configuration) route_overrides Hoverrides route) as Helem.
  fold l in Hranks, Helem. split.
  - intros Hv. destruct (latest_is_strongest _ _ l v Hranks Hv) as (o & Hin & Hval & Hmax). exists o.
    apply Helem in Hin as [Hin Happlies]. split_and!; [done..|]. intros other Ho Happ Hs. apply Hmax; [by apply Helem|done].
  - intros (o & Hin & Happlies & Hval & Hmax). apply (latest_strongest override_precedence _ l o v); [done| |by apply Helem|done|].
    + intros p q Hp Hq Hrank.
      destruct (applied_agree ro_id ro_selector ro_priority Build_override ovr_source_index ovr_selector ltac:(done) ltac:(done)
        (cfg_route_overrides configuration) (override_at configuration) (override_lookup configuration)
        (check_override_pair configuration) conflicting_override_field route_overrides Hoverrides (check_override_ok configuration)
        route p q Hconflicts Hp Hq Hrank)
        as [->|[Hnone|Hnone]]; [by intros a b -> [= ->]|by apply no_override_conflict_agree|by apply agree_sym, no_override_conflict_agree].
    + intros other [Ho Happ]%Helem Hs. by apply Hmax.
Qed.

(** *** What the resolution makes of them *)

Lemma extension_evidence_latest input id :
  extension_evidence input id =
    default (extension_evidence {| input with rn_route_overrides := [] |} id)
      ((fun evidence => (evidence, FromOverride)) <$> latest (override_setting (OvExtension id)) (rn_route_overrides input)).
Proof.
  unfold extension_evidence. cbn [rn_profile rn_route_overrides fold_left]. set (base := match _ with Some Unobserved => _ | _ => _ end).
  set (says := fun route_override => (fun e => (e, FromOverride)) <$> override_setting (OvExtension id) route_override).
  assert (Hl : latest says (rn_route_overrides input) =
    (fun e => (e, FromOverride)) <$> latest (override_setting (OvExtension id)) (rn_route_overrides input)).
  { induction (rn_route_overrides input) as [|x l IH]; [done|]. rewrite !latest_cons, IH.
    by destruct (latest (override_setting (OvExtension id)) l). }
  rewrite <- Hl. apply (inj Some). rewrite (fold_latest _ Some says).
  - by destruct (latest says _).
  - intros s x. unfold says. simpl. by destruct (ro_extensions x !! id) as [[]|].
Qed.

Lemma effort_control_latest input preset field :
  latest ro_reasoning_control_field (rn_route_overrides input) = Some field ->
  (resolve_effort_control input preset).1.1 = Some field.
Proof.
  unfold resolve_effort_control. intros H.
  rewrite (fold_latest _ (fun control : EffortControl => control.1.1) ro_reasoning_control_field); [by rewrite H|].
  intros s x. by destruct (ro_reasoning_control_field x).
Qed.

(** A resolved route takes a value for a setting; an extension that is not said to work is not used. *)
Definition takes {A} (s : OverrideSetting A) (resolved : ResolvedCapabilities) : A -> Prop :=
  match s in OverrideSetting A return A -> Prop with
  | OvState capability => fun v => rs_values resolved !! capability = Some v
  | OvExtension id => fun v => v <> Supported -> forall extension, extension ∈ rs_request_extensions resolved -> rx_id extension <> id
  | OvTokenLimit => fun v => rs_token_limit_field resolved = v
  | OvCarrier => fun v => rs_reasoning_carrier resolved = v
  | OvControlField => fun v => rs_reasoning_control_field resolved = Some v
  end.

Lemma resolve_takes input resolved A (s : OverrideSetting A) v :
  resolve input = Ok resolved -> latest (override_setting s) (rn_route_overrides input) = Some v -> takes s resolved v.
Proof.
  intros Hok Hv. pose proof (resolve_cases input) as H. rewrite Hok in H.
  destruct H as (Hvalues & Hcarrier & Hlimit & Hextensions & _ & Hcontrol). destruct s; simpl in *.
  - rewrite Hvalues, resolve_values_known. unfold known. by rewrite Hv.
  - intros Hne extension. rewrite Hextensions. unfold resolve_extensions.
    destruct (input_preset input) as [preset|] eqn:Hpreset.
    + unfold input_preset in Hpreset. apply bind_Some in Hpreset as (name & _ & [-> _]%compiled_preset). by intros ?%elem_of_nil.
    + destruct (extensions_are_eligible _); cbn [negb]; [|by intros ?%elem_of_nil]. rewrite resolve_extension_fold. cbn [fst app].
      intros (case & -> & Htaken)%list_elem_of_fmap Hid. change (dp_id case = id) in Hid. apply retain_elem in Htaken as [Htaken _].
      apply andb_true_iff in Htaken as [_ Htaken]. apply bool_decide_eq_true in Htaken.
      rewrite Hid, extension_evidence_latest in Htaken. simpl in Htaken. rewrite Hv in Htaken. by apply Hne.
  - rewrite Hlimit. unfold resolve_token_limit_field. rewrite overridden_latest. cbn [rn_route_overrides]. by rewrite Hv.
  - rewrite Hcarrier. unfold known_carrier. by rewrite Hv.
  - pose proof (effort_control_latest {| input with rn_profile := matching_profile input |} (input_preset input) v) as He.
    rewrite Hcontrol. by apply He.
Qed.


(** ** Configurations that compile are safe *)

Lemma check_ids_ok seen ids :
  check_ids seen ids = Ok tt -> NoDup ids /\ forall id, id ∈ ids -> id ∉ seen /\ str_is_empty (trim id) = false.
Proof.
  revert seen. induction ids as [|id ids IH]; intros seen H; simpl in H.
  - split; [constructor|by intros ? ?%elem_of_nil].
  - destruct (str_is_empty (trim id)) eqn:Hblank; [done|]. case_bool_decide; [done|]. apply IH in H as [Hnodup Hids].
    split; [constructor; [|done]|].
    + intros Hin. apply Hids in Hin as [Hnew _]. set_solver.
    + intros other [->|Hin]%elem_of_cons; [done|]. apply Hids in Hin as [Hnew Hb]. split; [set_solver|done].
Qed.

Lemma clean_url value : validate_public_url (Url := Url) value = Ok tt -> sanitize_url (Url := Url) value = (value, false).
Proof. unfold validate_public_url, sanitize_url. intros ->%err_if_ok. done. Qed.

Lemma clean_patch case value path :
  validate_request_patch (Url := Url) case value path = Ok tt -> sanitize_json_urls (Url := Url) value = (value, false).
Proof.
  revert path. induction value as [| |n|s|values IH|fields IH] using Value_nested_ind; intros path H; simpl in H |- *; try done.
  - by rewrite (clean_url s).
  - match goal with |- (let '(_, _) := ?go values in _) = _ => assert (Hgo : go values = (values, false)) end; [|by rewrite Hgo].
    revert H. generalize 0%N. induction IH as [|v l Hv _ IHl]; intros i H; [done|]. simpl in *.
    destruct (is_protected_request_path _); [done|]. apply then_ok in H as [[[] H] Hrest].
    by rewrite (Hv _ H), (IHl _ Hrest).
  - match goal with |- (let '(_, _) := ?go fields in _) = _ => assert (Hgo : go fields = (fields, false)) end; [|by rewrite Hgo].
    induction IH as [|[k v] l Hv _ IHl]; [done|]. simpl in *.
    destruct (is_protected_request_path _); [done|]. apply then_ok in H as [[[] H] Hrest].
    by rewrite (Hv _ H), (IHl Hrest).
Qed.

Lemma sanitize_each_clean {A} (f : A -> A * bool) l : (forall x, x ∈ l -> f x = (x, false)) -> sanitize_each f l = (l, false).
Proof.
  intros H. unfold sanitize_each. assert (f <$> l = (fun x => (x, false)) <$> l) as ->.
  { apply list_fmap_ext. intros i x Hx. apply H. by eapply list_elem_of_lookup_2. }
  clear H. induction l as [|x l IH]; [done|]. csimpl. by injection IH as -> ->.
Qed.

Lemma fixture_clean identifier fixture :
  validate_fixture (Url := Url) identifier fixture = Ok tt ->
  sanitize_fixture_url (Url := Url) (Some fixture) = (Some fixture, false).
Proof.
  unfold validate_fixture. intros [_ H]%then_ok. simpl. rewrite (clean_url _ H). by destruct fixture.
Qed.

(** The fields of a request that a patch sets at its top. *)
Definition patch_fields (patch : Value) : list string := match patch with JObject fields => fields.*1 | _ => [] end.

Lemma protected_path name : name ∈ protected_request_fields ->
  is_protected_request_path ("" +:+ "/" +:+ escape_json_pointer_segment name) = true.
Proof.
  assert (H : Forall (fun name => is_protected_request_path ("" +:+ "/" +:+ escape_json_pointer_segment name) = true)
    protected_request_fields) by (repeat constructor).
  rewrite Forall_forall in H. apply H.
Qed.

Lemma patch_unprotected case patch name :
  validate_request_patch (Url := Url) case patch "" = Ok tt -> name ∈ patch_fields patch -> name ∉ protected_request_fields.
Proof.
  destruct patch as [| | | | |fields]; try by intros _ ?%elem_of_nil. intros H Hin Hname. simpl in Hin.
  apply protected_path in Hname. simpl in H.
  induction fields as [|[k v] l IH]; [by apply elem_of_nil in Hin|]. csimpl in *.
  apply elem_of_cons in Hin as [->|Hin].
  - by rewrite Hname in H.
  - destruct (is_protected_request_path _); [done|]. apply then_ok in H as [_ H]. by apply IH.
Qed.


End Facts.

(** ** Built-in entries *)

Section missing.
  Context {A : Type} (id : A -> string) (wanted : A -> bool).

Definition has_id (l : list A) (x : A) : bool := existsb (fun existing => String.eqb (id existing) (id x)) l.

Lemma has_id_elem l x : has_id l x = true <-> id x ∈ id <$> l.
Proof.
  unfold has_id. rewrite existsb_exists, list_elem_of_fmap. setoid_rewrite <- list_elem_of_In. setoid_rewrite String.eqb_eq.
  naive_solver.
Qed.

(** What [append_missing] adds to the end. *)
Record added_ok (stored template added : list A) : Prop := {
  added_wanted : forall x, x ∈ added -> wanted x = true /\ x ∈ template;
  added_new : forall x, x ∈ added -> id x ∉ id <$> stored;
  added_once : NoDup (id <$> added);
  added_all : forall x, x ∈ template -> wanted x = true -> id x ∈ id <$> (stored ++ added)
}.

Lemma append_missing_ok stored template :
  exists added, append_missing id wanted stored template = (stored ++ added, added) /\ added_ok stored template added.
Proof.
  unfold append_missing.
  induction template as [|x template IH] using rev_ind.
  - exists []. split; [by rewrite app_nil_r|]. split; try by intros ? ?%elem_of_nil. apply NoDup_nil_2.
  - destruct IH as (added & Heq & [Hwanted Hnew Honce Hall]). rewrite fold_left_app, Heq. cbn [fold_left].
    change (existsb _ _) with (has_id (stored ++ added) x).
    destruct (wanted x) eqn:Hx; [destruct (has_id (stored ++ added) x) eqn:Hid|]; cbn [negb andb].
    + exists added. split; [done|]. split; [set_solver|done|done|]. intros y [Hy|Hy]%elem_of_app Hw; [by apply Hall|].
      apply list_elem_of_singleton in Hy as ->. by apply has_id_elem.
    + exists (added ++ [x]). split; [by rewrite app_assoc|].
      assert (Hn : id x ∉ id <$> (stored ++ added)) by (rewrite <- has_id_elem; by rewrite Hid).
      rewrite fmap_app in Hn. split.
      * intros y [Hy|Hy]%elem_of_app; [set_solver|]. apply list_elem_of_singleton in Hy as ->. set_solver.
      * intros y [Hy|Hy]%elem_of_app; [set_solver|]. apply list_elem_of_singleton in Hy as ->. set_solver.
      * rewrite fmap_app. apply NoDup_app. split; [done|]. split; [set_solver|apply NoDup_singleton].
      * intros y [Hy|Hy]%elem_of_app Hw; rewrite app_assoc, fmap_app, elem_of_app; [left; by apply Hall|].
        right. set_solver.
    + exists added. split; [done|]. split; [set_solver|done|done|]. intros y [Hy|Hy]%elem_of_app Hw; [by apply Hall|].
      apply list_elem_of_singleton in Hy as ->. congruence.
Qed.

Lemma append_missing_done stored template :
  (forall x, x ∈ template -> wanted x = true -> id x ∈ id <$> stored) -> append_missing id wanted stored template = (stored, []).
Proof.
  intros H. destruct (append_missing_ok stored template) as (added & -> & [Hwanted Hnew _ _]).
  destruct added as [|x added]; [by rewrite app_nil_r|]. destruct (Hwanted x) as [Hw Hin]; [by left|].
  by destruct (Hnew x); [left|apply H].
Qed.

End missing.

(** Merging the built-in entries keeps what is stored, in its order, adds at the end only built-in policies and
    expectations of the template whose names are new, with the bundles that an added expectation needs, and reports
    exactly these; every built-in policy of the template is then there, and merging again changes nothing. *)
Theorem builtin_merge_once (stored template : CapabilityConfiguration) :
  let '(merged, names) := merge_builtin_policy_entries stored template in
  (exists policies expectations bundles,
    merged = {| stored with
      cfg_policies := cfg_policies stored ++ policies; cfg_bundles := cfg_bundles stored ++ bundles;
      cfg_compatibility_expectations := cfg_compatibility_expectations stored ++ expectations |} /\
    names = (cp_id <$> policies) ++ (ce_id <$> expectations) ++ (cb_id <$> bundles) /\
    added_ok cp_id (fun policy => is_builtin_entry_id (cp_id policy)) (cfg_policies stored) (cfg_policies template) policies /\
    added_ok ce_id (fun expectation => is_builtin_entry_id (ce_id expectation)) (cfg_compatibility_expectations stored)
      (cfg_compatibility_expectations template) expectations /\
    added_ok cb_id (fun bundle => bool_decide (cb_id bundle ∈ (⋃ (ce_bundles <$> expectations) : gset string)))
      (cfg_bundles stored) (cfg_bundles template) bundles) /\
  merge_builtin_policy_entries merged template = (merged, []).
Proof.
  unfold merge_builtin_policy_entries.
  destruct (append_missing_ok cp_id (fun policy => is_builtin_entry_id (cp_id policy)) (cfg_policies stored) (cfg_policies template))
    as (policies & -> & Hpolicies).
  destruct (append_missing_ok ce_id (fun expectation => is_builtin_entry_id (ce_id expectation))
    (cfg_compatibility_expectations stored) (cfg_compatibility_expectations template)) as (expectations & -> & Hexpectations).
  match goal with |- context [append_missing cb_id ?w ?s ?t] => destruct (append_missing_ok cb_id w s t) as (bundles & -> & Hbundles) end.
  split; [by exists policies, expectations, bundles|]. cbn [cfg_policies cfg_bundles cfg_compatibility_expectations].
  rewrite (append_missing_done cp_id) by apply Hpolicies. rewrite (append_missing_done ce_id) by apply Hexpectations.
  rewrite append_missing_done; [done|]. intros bundle _ H. apply bool_decide_eq_true in H. cbn in H. set_solver.
Qed.

(** ** A configuration, compiled *)

(** A pattern that is one name or [*]; a URL without its parts. *)
#[local] Instance sample_globs : GlobOps string :=
  {| glob_new := Ok; glob_is_match := fun pattern value => String.eqb pattern "*" || String.eqb pattern value |}.

#[local] Instance sample_urls : UrlOps string :=
  {| url_parse := Ok; url_set_username := fun url _ => url; url_set_password := fun url _ => url;
     url_set_query := fun url _ => url; url_set_fragment := fun url _ => url; url_set_path := fun _ path => path;
     url_path := id; url_to_string := id; url_scheme := fun _ => "https"; url_host_str := Some; url_username := fun _ => "";
     url_password := fun _ => None; url_query_pairs := fun _ => [] |}.

Definition sample_policy (identifier : string) (selector : CapabilitySelector) (window : option Z)
    (extensions : list DeclarativeProbeCase) : CapabilityPolicy :=
  {| cp_id := identifier; cp_priority := 0; cp_selector := selector;
     cp_semantic := {| SemanticPolicy_default with sp_context_window := window |}; cp_evidence := [];
     cp_probe_candidates := ProbeCandidates_default; cp_extension_probes := extensions |}.

Definition any_model : CapabilitySelector := {| CapabilitySelector_default with cs_runtime_model_glob := Some "*" |}.
Definition one_model : CapabilitySelector := {| CapabilitySelector_default with cs_runtime_model := Some "glm-5" |}.

Definition weak_override : RouteCapabilityOverride :=
  {| sample_override with ro_id := "weak"; ro_selector := any_model; ro_reasoning_carrier := Some NoCarrier |}.
Definition strong_override : RouteCapabilityOverride := {| sample_override with ro_id := "strong"; ro_priority := 1 |}.

(** A general policy and one for the model, two overrides with different priorities, each the stronger first. *)
Definition sample_configuration : CapabilityConfiguration :=
  {| CapabilityConfiguration_default with
     cfg_policies :=
       [sample_policy "a-model" one_model (Some 2000) [sample_extension]; sample_policy "z-general" any_model (Some 1000) []];
     cfg_route_overrides := [strong_override; weak_override] |}.

Notation compile_sample := (compile (fun _ => (["{}"], None)) (fun _ => (["{}"], None)) id sample_configuration).

(** The sample route and request, with the overrides of a configuration. *)
Definition overridden_input (route_overrides : list RouteCapabilityOverride) : ResolutionInput :=
  {| sample_input with rn_route_overrides := route_overrides |}.

Lemma sample_strongest (A : Type) (s : OverrideSetting A) v :
  override_setting s strong_override = Some v -> override_decides sample_configuration sample_route s strong_override v.
Proof.
  intros Hv. split_and!; [by left|by eexists|done|].
  intros other Hother _ _. apply elem_of_cons in Hother as [->|Hother]; [done|].
  by apply list_elem_of_singleton in Hother as ->.
Qed.



