(* ===== verification/ContextProfile.v ===== *)
(** * Context windows of a model

    [src/src/state/context_profile.rs]: which window an upstream configures for a model, of
    its own or from the profile of its base URL, and which model of the same group has a
    larger one. A [HashMap] yields its values in an order that the class [IterOrder] gives;
    the outer [option] is the panic of the resolution of a name. *)

From S2P Require Import Prelude RouteTypes ModelIdentity UpstreamConfig CapabilityProfile.

Local Open Scope Z_scope.

(** ** Data *)

Record GlobalContextProfile := {
  gp_model_contexts : list ModelContextConfig;
  gp_default_model_context : option DefaultModelContextConfig
}.

(** [trim().trim_end_matches('/')]. *)
Definition normalize_context_profile_base_url (base_url : string) : string := trim_end_slashes (trim base_url).

(** [GlobalContextProfile::normalize_for_storage]. *)
Definition normalize_context_profile (self : GlobalContextProfile) : GlobalContextProfile :=
  {| gp_model_contexts := normalized_model_contexts (gp_model_contexts self);
     gp_default_model_context := normalized_default_model_context (gp_default_model_context self) |}.

(** Profiles are kept by their normalised URLs; of two that fall together the one that the map yields last stays. *)
Definition normalize_global_context_profiles_for_storage `{!IterOrder string GlobalContextProfile}
    (profiles : gmap string GlobalContextProfile) : gmap string GlobalContextProfile :=
  fold_left (fun stored '(base_url, profile) =>
      let base_url := normalize_context_profile_base_url base_url in
      if str_is_empty base_url then stored else <[base_url := normalize_context_profile profile]> stored)
    (iter_order profiles) ∅.

(** [AppState::global_context_profile_for_upstream_base_url]: the lookup in the stored profiles. *)
Definition global_context_profile_for_upstream_base_url (profiles : gmap string GlobalContextProfile) (base_url : string)
    : option GlobalContextProfile :=
  let base_url := normalize_context_profile_base_url base_url in
  if str_is_empty base_url then None else profiles !! base_url.

(** ** The window of a model *)

Definition context_of_default (model : string) (config : DefaultModelContextConfig) : ModelContextConfig :=
  {| mc_slug := trim model; mc_context_limit := dc_context_limit config; mc_output_reserve := dc_output_reserve config;
     mc_max_output_tokens := dc_max_output_tokens config; mc_context_group := dc_context_group config |}.

Definition slug_matches (case_insensitive : bool) (candidate : string) (config : ModelContextConfig) : bool :=
  if case_insensitive then models_equivalent (mc_slug config) candidate else String.eqb (trim (mc_slug config)) candidate.

Fixpoint configured_context (self : UpstreamConfig) (profile : option GlobalContextProfile) (case_insensitive : bool)
    (candidates : list string) : option ModelContextConfig :=
  match candidates with
  | [] => None
  | candidate :: candidates =>
      match find (slug_matches case_insensitive candidate) (uc_model_contexts self) with
      | Some config => Some config
      | None =>
          match (profile ← profile; find (slug_matches case_insensitive candidate) (gp_model_contexts profile)) with
          | Some config => Some config
          | None => configured_context self profile case_insensitive candidates
          end
      end
  end.

Definition context_config_for_model_with_profile_and_case (self : UpstreamConfig) (model : string)
    (profile : option GlobalContextProfile) (case_insensitive : bool) : option (option ModelContextConfig) :=
  resolved ← resolved_model_name_with self model case_insensitive;
  Some
    (candidate ← resolved;
     or_else (configured_context self profile case_insensitive [candidate; trim model])
       (or_else (context_of_default model <$> uc_default_model_context self)
          (profile ← profile; context_of_default model <$> gp_default_model_context profile))).

Definition context_config_for_model_with (self : UpstreamConfig) (model : string) (case_insensitive : bool)
    : option (option ModelContextConfig) :=
  context_config_for_model_with_profile_and_case self model None case_insensitive.

Definition context_config_for_model (self : UpstreamConfig) (model : string) : option (option ModelContextConfig) :=
  context_config_for_model_with self model true.

(** ** A model with a larger window *)

(** [HashMap::insert] of every config under its trimmed slug. *)
Definition insert_contexts (configs : list ModelContextConfig) (contexts : gmap string ModelContextConfig)
    : gmap string ModelContextConfig :=
  fold_left (fun contexts config => <[trim (mc_slug config) := config]> contexts) configs contexts.

Definition candidate_contexts (self : UpstreamConfig) (profile : option GlobalContextProfile)
    : gmap string ModelContextConfig :=
  insert_contexts (uc_model_contexts self) (insert_contexts (map_or [] gp_model_contexts profile) ∅).

(** The first candidate that is wanted and leads to another model than the current one. *)
Fixpoint first_other_model (self : UpstreamConfig) (case_insensitive : bool) (current_resolved : string)
    (wanted : ModelContextConfig -> bool) (candidates : list ModelContextConfig) : option (option string) :=
  match candidates with
  | [] => Some None
  | candidate :: candidates =>
      if wanted candidate then
        resolved ← resolved_model_name_with self (mc_slug candidate) case_insensitive;
        match resolved with
        | Some resolved =>
            if negb (String.eqb (trim resolved) (trim current_resolved)) then Some (Some resolved)
            else first_other_model self case_insensitive current_resolved wanted candidates
        | None => first_other_model self case_insensitive current_resolved wanted candidates
        end
      else first_other_model self case_insensitive current_resolved wanted candidates
  end.

(** The configs of the group with a larger window, the smallest first. *)
Definition larger_contexts `{!IterOrder string ModelContextConfig} (self : UpstreamConfig)
    (profile : option GlobalContextProfile) (current : ModelContextConfig) : list ModelContextConfig :=
  let group := trim (mc_context_group current) in
  sort_by (fun left right => mc_context_limit left <=? mc_context_limit right)
    (retain (fun config => String.eqb (trim (mc_context_group config)) group &&
                           (mc_context_limit current <? mc_context_limit config))
       (iter_order (candidate_contexts self profile)).*2).

Definition context_fallback_model_for_with_profile_and_case `{!IterOrder string ModelContextConfig} (self : UpstreamConfig)
    (model : string) (minimum_context_limit : Z) (profile : option GlobalContextProfile) (case_insensitive : bool)
    : option (option string) :=
  current ← context_config_for_model_with_profile_and_case self model profile case_insensitive;
  match current with
  | None => Some None
  | Some current =>
      if str_is_empty (trim (mc_context_group current)) then Some None
      else
        resolved ← resolved_model_name_with self model case_insensitive;
        let current_resolved := default model resolved in
        let candidates := larger_contexts self profile current in
        found ← first_other_model self case_insensitive current_resolved
                  (fun candidate => minimum_context_limit <=? mc_context_limit candidate) candidates;
        match found with
        | Some resolved => Some (Some resolved)
        | None => first_other_model self case_insensitive current_resolved (fun _ => true) candidates
        end
  end.

(** ** Facts *)

(** A config leads to another model than the current one. *)
Definition leads_to (self : UpstreamConfig) (case_insensitive : bool) (current_resolved : string)
    (candidate : ModelContextConfig) (resolved : string) : Prop :=
  resolved_model_name_with self (mc_slug candidate) case_insensitive = Some (Some resolved) /\
  trim resolved <> trim current_resolved.

Lemma first_other_model_some self case_insensitive current wanted candidates resolved :
  first_other_model self case_insensitive current wanted candidates = Some (Some resolved) ->
  exists before candidate after, candidates = before ++ candidate :: after /\ wanted candidate = true /\
    leads_to self case_insensitive current candidate resolved /\
    (forall earlier other, earlier ∈ before -> wanted earlier = true -> ~ leads_to self case_insensitive current earlier other).
Proof.
  induction candidates as [|c candidates IH]; [done|]. cbn [first_other_model]. intros H.
  assert (Hskip : first_other_model self case_insensitive current wanted candidates = Some (Some resolved) ->
    (wanted c = true -> forall other, ~ leads_to self case_insensitive current c other) ->
    exists before candidate after, c :: candidates = before ++ candidate :: after /\ wanted candidate = true /\
      leads_to self case_insensitive current candidate resolved /\
      (forall earlier other, earlier ∈ before -> wanted earlier = true -> ~ leads_to self case_insensitive current earlier other)).
  { intros (before & candidate & after & -> & Hw & Hleads & Hbefore)%IH Hc. exists (c :: before), candidate, after.
    split_and!; [done..|]. intros earlier other [->|Hin]%elem_of_cons Hwanted; [by apply Hc|by apply Hbefore]. }
  destruct (wanted c) eqn:Hw; [|by apply Hskip].
  destruct (resolved_model_name_with self (mc_slug c) case_insensitive) as [[other|]|] eqn:Hr; [..|done]; cbn in H.
  - destruct (String.eqb_spec (trim other) (trim current)) as [Heq|Hne]; cbn in H.
    + apply Hskip; [done|]. intros _ other' [Hother Hne]. rewrite Hr in Hother. by simplify_eq.
    + simplify_eq. exists [], c, candidates. split_and!; [done..|]. by intros ? ? ?%elem_of_nil.
  - apply Hskip; [done|]. intros _ other [Hother _]. by rewrite Hr in Hother.
Qed.

Lemma first_other_model_none self case_insensitive current wanted candidates :
  first_other_model self case_insensitive current wanted candidates = Some None ->
  forall candidate resolved, candidate ∈ candidates -> wanted candidate = true ->
    ~ leads_to self case_insensitive current candidate resolved.
Proof.
  induction candidates as [|c candidates IH]; [by intros _ ? ? ?%elem_of_nil|]. cbn [first_other_model]. intros H.
  assert (Hrest : first_other_model self case_insensitive current wanted candidates = Some None /\
    (wanted c = true -> forall other, ~ leads_to self case_insensitive current c other)).
  { destruct (wanted c); [|done].
    destruct (resolved_model_name_with self (mc_slug c) case_insensitive) as [[other|]|] eqn:Hr; [..|done]; cbn in H.
    - destruct (String.eqb_spec (trim other) (trim current)) as [Heq|Hne]; [|done]. split; [done|].
      intros _ other' [Hother Hne]. rewrite Hr in Hother. by simplify_eq.
    - split; [done|]. intros _ other [Hother _]. by rewrite Hr in Hother. }
  destruct Hrest as [Hrest Hc]. intros candidate resolved [->|Hin]%elem_of_cons Hw; [by apply Hc|by apply IH].
Qed.

(** The configs that may replace the one of a model: of its group, with a larger window. *)
Definition larger_of_group (self : UpstreamConfig) (profile : option GlobalContextProfile)
    (current candidate : ModelContextConfig) : Prop :=
  (exists slug, candidate_contexts self profile !! slug = Some candidate) /\
  trim (mc_context_group candidate) = trim (mc_context_group current) /\
  mc_context_limit current < mc_context_limit candidate.

Section order.
  Context `{!IterOrder string ModelContextConfig}.

Lemma larger_contexts_elem self profile current candidate :
  candidate ∈ larger_contexts self profile current <-> larger_of_group self profile current candidate.
Proof.
  unfold larger_contexts, larger_of_group. rewrite sort_by_perm, retain_elem, iter_order_perm, andb_true_iff, String.eqb_eq, Z.ltb_lt.
  assert (candidate ∈ (map_to_list (candidate_contexts self profile)).*2 <->
    exists slug, candidate_contexts self profile !! slug = Some candidate) as ->; [|tauto].
  rewrite list_elem_of_fmap. split.
  - intros ([slug c] & -> & Hin). exists slug. by apply elem_of_map_to_list.
  - intros [slug Hslug]. exists (slug, candidate). split; [done|]. by apply elem_of_map_to_list.
Qed.

Lemma larger_contexts_sorted self profile current :
  StronglySorted (fun left right => (mc_context_limit left <=? mc_context_limit right) = true) (larger_contexts self profile current).
Proof.
  apply Sorted_StronglySorted; [intros a b c; lia|]. apply sort_by_sorted. intros a b. lia.
Qed.

(** When a model has no room for a request, the upstream falls back to a model of the same group with a larger window: the
    smallest one that has room, or, when none has, the smallest of them all; it never falls back to the same model, and it
    gives up only when the group has no other. *)
Theorem fallback_smallest_that_fits (self : UpstreamConfig) (model : string) (minimum : Z)
    (profile : option GlobalContextProfile) (case_insensitive : bool) :
  match context_fallback_model_for_with_profile_and_case self model minimum profile case_insensitive with
  | Some (Some fallback) =>
      exists current name candidate,
        context_config_for_model_with_profile_and_case self model profile case_insensitive = Some (Some current) /\
        resolved_model_name_with self model case_insensitive = Some name /\
        larger_of_group self profile current candidate /\
        leads_to self case_insensitive (default model name) candidate fallback /\
        forall other other_model, larger_of_group self profile current other ->
          leads_to self case_insensitive (default model name) other other_model ->
          (minimum <= mc_context_limit other -> minimum <= mc_context_limit candidate <= mc_context_limit other) /\
          (mc_context_limit candidate < minimum -> mc_context_limit candidate <= mc_context_limit other)
  | Some None =>
      forall current name candidate other_model,
        context_config_for_model_with_profile_and_case self model profile case_insensitive = Some (Some current) ->
        str_is_empty (trim (mc_context_group current)) = false ->
        resolved_model_name_with self model case_insensitive = Some name ->
        larger_of_group self profile current candidate ->
        ~ leads_to self case_insensitive (default model name) candidate other_model
  | None => True
  end.
Proof.
  unfold context_fallback_model_for_with_profile_and_case.
  destruct (context_config_for_model_with_profile_and_case self model profile case_insensitive) as [[current|]|]; cbn; [|done..].
  destruct (str_is_empty (trim (mc_context_group current))) eqn:Hgroup; [by intros ? ? ? ? [= <-] ?; congruence|].
  destruct (resolved_model_name_with self model case_insensitive) as [name|] eqn:Hname; cbn; [|done].
  pose proof (larger_contexts_sorted self profile current) as Hsorted.
  assert (Helem : forall candidate, larger_of_group self profile current candidate <-> candidate ∈ larger_contexts self profile current)
    by (intros; by rewrite larger_contexts_elem).
  set (candidates := larger_contexts self profile current) in *.
  assert (Hmin : forall before candidate after other, candidates = before ++ candidate :: after -> other ∈ candidates ->
    other ∈ before \/ mc_context_limit candidate <= mc_context_limit other).
  { intros before candidate after other Heq Hother. rewrite Heq in Hsorted, Hother.
    apply elem_of_app in Hother as [?|[->|Hother]%elem_of_cons]; [by left|right; lia|]. right.
    apply StronglySorted_app_1_r in Hsorted. apply StronglySorted_inv in Hsorted as [_ Hsorted]. rewrite Forall_forall in Hsorted.
    apply Hsorted in Hother. lia. }
  destruct (first_other_model self case_insensitive (default model name) (fun candidate => minimum <=? _) candidates)
    as [[fallback|]|] eqn:Hfits; cbn; [| |done].
  - destruct (first_other_model_some _ _ _ _ _ _ Hfits) as (before & candidate & after & Heq & Hw & Hleads & Hbefore).
    exists current, name, candidate. split_and!; [done|done|apply Helem; rewrite Heq; set_solver|done|]. intros other other_model Hother%Helem Hl.
    destruct (Hmin _ _ _ _ Heq Hother) as [Hin|Hle]; [|lia]. split; [|lia]. intros Hfit. exfalso.
    eapply Hbefore; [exact Hin|lia|exact Hl].
  - pose proof (first_other_model_none _ _ _ _ _ Hfits) as Hnone.
    destruct (first_other_model self case_insensitive (default model name) (fun _ => true) candidates) as [[fallback|]|] eqn:Hany; [| |done].
    + destruct (first_other_model_some _ _ _ _ _ _ Hany) as (before & candidate & after & Heq & _ & Hleads & Hbefore).
      exists current, name, candidate. split_and!; [done|done|apply Helem; rewrite Heq; set_solver|done|]. intros other other_model Hother%Helem Hl. split.
      * intros Hfit. exfalso. eapply Hnone; [exact Hother|lia|exact Hl].
      * intros _. destruct (Hmin _ _ _ _ Heq Hother) as [Hin|Hle]; [|done]. exfalso. by eapply Hbefore.
    + intros ? ? candidate other_model [= <-] _ [= <-] Hin%Helem. by eapply (first_other_model_none _ _ _ _ _ Hany).
Qed.

End order.

(** ** Upstreams with two windows of a group *)

#[local] Instance context_order : IterOrder string ModelContextConfig := canonical_order _ _.

Definition window (slug : string) (limit : Z) : ModelContextConfig :=
  {| mc_slug := slug; mc_context_limit := limit; mc_output_reserve := 1; mc_max_output_tokens := 0; mc_context_group := "gpt" |}.

Definition windows_upstream : UpstreamConfig :=
  {| sample_upstream with
     uc_supported_models := ["gpt-s"; "gpt-m"; "gpt-l"]; uc_model_mappings := [];
     uc_model_contexts := [window "gpt-l" 400; window "gpt-s" 100; window "gpt-m" 200] |}.

Example fallback_fits :
  context_fallback_model_for_with_profile_and_case windows_upstream "GPT-S" 150 None true = Some (Some "gpt-m") /\
  context_fallback_model_for_with_profile_and_case windows_upstream "gpt-s" 300 None true = Some (Some "gpt-l") /\
  context_fallback_model_for_with_profile_and_case windows_upstream "gpt-s" 900 None true = Some (Some "gpt-m") /\
  context_fallback_model_for_with_profile_and_case windows_upstream "gpt-l" 900 None true = Some None.
Proof. by vm_compute. Qed.
