(* ===== verification/RequestFeatures.v ===== *)
(** * What a request asks for

    [requested_features_for_request] of [src/src/server/gateway/capability_routing.rs] and
    the functions around it: which capabilities the body of a request requires and which it
    would like, how a stored continuation adds to them, and what is left of them when the
    route speaks the chat protocol.

    The scans add to the features one after the other; a scan that descends into nested
    parts first lists the objects that it visits. *)

From S2P Require Import Prelude RouteTypes ProbeQueue RuntimeHints ModelIdentity UpstreamConfig StreamCommit Json ImageAdapter CapabilityTypes.

Local Open Scope Z_scope.

(** ** Accessors *)

Definition as_bool (value : Value) : option bool := match value with JBool b => Some b | _ => None end.

Definition map_get_str (object : json_map) (key : string) : option string := v ← map_get object key; as_str v.

(** [Value::get] on a path of keys, as [Value::pointer] for keys that are no numbers. *)
Definition get_path (value : Value) (path : list string) : option Value :=
  fold_left (fun found key => v ← found; get v key) path (Some value).

(** ** Features *)

Definition require (capability : Capability) (features : RequestedFeatures) : RequestedFeatures :=
  {| features with rf_required := {[ capability ]} ∪ rf_required features |}.

Definition prefer (capability : Capability) (features : RequestedFeatures) : RequestedFeatures :=
  {| features with rf_optional := {[ capability ]} ∪ rf_optional features |}.

(** [optional.remove]. *)
Definition unprefer (capability : Capability) (features : RequestedFeatures) : RequestedFeatures :=
  {| features with rf_optional := rf_optional features ∖ {[ capability ]} |}.

Definition allow_downgrade (features : RequestedFeatures) : RequestedFeatures :=
  {| features with rf_allow_reasoning_history_downgrade := true |}.

Definition select_tool_kind (kind : string) (features : RequestedFeatures) : RequestedFeatures :=
  {| features with rf_explicitly_selected_tool_kind := Some kind |}.

Definition require_if (condition : bool) (capability : Capability) (features : RequestedFeatures) : RequestedFeatures :=
  if condition then require capability features else features.

(** ** Images *)

Definition require_image_url (url : string) (features : RequestedFeatures) : RequestedFeatures :=
  if text_starts_with "https://" url then require ImageHttps features
  else if text_starts_with "data:" url then require ImageDataUrl features
  else features.

(** The parts of the contents of a list of items. *)
Definition content_parts (items : list Value) : list Value :=
  concat ((fun item => default [] (get_array item "content")) <$> items).

Definition scan_responses_images (body : Value) (features : RequestedFeatures) : RequestedFeatures :=
  match get_array body "input" with
  | None => features
  | Some input =>
      fold_left (fun features part =>
          if negb (bool_decide (get_str part "type" = Some "input_image")) then features
          else match get_str part "image_url" with Some url => require_image_url url features | None => features end)
        (content_parts input) features
  end.

Definition chat_image_url (part : Value) : option string :=
  value ← get part "image_url";
  match value with
  | JString value => Some value
  | JObject object => map_get_str object "url"
  | _ => None
  end.

Definition scan_chat_images (body : Value) (features : RequestedFeatures) : RequestedFeatures :=
  match get_array body "messages" with
  | None => features
  | Some messages =>
      fold_left (fun features part =>
          if negb (bool_decide (get_str part "type" = Some "image_url")) then features
          else match chat_image_url part with Some url => require_image_url url features | None => features end)
        (content_parts messages) features
  end.

(** ** Nested parts *)

(** The objects that a scan visits, each before the ones below it: a list is entered, an object at the given keys. *)
Fixpoint visited (keys : list string) (value : Value) : list json_map :=
  match value with
  | JArray items =>
      (fix go (items : list Value) : list json_map :=
         match items with [] => [] | item :: items => visited keys item ++ go items end) items
  | JObject object =>
      object ::
      concat (map (fun key =>
        (fix field (fields : json_map) : list json_map :=
           match fields with
           | [] => []
           | (k, v) :: fields => if String.eqb k key then visited keys v else field fields
           end) object) keys)
  | _ => []
  end.

(** A file that the upstream has stored. *)
Definition is_file_part (object : json_map) : bool :=
  is_some (map_get_str object "file_id") &&
  bool_decide (map_get_str object "type" ∈ [Some "file"; Some "input_file"]).

Definition scan_file_capabilities (value : Value) (features : RequestedFeatures) : RequestedFeatures :=
  fold_left (fun features object => require_if (is_file_part object) NativeFileId features)
    (visited ["content"; "input"; "messages"] value) features.

Definition scan_responses_files (body : Value) (features : RequestedFeatures) : RequestedFeatures :=
  match get body "input" with Some input => scan_file_capabilities input features | None => features end.

Definition scan_chat_files (body : Value) (features : RequestedFeatures) : RequestedFeatures :=
  match get body "messages" with Some messages => scan_file_capabilities messages features | None => features end.

(** ** Tools *)

Definition is_hosted_kind (kind : string) : bool := bool_decide (kind ∈ ["web_search"; "file_search"; "computer_use"]).

Definition scan_tool (features : RequestedFeatures) (tool : Value) : RequestedFeatures :=
  match get_str tool "type" with
  | None => require FunctionTools features
  | Some kind =>
      if is_hosted_kind kind then prefer HostedTools features
      else if String.eqb kind "namespace" then require NamespaceTools features
      else if String.eqb kind "custom" then require CustomTools features
      else if String.eqb kind "function" then require FunctionTools features
      else features
  end.

Definition require_hosted (features : RequestedFeatures) : RequestedFeatures :=
  require HostedTools (unprefer HostedTools features).

Definition scan_tool_choice (choice : option Value) (features : RequestedFeatures) : RequestedFeatures :=
  match choice with
  | Some (JString choice) =>
      if String.eqb choice "required" then require ForcedToolChoice features
      else if is_hosted_kind choice then select_tool_kind choice (require_hosted (require ForcedToolChoice features))
      else features
  | Some (JObject choice) =>
      let features := require ForcedToolChoice features in
      match map_get_str choice "type" with
      | None => features
      | Some kind =>
          let features := select_tool_kind kind features in
          if is_hosted_kind kind then require_hosted features
          else if String.eqb kind "namespace" then require NamespaceTools features
          else if String.eqb kind "custom" then require CustomTools features
          else if String.eqb kind "function" then require FunctionTools features
          else features
      end
  | _ => features
  end.

Definition scan_responses_tools (body : Value) (features : RequestedFeatures) : RequestedFeatures :=
  scan_tool_choice (get body "tool_choice") (fold_left scan_tool (default [] (get_array body "tools")) features).

Definition has_tools (body : Value) : bool := is_some_and (fun tools => negb (is_empty tools)) (get_array body "tools").

Definition scan_chat_tools (body : Value) (features : RequestedFeatures) : RequestedFeatures :=
  let features := require_if (has_tools body) FunctionTools features in
  match get body "tool_choice" with
  | Some (JString choice) => require_if (String.eqb choice "required") ForcedToolChoice features
  | Some (JObject _) => require ForcedToolChoice features
  | _ => features
  end.

(** ** Reasoning *)

Definition require_reasoning (features : RequestedFeatures) : RequestedFeatures :=
  require ReasoningReplay (require ReasoningOutput features).

Definition scan_reasoning_object (features : RequestedFeatures) (object : json_map) : RequestedFeatures :=
  match map_get_str object "type" with
  | Some kind =>
      if String.eqb kind "reasoning" then allow_downgrade (require_reasoning features)
      else if String.eqb kind "function_call" &&
              is_some_and (fun namespace => negb (str_is_empty namespace)) (map_get_str object "namespace")
        then require NamespaceTools features
      else if String.eqb kind "custom_tool_call" then require CustomTools features
      else if String.eqb kind "function_call_output" || String.eqb kind "custom_tool_call_output"
        then require ToolContinuation features
      else features
  | None => features
  end.

Definition scan_responses_reasoning (body : Value) (features : RequestedFeatures) : RequestedFeatures :=
  match get body "input" with
  | Some input => fold_left scan_reasoning_object (visited ["content"] input) features
  | None => features
  end.

(** [thinking_signature::is_gateway_issued_thinking_signature]. *)
Definition is_gateway_issued_thinking_signature (signature : string) : bool := text_starts_with "gw1." signature.

(** The thinking blocks of a message, and whether a block is signed by the gateway. *)
Definition thinking_blocks (messages : list Value) : list Value :=
  concat ((fun message => default [] (get_array message "_gateway_claude_thinking")) <$> messages).

Definition gateway_signed (block : Value) : bool :=
  is_some_and is_gateway_issued_thinking_signature (get_str block "signature").

Definition has_plain_reasoning (message : Value) : bool :=
  is_some_and (fun thinking => negb (str_is_empty thinking)) (get_str message "reasoning_content").

Definition scan_chat_reasoning (body : Value) (features : RequestedFeatures) : RequestedFeatures :=
  let adaptive_claude_thinking :=
    bool_decide ((v ← get_path body ["_gateway_claude"; "thinking"; "type"]; as_str v) = Some "adaptive") in
  let messages := default [] (get_array body "messages") in
  let foreign_signed_claude_thinking := existsb (fun block => negb (gateway_signed block)) (thinking_blocks messages) in
  let gateway_signed_claude_thinking := existsb gateway_signed (thinking_blocks messages) in
  let plain_reasoning_history := existsb has_plain_reasoning messages in
  if foreign_signed_claude_thinking then require_reasoning features
  else if gateway_signed_claude_thinking || plain_reasoning_history then allow_downgrade (require_reasoning features)
  else if adaptive_claude_thinking then prefer ReasoningReplay (prefer ReasoningOutput features)
  else features.

(** ** The features of a request *)

Definition requested_features_for_request (endpoint : EndpointKind) (body : Value) : RequestedFeatures :=
  let features := RequestedFeatures_default in
  let features :=
    match endpoint with
    | EndpointResponses =>
        scan_responses_reasoning body (scan_responses_files body (scan_responses_tools body (scan_responses_images body features)))
    | EndpointChatCompletions =>
        scan_chat_reasoning body (scan_chat_files body (scan_chat_tools body (scan_chat_images body features)))
    end in
  if default false (v ← get body "parallel_tool_calls"; as_bool v) && has_tools body
  then prefer ParallelToolCalls features else features.

Definition known_tool_kinds : list string := ["function"; "namespace"; "custom"; "web_search"; "file_search"; "computer_use"].

Definition is_unknown_tool (tool : Value) : bool :=
  match tool with
  | JObject object =>
      if is_some (v ← map_get object "function"; as_object v) then false
      else negb (is_some_and (fun kind => bool_decide (kind ∈ known_tool_kinds)) (map_get_str object "type"))
  | _ => true
  end.

Definition request_has_unknown_tool_kind (endpoint : EndpointKind) (body : Value) : bool :=
  match endpoint with
  | EndpointChatCompletions => false
  | EndpointResponses =>
      existsb is_unknown_tool (default [] (get_array body "tools")) ||
      is_some_and (fun kind => negb (bool_decide (kind ∈ known_tool_kinds)))
        (choice ← get body "tool_choice"; object ← as_object choice; map_get_str object "type")
  end.

(** ** Chat routes *)

(** [required.remove] of a capability that becomes optional when it was required. *)
Definition downgrade (capability : Capability) (features : RequestedFeatures) : RequestedFeatures :=
  if bool_decide (capability ∈ rf_required features)
  then prefer capability {| features with rf_required := rf_required features ∖ {[ capability ]} |}
  else features.

Definition adapt_requested_features_for_protocol (requested : RequestedFeatures) (protocol : UpstreamProtocol)
    : RequestedFeatures :=
  match protocol with
  | UpChatCompletions =>
      let adapted :=
        if is_none (rf_continuation_profile requested) && rf_allow_reasoning_history_downgrade requested
        then downgrade ReasoningReplay (downgrade ReasoningOutput requested) else requested in
      let uses_function_adapter :=
        bool_decide (NamespaceTools ∈ rf_required adapted) || bool_decide (CustomTools ∈ rf_required adapted) in
      let adapted := {| adapted with rf_required := rf_required adapted ∖ {[ NamespaceTools ]} ∖ {[ CustomTools ]} |} in
      require_if uses_function_adapter FunctionTools adapted
  | _ => requested
  end.
