(* ===== verification/RequestFeaturesFacts.v ===== *)
(** * What a request asks for: theorems

    The scans of [RequestFeatures] find exactly what the body of a request uses, at every
    depth, and a chat route is never asked for more than it can be given. *)

From S2P Require Import Prelude RouteTypes ProbeQueue RuntimeHints ModelIdentity UpstreamConfig StreamCommit Json ImageAdapter CapabilityTypes RequestFeatures.

Local Open Scope Z_scope.

(** ** What the scans find *)

(** The objects that are found below a value through lists and the given keys. *)
Inductive reaches (keys : list string) : Value -> json_map -> Prop :=
| reaches_here object : reaches keys (JObject object) object
| reaches_item items item object : item ∈ items -> reaches keys item object -> reaches keys (JArray items) object
| reaches_field fields key value object :
    key ∈ keys -> map_get fields key = Some value -> reaches keys value object -> reaches keys (JObject fields) object.

Lemma elem_of_concat {A} (x : A) ls : x ∈ concat ls <-> exists l, l ∈ ls /\ x ∈ l.
Proof. rewrite list_elem_of_In, in_concat. by setoid_rewrite list_elem_of_In. Qed.

Lemma visited_array keys items : visited keys (JArray items) = concat (visited keys <$> items).
Proof. cbn [visited]. induction items as [|item items IH]; [done|]. csimpl. by rewrite IH. Qed.

Lemma visited_object keys object :
  visited keys (JObject object) =
    object :: concat ((fun key => match map_get object key with Some v => visited keys v | None => [] end) <$> keys).
Proof.
  cbn [visited]. f_equal. f_equal. apply map_ext. intros key.
  induction object as [|[k v] object IH]; [done|]. cbn [map_get]. by destruct (String.eqb k key).
Qed.

Lemma visited_reaches keys value object : object ∈ visited keys value <-> reaches keys value object.
Proof.
  split.
  - revert object. induction value as [| | | |items IH|fields IH] using Value_nested_ind; intros object;
      try by intros ?%elem_of_nil.
    + rewrite visited_array, elem_of_concat. intros (l & (item & -> & Hitem)%list_elem_of_fmap & Hin). rewrite Forall_forall in IH. eapply reaches_item; [done|by apply IH].
    + rewrite visited_object. intros [->|Hin]%elem_of_cons; [constructor|].
      apply elem_of_concat in Hin as (l & (key & -> & Hkey)%list_elem_of_fmap & Hin). destruct (map_get fields key) as [v|] eqn:Hv; [|by apply elem_of_nil in Hin].
      eapply reaches_field; [done|done|].
      assert (H : forall v, map_get fields key = Some v -> forall object, object ∈ visited keys v -> reaches keys v object); [|by apply H].
      clear -IH. induction IH as [|[k w] l Hw _ IHl]; [done|]. cbn [map_get]. destruct (String.eqb k key); [|done]. by intros v [= <-].
  - induction 1 as [object|items item object Hitem _ IH|fields key value object Hkey Hget _ IH].
    + rewrite visited_object. by left.
    + rewrite visited_array. apply elem_of_concat. exists (visited keys item). split; [|done]. by apply list_elem_of_fmap_2.
    + rewrite visited_object. right. apply elem_of_concat. exists (visited keys value). split; [|done].
      apply list_elem_of_fmap. exists key. by rewrite Hget.
Qed.

(** *** Adding up

    A step adds capabilities to what is required, whatever was required before. *)
Definition adds {A} (step : RequestedFeatures -> A -> RequestedFeatures) : Prop :=
  forall features x, rf_required (step features x) = rf_required (step RequestedFeatures_default x) ∪ rf_required features.

Lemma adds_fold {A} (step : RequestedFeatures -> A -> RequestedFeatures) l features capability :
  adds step ->
  capability ∈ rf_required (fold_left step l features) <->
    (exists x, x ∈ l /\ capability ∈ rf_required (step RequestedFeatures_default x)) \/ capability ∈ rf_required features.
Proof.
  intros Hadds. revert features. induction l as [|x l IH]; intros features; simpl.
  - split; [by right|]. by intros [(? & ?%elem_of_nil & _)|?].
  - rewrite IH, (Hadds features x), elem_of_union. setoid_rewrite elem_of_cons. split.
    + intros [(y & Hy & H)|[H|H]]; [left; by exists y; auto|left; by exists x; auto|by right].
    + intros [(y & [->|Hy] & H)|H]; [by right; left|left; by exists y|by right; right].
Qed.

Ltac solve_adds :=
  intros features x; unfold require_image_url, require_if, require_hosted, require_reasoning; repeat case_match; set_solver.

Lemma image_adds (ask : Value -> option string) kind : adds (fun features part =>
  if negb (bool_decide (get_str part "type" = Some kind)) then features
  else match ask part with Some url => require_image_url url features | None => features end).
Proof. solve_adds. Qed.

Lemma file_adds : adds (fun features object => require_if (is_file_part object) NativeFileId features).
Proof. solve_adds. Qed.

Lemma tool_adds : adds scan_tool.
Proof. unfold scan_tool. solve_adds. Qed.

Lemma choice_adds choice features :
  rf_required (scan_tool_choice choice features) =
    rf_required (scan_tool_choice choice RequestedFeatures_default) ∪ rf_required features.
Proof. unfold scan_tool_choice, require_hosted. repeat case_match; set_solver. Qed.

Lemma reasoning_adds : adds scan_reasoning_object.
Proof. unfold scan_reasoning_object. solve_adds. Qed.

(** *** One step of a scan *)

Definition image_capability (url : string) : option Capability :=
  if text_starts_with "https://" url then Some ImageHttps
  else if text_starts_with "data:" url then Some ImageDataUrl else None.

(** The URL of an image of a request. *)
Definition image_url_of (endpoint : EndpointKind) (part : Value) : option string :=
  match endpoint with
  | EndpointResponses => if bool_decide (get_str part "type" = Some "input_image") then get_str part "image_url" else None
  | EndpointChatCompletions => if bool_decide (get_str part "type" = Some "image_url") then chat_image_url part else None
  end.

Definition items_key (endpoint : EndpointKind) : string :=
  match endpoint with EndpointResponses => "input" | EndpointChatCompletions => "messages" end.

Definition request_items (endpoint : EndpointKind) (body : Value) : list Value :=
  default [] (get_array body (items_key endpoint)).

Lemma image_step (ask : Value -> option string) kind part capability :
  capability ∈ rf_required (
    if negb (bool_decide (get_str part "type" = Some kind)) then RequestedFeatures_default
    else match ask part with Some url => require_image_url url RequestedFeatures_default | None => RequestedFeatures_default end) <->
  exists url, (if bool_decide (get_str part "type" = Some kind) then ask part else None) = Some url /\
    image_capability url = Some capability.
Proof.
  unfold require_image_url, image_capability. case_bool_decide; simpl; [|set_solver].
  destruct (ask part) as [url|]; [|set_solver]. split.
  - intros Hin. exists url. split; [done|]. repeat case_match; set_solver.
  - intros (other & [= <-] & Hin). repeat case_match; set_solver.
Qed.

Lemma tool_step tool capability :
  capability ∈ rf_required (scan_tool RequestedFeatures_default tool) <->
    match capability with
    | FunctionTools => get_str tool "type" ∈ [None; Some "function"]
    | NamespaceTools => get_str tool "type" ∈ [Some "namespace"]
    | CustomTools => get_str tool "type" ∈ [Some "custom"]
    | _ => False
    end.
Proof.
  unfold scan_tool. destruct (get_str tool "type") as [kind|]; [|destruct capability; set_solver].
  destruct (is_hosted_kind kind) eqn:Hhosted.
  { apply bool_decide_eq_true in Hhosted. destruct capability; set_solver. }
  destruct (String.eqb_spec kind "namespace") as [->|?]; [destruct capability; set_solver|].
  destruct (String.eqb_spec kind "custom") as [->|?]; [destruct capability; set_solver|].
  destruct (String.eqb_spec kind "function") as [->|?]; destruct capability; set_solver.
Qed.

Definition choice_kind (choice : option Value) : option string :=
  choice ← choice; object ← as_object choice; map_get_str object "type".

(** The kinds of tools that a choice names, as an object or as a text. *)
Definition chosen_hosted (choice : option Value) : Prop :=
  exists kind, is_hosted_kind kind = true /\ (choice = Some (JString kind) \/ choice_kind choice = Some kind).

Lemma choice_step choice capability :
  capability ∈ rf_required (scan_tool_choice choice RequestedFeatures_default) <->
    match capability with
    | ForcedToolChoice =>
        choice = Some (JString "required") \/ chosen_hosted choice \/ exists object, choice = Some (JObject object)
    | HostedTools => chosen_hosted choice
    | FunctionTools => choice_kind choice = Some "function"
    | NamespaceTools => choice_kind choice = Some "namespace"
    | CustomTools => choice_kind choice = Some "custom"
    | _ => False
    end.
Proof.
  unfold scan_tool_choice, chosen_hosted, choice_kind, require_hosted.
  destruct choice as [[| | |choice| |object]|]; simpl; try (destruct capability; set_solver).
  - destruct (String.eqb_spec choice "required") as [->|Hne].
    { assert (Hno : forall kind, is_hosted_kind kind = true -> kind <> "required") by (intros kind Hk ->; by vm_compute in Hk).
      destruct capability; simpl; set_solver. }
    assert (Hsame : forall kind, Some (JString choice) = Some (JString kind) \/ @None string = Some kind -> kind = choice) by naive_solver.
    destruct (is_hosted_kind choice) eqn:Hkind; destruct capability; simpl; split; intros H; try set_solver.
    + destruct H as (kind & Hk & Heq). rewrite (Hsame kind Heq) in Hk. congruence.
    + destruct H as [H|[(kind & Hk & Heq)|[object H]]]; [naive_solver| |done]. rewrite (Hsame kind Heq) in Hk. congruence.
  - assert (Hobject : exists o, Some (JObject object) = Some (JObject o)) by by exists object.
    destruct (map_get_str object "type") as [kind|]; [|destruct capability; set_solver].
    assert (Hhosted : (exists k, is_hosted_kind k = true /\ (Some (JObject object) = Some (JString k) \/ Some kind = Some k)) <->
      is_hosted_kind kind = true) by naive_solver.
    assert (Hkinds : is_hosted_kind kind = true -> kind <> "function" /\ kind <> "namespace" /\ kind <> "custom")
      by (intros Hk; split_and!; intros ->; by vm_compute in Hk).
    assert (Heq : forall k, Some kind = Some k <-> kind = k) by naive_solver.
    destruct (is_hosted_kind kind) eqn:Hk; [|destruct (String.eqb_spec kind "namespace") as [->|?];
      [|destruct (String.eqb_spec kind "custom") as [->|?]; [|destruct (String.eqb_spec kind "function") as [->|?]]]];
      destruct capability; simpl; rewrite ?Hhosted, ?Heq; set_solver.
Qed.

Definition named_call (object : json_map) : bool :=
  is_some_and (fun namespace => negb (str_is_empty namespace)) (map_get_str object "namespace").

Lemma reasoning_step object capability :
  capability ∈ rf_required (scan_reasoning_object RequestedFeatures_default object) <->
    match capability with
    | ReasoningOutput | ReasoningReplay => map_get_str object "type" ∈ [Some "reasoning"]
    | NamespaceTools => map_get_str object "type" = Some "function_call" /\ named_call object = true
    | CustomTools => map_get_str object "type" ∈ [Some "custom_tool_call"]
    | ToolContinuation => map_get_str object "type" ∈ [Some "function_call_output"; Some "custom_tool_call_output"]
    | _ => False
    end.
Proof.
  unfold scan_reasoning_object, require_reasoning. fold (named_call object).
  destruct (map_get_str object "type") as [kind|]; [|destruct capability; set_solver].
  assert (Heq : forall k, Some kind = Some k <-> kind = k) by naive_solver.
  destruct (String.eqb_spec kind "reasoning") as [->|?]; [destruct capability; set_solver|].
  destruct (String.eqb_spec kind "function_call") as [->|?].
  { destruct (named_call object); destruct capability; simpl; set_solver. }
  destruct (String.eqb_spec kind "custom_tool_call") as [->|?]; [destruct capability; set_solver|].
  destruct (String.eqb_spec kind "function_call_output") as [->|?]; [destruct capability; set_solver|].
  destruct (String.eqb_spec kind "custom_tool_call_output") as [->|?]; destruct capability; set_solver.
Qed.

(** *** What a request demands *)

(** An object of the items of a request, at any depth that the keys reach. *)
Definition in_items (endpoint : EndpointKind) (keys : list string) (body : Value) (object : json_map) : Prop :=
  exists items, get body (items_key endpoint) = Some items /\ reaches keys items object.

Definition has_item (body : Value) (kinds : list (option string)) : Prop :=
  exists object, in_items EndpointResponses ["content"] body object /\ map_get_str object "type" ∈ kinds.

Definition has_tool (body : Value) (kinds : list (option string)) : Prop :=
  exists tool, tool ∈ default [] (get_array body "tools") /\ get_str tool "type" ∈ kinds.

(** The history of a request carries reasoning. *)
Definition carries_history (endpoint : EndpointKind) (body : Value) : Prop :=
  match endpoint with
  | EndpointResponses => has_item body [Some "reasoning"]
  | EndpointChatCompletions =>
      exists message, message ∈ request_items EndpointChatCompletions body /\
        (default [] (get_array message "_gateway_claude_thinking") <> [] \/ has_plain_reasoning message = true)
  end.

Definition demanded (endpoint : EndpointKind) (body : Value) (capability : Capability) : Prop :=
  let choice := get body "tool_choice" in
  let responses := endpoint = EndpointResponses in
  match capability with
  | ImageHttps | ImageDataUrl =>
      exists part url, part ∈ content_parts (request_items endpoint body) /\ image_url_of endpoint part = Some url /\
        image_capability url = Some capability
  | NativeFileId =>
      exists object, in_items endpoint ["content"; "input"; "messages"] body object /\ is_file_part object = true
  | ReasoningOutput | ReasoningReplay => carries_history endpoint body
  | ToolContinuation => responses /\ has_item body [Some "function_call_output"; Some "custom_tool_call_output"]
  | NamespaceTools =>
      responses /\ (has_tool body [Some "namespace"] \/ choice_kind choice = Some "namespace" \/
        exists object, in_items EndpointResponses ["content"] body object /\
          map_get_str object "type" = Some "function_call" /\ named_call object = true)
  | CustomTools =>
      responses /\ (has_tool body [Some "custom"] \/ choice_kind choice = Some "custom" \/ has_item body [Some "custom_tool_call"])
  | FunctionTools =>
      match endpoint with
      | EndpointResponses => has_tool body [None; Some "function"] \/ choice_kind choice = Some "function"
      | EndpointChatCompletions => has_tools body = true
      end
  | HostedTools => responses /\ chosen_hosted choice
  | ForcedToolChoice =>
      choice = Some (JString "required") \/ (exists object, choice = Some (JObject object)) \/ responses /\ chosen_hosted choice
  | _ => False
  end.

Lemma images_found endpoint body features capability :
  capability ∈ rf_required (match endpoint with
    | EndpointResponses => scan_responses_images body features
    | EndpointChatCompletions => scan_chat_images body features end) <->
  match capability with
  | ImageHttps | ImageDataUrl =>
      exists part url, part ∈ content_parts (request_items endpoint body) /\ image_url_of endpoint part = Some url /\
        image_capability url = Some capability
  | _ => False
  end \/ capability ∈ rf_required features.
Proof.
  transitivity ((exists part url, part ∈ content_parts (request_items endpoint body) /\ image_url_of endpoint part = Some url /\
     image_capability url = Some capability) \/ capability ∈ rf_required features).
  2: { f_equiv. assert (Hrange : forall url, image_capability url = Some capability -> capability = ImageHttps \/ capability = ImageDataUrl)
         by (intros url; unfold image_capability; repeat case_match; naive_solver).
       split; [|by destruct capability]. intros (part & url & Hp & Hu & Hc). destruct (Hrange url Hc) as [-> | ->]; by exists part, url. }
  assert (H : forall kind ask items,
    capability ∈ rf_required (fold_left (fun features part =>
      if negb (bool_decide (get_str part "type" = Some kind)) then features
      else match ask part with Some url => require_image_url url features | None => features end) (content_parts items) features) <->
    (exists part url, part ∈ content_parts items /\ (if bool_decide (get_str part "type" = Some kind) then ask part else None) = Some url /\
       image_capability url = Some capability) \/ capability ∈ rf_required features).
  { intros kind ask items. rewrite adds_fold by apply image_adds. setoid_rewrite image_step. naive_solver. }
  unfold request_items, image_url_of. destruct endpoint; simpl.
  - unfold scan_chat_images. destruct (get_array body "messages"); [apply H|]. simpl. set_solver.
  - unfold scan_responses_images. destruct (get_array body "input"); [apply H|]. simpl. set_solver.
Qed.

Lemma files_found endpoint body features capability :
  capability ∈ rf_required (match endpoint with
    | EndpointResponses => scan_responses_files body features
    | EndpointChatCompletions => scan_chat_files body features end) <->
  match capability with
  | NativeFileId => exists object, in_items endpoint ["content"; "input"; "messages"] body object /\ is_file_part object = true
  | _ => False
  end \/ capability ∈ rf_required features.
Proof.
  transitivity ((capability = NativeFileId /\ exists object, in_items endpoint ["content"; "input"; "messages"] body object /\
     is_file_part object = true) \/ capability ∈ rf_required features).
  2: { f_equiv. destruct capability; intuition congruence. }
  assert (H : forall items, capability ∈ rf_required (scan_file_capabilities items features) <->
    (capability = NativeFileId /\ exists object, reaches ["content"; "input"; "messages"] items object /\ is_file_part object = true) \/
    capability ∈ rf_required features).
  { intros items. unfold scan_file_capabilities. rewrite adds_fold by apply file_adds. setoid_rewrite visited_reaches.
    f_equiv. split.
    - intros (object & Hin & Hc). unfold require_if in Hc. destruct (is_file_part object) eqn:Hf; set_solver.
    - intros (-> & object & Hin & Hf). exists object. rewrite Hf. simpl. set_solver. }
  unfold in_items. destruct endpoint; simpl; [unfold scan_chat_files|unfold scan_responses_files];
    (case_match; [rewrite H; naive_solver|naive_solver]).
Qed.

Lemma items_found body features capability :
  capability ∈ rf_required (scan_responses_reasoning body features) <->
  (exists object, in_items EndpointResponses ["content"] body object /\
     capability ∈ rf_required (scan_reasoning_object RequestedFeatures_default object)) \/ capability ∈ rf_required features.
Proof.
  unfold scan_responses_reasoning, in_items. simpl. destruct (get body "input") as [input|]; [|naive_solver].
  rewrite adds_fold by apply reasoning_adds. setoid_rewrite visited_reaches. naive_solver.
Qed.

Lemma tools_found body features capability :
  capability ∈ rf_required (scan_responses_tools body features) <->
  capability ∈ rf_required (scan_tool_choice (get body "tool_choice") RequestedFeatures_default) \/
  (exists tool, tool ∈ default [] (get_array body "tools") /\ capability ∈ rf_required (scan_tool RequestedFeatures_default tool)) \/
  capability ∈ rf_required features.
Proof.
  unfold scan_responses_tools. rewrite choice_adds, elem_of_union, adds_fold by apply tool_adds. tauto.
Qed.

Definition is_reasoning (capability : Capability) : Prop := capability = ReasoningOutput \/ capability = ReasoningReplay.

(** Something in the history of a chat request is signed by another party, by the gateway, or not at all. *)
Definition foreign_signed (body : Value) : bool :=
  existsb (fun block => negb (gateway_signed block)) (thinking_blocks (request_items EndpointChatCompletions body)).

Definition own_history (body : Value) : bool :=
  existsb gateway_signed (thinking_blocks (request_items EndpointChatCompletions body)) ||
  existsb has_plain_reasoning (request_items EndpointChatCompletions body).

Lemma existsb_cons_elem {A} (f : A -> bool) l : existsb f l = true <-> exists x, x ∈ l /\ f x = true.
Proof. rewrite existsb_exists. by setoid_rewrite list_elem_of_In. Qed.

Lemma chat_history body : foreign_signed body || own_history body = true <-> carries_history EndpointChatCompletions body.
Proof.
  unfold foreign_signed, own_history, carries_history. set (messages := request_items _ _).
  assert (Hblocks : existsb (fun block => negb (gateway_signed block)) (thinking_blocks messages) ||
      existsb gateway_signed (thinking_blocks messages) = true <->
    exists message, message ∈ messages /\ default [] (get_array message "_gateway_claude_thinking") <> []).
  { rewrite orb_true_iff, !existsb_cons_elem. split.
    - intros H. assert (exists block, block ∈ thinking_blocks messages) as [block Hblock] by naive_solver.
      apply elem_of_concat in Hblock as (blocks & (message & -> & Hm)%list_elem_of_fmap & Hb).
      exists message. split; [done|]. intros Hnil. rewrite Hnil in Hb. by apply elem_of_nil in Hb.
    - intros (message & Hm & Hne). destruct (default [] (get_array message "_gateway_claude_thinking")) as [|block blocks] eqn:Hb; [done|].
      assert (Hin : block ∈ thinking_blocks messages).
      { apply elem_of_concat. exists (block :: blocks). split; [|by left]. rewrite <- Hb.
        by apply (list_elem_of_fmap_2 (fun message => default [] (get_array message "_gateway_claude_thinking"))). }
      destruct (gateway_signed block) eqn:Hs; [right|left]; exists block; by rewrite ?Hs. }
  rewrite orb_assoc, orb_true_iff, Hblocks, existsb_cons_elem. naive_solver.
Qed.

Lemma chat_reasoning_found body features :
  scan_chat_reasoning body features =
    if foreign_signed body then require_reasoning features
    else if own_history body then allow_downgrade (require_reasoning features)
    else if bool_decide ((v ← get_path body ["_gateway_claude"; "thinking"; "type"]; as_str v) = Some "adaptive")
    then prefer ReasoningReplay (prefer ReasoningOutput features) else features.
Proof. done. Qed.

Lemma require_reasoning_elem features capability :
  capability ∈ rf_required (require_reasoning features) <-> is_reasoning capability \/ capability ∈ rf_required features.
Proof. unfold require_reasoning, is_reasoning. simpl. set_solver. Qed.

Lemma history_found body features capability :
  capability ∈ rf_required (scan_chat_reasoning body features) <->
  match capability with ReasoningOutput | ReasoningReplay => carries_history EndpointChatCompletions body | _ => False end \/
  capability ∈ rf_required features.
Proof.
  transitivity (is_reasoning capability /\ carries_history EndpointChatCompletions body \/ capability ∈ rf_required features).
  2: { f_equiv. unfold is_reasoning. destruct capability; intuition congruence. }
  rewrite chat_reasoning_found, <- chat_history. destruct (foreign_signed body); [rewrite require_reasoning_elem; simpl; tauto|].
  destruct (own_history body); simpl.
  - pose proof (require_reasoning_elem features capability) as H. simpl in H. rewrite H. tauto.
  - case_bool_decide; simpl; intuition congruence.
Qed.

Lemma chat_tools_found body features capability :
  capability ∈ rf_required (scan_chat_tools body features) <->
  match capability with
  | FunctionTools => has_tools body = true
  | ForcedToolChoice => get body "tool_choice" = Some (JString "required") \/ exists object, get body "tool_choice" = Some (JObject object)
  | _ => False
  end \/ capability ∈ rf_required features.
Proof.
  unfold scan_chat_tools, require_if. destruct (has_tools body);
    (destruct (get body "tool_choice") as [[| | |choice| |object]|]; [| | |destruct (String.eqb_spec choice "required") as [->|?]|..]);
    destruct capability; simpl; split; intros H; set_solver.
Qed.

Lemma features_required endpoint body :
  rf_required (requested_features_for_request endpoint body) =
    rf_required
      match endpoint with
      | EndpointResponses =>
          scan_responses_reasoning body (scan_responses_files body
            (scan_responses_tools body (scan_responses_images body RequestedFeatures_default)))
      | EndpointChatCompletions =>
          scan_chat_reasoning body (scan_chat_files body (scan_chat_tools body (scan_chat_images body RequestedFeatures_default)))
      end.
Proof. unfold requested_features_for_request. by destruct (_ && has_tools body). Qed.

(** C26. The requirements of a request are exactly what its body uses, declaratively: the
    URLs of the images in the parts of its items; stored files in its items, at any depth
    that content, input and messages reach; the kinds of its tools, and for the Responses
    protocol those of the calls and outputs in its items, at any depth that content
    reaches; a choice that forces a tool; and reasoning in its history. *)
Theorem requirements_are_demands (endpoint : EndpointKind) (body : Value) (capability : Capability) :
  capability ∈ rf_required (requested_features_for_request endpoint body) <-> demanded endpoint body capability.
Proof.
  rewrite features_required. assert (Hnone : capability ∈ rf_required RequestedFeatures_default <-> False) by (simpl; set_solver).
  destruct endpoint.
  - pose proof (files_found EndpointChatCompletions body) as Hfiles. pose proof (images_found EndpointChatCompletions body) as Himages.
    cbn match in Hfiles, Himages. rewrite history_found, Hfiles, chat_tools_found, Himages, Hnone.
    assert (Hne : EndpointChatCompletions <> EndpointResponses) by done. clear -Hne. destruct capability; cbn; tauto.
  - pose proof (files_found EndpointResponses body) as Hfiles. pose proof (images_found EndpointResponses body) as Himages.
    cbn match in Hfiles, Himages.
    rewrite items_found, Hfiles, tools_found, Himages, Hnone. setoid_rewrite reasoning_step. setoid_rewrite tool_step. rewrite choice_step.
    assert (Hno : forall A (P : A -> Prop), (exists x, P x /\ False) <-> False) by naive_solver.
    clear -Hno. destruct capability; cbn; unfold has_tool, has_item; rewrite ?Hno; tauto.
Qed.

(** *** On a chat route *)

(** On a chat route, calls to namespaced and custom tools become calls of functions, and the reasoning in the history of
    an unpinned request that allows it is only asked for, not required; nothing else changes. *)
Theorem chat_adaptation (requested : RequestedFeatures) (capability : Capability) :
  let adapted := adapt_requested_features_for_protocol requested UpChatCompletions in
  let downgraded := rf_continuation_profile requested = None /\ rf_allow_reasoning_history_downgrade requested = true in
  (capability ∈ rf_required adapted <->
     match capability with
     | NamespaceTools | CustomTools => False
     | FunctionTools =>
         FunctionTools ∈ rf_required requested \/ NamespaceTools ∈ rf_required requested \/ CustomTools ∈ rf_required requested
     | ReasoningOutput | ReasoningReplay => capability ∈ rf_required requested /\ ~ downgraded
     | _ => capability ∈ rf_required requested
     end) /\
  (capability ∈ rf_optional adapted <->
     capability ∈ rf_optional requested \/ is_reasoning capability /\ capability ∈ rf_required requested /\ downgraded).
Proof.
  cbv zeta. unfold adapt_requested_features_for_protocol, downgrade, require_if, is_reasoning.
  destruct requested as [required optional kind [] [profile|] carrier]; cbn; repeat case_bool_decide; cbn in *;
    destruct capability; set_solver.
Qed.
